(* ===== verification/_CoqProject ===== *)
-Q . S2P
Prelude.v
Ordered.v
IpNetwork.v
VpcCapability.v
ConfigVersion.v
UpgradePolicy.v
StateHistory.v
HealthReport.v
HealthReportFacts.v
HealthSources.v
HealthSourcesFacts.v
HostHealth.v
HostHealthFacts.v
StateHandler.v
ObjectQueue.v
ControllerIO.v
ControllerTable.v
ProcessObject.v
ProcessObjectFacts.v
TableRuns.v
IterationMetrics.v
Processor.v
ProcessorFacts.v
PeriodicEnqueuer.v
PerObject.v
PerObjectFacts.v
WorkLock.v
ResourcePool.v
ResourcePoolFacts.v
NetworkSegment.v
NetworkSegmentFacts.v
VpcPrefix.v
VpcPrefixFacts.v
LinknetAllocator.v
LinknetAllocatorFacts.v
PrefixAllocation.v
PrefixPlan.v
PrefixAllocationFacts.v
AttemptFacts.v
PrefixExecution.v
PrefixPlanFacts.v
AddressSpace.v
IpPrefix.v
IpSet.v
IpSetFacts.v
IpAllocator.v
IpAllocatorFacts.v
Credentials.v
Calls.v
CredentialRotation.v
PowerShelfTable.v
SwitchTable.v
RmsNodeIdentity.v
RotationWorld.v
HandlerRuns.v
RotationEngine.v
SitePause.v
RotationEngineFacts.v
RotationRuns.v
Admission.v
AdmissionEngine.v
AdmissionFacts.v
NvosRotation.v
RmsBackend.v
NvosRotationFacts.v
NvosRotationRuns.v
NvosRotationDemo.v
RmsBackendFacts.v
SwitchController.v
SwitchControllerFacts.v
SwitchPasswords.v
SwitchRuns.v
SwitchInterfaces.v
SwitchReprovisioning.v
SwitchDemo.v
PowerShelf.v
PowerShelfFacts.v
PowerShelfRuns.v
StageRotation.v
StageRotationFacts.v
