(* ===== verification/Prelude.v ===== *)
(** * Verification of the NVIDIA Infra Controller (NICo) core

    NICo manages bare-metal machines and their networks.  Its objects (network
    segments, partitions, machines, racks ..) live in PostgreSQL tables and are driven
    by state controllers: a periodic enqueuer lists the objects and puts them into a
    queue table, processors on several hosts take objects from the queue and run the
    handler of each object, and a handler decides for a transition of the object's
    controller state, which is stored with optimistic locking and a history record.
    Around this core are work locks (leases in the database), resource pools (VLAN ids,
    addresses and prefixes to hand out), the allocation of addresses and of linknets to
    the interfaces of instances, the health of hosts, the metrics that controllers
    publish, the rotation of the passwords of baseboard controllers (BMCs) and of switches,
    the rack manager service (RMS) through which switches, power shelves and compute trays
    are operated, the switches and the power shelves, whose controllers carry the rotations
    out, and the admission of requests to the API.
    This library models these parts; all paths are below [src/crates/].

    ** Files

    - [Prelude]: results, machine integers, decimal printing and parsing, aligned
      blocks of addresses, loops with binary fuel, tactics and the hint database.
    - [Ordered]: comparison functions, [BTreeSet] and [BTreeMap] as sorted lists.
    - [IpNetwork]: the [ipnetwork] crate as the class [IpNetworks], with laws and a
      reference instance.
    - [ConfigVersion] ([config-version/src/lib.rs]): versions of stored states; [chrono]
      is a class with laws.
    - [StateHistory] ([api-db/src/state_history.rs]): the history tables and the trigger
      that keeps the newest 250 records of an object.
    - [StateHandler] ([state-controller/src/state_handler.rs], [db_write_batch.rs],
      [api-model/src/controller_outcome.rs]): outcomes, errors, deferred writes, SLAs.
    - [ObjectQueue] ([state-controller/src/controller/db.rs], [enqueuer.rs]): the queue and
      iteration tables; a SQL statement is a function on the table, and what SQL leaves
      open (scan order, rows locked by others) is an argument.
    - [ControllerIO] ([state-controller/src/io.rs]): the trait [StateControllerIO] as a
      class, its laws, and the view of a database as states and histories.
      [ControllerTable] ([api-db/src/network_segment.rs]) is an instance that discharges
      the laws; [TableRuns] lifts the theorems on one run to every object type that keeps
      its states in such a table.
    - [ProcessObject], [ProcessObjectFacts] ([controller/processor.rs], [process_object]):
      the handling of one object as a monad over the committed database.  An oracle
      decides for every database call whether others interfere before it and whether it
      succeeds, fails, fails after taking effect, or meets the timeout.
    - [IterationMetrics] ([state-controller/src/metrics.rs], [utils/src/metrics.rs]): the
      counts per state that a processor publishes, and their holder.
    - [Processor], [ProcessorFacts] ([controller/processor.rs]): dispatching, completing,
      finalizing, emitting and draining, and several processors over one queue as a step relation
      with crashes and unconfirmed commits.
    - [PeriodicEnqueuer] ([controller/periodic_enqueuer.rs]).
    - [PerObject], [PerObjectFacts] ([health-metrics/src/per_object.rs],
      [state-controller/src/per_object.rs]): the store of series per object, gauges and
      registry, and the state gauges of controllers, which interleave with scrapes.
    - [UpgradePolicy] ([api-model/src/machine/upgrade_policy.rs], [api-db/src/machine.rs]).
    - [HealthReport], [HealthReportFacts] ([health-report/src/lib.rs]): reports and merging.
    - [HealthSources], [HealthSourcesFacts] ([api-model/src/health.rs],
      [api-db/src/health_report.rs], [health_history.rs], [rpc/src/lib.rs],
      [api-core/src/handlers/health.rs]): the reports stored for an object by source, the
      requests that change them, and their history.
    - [HostHealth], [HostHealthFacts] ([api-model/src/machine/mod.rs]): the aggregate health
      of a host with its DPUs and its rack, and whether the host can take an instance.
    - [WorkLock] ([api-db/src/work_lock_manager.rs]): the lock table, the command queue of
      a manager, keepalives and fencing transactions as a step relation.
    - [ResourcePool], [ResourcePoolFacts] ([api-db/src/resource_pool.rs]).
    - [NetworkSegment], [NetworkSegmentFacts] ([network-segment-controller/src/handler.rs],
      [io.rs]): the first object type on the controller, its handler as an argument of
      [process_object] and its tables as an instance of [StateControllerIO].
    - [VpcCapability] ([api-model/src/vpc/capability.rs]).
    - [VpcPrefix], [VpcPrefixFacts] ([api-db/src/vpc_prefix.rs], [network_prefix.rs],
      [vpc-prefix-controller/src/handler.rs], [io.rs]): the tables of VPCs, VPC prefixes,
      segments and network prefixes with their constraints, and the second object type.
    - [LinknetAllocator], [LinknetAllocatorFacts]
      ([api-core/src/network_segment/allocate.rs]): the search for a free linknet.
    - [PrefixAllocation], [PrefixPlan] ([api-core/src/instance/mod.rs]): loading, planning and
      executing the allocation of linknets, as a monad with savepoints, row locks and
      commits of other transactions between the statements.  [PrefixAllocationFacts] has
      the invariants of one attempt and the rows that it leaves, [AttemptFacts] an attempt
      without interference, [PrefixExecution] the queues of works and [PrefixPlanFacts] the
      request.  [AddressSpace] puts all statements on these tables into one step relation.
    - [IpPrefix], [IpSet], [IpSetFacts] ([network/src/ip/prefix.rs], [ipset.rs]); the
      [ipnet] crate is the class [Ipnet].
    - [IpAllocator], [IpAllocatorFacts] ([api-db/src/ip_allocator.rs]).
    - [Credentials] ([secrets/src/credentials.rs]): passwords, their policy, and the paths
      of secrets.
    - [Calls]: programs that call databases, stores and devices.  A script decides before
      every call what others do and whether the call works, fails before or after it took
      effect, or the process dies; with Hoare triples over all scripts.
    - [CredentialRotation] ([api-db/src/credential_rotation.rs]): the targets of a site and
      the rows of devices, with their statements.
    - [RotationWorld] ([secrets/src/credentials.rs], [chained_reader.rs],
      [redfish/src/libredfish/mod.rs]): the world of the rotations: databases, secret stores,
      BMCs, switches and the jobs of their backend.  [RotationEngine], [RotationEngineFacts], [RotationRuns]
      ([credential-rotation/src/lib.rs]): a run of the engine on a device, the gate with its
      cache, and sequences of runs.  [SitePause] ([site_explorer_pause.rs],
      [api-db/src/bmc_suppression.rs]): holding site explorer off a BMC, and what a rotation
      leaves alone.
    - [StageRotation], [StageRotationFacts] ([api-core/src/handlers/credential_rotation.rs]):
      the requests that stage a rotation and report on it.
    - [HandlerRuns]: a handler as calls on the world, with the transaction it leaves to the
      processor, one run of the processor on an object of any table of the world, and the
      state machine of such runs; and, once for all such tables, that a run is what
      [process_object] does with the result of the handler.
    - [NvosRotation] ([switch-controller/src/nvos_password_rotation.rs],
      [configuring.rs], [endpoint.rs]): the rotation of the password of a switch over the class
      [NvSwitchManager] of backends.  [NvosRotationFacts] has the promises of a backend
      ([PasswordBackend], [RejectsCleanly]) and the triples of all operations,
      [NvosRotationRuns] the runs in which nothing fails, [NvosRotationDemo] a backend.
    - [RmsNodeIdentity] ([rack/src/rms_node_type.rs], [api-model/src/rack_type.rs]): how a
      rack profile describes its nodes to RMS.
    - [RmsBackend], [RmsBackendFacts] ([component-manager/src/rms.rs]): the backend of the
      component manager that talks to RMS, over the class [RmsApi] of the service; its
      operations on passwords are an instance of [NvSwitchManager].
    - [SwitchTable] ([api-model/src/switch/], [api-db/src/switch.rs],
      [machine_interface.rs]): rows, states and statements of switches and the interfaces they
      claim.  [SwitchController] ([switch-controller/src/]): the handlers of all states of a
      switch and their runs, over a component manager, and the instance of
      [StateControllerIO].  [SwitchControllerFacts] has the
      state machine, [SwitchPasswords] the safety of the password in every state,
      [SwitchRuns] the way of a new target to a switch, [SwitchInterfaces] the claiming of
      interfaces, [SwitchReprovisioning] the phases a rack asks for; [SwitchDemo] puts the RMS backend under
      the controller and evaluates both.
    - [PowerShelfTable] ([api-model/src/power_shelf/], [api-db/src/power_shelf.rs]),
      [PowerShelf], [PowerShelfFacts], [PowerShelfRuns] ([power-shelf-controller/src/]): the
      controller of power shelves, with all of its handlers and its instance of
      [StateControllerIO].
    - [Admission], [AdmissionEngine], [AdmissionFacts] ([api-core/src/admission/]): limits,
      estimates and retry advice, and the engine as a step relation over the class
      [Dispatcher] of fair queues.

    ** What the theorems show

    - Handling one object: it never panics; a reported transition was committed, on the
      state that was loaded; a lost optimistic lock leaves no trace; states and histories
      stay together under every failure; errors and waits are stored as documented.
    - Processors: at most one handler runs for an object, and a running task holds its
      row, under stated assumptions ([Assumptions] of [Processor]: finalizing commits are
      confirmed, and finished objects are finalized before their rows are stale).  Two
      theorems show that neither assumption can be dropped.  An iteration of the code is a
      sequence of steps of the system.  The published metrics count every object exactly
      once, in whatever order the objects are visited.  The concurrency is bounded,
      finalizing is all or nothing, a drained processor leaves no row behind.
    - Queue and enqueuer: what each statement changes and returns; gauges of deleted
      objects are cleared after the last handler task has timed out.
    - Work locks: exclusion while leases are valid, no change of owner under a fence or
      before expiry, releases before later acquisitions, a bounded command queue.
    - Network segments: a run makes one step of the life cycle or none, under every
      failure; a segment is kept for the drain period after it was ready or seen with
      addresses; then it goes with its identifiers, in one transaction.
    - VPC prefixes: the same for VPC prefixes, which are kept while linknets refer to them.
    - Linknets: the search finds the first free linknet after the last used one, around
      the end, exactly when there is one; counts are exact up to the width of the result.
      A request for instances ends, under every interference and failure, either with every
      interface given a linknet of the VPC or VPC prefix it asked for, or with an error,
      which is an internal one only for a requested IPv4-mapped address.  When others leave
      the rows of the transaction and keep the constraints ([isolated]), these linknets are in
      the database, inside a VPC prefix of that VPC, on segments of their own.  Concurrent
      requests take their locks in one global order and cannot deadlock.  In every reachable
      database the prefixes in use do not overlap, lie in the VPC prefix they refer to, and
      refer to existing rows.
    - Health: merging is characterised, associative and keeps reports well formed; alert
      times persist while an alert lasts; a host is usable exactly when it is ready, has
      no instance and no pending boot configuration, and none of the sources that count has
      an alert that prevents allocations; a stored report replaces the one of its source;
      requests and answers convert back and forth.
    - Metrics per object: the operations of the store are atomic, and the series of an
      object agree on the state they show.
    - Upgrades: when an agent is told to upgrade; the order of versions and its limits.
    - Resource pools: allocation refines a map from values to owners, which keep their
      values until these are released; errors are exact,
      delegation partitions the parent prefix, reconciliation is additive and idempotent.
    - Sets of addresses: lookup, union and the difference with a prefix that is in the set
      as a whole or not at all are those of sets of addresses, and the stored prefixes are
      canonical.
    - Address allocation: which subnet is handed out for every strategy and length, that
      exhaustion is reported only when none is free, and that the count of free
      addresses is exact as long as the networks in use do not overlap each other; with
      overlapping networks addresses in use are handed out again.
    - Versions: which versions survive being stored.
    - Rotation: whatever calls fail and wherever the process dies, a run leaves a device
      whose password is the stored one or the announced one, and the next undisturbed run
      converges, as long as no new target is published while the two differ; with such a
      target no later run reaches the device.  Failed logins of a run are bounded.  A target is published only after its
      secret was stored; staging, its errors, the gate and the pause are characterised;
      paths of different secrets differ.
    - Switch passwords: under every failure, crash and interleaving with the backend, the
      account of a switch has the confirmed or the staged password, and a run reports
      success only when the store has the password of the account; when nothing fails and
      the backend responds, a switch reaches the version it aims at.  This needs a backend
      that rejects only what it has never accepted ([RejectsCleanly]).
    - Switches: a run moves a switch along its state machine only, under every failure, and
      is what [process_object] does with the result of the handler.  In every state the
      password of the switch stays recoverable, and the controller leaves the rotation for
      [FetchInfo] only when store and account agree; a switch in [Ready] behind a new target
      gets its password and is in [Ready] again, in every execution in which the controller
      runs again and again and the jobs of the backend end.  Interfaces are claimed all together or
      not at all, and never from another switch.  A request of the rack runs through exactly
      the phases it asks for, one run for each, and ends in the state that their reports
      amount to; a request
      that is taken back during a run strands the switch.
    - RMS: a submission and the polls of its job keep the promises on which the rotation
      relies, if the service reports its jobs truthfully ([ServiceTruthful]), up to a
      completed parent job that lists no child; every batch operation answers each endpoint
      once, in order, or fails as a whole without a call; the outcome of a factory reset follows exactly from the jobs
      that RMS lists; descriptors are complete and overridden attributes are warned of.
    - Power shelves: a run moves a shelf along its state machine only, and is what
      [process_object] does with the result of the handler; the password of a shelf changes
      only under a pause that has been in force long enough, which ends with the return to
      [Ready]; an undisturbed run ends a
      rotation, and two end a deletion.  A request that the rack takes back during a run
      strands the shelf.
    - Admission: the counts of pending and running requests never exceed the limits, in
      every reachable state; a request is rejected exactly when a limit is reached, with
      advice within its range.

    ** Conventions and bounds

    Integers are [Z]; the width of the source's type is written out where it matters, and
    an arithmetic overflow is a panic, as the build enables overflow checks.  Times are
    integers of one unit per file.  Loops carry fuel that is computed from their input
    (the number of stored prefixes, the bits of an address, the candidates of a segment,
    always plus one; [group_fuel] of [PrefixAllocation] counts the candidates of all works
    of a group), and the theorems show that it is not used up; [replace] of [RotationEngine]
    has the length of the text.  A script of [Calls] is infinite, so that no call meets its end.  Third-party code is a
    class or an argument; every class has a reference instance, on which the hypotheses of
    the theorems are shown to be satisfiable.

    ** Not modelled

    Logging, tracing and OpenTelemetry; start-up and wiring; the handlers of the other
    object types (machines, racks, partitions), which are arguments of the
    controller; of the switches the queries that only list them, the statements on all
    switches of a rack, metadata and events; what RMS does to devices, of which
    only the answers and, for passwords, the jobs are modelled; the redaction of errors inside the Redfish client and its account ids; the effects of the
    component manager on power shelves, of which only the answers are arguments; the end of
    the admission engine when its drain times out; the SQL outside the tables above; the API
    around the modelled requests; agents, device clients, command line tools and generated
    code. *)

From Stdlib Require Export Ascii String.
From stdpp Require Export prelude gmap strings list sorting fin_maps.
From Stdlib Require Export ZArith Lia.
From Stdlib Require Import DecimalString DecimalN DecimalPos.

#[global] Open Scope Z_scope.

(** ** Automation of the development *)

Create HintDb nico discriminated.

(** Case analysis on every [match] and [if] of the goal and the hypotheses,
    pruning the impossible branches. *)
Ltac crush_match :=
  repeat (case_match; simplify_eq/=); try done.

(** Unfold the boolean tests of the source into propositions. *)
Ltac to_prop :=
  repeat match goal with
  | H : (_ && _) = true |- _ => apply andb_true_iff in H as [? ?]
  | H : (_ || _) = false |- _ => apply orb_false_iff in H as [? ?]
  | H : negb _ = true |- _ => apply negb_true_iff in H
  | H : negb _ = false |- _ => apply negb_false_iff in H
  | H : bool_decide _ = true |- _ => apply bool_decide_eq_true in H
  | H : bool_decide _ = false |- _ => apply bool_decide_eq_false in H
  | H : Z.ltb _ _ = true |- _ => apply Z.ltb_lt in H
  | H : Z.ltb _ _ = false |- _ => apply Z.ltb_ge in H
  | H : Z.leb _ _ = true |- _ => apply Z.leb_le in H
  | H : Z.leb _ _ = false |- _ => apply Z.leb_gt in H
  | H : Z.eqb _ _ = true |- _ => apply Z.eqb_eq in H
  | H : Z.eqb _ _ = false |- _ => apply Z.eqb_neq in H
  end.

(** Discharge a closed side condition by evaluation. *)
Ltac by_eval :=
  solve [ vm_compute; repeat split; first [reflexivity | discriminate | intros; discriminate] ].

(** ** Fallible code: Rust's [Result] *)

Inductive result (E A : Type) :=
| Ok (a : A)
| Err (e : E).
Arguments Ok {E A} a.
Arguments Err {E A} e.

#[export] Instance result_ret {E} : MRet (result E) := fun A a => Ok a.
#[export] Instance result_bind {E} : MBind (result E) :=
  fun A B f r => match r with Ok a => f a | Err e => Err e end.
#[export] Instance result_fmap {E} : FMap (result E) :=
  fun A B f r => match r with Ok a => Ok (f a) | Err e => Err e end.

(** [Result::map_err]. *)
Definition map_err {E F A} (f : E → F) (r : result E A) : result F A :=
  match r with Ok a => Ok a | Err e => Err (f e) end.

(** [Option::ok_or]. *)
Definition ok_or {E A} (o : option A) (e : E) : result E A :=
  match o with Some a => Ok a | None => Err e end.

Lemma result_bind_ok {E A B} (r : result E A) (f : A → result E B) b :
  r ≫= f = Ok b → ∃ a, r = Ok a ∧ f a = Ok b.
Proof. destruct r; [eauto | done]. Qed.

Lemma result_bind_err {E A B} (r : result E A) (f : A → result E B) e :
  r ≫= f = Err e → r = Err e ∨ ∃ a, r = Ok a ∧ f a = Err e.
Proof. destruct r; [eauto | left; by simplify_eq/=]. Qed.

Lemma result_mapM_ok {E A B} (f : A → result E B) xs ys :
  mapM f xs = Ok ys → Forall2 (λ x y, f x = Ok y) xs ys.
Proof.
  revert ys. induction xs as [|x xs IH]; intros ys; simpl; [by intros [= <-]|].
  intros (y & Hy & (ys' & Hys & [= <-])%result_bind_ok)%result_bind_ok. constructor; auto.
Qed.

Lemma result_mapM_err {E A B} (f : A → result E B) xs e :
  mapM f xs = Err e → ∃ x, x ∈ xs ∧ f x = Err e.
Proof.
  induction xs as [|x xs IH]; simpl; [done|]. destruct (f x) as [y|e'] eqn:Hf; simpl.
  - destruct (mapM f xs); simpl; [done|]. intros (x' & Hx & Hf')%IH. exists x'. by split; [right|].
  - intros [= <-]. exists x. by split; [left|].
Qed.

Lemma result_mapM_total {E A B} (f : A → result E B) xs :
  (∀ x, x ∈ xs → ∃ y, f x = Ok y) → ∃ ys, mapM f xs = Ok ys.
Proof.
  induction xs as [|x xs IH]; intros H; simpl; [by eexists|].
  destruct (H x) as [y ->]; [by left|]. destruct IH as [ys Eys]; [intros; apply H; by right|].
  simpl. rewrite Eys. by eexists.
Qed.

(** ** Machine integers *)

Definition u32_max : Z := 2 ^ 32 - 1.
Definition u64_max : Z := 2 ^ 64 - 1.
Definition u128_max : Z := 2 ^ 128 - 1.
Definition i64_max : Z := 2 ^ 63 - 1.
Definition i64_min : Z := - 2 ^ 63.

(** [u64::wrapping_add]. *)
Definition wrapping_add_u64 (a b : Z) : Z := (a + b) mod 2 ^ 64.

(** [saturating_sub] of the unsigned types. *)
Definition saturating_sub (a b : Z) : Z := Z.max 0 (a - b).

(** ** Decimal numbers: [to_string] and [parse] of the unsigned types *)

Definition print_u (n : Z) : string := NilZero.string_of_uint (N.to_uint (Z.to_N n)).

(** [i64] prints a minus sign in front of the digits of the magnitude. *)
Definition print_i (n : Z) : string :=
  if n <? 0 then String "-"%char (print_u (- n)) else print_u n.

(** [str::parse::<uN>]: an optional [+], at least one digit, nothing else,
    and a value of the type. *)
Definition parse_u (max : Z) (s : string) : option Z :=
  let digits := match s with
                | String "+"%char rest => rest
                | _ => s
                end in
  d ← NilZero.uint_of_string digits;
  let n := Z.of_N (N.of_uint d) in
  if n <=? max then Some n else None.

Lemma N_to_uint_not_nil n : N.to_uint n ≠ Decimal.Nil.
Proof. destruct n; [done | apply DecimalPos.Unsigned.to_uint_nonnil]. Qed.

(** Every character of a string satisfies the test. *)
Fixpoint all_chars (P : Ascii.ascii → bool) (s : string) : bool :=
  match s with
  | EmptyString => true
  | String c s' => P c && all_chars P s'
  end.

Definition is_digit (c : Ascii.ascii) : bool :=
  let n := Ascii.N_of_ascii c in (48 <=? n)%N && (n <=? 57)%N.

Lemma string_of_uint_digits d : all_chars is_digit (NilEmpty.string_of_uint d) = true.
Proof. induction d; done. Qed.

Lemma print_u_digits n : all_chars is_digit (print_u n) = true.
Proof.
  unfold print_u, NilZero.string_of_uint.
  destruct (N.to_uint _) eqn:E; try done;
    apply (string_of_uint_digits (_ _)).
Qed.

Lemma digits_no_dash u :
  all_chars is_digit u = true → all_chars (λ c, negb (Ascii.eqb c "-")) u = true.
Proof.
  induction u as [|c u IH]; [done|]. simpl. intros [Hc Hu]%andb_true_iff.
  rewrite IH by done. destruct c as [[] [] [] [] [] [] [] []]; vm_compute in Hc |- *; done.
Qed.

Lemma print_u_nonempty n : print_u n ≠ EmptyString.
Proof. unfold print_u, NilZero.string_of_uint. by destruct (N.to_uint _). Qed.

(** Printing then parsing an unsigned number of the type gives it back. *)
Lemma parse_print_u max n : 0 ≤ n ≤ max → parse_u max (print_u n) = Some n.
Proof.
  intros Hn. unfold parse_u.
  assert (match print_u n with String "+"%char rest => rest | _ => print_u n end = print_u n)
    as ->.
  { pose proof (print_u_digits n) as Hd. destruct (print_u n) as [|c s]; [done|].
    simpl in Hd. destruct c as [[] [] [] [] [] [] [] []]; done. }
  unfold print_u. rewrite NilZero.usu by apply N_to_uint_not_nil. simpl.
  rewrite DecimalN.Unsigned.of_to, Z2N.id by lia.
  by destruct (Z.leb_spec n max); [|lia].
Qed.

Lemma print_u_injective i j : 0 ≤ i → 0 ≤ j → print_u i = print_u j → i = j.
Proof.
  intros Hi Hj E. apply (f_equal (parse_u (Z.max i j))) in E. rewrite !parse_print_u in E by lia. by injection E.
Qed.

Lemma parse_u_bounds max s n : parse_u max s = Some n → 0 ≤ n ≤ max.
Proof.
  unfold parse_u. intros H. apply bind_Some in H as (d & _ & H).
  case_match; simplify_eq. to_prop. lia.
Qed.
#[export] Hint Resolve parse_u_bounds : nico.

(** *** Case and white space *)

Definition lower_char (c : ascii) : ascii :=
  let n := N_of_ascii c in
  if ((65 <=? n) && (n <=? 90))%N then ascii_of_N (n + 32) else c.

(** [str::to_lowercase] on ASCII *)
Fixpoint to_lowercase (s : string) : string :=
  match s with
  | EmptyString => EmptyString
  | String c s => String (lower_char c) (to_lowercase s)
  end.

(** The UTF-8 encodings of the characters with the Unicode property White_Space,
    which [str::trim] removes at both ends. *)
Definition white_space : list (list N) :=
  [ [9]; [10]; [11]; [12]; [13]; [32]; [0xC2; 0x85]; [0xC2; 0xA0]; [0xE1; 0x9A; 0x80];
    [0xE2; 0x80; 0x80]; [0xE2; 0x80; 0x81]; [0xE2; 0x80; 0x82]; [0xE2; 0x80; 0x83];
    [0xE2; 0x80; 0x84]; [0xE2; 0x80; 0x85]; [0xE2; 0x80; 0x86]; [0xE2; 0x80; 0x87];
    [0xE2; 0x80; 0x88]; [0xE2; 0x80; 0x89]; [0xE2; 0x80; 0x8A]; [0xE2; 0x80; 0xA8];
    [0xE2; 0x80; 0xA9]; [0xE2; 0x80; 0xAF]; [0xE2; 0x81; 0x9F]; [0xE3; 0x80; 0x80] ]%N.

Fixpoint strip_prefix (p : list N) (s : list ascii) : option (list ascii) :=
  match p, s with
  | [], _ => Some s
  | b :: p', c :: s' => if (N_of_ascii c =? b)%N then strip_prefix p' s' else None
  | _ :: _, [] => None
  end.

(** Drop matches of the patterns at the front, as long as there is one. *)
Fixpoint trim_front (fuel : nat) (pats : list (list N)) (s : list ascii) : list ascii :=
  match fuel with
  | O => s
  | S fuel' =>
      match head (omap (λ p, strip_prefix p s) pats) with
      | Some s' => trim_front fuel' pats s'
      | None => s
      end
  end.

(** [str::trim] *)
Definition trim (s : string) : string :=
  let l := list_ascii_of_string s in
  let l := trim_front (length l) white_space l in
  let l := reverse (trim_front (length l) (reverse <$> white_space) (reverse l)) in
  string_of_list_ascii l.

Lemma all_chars_app P s1 s2 :
  all_chars P (s1 +:+ s2) = all_chars P s1 && all_chars P s2.
Proof. induction s1 as [|c s1 IH]; [done|]. simpl. by rewrite IH, andb_assoc. Qed.

Lemma string_app_assoc (a b c : string) : a +:+ (b +:+ c) = (a +:+ b) +:+ c.
Proof.
  induction a as [|x a IH]; [done|].
  change (String x (a +:+ (b +:+ c)) = String x ((a +:+ b) +:+ c)). by rewrite IH.
Qed.

(** [str::split] on one character: always at least one part. *)
Fixpoint split_on (sep : Ascii.ascii) (s : string) : list string :=
  match s with
  | EmptyString => [EmptyString]
  | String c s' =>
      if Ascii.eqb c sep then EmptyString :: split_on sep s'
      else match split_on sep s' with
           | p :: ps => String c p :: ps
           | [] => [String c EmptyString]
           end
  end.

Lemma split_on_none sep s :
  all_chars (λ c, negb (Ascii.eqb c sep)) s = true → split_on sep s = [s].
Proof.
  induction s as [|c s IH]; [done|]. simpl. intros [Hc Hs]%andb_true_iff.
  apply negb_true_iff in Hc. by rewrite Hc, IH.
Qed.

Lemma split_on_app sep s1 s2 :
  all_chars (λ c, negb (Ascii.eqb c sep)) s1 = true →
  split_on sep (s1 +:+ String sep s2) = s1 :: split_on sep s2.
Proof.
  induction s1 as [|c s1 IH]; simpl.
  - by rewrite Ascii.eqb_refl.
  - intros [Hc Hs]%andb_true_iff. apply negb_true_iff in Hc. by rewrite Hc, IH.
Qed.

Lemma string_app_cons c (a b : string) : String c a +:+ b = String c (a +:+ b).
Proof. done. Qed.

Lemma string_app_nil_r (s : string) : s +:+ EmptyString = s.
Proof. induction s as [|c s IH]; [done|]. by rewrite string_app_cons, IH. Qed.

Lemma split_on_nonempty sep s : split_on sep s ≠ [].
Proof. destruct s as [|c s]; [done|]. simpl. repeat case_match; done. Qed.

(** Splitting distributes over a separator. *)
Lemma split_on_sep sep s t :
  split_on sep (s +:+ String sep t) = split_on sep s ++ split_on sep t.
Proof.
  induction s as [|c s IH]; [simpl; by rewrite Ascii.eqb_refl|].
  rewrite string_app_cons. simpl. rewrite IH. destruct (Ascii.eqb c sep); [done|].
  pose proof (split_on_nonempty sep s). by destruct (split_on sep s).
Qed.

(** [str::strip_suffix] *)
Fixpoint strip_suffix (p s : string) : option string :=
  if String.eqb s p then Some EmptyString
  else match s with
       | EmptyString => None
       | String c s' => String c <$> strip_suffix p s'
       end.

Lemma string_app_length (a b : string) :
  String.length (a +:+ b) = (String.length a + String.length b)%nat.
Proof. induction a as [|c a IH]; [done|]. rewrite string_app_cons. simpl. by rewrite IH. Qed.

Lemma strip_suffix_app p t : strip_suffix p (t +:+ p) = Some t.
Proof.
  induction t as [|c t IH].
  - change (EmptyString +:+ p) with p. destruct p; simpl; [done|].
    by rewrite Ascii.eqb_refl, String.eqb_refl.
  - rewrite string_app_cons. cbn [strip_suffix].
    destruct (String.eqb_spec (String c (t +:+ p)) p) as [E|_]; [|by rewrite IH].
    apply (f_equal String.length) in E. simpl in E. rewrite string_app_length in E. lia.
Qed.

Lemma strip_suffix_Some p s t : strip_suffix p s = Some t → s = t +:+ p.
Proof.
  revert t. induction s as [|c s IH]; intros t; cbn [strip_suffix].
  - destruct (String.eqb_spec EmptyString p) as [<-|]; [|done]. by intros [= <-].
  - destruct (String.eqb_spec (String c s) p) as [<-|]; [by intros [= <-]|].
    intros (t' & Ht & ->)%fmap_Some. by rewrite string_app_cons, <- (IH t').
Qed.

(** [str::starts_with]. *)
Definition starts_with (s p : string) : bool := String.prefix p s.

(** [parts.join(sep)]. *)
Fixpoint join (sep : string) (l : list string) : string :=
  match l with
  | [] => EmptyString
  | [s] => s
  | s :: l' => s +:+ sep +:+ join sep l'
  end.

Lemma join_cons sep s l : l ≠ [] → join sep (s :: l) = s +:+ sep +:+ join sep l.
Proof. by destruct l. Qed.

(** Joining parts without the separator and splitting them again. *)
Lemma split_join sep l : l ≠ [] →
  Forall (λ s, all_chars (λ c, negb (Ascii.eqb c sep)) s = true) l →
  split_on sep (join (String sep EmptyString) l) = l.
Proof.
  intros Hne. induction 1 as [|x l Hx Hl IH]; [done|]. destruct l as [|y l].
  - by apply split_on_none.
  - rewrite join_cons by done. change (String sep EmptyString +:+ ?z) with (String sep z).
    rewrite split_on_app by done. by rewrite IH.
Qed.

(** ** Aligned blocks of addresses *)

Lemma pow2_pos n : 0 ≤ n → 0 < 2 ^ n.
Proof. intros. by apply Z.pow_pos_nonneg. Qed.

Lemma aligned_mul a s : 0 < s → a mod s = 0 → a = a / s * s.
Proof. intros Hs Ha. pose proof (Z.div_mod a s ltac:(lia)). lia. Qed.

(** Two aligned blocks are nested or disjoint. *)
Lemma blocks_nested_or_disjoint a b s m : 0 < s → 0 < m → a mod (s * m) = 0 → b mod s = 0 →
  (a ≤ b ∧ b + s ≤ a + s * m) ∨ b + s ≤ a ∨ a + s * m ≤ b.
Proof.
  intros Hs Hm Ha Hb.
  apply aligned_mul in Ha, Hb; [|nia..].
  set (i := a / (s * m)) in *. set (j := b / s) in *. clearbody i j. subst.
  destruct (Z.le_gt_cases (i * m) j); [|right; left; nia].
  destruct (Z.lt_ge_cases j (i * m + m)); [left|right; right]; nia.
Qed.

(** ** Loops with binary fuel

    A [while] loop as the iteration of its body: [inl] is the next state, [inr] the
    exit.  The fuel is a [positive], so that a loop over a large address range with an
    early exit can be evaluated. *)

Fixpoint loop_nat {S R} (n : nat) (f : S → S + R) (s : S) : S + R :=
  match n with
  | O => inl s
  | Datatypes.S n => match f s with inl s => loop_nat n f s | inr r => inr r end
  end.

Fixpoint loop_pos {S R} (p : positive) (f : S → S + R) (s : S) : S + R :=
  match p with
  | xH => f s
  | xO p => match loop_pos p f s with inl s => loop_pos p f s | inr r => inr r end
  | xI p =>
      match f s with
      | inl s => match loop_pos p f s with inl s => loop_pos p f s | inr r => inr r end
      | inr r => inr r
      end
  end.

Lemma loop_nat_add {S R} n m (f : S → S + R) s :
  loop_nat (n + m) f s =
  match loop_nat n f s with inl s => loop_nat m f s | inr r => inr r end.
Proof. revert s. induction n as [|n IH]; intros s; simpl; [done|]. by destruct (f s). Qed.

Lemma loop_pos_nat {S R} p (f : S → S + R) s : loop_pos p f s = loop_nat (Pos.to_nat p) f s.
Proof.
  revert s. induction p as [p IH|p IH|]; intros s; simpl loop_pos.
  - rewrite Pos2Nat.inj_xI. simpl. destruct (f s) as [s'|]; [|done].
    rewrite Nat.add_0_r, loop_nat_add, IH. destruct (loop_nat _ f s'); [apply IH|done].
  - rewrite Pos2Nat.inj_xO. simpl. rewrite Nat.add_0_r, loop_nat_add, IH.
    destruct (loop_nat _ f s); [apply IH|done].
  - simpl. by destruct (f s).
Qed.

(** ** Filters *)

Lemma filter_id {A} (P : A → Prop) `{∀ x, Decision (P x)} (l : list A) :
  (∀ x, x ∈ l → P x) → filter P l = l.
Proof.
  induction l as [|x l IH]; intros Hall; [done|]. rewrite filter_cons, decide_True, IH; [done|..].
  - intros y Hy. apply Hall. by right.
  - apply Hall. by left.
Qed.

Lemma filter_nil_of {A} (P : A → Prop) `{∀ x, Decision (P x)} (l : list A) :
  (∀ x, x ∈ l → ¬ P x) → filter P l = [].
Proof.
  induction l as [|x l IH]; intros Hall; [done|]. rewrite filter_cons, decide_False, IH; [done|..].
  - intros y Hy. apply Hall. by right.
  - apply Hall. by left.
Qed.

(** ** Folds *)

(** A loop over two independent accumulators. *)
Lemma foldl_pair {A B C} (f : A → C → A) (g : B → C → B) (l : list C) x y :
  foldl (λ '(x, y) c, (f x c, g y c)) (x, y) l = (foldl f x l, foldl g y l).
Proof. revert x y. induction l as [|c l IH]; intros x y; simpl; auto. Qed.

(** A loop that keeps the last element. *)
Lemma foldl_last {A} (l : list A) o :
  foldl (λ _ x, Some x) o l = match last l with Some x => Some x | None => o end.
Proof.
  revert o. induction l as [|x l IH]; intros o; [done|]. cbn [foldl]. rewrite IH.
  rewrite last_cons. by destruct (last l).
Qed.
