(* ===== verification/Ordered.v ===== *)
(** * Ordered containers

    A [BTreeSet] of the source is a strictly sorted list over a comparison function:
    the order of the list is the iteration order of the container, and equality of
    containers is equality of lists.  The file also has the comparison of the key
    types the source uses (integers, strings, options, pairs). *)

From S2P Require Import Prelude.

(** ** Comparison functions: Rust's [Ord] *)

Class TotalCmp {A} (cmp : A → A → comparison) : Prop := {
  cmp_eq_iff x y : cmp x y = Eq ↔ x = y;
  cmp_antisym x y : cmp y x = CompOpp (cmp x y);
  cmp_lt_trans x y z : cmp x y = Lt → cmp y z = Lt → cmp x z = Lt;
}.

Arguments cmp_eq_iff {A} cmp {_} x y.
Arguments cmp_antisym {A} cmp {_} x y.
Arguments cmp_lt_trans {A} cmp {_} x y z.

Definition cmp_lt {A} (cmp : A → A → comparison) (x y : A) : Prop := cmp x y = Lt.

Section cmp_facts.
Context {A} (cmp : A → A → comparison) `{!TotalCmp cmp}.

Lemma cmp_refl x : cmp x x = Eq.
Proof. by apply (cmp_eq_iff cmp). Qed.

Lemma cmp_gt_lt x y : cmp x y = Gt ↔ cmp y x = Lt.
Proof. rewrite (cmp_antisym cmp x y). by destruct (cmp x y). Qed.

Lemma cmp_lt_irrefl x : ¬ cmp_lt cmp x x.
Proof. unfold cmp_lt. by rewrite cmp_refl. Qed.

Definition cmp_le (x y : A) : Prop := cmp x y ≠ Gt.

Lemma cmp_le_refl x : cmp_le x x.
Proof using All. unfold cmp_le. by rewrite cmp_refl. Qed.

Lemma cmp_lt_le x y : cmp x y = Lt → cmp_le x y.
Proof using Type. unfold cmp_le. congruence. Qed.

#[export] Instance cmp_le_trans : Transitive cmp_le.
Proof using All.
  intros x y z. unfold cmp_le. destruct (cmp x y) eqn:Exy, (cmp y z) eqn:Eyz; try done.
  - apply (cmp_eq_iff cmp) in Exy as ->. by rewrite Eyz.
  - apply (cmp_eq_iff cmp) in Exy as ->. by rewrite Eyz.
  - apply (cmp_eq_iff cmp) in Eyz as ->. by rewrite Exy.
  - by rewrite (cmp_lt_trans cmp _ _ _ Exy Eyz).
Qed.

#[global] Instance cmp_lt_transitive : Transitive (cmp_lt cmp).
Proof. intros x y z. apply (cmp_lt_trans cmp). Qed.
End cmp_facts.

(** [Z] and lexicographic pairs, options ([None] first) and strings. *)

#[export] Instance Z_compare_total : TotalCmp Z.compare.
Proof.
  split.
  - intros. apply Z.compare_eq_iff.
  - intros. apply Z.compare_antisym.
  - intros x y z. rewrite !Z.compare_lt_iff. lia.
Qed.

Definition pair_cmp {A B} (ca : A → A → comparison) (cb : B → B → comparison)
    (x y : A * B) : comparison :=
  match ca x.1 y.1 with Eq => cb x.2 y.2 | c => c end.

#[export] Instance pair_cmp_total {A B} (ca : A → A → comparison) (cb : B → B → comparison) :
  TotalCmp ca → TotalCmp cb → TotalCmp (pair_cmp ca cb).
Proof.
  intros Ha Hb. unfold pair_cmp. split.
  - intros [a b] [a' b']. simpl. destruct (ca a a') eqn:E.
    + apply (cmp_eq_iff ca) in E as ->. rewrite (cmp_eq_iff cb). naive_solver.
    + split; [done|]. intros [= -> ->]. by rewrite (cmp_refl ca) in E.
    + split; [done|]. intros [= -> ->]. by rewrite (cmp_refl ca) in E.
  - intros [a b] [a' b']. simpl. rewrite (cmp_antisym ca a a'), (cmp_antisym cb b b').
    by destruct (ca a a').
  - intros [a b] [a' b'] [a'' b'']. simpl.
    destruct (ca a a') eqn:E1; [| |done].
    + apply (cmp_eq_iff ca) in E1 as ->. destruct (ca a' a''); try done.
      apply (cmp_lt_trans cb).
    + intros _. destruct (ca a' a'') eqn:E2; try done.
      * apply (cmp_eq_iff ca) in E2 as ->. by rewrite E1.
      * intros _. by rewrite (cmp_lt_trans ca _ _ _ E1 E2).
Qed.

Definition option_cmp {A} (c : A → A → comparison) (x y : option A) : comparison :=
  match x, y with
  | None, None => Eq
  | None, Some _ => Lt
  | Some _, None => Gt
  | Some a, Some b => c a b
  end.

#[export] Instance option_cmp_total {A} (c : A → A → comparison) :
  TotalCmp c → TotalCmp (option_cmp c).
Proof.
  intros Hc. split.
  - intros [a|] [b|]; simpl; try done. rewrite (cmp_eq_iff c). naive_solver.
  - intros [a|] [b|]; simpl; try done. apply (cmp_antisym c).
  - intros [a|] [b|] [d|]; simpl; try done. apply (cmp_lt_trans c).
Qed.

(** Strings compare by their bytes. *)
Fixpoint string_cmp (s t : string) : comparison :=
  match s, t with
  | EmptyString, EmptyString => Eq
  | EmptyString, String _ _ => Lt
  | String _ _, EmptyString => Gt
  | String a s', String b t' =>
      match Z.compare (Z.of_N (N_of_ascii a)) (Z.of_N (N_of_ascii b)) with
      | Eq => string_cmp s' t'
      | c => c
      end
  end.

Lemma N_of_ascii_inj a b : N_of_ascii a = N_of_ascii b → a = b.
Proof. intros H. by rewrite <-(ascii_N_embedding a), <-(ascii_N_embedding b), H. Qed.

#[export] Instance string_cmp_total : TotalCmp string_cmp.
Proof.
  split.
  - induction x as [|a s IH]; intros [|b t]; simpl; try done.
    destruct (Z.compare_spec (Z.of_N (N_of_ascii a)) (Z.of_N (N_of_ascii b))) as [E|E|E].
    + apply N2Z.inj, N_of_ascii_inj in E as ->. rewrite IH. naive_solver.
    + split; [done|]. intros [= -> _]. lia.
    + split; [done|]. intros [= -> _]. lia.
  - induction x as [|a s IH]; intros [|b t]; simpl; try done.
    rewrite (Z.compare_antisym (Z.of_N (N_of_ascii a)) (Z.of_N (N_of_ascii b))), IH.
    by destruct (_ ?= _)%Z.
  - induction x as [|a s IH]; intros [|b t] [|c u]; simpl; try done.
    repeat match goal with |- context [Z.compare ?x ?y] =>
      destruct (Z.compare_spec x y) end; try done; try lia; eauto.
Qed.

(** ** [BTreeSet] *)

Section bset.
Context {A} (cmp : A → A → comparison) `{!TotalCmp cmp}.

(** [BTreeSet::insert]: the element of the set is kept when it is there already. *)
Fixpoint bset_insert (x : A) (l : list A) : list A :=
  match l with
  | [] => [x]
  | y :: l' => match cmp x y with
               | Lt => x :: y :: l'
               | Eq => y :: l'
               | Gt => y :: bset_insert x l'
               end
  end.

(** [BTreeSet::remove] (and [take], which also returns whether it was there). *)
Fixpoint bset_remove (x : A) (l : list A) : list A :=
  match l with
  | [] => []
  | y :: l' => match cmp x y with
               | Lt => y :: l'
               | Eq => l'
               | Gt => y :: bset_remove x l'
               end
  end.

(** [BTreeSet::contains]. *)
Fixpoint bset_mem (x : A) (l : list A) : bool :=
  match l with
  | [] => false
  | y :: l' => match cmp x y with Eq => true | Lt => false | Gt => bset_mem x l' end
  end.

Definition bset_sorted (l : list A) : Prop := StronglySorted (cmp_lt cmp) l.

Lemma bset_nil_sorted : bset_sorted [].
Proof using Type. constructor. Qed.

Lemma bset_elem_of_insert x y l : y ∈ bset_insert x l ↔ y = x ∨ y ∈ l.
Proof.
  induction l as [|z l IH]; simpl; [set_solver|].
  destruct (cmp x z) eqn:E; [|set_solver|].
  - apply (cmp_eq_iff cmp) in E as ->. set_solver.
  - rewrite !elem_of_cons, IH. set_solver.
Qed.

Lemma bset_insert_sorted x l : bset_sorted l → bset_sorted (bset_insert x l).
Proof.
  unfold bset_sorted. induction 1 as [|z l Hl IH Hz]; simpl; [repeat constructor|].
  destruct (cmp x z) eqn:E.
  - by constructor.
  - constructor; [by constructor|]. constructor; [done|].
    eapply Forall_impl; [done|]. intros w Hw. by eapply (cmp_lt_trans cmp).
  - constructor; [done|]. apply Forall_forall. intros w Hw.
    apply bset_elem_of_insert in Hw as [->|Hw].
    + by apply (cmp_gt_lt cmp).
    + rewrite Forall_forall in Hz. by apply Hz.
Qed.

Lemma bset_sorted_NoDup l : bset_sorted l → NoDup l.
Proof.
  induction 1 as [|z l Hl IH Hz]; constructor; [|done].
  intros Hin. rewrite Forall_forall in Hz. apply (cmp_lt_irrefl cmp z).
  by apply Hz.
Qed.

Lemma bset_sorted_cons_lt x y l : bset_sorted (x :: l) → y ∈ l → cmp x y = Lt.
Proof.
  intros [_ Hx]%StronglySorted_inv Hy. rewrite Forall_forall in Hx.
  by apply Hx.
Qed.

Lemma bset_elem_of_remove x y l :
  bset_sorted l → y ∈ bset_remove x l ↔ y ∈ l ∧ y ≠ x.
Proof.
  unfold bset_sorted. induction 1 as [|z l Hl IH Hz]; simpl; [set_solver|].
  assert (bset_sorted (z :: l)) as Hs by by constructor.
  assert (∀ w, w ∈ l → cmp z w = Lt) as Hlt by eauto using bset_sorted_cons_lt.
  destruct (cmp x z) eqn:E.
  - apply (cmp_eq_iff cmp) in E as ->. rewrite elem_of_cons.
    split; [|naive_solver]. intros Hy. split; [by right|]. intros ->.
    by apply (cmp_lt_irrefl cmp z), Hlt.
  - split; [|naive_solver]. intros Hy. split; [done|]. intros ->.
    apply elem_of_cons in Hy as [->|Hy].
    + by apply (cmp_lt_irrefl cmp z).
    + apply (cmp_lt_irrefl cmp x). eapply (cmp_lt_trans cmp); [exact E|]. by apply Hlt.
  - rewrite !elem_of_cons, IH. split; [|naive_solver].
    intros [->|[??]]; [|naive_solver]. split; [by left|]. intros ->.
    by rewrite (cmp_refl cmp) in E.
Qed.

Lemma bset_remove_sorted x l : bset_sorted l → bset_sorted (bset_remove x l).
Proof.
  unfold bset_sorted. induction 1 as [|z l Hl IH Hz]; simpl; [constructor|].
  destruct (cmp x z); [done|by constructor|]. constructor; [done|].
  apply Forall_forall. intros w [Hw _]%bset_elem_of_remove; [|done].
  rewrite Forall_forall in Hz. by apply Hz.
Qed.

Lemma bset_mem_spec x l : bset_sorted l → bset_mem x l = true ↔ x ∈ l.
Proof.
  unfold bset_sorted. induction 1 as [|z l Hl IH Hz]; simpl; [set_solver|].
  assert (∀ w, w ∈ l → cmp z w = Lt) as Hlt by
    (intros; eapply bset_sorted_cons_lt; [|done]; by constructor).
  destruct (cmp x z) eqn:E.
  - apply (cmp_eq_iff cmp) in E as ->. set_solver.
  - split; [done|]. intros [->|Hx]%elem_of_cons.
    + by rewrite (cmp_refl cmp) in E.
    + exfalso. apply (cmp_lt_irrefl cmp x). eapply (cmp_lt_trans cmp); [exact E|]. by apply Hlt.
  - rewrite IH, elem_of_cons. split; [by right|]. intros [->|?]; [|done].
    by rewrite (cmp_refl cmp) in E.
Qed.

Lemma bset_remove_length x l :
  bset_sorted l → x ∈ l → length l = S (length (bset_remove x l)).
Proof.
  unfold bset_sorted. induction 1 as [|z l Hl IH Hz]; simpl; [set_solver|].
  destruct (cmp x z) eqn:E; [done| |].
  - intros [->|Hx]%elem_of_cons; [by rewrite (cmp_refl cmp) in E|].
    exfalso. apply (cmp_lt_irrefl cmp x). eapply (cmp_lt_trans cmp); [exact E|].
    eapply bset_sorted_cons_lt; [|done]; by constructor.
  - intros [->|Hx]%elem_of_cons; [by rewrite (cmp_refl cmp) in E|]. simpl. by rewrite IH.
Qed.

Lemma bset_filter_sorted (P : A → Prop) `{∀ x, Decision (P x)} l :
  bset_sorted l → bset_sorted (filter P l).
Proof using Type.
  unfold bset_sorted. induction 1 as [|z l Hl IH Hz]; [constructor|]. rewrite filter_cons.
  case_decide; [|done]. constructor; [done|]. apply Forall_forall.
  intros w [_ Hw]%list_elem_of_filter. rewrite Forall_forall in Hz. by apply Hz.
Qed.

(** Two sorted lists with the same elements are the same container. *)
Lemma bset_ext l1 l2 :
  bset_sorted l1 → bset_sorted l2 → (∀ x, x ∈ l1 ↔ x ∈ l2) → l1 = l2.
Proof.
  intros H1. revert l2. induction H1 as [|x l1 H1 IH Hx]; intros l2 H2 Heq.
  - destruct l2 as [|y l2]; [done|]. exfalso. apply (not_elem_of_nil y), Heq. by left.
  - destruct H2 as [|y l2 H2 Hy]; [exfalso; apply (not_elem_of_nil x), Heq; by left|].
    assert (∀ w, w ∈ l1 → cmp x w = Lt) as Hx' by
      (intros; eapply bset_sorted_cons_lt; [|done]; by constructor).
    assert (∀ w, w ∈ l2 → cmp y w = Lt) as Hy' by
      (intros; eapply bset_sorted_cons_lt; [|done]; by constructor).
    assert (x = y) as ->.
    { pose proof (proj1 (Heq x) ltac:(by left)) as [->|E1]%elem_of_cons; [done|].
      pose proof (proj2 (Heq y) ltac:(by left)) as [->|E2]%elem_of_cons; [done|].
      exfalso. apply (cmp_lt_irrefl cmp x). eapply (cmp_lt_trans cmp); eauto. }
    f_equal. apply IH; [done|]. intros w. specialize (Heq w). rewrite !elem_of_cons in Heq.
    split; intros Hw.
    + destruct (proj1 Heq (or_intror Hw)) as [->|?]; [|done].
      exfalso. by apply (cmp_lt_irrefl cmp y), Hx'.
    + destruct (proj2 Heq (or_intror Hw)) as [->|?]; [|done].
      exfalso. by apply (cmp_lt_irrefl cmp y), Hy'.
Qed.

(** Inserting the keys of a list one after the other ([FromIterator], [extend]). *)
Lemma foldl_bset_insert_elem {B} (f : B → A) (l : list B) s y :
  y ∈ foldl (λ s x, bset_insert (f x) s) s l ↔ y ∈ s ∨ y ∈ f <$> l.
Proof.
  revert s. induction l as [|x l IH]; intros s; csimpl; [set_solver|].
  rewrite IH, bset_elem_of_insert. set_solver.
Qed.

Lemma foldl_bset_insert_sorted {B} (f : B → A) (l : list B) s :
  bset_sorted s → bset_sorted (foldl (λ s x, bset_insert (f x) s) s l).
Proof.
  revert s. induction l as [|x l IH]; intros s Hs; simpl; [done|].
  by apply IH, bset_insert_sorted.
Qed.

Lemma foldl_bset_remove_elem {B} (f : B → A) (l : list B) s y : bset_sorted s →
  y ∈ foldl (λ s x, bset_remove (f x) s) s l ↔ y ∈ s ∧ y ∉ f <$> l.
Proof.
  revert s. induction l as [|x l IH]; intros s Hs; csimpl; [set_solver|].
  rewrite IH, bset_elem_of_remove by auto using bset_remove_sorted. set_solver.
Qed.

Lemma foldl_bset_remove_sorted {B} (f : B → A) (l : list B) s :
  bset_sorted s → bset_sorted (foldl (λ s x, bset_remove (f x) s) s l).
Proof.
  revert s. induction l as [|x l IH]; intros s Hs; simpl; [done|].
  by apply IH, bset_remove_sorted.
Qed.

End bset.

#[export] Hint Resolve bset_nil_sorted bset_insert_sorted bset_remove_sorted foldl_bset_insert_sorted
  foldl_bset_remove_sorted : nico.

(** ** [BTreeMap]

    The list of the entries, strictly sorted by key. *)

Section bmap.
Context {K V : Type} (cmp : K → K → comparison) `{!TotalCmp cmp}.

(** [entry(k)]: [f] gives the new value from the one in the map, if there is one. *)
Fixpoint bmap_upsert (k : K) (f : option V → V) (m : list (K * V)) : list (K * V) :=
  match m with
  | [] => [(k, f None)]
  | (k', v) :: m' =>
      match cmp k k' with
      | Lt => (k, f None) :: (k', v) :: m'
      | Eq => (k', f (Some v)) :: m'
      | Gt => (k', v) :: bmap_upsert k f m'
      end
  end.

(** [insert] replaces the value of a key that is there. *)
Definition bmap_insert (k : K) (v : V) (m : list (K * V)) : list (K * V) :=
  bmap_upsert k (λ _, v) m.

Fixpoint bmap_remove (k : K) (m : list (K * V)) : list (K * V) :=
  match m with
  | [] => []
  | (k', v) :: m' =>
      match cmp k k' with
      | Lt => (k', v) :: m'
      | Eq => m'
      | Gt => (k', v) :: bmap_remove k m'
      end
  end.

Fixpoint bmap_get (k : K) (m : list (K * V)) : option V :=
  match m with
  | [] => None
  | (k', v) :: m' =>
      match cmp k k' with Eq => Some v | Lt => None | Gt => bmap_get k m' end
  end.

Definition bmap_sorted (m : list (K * V)) : Prop := bset_sorted cmp m.*1.

Lemma bmap_upsert_keys k f m : (bmap_upsert k f m).*1 = bset_insert cmp k m.*1.
Proof using Type.
  induction m as [|[k' v] m IH]; csimpl; [done|]. destruct (cmp k k'); csimpl; by rewrite ?IH.
Qed.

Lemma bmap_remove_keys k m : (bmap_remove k m).*1 = bset_remove cmp k m.*1.
Proof using Type.
  induction m as [|[k' v] m IH]; csimpl; [done|]. destruct (cmp k k'); csimpl; by rewrite ?IH.
Qed.

Lemma bmap_upsert_sorted k f m : bmap_sorted m → bmap_sorted (bmap_upsert k f m).
Proof. unfold bmap_sorted. rewrite bmap_upsert_keys. apply bset_insert_sorted, _. Qed.

Lemma bmap_insert_sorted k v m : bmap_sorted m → bmap_sorted (bmap_insert k v m).
Proof. apply bmap_upsert_sorted. Qed.

Lemma bmap_remove_sorted k m : bmap_sorted m → bmap_sorted (bmap_remove k m).
Proof. unfold bmap_sorted. rewrite bmap_remove_keys. apply bset_remove_sorted, _. Qed.

Lemma bmap_nil_sorted : bmap_sorted [].
Proof using Type. constructor. Qed.

(** A key smaller than all keys is not in the map. *)
Lemma bmap_get_below k m : Forall (cmp_lt cmp k) m.*1 → bmap_get k m = None.
Proof using Type.
  destruct m as [|[k' v] m]; simpl; [done|]. inversion_clear 1 as [|? ? Hlt].
  unfold cmp_lt in Hlt. by rewrite Hlt.
Qed.

Lemma bmap_sorted_cons k v m :
  bmap_sorted ((k, v) :: m) ↔ bmap_sorted m ∧ Forall (cmp_lt cmp k) m.*1.
Proof using Type.
  unfold bmap_sorted, bset_sorted. rewrite fmap_cons. simpl. split.
  - by intros H%StronglySorted_inv.
  - intros []. by constructor.
Qed.

Lemma bmap_get_upsert k f m k0 : bmap_sorted m →
  bmap_get k0 (bmap_upsert k f m) =
  match cmp k0 k with Eq => Some (f (bmap_get k m)) | _ => bmap_get k0 m end.
Proof.
  induction m as [|[k' v] m IH]; intros Hm; simpl.
  - by destruct (cmp k0 k).
  - apply bmap_sorted_cons in Hm as [Hm Hlt].
    destruct (cmp k k') eqn:E; simpl.
    + apply (cmp_eq_iff cmp) in E as ->. by destruct (cmp k0 k').
    + destruct (cmp k0 k) eqn:E0; [done| |done].
      by rewrite (cmp_lt_trans cmp _ _ _ E0 E).
    + rewrite (IH Hm). destruct (cmp k0 k') eqn:E0, (cmp k0 k) eqn:E1; try done.
      * apply (cmp_eq_iff cmp) in E0 as ->. apply (cmp_eq_iff cmp) in E1 as ->.
        by rewrite (cmp_refl cmp) in E.
      * apply (cmp_eq_iff cmp) in E1 as ->. congruence.
Qed.

Lemma bmap_get_insert k v m k0 : bmap_sorted m →
  bmap_get k0 (bmap_insert k v m) =
  match cmp k0 k with Eq => Some v | _ => bmap_get k0 m end.
Proof. apply bmap_get_upsert. Qed.

Lemma bmap_get_remove k m k0 : bmap_sorted m →
  bmap_get k0 (bmap_remove k m) =
  match cmp k0 k with Eq => None | _ => bmap_get k0 m end.
Proof.
  induction m as [|[k' v] m IH]; intros Hm; simpl.
  - by destruct (cmp k0 k).
  - apply bmap_sorted_cons in Hm as [Hm Hlt].
    destruct (cmp k k') eqn:E; simpl.
    + apply (cmp_eq_iff cmp) in E as ->. destruct (cmp k0 k') eqn:E0; [|..|done].
      * apply (cmp_eq_iff cmp) in E0 as ->. by apply bmap_get_below.
      * apply bmap_get_below. eapply Forall_impl; [done|]. intros k1 Hk1. by etrans.
    + destruct (cmp k0 k) eqn:E0; [|done..].
      apply (cmp_eq_iff cmp) in E0 as ->. by rewrite E.
    + rewrite (IH Hm). destruct (cmp k0 k') eqn:E0, (cmp k0 k) eqn:E1; try done.
      apply (cmp_eq_iff cmp) in E0 as ->. apply (cmp_eq_iff cmp) in E1 as ->.
      by rewrite (cmp_refl cmp) in E.
Qed.

Lemma bmap_get_Some k v m : bmap_sorted m → bmap_get k m = Some v ↔ (k, v) ∈ m.
Proof.
  induction m as [|[k' v'] m IH]; intros Hm; simpl; [set_solver|].
  apply bmap_sorted_cons in Hm as [Hm Hlt]. rewrite Forall_forall in Hlt.
  assert (∀ w, (k', w) ∉ m) as Hk'.
  { intros w Hw. apply (cmp_lt_irrefl cmp k'), Hlt, list_elem_of_fmap. by exists (k', w). }
  rewrite elem_of_cons. destruct (cmp k k') eqn:E.
  - apply (cmp_eq_iff cmp) in E as ->. naive_solver.
  - split; [done|]. intros [[= -> ->]|Hin]; [by rewrite (cmp_refl cmp) in E|].
    exfalso. apply (cmp_lt_irrefl cmp k). etrans; [exact E|].
    apply Hlt, list_elem_of_fmap. by exists (k, v).
  - rewrite (IH Hm). split; [by right|]. intros [[= -> ->]|?]; [|done].
    by rewrite (cmp_refl cmp) in E.
Qed.

(** Two maps with the same entries are the same container. *)
Lemma bmap_ext m1 m2 :
  bmap_sorted m1 → bmap_sorted m2 → (∀ k, bmap_get k m1 = bmap_get k m2) → m1 = m2.
Proof.
  intros H1 H2 Heq.
  assert (∀ k v, (k, v) ∈ m1 ↔ (k, v) ∈ m2) as Hin.
  { intros k v. by rewrite <- !bmap_get_Some, Heq. }
  assert (m1.*1 = m2.*1) as Hkeys.
  { apply (bset_ext cmp); [done..|]. intros k. rewrite !list_elem_of_fmap.
    split; intros ([k' v] & -> & Hkv); exists (k', v); (split; [done|by apply Hin]). }
  clear Heq. revert m2 H1 H2 Hin Hkeys.
  induction m1 as [|[k v] m1 IH]; intros [|[k' v'] m2] H1 H2 Hin Hkeys; try done.
  injection Hkeys as <- Hkeys.
  pose proof (proj2 (bmap_get_Some k v _ H2)) as Hv. simpl in Hv.
  rewrite (cmp_refl cmp) in Hv.
  specialize (Hv ltac:(apply Hin; by left)). injection Hv as ->.
  apply bmap_sorted_cons in H1 as [H1 L1], H2 as [H2 L2].
  f_equal. apply IH; [done..| |done].
  rewrite Forall_forall in L1, L2.
  intros k1 v1. specialize (Hin k1 v1). rewrite !elem_of_cons in Hin.
  split; intros Hk; [destruct (proj1 Hin (or_intror Hk)) as [[= -> ->]|?]
                    |destruct (proj2 Hin (or_intror Hk)) as [[= -> ->]|?]]; try done;
    exfalso; [apply (cmp_lt_irrefl cmp k), L1|apply (cmp_lt_irrefl cmp k), L2];
    apply list_elem_of_fmap; by exists (k, v).
Qed.

(** A loop that updates the entry of the key of every element. *)
Lemma foldl_bmap_upsert_sorted {B} (key : B → K) (g : B → option V → V) (l : list B) m :
  bmap_sorted m → bmap_sorted (foldl (λ m x, bmap_upsert (key x) (g x) m) m l).
Proof.
  revert m. induction l as [|x l IH]; intros m Hm; simpl; [done|].
  by apply IH, bmap_upsert_sorted.
Qed.

Lemma foldl_bmap_upsert_get {B} `{!EqDecision K} (key : B → K) (g : B → option V → V)
    (l : list B) m k : bmap_sorted m →
  bmap_get k (foldl (λ m x, bmap_upsert (key x) (g x) m) m l) =
  foldl (λ o x, Some (g x o)) (bmap_get k m) (filter (λ x, key x = k) l).
Proof.
  revert m. induction l as [|x l IH]; intros m Hm; simpl; [done|].
  rewrite IH by by apply bmap_upsert_sorted. rewrite bmap_get_upsert by done.
  rewrite filter_cons. case_decide as Hx.
  - subst k. by rewrite (cmp_refl cmp).
  - destruct (cmp k (key x)) eqn:E; [|done..]. apply (cmp_eq_iff cmp) in E. congruence.
Qed.

Lemma foldl_bmap_upsert_entries {B} (key : B → K) (vkey : V → K)
    (g : B → option V → V) (l : list B) m :
  (∀ x, x ∈ l → vkey (g x None) = key x) →
  (∀ x v, x ∈ l → vkey v = key x → vkey (g x (Some v)) = key x) →
  bmap_sorted m → (∀ k v, bmap_get k m = Some v → vkey v = k) →
  ∀ k v, bmap_get k (foldl (λ m x, bmap_upsert (key x) (g x) m) m l) = Some v → vkey v = k.
Proof.
  revert m. induction l as [|x l IH]; intros m Hn Hs Hm Hk; simpl; [done|].
  apply IH; [set_solver..|by apply bmap_upsert_sorted|].
  intros k v. rewrite bmap_get_upsert by done.
  destruct (cmp k (key x)) eqn:E; [|by apply Hk..].
  apply (cmp_eq_iff cmp) in E as ->. intros [= <-].
  destruct (bmap_get (key x) m) as [w|] eqn:Ew; [apply Hs|apply Hn]; try set_solver.
Qed.

Lemma bmap_values_keys (vkey : V → K) m : bmap_sorted m →
  (∀ k v, bmap_get k m = Some v → vkey v = k) → vkey <$> m.*2 = m.*1.
Proof.
  intros Hm Hk. rewrite <- list_fmap_compose. apply list_fmap_ext.
  intros i [k v] Hi. apply Hk, bmap_get_Some; [done|]. by eapply list_elem_of_lookup_2.
Qed.

End bmap.

Lemma StronglySorted_lookup {A} (R : A → A → Prop) l i j x y :
  StronglySorted R l → (i < j)%nat → l !! i = Some x → l !! j = Some y → R x y.
Proof.
  intros Hs. revert i j. induction Hs as [|a l Hs IH Ha]; intros i j Hij Hi Hj; [done|].
  destruct j as [|j]; [lia|]. destruct i as [|i]; simpl in *.
  - injection Hi as ->. by eapply Forall_lookup_1.
  - eapply (IH i j); [lia|done..].
Qed.

Lemma StronglySorted_snoc {A} (R : A → A → Prop) l x :
  StronglySorted R l → Forall (λ y, R y x) l → StronglySorted R (l ++ [x]).
Proof.
  induction 1 as [|a l Hs IH Ha]; simpl; [repeat constructor|]. intros [Hx Hl]%Forall_cons.
  constructor; [by apply IH|]. apply Forall_app. by repeat constructor.
Qed.

(** A loop that groups elements by a key, in their order. *)
Section group_by.
Context {K A B : Type} (cmp : K → K → comparison) `{!TotalCmp cmp, !EqDecision K}
  (key : A → K) (val : A → B).

Definition group_by (l : list A) : list (K * list B) :=
  foldl (λ m x, bmap_upsert cmp (key x) (λ q, default [] q ++ [val x]) m) [] l.

Lemma group_by_sorted l : bmap_sorted cmp (group_by l).
Proof. apply (foldl_bmap_upsert_sorted cmp key (λ x q, default [] q ++ [val x])), bmap_nil_sorted. Qed.

Lemma group_by_get l k q :
  bmap_get cmp k (group_by l) = Some q ↔ q ≠ [] ∧ q = val <$> filter (λ x, key x = k) l.
Proof.
  unfold group_by.
  rewrite (foldl_bmap_upsert_get cmp key (λ x q, default [] q ++ [val x])) by apply bmap_nil_sorted. simpl.
  assert (∀ o (l : list A), foldl (λ o x, Some (default [] o ++ [val x])) o l =
    match l with [] => o | _ => Some (default [] o ++ (val <$> l)) end) as ->.
  { intros o l'. revert o. induction l' as [|x l' IH]; intros o; [done|]. simpl. rewrite IH.
    destruct l'; [done|]. simpl. by rewrite <- app_assoc. }
  destruct (filter _ l) as [|x l']; csimpl; naive_solver.
Qed.
End group_by.

#[export] Hint Resolve bmap_nil_sorted bmap_upsert_sorted bmap_insert_sorted
  bmap_remove_sorted foldl_bmap_upsert_sorted : nico.
