(* ===== verification/IpNetwork.v ===== *)
(** * The [ipnetwork] crate

    The operations on [IpNetwork] that the source calls, as a class whose laws are
    their documented behaviour.  An address is its family ([true] for IPv6) and its
    bits.  A network is determined by its address, which may have bits set after the
    prefix, and its prefix length. *)

From S2P Require Import Prelude Ordered.

Definition family_bits (v6 : bool) : Z := if v6 then 128 else 32.

Class IpNetworks := {
  IpNetwork : Type;
  net_v6 : IpNetwork → bool;
  net_ip : IpNetwork → Z;
  net_prefix : IpNetwork → Z;
  net_make : bool → Z → Z → result string IpNetwork;
  network : IpNetwork → Z;
  broadcast : IpNetwork → Z;
  net_contains_ip : IpNetwork → bool * Z → bool;
  net_num_addresses : IpNetwork → Z;
  net_iter_take : IpNetwork → Z → list Z;
  network_cmp : IpNetwork → IpNetwork → comparison;
  net_ip_range n : 0 ≤ net_ip n < 2 ^ family_bits (net_v6 n);
  net_prefix_range n : 0 ≤ net_prefix n ≤ family_bits (net_v6 n);
  network_ext n m :
    net_v6 n = net_v6 m → net_ip n = net_ip m → net_prefix n = net_prefix m → n = m;
  net_make_ok v6 a l : 0 ≤ a < 2 ^ family_bits v6 → 0 ≤ l ≤ family_bits v6 →
    ∃ n, net_make v6 a l = Ok n ∧ net_v6 n = v6 ∧ net_ip n = a ∧ net_prefix n = l;
  net_make_too_long v6 a l : family_bits v6 < l → ∃ e, net_make v6 a l = Err e;
  network_spec n : network n = net_ip n - net_ip n mod 2 ^ (family_bits (net_v6 n) - net_prefix n);
  broadcast_spec n :
    broadcast n = network n + 2 ^ (family_bits (net_v6 n) - net_prefix n) - 1;
  net_contains_ip_spec n a :
    net_contains_ip n a = bool_decide (net_v6 n = a.1) && (network n <=? a.2) && (a.2 <=? broadcast n);
  (** the machine integer that holds the size cannot hold that of a [/0] *)
  net_num_addresses_spec n : 0 < net_prefix n →
    net_num_addresses n = 2 ^ (family_bits (net_v6 n) - net_prefix n);
  net_iter_take_spec n k :
    net_iter_take n k = seqZ (network n) (Z.min k (broadcast n - network n + 1));
  network_cmp_spec n m :
    network_cmp n m = pair_cmp Z.compare (pair_cmp Z.compare Z.compare)
      (family_bits (net_v6 n), (net_ip n, net_prefix n))
      (family_bits (net_v6 m), (net_ip m, net_prefix m));
}.

Section Facts.
Context `{I : IpNetworks}.

(** The number of addresses. *)
Definition net_size (n : IpNetwork) : Z := 2 ^ (family_bits (net_v6 n) - net_prefix n).

Lemma net_size_pos n : 0 < net_size n.
Proof. apply Z.pow_pos_nonneg; [lia|]. pose proof (net_prefix_range n). lia. Qed.

Lemma broadcast_size n : broadcast n = network n + net_size n - 1.
Proof. apply broadcast_spec. Qed.

Lemma network_aligned n : network n mod net_size n = 0.
Proof.
  pose proof (net_size_pos n). rewrite network_spec. fold (net_size n).
  rewrite Zminus_mod_idemp_r, Z.sub_diag. by apply Zmod_0_l.
Qed.

(** The block of a network lies in the address space. *)
Lemma network_bounds n : 0 ≤ network n ∧ network n + net_size n ≤ 2 ^ family_bits (net_v6 n).
Proof.
  pose proof (net_size_pos n) as Hs. pose proof (net_ip_range n) as Hip.
  pose proof (net_prefix_range n) as Hp.
  assert (2 ^ family_bits (net_v6 n) = net_size n * 2 ^ net_prefix n) as E.
  { unfold net_size. rewrite <-Z.pow_add_r by lia. f_equal. lia. }
  rewrite network_spec. fold (net_size n).
  pose proof (Z.mod_pos_bound (net_ip n) (net_size n) Hs).
  pose proof (Z.div_mod (net_ip n) (net_size n) ltac:(lia)) as D.
  assert (0 ≤ net_ip n / net_size n) by (apply Z.div_pos; lia).
  split; [nia|]. rewrite E. rewrite E in Hip.
  assert (net_ip n / net_size n < 2 ^ net_prefix n)
    by (apply Z.div_lt_upper_bound; lia).
  nia.
Qed.

(** The address of a network without host bits is its first one. *)
Lemma network_of_aligned n : net_ip n mod net_size n = 0 → network n = net_ip n.
Proof. intros H. rewrite network_spec. fold (net_size n). lia. Qed.

Lemma family_bits_inj a b : family_bits a = family_bits b → a = b.
Proof. by destruct a, b. Qed.

#[export] Instance network_cmp_total : TotalCmp network_cmp.
Proof.
  pose proof (pair_cmp_total Z.compare (pair_cmp Z.compare Z.compare) _ _) as T.
  split.
  - intros n m. rewrite network_cmp_spec, (cmp_eq_iff _). split; [|by intros ->].
    intros [= Ef Ei Ep]. apply network_ext; [|done..]. by apply family_bits_inj.
  - intros n m. rewrite !network_cmp_spec. apply (cmp_antisym _).
  - intros n m k. rewrite !network_cmp_spec. apply (cmp_lt_trans _).
Qed.

#[export] Instance IpNetwork_eq_dec : EqDecision IpNetwork.
Proof.
  intros n m. destruct (network_cmp n m) eqn:E; [left; by apply (cmp_eq_iff _)|right..];
    intros ->; by rewrite (cmp_refl _) in E.
Defined.
End Facts.

(** ** The laws hold: networks as validated records *)

Definition ref_network_valid (v6 : bool) (a l : Z) : bool :=
  (0 <=? a) && (a <? 2 ^ family_bits v6) && (0 <=? l) && (l <=? family_bits v6).

Record RefNetwork := mk_ref_network {
  ref_n_v6 : bool;
  ref_n_ip : Z;
  ref_n_prefix : Z;
  ref_n_valid : ref_network_valid ref_n_v6 ref_n_ip ref_n_prefix = true;
}.

Lemma ref_network_clamp v6 a l :
  ref_network_valid v6 (a mod 2 ^ family_bits v6) (Z.max 0 (Z.min l (family_bits v6))) = true.
Proof.
  assert (0 < 2 ^ family_bits v6) by (by destruct v6).
  pose proof (Z.mod_pos_bound a (2 ^ family_bits v6) ltac:(done)).
  unfold ref_network_valid. rewrite !andb_true_iff, !Z.leb_le, Z.ltb_lt. destruct v6; simpl in *; lia.
Qed.

Definition ref_network (v6 : bool) (a l : Z) : RefNetwork :=
  mk_ref_network v6 (a mod 2 ^ family_bits v6) (Z.max 0 (Z.min l (family_bits v6)))
    (ref_network_clamp v6 a l).

Definition ref_n_size (n : RefNetwork) : Z := 2 ^ (family_bits (ref_n_v6 n) - ref_n_prefix n).
Definition ref_n_network (n : RefNetwork) : Z := ref_n_ip n - ref_n_ip n mod ref_n_size n.
Definition ref_n_broadcast (n : RefNetwork) : Z := ref_n_network n + ref_n_size n - 1.
Definition ref_n_make (v6 : bool) (a l : Z) : result string RefNetwork :=
  if l <=? family_bits v6 then Ok (ref_network v6 a l) else Err "invalid prefix".

Lemma ref_n_range n : 0 ≤ ref_n_ip n < 2 ^ family_bits (ref_n_v6 n) ∧
  0 ≤ ref_n_prefix n ≤ family_bits (ref_n_v6 n).
Proof.
  destruct n as [v6 a l H]. simpl. unfold ref_network_valid in H.
  rewrite !andb_true_iff, !Z.leb_le, Z.ltb_lt in H. lia.
Qed.

Lemma ref_n_ext n m :
  ref_n_v6 n = ref_n_v6 m → ref_n_ip n = ref_n_ip m → ref_n_prefix n = ref_n_prefix m → n = m.
Proof. destruct n as [v a l H], m as [w b k K]. simpl. intros -> -> ->. f_equal. apply (proof_irrel H K). Qed.

Lemma ref_n_make_ok v6 a l : 0 ≤ a < 2 ^ family_bits v6 → 0 ≤ l ≤ family_bits v6 →
  ∃ n, ref_n_make v6 a l = Ok n ∧ ref_n_v6 n = v6 ∧ ref_n_ip n = a ∧ ref_n_prefix n = l.
Proof.
  intros Ha Hl. exists (ref_network v6 a l). unfold ref_n_make.
  rewrite (proj2 (Z.leb_le l _)) by lia. simpl. rewrite Z.mod_small by done. split_and!; try done. lia.
Qed.

Lemma ref_n_make_too_long v6 a l : family_bits v6 < l → ∃ e, ref_n_make v6 a l = Err e.
Proof. intros Hl. unfold ref_n_make. rewrite (proj2 (Z.leb_gt l _)) by done. eauto. Qed.

Local Instance ref_ipnetworks : IpNetworks := {|
  IpNetwork := RefNetwork;
  net_v6 := ref_n_v6;
  net_ip := ref_n_ip;
  net_prefix := ref_n_prefix;
  net_make := ref_n_make;
  network := ref_n_network;
  broadcast := ref_n_broadcast;
  net_contains_ip n a :=
    bool_decide (ref_n_v6 n = a.1) && (ref_n_network n <=? a.2) && (a.2 <=? ref_n_broadcast n);
  net_num_addresses := ref_n_size;
  net_iter_take n k := seqZ (ref_n_network n) (Z.min k (ref_n_broadcast n - ref_n_network n + 1));
  network_cmp n m := pair_cmp Z.compare (pair_cmp Z.compare Z.compare)
      (family_bits (ref_n_v6 n), (ref_n_ip n, ref_n_prefix n))
      (family_bits (ref_n_v6 m), (ref_n_ip m, ref_n_prefix m));
  net_ip_range n := proj1 (ref_n_range n);
  net_prefix_range n := proj2 (ref_n_range n);
  network_ext := ref_n_ext;
  net_make_ok := ref_n_make_ok;
  net_make_too_long := ref_n_make_too_long;
  network_spec n := eq_refl;
  broadcast_spec n := eq_refl;
  net_contains_ip_spec n a := eq_refl;
  net_num_addresses_spec n _ := eq_refl;
  net_iter_take_spec n k := eq_refl;
  network_cmp_spec n m := eq_refl;
|}.
