(* ===== verification/VpcCapability.v ===== *)
(** * What the virtualization types of VPCs support
      ([crates/network/src/virtualization.rs], [crates/api-model/src/vpc/capability.rs])

    The capability profiles of the VPC types, the predicates and checks derived from
    them, and the two facts other code relies on: a check fails exactly when the
    predicate does, and peering is symmetric. *)

From S2P Require Import Prelude Ordered IpNetwork.

Inductive VpcVirtualizationType :=
| EthernetVirtualizer
| EthernetVirtualizerWithNvue
| Fnn
| Flat.

#[export] Instance VpcVirtualizationType_eq_dec : EqDecision VpcVirtualizationType.
Proof. solve_decision. Defined.

Inductive NetworkSegmentType := Tenant | Admin | Underlay | HostInband.

#[export] Instance NetworkSegmentType_eq_dec : EqDecision NetworkSegmentType.
Proof. solve_decision. Defined.

Definition as_str (t : VpcVirtualizationType) : string :=
  match t with
  | EthernetVirtualizer | EthernetVirtualizerWithNvue => "etv"
  | Fnn => "fnn"
  | Flat => "flat"
  end.

Inductive FabricInterfaceType := Dpu | Nic.

Inductive DataPlaneKind := DpuOverlayL2 | DpuOverlayL3 | OperatorManaged.

Definition plane_fabric_interface_type (k : DataPlaneKind) : FabricInterfaceType :=
  match k with
  | DpuOverlayL2 | DpuOverlayL3 => Dpu
  | OperatorManaged => Nic
  end.

Definition plane_supports_routing_profiles (k : DataPlaneKind) : bool :=
  match k with DpuOverlayL3 => true | _ => false end.

Definition plane_allocates_svi_ip (k : DataPlaneKind) : bool :=
  match k with DpuOverlayL3 => true | _ => false end.

Definition plane_imports_peer_vnis_into_overlay (k : DataPlaneKind) : bool :=
  match k with DpuOverlayL3 => true | _ => false end.

Definition plane_vni_advertised_to_peers (k : DataPlaneKind) : bool :=
  match k with DpuOverlayL3 | OperatorManaged => true | _ => false end.

Record VpcCapabilities := mk_capabilities {
  data_plane : DataPlaneKind;
  allowed_segment_types : list NetworkSegmentType;
  cap_ipv4_prefix : bool;
  cap_ipv6_prefix : bool;
  peers_with : list VpcVirtualizationType;
}.

Definition ETV_CAPABILITIES : VpcCapabilities :=
  mk_capabilities DpuOverlayL2 [Tenant; Admin; Underlay] true false
    [EthernetVirtualizer; EthernetVirtualizerWithNvue; Flat].

Definition FNN_CAPABILITIES : VpcCapabilities :=
  mk_capabilities DpuOverlayL3 [Tenant; Admin; Underlay] true true [Fnn; Flat].

Definition FLAT_CAPABILITIES : VpcCapabilities :=
  mk_capabilities OperatorManaged [HostInband] true true
    [EthernetVirtualizer; EthernetVirtualizerWithNvue; Fnn; Flat].

Definition capabilities (t : VpcVirtualizationType) : VpcCapabilities :=
  match t with
  | EthernetVirtualizer | EthernetVirtualizerWithNvue => ETV_CAPABILITIES
  | Fnn => FNN_CAPABILITIES
  | Flat => FLAT_CAPABILITIES
  end.

Definition fabric_interface_type (t : VpcVirtualizationType) : FabricInterfaceType :=
  plane_fabric_interface_type (data_plane (capabilities t)).

Definition supports_segment_type (t : VpcVirtualizationType) (s : NetworkSegmentType) : bool :=
  bool_decide (s ∈ allowed_segment_types (capabilities t)).

Definition supports_ipv4_prefix (t : VpcVirtualizationType) : bool := cap_ipv4_prefix (capabilities t).
Definition supports_ipv6_prefix (t : VpcVirtualizationType) : bool := cap_ipv6_prefix (capabilities t).

Definition supports_routing_profiles (t : VpcVirtualizationType) : bool :=
  plane_supports_routing_profiles (data_plane (capabilities t)).

Definition allocates_svi_ip (t : VpcVirtualizationType) : bool :=
  plane_allocates_svi_ip (data_plane (capabilities t)).

Definition imports_peer_vnis_into_overlay (t : VpcVirtualizationType) : bool :=
  plane_imports_peer_vnis_into_overlay (data_plane (capabilities t)).

Definition vni_advertised_to_peers (t : VpcVirtualizationType) : bool :=
  plane_vni_advertised_to_peers (data_plane (capabilities t)).

Definition can_peer_with (t other : VpcVirtualizationType) : bool :=
  bool_decide (other ∈ peers_with (capabilities t)).

Inductive VpcCapabilityError :=
| UnsupportedSegmentType (vpc_type : VpcVirtualizationType) (segment_type : NetworkSegmentType)
| Ipv4Unsupported (vpc_type : VpcVirtualizationType)
| Ipv6Unsupported (vpc_type : VpcVirtualizationType)
| RoutingProfilesUnsupported (vpc_type : VpcVirtualizationType)
| PeeringIncompatible (a b : VpcVirtualizationType).

Definition ensure (b : bool) (e : VpcCapabilityError) : result VpcCapabilityError () :=
  if b then Ok () else Err e.

Definition ensure_supports_segment_type (t : VpcVirtualizationType) (s : NetworkSegmentType)
    : result VpcCapabilityError () :=
  ensure (supports_segment_type t s) (UnsupportedSegmentType t s).

Definition ensure_supports_ipv4_prefix (t : VpcVirtualizationType) : result VpcCapabilityError () :=
  ensure (supports_ipv4_prefix t) (Ipv4Unsupported t).

Definition ensure_supports_ipv6_prefix (t : VpcVirtualizationType) : result VpcCapabilityError () :=
  ensure (supports_ipv6_prefix t) (Ipv6Unsupported t).

Definition ensure_supports_routing_profiles (t : VpcVirtualizationType) : result VpcCapabilityError () :=
  ensure (supports_routing_profiles t) (RoutingProfilesUnsupported t).

Definition ensure_can_peer_with (t other : VpcVirtualizationType) : result VpcCapabilityError () :=
  ensure (can_peer_with t other) (PeeringIncompatible t other).

Section Segments.
Context `{I : IpNetworks}.

(** [NetworkSegmentProperties] *)
Record SegmentProperties := mk_segment_properties {
  segment_type : NetworkSegmentType;
  segment_prefixes : list IpNetwork;
  can_stretch : option bool;
}.

Definition any_ipv4 (ps : list IpNetwork) : bool := existsb (λ p, negb (net_v6 p)) ps.
Definition any_ipv6 (ps : list IpNetwork) : bool := existsb net_v6 ps.

Definition supports_segment (t : VpcVirtualizationType) (s : SegmentProperties) : bool :=
  if negb (supports_segment_type t (segment_type s)) then false
  else (negb (any_ipv4 (segment_prefixes s)) || supports_ipv4_prefix t) &&
       (negb (any_ipv6 (segment_prefixes s)) || supports_ipv6_prefix t).

Definition allocates_svi_for (t : VpcVirtualizationType) (s : SegmentProperties) : bool :=
  default true (can_stretch s) && allocates_svi_ip t.

Definition ensure_supports_segment (t : VpcVirtualizationType) (s : SegmentProperties)
    : result VpcCapabilityError () :=
  _ ← ensure_supports_segment_type t (segment_type s);
  _ ← (if any_ipv4 (segment_prefixes s) then ensure_supports_ipv4_prefix t else Ok ());
  _ ← (if any_ipv6 (segment_prefixes s) then ensure_supports_ipv6_prefix t else Ok ());
  Ok ().

(** The check accepts what the predicate accepts. *)
Lemma ensure_supports_segment_ok t s :
  ensure_supports_segment t s = Ok () ↔ supports_segment t s = true.
Proof.
  unfold ensure_supports_segment, supports_segment, ensure_supports_segment_type,
    ensure_supports_ipv4_prefix, ensure_supports_ipv6_prefix, ensure.
  destruct (supports_segment_type t (segment_type s)); [|done].
  destruct (any_ipv4 _), (any_ipv6 _), (supports_ipv4_prefix t), (supports_ipv6_prefix t); done.
Qed.
End Segments.

(** Peering is symmetric. *)
Lemma can_peer_with_sym a b : can_peer_with a b = can_peer_with b a.
Proof. by destruct a, b. Qed.

(** Peers that import each other's VNIs are told them. *)
Lemma imported_vnis_advertised a b :
  can_peer_with a b = true → imports_peer_vnis_into_overlay a = true → vni_advertised_to_peers b = true.
Proof. by destruct a, b. Qed.
