(* ===== verification/ConfigVersion.v ===== *)
(** * Configuration versions ([crates/config-version/src/lib.rs])

    A [ConfigVersion] is a number that grows by one on every change and the time
    of that change.  It is the token of every optimistic lock of the system, and
    it is stored in the database as the string printed by [version_string].

    Instants are nanoseconds since the Unix epoch.  The [chrono] crate is a
    parameter: the class [Chrono] has the two functions the file calls, and
    [ChronoLaws] what their documentation says of them. *)

From S2P Require Import Prelude.

(** ** The [chrono] crate *)

Class Chrono := {
  (** [DateTime::from_timestamp(secs, nsecs)] *)
  from_timestamp : Z → Z → option Z;
  (** [DateTime::timestamp_micros] *)
  timestamp_micros : Z → Z;
}.

Class ChronoLaws `{!Chrono} : Prop := {
  from_timestamp_value s n t :
    0 ≤ n < 1000000000 → from_timestamp s n = Some t → t = s * 1000000000 + n;
  timestamp_micros_floor t : timestamp_micros t = t / 1000;
}.

(** ** Data *)

Record ConfigVersion := mk_version {
  version_nr : Z;
  timestamp : Z;
}.

#[export] Instance ConfigVersion_eq_dec : EqDecision ConfigVersion.
Proof. solve_decision. Defined.

Record Versioned (T : Type) := mk_versioned {
  value : T;
  version : ConfigVersion;
}.
Arguments mk_versioned {T} _ _.
Arguments value {T} _.
Arguments version {T} _.

Record ConfigVersionChange := mk_change {
  current : ConfigVersion;
  new_version : ConfigVersion;
}.

Inductive ConfigVersionParseError :=
| VersionFormat (s : string)
| DateTime (secs : Z) (nsecs : Z).

(** The values the Rust types can hold: a [u64] and an instant after the epoch. *)
Definition wf_version (v : ConfigVersion) : Prop :=
  0 ≤ version_nr v ≤ u64_max ∧ 0 ≤ timestamp v.

(** ** Reading the clock *)

(** [now()]: the system time (nanoseconds after the epoch) rounded down to a
    microsecond.  [None] is the panic of [expect]. *)
Definition now `{!Chrono} (system_time : Z) : option Z :=
  let round := system_time mod 1000 in
  let t := system_time - round in
  from_timestamp (t / 1000000000) (t mod 1000000000).

(** [tzero()]: the same computation at the epoch. *)
Definition tzero `{!Chrono} : option Z := now 0.

(** ** Operations.  An argument [t] is the value the call of [now()] or
    [Utc::now()] in the body returns. *)

Definition initial (t : Z) : ConfigVersion := mk_version 1 t.

Definition new (nr t : Z) : ConfigVersion := mk_version nr t.

Definition invalid (t0 : Z) : ConfigVersion := mk_version 0 t0.

Definition increment (t : Z) (v : ConfigVersion) : ConfigVersion :=
  let nr := wrapping_add_u64 (version_nr v) 1 in
  let nr := Z.lor nr (if nr =? 0 then 1 else 0) in
  mk_version nr t.

(** [self.version_nr + 1] panics on overflow (overflow checks are on in every
    profile): [None]. *)
Definition incremental_change (utc_now : Z) (v : ConfigVersion) : option ConfigVersionChange :=
  let nr := version_nr v + 1 in
  if nr <=? u64_max then Some (mk_change v (mk_version nr utc_now)) else None.

Definition min_by_timestamp (self other : ConfigVersion) : ConfigVersion :=
  match Z.compare (timestamp self) (timestamp other) with
  | Lt => self
  | Eq => match Z.compare (version_nr self) (version_nr other) with
          | Lt => self
          | Eq => self
          | Gt => other
          end
  | Gt => other
  end.

Definition since_state_change (utc_now : Z) (v : ConfigVersion) : Z := utc_now - timestamp v.

(** *** Printing *)

Definition version_string `{!Chrono} (v : ConfigVersion) : string :=
  "V" +:+ print_u (version_nr v) +:+ "-T" +:+ print_i (timestamp_micros (timestamp v)).

(** *** Parsing *)

(** [ConfigVersion::from_str] *)
Definition from_str `{!Chrono} (s : string) : result ConfigVersionParseError ConfigVersion :=
  match split_on "-" (trim s) with
  | [version_nr_str; timestamp_str] =>
      match version_nr_str, timestamp_str with
      | String "V" nr, String "T" ts =>
          match parse_u u64_max nr, parse_u u64_max ts with
          | Some version_nr, Some timestamp =>
              let secs := timestamp / 1000000 in
              let usecs := timestamp mod 1000000 in
              match from_timestamp secs (usecs * 1000) with
              | Some datetime => Ok (mk_version version_nr datetime)
              | None => Err (DateTime secs (usecs * 1000))
              end
          | _, _ => Err (VersionFormat s)
          end
      | _, _ => Err (VersionFormat s)
      end
  | _ => Err (VersionFormat s)
  end.

(** *** Durations for humans *)

Definition plural (val : Z) (period : string) : string :=
  if val =? 1 then print_i val +:+ " " +:+ period
  else print_i val +:+ " " +:+ period +:+ "s".

(** [format_duration] of a duration of [seconds] whole seconds; [i64] division
    rounds towards zero. *)
Definition format_duration (seconds : Z) : string :=
  let days := Z.quot seconds 86400 in
  let hours := Z.quot (Z.rem seconds 86400) 3600 in
  let minutes := Z.quot (Z.rem seconds 3600) 60 in
  let seconds := Z.rem seconds 60 in
  let parts := if 0 <? days then [plural days "day"] else [] in
  let parts := if 0 <? hours then parts ++ [plural hours "hour"] else parts in
  let parts := if 0 <? minutes then parts ++ [plural minutes "minute"] else parts in
  let parts := match parts with [] => [plural seconds "second"] | _ => parts end in
  match parts with
  | [] => "0 seconds"
  | [p] => p
  | _ => join ", " (take (pred (length parts)) parts) +:+ " and "
           +:+ default EmptyString (last parts)
  end.

(** [since_state_change_humanized] of a version string. *)
Definition since_state_change_humanized `{!Chrono} (utc_now : Z) (ver : string) : string :=
  match from_str ver with
  | Ok v => format_duration (Z.quot (since_state_change utc_now v) 1000000000)
  | Err _ => "state version parse error"
  end.

(** ** A [chrono] for the witnesses: every instant of the years it supports. *)

Definition chrono_max_secs : Z := 8210266876799.

#[export] Instance chrono_model : Chrono := {|
  from_timestamp s n :=
    if (- chrono_max_secs <=? s) && (s <=? chrono_max_secs) && (0 <=? n) && (n <? 1000000000)
    then Some (s * 1000000000 + n) else None;
  timestamp_micros t := t / 1000;
|}.

#[export] Instance chrono_model_laws : ChronoLaws.
Proof. split; simpl; intros; [by case_match; simplify_eq|done]. Qed.

Example version_string_ex : version_string (mk_version 7 1666644937952267000) = "V7-T1666644937952267".
Proof. vm_compute. reflexivity. Qed.
Example from_str_ex : from_str " V7-T1666644937952267 " = Ok (mk_version 7 1666644937952267000).
Proof. vm_compute. reflexivity. Qed.
Example format_duration_ex : format_duration 8045 = "2 hours and 14 minutes".
Proof. vm_compute. reflexivity. Qed.

(** ** Trimming *)

(** No pattern starts with the byte of [c]. *)
Definition no_match (pats : list (list N)) (c : ascii) : bool :=
  forallb (λ p, match p with b :: _ => negb (N_of_ascii c =? b)%N | [] => false end) pats.

Lemma trim_front_id fuel pats c s :
  no_match pats c = true → trim_front fuel pats (c :: s) = c :: s.
Proof.
  intros H. destruct fuel as [|fuel]; [done|]. simpl.
  assert (omap (λ p, strip_prefix p (c :: s)) pats = []) as ->; [|done].
  induction pats as [|p pats IH]; [done|]. simpl in H. apply andb_true_iff in H as [Hp H].
  destruct p as [|b p]; [done|]. apply negb_true_iff in Hp. simpl. rewrite Hp. by apply IH.
Qed.

Lemma digit_no_match c : is_digit c = true → no_match (reverse <$> white_space) c = true.
Proof. destruct c as [[] [] [] [] [] [] [] []]; vm_compute; done. Qed.

Lemma all_chars_last P s :
  all_chars P s = true → s ≠ EmptyString →
  ∃ l c, list_ascii_of_string s = l ++ [c] ∧ P c = true.
Proof.
  induction s as [|c s IH]; [done|]. simpl. intros [Hc Hs]%andb_true_iff _.
  destruct s as [|c' s]; [by exists [], c|].
  destruct (IH Hs) as (l & d & E & Hd); [done|]. exists (c :: l), d. by rewrite E.
Qed.

Lemma list_ascii_of_app s1 s2 :
  list_ascii_of_string (s1 +:+ s2) = list_ascii_of_string s1 ++ list_ascii_of_string s2.
Proof. induction s1 as [|c s1 IH]; [done|]. simpl. by rewrite <-IH. Qed.

(** A string between a letter and a digit has nothing to trim. *)
Lemma trim_id c s u :
  no_match white_space c = true → all_chars is_digit u = true → u ≠ EmptyString →
  trim (String c s +:+ u) = String c s +:+ u.
Proof.
  intros Hc Hu Hne. destruct (all_chars_last _ _ Hu Hne) as (l & d & El & Hd).
  unfold trim.
  assert (list_ascii_of_string (String c s +:+ u) = c :: (list_ascii_of_string s ++ l) ++ [d]) as E.
  { rewrite list_ascii_of_app, El. simpl. by rewrite <-(assoc_L (++)). }
  rewrite E, trim_front_id by done.
  replace (reverse (c :: (list_ascii_of_string s ++ l) ++ [d]))
    with (d :: reverse (c :: list_ascii_of_string s ++ l)); last first.
  { change (c :: (list_ascii_of_string s ++ l) ++ [d])
      with ((c :: list_ascii_of_string s ++ l) ++ [d]). by rewrite reverse_snoc. }
  rewrite trim_front_id by by apply digit_no_match.
  rewrite reverse_cons, reverse_involutive.
  change ((c :: list_ascii_of_string s ++ l) ++ [d])
    with (c :: (list_ascii_of_string s ++ l) ++ [d]).
  by rewrite <-E, string_of_list_ascii_of_string.
Qed.

(** ** Increment *)

(** [increment] stays in the range of [u64], skips 0 and always changes the
    number; short of the wrap-around it adds one. *)
Lemma increment_nr t v :
  0 ≤ version_nr v ≤ u64_max →
  1 ≤ version_nr (increment t v) ∧ version_nr (increment t v) ≤ u64_max ∧
  version_nr (increment t v) ≠ version_nr v ∧
  (version_nr v < u64_max → version_nr (increment t v) = version_nr v + 1).
Proof.
  intros Hnr. unfold increment, wrapping_add_u64; simpl.
  destruct (decide (version_nr v = u64_max)) as [->|Hne].
  - vm_compute. naive_solver.
  - unfold u64_max in *. rewrite Z.mod_small by lia.
    destruct (Z.eqb_spec (version_nr v + 1) 0); [lia|]. rewrite Z.lor_0_r. lia.
Qed.

Lemma increment_wf t v : wf_version v → 0 ≤ t → wf_version (increment t v).
Proof. intros [Hnr _] Ht. pose proof (increment_nr t v Hnr). split; [lia|done]. Qed.
#[export] Hint Resolve increment_wf : nico.

(** ** Round trip *)

Section roundtrip.
Context `{Hchrono : !Chrono, Hlaws : !ChronoLaws}.

(** [chrono] represents the instant (as a microsecond). *)
Definition representable (t : Z) : Prop :=
  from_timestamp (t / 1000 / 1000000) ((t / 1000) mod 1000000 * 1000) = Some (t - t mod 1000).

Lemma from_str_version_string_trunc v :
  wf_version v → timestamp v / 1000 ≤ u64_max → representable (timestamp v) →
  from_str (version_string v) = Ok (mk_version (version_nr v) (timestamp v - timestamp v mod 1000)).
Proof.
  intros [Hnr Ht] Hmax Hrep. unfold version_string. rewrite timestamp_micros_floor.
  set (u := timestamp v / 1000) in *.
  assert (0 ≤ u) by (apply Z.div_pos; lia).
  unfold print_i. destruct (Z.ltb_spec u 0); [lia|].
  assert (∀ a b : string, "V" +:+ a +:+ "-T" +:+ b = String "V" (a +:+ "-T") +:+ b) as Eassoc.
  { intros a b. change ("V" +:+ (a +:+ ("-T" +:+ b)) = ("V" +:+ (a +:+ "-T")) +:+ b).
    by rewrite !string_app_assoc. }
  unfold from_str. rewrite Eassoc, trim_id by (auto using print_u_digits, print_u_nonempty).
  rewrite <-Eassoc.
  change ("V" +:+ print_u (version_nr v) +:+ "-T" +:+ print_u u)
    with (String "V" (print_u (version_nr v)) +:+ String "-" (String "T" (print_u u))).
  rewrite split_on_app by (simpl; by apply digits_no_dash, print_u_digits).
  rewrite split_on_none by (simpl; by apply digits_no_dash, print_u_digits).
  rewrite !parse_print_u by (unfold u64_max in *; lia).
  unfold representable in Hrep. fold u in Hrep. by rewrite Hrep.
Qed.

(** C40: a stored version reads back as the same version exactly when its
    timestamp has no digits below the microsecond: for every version the types
    can hold and [chrono] can represent, parsing the database string of the
    version gives the version back if and only if the timestamp is a multiple of
    1000 nanoseconds (and it never fails to parse). *)
Theorem from_str_version_string v :
  wf_version v → timestamp v / 1000 ≤ u64_max → representable (timestamp v) →
  (∃ v', from_str (version_string v) = Ok v' ∧ version_nr v' = version_nr v) ∧
  (from_str (version_string v) = Ok v ↔ timestamp v mod 1000 = 0).
Proof.
  intros Hwf Hmax Hrep. rewrite from_str_version_string_trunc by done.
  split; [eauto|]. destruct v as [nr t]; simpl. split.
  - intros [= E]. lia.
  - intros ->. by rewrite Z.sub_0_r.
Qed.

(** What [now()] returns is a multiple of a microsecond, at most one microsecond
    before the system time. *)
Lemma now_spec sys t :
  now sys = Some t → t mod 1000 = 0 ∧ t ≤ sys < t + 1000.
Proof.
  unfold now. intros Hn.
  assert (t = sys - sys mod 1000) as ->.
  { apply from_timestamp_value in Hn; [|apply Z.mod_pos_bound; lia].
    rewrite Hn, Z.mul_comm, <-Z.div_mod by lia. done. }
  pose proof (Z.mod_pos_bound sys 1000). split; [|lia].
  rewrite (Z.div_mod sys 1000) at 1 by lia.
  replace (1000 * (sys / 1000) + sys mod 1000 - sys mod 1000) with (sys / 1000 * 1000) by lia.
  by rewrite Z.mod_mul by lia.
Qed.

(** every version produced by [increment] from a reading of [now()] survives
    the database: it parses back from its string as itself, and it differs from
    the version it replaces, so the compare-and-swap on the string sees the
    change. *)
Theorem increment_roundtrip sys t v :
  wf_version v → now sys = Some t → 0 ≤ t → t / 1000 ≤ u64_max → representable t →
  from_str (version_string (increment t v)) = Ok (increment t v) ∧ increment t v ≠ v.
Proof.
  intros [Hnr Ht] Hnow Hpos Hmax Hrep. pose proof (now_spec _ _ Hnow) as [Hmod _].
  pose proof (increment_nr t v Hnr) as (Hlo & Hhi & Hne & _).
  split.
  - rewrite from_str_version_string_trunc by (try apply increment_wf; done).
    change (timestamp (increment t v)) with t. rewrite Hmod, Z.sub_0_r. done.
  - intros E. apply (f_equal version_nr) in E. done.
Qed.

(** [incremental_change] stamps the new version with the unrounded clock, so
    a version it creates at a time that is not a multiple of a microsecond reads
    back from the database as a different version: it breaks the guarantee that
    the comment of [now()] gives for the other constructors. *)
Theorem incremental_change_not_roundtrip utc_now v c :
  wf_version v → 0 ≤ utc_now → utc_now / 1000 ≤ u64_max → representable utc_now →
  utc_now mod 1000 ≠ 0 → incremental_change utc_now v = Some c →
  ∃ v', from_str (version_string (new_version c)) = Ok v' ∧ v' ≠ new_version c ∧
        version_nr v' = version_nr (new_version c).
Proof.
  intros [Hnr Ht] Hpos Hmax Hrep Hmod Hc. unfold incremental_change in Hc.
  case_match; simplify_eq/=. to_prop.
  rewrite from_str_version_string_trunc; simpl; [|split; simpl; lia|done|done].
  eexists. split; [done|]. split; [|done]. intros [= E]. lia.
Qed.
End roundtrip.

Lemma from_str_version_string_witness :
  (∃ v', from_str (version_string (mk_version 7 1666644937952267000)) = Ok v' ∧ version_nr v' = 7) ∧
  (from_str (version_string (mk_version 7 1666644937952267000)) = Ok (mk_version 7 1666644937952267000)
   ↔ 1666644937952267000 mod 1000 = 0).
Proof. apply (from_str_version_string (mk_version 7 1666644937952267000)); by_eval. Defined.

Lemma increment_roundtrip_witness :
  from_str (version_string (increment 1666644937952267000 (mk_version u64_max 5))) =
    Ok (increment 1666644937952267000 (mk_version u64_max 5)) ∧
  increment 1666644937952267000 (mk_version u64_max 5) ≠ mk_version u64_max 5.
Proof. apply (increment_roundtrip 1666644937952267123); by_eval. Defined.

Lemma incremental_change_not_roundtrip_witness :
  ∃ v', from_str (version_string (mk_version 8 1666644937952267123)) = Ok v' ∧
        v' ≠ mk_version 8 1666644937952267123 ∧ version_nr v' = 8.
Proof.
  apply (incremental_change_not_roundtrip 1666644937952267123 (mk_version 7 0)
           (mk_change (mk_version 7 0) (mk_version 8 1666644937952267123))); by_eval.
Defined.

(** The order [min_by_timestamp] minimises: timestamps first, then numbers. *)
Definition version_le (a b : ConfigVersion) : Prop :=
  timestamp a < timestamp b ∨ timestamp a = timestamp b ∧ version_nr a ≤ version_nr b.

#[export] Instance version_le_dec a b : Decision (version_le a b).
Proof. unfold version_le. apply _. Defined.

Lemma min_by_timestamp_le a b : min_by_timestamp a b = if decide (version_le a b) then a else b.
Proof.
  unfold min_by_timestamp, version_le.
  destruct (Z.compare_spec (timestamp a) (timestamp b));
    try destruct (Z.compare_spec (version_nr a) (version_nr b)); case_decide; done || lia.
Qed.

Lemma version_le_antisym a b : version_le a b → version_le b a → a = b.
Proof. destruct a, b; unfold version_le; simpl. intros; f_equal; lia. Qed.

(** [min_by_timestamp] is the minimum of a total order: it returns one of its
    arguments, no later than either, and it is commutative, associative and
    idempotent, so a fold over several versions does not depend on their order. *)
Theorem min_by_timestamp_semilattice a b c :
  (min_by_timestamp a b = a ∨ min_by_timestamp a b = b) ∧
  timestamp (min_by_timestamp a b) = Z.min (timestamp a) (timestamp b) ∧
  min_by_timestamp a b = min_by_timestamp b a ∧
  min_by_timestamp a (min_by_timestamp b c) = min_by_timestamp (min_by_timestamp a b) c ∧
  min_by_timestamp a a = a.
Proof.
  rewrite !min_by_timestamp_le. split; [by case_decide; auto|]. split_and!.
  - unfold version_le. case_decide; lia.
  - repeat case_decide; auto using version_le_antisym. unfold version_le in *; lia.
  - repeat case_decide; auto; unfold version_le in *; lia.
  - by case_decide.
Qed.
