(* ===== verification/UpgradePolicy.v ===== *)
(** * Build versions and the upgrade of agents
    ([api-model/src/machine/upgrade_policy.rs], [api-db/src/machine.rs])

    The server compares the version an agent reports with its own and decides whether the
    agent is to be upgraded.  [None] stands for a panic. *)

From S2P Require Import Prelude Ordered.

(** ** Data *)

Inductive AgentUpgradePolicy := Off | UpOnly | UpDown.

#[export] Instance AgentUpgradePolicy_eq_dec : EqDecision AgentUpgradePolicy.
Proof. solve_decision. Defined.

Record BuildVersion := mk_build {
  bv_version : string;
  rc : string;
  hotfix : Z;
  commits : Z;
  git_hash : string;
  is_dirty : bool;
}.

(** [From<&str>] *)
Definition policy_from_str (s : string) : AgentUpgradePolicy :=
  if bool_decide (s ∈ ["Off"; "off"]%string) then Off
  else if bool_decide (s ∈ ["UpOnly"; "uponly"; "up_only"]%string) then UpOnly
  else if bool_decide (s ∈ ["UpDown"; "updown"; "up_down"]%string) then UpDown
  else Off.

(** ** Parsing *)

Section parse.
(** [char::is_numeric] of the first character of a string when it is not ASCII. *)
Context (unicode_numeric : string → bool).

(** [s.chars().next().unwrap().is_numeric()] *)
Definition first_is_numeric (s : string) : option bool :=
  match s with
  | EmptyString => None
  | String c _ => Some (is_digit c || ((128 <=? Ascii.N_of_ascii c)%N && unicode_numeric s))
  end.

(** [str::parse::<usize>().unwrap()] *)
Definition parse_usize (s : string) : option Z := parse_u u64_max s.

Definition starts_with_digit (s : string) : bool :=
  match s with String c _ => is_digit c | EmptyString => false end.

Definition split_version (dirty : bool) (s : string) : option (result string BuildVersion) :=
  match split_on "-" s with
  | [] | EmptyString :: _ =>
      Some (Err "build version should have a version number after 'v'"%string)
  | v :: rest =>
      if starts_with_digit v then
        match rest with
        | [] => Some (Ok (mk_build v EmptyString 0 0 EmptyString dirty))
        | [r] => Some (Ok (mk_build v r 0 0 EmptyString dirty))
        | [p1; p2] =>
            numeric ← first_is_numeric p1;
            if (numeric : bool) then
              c ← parse_usize p1; Some (Ok (mk_build v EmptyString 0 c p2 dirty))
            else
              h ← parse_usize p2; Some (Ok (mk_build v p1 h 0 EmptyString dirty))
        | [p1; p2; p3] => c ← parse_usize p2; Some (Ok (mk_build v p1 0 c p3 dirty))
        | [p1; p2; p3; p4] =>
            h ← parse_usize p2; c ← parse_usize p3; Some (Ok (mk_build v p1 h c p4 dirty))
        | _ => Some (Err "invalid build version"%string)
        end
      else Some (Err "build version should start with a digit after 'v'"%string)
  end.

(** [TryFrom<&str>] *)
Definition try_from (s : string) : option (result string BuildVersion) :=
  let '(s, dirty) := match strip_suffix "-dirty" s with
                     | Some stripped => (stripped, true)
                     | None => (s, false)
                     end in
  match s with
  | EmptyString => Some (Err "build version is empty"%string)
  | String "v" s => split_version dirty s
  | _ => Some (Err "build version should start with a 'v'"%string)
  end.

(** ** Printing *)

Definition display (b : BuildVersion) : string :=
  "v" +:+ bv_version b
  +:+ (if bool_decide (rc b = EmptyString) then EmptyString
       else "-" +:+ rc b +:+ "-" +:+ print_u (hotfix b))
  +:+ (if commits b =? 0 then EmptyString else "-" +:+ print_u (commits b))
  +:+ (if bool_decide (git_hash b = EmptyString) then EmptyString else "-" +:+ git_hash b)
  +:+ (if is_dirty b then "-dirty" else EmptyString).

(** ** Ordering *)

Definition is_date_version (b : BuildVersion) : bool := starts_with (bv_version b) "20".

Definition parse_semver (b : BuildVersion) : option (Z * (Z * Z)) :=
  match split_on "." (bv_version b) with
  | p0 :: p1 :: p2 :: _ =>
      major ← parse_u u32_max p0;
      minor ← parse_u u32_max p1;
      patch ← parse_u u32_max p2;
      Some (major, (minor, patch))
  | _ => None
  end.

(** [Ordering::then_with] *)
Definition then_with (a b : comparison) : comparison := match a with Eq => b | c => c end.

Definition cmp_rest (a b : BuildVersion) : comparison :=
  then_with (string_cmp (rc a) (rc b))
    (then_with (Z.compare (hotfix a) (hotfix b)) (Z.compare (commits a) (commits b))).

(** [Ord::cmp] *)
Definition version_cmp (a b : BuildVersion) : comparison :=
  match is_date_version a, is_date_version b with
  | true, false => Lt
  | false, true => Gt
  | false, false =>
      match parse_semver a, parse_semver b with
      | Some va, Some vb =>
          then_with (pair_cmp Z.compare (pair_cmp Z.compare Z.compare) va vb) (cmp_rest a b)
      | _, _ => then_with (string_cmp (bv_version a) (bv_version b)) (cmp_rest a b)
      end
  | true, true => then_with (string_cmp (bv_version a) (bv_version b)) (cmp_rest a b)
  end.

(** ** The decision *)

Definition should_upgrade (policy : AgentUpgradePolicy) (agent api : string) : option bool :=
  match policy with
  | Off => Some false
  | UpOnly =>
      a ← try_from agent;
      match a with
      | Err _ => Some true
      | Ok a =>
          c ← try_from api;
          match c with
          | Err _ => Some false
          | Ok c => Some (match version_cmp a c with Lt => true | _ => false end)
          end
      end
  | UpDown => Some (negb (bool_decide (agent = api)))
  end.

Record UpgradeDecision := mk_decision {
  d_should_upgrade : bool;
  d_to_version : string;
  d_last_updated : Z;
}.

Definition needs_agent_upgrade (d : option UpgradeDecision) : bool :=
  match d with Some d => d_should_upgrade d | None => false end.

(** [apply_agent_upgrade_policy] on the machine's stored decision: the result of the call
    and the decision that is stored.  [observed] is the network status observation and the
    agent version in it. *)
Definition apply_agent_upgrade_policy (api : string) (now : Z) (policy : AgentUpgradePolicy)
    (observed : option (option string)) (stored : option UpgradeDecision)
    : option (bool * option UpgradeDecision) :=
  if bool_decide (policy = Off) then Some (false, stored)
  else match observed with
       | None | Some None => Some (false, stored)
       | Some (Some agent) =>
           upgrade ← should_upgrade policy agent api;
           Some (true, if Bool.eqb upgrade (needs_agent_upgrade stored) then stored
                       else Some (mk_decision upgrade api now))
       end.

(** ** The order of versions *)

(** Versions whose order is by date or by the three numbers of a semantic version. *)
Definition uniform (b : BuildVersion) : Prop :=
  is_date_version b = true ∨ is_Some (parse_semver b).

(** A key that is compared component by component. *)
Definition version_key (b : BuildVersion) : Z * (string * (Z * (Z * Z))) :=
  if is_date_version b then (0, (bv_version b, (0, (0, 0))))
  else (1, (EmptyString, default (0, (0, 0)) (parse_semver b))).

Definition rest_key (b : BuildVersion) : string * (Z * Z) := (rc b, (hotfix b, commits b)).

Definition key_order : (Z * (string * (Z * (Z * Z)))) * (string * (Z * Z)) →
    (Z * (string * (Z * (Z * Z)))) * (string * (Z * Z)) → comparison :=
  pair_cmp
    (pair_cmp Z.compare (pair_cmp string_cmp (pair_cmp Z.compare (pair_cmp Z.compare Z.compare))))
    (pair_cmp string_cmp (pair_cmp Z.compare Z.compare)).

#[export] Instance key_order_total : TotalCmp key_order.
Proof. apply _. Qed.

Lemma version_cmp_key a b : uniform a → uniform b →
  version_cmp a b = key_order (version_key a, rest_key a) (version_key b, rest_key b).
Proof using Type.
  unfold uniform, version_cmp, key_order, version_key, rest_key, pair_cmp, cmp_rest, then_with.
  destruct (is_date_version a), (is_date_version b); intros Ha Hb; simpl; try done.
  - destruct (string_cmp (bv_version a) (bv_version b)), (string_cmp (rc a) (rc b)),
      (hotfix a ?= hotfix b)%Z; done.
  - destruct Ha as [|[[a1 [a2 a3]] ->]], Hb as [|[[b1 [b2 b3]] ->]]; try done. simpl.
    destruct (a1 ?= b1)%Z, (a2 ?= b2)%Z, (a3 ?= b3)%Z, (string_cmp (rc a) (rc b)),
      (hotfix a ?= hotfix b)%Z; done.
Qed.

Lemma cmp_le_trans {A} (cmp : A → A → comparison) `{!TotalCmp cmp} x y z :
  cmp x y ≠ Gt → cmp y z ≠ Gt → cmp x z ≠ Gt.
Proof using Type.
  destruct (cmp x y) eqn:E1; [|destruct (cmp y z) eqn:E2|done]; intros _ H.
  - apply (cmp_eq_iff cmp) in E1 as ->. done.
  - apply (cmp_eq_iff cmp) in E2 as ->. by rewrite E1.
  - by rewrite (cmp_lt_trans cmp _ _ _ E1 E2).
  - done.
Qed.

(** Build versions that are dates or complete semantic versions are totally ordered:
    the comparison is antisymmetric and transitive on them, every date is before every
    semantic version, and two versions compare as equal exactly if they agree in date or
    numbers, release candidate, hotfix and commits. *)
Theorem version_order_total a b c : uniform a → uniform b → uniform c →
  version_cmp b a = CompOpp (version_cmp a b) ∧
  (version_cmp a b ≠ Gt → version_cmp b c ≠ Gt → version_cmp a c ≠ Gt) ∧
  (version_cmp a b = Eq ↔ version_key a = version_key b ∧ rest_key a = rest_key b) ∧
  (is_date_version a = true → is_date_version b = false → version_cmp a b = Lt).
Proof using Type.
  intros Ha Hb Hc. rewrite !version_cmp_key by done. split_and!.
  - apply (cmp_antisym key_order).
  - apply (cmp_le_trans key_order).
  - rewrite (cmp_eq_iff key_order). apply pair_equal_spec.
  - unfold key_order, version_key, pair_cmp. by intros -> ->.
Qed.

(** ** Round trip *)

Definition no_dash (s : string) : Prop := all_chars (λ c, negb (Ascii.eqb c "-")) s = true.

(** The parts [display] prints between dashes. *)
Definition parts (b : BuildVersion) : list string :=
  bv_version b
  :: (if bool_decide (rc b = EmptyString) then [] else [rc b; print_u (hotfix b)])
  ++ (if commits b =? 0 then [] else [print_u (commits b)])
  ++ (if bool_decide (git_hash b = EmptyString) then [] else [git_hash b]).

(** Versions as they are tagged and described: a hotfix comes with a release candidate, a
    hash with a number of commits, unless there is a release candidate without hotfix. *)
Definition canonical (b : BuildVersion) : Prop :=
  starts_with_digit (bv_version b) = true ∧
  no_dash (bv_version b) ∧ no_dash (rc b) ∧ no_dash (git_hash b) ∧
  0 ≤ hotfix b ≤ u64_max ∧ 0 ≤ commits b ≤ u64_max ∧ git_hash b ≠ "dirty"%string ∧
  (rc b = EmptyString → hotfix b = 0 ∧ (commits b = 0 ↔ git_hash b = EmptyString)) ∧
  (rc b ≠ EmptyString → first_is_numeric (rc b) = Some false ∧
     (commits b = 0 → git_hash b = EmptyString ∨ hotfix b = 0) ∧
     (commits b ≠ 0 → git_hash b ≠ EmptyString)).

Lemma display_parts b :
  display b = "v" +:+ join "-" (parts b) +:+ (if is_dirty b then "-dirty" else EmptyString).
Proof using Type.
  unfold display, parts.
  case_bool_decide; destruct (commits b =? 0); case_bool_decide; simpl;
    rewrite <- ?string_app_assoc; done.
Qed.

Lemma print_u_no_dash n : no_dash (print_u n).
Proof using Type. apply digits_no_dash, print_u_digits. Qed.

Lemma parts_no_dash b : canonical b → Forall no_dash (parts b).
Proof using Type.
  intros (_ & Hv & Hr & Hh & _). pose proof print_u_no_dash. unfold parts.
  case_bool_decide; destruct (commits b =? 0); case_bool_decide; simpl;
    repeat (apply Forall_cons; split); auto using Forall_nil.
Qed.

Lemma print_u_not_dirty n : print_u n ≠ "dirty"%string.
Proof using Type.
  intros H. pose proof (print_u_digits n) as Hd. rewrite H in Hd. by vm_compute in Hd.
Qed.

Lemma print_u_numeric n : first_is_numeric (print_u n) = Some true.
Proof using Type.
  pose proof (print_u_digits n) as Hd. pose proof (print_u_nonempty n).
  destruct (print_u n) as [|c s]; [done|]. simpl in *. by apply andb_true_iff in Hd as [-> _].
Qed.

Lemma parts_not_dirty b : canonical b → last (parts b) ≠ Some "dirty"%string.
Proof using Type.
  intros (Hd & _ & _ & _ & _ & _ & Hh & _). pose proof print_u_not_dirty. unfold parts.
  assert (bv_version b ≠ "dirty"%string) by (intros E; by rewrite E in Hd).
  case_bool_decide; destruct (commits b =? 0); case_bool_decide; simpl; congruence.
Qed.

Lemma strip_dirty b :
  canonical b → strip_suffix "-dirty" ("v" +:+ join "-" (parts b)) = None.
Proof using Type.
  intros Hb. destruct (strip_suffix _ _) as [t|] eqn:E; [|done]. exfalso.
  apply strip_suffix_Some in E.
  apply (parts_not_dirty b Hb).
  assert (last (split_on "-" ("v" +:+ join "-" (parts b))) = Some "dirty"%string) as Hl.
  { rewrite E. change ("-dirty"%string) with (String "-" "dirty").
    rewrite split_on_sep. apply last_snoc. }
  rewrite string_app_cons in Hl. change (EmptyString +:+ ?x) with x in Hl.
  cbn [split_on] in Hl. rewrite split_join in Hl by (done || by apply parts_no_dash).
  revert Hl. pose proof Hb as (Hd & _). unfold parts.
  destruct ((if bool_decide (rc b = EmptyString) then _ else _) ++ _) as [|x l]; [|done].
  simpl. intros [= E1].
Qed.

Lemma split_version_parts b : canonical b →
  split_version (is_dirty b) (join "-" (parts b)) = Some (Ok b).
Proof using Type.
  intros Hb. unfold split_version.
  rewrite split_join by (done || by apply parts_no_dash).
  destruct Hb as (Hd & Hv & Hr & Hg & Hh & Hc & _ & H1 & H2). unfold parts.
  assert (bv_version b ≠ EmptyString) as Hne by (intros E; by rewrite E in Hd).
  destruct b as [v r h c g d]; cbn [bv_version rc hotfix commits git_hash is_dirty] in *.
  assert (∀ A (x y : A), match v with EmptyString => x | String _ _ => y end = y) as Hm
    by by destruct v.
  destruct v as [|v0 v]; [done|]. rewrite Hd.
  unfold parse_usize.
  case_bool_decide as Er; [destruct (H1 Er) as [-> H1']|destruct (H2 Er) as (Hn & H21 & H22)];
    destruct (Z.eqb_spec c 0) as [Ec|Ec]; case_bool_decide as Eg; subst; cbn [app];
    try (exfalso; tauto).
  - done.
  - rewrite print_u_numeric. simpl. by rewrite parse_print_u.
  - rewrite Hn. simpl. by rewrite parse_print_u.
  - destruct (H21 eq_refl) as [?| ->]; [done|]. rewrite parse_print_u by done. done.
  - rewrite !parse_print_u by done. done.
Qed.

(** A canonical version survives printing: parsing the printed version returns it,
    and the parser does not panic on it. *)
Theorem try_from_display b : canonical b → try_from (display b) = Some (Ok b).
Proof.
  intros Hb. rewrite display_parts. unfold try_from.
  pose proof (split_version_parts b Hb) as Hs. destruct (is_dirty b).
  - rewrite string_app_assoc, strip_suffix_app.
    rewrite string_app_cons. exact Hs.
  - rewrite string_app_nil_r, strip_dirty by done. rewrite string_app_cons. exact Hs.
Qed.

(** ** Decisions *)

Lemma then_with_opp a b : CompOpp (then_with a b) = then_with (CompOpp a) (CompOpp b).
Proof using Type. by destruct a. Qed.

(** Antisymmetry does not need uniform versions. *)
Lemma version_cmp_antisym a b : version_cmp b a = CompOpp (version_cmp a b).
Proof using Type.
  assert (cmp_rest b a = CompOpp (cmp_rest a b)) as Hr.
  { unfold cmp_rest. rewrite !then_with_opp, (cmp_antisym string_cmp (rc a)).
    by rewrite <- !Z.compare_antisym. }
  unfold version_cmp. destruct (is_date_version a), (is_date_version b); try done.
  - by rewrite then_with_opp, Hr, (cmp_antisym string_cmp (bv_version a)).
  - destruct (parse_semver a) as [va|], (parse_semver b) as [vb|];
      rewrite then_with_opp, Hr; f_equal; try apply (cmp_antisym string_cmp).
    apply (cmp_antisym (pair_cmp Z.compare (pair_cmp Z.compare Z.compare))).
Qed.

(** The stored decision always says whether the agent should be upgraded to the
    version of the server, and is rewritten only when that changes.  Upgrading is not
    circular: when the policy moves an agent up to a version, an agent of that version is
    not moved up to the version the first one came from. *)
Theorem upgrade_decision_spec api now policy agent stored r stored' :
  apply_agent_upgrade_policy api now policy (Some (Some agent)) stored = Some (r, stored') →
  policy ≠ Off →
  should_upgrade policy agent api = Some (needs_agent_upgrade stored') ∧
  (needs_agent_upgrade stored' = needs_agent_upgrade stored → stored' = stored) ∧
  (policy = UpOnly → needs_agent_upgrade stored' = true →
     ∀ b, try_from api = Some (Ok b) → should_upgrade UpOnly api agent = Some false ∨
                                       try_from agent = None).
Proof.
  unfold apply_agent_upgrade_policy. intros H Hp. rewrite bool_decide_eq_false_2 in H by done.
  destruct (should_upgrade policy agent api) as [u|] eqn:Eu; [|done]. simpl in H.
  injection H as <- <-.
  assert (needs_agent_upgrade (if Bool.eqb u (needs_agent_upgrade stored) then stored
            else Some (mk_decision u api now)) = u) as Hn.
  { destruct (Bool.eqb u (needs_agent_upgrade stored)) eqn:Eb; [|done].
    by apply Bool.eqb_prop in Eb. }
  rewrite Hn. split_and!; [done| |].
  - intros ->. by rewrite Bool.eqb_reflx.
  - intros -> -> b Hb. unfold should_upgrade in *. rewrite Hb in *. simpl in *.
    destruct (try_from agent) as [[a|e]|] eqn:Ea; simpl in *; [|by left|by right].
    injection Eu as Eu. left. f_equal. rewrite version_cmp_antisym.
    by destruct (version_cmp a b).
Qed.
End parse.

Lemma try_from_display_witness :
  let b := mk_build "2024.05.02" "rc4" 0 27 "gc3ce4d5d" true in
  canonical (λ _, false) b ∧ try_from (λ _, false) (display b) = Some (Ok b).
Proof.
  intros b. assert (canonical (λ _, false) b) as H.
  { unfold canonical, no_dash. simpl. split_and!; try done; try (vm_compute; done);
      intros; try (split_and!; done || by right). }
  split; [exact H|]. exact (try_from_display (λ _, false) b H).
Defined.

Lemma version_order_total_witness :
  let a := mk_build "2024.05" EmptyString 0 0 EmptyString false in
  let b := mk_build "1.9.0" EmptyString 0 0 EmptyString false in
  let c := mk_build "1.10.0" EmptyString 0 0 EmptyString false in
  version_cmp a b = Lt ∧ version_cmp b c = Lt ∧ version_cmp a c ≠ Gt.
Proof.
  intros a b c.
  assert (uniform a) as Ha by (left; reflexivity).
  assert (uniform b) as Hb by (right; eexists; vm_compute; reflexivity).
  assert (uniform c) as Hc by (right; eexists; vm_compute; reflexivity).
  split; [vm_compute; reflexivity|]. split; [vm_compute; reflexivity|].
  apply (proj1 (proj2 (version_order_total a b c Ha Hb Hc))); vm_compute; discriminate.
Defined.

Lemma upgrade_decision_spec_witness :
  let u (_ : string) := false in
  should_upgrade u UpOnly "v1.9.0" "v1.10.0" = Some true ∧
  (should_upgrade u UpOnly "v1.10.0" "v1.9.0" = Some false ∨ try_from u "v1.9.0" = None).
Proof.
  intros u.
  destruct (upgrade_decision_spec u "v1.10.0" 5 UpOnly "v1.9.0" None true
    (Some (mk_decision true "v1.10.0" 5))) as (H1 & _ & H3);
    [vm_compute; reflexivity|discriminate|].
  split; [exact H1|].
  exact (H3 eq_refl eq_refl (mk_build "1.10.0" EmptyString 0 0 EmptyString false) eq_refl).
Defined.

(** Versions of two numbers are compared as strings, also with versions of three numbers,
    and the order has a cycle. *)
Lemma version_order_cycle :
  let v s := match try_from (λ _, false) s with Some (Ok b) => b | _ =>
               mk_build EmptyString EmptyString 0 0 EmptyString false end in
  version_cmp (v "v1.9.0") (v "v1.10.0") = Lt ∧ version_cmp (v "v1.10.0") (v "v1.5") = Lt ∧
  version_cmp (v "v1.5") (v "v1.9.0") = Lt.
Proof. vm_compute. done. Qed.

(** Malformed versions of agents that should force an upgrade make the parser panic:
    an empty part, a hotfix or a number of commits that is no number. *)
Lemma malformed_version_panics u :
  should_upgrade u UpOnly "v1--2" "v2.0.0" = None ∧
  should_upgrade u UpOnly "v1.0.0-rc1-x" "v2.0.0" = None ∧
  should_upgrade u UpOnly "v1.0.0-rc1-x-gabc" "v2.0.0" = None ∧
  should_upgrade u UpOnly "not-a-version" "v2.0.0" = Some true.
Proof. vm_compute. done. Qed.

(** A version with a hotfix, no commits and a hash does not survive printing. *)
Lemma display_drops_commits :
  let u (_ : string) := false in
  match try_from u "v1.2.3-rc1-2-0-gabc" with
  | Some (Ok b) => match try_from u (display b) with
                   | Some (Ok b') => hotfix b = 2 ∧ commits b = 0 ∧ hotfix b' = 0 ∧ commits b' = 2
                   | _ => False
                   end
  | _ => False
  end.
Proof. vm_compute. done. Qed.

(** The policy call reports [true] for an agent that is not to be upgraded. *)
Lemma apply_policy_result_not_decision :
  apply_agent_upgrade_policy (λ _, false) "v1.0.0" 5 UpOnly (Some (Some "v1.0.0"%string)) None
  = Some (true, None).
Proof. vm_compute. done. Qed.
