(* ===== verification/StateHistory.v ===== *)
(** * State history tables ([crates/api-db/src/state_history.rs])

    The rows of one history table in the order of their [id], which the
    identity column assigns increasing.  The trigger of the schema that keeps
    the newest 250 rows of an object after an insert is part of [persist].
    Other components use the table through [for_object_persist] and its
    companions. *)

From S2P Require Import Prelude ConfigVersion.

(** The last [n] elements. *)
Definition lastn {A} (n : nat) (l : list A) : list A := drop (length l - n) l.

Lemma lastn_length {A} n (l : list A) : length (lastn n l) = (n `min` length l)%nat.
Proof. unfold lastn. rewrite length_drop. lia. Qed.

Lemma lastn_all {A} n (l : list A) : (length l ≤ n)%nat → lastn n l = l.
Proof. intros. unfold lastn. by replace (length l - n)%nat with 0%nat by lia. Qed.

Lemma lastn_fmap {A B} (f : A → B) n l : lastn n (f <$> l) = f <$> lastn n l.
Proof. unfold lastn. by rewrite length_fmap, fmap_drop. Qed.

Lemma lastn_suffix {A} n (l : list A) : lastn n l `suffix_of` l.
Proof. exists (take (length l - n) l). symmetry. apply take_drop. Qed.

Lemma filter_all {A} (P : A → Prop) `{!∀ x, Decision (P x)} l :
  Forall P l → filter P l = l.
Proof.
  induction 1 as [|x l Hx _ IH]; [done|]. by rewrite filter_cons_True, IH.
Qed.

Lemma filter_none {A} (P : A → Prop) `{!∀ x, Decision (P x)} l :
  Forall (λ x, ¬ P x) l → filter P l = [].
Proof.
  induction 1 as [|x l Hx _ IH]; [done|]. by rewrite filter_cons_False.
Qed.

(** Keeping the rows whose key is one of the keys of a suffix keeps the suffix. *)
Lemma filter_key_suffix {A K} `{!EqDecision K} (key : A → K) (l1 l2 : list A) :
  NoDup (key <$> l1 ++ l2) → filter (λ x, key x ∈ key <$> l2) (l1 ++ l2) = l2.
Proof.
  rewrite fmap_app, NoDup_app. intros (_ & Hdisj & _).
  rewrite filter_app, (filter_none _ l1), (filter_all _ l2); [done|..].
  - apply Forall_forall. intros x Hx. by apply list_elem_of_fmap_2.
  - apply Forall_forall. intros x Hx. by apply Hdisj, list_elem_of_fmap_2.
Qed.

Lemma Forall_lt_app_sorted (l : list Z) n :
  StronglySorted Z.lt l → Forall (λ x, x < n) l → StronglySorted Z.lt (l ++ [n]).
Proof.
  induction 1 as [|x l _ IH Hx]; intros Hn; inversion_clear Hn; simpl;
    constructor; auto using Forall_nil, SSorted_nil.
  apply Forall_app. auto.
Qed.

Lemma sorted_lt_NoDup (l : list Z) : StronglySorted Z.lt l → NoDup l.
Proof.
  induction 1 as [|x l _ IH Hx]; constructor; [|done].
  rewrite Forall_forall in Hx. intros Hin. specialize (Hx x Hin). lia.
Qed.

Lemma sorted_filter_sublist {A} (R : A → A → Prop) (l k : list A) :
  l `sublist_of` k → StronglySorted R k → StronglySorted R l.
Proof.
  induction 1 as [|x l k Hs IH|x l k Hs IH]; intros Hk; [constructor|..];
    apply StronglySorted_inv in Hk as [Hk Hx]; [constructor; [auto|]|auto].
  rewrite Forall_forall in *. eauto using elem_of_sublist.
Qed.

(** ** The trigger of the history tables

    After an insert of a row of an object it deletes the rows of the object whose id is
    not one of the greatest [n]. *)

Section keep_newest.
Context {R : Type} (rid : R → Z) (robj : R → string).

Definition rows_for (o : string) (rows : list R) : list R := filter (λ r, robj r = o) rows.

Definition keep_newest (n : nat) (o : string) (rows : list R) : list R :=
  let kept := rid <$> lastn n (rows_for o rows) in
  filter (λ r, ¬ (robj r = o ∧ rid r ∉ kept)) rows.

Lemma keep_newest_own n o rows :
  NoDup (rid <$> rows) → rows_for o (keep_newest n o rows) = lastn n (rows_for o rows).
Proof.
  intros Hnd. unfold rows_for at 1, keep_newest. rewrite list_filter_filter.
  set (kept := lastn n (rows_for o rows)).
  transitivity (filter (λ r, rid r ∈ rid <$> kept) (rows_for o rows)).
  { unfold rows_for. rewrite list_filter_filter. apply list_filter_iff. intros r.
    destruct (decide (rid r ∈ rid <$> kept)); naive_solver. }
  destruct (lastn_suffix n (rows_for o rows)) as [l1 Hl].
  fold kept in Hl. rewrite Hl. apply filter_key_suffix. rewrite <- Hl.
  eapply sublist_NoDup; [done|]. apply fmap_sublist, sublist_filter.
Qed.

Lemma keep_newest_other n o o' rows :
  o ≠ o' → rows_for o' (keep_newest n o rows) = rows_for o' rows.
Proof.
  intros. unfold rows_for, keep_newest. rewrite list_filter_filter.
  apply list_filter_iff. naive_solver.
Qed.

Lemma rows_for_snoc o rows r :
  rows_for o (rows ++ [r]) = rows_for o rows ++ (if decide (robj r = o) then [r] else []).
Proof. unfold rows_for. by rewrite filter_app. Qed.

(** Ids increase along the rows and are below the next: the identity column. *)
Definition identity_wf (next : Z) (rows : list R) : Prop :=
  StronglySorted Z.lt (rid <$> rows) ∧ Forall (λ r, rid r < next) rows.

Lemma identity_wf_snoc rows r :
  identity_wf (rid r) rows → StronglySorted Z.lt (rid <$> rows ++ [r]).
Proof.
  intros [Hs Hlt]. rewrite fmap_app. apply Forall_lt_app_sorted; [done|].
  by apply Forall_fmap.
Qed.

Lemma keep_newest_wf n o rows r :
  identity_wf (rid r) rows → identity_wf (rid r + 1) (keep_newest n o (rows ++ [r])).
Proof.
  intros Hwf. split.
  - eapply sorted_filter_sublist; [apply fmap_sublist, sublist_filter|].
    by apply identity_wf_snoc.
  - destruct Hwf as [_ Hlt]. apply Forall_forall. intros x [_ Hr]%list_elem_of_filter.
    rewrite Forall_forall in Hlt. apply elem_of_app in Hr as [Hr|Hr].
    + specialize (Hlt x Hr). lia.
    + apply list_elem_of_singleton in Hr as ->. lia.
Qed.
End keep_newest.

Section StateHistory.
(** The [jsonb] contents of the [state] column. *)
Context {J : Type}.

Record history_row := mk_history_row {
  hrow_id : Z;
  hrow_object_id : string;
  hrow_state : J;
  hrow_version : ConfigVersion;
  hrow_timestamp : Z;
}.

Record StateHistoryRecord := mk_history_record {
  hist_state : J;
  hist_version : ConfigVersion;
  hist_time : option Z;
}.

Record history_table := mk_history_table {
  next_row_id : Z;
  history_rows : list history_row;
}.

Definition empty_history : history_table := mk_history_table 1 [].

(** [From<DbStateHistoryRecord> for StateHistoryRecord] *)
Definition to_record (r : history_row) : StateHistoryRecord :=
  mk_history_record (hrow_state r) (hrow_version r) (Some (hrow_timestamp r)).

Definition of_object (o : string) (rows : list history_row) : list history_row :=
  rows_for hrow_object_id o rows.

(** [SELECT ... WHERE object_id = $1 ORDER BY id ASC] *)
Definition for_object (t : history_table) (object_id : string) : list StateHistoryRecord :=
  to_record <$> of_object object_id (history_rows t).

(** The loop over the rows of [WHERE object_id IN (...) ORDER BY id ASC]. *)
Definition find_by_object_ids (t : history_table) (ids : list string)
    : gmap string (list StateHistoryRecord) :=
  match ids with
  | [] => ∅
  | _ =>
      foldl (λ histories r,
               let records := default [] (histories !! hrow_object_id r) in
               <[hrow_object_id r := records ++ [to_record r]]> histories)
        ∅ (filter (λ r, hrow_object_id r ∈ ids) (history_rows t))
  end.

Definition history_keep_limit : nat := 250.

(** The [..._state_history_keep_limit] trigger for a new row of [o]: delete the
    rows of [o] whose id is not one of the 250 greatest. *)
Definition keep_limit (o : string) (rows : list history_row) : list history_row :=
  keep_newest hrow_id hrow_object_id history_keep_limit o rows.

(** [persist]: [db_now] is the value of the column default [now()]. *)
Definition persist (t : history_table) (db_now : Z) (object_id : string) (state : J)
    (state_version : ConfigVersion) : StateHistoryRecord * history_table :=
  let r := mk_history_row (next_row_id t) object_id state state_version db_now in
  (to_record r,
   mk_history_table (next_row_id t + 1) (keep_limit object_id (history_rows t ++ [r]))).

Definition rename_row (old_object_id new_object_id : string) (r : history_row) : history_row :=
  if decide (hrow_object_id r = old_object_id)
  then mk_history_row (hrow_id r) new_object_id (hrow_state r) (hrow_version r) (hrow_timestamp r)
  else r.

Definition update_object_ids (t : history_table) (old_object_id new_object_id : string)
    : history_table :=
  mk_history_table (next_row_id t) (rename_row old_object_id new_object_id <$> history_rows t).

(** The identity column: ids increase along the rows and are below the next. *)
Definition history_wf (t : history_table) : Prop :=
  identity_wf hrow_id (next_row_id t) (history_rows t).

(** ** Lemmas *)

Lemma for_object_persist t now o s v :
  history_wf t →
  for_object (snd (persist t now o s v)) o =
  lastn history_keep_limit (for_object t o ++ [fst (persist t now o s v)]).
Proof.
  intros Hwf. unfold for_object, persist, of_object, keep_limit. simpl.
  rewrite keep_newest_own by (apply sorted_lt_NoDup; by apply identity_wf_snoc).
  rewrite rows_for_snoc. simpl. rewrite decide_True by done.
  by rewrite <- lastn_fmap, fmap_app.
Qed.

Lemma for_object_persist_other t now o o' s v :
  o ≠ o' → for_object (snd (persist t now o s v)) o' = for_object t o'.
Proof.
  intros Hne. unfold for_object, persist, of_object, keep_limit. simpl.
  rewrite keep_newest_other, rows_for_snoc by done. simpl.
  rewrite decide_False by done. by rewrite app_nil_r.
Qed.

Lemma persist_wf t now o s v : history_wf t → history_wf (snd (persist t now o s v)).
Proof.
  apply (keep_newest_wf hrow_id hrow_object_id history_keep_limit o (history_rows t)
    (mk_history_row (next_row_id t) o s v now)).
Qed.

Lemma collect_lookup (rows : list history_row) (m : gmap string (list StateHistoryRecord)) o :
  foldl (λ histories r,
           let records := default [] (histories !! hrow_object_id r) in
           <[hrow_object_id r := records ++ [to_record r]]> histories) m rows !! o =
  match of_object o rows with
  | [] => m !! o
  | mine => Some (default [] (m !! o) ++ (to_record <$> mine))
  end.
Proof.
  revert m. induction rows as [|r rows IH]; intros m; [done|].
  simpl foldl. rewrite IH. unfold of_object, rows_for. simpl.
  destruct (decide (hrow_object_id r = o)) as [<-|Hne].
  - rewrite filter_cons_True, lookup_insert_eq by done. simpl.
    destruct (filter _ rows); simpl; [done|]. by rewrite <- app_assoc.
  - by rewrite filter_cons_False, lookup_insert_ne.
Qed.

(** Reading the histories of several objects at once returns, for every object
    asked for that has history, exactly the records the single-object query
    returns, oldest first, and no entry for any other object. *)
Theorem find_by_object_ids_spec (t : history_table) (ids : list string) (o : string) :
  find_by_object_ids t ids !! o =
  if decide (o ∈ ids)
  then match for_object t o with [] => None | records => Some records end
  else None.
Proof.
  unfold find_by_object_ids, for_object.
  destruct ids as [|i ids]; [by rewrite decide_False by apply not_elem_of_nil|].
  set (ids' := i :: ids). rewrite collect_lookup, lookup_empty.
  assert (Hof : of_object o (filter (λ r, hrow_object_id r ∈ ids') (history_rows t)) =
          if decide (o ∈ ids') then of_object o (history_rows t) else []).
  { unfold of_object, rows_for. rewrite list_filter_filter. case_decide.
    - apply list_filter_iff. naive_solver.
    - apply filter_none, Forall_forall. naive_solver. }
  rewrite Hof. destruct (decide (o ∈ ids')); [|done].
  by destruct (of_object o (history_rows t)).
Qed.

(** Storing a transition keeps the newest 250 records of its object, the new
    one last, touches no other object's history and keeps the ids increasing. *)
Theorem persist_spec (t : history_table) (now : Z) (o : string) (s : J) (v : ConfigVersion)
    (Hwf : history_wf t) :
  let t' := snd (persist t now o s v) in
  history_wf t' ∧
  for_object t' o = lastn 250 (for_object t o ++ [mk_history_record s v (Some now)]) ∧
  (length (for_object t o) < 250 →
     for_object t' o = for_object t o ++ [mk_history_record s v (Some now)])%nat ∧
  ∀ o', o ≠ o' → for_object t' o' = for_object t o'.
Proof.
  intros t'. split_and!.
  - by apply persist_wf.
  - by apply for_object_persist.
  - intros. unfold t'. rewrite for_object_persist by done. apply lastn_all.
    rewrite length_app. simpl. unfold history_keep_limit. lia.
  - intros. by apply for_object_persist_other.
Qed.
End StateHistory.
Arguments history_row : clear implicits.
Arguments history_table : clear implicits.
Arguments StateHistoryRecord : clear implicits.

Lemma empty_history_wf {J} : history_wf (J := J) empty_history.
Proof. repeat constructor. Qed.

Lemma persist_spec_witness :
  let t := snd (persist empty_history 7 "a" true (mk_version 1 5)) in
  for_object (snd (persist t 8 "a" false (mk_version 2 6))) "a" =
  [mk_history_record true (mk_version 1 5) (Some 7);
   mk_history_record false (mk_version 2 6) (Some 8)].
Proof.
  intros t. assert (Hwf : history_wf t) by apply persist_wf, empty_history_wf.
  destruct (persist_spec t 8 "a" false (mk_version 2 6) Hwf) as (_ & _ & H & _).
  rewrite H by (vm_compute; lia). reflexivity.
Defined.
