(* ===== verification/HealthReport.v ===== *)
(** * Health reports ([crates/health-report/src/lib.rs])

    A report lists the probes of one source that succeeded and the alerts of the
    others.  A probe is identified by its id and target, the key.  Reports of several
    sources are merged into the aggregate health of an object, and the classifications
    of the alerts of an aggregate decide what may be done with the object.

    Times are nanoseconds; an argument [now] is the value of [chrono::Utc::now()].  A
    [HealthProbeId] and a [HealthAlertClassification] are the strings they wrap. *)

From S2P Require Import Prelude Ordered.

(** ** Data *)

Record HealthProbeSuccess := mk_success {
  success_id : string;
  success_target : option string;
}.

Record HealthProbeAlert := mk_alert {
  alert_id : string;
  alert_target : option string;
  in_alert_since : option Z;
  message : string;
  tenant_message : option string;
  classifications : list string;
}.

Record HealthReport := mk_report {
  source : string;
  triggered_by : option string;
  observed_at : option Z;
  successes : list HealthProbeSuccess;
  alerts : list HealthProbeAlert;
}.

Inductive HealthReportApplyMode := Merge | Replace.

Inductive HealthReportConversionError :=
| TimestampParseError
| MissingSource
| MissingId
| MissingClassification.

#[export] Instance HealthProbeSuccess_eq_dec : EqDecision HealthProbeSuccess.
Proof. solve_decision. Defined.
#[export] Instance HealthProbeAlert_eq_dec : EqDecision HealthProbeAlert.
Proof. solve_decision. Defined.
#[export] Instance HealthReport_eq_dec : EqDecision HealthReport.
Proof. solve_decision. Defined.

(** The [(id, target)] pairs the maps and sets of the file are keyed by, and the derived
    order of the pairs. *)
Notation probe_key := (string * option string)%type.

Definition success_key (s : HealthProbeSuccess) : probe_key := (success_id s, success_target s).
Definition alert_key (a : HealthProbeAlert) : probe_key := (alert_id a, alert_target a).
Definition key_cmp : probe_key → probe_key → comparison :=
  pair_cmp string_cmp (option_cmp string_cmp).

#[export] Instance key_cmp_total : TotalCmp key_cmp.
Proof. apply _. Qed.

(** ** Well-known names *)

Definition DPU_AGENT_SOURCE : string := "forge-dpu-agent".
Definition MACHINE_VALIDATION_SOURCE : string := "machine-validation".
Definition SITE_EXPLORER_SOURCE : string := "site-explorer".
Definition SKU_VALIDATION_SOURCE : string := "sku-validation".
Definition QUARANTINE_SOURCE : string := "quarantine".
Definition REPAIR_REQUEST_MERGE_SOURCE : string := "repair-request".
Definition REQUEST_ONLINE_REPAIR_MERGE_SOURCE : string := "request-online-repair".

Definition prevent_host_state_changes : string := "PreventHostStateChanges".
Definition prevent_allocations : string := "PreventAllocations".
Definition suppress_external_alerting : string := "SuppressExternalAlerting".
Definition stop_reboot_for_automatic_recovery_from_state_machine : string :=
  "StopRebootForAutomaticRecoveryFromStateMachine".

(** [FromStr] of [HealthProbeId] and of [HealthAlertClassification] *)
Definition probe_id_from_str (s : string) : result HealthReportConversionError string :=
  if bool_decide (s = EmptyString) then Err MissingId else Ok s.

Definition classification_from_str (s : string) : result HealthReportConversionError string :=
  if bool_decide (s = EmptyString) then Err MissingClassification else Ok s.

(** ** Reports and alerts the code makes itself *)

Definition empty_report (now : Z) (src : string) : HealthReport :=
  mk_report src None (Some now) [] [].

Definition heartbeat_timeout_alert (now : Z) (target msg : string)
    (prevent suppress : bool) : HealthProbeAlert :=
  mk_alert "HeartbeatTimeout" (Some target) (Some now) msg None
    ((if prevent then [prevent_allocations] else [])
     ++ [prevent_host_state_changes]
     ++ (if suppress then [suppress_external_alerting] else [])).

Definition heartbeat_timeout (now : Z) (src target msg : string)
    (prevent suppress : bool) : HealthReport :=
  mk_report src None (Some now) [] [heartbeat_timeout_alert now target msg prevent suppress].

Definition stale_agent_version_alert (now : Z) (dpu_id msg : string) (prevent : bool)
    : HealthProbeAlert :=
  mk_alert "StaleAgentVersion" (Some dpu_id) (Some now) msg None
    (if prevent then [prevent_allocations] else []).

Definition stale_agent_version (now : Z) (src dpu_id msg : string) (prevent : bool)
    : HealthReport :=
  mk_report src None (Some now) [] [stale_agent_version_alert now dpu_id msg prevent].

Definition quarantine_report (now : Z) (msg : string) : HealthReport :=
  mk_report QUARANTINE_SOURCE None (Some now) []
    [mk_alert "Quarantine" None (Some now) msg None [prevent_allocations]].

Definition newline : string := String "010"%char EmptyString.

Definition sku_mismatch (now : Z) (mismatches : list string) : HealthReport :=
  mk_report SKU_VALIDATION_SOURCE None (Some now) []
    [mk_alert "SkuValidation" None (Some now) (join newline mismatches) None
       [prevent_allocations]].

Definition sku_missing (now : Z) (sku_id : string) : HealthReport :=
  mk_report SKU_VALIDATION_SOURCE None (Some now) []
    [mk_alert "SkuValidation" None (Some now)
       ("The assigned sku " +:+ sku_id +:+ " does not exist") None [prevent_allocations]].

Definition missing_report (now : Z) : HealthReport :=
  mk_report "MissingReport" None (Some now) []
    [mk_alert "MissingReport" None (Some now) "A HealthReport is not available" None []].

Definition malformed_report (now : Z) (error : string) : HealthReport :=
  mk_report "MalformedReport" None (Some now) []
    [mk_alert "MalformedReport" None (Some now)
       ("Health report can not be parsed: " +:+ error) None []].

Definition ib_port_down (now : Z) (down_ports : list string) (total_ports : Z)
    : HealthProbeAlert :=
  mk_alert "IbPortDown" None (Some now)
    ("IB port(s) down: " +:+ print_u (Z.of_nat (length down_ports)) +:+ " of "
     +:+ print_u total_ports +:+ " ports are not active. Down GUIDs: "
     +:+ join ", " down_ports)
    (Some ("InfiniBand connectivity issue: " +:+ print_u (Z.of_nat (length down_ports))
           +:+ " port(s) are currently unavailable"))
    [prevent_allocations].

(** ** Queries *)

(** [classifications()]: may report duplicates. *)
Definition report_classifications (r : HealthReport) : list string :=
  a ← alerts r; classifications a.

Definition find_alert_by_classification (c : string) (r : HealthReport)
    : option HealthProbeAlert :=
  List.find (λ a, bool_decide (c ∈ classifications a)) (alerts r).

Definition has_classification (c : string) (r : HealthReport) : bool :=
  match find_alert_by_classification c r with Some _ => true | None => false end.

Definition is_reboot_blocked_in_state_machine (r : HealthReport) : bool :=
  existsb (λ a, existsb (λ c,
    bool_decide (c = stop_reboot_for_automatic_recovery_from_state_machine))
    (classifications a)) (alerts r).

(** ** [update_in_alert_since]

    The clock is read once per new alert: [now i] is its value for the alert at [i]. *)

Definition previous_in_alert_times (previous : option HealthReport) : gmap probe_key Z :=
  match previous with
  | None => ∅
  | Some p =>
      foldl (λ m a, match in_alert_since a with
                    | Some t => <[alert_key a := t]> m
                    | None => m
                    end) ∅ (alerts p)
  end.

Definition set_in_alert_since (t : option Z) (a : HealthProbeAlert) : HealthProbeAlert :=
  mk_alert (alert_id a) (alert_target a) t (message a) (tenant_message a) (classifications a).

Definition with_alerts (l : list HealthProbeAlert) (r : HealthReport) : HealthReport :=
  mk_report (source r) (triggered_by r) (observed_at r) (successes r) l.

Definition update_in_alert_since (now : nat → Z) (previous : option HealthReport)
    (r : HealthReport) : HealthReport :=
  let times := previous_in_alert_times previous in
  with_alerts
    (imap (λ i a, set_in_alert_since
       (Some (match times !! alert_key a with Some t => t | None => now i end)) a)
       (alerts r)) r.

(** ** Merging *)

(** The [match] on two timestamps of [merge]: the older one of those that are set. *)
Definition oldest (t1 t2 : option Z) : option Z :=
  match t1, t2 with
  | Some t1, Some t2 => Some (Z.min t1 t2)
  | Some t1, None => Some t1
  | None, Some t2 => Some t2
  | None, None => None
  end.

Definition merge_classifications (c1 c2 : list string) : list string :=
  foldl (λ s c, bset_insert string_cmp c s)
    (foldl (λ s c, bset_insert string_cmp c s) [] c1) c2.

(** [HealthProbeAlert::merge] *)
Definition alert_merge (self other : HealthProbeAlert) : HealthProbeAlert :=
  mk_alert (alert_id self) (alert_target self)
    (oldest (in_alert_since other) (in_alert_since self))
    (if bool_decide (message self = EmptyString) then message other
     else if bool_decide (message other = EmptyString) then message self
     else message self +:+ newline +:+ message other)
    (match tenant_message self, tenant_message other with
     | Some m1, Some m2 => Some (m1 +:+ newline +:+ m2)
     | Some m1, None => Some m1
     | None, Some m2 => Some m2
     | None, None => None
     end)
    (merge_classifications (classifications self) (classifications other)).

(** The [match] on the entry of an alert of [other]. *)
Definition merge_entry (a : HealthProbeAlert) (existing : option HealthProbeAlert)
    : HealthProbeAlert :=
  match existing with
  | None => a
  | Some e => alert_merge e a
  end.

(** [HealthReport::merge] *)
Definition merge (self other : HealthReport) : HealthReport :=
  let insert_success s x := bset_insert key_cmp (success_key x) s in
  let ss := foldl insert_success [] (successes self) in
  let ss := foldl insert_success ss (successes other) in
  let '(ss, m) :=
    foldl (λ '(ss, m) a,
      (bset_remove key_cmp (alert_key a) ss, bmap_insert key_cmp (alert_key a) a m))
      (ss, []) (alerts self) in
  let '(ss, m) :=
    foldl (λ '(ss, m) a,
      (bset_remove key_cmp (alert_key a) ss,
       bmap_upsert key_cmp (alert_key a) (merge_entry a) m))
      (ss, m) (alerts other) in
  mk_report (source self) (triggered_by self)
    (oldest (observed_at self) (observed_at other))
    ((λ '(id, target), mk_success id target) <$> ss) m.*2.

(** ** [hash_without_timestamps]

    The calls of the hasher: [write_usize], [write_str] of a [str] and the discriminant
    of an [Option].  A hasher is a function of the calls made on it. *)

Inductive hash_write := WUsize (n : Z) | WStr (s : string) | WTag (n : Z).

Definition hash_option (o : option string) : list hash_write :=
  match o with None => [WTag 0] | Some s => [WTag 1; WStr s] end.

Definition success_hash (s : HealthProbeSuccess) : list hash_write :=
  WStr (success_id s) :: hash_option (success_target s).

Definition alert_hash (a : HealthProbeAlert) : list hash_write :=
  let sorted := foldl (λ s c, bset_insert string_cmp c s) [] (classifications a) in
  [WStr (alert_id a)] ++ hash_option (alert_target a) ++ [WStr (message a)]
  ++ hash_option (tenant_message a)
  ++ WUsize (Z.of_nat (length sorted)) :: (WStr <$> sorted).

Definition hash_without_timestamps (r : HealthReport) : list hash_write :=
  let ss := foldl (λ m s, bmap_insert key_cmp (success_key s) s m) [] (successes r) in
  let al := foldl (λ m a, bmap_insert key_cmp (alert_key a) a m) [] (alerts r) in
  WUsize (Z.of_nat (length ss)) :: (s ← ss.*2; success_hash s)
  ++ WUsize (Z.of_nat (length al)) :: (a ← al.*2; alert_hash a).
