(* ===== verification/HealthReportFacts.v ===== *)
(** * Properties of health reports

    What [merge] does to every probe, that it is associative and loses no
    classification, that the timestamps of alerts are carried over, and what the hash of
    a report depends on. *)

From S2P Require Import Prelude Ordered HealthReport.

(** ** The probes of a report *)

Definition alerts_of (k : probe_key) (l : list HealthProbeAlert) : list HealthProbeAlert :=
  filter (λ a, alert_key a = k) l.

(** The alert of a probe; the last one when a report lists several. *)
Definition alert_for (k : probe_key) (r : HealthReport) : option HealthProbeAlert :=
  last (alerts_of k (alerts r)).

Definition alert_keys (r : HealthReport) : list probe_key := alert_key <$> alerts r.
Definition success_keys (r : HealthReport) : list probe_key := success_key <$> successes r.

(** Well-formed reports: sorted by probe, no probe twice. *)
Definition wf_report (r : HealthReport) : Prop :=
  bset_sorted key_cmp (alert_keys r) ∧ bset_sorted key_cmp (success_keys r) ∧
  ∀ k, k ∈ success_keys r → k ∉ alert_keys r.

Lemma alerts_of_elem k l a : a ∈ alerts_of k l ↔ alert_key a = k ∧ a ∈ l.
Proof. unfold alerts_of. by rewrite list_elem_of_filter. Qed.

Lemma alerts_of_unique k a l :
  NoDup (alert_key <$> l) → a ∈ l → alert_key a = k → alerts_of k l = [a].
Proof.
  induction l as [|b l IH]; [by intros ? ?%not_elem_of_nil|].
  rewrite fmap_cons, NoDup_cons. intros [Hb Hl] Ha Hk. unfold alerts_of.
  rewrite filter_cons. apply elem_of_cons in Ha as [<-|Ha].
  - rewrite decide_True by done. f_equal. apply filter_nil_of. intros c Hc Hck.
    apply Hb. rewrite Hk, <- Hck. by apply list_elem_of_fmap_2.
  - rewrite decide_False; [by apply IH|]. intros Hbk. apply Hb. rewrite Hbk, <- Hk.
    by apply list_elem_of_fmap_2.
Qed.

Lemma alert_for_Some_elem k r a : alert_for k r = Some a → a ∈ alerts r ∧ alert_key a = k.
Proof.
  intros H%last_Some_elem_of. apply alerts_of_elem in H as []. done.
Qed.

Lemma alert_for_elem r a :
  NoDup (alert_keys r) → a ∈ alerts r → alert_for (alert_key a) r = Some a.
Proof. intros Hr Ha. unfold alert_for. by rewrite (alerts_of_unique _ a). Qed.

Lemma alert_for_None k r : alert_for k r = None ↔ k ∉ alert_keys r.
Proof.
  unfold alert_for. rewrite last_None. unfold alert_keys. split.
  - intros H Hk. apply list_elem_of_fmap in Hk as (a & -> & Ha).
    apply (not_elem_of_nil a). rewrite <- H. by apply alerts_of_elem.
  - intros Hk. apply filter_nil_of. intros a Ha <-. apply Hk. by apply list_elem_of_fmap_2.
Qed.

Lemma wf_report_NoDup r : wf_report r → NoDup (alert_keys r).
Proof. intros [H _]. by apply (bset_sorted_NoDup key_cmp). Qed.
#[export] Hint Resolve wf_report_NoDup : nico.

Lemma success_key_mk k : success_key (let '(id, t) := k in mk_success id t) = k.
Proof. by destruct k. Qed.

#[export] Instance success_key_inj : Inj (=) (=) success_key.
Proof. intros [] []. by intros [= -> ->]. Qed.

(** A sorted list of alerts is determined by the alert of every probe. *)
Lemma alerts_ext l1 l2 :
  bset_sorted key_cmp (alert_key <$> l1) → bset_sorted key_cmp (alert_key <$> l2) →
  (∀ k, last (alerts_of k l1) = last (alerts_of k l2)) → l1 = l2.
Proof.
  intros H1 H2 Hk.
  set (entries := λ l : list HealthProbeAlert, (λ a, (alert_key a, a)) <$> l).
  assert (∀ l, (entries l).*1 = alert_key <$> l) as Hkeys.
  { intros l. unfold entries. by rewrite <- list_fmap_compose. }
  assert (∀ l, (entries l).*2 = l) as Hvals.
  { intros l. unfold entries. rewrite <- list_fmap_compose. apply list_fmap_id. }
  assert (∀ l k a, bset_sorted key_cmp (alert_key <$> l) →
    bmap_get key_cmp k (entries l) = Some a ↔ last (alerts_of k l) = Some a) as Hget.
  { intros l k a Hl. rewrite (bmap_get_Some key_cmp) by (by unfold bmap_sorted; rewrite Hkeys).
    unfold entries. rewrite list_elem_of_fmap. split.
    - intros (b & [= -> ->] & Hb).
      by rewrite (alerts_of_unique _ b) by (done || by apply (bset_sorted_NoDup key_cmp)).
    - intros Hlast%last_Some_elem_of%alerts_of_elem. exists a. destruct Hlast as [<- Ha].
      done. }
  rewrite <- (Hvals l1), <- (Hvals l2). f_equal.
  apply (bmap_ext key_cmp); [by unfold bmap_sorted; rewrite Hkeys..|]. intros k.
  apply option_eq. intros a. rewrite !Hget by done. by rewrite Hk.
Qed.

Lemma wf_report_ext r1 r2 : wf_report r1 → wf_report r2 →
  source r1 = source r2 → triggered_by r1 = triggered_by r2 →
  observed_at r1 = observed_at r2 →
  (∀ k, k ∈ success_keys r1 ↔ k ∈ success_keys r2) →
  (∀ k, alert_for k r1 = alert_for k r2) → r1 = r2.
Proof.
  intros (A1 & S1 & _) (A2 & S2 & _) Hs Ht Ho Hsucc Hal.
  assert (successes r1 = successes r2) as E1.
  { apply (inj (fmap success_key)). by apply (bset_ext key_cmp). }
  assert (alerts r1 = alerts r2) as E2 by by apply alerts_ext.
  destruct r1, r2. simpl in *. congruence.
Qed.

(** ** Merging two alerts *)

Lemma merge_classifications_elem c c1 c2 :
  c ∈ merge_classifications c1 c2 ↔ c ∈ c1 ∨ c ∈ c2.
Proof.
  unfold merge_classifications.
  rewrite !(foldl_bset_insert_elem string_cmp (λ x, x)), !list_fmap_id. set_solver.
Qed.

Lemma merge_classifications_sorted c1 c2 :
  bset_sorted string_cmp (merge_classifications c1 c2).
Proof.
  do 2 apply (foldl_bset_insert_sorted string_cmp (λ x, x)). constructor.
Qed.

Lemma merge_classifications_assoc a b c :
  merge_classifications (merge_classifications a b) c =
  merge_classifications a (merge_classifications b c).
Proof.
  apply (bset_ext string_cmp); try apply merge_classifications_sorted.
  intros x. rewrite !merge_classifications_elem. tauto.
Qed.

Lemma oldest_assoc a b c : oldest (oldest a b) c = oldest a (oldest b c).
Proof. destruct a, b, c; simpl; f_equal; lia. Qed.

Lemma oldest_comm a b : oldest a b = oldest b a.
Proof. destruct a, b; simpl; f_equal; lia. Qed.

Lemma string_app_nonempty a c b : a +:+ String c b ≠ EmptyString.
Proof. by destruct a. Qed.

(** Messages form a monoid under concatenation by lines. *)
Definition join_lines (a b : string) : string :=
  if bool_decide (a = EmptyString) then b
  else if bool_decide (b = EmptyString) then a
  else a +:+ newline +:+ b.

Lemma join_lines_r a : join_lines a EmptyString = a.
Proof. unfold join_lines. repeat case_bool_decide; congruence. Qed.

Lemma join_lines_ne a b :
  a ≠ EmptyString → b ≠ EmptyString → join_lines a b = a +:+ newline +:+ b.
Proof. intros. unfold join_lines. by rewrite !bool_decide_eq_false_2. Qed.

Lemma join_lines_assoc a b c :
  join_lines (join_lines a b) c = join_lines a (join_lines b c).
Proof.
  destruct (decide (a = EmptyString)) as [->|Ha]; [done|].
  destruct (decide (b = EmptyString)) as [->|Hb]; [by rewrite join_lines_r|].
  destruct (decide (c = EmptyString)) as [->|Hc]; [by rewrite !join_lines_r|].
  rewrite (join_lines_ne a b), (join_lines_ne b c) by done.
  rewrite !join_lines_ne by (done || apply string_app_nonempty).
  by rewrite <- !string_app_assoc.
Qed.

Lemma alert_merge_assoc a b c :
  alert_merge (alert_merge a b) c = alert_merge a (alert_merge b c).
Proof.
  unfold alert_merge. simpl. f_equal.
  - by rewrite oldest_assoc.
  - apply join_lines_assoc.
  - destruct (tenant_message a), (tenant_message b), (tenant_message c); try done.
    by rewrite <- !string_app_assoc.
  - apply merge_classifications_assoc.
Qed.

Lemma alert_merge_key a b : alert_key (alert_merge a b) = alert_key a.
Proof. done. Qed.

(** ** Merging two reports *)

(** The alerts of [other] for one probe, merged into what there is already. *)
Definition merged_alert (o : option HealthProbeAlert) (l : list HealthProbeAlert)
    : option HealthProbeAlert :=
  foldl (λ o a, Some (merge_entry a o)) o l.

Definition merge_map (self other : HealthReport) : list (probe_key * HealthProbeAlert) :=
  foldl (λ m a, bmap_upsert key_cmp (alert_key a) (merge_entry a) m)
    (foldl (λ m a, bmap_upsert key_cmp (alert_key a) (λ _, a) m) [] (alerts self))
    (alerts other).

Definition merge_set (self other : HealthReport) : list probe_key :=
  foldl (λ s a, bset_remove key_cmp (alert_key a) s)
    (foldl (λ s a, bset_remove key_cmp (alert_key a) s)
      (foldl (λ s x, bset_insert key_cmp (success_key x) s)
        (foldl (λ s x, bset_insert key_cmp (success_key x) s) [] (successes self))
        (successes other)) (alerts self)) (alerts other).

Lemma merge_eq self other :
  merge self other =
  mk_report (source self) (triggered_by self)
    (oldest (observed_at self) (observed_at other))
    ((λ '(id, target), mk_success id target) <$> merge_set self other)
    (merge_map self other).*2.
Proof.
  unfold merge, merge_map, merge_set, bmap_insert. cbv zeta.
  by rewrite foldl_pair, foldl_pair.
Qed.

Lemma merge_map_sorted self other : bmap_sorted key_cmp (merge_map self other).
Proof. unfold merge_map. auto using key_cmp_total with nico. Qed.

Lemma merge_set_sorted self other : bset_sorted key_cmp (merge_set self other).
Proof. unfold merge_set. auto 10 using key_cmp_total with nico. Qed.

Lemma merge_set_elem self other k :
  k ∈ merge_set self other ↔
  (k ∈ success_keys self ∨ k ∈ success_keys other) ∧
  k ∉ alert_keys self ∧ k ∉ alert_keys other.
Proof.
  unfold merge_set.
  rewrite (foldl_bset_remove_elem key_cmp), (foldl_bset_remove_elem key_cmp)
    by (auto 10 using key_cmp_total with nico).
  rewrite !(foldl_bset_insert_elem key_cmp). unfold alert_keys, success_keys. set_solver.
Qed.

Lemma merge_map_get self other k :
  bmap_get key_cmp k (merge_map self other) =
  merged_alert (alert_for k self) (alerts_of k (alerts other)).
Proof.
  unfold merge_map.
  rewrite (foldl_bmap_upsert_get key_cmp) by auto using key_cmp_total with nico.
  rewrite (foldl_bmap_upsert_get key_cmp) by auto using key_cmp_total with nico.
  simpl. rewrite foldl_last. unfold alert_for, merged_alert, alerts_of.
  by destruct (last _).
Qed.

Lemma merge_map_entries self other k a :
  bmap_get key_cmp k (merge_map self other) = Some a → alert_key a = k.
Proof.
  unfold merge_map. apply (foldl_bmap_upsert_entries key_cmp); try done.
  - auto using key_cmp_total with nico.
  - apply (foldl_bmap_upsert_entries key_cmp); done || apply bmap_nil_sorted.
Qed.

Lemma merge_alert_keys self other : alert_keys (merge self other) = (merge_map self other).*1.
Proof.
  unfold alert_keys. rewrite merge_eq. simpl.
  apply (bmap_values_keys key_cmp); eauto using merge_map_sorted, merge_map_entries.
Qed.

Lemma merge_success_keys self other : success_keys (merge self other) = merge_set self other.
Proof.
  unfold success_keys. rewrite merge_eq. simpl. rewrite <- list_fmap_compose.
  rewrite <- (list_fmap_id (merge_set self other)) at 2. apply list_fmap_ext.
  intros i [id t] _. done.
Qed.

Lemma merge_alert_keys_elem self other k :
  k ∈ alert_keys (merge self other) ↔ k ∈ alert_keys self ∨ k ∈ alert_keys other.
Proof.
  rewrite merge_alert_keys. unfold merge_map.
  assert (∀ (g : HealthProbeAlert → option HealthProbeAlert → HealthProbeAlert) l m,
    (foldl (λ m a, bmap_upsert key_cmp (alert_key a) (g a) m) m l).*1 =
    foldl (λ s a, bset_insert key_cmp (alert_key a) s) m.*1 l) as Hkeys.
  { intros g l. induction l as [|a l IH]; intros m; simpl; [done|].
    by rewrite IH, bmap_upsert_keys. }
  rewrite !Hkeys, !(foldl_bset_insert_elem key_cmp). unfold alert_keys. set_solver.
Qed.

Lemma merge_wf self other : wf_report (merge self other).
Proof.
  split_and!.
  - rewrite merge_alert_keys. apply merge_map_sorted.
  - rewrite merge_success_keys. apply merge_set_sorted.
  - intros k. rewrite merge_success_keys, merge_set_elem, merge_alert_keys_elem. tauto.
Qed.
#[export] Hint Resolve merge_wf : nico.

Lemma merge_alert_for self other k :
  alert_for k (merge self other) =
  merged_alert (alert_for k self) (alerts_of k (alerts other)).
Proof.
  rewrite <- merge_map_get. apply option_eq. intros a.
  rewrite (bmap_get_Some key_cmp) by apply merge_map_sorted.
  pose proof (merge_wf self other) as Hwf. split.
  - intros [Ha <-]%alert_for_Some_elem. rewrite merge_eq in Ha. simpl in Ha.
    apply list_elem_of_fmap in Ha as ([k a'] & -> & Ha). simpl.
    pose proof Ha as Hk. apply (bmap_get_Some key_cmp) in Hk; [|apply merge_map_sorted].
    by rewrite (merge_map_entries _ _ _ _ Hk).
  - intros Ha. pose proof Ha as Hk.
    apply (bmap_get_Some key_cmp) in Hk; [|apply merge_map_sorted].
    rewrite <- (merge_map_entries _ _ _ _ Hk).
    apply alert_for_elem; [by apply wf_report_NoDup|].
    rewrite merge_eq. simpl. apply list_elem_of_fmap. by exists (k, a).
Qed.

(** Merging a list of alerts into one is merging its own merge. *)
Lemma merged_alert_some e l :
  merged_alert (Some e) l =
  Some (match merged_alert None l with None => e | Some a => alert_merge e a end).
Proof.
  assert (∀ a l e, merged_alert (Some (alert_merge e a)) l =
    match merged_alert (Some a) l with Some b => Some (alert_merge e b) | None => None end)
    as Hassoc.
  { clear. intros a l. revert a. induction l as [|b l IH]; intros a e; [done|].
    unfold merged_alert in *. simpl. by rewrite alert_merge_assoc, IH. }
  destruct l as [|a l]; [done|]. unfold merged_alert in *. simpl. rewrite Hassoc.
  destruct (foldl _ (Some a) l) eqn:E; [done|].
  exfalso. clear Hassoc. revert a E. induction l as [|b l IH]; intros a E; [done|].
  by apply IH in E.
Qed.

Lemma alerts_of_NoDup k r :
  NoDup (alert_keys r) → alerts_of k (alerts r) = option_list (alert_for k r).
Proof.
  intros Hr. destruct (alert_for k r) as [a|] eqn:E.
  - apply alert_for_Some_elem in E as [Ha Hk]. by apply alerts_of_unique.
  - by apply last_None.
Qed.

Lemma merged_alert_option o1 o2 l :
  merged_alert (merged_alert o1 (option_list o2)) l =
  merged_alert o1 (option_list (merged_alert o2 l)).
Proof.
  destruct o1 as [e1|], o2 as [e2|]; simpl.
  - rewrite (merged_alert_some e2). simpl. rewrite (merged_alert_some (alert_merge e1 e2)).
    destruct (merged_alert None l); [by rewrite alert_merge_assoc|done].
  - rewrite merged_alert_some. by destruct (merged_alert None l).
  - by rewrite merged_alert_some.
  - by destruct (merged_alert None l).
Qed.

(** C30: Merging is a function of the probes.  The result is sorted by probe and lists no
    probe twice, neither as an alert nor as an alert and a success; the alert of a probe
    is the one of the report with all alerts of the other report for the same probe
    merged into it; a probe is a success if one of the reports lists it as such and
    neither has an alert for it; and the older timestamp is kept. *)
Theorem merge_spec self other :
  let m := merge self other in
  wf_report m ∧
  source m = source self ∧ triggered_by m = triggered_by self ∧
  observed_at m = oldest (observed_at self) (observed_at other) ∧
  (∀ k, alert_for k m = merged_alert (alert_for k self) (alerts_of k (alerts other))) ∧
  (∀ k, k ∈ success_keys m ↔
     (k ∈ success_keys self ∨ k ∈ success_keys other) ∧
     k ∉ alert_keys self ∧ k ∉ alert_keys other).
Proof.
  cbv zeta. split_and!; [apply merge_wf|by rewrite merge_eq..| |].
  - intros k. apply merge_alert_for.
  - intros k. by rewrite merge_success_keys, merge_set_elem.
Qed.

(** Merging is associative: an aggregate may be computed from partial aggregates.  The
    report in the middle must list every alert once, which every merged report does. *)
Theorem merge_assoc a b c :
  NoDup (alert_keys b) → merge (merge a b) c = merge a (merge b c).
Proof.
  intros Hb. apply wf_report_ext; try apply merge_wf; try by rewrite !merge_eq.
  - rewrite !merge_eq. simpl. apply oldest_assoc.
  - intros k.
    rewrite !merge_success_keys, !merge_set_elem, !merge_success_keys, !merge_set_elem,
      !merge_alert_keys_elem. tauto.
  - intros k. rewrite !merge_alert_for.
    rewrite (alerts_of_NoDup k (merge b c)) by auto with nico.
    rewrite merge_alert_for, (alerts_of_NoDup k b) by done. apply merged_alert_option.
Qed.

Lemma merge_assoc_witness :
  let r := heartbeat_timeout 5 "a" "host" "late" true false in
  NoDup (alert_keys r) ∧ merge (merge (empty_report 1 "x") r) r =
                         merge (empty_report 1 "x") (merge r r).
Proof.
  intros r. assert (NoDup (alert_keys r)) as H by apply NoDup_singleton.
  split; [exact H|]. exact (merge_assoc (empty_report 1 "x") r r H).
Defined.

(** ** Classifications *)

Lemma report_classifications_elem c r :
  c ∈ report_classifications r ↔ ∃ a, a ∈ alerts r ∧ c ∈ classifications a.
Proof. unfold report_classifications. rewrite list_elem_of_bind. naive_solver. Qed.

Lemma has_classification_spec c r :
  has_classification c r = true ↔ c ∈ report_classifications r.
Proof.
  unfold has_classification, find_alert_by_classification.
  rewrite report_classifications_elem. split.
  - destruct (List.find _ _) as [a|] eqn:E; [|done]. intros _.
    apply find_some in E as [Ha Hc]. exists a. split; [by apply list_elem_of_In|].
    by apply bool_decide_eq_true in Hc.
  - intros (a & Ha & Hc). destruct (List.find _ _) eqn:E; [done|].
    apply (find_none _ _ E a) in Ha || apply list_elem_of_In, (find_none _ _ E) in Ha.
    by rewrite bool_decide_eq_true_2 in Ha.
Qed.

Lemma classification_alert_for c r : NoDup (alert_keys r) →
  c ∈ report_classifications r ↔ ∃ k a, alert_for k r = Some a ∧ c ∈ classifications a.
Proof.
  intros Hr. rewrite report_classifications_elem. split.
  - intros (a & Ha & Hc). exists (alert_key a), a. by rewrite alert_for_elem.
  - intros (k & a & [Ha _]%alert_for_Some_elem & Hc). eauto.
Qed.

Lemma merged_alert_classification c o l :
  (∃ x, merged_alert o l = Some x ∧ c ∈ classifications x) ↔
  (∃ e, o = Some e ∧ c ∈ classifications e) ∨ (∃ a, a ∈ l ∧ c ∈ classifications a).
Proof.
  revert o. induction l as [|a l IH]; intros o; [set_solver|].
  change (merged_alert o (a :: l)) with (merged_alert (Some (merge_entry a o)) l).
  rewrite IH. destruct o as [e|]; simpl.
  - setoid_rewrite elem_of_cons. split.
    + intros [(x & [= <-] & Hx)|]; [|naive_solver].
      apply merge_classifications_elem in Hx. naive_solver.
    + intros [(x & [= <-] & Hx)|(b & [->|Hb] & Hx)]; [..|naive_solver]; left;
        eexists; (split; [done|]); apply merge_classifications_elem; auto.
  - set_solver.
Qed.

Lemma merge_classification c self other : NoDup (alert_keys self) →
  c ∈ report_classifications (merge self other) ↔
  c ∈ report_classifications self ∨ c ∈ report_classifications other.
Proof.
  intros Hs. rewrite (classification_alert_for c (merge _ _)) by auto with nico.
  rewrite (classification_alert_for c self) by done.
  setoid_rewrite merge_alert_for. setoid_rewrite merged_alert_classification.
  setoid_rewrite alerts_of_elem. rewrite report_classifications_elem. naive_solver.
Qed.

(** The loop that merges reports into an aggregate. *)
Definition merge_all (r : HealthReport) (l : list HealthReport) : HealthReport :=
  foldl merge r l.

Lemma merge_all_classification c r l : NoDup (alert_keys r) →
  c ∈ report_classifications (merge_all r l) ↔
  c ∈ report_classifications r ∨ ∃ o, o ∈ l ∧ c ∈ report_classifications o.
Proof.
  revert r. induction l as [|o l IH]; intros r Hr; [set_solver|].
  change (merge_all r (o :: l)) with (merge_all (merge r o) l).
  rewrite IH by auto with nico. rewrite merge_classification by done. set_solver.
Qed.

Lemma merge_all_NoDup r l : NoDup (alert_keys r) → NoDup (alert_keys (merge_all r l)).
Proof.
  revert r. induction l as [|o l IH]; intros r Hr; [done|]. apply IH. auto with nico.
Qed.

(** ** [update_in_alert_since] *)

(** The time of the previous report for a probe: the last one that is set. *)
Definition previous_time (k : probe_key) (previous : option HealthReport) : option Z :=
  p ← previous; last (omap in_alert_since (alerts_of k (alerts p))).

Lemma previous_in_alert_times_lookup previous k :
  previous_in_alert_times previous !! k = previous_time k previous.
Proof.
  destruct previous as [p|]; simpl; [|apply lookup_empty].
  enough (∀ l (m : gmap probe_key Z), foldl (λ m a, match in_alert_since a with
                    | Some t => <[alert_key a := t]> m
                    | None => m
                    end) m l !! k =
    match last (omap in_alert_since (alerts_of k l)) with
    | Some t => Some t | None => m !! k end) as H.
  { rewrite H, lookup_empty. by destruct (last _). }
  induction l as [|a l IH]; intros m; [done|]. simpl. rewrite IH. unfold alerts_of.
  rewrite filter_cons. case_decide as Hk.
  - subst k. csimpl. destruct (in_alert_since a) as [t|]; [|done].
    rewrite last_cons. destruct (last _); [done|]. apply lookup_insert_eq.
  - destruct (last _); [done|]. destruct (in_alert_since a); [|done].
    by apply lookup_insert_ne.
Qed.

(** Carrying over the times of alerts keeps the alerts and their order and changes
    nothing but the time: an alert that was reported before, for the same probe and
    with a time, keeps the earlier report's time, every other alert gets the current
    time. *)
Theorem update_in_alert_since_spec now previous r i :
  let r' := update_in_alert_since now previous r in
  r' = with_alerts (alerts r') r ∧
  alerts r' !! i = (λ a, set_in_alert_since
    (Some (default (now i) (previous_time (alert_key a) previous))) a) <$> alerts r !! i.
Proof.
  cbv zeta. split; [done|]. unfold update_in_alert_since. simpl.
  rewrite list_lookup_imap. destruct (alerts r !! i) as [a|]; [|done]. simpl.
  rewrite previous_in_alert_times_lookup. by destruct (previous_time _ _).
Qed.

Lemma update_alert_keys now previous r :
  alert_keys (update_in_alert_since now previous r) = alert_keys r.
Proof.
  unfold alert_keys, update_in_alert_since. simpl. rewrite fmap_imap.
  apply list_eq. intros i. rewrite list_lookup_imap, list_lookup_fmap.
  by destruct (alerts r !! i).
Qed.

Lemma update_elem now previous r a :
  a ∈ alerts (update_in_alert_since now previous r) →
  ∃ i b, b ∈ alerts r ∧ alert_key a = alert_key b ∧ classifications a = classifications b ∧
    in_alert_since a = Some (default (now i) (previous_time (alert_key a) previous)).
Proof.
  unfold update_in_alert_since. simpl. intros (i & Hi)%list_elem_of_lookup.
  rewrite list_lookup_imap in Hi. destruct (alerts r !! i) as [b|] eqn:Eb; [|done].
  injection Hi as <-. exists i, b. split_and!; [by eapply list_elem_of_lookup_2|done..|].
  simpl. rewrite previous_in_alert_times_lookup. by destruct (previous_time _ _).
Qed.

(** The reports of one source, each one stored with the times of the one before. *)
Fixpoint store_reports (stored : HealthReport) (l : list ((nat → Z) * HealthReport))
    : HealthReport :=
  match l with
  | [] => stored
  | (now, r) :: l' => store_reports (update_in_alert_since now (Some stored) r) l'
  end.

Lemma previous_time_alert_for k r a t :
  alert_for k r = Some a → in_alert_since a = Some t → previous_time k (Some r) = Some t.
Proof.
  unfold alert_for, previous_time. simpl.
  destruct (alerts_of k (alerts r)) as [|b l _] using rev_ind; [done|].
  rewrite last_snoc. intros [= ->] Ht. rewrite omap_app. simpl. rewrite Ht. apply last_snoc.
Qed.

(** As long as every report of a source has an alert of a probe, the stored alert
    shows the time at which the alert was first stored, however often it is reported. *)
Theorem in_alert_since_persistent k stored a t l :
  alert_for k stored = Some a → in_alert_since a = Some t →
  (∀ now r, (now, r) ∈ l → k ∈ alert_keys r) →
  ∃ a', alert_for k (store_reports stored l) = Some a' ∧ in_alert_since a' = Some t.
Proof.
  revert stored a. induction l as [|[now r] l IH]; intros stored a Ha Ht Hl; [by eauto|].
  simpl. set (r' := update_in_alert_since now (Some stored) r).
  destruct (alert_for k r') as [b|] eqn:Eb.
  - apply (IH r' b Eb); [|set_solver].
    apply alert_for_Some_elem in Eb as [Hb Hk].
    apply update_elem in Hb as (i & c & _ & _ & _ & ->).
    by rewrite Hk, (previous_time_alert_for k stored a t).
  - exfalso. apply alert_for_None in Eb. apply Eb. unfold r'. rewrite update_alert_keys.
    apply (Hl now r). by left.
Qed.

Lemma in_alert_since_persistent_witness :
  let r t := heartbeat_timeout t "s" "x" "late" true false in
  let k := ("HeartbeatTimeout"%string, Some "x"%string) in
  ∃ a', alert_for k (store_reports (r 5) [(λ _, 7, r 7); (λ _, 9, r 9)]) = Some a' ∧
        in_alert_since a' = Some 5.
Proof.
  intros r k.
  apply (in_alert_since_persistent k (r 5) (heartbeat_timeout_alert 5 "x" "late" true false) 5
    [(λ _, 7, r 7); (λ _, 9, r 9)]); [reflexivity|reflexivity|].
  intros now q Hq. repeat (apply elem_of_cons in Hq as [[= -> ->]|Hq]; [by left|]).
  by apply not_elem_of_nil in Hq.
Defined.

(** ** The hash of a report *)

(** What a hash may depend on: the probe and the texts of an alert, and the set of its
    classifications. *)
Definition alert_content (a : HealthProbeAlert)
    : probe_key * string * option string * list string :=
  (alert_key a, message a, tenant_message a,
   foldl (λ s c, bset_insert string_cmp c s) [] (classifications a)).

Definition success_map (r : HealthReport) : list (probe_key * HealthProbeSuccess) :=
  foldl (λ m s, bmap_upsert key_cmp (success_key s) (λ _, s) m) [] (successes r).

Definition alert_map (r : HealthReport) : list (probe_key * HealthProbeAlert) :=
  foldl (λ m a, bmap_upsert key_cmp (alert_key a) (λ _, a) m) [] (alerts r).

Lemma hash_option_prefix o1 o2 t1 t2 :
  hash_option o1 ++ t1 = hash_option o2 ++ t2 → o1 = o2 ∧ t1 = t2.
Proof. destruct o1, o2; simpl; naive_solver. Qed.

Lemma hash_strings_prefix l1 l2 t1 t2 :
  length l1 = length l2 → (WStr <$> l1) ++ t1 = (WStr <$> l2) ++ t2 → l1 = l2 ∧ t1 = t2.
Proof.
  revert l2. induction l1 as [|s l1 IH]; intros [|s' l2] Hl H; try done.
  csimpl in *. injection H as -> H. destruct (IH l2) as [-> ->]; naive_solver.
Qed.

Lemma success_hash_prefix s1 s2 t1 t2 :
  success_hash s1 ++ t1 = success_hash s2 ++ t2 → s1 = s2 ∧ t1 = t2.
Proof.
  destruct s1, s2. unfold success_hash. simpl. intros [= -> H].
  apply hash_option_prefix in H as [-> ->]. done.
Qed.

Lemma alert_hash_prefix a1 a2 t1 t2 :
  alert_hash a1 ++ t1 = alert_hash a2 ++ t2 → alert_content a1 = alert_content a2 ∧ t1 = t2.
Proof.
  destruct a1 as [id1 tg1 s1 m1 tm1 c1], a2 as [id2 tg2 s2 m2 tm2 c2].
  unfold alert_hash, alert_content, alert_key. cbv zeta. cbn [alert_id alert_target message
    tenant_message classifications]. rewrite <- !app_assoc.
  intros [= -> [-> H]%hash_option_prefix].
  injection H as -> [-> H]%hash_option_prefix.
  injection H as Hn%Nat2Z.inj H. apply hash_strings_prefix in H as [-> ->]; done.
Qed.

Lemma bind_hash_prefix {A B} (h : A → list hash_write) (content : A → B) l1 l2 t1 t2 :
  (∀ x y u v, h x ++ u = h y ++ v → content x = content y ∧ u = v) →
  length l1 = length l2 → (x ← l1; h x) ++ t1 = (x ← l2; h x) ++ t2 →
  content <$> l1 = content <$> l2 ∧ t1 = t2.
Proof.
  intros Hh. revert l2. induction l1 as [|x l1 IH]; intros [|y l2] Hl H; try done.
  csimpl in *. rewrite <- !app_assoc in H. apply Hh in H as [-> H].
  destruct (IH l2) as [-> ->]; naive_solver.
Qed.

Lemma bind_hash_content {A B} (h : A → list hash_write) (content : A → B) l1 l2 :
  (∀ x y, content x = content y → h x = h y) →
  content <$> l1 = content <$> l2 → (x ← l1; h x) = (x ← l2; h x).
Proof.
  intros Hh. revert l2. induction l1 as [|x l1 IH]; intros [|y l2] H; try done.
  csimpl in *. injection H as Hx H. by rewrite (Hh _ _ Hx), (IH l2).
Qed.

Lemma alert_content_hash a1 a2 :
  alert_content a1 = alert_content a2 → alert_hash a1 = alert_hash a2.
Proof. unfold alert_content, alert_hash, alert_key. cbv zeta. by intros [= -> -> -> -> ->]. Qed.

Lemma hash_content_iff r1 r2 :
  hash_without_timestamps r1 = hash_without_timestamps r2 ↔
  (success_map r1).*2 = (success_map r2).*2 ∧
  alert_content <$> (alert_map r1).*2 = alert_content <$> (alert_map r2).*2.
Proof.
  unfold hash_without_timestamps. cbv zeta.
  change (foldl (λ m s, bmap_insert key_cmp (success_key s) s m) [] (successes r1))
    with (success_map r1).
  change (foldl (λ m s, bmap_insert key_cmp (success_key s) s m) [] (successes r2))
    with (success_map r2).
  change (foldl (λ m a, bmap_insert key_cmp (alert_key a) a m) [] (alerts r1))
    with (alert_map r1).
  change (foldl (λ m a, bmap_insert key_cmp (alert_key a) a m) [] (alerts r2))
    with (alert_map r2).
  rewrite <- !(length_fmap snd). set (s1 := (success_map r1).*2). set (s2 := (success_map r2).*2).
  set (a1 := (alert_map r1).*2). set (a2 := (alert_map r2).*2). split.
  - intros [= Hn%Nat2Z.inj H].
    apply (bind_hash_prefix success_hash id) in H as [Hs H];
      [|apply success_hash_prefix|done].
    rewrite !list_fmap_id in Hs. split; [done|].
    injection H as Hm%Nat2Z.inj H.
    assert ((a ← a1; alert_hash a) ++ [] = (a ← a2; alert_hash a) ++ []) as H' by by rewrite H.
    apply (bind_hash_prefix alert_hash alert_content) in H' as [Ha _];
      [done|apply alert_hash_prefix|done].
  - intros [-> Ha]. f_equal. f_equal.
    assert (length a1 = length a2) as -> by by rewrite <- (length_fmap alert_content a1), Ha,
      length_fmap.
    f_equal. apply (bind_hash_content alert_hash alert_content); [exact alert_content_hash|done].
Qed.

Lemma success_map_sorted r : bmap_sorted key_cmp (success_map r).
Proof. unfold success_map. auto using key_cmp_total with nico. Qed.

Lemma alert_map_sorted r : bmap_sorted key_cmp (alert_map r).
Proof. unfold alert_map. auto using key_cmp_total with nico. Qed.

Lemma alert_map_get r k : bmap_get key_cmp k (alert_map r) = alert_for k r.
Proof.
  unfold alert_map. rewrite (foldl_bmap_upsert_get key_cmp) by auto using key_cmp_total with nico.
  simpl. rewrite foldl_last. unfold alert_for, alerts_of. by destruct (last _).
Qed.

Lemma success_map_values r : success_key <$> (success_map r).*2 = (success_map r).*1.
Proof.
  apply (bmap_values_keys key_cmp); [apply success_map_sorted|].
  unfold success_map. apply (foldl_bmap_upsert_entries key_cmp); done || apply bmap_nil_sorted.
Qed.

Lemma success_map_keys r k : k ∈ (success_map r).*1 ↔ k ∈ success_keys r.
Proof.
  unfold success_map.
  assert (∀ (l : list HealthProbeSuccess) m,
    (foldl (λ m s, bmap_upsert key_cmp (success_key s) (λ _, s) m) m l).*1 =
    foldl (λ s x, bset_insert key_cmp (success_key x) s) m.*1 l) as Hkeys.
  { intros l. induction l as [|s l IH]; intros m; simpl; [done|].
    by rewrite IH, bmap_upsert_keys. }
  rewrite Hkeys, (foldl_bset_insert_elem key_cmp). unfold success_keys. set_solver.
Qed.

(** A sorted map with another value type, entry by entry. *)
Lemma bmap_get_map {V W} (f : V → W) (m : list (probe_key * V)) k :
  bmap_get key_cmp k (prod_map id f <$> m) = f <$> bmap_get key_cmp k m.
Proof.
  induction m as [|[k' v] m IH]; [done|]. csimpl. by destruct (key_cmp k k').
Qed.

Lemma alert_map_contents r1 r2 :
  alert_content <$> (alert_map r1).*2 = alert_content <$> (alert_map r2).*2 ↔
  ∀ k, alert_content <$> alert_for k r1 = alert_content <$> alert_for k r2.
Proof.
  set (cm r := prod_map id alert_content <$> alert_map r).
  assert (∀ r, (cm r).*1 = (alert_map r).*1) as Hk1.
  { intros r. unfold cm. by rewrite <- list_fmap_compose. }
  assert (∀ r, (cm r).*2 = alert_content <$> (alert_map r).*2) as Hk2.
  { intros r. unfold cm. by rewrite <- !list_fmap_compose. }
  assert (∀ r, bmap_sorted key_cmp (cm r)) as Hs.
  { intros r. unfold bmap_sorted. rewrite Hk1. apply alert_map_sorted. }
  assert (∀ r, (λ c, c.1.1.1) <$> (cm r).*2 = (cm r).*1) as Hkv.
  { intros r. rewrite Hk1, Hk2, <- list_fmap_compose.
    apply (bmap_values_keys key_cmp alert_key); [apply alert_map_sorted|].
    intros k a Ha. rewrite alert_map_get in Ha. by apply alert_for_Some_elem in Ha as []. }
  setoid_rewrite <- alert_map_get. setoid_rewrite <- bmap_get_map. rewrite <- !Hk2.
  split; intros H.
  - assert (cm r1 = cm r2) as E; [|intros k; unfold cm in E; by rewrite E].
    rewrite <- (zip_fst_snd (cm r1)), <- (zip_fst_snd (cm r2)). by rewrite <- !Hkv, H.
  - f_equal. by apply (bmap_ext key_cmp).
Qed.

(** The hash of a report depends on exactly what it should: two reports make the
    same calls of the hasher if and only if they list the same successful probes, and for
    every probe the same message, tenant message and set of classifications.  Timestamps,
    the source and the order of the lists do not matter. *)
Lemma hash_content_same r1 r2 :
  hash_without_timestamps r1 = hash_without_timestamps r2 ↔
  (∀ k, k ∈ success_keys r1 ↔ k ∈ success_keys r2) ∧
  (∀ k, alert_content <$> alert_for k r1 = alert_content <$> alert_for k r2).
Proof.
  rewrite hash_content_iff, alert_map_contents.
  setoid_rewrite <- success_map_keys. split; intros [H1 H2]; (split; [|done]).
  - intros k. by rewrite <- !success_map_values, H1.
  - apply (inj (fmap success_key)). rewrite !success_map_values.
    apply (bset_ext key_cmp); [apply success_map_sorted..|done].
Qed.
