(* ===== verification/HealthSources.v ===== *)
(** * Health report sources and their storage

    - [api-model/src/health.rs], [machine/health_override.rs]: the reports stored for one
      object, one of them may replace the others;
    - [rpc/src/lib.rs]: the conversion of reports of the API;
    - [api-db/src/health_report.rs], [machine.rs]: the [health_reports] column;
    - [api-core/src/handlers/health.rs]: the handlers that insert and remove a report;
    - [api-db/src/health_history.rs]: the history of the aggregate health of a machine;
    - the aggregates of racks, switches and power shelves. *)

From S2P Require Import Prelude Ordered ConfigVersion StateHistory HealthReport HealthReportFacts.

(** ** [HealthReportSources] *)

Record HealthReportSources := mk_sources {
  src_replace : option HealthReport;
  src_merges : list (string * HealthReport);
}.

(** [Default] *)
Definition no_sources : HealthReportSources := mk_sources None [].

Notation merges_get := (bmap_get string_cmp).

Definition contains_key {V} (k : string) (m : list (string * V)) : bool :=
  match merges_get k m with Some _ => true | None => false end.

Definition repair_merge_active (s : HealthReportSources) : bool :=
  contains_key REPAIR_REQUEST_MERGE_SOURCE (src_merges s)
  || contains_key REQUEST_ONLINE_REPAIR_MERGE_SOURCE (src_merges s).

Definition by_source (s : HealthReportSources) (src : string) : option HealthReport :=
  match src_replace s with
  | Some r => if bool_decide (source r = src) then Some r else merges_get src (src_merges s)
  | None => merges_get src (src_merges s)
  end.

(** [iter] and [into_iter] *)
Definition sources_iter (s : HealthReportSources)
    : list (HealthReport * HealthReportApplyMode) :=
  ((λ r, (r, Merge)) <$> (src_merges s).*2)
  ++ option_list ((λ r, (r, Replace)) <$> src_replace s).

Definition maintenance_override (s : HealthReportSources) : option (string * option Z) :=
  ovr ← merges_get "maintenance" (src_merges s);
  a ← List.find (λ a, bool_decide (alert_id a = "Maintenance"%string)) (alerts ovr);
  Some (message a, in_alert_since a).

Definition HARDWARE_HEALTH_OVERRIDE_PREFIX : string := "hardware-health.".

Definition is_hardware_health_override_source (src : string) : bool :=
  starts_with src HARDWARE_HEALTH_OVERRIDE_PREFIX.

(** [derive_rack_aggregate_health], [derive_switch_aggregate_health] and
    [derive_power_shelf_aggregate_health] differ in the name of the result.  [now0] and
    [now] are the clock at [empty] and at the end. *)
Definition derive_object_aggregate_health (name : string) (now0 now : Z)
    (s : HealthReportSources) : HealthReport :=
  match src_replace s with
  | Some r => r
  | None =>
      let output := foldl merge (empty_report now0 name) (src_merges s).*2 in
      mk_report (source output) (triggered_by output) (Some now)
        (successes output) (alerts output)
  end.

Definition derive_rack_aggregate_health := derive_object_aggregate_health "rack-aggregate-health".
Definition derive_switch_aggregate_health :=
  derive_object_aggregate_health "switch-aggregate-health".
Definition derive_power_shelf_aggregate_health :=
  derive_object_aggregate_health "power-shelf-aggregate-health".

(** ** Reports of the API

    The time of the wire format and its conversion are those of [prost_types] and
    [chrono]: a type with a checked conversion. *)

Class WireTime := {
  Timestamp : Type;
  timestamp_from : Z → Timestamp;
  timestamp_try : Timestamp → option Z;
}.

Class WireTimeLaws `{!WireTime} : Prop := {
  timestamp_roundtrip t : timestamp_try (timestamp_from t) = Some t;
}.

Section rpc.
Context `{!WireTime}.

Record RpcProbeSuccess := mk_rpc_success {
  rs_id : string;
  rs_target : option string;
}.

Record RpcProbeAlert := mk_rpc_alert {
  ra_id : string;
  ra_target : option string;
  ra_in_alert_since : option Timestamp;
  ra_message : string;
  ra_tenant_message : option string;
  ra_classifications : list string;
}.

Record RpcHealthReport := mk_rpc_report {
  rr_source : string;
  rr_triggered_by : option string;
  rr_observed_at : option Timestamp;
  rr_successes : list RpcProbeSuccess;
  rr_alerts : list RpcProbeAlert;
}.

Definition success_into (s : HealthProbeSuccess) : RpcProbeSuccess :=
  mk_rpc_success (success_id s) (success_target s).

Definition success_try_from (s : RpcProbeSuccess)
    : result HealthReportConversionError HealthProbeSuccess :=
  id ← probe_id_from_str (rs_id s); Ok (mk_success id (rs_target s)).

Definition alert_into (a : HealthProbeAlert) : RpcProbeAlert :=
  mk_rpc_alert (alert_id a) (alert_target a) (timestamp_from <$> in_alert_since a)
    (message a) (tenant_message a) (classifications a).

(** [map(try_into).transpose().map_err(..)] *)
Definition time_try (t : option Timestamp) : result HealthReportConversionError (option Z) :=
  match t with
  | None => Ok None
  | Some t => match timestamp_try t with
              | Some t => Ok (Some t)
              | None => Err TimestampParseError
              end
  end.

Definition alert_try_from (a : RpcProbeAlert)
    : result HealthReportConversionError HealthProbeAlert :=
  cs ← mapM classification_from_str (ra_classifications a);
  id ← probe_id_from_str (ra_id a);
  let target := match ra_target a with
                | Some t => if bool_decide (t = EmptyString) then None else Some t
                | None => None
                end in
  since ← time_try (ra_in_alert_since a);
  Ok (mk_alert id target since (ra_message a) (ra_tenant_message a) cs).

Definition report_into (r : HealthReport) : RpcHealthReport :=
  mk_rpc_report (source r) (triggered_by r) (timestamp_from <$> observed_at r)
    (success_into <$> successes r) (alert_into <$> alerts r).

Definition report_try_from (r : RpcHealthReport)
    : result HealthReportConversionError HealthReport :=
  if bool_decide (rr_source r = EmptyString) then Err MissingSource
  else
    ss ← mapM success_try_from (rr_successes r);
    al ← mapM alert_try_from (rr_alerts r);
    t ← time_try (rr_observed_at r);
    Ok (mk_report (rr_source r) (rr_triggered_by r) t ss al).

(** ** The [health_reports] column

    A table is its rows' [health_reports] columns by id; [None] is [NULL]. *)

Notation health_table := (gmap string (option HealthReportSources)).

Inductive CarbideError :=
| MissingArgument (what : string)
| InvalidArgument (what : string)
| NotFoundError (kind id : string)
| Internal (e : HealthReportConversionError)
| DatabaseError (what : string).

(** [insert_health_report]: [jsonb_set] on the column, or on an empty one. *)
Definition insert_health_report (t : health_table) (id : string)
    (mode : HealthReportApplyMode) (r : HealthReport) : result CarbideError health_table :=
  match t !! id with
  | None => Err (DatabaseError "insert health report")
  | Some col =>
      let s := default no_sources col in
      let s := match mode with
               | Merge => mk_sources (src_replace s)
                            (bmap_insert string_cmp (source r) r (src_merges s))
               | Replace => mk_sources (Some r) (src_merges s)
               end in
      Ok (<[id := Some s]> t)
  end.

(** [remove_health_report]: [health_reports #- path], which keeps a [NULL]. *)
Definition remove_health_report (t : health_table) (id : string)
    (mode : HealthReportApplyMode) (src : string) : result CarbideError health_table :=
  match t !! id with
  | None => Err (DatabaseError "remove health report")
  | Some col =>
      let col := match col with
                 | None => None
                 | Some s => Some (match mode with
                     | Merge => mk_sources (src_replace s)
                                  (bmap_remove string_cmp src (src_merges s))
                     | Replace => mk_sources None (src_merges s)
                     end)
                 end in
      Ok (<[id := col]> t)
  end.

(** [machine::insert_health_report] with [no_overwrite]: the statement finds no row when
    there is a merge report of the source. *)
Definition insert_machine_report (t : health_table) (id : string)
    (mode : HealthReportApplyMode) (r : HealthReport) (no_overwrite : bool)
    : result CarbideError health_table :=
  if no_overwrite then
    match t !! id with
    | None => Err (DatabaseError "insert health report override")
    | Some col =>
        if contains_key (source r) (src_merges (default no_sources col))
        then Err (DatabaseError "insert health report override")
        else insert_health_report t id mode r
    end
  else insert_health_report t id mode r.

Definition with_source (src : string) (r : HealthReport) : HealthReport :=
  mk_report src (triggered_by r) (observed_at r) (successes r) (alerts r).

Definition update_dpu_agent_health_report (t : health_table) (id : string) (r : HealthReport)
    : result CarbideError health_table :=
  insert_health_report t id Merge (with_source DPU_AGENT_SOURCE r).

(** [update_machine_validation_health_report], [update_site_explorer_health_report] and
    [update_sku_validation_health_report]: a report without alerts removes the source. *)
Definition update_source_health_report (src : string) (t : health_table) (id : string)
    (r : HealthReport) : result CarbideError health_table :=
  match alerts r with
  | [] => remove_health_report t id Merge src
  | _ => insert_health_report t id Merge (with_source src r)
  end.

Definition update_machine_validation_health_report :=
  update_source_health_report MACHINE_VALIDATION_SOURCE.
Definition update_site_explorer_health_report :=
  update_source_health_report SITE_EXPLORER_SOURCE.
Definition update_sku_validation_health_report :=
  update_source_health_report SKU_VALIDATION_SOURCE.

(** ** The handlers

    A handler is a transaction of several statements, and each statement sees what
    others have committed before it: [seen1] and [seen2] are the table at the two reads and
    [t] at the writes, whose first locks the row until the commit.  [Ok] carries the
    table that is committed. *)

Definition find_one (t : health_table) (id : string) : result CarbideError HealthReportSources :=
  match t !! id with
  | None => Err (NotFoundError "machine" id)
  | Some col => Ok (default no_sources col)
  end.

Definition remove_by_source (seen t : health_table) (id src : string)
    : result CarbideError health_table :=
  s ← find_one seen id;
  if bool_decide (source <$> src_replace s = Some src)
  then remove_health_report t id Replace src
  else if contains_key src (src_merges s)
  then remove_health_report t id Merge src
  else Err (NotFoundError "machine with source" src).

Definition mode_try_from (mode : Z) : option HealthReportApplyMode :=
  if mode =? 0 then Some Merge else if mode =? 1 then Some Replace else None.

Record InsertRequest := mk_insert_request {
  ir_machine_id : option string;
  ir_entry : option (option RpcHealthReport * Z);
}.

(** The report that is stored: [now_obs] and [now] are the clock. *)
Definition prepare_report (now_obs : Z) (now : nat → Z) (user : option string)
    (s : HealthReportSources) (r : HealthReport) : HealthReport :=
  let r := mk_report (source r) user
             (Some (match observed_at r with Some t => t | None => now_obs end))
             (successes r) (alerts r) in
  update_in_alert_since now (by_source s (source r)) r.

Definition insert_machine_health_report (now_obs : Z) (now : nat → Z) (user : option string)
    (req : InsertRequest) (seen1 seen2 t : health_table) : result CarbideError health_table :=
  match ir_entry req with
  | None => Err (MissingArgument "health_report_entry")
  | Some (report, mode) =>
      id ← ok_or (ir_machine_id req) (MissingArgument "machine ID");
      report ← ok_or report (MissingArgument "report");
      mode ← ok_or (mode_try_from mode) (InvalidArgument "mode");
      s ← find_one seen1 id;
      report ← map_err Internal (report_try_from report);
      let report := prepare_report now_obs now user s report in
      t ← match remove_by_source seen2 t id (source report) with
          | Ok t => Ok t
          | Err (NotFoundError _ _) => Ok t
          | Err e => Err e
          end;
      insert_machine_report t id mode report false
  end.

Definition remove_machine_health_report (machine_id : option string) (src : string)
    (seen t : health_table) : result CarbideError health_table :=
  id ← ok_or machine_id (MissingArgument "machine ID");
  remove_by_source seen t id src.

End rpc.

(** ** The history of the health of machines *)

Section history.
(** [format!("{:#x}", hasher.finish())] of the calls made on an [FxHasher]. *)
Context (fx : list hash_write → string).

Record health_row := mk_health_row {
  hh_id : Z;
  hh_object_id : string;
  hh_health : HealthReport;
  hh_hash : string;
  hh_time : Z;
}.

(** Rows in the order of their ids, which the identity column assigns. *)
Record health_history := mk_health_history {
  hh_next_id : Z;
  hh_rows : list health_row;
}.

Definition rows_of (o : string) (rows : list health_row) : list health_row :=
  rows_for hh_object_id o rows.

(** The trigger [machine_health_history_keep_limit]. *)
Definition health_keep_limit : nat := 250.

Definition persist_health (now : Z) (object_id : string) (health : HealthReport)
    (h : health_history) : health_history :=
  let hash := fx (hash_without_timestamps health) in
  if bool_decide (hh_hash <$> last (rows_of object_id (hh_rows h)) = Some hash) then h
  else
    let row := mk_health_row (hh_next_id h) object_id health hash now in
    mk_health_history (hh_next_id h + 1) 
      (keep_newest hh_id hh_object_id health_keep_limit object_id (hh_rows h ++ [row])).

Definition in_range (start end_ : option Z) (t : Z) : bool :=
  match start with Some s => s <=? t | None => true end
  && match end_ with Some e => t <=? e | None => true end.

(** The history of one object, newest first ([ORDER BY id DESC]), as
    [find_by_object_ids] returns it.  [IN ()] is a syntax error in SQL. *)
Definition find_health (start end_ : option Z) (ids : list string) (h : health_history)
    : result string (gmap string (list (HealthReport * Z))) :=
  match ids with
  | [] => Err "find_health_history"%string
  | _ =>
      Ok (foldl (λ m r, <[hh_object_id r :=
                  default [] (m !! hh_object_id r) ++ [(hh_health r, hh_time r)]]> m) ∅
            (filter (λ r, hh_object_id r ∈ ids ∧ in_range start end_ (hh_time r) = true)
               (reverse (hh_rows h))))
  end.

(** [update_object_ids] *)
Definition rename_health (old new : string) (h : health_history) : health_history :=
  mk_health_history (hh_next_id h)
    ((λ r, if bool_decide (hh_object_id r = old)
           then mk_health_row (hh_id r) new (hh_health r) (hh_hash r) (hh_time r)
           else r) <$> hh_rows h).
End history.
