(* ===== verification/HealthSourcesFacts.v ===== *)
(** * Properties of the stored health reports

    Which reports of the API are accepted and that they survive the conversion, what the
    handlers do to the sources of an object, what an aggregate contains, and the
    history. *)

From S2P Require Import Prelude Ordered ConfigVersion StateHistory HealthReport HealthReportFacts.
From S2P Require Import HealthSources.

(** ** Aggregates *)

Lemma empty_report_NoDup now src : NoDup (alert_keys (empty_report now src)).
Proof. constructor. Qed.
#[export] Hint Resolve empty_report_NoDup : nico.

(** The aggregate health of a rack, a switch or a power shelf has a classification
    exactly if the replacing report has it or, without such a report, one of the merged
    reports has it: no classification is lost or invented by merging. *)
Theorem derive_object_aggregate_classification name now0 now s c :
  has_classification c (derive_object_aggregate_health name now0 now s) = true ↔
  match src_replace s with
  | Some r => has_classification c r = true
  | None => ∃ src r, (src, r) ∈ src_merges s ∧ has_classification c r = true
  end.
Proof.
  unfold derive_object_aggregate_health. destruct (src_replace s) as [r|]; [done|].
  setoid_rewrite has_classification_spec.
  change (report_classifications (mk_report ?a ?b ?d ?e (alerts ?r))) with
    (report_classifications r).
  change (foldl merge ?r ?l) with (merge_all r l).
  rewrite merge_all_classification by auto with nico. split.
  - intros [Hc|(r & Hr & Hc)]; [by apply not_elem_of_nil in Hc|].
    apply list_elem_of_fmap in Hr as ([src r'] & -> & Hr). eauto.
  - intros (src & r & Hr & Hc). right. exists r. split; [|done].
    apply list_elem_of_fmap. by exists (src, r).
Qed.

(** ** Reports of the API *)

(** What the conversion guarantees of a report. *)
Definition valid_alert (a : HealthProbeAlert) : Prop :=
  alert_id a ≠ EmptyString ∧ alert_target a ≠ Some EmptyString ∧
  Forall (λ c, c ≠ EmptyString) (classifications a).

Definition valid_report (r : HealthReport) : Prop :=
  source r ≠ EmptyString ∧ Forall (λ s, success_id s ≠ EmptyString) (successes r) ∧
  Forall valid_alert (alerts r).

Section conversion.
Context {WT : WireTime}.

Lemma classification_from_str_ok s c :
  classification_from_str s = Ok c ↔ c = s ∧ s ≠ EmptyString.
Proof. unfold classification_from_str. case_bool_decide; naive_solver. Qed.

Lemma probe_id_from_str_ok s c : probe_id_from_str s = Ok c ↔ c = s ∧ s ≠ EmptyString.
Proof. unfold probe_id_from_str. case_bool_decide; naive_solver. Qed.

Lemma mapM_classification_ok l l' :
  mapM classification_from_str l = Ok l' → l' = l ∧ Forall (λ c, c ≠ EmptyString) l.
Proof.
  intros H%result_mapM_ok. induction H as [|x y l l' Hxy _ [-> IH]]; [done|].
  apply classification_from_str_ok in Hxy as [-> ?]. by repeat constructor.
Qed.

Lemma mapM_classification_valid l :
  Forall (λ c, c ≠ EmptyString) l → mapM classification_from_str l = Ok l.
Proof.
  induction 1 as [|c l Hc _ IH]; [done|]. simpl.
  rewrite (proj2 (classification_from_str_ok c c)) by done. simpl. by rewrite IH.
Qed.

Lemma alert_try_from_valid a b : alert_try_from a = Ok b → valid_alert b.
Proof.
  unfold alert_try_from.
  intros (cs & Hcs & (id & Hid & (t & Ht & [= <-])%result_bind_ok)%result_bind_ok)%result_bind_ok.
  apply mapM_classification_ok in Hcs as [-> Hcs]. apply probe_id_from_str_ok in Hid as [-> Hid].
  split_and!; [done| |done]. simpl. destruct (ra_target a); [|done]. case_bool_decide; congruence.
Qed.

Lemma success_try_from_valid a b : success_try_from a = Ok b → success_id b ≠ EmptyString.
Proof.
  intros (id & [-> ?]%probe_id_from_str_ok & [= <-])%result_bind_ok. done.
Qed.

Lemma report_try_from_valid x r : report_try_from x = Ok r → valid_report r.
Proof.
  unfold report_try_from. case_bool_decide as Hs; [done|].
  intros (ss & Hss & (al & Hal & (t & Ht & [= <-])%result_bind_ok)%result_bind_ok)%result_bind_ok.
  apply result_mapM_ok in Hss, Hal. split_and!; simpl; [done|..].
  - clear -Hss. induction Hss; constructor; eauto using success_try_from_valid.
  - clear -Hal. induction Hal; constructor; eauto using alert_try_from_valid.
Qed.

Context {WTL : WireTimeLaws}.

Lemma time_try_from t : time_try (timestamp_from <$> t) = Ok t.
Proof. destruct t; simpl; [|done]. by rewrite timestamp_roundtrip. Qed.

Lemma alert_roundtrip a : valid_alert a → alert_try_from (alert_into a) = Ok a.
Proof.
  intros (Hid & Ht & Hc). unfold alert_try_from, alert_into. cbn -[mapM].
  rewrite mapM_classification_valid by done. simpl.
  rewrite (proj2 (probe_id_from_str_ok _ _) (conj eq_refl Hid)). simpl.
  rewrite time_try_from. simpl. destruct a as [id [t|] since m tm cs]; simpl in *; [|done].
  rewrite bool_decide_eq_false_2; [done|]. congruence.
Qed.

Lemma success_roundtrip s :
  success_id s ≠ EmptyString → success_try_from (success_into s) = Ok s.
Proof.
  intros Hid. unfold success_try_from, success_into. simpl.
  rewrite (proj2 (probe_id_from_str_ok _ _) (conj eq_refl Hid)). by destruct s.
Qed.

Lemma mapM_roundtrip {A B E} (f : A → B) (g : B → result E A) (P : A → Prop) l :
  (∀ x, P x → g (f x) = Ok x) → Forall P l → mapM g (f <$> l) = Ok l.
Proof using Type.
  intros Hg. induction 1 as [|x l Hx _ IH]; [done|]. rewrite fmap_cons.
  change (mapM g (f x :: (f <$> l))) with (g (f x) ≫= λ y, mapM g (f <$> l) ≫= λ k, Ok (y :: k)).
  rewrite Hg, IH by done. done.
Qed.

End conversion.

(** Seconds and nanoseconds: a wire time that satisfies the laws. *)
Module WireTimeRef.
#[local] Instance wire_time : WireTime := {
  Timestamp := Z * Z;
  timestamp_from t := (t / 1000000000, t mod 1000000000);
  timestamp_try '(s, n) := if (0 <=? n) && (n <? 1000000000) then Some (s * 1000000000 + n)
                           else None;
}.

#[local] Instance wire_time_laws : WireTimeLaws.
Proof.
  split. intros t. simpl. pose proof (Z.mod_pos_bound t 1000000000 ltac:(lia)).
  destruct (Z.leb_spec 0 (t mod 1000000000)), (Z.ltb_spec (t mod 1000000000) 1000000000);
    try lia. simpl. f_equal. pose proof (Z.div_mod t 1000000000). lia.
Qed.


(** An alert and a success of the same probe with an empty target: the alert's target is
    dropped, the success's is not, and the probe is reported as successful as well. *)
Lemma empty_target_success_survives :
  let x := mk_rpc_report "s" None None
             [mk_rpc_success "Fan" (Some EmptyString)]
             [mk_rpc_alert "Fan" (Some EmptyString) None "broken" None []] in
  match report_try_from x with
  | Ok r => let m := merge (empty_report 0 "aggregate") r in
            success_keys m = [("Fan"%string, Some EmptyString)] ∧
            alert_keys m = [("Fan"%string, None)]
  | Err _ => False
  end.
Proof. vm_compute. done. Qed.
End WireTimeRef.

(** ** The handlers *)

(** A source is stored once: as the replacing report or as a merged one. *)
Definition exclusive (s : HealthReportSources) : Prop :=
  bmap_sorted string_cmp (src_merges s) ∧
  ∀ r, src_replace s = Some r → merges_get (source r) (src_merges s) = None.

Section handlers.
Context {WT : WireTime}.

(** The sources without a source, in whichever mode it is stored. *)
Definition drop_source (src : string) (s : HealthReportSources) : HealthReportSources :=
  if bool_decide (source <$> src_replace s = Some src)
  then mk_sources None (src_merges s)
  else mk_sources (src_replace s) (bmap_remove string_cmp src (src_merges s)).

Definition add_source (m : HealthReportApplyMode) (r : HealthReport) (s : HealthReportSources)
    : HealthReportSources :=
  match m with
  | Merge => mk_sources (src_replace s) (bmap_insert string_cmp (source r) r (src_merges s))
  | Replace => mk_sources (Some r) (src_merges s)
  end.

Lemma string_cmp_neq a b : a ≠ b → match string_cmp a b with Eq => False | _ => True end.
Proof using Type.
  intros Hne. destruct (string_cmp a b) eqn:E; [|done..].
  by apply (cmp_eq_iff string_cmp) in E.
Qed.

Lemma merges_get_remove a b (m : list (string * HealthReport)) : bmap_sorted string_cmp m →
  merges_get a (bmap_remove string_cmp b m) = if decide (a = b) then None else merges_get a m.
Proof using Type.
  intros Hm. rewrite (bmap_get_remove string_cmp) by done. case_decide as Hab.
  - subst. by rewrite (cmp_refl string_cmp).
  - pose proof (string_cmp_neq a b Hab). by destruct (string_cmp a b).
Qed.

Lemma merges_get_insert a b r (m : list (string * HealthReport)) : bmap_sorted string_cmp m →
  merges_get a (bmap_insert string_cmp b r m) =
  if decide (a = b) then Some r else merges_get a m.
Proof using Type.
  intros Hm. rewrite (bmap_get_insert string_cmp) by done. case_decide as Hab.
  - subst. by rewrite (cmp_refl string_cmp).
  - pose proof (string_cmp_neq a b Hab). by destruct (string_cmp a b).
Qed.

Lemma bmap_remove_absent k (m : list (string * HealthReport)) :
  bmap_sorted string_cmp m → merges_get k m = None → bmap_remove string_cmp k m = m.
Proof using Type.
  intros Hm Hk. apply (bmap_ext string_cmp); [auto using string_cmp_total with nico|done|].
  intros k'. rewrite merges_get_remove by done. case_decide; congruence.
Qed.

Lemma drop_source_exclusive src s : exclusive s →
  exclusive (drop_source src s) ∧ by_source (drop_source src s) src = None ∧
  merges_get src (src_merges (drop_source src s)) = None ∧
  source <$> src_replace (drop_source src s) ≠ Some src.
Proof using Type.
  intros [Hs Hx]. unfold drop_source, by_source. case_bool_decide as Hr; simpl.
  - apply fmap_Some in Hr as (r & Er & ->). split_and!; auto. by split.
  - rewrite merges_get_remove by done. rewrite decide_True by done. split_and!; auto.
    + split; simpl; [auto using string_cmp_total with nico|]. intros r Er.
      rewrite merges_get_remove by done. case_decide; auto.
    + destruct (src_replace s) as [r|]; [|done]. case_bool_decide; simpl in *; congruence.
Qed.

(** Removing the source, or nothing when it is not there, then storing it. *)
Lemma insert_report_steps t id col x mode m r now_obs now user :
  t !! id = Some col → exclusive (default no_sources col) →
  mode_try_from mode = Some m → report_try_from x = Ok r →
  let s := default no_sources col in
  insert_machine_health_report now_obs now user
    (mk_insert_request (Some id) (Some (Some x, mode))) t t t =
  Ok (<[id := Some (add_source m (prepare_report now_obs now user s r)
                      (drop_source (source r) s))]> t).
Proof.
  intros Ht [Hs _] Hm Hx s. unfold insert_machine_health_report. simpl.
  rewrite Hm. simpl. unfold find_one. rewrite Ht. simpl. rewrite Hx. simpl. fold s.
  set (r' := prepare_report now_obs now user s r). change (source r') with (source r).
  unfold remove_by_source, find_one. rewrite Ht. simpl.
  unfold insert_machine_report, insert_health_report, remove_health_report.
  clearbody r'. subst s. destruct col as [s|]; simpl in *.
  - unfold drop_source, contains_key. rewrite Ht. case_bool_decide as Hr; simpl.
    { rewrite lookup_insert_eq. simpl. rewrite insert_insert_eq. by destruct m. }
    destruct (merges_get (source r) (src_merges s)) as [o|] eqn:Eo; simpl.
    + rewrite lookup_insert_eq. simpl. rewrite insert_insert_eq. by destruct m.
    + rewrite Ht. simpl. rewrite bmap_remove_absent by done. by destruct m, s.
  - rewrite Ht. by destruct m.
Qed.

(** Submitting a report through the API stores it under its source in the mode asked
    for and nowhere else: an earlier report of the source is dropped in whichever mode it
    was stored, its alert times are carried over, the other merged sources stay, and no
    source is stored twice. *)
Theorem insert_report_spec t id col x mode m r now_obs now user :
  t !! id = Some col → exclusive (default no_sources col) →
  mode_try_from mode = Some m → report_try_from x = Ok r →
  let s := default no_sources col in
  let r' := prepare_report now_obs now user s r in
  ∃ s', insert_machine_health_report now_obs now user
          (mk_insert_request (Some id) (Some (Some x, mode))) t t t = Ok (<[id := Some s']> t) ∧
    exclusive s' ∧ by_source s' (source r) = Some r' ∧
    (src_replace s' = Some r' ↔ m = Replace) ∧
    (∀ o, o ≠ source r → merges_get o (src_merges s') = merges_get o (src_merges s)) ∧
    (m = Merge → source <$> src_replace s ≠ Some (source r) → src_replace s' = src_replace s).
Proof.
  intros Ht Hx Hm Hr s r'. eexists. split; [by apply insert_report_steps|]. fold s r'.
  destruct (drop_source_exclusive (source r) s Hx) as ([Hd1 Hd2] & _ & Hd3 & Hd4).
  assert (source r' = source r) as Es by done. destruct Hx as [Hs _].
  assert (∀ o, o ≠ source r → merges_get o (src_merges (drop_source (source r) s)) =
    merges_get o (src_merges s)) as Ho.
  { intros o Ho. unfold drop_source. case_bool_decide; [done|]. simpl.
    rewrite merges_get_remove by done. by rewrite decide_False. }
  set (d := drop_source (source r) s) in *.
  destruct m; simpl; unfold exclusive, by_source; simpl; rewrite ?Es.
  - split_and!.
    + auto using string_cmp_total with nico.
    + intros q Hq. rewrite merges_get_insert by done. rewrite Hq in Hd4.
      rewrite decide_False by (simpl in Hd4; congruence). by apply Hd2.
    + destruct (src_replace d) as [q|].
      * rewrite bool_decide_eq_false_2 by (simpl in Hd4; congruence).
        rewrite merges_get_insert, decide_True; done.
      * rewrite merges_get_insert, decide_True; done.
    + split; [|done]. intros Hq. rewrite Hq in Hd4. done.
    + intros o Hne. rewrite merges_get_insert by done. rewrite decide_False by done. auto.
    + intros _ Hne. unfold d, drop_source. by rewrite bool_decide_eq_false_2.
  - rewrite bool_decide_eq_true_2 by done. split_and!; try done.
    intros q [= <-]. by rewrite Es.
Qed.
End handlers.

#[local] Existing Instance WireTimeRef.wire_time.
#[local] Existing Instance WireTimeRef.wire_time_laws.

Definition sample_request (mode : Z) : InsertRequest :=
  mk_insert_request (Some "m"%string) (Some (Some (report_into
    (heartbeat_timeout 5 "ops" "x" "late" true false)), mode)).

Lemma insert_report_spec_witness :
  let r := heartbeat_timeout 5 "ops" "x" "late" true false in
  let t := {["m"%string := None]} : gmap string (option HealthReportSources) in
  ∃ s', insert_machine_health_report 7 (λ _, 7) None (sample_request 1) t t t
          = Ok (<["m"%string := Some s']> t) ∧ exclusive s' ∧
        source <$> src_replace s' = Some "ops"%string.
Proof.
  intros r t.
  destruct (insert_report_spec t "m" None (report_into r) 1 Replace r 7 (λ _, 7) None)
    as (s' & H1 & H2 & _ & H3 & _).
  - apply lookup_singleton_eq.
  - split; [constructor|done].
  - reflexivity.
  - reflexivity.
  - exists s'. split; [exact H1|]. split; [exact H2|].
    rewrite (proj2 H3 eq_refl). reflexivity.
Defined.

(** Two submissions of one source in different modes at the same time, on a machine
    without reports: both find nothing to remove, and the source ends up stored in both
    modes.  Removing the source then leaves one of the reports in place. *)
Definition stored_modes (src : string) (t : gmap string (option HealthReportSources))
    : option (bool * bool) :=
  (λ col, let s := default no_sources col in
          (bool_decide (source <$> src_replace s = Some src), contains_key src (src_merges s)))
  <$> t !! "m"%string.

Lemma concurrent_insert_stores_twice :
  let t0 := {["m"%string := None]} : gmap string (option HealthReportSources) in
  (t1 ← insert_machine_health_report 7 (λ _, 7) None (sample_request 0) t0 t0 t0;
   t2 ← insert_machine_health_report 8 (λ _, 8) None (sample_request 1) t0 t0 t1;
   t3 ← remove_machine_health_report (Some "m"%string) "ops" t2 t2;
   Ok (stored_modes "ops" t1, stored_modes "ops" t2, stored_modes "ops" t3)) =
  Ok (Some (false, true), Some (true, true), Some (false, true)).
Proof. vm_compute. reflexivity. Qed.

(** ** The history *)

Section history.
Context (fx : list hash_write → string).

Definition health_wf (h : health_history) : Prop :=
  identity_wf hh_id (hh_next_id h) (hh_rows h) ∧
  (∀ r, r ∈ hh_rows h → hh_hash r = fx (hash_without_timestamps (hh_health r))) ∧
  ∀ o i r1 r2, rows_of o (hh_rows h) !! i = Some r1 →
    rows_of o (hh_rows h) !! S i = Some r2 → hh_hash r1 ≠ hh_hash r2.

(** What a call of [persist_health] does to the rows of the objects. *)
Lemma persist_health_rows now o health h : health_wf h →
  let hash := fx (hash_without_timestamps health) in
  let row := mk_health_row (hh_next_id h) o health hash now in
  let rows' := hh_rows (persist_health fx now o health h) in
  (rows_of o rows' =
   if bool_decide (hh_hash <$> last (rows_of o (hh_rows h)) = Some hash)
   then rows_of o (hh_rows h)
   else lastn health_keep_limit (rows_of o (hh_rows h) ++ [row])) ∧
  ∀ o', o ≠ o' → rows_of o' rows' = rows_of o' (hh_rows h).
Proof.
  intros (Hid & _ & _) hash row rows'. subst rows'. unfold persist_health. fold hash row.
  case_bool_decide as Hh; [done|]. simpl. unfold rows_of. split.
  - rewrite keep_newest_own by (apply sorted_lt_NoDup; by apply (identity_wf_snoc hh_id)).
    rewrite rows_for_snoc. by rewrite decide_True.
  - intros o' Ho. rewrite keep_newest_other, rows_for_snoc by done.
    rewrite decide_False by done. by rewrite app_nil_r.
Qed.

Lemma lastn_lookup {A} n (l : list A) i :
  lastn n l !! i = l !! (length l - n + i)%nat.
Proof. unfold lastn. apply lookup_drop. Qed.

Lemma persist_health_wf now o health h : health_wf h → health_wf (persist_health fx now o health h).
Proof.
  intros Hwf. pose proof (persist_health_rows now o health h Hwf) as [Hown Hother].
  destruct Hwf as (Hid & Hhash & Hadj). split_and!.
  - unfold persist_health. case_bool_decide; [done|]. simpl.
    by apply (keep_newest_wf hh_id hh_object_id health_keep_limit o (hh_rows h)
      (mk_health_row (hh_next_id h) o health _ now)).
  - intros r. unfold persist_health. case_bool_decide; [apply Hhash|]. simpl.
    intros [_ Hr]%list_elem_of_filter.
    apply elem_of_app in Hr as [Hr| ->%list_elem_of_singleton]; [by apply Hhash|done].
  - intros o' i r1 r2. destruct (decide (o = o')) as [<-|Hne]; [|by rewrite Hother; eauto].
    rewrite Hown. case_bool_decide as Hh; [by apply Hadj|]. rewrite !lastn_lookup.
    replace (_ + S i)%nat with (S (length (rows_of o (hh_rows h) ++ [mk_health_row
      (hh_next_id h) o health (fx (hash_without_timestamps health)) now])
      - health_keep_limit + i)) by lia.
    set (j := (_ + i)%nat). clearbody j. intros H1 H2.
    apply lookup_app_Some in H2 as [H2|[Hj H2]].
    + rewrite lookup_app_l in H1 by (apply lookup_lt_Some in H2; lia). by eapply Hadj.
    + apply list_lookup_singleton_Some in H2 as [Hj0 <-].
      assert (S j = length (rows_of o (hh_rows h))) as Hlen by lia.
      rewrite lookup_app_l in H1 by lia. rewrite last_lookup in Hh.
      rewrite <- Hlen in Hh. simpl in Hh. rewrite H1 in Hh. simpl in *. congruence.
Qed.

(** The health history of a machine records changes: after a report is stored the
    newest record has the hash of the report, other machines are not touched, at most 250
    records are kept, and two records that follow each other never have the same hash, that
    is, they differ in more than timestamps. *)
Theorem persist_health_spec now o health h : health_wf h →
  let h' := persist_health fx now o health h in
  health_wf h' ∧
  hh_hash <$> last (rows_of o (hh_rows h')) = Some (fx (hash_without_timestamps health)) ∧
  (length (rows_of o (hh_rows h)) ≤ 250 → length (rows_of o (hh_rows h')) ≤ 250)%nat ∧
  (∀ o', o ≠ o' → rows_of o' (hh_rows h') = rows_of o' (hh_rows h)) ∧
  ∀ i r1 r2, rows_of o (hh_rows h') !! i = Some r1 → rows_of o (hh_rows h') !! S i = Some r2 →
    ¬ ((∀ k, k ∈ success_keys (hh_health r1) ↔ k ∈ success_keys (hh_health r2)) ∧
       (∀ k, alert_content <$> alert_for k (hh_health r1) =
             alert_content <$> alert_for k (hh_health r2))).
Proof.
  intros Hwf h'. pose proof (persist_health_rows now o health h Hwf) as [Hown Hother].
  pose proof (persist_health_wf now o health h Hwf) as Hwf'. fold h' in Hown, Hother, Hwf'.
  split_and!; [done| | |done|].
  - rewrite Hown. case_bool_decide as Hh; [done|].
    destruct (rows_of o (hh_rows h)) as [|x l _] using rev_ind; [done|].
    unfold lastn. rewrite drop_app_le by (rewrite length_app; simpl; unfold health_keep_limit; lia). by rewrite last_snoc.
  - intros Hl. rewrite Hown. case_bool_decide; [done|]. rewrite lastn_length.
    unfold health_keep_limit. lia.
  - intros i r1 r2 H1 H2 Hsame. destruct Hwf' as (_ & Hhash & Hadj).
    apply (Hadj o i r1 r2 H1 H2).
    assert (∀ r j, rows_of o (hh_rows h') !! j = Some r → r ∈ hh_rows h') as Hin.
    { intros r j Hr. apply list_elem_of_lookup_2 in Hr.
      by apply list_elem_of_filter in Hr as []. }
    rewrite !Hhash by eauto. f_equal. by apply hash_content_same.
Qed.
End history.

Lemma persist_health_spec_witness :
  let fx l := print_u (Z.of_nat (length l)) in
  let h0 := mk_health_history 1 [] in
  health_wf fx h0 ∧
  hh_hash <$> last (rows_of "m" (hh_rows (persist_health fx 3 "m" (missing_report 1) h0)))
    = Some "7"%string.
Proof.
  intros fx h0. assert (health_wf fx h0) as H.
  { split_and!; [split; constructor| |done]. intros r Hr. by apply not_elem_of_nil in Hr. }
  split; [exact H|].
  destruct (persist_health_spec fx 3 "m" (missing_report 1) h0 H) as (_ & Hl & _).
  etransitivity; [exact Hl|]. vm_compute. reflexivity.
Defined.
