(* ===== verification/HostHealth.v ===== *)
(** * The aggregate health of a managed host ([api-model/src/machine/mod.rs], [network.rs])

    [derive_aggregate_health] merges the reports of a host, of its DPUs and of its rack,
    and [is_usable_as_instance] decides from the result whether the host may be handed to a
    tenant.  The snapshot has the fields these functions read.

    The clock is read at every report the code makes itself; all readings of one call are
    the one value [now], except that of the stored timestamp, which no decision uses. *)

From S2P Require Import Prelude Ordered ConfigVersion StateHistory HealthReport HealthReportFacts.
From S2P Require Import HealthSources HealthSourcesFacts.

(** ** Configuration *)

Inductive HardwareHealthReportsConfig := Disabled | MonitorOnly | Enabled.

#[export] Instance HardwareHealthReportsConfig_eq_dec : EqDecision HardwareHealthReportsConfig.
Proof. solve_decision. Defined.

Record HostHealthConfig := mk_host_health_config {
  hardware_health_reports : HardwareHealthReportsConfig;
  dpu_agent_version_staleness_threshold : Z;
  prevent_allocations_on_stale_dpu_agent_version : bool;
}.

(** ** The state of a managed host

    The constructors of the source; the data of a state, which the functions of this file
    do not look into, is of any type [P]. *)

Section host.
Context {P : Type}.

Inductive ManagedHostState :=
| DpuDiscoveringState (p : P)
| DPUInit (p : P)
| HostInit (p : P)
| Validation (p : P)
| HostReady
| BootConfiguring (p : P)
| Maintenance (p : P)
| Assigned (p : P)
| WaitingForCleanup (p : P)
| ForceDeletion
| Created
| Failed (p : P)
| DPUReprovision (p : P)
| HostReprovision (p : P)
| RotatingBmc (p : P)
| RotatingHostUefi (p : P)
| RotatingDpuUefi (p : P)
| Measuring (p : P)
| PostAssignedMeasuring (p : P)
| PreAssignedMeasuring (p : P)
| StartAssignmentCycle
| BomValidating (p : P).

Definition suppress_dpu_alerts (s : ManagedHostState) : bool :=
  match s with
  | DpuDiscoveringState _ | DPUInit _ | DPUReprovision _ => true
  | _ => false
  end.

(** ** What a DPU reports *)

Record NetworkStatusObservation := mk_network_status {
  ns_machine_id : string;
  agent_version : option string;
  agent_version_superseded_at : option Z;
}.

(** [expired_version_health_report]: [build_version] is the version of the server and
    [rfc3339] the printed form of a time. *)
Definition expired_version_health_report (build_version : string) (rfc3339 : Z → string)
    (now threshold : Z) (prevent : bool) (o : NetworkStatusObservation)
    : option HealthReport :=
  match agent_version o with
  | None => Some (stale_agent_version now "forge-dpu-agent" (ns_machine_id o)
                    "Agent version is not known" prevent)
  | Some v =>
      if bool_decide (v = build_version) then None
      else match agent_version_superseded_at o with
           | Some at_ =>
               if threshold <? now - at_
               then Some (stale_agent_version now "forge-dpu-agent" (ns_machine_id o)
                            ("Agent version is " +:+ v +:+ ", which is out of date since "
                             +:+ rfc3339 at_) prevent)
               else None
           | None => None
           end
  end.

(** ** Snapshots *)

Record DpuSnapshot := mk_dpu {
  dpu_health_reports : HealthReportSources;
  dpu_network_status : option NetworkStatusObservation;
}.

Record ManagedHostSnapshot := mk_snapshot {
  host_health_reports : HealthReportSources;
  dpu_snapshots : list DpuSnapshot;
  has_instance : bool;
  managed_state : ManagedHostState;
  aggregate_health : HealthReport;
  rack_health_overrides : option HealthReportSources;
  desired_boot_version : option ConfigVersion;
  verified_boot_version : option ConfigVersion;
  associated_dpu_machine_ids : list string;
}.

Definition dpu_agent_health_report (s : HealthReportSources) : option HealthReport :=
  merges_get DPU_AGENT_SOURCE (src_merges s).

(** [alert.classifications.clear()] for every alert. *)
Definition clear_classifications (r : HealthReport) : HealthReport :=
  with_alerts ((λ a, mk_alert (alert_id a) (alert_target a) (in_alert_since a) (message a)
                       (tenant_message a) []) <$> alerts r) r.

(** [merge_override_report_with_hw_health]: the new aggregate, the report, which is
    changed in place, and whether it is one of the hardware. *)
Definition merge_override_report_with_hw_health (output : HealthReport) (src : string)
    (report : HealthReport) (cfg : HardwareHealthReportsConfig)
    : HealthReport * HealthReport * bool :=
  if is_hardware_health_override_source src then
    match cfg with
    | Disabled => (output, report, true)
    | MonitorOnly => let report := clear_classifications report in
                     (merge output report, report, true)
    | Enabled => (merge output report, report, true)
    end
  else (merge output report, report, false).

(** The closure [merge_or_timeout]. *)
Definition merge_or_timeout (now : Z) (output : HealthReport) (input : option HealthReport)
    (target : string) : HealthReport :=
  match input with
  | Some r => merge output r
  | None => merge output (heartbeat_timeout now EmptyString target EmptyString true false)
  end.

(** A loop over the entries of a map of reports that merges those for which [pick]
    holds and changes them in place. *)
Fixpoint merge_overrides (cfg : HardwareHealthReportsConfig) (pick : string → bool)
    (output : HealthReport) (m : list (string * HealthReport))
    : HealthReport * list (string * HealthReport) * bool :=
  match m with
  | [] => (output, [], false)
  | (src, r) :: m' =>
      if pick src then
        let '(output, r, hw) := merge_override_report_with_hw_health output src r cfg in
        let '(output, m', hw') := merge_overrides cfg pick output m' in
        (output, (src, r) :: m', hw || hw')
      else
        let '(output, m', hw') := merge_overrides cfg pick output m' in
        (output, (src, r) :: m', hw')
  end.

(** The body of the loop over the DPUs. *)
Definition merge_dpu (build_version : string) (rfc3339 : Z → string) (now : Z)
    (cfg : HostHealthConfig) (suppress : bool) (output : HealthReport) (d : DpuSnapshot)
    : HealthReport * DpuSnapshot :=
  let s := dpu_health_reports d in
  match src_replace s with
  | Some over =>
      let '(output, over, _) := merge_override_report_with_hw_health output (source over)
                                  over (hardware_health_reports cfg) in
      (output, mk_dpu (mk_sources (Some over) (src_merges s)) (dpu_network_status d))
  | None =>
      let health_report := if suppress then clear_classifications <$> dpu_agent_health_report s
                           else dpu_agent_health_report s in
      let output :=
        match o ← dpu_network_status d;
              expired_version_health_report build_version rfc3339 now
                (dpu_agent_version_staleness_threshold cfg)
                (prevent_allocations_on_stale_dpu_agent_version cfg) o with
        | Some r => merge output r
        | None => output
        end in
      let output := merge_or_timeout now output health_report "forge-dpu-agent" in
      let '(output, merges, _) :=
        merge_overrides (hardware_health_reports cfg)
          (λ src, negb (bool_decide (src = DPU_AGENT_SOURCE))) output (src_merges s) in
      (output, mk_dpu (mk_sources None merges) (dpu_network_status d))
  end.

Fixpoint merge_dpus (build_version : string) (rfc3339 : Z → string) (now : Z)
    (cfg : HostHealthConfig) (suppress : bool) (output : HealthReport) (l : list DpuSnapshot)
    : HealthReport * list DpuSnapshot :=
  match l with
  | [] => (output, [])
  | d :: l' =>
      let '(output, d) := merge_dpu build_version rfc3339 now cfg suppress output d in
      let '(output, l') := merge_dpus build_version rfc3339 now cfg suppress output l' in
      (output, d :: l')
  end.

Definition with_source_and_time (src : string) (t : option Z) (r : HealthReport)
    : HealthReport :=
  mk_report src (triggered_by r) t (successes r) (alerts r).

Definition with_health (dpus : list DpuSnapshot) (s : HealthReportSources) (h : HealthReport)
    (snap : ManagedHostSnapshot) : ManagedHostSnapshot :=
  mk_snapshot s dpus (has_instance snap) (managed_state snap) h (rack_health_overrides snap)
    (desired_boot_version snap) (verified_boot_version snap) (associated_dpu_machine_ids snap).

(** [derive_aggregate_health] *)
Definition derive_aggregate_health (build_version : string) (rfc3339 : Z → string) (now : Z)
    (cfg : HostHealthConfig) (snap : ManagedHostSnapshot) : ManagedHostSnapshot :=
  let src := "aggregate-host-health"%string in
  let host := host_health_reports snap in
  match src_replace host with
  | Some over =>
      with_health (dpu_snapshots snap) host (with_source_and_time src (Some now) over) snap
  | None =>
      let output := empty_report now EmptyString in
      let '(output, dpus) :=
        merge_dpus build_version rfc3339 now cfg (suppress_dpu_alerts (managed_state snap))
          output (dpu_snapshots snap) in
      let '(output, merges, has_host_hardware_health) :=
        merge_overrides (hardware_health_reports cfg) (λ _, true) output (src_merges host) in
      let output :=
        if bool_decide (hardware_health_reports cfg = Enabled) && negb has_host_hardware_health
        then merge_or_timeout now output None "hardware-health"
        else output in
      let output :=
        match rack_health_overrides snap with
        | None => output
        | Some rack =>
            let output := match src_replace rack with
                          | Some r => merge output r
                          | None => output
                          end in
            foldl merge output (src_merges rack).*2
        end in
      with_health dpus (mk_sources None merges) (with_source_and_time src (Some now) output)
        snap
  end.

(** ** Allocation *)

Inductive NotAllocatableReason :=
| InvalidState (s : ManagedHostState)
| PendingInstanceCreation
| PendingBootConfiguration
| NoDpuSnapshots
| MaintenanceMode
| HealthAlert (a : HealthProbeAlert).

Definition pending_boot_interface_config_version (desired verified : option ConfigVersion)
    : option ConfigVersion :=
  d ← desired; if bool_decide (Some d = verified) then None else Some d.

Definition is_usable_as_instance (snap : ManagedHostSnapshot) (allow_unhealthy : bool)
    : result NotAllocatableReason () :=
  match managed_state snap with
  | HostReady =>
      if has_instance snap then Err PendingInstanceCreation
      else match pending_boot_interface_config_version (desired_boot_version snap)
                   (verified_boot_version snap) with
      | Some _ => Err PendingBootConfiguration
      | None =>
          match dpu_snapshots snap, associated_dpu_machine_ids snap with
          | [], _ :: _ => Err NoDpuSnapshots
          | _, _ =>
              if allow_unhealthy then Ok ()
              else match find_alert_by_classification prevent_allocations
                           (aggregate_health snap) with
                   | Some a => Err (HealthAlert a)
                   | None => Ok ()
                   end
          end
      end
  | s => Err (InvalidState s)
  end.
End host.
Arguments ManagedHostState : clear implicits.
Arguments ManagedHostSnapshot : clear implicits.
Arguments NotAllocatableReason : clear implicits.
