(* ===== verification/HostHealthFacts.v ===== *)
(** * Properties of the aggregate health of a host

    The aggregate is the merge of a list of contributing reports that can be read off
    the snapshot, and a host that passes the allocation check has no report, and no
    missing report, that speaks against it. *)

From S2P Require Import Prelude Ordered ConfigVersion StateHistory HealthReport HealthReportFacts.
From S2P Require Import HealthSources HealthSourcesFacts HostHealth.

Lemma usable_iff {P} (snap : ManagedHostSnapshot P) :
  is_usable_as_instance snap false = Ok () ↔
  managed_state snap = HostReady ∧ has_instance snap = false ∧
  pending_boot_interface_config_version (desired_boot_version snap)
    (verified_boot_version snap) = None ∧
  (dpu_snapshots snap = [] → associated_dpu_machine_ids snap = []) ∧
  prevent_allocations ∉ report_classifications (aggregate_health snap).
Proof.
  rewrite <- has_classification_spec. unfold is_usable_as_instance, has_classification.
  destruct (managed_state snap); try naive_solver.
  destruct (has_instance snap), (pending_boot_interface_config_version _ _); try naive_solver.
  destruct (dpu_snapshots snap), (associated_dpu_machine_ids snap),
    (find_alert_by_classification _ _); naive_solver.
Qed.

Lemma elem_of_optional {A} (x : A) o : x ∈ option_list o ↔ o = Some x.
Proof. destruct o; simpl; [rewrite list_elem_of_singleton; naive_solver|]. split; [by intros ?%not_elem_of_nil|done]. Qed.

Section facts.
Context {P : Type} (build_version : string) (rfc3339 : Z → string) (now : Z).
Context (cfg : HostHealthConfig).

(** ** The contributing reports *)

(** What a report counts for, given where it comes from and the configuration. *)
Definition effective_report (src : string) (r : HealthReport) : option HealthReport :=
  if is_hardware_health_override_source src then
    match hardware_health_reports cfg with
    | Disabled => None
    | MonitorOnly => Some (clear_classifications r)
    | Enabled => Some r
    end
  else Some r.

Definition effective_entries (m : list (string * HealthReport)) : list HealthReport :=
  omap (λ '(src, r), effective_report src r) m.

Definition stale_report (d : DpuSnapshot) : option HealthReport :=
  o ← dpu_network_status d;
  expired_version_health_report build_version rfc3339 now
    (dpu_agent_version_staleness_threshold cfg)
    (prevent_allocations_on_stale_dpu_agent_version cfg) o.

Definition timeout_report (target : string) : HealthReport :=
  heartbeat_timeout now EmptyString target EmptyString true false.

Definition agent_report (suppress : bool) (s : HealthReportSources) : HealthReport :=
  match dpu_agent_health_report s with
  | None => timeout_report "forge-dpu-agent"
  | Some r => if suppress then clear_classifications r else r
  end.

Definition not_agent (e : string * HealthReport) : Prop := e.1 ≠ DPU_AGENT_SOURCE.

Definition dpu_contributions (suppress : bool) (d : DpuSnapshot) : list HealthReport :=
  let s := dpu_health_reports d in
  match src_replace s with
  | Some over => option_list (effective_report (source over) over)
  | None => option_list (stale_report d) ++ [agent_report suppress s]
            ++ effective_entries (filter not_agent (src_merges s))
  end.

Definition has_hardware_source (m : list (string * HealthReport)) : bool :=
  existsb (λ '(src, _), is_hardware_health_override_source src) m.

Definition rack_contributions (rack : option HealthReportSources) : list HealthReport :=
  match rack with
  | None => []
  | Some s => option_list (src_replace s) ++ (src_merges s).*2
  end.

Definition contributions (snap : ManagedHostSnapshot P) : list HealthReport :=
  (d ← dpu_snapshots snap; dpu_contributions (suppress_dpu_alerts (managed_state snap)) d)
  ++ effective_entries (src_merges (host_health_reports snap))
  ++ (if bool_decide (hardware_health_reports cfg = Enabled)
         && negb (has_hardware_source (src_merges (host_health_reports snap)))
      then [timeout_report "hardware-health"] else [])
  ++ rack_contributions (rack_health_overrides snap).

(** ** The loops merge the contributions *)

Lemma merge_all_app r l1 l2 : merge_all r (l1 ++ l2) = merge_all (merge_all r l1) l2.
Proof using Type. apply foldl_app. Qed.

Lemma merge_override_eq out src r :
  let '(out', r', hw) :=
    merge_override_report_with_hw_health out src r (hardware_health_reports cfg) in
  out' = merge_all out (option_list (effective_report src r)) ∧
  hw = is_hardware_health_override_source src.
Proof.
  unfold merge_override_report_with_hw_health, effective_report.
  by destruct (is_hardware_health_override_source src), (hardware_health_reports cfg).
Qed.

Lemma merge_overrides_eq (pick : string → bool) out m :
  let '(out', m', hw) := merge_overrides (hardware_health_reports cfg) pick out m in
  out' = merge_all out (effective_entries (filter (λ e, pick e.1 = true) m)) ∧
  hw = has_hardware_source (filter (λ e, pick e.1 = true) m).
Proof.
  revert out. induction m as [|[src r] m IH]; intros out; [done|]. cbn [merge_overrides].
  rewrite filter_cons. cbn [fst]. destruct (pick src) eqn:Ep.
  - rewrite decide_True by done.
    pose proof (merge_override_eq out src r) as Ho.
    destruct (merge_override_report_with_hw_health _ _ _ _) as [[out1 r1] hw1].
    destruct Ho as [-> ->]. specialize (IH (merge_all out (option_list (effective_report src r)))).
    destruct (merge_overrides _ _ _ _) as [[out2 m2] hw2]. destruct IH as [-> ->].
    unfold effective_entries, has_hardware_source. csimpl. split; [|done].
    destruct (effective_report src r); done.
  - rewrite decide_False by done. specialize (IH out).
    by destruct (merge_overrides _ _ _ _) as [[out2 m2] hw2].
Qed.

Lemma merge_dpu_eq suppress out d :
  (merge_dpu build_version rfc3339 now cfg suppress out d).1 =
  merge_all out (dpu_contributions suppress d).
Proof.
  unfold merge_dpu, dpu_contributions. destruct (src_replace (dpu_health_reports d)) as [over|].
  - pose proof (merge_override_eq out (source over) over) as Ho.
    destruct (merge_override_report_with_hw_health _ _ _ _) as [[out1 r1] hw1]. naive_solver.
  - fold (stale_report d). rewrite !merge_all_app.
    set (out1 := match stale_report d with Some r => merge out r | None => out end).
    replace (merge_all out (option_list (stale_report d))) with out1
      by (unfold out1; by destruct (stale_report d)).
    set (pick := λ src : string, negb (bool_decide (src = DPU_AGENT_SOURCE))).
    set (out2 := merge_or_timeout _ _ _ _).
    replace (merge_all out1 [agent_report suppress (dpu_health_reports d)]) with out2.
    2: { unfold out2, merge_or_timeout, agent_report.
         destruct (dpu_agent_health_report _); by destruct suppress. }
    pose proof (merge_overrides_eq pick out2 (src_merges (dpu_health_reports d))) as Ho.
    destruct (merge_overrides _ _ _ _) as [[out3 m3] hw3]. destruct Ho as [-> _]. simpl.
    do 2 f_equal. apply list_filter_iff. intros [src r]. unfold pick, not_agent. simpl.
    by rewrite negb_true_iff, bool_decide_eq_false.
Qed.

Lemma merge_dpus_eq suppress out l :
  (merge_dpus build_version rfc3339 now cfg suppress out l).1 =
  merge_all out (d ← l; dpu_contributions suppress d).
Proof.
  revert out. induction l as [|d l IH]; intros out; [done|]. cbn [merge_dpus].
  pose proof (merge_dpu_eq suppress out d) as Hd.
  destruct (merge_dpu _ _ _ _ _ _ _) as [out1 d1]. simpl in Hd. subst out1.
  specialize (IH (merge_all out (dpu_contributions suppress d))).
  destruct (merge_dpus _ _ _ _ _ _ _) as [out2 l2]. simpl in *. rewrite IH.
  by rewrite <- merge_all_app.
Qed.

(** The aggregate health of a host without a replacing report is the merge, into an
    empty report, of the contributing reports: of every DPU its replacing report or else
    a stale agent version, the agent's report or a heartbeat timeout in its place, and its
    other sources; of the host its sources, with hardware sources left out, stripped of
    their classifications or taken as they are, as configured, and a heartbeat timeout
    when hardware reports are required and there is none; and of the rack all sources.
    With a replacing report the aggregate is that report. *)
Lemma aggregate_eq (snap : ManagedHostSnapshot P) :
  aggregate_health (derive_aggregate_health build_version rfc3339 now cfg snap) =
  with_source_and_time "aggregate-host-health" (Some now)
    (match src_replace (host_health_reports snap) with
     | Some over => over
     | None => merge_all (empty_report now EmptyString) (contributions snap)
     end).
Proof.
  unfold derive_aggregate_health. cbv zeta.
  destruct (src_replace (host_health_reports snap)) as [over|]; [done|].
  pose proof (merge_dpus_eq (suppress_dpu_alerts (managed_state snap))
    (empty_report now EmptyString) (dpu_snapshots snap)) as Hd.
  destruct (merge_dpus _ _ _ _ _ _ _) as [out1 dpus]. simpl in Hd. subst out1.
  set (out1 := merge_all _ _).
  pose proof (merge_overrides_eq (λ _, true) out1 (src_merges (host_health_reports snap))) as Ho.
  destruct (merge_overrides _ _ _ _) as [[out2 m2] hw2].
  rewrite filter_id in Ho by done. destruct Ho as [-> ->]. unfold with_health. simpl. f_equal.
  unfold contributions. rewrite !merge_all_app. fold out1.
  set (out2 := merge_all out1 _).
  set (hw := bool_decide _ && negb _).
  unfold rack_contributions. destruct (rack_health_overrides snap) as [rack|]; [|by destruct hw].
  rewrite merge_all_app. by destruct hw, (src_replace rack).
Qed.

Lemma merge_all_wf r l : wf_report r → wf_report (merge_all r l).
Proof using Type.
  revert r. induction l as [|x l IH]; intros r Hr; simpl; [done|]. apply IH, merge_wf.
Qed.

(** The aggregate health of a host, a rack, a switch or a power shelf is a well-formed
    report, sorted by probe, with no probe listed twice and none as a success and an alert
    at once, whatever its sources have sent; only a replacing report is passed on as it
    is. *)
Theorem aggregate_report_well_formed (snap : ManagedHostSnapshot P) name now0 (s : HealthReportSources) :
  let h := aggregate_health (derive_aggregate_health build_version rfc3339 now cfg snap) in
  match src_replace (host_health_reports snap) with
  | Some over => successes h = successes over ∧ alerts h = alerts over
  | None => wf_report h
  end ∧
  let h := derive_object_aggregate_health name now0 now s in
  match src_replace s with
  | Some over => h = over
  | None => wf_report h
  end.
Proof.
  assert (He : ∀ t n, wf_report (empty_report t n))
    by (intros; split_and!; [apply bset_nil_sorted..|by intros ? ?%elem_of_nil]).
  cbv zeta. rewrite aggregate_eq. unfold derive_object_aggregate_health. split.
  - destruct (src_replace (host_health_reports snap)); [done|].
    exact (merge_all_wf _ (contributions snap) (He now EmptyString)).
  - destruct (src_replace s); [done|]. exact (merge_all_wf _ (src_merges s).*2 (He now0 name)).
Qed.

(** ** The allocation check *)

Lemma aggregate_classification (snap : ManagedHostSnapshot P) c :
  c ∈ report_classifications
        (aggregate_health (derive_aggregate_health build_version rfc3339 now cfg snap)) ↔
  match src_replace (host_health_reports snap) with
  | Some over => c ∈ report_classifications over
  | None => ∃ r, r ∈ contributions snap ∧ c ∈ report_classifications r
  end.
Proof.
  rewrite aggregate_eq. unfold report_classifications at 1, with_source_and_time. simpl.
  fold (report_classifications (match src_replace (host_health_reports snap) with
    | Some over => over
    | None => merge_all (empty_report now EmptyString) (contributions snap) end)).
  destruct (src_replace _) as [over|]; [done|].
  rewrite merge_all_classification by auto with nico. split; [|by right].
  intros [Hc|?]; [by apply not_elem_of_nil in Hc|done].
Qed.

Lemma derive_other_fields (snap : ManagedHostSnapshot P) :
  let snap' := derive_aggregate_health build_version rfc3339 now cfg snap in
  managed_state snap' = managed_state snap ∧ has_instance snap' = has_instance snap ∧
  desired_boot_version snap' = desired_boot_version snap ∧
  verified_boot_version snap' = verified_boot_version snap ∧
  associated_dpu_machine_ids snap' = associated_dpu_machine_ids snap.
Proof.
  unfold derive_aggregate_health. cbv zeta. destruct (src_replace _); [done|].
  destruct (merge_dpus _ _ _ _ _ _ _) as [? ?].
  by destruct (merge_overrides _ _ _ _) as [[? ?] ?].
Qed.

Lemma derive_dpus (snap : ManagedHostSnapshot P) :
  (dpu_snapshots (derive_aggregate_health build_version rfc3339 now cfg snap) = [] → associated_dpu_machine_ids
     (derive_aggregate_health build_version rfc3339 now cfg snap) = []) ↔
  (dpu_snapshots snap = [] → associated_dpu_machine_ids (derive_aggregate_health build_version rfc3339 now cfg snap) = []).
Proof.
  assert (dpu_snapshots (derive_aggregate_health build_version rfc3339 now cfg snap) = [] ↔ dpu_snapshots snap = []) as ->; [|done].
  unfold derive_aggregate_health. cbv zeta. destruct (src_replace _); [done|].
  destruct (dpu_snapshots snap) as [|d l]; simpl; [by destruct (merge_overrides _ _ _ _) as [[? ?] ?]|].
  destruct (merge_dpu _ _ _ _ _ _ d) as [? ?]. destruct (merge_dpus _ _ _ _ _ _ _) as [? ?].
  by destruct (merge_overrides _ _ _ _) as [[? ?] ?].
Qed.

Lemma timeout_blocks target :
  prevent_allocations ∈ report_classifications (timeout_report target).
Proof using Type. apply report_classifications_elem. eexists. split; left. Qed.

(** A source counts, unless it is one of the hardware and hardware reports are not
    enabled. *)
Definition counts (src : string) : Prop :=
  is_hardware_health_override_source src = false ∨ hardware_health_reports cfg = Enabled.

Notation blocks r := (prevent_allocations ∈ report_classifications r).

Lemma effective_blocks src r : (∃ e, effective_report src r = Some e ∧ blocks e) ↔ counts src ∧ blocks r.
Proof using Type.
  unfold effective_report, counts. destruct (is_hardware_health_override_source src).
  2: { split; [intros (e & [= <-] & ?); auto|intros [_ ?]; eauto]. }
  destruct (hardware_health_reports cfg).
  3: { split; [intros (e & [= <-] & ?); auto|intros [_ ?]; eauto]. }
  { split; [by intros (e & ? & _)|by intros [[|] _]]. }
  split; [|by intros [[|] _]]. intros (e & [= <-] & Hb). exfalso. apply report_classifications_elem in Hb as (a & Ha & Hc).
  simpl in Ha. apply list_elem_of_fmap in Ha as (x & -> & _). by apply not_elem_of_nil in Hc.
Qed.

Lemma entries_block m : (∃ e, e ∈ effective_entries m ∧ blocks e) ↔ ∃ src r, (src, r) ∈ m ∧ counts src ∧ blocks r.
Proof using Type.
  unfold effective_entries. split.
  - intros (e & ([src r] & Hin & He)%list_elem_of_omap & Hb). exists src, r. split; [done|]. apply effective_blocks. eauto.
  - intros (src & r & Hin & (e & He & Hb)%effective_blocks). exists e. split; [|done]. apply list_elem_of_omap. by exists (src, r).
Qed.

Lemma stale_blocks d : (∃ r, stale_report d = Some r ∧ blocks r) ↔
  is_Some (stale_report d) ∧ prevent_allocations_on_stale_dpu_agent_version cfg = true.
Proof.
  unfold stale_report. destruct (dpu_network_status d) as [o|]; simpl; [|by split; [intros (? & ? & _)|intros [[? ?] _]]].
  assert (∀ id text, blocks (stale_agent_version now "forge-dpu-agent" id text (prevent_allocations_on_stale_dpu_agent_version cfg)) ↔
    prevent_allocations_on_stale_dpu_agent_version cfg = true) as Hb.
  { intros id text. rewrite report_classifications_elem. unfold stale_agent_version. simpl.
    destruct (prevent_allocations_on_stale_dpu_agent_version cfg); (split; [|intros Hp]).
    - done.
    - eexists. split; left.
    - intros (a & ->%list_elem_of_singleton & Hc). by apply not_elem_of_nil in Hc.
    - done. }
  unfold expired_version_health_report. repeat case_match; split; try (by intros (? & ? & _)); try (by intros [[? ?] _]).
  all: first [intros (? & [= <-] & ?%Hb); by split|intros [_ ?]; eexists; split; [done|by apply Hb]].
Qed.

(** What a healthy DPU looks like: its replacing report, if it has one, does not prevent
    allocations if it counts; otherwise its agent has reported, and neither that report,
    nor a stale version of the agent, where this is configured, nor another source that
    counts prevents allocations. *)
Definition dpu_healthy (d : DpuSnapshot) : Prop :=
  let s := dpu_health_reports d in
  match src_replace s with
  | Some over => counts (source over) → ¬ blocks over
  | None =>
      (∃ r, dpu_agent_health_report s = Some r ∧ ¬ blocks r) ∧
      (is_Some (stale_report d) → prevent_allocations_on_stale_dpu_agent_version cfg = false) ∧
      ∀ src r, (src, r) ∈ src_merges s → src ≠ DPU_AGENT_SOURCE → counts src → ¬ blocks r
  end.

Lemma dpu_contributions_healthy d :
  (∀ r, r ∈ dpu_contributions false d → ¬ blocks r) ↔ dpu_healthy d.
Proof.
  unfold dpu_contributions, dpu_healthy. destruct (src_replace _) as [over|].
  { pose proof (effective_blocks (source over) over) as He. destruct (effective_report (source over) over) as [e|]; simpl.
    - split.
      + intros H Hc Hb. destruct (proj2 He (conj Hc Hb)) as (e' & [= <-] & Hbe). apply (H e); [by left|done].
      + intros H r ->%list_elem_of_singleton Hb. destruct (proj1 He) as [Hc Ho]; [by exists e|]. by apply H.
    - split; [|by intros _ r ?%not_elem_of_nil]. intros _ Hc Hb. by destruct (proj2 He (conj Hc Hb)) as (e' & ? & _). }
  pose proof (stale_blocks d) as Hst. pose proof (entries_block (filter not_agent (src_merges (dpu_health_reports d)))) as Hen.
  assert (Ha : ¬ blocks (agent_report false (dpu_health_reports d)) ↔ ∃ r, dpu_agent_health_report (dpu_health_reports d) = Some r ∧ ¬ blocks r).
  { unfold agent_report. destruct (dpu_agent_health_report _) as [r|]; split; [by eauto|by intros (? & [= <-] & ?)| |].
    - intros Hn. destruct Hn. apply timeout_blocks.
    - by intros (? & ? & _). }
  rewrite <-Ha. split.
  - intros H. split_and!.
    + apply H. rewrite !elem_of_app. right. left. by left.
    + intros Hs. apply not_true_iff_false. intros Hp. destruct (proj2 Hst (conj Hs Hp)) as (r & Hr & Hb).
      apply (H r); [|done]. rewrite Hr, elem_of_app. left. by left.
    + intros src r Hin Hne Hc Hb. destruct (proj2 Hen) as (e & He & Hbe).
      { exists src, r. split; [by apply list_elem_of_filter|done]. }
      apply (H e); [|done]. rewrite !elem_of_app. by right; right.
  - intros (H1 & H2 & H3) r Hr Hb. rewrite !elem_of_app in Hr. destruct Hr as [Hr|[->%list_elem_of_singleton|Hr]]; [|done|].
    + apply elem_of_optional in Hr. destruct (proj1 Hst) as [Hs Hp]; [by exists r|]. by rewrite (H2 Hs) in Hp.
    + destruct (proj1 Hen) as (src & r' & [Hne Hin]%list_elem_of_filter & Hc & Hb'); [by exists r|]. by apply (H3 src r').
Qed.

(** What a healthy host looks like *)
Definition host_healthy (snap : ManagedHostSnapshot P) : Prop :=
  match src_replace (host_health_reports snap) with
  | Some over => ¬ blocks over
  | None =>
      Forall dpu_healthy (dpu_snapshots snap) ∧
      (∀ src r, (src, r) ∈ src_merges (host_health_reports snap) → counts src → ¬ blocks r) ∧
      (hardware_health_reports cfg = Enabled →
         ∃ src r, (src, r) ∈ src_merges (host_health_reports snap) ∧ is_hardware_health_override_source src = true) ∧
      (∀ s, rack_health_overrides snap = Some s →
         (∀ r, src_replace s = Some r → ¬ blocks r) ∧ ∀ src r, (src, r) ∈ src_merges s → ¬ blocks r)
  end.

Lemma has_hardware_source_spec m : has_hardware_source m = true ↔
  ∃ src r, (src, r) ∈ m ∧ is_hardware_health_override_source src = true.
Proof using Type.
  unfold has_hardware_source. rewrite existsb_exists. split.
  - intros ([src r] & Hin & Hh). exists src, r. by rewrite list_elem_of_In.
  - intros (src & r & Hin & Hh). exists (src, r). by rewrite <-list_elem_of_In.
Qed.

Lemma contributions_healthy (snap : ManagedHostSnapshot P) : managed_state snap = HostReady →
  src_replace (host_health_reports snap) = None →
  (∀ r, r ∈ contributions snap → ¬ blocks r) ↔ host_healthy snap.
Proof.
  intros Hst Hno. unfold host_healthy, contributions. rewrite Hst, Hno. simpl.
  setoid_rewrite elem_of_app. setoid_rewrite elem_of_app. setoid_rewrite elem_of_app.
  pose proof (entries_block (src_merges (host_health_reports snap))) as Hen.
  pose proof (has_hardware_source_spec (src_merges (host_health_reports snap))) as Hhw.
  assert (Ht : (∀ r, r ∈ (if bool_decide (hardware_health_reports cfg = Enabled) &&
      negb (has_hardware_source (src_merges (host_health_reports snap))) then [timeout_report "hardware-health"] else []) → ¬ blocks r) ↔
    (hardware_health_reports cfg = Enabled → has_hardware_source (src_merges (host_health_reports snap)) = true)).
  { pose proof (timeout_blocks "hardware-health") as Hb. case_bool_decide; [|split; [done|by intros _ r ?%not_elem_of_nil]].
    destruct (has_hardware_source _); simpl; (split; [|intros Hx]).
    - done.
    - by intros r ?%not_elem_of_nil.
    - intros Hx _. by destruct (Hx _ (list_elem_of_here _ _)).
    - by specialize (Hx H). }
  assert (Hr : (∀ r, r ∈ rack_contributions (rack_health_overrides snap) → ¬ blocks r) ↔
    ∀ s, rack_health_overrides snap = Some s → (∀ r, src_replace s = Some r → ¬ blocks r) ∧ ∀ src r, (src, r) ∈ src_merges s → ¬ blocks r).
  { destruct (rack_health_overrides snap) as [s|]; simpl; [|split; [done|by intros _ r ?%not_elem_of_nil]].
    setoid_rewrite elem_of_app.
    setoid_rewrite elem_of_optional. setoid_rewrite list_elem_of_fmap. split.
    - intros H s' [= <-]. split; [intros r Hr; apply H; by left|]. intros src r Hin. apply H. right. by exists (src, r).
    - intros H r [Hr|([src r'] & -> & Hin)]; destruct (H s eq_refl) as [H1 H2]; [by apply H1|by apply (H2 src)]. }
  assert (Hd : (∀ r, r ∈ (dpu_snapshots snap ≫= dpu_contributions false) → ¬ blocks r) ↔ Forall dpu_healthy (dpu_snapshots snap)).
  { rewrite Forall_forall. setoid_rewrite <-dpu_contributions_healthy. setoid_rewrite list_elem_of_bind. split.
    - intros H d Hd r Hin. apply H. by exists d.
    - intros H r (d & Hin & Hd). by apply (H d). }
  rewrite <-Hd, <-Hr, <-Hhw, <-Ht. clear Hd Hr Ht Hhw. split.
  - intros H. split_and!; try (intros r Hin; apply H; by auto). intros src r Hin Hc Hb.
    destruct (proj2 Hen) as (e & He & Hbe); [by exists src, r|]. apply (H e); auto.
  - intros (H1 & H2 & H3 & H4) r Hr Hb. destruct Hr as [?|[Hin|[?|?]]]; [by apply (H1 r)| |by apply (H3 r)|by apply (H4 r)].
    destruct (proj1 Hen) as (src & r' & Hin' & Hc & Hb'); [by exists r|]. by apply (H2 src r').
Qed.

(** C20: A host passes the allocation check, with its aggregate health just derived, exactly
    when it is ready, has no instance, no pending boot configuration and, if DPUs are
    associated with it, a snapshot of one, and is healthy.  It is healthy when its replacing
    report does not prevent allocations or, without one, when no DPU, no source of the host
    that counts and no source of the rack prevents them, and a hardware source of the host
    has reported where hardware reports are enabled.  A DPU prevents them by its replacing
    report, if it counts; if it has none, because its agent has not reported, by the report
    of its agent, by a stale version of the agent, if so configured, or by another source
    that counts.  Hardware sources, of the host and of DPUs, count only where hardware
    reports are enabled. *)
Theorem usable_host_healthy (snap : ManagedHostSnapshot P) :
  is_usable_as_instance (derive_aggregate_health build_version rfc3339 now cfg snap) false = Ok () ↔
  managed_state snap = HostReady ∧ has_instance snap = false ∧
  (desired_boot_version snap = None ∨ desired_boot_version snap = verified_boot_version snap) ∧
  (dpu_snapshots snap = [] → associated_dpu_machine_ids snap = []) ∧
  host_healthy snap.
Proof.
  rewrite usable_iff, aggregate_classification, derive_dpus.
  destruct (derive_other_fields snap) as (-> & -> & -> & -> & ->).
  assert (Hp : pending_boot_interface_config_version (desired_boot_version snap) (verified_boot_version snap) = None ↔
    desired_boot_version snap = None ∨ desired_boot_version snap = verified_boot_version snap).
  { unfold pending_boot_interface_config_version. destruct (desired_boot_version snap); simpl; [|by split; [left|]].
    case_bool_decide; (split; [try done|intros [|]; done || congruence]). intros _. by right. }
  rewrite Hp. clear Hp.
  enough (managed_state snap = HostReady → ((¬ match src_replace (host_health_reports snap) with
    | Some over => blocks over | None => ∃ r, r ∈ contributions snap ∧ blocks r end) ↔ host_healthy snap)) by tauto.
  intros Hst.
  pose proof (contributions_healthy snap Hst) as Hc. unfold host_healthy in *.
  destruct (src_replace (host_health_reports snap)); [done|]. rewrite <-(Hc eq_refl).
  split; [intros Hn r Hr Hb; apply Hn; eauto|]. intros H (r & Hr & Hb). by apply (H r).
Qed.
End facts.

(** A DPU whose agent has never reported blocks its host; so does one that is fenced by a
    stale version, when this is configured. *)
Lemma silent_dpu_blocks :
  let dpu obs := mk_dpu (mk_sources None []) obs in
  let stale := mk_dpu (mk_sources None [(DPU_AGENT_SOURCE, empty_report 1 DPU_AGENT_SOURCE)])
                 (Some (mk_network_status "d" (Some "v1"%string) (Some 0))) in
  let snap d := mk_snapshot (P := unit) no_sources [d] false HostReady (empty_report 1 "x")
                  None None None ["d"%string] in
  let usable cfg d :=
    is_usable_as_instance (derive_aggregate_health "v2" print_i 100 cfg (snap d)) false in
  usable (mk_host_health_config Disabled 10 true) (dpu None) ≠ Ok () ∧
  usable (mk_host_health_config Disabled 10 true) stale ≠ Ok () ∧
  usable (mk_host_health_config Disabled 10 false) stale = Ok ().
Proof. vm_compute. split_and!; done. Qed.
