(* ===== verification/StateHandler.v ===== *)
(** * State handlers: outcomes, errors, SLAs

    [crates/state-controller/src/state_handler.rs] (what a handler returns),
    [db_write_batch.rs] (the writes it defers), [crates/api-model/src/
    controller_outcome.rs] (what is stored of an outcome) and [StateSla] of
    [crates/api-model/src/lib.rs].

    A payload whose type belongs to another crate ([sqlx::Error],
    [eyre::Report], ...) is represented by the string its [Display] prints,
    which is all these files use of it.  Durations are nanoseconds. *)

From S2P Require Import Prelude.

(** ** Source locations *)

Record Location := mk_location { file : string; line : Z }.

(** [PersistentSourceReference] and its [From<&&Location>]. *)
Record PersistentSourceReference := mk_source_ref { ref_file : string; ref_line : Z }.

Definition source_reference (l : Location) : PersistentSourceReference :=
  mk_source_ref (file l) (line l).

(** ** Outcomes *)

Inductive StateHandlerOutcome (Txn S : Type) :=
| Wait (reason : string) (source_ref : Location) (txn : option Txn)
| Transition (next_state : S) (source_ref : Location) (txn : option Txn)
| DoNothing (source_ref : Location) (txn : option Txn)
| Deleted (source_ref : Location) (txn : option Txn).
Arguments Wait {Txn S} _ _ _.
Arguments Transition {Txn S} _ _ _.
Arguments DoNothing {Txn S} _ _.
Arguments Deleted {Txn S} _ _.

Section Outcome.
Context {Txn S : Type}.
Implicit Types oc : StateHandlerOutcome Txn S.

(** The constructors; the argument is [Location::caller()]. *)
Definition wait (caller : Location) (reason : string) : StateHandlerOutcome Txn S :=
  Wait reason caller None.
Definition transition (caller : Location) (next_state : S) : StateHandlerOutcome Txn S :=
  Transition next_state caller None.
Definition do_nothing (caller : Location) : StateHandlerOutcome Txn S :=
  DoNothing caller None.
Definition deleted (caller : Location) : StateHandlerOutcome Txn S :=
  Deleted caller None.

(** [take_transaction(&mut self)]: the transaction and the outcome without it. *)
Definition take_transaction oc : option Txn * StateHandlerOutcome Txn S :=
  match oc with
  | Wait r l t => (t, Wait r l None)
  | Transition n l t => (t, Transition n l None)
  | DoNothing l t => (t, DoNothing l None)
  | Deleted l t => (t, Deleted l None)
  end.

(** [with_txn_opt]: [None] is the failure of its assertion (debug assertions
    are on in every profile). *)
Definition with_txn_opt (transaction : option Txn) oc : option (StateHandlerOutcome Txn S) :=
  match take_transaction oc with
  | (Some _, _) => None
  | (None, _) =>
      Some (match oc with
            | Wait r l _ => Wait r l transaction
            | Transition n l _ => Transition n l transaction
            | DoNothing l _ => DoNothing l transaction
            | Deleted l _ => Deleted l transaction
            end)
  end.

Definition with_txn (transaction : Txn) oc : option (StateHandlerOutcome Txn S) :=
  with_txn_opt (Some transaction) oc.

(** Put a transaction in place of the one the outcome has. *)
Definition set_transaction (t : option Txn) oc : StateHandlerOutcome Txn S :=
  match oc with
  | Wait r l _ => Wait r l t
  | Transition n l _ => Transition n l t
  | DoNothing l _ => DoNothing l t
  | Deleted l _ => Deleted l t
  end.

(** [in_transaction]: [begin] is what [pool.begin()] would return; the closure
    gets the transaction of the outcome, or the one begun, and returns it
    with its writes.  When the closure fails the outcome, and the transaction
    in it, are dropped. *)
Definition in_transaction {SqlxError E} (begin : result SqlxError Txn)
    (f : Txn → result E Txn) oc
    : result SqlxError (result E (StateHandlerOutcome Txn S)) :=
  txn ← match fst (take_transaction oc) with
        | Some txn => Ok txn
        | None => begin
        end;
  Ok ((λ txn', set_transaction (Some txn') oc) <$> f txn).

(** [Display]. *)
Definition outcome_string oc : string :=
  match oc with
  | Wait reason _ _ => reason
  | Transition _ _ _ => "Transition to next state"
  | DoNothing _ _ => "Do nothing"
  | Deleted _ _ => "Deleted"
  end.
End Outcome.

(** ** Errors *)

Record ExternalServiceError := mk_external {
  service : string;
  operation : string;
  details : string;
  external_metric_label : string;
  source : option string;
}.

Definition external_new (service operation details metric_label : string) :=
  mk_external service operation details metric_label None.

Definition external_with_source (service operation details metric_label source : string) :=
  mk_external service operation details metric_label (Some source).

Definition external_string (e : ExternalServiceError) : string :=
  match operation e with
  | EmptyString => "Failed " +:+ service e +:+ " operation. Details: " +:+ details e +:+ "."
  | _ => "Failed " +:+ service e +:+ " operation: " +:+ operation e
           +:+ ". Details: " +:+ details e +:+ "."
  end.

Inductive StateHandlerError :=
| TransactionError (e : string)
| GenericError (e : string)
| MissingData (object_id missing : string)
| DBError (e : string)
| PoolReleaseError (e : string)
| InvalidHostState (dpu host_state : string)
| ExternalService (e : ExternalServiceError)
| Timeout (object_id state : string)
| FirmwareUpdateError (e : string)
| ManualInterventionRequired (e : string)
| InvalidState (e : string)
| HealthProbeAlert
| TimeInStateAboveSla (handler_outcome : string)
| ResourceCleanupError (resource error : string)
| SpdmError (e : string).

(** The [#[error(...)]] formats. *)
Definition error_string (e : StateHandlerError) : string :=
  match e with
  | TransactionError e => "unable to perform database transaction: " +:+ e
  | GenericError e => "failed to advance state: " +:+ e
  | MissingData o m =>
      "state for object " +:+ o +:+ " can not be advanced. missing data: " +:+ m
  | DBError e => e
  | PoolReleaseError e => "error releasing from resource pool: " +:+ e
  | InvalidHostState d s => "invalid host state " +:+ s +:+ " for DPU " +:+ d
  | ExternalService e => external_string e
  | Timeout o s =>
      "the state handler for object " +:+ o +:+ " in state " +:+ String "034" s
        +:+ String "034" " timed out"
  | FirmwareUpdateError e => "failed to update firmware: " +:+ e
  | ManualInterventionRequired e =>
      "manual intervention required. cannot make progress. " +:+ e
  | InvalidState e => "invalid state: " +:+ e
  | HealthProbeAlert => "state will not be advanced due to health probe alert"
  | TimeInStateAboveSla o =>
      "the object is in the state for longer than defined by the SLA. handler outcome: " +:+ o
  | ResourceCleanupError r e => "resource " +:+ r +:+ " cleanup error: " +:+ e
  | SpdmError e => "spdm error: " +:+ e
  end.

Definition metric_label (e : StateHandlerError) : string :=
  match e with
  | TransactionError _ => "transaction_error"
  | GenericError _ => "generic_error"
  | FirmwareUpdateError _ => "firware_update_error"
  | MissingData _ _ => "missing_data"
  | DBError _ => "db_error"
  | Timeout _ _ => "timeout"
  | PoolReleaseError _ => "pool_release_error"
  | InvalidHostState _ _ => "invalid_host_state"
  | InvalidState _ => "invalid_state"
  | ExternalService error => external_metric_label error
  | ManualInterventionRequired _ => "manual_intervention_required"
  | HealthProbeAlert => "health_probe_alert"
  | TimeInStateAboveSla _ => "time_in_state_above_sla"
  | ResourceCleanupError resource _ =>
      if String.eqb resource "VpcLoopbackIp" then "vpcloopback_release_failed"
      else if String.eqb resource "network_segment" then "network_segment_cleanup_failed"
      else "resource_cleanup_failed"
  | SpdmError _ => "spdm_attestation_error"
  end.

(** ** What is stored of an outcome *)

Inductive PersistentStateHandlerOutcome :=
| PWait (reason : string) (source_ref : option PersistentSourceReference)
| PError (err : string) (source_ref : option PersistentSourceReference)
| PTransition (source_ref : option PersistentSourceReference)
| PDoNothing (source_ref : option PersistentSourceReference)
| PDoNothingWithDetails.

(** [from_result]: [None] is its [unreachable!()]. *)
Definition from_result {Txn S} (r : result StateHandlerError (StateHandlerOutcome Txn S))
    : option PersistentStateHandlerOutcome :=
  match r with
  | Ok (Wait reason source_ref _) => Some (PWait reason (Some (source_reference source_ref)))
  | Ok (Transition _ source_ref _) => Some (PTransition (Some (source_reference source_ref)))
  | Ok (DoNothing source_ref _) => Some (PDoNothing (Some (source_reference source_ref)))
  | Ok (Deleted _ _) => None
  | Err err => Some (PError (error_string err) None)
  end.

(** ** Deferred writes ([DbWriteBatch])

    A write is a function on the contents of the transaction. *)

Definition WriteOp (DB : Type) : Type := DB → result StateHandlerError DB.

Definition DbWriteBatch (DB : Type) : Type := list (WriteOp DB).

Definition batch_new {DB} : DbWriteBatch DB := [].

Definition push {DB} (op : WriteOp DB) (b : DbWriteBatch DB) : DbWriteBatch DB := b ++ [op].

Fixpoint apply_all {DB} (writes : DbWriteBatch DB) (txn : DB) : result StateHandlerError DB :=
  match writes with
  | [] => Ok txn
  | w :: ws => txn' ← w txn; apply_all ws txn'
  end.

(** ** SLAs *)

Record StateSla := mk_sla { sla : option Z; time_in_state_above_sla : bool }.

Definition no_sla : StateSla := mk_sla None false.

Definition with_sla (sla time_in_state : Z) : StateSla :=
  mk_sla (Some sla) (sla <? time_in_state).

(** ** Lemmas *)

Lemma take_transaction_with_txn {Txn S} (oc oc' : StateHandlerOutcome Txn S) t :
  with_txn_opt t oc = Some oc' →
  take_transaction oc' = (t, snd (take_transaction oc)) ∧ fst (take_transaction oc) = None.
Proof. by destruct oc as [? ? []|? ? []|? []|? []]; intros [= <-]. Qed.

Lemma from_result_none {Txn S} (r : result StateHandlerError (StateHandlerOutcome Txn S)) :
  from_result r = None ↔ ∃ l t, r = Ok (Deleted l t).
Proof. destruct r as [[]|]; naive_solver. Qed.

Lemma apply_all_app {DB} (ws ws' : DbWriteBatch DB) txn :
  apply_all (ws ++ ws') txn = (txn' ← apply_all ws txn; apply_all ws' txn').
Proof.
  revert txn. induction ws as [|w ws IH]; intros txn; simpl; [done|].
  destruct (w txn); simpl; [apply IH | done].
Qed.
