(* ===== verification/ObjectQueue.v ===== *)
(** * The queue of objects to handle and the iteration table
      ([crates/state-controller/src/controller/db.rs])

    One table of queued objects: a row per object id, with the processor that
    took it, if any, and the time it was taken or, before that, inserted.
    Times are in one unit; [now] is the value of [now()] in the statement. *)

From S2P Require Import Prelude Ordered.

(** ** Chunks and sorting *)

(** [slice::chunks]; it panics on size 0, which the callers do not use. *)
Fixpoint chunks_fuel {A} (fuel n : nat) (l : list A) : list (list A) :=
  match fuel, l with
  | _, [] => []
  | O, _ => []
  | S fuel', _ => take n l :: chunks_fuel fuel' n (drop n l)
  end.

Definition chunks {A} (n : nat) (l : list A) : list (list A) := chunks_fuel (length l) n l.

Lemma concat_chunks_fuel {A} fuel n (l : list A) :
  (0 < n)%nat → (length l ≤ fuel)%nat → concat (chunks_fuel fuel n l) = l.
Proof.
  intros Hn. revert l. induction fuel as [|fuel IH]; intros [|x l] Hl; simpl in *; try done; [lia|].
  rewrite IH.
  - apply (take_drop n (x :: l)).
  - change (length (drop n (x :: l)) ≤ fuel)%nat. rewrite length_drop. simpl. lia.
Qed.

(** The chunks put together are the list. *)
Lemma concat_chunks {A} n (l : list A) : (0 < n)%nat → concat (chunks n l) = l.
Proof. intros. by apply concat_chunks_fuel. Qed.

(** [Vec<String>::sort]. *)
Definition string_le (a b : string) : Prop := string_cmp a b ≠ Gt.

#[export] Instance string_le_dec : RelDecision string_le.
Proof. intros a b. unfold string_le. destruct (string_cmp a b); [left|left|right]; naive_solver. Defined.

Definition sort (l : list string) : list string := merge_sort string_le l.

(** ** The table *)

Record queue_row := mk_queue_row {
  processed_by : option string;
  processing_started_at : Z;
}.

Notation queue := (gmap string queue_row).

Record QueuedObject := mk_queued { queued_object_id : string; queued_processed_by : option string }.

Definition BIND_LIMIT : Z := 32768.
Definition OBJECTS_PER_QUERY : nat := Z.to_nat (BIND_LIMIT / 32).

(** A fresh row: the column defaults. *)
Definition fresh_row (now : Z) : queue_row := mk_queue_row None now.

(** One [(object_id)] of [INSERT .. ON CONFLICT (object_id) DO NOTHING]. *)
Definition insert_row (now : Z) (acc : Z * queue) (o : string) : Z * queue :=
  match snd acc !! o with
  | Some _ => acc
  | None => (fst acc + 1, <[o := fresh_row now]> (snd acc))
  end.

Definition insert_chunk (now : Z) (acc : Z * queue) (ids : list string) : Z * queue :=
  let '(rows_affected, q) := foldl (insert_row now) (0, snd acc) ids in
  (fst acc + rows_affected, q).

Definition queue_objects (now : Z) (q : queue) (queued_objects : list string) : Z * queue :=
  foldl (insert_chunk now) (0, q) (chunks OBJECTS_PER_QUERY (sort queued_objects)).

(** [processed_by IS NULL OR processing_started_at + max_outdated < now()] *)
Definition acquirable (now max_outdated : Z) (r : queue_row) : bool :=
  match processed_by r with
  | None => true
  | Some _ => processing_started_at r + max_outdated <? now
  end.

(** The rows of the common table expression: [scan] is the order in which the
    database visits the rows, which decides between equal times, and [locked]
    the rows locked by other transactions ([SKIP LOCKED]). *)
Definition started_le (q : queue) (a b : string) : Prop :=
  from_option processing_started_at 0 (q !! a) ≤ from_option processing_started_at 0 (q !! b).

#[export] Instance started_le_dec q : RelDecision (started_le q).
Proof. intros a b. unfold started_le. apply _. Defined.

Definition candidates (now max_outdated : Z) (scan : list string) (locked : gset string)
    (q : queue) : list string :=
  filter (λ o, from_option (acquirable now max_outdated) false (q !! o) = true ∧ o ∉ locked) scan.

Definition dequeued_ids (now : Z) (count : nat) (max_outdated : Z) (scan : list string)
    (locked : gset string) (q : queue) : list string :=
  take count (merge_sort (started_le q) (candidates now max_outdated scan locked q)).

(** [UPDATE .. SET processed_by, processing_started_at=now() WHERE object_id IN ..] *)
Definition mark_rows (now : Z) (processor_id : string) (ids : list string) (q : queue) : queue :=
  foldr (λ o q, alter (λ _, mk_queue_row (Some processor_id) now) o q) q ids.

Definition acquire_queued_objects (now : Z) (count : nat) (processor_id : string)
    (max_outdated : Z) (scan : list string) (locked : gset string) (q : queue)
    : list QueuedObject * queue :=
  let ids := dequeued_ids now count max_outdated scan locked q in
  ((λ o, mk_queued o (Some processor_id)) <$> ids, mark_rows now processor_id ids q).

(** One [DELETE .. WHERE object_id IN (..) AND processed_by = ..]. *)
Definition owned_by (processor_id : string) (r : queue_row) : bool :=
  bool_decide (processed_by r = Some processor_id).

Definition delete_chunk (processor_id : string) (acc : Z * queue) (ids : list string)
    : Z * queue :=
  let q := snd acc in
  let hit := filter (λ '(o, r), o ∈ ids ∧ owned_by processor_id r = true) q in
  (fst acc + Z.of_nat (size hit), q ∖ hit).

Definition delete_queued_objects (processor_id : string) (q : queue) (object_ids : list string)
    : Z * queue :=
  foldl (delete_chunk processor_id) (0, q) (chunks OBJECTS_PER_QUERY object_ids).

(** ** The iteration table *)

Record iterations := mk_iterations { next_iteration_id : Z; iteration_ids : list Z }.

Definition create_iteration (t : iterations) : Z * iterations :=
  (next_iteration_id t,
   mk_iterations (next_iteration_id t + 1) (iteration_ids t ++ [next_iteration_id t])).

Definition NUM_RETAINED : Z := 10.

(** [current as u64] wraps a negative id. *)
Definition delete_old_iterations (current_iteration_id : Z) (t : iterations) : iterations :=
  let last_retained := saturating_sub (current_iteration_id mod 2 ^ 64) NUM_RETAINED + 1 in
  mk_iterations (next_iteration_id t) (filter (λ i, ¬ (i < last_retained)) (iteration_ids t)).

(** The transaction of [lock_and_start_iteration]. *)
Definition start_iteration (t : iterations) : Z * iterations :=
  let '(id, t) := create_iteration t in (id, delete_old_iterations id t).

(** [Enqueuer::enqueue_object] *)
Definition enqueue_object (now : Z) (q : queue) (o : string) : bool * queue :=
  let '(num_enqueued, q) := queue_objects now q [o] in (num_enqueued =? 1, q).

(** ** Lemmas *)

Lemma insert_row_size now acc o :
  fst (insert_row now acc o) - Z.of_nat (size (snd (insert_row now acc o))) =
  fst acc - Z.of_nat (size (snd acc)).
Proof.
  unfold insert_row. destruct (snd acc !! o) eqn:E; [done|]. cbn [fst snd].
  rewrite map_size_insert_None by done. lia.
Qed.

Lemma insert_rows_size now ids acc :
  fst (foldl (insert_row now) acc ids) - Z.of_nat (size (snd (foldl (insert_row now) acc ids))) =
  fst acc - Z.of_nat (size (snd acc)).
Proof.
  revert acc. induction ids as [|o ids IH]; intros acc; simpl; [done|].
  by rewrite IH, insert_row_size.
Qed.

Lemma insert_rows_lookup now ids acc o :
  snd (foldl (insert_row now) acc ids) !! o =
  match snd acc !! o with
  | Some r => Some r
  | None => if decide (o ∈ ids) then Some (fresh_row now) else None
  end.
Proof.
  revert acc. induction ids as [|o' ids IH]; intros acc; simpl.
  - by destruct (snd acc !! o).
  - rewrite IH. unfold insert_row. destruct (snd acc !! o') as [r'|] eqn:E'; simpl.
    + destruct (snd acc !! o) eqn:E; [done|]. assert (o ≠ o') by congruence.
      repeat case_decide; set_solver.
    + destruct (decide (o' = o)) as [->|Hne].
      * rewrite lookup_insert_eq, E'. rewrite decide_True; [done|by left].
      * rewrite lookup_insert_ne by done. destruct (snd acc !! o); [done|].
        repeat case_decide; set_solver.
Qed.

Lemma insert_chunk_row now acc ids :
  insert_chunk now acc ids = foldl (insert_row now) acc ids.
Proof.
  unfold insert_chunk. destruct acc as [n q]. simpl.
  enough (H : ∀ k, foldl (insert_row now) (n + k, q) ids =
    (n + fst (foldl (insert_row now) (k, q) ids), snd (foldl (insert_row now) (k, q) ids))).
  { specialize (H 0). rewrite Z.add_0_r in H. rewrite H. by destruct (foldl _ (0, q) ids). }
  revert q. induction ids as [|o ids IH]; intros q k; simpl; [done|].
  unfold insert_row at 2 4 6. simpl. destruct (q !! o); [apply IH|].
  rewrite <- Z.add_assoc. apply IH.
Qed.

Lemma foldl_concat {A B} (f : A → B → A) (a : A) (ll : list (list B)) :
  foldl (foldl f) a ll = foldl f a (concat ll).
Proof. revert a. induction ll as [|l ll IH]; intros a; simpl; [done|]. by rewrite IH, foldl_app. Qed.

Lemma objects_per_query_pos : (0 < OBJECTS_PER_QUERY)%nat.
Proof. apply Nat.ltb_lt. vm_compute. reflexivity. Qed.

Lemma queue_objects_rows now q ids :
  queue_objects now q ids = foldl (insert_row now) (0, q) (sort ids).
Proof.
  unfold queue_objects. rewrite <- (concat_chunks OBJECTS_PER_QUERY (sort ids)) at 2
    by apply objects_per_query_pos.
  rewrite <- foldl_concat. generalize (chunks OBJECTS_PER_QUERY (sort ids)).
  intros ll. generalize (0, q). induction ll as [|l ll IH]; intros acc; simpl; [done|].
  by rewrite insert_chunk_row, IH.
Qed.

Lemma elem_of_sort o l : o ∈ sort l ↔ o ∈ l.
Proof. unfold sort. by rewrite merge_sort_Permutation. Qed.

Lemma queue_objects_lookup now q ids o :
  snd (queue_objects now q ids) !! o =
  match q !! o with
  | Some r => Some r
  | None => if decide (o ∈ ids) then Some (fresh_row now) else None
  end.
Proof.
  rewrite queue_objects_rows, insert_rows_lookup. simpl. destruct (q !! o); [done|].
  repeat case_decide; try done; by rewrite elem_of_sort in *.
Qed.

Lemma queue_objects_count now q ids :
  fst (queue_objects now q ids) = Z.of_nat (size (snd (queue_objects now q ids))) - Z.of_nat (size q).
Proof.
  rewrite queue_objects_rows. pose proof (insert_rows_size now (sort ids) (0, q)). simpl in *. lia.
Qed.

(** *** Deleting *)

Lemma delete_chunk_lookup p acc ids o :
  snd (delete_chunk p acc ids) !! o =
  match snd acc !! o with
  | Some r => if decide (o ∈ ids ∧ owned_by p r = true) then None else Some r
  | None => None
  end.
Proof.
  unfold delete_chunk. simpl. destruct (snd acc !! o) as [r|] eqn:E.
  - case_decide as Hd.
    + apply lookup_difference_None. right. exists r. by apply map_lookup_filter_Some.
    + apply lookup_difference_Some. split; [done|]. apply map_lookup_filter_None. right.
      intros r' Hr'. naive_solver.
  - apply lookup_difference_None. by left.
Qed.

Lemma delete_chunk_size p acc ids :
  fst (delete_chunk p acc ids) + Z.of_nat (size (snd (delete_chunk p acc ids))) =
  fst acc + Z.of_nat (size (snd acc)).
Proof.
  unfold delete_chunk. cbn [fst snd]. set (hit := filter _ _).
  assert (Hsub : hit ⊆ snd acc) by apply map_filter_subseteq.
  assert (Hsize : size (snd acc) = (size hit + size (snd acc ∖ hit))%nat).
  { rewrite <- (map_difference_union hit (snd acc) Hsub) at 1.
    by apply map_size_disj_union, map_disjoint_difference_r1. }
  lia.
Qed.

Lemma delete_queued_objects_lookup p q ids o :
  snd (delete_queued_objects p q ids) !! o =
  match q !! o with
  | Some r => if decide (o ∈ ids ∧ owned_by p r = true) then None else Some r
  | None => None
  end.
Proof.
  unfold delete_queued_objects.
  enough (H : ∀ ll acc, snd (foldl (delete_chunk p) acc ll) !! o =
    match snd acc !! o with
    | Some r => if decide (o ∈ concat ll ∧ owned_by p r = true) then None else Some r
    | None => None
    end).
  { rewrite H, concat_chunks; [done|apply objects_per_query_pos]. }
  clear. induction ll as [|l ll IH]; intros acc; cbn [foldl concat].
  - destruct (snd acc !! o); [|done]. rewrite decide_False; [done|]. set_solver.
  - rewrite IH, delete_chunk_lookup. destruct (snd acc !! o) as [r|]; [|done].
    repeat case_decide; try done; set_solver.
Qed.

Lemma delete_queued_objects_count p q ids :
  fst (delete_queued_objects p q ids) =
  Z.of_nat (size q) - Z.of_nat (size (snd (delete_queued_objects p q ids))).
Proof.
  unfold delete_queued_objects. generalize (chunks OBJECTS_PER_QUERY ids). intros ll.
  enough (H : ∀ acc, fst (foldl (delete_chunk p) acc ll)
    + Z.of_nat (size (snd (foldl (delete_chunk p) acc ll))) = fst acc + Z.of_nat (size (snd acc))).
  { specialize (H (0, q)). simpl in H. lia. }
  induction ll as [|l ll IH]; intros acc; simpl; [done|]. by rewrite IH, delete_chunk_size.
Qed.

(** *** Iterations *)

Lemma list_filter_iff_elem {A} (P Q : A → Prop) `{!∀ x, Decision (P x), !∀ x, Decision (Q x)} (l : list A) :
  (∀ x, x ∈ l → P x ↔ Q x) → filter P l = filter Q l.
Proof.
  induction l as [|x l IH]; intros Hiff; [done|].
  assert (Hx : P x ↔ Q x) by (apply Hiff; by left).
  assert (Hl : filter P l = filter Q l) by (apply IH; intros; apply Hiff; by right).
  destruct (decide (P x)); [rewrite !filter_cons_True by naive_solver
                           |rewrite !filter_cons_False by naive_solver]; by rewrite Hl.
Qed.


Definition iterations_wf (t : iterations) : Prop :=
  0 < next_iteration_id t ≤ i64_max ∧ NoDup (iteration_ids t) ∧
  Forall (λ i, 0 < i < next_iteration_id t) (iteration_ids t).

Lemma NoDup_Z_interval (l : list Z) lo n :
  NoDup l → (∀ i, i ∈ l → lo < i ≤ lo + Z.of_nat n) → (length l ≤ n)%nat.
Proof.
  intros Hnd Hin. assert (Hsub : l ⊆+ seqZ (lo + 1) (Z.of_nat n)).
  { apply NoDup_submseteq; [done|]. intros i Hi. apply elem_of_seqZ. specialize (Hin i Hi). lia. }
  apply submseteq_length in Hsub. rewrite length_seqZ in Hsub. lia.
Qed.

Lemma start_iteration_ids t :
  iterations_wf t →
  start_iteration t =
  (next_iteration_id t,
   mk_iterations (next_iteration_id t + 1)
     (filter (λ i, next_iteration_id t - 10 < i) (iteration_ids t ++ [next_iteration_id t]))).
Proof.
  intros (Hn & _ & Hb). unfold start_iteration, create_iteration, delete_old_iterations. simpl.
  f_equal. f_equal. apply list_filter_iff_elem. intros i Hi.
  rewrite Z.mod_small by (unfold i64_max in Hn; lia). unfold saturating_sub, NUM_RETAINED.
  assert (0 < i); [|lia].
  apply elem_of_app in Hi as [Hi|Hi%list_elem_of_singleton]; [|lia].
  rewrite Forall_forall in Hb. apply Hb in Hi. lia.
Qed.

(** *** Acquiring *)

Lemma mark_rows_lookup now p ids (q : queue) o :
  mark_rows now p ids q !! o =
  match q !! o with
  | Some r => if decide (o ∈ ids) then Some (mk_queue_row (Some p) now) else Some r
  | None => None
  end.
Proof.
  induction ids as [|o' ids IH]; unfold mark_rows in *; cbn [foldr].
  - destruct (q !! o); [|done]. rewrite decide_False; [done|apply not_elem_of_nil].
  - destruct (decide (o' = o)) as [->|Hne].
    + rewrite lookup_alter_eq, IH. destruct (q !! o); [|done]. simpl.
      rewrite (decide_True (P := o ∈ o :: ids)) by (by left). by case_decide.
    + rewrite lookup_alter_ne, IH by done. destruct (q !! o); [|done].
      repeat case_decide; set_solver.
Qed.

#[export] Instance started_le_trans q : Transitive (started_le q).
Proof. intros a b c. unfold started_le. lia. Qed.

#[export] Instance started_le_total q : Total (started_le q).
Proof. intros a b. unfold started_le. lia. Qed.

Lemma elem_of_candidates now mo scan locked (q : queue) o :
  o ∈ candidates now mo scan locked q ↔
  o ∈ scan ∧ o ∉ locked ∧ ∃ r, q !! o = Some r ∧ acquirable now mo r = true.
Proof.
  unfold candidates. rewrite list_elem_of_filter.
  destruct (q !! o) as [r|] eqn:E; naive_solver.
Qed.

Lemma elem_of_dequeued now count mo scan locked q o :
  o ∈ dequeued_ids now count mo scan locked q →
  o ∈ scan ∧ o ∉ locked ∧ ∃ r, q !! o = Some r ∧ acquirable now mo r = true.
Proof.
  intros Hin. apply elem_of_candidates. unfold dequeued_ids in Hin.
  rewrite <- (merge_sort_Permutation (started_le q)).
  eapply elem_of_sublist; [exact Hin|]. apply sublist_take.
Qed.

Lemma dequeued_NoDup now count mo scan locked q :
  NoDup scan → NoDup (dequeued_ids now count mo scan locked q).
Proof.
  intros Hs. unfold dequeued_ids. eapply sublist_NoDup; [|apply sublist_take].
  rewrite merge_sort_Permutation. by apply NoDup_filter.
Qed.

Lemma dequeued_length now count mo scan locked q :
  (length (dequeued_ids now count mo scan locked q) ≤ count)%nat.
Proof. unfold dequeued_ids. rewrite length_take. lia. Qed.

Lemma sorted_take_drop {A} (R : A → A → Prop) (l : list A) n x y :
  StronglySorted R l → x ∈ take n l → y ∈ drop n l → R x y.
Proof.
  intros Hs. revert n. induction Hs as [|z l _ IH Hz]; intros n; [by rewrite take_nil; inversion 1|].
  destruct n as [|n]; simpl; [inversion 1|]. rewrite elem_of_cons. intros [->|Hx] Hy; [|eauto].
  rewrite Forall_forall in Hz. apply Hz. eapply elem_of_sublist; [exact Hy|apply sublist_drop].
Qed.

(** A row that could have been taken and was not is not older than a taken one,
    and the quota was used up. *)
Lemma dequeued_oldest now count mo scan locked q o :
  o ∈ candidates now mo scan locked q → o ∉ dequeued_ids now count mo scan locked q →
  length (dequeued_ids now count mo scan locked q) = count ∧
  ∀ o', o' ∈ dequeued_ids now count mo scan locked q → started_le q o' o.
Proof.
  unfold dequeued_ids. set (l := merge_sort _ _). intros Hc Hno.
  assert (Hl : o ∈ l) by (unfold l; by rewrite merge_sort_Permutation).
  rewrite <- (take_drop count l) in Hl. apply elem_of_app in Hl as [?|Hdrop]; [done|]. split.
  - rewrite length_take. apply Nat.min_l. destruct (le_lt_dec count (length l)); [done|].
    rewrite drop_ge in Hdrop by lia. by apply not_elem_of_nil in Hdrop.
  - intros o' Ho'. eapply sorted_take_drop; [|exact Ho'|exact Hdrop].
    apply Sorted_StronglySorted; [apply _|]. apply Sorted_merge_sort. apply _.
Qed.

(** ** Properties *)

(** Queueing objects keeps the row of every object that is already queued, with its
    processor and its time, inserts exactly the missing ones as unprocessed, and
    returns how many it inserted; duplicates and the order of the argument, and
    its cut into statements of at most 1024 rows, do not matter. *)
Theorem queue_objects_spec (now : Z) (q : queue) (ids : list string) :
  let '(n, q') := queue_objects now q ids in
  (∀ o, q' !! o = match q !! o with
                  | Some r => Some r
                  | None => if decide (o ∈ ids) then Some (fresh_row now) else None
                  end) ∧
  n = Z.of_nat (size q') - Z.of_nat (size q).
Proof.
  destruct (queue_objects now q ids) as [n q'] eqn:E. split.
  - intros o. by rewrite <- queue_objects_lookup, E.
  - pose proof (queue_objects_count now q ids) as H. by rewrite E in H.
Qed.

(** Acquiring takes only rows that are unprocessed or whose processor has held them
    for longer than the limit, never a row locked by another transaction, at most
    [count] of them and each once; it marks exactly those with the processor and
    the current time; a row that qualifies is passed over only when the quota is
    used up by rows that are at least as old. *)
Theorem acquire_queued_objects_spec (now : Z) (count : nat) (p : string) (max_outdated : Z)
    (scan : list string) (locked : gset string) (q : queue) (Hscan : NoDup scan) :
  let '(acquired, q') := acquire_queued_objects now count p max_outdated scan locked q in
  let ids := queued_object_id <$> acquired in
  NoDup ids ∧ (length ids ≤ count)%nat ∧
  (∀ o, o ∈ ids → o ∉ locked ∧ ∃ r, q !! o = Some r ∧ acquirable now max_outdated r = true ∧
                  q' !! o = Some (mk_queue_row (Some p) now)) ∧
  (∀ o, o ∉ ids → q' !! o = q !! o) ∧
  (∀ o r, o ∈ scan → o ∉ locked → q !! o = Some r → acquirable now max_outdated r = true →
     o ∉ ids →
     length ids = count ∧
     ∀ o' r', o' ∈ ids → q !! o' = Some r' → processing_started_at r' ≤ processing_started_at r).
Proof.
  unfold acquire_queued_objects. cbn zeta.
  rewrite <- list_fmap_compose. change (queued_object_id ∘ _) with (@id string).
  rewrite list_fmap_id. set (ids := dequeued_ids _ _ _ _ _ _).
  split_and!.
  - by apply dequeued_NoDup.
  - apply dequeued_length.
  - intros o Ho. pose proof (elem_of_dequeued _ _ _ _ _ _ _ Ho) as (_ & Hl & r & Hr & Ha).
    split; [done|]. exists r. rewrite mark_rows_lookup, Hr. by rewrite decide_True.
  - intros o Ho. rewrite mark_rows_lookup. destruct (q !! o); [|done]. by rewrite decide_False.
  - intros o r Hs Hl Hr Ha Ho.
    destruct (dequeued_oldest now count max_outdated scan locked q o) as [Hlen Hold]; [|done|].
    { apply elem_of_candidates. eauto. }
    split; [done|]. intros o' r' Ho' Hr'. specialize (Hold o' Ho').
    unfold started_le in Hold. by rewrite Hr, Hr' in Hold.
Qed.

Lemma acquire_queued_objects_spec_witness :
  let q : queue := {["a" := mk_queue_row (Some "p1") 10; "b" := mk_queue_row (Some "p1") 50;
                     "c" := mk_queue_row None 60]} in
  queued_object_id <$> fst (acquire_queued_objects 100 1 "p2" 60 ["c"; "b"; "a"] ∅ q) = ["a"] ∧
  snd (acquire_queued_objects 100 1 "p2" 60 ["c"; "b"; "a"] ∅ q) !! "c" = q !! "c".
Proof.
  intros q.
  assert (Hnd : NoDup ["c"; "b"; "a"]) by (by apply (bool_decide_unpack _); vm_compute).
  assert (Hids : queued_object_id <$> fst (acquire_queued_objects 100 1 "p2" 60 ["c"; "b"; "a"] ∅ q)
                 = ["a"]) by (vm_compute; reflexivity).
  split; [exact Hids|].
  pose proof (acquire_queued_objects_spec 100 1 "p2" 60 ["c"; "b"; "a"] ∅ q Hnd) as H.
  destruct (acquire_queued_objects _ _ _ _ _ _ _) as [acquired q'].
  destruct H as (_ & _ & _ & H & _). apply H. simpl in Hids. rewrite Hids.
  by apply (bool_decide_unpack _); vm_compute.
Defined.

(** Starting an iteration inserts a new id, greater than every id in the table, and
    leaves at most ten iterations, the new one among them and no older one
    kept while a newer one is dropped. *)
Theorem start_iteration_retains (t : iterations) (Hwf : iterations_wf t)
    (Hmax : next_iteration_id t < i64_max) :
  let '(id, t') := start_iteration t in
  iterations_wf t' ∧ id ∈ iteration_ids t' ∧ (length (iteration_ids t') ≤ 10)%nat ∧
  Forall (λ i, i < id) (iteration_ids t) ∧
  (∀ i j, i ∈ iteration_ids t → i ∉ iteration_ids t' → j ∈ iteration_ids t' → i < j).
Proof.
  rewrite start_iteration_ids by done. destruct Hwf as (Hn & Hnd & Hb).
  rewrite Forall_forall in Hb. simpl. set (ids := filter _ _).
  assert (Hin : ∀ i, i ∈ ids ↔ next_iteration_id t - 10 < i ∧
                     (i ∈ iteration_ids t ∨ i = next_iteration_id t)).
  { intros i. unfold ids. by rewrite list_elem_of_filter, elem_of_app, list_elem_of_singleton. }
  assert (Hnd' : NoDup ids).
  { apply NoDup_filter, NoDup_app. split_and!; [done| |apply NoDup_singleton].
    intros i Hi ->%list_elem_of_singleton. apply Hb in Hi. lia. }
  split_and!.
  - split_and!; simpl; [lia..|done|]. apply Forall_forall. intros i [Hi [Hi'|Hi']]%Hin; [|lia].
    apply Hb in Hi'. lia.
  - apply Hin. lia.
  - apply (NoDup_Z_interval _ (next_iteration_id t - 10)); [done|].
    intros i [Hi [Hi'|Hi']]%Hin; [apply Hb in Hi'|]; lia.
  - apply Forall_forall. intros i Hi. apply Hb in Hi. lia.
  - intros i j Hi Hno [Hj _]%Hin. destruct (decide (next_iteration_id t - 10 < i)); [|lia].
    destruct Hno. apply Hin. auto.
Qed.

Lemma start_iteration_retains_witness :
  let t := mk_iterations 13 [1; 5; 12] in
  (length (iteration_ids (snd (start_iteration t))) ≤ 10)%nat ∧
  13 ∈ iteration_ids (snd (start_iteration t)).
Proof.
  intros t. assert (Hwf : iterations_wf t).
  { split_and!; simpl; [lia|unfold i64_max; lia|by apply (bool_decide_unpack _); vm_compute|].
    repeat constructor; lia. }
  pose proof (start_iteration_retains _ Hwf ltac:(unfold i64_max; simpl; lia)) as H.
  destruct (start_iteration _) as [id t'] eqn:E. destruct H as (_ & Hid & Hlen & _).
  split; [done|]. by injection E as <- <-.
Defined.

(** A processor can only delete its own rows: deleting removes exactly the rows of
    the given objects that the processor holds, and returns their number. *)
Theorem delete_queued_objects_spec (p : string) (q : queue) (ids : list string) :
  let '(n, q') := delete_queued_objects p q ids in
  (∀ o, q' !! o = match q !! o with
                  | Some r => if decide (o ∈ ids ∧ owned_by p r = true) then None else Some r
                  | None => None
                  end) ∧
  n = Z.of_nat (size q) - Z.of_nat (size q').
Proof.
  destruct (delete_queued_objects p q ids) as [n q'] eqn:E. split.
  - intros o. by rewrite <- delete_queued_objects_lookup, E.
  - pose proof (delete_queued_objects_count p q ids) as H. by rewrite E in H.
Qed.
