(* ===== verification/ControllerIO.v ===== *)
(** * The interface between the state processor and the tables of an object type

    [StateControllerIO] of [crates/state-controller/src/io.rs] as a class over
    the contents [DB] of the database, and [StateControllerIOLaws], what the
    doc comments of the trait promise.  The processor is verified against the
    laws; the controllers discharge them for their own tables.

    A statement is a function of the contents its transaction sees; it returns
    the contents with its writes.  [DatabaseError]s are the string they
    print. *)

From S2P Require Import Prelude ConfigVersion StateHistory StateHandler.

Class StateControllerIO (DB ObjectId State CS : Type) := {
  (** [Display] of the id, [FromStr] of the id and [Debug] of the state *)
  id_string : ObjectId → string;
  id_from_str : string → option ObjectId;
  debug_state : CS → string;
  list_objects : DB → result string (list ObjectId);
  load_object_state : DB → ObjectId → result string (option State);
  load_controller_state : DB → ObjectId → State → result string (Versioned CS);
  persist_controller_state :
    DB → ObjectId → ConfigVersion → ConfigVersion → CS → result string (bool * DB);
  persist_state_history : DB → ObjectId → ConfigVersion → CS → result string DB;
  persist_outcome : DB → ObjectId → PersistentStateHandlerOutcome → result string DB;
  metric_state_names : CS → string * string;
  manual_intervention_reason : CS → option string;
  (** the first argument is the time the function reads *)
  state_sla : Z → Versioned CS → State → StateSla;
}.

(** What an observer of the database sees of an object. *)
Class ObjectView (DB ObjectId CS : Type) := {
  controller_state_of : DB → ObjectId → option (Versioned CS);
  history_of : DB → ObjectId → list (ConfigVersion * CS);
  outcome_of : DB → ObjectId → option PersistentStateHandlerOutcome;
}.

Class StateControllerIOLaws (DB ObjectId State CS : Type)
    `{IO : !StateControllerIO DB ObjectId State CS, V : !ObjectView DB ObjectId CS} : Prop := {
  (** the id prints and parses back *)
  id_roundtrip (o : ObjectId) : id_from_str (id_string o) = Some o;
  (** "Loads the object state that is owned by the state controller" *)
  load_current db o s v :
    load_object_state db o = Ok (Some s) →
    load_controller_state db o s = Ok v →
    controller_state_of db o = Some v;
  (** "`true` if the state was successfully persisted": the stored version was
      [old], and the state and the version are stored, nothing else *)
  persist_true db o old nv cs db' :
    persist_controller_state db o old nv cs = Ok (true, db') →
    (version <$> controller_state_of db o) = Some old ∧
    controller_state_of db' o = Some (mk_versioned cs nv) ∧
    (∀ o', o' ≠ o → controller_state_of db' o' = controller_state_of db o') ∧
    ∀ o', history_of db' o' = history_of db o';
  (** "`false` if the update was skipped (e.g. optimistic lock version mismatch)" *)
  persist_false db o old nv cs db' :
    persist_controller_state db o old nv cs = Ok (false, db') →
    db' = db ∧ (version <$> controller_state_of db o) ≠ Some old;
  (** "Persists a state history record": the newest entry, the newest 250 kept *)
  persist_history db o nv cs db' :
    persist_state_history db o nv cs = Ok db' →
    history_of db' o = lastn history_keep_limit (history_of db o ++ [(nv, cs)]) ∧
    (∀ o', o' ≠ o → history_of db' o' = history_of db o') ∧
    ∀ o', controller_state_of db' o' = controller_state_of db o';
  (** "Save the result of the most recent controller iteration" *)
  persist_outcome_only db o oc db' :
    persist_outcome db o oc = Ok db' →
    (∀ o', controller_state_of db' o' = controller_state_of db o') ∧
    (∀ o', history_of db' o' = history_of db o') ∧
    (controller_state_of db o ≠ None → outcome_of db' o = Some oc) ∧
    ∀ o', o' ≠ o → outcome_of db' o' = outcome_of db o';
}.
