(* ===== verification/ControllerTable.v ===== *)
(** * Object tables with a versioned controller state

    Every controlled object type has a table with the columns
    [controller_state], [controller_state_version] and
    [controller_state_outcome] and a history table.  The three statements the
    processor runs on them have the same text for every type
    ([try_update_controller_state] and [update_controller_state_outcome] of
    [crates/api-db/src/network_segment.rs] and its siblings, and
    [state_history::persist]); they are modelled once, over the type [Obj] of
    the remaining columns.  [table_view] and the lemmas below are what the
    instances of [StateControllerIOLaws] consist of. *)

From S2P Require Import Prelude ConfigVersion StateHistory StateHandler ControllerIO.

(** Ids: decidable, and their [Display] parses back. *)
Class ObjectIdType (Id : Type) `{!EqDecision Id, !Countable Id} := {
  print_id : Id → string;
  parse_id : string → option Id;
  parse_print_id (o : Id) : parse_id (print_id o) = Some o;
}.

#[export] Instance print_id_inj `{ObjectIdType Id} : Inj (=) (=) print_id.
Proof.
  intros o1 o2 Heq. apply (f_equal parse_id) in Heq.
  rewrite !parse_print_id in Heq. by simplify_eq.
Qed.

(** A history table satisfies [history_wf] because only [persist] writes it. *)
Definition history_log (J : Type) : Type := { t : history_table J | history_wf t }.

Definition empty_log {J} : history_log J := empty_history ↾ empty_history_wf.

Definition log_persist {J} (l : history_log J) (db_now : Z) (o : string) (s : J)
    (v : ConfigVersion) : history_log J :=
  snd (persist (proj1_sig l) db_now o s v) ↾ persist_wf _ db_now o s v (proj2_sig l).

Definition log_entries {J} (l : history_log J) (o : string) : list (ConfigVersion * J) :=
  (λ r, (hist_version r, hist_state r)) <$> for_object (proj1_sig l) o.

Lemma log_persist_entries {J} (l : history_log J) now o s v :
  log_entries (log_persist l now o s v) o =
  lastn history_keep_limit (log_entries l o ++ [(v, s)]).
Proof.
  unfold log_entries, log_persist. cbn [proj1_sig].
  rewrite for_object_persist by apply proj2_sig.
  by rewrite <- lastn_fmap, fmap_app.
Qed.

Lemma log_persist_entries_other {J} (l : history_log J) now o o' s v :
  o' ≠ o → log_entries (log_persist l now o s v) o' = log_entries l o'.
Proof. intros. unfold log_entries, log_persist. cbn [proj1_sig]. by rewrite for_object_persist_other. Qed.

Section Table.
Context {Id CS Obj : Type} `{HId : ObjectIdType Id}.

Record table_row := mk_row {
  row_state : Versioned CS;
  row_outcome : option PersistentStateHandlerOutcome;
  row_object : Obj;
}.

Record table := mk_table {
  rows : gmap Id table_row;
  log : history_log CS;
}.

(** [UPDATE .. SET controller_state_version=$1, controller_state=$2 WHERE id=$3 AND
    controller_state_version=$4 RETURNING id] and [result.is_some()] *)
Definition try_update_controller_state (db : table) (o : Id)
    (expected_version new_version : ConfigVersion) (new_state : CS) : bool * table :=
  match rows db !! o with
  | Some r =>
      if decide (version (row_state r) = expected_version)
      then (true,
            mk_table (<[o := mk_row (mk_versioned new_state new_version)
                               (row_outcome r) (row_object r)]> (rows db)) (log db))
      else (false, db)
  | None => (false, db)
  end.

(** [UPDATE .. SET controller_state_outcome=$1 WHERE id=$2] *)
Definition update_controller_state_outcome (db : table) (o : Id)
    (outcome : PersistentStateHandlerOutcome) : table :=
  mk_table (alter (λ r, mk_row (row_state r) (Some outcome) (row_object r)) o (rows db)) (log db).

(** An update of the other columns of a row *)
Definition update_object (f : Obj → Obj) (o : Id) (db : table) : table :=
  mk_table (alter (λ r, mk_row (row_state r) (row_outcome r) (f (row_object r))) o (rows db)) (log db).

(** [db::state_history::persist] on the history table of the type; the row's
    timestamp column is not read by the controllers. *)
Definition persist_history_row (db : table) (db_now : Z) (o : Id) (nv : ConfigVersion)
    (s : CS) : table :=
  mk_table (rows db) (log_persist (log db) db_now (print_id o) s nv).

#[export] Instance table_view : ObjectView table Id CS := {
  controller_state_of db o := row_state <$> rows db !! o;
  history_of db o := log_entries (log db) (print_id o);
  outcome_of db o := rows db !! o ≫= row_outcome;
}.

(** ** What the statements do, in the form of the laws *)

Lemma try_update_true db o old nv cs db' :
  try_update_controller_state db o old nv cs = (true, db') →
  (version <$> controller_state_of db o) = Some old ∧
  controller_state_of db' o = Some (mk_versioned cs nv) ∧
  (∀ o', o' ≠ o → controller_state_of db' o' = controller_state_of db o') ∧
  ∀ o', history_of db' o' = history_of db o'.
Proof.
  unfold try_update_controller_state. simpl. intros Hup.
  destruct (rows db !! o) as [r|] eqn:Hr; [|done]. case_decide as Hv; [|done].
  injection Hup as <-. simpl. split_and!.
  - by rewrite <- Hv.
  - by rewrite lookup_insert_eq.
  - intros. by rewrite lookup_insert_ne.
  - done.
Qed.

Lemma try_update_false db o old nv cs db' :
  try_update_controller_state db o old nv cs = (false, db') →
  db' = db ∧ (version <$> controller_state_of db o) ≠ Some old.
Proof.
  unfold try_update_controller_state. simpl. intros Hup.
  destruct (rows db !! o) as [r|] eqn:Hr; [case_decide as Hv|]; simplify_eq; [|done].
  split; [done|]. simpl. congruence.
Qed.

Lemma persist_history_row_spec db now o nv cs :
  let db' := persist_history_row db now o nv cs in
  history_of db' o = lastn history_keep_limit (history_of db o ++ [(nv, cs)]) ∧
  (∀ o', o' ≠ o → history_of db' o' = history_of db o') ∧
  ∀ o', controller_state_of db' o' = controller_state_of db o'.
Proof.
  simpl. split_and!; [apply log_persist_entries | | done].
  intros o' Hne. apply log_persist_entries_other. by intros ?%(inj print_id).
Qed.

Lemma update_outcome_spec db o oc :
  let db' := update_controller_state_outcome db o oc in
  (∀ o', controller_state_of db' o' = controller_state_of db o') ∧
  (∀ o', history_of db' o' = history_of db o') ∧
  (controller_state_of db o ≠ None → outcome_of db' o = Some oc) ∧
  ∀ o', o' ≠ o → outcome_of db' o' = outcome_of db o'.
Proof.
  simpl. split_and!.
  - intros o'. destruct (decide (o' = o)) as [->|].
    + rewrite lookup_alter_eq. by destruct (rows db !! o).
    + by rewrite lookup_alter_ne.
  - done.
  - rewrite lookup_alter_eq. by destruct (rows db !! o).
  - intros. by rewrite lookup_alter_ne.
Qed.

(** ** The interface for a table

    The object types whose state is one row of such a table. [db_now] is the
    default of the history timestamp. *)

Definition table_io (debug : CS → string) (names : CS → string * string)
    (reason : CS → option string) (sla_of : Z → Versioned CS → Obj → StateSla) (db_now : Z)
    : StateControllerIO table Id table_row CS := {|
  id_string := print_id;
  id_from_str := parse_id;
  debug_state := debug;
  list_objects db := Ok (fst <$> map_to_list (rows db));
  load_object_state db o := Ok (rows db !! o);
  load_controller_state _ _ r := Ok (row_state r);
  persist_controller_state db o old nv cs := Ok (try_update_controller_state db o old nv cs);
  persist_state_history db o nv cs := Ok (persist_history_row db db_now o nv cs);
  persist_outcome db o oc := Ok (update_controller_state_outcome db o oc);
  metric_state_names := names;
  manual_intervention_reason := reason;
  state_sla now cs r := sla_of now cs (row_object r);
|}.

Lemma table_io_laws debug names reason sla_of db_now :
  StateControllerIOLaws table Id table_row CS
    (IO := table_io debug names reason sla_of db_now) (V := table_view).
Proof.
  split.
  - apply parse_print_id.
  - intros db o s v [= Hs] [= <-]. simpl. by rewrite Hs.
  - intros db o old nv cs db' [= Hp]. by eapply try_update_true.
  - intros db o old nv cs db' [= Hp]. by eapply try_update_false.
  - intros db o nv cs db' [= <-]. apply persist_history_row_spec.
  - intros db o oc db' [= <-]. apply update_outcome_spec.
Qed.
End Table.
Arguments table Id CS Obj {_ _}.
Arguments table_row : clear implicits.

(** Strings as ids. *)
#[export] Program Instance string_id : ObjectIdType string := {|
  print_id s := s;
  parse_id s := Some s;
|}.
Next Obligation. done. Qed.
