(* ===== verification/ProcessObject.v ===== *)
(** * Handling one object ([process_object] of
      [crates/state-controller/src/controller/processor.rs])

    The function runs under a timeout, and every [.await] of it can also fail
    because of the database.  It is a computation in a small monad over the
    committed contents of the database and the metrics: an oracle gives every
    await its fate.  A transaction is a working copy of the contents taken when
    it begins; [commit] publishes it, and dropping it (an error, the timeout, a
    rollback) discards it.  Other transactions take effect where this task has
    none open, which is where the oracle interferes: when a transaction begins,
    and while the handler runs. *)

From S2P Require Import Prelude ConfigVersion StateHistory StateHandler ControllerIO.

(** ** Metrics of one handler run ([crates/state-controller/src/metrics.rs]) *)

Record CommonObjectHandlerMetrics (CS : Type) := mk_metrics {
  initial_state : option CS;
  next_state : option CS;
  transition_conflict : bool;
  time_in_state : Z;
  m_above_sla : bool;
  m_sla : option Z;
  state_entered_at : option Z;
  handler_latency : Z;
  error : option StateHandlerError;
}.
Arguments mk_metrics {CS} _ _ _ _ _ _ _ _ _.
Arguments initial_state {CS} _.
Arguments next_state {CS} _.
Arguments transition_conflict {CS} _.
Arguments time_in_state {CS} _.
Arguments m_above_sla {CS} _.
Arguments m_sla {CS} _.
Arguments state_entered_at {CS} _.
Arguments handler_latency {CS} _.
Arguments error {CS} _.

Definition default_metrics {CS} : CommonObjectHandlerMetrics CS :=
  mk_metrics None None false 0 false None None 0 None.

(** ** Per-object gauges: what [process_object] asks of the recorder
    ([crates/state-controller/src/per_object.rs]) *)

Inductive ManualIntervention :=
| Required (reason : string)
| NotRequired
| Unknown.

Inductive RecorderCall :=
| Record_ (object_id state substate : string) (entered : Z) (sla : option Z)
    (mi : ManualIntervention)
| Touch (object_id : string)
| Clear (object_id : string).

(** [StateChangeEvent] *)
Record StateChangeEvent (ObjectId CS : Type) := mk_event {
  event_object_id : ObjectId;
  new_state : CS;
  event_timestamp : Z;
}.
Arguments mk_event {ObjectId CS} _ _ _.
Arguments new_state {ObjectId CS} _.
Arguments event_object_id {ObjectId CS} _.

(** ** The monad *)

(** The fate of one await: it succeeds, it fails with an error of the database
    or the timeout elapses while it waits.  [applied] says, for a commit that is
    not confirmed, whether the database had performed it. *)
Inductive Fate :=
| Go
| Fault (e : string) (applied : bool)
| Elapse (applied : bool).

Record Verdict (DB : Type) := mk_verdict { interference : DB → DB; fate : Fate }.
Arguments mk_verdict {DB} _ _.
Arguments interference {DB} _.
Arguments fate {DB} _.

Record World (DB CS : Type) := mk_world {
  committed : DB;
  oracle : list (Verdict DB);
  metrics : CommonObjectHandlerMetrics CS;
}.
Arguments mk_world {DB CS} _ _ _.
Arguments committed {DB CS} _.
Arguments oracle {DB CS} _.
Arguments metrics {DB CS} _.

(** How a step ends: with a value, with the [?] operator, with the timeout, or
    with a panic. *)
Inductive Ending (A : Type) :=
| Done (a : A)
| Threw (e : StateHandlerError)
| Elapsed
| Panicked.
Arguments Done {A} a.
Arguments Threw {A} e.
Arguments Elapsed {A}.
Arguments Panicked {A}.

Definition Step (DB CS A : Type) : Type := World DB CS → Ending A * World DB CS.

#[export] Instance step_ret {DB CS} : MRet (Step DB CS) := λ A a w, (Done a, w).
#[export] Instance step_bind {DB CS} : MBind (Step DB CS) := λ A B f m w,
  match m w with
  | (Done a, w') => f a w'
  | (Threw e, w') => (Threw e, w')
  | (Elapsed, w') => (Elapsed, w')
  | (Panicked, w') => (Panicked, w')
  end.

Section Steps.
Context {DB CS : Type}.

Definition throw {A} (e : StateHandlerError) : Step DB CS A := λ w, (Threw e, w).

Definition panic {A} : Step DB CS A := λ w, (Panicked, w).

(** The next verdict; awaits beyond the end of the oracle succeed. *)
Definition next_verdict (w : World DB CS) : Verdict DB * World DB CS :=
  match oracle w with
  | [] => (mk_verdict (λ db, db) Go, w)
  | v :: vs => (v, mk_world (committed w) vs (metrics w))
  end.

Definition set_committed (db : DB) (w : World DB CS) : World DB CS :=
  mk_world db (oracle w) (metrics w).

(** [metrics.common... = ...] *)
Definition update_metrics (f : CommonObjectHandlerMetrics CS → CommonObjectHandlerMetrics CS)
    : Step DB CS unit :=
  λ w, (Done tt, mk_world (committed w) (oracle w) (f (metrics w))).

(** [pool.begin().await?] *)
Definition begin : Step DB CS DB := λ w,
  let '(v, w) := next_verdict w in
  let w := set_committed (interference v (committed w)) w in
  match fate v with
  | Go => (Done (committed w), w)
  | Fault e _ => (Threw (TransactionError e), w)
  | Elapse _ => (Elapsed, w)
  end.

(** [query(&mut txn, ...).await?] where the query returns a [DatabaseError] *)
Definition statement {A} (q : result string A) : Step DB CS A := λ w,
  let '(v, w) := next_verdict w in
  match fate v with
  | Go => match q with Ok a => (Done a, w) | Err e => (Threw (DBError e), w) end
  | Fault e _ => (Threw (DBError e), w)
  | Elapse _ => (Elapsed, w)
  end.

(** [txn.commit().await?] *)
Definition commit (txn : DB) : Step DB CS unit := λ w,
  let '(v, w) := next_verdict w in
  match fate v with
  | Go => (Done tt, set_committed txn w)
  | Fault e applied =>
      (Threw (TransactionError e), if applied then set_committed txn w else w)
  | Elapse applied => (Elapsed, if applied then set_committed txn w else w)
  end.

(** [let _ = txn.rollback().await]: its error is ignored. *)
Definition rollback : Step DB CS unit := λ w,
  let '(v, w) := next_verdict w in
  match fate v with
  | Elapse _ => (Elapsed, w)
  | _ => (Done tt, w)
  end.

(** [pending_db_writes.apply_all(&mut txn).await], whose error is a value here.
    A fault is the error of the write it strikes. *)
Definition apply_pending (writes : DbWriteBatch DB) (txn : DB)
    : Step DB CS (result StateHandlerError DB) := λ w,
  let '(v, w) := next_verdict w in
  match fate v with
  | Go => (Done (apply_all writes txn), w)
  | Fault e _ => (Done (Err (DBError e)), w)
  | Elapse _ => (Elapsed, w)
  end.
End Steps.

(** ** The function *)

Section ProcessObject.
Context {DB ObjectId State CS : Type} `{IO : !StateControllerIO DB ObjectId State CS}.

(** What a call of [handle_object_state] does: the snapshot it leaves, the
    database with what the handler itself (and anyone else) committed meanwhile,
    its result, whose transaction if any is a working copy of that database,
    and the writes it deferred. *)
Record HandlerRun := mk_run {
  run_state : State;
  run_committed : DB;
  run_output : result StateHandlerError (StateHandlerOutcome DB CS);
  run_pending : DbWriteBatch DB;
}.

Definition Handler : Type := ObjectId → State → CS → DB → HandlerRun.

(** The values of the clock reads, in the order of the code. *)
Record Clock := mk_clock {
  at_load : Z;
  at_sla : Z;
  at_increment : Z;
  at_next_sla : Z;
  at_emit : Z;
  latency : Z;
}.

Context (handler : Handler) (clk : Clock) (object_id : ObjectId).

Definition MISSING_OBJECT_STATE : string := "object_state".

Definition call_handler (snapshot : State) (cs : CS) : Step DB CS HandlerRun := λ w,
  let '(v, w) := next_verdict w in
  let w := set_committed (interference v (committed w)) w in
  match fate v with
  | Elapse _ => (Elapsed, w)
  | _ => let run := handler object_id snapshot cs (committed w) in
         (Done run, set_committed (run_committed run) w)
  end.

(** [signed_duration_since(..).to_std().unwrap_or(24 h)] *)
Definition std_duration_or_day (d : Z) : Z :=
  if d <? 0 then 60 * 60 * 24 * 1000000000 else d.

Definition load : Step DB CS (State * Versioned CS * StateSla) :=
  txn ← begin;
  found ← statement (load_object_state txn object_id);
  match found with
  | None => throw (MissingData (id_string object_id) MISSING_OBJECT_STATE)
  | Some snapshot =>
      controller_state ← statement (load_controller_state txn object_id snapshot);
      let st := state_sla (at_sla clk) controller_state snapshot in
      update_metrics (λ m,
        mk_metrics (Some (value controller_state)) (next_state m) (transition_conflict m)
          (std_duration_or_day (at_load clk - timestamp (version controller_state)))
          (time_in_state_above_sla st) (sla st)
          (Some (timestamp (version controller_state))) (handler_latency m) (error m));;
      commit txn;;
      mret (snapshot, controller_state, st)
  end.

(** The transaction the outcome is persisted in, with the deferred writes. *)
Definition outcome_txn (run : HandlerRun)
    : Step DB CS (result StateHandlerError (StateHandlerOutcome DB CS) * DB) :=
  match run_output run with
  | Ok oc =>
      let '(t, oc) := take_transaction oc in
      txn ← match t with Some txn => mret txn | None => begin end;
      r ← apply_pending (run_pending run) txn;
      match r with
      | Err e => mret (Err e, txn)
      | Ok txn => mret (Ok oc, txn)
      end
  | Err e => txn ← begin; mret (Err e, txn)
  end.

Definition set_conflict (m : CommonObjectHandlerMetrics CS) : CommonObjectHandlerMetrics CS :=
  mk_metrics (initial_state m) (next_state m) true (time_in_state m) (m_above_sla m) (m_sla m)
    (state_entered_at m) (handler_latency m) (error m).

(** The optimistic update and the history record of a transition.  The state,
    entry time and SLA that will be reported, and the transaction. *)
Definition persist_transition (snapshot : State) (cs : Versioned CS) (next : CS) (txn : DB)
    : Step DB CS (option (CS * Z * option Z) * DB) :=
  let nv := increment (at_increment clk) (version cs) in
  let next_sla := sla (state_sla (at_next_sla clk) (mk_versioned next nv) snapshot) in
  p ← statement (persist_controller_state txn object_id (version cs) nv next);
  match p with
  | (true, txn) =>
      txn ← statement (persist_state_history txn object_id nv next);
      mret (Some (next, timestamp nv, next_sla), txn)
  | (false, txn) =>
      update_metrics set_conflict;;
      mret (None, txn)
  end.

Definition quoted_wait (reason : string) : string :=
  "Wait(" +:+ String "034" reason +:+ String "034" ")".

(** An object stuck for longer than its SLA is reported as an error. *)
Definition sla_outcome (above : bool) (r : result StateHandlerError (StateHandlerOutcome DB CS))
    : result StateHandlerError (StateHandlerOutcome DB CS) :=
  match r with
  | Ok (Wait reason _ _) =>
      if above then Err (TimeInStateAboveSla (quoted_wait reason)) else r
  | Ok (DoNothing _ _) =>
      if above then Err (TimeInStateAboveSla "DoNothing") else r
  | _ => r
  end.

Definition is_deleted (r : result StateHandlerError (StateHandlerOutcome DB CS)) : bool :=
  match r with Ok (Deleted _ _) => true | _ => false end.

Definition is_ok {E A} (r : result E A) : bool := match r with Ok _ => true | Err _ => false end.

(** [io.persist_outcome(&mut txn, &object_id, from_result(..)).await?] *)
Definition store_outcome (r : result StateHandlerError (StateHandlerOutcome DB CS)) (txn : DB)
    : Step DB CS DB :=
  match from_result r with
  | None => panic
  | Some db_outcome => statement (persist_outcome txn object_id db_outcome)
  end.

Definition commit_outcome (is_success : bool)
    (outcome : result StateHandlerError (StateHandlerOutcome DB CS)) (txn : DB)
    : Step DB CS unit :=
  if is_success then
    txn ← (if is_deleted outcome then mret txn else store_outcome outcome txn);
    commit txn
  else if negb (is_deleted outcome) then
    rollback;;
    txn ← begin;
    txn ← store_outcome outcome txn;
    commit txn
  else mret tt.

Definition report_next (next : option (CS * Z * option Z)) (m : CommonObjectHandlerMetrics CS)
    : CommonObjectHandlerMetrics CS :=
  match next with
  | None => mk_metrics (initial_state m) None (transition_conflict m) (time_in_state m)
              (m_above_sla m) (m_sla m) (state_entered_at m) (handler_latency m) (error m)
  | Some (n, entered, s) =>
      mk_metrics (initial_state m) (Some n) (transition_conflict m) (time_in_state m)
        (m_above_sla m) s (Some entered) (handler_latency m) (error m)
  end.

(** The body of the [timeout]. *)
Definition handle : Step DB CS (result StateHandlerError (StateHandlerOutcome DB CS)) :=
  '(snapshot, cs, st) ← load;
  run ← call_handler snapshot (value cs);
  '(outcome, txn) ← outcome_txn run;
  '(next, txn) ← match outcome with
                 | Ok (Transition next _ _) => persist_transition (run_state run) cs next txn
                 | _ => mret (None, txn)
                 end;
  let is_success := is_ok outcome in
  let outcome := sla_outcome (time_in_state_above_sla st) outcome in
  commit_outcome is_success outcome txn;;
  update_metrics (report_next next);;
  mret outcome.

(** *** After the timeout: events, errors and gauges *)

Definition set_error (e : option StateHandlerError) (lat : Z)
    (m : CommonObjectHandlerMetrics CS) : CommonObjectHandlerMetrics CS :=
  mk_metrics (initial_state m) (next_state m) (transition_conflict m) (time_in_state m)
    (m_above_sla m) (m_sla m) (state_entered_at m) lat
    (match e with Some e => Some e | None => error m end).

Definition state_change_events (m : CommonObjectHandlerMetrics CS)
    : list (StateChangeEvent ObjectId CS) :=
  match next_state m with
  | Some n => [mk_event object_id n (at_emit clk)]
  | None => []
  end.

Definition manual_intervention (final_state : CS) (e : option StateHandlerError)
    : ManualIntervention :=
  match manual_intervention_reason final_state, e with
  | Some reason, _ => Required reason
  | None, Some (ManualInterventionRequired r) =>
      Required (metric_label (ManualInterventionRequired r))
  | None, None | None, Some (TimeInStateAboveSla _) => NotRequired
  | None, Some _ => Unknown
  end.

Definition first_some {A} (a b : option A) : option A :=
  match a with Some x => Some x | None => b end.

Definition recorder_call (deleted : bool) (m : CommonObjectHandlerMetrics CS) : RecorderCall :=
  let gone := deleted || match error m with
                         | Some (MissingData _ missing) => String.eqb missing MISSING_OBJECT_STATE
                         | _ => false
                         end in
  if gone then Clear (id_string object_id)
  else
    match transition_conflict m, first_some (next_state m) (initial_state m), state_entered_at m with
    | false, Some final_state, Some entered =>
        let '(state, substate) := metric_state_names final_state in
        Record_ (id_string object_id) state substate entered (m_sla m)
          (manual_intervention final_state (error m))
    | _, _, _ => Touch (id_string object_id)
    end.

Record Handled := mk_handled {
  h_db : DB;
  h_metrics : CommonObjectHandlerMetrics CS;
  h_events : list (StateChangeEvent ObjectId CS);
  h_recorder : RecorderCall;
}.

(** [None] is a panic of the task. *)
Definition process_object (db : DB) (orc : list (Verdict DB)) : option Handled :=
  let '(ending, w) := handle (mk_world db orc default_metrics) in
  let m := metrics w in
  result ← match ending with
           | Done r => Some r
           | Threw e => Some (Err e)
           | Elapsed =>
               Some (Err (Timeout (id_string object_id)
                            (from_option debug_state EmptyString (initial_state m))))
           | Panicked => None
           end;
  let events := state_change_events m in
  let e := match result with Ok _ => None | Err e => Some e end in
  let m := set_error e (latency clk) m in
  Some (mk_handled (committed w) m events (recorder_call (is_deleted result) m)).
End ProcessObject.
Arguments HandlerRun : clear implicits.
Arguments Handler : clear implicits.
Arguments Handled : clear implicits.
