(* ===== verification/ProcessObjectFacts.v ===== *)
(** * What handling an object guarantees

    Theorems about [process_object], for every handler, every implementation of
    [StateControllerIO] that satisfies its laws, and every oracle: any await may
    fail, the timeout may strike anywhere, and other transactions may change the
    database wherever the code has no transaction open. *)

From S2P Require Import Prelude ConfigVersion StateHistory StateHandler ControllerIO ControllerTable.
From S2P Require Import ProcessObject.

(** ** Reasoning about steps *)

Section Logic.
Context {DB CS : Type}.
Implicit Types w : World DB CS.

Lemma step_bind_done {A B} (m : Step DB CS A) (f : A → Step DB CS B) w b w' :
  (m ≫= f) w = (Done b, w') → ∃ a w1, m w = (Done a, w1) ∧ f a w1 = (Done b, w').
Proof.
  unfold mbind, step_bind. destruct (m w) as [[] ?]; naive_solver.
Qed.

Lemma statement_done {A} (q : result string A) w a w' :
  statement q w = (Done a, w') → q = Ok a.
Proof.
  unfold statement. destruct (next_verdict w) as [v w1].
  destruct (fate v); [destruct q|..]; intros; by simplify_eq.
Qed.

Lemma commit_done txn w w' : commit txn w = (Done (), w') → committed w' = txn.
Proof.
  unfold commit. destruct (next_verdict w) as [v w1]. by destruct (fate v); intros [= <-].
Qed.

(** A step is safe for an invariant of the database if it keeps it on the
    committed contents, whatever happens, and its value satisfies [P]. *)
Definition good (Inv : DB → Prop) w : Prop :=
  Inv (committed w) ∧ Forall (λ v, ∀ db, Inv db → Inv (interference v db)) (oracle w).

Definition safe {A} (Inv : DB → Prop) (P : A → Prop) (m : Step DB CS A) : Prop :=
  ∀ w, good Inv w → good Inv (snd (m w)) ∧ ∀ a, fst (m w) = Done a → P a.

Lemma safe_ret {A} Inv (P : A → Prop) a : P a → safe Inv P (mret a).
Proof. intros Ha w Hw. split; [done|]. by intros ? [= <-]. Qed.

Lemma safe_bind {A B} Inv (P : A → Prop) (Q : B → Prop) m f :
  safe Inv P m → (∀ a, P a → safe Inv Q (f a)) → safe Inv Q (m ≫= f).
Proof.
  intros Hm Hf w Hw. specialize (Hm w Hw) as [Hw1 Ha].
  unfold mbind, step_bind. destruct (m w) as [[a|e| |] w1]; simpl in *; try (split; [done|done]).
  by apply (Hf a); [apply Ha|].
Qed.

(** To show [R] of a run it is enough to show it of what follows a safe step. *)
Lemma run_bind {A B} Inv (P : A → Prop) (R : Ending B → World DB CS → Prop) m f w e w' :
  safe Inv P m → good Inv w → (m ≫= f) w = (e, w') →
  (∀ a w1, P a → good Inv w1 → m w = (Done a, w1) → f a w1 = (e, w') → R e w') →
  (good Inv w' → R e w') → R e w'.
Proof.
  intros Hm Hw He Hdone Hother. specialize (Hm w Hw) as [Hw1 Ha].
  unfold mbind, step_bind in He.
  destruct (m w) as [[a|x| |] w1]; simpl in *; [by eapply Hdone; eauto|simplify_eq; auto..].
Qed.

Lemma safe_throw {A} Inv (P : A → Prop) e : safe Inv P (throw e).
Proof. intros w Hw. by split. Qed.

Lemma safe_panic {A} Inv (P : A → Prop) : safe Inv P panic.
Proof. intros w Hw. by split. Qed.

Lemma safe_update_metrics Inv f : safe Inv (λ _, True) (update_metrics f).
Proof. intros w Hw. by split. Qed.

Lemma next_verdict_good Inv w v w' :
  next_verdict w = (v, w') → good Inv w →
  good Inv w' ∧ (∀ db, Inv db → Inv (interference v db)) ∧ committed w' = committed w.
Proof.
  unfold next_verdict, good. destruct w as [db [|v0 vs] m]; simpl; intros [= <- <-] [Hc Ho];
    [done|]. apply Forall_cons in Ho as [Hv Ho]. simpl. auto.
Qed.

Lemma safe_begin Inv : safe Inv Inv begin.
Proof.
  intros w Hw. unfold begin. destruct (next_verdict w) as [v w1] eqn:Hv.
  apply (next_verdict_good Inv) in Hv as ([Hc Ho] & Hi & _); [|done].
  assert (Hg : good Inv (set_committed (interference v (committed w1)) w1)) by (split; simpl; auto).
  destruct (fate v); simpl; split; try done. intros ? [= <-]. by apply Hi.
Qed.

Lemma safe_statement {A} Inv (P : A → Prop) q :
  (∀ a, q = Ok a → P a) → safe Inv P (statement q).
Proof.
  intros Hq w Hw. unfold statement. destruct (next_verdict w) as [v w1] eqn:Hv.
  apply (next_verdict_good Inv) in Hv as (Hg & _ & _); [|done].
  destruct (fate v); [destruct q|..]; simpl; split; naive_solver.
Qed.

Lemma safe_commit Inv txn : Inv txn → safe Inv (λ _, True) (commit txn).
Proof.
  intros Ht w Hw. unfold commit. destruct (next_verdict w) as [v w1] eqn:Hv.
  apply (next_verdict_good Inv) in Hv as ([Hc Ho] & _ & _); [|done].
  destruct (fate v) as [|? []|[]]; simpl; split; try done; split; done.
Qed.

Lemma safe_rollback Inv : safe Inv (λ _, True) rollback.
Proof.
  intros w Hw. unfold rollback. destruct (next_verdict w) as [v w1] eqn:Hv.
  apply (next_verdict_good Inv) in Hv as (Hg & _ & _); [|done].
  by destruct (fate v).
Qed.

Lemma safe_apply_pending Inv ws txn :
  Forall (λ op : WriteOp DB, ∀ db db', Inv db → op db = Ok db' → Inv db') ws → Inv txn →
  safe Inv (λ r, ∀ txn', r = Ok txn' → Inv txn') (apply_pending ws txn).
Proof.
  intros Hws Htxn w Hw. unfold apply_pending. destruct (next_verdict w) as [v w1] eqn:Hv.
  apply (next_verdict_good Inv) in Hv as (Hg & _ & _); [|done].
  destruct (fate v); simpl; split; try done; intros r [= <-]; [|done].
  clear -Hws Htxn. revert txn Htxn. induction Hws as [|o ws Ho _ IH]; simpl; intros txn Htxn txn'.
  - by intros [= <-].
  - destruct (o txn) eqn:E; simpl; [|done]. eauto.
Qed.
End Logic.

(** ** State and history stay together *)

Section Consistency.
Context {DB ObjectId State CS : Type}
  `{IO : !StateControllerIO DB ObjectId State CS, V : !ObjectView DB ObjectId CS,
    Laws : !StateControllerIOLaws DB ObjectId State CS} `{!EqDecision ObjectId}.

(** The newest history record of every object is its controller state. *)
Definition history_agrees (db : DB) : Prop :=
  ∀ o v, controller_state_of db o = Some v →
         last (history_of db o) = Some (version v, value v).

(** The documented discipline of handlers: "This state may not be updated by any
    other component", so neither what a handler commits itself, nor its open
    transaction, nor its deferred writes break an agreement that holds. *)
Definition handler_keeps (Inv : DB → Prop) (handler : Handler DB ObjectId State CS) : Prop :=
  ∀ o s cs db, Inv db →
    let run := handler o s cs db in
    Inv (run_committed run) ∧
    (∀ oc, run_output run = Ok oc → ∀ txn, fst (take_transaction oc) = Some txn → Inv txn) ∧
    Forall (λ op : WriteOp DB, ∀ db db', Inv db → op db = Ok db' → Inv db') (run_pending run).

Lemma last_lastn_snoc {A} (n : nat) (l : list A) x :
  (0 < n)%nat → last (lastn n (l ++ [x])) = Some x.
Proof.
  intros Hn. unfold lastn. rewrite length_app. simpl.
  rewrite drop_app_le by lia. apply last_snoc.
Qed.

Lemma agrees_transition db o old nv cs db1 db2 :
  history_agrees db →
  persist_controller_state db o old nv cs = Ok (true, db1) →
  persist_state_history db1 o nv cs = Ok db2 →
  history_agrees db2.
Proof.
  intros Hag Hp Hh. apply persist_true in Hp as (_ & Hnew & Hother & Hhist).
  apply persist_history in Hh as (Hsnoc & Hhother & Hcs).
  intros o' v. rewrite Hcs. destruct (decide (o' = o)) as [->|Hne].
  - rewrite Hnew, Hsnoc. intros [= <-]. apply last_lastn_snoc. unfold history_keep_limit. lia.
  - rewrite Hother, Hhother, Hhist by done. apply Hag.
Qed.

Lemma agrees_outcome db o oc db' :
  history_agrees db → persist_outcome db o oc = Ok db' → history_agrees db'.
Proof.
  intros Hag Hp. apply persist_outcome_only in Hp as (Hcs & Hhist & _ & _).
  intros o' v. rewrite Hcs, Hhist. apply Hag.
Qed.

Context (handler : Handler DB ObjectId State CS) (clk : Clock) (o : ObjectId).

Lemma safe_load Inv : safe Inv (λ _, True) (load (IO := IO) clk o).
Proof.
  eapply safe_bind; [apply safe_begin|]. intros txn Ht.
  eapply (safe_bind _ (λ _, True)); [by apply safe_statement|]. intros [s|] _; [|apply safe_throw].
  eapply (safe_bind _ (λ _, True)); [by apply safe_statement|]. intros v _.
  eapply safe_bind; [apply safe_update_metrics|]. intros _ _.
  eapply safe_bind; [by apply safe_commit|]. intros _ _. by apply safe_ret.
Qed.

Lemma safe_call_handler Inv s cs :
  handler_keeps Inv handler →
  safe Inv (λ run, (∀ oc, run_output run = Ok oc → ∀ txn, fst (take_transaction oc) = Some txn → Inv txn) ∧
      Forall (λ op : WriteOp DB, ∀ db db', Inv db → op db = Ok db' → Inv db') (run_pending run))
    (call_handler handler o s cs).
Proof.
  intros Hh w Hw. unfold call_handler. destruct (next_verdict w) as [v w1] eqn:Hv.
  apply (next_verdict_good Inv) in Hv as ([Hc Ho] & Hi & _); [|done].
  destruct (Hh o s cs (interference v (committed w1)) (Hi _ Hc)) as (Hrun & Htxn & Hpend).
  assert (Hrun' : good Inv (set_committed (run_committed
            (handler o s cs (interference v (committed w1)))) w1)) by (by split).
  assert (Hi' : good Inv (set_committed (interference v (committed w1)) w1))
    by (split; [by apply Hi | done]).
  destruct (fate v); (split; [done|]); simpl; intros run [= <-]; done.
Qed.

Lemma safe_outcome_txn Inv run :
  (∀ oc, run_output run = Ok oc → ∀ txn, fst (take_transaction oc) = Some txn → Inv txn) →
  Forall (λ op : WriteOp DB, ∀ db db', Inv db → op db = Ok db' → Inv db') (run_pending run) →
  safe Inv (λ p, Inv (snd p)) (outcome_txn (State := State) (CS := CS) run).
Proof.
  intros Htxn Hpend. unfold outcome_txn. destruct (run_output run) as [oc|e].
  - specialize (Htxn oc eq_refl). destruct (take_transaction oc) as [t oc']. simpl in Htxn.
    apply (safe_bind Inv Inv); [destruct t; [apply safe_ret; auto | apply safe_begin]|].
    intros txn Ht. eapply safe_bind; [by apply safe_apply_pending|].
    intros [txn'|e] Hr; apply safe_ret; simpl; auto.
  - eapply safe_bind; [apply safe_begin|]. intros txn Ht. by apply safe_ret.
Qed.

Lemma safe_persist_transition s cs next txn :
  history_agrees txn →
  safe history_agrees (λ p, history_agrees (snd p)) (persist_transition clk o s cs next txn).
Proof.
  intros Hag. unfold persist_transition.
  eapply safe_bind; [by apply safe_statement; intros p Hp; exact Hp|].
  intros [[] txn1] Hp.
  - eapply safe_bind; [by apply safe_statement; intros p Hh; exact Hh|].
    intros txn2 Hh. apply safe_ret. simpl. by eapply agrees_transition.
  - eapply safe_bind; [apply safe_update_metrics|]. intros _ _. apply safe_ret.
    by apply persist_false in Hp as [-> _].
Qed.

(** Invariants that do not depend on the stored outcomes. *)
Definition ignores_outcome (Inv : DB → Prop) : Prop :=
  ∀ db oc db', Inv db → persist_outcome db o oc = Ok db' → Inv db'.

Lemma safe_store_outcome Inv r txn :
  ignores_outcome Inv → Inv txn → safe Inv Inv (store_outcome o r txn).
Proof.
  intros Hig Hag. unfold store_outcome. destruct (from_result r); [|apply safe_panic].
  apply safe_statement. intros txn'. by apply Hig.
Qed.

Lemma safe_commit_outcome Inv b r txn :
  ignores_outcome Inv → Inv txn → safe Inv (λ _, True) (commit_outcome o b r txn).
Proof.
  intros Hig Hag. unfold commit_outcome. destruct b; [|destruct (negb _)].
  - eapply (safe_bind _ Inv); [|intros; by apply safe_commit].
    destruct (is_deleted r); [by apply safe_ret | by apply safe_store_outcome].
  - eapply safe_bind; [apply safe_rollback|]. intros _ _.
    eapply safe_bind; [apply safe_begin|]. intros txn' Hag'.
    eapply safe_bind; [by apply safe_store_outcome|]. intros. by apply safe_commit.
  - by apply safe_ret.
Qed.

Lemma safe_handle :
  handler_keeps history_agrees handler → safe history_agrees (λ _, True) (handle handler clk o).
Proof.
  intros Hh. unfold handle. eapply safe_bind; [apply safe_load|]. intros [[s cs] st] _.
  eapply safe_bind; [by apply safe_call_handler|]. intros run [Htxn Hpend].
  eapply safe_bind; [by apply safe_outcome_txn|]. intros [outcome txn] Hag. simpl in Hag.
  apply (safe_bind history_agrees (λ p : option (CS * Z * option Z) * DB, history_agrees (snd p))).
  - destruct outcome as [[]|]; try (by apply safe_ret). by apply safe_persist_transition.
  - intros [next txn'] Hag'. eapply safe_bind.
    { apply safe_commit_outcome; [|done]. intros db oc db'. apply agrees_outcome. }
    intros _ _.
    eapply safe_bind; [apply safe_update_metrics|]. intros _ _. by apply safe_ret.
Qed.
End Consistency.

(** ** A reported transition is in the database *)

Section Metrics.
Context {DB CS : Type}.

(** Steps that leave the metrics alone. *)
Definition same_metrics {A} (m : Step DB CS A) : Prop :=
  ∀ w, metrics (snd (m w)) = metrics w.

Lemma same_metrics_bind {A B} (m : Step DB CS A) (f : A → Step DB CS B) :
  same_metrics m → (∀ a, same_metrics (f a)) → same_metrics (m ≫= f).
Proof.
  intros Hm Hf w. specialize (Hm w). unfold mbind, step_bind.
  destruct (m w) as [[a|e| |] w1]; simpl in *; try done. by rewrite Hf.
Qed.

Lemma same_metrics_ret {A} (a : A) : same_metrics (mret a).
Proof. done. Qed.

Lemma same_metrics_panic {A} : same_metrics (panic (A := A)).
Proof. done. Qed.

Lemma next_verdict_metrics (w : World DB CS) : metrics (snd (next_verdict w)) = metrics w.
Proof. unfold next_verdict. by destruct (oracle w). Qed.

Ltac by_verdict :=
  intros w; pose proof (next_verdict_metrics w) as Hm;
  destruct (next_verdict w) as [v w1]; simpl in *; by destruct (fate v) as [|? []|[]].

Lemma same_metrics_begin : same_metrics begin.
Proof. unfold begin. by_verdict. Qed.

Lemma same_metrics_statement {A} (q : result string A) : same_metrics (statement q).
Proof. unfold statement. destruct q; by_verdict. Qed.

Lemma same_metrics_commit txn : same_metrics (commit txn).
Proof. unfold commit. by_verdict. Qed.

Lemma same_metrics_rollback : same_metrics rollback.
Proof. unfold rollback. by_verdict. Qed.

Lemma same_metrics_apply_pending ws txn : same_metrics (apply_pending ws txn).
Proof. unfold apply_pending. by_verdict. Qed.
End Metrics.

Create HintDb same_metrics discriminated.
#[export] Hint Resolve same_metrics_bind same_metrics_ret same_metrics_panic same_metrics_begin
  same_metrics_statement same_metrics_commit same_metrics_rollback same_metrics_apply_pending
  : same_metrics.

Section Reported.
Context {DB ObjectId State CS : Type} `{IO : !StateControllerIO DB ObjectId State CS}.
Context (handler : Handler DB ObjectId State CS) (clk : Clock) (o : ObjectId).

Lemma same_metrics_call_handler s cs : same_metrics (call_handler handler o s cs).
Proof.
  intros w. unfold call_handler. pose proof (next_verdict_metrics w) as Hm.
  destruct (next_verdict w) as [v w1]. simpl in *. by destruct (fate v).
Qed.

Lemma same_metrics_outcome_txn (run : HandlerRun DB State CS) : same_metrics (outcome_txn run).
Proof.
  unfold outcome_txn. destruct (run_output run) as [oc|e].
  - destruct (take_transaction oc) as [[t|] oc']; apply same_metrics_bind; auto with same_metrics;
      intros; apply same_metrics_bind; auto with same_metrics; intros []; auto with same_metrics.
  - auto with same_metrics.
Qed.

Lemma same_metrics_store_outcome r txn : same_metrics (store_outcome o r txn).
Proof. unfold store_outcome. destruct (from_result r); auto with same_metrics. Qed.
Hint Resolve same_metrics_store_outcome : same_metrics.

Lemma same_metrics_commit_outcome b r txn : same_metrics (commit_outcome o b r txn).
Proof.
  unfold commit_outcome. destruct b, (is_deleted r); simpl; auto 10 with same_metrics.
Qed.

(** What the metrics say when loading ended well, and that nothing is reported
    when it did not. *)
Lemma load_metrics db orc :
  let '(e, w) := load (IO := IO) clk o (mk_world db orc default_metrics) in
  match e with
  | Done (s, cs, st) =>
      initial_state (metrics w) = Some (value cs) ∧ next_state (metrics w) = None ∧
      transition_conflict (metrics w) = false ∧ error (metrics w) = None ∧
      m_above_sla (metrics w) = time_in_state_above_sla st ∧
      state_entered_at (metrics w) = Some (timestamp (version cs))
  | _ => next_state (metrics w) = None ∧ transition_conflict (metrics w) = false ∧
         error (metrics w) = None
  end.
Proof.
  unfold load, mbind, step_bind.
  pose proof (same_metrics_begin (CS := CS) (mk_world db orc default_metrics)) as H1.
  destruct (begin _) as [[txn|e| |] w1]; simpl in H1; try (by rewrite H1).
  pose proof (same_metrics_statement (load_object_state txn o) w1) as H2.
  destruct (statement _ w1) as [[[s|]|e| |] w2]; simpl in *; rewrite H1 in H2; try (by rewrite H2).
  pose proof (same_metrics_statement (load_controller_state txn o s) w2) as H3.
  destruct (statement _ w2) as [[cs|e| |] w3]; simpl in *; rewrite H2 in H3; try (by rewrite H3).
  set (w4 := mk_world _ _ _). pose proof (same_metrics_commit txn w4) as H5.
  destruct (commit txn w4) as [[[]|e| |] w5]; simpl in *; by rewrite H5, H3.
Qed.

(** What loading returned is what the database held when it began. *)
Definition db_at_load (db : DB) (orc : list (Verdict DB)) : DB :=
  match orc with [] => db | v :: _ => interference v db end.

Lemma load_reads db orc s cs st w :
  load (IO := IO) clk o (mk_world db orc default_metrics) = (Done (s, cs, st), w) →
  load_object_state (db_at_load db orc) o = Ok (Some s) ∧
  load_controller_state (db_at_load db orc) o s = Ok cs ∧
  st = state_sla (at_sla clk) cs s.
Proof.
  intros (txn & w1 & Hb & H)%step_bind_done.
  assert (txn = db_at_load db orc) as ->.
  { unfold begin, next_verdict in Hb. destruct orc as [|v orc]; simpl in *; [by simplify_eq|].
    destruct (fate v); by simplify_eq. }
  apply step_bind_done in H as ([s'|] & w2 & Hs & H); [|done].
  apply step_bind_done in H as (cs' & w3 & Hc & H).
  apply step_bind_done in H as ([] & w4 & _ & H).
  apply step_bind_done in H as ([] & w5 & _ & H).
  injection H as <- <- <- <-. apply statement_done in Hs, Hc. done.
Qed.

(** The steps between the handler and the report. *)
Lemma outcome_txn_done (run : HandlerRun DB State CS) w oc txn w' :
  outcome_txn run w = (Done (Ok oc, txn), w') →
  ∃ oc0, run_output run = Ok oc0 ∧ oc = snd (take_transaction oc0).
Proof.
  unfold outcome_txn. destruct (run_output run) as [oc0|e].
  - destruct (take_transaction oc0) as [t oc1] eqn:Ht.
    intros (txn0 & w1 & _ & (r & w2 & _ & H)%step_bind_done)%step_bind_done.
    exists oc0. rewrite Ht. destruct r; [by injection H as <- <- | discriminate H].
  - intros (txn0 & w1 & _ & H)%step_bind_done. discriminate H.
Qed.

Lemma commit_outcome_done r txn w w' :
  is_deleted r = false → commit_outcome o true r txn w = (Done (), w') →
  ∃ oc, from_result r = Some oc ∧ persist_outcome txn o oc = Ok (committed w').
Proof.
  intros Hdel (txn1 & w1 & Hs & Hc)%step_bind_done. apply commit_done in Hc as ->.
  rewrite Hdel in Hs. unfold store_outcome in Hs. destruct (from_result r) as [oc|]; [|done].
  apply statement_done in Hs. eauto.
Qed.

Lemma call_handler_done s cs w run w' :
  call_handler handler o s cs w = (Done run, w') → ∃ db1, run = handler o s cs db1.
Proof.
  unfold call_handler. destruct (next_verdict w) as [v w1].
  destruct (fate v); intros Hd; simplify_eq/=; eauto.
Qed.

(** A transition persists its state, then its history record, or it raises the
    conflict flag and reports nothing. *)
Lemma persist_transition_metrics s cs next txn w :
  let '(e, w') := persist_transition clk o s cs next txn w in
  (metrics w' = metrics w ∨ metrics w' = set_conflict (metrics w)) ∧
  ∀ r txn', e = Done (r, txn') →
    let nv := increment (at_increment clk) (version cs) in
    match r with
    | Some (n, entered, _) =>
        n = next ∧ entered = at_increment clk ∧ metrics w' = metrics w ∧
        ∃ txn1, persist_controller_state txn o (version cs) nv next = Ok (true, txn1) ∧
                persist_state_history txn1 o nv next = Ok txn'
    | None => metrics w' = set_conflict (metrics w) ∧
              persist_controller_state txn o (version cs) nv next = Ok (false, txn')
    end.
Proof.
  unfold persist_transition. set (nv := increment _ _). unfold mbind, step_bind.
  set (q := persist_controller_state _ _ _ _ _).
  pose proof (same_metrics_statement q w) as H1.
  pose proof (λ a w', statement_done q w a w') as Hd1.
  destruct (statement q w) as [[[[] txn1]|e| |] w1]; simpl in *; try (split; [by auto | discriminate]).
  - set (q2 := persist_state_history _ _ _ _).
    pose proof (same_metrics_statement q2 w1) as H2.
    pose proof (λ a w', statement_done q2 w1 a w') as Hd2.
    destruct (statement q2 w1) as [[txn2|e| |] w2]; simpl in *; rewrite H1 in H2;
      try (split; [by auto | discriminate]).
    split; [by auto|]. intros r txn' [= <- <-]. simpl. split_and!; eauto.
  - rewrite H1. split; [by auto|]. intros r txn' [= <- <-]. split; [done|]. eauto.
Qed.
End Reported.

Section Handle.
Context {DB ObjectId State CS : Type} `{IO : !StateControllerIO DB ObjectId State CS}.
Context (handler : Handler DB ObjectId State CS) (clk : Clock) (o : ObjectId).

Definition transition_step (run : HandlerRun DB State CS) (cs : Versioned CS)
    (outcome : result StateHandlerError (StateHandlerOutcome DB CS)) (txn : DB)
    : Step DB CS (option (CS * Z * option Z) * DB) :=
  match outcome with
  | Ok (Transition next _ _) => persist_transition clk o (run_state run) cs next txn
  | _ => mret (None, txn)
  end.

Definition finish_step (st : StateSla)
    (outcome : result StateHandlerError (StateHandlerOutcome DB CS))
    (p : option (CS * Z * option Z) * DB)
    : Step DB CS (result StateHandlerError (StateHandlerOutcome DB CS)) :=
  let '(next, txn) := p in
  let is_success := is_ok outcome in
  let outcome := sla_outcome (time_in_state_above_sla st) outcome in
  commit_outcome o is_success outcome txn;;
  update_metrics (report_next next);;
  mret outcome.

(** The last steps report [next] exactly when the commit is confirmed. *)
Lemma finish_step_metrics st outcome next txn w :
  let '(e, w') := finish_step st outcome (next, txn) w in
  match e with
  | Done r => r = sla_outcome (time_in_state_above_sla st) outcome ∧
              metrics w' = report_next next (metrics w) ∧
              ∃ w1, commit_outcome o (is_ok outcome) r txn w = (Done (), w1) ∧
                    committed w' = committed w1
  | _ => metrics w' = metrics w
  end.
Proof.
  unfold finish_step. set (oc := sla_outcome _ _). unfold mbind, step_bind.
  pose proof (same_metrics_commit_outcome o (is_ok outcome) oc txn w) as H1.
  destruct (commit_outcome _ _ _ _ _) as [[[]|e| |] w1] eqn:Hc; simpl in *; try done.
  rewrite H1. split_and!; eauto.
Qed.

Lemma finish_step_none st outcome txn w e w' :
  finish_step st outcome (None, txn) w = (e, w') → next_state (metrics w) = None →
  next_state (metrics w') = None ∧
  transition_conflict (metrics w') = transition_conflict (metrics w) ∧
  error (metrics w') = error (metrics w).
Proof.
  intros Hf Hn. pose proof (finish_step_metrics st outcome None txn w) as H. rewrite Hf in H.
  destruct e; [destruct H as (_ & H & _)|..]; by rewrite H.
Qed.

(** [handle] runs the loading, the handler and the opening of the transaction
    without touching what it reports, and then the last two steps. *)
Lemma handle_cases db orc :
  let w0 := mk_world db orc default_metrics in
  let '(e, w') := handle handler clk o w0 in
  (next_state (metrics w') = None ∧ transition_conflict (metrics w') = false ∧
   error (metrics w') = None ∧ ∀ r, e ≠ Done r) ∨
  ∃ s cs st run outcome txn w1 w2 w3,
    load clk o w0 = (Done (s, cs, st), w1) ∧
    call_handler handler o s (value cs) w1 = (Done run, w2) ∧
    outcome_txn run w2 = (Done (outcome, txn), w3) ∧
    metrics w3 = metrics w1 ∧
    (transition_step run cs outcome txn ≫= finish_step st outcome) w3 = (e, w').
Proof.
  simpl. unfold handle, mbind, step_bind.
  pose proof (load_metrics (IO := IO) clk o db orc) as Hl.
  destruct (load _ _ _) as [[[[s cs] st]|e| |] w1] eqn:Hload; simpl in *; try (left; naive_solver).
  pose proof (same_metrics_call_handler handler o s (value cs) w1) as Hm2.
  destruct (call_handler _ _ _ _ _) as [[run|e| |] w2] eqn:Hcall; simpl in *;
    rewrite <- Hm2 in Hl; try (left; naive_solver).
  pose proof (same_metrics_outcome_txn run w2) as Hm3.
  destruct (outcome_txn _ _) as [[[outcome txn]|e| |] w3] eqn:Ho; simpl in *;
    rewrite <- Hm3 in Hl; try (left; naive_solver).
  match goal with |- let '(_, _) := ?x in _ => destruct x as [e w'] eqn:He end.
  right. exists s, cs, st, run, outcome, txn, w1, w2, w3.
  split_and!; [done..|congruence|]. rewrite <- He. unfold transition_step, finish_step.
  unfold mbind, step_bind. destruct outcome as [[]|]; done.
Qed.

(** When a transition is reported. *)
Lemma handle_reported db orc e w' n :
  handle handler clk o (mk_world db orc default_metrics) = (e, w') →
  next_state (metrics w') = Some n →
  ∃ s cs db1 l t txn txn1 txn2 oc,
    load_object_state (db_at_load db orc) o = Ok (Some s) ∧
    load_controller_state (db_at_load db orc) o s = Ok cs ∧
    run_output (handler o s (value cs) db1) = Ok (Transition n l t) ∧
    let nv := increment (at_increment clk) (version cs) in
    persist_controller_state txn o (version cs) nv n = Ok (true, txn1) ∧
    persist_state_history txn1 o nv n = Ok txn2 ∧
    persist_outcome txn2 o oc = Ok (committed w') ∧
    e = Done (Ok (Transition n l None)) ∧
    initial_state (metrics w') = Some (value cs) ∧
    transition_conflict (metrics w') = false ∧ error (metrics w') = None ∧
    state_entered_at (metrics w') = Some (at_increment clk).
Proof.
  intros Hh Hn. pose proof (handle_cases db orc) as Hc. simpl in Hc. rewrite Hh in Hc.
  destruct Hc as [(Hnone & _)|(s & cs & st & run & outcome & txn & w1 & w2 & w3 & Hl & Hr & Ho & Hm & He)];
    [congruence|].
  pose proof (load_metrics (IO := IO) clk o db orc) as Hlm. rewrite Hl, <- Hm in Hlm.
  destruct Hlm as (Hinit & Hnone & Hconf & Herr & _ & _).
  apply load_reads in Hl as (Hs & Hcs & _). apply call_handler_done in Hr as [db1 ->].
  unfold mbind, step_bind in He.
  destruct (transition_step _ cs outcome txn w3) as [et w4] eqn:Ht.
  destruct outcome as [[| next l t | |]|]; simpl in Ht;
    [injection Ht as <- <-| |injection Ht as <- <-..].
  2: {
    apply outcome_txn_done in Ho as (oc0 & Hoc0 & Htake).
    pose proof (persist_transition_metrics clk o
      (run_state (handler o s (value cs) db1)) cs next txn w3) as Hpt.
    rewrite Ht in Hpt. destruct Hpt as [Hpm Hpd].
    destruct et as [[r txn2]|e'| |]; [|destruct Hpm as [Hpm|Hpm]; simplify_eq; rewrite Hpm in Hn;
                                    simpl in Hn; congruence..].
    specialize (Hpd r txn2 eq_refl).
    pose proof (finish_step_metrics st (Ok (Transition next l t)) r txn2 w4) as Hf.
    rewrite He in Hf. destruct e as [r'|e'| |];
      [|destruct Hpm as [Hpm|Hpm]; rewrite Hf, Hpm in Hn; simpl in Hn; congruence..].
    destruct Hf as (-> & Hmf & w5 & Hco & Hcm). rewrite Hmf in *.
    destruct r as [[[n' ent] sl]|]; [|discriminate Hn].
    destruct Hpd as (-> & -> & Hpm' & txn1 & Hp1 & Hp2).
    apply commit_outcome_done in Hco as (oc & _ & Hoc); [|done]. rewrite <- Hcm in Hoc.
    injection Hn as ->. destruct oc0 as [| n0 l0 t0 | |]; simplify_eq/=.
    rewrite Hpm'. exists s, cs, db1, l0, t0, txn, txn1, txn2, oc. done. }
  all: apply finish_step_none in He as [He _]; [congruence|done].
Qed.

Lemma finish_step_safe Inv st outcome txn w e w' :
  ignores_outcome o Inv → good Inv w → Inv (snd txn) →
  finish_step st outcome txn w = (e, w') → Inv (committed w').
Proof.
  intros Hig Hg Ht Hf. destruct txn as [next txn].
  assert (Hs : safe Inv (λ _, True) (finish_step st outcome (next, txn))).
  { eapply safe_bind; [by apply safe_commit_outcome|]. intros _ _.
    eapply safe_bind; [apply safe_update_metrics|]. intros _ _. by apply safe_ret. }
  destruct (Hs w Hg) as [[Hc _] _]. by rewrite Hf in Hc.
Qed.

Lemma persist_transition_committed s cs next txn Inv w :
  good Inv w → good Inv (snd (persist_transition clk o s cs next txn w)).
Proof.
  assert (Hs : safe (CS := CS) Inv (λ _, True) (persist_transition clk o s cs next txn));
    [|by apply Hs].
  unfold persist_transition. eapply (safe_bind _ (λ _, True)); [by apply safe_statement|].
  intros [[] txn1] _; (eapply (safe_bind _ (λ _, True));
    [first [by apply safe_statement | apply safe_update_metrics]|intros; by apply safe_ret]).
Qed.

(** The steps after the transaction was opened. *)
Lemma transition_frame `{V : !ObjectView DB ObjectId CS, Laws : !StateControllerIOLaws DB ObjectId State CS}
    Inv run cs st outcome txn w e w' :
  ignores_outcome o Inv → good Inv w → Inv txn → transition_conflict (metrics w) = false →
  (transition_step run cs outcome txn ≫= finish_step st outcome) w = (e, w') →
  transition_conflict (metrics w') = true ∨ (∀ n l t, outcome ≠ Ok (Transition n l t)) →
  Inv (committed w').
Proof.
  intros Hig Hg Htxn Hconf H Hwhy.
  destruct outcome as [[r l t|next l t|l t|l t]|er] eqn:Hoc; simpl in H;
    try (eapply (finish_step_safe _ _ _ (None, txn) w); [done..|exact H]).
  destruct Hwhy as [Hwhy|Hno]; [|by destruct (Hno next l t)].
  unfold mbind, step_bind in H.
  pose proof (persist_transition_metrics clk o (run_state run) cs next txn w) as Hpt.
  pose proof (persist_transition_committed (run_state run) cs next txn Inv w Hg) as Hg4.
  destruct (persist_transition _ _ _ _ _ _ w) as [[[r txn']|x| |] w4];
    [|injection H as <- <-; apply Hg4..].
  destruct Hpt as [_ Hpd]. specialize (Hpd r txn' eq_refl).
  pose proof (finish_step_metrics st (Ok (Transition next l t)) r txn' w4) as Hf.
  rewrite H in Hf. destruct r as [[[n ent] sl]|].
  - destruct Hpd as (_ & _ & Hpm & _).
    destruct e; [destruct Hf as (_ & Hf & _)|..]; rewrite Hf in Hwhy; simpl in Hwhy; congruence.
  - destruct Hpd as (_ & [-> _]%persist_false). 
    eapply (finish_step_safe _ _ _ (None, txn) w4); [done..|exact H].
Qed.

(** Without a transition, or when it lost the optimistic lock, the run breaks no
    invariant about states and histories that the others keep. *)
Lemma handle_frame `{V : !ObjectView DB ObjectId CS, Laws : !StateControllerIOLaws DB ObjectId State CS}
    Inv db orc e w' :
  ignores_outcome o Inv → handler_keeps Inv handler →
  good Inv (mk_world db orc (default_metrics (CS := CS))) →
  handle handler clk o (mk_world db orc default_metrics) = (e, w') →
  transition_conflict (metrics w') = true ∨
  (∀ s cs db n l t, run_output (handler o s cs db) ≠ Ok (Transition n l t)) →
  Inv (committed w').
Proof.
  intros Hig Hh Hg He. pose proof (load_metrics (IO := IO) clk o db orc) as Hlm.
  set (R := λ (_ : Ending (result StateHandlerError (StateHandlerOutcome DB CS))) (w' : World DB CS),
    transition_conflict (metrics w') = true ∨
    (∀ s cs db n l t, run_output (handler o s cs db) ≠ Ok (Transition n l t)) →
    Inv (committed w')).
  refine (run_bind Inv _ R _ _ _ _ _ (safe_load clk o Inv) Hg He _ _); [|by intros [? _] _].
  intros [[s cs] st] w1 _ Hg1 Hl H1. rewrite Hl in Hlm. destruct Hlm as (_ & _ & Hconf & _).
  refine (run_bind Inv _ R _ _ _ _ _ (safe_call_handler handler o Inv s (value cs) Hh) Hg1 H1 _ _);
    [|by intros [? _] _].
  intros run w2 [Htxn Hpend] Hg2 Hr H2.
  refine (run_bind Inv _ R _ _ _ _ _ (safe_outcome_txn Inv run Htxn Hpend) Hg2 H2 _ _);
    [|by intros [? _] _].
  intros [outcome txn] w3 Hag Hg3 Ho H3. simpl in Hag.
  pose proof (same_metrics_call_handler handler o s (value cs) w1) as Hm2. rewrite Hr in Hm2.
  pose proof (same_metrics_outcome_txn run w2) as Hm3. rewrite Ho in Hm3. simpl in Hm2, Hm3.
  apply call_handler_done in Hr as [db1 ->]. rewrite <- Hm2, <- Hm3 in Hconf.
  intros Hwhy. eapply transition_frame; [done..|exact H3|].
  destruct Hwhy as [?|Hno]; [by left|right]. intros n l t ->.
  apply outcome_txn_done in Ho as ([] & Hoc & ?); simplify_eq/=. by eapply Hno.
Qed.

(** *** What can become committed *)

(** The transaction that the outcome [oc] of the handler run is persisted in: its
    own, or one begun for it, with the deferred writes. *)
Definition run_txn (Inv : DB → Prop) (run : HandlerRun DB State CS)
    (oc : StateHandlerOutcome DB CS) (txn : DB) : Prop :=
  ∃ base, (fst (take_transaction oc) = Some base ∨ fst (take_transaction oc) = None ∧ Inv base) ∧
    apply_all (run_pending run) base = Ok txn.

(** The transaction after the transition that [oc] asks for. *)
Definition transition_txn (cs : Versioned CS) (oc : StateHandlerOutcome DB CS) (txn txn' : DB) : Prop :=
  match oc with
  | Transition n _ _ =>
      let nv := increment (at_increment clk) (version cs) in
      persist_controller_state txn o (version cs) nv n = Ok (false, txn') ∨
      ∃ txn1, persist_controller_state txn o (version cs) nv n = Ok (true, txn1) ∧
              persist_state_history txn1 o nv n = Ok txn'
  | _ => txn' = txn
  end.

(** The contents after the outcome is stored. *)
Definition outcome_stored (oc : StateHandlerOutcome DB CS) (txn db' : DB) : Prop :=
  match oc with
  | Deleted _ _ => db' = txn
  | _ => ∃ p, persist_outcome txn o p = Ok db'
  end.

Lemma safe_call_handler_at Inv s cs :
  (∀ db, Inv db → Inv (run_committed (handler o s cs db))) →
  safe Inv (λ run, ∃ db1, Inv db1 ∧ run = handler o s cs db1) (call_handler handler o s cs).
Proof.
  intros Hh w Hw. unfold call_handler. destruct (next_verdict w) as [v w1] eqn:Hv.
  apply (next_verdict_good Inv) in Hv as ([Hc Ho] & Hi & _); [|done].
  pose proof (Hi _ Hc) as Hc1. pose proof (Hh _ Hc1) as Hc2.
  destruct (fate v); (split; [by split|]); simpl; intros run [= <-]; eauto.
Qed.

Lemma safe_outcome_txn_of Inv (run : HandlerRun DB State CS) :
  safe Inv (λ p, ∀ oc, fst p = Ok oc → ∃ oc0, run_output run = Ok oc0 ∧
                         oc = snd (take_transaction oc0) ∧ run_txn Inv run oc0 (snd p))
    (outcome_txn run).
Proof.
  unfold outcome_txn, run_txn. destruct (run_output run) as [oc0|e].
  - destruct (take_transaction oc0) as [t oc1] eqn:Ht.
    apply (safe_bind Inv (λ base, t = Some base ∨ t = None ∧ Inv base)).
    { destruct t; [apply safe_ret; by left|].
      intros w Hw. destruct (safe_begin (CS := CS) Inv w Hw) as [? Hb]. split; [done|]. eauto. }
    intros base Hbase w Hw. unfold apply_pending, mbind, step_bind.
    destruct (next_verdict w) as [v w1] eqn:Hv.
    apply (next_verdict_good Inv) in Hv as (Hg & _ & _); [|done].
    destruct (fate v); simpl; [destruct (apply_all _ base) as [txn'|e] eqn:Hap|..]; simpl;
      (split; [done|]); try done; intros p [= <-]; simpl; try done.
    intros oc [= <-]. exists oc0. rewrite Ht. eauto 10.
  - eapply safe_bind; [apply safe_begin|]. intros txn _. by apply safe_ret.
Qed.

Lemma safe_transition_step Inv run cs oc txn :
  safe Inv (λ p, transition_txn cs oc txn (snd p))
    (transition_step run cs (Ok (snd (take_transaction oc))) txn).
Proof.
  unfold transition_step. destruct oc as [| next l t | |]; simpl; try (by apply safe_ret).
  unfold persist_transition. eapply safe_bind; [by apply safe_statement; intros p Hp; exact Hp|].
  intros [[] txn1] Hp.
  - eapply safe_bind; [by apply safe_statement; intros p Hh; exact Hh|].
    intros txn2 Hh. apply safe_ret. right. eauto.
  - eapply safe_bind; [apply safe_update_metrics|]. intros _ _. apply safe_ret. by left.
Qed.

(** A commit is performed or not; nothing follows it. *)
Lemma commit_either (Inv : DB → Prop) (txn : DB) w e w' :
  good (CS := CS) Inv w → commit txn w = (e, w') → Inv (committed w') ∨ committed w' = txn.
Proof.
  unfold commit. destruct (next_verdict w) as [v w1] eqn:Hv. intros Hw.
  apply (next_verdict_good Inv) in Hv as ([Hc _] & _ & _); [|done].
  destruct (fate v) as [|? []|[]]; intros [= <- <-]; simpl; auto.
Qed.

Lemma finish_step_either Inv st oc next txn w e w' :
  good Inv w → finish_step st (Ok (snd (take_transaction oc))) (next, txn) w = (e, w') →
  Inv (committed w') ∨ outcome_stored oc txn (committed w').
Proof.
  intros Hw He. unfold finish_step in He. cbn [is_ok] in He.
  set (r := sla_outcome (time_in_state_above_sla st) (Ok (snd (take_transaction oc)))) in He.
  assert (Hc : ∃ ec wc, commit_outcome o true r txn w = (ec, wc) ∧ committed w' = committed wc).
  { unfold mbind, step_bind, update_metrics, mret, step_ret in He.
    destruct (commit_outcome o true r txn w) as [[] wc]; simplify_eq/=; eauto. }
  destruct Hc as (ec & wc & Hc & ->). unfold commit_outcome in Hc.
  set (R := λ (_ : Ending ()) (w' : World DB CS),
              Inv (committed w') ∨ outcome_stored oc txn (committed w')).
  refine (run_bind Inv (λ txn', outcome_stored oc txn txn') R _ _ _ _ _ _ Hw Hc _ _);
    [|intros txn' w1 Hs Hw1 _ Hcm|by intros [? _]; left].
  - assert (is_deleted r = match oc with Deleted _ _ => true | _ => false end) as ->.
    { unfold r, sla_outcome. by destruct oc, (time_in_state_above_sla st). }
    destruct oc; simpl; try (unfold store_outcome; destruct (from_result r); [|apply safe_panic];
      apply safe_statement; by eauto). by apply safe_ret.
  - destruct (commit_either Inv _ _ _ _ Hw1 Hcm) as [?|Heq]; [by left|]. right. by rewrite Heq.
Qed.

Lemma safe_finish_failed Inv st er next txn :
  ignores_outcome o Inv → safe Inv (λ _, True) (finish_step st (Err er) (next, txn)).
Proof.
  intros Hig. unfold finish_step, commit_outcome. simpl.
  apply (safe_bind _ (λ _, True)); [|intros _ _; eapply safe_bind; [apply safe_update_metrics|];
    intros _ _; by apply safe_ret].
  eapply safe_bind; [apply safe_rollback|]. intros _ _.
  eapply safe_bind; [apply safe_begin|]. intros txn' Hag'.
  eapply safe_bind; [by apply safe_store_outcome|]. intros. by apply safe_commit.
Qed.

(** Either the run changed nothing that [Inv] speaks about, or what is committed in
    the end is the transaction of a handler that was called on the loaded object,
    after the transition it asked for and with an outcome. *)
Lemma handle_committed Inv db orc e w' :
  ignores_outcome o Inv → (∀ s cs db, Inv db → Inv (run_committed (handler o s cs db))) →
  good Inv (mk_world db orc (default_metrics (CS := CS))) →
  handle handler clk o (mk_world db orc default_metrics) = (e, w') →
  Inv (committed w') ∨
  ∃ s cs db1 oc txn txn',
    load_object_state (db_at_load db orc) o = Ok (Some s) ∧
    load_controller_state (db_at_load db orc) o s = Ok cs ∧
    Inv db1 ∧ run_output (handler o s (value cs) db1) = Ok oc ∧
    run_txn Inv (handler o s (value cs) db1) oc txn ∧
    transition_txn cs oc txn txn' ∧ outcome_stored oc txn' (committed w').
Proof.
  intros Hig Hh Hg He.
  set (R := λ (_ : Ending (result StateHandlerError (StateHandlerOutcome DB CS))) (w' : World DB CS),
    Inv (committed w') ∨ ∃ s cs db1 oc txn txn',
      load_object_state (db_at_load db orc) o = Ok (Some s) ∧
      load_controller_state (db_at_load db orc) o s = Ok cs ∧
      Inv db1 ∧ run_output (handler o s (value cs) db1) = Ok oc ∧
      run_txn Inv (handler o s (value cs) db1) oc txn ∧
      transition_txn cs oc txn txn' ∧ outcome_stored oc txn' (committed w')).
  refine (run_bind Inv _ R _ _ _ _ _ (safe_load clk o Inv) Hg He _ _); [|by intros [? _]; left].
  intros [[s cs] st] w1 _ Hg1 Hl H1. apply load_reads in Hl as (Hs & Hcs & _).
  refine (run_bind Inv _ R _ _ _ _ _ (safe_call_handler_at Inv s (value cs) (Hh s (value cs))) Hg1 H1 _ _);
    [|by intros [? _]; left].
  intros run w2 (db1 & Hdb1 & ->) Hg2 _ H2.
  refine (run_bind Inv _ R _ _ _ _ _ (safe_outcome_txn_of Inv _) Hg2 H2 _ _); [|by intros [? _]; left].
  intros [[oc'|er] txn] w3 Hoc Hg3 _ H3.
  - destruct (Hoc oc' eq_refl) as (oc & Hout & -> & Htxn). simpl in Htxn.
    refine (run_bind Inv _ R _ _ _ _ _ (safe_transition_step Inv (handler o s (value cs) db1) cs oc txn)
              Hg3 _ _ _); [|intros [next txn'] w4 Ht Hg4 _ H4|by intros [? _]; left].
    + rewrite <- H3. unfold transition_step, finish_step. by destruct oc.
    + destruct (finish_step_either Inv st oc next txn' w4 e w' Hg4 H4) as [?|Hst]; [by left|].
      right. exists s, cs, db1, oc, txn, txn'. done.
  - left. destruct (safe_finish_failed Inv st er None txn Hig w3 Hg3) as [[Hc _] _].
    change (finish_step st (Err er) (None, txn) w3 = (e, w')) in H3. by rewrite H3 in Hc.
Qed.
End Handle.

(** ** No panic *)

Section NoPanic.
Context {DB CS : Type}.

Definition no_panic {A} (m : Step DB CS A) : Prop := ∀ w, fst (m w) ≠ Panicked.

Lemma no_panic_bind {A B} (m : Step DB CS A) (f : A → Step DB CS B) :
  no_panic m → (∀ a, no_panic (f a)) → no_panic (m ≫= f).
Proof.
  intros Hm Hf w. specialize (Hm w). unfold mbind, step_bind.
  destruct (m w) as [[a|e| |] w1]; simpl in *; [apply Hf | done..].
Qed.

Lemma no_panic_ret {A} (a : A) : no_panic (mret a).
Proof. done. Qed.

Lemma no_panic_throw {A} e : no_panic (throw (A := A) e).
Proof. done. Qed.

Lemma no_panic_update_metrics f : no_panic (update_metrics f).
Proof. done. Qed.

Ltac by_fate :=
  intros w; destruct (next_verdict w) as [v w1]; by destruct (fate v).

Lemma no_panic_begin : no_panic begin.
Proof. unfold begin. by_fate. Qed.

Lemma no_panic_statement {A} (q : result string A) : no_panic (statement q).
Proof. unfold statement. destruct q; by_fate. Qed.

Lemma no_panic_commit txn : no_panic (commit txn).
Proof. unfold commit. by_fate. Qed.

Lemma no_panic_rollback : no_panic rollback.
Proof. unfold rollback. by_fate. Qed.

Lemma no_panic_apply_pending ws txn : no_panic (apply_pending ws txn).
Proof. unfold apply_pending. by_fate. Qed.
End NoPanic.

Create HintDb no_panic discriminated.
#[export] Hint Resolve no_panic_bind no_panic_ret no_panic_throw no_panic_update_metrics
  no_panic_begin no_panic_statement no_panic_commit no_panic_rollback no_panic_apply_pending
  : no_panic.

Section HandleNoPanic.
Context {DB ObjectId State CS : Type} `{IO : !StateControllerIO DB ObjectId State CS}.
Context (handler : Handler DB ObjectId State CS) (clk : Clock) (o : ObjectId).

(** [from_result] reaches its [unreachable!()] only on [Deleted], which is never
    stored. *)
Lemma no_panic_store_outcome (r : result StateHandlerError (StateHandlerOutcome DB CS)) txn :
  is_deleted r = false → no_panic (store_outcome o r txn).
Proof. destruct r as [[]|]; intros [=]; apply no_panic_statement. Qed.

Lemma no_panic_commit_outcome b r txn : no_panic (commit_outcome (CS := CS) o b r txn).
Proof.
  unfold commit_outcome. destruct (is_deleted r) eqn:Hd, b; simpl;
    auto 10 using no_panic_store_outcome with no_panic.
Qed.

Lemma no_panic_handle : no_panic (handle handler clk o).
Proof.
  apply no_panic_bind.
  { apply no_panic_bind; [auto with no_panic|]. intros txn.
    apply no_panic_bind; [auto with no_panic|]. intros [s|]; auto 10 with no_panic. }
  intros [[s cs] st]. apply no_panic_bind.
  { intros w. unfold call_handler. destruct (next_verdict w) as [v w1]. by destruct (fate v). }
  intros run. apply no_panic_bind.
  { unfold outcome_txn. destruct (run_output run) as [oc|]; [|auto with no_panic].
    destruct (take_transaction oc) as [[] oc']; (apply no_panic_bind; [auto with no_panic|]);
      intros txn; (apply no_panic_bind; [auto with no_panic|]); intros []; auto with no_panic. }
  intros [outcome txn]. apply no_panic_bind.
  { destruct outcome as [[]|]; auto with no_panic. unfold persist_transition.
    apply no_panic_bind; [auto with no_panic|]. intros [[] ?]; auto with no_panic. }
  intros [next txn']. apply no_panic_bind; [apply no_panic_commit_outcome|auto with no_panic].
Qed.

(** [process_object] in terms of [handle]. *)
Lemma process_object_handle db orc :
  ∃ e w, handle handler clk o (mk_world db orc default_metrics) = (e, w) ∧
    ∃ h, process_object handler clk o db orc = Some h ∧
    h_db h = committed w ∧ h_events h = state_change_events clk o (metrics w) ∧
    next_state (h_metrics h) = next_state (metrics w) ∧
    initial_state (h_metrics h) = initial_state (metrics w) ∧
    transition_conflict (h_metrics h) = transition_conflict (metrics w) ∧
    state_entered_at (h_metrics h) = state_entered_at (metrics w) ∧
    (∀ r, e = Done (Ok r) → error (h_metrics h) = error (metrics w)) ∧
    ((∀ r, e ≠ Done (Ok r)) → is_Some (error (h_metrics h))) ∧
    h_recorder h = recorder_call o (match e with Done r => is_deleted r | _ => false end) (h_metrics h).
Proof.
  pose proof (no_panic_handle (mk_world db orc default_metrics)) as Hp.
  unfold process_object. destruct (handle _ _ _ _) as [e w] eqn:He. exists e, w. split; [done|].
  destruct e as [[r|er]|er| |]; [..|done]; eexists; (split; [reflexivity|]); simpl;
    split_and!; try done; intros; naive_solver.
Qed.
End HandleNoPanic.

(** ** The guarantees *)

Section Guarantees.
Context {DB ObjectId State CS : Type}
  `{IO : !StateControllerIO DB ObjectId State CS, V : !ObjectView DB ObjectId CS,
    Laws : !StateControllerIOLaws DB ObjectId State CS}.
Context (handler : Handler DB ObjectId State CS) (clk : Clock) (o : ObjectId).

(** Handling an object never panics, whatever fails and whenever the timeout
    strikes: in particular the stored outcome is never computed for a deleted
    object.  It emits at most one state change event, exactly when its metrics
    report a next state, and then it reports neither an error nor a conflict. *)
Theorem process_object_total (db : DB) (orc : list (Verdict DB)) :
  ∃ h, process_object handler clk o db orc = Some h ∧
    h_events h = match next_state (h_metrics h) with
                 | Some n => [mk_event o n (at_emit clk)]
                 | None => []
                 end ∧
    (is_Some (next_state (h_metrics h)) →
       error (h_metrics h) = None ∧ transition_conflict (h_metrics h) = false).
Proof.
  destruct (process_object_handle handler clk o db orc)
    as (e & w & Hw & h & Hh & _ & Hev & Hn & _ & Hc & _ & Herr & _).
  exists h. rewrite Hev, Hn, Hc. split_and!; [done..|]. intros [n Hsome].
  destruct (handle_reported handler clk o db orc e w n Hw Hsome)
    as (? & ? & ? & ? & ? & ? & ? & ? & ? & _ & _ & _ & _ & _ & _ & He & _ & Hcw & Herw & _).
  split; [|done]. rewrite (Herr _ He). done.
Qed.

(** C13: A reported transition happened: when handling reports the next state [n], the
    handler had decided for [n] on the controller state that was stored when the
    object was loaded; the database holds [n] at the incremented version of that
    state, its newest history record is this transition, the stored state had
    still the loaded version when it was replaced (no lost update), and the
    entry time reported is that of the new version. *)
Theorem reported_transition_committed (db : DB) (orc : list (Verdict DB)) h n
    (Hrun : process_object handler clk o db orc = Some h)
    (Hn : next_state (h_metrics h) = Some n) :
  ∃ cs s db1 l t txn,
    let nv := increment (at_increment clk) (version cs) in
    controller_state_of (db_at_load db orc) o = Some cs ∧
    initial_state (h_metrics h) = Some (value cs) ∧
    run_output (handler o s (value cs) db1) = Ok (Transition n l t) ∧
    (version <$> controller_state_of txn o) = Some (version cs) ∧
    controller_state_of (h_db h) o = Some (mk_versioned n nv) ∧
    history_of (h_db h) o = lastn history_keep_limit (history_of txn o ++ [(nv, n)]) ∧
    (∀ o', o' ≠ o → controller_state_of (h_db h) o' = controller_state_of txn o') ∧
    h_events h = [mk_event o n (at_emit clk)] ∧
    state_entered_at (h_metrics h) = Some (timestamp nv).
Proof.
  destruct (process_object_handle handler clk o db orc)
    as (e & w & Hw & h' & Hh & Hdb & Hev & Hnext & Hi & _ & Hent & _).
  assert (h' = h) as -> by congruence. rewrite Hn in Hnext. symmetry in Hnext.
  destruct (handle_reported handler clk o db orc e w n Hw Hnext)
    as (s & cs & db1 & l & t & txn & txn1 & txn2 & oc & Hs & Hcs & Hout & Hp & Hh' & Hoc & _ &
        Hinit & _ & _ & Hentered).
  apply persist_true in Hp as (Hver & Hnew & Hother & Hhist).
  apply persist_history in Hh' as (Hsnoc & _ & Hcs2).
  apply persist_outcome_only in Hoc as (Hcs3 & Hh3 & _ & _).
  exists cs, s, db1, l, t, txn. simpl. rewrite Hdb, Hcs3, Hcs2, Hh3, Hsnoc, Hhist.
  split_and!; try done.
  - by eapply load_current.
  - by rewrite Hi.
  - intros. by rewrite Hcs3, Hcs2, Hother.
  - rewrite Hev. unfold state_change_events. by rewrite Hnext.
  - by rewrite Hent, Hentered.
Qed.

(** C21: The controller state and the history of every object stay together: if the
    newest history record of every object is its state, and neither other
    transactions nor the handler break that, it still holds after the run, for
    every failure, timeout and unconfirmed commit. *)
Theorem history_agrees_after_run `{!EqDecision ObjectId} (db : DB) (orc : list (Verdict DB)) h
    (Hhandler : handler_keeps history_agrees handler)
    (Hothers : Forall (λ v, ∀ db, history_agrees db → history_agrees (interference v db)) orc)
    (Hdb : history_agrees db)
    (Hrun : process_object handler clk o db orc = Some h) :
  history_agrees (h_db h).
Proof.
  destruct (process_object_handle handler clk o db orc) as (e & w & Hw & h' & Hh & Hc & _).
  assert (h' = h) as -> by congruence. rewrite Hc.
  destruct (safe_handle handler clk o Hhandler (mk_world db orc default_metrics)) as [[Hg _] _].
  { by split. }
  by rewrite Hw in Hg.
Qed.

(** C25: A transition that lost the optimistic lock leaves no trace: no event, no
    next state, no gauge with the stale state, and every property of states and
    histories that the others maintain holds of the database, so the run did
    not overwrite the concurrent writer. *)
Theorem lost_transition_invisible (Inv : DB → Prop) (db : DB) (orc : list (Verdict DB)) h
    (Hout : ignores_outcome o Inv)
    (Hhandler : handler_keeps Inv handler)
    (Hothers : Forall (λ v, ∀ db, Inv db → Inv (interference v db)) orc)
    (Hdb : Inv db)
    (Hrun : process_object handler clk o db orc = Some h)
    (Hconflict : transition_conflict (h_metrics h) = true) :
  Inv (h_db h) ∧ h_events h = [] ∧ next_state (h_metrics h) = None ∧
  (h_recorder h = Touch (id_string o) ∨ h_recorder h = Clear (id_string o)).
Proof.
  destruct (process_object_handle handler clk o db orc)
    as (e & w & Hw & h' & Hh & Hc & Hev & Hn & _ & Hconf & _ & _ & _ & Hrec).
  assert (h' = h) as -> by congruence. rewrite Hconflict in Hconf. symmetry in Hconf.
  assert (Hnone : next_state (metrics w) = None).
  { destruct (next_state (metrics w)) as [n|] eqn:Hsome; [|done].
    destruct (handle_reported handler clk o db orc e w n Hw Hsome)
      as (? & ? & ? & ? & ? & ? & ? & ? & ? & _ & _ & _ & _ & _ & _ & _ & _ & Hcw & _).
    congruence. }
  split_and!.
  - rewrite Hc. eapply handle_frame; eauto. by split.
  - rewrite Hev. unfold state_change_events. by rewrite Hnone.
  - by rewrite Hn.
  - rewrite Hrec. unfold recorder_call. rewrite Hconflict. destruct (_ || _); auto.
Qed.

(** A handler that does not ask for a transition (it waits, fails, finds nothing
    to do, or its deferred writes fail) cannot change any state or history
    through the processor, whatever else happens in the run. *)
Theorem no_transition_keeps_states (Inv : DB → Prop) (db : DB) (orc : list (Verdict DB)) h
    (Hout : ignores_outcome o Inv)
    (Hhandler : handler_keeps Inv handler)
    (Hothers : Forall (λ v, ∀ db, Inv db → Inv (interference v db)) orc)
    (Hdb : Inv db)
    (Hrun : process_object handler clk o db orc = Some h)
    (Hno : ∀ s cs db n l t, run_output (handler o s cs db) ≠ Ok (Transition n l t)) :
  Inv (h_db h).
Proof.
  destruct (process_object_handle handler clk o db orc) as (e & w & Hw & h' & Hh & Hc & _).
  assert (h' = h) as -> by congruence. rewrite Hc. eapply handle_frame; eauto. by split.
Qed.

(** Runs without failures or interference. *)
Section FaultFree.
Context (db : DB) (s : State) (cs : Versioned CS).
Hypothesis Hload : load_object_state db o = Ok (Some s).
Hypothesis Hcs : load_controller_state db o s = Ok cs.

Let run := handler o s (value cs) db.
Let st := state_sla (at_sla clk) cs s.

(** When nothing fails and nobody interferes, a handler error discards the
    handler's transaction and deferred writes, stores the error as the outcome
    of the object in a transaction of its own, and is reported. *)
Theorem handler_error_stored e db'
    (Hout : run_output run = Err e)
    (Hstore : persist_outcome (run_committed run) o (PError (error_string e) None) = Ok db') :
  ∃ h, process_object handler clk o db [] = Some h ∧ h_db h = db' ∧
    error (h_metrics h) = Some e ∧ next_state (h_metrics h) = None ∧ h_events h = [] ∧
    transition_conflict (h_metrics h) = false.
Proof using Hload Hcs.
  unfold process_object, handle, load, outcome_txn, commit_outcome, store_outcome, statement, mbind,
    step_bind. simpl. rewrite Hload. simpl. rewrite Hcs. simpl. fold run. rewrite Hout. simpl.
  rewrite Hstore. simpl. eexists. split; [reflexivity|]. done.
Qed.

(** When nothing fails and nobody interferes, the writes of a waiting handler are
    committed also for an object above its SLA; the run then reports the SLA
    breach as its error and stores it as the outcome. *)
Theorem wait_committed reason l t txn db'
    (Hout : run_output run = Ok (Wait reason l t))
    (Hwrites : apply_all (run_pending run) (default (run_committed run) t) = Ok txn) :
  let breach := TimeInStateAboveSla (quoted_wait reason) in
  persist_outcome txn o
    (if time_in_state_above_sla st then PError (error_string breach) None
     else PWait reason (Some (source_reference l))) = Ok db' →
  ∃ h, process_object handler clk o db [] = Some h ∧ h_db h = db' ∧
    error (h_metrics h) = (if time_in_state_above_sla st then Some breach else None) ∧
    next_state (h_metrics h) = None ∧ h_events h = [].
Proof using Hload Hcs.
  intros breach Hstore.
  unfold process_object, handle, load, outcome_txn, commit_outcome, store_outcome, statement, mbind,
    step_bind. simpl. rewrite Hload. simpl. rewrite Hcs. simpl. fold run. rewrite Hout. simpl.
  fold st. destruct t; simpl in *; rewrite Hwrites; simpl;
    destruct (time_in_state_above_sla st); simpl; rewrite Hstore; simpl;
    (eexists; split; [reflexivity|]; done).
Qed.

(** When nothing fails and nobody interferes, a transition whose optimistic
    update succeeds is committed with its history record, the deferred writes
    and the outcome, and is reported with one event. *)
Theorem transition_committed n l t txn txn1 txn2 db'
    (Hout : run_output run = Ok (Transition n l t))
    (Hwrites : apply_all (run_pending run) (default (run_committed run) t) = Ok txn) :
  let nv := increment (at_increment clk) (version cs) in
  persist_controller_state txn o (version cs) nv n = Ok (true, txn1) →
  persist_state_history txn1 o nv n = Ok txn2 →
  persist_outcome txn2 o (PTransition (Some (source_reference l))) = Ok db' →
  ∃ h, process_object handler clk o db [] = Some h ∧ h_db h = db' ∧
    error (h_metrics h) = None ∧ next_state (h_metrics h) = Some n ∧
    h_events h = [mk_event o n (at_emit clk)].
Proof using Hload Hcs.
  intros nv Hp Hh Hstore.
  unfold process_object, handle, load, outcome_txn, persist_transition, commit_outcome,
    store_outcome, statement, mbind, step_bind.
  simpl. rewrite Hload. simpl. rewrite Hcs. simpl. fold run. rewrite Hout. simpl.
  destruct t; simpl in *; rewrite Hwrites; simpl; fold nv; rewrite Hp; simpl; rewrite Hh; simpl;
    rewrite Hstore; simpl; (eexists; split; [reflexivity|]; done).
Qed.
End FaultFree.
End Guarantees.

(** ** Concrete runs *)

Module Examples.
Definition ex_db_type : Type := table string bool unit.

#[export] Instance ex_io : StateControllerIO ex_db_type string (table_row bool unit) bool :=
  table_io (λ b : bool, if b then "Ready" else "Provisioning")
    (λ b : bool, (if b then "ready" else "provisioning", EmptyString)) (λ _, None)
    (λ now v _, with_sla 10 (now - timestamp (version v))) 0.

#[export] Instance ex_laws : StateControllerIOLaws ex_db_type string (table_row bool unit) bool :=
  table_io_laws _ _ _ _ _.

Definition v1 : ConfigVersion := mk_version 1 100.

(** One object in the state [false], with its first history record. *)
Definition ex_db : ex_db_type :=
  mk_table {["a" := mk_row (mk_versioned false v1) None tt]} (log_persist empty_log 0 "a" false v1).

Definition loc : Location := mk_location "handler.rs" 1.
Definition clk : Clock := mk_clock 105 105 200 200 201 1.

(** Handlers that return the same outcome on every input and write nothing. *)
Definition const_handler (r : result StateHandlerError (StateHandlerOutcome ex_db_type bool))
    : Handler ex_db_type string (table_row bool unit) bool :=
  λ _ s _ db, mk_run s db r [].

Definition to_ready := const_handler (Ok (transition loc true)).
Definition failing := const_handler (Err (HealthProbeAlert)).
Definition waiting := const_handler (Ok (wait loc "for a lease")).

(** A concurrent writer that moves the object to a new version. *)
Definition rival (db : ex_db_type) : ex_db_type :=
  let v2 := mk_version 2 150 in
  let '(ok, db) := try_update_controller_state db "a" v1 v2 true in
  if ok then persist_history_row db 0 "a" v2 true else db.

Lemma ex_db_agrees : history_agrees ex_db.
Proof.
  intros o v. simpl. destruct (decide (o = "a")) as [->|Hne].
  - rewrite lookup_singleton_eq. by intros [= <-].
  - by rewrite lookup_singleton_ne.
Qed.

Lemma const_handler_keeps (Inv : ex_db_type → Prop) r :
  (∀ oc, r = Ok oc → fst (take_transaction oc) = None) → handler_keeps Inv (const_handler r).
Proof.
  intros Hr o s cs db Hdb. simpl. split_and!; [done| |constructor].
  intros oc Hoc txn Htxn. rewrite Hr in Htxn; done.
Qed.

Lemma rival_agrees db : history_agrees db → history_agrees (rival db).
Proof.
  intros Hag. unfold rival. destruct (try_update_controller_state _ _ _ _ _) as [[] db1] eqn:E.
  - eapply (agrees_transition db "a" v1 (mk_version 2 150) true db1); simpl; [done|by rewrite E|done].
  - by apply try_update_false in E as [-> _].
Qed.
End Examples.
Import Examples.

Lemma reported_transition_committed_witness :
  ∃ h, process_object to_ready clk "a" ex_db [] = Some h ∧
       next_state (h_metrics h) = Some true ∧
       controller_state_of (h_db h) "a" = Some (mk_versioned true (mk_version 2 200)).
Proof.
  destruct (process_object to_ready clk "a" ex_db []) as [h|] eqn:E; [|vm_compute in E; discriminate E].
  assert (Hn : next_state (h_metrics h) = Some true).
  { apply (f_equal (fmap (λ h, next_state (h_metrics h)))) in E. by injection E. }
  exists h. split_and!; [done..|].
  destruct (reported_transition_committed to_ready clk "a" ex_db [] h true E Hn)
    as (cs & s & db1 & l & t & txn & Hcs & _ & _ & _ & Hnew & _).
  rewrite Hnew. injection Hcs as <-. reflexivity.
Defined.

Lemma history_agrees_after_run_witness :
  let orc := [mk_verdict rival Go; mk_verdict id Go; mk_verdict id Go; mk_verdict id (Elapse true)] in
  ∃ h, process_object to_ready clk "a" ex_db orc = Some h ∧ history_agrees (h_db h).
Proof.
  intros orc. destruct (process_object to_ready clk "a" ex_db orc) as [h|] eqn:E; [|vm_compute in E; discriminate E].
  exists h. split; [done|].
  apply (history_agrees_after_run to_ready clk "a" ex_db orc h).
  - apply const_handler_keeps. by intros oc [= <-].
  - repeat (constructor; [first [exact rival_agrees | done]|]). constructor.
  - apply ex_db_agrees.
  - exact E.
Defined.

(** The rival commits while the handler runs: the object is in the old state or
    in the rival's, never in the one the handler chose. *)
Definition old_or_rival (db : ex_db_type) : Prop :=
  controller_state_of db "a" = Some (mk_versioned false v1) ∨
  controller_state_of db "a" = Some (mk_versioned true (mk_version 2 150)).

Lemma rival_old_or_rival db : old_or_rival db → old_or_rival (rival db).
Proof.
  unfold old_or_rival, rival, try_update_controller_state. simpl. intros Hdb.
  destruct (rows db !! "a") as [r|] eqn:Hr; [|rewrite Hr; by destruct Hdb].
  case_decide; [|by rewrite Hr]. simpl. right. by rewrite lookup_insert_eq.
Qed.

Lemma old_or_rival_ignores_outcome : ignores_outcome "a" old_or_rival.
Proof.
  intros db oc db' Hdb Hp. apply persist_outcome_only in Hp as (Hcs & _).
  unfold old_or_rival. by rewrite Hcs.
Qed.

Lemma lost_transition_invisible_witness :
  let go := mk_verdict id Go in
  let orc := [go; go; go; go; mk_verdict rival Go] in
  ∃ h, process_object to_ready clk "a" ex_db orc = Some h ∧
       transition_conflict (h_metrics h) = true ∧ old_or_rival (h_db h) ∧ h_events h = [].
Proof.
  intros go orc.
  destruct (process_object to_ready clk "a" ex_db orc) as [h|] eqn:E; [|vm_compute in E; discriminate E].
  assert (Hc : transition_conflict (h_metrics h) = true).
  { apply (f_equal (fmap (λ h, transition_conflict (h_metrics h)))) in E. by injection E. }
  exists h. split_and!; [done..| |];
    apply (lost_transition_invisible to_ready clk "a" old_or_rival ex_db orc h);
    try done; try (by left); try exact old_or_rival_ignores_outcome;
    try (by apply const_handler_keeps; intros oc [= <-]);
    repeat (constructor; [first [exact rival_old_or_rival | done]|]); constructor.
Defined.

Lemma no_transition_keeps_states_witness :
  let orc := [mk_verdict rival Go; mk_verdict id Go; mk_verdict id (Elapse true)] in
  ∃ h, process_object waiting clk "a" ex_db orc = Some h ∧ old_or_rival (h_db h).
Proof.
  intros orc.
  destruct (process_object waiting clk "a" ex_db orc) as [h|] eqn:E; [|vm_compute in E; discriminate E].
  exists h. split; [done|].
  apply (no_transition_keeps_states waiting clk "a" old_or_rival ex_db orc h);
    try done; try (by left); try exact old_or_rival_ignores_outcome;
    try (by apply const_handler_keeps; intros oc [= <-]);
    repeat (constructor; [first [exact rival_old_or_rival | done]|]); constructor.
Defined.

Definition ex_row : table_row bool unit := mk_row (mk_versioned false v1) None tt.

Lemma ex_load : load_object_state ex_db "a" = Ok (Some ex_row).
Proof. simpl. by rewrite lookup_singleton_eq. Qed.

Lemma handler_error_stored_witness :
  ∃ h, process_object failing clk "a" ex_db [] = Some h ∧ error (h_metrics h) = Some HealthProbeAlert ∧
    outcome_of (h_db h) "a" =
      Some (PError "state will not be advanced due to health probe alert" None).
Proof.
  destruct (handler_error_stored failing clk "a" ex_db ex_row (mk_versioned false v1)
              ex_load eq_refl HealthProbeAlert _ eq_refl eq_refl)
    as (h & Hh & Hdb & Herr & _).
  exists h. split_and!; [exact Hh | exact Herr | by rewrite Hdb].
Defined.

Lemma wait_committed_witness :
  ∃ h, process_object waiting clk "a" ex_db [] = Some h ∧ error (h_metrics h) = None ∧
    outcome_of (h_db h) "a" = Some (PWait "for a lease" (Some (mk_source_ref "handler.rs" 1))).
Proof.
  destruct (wait_committed waiting clk "a" ex_db ex_row (mk_versioned false v1)
              ex_load eq_refl "for a lease" loc None ex_db _ eq_refl eq_refl eq_refl)
    as (h & Hh & Hdb & Herr & _).
  exists h. split_and!; [exact Hh | exact Herr | by rewrite Hdb].
Defined.

Lemma transition_committed_witness :
  ∃ h, process_object to_ready clk "a" ex_db [] = Some h ∧
    controller_state_of (h_db h) "a" = Some (mk_versioned true (mk_version 2 200)) ∧
    history_of (h_db h) "a" = [(v1, false); (mk_version 2 200, true)].
Proof.
  destruct (transition_committed to_ready clk "a" ex_db ex_row (mk_versioned false v1)
              ex_load eq_refl true loc None ex_db _ _ _ eq_refl eq_refl eq_refl eq_refl eq_refl)
    as (h & Hh & Hdb & _).
  exists h. split_and!; [exact Hh | by rewrite Hdb..].
Defined.
