(* ===== verification/TableRuns.v ===== *)
(** * Controllers of the rows of a table

    Object types whose controller state lives in one table of a larger database: the
    interface [StateControllerIO] over that table, its laws, and what a run of the
    processor commits when the handler has no deferred writes and commits nothing on
    its own.  The controllers of network segments and of VPC prefixes are instances. *)

From S2P Require Import Prelude ConfigVersion StateHistory StateHandler ControllerIO ControllerTable.
From S2P Require Import ProcessObject ProcessObjectFacts.

(** The table of the object type in the database. *)
Class TableLens (DB CS Obj : Type) := {
  table_of : DB → table string CS Obj;
  with_table : table string CS Obj → DB → DB;
  table_of_with t db : table_of (with_table t db) = t;
  with_table_of db : with_table (table_of db) db = db;
  with_table_twice t t' db : with_table t' (with_table t db) = with_table t' db;
}.

Section Interface.
Context {DB CS Obj : Type} {L : TableLens DB CS Obj}.

Definition lens_view : ObjectView DB string CS := {|
  controller_state_of db o := controller_state_of (table_of db) o;
  history_of db o := history_of (table_of db) o;
  outcome_of db o := outcome_of (table_of db) o;
|}.

(** The id is a key, so that a search by id finds at most one row. *)
Definition lens_io (debug : CS → string) (names : CS → string * string)
    (reason : CS → option string) (sla_of : Z → Versioned CS → Obj → StateSla) (db_now : Z)
    : StateControllerIO DB string (table_row CS Obj) CS := {|
  id_string o := o;
  id_from_str o := Some o;
  debug_state := debug;
  list_objects db := Ok (fst <$> map_to_list (rows (table_of db)));
  load_object_state db o := Ok (rows (table_of db) !! o);
  load_controller_state _ _ r := Ok (row_state r);
  persist_controller_state db o old nv cs :=
    let '(ok, t) := try_update_controller_state (table_of db) o old nv cs in
    Ok (ok, with_table t db);
  persist_state_history db o nv cs :=
    Ok (with_table (persist_history_row (table_of db) db_now o nv cs) db);
  persist_outcome db o oc :=
    Ok (with_table (update_controller_state_outcome (table_of db) o oc) db);
  metric_state_names := names;
  manual_intervention_reason := reason;
  state_sla now cs r := sla_of now cs (row_object r);
|}.

Lemma lens_laws debug names reason sla_of db_now :
  StateControllerIOLaws DB string (table_row CS Obj) CS
    (IO := lens_io debug names reason sla_of db_now) (V := lens_view).
Proof.
  split.
  - done.
  - intros db o s v [= Hs] [= <-]. simpl. by rewrite Hs.
  - intros db o old nv cs db' Hp. simpl in *.
    destruct (try_update_controller_state _ _ _ _ _) as [ok t] eqn:E. injection Hp as -> <-.
    rewrite table_of_with. exact (try_update_true _ _ _ _ _ _ E).
  - intros db o old nv cs db' Hp. simpl in *.
    destruct (try_update_controller_state _ _ _ _ _) as [ok t] eqn:E. injection Hp as -> <-.
    apply try_update_false in E as [-> Hv]. split; [by rewrite with_table_of|exact Hv].
  - intros db o nv cs db' [= <-]. simpl. rewrite table_of_with.
    exact (persist_history_row_spec (table_of db) db_now o nv cs).
  - intros db o oc db' [= <-]. simpl. rewrite table_of_with.
    exact (update_outcome_spec (table_of db) o oc).
Qed.
End Interface.

(** ** The environment of a handler *)

(** The environment of a call: the clock reads of the branch that runs (the second
    one is only made when the addition overflows), the failure of its [n]th await,
    and the addition and the printing of [chrono]. *)
Record Env := mk_env {
  utc_now : Z;
  utc_now_again : Z;
  faults : nat → option string;
  checked_add_signed : Z → Z → option Z;
  to_rfc3339 : Z → string;
}.

Section Environment.
Context {DB CS : Type} (env : Env).

Definition begin_txn (n : nat) (db : DB) : result StateHandlerError DB :=
  match faults env n with Some e => Err (TransactionError e) | None => Ok db end.

Definition query {A} (n : nat) (r : result string A) : result StateHandlerError A :=
  match faults env n with Some e => Err (DBError e) | None => map_err DBError r end.

(** [.with_txn(txn)] of an outcome that has no transaction yet *)
Definition attach (txn : DB) (oc : StateHandlerOutcome DB CS) : StateHandlerOutcome DB CS :=
  default oc (with_txn txn oc).

Lemma begin_txn_ok n db txn : begin_txn n db = Ok txn → faults env n = None ∧ txn = db.
Proof. unfold begin_txn. by destruct (faults env n); intros [= <-]. Qed.

Lemma query_ok {A} n (r : result string A) a : query n r = Ok a → faults env n = None ∧ r = Ok a.
Proof. unfold query. destruct (faults env n); [done|]. destruct r; [|done]. by intros [= <-]. Qed.
End Environment.

(** ** Other connections *)

(** Other connections preserve [P]. *)
Definition others_keep {DB} (P : DB → Prop) (orc : list (Verdict DB)) : Prop :=
  Forall (λ v, ∀ db, P db → P (interference v db)) orc.

Lemma at_load_kept {DB} (P : DB → Prop) db orc :
  others_keep P orc → P db → P (db_at_load db orc).
Proof. intros Ho Hdb. destruct orc as [|v orc]; [done|]. apply Forall_cons in Ho as [Hv _]. by apply Hv. Qed.

(** ** Runs *)

Section Runs.
Context {DB CS Obj : Type} {L : TableLens DB CS Obj}.
Context (debug : CS → string) (names : CS → string * string) (reason : CS → option string)
  (sla_of : Z → Versioned CS → Obj → StateSla) (db_now : Z).
Notation IO := (lens_io debug names reason sla_of db_now).
#[local] Existing Instance lens_view.
#[local] Existing Instance lens_laws.
Context (handler : Handler DB string (table_row CS Obj) CS) (clk : Clock) (o : string).
Notation run db orc := (process_object (IO := IO) handler clk o db orc).

(** The object is in the state [cs], and [K] holds as the others keep it. *)
Definition stays (K : DB → Prop) (cs : Versioned CS) (db : DB) : Prop :=
  controller_state_of (table_of db) o = Some cs ∧ K db.

(** [db'] is [db] with another outcome of the last run. *)
Definition noted (db db' : DB) : Prop :=
  ∃ p, db' = with_table (update_controller_state_outcome (table_of db) o p) db.

(** [db'] is [db] with the object in the state [n]. *)
Definition moved_to (n : CS) (nv : ConfigVersion) (db db' : DB) : Prop :=
  ∃ r p l, rows (table_of db) !! o = Some r ∧
    db' = with_table (mk_table (<[o := mk_row (mk_versioned n nv) (Some p) (row_object r)]>
                                  (rows (table_of db))) l) db.

(** What is committed for the outcome [oc] of a handler whose transaction is [txn]. *)
Definition committed_for (cs : Versioned CS) (oc : StateHandlerOutcome DB CS) (txn db' : DB) : Prop :=
  match oc with
  | Transition n _ _ => moved_to n (increment (at_increment clk) (version cs)) txn db'
  | Deleted _ _ => db' = txn
  | _ => noted txn db'
  end.

Lemma stays_row K cs db : stays K cs db → ∃ r, rows (table_of db) !! o = Some r ∧ row_state r = cs.
Proof. intros [Hs _]. simpl in Hs. by apply fmap_Some in Hs as (r & -> & ->); eauto. Qed.

Lemma stays_ignores_outcome K cs :
  ignores_outcome (IO := IO) o K → ignores_outcome (IO := IO) o (stays K cs).
Proof.
  intros HK db oc db' [Hs Hk] Hp. split; [|by eapply HK].
  apply (persist_outcome_only (IO := IO)) in Hp as (Hcs & _). specialize (Hcs o). simpl in *. by rewrite Hcs.
Qed.

Lemma noted_keeps K db db' : ignores_outcome (IO := IO) o K → K db → noted db db' → K db'.
Proof. intros HK Hdb [p ->]. by eapply HK. Qed.

Lemma moved_to_state n nv db db' :
  moved_to n nv db db' → controller_state_of (table_of db') o = Some (mk_versioned n nv).
Proof. intros (r & p & l & _ & ->). rewrite table_of_with. simpl. by rewrite lookup_insert_eq. Qed.

(** A transition from the stored state is never lost. *)
Lemma transition_moves cs n l t txn txn' db' :
  controller_state_of (table_of txn) o = Some cs →
  transition_txn (IO := IO) clk o cs (Transition n l t) txn txn' →
  outcome_stored (IO := IO) o (Transition n l t) txn' db' →
  moved_to n (increment (at_increment clk) (version cs)) txn db'.
Proof.
  intros Hcs Htr [p [= <-]]. set (nv := increment _ _) in *.
  simpl in Hcs. apply fmap_Some in Hcs as (r & Hr & ->). simpl in Htr. fold nv in Htr.
  unfold try_update_controller_state in Htr. rewrite Hr, decide_True in Htr by done.
  destruct Htr as [[=]|(txn1 & [= <-] & [= <-])].
  rewrite !with_table_twice, !table_of_with. exists r, p. eexists. split; [done|].
  unfold update_controller_state_outcome, persist_history_row. simpl. by rewrite alter_insert_eq.
Qed.

Context (plain : ∀ s cs db, run_pending (handler o s cs db) = [] ∧ run_committed (handler o s cs db) = db).

(** A run under any failures and interference leaves the object in its state, or it
    called the handler on the row of some contents [db0] with its transaction begun
    in [db1], and committed its outcome. *)
Lemma table_run_cases (K : DB → Prop) cs db orc h :
  ignores_outcome (IO := IO) o K → others_keep (stays K cs) orc → stays K cs db →
  (∀ r db1 n l txn, stays K cs db1 → row_state r = cs →
     run_output (handler o r (value cs) db1) = Ok (Transition n l (Some txn)) →
     controller_state_of (table_of txn) o = Some cs) →
  run db orc = Some h →
  stays K cs (h_db h) ∨
  ∃ db0 r db1 oc txn,
    stays K cs db0 ∧ rows (table_of db0) !! o = Some r ∧ stays K cs db1 ∧
    run_output (handler o r (value cs) db1) = Ok oc ∧
    (fst (take_transaction oc) = Some txn ∨ fst (take_transaction oc) = None ∧ stays K cs txn) ∧
    committed_for cs oc txn (h_db h).
Proof.
  intros HK Hothers Hdb Hkeeps Hrun.
  destruct (process_object_handle (IO := IO) handler clk o db orc) as (e & w & Hw & h' & Hh & Hc & _).
  assert (h' = h) as -> by congruence. rewrite Hc.
  destruct (handle_committed (IO := IO) handler clk o (stays K cs) db orc e w)
    as [?|(s & cs' & db1 & oc & txn & txn' & Hs & Hcs & Hdb1 & Hout & Htxn & Htr & Hst)];
    [by apply stays_ignores_outcome| |by split|done|by left|].
  { intros s c db1 Hdb1. by rewrite (proj2 (plain s c db1)). }
  pose proof (at_load_kept _ _ _ Hothers Hdb) as H0.
  destruct (stays_row K cs _ H0) as (r & Hr & Hrcs). simpl in Hs, Hcs.
  rewrite Hr in Hs. injection Hs as <-. injection Hcs as <-. rewrite Hrcs in *.
  right. exists (db_at_load db orc), r, db1, oc, txn.
  assert (Hown : fst (take_transaction oc) = Some txn ∨ fst (take_transaction oc) = None ∧ stays K cs txn).
  { destruct Htxn as (base & Hb & Ha). rewrite (proj1 (plain _ _ _)) in Ha. by injection Ha as <-. }
  split_and!; [done..|]. destruct oc as [rs l t|n l t|l t|l t]; simpl in *.
  - subst txn'. destruct Hst as [p [= <-]]. by exists p.
  - eapply (transition_moves cs n l t); [|exact Htr|exact Hst].
    destruct t as [t|]; simpl in Hown; [|destruct Hown as [[=]|[_ [? _]]]; done].
    destruct Hown as [[= ->]|[[=] _]]. eapply (Hkeeps r db1 n l txn); done.
  - subst txn'. destruct Hst as [p [= <-]]. by exists p.
  - by subst.
Qed.

(** The same for a handler that writes only to delete the object: the object stays in
    its state, moves to the next one, or is deleted as the handler wrote it. *)
Lemma table_run_steps (K : DB → Prop) cs db orc h :
  ignores_outcome (IO := IO) o K → others_keep (stays K cs) orc → stays K cs db →
  (∀ r db1 oc txn, run_output (handler o r (value cs) db1) = Ok oc →
     fst (take_transaction oc) = Some txn → (∃ l t, oc = Deleted l t) ∨ txn = db1) →
  run db orc = Some h →
  stays K cs (h_db h) ∨
  ∃ db0 r db1 oc, stays K cs db0 ∧ rows (table_of db0) !! o = Some r ∧ stays K cs db1 ∧
    run_output (handler o r (value cs) db1) = Ok oc ∧
    ((∃ n l t, oc = Transition n l t ∧
        controller_state_of (table_of (h_db h)) o =
          Some (mk_versioned n (increment (at_increment clk) (version cs)))) ∨
     ∃ l, oc = Deleted l (Some (h_db h))).
Proof.
  intros HK Hothers Hdb Hw Hrun.
  destruct (table_run_cases K cs db orc h HK Hothers Hdb)
    as [?|(db0 & r & db1 & oc & txn & H0 & Hr & H1 & Hout & Htxn & Hc)]; [|done|by left|].
  { intros r db1 n l txn [Hs _] _ Hout. by destruct (Hw _ _ _ _ Hout eq_refl) as [(? & ? & [=])| ->]. }
  assert (Hstay : (∀ l t, oc ≠ Deleted l t) → stays K cs txn).
  { intros Hnd. destruct Htxn as [Ht|[_ ?]]; [|done].
    destruct (Hw _ _ _ _ Hout Ht) as [(l & t & ->)| ->]; [by destruct (Hnd l t)|done]. }
  pose proof (stays_ignores_outcome K cs HK) as HK'.
  destruct oc as [rs l t|n l t|l t|l t]; simpl in Hc, Htxn.
  - left. eapply noted_keeps; [done| |exact Hc]. by apply Hstay.
  - right. exists db0, r, db1. eexists. split_and!; [done..|exact Hout|]. left. exists n, l, t.
    split; [done|]. by eapply moved_to_state.
  - left. eapply noted_keeps; [done| |exact Hc]. by apply Hstay.
  - destruct t as [t|]; simpl in Htxn; subst; [|destruct Htxn as [[=]|[_ ?]]; by left].
    destruct Htxn as [[= ->]|[[=] _]]. right. exists db0, r, db1. eexists.
    split_and!; [done..|exact Hout|]. right. by exists l.
Qed.

(** [K] does not depend on the columns of the controller. *)
Definition ignores_controller (K : DB → Prop) : Prop :=
  ∀ db r cs oc l, K db → rows (table_of db) !! o = Some r →
    K (with_table (mk_table (<[o := mk_row cs oc (row_object r)]> (rows (table_of db))) l) db).

Lemma ignores_controller_outcome K : ignores_controller K → ignores_outcome (IO := IO) o K.
Proof.
  intros HK db oc db' Hdb [= <-]. unfold update_controller_state_outcome.
  destruct (rows (table_of db) !! o) as [r|] eqn:Hr.
  - assert (∀ f, alter f o (rows (table_of db)) = <[o := f r]> (rows (table_of db))) as ->.
    { intros f. apply map_eq. intros k. destruct (decide (k = o)) as [->|].
      - by rewrite lookup_alter_eq, lookup_insert_eq, Hr.
      - by rewrite lookup_alter_ne, lookup_insert_ne. }
    by apply HK.
  - rewrite alter_id; [destruct (table_of db) eqn:E; simpl; by rewrite <- E, with_table_of|].
    intros x Hx. congruence.
Qed.

(** An invariant that ignores the columns of the controller and that the handler's
    transactions keep is kept by the run. *)
Lemma table_run_keeps (K : DB → Prop) cs db orc h :
  ignores_controller K → others_keep (stays K cs) orc → stays K cs db →
  (∀ r db1 oc txn, stays K cs db1 → run_output (handler o r (value cs) db1) = Ok oc →
     fst (take_transaction oc) = Some txn →
     K txn ∧ ((∃ l t, oc = Deleted l t) ∨ controller_state_of (table_of txn) o = Some cs)) →
  run db orc = Some h → K (h_db h).
Proof.
  intros HK Hothers Hdb Hw Hrun. pose proof (ignores_controller_outcome K HK) as HKo.
  destruct (table_run_cases K cs db orc h HKo Hothers Hdb)
    as [[_ ?]|(db0 & r & db1 & oc & txn & H0 & Hr & H1 & Hout & Htxn & Hc)]; [|done..|].
  { intros r db1 n l txn H1 _ Hout.
    by destruct (Hw _ _ _ _ H1 Hout eq_refl) as [_ [(? & ? & [=])|?]]. }
  assert (K txn) as Ht.
  { destruct Htxn as [Ht|[_ [_ ?]]]; [|done]. by eapply Hw. }
  destruct oc; simpl in Hc; subst; try done; try (by eapply noted_keeps).
  destruct Hc as (r' & p & l' & Hr' & ->). by apply HK.
Qed.

(** ** Runs in which nothing fails or interferes *)

Lemma quiet_transition db r n l t :
  rows (table_of db) !! o = Some r →
  run_output (handler o r (value (row_state r)) db) = Ok (Transition n l t) →
  controller_state_of (table_of (default db t)) o = Some (row_state r) →
  ∃ h, run db [] = Some h ∧
    moved_to n (increment (at_increment clk) (version (row_state r))) (default db t) (h_db h).
Proof.
  intros Hr Hout Hst. set (nv := increment _ _). simpl in Hst.
  apply fmap_Some in Hst as (r' & Hr' & Hst).
  destruct (plain r (value (row_state r)) db) as [Hpend Hcom].
  unfold process_object, handle, load, outcome_txn, persist_transition, commit_outcome,
    store_outcome, statement, mbind, step_bind. simpl. rewrite Hr. simpl. rewrite Hout. simpl.
  destruct t as [t|]; simpl in *; rewrite Hpend, ?Hcom; simpl; fold nv;
    unfold try_update_controller_state; rewrite Hr', Hst, decide_True by done; simpl;
    (eexists; split; [reflexivity|]); simpl; eexists r', _, _; (split; [done|]);
    rewrite !with_table_twice, !table_of_with;
    unfold update_controller_state_outcome, persist_history_row; simpl; by rewrite alter_insert_eq.
Qed.

Lemma quiet_delete db r l txn :
  rows (table_of db) !! o = Some r →
  run_output (handler o r (value (row_state r)) db) = Ok (Deleted l (Some txn)) →
  ∃ h, run db [] = Some h ∧ h_db h = txn ∧ h_recorder h = Clear o ∧ h_events h = [].
Proof.
  intros Hr Hout. destruct (plain r (value (row_state r)) db) as [Hpend Hcom].
  unfold process_object, handle, load, outcome_txn, commit_outcome, statement, call_handler, mbind,
    step_bind. simpl. rewrite Hr. simpl. rewrite Hout. simpl. rewrite Hpend. simpl.
  by eexists.
Qed.

(** A handler that fails stores its error and changes nothing else. *)
Lemma quiet_error db r e :
  rows (table_of db) !! o = Some r →
  run_output (handler o r (value (row_state r)) db) = Err e →
  ∃ h, run db [] = Some h ∧ noted db (h_db h) ∧ is_Some (error (h_metrics h)).
Proof.
  intros Hr Hout. destruct (plain r (value (row_state r)) db) as [Hpend Hcom].
  unfold process_object, handle, load, outcome_txn, commit_outcome, store_outcome, statement,
    call_handler, mbind, step_bind. simpl. rewrite Hr. simpl. rewrite Hout. simpl.
  rewrite ?Hpend, ?Hcom. simpl. eexists. split; [reflexivity|]. simpl. split; [by eexists|by eauto].
Qed.
End Runs.
