(* ===== verification/IterationMetrics.v ===== *)
(** * Aggregated metrics of a controller
      ([crates/state-controller/src/metrics.rs], [crates/utils/src/metrics.rs])

    [merge_object_handling_metrics] adds the metrics of one handled object to the
    counts per state; the processor folds it over the objects it knows, in the
    order of a hash map, and publishes the result in a [SharedMetricsHolder],
    which the gauges read.  The metrics specific to an object type are not
    modelled. *)

From S2P Require Import Prelude StateHandler ProcessObject.

Record FullState := mk_full_state { full_state : string; full_substate : string }.

#[export] Instance FullState_eq_dec : EqDecision FullState.
Proof. solve_decision. Defined.

#[export] Instance FullState_countable : Countable FullState :=
  inj_countable' (λ s, (full_state s, full_substate s)) (λ '(s, t), mk_full_state s t)
    ltac:(by intros []).

Record StateMetrics := mk_state_metrics {
  num_objects : Z;
  num_objects_above_sla : Z;
  handling_errors_per_type : gmap string Z;
}.

Definition default_state_metrics : StateMetrics := mk_state_metrics 0 0 ∅.

(** [CommonIterationMetrics] *)
Notation state_metrics := (gmap FullState StateMetrics).

Definition count_error (e : StateHandlerError) (sm : StateMetrics) : StateMetrics :=
  let errors := handling_errors_per_type sm in
  mk_state_metrics (num_objects sm) (num_objects_above_sla sm)
    (<[metric_label e := default 0 (errors !! metric_label e) + 1]> errors).

Definition count_object (above_sla : bool) (sm : StateMetrics) : StateMetrics :=
  mk_state_metrics (num_objects sm + 1)
    (num_objects_above_sla sm + if above_sla then 1 else 0) (handling_errors_per_type sm).

Section Merge.
Context {CS : Type} (metric_state_names : CS → string * string).

Definition named_state (cs : CS) : FullState :=
  let '(state, substate) := metric_state_names cs in mk_full_state state substate.

(** [unknown] when the state could not be loaded *)
Definition initial_full_state (m : CommonObjectHandlerMetrics CS) : FullState :=
  match initial_state m with
  | Some cs => named_state cs
  | None => mk_full_state "unknown" EmptyString
  end.

Definition merge_object_handling_metrics (it : state_metrics) (m : CommonObjectHandlerMetrics CS)
    : state_metrics :=
  let k := initial_full_state m in
  let sm := default default_state_metrics (it !! k) in
  let sm := match error m with Some e => count_error e sm | None => sm end in
  let sm := match next_state m with None => count_object (m_above_sla m) sm | Some _ => sm end in
  let it := <[k := sm]> it in
  match next_state m with
  | None => it
  | Some next =>
      let k := named_state next in
      <[k := count_object false (default default_state_metrics (it !! k))]> it
  end.

(** The loop of [emit_metrics] *)
Definition aggregate (l : list (CommonObjectHandlerMetrics CS)) : state_metrics :=
  foldl merge_object_handling_metrics ∅ l.
End Merge.

(** The gauge [{object_type}_total] *)
Definition total_objects (it : state_metrics) : Z :=
  map_fold (λ _ sm n, num_objects sm + n) 0 it.

(** ** [SharedMetricsHolder] *)

Section Holder.
Context {T : Type}.

Record SharedMetricsHolder := mk_holder {
  held_metrics : option (T * Z);
  hold_period : option Z;
  fresh_period : option Z;
}.

Definition with_hold_period (p : Z) : SharedMetricsHolder := mk_holder None (Some p) None.
Definition with_fresh_period (p : Z) : SharedMetricsHolder := mk_holder None None (Some p).

(** What the callback is called with, if it is: the metrics and the value of the
    attribute [fresh].  [elapsed] does not go below zero. *)
Definition if_available (now : Z) (h : SharedMetricsHolder) : option (T * option bool) :=
  '(metrics, recording_finished_at) ← held_metrics h;
  let elapsed := Z.max 0 (now - recording_finished_at) in
  if match hold_period h with Some p => p <? elapsed | None => false end then None
  else Some (metrics, match fresh_period h with Some p => Some (elapsed <? p) | None => None end).

Definition update (now : Z) (new_metrics : T) (h : SharedMetricsHolder) : SharedMetricsHolder :=
  mk_holder (Some (new_metrics, now)) (hold_period h) (fresh_period h).
End Holder.
Arguments SharedMetricsHolder : clear implicits.

(** ** What an observer sees of the aggregate *)

Definition objects_in (it : state_metrics) (k : FullState) : Z :=
  from_option num_objects 0 (it !! k).

Definition above_sla_in (it : state_metrics) (k : FullState) : Z :=
  from_option num_objects_above_sla 0 (it !! k).

Definition errors_in (it : state_metrics) (k : FullState) (label : string) : option Z :=
  sm ← it !! k; handling_errors_per_type sm !! label.

Definition count {A} (P : A → Prop) `{∀ x, Decision (P x)} (l : list A) : Z :=
  Z.of_nat (length (filter P l)).

Lemma count_snoc {A} (P : A → Prop) `{∀ x, Decision (P x)} (l : list A) x :
  count P (l ++ [x]) = count P l + if decide (P x) then 1 else 0.
Proof.
  unfold count. rewrite filter_app, length_app. simpl. rewrite filter_cons, filter_nil.
  case_decide; simpl; lia.
Qed.

Lemma count_perm {A} (P : A → Prop) `{∀ x, Decision (P x)} (l l' : list A) :
  Permutation l l' → count P l = count P l'.
Proof. intros Hp. unfold count. by rewrite Hp. Qed.

Lemma metrics_ext (it it' : state_metrics) :
  (∀ k, is_Some (it !! k) ↔ is_Some (it' !! k)) →
  (∀ k, objects_in it k = objects_in it' k) → (∀ k, above_sla_in it k = above_sla_in it' k) →
  (∀ k label, errors_in it k label = errors_in it' k label) → it = it'.
Proof.
  intros Hd Ho Ha He. apply map_eq. intros k.
  specialize (Hd k). specialize (Ho k). specialize (Ha k). specialize (He k).
  unfold objects_in, above_sla_in, errors_in in *.
  destruct (it !! k) as [[n a e]|], (it' !! k) as [[n' a' e']|]; simpl in *; subst.
  - do 2 f_equal. apply map_eq. exact He.
  - by destruct (proj1 Hd (ex_intro _ _ eq_refl)).
  - by destruct (proj2 Hd (ex_intro _ _ eq_refl)).
  - done.
Qed.

Lemma total_objects_insert (it : state_metrics) k sm :
  total_objects (<[k := sm]> it) = total_objects it - objects_in it k + num_objects sm.
Proof.
  unfold total_objects, objects_in. rewrite <- insert_delete_eq, map_fold_insert_L;
    [|intros; lia|apply lookup_delete_eq].
  destruct (it !! k) as [sm0|] eqn:E; simpl.
  - rewrite (map_fold_delete_L (λ _ sm n, num_objects sm + n) 0 k sm0 it); [lia|intros; lia|done].
  - rewrite delete_id by done. lia.
Qed.

Section MergeFacts.
Context {CS : Type} (names : CS → string * string).
Notation merge := (merge_object_handling_metrics names).
Notation initial := (initial_full_state names).
Implicit Types (m : CommonObjectHandlerMetrics CS) (it : state_metrics).

(** The state an object is in after its run. *)
Definition final m : FullState :=
  match next_state m with Some next => named_state names next | None => initial m end.

(** It stayed in its state, for longer than allowed. *)
Definition overdue m : bool :=
  m_above_sla m && match next_state m with Some _ => false | None => true end.

Definition stuck m (k : FullState) : Prop := initial m = k ∧ overdue m = true.

Definition failed m (k : FullState) (label : string) : Prop :=
  initial m = k ∧ (metric_label <$> error m) = Some label.

#[export] Instance stuck_dec m k : Decision (stuck m k).
Proof. unfold stuck. apply _. Defined.

#[export] Instance failed_dec m k label : Decision (failed m k label).
Proof. unfold failed. apply _. Defined.

Lemma merge_lookup it m k :
  merge it m !! k =
    if decide (initial m = k ∨ final m = k) then
      let sm := default default_state_metrics (it !! k) in
      Some (mk_state_metrics
        (num_objects sm + if decide (final m = k) then 1 else 0)
        (num_objects_above_sla sm + if decide (stuck m k) then 1 else 0)
        (match error m with
         | Some e => if decide (initial m = k) then handling_errors_per_type (count_error e sm)
                     else handling_errors_per_type sm
         | None => handling_errors_per_type sm
         end))
    else it !! k.
Proof.
  unfold merge_object_handling_metrics. destruct (next_state m) as [next|] eqn:E.
  - assert (final m = named_state names next) as -> by (unfold final; by rewrite E).
    rewrite (decide_False (P := stuck m k))
      by (unfold stuck, overdue; rewrite E, andb_false_r; naive_solver).
    destruct (decide (named_state names next = k)) as [<-|Hn].
    + rewrite lookup_insert_eq, decide_True by auto.
      destruct (decide (initial m = named_state names next)) as [->|Hi];
        [rewrite lookup_insert_eq|rewrite lookup_insert_ne by done];
        unfold count_object; simpl; by destruct (error m).
    + rewrite lookup_insert_ne by done. destruct (decide (initial m = k)) as [<-|Hi].
      * rewrite lookup_insert_eq, decide_True by auto. rewrite !Z.add_0_r.
        destruct (error m), (default _ _); done.
      * rewrite lookup_insert_ne, decide_False by naive_solver. done.
  - assert (final m = initial m) as -> by (unfold final; by rewrite E).
    destruct (decide (initial m = k)) as [<-|Hi].
    + rewrite lookup_insert_eq, decide_True by auto. unfold count_object.
      assert (overdue m = m_above_sla m) as Ho by (unfold overdue; by rewrite E, andb_true_r).
      destruct (decide (stuck m (initial m))) as [Hs|Hs]; unfold stuck in Hs; rewrite Ho in Hs;
        destruct (m_above_sla m), (error m); simpl; naive_solver.
    + rewrite lookup_insert_ne, decide_False by naive_solver. done.
Qed.

Lemma merge_objects it m k :
  objects_in (merge it m) k = objects_in it k + if decide (final m = k) then 1 else 0.
Proof.
  unfold objects_in. rewrite merge_lookup. case_decide as Hk; simpl.
  - by destruct (it !! k).
  - rewrite (decide_False (P := final m = k)) by naive_solver. lia.
Qed.

Lemma merge_above it m k :
  above_sla_in (merge it m) k = above_sla_in it k + if decide (stuck m k) then 1 else 0.
Proof.
  unfold above_sla_in. rewrite merge_lookup. case_decide as Hk; simpl.
  - by destruct (it !! k).
  - rewrite (decide_False (P := stuck m k)) by (unfold stuck; naive_solver). lia.
Qed.

Lemma merge_errors it m k label :
  errors_in (merge it m) k label =
    if decide (failed m k label) then Some (default 0 (errors_in it k label) + 1)
    else errors_in it k label.
Proof.
  unfold errors_in. rewrite merge_lookup.
  destruct (decide (failed m k label)) as [Hf|Hf]; unfold failed in Hf.
  - destruct Hf as [Hi He]. rewrite decide_True by auto. simpl.
    destruct (error m) as [e|]; simplify_eq/=. rewrite decide_True by done. simpl.
    rewrite lookup_insert_eq. by destruct (it !! initial m).
  - case_decide as Hk; [|done]. simpl. destruct (error m) as [e|], (it !! k) as [sm|]; simpl; try done;
      case_decide; simpl; try done; rewrite lookup_insert_ne by naive_solver; done.
Qed.

Lemma merge_present it m k :
  is_Some (merge it m !! k) ↔ is_Some (it !! k) ∨ initial m = k ∨ final m = k.
Proof. rewrite merge_lookup. case_decide; naive_solver eauto. Qed.

Lemma merge_total it m : total_objects (merge it m) = total_objects it + 1.
Proof.
  unfold merge_object_handling_metrics. destruct (next_state m) as [next|].
  - rewrite !total_objects_insert. unfold objects_in.
    destruct (<[_ := _]> it !! named_state names next) eqn:E; simpl;
      destruct (it !! initial m); simpl; destruct (error m); simpl; lia.
  - rewrite total_objects_insert. unfold objects_in.
    destruct (it !! initial m); simpl; destruct (error m); simpl; lia.
Qed.

Notation agg := (aggregate names).

Lemma aggregate_snoc l m : agg (l ++ [m]) = merge (agg l) m.
Proof. unfold aggregate. by rewrite foldl_app. Qed.

Lemma aggregate_counts l :
  total_objects (agg l) = Z.of_nat (length l) ∧
  (∀ k, objects_in (agg l) k = count (λ m, final m = k) l) ∧
  (∀ k, above_sla_in (agg l) k = count (λ m, stuck m k) l).
Proof.
  induction l as [|m l (IHt & IHo & IHa)] using rev_ind; [done|]. rewrite aggregate_snoc. split_and!.
  - rewrite merge_total, IHt, length_app. simpl. lia.
  - intros k. by rewrite merge_objects, IHo, count_snoc.
  - intros k. by rewrite merge_above, IHa, count_snoc.
Qed.

Lemma aggregate_errors l k label :
  errors_in (agg l) k label =
    let n := count (λ m, failed m k label) l in if n =? 0 then None else Some n.
Proof.
  induction l as [|m l IH] using rev_ind; [done|]. simpl in IH |- *.
  rewrite aggregate_snoc, merge_errors, IH, count_snoc. unfold count.
  case_decide; [|by rewrite Z.add_0_r].
  destruct (Z.eqb_spec (Z.of_nat (length (filter (λ m, failed m k label) l))) 0) as [E|E]; simpl.
  - by rewrite E.
  - destruct (Z.eqb_spec (Z.of_nat (length (filter (λ m, failed m k label) l)) + 1) 0); [lia|done].
Qed.

Lemma aggregate_present l k :
  is_Some (agg l !! k) ↔ ∃ m, m ∈ l ∧ (initial m = k ∨ final m = k).
Proof.
  induction l as [|m l IH] using rev_ind.
  - split; [by intros [? [=]]|]. by intros (? & ?%not_elem_of_nil & _).
  - rewrite aggregate_snoc, merge_present, IH. split.
    + intros [(m' & ? & ?)|?]; eexists; rewrite elem_of_app, list_elem_of_singleton; eauto.
    + intros (m' & [?| ->%list_elem_of_singleton]%elem_of_app & ?); eauto.
Qed.

(** The published metrics count every object that the processor knows exactly
    once, in the state it was in after its last run; an object counts as above its
    SLA in the state it stayed in, and an error in the state it occurred in, under
    its label.  The order in which the hash map is traversed does not matter. *)
Theorem aggregate_exact (l : list (CommonObjectHandlerMetrics CS)) :
  total_objects (agg l) = Z.of_nat (length l) ∧
  (∀ k, objects_in (agg l) k = count (λ m, final m = k) l) ∧
  (∀ k, above_sla_in (agg l) k = count (λ m, stuck m k) l) ∧
  (∀ k label, errors_in (agg l) k label =
     let n := count (λ m, failed m k label) l in if n =? 0 then None else Some n) ∧
  (∀ l', Permutation l l' → agg l' = agg l).
Proof.
  destruct (aggregate_counts l) as (Ht & Ho & Ha). split_and!; try done; [apply aggregate_errors|].
  intros l' Hp. destruct (aggregate_counts l') as (_ & Ho' & Ha'). apply metrics_ext.
  - intros k. rewrite !aggregate_present. by setoid_rewrite Hp.
  - intros k. rewrite Ho, Ho'. symmetry. by apply count_perm.
  - intros k. rewrite Ha, Ha'. symmetry. by apply count_perm.
  - intros k label. rewrite !aggregate_errors. by rewrite (count_perm _ _ _ Hp).
Qed.
End MergeFacts.

(** Three objects, one of which moved to another state and one of which could not
    be loaded. *)
Lemma aggregate_exact_witness :
  let names (b : bool) := (if b then "ready" else "provisioning", "x") in
  let stays := mk_metrics (Some false) None false 9 true (Some 5) None 0 None in
  let moves := mk_metrics (Some false) (Some true) false 2 false None (Some 1) 0 None in
  let fails := mk_metrics None None false 0 false None None 0 (Some (DBError "gone")) in
  total_objects (aggregate names [stays; moves; fails]) = 3 ∧
  aggregate names [fails; moves; stays] = aggregate names [stays; moves; fails].
Proof.
  intros names stays moves fails.
  destruct (aggregate_exact names [stays; moves; fails]) as (Ht & _ & _ & _ & Hp).
  split; [exact Ht|]. apply Hp. apply (Permutation_rev [stays; moves; fails]).
Defined.
