(* ===== verification/Processor.v ===== *)
(** * The state processor and the system of processors
      ([crates/state-controller/src/controller/processor.rs])

    [StateProcessor]: the tasks it runs, the finished objects whose queue rows it
    still has to delete, the objects to queue again, the metrics it holds; one
    definition per method.  The tasks themselves are [process_object]; here a
    task is its object and the time its row was taken.  Times are in milliseconds;
    an [Instant] has no upper bound here.

    [step] is the system: any number of processors and enqueuers on one queue
    table, interleaved at the transactions of the code, with processors that
    crash and commits that are not confirmed. *)

From S2P Require Import Prelude Ordered ConfigVersion StateHandler ObjectQueue ProcessObject.
From S2P Require Import IterationMetrics.

(** How a transaction of the processor ends: it is confirmed, or an error is
    returned, either before the database performed it or after. *)
Inductive TxnFate :=
| Confirmed
| Unconfirmed (e : string) (applied : bool).

Section Processor.
Context {CS : Type}.

Record IterationConfig := mk_config {
  max_object_handling_time : Z;
  max_concurrency : nat;
  processor_dispatch_interval : Z;
  processor_log_interval : Z;
  metric_emission_interval : Z;
  metric_hold_time : Z;
}.

Record Task := mk_task { task_object : string; task_started : Z }.

Record ObjectHandlingTaskResult := mk_task_result {
  result_object : string;
  result_metrics : CommonObjectHandlerMetrics CS;
}.

Record StatsSinceLastLog := mk_stats {
  num_dispatched_tasks : Z;
  num_completed_tasks : Z;
  num_errored_tasks : Z;
  num_deleted_queued_objects : Z;
  num_requeued_objects : Z;
}.

Record StateProcessor := mk_proc {
  processor_id : string;
  object_tasks : list Task;
  object_metrics : gmap string (CommonObjectHandlerMetrics CS * Z);
  completed_objects : gset string;
  requeue_objects : gset string;
  last_log_time : Z;
  last_metric_emission_time : Z;
  stats : StatsSinceLastLog;
  last_iteration_common_metrics : SharedMetricsHolder state_metrics;
}.

Definition no_stats : StatsSinceLastLog := mk_stats 0 0 0 0 0.

(** [MetricHolder::new] *)
Definition new_holder (cfg : IterationConfig) : SharedMetricsHolder state_metrics :=
  with_fresh_period (metric_hold_time cfg + 60000).

(** The processor of [Builder::build] *)
Definition new_processor (cfg : IterationConfig) (now : Z) (id : string) : StateProcessor :=
  mk_proc id [] ∅ ∅ ∅ now now no_stats (new_holder cfg).

(** The processor with other tasks, results and statistics. *)
Definition set_work (p : StateProcessor) (tasks : list Task)
    (om : gmap string (CommonObjectHandlerMetrics CS * Z)) (completed requeue : gset string)
    (st : StatsSinceLastLog) : StateProcessor :=
  mk_proc (processor_id p) tasks om completed requeue (last_log_time p)
    (last_metric_emission_time p) st (last_iteration_common_metrics p).

(** [max_concurrency.saturating_sub(object_tasks.len())] *)
Definition remaining_capacity (cfg : IterationConfig) (p : StateProcessor) : nat :=
  max_concurrency cfg - length (object_tasks p).

Definition dispatch_object_handling_task (now : Z) (p : StateProcessor) (o : string)
    : StateProcessor :=
  set_work p (object_tasks p ++ [mk_task o now]) (object_metrics p) (completed_objects p)
    (requeue_objects p) (stats p).

Definition count_dispatched (n : nat) (p : StateProcessor) : StateProcessor :=
  let st := stats p in
  set_work p (object_tasks p) (object_metrics p) (completed_objects p) (requeue_objects p)
    (mk_stats (num_dispatched_tasks st + Z.of_nat n) (num_completed_tasks st)
       (num_errored_tasks st) (num_deleted_queued_objects st) (num_requeued_objects st)).

(** [dequeue_and_dispatch_object_handling_tasks].  [f] is the fate of its
    transaction; [canon] is [from_str] of an id followed by [to_string]. *)
Definition dequeue_and_dispatch (canon : string → option string) (cfg : IterationConfig)
    (now : Z) (scan : list string) (locked : gset string) (f : TxnFate)
    (p : StateProcessor) (q : queue) : result string nat * StateProcessor * queue :=
  let capacity := remaining_capacity cfg p in
  let dispatch (queued : list QueuedObject) (q : queue) :=
    let objects := omap (λ qo, canon (queued_object_id qo)) queued in
    let p := count_dispatched (length objects) p in
    (Ok (length objects), foldl (dispatch_object_handling_task now) p objects, q) in
  if bool_decide (0 < capacity)%nat then
    let count := Z.to_nat (Z.min (Z.of_nat capacity) u32_max) in
    let '(queued, q') :=
      acquire_queued_objects now count (processor_id p) (max_object_handling_time cfg * 3)
        scan locked q in
    match f with
    | Confirmed => dispatch queued q'
    | Unconfirmed e applied => (Err e, p, if applied then q' else q)
    end
  else dispatch [] q.

(** [process_object_handling_task_result] *)
Definition process_object_handling_task_result (r : ObjectHandlingTaskResult)
    (allow_requeue : bool) (collected_at : Z) (p : StateProcessor) : StateProcessor :=
  let m := result_metrics r in
  let again := allow_requeue &&
    (match next_state m with Some _ => true | None => false end || transition_conflict m) in
  let st := stats p in
  set_work p (object_tasks p)
    (<[result_object r := (m, collected_at)]> (object_metrics p))
    ({[result_object r]} ∪ completed_objects p)
    (if again then {[result_object r]} ∪ requeue_objects p else requeue_objects p)
    (mk_stats (num_dispatched_tasks st) (num_completed_tasks st + 1)
       (num_errored_tasks st + match error m with Some _ => 1 | None => 0 end)
       (num_deleted_queued_objects st) (num_requeued_objects st)).

(** [join_many]: the tasks that have finished leave the [JoinSet]. *)
Definition join_many (finished : list (Task * ObjectHandlingTaskResult)) (p : StateProcessor)
    : StateProcessor :=
  set_work p
    (foldl (λ ts f, filter (λ t, ¬ (task_object t = task_object (fst f) ∧
                                    task_started t = task_started (fst f))) ts)
       (object_tasks p) finished)
    (object_metrics p) (completed_objects p) (requeue_objects p) (stats p).

(** [wait_and_process_object_handling_task_completions]: [finished] are the tasks
    that are done when the wait ends; none when it times out. *)
Definition wait_and_process (finished : list (Task * ObjectHandlingTaskResult))
    (allow_requeue : bool) (now : Z) (p : StateProcessor) : nat * StateProcessor :=
  (length finished,
   foldl (λ p f, process_object_handling_task_result (snd f) allow_requeue now p)
     (join_many finished p) finished).

Definition clear_finalized (num_deleted num_requeued : Z) (p : StateProcessor) : StateProcessor :=
  let st := stats p in
  set_work p (object_tasks p) (object_metrics p) ∅ ∅
    (mk_stats (num_dispatched_tasks st) (num_completed_tasks st) (num_errored_tasks st)
       (num_deleted_queued_objects st + num_deleted) (num_requeued_objects st + num_requeued)).

(** The transaction of [finalize_completed_objects]. *)
Definition finalize_txn (now : Z) (p : StateProcessor) (q : queue) : Z * Z * queue :=
  let '(num_deleted, q) :=
    delete_queued_objects (processor_id p) q (elements (completed_objects p)) in
  let '(num_requeued, q) := queue_objects now q (elements (requeue_objects p)) in
  (num_deleted, num_requeued, q).

(** [finalize_completed_objects]: the sets are cleared only after the commit is
    confirmed. *)
Definition finalize_completed_objects (now : Z) (f : TxnFate) (p : StateProcessor) (q : queue)
    : result string unit * StateProcessor * queue :=
  if decide (completed_objects p = ∅) then (Ok tt, p, q)
  else
    let '(num_deleted, num_requeued, q') := finalize_txn now p q in
    match f with
    | Confirmed => (Ok tt, clear_finalized num_deleted num_requeued p, q')
    | Unconfirmed e applied => (Err e, p, if applied then q' else q)
    end.

(** [emit_metrics]: the aggregate over all objects, then the eviction of the old
    ones; [now.checked_sub(hold).unwrap_or(now)] *)
Definition emit_metrics (metric_state_names : CS → string * string) (cfg : IterationConfig)
    (now : Z) (p : StateProcessor) : StateProcessor :=
  let values := (map_to_list (object_metrics p)).*2 in
  let common := aggregate metric_state_names values.*1 in
  let min_age := if metric_hold_time cfg <=? now then now - metric_hold_time cfg else now in
  mk_proc (processor_id p) (object_tasks p)
    (filter (λ '(_, (_, collected_at)), min_age ≤ collected_at) (object_metrics p))
    (completed_objects p) (requeue_objects p) (last_log_time p) now (stats p)
    (update now common (last_iteration_common_metrics p)).

Definition emit_metrics_if_necessary (metric_state_names : CS → string * string)
    (cfg : IterationConfig) (now : Z) (p : StateProcessor) : StateProcessor :=
  if now <? last_metric_emission_time p + metric_emission_interval cfg then p
  else emit_metrics metric_state_names cfg now p.

(** The state of [emit_periodic_log_if_necessary], without the query counters of
    the span *)
Definition emit_periodic_log_if_necessary (cfg : IterationConfig) (now : Z) (p : StateProcessor)
    : StateProcessor :=
  if now <? last_log_time p + processor_log_interval cfg then p
  else mk_proc (processor_id p) (object_tasks p) (object_metrics p) (completed_objects p)
         (requeue_objects p) now (last_metric_emission_time p) no_stats
         (last_iteration_common_metrics p).

(** The end of an iteration *)
Definition emit_if_necessary (metric_state_names : CS → string * string) (cfg : IterationConfig)
    (now : Z) (p : StateProcessor) : StateProcessor :=
  emit_periodic_log_if_necessary cfg now (emit_metrics_if_necessary metric_state_names cfg now p).

(** [run_single_iteration]: dispatch, wait, finalize, emit; an error ends it early.
    [q] is the queue table at the dispatch and [q_later] the one at the
    finalization, which others may have changed in between. *)
Definition run_single_iteration (metric_state_names : CS → string * string)
    (canon : string → option string) (cfg : IterationConfig)
    (now : Z) (scan : list string) (locked : gset string) (f_acquire : TxnFate)
    (finished : list (Task * ObjectHandlingTaskResult)) (allow_requeue : bool)
    (later : Z) (f_finalize : TxnFate) (p : StateProcessor) (q q_later : queue)
    : result string (nat * nat) * StateProcessor * queue :=
  match dequeue_and_dispatch canon cfg now scan locked f_acquire p q with
  | (Err e, p, q) => (Err e, p, q)
  | (Ok num_dispatched, p, _) =>
      let '(num_completed, p) := wait_and_process finished allow_requeue later p in
      match finalize_completed_objects later f_finalize p q_later with
      | (Err e, p, q) => (Err e, p, q)
      | (Ok _, p, q) =>
          (Ok (num_dispatched, num_completed), emit_if_necessary metric_state_names cfg later p, q)
      end
  end.

(** The length of an iteration of [run], with a third of it as jitter *)
Definition iteration_time (cfg : IterationConfig) (random : Z) : Z :=
  let max_jitter := (processor_dispatch_interval cfg / 3) mod 2 ^ 64 in
  processor_dispatch_interval cfg + if 0 <? max_jitter then random mod max_jitter else 0.

(** The sleep of [run] after an iteration: no backoff when [num_completed > 1]. *)
Definition next_dispatch_at (start time : Z) (r : result string (nat * nat)) : Z :=
  match r with
  | Ok (_, num_completed) => if bool_decide (1 < num_completed)%nat then start else start + time
  | Err _ => start + time
  end.

(** [drain]: the waits until the [JoinSet] is empty, each with the tasks that
    finish in it, then one attempt to finalize. *)
Fixpoint drain_tasks (waits : list (list (Task * ObjectHandlingTaskResult))) (now : Z)
    (p : StateProcessor) : StateProcessor :=
  match object_tasks p, waits with
  | [], _ => p
  | _, [] => p
  | _, finished :: waits => drain_tasks waits now (snd (wait_and_process finished true now p))
  end.

Definition drain (metric_state_names : CS → string * string) (cfg : IterationConfig)
    (waits : list (list (Task * ObjectHandlingTaskResult))) (now : Z) (f : TxnFate) (p : StateProcessor) (q : queue) : StateProcessor * queue :=
  let p := drain_tasks waits now p in
  let '(_, p, q) := finalize_completed_objects now f p q in
  (emit_metrics metric_state_names cfg now p, q).
End Processor.
Arguments StateProcessor : clear implicits.
Arguments ObjectHandlingTaskResult : clear implicits.

(** ** The system *)

Section System.
Context {CS : Type} (canon : string → option string) (cfg : IterationConfig).

Record System := mk_system {
  clock : Z;
  squeue : queue;
  procs : gmap string (StateProcessor CS);
}.

(** The time after which a row can be taken from its processor. *)
Definition stale_after : Z := max_object_handling_time cfg * 3.

(** What the environment grants: the longest time between taking a row and the end
    of its task (the handling timeout and the delay to start the task); whether
    the commit of [finalize_completed_objects] is always confirmed when it is
    performed; and whether finished objects are finalized before their rows
    become stale. *)
Record Assumptions := mk_assumptions {
  task_lease : Z;
  finalize_confirmed : bool;
  finalize_timely : bool;
}.

Context (A : Assumptions).

(** Time can pass to [t] only if no task overruns and, when finalization is
    timely, no finished object is left in a stale row of its processor. *)
Definition may_pass (t : Z) (s : System) : Prop :=
  ∀ id p, procs s !! id = Some p →
    Forall (λ k, t ≤ task_started k + task_lease A) (object_tasks p) ∧
    (finalize_timely A = true → ∀ o r, o ∈ completed_objects p → squeue s !! o = Some r →
       processed_by r = Some id → t ≤ processing_started_at r + stale_after).

Definition set_proc (s : System) (id : string) (p : StateProcessor CS) (q : queue) : System :=
  mk_system (clock s) q (<[id := p]> (procs s)).

Inductive step (s : System) : System → Prop :=
| step_tick t :
    clock s < t → may_pass t s → step s (mk_system t (squeue s) (procs s))
| step_enqueue ids :
    Forall (λ o, canon o = Some o) ids →
    step s (mk_system (clock s) (snd (queue_objects (clock s) (squeue s) ids)) (procs s))
| step_start id :
    procs s !! id = None → step s (set_proc s id (new_processor cfg (clock s) id) (squeue s))
| step_dispatch id p scan locked f r p' q' :
    procs s !! id = Some p → NoDup scan →
    dequeue_and_dispatch canon cfg (clock s) scan locked f p (squeue s) = (r, p', q') →
    step s (set_proc s id p' q')
| step_complete id p k r allow_requeue :
    procs s !! id = Some p → k ∈ object_tasks p → result_object r = task_object k →
    step s (set_proc s id (snd (wait_and_process [(k, r)] allow_requeue (clock s) p)) (squeue s))
| step_finalize id p f r p' q' :
    procs s !! id = Some p →
    (finalize_confirmed A = true → ∀ e, f ≠ Unconfirmed e true) →
    finalize_completed_objects (clock s) f p (squeue s) = (r, p', q') →
    step s (set_proc s id p' q')
| step_emit id p names :
    procs s !! id = Some p →
    step s (set_proc s id (emit_if_necessary names cfg (clock s) p) (squeue s))
| step_crash id p :
    procs s !! id = Some p → step s (mk_system (clock s) (squeue s) (delete id (procs s))).

Inductive reachable : System → Prop :=
| reachable_init t : reachable (mk_system t ∅ ∅)
| reachable_step s s' : reachable s → step s s' → reachable s'.

(** Two running tasks never have the same object. *)
Definition exclusive (s : System) : Prop :=
  (∀ id p, procs s !! id = Some p → NoDup (task_object <$> object_tasks p)) ∧
  (∀ id1 p1 k1 id2 p2 k2,
     procs s !! id1 = Some p1 → procs s !! id2 = Some p2 →
     k1 ∈ object_tasks p1 → k2 ∈ object_tasks p2 →
     task_object k1 = task_object k2 → id1 = id2).
End System.
