(* ===== verification/ProcessorFacts.v ===== *)
(** * What the system of processors guarantees

    Mutual exclusion of handlers and its limits, capacity, and the functional
    behaviour of finalization and draining. *)

From S2P Require Import Prelude Ordered ConfigVersion StateHandler ObjectQueue ProcessObject Processor.

Section Operations.
Context {CS : Type} (canon : string → option string) (cfg : IterationConfig).
Implicit Types p : StateProcessor CS.

(** The parts of a processor the system reasons about. *)
Definition same_sets p p' : Prop :=
  processor_id p' = processor_id p ∧ completed_objects p' = completed_objects p ∧
  requeue_objects p' = requeue_objects p.

Lemma foldl_dispatch now (os : list string) p :
  let p' := foldl (dispatch_object_handling_task now) p os in
  same_sets p p' ∧ object_tasks p' = object_tasks p ++ ((λ o, mk_task o now) <$> os).
Proof.
  revert p. induction os as [|o os IH]; intros p; simpl; [by rewrite app_nil_r|].
  destruct (IH (dispatch_object_handling_task now p o)) as [Hs Ht]. split; [done|].
  rewrite Ht. simpl. by rewrite <- app_assoc.
Qed.

Lemma omap_queued (ids : list string) (by_ : option string) :
  omap (λ qo, canon (queued_object_id qo)) ((λ o, mk_queued o by_) <$> ids) = omap canon ids.
Proof. induction ids as [|o ids IH]; csimpl; [done|]. by rewrite IH. Qed.

(** What dispatching does: the rows [ids] change hands, or nothing does, and the
    tasks of [os] are started, which are the parsed [ids] if the transaction was
    confirmed. *)
Lemma dispatch_cases now scan locked f p (q : queue) r p' q' :
  dequeue_and_dispatch canon cfg now scan locked f p q = (r, p', q') →
  ∃ ids os,
    same_sets p p' ∧
    object_tasks p' = object_tasks p ++ ((λ o, mk_task o now) <$> os) ∧
    q' = mark_rows now (processor_id p) ids q ∧
    (os = [] ∨ os = omap canon ids) ∧
    (length ids ≤ remaining_capacity cfg p)%nat ∧
    (NoDup scan → NoDup ids) ∧
    ∀ o, o ∈ ids → ∃ row, q !! o = Some row ∧ acquirable now (max_object_handling_time cfg * 3) row = true.
Proof.
  unfold dequeue_and_dispatch. case_bool_decide as Hcap.
  - unfold acquire_queued_objects. set (ids := dequeued_ids _ _ _ _ _ _).
    assert (Hids : (length ids ≤ remaining_capacity cfg p)%nat).
    { unfold ids. etransitivity; [apply dequeued_length|]. lia. }
    assert (Hnd : NoDup scan → NoDup ids) by (intros; by apply dequeued_NoDup).
    assert (Hacq : ∀ o, o ∈ ids → ∃ row, q !! o = Some row ∧
              acquirable now (max_object_handling_time cfg * 3) row = true)
      by (intros o Ho; by apply elem_of_dequeued in Ho as (_ & _ & ?)).
    destruct f as [|e [|]].
    + rewrite omap_queued. intros [= <- <- <-].
      destruct (foldl_dispatch now (omap canon ids)
                  (count_dispatched (length (omap canon ids)) p)) as [Hs Ht].
      exists ids, (omap canon ids). split_and!; auto.
    + intros [= <- <- <-]. exists ids, []. rewrite app_nil_r. split_and!; auto. done.
    + intros [= <- <- <-]. exists [], []. rewrite app_nil_r.
      split_and!; auto using NoDup_nil_2; [done|simpl; lia|by intros o ?%not_elem_of_nil].
  - intros [= <- <- <-]. exists [], []. simpl. rewrite app_nil_r.
    split_and!; auto using NoDup_nil_2; [done|lia|by intros o ?%not_elem_of_nil].
Qed.

Lemma omap_canon_id (ids : list string) :
  (∀ o, o ∈ ids → canon o = Some o) → omap canon ids = ids.
Proof.
  induction ids as [|o ids IH]; intros Hc; [done|]. simpl. rewrite Hc by (by left).
  f_equal. apply IH. intros. apply Hc. by right.
Qed.

End Operations.

Section Finalize.
Context {CS : Type}.
Implicit Types p : StateProcessor CS.

Lemma finalize_txn_lookup now p (q : queue) o :
  snd (finalize_txn now p q) !! o =
  match q !! o with
  | Some r =>
      if decide (o ∈ completed_objects p ∧ owned_by (processor_id p) r = true)
      then if decide (o ∈ requeue_objects p) then Some (fresh_row now) else None
      else Some r
  | None => if decide (o ∈ requeue_objects p) then Some (fresh_row now) else None
  end.
Proof.
  unfold finalize_txn.
  pose proof (delete_queued_objects_lookup (processor_id p) q (elements (completed_objects p)) o) as Hd.
  destruct (delete_queued_objects _ _ _) as [nd q1].
  pose proof (queue_objects_lookup now q1 (elements (requeue_objects p)) o) as Hq.
  destruct (queue_objects _ _ _) as [nq q2]. simpl in *. rewrite Hq, Hd.
  destruct (q !! o) as [r|]; repeat case_decide; try done; set_solver.
Qed.

Lemma finalize_cases now f p (q : queue) r p' q' :
  finalize_completed_objects now f p q = (r, p', q') →
  (p' = p ∧ q' = q) ∨
  (p' = p ∧ q' = snd (finalize_txn now p q) ∧ ∃ e, f = Unconfirmed e true) ∨
  (processor_id p' = processor_id p ∧ object_tasks p' = object_tasks p ∧
   completed_objects p' = ∅ ∧ requeue_objects p' = ∅ ∧ q' = snd (finalize_txn now p q)).
Proof.
  unfold finalize_completed_objects. case_decide; [intros [= <- <- <-]; by left|].
  destruct (finalize_txn now p q) as [[nd nq] q1]. destruct f as [|e []]; intros [= <- <- <-].
  - right. right. done.
  - right. left. eauto.
  - by left.
Qed.

Lemma complete_fields k r b now p :
  let p' := snd (wait_and_process [(k, r)] b now p) in
  processor_id p' = processor_id p ∧
  object_tasks p' = filter (λ t, ¬ (task_object t = task_object k ∧ task_started t = task_started k))
                      (object_tasks p) ∧
  completed_objects p' = {[result_object r]} ∪ completed_objects p ∧
  requeue_objects p' ⊆ {[result_object r]} ∪ requeue_objects p.
Proof. simpl. split_and!; try done. case_match; set_solver. Qed.

(** Emitting metrics and logs keeps the tasks and the objects to finalize. *)
Lemma emit_fields (names : CS → string * string) cfg now p :
  processor_id (emit_if_necessary names cfg now p) = processor_id p ∧
  object_tasks (emit_if_necessary names cfg now p) = object_tasks p ∧
  completed_objects (emit_if_necessary names cfg now p) = completed_objects p ∧
  requeue_objects (emit_if_necessary names cfg now p) = requeue_objects p.
Proof.
  unfold emit_if_necessary, emit_periodic_log_if_necessary, emit_metrics_if_necessary.
  destruct (now <? last_metric_emission_time p + _); destruct (now <? _); done.
Qed.
End Finalize.

(** ** Mutual exclusion *)

Section Exclusion.
Context {CS : Type} (canon : string → option string) (cfg : IterationConfig) (A : Assumptions).

Hypothesis Hlease : 0 ≤ task_lease A ≤ stale_after cfg.

(** The invariant of the system when finalization is confirmed and timely: every
    running task and every finished, not yet finalized object holds its row, and
    the row is not stale. *)
Record sys_inv (s : System (CS := CS)) : Prop := {
  inv_id id p : procs s !! id = Some p → processor_id p = id;
  inv_canon o : is_Some (squeue s !! o) → canon o = Some o;
  inv_nodup id p : procs s !! id = Some p → NoDup (task_object <$> object_tasks p);
  inv_task id p k :
    procs s !! id = Some p → k ∈ object_tasks p →
    squeue s !! task_object k = Some (mk_queue_row (Some id) (task_started k)) ∧
    task_object k ∉ completed_objects p ∧
    clock s ≤ task_started k + task_lease A;
  inv_completed id p o :
    procs s !! id = Some p → o ∈ completed_objects p →
    ∃ t, squeue s !! o = Some (mk_queue_row (Some id) t) ∧ clock s ≤ t + stale_after cfg;
  inv_requeue id p : procs s !! id = Some p → requeue_objects p ⊆ completed_objects p;
}.

(** The objects a processor holds. *)
Definition holds (p : StateProcessor CS) (o : string) : Prop :=
  o ∈ task_object <$> object_tasks p ∨ o ∈ completed_objects p.

Lemma inv_holds s id p o :
  sys_inv s → procs s !! id = Some p → holds p o →
  ∃ t, squeue s !! o = Some (mk_queue_row (Some id) t) ∧ clock s ≤ t + stale_after cfg.
Proof.
  intros Hi Hp [(k & -> & Hk)%list_elem_of_fmap|Ho]; [|by eapply inv_completed].
  destruct (inv_task _ Hi _ _ _ Hp Hk) as (Hrow & _ & Hlate). eexists. split; [done|]. lia.
Qed.

(** A held row cannot be acquired. *)
Lemma held_not_acquirable s id p o row :
  sys_inv s → procs s !! id = Some p → holds p o → squeue s !! o = Some row →
  acquirable (clock s) (stale_after cfg) row = false.
Proof.
  intros Hi Hp Ho Hrow. destruct (inv_holds _ _ _ _ Hi Hp Ho) as (t & Ht & Hlate).
  rewrite Ht in Hrow. injection Hrow as <-. unfold acquirable. simpl.
  by apply Z.ltb_ge.
Qed.

(** Replacing the state of one processor: the invariant of the others follows from
    the rows they hold being unchanged. *)
Lemma inv_set_proc s id p p' q' :
  sys_inv s → procs s !! id = Some p →
  processor_id p' = id →
  (∀ o, is_Some (q' !! o) → canon o = Some o) →
  (∀ id' pr o, id' ≠ id → procs s !! id' = Some pr → holds pr o → q' !! o = squeue s !! o) →
  NoDup (task_object <$> object_tasks p') →
  (∀ k, k ∈ object_tasks p' →
     q' !! task_object k = Some (mk_queue_row (Some id) (task_started k)) ∧
     task_object k ∉ completed_objects p' ∧ clock s ≤ task_started k + task_lease A) →
  (∀ o, o ∈ completed_objects p' →
     ∃ t, q' !! o = Some (mk_queue_row (Some id) t) ∧ clock s ≤ t + stale_after cfg) →
  requeue_objects p' ⊆ completed_objects p' →
  sys_inv (set_proc s id p' q').
Proof.
  intros Hi Hp Hid Hcan Hother Hnd Htask Hcomp Hreq. split; simpl.
  - intros id' pr Hpr. apply lookup_insert_Some in Hpr as [[<- <-]|[Hne Hpr]]; [done|].
    by eapply inv_id.
  - apply Hcan.
  - intros id' pr Hpr. apply lookup_insert_Some in Hpr as [[<- <-]|[Hne Hpr]]; [done|].
    by eapply inv_nodup.
  - intros id' pr k Hpr Hk. apply lookup_insert_Some in Hpr as [[<- <-]|[Hne Hpr]]; [by apply Htask|].
    rewrite (Hother id' pr) by (try done; left; by apply list_elem_of_fmap_2).
    by eapply inv_task.
  - intros id' pr o Hpr Ho. apply lookup_insert_Some in Hpr as [[<- <-]|[Hne Hpr]]; [by apply Hcomp|].
    rewrite (Hother id' pr) by (try done; by right). by eapply inv_completed.
  - intros id' pr Hpr. apply lookup_insert_Some in Hpr as [[<- <-]|[Hne Hpr]]; [done|].
    by eapply inv_requeue.
Qed.

Lemma inv_tick s t :
  finalize_timely A = true → sys_inv s → clock s < t → may_pass cfg A t s →
  sys_inv (mk_system t (squeue s) (procs s)).
Proof.
  intros Htimely [H1 H2 H3 H4 H5 H6] Ht Hpass. split; simpl; try done.
  - intros id p k Hp Hk. destruct (H4 id p k Hp Hk) as (? & ? & ?). split_and!; try done.
    destruct (Hpass id p Hp) as [Hf _]. rewrite Forall_forall in Hf. by apply Hf.
  - intros id p o Hp Ho. destruct (H5 id p o Hp Ho) as (t0 & Hrow & ?). exists t0. split; [done|].
    destruct (Hpass id p Hp) as [_ Hc]. by eapply (Hc Htimely o _ Ho Hrow).
Qed.

Lemma inv_enqueue s ids :
  sys_inv s → Forall (λ o, canon o = Some o) ids →
  sys_inv (mk_system (clock s) (snd (queue_objects (clock s) (squeue s) ids)) (procs s)).
Proof.
  intros [H1 H2 H3 H4 H5 H6] Hids. rewrite Forall_forall in Hids. split; simpl; try done.
  - intros o. rewrite queue_objects_lookup. destruct (squeue s !! o) eqn:E; [intros _; apply H2; eauto|].
    case_decide; [intros _; auto|by intros [? [=]]].
  - intros id p k Hp Hk. rewrite queue_objects_lookup. destruct (H4 id p k Hp Hk) as (-> & ?). done.
  - intros id p o Hp Ho. rewrite queue_objects_lookup.
    destruct (H5 id p o Hp Ho) as (t & -> & ?). eauto.
Qed.

Lemma inv_dispatch s id p scan locked f r p' q' :
  sys_inv s → procs s !! id = Some p → NoDup scan →
  dequeue_and_dispatch canon cfg (clock s) scan locked f p (squeue s) = (r, p', q') →
  sys_inv (set_proc s id p' q').
Proof.
  intros Hi Hp Hscan Hd.
  destruct (dispatch_cases _ _ _ _ _ _ _ _ _ _ _ Hd)
    as (ids & os & (Hid & Hcomp & Hreq) & Htasks & -> & Hos & _ & Hnd & Hacq).
  specialize (Hnd Hscan). rewrite (inv_id _ Hi _ _ Hp) in *.
  assert (Hfree : ∀ id' pr o, procs s !! id' = Some pr → holds pr o → o ∉ ids).
  { intros id' pr o Hpr Ho Hin. destruct (Hacq o Hin) as (row & Hrow & Ha).
    pose proof (held_not_acquirable _ _ _ _ _ Hi Hpr Ho Hrow) as Hn.
    unfold stale_after in Hn. congruence. }
  assert (Hkeep : ∀ id' pr o, procs s !! id' = Some pr → holds pr o →
                    mark_rows (clock s) id ids (squeue s) !! o = squeue s !! o).
  { intros id' pr o Hpr Ho. rewrite mark_rows_lookup. destruct (squeue s !! o); [|done].
    rewrite decide_False; [done|]. by eapply Hfree. }
  assert (Hcanon : ∀ o, o ∈ ids → canon o = Some o).
  { intros o Hin. destruct (Hacq o Hin) as (row & Hrow & _). apply (inv_canon _ Hi). eauto. }
  rewrite omap_canon_id in Hos by done.
  assert (Hsub : ∀ o, o ∈ os → o ∈ ids) by (destruct Hos as [->| ->]; [by intros ? ?%not_elem_of_nil|done]).
  apply (inv_set_proc _ _ p); try done.
  - intros o. rewrite mark_rows_lookup. destruct (squeue s !! o) eqn:E; [|by intros [? [=]]].
    intros _. apply (inv_canon _ Hi). eauto.
  - intros. by eapply Hkeep.
  - rewrite Htasks, fmap_app, <- list_fmap_compose. change (task_object ∘ _) with (@Datatypes.id string).
    rewrite list_fmap_id. apply NoDup_app. split_and!.
    + by eapply inv_nodup.
    + intros o Ho Hin. eapply Hfree; [exact Hp|by left|by apply Hsub].
    + destruct Hos as [->| ->]; [constructor|done].
  - intros k. rewrite Htasks, Hcomp, elem_of_app. intros [Hk|(o & -> & Ho)%list_elem_of_fmap]; simpl.
    + rewrite (Hkeep id p) by (try done; left; by apply list_elem_of_fmap_2). by eapply inv_task.
    + apply Hsub in Ho. destruct (Hacq o Ho) as (row & Hrow & _). split_and!.
      * rewrite mark_rows_lookup, Hrow. by rewrite decide_True.
      * intros Hc. eapply Hfree; [exact Hp|by right|done].
      * lia.
  - intros o. rewrite Hcomp. intros Ho. rewrite (Hkeep id p) by (try done; by right).
    by eapply inv_completed.
  - rewrite Hcomp, Hreq. by eapply inv_requeue.
Qed.

Lemma inv_start s id :
  sys_inv s → procs s !! id = None → sys_inv (set_proc s id (new_processor cfg (clock s) id) (squeue s)).
Proof.
  intros [H1 H2 H3 H4 H5 H6] Hnone. split; simpl; [|done|..].
  - intros id' p [[<- <-]|[_ Hp]]%lookup_insert_Some; eauto.
  - intros id' p [[<- <-]|[_ Hp]]%lookup_insert_Some; [constructor|eauto].
  - intros id' p k [[<- <-]|[_ Hp]]%lookup_insert_Some; [|by eauto]. by intros ?%not_elem_of_nil.
  - intros id' p o [[<- <-]|[_ Hp]]%lookup_insert_Some; [|by eauto]. by intros ?%not_elem_of_empty.
  - intros id' p [[<- <-]|[_ Hp]]%lookup_insert_Some; [done|eauto].
Qed.

Lemma inv_complete s id p k r b :
  sys_inv s → procs s !! id = Some p → k ∈ object_tasks p → result_object r = task_object k →
  sys_inv (set_proc s id (snd (wait_and_process [(k, r)] b (clock s) p)) (squeue s)).
Proof.
  intros Hi Hp Hk Hr.
  destruct (complete_fields k r b (clock s) p) as (Hid & Htasks & Hcomp & Hreq).
  destruct (inv_task _ Hi _ _ _ Hp Hk) as (Hrow & Hkc & Hlate).
  apply (inv_set_proc _ _ p); try done.
  - rewrite Hid. by eapply inv_id.
  - apply (inv_canon _ Hi).
  - rewrite Htasks. eapply sublist_NoDup; [by eapply (inv_nodup _ Hi)|].
    apply fmap_sublist, sublist_filter.
  - intros k'. rewrite Htasks, list_elem_of_filter, Hcomp. intros [Hne Hk'].
    destruct (inv_task _ Hi _ _ _ Hp Hk') as (Hrow' & Hkc' & Hlate'). split_and!; try done.
    rewrite Hr, not_elem_of_union, not_elem_of_singleton. split; [|done]. intros Heq.
    rewrite Heq, Hrow in Hrow'. apply Hne. split; [done|]. congruence.
  - intros o. rewrite Hcomp, Hr, elem_of_union, elem_of_singleton. intros [->|Ho].
    + eexists. split; [done|]. lia.
    + by eapply inv_completed.
  - rewrite Hcomp. etransitivity; [exact Hreq|]. pose proof (inv_requeue _ Hi _ _ Hp). set_solver.
Qed.

Lemma inv_finalize s id p f r p' q' :
  sys_inv s → procs s !! id = Some p → (∀ e, f ≠ Unconfirmed e true) →
  finalize_completed_objects (clock s) f p (squeue s) = (r, p', q') →
  sys_inv (set_proc s id p' q').
Proof.
  intros Hi Hp Hconf Hf. pose proof (inv_id _ Hi _ _ Hp) as Hid.
  destruct (finalize_cases _ _ _ _ _ _ _ Hf)
    as [[-> ->]|[(_ & _ & e & ->)|(Hid' & Htasks & Hcomp & Hreq & ->)]].
  - apply (inv_set_proc _ _ p); try done; intros.
    + by apply (inv_canon _ Hi).
    + by eapply inv_nodup.
    + by eapply inv_task.
    + by eapply inv_completed.
    + by eapply inv_requeue.
  - by destruct (Hconf e).
  - apply (inv_set_proc _ _ p); try done.
    + congruence.
    + intros o. rewrite finalize_txn_lookup. intros Ho. apply (inv_canon _ Hi).
      destruct (squeue s !! o) eqn:E; [eauto|]. case_decide as Hreq0; [|by destruct Ho].
      apply (inv_requeue _ Hi _ _ Hp) in Hreq0.
      destruct (inv_completed _ Hi _ _ _ Hp Hreq0) as (t & Ht & _). congruence.
    + intros id' pr o Hne Hpr Ho. rewrite finalize_txn_lookup.
      destruct (inv_holds _ _ _ _ Hi Hpr Ho) as (t & -> & _).
      rewrite decide_False; [done|]. unfold owned_by. simpl. rewrite bool_decide_eq_true. naive_solver.
    + rewrite Htasks. by eapply inv_nodup.
    + intros k. rewrite Htasks. intros Hk.
      destruct (inv_task _ Hi _ _ _ Hp Hk) as (Hrow & Hkc & Hlate). split_and!; [|set_solver|done].
      rewrite finalize_txn_lookup, Hrow. rewrite decide_False; [done|]. naive_solver.
    + rewrite Hcomp. by intros o ?%not_elem_of_empty.
    + by rewrite Hreq.
Qed.

Lemma inv_emit s id p names :
  sys_inv s → procs s !! id = Some p →
  sys_inv (set_proc s id (emit_if_necessary names cfg (clock s) p) (squeue s)).
Proof.
  intros Hi Hp. destruct (emit_fields names cfg (clock s) p) as (Hid & Ht & Hc & Hr).
  apply (inv_set_proc _ _ p); rewrite ?Hid, ?Ht, ?Hc, ?Hr; try done.
  - by eapply inv_id.
  - apply (inv_canon _ Hi).
  - by eapply inv_nodup.
  - intros k. by eapply inv_task.
  - intros o. by eapply inv_completed.
  - by eapply inv_requeue.
Qed.

Lemma inv_crash s id :
  sys_inv s → sys_inv (mk_system (clock s) (squeue s) (delete id (procs s))).
Proof.
  intros [H1 H2 H3 H4 H5 H6]. split; simpl; try done; intros id' p;
    [| |intros k|intros o|]; intros [_ Hp]%lookup_delete_Some; eauto.
Qed.

Lemma inv_exclusive s : sys_inv s → exclusive s.
Proof.
  intros Hi. split; [apply (inv_nodup _ Hi)|].
  intros id1 p1 k1 id2 p2 k2 Hp1 Hp2 Hk1 Hk2 Heq.
  destruct (inv_task _ Hi _ _ _ Hp1 Hk1) as (Hrow1 & _).
  destruct (inv_task _ Hi _ _ _ Hp2 Hk2) as (Hrow2 & _).
  rewrite Heq in Hrow1. congruence.
Qed.

Lemma reachable_inv s :
  finalize_confirmed A = true → finalize_timely A = true →
  reachable canon cfg A s → sys_inv s.
Proof.
  intros Hconf Htimely. induction 1 as [t|s s' Hr IH Hstep].
  { split; simpl; intros; by simplify_map_eq. }
  destruct Hstep.
  - by apply inv_tick.
  - by apply inv_enqueue.
  - by apply inv_start.
  - by eapply inv_dispatch.
  - by eapply inv_complete.
  - eapply inv_finalize; eauto.
  - by apply inv_emit.
  - by apply inv_crash.
Qed.

(** C1: Only one handler runs for an object at any time, over all processors of the
    site, in every interleaving of enqueuing, dispatching, completing and
    finalizing, with processors that crash and acquisitions that are not
    confirmed; provided that a task ends before its row becomes stale (three
    times the handling timeout), that finished objects are finalized before that,
    and that a finalization the database performs is also confirmed. *)
Theorem handlers_exclusive (s : System (CS := CS))
    (Hconf : finalize_confirmed A = true) (Htimely : finalize_timely A = true)
    (Hreach : reachable canon cfg A s) : exclusive s.
Proof using Hlease. by apply inv_exclusive, reachable_inv. Qed.

(** Under the same assumptions every running task holds its queue row with the time
    it was taken, so nobody can take the object over or delete its row while its
    handler runs. *)
Theorem running_task_holds_row (s : System (CS := CS)) id p k
    (Hconf : finalize_confirmed A = true) (Htimely : finalize_timely A = true)
    (Hreach : reachable canon cfg A s)
    (Hp : procs s !! id = Some p) (Hk : k ∈ object_tasks p) :
  squeue s !! task_object k = Some (mk_queue_row (Some id) (task_started k)) ∧
  acquirable (clock s) (stale_after cfg) (mk_queue_row (Some id) (task_started k)) = false.
Proof using Hlease.
  pose proof (reachable_inv s Hconf Htimely Hreach) as Hi.
  destruct (inv_task _ Hi _ _ _ Hp Hk) as (Hrow & _ & _). split; [done|].
  eapply held_not_acquirable; [done..| |exact Hrow]. left. by apply list_elem_of_fmap_2.
Qed.
End Exclusion.

(** *** Executable steps, for concrete runs *)

Section Runs.
Context {CS : Type} (cfg : IterationConfig) (A : Assumptions).
Notation System := (System (CS := CS)).
Notation reach := (reachable (CS := CS) Some cfg A).

Definition proc_of (s : System) (id : string) : StateProcessor CS :=
  default (new_processor cfg (clock s) id) (procs s !! id).

Definition do_start (id : string) (s : System) : System :=
  set_proc s id (new_processor cfg (clock s) id) (squeue s).

Definition do_enqueue (ids : list string) (s : System) : System :=
  mk_system (clock s) (snd (queue_objects (clock s) (squeue s) ids)) (procs s).

Definition do_dispatch (id : string) (scan : list string) (s : System) : System :=
  let '(_, p, q) :=
    dequeue_and_dispatch Some cfg (clock s) scan ∅ Confirmed (proc_of s id) (squeue s) in
  set_proc s id p q.

Definition do_complete (id : string) (k : Task) (m : CommonObjectHandlerMetrics CS) (s : System)
    : System :=
  set_proc s id
    (snd (wait_and_process [(k, mk_task_result (task_object k) m)] true (clock s) (proc_of s id)))
    (squeue s).

Definition do_finalize (id : string) (f : TxnFate) (s : System) : System :=
  let '(_, p, q) := finalize_completed_objects (clock s) f (proc_of s id) (squeue s) in
  set_proc s id p q.

Definition running (id : string) (s : System) : bool := bool_decide (is_Some (procs s !! id)).

Lemma running_proc id s : running id s = true → procs s !! id = Some (proc_of s id).
Proof.
  unfold running, proc_of. intros Hr. apply bool_decide_eq_true in Hr as [p ->]. done.
Qed.

Lemma reach_start id s : running id s = false → reach s → reach (do_start id s).
Proof.
  intros Hr Hs. eapply reachable_step; [done|]. apply step_start.
  apply bool_decide_eq_false in Hr. by apply eq_None_not_Some.
Qed.

Lemma reach_enqueue ids s : reach s → reach (do_enqueue ids s).
Proof.
  intros Hs. eapply reachable_step; [done|]. apply step_enqueue. by apply Forall_forall.
Qed.

Lemma step_do_dispatch id scan s :
  running id s = true → NoDup scan → step Some cfg A s (do_dispatch id scan s).
Proof.
  intros Hr Hnd. unfold do_dispatch.
  destruct (dequeue_and_dispatch _ _ _ _ _ _ _ _) as [[r p] q] eqn:E.
  eapply step_dispatch; [by apply running_proc|done|exact E].
Qed.

Lemma reach_dispatch id scan s :
  running id s = true → NoDup scan → reach s → reach (do_dispatch id scan s).
Proof. intros. by eapply reachable_step, step_do_dispatch. Qed.

Lemma reach_complete id k m s :
  running id s = true → k ∈ object_tasks (proc_of s id) → reach s → reach (do_complete id k m s).
Proof.
  intros Hr Hk Hs. eapply reachable_step; [done|].
  apply step_complete; [by apply running_proc|done|done].
Qed.

Lemma reach_finalize id f s :
  running id s = true → (finalize_confirmed A = true → ∀ e, f ≠ Unconfirmed e true) →
  reach s → reach (do_finalize id f s).
Proof.
  intros Hr Hf Hs. eapply reachable_step; [done|]. unfold do_finalize.
  destruct (finalize_completed_objects _ _ _ _) as [[r p] q] eqn:E.
  eapply step_finalize; [by apply running_proc|done|exact E].
Qed.
End Runs.

Module Runs.
Definition cfg : IterationConfig := mk_config 10 4 2 60 60 300.
Definition all_granted : Assumptions := mk_assumptions 10 true true.
Definition unconfirmed_finalize : Assumptions := mk_assumptions 10 false true.
Definition late_finalize : Assumptions := mk_assumptions 10 true false.

(** The metrics of a run that transitioned. *)
Definition moved : CommonObjectHandlerMetrics bool :=
  mk_metrics (Some false) (Some true) false 0 false None (Some 1) 0 None.

Definition s0 : System (CS := bool) := mk_system 0 ∅ ∅.
Definition s_two_running : System (CS := bool) :=
  do_dispatch cfg "p2" ["b"] (do_enqueue ["b"]
    (do_dispatch cfg "p1" ["a"] (do_enqueue ["a"] (do_start cfg "p2" (do_start cfg "p1" s0))))).

(** The object [a] is handled and finalized, but the commit is not confirmed; it is
    taken again, its row is deleted under the running handler by the next
    finalization, which also queues it, and it is taken a third time. *)
Definition s_taken_twice : System (CS := bool) :=
  do_finalize cfg "p1" (Unconfirmed "connection reset" true)
    (do_complete cfg "p1" (mk_task "a" 0) moved
       (do_dispatch cfg "p1" ["a"] (do_enqueue ["a"] (do_start cfg "p1" s0)))).

Definition s_double : System (CS := bool) :=
  do_dispatch cfg "p1" ["a"] (do_finalize cfg "p1" Confirmed (do_dispatch cfg "p1" ["a"] s_taken_twice)).

Lemma reach_s0 A : reachable Some cfg A s0.
Proof. apply reachable_init. Qed.

(** The steps of a concrete run: their side conditions evaluate. *)
Ltac by_run :=
  repeat lazymatch goal with
  | |- reachable _ _ _ s0 => apply reach_s0
  | |- reachable _ _ _ (do_enqueue _ _) => apply reach_enqueue
  | |- reachable _ _ _ (do_start _ _ _) => apply reach_start; [vm_compute; reflexivity|]
  | |- reachable _ _ _ (do_dispatch _ _ _ _) =>
      apply reach_dispatch; [vm_compute; reflexivity|apply (bool_decide_unpack _); by vm_compute|]
  | |- reachable _ _ _ (do_complete _ _ _ _ _) =>
      apply reach_complete; [vm_compute; reflexivity|vm_compute; by left|]
  | |- reachable _ _ _ (do_finalize _ _ _ _) => apply reach_finalize; [vm_compute; reflexivity|done|]
  end.

Lemma reach_two_running : reachable Some cfg all_granted s_two_running.
Proof. unfold s_two_running. by_run. Qed.
End Runs.
Import Runs.

Lemma handlers_exclusive_witness :
  exclusive s_two_running ∧
  (object_tasks <$> procs s_two_running !! "p2") = Some [mk_task "b" 0].
Proof.
  split; [|vm_compute; reflexivity].
  apply (handlers_exclusive Some cfg all_granted); try done. apply reach_two_running.
Defined.

Lemma running_task_holds_row_witness :
  squeue s_two_running !! "b" = Some (mk_queue_row (Some "p2") 0).
Proof.
  destruct (procs s_two_running !! "p2") as [p|] eqn:Hp; [|vm_compute in Hp; discriminate Hp].
  apply (running_task_holds_row Some cfg all_granted) with (id := "p2") (p := p) (k := mk_task "b" 0);
    try done; [apply reach_two_running|].
  assert (Ht : (object_tasks <$> procs s_two_running !! "p2") = Some [mk_task "b" 0])
    by (vm_compute; reflexivity).
  rewrite Hp in Ht. injection Ht as ->. by left.
Defined.

(** Without the confirmation of finalizing commits the exclusion fails: after a
    commit that was performed but reported as an error, the processor still lists
    the object as completed, so once it has taken the object again its next
    finalization deletes the row under the running handler and queues the object,
    and a second handler of the same object starts while the first runs. *)
Theorem unconfirmed_finalize_double_handling :
  ∃ s : System (CS := bool), reachable Some cfg unconfirmed_finalize s ∧ ¬ exclusive s ∧
    (λ p, task_object <$> object_tasks p) <$> procs s !! "p1" = Some ["a"; "a"].
Proof.
  exists s_double.
  assert (Ht : (λ p, task_object <$> object_tasks p) <$> procs s_double !! "p1" = Some ["a"; "a"])
    by (vm_compute; reflexivity).
  split_and!; [unfold s_double, s_taken_twice; by_run| |exact Ht].
  intros [Hnd _]. destruct (procs s_double !! "p1") as [p|] eqn:Hp; [|done].
  injection Ht as Ht. specialize (Hnd "p1" p Hp). rewrite Ht in Hnd.
  apply NoDup_cons in Hnd as [Hno _]. apply Hno. by left.
Qed.

(** *** When finalization is late *)

Module Late.
(** The object [a] is handled, but finalizing fails until its row is stale. *)
Definition s_handled : System (CS := bool) :=
  do_finalize cfg "p1" (Unconfirmed "database down" false)
    (do_complete cfg "p1" (mk_task "a" 0) moved
       (do_dispatch cfg "p1" ["a"] (do_enqueue ["a"] (do_start cfg "p2" (do_start cfg "p1" s0))))).

Definition s_later : System (CS := bool) := mk_system 31 (squeue s_handled) (procs s_handled).

Definition s_two_handlers : System (CS := bool) :=
  do_dispatch cfg "p2" ["a"] (do_finalize cfg "p1" Confirmed (do_dispatch cfg "p1" ["a"] s_later)).

Lemma s_later_reachable : reachable Some cfg late_finalize s_later.
Proof.
  apply (reachable_step _ _ _ s_handled); [unfold s_handled; by_run|]. apply step_tick.
  - vm_compute. reflexivity.
  - assert (Hf : map_Forall (λ _ p, object_tasks p = []) (procs s_handled))
      by (apply (bool_decide_unpack _); vm_compute; done).
    intros id p Hp. rewrite (Hf id p Hp). split; [constructor|]. by intros [=].
Qed.
End Late.

(** Late finalization also breaks the exclusion: when the finalization of a
    handled object fails until its row is stale, the processor takes the row again,
    the pending finalization then deletes it under the running handler, and
    another processor starts a second handler of the same object. *)
Theorem late_finalize_double_handling :
  ∃ s : System (CS := bool), reachable Some cfg late_finalize s ∧ ¬ exclusive s ∧
    (object_tasks <$> procs s !! "p1") = Some [mk_task "a" 31] ∧
    (object_tasks <$> procs s !! "p2") = Some [mk_task "a" 31].
Proof.
  exists Late.s_two_handlers.
  assert (Ht1 : (object_tasks <$> procs Late.s_two_handlers !! "p1") = Some [mk_task "a" 31])
    by (vm_compute; reflexivity).
  assert (Ht2 : (object_tasks <$> procs Late.s_two_handlers !! "p2") = Some [mk_task "a" 31])
    by (vm_compute; reflexivity).
  split_and!; [unfold Late.s_two_handlers; by_run; apply Late.s_later_reachable
             | |exact Ht1|exact Ht2].
  intros [_ Hex].
  destruct (procs Late.s_two_handlers !! "p1") as [p1|] eqn:Hp1; [|discriminate Ht1].
  destruct (procs Late.s_two_handlers !! "p2") as [p2|] eqn:Hp2; [|discriminate Ht2].
  injection Ht1 as Ht1. injection Ht2 as Ht2.
  specialize (Hex "p1" p1 (mk_task "a" 31) "p2" p2 (mk_task "a" 31) Hp1 Hp2).
  rewrite Ht1, Ht2 in Hex. discriminate Hex; [by left..|done].
Qed.

(** ** Capacity, finalization and draining *)

Section Functional.
Context {CS : Type} (canon : string → option string) (cfg : IterationConfig).

Lemma omap_length_le (l : list string) : (length (omap canon l) ≤ length l)%nat.
Proof. induction l as [|o l IH]; csimpl; [lia|]. destruct (canon o); simpl; lia. Qed.

(** No processor ever runs more tasks than its configured concurrency, in any
    interleaving and with any failures. *)
Theorem concurrency_bounded (A : Assumptions) (s : System (CS := CS)) id p
    (Hreach : reachable canon cfg A s) (Hp : procs s !! id = Some p) :
  (length (object_tasks p) ≤ max_concurrency cfg)%nat.
Proof.
  revert id p Hp. induction Hreach as [t|s s' Hr IH Hstep]; [by intros; simplify_map_eq|].
  destruct Hstep as [| |id0|id0 p0 scan locked f r p' q' Hp0 Hscan Hd|id0 p0 k r b Hp0 Hk Hr0
                    |id0 p0 f r p' q' Hp0 Hconf Hf|id0 p0 names Hp0|id0 p0 Hp0]; simpl; intros id p Hp; try (by eauto).
  - apply lookup_insert_Some in Hp as [[<- <-]|[_ Hp]]; [simpl; lia|eauto].
  - apply lookup_insert_Some in Hp as [[<- <-]|[_ Hp]]; [|eauto]. specialize (IH _ _ Hp0).
    destruct (dispatch_cases _ _ _ _ _ _ _ _ _ _ _ Hd) as (ids & os & _ & -> & _ & Hos & Hlen & _).
    rewrite length_app, length_fmap. unfold remaining_capacity in Hlen.
    assert (length os ≤ length ids)%nat; [|lia].
    destruct Hos as [->| ->]; [simpl; lia|apply omap_length_le].
  - apply lookup_insert_Some in Hp as [[<- <-]|[_ Hp]]; [|eauto]. specialize (IH _ _ Hp0).
    simpl. etransitivity; [apply length_filter|done].
  - apply lookup_insert_Some in Hp as [[<- <-]|[_ Hp]]; [|eauto]. specialize (IH _ _ Hp0).
    by destruct (finalize_cases _ _ _ _ _ _ _ Hf) as [[-> _]|[(-> & _)|(_ & -> & _)]].
  - apply lookup_insert_Some in Hp as [[<- <-]|[_ Hp]]; [|eauto].
    destruct (emit_fields names cfg (clock s) p0) as (_ & -> & _). by eapply IH.
  - apply lookup_delete_Some in Hp as [_ Hp]. eauto.
Qed.

End Functional.

Section Releasing.
Context {CS : Type}.

(** Finalizing is all or nothing: unless its transaction is performed neither the
    queue nor the processor changes, so the finished objects are retried; when it
    is confirmed, every object to handle again is in the queue, a finished object
    that is not is gone if the processor still holds its row, no row held by
    another processor is touched, and nothing is left to finalize. *)
Theorem finalize_spec (now : Z) (f : TxnFate) (p : StateProcessor CS) (q : queue) :
  let '(r, p', q') := finalize_completed_objects now f p q in
  (∀ e, f = Unconfirmed e false → p' = p ∧ q' = q) ∧
  (f = Confirmed → requeue_objects p ⊆ completed_objects p →
     r = Ok tt ∧ completed_objects p' = ∅ ∧ requeue_objects p' = ∅ ∧
     object_tasks p' = object_tasks p ∧
     (∀ o, o ∈ requeue_objects p → is_Some (q' !! o)) ∧
     (∀ o row, o ∈ completed_objects p → q !! o = Some row → owned_by (processor_id p) row = true →
        q' !! o = if decide (o ∈ requeue_objects p) then Some (fresh_row now) else None) ∧
     (∀ o row, q !! o = Some row → owned_by (processor_id p) row = false → q' !! o = Some row)).
Proof.
  unfold finalize_completed_objects. case_decide as Hempty.
  - split; [done|]. intros _ Hsub. rewrite Hempty in *.
    assert (requeue_objects p = ∅) as -> by set_solver.
    split_and!; try done; set_solver.
  - pose proof (finalize_txn_lookup now p q) as Hq.
    destruct (finalize_txn now p q) as [[nd nq] q']. simpl in Hq.
    destruct f as [|e []]; (split; [by intros ? [=]|]); [|by intros [=]..].
    intros _ Hsub. split_and!; try done.
    + intros o Ho. rewrite Hq. destruct (q !! o) as [row|]; repeat case_decide; eauto; done.
    + intros o row Ho Hrow Hown. rewrite Hq, Hrow. by rewrite decide_True.
    + intros o row Hrow Hown. rewrite Hq, Hrow. rewrite decide_False; [done|]. intros [_ ?]; congruence.
Qed.

(** Results that belong to their tasks. *)
Definition matching (finished : list (Task * ObjectHandlingTaskResult CS)) : Prop :=
  Forall (λ f, result_object (snd f) = task_object (fst f)) finished.

Lemma process_results_fields (finished : list (Task * ObjectHandlingTaskResult CS)) b now p :
  let p' := foldl (λ p f, process_object_handling_task_result (snd f) b now p) p finished in
  processor_id p' = processor_id p ∧ object_tasks p' = object_tasks p ∧
  (∀ o, o ∈ completed_objects p' ↔
        o ∈ completed_objects p ∨ o ∈ (λ f, result_object (snd f)) <$> finished) ∧
  (requeue_objects p ⊆ completed_objects p → requeue_objects p' ⊆ completed_objects p').
Proof.
  revert p. induction finished as [|f fs IH]; intros p; simpl.
  - split_and!; try done. intros o. rewrite elem_of_nil. tauto.
  - destruct (IH (process_object_handling_task_result (snd f) b now p)) as (Hid & Ht & Hc & Hr).
    split_and!; [done..| |].
    + intros o. rewrite Hc, elem_of_cons. simpl. set_solver.
    + intros Hsub. apply Hr. simpl. case_match; set_solver.
Qed.

Lemma elem_of_join (finished : list (Task * ObjectHandlingTaskResult CS)) (ts : list Task) k :
  k ∈ ts →
  k ∈ foldl (λ ts f, filter (λ t, ¬ (task_object t = task_object (fst f) ∧
                                    task_started t = task_started (fst f))) ts) ts finished ∨
  ∃ f, f ∈ finished ∧ task_object (fst f) = task_object k.
Proof.
  revert ts. induction finished as [|f fs IH]; intros ts Hk; simpl; [by left|].
  destruct (decide (task_object k = task_object (fst f) ∧ task_started k = task_started (fst f)))
    as [[Ho _]|Hno].
  - right. exists f. split; [by left|done].
  - destruct (IH (filter (λ t, ¬ (task_object t = task_object (fst f) ∧
                                   task_started t = task_started (fst f))) ts)) as [Hin|(f' & Hf & Ho)].
    + by apply list_elem_of_filter.
    + by left.
    + right. exists f'. split; [by right|done].
Qed.

(** Waiting neither forgets an object nor drops a task that did not finish. *)
Lemma wait_holds finished b now (p : StateProcessor CS) o :
  matching finished → holds p o → holds (snd (wait_and_process finished b now p)) o.
Proof.
  intros Hm Ho. simpl.
  destruct (process_results_fields finished b now (join_many finished p)) as (_ & Ht & Hc & _).
  unfold holds. rewrite Ht, Hc. simpl.
  destruct Ho as [(k & -> & Hk)%list_elem_of_fmap|Ho]; [|by right; left].
  destruct (elem_of_join finished _ _ Hk) as [Hin|(f & Hf & Heq)].
  - left. by apply list_elem_of_fmap_2.
  - right. right. unfold matching in Hm. rewrite Forall_forall in Hm.
    rewrite <- Heq, <- (Hm f Hf). by apply (list_elem_of_fmap_2 (λ f, result_object (snd f))).
Qed.

Lemma drain_tasks_holds waits now (p : StateProcessor CS) o :
  Forall matching waits → holds p o → holds (drain_tasks waits now p) o.
Proof.
  intros Hm. revert p. induction Hm as [|fs waits Hfs _ IH]; intros p Ho; simpl.
  - by destruct (object_tasks p).
  - destruct (object_tasks p) eqn:E; [done|]. by apply IH, wait_holds.
Qed.

Lemma drain_tasks_id waits now (p : StateProcessor CS) :
  processor_id (drain_tasks waits now p) = processor_id p.
Proof.
  revert p. induction waits as [|fs waits IH]; intros p; simpl; destruct (object_tasks p); try done.
  rewrite IH. by destruct (process_results_fields fs true now (join_many fs p)) as (-> & _).
Qed.

(** A drained processor leaves nothing behind: once the waits have emptied its task
    set and the finalization is confirmed, no row of an object it was running or
    had finished is still marked as its own, so other processors need not wait
    for the rows to become stale. *)
Theorem drain_releases_rows names (cfg : IterationConfig) waits now (p : StateProcessor CS) (q : queue) o row
    (Hmatch : Forall matching waits)
    (Hdone : object_tasks (drain_tasks waits now p) = [])
    (Hheld : holds p o)
    (Hrow : snd (drain names cfg waits now Confirmed p q) !! o = Some row) :
  processed_by row ≠ Some (processor_id p).
Proof.
  unfold drain in Hrow. apply (drain_tasks_holds waits now) in Hheld; [|done].
  rewrite <- (drain_tasks_id waits now p). set (p1 := drain_tasks waits now p) in *.
  destruct Hheld as [Ht|Hc]; [by rewrite Hdone in Ht; apply not_elem_of_nil in Ht|].
  unfold finalize_completed_objects in Hrow. case_decide as He; [set_solver|].
  pose proof (finalize_txn_lookup now p1 q o) as Hq.
  destruct (finalize_txn now p1 q) as [[nd nq] q']. simpl in Hq, Hrow. rewrite Hrow in Hq.
  intros Hown.
  destruct (q !! o) as [r0|]; [case_decide as Hdel|].
  2: { injection Hq as <-. apply Hdel. split; [done|]. by apply bool_decide_eq_true. }
  all: case_decide; simplify_eq/=.
Qed.
End Releasing.

(** ** The iteration as steps of the system *)

Section Iteration.
Context {CS : Type} (canon : string → option string) (cfg : IterationConfig) (A : Assumptions).
Notation System := (System (CS := CS)).
Notation step := (step (CS := CS) canon cfg A).
Implicit Types (p : StateProcessor CS) (s : System).

(** Tasks of [p] that have finished, each once and with a result for its object. *)
Definition finished_of p (finished : list (Task * ObjectHandlingTaskResult CS)) : Prop :=
  NoDup finished.*1 ∧
  Forall (λ f, fst f ∈ object_tasks p ∧ result_object (snd f) = task_object (fst f)) finished.

Lemma set_proc_twice s id p1 q1 p2 q2 :
  set_proc (set_proc s id p1 q1) id p2 q2 = set_proc s id p2 q2.
Proof. unfold set_proc. simpl. by rewrite insert_insert_eq. Qed.

(** Joining several tasks at once is joining one after the other. *)
Lemma wait_and_process_cons f fs b now p :
  snd (wait_and_process (f :: fs) b now p) =
  snd (wait_and_process fs b now (snd (wait_and_process [f] b now p))).
Proof. reflexivity. Qed.

Lemma finished_of_cons f fs b now p :
  finished_of p (f :: fs) → finished_of (snd (wait_and_process [f] b now p)) fs.
Proof.
  intros [Hnd Hf]. csimpl in Hnd. apply NoDup_cons in Hnd as [Hnot Hnd].
  apply Forall_cons in Hf as [_ Hf]. split; [done|].
  rewrite Forall_forall in Hf |- *. intros g Hg. destruct (Hf g Hg) as [Hin Hr]. split; [|done].
  simpl. apply list_elem_of_filter. split; [|done]. intros [Ho Ht]. apply Hnot.
  apply list_elem_of_fmap. exists g. split; [|done].
  destruct (fst f), (fst g). simpl in *. congruence.
Qed.

Lemma steps_complete fs b s id p :
  procs s !! id = Some p → finished_of p fs →
  rtc step s (set_proc s id (snd (wait_and_process fs b (clock s) p)) (squeue s)).
Proof.
  revert s p. induction fs as [|f fs IH]; intros s p Hp Hf.
  - unfold set_proc. simpl. destruct s, p; simpl in *. unfold join_many, set_work. simpl.
    by rewrite insert_id.
  - rewrite wait_and_process_cons.
    set (p1 := snd (wait_and_process [f] b (clock s) p)).
    apply rtc_l with (set_proc s id p1 (squeue s)).
    + destruct Hf as [_ [[Hk Hr] _]%Forall_cons]. destruct f as [k r]. by apply step_complete.
    + rewrite <- (set_proc_twice s id p1 (squeue s) (snd (wait_and_process fs b (clock s) p1))).
      apply (IH (set_proc s id p1 (squeue s))).
      * simpl. by rewrite lookup_insert_eq.
      * by apply finished_of_cons.
Qed.

(** Every iteration of a processor is a run of the system: it dispatches in one
    step; the others run to [s2]; then its finished tasks complete, their rows are
    finalized and the metrics are emitted; when the dispatch or the finalization
    fails it stops there.  What holds in all reachable states of the system hence
    holds before and after every iteration. *)
Theorem iteration_refines_steps names s id p scan locked f_acquire r1 p1 q1 s2
    finished allow_requeue f_finalize r p' q'
    (Hp : procs s !! id = Some p) (Hscan : NoDup scan)
    (Hdispatch : dequeue_and_dispatch canon cfg (clock s) scan locked f_acquire p (squeue s)
                 = (r1, p1, q1))
    (Hothers : rtc step (set_proc s id p1 q1) s2) (Hp1 : procs s2 !! id = Some p1)
    (Hfinished : finished_of p1 finished)
    (Hconf : finalize_confirmed A = true → ∀ e, f_finalize ≠ Unconfirmed e true)
    (Hrun : run_single_iteration names canon cfg (clock s) scan locked f_acquire finished
              allow_requeue (clock s2) f_finalize p (squeue s) (squeue s2) = (r, p', q')) :
  rtc step s (set_proc (match r1 with Ok _ => s2 | Err _ => s end) id p' q').
Proof.
  assert (Hd : step s (set_proc s id p1 q1)) by by eapply step_dispatch.
  unfold run_single_iteration in Hrun. rewrite Hdispatch in Hrun.
  destruct r1 as [n|e]; [|injection Hrun as <- <- <-; by apply rtc_once].
  apply rtc_l with (set_proc s id p1 q1); [done|]. etransitivity; [exact Hothers|].
  destruct (wait_and_process finished allow_requeue (clock s2) p1) as [nc p2] eqn:Hw.
  pose proof (steps_complete finished allow_requeue s2 id p1 Hp1 Hfinished) as Hc.
  rewrite Hw in Hc. simpl in Hc. etransitivity; [exact Hc|].
  destruct (finalize_completed_objects (clock s2) f_finalize p2 (squeue s2)) as [[r2 p3] q3] eqn:Hfin.
  apply rtc_l with (set_proc s2 id p3 q3).
  { rewrite <- (set_proc_twice s2 id p2 (squeue s2) p3 q3).
    eapply step_finalize; [apply lookup_insert_eq|done|exact Hfin]. }
  destruct r2 as [u|e]; injection Hrun as <- <- <-; [|done].
  apply rtc_once. rewrite <- (set_proc_twice s2 id p3 q3 (emit_if_necessary names cfg (clock s2) p3)).
  apply (step_emit canon cfg A (set_proc s2 id p3 q3)). apply lookup_insert_eq.
Qed.
End Iteration.

Lemma concurrency_bounded_witness :
  ∃ p, procs s_two_running !! "p1" = Some p ∧ (length (object_tasks p) ≤ 4)%nat.
Proof.
  destruct (procs s_two_running !! "p1") as [p|] eqn:Hp; [|vm_compute in Hp; discriminate Hp].
  exists p. split; [reflexivity|].
  exact (concurrency_bounded Some cfg all_granted s_two_running "p1" p reach_two_running Hp).
Defined.

(** The processor [p1] takes the object [a]; [p2] takes [b] while [p1] waits; [a] is
    finished, its row is finalized and, as it moved, queued again. *)
Lemma iteration_refines_steps_witness :
  let names (b : bool) := (if b then "ready" else "provisioning", "x") in
  let s : System := do_enqueue ["a"; "b"] (do_start cfg "p2" (do_start cfg "p1" s0)) in
  let s1 := do_dispatch cfg "p1" ["a"] s in
  let s2 := do_dispatch cfg "p2" ["b"] s1 in
  ∃ p' q', rtc (step Some cfg all_granted) s (set_proc s2 "p1" p' q') ∧
    object_tasks p' = [] ∧ q' !! "a" = Some (fresh_row 0).
Proof.
  intros names s s1 s2.
  assert (Hr : running "p1" s = true) by (vm_compute; reflexivity).
  apply (running_proc cfg) in Hr.
  assert (Hr1 : running "p2" s1 = true) by (vm_compute; reflexivity).
  assert (Hn1 : NoDup ["a"]) by (apply (bool_decide_unpack _); by vm_compute).
  assert (Hn2 : NoDup ["b"]) by (apply (bool_decide_unpack _); by vm_compute).
  assert (H12 : rtc (step Some cfg all_granted) s1 s2) by exact (rtc_once _ _ (step_do_dispatch cfg all_granted "p2" ["b"] s1 Hr1 Hn2)).
  set (d := dequeue_and_dispatch Some cfg (clock s) ["a"] ∅ Confirmed (proc_of cfg s "p1") (squeue s)).
  set (run := run_single_iteration names Some cfg (clock s) ["a"] ∅ Confirmed
                [(mk_task "a" 0, mk_task_result "a" moved)] true (clock s2) Confirmed
                (proc_of cfg s "p1") (squeue s) (squeue s2)).
  assert (Hok : d.1.1 = Ok 1%nat) by (vm_compute; reflexivity).
  assert (Hk : mk_task "a" 0 ∈ object_tasks d.1.2) by (vm_compute; by left).
  assert (Hp1 : procs s2 !! "p1" = Some d.1.2) by (vm_compute; reflexivity).
  assert (Hs1 : s1 = set_proc s "p1" d.1.2 d.2) by (unfold s1, do_dispatch; fold d; by destruct d as [[]]).
  exists run.1.2, run.2. split; [|split; vm_compute; reflexivity]. rewrite Hs1 in H12.
  apply (iteration_refines_steps Some cfg all_granted names s "p1" (proc_of cfg s "p1") ["a"] ∅
           Confirmed (Ok 1%nat) d.1.2 d.2 s2 [(mk_task "a" 0, mk_task_result "a" moved)] true Confirmed
           run.1.1); [exact Hr|exact Hn1| |exact H12|exact Hp1|..].
  - rewrite <- Hok. fold d. by destruct d as [[]].
  - split; [apply NoDup_singleton|]. constructor; [|constructor]. by split.
  - intros _ e. discriminate.
  - fold run. by destruct run as [[]].
Defined.

Lemma finalize_spec_witness :
  let p : StateProcessor bool := mk_proc "p1" [] ∅ {["a"; "b"]} {["a"]} 0 0 no_stats (new_holder cfg) in
  let q : queue := {["a" := mk_queue_row (Some "p1") 1; "b" := mk_queue_row (Some "p1") 2;
                     "c" := mk_queue_row (Some "p2") 3]} in
  let q' := snd (finalize_completed_objects 9 Confirmed p q) in
  q' !! "a" = Some (fresh_row 9) ∧ q' !! "b" = None ∧ q' !! "c" = q !! "c".
Proof.
  intros p q q'. pose proof (finalize_spec 9 Confirmed p q) as H. unfold q'.
  destruct (finalize_completed_objects 9 Confirmed p q) as [[r p1] q1].
  destruct H as [_ H]. destruct (H eq_refl) as (_ & _ & _ & _ & _ & H1 & H2); [set_solver|].
  split_and!.
  - apply (H1 "a" (mk_queue_row (Some "p1") 1)); [set_solver|vm_compute; reflexivity..].
  - apply (H1 "b" (mk_queue_row (Some "p1") 2)); [set_solver|vm_compute; reflexivity..].
  - apply (H2 "c" (mk_queue_row (Some "p2") 3)); vm_compute; reflexivity.
Defined.

Lemma drain_releases_rows_witness :
  let names (b : bool) := (if b then "ready" else "provisioning", "x") in
  let p := proc_of cfg (do_dispatch cfg "p1" ["a"] (do_enqueue ["a"] (do_start cfg "p1" s0))) "p1" in
  let q := squeue (do_dispatch cfg "p1" ["a"] (do_enqueue ["a"] (do_start cfg "p1" s0))) in
  let waits := [[(mk_task "a" 0, mk_task_result "a" moved)]] in
  ∃ row, snd (drain names cfg waits 5 Confirmed p q) !! "a" = Some row ∧
         processed_by row ≠ Some (processor_id p).
Proof.
  intros names p q waits. exists (fresh_row 5).
  assert (Hrow : snd (drain names cfg waits 5 Confirmed p q) !! "a" = Some (fresh_row 5))
    by (vm_compute; reflexivity).
  split; [exact Hrow|].
  apply (drain_releases_rows names cfg waits 5 p q "a" (fresh_row 5)); [| | |exact Hrow].
  - repeat constructor.
  - vm_compute. reflexivity.
  - left. vm_compute. by left.
Defined.
