(* ===== verification/PeriodicEnqueuer.v ===== *)
(** * The periodic enqueuer
      ([crates/state-controller/src/controller/periodic_enqueuer.rs])

    Every iteration lists the objects of the site and queues them.  When
    per-object gauges are on it also clears the series of objects that were
    deleted outside the controller, again and again until no handler that was
    running at that time can record them. *)

From S2P Require Import Prelude Ordered ObjectQueue.

Record PeriodicEnqueuer := mk_enqueuer {
  known_object_ids : gset string;
  pending_clears : gmap string Z;
}.

Definition new_enqueuer : PeriodicEnqueuer := mk_enqueuer ∅ ∅.

(** The loop over the listed ids: what is left of the previous known set, the new
    known set, and the pending clears. *)
Fixpoint sort_out (queued : list string) (previous known : gset string) (pending : gmap string Z)
    : gset string * gset string * gmap string Z :=
  match queued with
  | [] => (previous, known, pending)
  | id :: rest =>
      if decide (id ∈ previous)
      then sort_out rest (previous ∖ {[id]}) ({[id]} ∪ known) pending
      else sort_out rest previous ({[id]} ∪ known) (delete id pending)
  end.

(** The part under [if let Some(recorder) = &self.per_object_state]; also the ids
    given to [recorder.clear]. *)
Definition clear_deleted (now max_object_handling_time : Z) (queued : list string)
    (e : PeriodicEnqueuer) : PeriodicEnqueuer * gset string :=
  let '(gone, known, pending) := sort_out queued (known_object_ids e) ∅ (pending_clears e) in
  let clear_until := now + max_object_handling_time in
  let pending := gset_to_gmap clear_until gone ∪ pending in
  (mk_enqueuer known (filter (λ '(_, deadline), now < deadline) pending), dom pending).

Inductive EnqueueError := ListFailed (e : string) | QueueFailed (e : string) | LockError.

Record Iteration := mk_iteration {
  it_result : result EnqueueError Z;
  it_enqueuer : PeriodicEnqueuer;
  it_queue : queue;
  it_cleared : gset string;
}.

(** [enqueue_objects]: [listed] is what [list_objects] and its transaction return,
    [queueing] an error of the second transaction. *)
Definition enqueue_objects (recorder : bool) (now max_object_handling_time : Z)
    (listed : result string (list string)) (queueing : option string)
    (e : PeriodicEnqueuer) (q : queue) : Iteration :=
  match listed with
  | Err err => mk_iteration (Err (ListFailed err)) e q ∅
  | Ok queued =>
      let '(e, cleared) := if recorder then clear_deleted now max_object_handling_time queued e
                           else (e, ∅) in
      match queueing with
      | Some err => mk_iteration (Err (QueueFailed err)) e q cleared
      | None => let '(n, q) := queue_objects now q queued in mk_iteration (Ok n) e q cleared
      end
  end.

(** [lock_and_handle_iteration]: whatever error starting the iteration returned, of
    the lock or of the database, becomes [LockError]. *)
Definition lock_and_handle_iteration {E} (started : result E Z) (recorder : bool)
    (now max_object_handling_time : Z) (listed : result string (list string))
    (queueing : option string) (e : PeriodicEnqueuer) (q : queue) : Iteration :=
  match started with
  | Err _ => mk_iteration (Err LockError) e q ∅
  | Ok _ => enqueue_objects recorder now max_object_handling_time listed queueing e q
  end.

(** [run_single_iteration]: whether the iteration counts as skipped. *)
Definition skipped_iteration (r : result EnqueueError Z) : bool :=
  match r with Err LockError => true | _ => false end.

(** ** Lemmas *)

(** A known object has no pending clear. *)
Definition enqueuer_wf (e : PeriodicEnqueuer) : Prop :=
  ∀ id, id ∈ known_object_ids e → pending_clears e !! id = None.

Lemma sort_out_spec queued previous known pending :
  (∀ id, id ∈ previous → pending !! id = None) →
  let '(gone, known', pending') := sort_out queued previous known pending in
  gone = previous ∖ list_to_set queued ∧
  known' = list_to_set queued ∪ known ∧
  ∀ id, pending' !! id = if decide (id ∈ queued) then None else pending !! id.
Proof.
  revert previous known pending. induction queued as [|id rest IH]; intros previous known pending Hwf.
  - cbn [sort_out]. split_and!; [set_solver..|]. intros id.
    by rewrite decide_False by apply not_elem_of_nil.
  - cbn [sort_out list_to_set]. destruct (decide (id ∈ previous)) as [Hin|Hout].
    + specialize (IH (previous ∖ {[id]}) ({[id]} ∪ known) pending).
      destruct (sort_out _ _ _ _) as [[gone known'] pending'].
      destruct IH as (-> & -> & Hp); [set_solver|]. split_and!; [set_solver..|].
      intros id'. rewrite Hp. repeat case_decide; try done; [set_solver|].
      assert (id' = id) as -> by set_solver. auto.
    + specialize (IH previous ({[id]} ∪ known) (delete id pending)).
      destruct (sort_out _ _ _ _) as [[gone known'] pending'].
      destruct IH as (-> & -> & Hp).
      { intros id' Hid. apply lookup_delete_None. auto. }
      split_and!; [set_solver..|]. intros id'. rewrite Hp.
      repeat case_decide; try done; [set_solver| |].
      * assert (id' = id) as -> by set_solver. apply lookup_delete_eq.
      * rewrite lookup_delete_ne; [done|]. set_solver.
Qed.

(** The deadline of an id before expired ones are dropped. *)
Definition deadline_after (now handling : Z) (queued : list string) (e : PeriodicEnqueuer)
    (id : string) : option Z :=
  if decide (id ∈ queued) then None
  else if decide (id ∈ known_object_ids e) then Some (now + handling)
  else pending_clears e !! id.

Lemma clear_deleted_spec now handling queued e :
  enqueuer_wf e →
  let '(e', cleared) := clear_deleted now handling queued e in
  enqueuer_wf e' ∧ known_object_ids e' = list_to_set queued ∧
  (∀ id, id ∈ cleared ↔ is_Some (deadline_after now handling queued e id)) ∧
  ∀ id, pending_clears e' !! id =
        match deadline_after now handling queued e id with
        | Some d => if decide (now < d) then Some d else None
        | None => None
        end.
Proof.
  intros Hwf. unfold clear_deleted.
  pose proof (sort_out_spec queued (known_object_ids e) ∅ (pending_clears e) Hwf) as Hs.
  destruct (sort_out _ _ _ _) as [[gone known] pending]. destruct Hs as (-> & -> & Hp).
  set (pend := gset_to_gmap _ _ ∪ pending).
  assert (Hd : ∀ id, pend !! id = deadline_after now handling queued e id).
  { intros id. unfold pend, deadline_after. rewrite lookup_union, lookup_gset_to_gmap, Hp.
    destruct (decide (id ∈ queued)) as [Hq|Hq].
    - rewrite option_guard_False; [done|]. rewrite elem_of_difference, elem_of_list_to_set. naive_solver.
    - destruct (decide (id ∈ known_object_ids e)) as [Hk|Hk].
      + rewrite option_guard_True.
        * by destruct (pending_clears e !! id).
        * rewrite elem_of_difference, elem_of_list_to_set. naive_solver.
      + rewrite option_guard_False; [by rewrite (left_id_L None _)|].
        rewrite elem_of_difference. naive_solver. }
  assert (Hf : ∀ id, filter (λ '(_, deadline), now < deadline) pend !! id =
        match deadline_after now handling queued e id with
        | Some d => if decide (now < d) then Some d else None
        | None => None
        end).
  { intros id. rewrite <- Hd. destruct (pend !! id) as [d|] eqn:E.
    - case_decide.
      + by apply map_lookup_filter_Some.
      + apply map_lookup_filter_None. right. naive_solver.
    - apply map_lookup_filter_None. by left. }
  split_and!; simpl.
  - intros id. simpl. rewrite (right_id_L ∅ _), elem_of_list_to_set. intros Hin. rewrite Hf.
    unfold deadline_after. by rewrite decide_True.
  - set_solver.
  - intros id. by rewrite elem_of_dom, Hd.
  - done.
Qed.

(** ** A sequence of iterations *)

(** The iterations at the times and with the live sets given: what each clears. *)
Fixpoint iterate (handling : Z) (e : PeriodicEnqueuer) (its : list (Z * list string))
    : list (Z * gset string) :=
  match its with
  | [] => []
  | (now, queued) :: its =>
      let '(e, cleared) := clear_deleted now handling queued e in
      (now, cleared) :: iterate handling e its
  end.

(** An id with a pending clear is cleared until an iteration past its deadline. *)
Lemma pending_cleared handling e its id d :
  enqueuer_wf e → id ∉ known_object_ids e → pending_clears e !! id = Some d →
  Forall (λ it, id ∉ snd it) its → Exists (λ it, d ≤ fst it) its →
  ∃ t cleared, (t, cleared) ∈ iterate handling e its ∧ id ∈ cleared ∧ d ≤ t.
Proof.
  revert e. induction its as [|[now queued] its IH]; intros e Hwf Hk Hd Hlive Hlate;
    [by inversion Hlate|].
  apply Forall_cons in Hlive as [Hq Hlive]. simpl in Hq.
  pose proof (clear_deleted_spec now handling queued e Hwf) as Hs. cbn [iterate].
  destruct (clear_deleted now handling queued e) as [e' cleared].
  destruct Hs as (Hwf' & Hknown & Hcl & Hpend).
  assert (Hda : deadline_after now handling queued e id = Some d).
  { unfold deadline_after. by rewrite !decide_False by done. }
  destruct (decide (d ≤ now)) as [Hle|Hgt].
  - exists now, cleared. split_and!; [by left| |done]. apply Hcl. rewrite Hda. eauto.
  - destruct (IH e') as (t & c & Hin & Hc & Ht); try done.
    + rewrite Hknown, elem_of_list_to_set. done.
    + rewrite Hpend, Hda. by rewrite decide_True by lia.
    + apply Exists_cons in Hlate as [Hlate|Hlate]; [simpl in Hlate; lia|done].
    + exists t, c. split_and!; [by right|done..].
Qed.

(** ** Properties *)

(** Objects deleted outside the controller do not keep gauges: if an object known
    before disappears from the listing, it is cleared in some iteration that takes
    place after every handler task running at its disappearance has timed out, as
    soon as there is an iteration that late and as long as the object stays away. *)
Theorem deleted_object_cleared handling e t0 queued its id
    (Hwf : enqueuer_wf e)
    (Hknown : id ∈ known_object_ids e)
    (Hgone : Forall (λ it, id ∉ snd it) ((t0, queued) :: its))
    (Hlate : Exists (λ it, t0 + handling ≤ fst it) ((t0, queued) :: its)) :
  (∃ cleared, head (iterate handling e ((t0, queued) :: its)) = Some (t0, cleared) ∧ id ∈ cleared) ∧
  ∃ t cleared, (t, cleared) ∈ iterate handling e ((t0, queued) :: its) ∧ id ∈ cleared ∧
               t0 + handling ≤ t.
Proof.
  apply Forall_cons in Hgone as [Hq Hlive]. simpl in Hq.
  pose proof (clear_deleted_spec t0 handling queued e Hwf) as Hs. cbn [iterate].
  destruct (clear_deleted t0 handling queued e) as [e' cleared].
  destruct Hs as (Hwf' & Hk' & Hcl & Hpend).
  assert (Hda : deadline_after t0 handling queued e id = Some (t0 + handling)).
  { unfold deadline_after. by rewrite decide_False, decide_True by done. }
  assert (Hin : id ∈ cleared) by (apply Hcl; rewrite Hda; eauto).
  split; [by exists cleared|].
  destruct (decide (t0 + handling ≤ t0)) as [Hle|Hgt].
  - exists t0, cleared. split_and!; [by left|done..].
  - destruct (pending_cleared handling e' its id (t0 + handling)) as (t & c & Hc & ? & ?); try done.
    + rewrite Hk', elem_of_list_to_set. done.
    + rewrite Hpend, Hda. by rewrite decide_True by lia.
    + apply Exists_cons in Hlate as [Hlate|Hlate]; [simpl in Hlate; lia|done].
    + exists t, c. split_and!; [by right|done..].
Qed.

Lemma deleted_object_cleared_witness :
  let e := mk_enqueuer {["a"; "b"]} ∅ in
  ∃ t cleared, (t, cleared) ∈ iterate 180 e [(0, ["b"]); (30, ["b"]); (200, ["b"])] ∧
               "a" ∈ cleared ∧ 0 + 180 ≤ t.
Proof.
  intros e.
  apply (deleted_object_cleared 180 e 0 ["b"] [(30, ["b"]); (200, ["b"])] "a").
  - by intros id _.
  - set_solver.
  - repeat (constructor; [by apply (bool_decide_unpack _); vm_compute|]). constructor.
  - apply Exists_exists. exists (200, ["b"]). split; [set_solver|]. simpl. lia.
Defined.

(** An iteration that could not start changes nothing; one that ran without errors
    queues every listed object, keeping the rows of those already queued, knows
    exactly the listed objects afterwards, and never clears the gauges of a listed
    object. *)
Theorem enqueue_iteration_spec (now handling : Z) (live : list string) (e : PeriodicEnqueuer)
    (q : queue) (Hwf : enqueuer_wf e) :
  let it := lock_and_handle_iteration (Ok (E := string) 1) true now handling (Ok live) None e q in
  enqueuer_wf (it_enqueuer it) ∧
  known_object_ids (it_enqueuer it) = list_to_set live ∧
  (∀ o, o ∈ live → is_Some (it_queue it !! o) ∧ o ∉ it_cleared it) ∧
  (∀ o r, q !! o = Some r → it_queue it !! o = Some r) ∧
  (∀ (err : string) listed queueing,
     lock_and_handle_iteration (Err err) true now handling listed queueing e q =
     mk_iteration (Err LockError) e q ∅).
Proof.
  unfold lock_and_handle_iteration, enqueue_objects.
  pose proof (clear_deleted_spec now handling live e Hwf) as Hs.
  destruct (clear_deleted now handling live e) as [e' cleared].
  destruct Hs as (Hwf' & Hk & Hcl & _).
  pose proof (queue_objects_lookup now q live) as Hq.
  destruct (queue_objects now q live) as [n q']. simpl in *. split_and!; try done.
  - intros o Ho. split.
    + rewrite Hq. destruct (q !! o); [eauto|]. rewrite decide_True by done. eauto.
    + rewrite Hcl. unfold deadline_after. rewrite decide_True by done. by intros [? [=]].
  - intros o r Hr. by rewrite Hq, Hr.
Qed.

Lemma enqueue_iteration_spec_witness :
  is_Some (it_queue (lock_and_handle_iteration (Ok (E := string) 1) true 5 180 (Ok ["a"]) None
                       new_enqueuer ∅) !! "a").
Proof. apply (enqueue_iteration_spec 5 180 ["a"] new_enqueuer ∅); [done|by left]. Defined.
