(* ===== verification/PerObject.v ===== *)
(** * Per-object metrics

    - [health-metrics/src/per_object.rs]: stores of series per object with eviction of
      entries that are not refreshed, the gauges on them and the registry;
    - [state-controller/src/per_object.rs]: the gauges of the state controllers, which
      execute the [RecorderCall]s of [process_object].

    A store is a map under a read-write lock whose entries have a lock of their own.  An
    operation takes the read lock, and the write lock after it when the set of objects may
    have to change; [env] is what others do to the store between the two.  Times are
    values of the monotonic clock; [n], [n1] and [n2] are readings. *)

From S2P Require Import Prelude Ordered ConfigVersion StateHistory StateHandler ObjectQueue.
From S2P Require Import ControllerIO ProcessObject HealthReport.

(** [ObjectKey] *)
Notation object_key := (string * string)%type.

(** ** [PerObjectStore]

    An entry is a payload with the time of its last refresh. *)

Section store.
Context {S : Type}.

Notation entries := (gmap object_key (S * Z)).

Definition entry_touch (n : Z) (e : S * Z) : S * Z := (e.1, n).

(** [payload_if_fresh], with the saturating difference of two instants. *)
Definition payload_if_fresh (now hold_period : Z) (e : S * Z) : option S :=
  if Z.max 0 (now - e.2) <=? hold_period then Some e.1 else None.

(** [StoreEntry::record] keeps an equal payload's allocation, which cannot be observed:
    the entry has the new payload and time in any case. *)
Definition record (env : entries → entries) (n1 n2 : Z) (key : object_key) (payload : S)
    (st : entries) : entries :=
  match st !! key with
  | Some _ => <[key := (payload, n1)]> st
  | None =>
      let st := env st in
      match st !! key with
      | Some _ => <[key := (payload, n2)]> st
      | None => <[key := (payload, n2)]> st
      end
  end.

Definition remove (env : entries → entries) (key : object_key) (st : entries) : entries :=
  match st !! key with
  | None => st
  | Some _ => delete key (env st)
  end.

Definition touch (n : Z) (key : object_key) (st : entries) : entries :=
  alter (entry_touch n) key st.

(** [env1] is what others do to the entries between the two times the lock of the entry is
    taken under the read lock, to check the payload and to refresh the entry. *)
Definition touch_if (env1 env : entries → entries) (n1 n2 : Z) (key : object_key)
    (still_current : S → bool) (st : entries) : entries :=
  match st !! key with
  | None => st
  | Some e =>
      if still_current e.1 then touch n1 key (env1 st)
      else
        let st := env st in
        match st !! key with
        | None => st
        | Some e => if still_current e.1 then touch n2 key st else delete key st
        end
  end.

(** The keys the first loop of [snapshot_live] finds stale. *)
Definition stale_keys (now hold_period : Z) (seen : entries) : list object_key :=
  omap (λ '(k, e), match payload_if_fresh now hold_period e with
                   | Some _ => None
                   | None => Some k
                   end) (map_to_list seen).

(** The second loop: evict what is still stale. *)
Definition evict_one (now hold_period : Z) (st : entries) (k : object_key) : entries :=
  match st !! k with
  | Some e => match payload_if_fresh now hold_period e with
              | Some _ => st
              | None => delete k st
              end
  | None => st
  end.

Definition evict (now hold_period : Z) (keys : list object_key) (st : entries) : entries :=
  foldl (evict_one now hold_period) st keys.

(** The entries are read while others refresh them: [seen] are the entries as they were
    read, [st] is the store when the write lock is taken.  The order of the result is that
    of a hash map. *)
Definition snapshot_live (now hold_period : Z) (seen st : entries) : list S * entries :=
  (omap (λ '(_, e), payload_if_fresh now hold_period e) (map_to_list seen),
   match stale_keys now hold_period seen with
   | [] => st
   | keys => evict now hold_period keys st
   end).

(** ** What the operations mean, without locks *)

Definition touch_if_spec (n : Z) (key : object_key) (still_current : S → bool)
    (st : entries) : entries :=
  match st !! key with
  | None => st
  | Some e => if still_current e.1 then <[key := (e.1, n)]> st else delete key st
  end.

Lemma touch_insert (n : Z) (key : object_key) (st : entries) (e : S * Z) :
  st !! key = Some e → touch n key st = <[key := (e.1, n)]> st.
Proof.
  intros He. apply map_eq. intros k. unfold touch.
  destruct (decide (k = key)) as [->|Hk].
  - by rewrite lookup_alter_eq, lookup_insert_eq, He.
  - by rewrite lookup_alter_ne, lookup_insert_ne.
Qed.

(** The check under the read lock followed by a check under the write lock makes the
    operations of a store atomic: whatever others do to the store between the two locks,
    the result is that of the plain operation, on the store before or on the store after.
    A conditional refresh in addition never removes an entry whose payload is current when
    it is removed, also if others record between its check and its refresh. *)
Theorem store_operations_atomic (env1 env : entries → entries) (n1 n2 : Z)
    (key : object_key) (payload : S) (cur : S → bool) (st : entries) :
  (record env n1 n2 key payload st = <[key := (payload, n1)]> st ∨
   record env n1 n2 key payload st = <[key := (payload, n2)]> (env st)) ∧
  (remove env key st = delete key st ∨ remove env key st = delete key (env st)) ∧
  (touch_if id env n1 n2 key cur st = touch_if_spec n1 key cur st ∨
   touch_if id env n1 n2 key cur st = touch_if_spec n2 key cur (env st)) ∧
  (dom (env1 st) = dom st → touch_if env1 env n1 n2 key cur st !! key = None →
   st !! key = None ∨ ∀ e, env st !! key = Some e → cur e.1 = false).
Proof.
  unfold record, remove, touch_if, touch_if_spec. split_and!.
  - destruct (st !! key); [by left|]. right. by destruct (env st !! key).
  - destruct (st !! key) eqn:E; [by right|]. left. by rewrite delete_id.
  - destruct (st !! key) as [e|] eqn:E; [|by left]. destruct (cur e.1) eqn:Ec.
    + left. by apply touch_insert.
    + right. destruct (env st !! key) as [e'|] eqn:E'; [|done].
      destruct (cur e'.1); [by apply touch_insert|done].
  - intros Hdom. destruct (st !! key) as [e|] eqn:E; [|by left]. destruct (cur e.1).
    + unfold touch. rewrite lookup_alter_eq. intros H%fmap_None.
      apply not_elem_of_dom in H. rewrite Hdom in H. apply elem_of_dom_2 in E. done.
    + intros H. right. intros e' He'. rewrite He' in H. destruct (cur e'.1); [|done].
      unfold touch in H. rewrite lookup_alter_eq, He' in H. done.
Qed.

Lemma evict_lookup (now hold : Z) (keys : list object_key) (st : entries) (k : object_key) :
  evict now hold keys st !! k =
  match st !! k with
  | Some e => if bool_decide (k ∈ keys) then (payload_if_fresh now hold e ≫= λ _, Some e)
              else Some e
  | None => None
  end.
Proof.
  revert st. induction keys as [|k' keys IH]; intros st; [simpl; by destruct (st !! k)|].
  change (evict now hold (k' :: keys) st) with (evict now hold keys (evict_one now hold st k')).
  rewrite IH. clear IH. unfold evict_one.
  destruct (decide (k = k')) as [->|Hk].
  - rewrite (bool_decide_eq_true_2 (k' ∈ k' :: keys)) by by left.
    destruct (st !! k') as [e|] eqn:E; [|by rewrite E].
    destruct (payload_if_fresh now hold e) eqn:Ef; [rewrite E, Ef; by case_bool_decide|].
    by rewrite lookup_delete_eq.
  - assert (bool_decide (k ∈ k' :: keys) = bool_decide (k ∈ keys)) as ->.
    { apply bool_decide_ext. set_solver. }
    destruct (st !! k') as [e'|]; [|done].
    destruct (payload_if_fresh now hold e'); [done|]. by rewrite lookup_delete_ne.
Qed.

Lemma stale_keys_elem (now hold : Z) (seen : entries) (k : object_key) :
  k ∈ stale_keys now hold seen ↔
  ∃ e, seen !! k = Some e ∧ payload_if_fresh now hold e = None.
Proof.
  unfold stale_keys. rewrite list_elem_of_omap. split.
  - intros ([k' e] & He%elem_of_map_to_list & Hk). exists e.
    destruct (payload_if_fresh now hold e) eqn:Ef; naive_solver.
  - intros (e & He & Hf). exists (k, e). by rewrite Hf, elem_of_map_to_list.
Qed.

Lemma payload_if_fresh_Some (now hold : Z) (e : S * Z) (p : S) : 0 ≤ hold →
  payload_if_fresh now hold e = Some p ↔ p = e.1 ∧ now ≤ e.2 + hold.
Proof.
  intros Hh. unfold payload_if_fresh.
  destruct (Z.leb_spec (Z.max 0 (now - e.2)) hold); naive_solver lia.
Qed.

Lemma snapshot_live_evicts (now hold : Z) (seen st : entries) (k : object_key) :
  (snapshot_live now hold seen st).2 !! k =
  match st !! k with
  | Some e => if bool_decide (k ∈ stale_keys now hold seen)
              then (payload_if_fresh now hold e ≫= λ _, Some e) else Some e
  | None => None
  end.
Proof.
  unfold snapshot_live. simpl. rewrite <- evict_lookup. by destruct (stale_keys _ _ _).
Qed.

(** A scrape publishes exactly the entries refreshed within the hold period, and
    evicts an entry only if it was stale when it was read and is still stale when it is
    removed: an entry that others refresh in the meantime, at or after the start of the
    scrape, survives, and nothing else of the store changes. *)
Theorem snapshot_live_spec (now hold : Z) (seen st : entries) : 0 ≤ hold →
  (∀ p, p ∈ (snapshot_live now hold seen st).1 ↔
     ∃ k t, seen !! k = Some (p, t) ∧ now ≤ t + hold) ∧
  (∀ k p t, st !! k = Some (p, t) → now ≤ t + hold →
     (snapshot_live now hold seen st).2 !! k = Some (p, t)) ∧
  (∀ k e, (snapshot_live now hold seen st).2 !! k = Some e → st !! k = Some e) ∧
  (∀ k p t, seen !! k = Some (p, t) → t + hold < now → seen !! k = st !! k →
     (snapshot_live now hold seen st).2 !! k = None).
Proof.
  intros Hh. split_and!.
  - intros p. unfold snapshot_live. simpl. rewrite list_elem_of_omap. split.
    + intros ([k e] & He%elem_of_map_to_list & [-> Hp]%payload_if_fresh_Some); [|done].
      exists k, e.2. by destruct e.
    + intros (k & t & He & Ht). exists (k, (p, t)). rewrite elem_of_map_to_list. split; [done|].
      by apply payload_if_fresh_Some.
  - intros k p t He Ht. rewrite snapshot_live_evicts, He.
    assert (payload_if_fresh now hold (p, t) = Some p) as -> by by apply payload_if_fresh_Some.
    by case_bool_decide.
  - intros k e. rewrite snapshot_live_evicts. destruct (st !! k) as [e'|]; [|done].
    case_bool_decide; [|done]. destruct (payload_if_fresh now hold e'); [done|discriminate].
  - intros k p t He Ht Heq. rewrite snapshot_live_evicts, <- Heq, He.
    assert (payload_if_fresh now hold (p, t) = None) as Hf.
    { destruct (payload_if_fresh now hold (p, t)) eqn:Ef; [|done].
      apply payload_if_fresh_Some in Ef as [_ Ef]; [|done]. simpl in Ef. lia. }
    rewrite bool_decide_eq_true_2; [by rewrite Hf|]. apply stale_keys_elem. eauto.
Qed.
End store.

Section gauges.
(** [f64] and its conversions. *)
Context {F : Type} (f64_of_i64 : Z → F) (as_secs_f64 : Z → F) (one : F).

(** ** Gauges

    The operations of a store are atomic, so those of the gauges are built on them without
    interference.  [None] is the panic of the assertion on the number of labels. *)

Notation series := (list (F * list string))%type.
Notation labeled_series := (list (F * list (string * string)))%type.

Record PerObjectGauge := mk_gauge {
  label_names : list string;
  hold_period : Z;
  gstore : gmap object_key (series * Z);
}.

Definition with_store (f : gmap object_key (series * Z) → gmap object_key (series * Z))
    (g : PerObjectGauge) : PerObjectGauge :=
  mk_gauge (label_names g) (hold_period g) (f (gstore g)).

Definition set_all (n : Z) (object_type object_id : string) (s : series)
    (g : PerObjectGauge) : option PerObjectGauge :=
  if forallb (λ '(_, values), bool_decide (length values = length (label_names g))) s then
    let key := (object_type, object_id) in
    Some (match s with
          | [] => with_store (remove id key) g
          | _ => with_store (record id n n key s) g
          end)
  else None.

Definition set (n : Z) (object_type object_id : string) (value : F) (values : list string)
    (g : PerObjectGauge) : option PerObjectGauge :=
  set_all n object_type object_id [(value, values)] g.

Definition clear (object_type object_id : string) (g : PerObjectGauge) : PerObjectGauge :=
  with_store (remove id (object_type, object_id)) g.

Definition matches_prefix (prefix : list string) (s : series) : bool :=
  forallb (λ '(_, values), bool_decide (prefix `prefix_of` values)) s.

Definition touch_if_values (n : Z) (object_type object_id : string) (prefix : list string)
    (g : PerObjectGauge) : PerObjectGauge :=
  with_store (touch_if id id n n (object_type, object_id) (matches_prefix prefix)) g.

(** [prometheus_metric]: the labels sorted by name. *)
Record Metric := mk_metric {
  metric_value : F;
  metric_labels : list (string * string);
}.

Definition prometheus_metric (value : F) (names values : list string) : Metric :=
  mk_metric value
    (merge_sort (λ a b, string_cmp a.1 b.1 ≠ Gt) (zip names values)).

(** [GaugeCollector::collect]: the metrics of the family, and the store after it. *)
Definition collect (now : Z) (seen : gmap object_key (series * Z)) (g : PerObjectGauge)
    : list Metric * PerObjectGauge :=
  let '(snapshot, st) := snapshot_live now (hold_period g) seen (gstore g) in
  (s ← snapshot; (λ '(v, values), prometheus_metric v (label_names g) values) <$> s,
   with_store (λ _, st) g).

(** ** The registry

    The gauges are shared between the registry and the code that writes them: the registry
    owns them, and a writer names a gauge by its position. *)

Record Registry := mk_registry {
  emit_for_classifications : gset string;
  classification : gmap object_key (labeled_series * Z);
  gauges : list PerObjectGauge;
}.

Definition new_registry (emit : gset string) : Registry := mk_registry emit ∅ [].

(** [gauge]: [registered] is whether the Prometheus registry accepts the collector. *)
Definition add_gauge (registered : bool) (names : list string) (hold : Z) (r : Registry)
    : option (nat * Registry) :=
  if registered then
    Some (length (gauges r),
          mk_registry (emit_for_classifications r) (classification r)
            (gauges r ++ [mk_gauge names hold ∅]))
  else None.

Definition clear_object (object_type object_id : string) (r : Registry) : Registry :=
  let key := (object_type, object_id) in
  mk_registry (emit_for_classifications r) (remove id key (classification r))
    (with_store (remove id key) <$> gauges r).

Definition touch_object (n : Z) (object_type object_id : string) (r : Registry) : Registry :=
  mk_registry (emit_for_classifications r) (classification r)
    (with_store (touch n (object_type, object_id)) <$> gauges r).

(** [PerObjectMetricsRegistry::record]: classifications opted in for, in sorted order. *)
Definition record_classifications (n : Z) (object_type object_id : string)
    (cs : list string) (extra : list (string * string)) (r : Registry) : Registry :=
  if bool_decide (emit_for_classifications r = ∅) then r
  else
    let cs := merge_sort (λ a b, string_cmp a b ≠ Gt)
                (filter (λ c, c ∈ emit_for_classifications r) cs) in
    let key := (object_type, object_id) in
    mk_registry (emit_for_classifications r)
      (match cs with
       | [] => remove id key (classification r)
       | _ => record id n n key
                ((λ c, (one, [("object_type", object_type); ("object_id", object_id);
                              ("classification", c)]%string ++ extra)) <$> cs)
                (classification r)
       end) (gauges r).

(** An operation on the gauge at a position. *)
Definition on_gauge (i : nat) (f : PerObjectGauge → option PerObjectGauge) (r : Registry)
    : option Registry :=
  g ← gauges r !! i;
  g ← f g;
  Some (mk_registry (emit_for_classifications r) (classification r) (<[i := g]> (gauges r))).

(** ** The gauges of the state controllers *)

Record PerObjectStateMetrics := mk_state_metrics {
  entered_gauge : nat;
  sla_gauge : nat;
  manual_gauge : nat;
}.

Definition STATE_LABELS : list string := ["object_type"; "object_id"; "state"; "substate"].

Definition new_state_metrics (registered : nat → bool) (hold : Z) (r : Registry)
    : option (PerObjectStateMetrics * Registry) :=
  '(e, r) ← add_gauge (registered 0%nat) STATE_LABELS hold r;
  '(s, r) ← add_gauge (registered 1%nat) STATE_LABELS hold r;
  '(m, r) ← add_gauge (registered 2%nat) (STATE_LABELS ++ ["reason"%string]) hold r;
  Some (mk_state_metrics e s m, r).

(** The [match]es of [PerObjectStateRecorder::record] on the SLA and on the manual
    intervention. *)
Definition record_sla (n : Z) (object_type object_id : string) (values : list string)
    (sla : option Z) (g : PerObjectGauge) : option PerObjectGauge :=
  match sla with
  | Some d => set n object_type object_id (as_secs_f64 d) values g
  | None => Some (clear object_type object_id g)
  end.

Definition record_manual (n : Z) (object_type object_id : string) (values : list string)
    (mi : ManualIntervention) (g : PerObjectGauge) : option PerObjectGauge :=
  match mi with
  | Required reason => set n object_type object_id one (values ++ [reason]) g
  | NotRequired => Some (clear object_type object_id g)
  | Unknown => Some (touch_if_values n object_type object_id values g)
  end.

(** [PerObjectStateRecorder::record]; [entered] is in nanoseconds. *)
Definition record_state (m : PerObjectStateMetrics) (n1 n2 n3 : Z)
    (object_type object_id state substate : string) (entered : Z) (sla : option Z)
    (mi : ManualIntervention) (r : Registry) : option Registry :=
  let values := [object_type; object_id; state; substate] in
  r ← on_gauge (entered_gauge m)
        (set n1 object_type object_id (f64_of_i64 (entered / 1000000000)) values) r;
  r ← on_gauge (sla_gauge m) (record_sla n2 object_type object_id values sla) r;
  on_gauge (manual_gauge m) (record_manual n3 object_type object_id values mi) r.

(** The calls that [process_object] makes of the recorder of its object type. *)
Definition apply_call (m : PerObjectStateMetrics) (object_type : string) (n1 n2 n3 : Z)
    (call : RecorderCall) (r : Registry) : option Registry :=
  match call with
  | Record_ object_id state substate entered sla mi =>
      record_state m n1 n2 n3 object_type object_id state substate entered sla mi r
  | Touch object_id => Some (touch_object n1 object_type object_id r)
  | Clear object_id => Some (clear_object object_type object_id r)
  end.
End gauges.

Lemma snapshot_live_spec_witness :
  let k := ("machine"%string, "m1"%string) in
  let seen := {[k := (7, 10)]} : gmap (string * string) (Z * Z) in
  let st := {[k := (7, 100)]} : gmap (string * string) (Z * Z) in
  (snapshot_live 90 60 seen st).2 !! k = Some (7, 100).
Proof.
  intros k seen st.
  destruct (snapshot_live_spec 90 60 seen st ltac:(lia)) as (_ & H & _).
  apply (H k 7 100); [apply lookup_singleton_eq|lia].
Defined.
