(* ===== verification/PerObjectFacts.v ===== *)
(** * Properties of the per-object metrics

    What a call of the recorder leaves in the gauges, and that the series of an object
    never contradict each other, whatever calls and scrapes happen. *)

From S2P Require Import Prelude Ordered ConfigVersion StateHistory StateHandler ObjectQueue.
From S2P Require Import ControllerIO ProcessObject HealthReport PerObject.

Section facts.
Context {F : Type} (f64_of_i64 : Z → F) (as_secs_f64 : Z → F) (one : F).

Notation gauge := (PerObjectGauge (F := F)).
Notation registry := (Registry (F := F)).
Notation series := (list (F * list string))%type.
Notation apply_call := (apply_call f64_of_i64 as_secs_f64 one).
Notation record_state := (record_state f64_of_i64 as_secs_f64 one).

(** The series of an object on a gauge. *)
Definition payload_of (g : gauge) (ty id : string) : option series :=
  fst <$> gstore g !! (ty, id).

Definition payload_at (r : registry) (i : nat) (ty id : string) : option series :=
  g ← gauges r !! i; payload_of g ty id.

(** ** The operations of a gauge *)

Definition keyed {A} (ty id ty' id' : string) (a b : A) : A :=
  if decide ((ty, id) = (ty', id')) then a else b.

Lemma set_payload (n : Z) ty id v (values : list string) (g : gauge) :
  length values = length (label_names g) →
  ∃ g', set n ty id v values g = Some g' ∧ label_names g' = label_names g ∧
    hold_period g' = hold_period g ∧
    ∀ ty' id', payload_of g' ty' id' =
      keyed ty id ty' id' (Some [(v, values)]) (payload_of g ty' id').
Proof using Type.
  intros Hl. unfold set, set_all. simpl. rewrite bool_decide_eq_true_2 by done. simpl.
  eexists. split; [done|]. split; [done|]. split; [done|]. intros ty' id'.
  unfold payload_of, with_store, keyed. simpl.
  assert (record Datatypes.id n n (ty, id) [(v, values)] (gstore g) =
    <[(ty, id) := ([(v, values)], n)]> (gstore g)) as ->.
  { unfold record. destruct (gstore g !! (ty, id)) eqn:E; [done|]. unfold Datatypes.id.
    by rewrite E. }
  case_decide as Hk.
  - rewrite <- Hk. by rewrite lookup_insert_eq.
  - by rewrite lookup_insert_ne.
Qed.

Lemma remove_id_delete (k : string * string) (st : gmap (string * string) (series * Z)) :
  remove Datatypes.id k st = delete k st.
Proof using Type.
  unfold remove. destruct (st !! k) eqn:E; [done|]. symmetry. by apply delete_id.
Qed.

Lemma clear_payload ty id (g : gauge) ty' id' :
  payload_of (clear ty id g) ty' id' = keyed ty id ty' id' None (payload_of g ty' id').
Proof using Type.
  unfold payload_of, clear, with_store, keyed. simpl. rewrite remove_id_delete.
  case_decide as Hk.
  - rewrite <- Hk. by rewrite lookup_delete_eq.
  - by rewrite lookup_delete_ne.
Qed.

Lemma touch_payload (n : Z) ty id (g : gauge) ty' id' :
  payload_of (with_store (touch n (ty, id)) g) ty' id' = payload_of g ty' id'.
Proof using Type.
  unfold payload_of, with_store, touch. simpl.
  destruct (decide ((ty, id) = (ty', id'))) as [Hk|Hk].
  - rewrite <- Hk, lookup_alter_eq. by destruct (gstore g !! (ty, id)).
  - by rewrite lookup_alter_ne.
Qed.

Lemma touch_if_payload (n : Z) ty id (prefix : list string) (g : gauge) ty' id' :
  payload_of (touch_if_values n ty id prefix g) ty' id' =
  keyed ty id ty' id'
    (s ← payload_of g ty id; if matches_prefix prefix s then Some s else None)
    (payload_of g ty' id').
Proof using Type.
  unfold payload_of, touch_if_values, with_store, keyed, touch_if. simpl.
  destruct (gstore g !! (ty, id)) as [[s t]|] eqn:E; simpl.
  - unfold touch. destruct (matches_prefix prefix s) eqn:Ep; simpl; rewrite ?E; simpl;
      rewrite ?Ep; case_decide as Hk; try rewrite <- Hk.
    + by rewrite lookup_alter_eq, E.
    + by rewrite lookup_alter_ne.
    + by rewrite lookup_delete_eq.
    + by rewrite lookup_delete_ne.
  - case_decide as Hk; [by rewrite <- Hk, E|done].
Qed.

Lemma collect_payload (now : Z) seen (g : gauge) ty id :
  payload_of (collect now seen g).2 ty id = payload_of g ty id ∨
  payload_of (collect now seen g).2 ty id = None.
Proof using Type.
  unfold collect, payload_of.
  pose proof (snapshot_live_evicts now (hold_period g) seen (gstore g) (ty, id)) as H.
  destruct (snapshot_live _ _ _ _) as [l st]. simpl in *. rewrite H.
  destruct (gstore g !! (ty, id)) as [e|]; [|by left]. case_bool_decide; [|by left].
  destruct (payload_if_fresh _ _ _); auto.
Qed.

(** ** The series of one object *)

(** The shapes of the three series of an object, and that their labels agree. *)
Definition series_ok (ty id : string) (oe os om : option series) : Prop :=
  (∀ s, oe = Some s → ∃ v st sub, s = [(v, [ty; id; st; sub])]) ∧
  (∀ s, os = Some s → ∃ v st sub, s = [(v, [ty; id; st; sub])]) ∧
  (∀ s, om = Some s → ∃ st sub reason, s = [(one, [ty; id; st; sub; reason])]) ∧
  (∀ v l v' l', oe = Some [(v, l)] → os = Some [(v', l')] → l = l') ∧
  (∀ v l v' l', oe = Some [(v, l)] → om = Some [(v', l')] → l `prefix_of` l').

Lemma series_ok_weaken ty id oe os om oe' os' om' :
  series_ok ty id oe os om → oe' = oe ∨ oe' = None → os' = os ∨ os' = None →
  om' = om ∨ om' = None → series_ok ty id oe' os' om'.
Proof using Type.
  intros (H1 & H2 & H3 & H4 & H5) He Hs Hm. unfold series_ok. split_and!; naive_solver.
Qed.

Definition sla_series (ty id st sub : string) (sla : option Z) : option series :=
  (λ d, [(as_secs_f64 d, [ty; id; st; sub])]) <$> sla.

Definition manual_series (ty id st sub : string) (mi : ManualIntervention)
    (old : option series) : option series :=
  match mi with
  | Required reason => Some [(one, [ty; id; st; sub; reason])]
  | NotRequired => None
  | Unknown => s ← old; if matches_prefix [ty; id; st; sub] s then Some s else None
  end.

Lemma series_ok_recorded ty id st sub (e : Z) sla mi old : 
  (∀ s, old = Some s → ∃ st sub reason, s = [(one, [ty; id; st; sub; reason])]) →
  series_ok ty id (Some [(f64_of_i64 e, [ty; id; st; sub])]) (sla_series ty id st sub sla)
    (manual_series ty id st sub mi old).
Proof.
  intros Hold. unfold series_ok, sla_series, manual_series. split_and!.
  - naive_solver.
  - destruct sla; naive_solver.
  - destruct mi; [naive_solver..|]. destruct old as [s|]; [|done]. simpl.
    destruct (matches_prefix _ _); naive_solver.
  - destruct sla; naive_solver.
  - intros v l v' l' [= <- <-]. destruct mi; [|done|].
    + intros [= <- <-]. by exists [reason].
    + destruct old as [s|]; [|done]. simpl. destruct (matches_prefix _ _) eqn:Ep; [|done].
      intros [= ->]. simpl in Ep. by to_prop.
Qed.

(** ** The registry *)

Definition metrics_ok (m : PerObjectStateMetrics) (r : registry) : Prop :=
  NoDup [entered_gauge m; sla_gauge m; manual_gauge m] ∧
  ∃ ge gs gm, gauges r !! entered_gauge m = Some ge ∧ gauges r !! sla_gauge m = Some gs ∧
    gauges r !! manual_gauge m = Some gm ∧ length (label_names ge) = 4%nat ∧
    length (label_names gs) = 4%nat ∧ length (label_names gm) = 5%nat.

(** An operation that succeeds on its gauge, whose labels it keeps. *)
Lemma on_gauge_payload i (f : gauge → option gauge) (r : registry) g g' :
  gauges r !! i = Some g → f g = Some g' →
  ∃ r', on_gauge i f r = Some r' ∧ gauges r' !! i = Some g' ∧
    (∀ j, j ≠ i → gauges r' !! j = gauges r !! j) ∧
    classification r' = classification r.
Proof using Type.
  intros Hg Hf. unfold on_gauge. rewrite Hg. simpl. rewrite Hf. simpl. eexists.
  split; [done|]. simpl. split_and!; [|by intros; rewrite list_lookup_insert_ne|done].
  rewrite list_lookup_insert_eq; [done|]. by apply lookup_lt_Some in Hg.
Qed.

Lemma record_state_spec m (n1 n2 n3 : Z) ty id st sub (e : Z) sla mi (r : registry) :
  metrics_ok m r →
  ∃ r', record_state m n1 n2 n3 ty id st sub e sla mi r = Some r' ∧ metrics_ok m r' ∧
    (∀ ty' id',
      payload_at r' (entered_gauge m) ty' id' =
        keyed ty id ty' id' (Some [(f64_of_i64 (e / 1000000000), [ty; id; st; sub])])
          (payload_at r (entered_gauge m) ty' id') ∧
      payload_at r' (sla_gauge m) ty' id' =
        keyed ty id ty' id' (sla_series ty id st sub sla) (payload_at r (sla_gauge m) ty' id') ∧
      payload_at r' (manual_gauge m) ty' id' =
        keyed ty id ty' id'
          (manual_series ty id st sub mi (payload_at r (manual_gauge m) ty id))
          (payload_at r (manual_gauge m) ty' id')).
Proof.
  intros (Hnd & ge & gs & gm & He & Hs & Hm & Le & Ls & Lm).
  apply NoDup_cons in Hnd as [Hn1 Hnd']. apply NoDup_cons in Hnd' as [Hn2 _].
  assert (entered_gauge m ≠ sla_gauge m ∧ entered_gauge m ≠ manual_gauge m ∧
    sla_gauge m ≠ manual_gauge m) as (N1 & N2 & N3) by set_solver.
  unfold record_state.
  destruct (set_payload n1 ty id (f64_of_i64 (e / 1000000000)) [ty; id; st; sub] ge)
    as (ge' & Ee & Le' & _ & Pe); [done|].
  destruct (on_gauge_payload _ _ _ _ _ He Ee) as (r1 & -> & He1 & Ho1 & _). simpl.
  assert (∃ gs', record_sla as_secs_f64 n2 ty id [ty; id; st; sub] sla gs = Some gs' ∧ label_names gs' = label_names gs ∧
      ∀ ty' id', payload_of gs' ty' id' =
        keyed ty id ty' id' (sla_series ty id st sub sla) (payload_of gs ty' id'))
    as (gs' & Es & Ls' & Ps).
  { destruct sla as [d|].
    - destruct (set_payload n2 ty id (as_secs_f64 d) [ty; id; st; sub] gs)
        as (g & ? & ? & _ & ?); [done|]. eauto.
    - eexists. split; [done|]. split; [done|]. intros. apply clear_payload. }
  assert (gauges r1 !! sla_gauge m = Some gs) as Hs1 by by rewrite Ho1.
  destruct (on_gauge_payload _ _ _ _ _ Hs1 Es) as (r2 & -> & Hs2 & Ho2 & _). simpl.
  assert (∃ gm', record_manual one n3 ty id [ty; id; st; sub] mi gm = Some gm' ∧
      label_names gm' = label_names gm ∧
      ∀ ty' id', payload_of gm' ty' id' =
        keyed ty id ty' id' (manual_series ty id st sub mi (payload_of gm ty id))
          (payload_of gm ty' id')) as (gm' & Em & Lm' & Pm).
  { destruct mi as [reason| |].
    - destruct (set_payload n3 ty id one [ty; id; st; sub; reason] gm)
        as (g & ? & ? & _ & ?); [done|]. eauto.
    - eexists. split; [done|]. split; [done|]. intros. apply clear_payload.
    - eexists. split; [done|]. split; [done|]. intros. apply touch_if_payload. }
  assert (gauges r2 !! manual_gauge m = Some gm) as Hm2 by by rewrite Ho2, Ho1.
  destruct (on_gauge_payload _ _ _ _ _ Hm2 Em) as (r3 & E3 & Hm3 & Ho3 & _).
  assert (gauges r3 !! entered_gauge m = Some ge') as He3 by by rewrite Ho3, Ho2.
  assert (gauges r3 !! sla_gauge m = Some gs') as Hs3 by by rewrite Ho3.
  exists r3. split; [exact E3|]. split.
  - split; [by repeat constructor; set_solver|]. exists ge', gs', gm'. split_and!; congruence.
  - intros ty' id'. unfold payload_at. rewrite He3, Hs3, Hm3, He, Hs, Hm. simpl. auto.
Qed.

(** ** Runs *)

(** What may happen to the registry: calls of the recorders of the object types, scrapes
    of a gauge, and records of classifications. *)
Inductive action :=
| Call (ty : string) (n1 n2 n3 : Z) (c : RecorderCall)
| Scrape (i : nat) (now : Z) (seen : gmap (string * string) (series * Z))
| Classify (n : Z) (ty id : string) (cs : list string) (extra : list (string * string)).

Definition step (m : PerObjectStateMetrics) (a : action) (r : registry) : option registry :=
  match a with
  | Call ty n1 n2 n3 c => apply_call m ty n1 n2 n3 c r
  | Scrape i now seen => on_gauge i (λ g, Some (collect now seen g).2) r
  | Classify n ty id cs extra => Some (record_classifications one n ty id cs extra r)
  end.

Definition registry_ok (m : PerObjectStateMetrics) (r : registry) : Prop :=
  metrics_ok m r ∧
  ∀ ty id, series_ok ty id (payload_at r (entered_gauge m) ty id)
    (payload_at r (sla_gauge m) ty id) (payload_at r (manual_gauge m) ty id).

(** A change of every gauge that keeps labels and drops series at most. *)
Lemma registry_ok_drop m (r r' : registry) (h : gauge → gauge) :
  registry_ok m r → gauges r' = h <$> gauges r →
  (∀ g, label_names (h g) = label_names g) →
  (∀ g ty id, payload_of (h g) ty id = payload_of g ty id ∨ payload_of (h g) ty id = None) →
  registry_ok m r'.
Proof using Type.
  intros [(Hnd & ge & gs & gm & He & Hs & Hm & Le & Ls & Lm) Hok] Hr Hl Hp. split.
  - split; [done|]. exists (h ge), (h gs), (h gm).
    rewrite Hr, !list_lookup_fmap, He, Hs, Hm, !Hl. done.
  - assert (∀ i ty id, payload_at r' i ty id = payload_at r i ty id ∨
      payload_at r' i ty id = None) as Hd.
    { intros i ty id. unfold payload_at. rewrite Hr, list_lookup_fmap.
      destruct (gauges r !! i); simpl; auto. }
    intros ty id. eapply series_ok_weaken; [apply Hok|apply Hd..].
Qed.

Lemma scrape_ok m i now seen (r r' : registry) :
  registry_ok m r → on_gauge i (λ g, Some (collect now seen g).2) r = Some r' →
  registry_ok m r'.
Proof using Type.
  intros Hok Hr. destruct (gauges r !! i) as [g|] eqn:Eg; [|unfold on_gauge in Hr; by rewrite Eg in Hr].
  destruct (on_gauge_payload i (λ g, Some (collect now seen g).2) r g _ Eg eq_refl)
    as (r1 & E1 & Hi & Ho & _). assert (r1 = r') as -> by congruence.
  destruct Hok as [(Hnd & ge & gs & gm & He & Hs & Hm & Le & Ls & Lm) Hok].
  assert (∀ j, match gauges r !! j with
    | Some g => ∃ g', gauges r' !! j = Some g' ∧ label_names g' = label_names g ∧
        ∀ ty id, payload_of g' ty id = payload_of g ty id ∨ payload_of g' ty id = None
    | None => True end) as Hj.
  { intros j. destruct (decide (j = i)) as [->|Hne].
    - rewrite Eg. eexists. split; [exact Hi|]. split; [|intros; apply collect_payload].
      unfold collect. by destruct (snapshot_live _ _ _ _).
    - rewrite Ho by done. destruct (gauges r !! j); [|done]. eauto. }
  split.
  - split; [done|].
    pose proof (Hj (entered_gauge m)) as J1. pose proof (Hj (sla_gauge m)) as J2.
    pose proof (Hj (manual_gauge m)) as J3. rewrite He in J1. rewrite Hs in J2. rewrite Hm in J3.
    destruct J1 as (ge' & ? & E1' & _), J2 as (gs' & ? & E2' & _), J3 as (gm' & ? & E3' & _).
    exists ge', gs', gm'. rewrite E1', E2', E3'. done.
  - intros ty id. eapply series_ok_weaken; [apply Hok|..]; unfold payload_at.
    + specialize (Hj (entered_gauge m)). rewrite He in Hj. destruct Hj as (g' & -> & _ & Hp).
      rewrite He. apply Hp.
    + specialize (Hj (sla_gauge m)). rewrite Hs in Hj. destruct Hj as (g' & -> & _ & Hp).
      rewrite Hs. apply Hp.
    + specialize (Hj (manual_gauge m)). rewrite Hm in Hj. destruct Hj as (g' & -> & _ & Hp).
      rewrite Hm. apply Hp.
Qed.

Lemma call_ok m ty (n1 n2 n3 : Z) c (r : registry) :
  registry_ok m r →
  ∃ r', apply_call m ty n1 n2 n3 c r = Some r' ∧ registry_ok m r'.
Proof.
  intros Hr. pose proof Hr as [Hm Hok]. destruct c as [id st sub e sla mi|id|id]; simpl.
  - destruct (record_state_spec m n1 n2 n3 ty id st sub e sla mi r Hm) as (r' & -> & Hm' & Hp).
    exists r'. split; [done|]. split; [done|]. intros ty' id'.
    destruct (Hp ty' id') as (-> & -> & ->). unfold keyed. case_decide as Hk; [|apply Hok].
    injection Hk as <- <-. apply series_ok_recorded.
    destruct (Hok ty id) as (_ & _ & H3 & _). exact H3.
  - eexists. split; [done|]. apply (registry_ok_drop m r _ (with_store (touch n1 (ty, id))));
      try done. intros g ty' id'. left. apply touch_payload.
  - eexists. split; [done|].
    apply (registry_ok_drop m r _ (clear ty id)); try done.
    intros g ty' id'. rewrite clear_payload. unfold keyed. case_decide; auto.
Qed.

(** Running actions; a scrape of a gauge that does not exist does not happen. *)
Definition possible (r : registry) (a : action) : Prop :=
  match a with Scrape i _ _ => is_Some (gauges r !! i) | _ => True end.

Lemma step_ok m a (r : registry) : registry_ok m r → possible r a →
  ∃ r', step m a r = Some r' ∧ registry_ok m r'.
Proof.
  intros Hr Ha. destruct a as [ty n1 n2 n3 c|i now seen|n ty id cs extra]; simpl.
  - by apply call_ok.
  - destruct Ha as [g Hg].
    destruct (on_gauge_payload i (λ g, Some (collect now seen g).2) r g _ Hg eq_refl)
      as (r' & E & _). exists r'. split; [done|]. by eapply scrape_ok.
  - eexists. split; [done|]. apply (registry_ok_drop m r _ (λ g, g)); auto.
    rewrite list_fmap_id. unfold record_classifications. by case_bool_decide.
Qed.

(** The states of the registry that sequences of actions reach. *)
Inductive reach (m : PerObjectStateMetrics) (r0 : registry) : registry → Prop :=
| reach_refl : reach m r0 r0
| reach_step r a r' : reach m r0 r → step m a r = Some r' → reach m r0 r'.

Lemma new_state_metrics_ok registered hold (r0 : registry) m r :
  new_state_metrics registered hold r0 = Some (m, r) → registry_ok m r.
Proof using Type.
  unfold new_state_metrics, add_gauge.
  destruct (registered 0%nat), (registered 1%nat), (registered 2%nat); try done. simpl.
  intros [= <- <-]. rewrite !length_app. simpl.
  set (g4 := mk_gauge STATE_LABELS hold ∅). set (g5 := mk_gauge (F := F) (STATE_LABELS ++ ["reason"%string]) hold ∅).
  set (n := length (gauges r0)).
  assert (((gauges r0 ++ [g4]) ++ [g4]) ++ [g5] = gauges r0 ++ [g4; g4; g5]) as El
    by by rewrite <- !app_assoc.
  assert (∀ i, (((gauges r0 ++ [g4]) ++ [g4]) ++ [g5]) !! (n + i)%nat = [g4; g4; g5] !! i) as Hl.
  { intros i. rewrite El, lookup_app_r by lia. f_equal. lia. }
  split.
  - split; simpl.
    + repeat (apply NoDup_cons; split; [clear; set_unfold; lia|]). constructor.
    + exists g4, g4, g5. rewrite <- Nat.add_assoc.
      rewrite <- (Nat.add_0_r n) at 1. rewrite !Hl. done.
  - intros ty id. unfold payload_at. simpl. rewrite <- Nat.add_assoc.
    rewrite <- (Nat.add_0_r n) at 1. rewrite !Hl. simpl. unfold payload_of. simpl.
    rewrite lookup_empty. unfold series_ok. by split_and!.
Qed.

(** The state gauges never contradict each other: from the time they are created,
    after any calls of the recorders, scrapes and records of classifications, an object's
    SLA series has the labels of the series that shows its state, and its manual
    intervention series has those labels and a reason; no call of a recorder panics. *)
Theorem state_gauges_consistent registered hold (r0 : registry) m r r' :
  new_state_metrics registered hold r0 = Some (m, r) → reach m r r' →
  (∀ ty id v l v' l', payload_at r' (entered_gauge m) ty id = Some [(v, l)] →
     (payload_at r' (sla_gauge m) ty id = Some [(v', l')] → l' = l) ∧
     (payload_at r' (manual_gauge m) ty id = Some [(v', l')] → ∃ reason, l' = l ++ [reason])) ∧
  (∀ ty n1 n2 n3 c, is_Some (apply_call m ty n1 n2 n3 c r')).
Proof.
  intros Hnew Hreach. assert (registry_ok m r') as Hr.
  { induction Hreach as [|r1 a r2 _ IH Hs]; [by eapply new_state_metrics_ok|].
    destruct (step_ok m a r1 IH) as (r3 & E3 & H3); [|congruence].
    destruct a; try done. simpl in *. unfold on_gauge in Hs.
    destruct (gauges r1 !! i); [by eexists|done]. }
  split; [|intros; destruct (call_ok m ty n1 n2 n3 c r' Hr) as (? & -> & _); by eexists].
  destruct Hr as [_ Hok]. intros ty id v l v' l' He.
  destruct (Hok ty id) as (H1 & _ & H3 & H4 & H5). split.
  - intros Hs. symmetry. by eapply H4.
  - intros Hm. specialize (H5 _ _ _ _ He Hm).
    destruct (H1 _ He) as (? & st & sub & [= -> ->]).
    destruct (H3 _ Hm) as (st' & sub' & reason & [= -> ->]).
    destruct H5 as [k Hk]. simplify_list_eq. eauto.
Qed.

(** After an object is cleared no gauge and no classification shows it, and every
    other object keeps its series. *)
Theorem cleared_object_gone ty id (r : registry) :
  let r' := clear_object ty id r in
  (∀ i, payload_at r' i ty id = None) ∧ classification r' !! (ty, id) = None ∧
  ∀ ty' id', (ty', id') ≠ (ty, id) →
    (∀ i, payload_at r' i ty' id' = payload_at r i ty' id') ∧
    classification r' !! (ty', id') = classification r !! (ty', id').
Proof using Type.
  cbv zeta. unfold clear_object, payload_at. simpl.
  assert (∀ k, remove Datatypes.id (ty, id) (classification r) !! k =
    delete (ty, id) (classification r) !! k) as Hc.
  { intros k. unfold remove. destruct (classification r !! (ty, id)) eqn:E; [done|].
    by rewrite delete_id. }
  split_and!.
  - intros i. rewrite list_lookup_fmap. destruct (gauges r !! i) as [g|]; [|done].
    change (payload_of (clear ty id g) ty id = None). rewrite clear_payload. unfold keyed. by rewrite decide_True.
  - rewrite Hc. apply lookup_delete_eq.
  - intros ty' id' Hne. split.
    + intros i. rewrite list_lookup_fmap. destruct (gauges r !! i) as [g|]; [|done].
      change (payload_of (clear ty id g) ty' id' = payload_of g ty' id').
      rewrite clear_payload. unfold keyed. by rewrite decide_False.
    + rewrite Hc. by apply lookup_delete_ne.
Qed.
End facts.

Lemma state_gauges_consistent_witness :
  let f (z : Z) := z in
  let m := mk_state_metrics 0 1 2 in
  let r := default (new_registry ∅) (snd <$> new_state_metrics (λ _, true) 60 (new_registry ∅)) in
  let call := Call "machine" 1 1 1 (Record_ "m1" "ready" "x" 0 None (Required "fan")) in
  let r' := default r (step f f 1 m call r) in
  payload_at r' (manual_gauge m) "machine" "m1" =
    Some [(1, ["machine"; "m1"; "ready"; "x"; "fan"]%string)] ∧
  ∃ reason, ["machine"; "m1"; "ready"; "x"; "fan"]%string =
            ["machine"; "m1"; "ready"; "x"]%string ++ [reason].
Proof.
  intros f m r call r'.
  assert (new_state_metrics (λ _, true) 60 (new_registry ∅) = Some (m, r)) as En
    by (vm_compute; reflexivity).
  assert (step f f 1 m call r = Some r') as Es by (vm_compute; reflexivity).
  assert (payload_at r' (manual_gauge m) "machine" "m1" =
    Some [(1, ["machine"; "m1"; "ready"; "x"; "fan"]%string)]) as Hm by (vm_compute; reflexivity).
  assert (payload_at r' (entered_gauge m) "machine" "m1" =
    Some [(0, ["machine"; "m1"; "ready"; "x"]%string)]) as He by (vm_compute; reflexivity).
  split; [exact Hm|].
  destruct (state_gauges_consistent f f 1 (λ _, true) 60 (new_registry ∅) m r r' En
    (reach_step f f 1 m r r call r' (reach_refl f f 1 m r) Es)) as [H _].
  exact (proj2 (H _ _ _ _ _ _ He) Hm).
Defined.
