(* ===== verification/WorkLock.v ===== *)
(** * Work locks ([crates/api-db/src/work_lock_manager.rs])

    The [work_locks] table and its three statements, the command loop of the
    manager, the life of a [WorkLock] (acquisition, keepalives, release on drop,
    fenced transactions), and a step relation in which any number of instances of
    the service, each with its manager and its FIFO, share the table.

    Worker ids are drawn by the column default [gen_random_uuid()]; that they do
    not repeat is a premise of the step that draws one. *)

From S2P Require Import Prelude.

(** ** The table and its statements *)

Record lock_row := mk_lock_row { worker_id : N; started : Z; last_keepalive : Z }.

Notation work_locks := (gmap string lock_row).

(** [last_keepalive + timeout < now()] *)
Definition expired (now timeout : Z) (r : lock_row) : bool := last_keepalive r + timeout <? now.

(** [try_acquire_lock]: the upsert; [drawn] is the id the insert would use. *)
Definition try_acquire_lock (now timeout : Z) (drawn : N) (work_key : string) (t : work_locks)
    : option N * work_locks :=
  match t !! work_key with
  | None => (Some drawn, <[work_key := mk_lock_row drawn now now]> t)
  | Some r =>
      if expired now timeout r
      then (Some drawn, <[work_key := mk_lock_row drawn now now]> t)
      else (None, t)
  end.

(** [release_lock]: [Err] is [FailedPrecondition]. *)
Definition release_lock (work_key : string) (worker : N) (t : work_locks)
    : result string work_locks :=
  match t !! work_key with
  | Some r => if decide (worker_id r = worker) then Ok (delete work_key t)
              else Err "Tried to release nonexistent lock"
  | None => Err "Tried to release nonexistent lock"
  end.

(** [keep_lock_alive]: [Err] is [FailedPrecondition]. *)
Definition keep_lock_alive (now : Z) (work_key : string) (worker : N) (t : work_locks)
    : result string work_locks :=
  match t !! work_key with
  | Some r => if decide (worker_id r = worker)
              then Ok (<[work_key := mk_lock_row worker (started r) now]> t)
              else Err "Tried to keep alive nonexistent lock"
  | None => Err "Tried to keep alive nonexistent lock"
  end.

(** The check of [fence_transaction]. *)
Definition fence_holds (work_key : string) (worker : N) (t : work_locks) : bool :=
  match t !! work_key with
  | Some r => bool_decide (worker_id r = worker)
  | None => false
  end.

(** ** Commands and the loop *)

Inductive WorkLockManagerCommand :=
| AcquireLock (work_key : string) (caller : N)
| KeepLockAlive (work_key : string) (worker : N)
| ReleaseLock (work_key : string) (worker : N).

Inductive Reply :=
| Acquired (worker : N)
| WorkAlreadyLocked (work_key : string)
| Skipped
| KeptAlive
| LockLost (msg : string)
| Released
| ReleaseFailed (msg : string).

Definition COMMAND_BUFFER_SIZE : nat := 100.

(** Acquisitions and keepalives take a slot, releases do not. *)
Definition takes_slot (c : WorkLockManagerCommand) : bool :=
  match c with ReleaseLock _ _ => false | _ => true end.

Definition slots_used (fifo : list WorkLockManagerCommand) : nat :=
  length (filter (λ c, takes_slot c = true) fifo).

(** [try_send_bounded_command] *)
Definition try_send_bounded (c : WorkLockManagerCommand) (fifo : list WorkLockManagerCommand)
    : option (list WorkLockManagerCommand) :=
  if bool_decide (slots_used fifo < COMMAND_BUFFER_SIZE)%nat then Some (fifo ++ [c]) else None.

(** [send_release_command] *)
Definition send_release (work_key : string) (worker : N) (fifo : list WorkLockManagerCommand)
    : list WorkLockManagerCommand :=
  fifo ++ [ReleaseLock work_key worker].

(** One turn of [run_loop]; [closed] is [reply_tx.is_closed()] of an acquisition. *)
Definition run_command (now timeout : Z) (drawn : N) (closed : bool)
    (c : WorkLockManagerCommand) (t : work_locks) : Reply * work_locks :=
  match c with
  | AcquireLock k _ =>
      if closed then (Skipped, t)
      else match try_acquire_lock now timeout drawn k t with
           | (Some w, t) => (Acquired w, t)
           | (None, t) => (WorkAlreadyLocked k, t)
           end
  | ReleaseLock k w =>
      match release_lock k w t with
      | Ok t => (Released, t)
      | Err msg => (ReleaseFailed msg, t)
      end
  | KeepLockAlive k w =>
      match keep_lock_alive now k w t with
      | Ok t => (KeptAlive, t)
      | Err msg => (LockLost msg, t)
      end
  end.

(** The commands of one manager, one after the other, when nothing else runs. *)
Fixpoint run_loop (now timeout : Z) (draw : nat → N) (cmds : list WorkLockManagerCommand)
    (t : work_locks) : list Reply * work_locks :=
  match cmds with
  | [] => ([], t)
  | c :: cmds =>
      let '(r, t) := run_command now timeout (draw (length cmds)) false c t in
      let '(rs, t) := run_loop now timeout draw cmds t in
      (r :: rs, t)
  end.

(** ** The system *)

(** A [WorkLock] in scope: its instance, its key, and when the database last
    confirmed it (the acquisition or an acknowledged keepalive). *)
Record WorkLock := mk_work_lock {
  lock_instance : string;
  lock_key : string;
  confirmed_at : Z;
}.

Record LockSystem := mk_lock_system {
  lock_clock : Z;
  lock_table : work_locks;
  issued : gset N;
  fifos : gmap string (list WorkLockManagerCommand);
  held : gmap N WorkLock;
  (** open transactions that fenced a key, with the worker they fenced *)
  fences : gmap N (string * N);
}.

Definition fenced (s : LockSystem) (k : string) : Prop := ∃ txn w, fences s !! txn = Some (k, w).

(** A statement that replaces the owner of a row or deletes it waits for the
    fences on it; keepalives do not. *)
Definition owner_changes (t t' : work_locks) (k : string) : Prop :=
  is_Some (t !! k) ∧ worker_id <$> t' !! k ≠ worker_id <$> t !! k.

Section Steps.
Context (timeout : Z).

Definition set_fifo (i : string) (fifo : list WorkLockManagerCommand) (s : LockSystem) : LockSystem :=
  mk_lock_system (lock_clock s) (lock_table s) (issued s) (<[i := fifo]> (fifos s)) (held s) (fences s).

Inductive lock_step (s : LockSystem) : LockSystem → Prop :=
| lock_tick t :
    lock_clock s ≤ t →
    lock_step s (mk_lock_system t (lock_table s) (issued s) (fifos s) (held s) (fences s))
| lock_start i :
    fifos s !! i = None → lock_step s (set_fifo i [] s)
| lock_send_acquire i fifo fifo' k caller :
    fifos s !! i = Some fifo → try_send_bounded (AcquireLock k caller) fifo = Some fifo' →
    lock_step s (set_fifo i fifo' s)
| lock_send_keepalive i fifo fifo' w l :
    fifos s !! i = Some fifo → held s !! w = Some l → lock_instance l = i →
    try_send_bounded (KeepLockAlive (lock_key l) w) fifo = Some fifo' →
    lock_step s (set_fifo i fifo' s)
| lock_drop i fifo w l :
    fifos s !! i = Some fifo → held s !! w = Some l → lock_instance l = i →
    lock_step s (mk_lock_system (lock_clock s) (lock_table s) (issued s)
                   (<[i := send_release (lock_key l) w fifo]> (fifos s)) (delete w (held s)) (fences s))
(** a command whose statement fails without effect, or a skipped acquisition *)
| lock_failed i fifo c :
    fifos s !! i = Some (c :: fifo) → lock_step s (set_fifo i fifo s)
(** an acquisition; [delivered] is whether the reply reaches the caller *)
| lock_acquire i fifo k caller drawn t' (delivered : bool) :
    fifos s !! i = Some (AcquireLock k caller :: fifo) → drawn ∉ issued s →
    try_acquire_lock (lock_clock s) timeout drawn k (lock_table s) = (Some drawn, t') →
    (owner_changes (lock_table s) t' k → ¬ fenced s k) →
    lock_step s (mk_lock_system (lock_clock s) t' ({[drawn]} ∪ issued s) (<[i := fifo]> (fifos s))
                   (if delivered then <[drawn := mk_work_lock i k (lock_clock s)]> (held s) else held s)
                   (fences s))
(** a keepalive that finds its row; [acked] is whether the reply reaches the lock *)
| lock_kept i fifo k w t' (acked : bool) :
    fifos s !! i = Some (KeepLockAlive k w :: fifo) →
    keep_lock_alive (lock_clock s) k w (lock_table s) = Ok t' →
    lock_step s (mk_lock_system (lock_clock s) t' (issued s) (<[i := fifo]> (fifos s))
                   (if acked
                    then alter (λ l, mk_work_lock (lock_instance l) (lock_key l) (lock_clock s)) w (held s)
                    else held s)
                   (fences s))
| lock_release i fifo k w t' :
    fifos s !! i = Some (ReleaseLock k w :: fifo) →
    release_lock k w (lock_table s) = Ok t' → ¬ fenced s k →
    lock_step s (mk_lock_system (lock_clock s) t' (issued s) (<[i := fifo]> (fifos s)) (held s) (fences s))
| lock_fence txn w l :
    fences s !! txn = None → held s !! w = Some l →
    fence_holds (lock_key l) w (lock_table s) = true →
    lock_step s (mk_lock_system (lock_clock s) (lock_table s) (issued s) (fifos s) (held s)
                   (<[txn := (lock_key l, w)]> (fences s)))
| lock_end_txn txn :
    lock_step s (mk_lock_system (lock_clock s) (lock_table s) (issued s) (fifos s) (held s)
                   (delete txn (fences s)))
(** an instance that dies releases nothing *)
| lock_crash i :
    lock_step s (mk_lock_system (lock_clock s) (lock_table s) (issued s) (delete i (fifos s))
                   (filter (λ '(_, l), lock_instance l ≠ i) (held s)) (fences s)).

Inductive lock_reachable : LockSystem → Prop :=
| lock_init t : lock_reachable (mk_lock_system t ∅ ∅ ∅ ∅ ∅)
| lock_next s s' : lock_reachable s → lock_step s s' → lock_reachable s'.
End Steps.

(** A lock whose last confirmation is at most [timeout] old. *)
Definition lease_valid (timeout : Z) (s : LockSystem) (l : WorkLock) : Prop :=
  lock_clock s ≤ confirmed_at l + timeout.

(** ** Invariants *)

Record lock_inv (timeout : Z) (s : LockSystem) : Prop := {
  li_held w l : held s !! w = Some l → w ∈ issued s;
  li_row k r : lock_table s !! k = Some r → worker_id r ∈ issued s;
  li_keep i fifo k w : fifos s !! i = Some fifo → KeepLockAlive k w ∈ fifo →
    w ∈ issued s ∧ ∀ l, held s !! w = Some l → lock_key l = k;
  li_release i fifo k w : fifos s !! i = Some fifo → ReleaseLock k w ∈ fifo →
    w ∈ issued s ∧ held s !! w = None;
  li_fence txn k w : fences s !! txn = Some (k, w) → fence_holds k w (lock_table s) = true;
  li_lease w l : held s !! w = Some l → lease_valid timeout s l →
    ∃ r, lock_table s !! lock_key l = Some r ∧ worker_id r = w ∧ confirmed_at l ≤ last_keepalive r;
  li_past w l : held s !! w = Some l → confirmed_at l ≤ lock_clock s;
  li_slots i fifo : fifos s !! i = Some fifo → (slots_used fifo ≤ COMMAND_BUFFER_SIZE)%nat;
}.

Lemma try_acquire_granted now timeout drawn k t t' :
  try_acquire_lock now timeout drawn k t = (Some drawn, t') →
  t' = <[k := mk_lock_row drawn now now]> t ∧
  ∀ r, t !! k = Some r → last_keepalive r + timeout < now.
Proof.
  unfold try_acquire_lock, expired. destruct (t !! k) as [r|]; [case_match eqn:E|];
    intros [= <-]; (split; [done|]); intros ? [= <-]. by apply Z.ltb_lt.
Qed.

Lemma keep_alive_ok now k w t t' :
  keep_lock_alive now k w t = Ok t' →
  ∃ r, t !! k = Some r ∧ worker_id r = w ∧ t' = <[k := mk_lock_row w (started r) now]> t.
Proof.
  unfold keep_lock_alive. destruct (t !! k) as [r|]; [|done]. case_decide; [|done].
  intros [= <-]. eauto.
Qed.

Lemma release_ok k w t t' :
  release_lock k w t = Ok t' → ∃ r, t !! k = Some r ∧ worker_id r = w ∧ t' = delete k t.
Proof.
  unfold release_lock. destruct (t !! k) as [r|]; [|done]. case_decide; [|done].
  intros [= <-]. eauto.
Qed.

Lemma fence_holds_spec k w t :
  fence_holds k w t = true ↔ ∃ r, t !! k = Some r ∧ worker_id r = w.
Proof.
  unfold fence_holds. destruct (t !! k); [rewrite bool_decide_eq_true|]; naive_solver.
Qed.

Lemma slots_used_app l l' : slots_used (l ++ l') = (slots_used l + slots_used l')%nat.
Proof. unfold slots_used. by rewrite filter_app, length_app. Qed.

Lemma slots_used_cons c l : (slots_used l ≤ slots_used (c :: l))%nat.
Proof. change (c :: l) with ([c] ++ l). rewrite slots_used_app. lia. Qed.

Lemma try_send_spec c fifo fifo' :
  try_send_bounded c fifo = Some fifo' →
  fifo' = fifo ++ [c] ∧ (slots_used fifo' ≤ COMMAND_BUFFER_SIZE)%nat.
Proof.
  unfold try_send_bounded. case_bool_decide as Hlt; [|done]. intros [= <-]. split; [done|].
  rewrite slots_used_app. assert (slots_used [c] ≤ 1)%nat; [|lia].
  unfold slots_used. etransitivity; [apply length_filter|]. simpl. lia.
Qed.

(** Changing only the FIFO of one instance. *)
Lemma inv_set_fifo timeout s i fifo' :
  lock_inv timeout s →
  (slots_used fifo' ≤ COMMAND_BUFFER_SIZE)%nat →
  (∀ k w, KeepLockAlive k w ∈ fifo' → w ∈ issued s ∧ ∀ l, held s !! w = Some l → lock_key l = k) →
  (∀ k w, ReleaseLock k w ∈ fifo' → w ∈ issued s ∧ held s !! w = None) →
  lock_inv timeout (set_fifo i fifo' s).
Proof.
  intros [H1 H2 H3 H4 H5 H6 H7 H8] Hs Hk Hr. split; simpl; try done.
  - intros i' fifo k w [[<- <-]|[_ Hf]]%lookup_insert_Some; eauto.
  - intros i' fifo k w [[<- <-]|[_ Hf]]%lookup_insert_Some; eauto.
  - intros i' fifo [[<- <-]|[_ Hf]]%lookup_insert_Some; eauto.
Qed.

(** Taking the first command of a FIFO. *)
Lemma inv_pop timeout s i c fifo :
  lock_inv timeout s → fifos s !! i = Some (c :: fifo) → lock_inv timeout (set_fifo i fifo s).
Proof.
  intros Hi Hf. apply inv_set_fifo; [done|..].
  - etransitivity; [apply (slots_used_cons c)|]. by eapply li_slots.
  - intros k w Hin. eapply li_keep; [done..|by right].
  - intros k w Hin. eapply li_release; [done..|by right].
Qed.

Lemma inv_send timeout s i fifo fifo' c :
  lock_inv timeout s → fifos s !! i = Some fifo → try_send_bounded c fifo = Some fifo' →
  (∀ k w, c = KeepLockAlive k w → w ∈ issued s ∧ ∀ l, held s !! w = Some l → lock_key l = k) →
  (∀ k w, c ≠ ReleaseLock k w) →
  lock_inv timeout (set_fifo i fifo' s).
Proof.
  intros Hi Hf [-> Hs]%try_send_spec Hk Hr. apply inv_set_fifo; [done..| |].
  - intros k w [Hin|Hin%list_elem_of_singleton]%elem_of_app; [by eapply li_keep|auto].
  - intros k w [Hin|Hin%list_elem_of_singleton]%elem_of_app; [by eapply li_release|].
    by destruct (Hr k w).
Qed.

(** Replacing the table, after the command was taken from the FIFO. *)
Lemma inv_set_table timeout s t' iss' held' :
  lock_inv timeout s →
  issued s ⊆ iss' →
  (∀ w l, held' !! w = Some l → w ∈ iss') →
  (∀ w, w ∈ issued s → lock_key <$> held' !! w = lock_key <$> held s !! w) →
  (∀ k r, t' !! k = Some r → worker_id r ∈ iss') →
  (∀ txn k w, fences s !! txn = Some (k, w) → fence_holds k w t' = true) →
  (∀ w l, held' !! w = Some l → lease_valid timeout s l →
     ∃ r, t' !! lock_key l = Some r ∧ worker_id r = w ∧ confirmed_at l ≤ last_keepalive r) →
  (∀ w l, held' !! w = Some l → confirmed_at l ≤ lock_clock s) →
  lock_inv timeout (mk_lock_system (lock_clock s) t' iss' (fifos s) held' (fences s)).
Proof.
  intros Hi Hiss Hheld Hsame Hrow Hfence Hlease Hpast. split; simpl; try done.
  - intros i fifo k w Hf Hin. destruct (li_keep _ _ Hi _ _ _ _ Hf Hin) as [Hw Hk].
    split; [set_solver|]. intros l Hl. specialize (Hsame w Hw). rewrite Hl in Hsame.
    destruct (held s !! w) as [l0|] eqn:E; [|done]. injection Hsame as ->. by apply Hk.
  - intros i fifo k w Hf Hin. destruct (li_release _ _ Hi _ _ _ _ Hf Hin) as [Hw Hk].
    split; [set_solver|]. specialize (Hsame w Hw). rewrite Hk in Hsame. by destruct (held' !! w).
  - apply (li_slots _ _ Hi).
Qed.

Lemma inv_acquire timeout s k drawn t' i delivered :
  lock_inv timeout s → drawn ∉ issued s →
  try_acquire_lock (lock_clock s) timeout drawn k (lock_table s) = (Some drawn, t') →
  (owner_changes (lock_table s) t' k → ¬ fenced s k) →
  lock_inv timeout (mk_lock_system (lock_clock s) t' ({[drawn]} ∪ issued s) (fifos s)
    (if delivered : bool then <[drawn := mk_work_lock i k (lock_clock s)]> (held s) else held s) (fences s)).
Proof.
  intros Hi Hfresh [-> Hexp]%try_acquire_granted Hfence.
  assert (Hold : ∀ w l, held s !! w = Some l → w ≠ drawn) by (intros w l Hw ->; by apply (li_held _ _ Hi) in Hw).
  assert (Hlk : ∀ w l, held s !! w = Some l → lease_valid timeout s l → lock_key l ≠ k).
  { intros w l Hw Hv Heq. destruct (li_lease _ _ Hi _ _ Hw Hv) as (r & Hr & _ & Hc).
    rewrite Heq in Hr. apply Hexp in Hr. unfold lease_valid in Hv. lia. }
  apply inv_set_table; [done|set_solver|..].
  - intros w l. destruct delivered; [intros [[<- _]|[_ Hw]]%lookup_insert_Some|intros Hw];
      [set_solver|..]; apply (li_held _ _ Hi) in Hw; set_solver.
  - intros w Hw. destruct delivered; [|done]. rewrite lookup_insert_ne; [done|]. set_solver.
  - intros k' r [[<- <-]|[_ Hr]]%lookup_insert_Some; [simpl; set_solver|].
    apply (li_row _ _ Hi) in Hr. set_solver.
  - intros txn k' w Hf. destruct (decide (k' = k)) as [->|Hne].
    + exfalso. pose proof (li_fence _ _ Hi _ _ _ Hf) as Hh. apply fence_holds_spec in Hh as (r & Hr & <-).
      apply Hfence; [|by exists txn, (worker_id r)]. split; [eauto|].
      rewrite lookup_insert_eq, Hr. simpl. intros [= Heq]. apply Hfresh. rewrite Heq.
      by eapply li_row.
    + apply fence_holds_spec. rewrite lookup_insert_ne by done.
      apply fence_holds_spec. by eapply li_fence.
  - intros w l. destruct delivered.
    + intros [[<- <-]|[_ Hw]]%lookup_insert_Some Hv.
      * exists (mk_lock_row drawn (lock_clock s) (lock_clock s)). simpl. rewrite lookup_insert_eq. done.
      * rewrite lookup_insert_ne by (symmetry; by eapply Hlk). by apply (li_lease _ _ Hi).
    + intros Hw Hv. rewrite lookup_insert_ne by (symmetry; by eapply Hlk). by apply (li_lease _ _ Hi).
  - intros w l. destruct delivered; [intros [[<- <-]|[_ Hw]]%lookup_insert_Some|intros Hw];
      [done|..]; by eapply (li_past _ _ Hi).
Qed.

Lemma inv_kept timeout s k w t' acked :
  lock_inv timeout s → (∀ l, held s !! w = Some l → lock_key l = k) →
  keep_lock_alive (lock_clock s) k w (lock_table s) = Ok t' →
  lock_inv timeout (mk_lock_system (lock_clock s) t' (issued s) (fifos s)
    (if acked : bool
     then alter (λ l, mk_work_lock (lock_instance l) (lock_key l) (lock_clock s)) w (held s)
     else held s) (fences s)).
Proof.
  intros Hi Hkey (r0 & Hr0 & Hw0 & ->)%keep_alive_ok.
  set (f := λ l, mk_work_lock (lock_instance l) (lock_key l) (lock_clock s)).
  set (new_row := mk_lock_row w (started r0) (lock_clock s)).
  assert (Hrow : ∀ w' l, held s !! w' = Some l → lease_valid timeout s l →
            ∃ r, <[k := new_row]> (lock_table s) !! lock_key l = Some r
                 ∧ worker_id r = w' ∧ confirmed_at l ≤ last_keepalive r).
  { intros w' l Hw Hv. destruct (li_lease _ _ Hi _ _ Hw Hv) as (r & Hr & Hwid & Hc).
    destruct (decide (lock_key l = k)) as [Hk|Hne]; [|rewrite lookup_insert_ne by done; eauto].
    subst k. rewrite lookup_insert_eq. exists new_row. split; [done|]. simpl.
    split; [congruence|]. by eapply li_past. }
  assert (Hcases : ∀ w' l, (if acked then alter f w (held s) else held s) !! w' = Some l →
            held s !! w' = Some l ∨ ∃ l0, w' = w ∧ held s !! w = Some l0 ∧ l = f l0).
  { intros w' l. destruct acked; [|by left]. intros [(-> & l0 & ? & ?)|[? ?]]%lookup_alter_Some; eauto. }
  apply inv_set_table; [done|done|..].
  - intros w' l [Hw|(l0 & -> & Hw & _)]%Hcases; by eapply (li_held _ _ Hi).
  - intros w' _. destruct acked; [|done]. destruct (decide (w = w')) as [<-|].
    + rewrite lookup_alter_eq. by destruct (held s !! w).
    + by rewrite lookup_alter_ne.
  - intros k' r [[<- <-]|[_ Hr]]%lookup_insert_Some; [|by eapply li_row].
    simpl. rewrite <- Hw0. by eapply li_row.
  - intros txn k' w' Hf. pose proof (li_fence _ _ Hi _ _ _ Hf) as (r & Hr & <-)%fence_holds_spec.
    apply fence_holds_spec. destruct (decide (k' = k)) as [->|Hne].
    + exists new_row. rewrite lookup_insert_eq. split; [done|]. simpl. congruence.
    + exists r. by rewrite lookup_insert_ne.
  - intros w' l [Hw|(l0 & -> & Hw & ->)]%Hcases Hv; [by apply Hrow|].
    exists new_row. simpl. rewrite (Hkey _ Hw), lookup_insert_eq. done.
  - intros w' l [Hw|(l0 & -> & Hw & ->)]%Hcases; [by eapply li_past|done].
Qed.

Lemma inv_released timeout s k w t' :
  lock_inv timeout s → held s !! w = None → ¬ fenced s k →
  release_lock k w (lock_table s) = Ok t' →
  lock_inv timeout (mk_lock_system (lock_clock s) t' (issued s) (fifos s) (held s) (fences s)).
Proof.
  intros Hi Hnone Hfence (r0 & Hr0 & Hw0 & ->)%release_ok. apply inv_set_table; try done.
  - apply (li_held _ _ Hi).
  - intros k' r [_ Hr]%lookup_delete_Some. by eapply li_row.
  - intros txn k' w' Hf. pose proof (li_fence _ _ Hi _ _ _ Hf) as (r & Hr & <-)%fence_holds_spec.
    apply fence_holds_spec. exists r. rewrite lookup_delete_ne; [done|]. intros ->.
    apply Hfence. by exists txn, (worker_id r).
  - intros w' l Hw Hv. destruct (li_lease _ _ Hi _ _ Hw Hv) as (r & Hr & Hwid & Hc).
    exists r. rewrite lookup_delete_ne; [done|]. intros ->. congruence.
  - apply (li_past _ _ Hi).
Qed.

Lemma inv_drop timeout s i fifo w l :
  lock_inv timeout s → fifos s !! i = Some fifo → held s !! w = Some l →
  lock_inv timeout (mk_lock_system (lock_clock s) (lock_table s) (issued s)
    (<[i := send_release (lock_key l) w fifo]> (fifos s)) (delete w (held s)) (fences s)).
Proof.
  intros Hi Hf Hw. pose proof (li_held _ _ Hi _ _ Hw) as Hwi. destruct Hi as [H1 H2 H3 H4 H5 H6 H7 H8].
  split; simpl; try done.
  - intros w' l' [_ Hw']%lookup_delete_Some. eauto.
  - intros i' fifo' k w' Hf' Hin.
    assert (Hold : w' ∈ issued s ∧ ∀ l, held s !! w' = Some l → lock_key l = k).
    { apply lookup_insert_Some in Hf' as [[<- <-]|[_ Hf']]; [|eauto].
      apply elem_of_app in Hin as [Hin|Hin%list_elem_of_singleton]; [eauto|done]. }
    split; [apply Hold|]. intros l' [_ Hl']%lookup_delete_Some. by apply Hold.
  - intros i' fifo' k w' [[<- <-]|[_ Hf']]%lookup_insert_Some Hin.
    + apply elem_of_app in Hin as [Hin|Hin%list_elem_of_singleton].
      * destruct (H4 _ _ _ _ Hf Hin). split; [done|]. apply lookup_delete_None. auto.
      * injection Hin as -> ->. split; [done|]. apply lookup_delete_eq.
    + destruct (H4 _ _ _ _ Hf' Hin). split; [done|]. apply lookup_delete_None. auto.
  - intros w' l' [_ Hw']%lookup_delete_Some. eauto.
  - intros w' l' [_ Hw']%lookup_delete_Some. eauto.
  - intros i' fifo' [[<- <-]|[_ Hf']]%lookup_insert_Some; [|eauto].
    unfold send_release. rewrite slots_used_app. simpl. specialize (H8 _ _ Hf).
    unfold slots_used at 2. simpl. lia.
Qed.

(** The rest of the system is as before when the FIFO has lost its first command. *)
Lemma set_fifo_table s i fifo t' iss' held' :
  mk_lock_system (lock_clock s) t' iss' (<[i := fifo]> (fifos s)) held' (fences s) =
  mk_lock_system (lock_clock (set_fifo i fifo s)) t' iss' (fifos (set_fifo i fifo s)) held'
    (fences (set_fifo i fifo s)).
Proof. done. Qed.

Lemma lock_step_inv timeout s s' : lock_inv timeout s → lock_step timeout s s' → lock_inv timeout s'.
Proof.
  intros Hi Hstep. destruct Hstep as
    [t Ht|i Hi0|i fifo fifo' k caller Hf Hsend|i fifo fifo' w l Hf Hw Hl Hsend|i fifo w l Hf Hw Hl
    |i fifo c Hf|i fifo k caller drawn t' delivered Hf Hfresh Hacq Hfence
    |i fifo k w t' acked Hf Hkeep|i fifo k w t' Hf Hrel Hfence|txn w l Htxn Hw Hh|txn|i].
  - destruct Hi as [H1 H2 H3 H4 H5 H6 H7 H8]. split; simpl; try done.
    + intros w l Hw Hv. apply (H6 w l Hw). unfold lease_valid in *. simpl in Hv. lia.
    + intros w l Hw. specialize (H7 w l Hw). lia.
  - apply inv_set_fifo; [done|apply Nat.le_0_l|by intros ? ? ?%not_elem_of_nil..].
  - by eapply inv_send.
  - eapply inv_send; [done..| |done]. intros k w' [= <- <-].
    split; [by eapply li_held|]. intros l' Hl'. congruence.
  - by apply inv_drop.
  - by eapply inv_pop.
  - rewrite set_fifo_table. apply (inv_acquire timeout (set_fifo i fifo s)); [by eapply inv_pop|done..].
  - rewrite set_fifo_table. apply (inv_kept timeout (set_fifo i fifo s) k w); [by eapply inv_pop| |done].
    intros l Hl. eapply (li_keep _ _ Hi); [done|by left|done].
  - rewrite set_fifo_table. apply (inv_released timeout (set_fifo i fifo s) k w);
      [by eapply inv_pop| |done..]. eapply (li_release _ _ Hi); [done|by left].
  - destruct Hi as [H1 H2 H3 H4 H5 H6 H7 H8]. split; simpl; try done.
    intros txn' k w' [[<- [= <- <-]]|[_ Hf]]%lookup_insert_Some; eauto.
  - destruct Hi as [H1 H2 H3 H4 H5 H6 H7 H8]. split; simpl; try done.
    intros txn' k w' [_ Hf]%lookup_delete_Some. eauto.
  - destruct Hi as [H1 H2 H3 H4 H5 H6 H7 H8]. split; simpl; try done.
    + intros w l [Hw _]%map_lookup_filter_Some. eauto.
    + intros i' fifo k w [_ Hf]%lookup_delete_Some Hin. destruct (H3 _ _ _ _ Hf Hin).
      split; [done|]. intros l [Hl _]%map_lookup_filter_Some. eauto.
    + intros i' fifo k w [_ Hf]%lookup_delete_Some Hin. destruct (H4 _ _ _ _ Hf Hin).
      split; [done|]. apply map_lookup_filter_None. by left.
    + intros w l [Hw _]%map_lookup_filter_Some. eauto.
    + intros w l [Hw _]%map_lookup_filter_Some. eauto.
    + intros i' fifo [_ Hf]%lookup_delete_Some. eauto.
Qed.

Lemma lock_reachable_inv timeout s : lock_reachable timeout s → lock_inv timeout s.
Proof.
  induction 1 as [t|s s' _ IH Hstep]; [|by eapply lock_step_inv].
  split; simpl; intros; by simplify_map_eq.
Qed.

(** ** Properties *)

(** A work lock is exclusive while its keepalives are confirmed in time: among all
    instances, at most one lock in scope for a key had a confirmation within the
    last timeout, and the database row of the key names that lock. *)
Theorem work_lock_exclusive (timeout : Z) (s : LockSystem) w1 l1 w2 l2
    (Hreach : lock_reachable timeout s)
    (H1 : held s !! w1 = Some l1) (H2 : held s !! w2 = Some l2)
    (Hkey : lock_key l1 = lock_key l2)
    (Hv1 : lease_valid timeout s l1) (Hv2 : lease_valid timeout s l2) :
  w1 = w2 ∧ worker_id <$> lock_table s !! lock_key l1 = Some w1.
Proof.
  pose proof (lock_reachable_inv _ _ Hreach) as Hi.
  destruct (li_lease _ _ Hi _ _ H1 Hv1) as (r1 & Hr1 & Hw1 & _).
  destruct (li_lease _ _ Hi _ _ H2 Hv2) as (r2 & Hr2 & Hw2 & _).
  rewrite Hkey in *. rewrite Hr1. split; [congruence|]. simpl. by rewrite Hw1.
Qed.

(** Fencing: while a transaction that fenced its lock is open, nobody else becomes
    the owner of the key and the lock is not deleted, even after the lease has
    expired; so what the transaction commits is written by the owner. *)
Theorem fenced_owner_unchanged (timeout : Z) (s s' : LockSystem) txn k w
    (Hreach : lock_reachable timeout s)
    (Hfence : fences s !! txn = Some (k, w))
    (Hstep : lock_step timeout s s') :
  worker_id <$> lock_table s !! k = Some w ∧
  (fences s' !! txn = Some (k, w) → worker_id <$> lock_table s' !! k = Some w).
Proof.
  pose proof (lock_reachable_inv _ _ Hreach) as Hi.
  pose proof (lock_step_inv _ _ _ Hi Hstep) as Hi'. split; [|intros Hf'].
  - by pose proof (li_fence _ _ Hi _ _ _ Hfence) as (r & -> & <-)%fence_holds_spec.
  - by pose proof (li_fence _ _ Hi' _ _ _ Hf') as (r & -> & <-)%fence_holds_spec.
Qed.

(** A lock changes hands only by release or expiry: a step after which a key that
    was locked by [w] is locked by somebody else happens strictly more than the
    timeout after the last keepalive of [w] that the database stored. *)
Theorem takeover_after_expiry (timeout : Z) (s s' : LockSystem) k r r'
    (Hstep : lock_step timeout s s')
    (Hr : lock_table s !! k = Some r) (Hr' : lock_table s' !! k = Some r')
    (Hother : worker_id r ≠ worker_id r') :
  last_keepalive r + timeout < lock_clock s ∧ ¬ fenced s k.
Proof.
  destruct Hstep as [| | | | | |i fifo k0 caller drawn t' delivered Hf Hfresh Hacq Hfence
    |i fifo k0 w t' acked Hf Hkeep|i fifo k0 w t' Hf Hrel Hfence| | |]; simpl in *; try congruence.
  - apply try_acquire_granted in Hacq as [-> Hexp]. destruct (decide (k0 = k)) as [->|Hne].
    + split; [by apply Hexp|]. apply Hfence. split; [eauto|].
      rewrite lookup_insert_eq in *. injection Hr' as <-. rewrite Hr. simpl in *. congruence.
    + rewrite lookup_insert_ne in Hr' by done. congruence.
  - apply keep_alive_ok in Hkeep as (r0 & Hr0 & Hw0 & ->). destruct (decide (k0 = k)) as [->|Hne].
    + rewrite lookup_insert_eq in Hr'. simplify_eq/=.
    + rewrite lookup_insert_ne in Hr' by done. congruence.
  - apply release_ok in Hrel as (r0 & Hr0 & Hw0 & ->).
    apply lookup_delete_Some in Hr' as [_ Hr']. congruence.
Qed.

(** A free key stays free while nobody asks for it. *)
Lemma run_command_free now timeout drawn c t k :
  t !! k = None → (∀ caller, c ≠ AcquireLock k caller) →
  snd (run_command now timeout drawn false c t) !! k = None.
Proof.
  intros Hfree Hc. destruct c as [k' caller|k' w|k' w]; simpl.
  - assert (k' ≠ k) by (intros ->; by destruct (Hc caller)).
    unfold try_acquire_lock. destruct (t !! k') as [r|]; [destruct (expired now timeout r)|];
      simpl; try done; by rewrite lookup_insert_ne.
  - unfold keep_lock_alive. destruct (t !! k') eqn:E; [case_decide|]; simpl; try done.
    rewrite lookup_insert_ne; [done|]. intros ->. congruence.
  - unfold release_lock. destruct (t !! k') eqn:E; [case_decide|]; simpl; try done.
    by apply lookup_delete_None; right.
Qed.

Lemma run_loop_acquire_free now timeout draw mid t k caller :
  t !! k = None → Forall (λ c, ∀ caller, c ≠ AcquireLock k caller) mid →
  last (fst (run_loop now timeout draw (mid ++ [AcquireLock k caller]) t)) =
  Some (Acquired (draw 0%nat)).
Proof.
  intros Hfree Hmid. revert t Hfree. induction Hmid as [|c mid Hc _ IH]; intros t Hfree; simpl.
  - unfold try_acquire_lock. by rewrite Hfree.
  - pose proof (run_command_free now timeout (draw (length (mid ++ [AcquireLock k caller]))) c t k
      Hfree Hc) as Hf.
    destruct (run_command _ _ _ _ c t) as [r t1]. simpl in Hf. specialize (IH t1 Hf).
    destruct (run_loop _ _ _ _ t1) as [rs t2]. simpl in *. rewrite last_cons. by rewrite IH.
Qed.

(** Dropping a lock and acquiring its key again from the same instance succeeds:
    the release precedes the acquisition in the FIFO of the manager, whatever
    commands that do not ask for the key are between them, even if the lease is
    fresh. *)
Theorem release_before_acquire now timeout draw k w caller mid (t : work_locks) r
    (Hr : t !! k = Some r) (Hw : worker_id r = w)
    (Hmid : Forall (λ c, ∀ caller, c ≠ AcquireLock k caller) mid) :
  last (fst (run_loop now timeout draw (send_release k w [] ++ mid ++ [AcquireLock k caller]) t)) =
  Some (Acquired (draw 0%nat)).
Proof.
  simpl. unfold release_lock. rewrite Hr, decide_True by done.
  pose proof (run_loop_acquire_free now timeout draw mid (delete k t) k caller) as H.
  destruct (run_loop _ _ _ _ _) as [rs t2]. simpl in *. rewrite last_cons.
  by rewrite H by (try done; apply lookup_delete_eq).
Qed.

Lemma release_before_acquire_witness :
  last (fst (run_loop 100 60 (λ n, N.of_nat n + 7)%N
    [ReleaseLock "a" 3; KeepLockAlive "b" 4; AcquireLock "a" 1]
    {["a" := mk_lock_row 3 90 99]})) = Some (Acquired 7).
Proof.
  apply (release_before_acquire 100 60 (λ n, N.of_nat n + 7)%N "a" 3 1 [KeepLockAlive "b" 4]
           {["a" := mk_lock_row 3 90 99]} (mk_lock_row 3 90 99)).
  - reflexivity.
  - reflexivity.
  - repeat constructor. by intros caller [=].
Defined.

(** Backpressure: every FIFO holds at most one hundred acquisitions and keepalives,
    in every reachable state, while a release is never refused. *)
Theorem command_slots_bounded (timeout : Z) (s : LockSystem) i fifo
    (Hreach : lock_reachable timeout s) (Hf : fifos s !! i = Some fifo) :
  (slots_used fifo ≤ 100)%nat.
Proof. exact (li_slots _ _ (lock_reachable_inv _ _ Hreach) i fifo Hf). Qed.

(** *** A concrete run *)

(** Instance [i] acquires [key] at time 5, and [j] asks for it. *)
Definition ls0 : LockSystem := mk_lock_system 5 ∅ ∅ ∅ ∅ ∅.
Definition ls1 : LockSystem := set_fifo "i" [] ls0.
Definition ls2 : LockSystem := set_fifo "i" [AcquireLock "key" 1] ls1.
Definition ls3 : LockSystem :=
  mk_lock_system 5 {["key" := mk_lock_row 42 5 5]} {[42%N]} (<["i" := []]> (fifos ls2))
    {[42%N := mk_work_lock "i" "key" 5]} ∅.
Definition ls4 : LockSystem :=
  mk_lock_system 5 (lock_table ls3) (issued ls3) (fifos ls3) (held ls3) {[9%N := ("key", 42%N)]}.

Lemma ls3_reachable : lock_reachable 60 ls3.
Proof.
  apply (lock_next _ ls2).
  - apply (lock_next _ ls1); [apply (lock_next _ ls0); [constructor|by apply lock_start]|].
    eapply lock_send_acquire; [reflexivity|reflexivity].
  - assert (Hls3 : ls3 = mk_lock_system (lock_clock ls2) {["key" := mk_lock_row 42 5 5]} ({[42%N]} ∪ issued ls2)
        (<["i" := []]> (fifos ls2))
        (if true then <[42%N := mk_work_lock "i" "key" (lock_clock ls2)]> (held ls2) else held ls2) (fences ls2))
      by (vm_compute; reflexivity).
    rewrite Hls3. apply (lock_acquire 60 ls2 "i" [] "key" 1 42 _ true);
      [reflexivity|set_solver|vm_compute; reflexivity|].
    intros [[? Hk] _]. vm_compute in Hk. discriminate Hk.
Qed.

Lemma ls4_step : lock_step 60 ls3 ls4.
Proof.
  assert (Hls4 : ls4 = mk_lock_system (lock_clock ls3) (lock_table ls3) (issued ls3) (fifos ls3) (held ls3)
                  (<[9%N := (lock_key (mk_work_lock "i" "key" 5), 42%N)]> (fences ls3)))
    by (vm_compute; reflexivity).
  rewrite Hls4. apply lock_fence; vm_compute; reflexivity.
Qed.

Lemma work_lock_exclusive_witness :
  worker_id <$> lock_table ls3 !! "key" = Some 42%N.
Proof.
  apply (work_lock_exclusive 60 ls3 42 (mk_work_lock "i" "key" 5) 42 (mk_work_lock "i" "key" 5)
           ls3_reachable); vm_compute; first [reflexivity | discriminate].
Defined.

Lemma fenced_owner_unchanged_witness :
  worker_id <$> lock_table ls4 !! "key" = Some 42%N.
Proof.
  refine (proj1 (fenced_owner_unchanged 60 ls4 (mk_lock_system 500 (lock_table ls4) (issued ls4)
           (fifos ls4) (held ls4) (fences ls4)) 9 "key" 42 _ _ _)).
  - apply (lock_next _ ls3); [apply ls3_reachable|apply ls4_step].
  - vm_compute. reflexivity.
  - apply lock_tick. vm_compute. discriminate.
Defined.

Lemma command_slots_bounded_witness : (slots_used [] ≤ 100)%nat.
Proof.
  apply (command_slots_bounded 60 ls3 "i" []); [apply ls3_reachable|vm_compute; reflexivity].
Defined.

(** The lease of 42 expires at time 65; [j] takes the key over at time 66. *)
Lemma takeover_after_expiry_witness :
  let s := mk_lock_system 66 {["key" := mk_lock_row 42 5 5]} {[42%N]}
             {["j" := [AcquireLock "key" 2]]} ∅ ∅ in
  last_keepalive (mk_lock_row 42 5 5) + 60 < lock_clock s.
Proof.
  intros s.
  pose (t' := <["key" := mk_lock_row 43 66 66]> (lock_table s)).
  assert (Hstep : lock_step 60 s (mk_lock_system (lock_clock s) t' ({[43%N]} ∪ issued s)
     (<["j" := []]> (fifos s)) (held s) (fences s))).
  { apply (lock_acquire 60 s "j" [] "key" 2 43 t' false); [reflexivity|set_solver|vm_compute; reflexivity|].
    intros _ (txn & w & Hf). vm_compute in Hf. by destruct txn. }
  refine (proj1 (takeover_after_expiry 60 s _ "key" (mk_lock_row 42 5 5) (mk_lock_row 43 66 66) Hstep _ _ _)).
  - vm_compute. reflexivity.
  - vm_compute. reflexivity.
  - vm_compute. discriminate.
Defined.
