(* ===== verification/ResourcePool.v ===== *)
(** * Resource pools ([crates/api-db/src/resource_pool.rs])

    The [resource_pool] table (unique on name and value), the operations on it
    ([populate], [allocate], [find_owned_allocation], [release], [stats]), the
    expansion of declared prefixes and ranges into values, and the definition and
    reconciliation of pools at startup.

    Values are stored as the strings they print as.  The parsers and printers of
    addresses and networks ([ipnetwork], [std::net]) are arguments of the
    definitions that use them; the operations on parsed networks are those of the
    class [IpNetworks]. *)

From S2P Require Import Prelude Ordered IpNetwork ObjectQueue.

(** ** The table *)

Inductive ResourcePoolEntryState :=
| Free
| Allocated (owner owner_type : string).

#[export] Instance entry_state_eq_dec : EqDecision ResourcePoolEntryState.
Proof. solve_decision. Defined.

Inductive ValueType := Integer | Ipv4 | Ipv6 | Ipv6Prefix.

#[export] Instance value_type_eq_dec : EqDecision ValueType.
Proof. solve_decision. Defined.

Record pool_row := mk_pool_row {
  row_value_type : ValueType;
  entry_state : ResourcePoolEntryState;
  row_auto_assign : bool;
  allocated_at : option Z;
}.

(** Rows by pool name and value. *)
Notation pool_table := (@gmap (string * string) prod_eq_dec prod_countable pool_row).

Record ResourcePool := mk_pool { pool_name : string; pool_value_type : ValueType }.

Definition POOL_BIND_LIMIT : Z := 32768.

(** [INSERT .. ON CONFLICT (name, value) DO NOTHING] of one value. *)
Definition populate_value (pool : ResourcePool) (auto_assign : bool) (t : pool_table) (v : string)
    : pool_table :=
  match t !! (pool_name pool, v) with
  | Some _ => t
  | None => <[(pool_name pool, v) := mk_pool_row (pool_value_type pool) Free auto_assign None]> t
  end.

Definition populate (pool : ResourcePool) (all_values : list string) (auto_assign : bool)
    (t : pool_table) : pool_table :=
  foldl (λ t vals, foldl (populate_value pool auto_assign) t vals) t
    (chunks (Z.to_nat (POOL_BIND_LIMIT / 6)) all_values).

(** *** Statistics *)

Record ResourcePoolStats := mk_pool_stats {
  auto_assign_used : Z;
  auto_assign_free : Z;
  non_auto_assign_used : Z;
  non_auto_assign_free : Z;
  used : Z;
  free : Z;
}.

Definition count_rows (P : pool_row → bool) (name : string) (t : pool_table) : Z :=
  Z.of_nat (size (filter (λ '((n, _), r), n = name ∧ P r = true) t)).

Definition is_free (r : pool_row) : bool := bool_decide (entry_state r = Free).

Definition stats (t : pool_table) (name : string) : ResourcePoolStats :=
  let au := count_rows (λ r, negb (is_free r) && row_auto_assign r) name t in
  let af := count_rows (λ r, is_free r && row_auto_assign r) name t in
  let nu := count_rows (λ r, negb (is_free r) && negb (row_auto_assign r)) name t in
  let nf := count_rows (λ r, is_free r && negb (row_auto_assign r)) name t in
  mk_pool_stats au af nu nf (au + nu) (af + nf).

(** *** Allocation *)

Inductive AllocateError :=
| PoolEmpty
| NotAvailable (requested name : string)
| RowNotFound
| MultipleAllocations (owner_type owner_id name : string)
| ParseError (e v name owner_type owner_id : string).

(** The [WHERE] of the allocating query. *)
Definition allocatable (requested : option string) (v : string) (r : pool_row) : bool :=
  let auto_assign := match requested with None => true | Some _ => false end in
  is_free r && Bool.eqb (row_auto_assign r) auto_assign &&
  (row_auto_assign r || bool_decide (requested = Some v)).

(** The row the query takes: [order] is the order [random()] gives to the values,
    [locked] the values whose rows other transactions have locked. *)
Definition pick (name : string) (requested : option string) (order : list string)
    (locked : gset string) (t : pool_table) : option string :=
  head (filter (λ v, v ∉ locked ∧
                     from_option (allocatable requested v) false (t !! (name, v)) = true) order).

Definition set_entry (now : option Z) (s : ResourcePoolEntryState) (r : pool_row) : pool_row :=
  mk_pool_row (row_value_type r) s (row_auto_assign r) now.

(** [allocate]: the statement has taken effect in the transaction also when the
    value does not parse. *)
Definition allocate {T} (parse : string → result string T) (now : Z) (pool : ResourcePool)
    (owner_type owner_id : string) (requested : option string) (order : list string)
    (locked : gset string) (t : pool_table) : result AllocateError T * pool_table :=
  match pick (pool_name pool) requested order locked t with
  | None =>
      let s := stats t (pool_name pool) in
      let n := match requested with None => auto_assign_free s | Some _ => non_auto_assign_free s end in
      (Err (if n =? 0 then PoolEmpty
            else match requested with
                 | Some req => NotAvailable req (pool_name pool)
                 | None => RowNotFound
                 end), t)
  | Some v =>
      let t := alter (set_entry (Some now) (Allocated owner_id owner_type)) (pool_name pool, v) t in
      (map_err (λ e, ParseError e v (pool_name pool) owner_type owner_id) (parse v), t)
  end.

(** [release]: whoever owns the value. *)
Definition release (pool : ResourcePool) (v : string) (t : pool_table) : pool_table :=
  alter (set_entry None Free) (pool_name pool, v) t.

(** The values of a pool that satisfy a test, in increasing order. *)
Definition pool_values (P : pool_row → bool) (name : string) (t : pool_table) : list string :=
  sort ((snd ∘ fst) <$> map_to_list (filter (λ '((n, _), r), n = name ∧ P r = true) t)).

Definition find_owned_allocation {T} (parse : string → result string T) (pool : ResourcePool)
    (owner_type owner_id : string) (t : pool_table) : result AllocateError (option T) :=
  let owned := pool_values (λ r, bool_decide (entry_state r = Allocated owner_id owner_type))
                 (pool_name pool) t in
  match take 2 owned with
  | [] => Ok None
  | [v] => Some <$> map_err (λ e, ParseError e v (pool_name pool) owner_type owner_id) (parse v)
  | _ => Err (MultipleAllocations owner_type owner_id (pool_name pool))
  end.

Definition pool_has_rows (t : pool_table) (name : string) : bool :=
  bool_decide (filter (λ '((n, _), _), n = name) t ≠ ∅).

(** ** Expansion of declared prefixes and ranges *)

Definition MAX_POOL_SIZE : Z := 250000.

Inductive DefineResourcePoolError :=
| InvalidArgument (msg : string)
| TooBig (n max : Z)
| DatabaseError (msg : string).

(** How an expansion ends; [ExpandPanic] is an arithmetic overflow. *)
Inductive Expansion (A : Type) :=
| Expanded (values : list A)
| ExpandErr (e : DefineResourcePoolError)
| ExpandPanic.
Arguments Expanded {A} _.
Arguments ExpandErr {A} _.
Arguments ExpandPanic {A}.

(** The integers of the half-open and closed ranges. *)
Definition half_open (a b : Z) : list Z := seqZ a (b - a).
Definition closed (a b : Z) : list Z := seqZ a (b + 1 - a).

Section Expand.
Context `{I : IpNetworks} (parse_network parse_v6_network : string → result string IpNetwork)
        (parse_v4 parse_v6 : string → result string Z).

Definition expand_ip_prefix (s : string) : result string (list Z) :=
  n ← parse_network s;
  if net_v6 n then Err ("invalid IPv4 network: " +:+ s)
  else Ok (half_open (network n) (broadcast n)).

Definition expand_ip_range (start_s end_s : string) : result string (list Z) :=
  start ← parse_v4 start_s; end_ ← parse_v4 end_s; Ok (half_open start end_).

(** [1u128.checked_shl(bits).unwrap_or(u128::MAX)] *)
Definition checked_shl_or_max (bits : Z) : Z := if bits <? 128 then 2 ^ bits else u128_max.

(** [usize::try_from(n).unwrap_or(usize::MAX)] *)
Definition to_usize (n : Z) : Z := Z.min n u64_max.

Definition expand_ipv6_prefix (s : string) : Expansion Z :=
  match parse_network s with
  | Err e => ExpandErr (InvalidArgument e)
  | Ok n =>
      if negb (net_v6 n) then ExpandErr (InvalidArgument ("Invalid IPv6 network: " +:+ s))
      else
        let num_addresses := checked_shl_or_max (128 - net_prefix n) in
        if MAX_POOL_SIZE <? num_addresses
        then ExpandErr (TooBig (to_usize num_addresses) MAX_POOL_SIZE)
        else Expanded (closed (network n) (broadcast n))
  end.

Definition expand_ipv6_range (start_s end_s : string) : Expansion Z :=
  match parse_v6 start_s, parse_v6 end_s with
  | Err e, _ => ExpandErr (InvalidArgument e)
  | _, Err e => ExpandErr (InvalidArgument e)
  | Ok start, Ok end_ =>
      let count := saturating_sub end_ start in
      if MAX_POOL_SIZE <? count then ExpandErr (TooBig (to_usize count) MAX_POOL_SIZE)
      else Expanded (half_open start end_)
  end.

(** The loop [for i in 0..count] that pushes [Ipv6Network::new(base + i * step, len)]. *)
Definition sub_prefixes (base step count len : Z) : Expansion IpNetwork :=
  match mapM (λ i, net_make true (base + i * step) len) (half_open 0 count) with
  | Ok prefixes => Expanded prefixes
  | Err e => ExpandErr (InvalidArgument e)
  end.

Definition expand_ipv6_prefix_delegation (parent : string) (delegate_len : Z)
    : Expansion IpNetwork :=
  match parse_network parent with
  | Err e => ExpandErr (InvalidArgument e)
  | Ok n =>
      if negb (net_v6 n) then ExpandErr (InvalidArgument ("Invalid IPv6 network: " +:+ parent))
      else if delegate_len <=? net_prefix n then
        ExpandErr (InvalidArgument ("Delegation prefix length /" +:+ print_u delegate_len +:+
          " must be longer than parent prefix length /" +:+ print_u (net_prefix n)))
      else if 128 <? delegate_len then
        ExpandErr (InvalidArgument ("Delegation prefix length /" +:+ print_u delegate_len +:+
          " exceeds maximum /128"))
      else
        let count := checked_shl_or_max (delegate_len - net_prefix n) in
        if MAX_POOL_SIZE <? count then ExpandErr (TooBig (to_usize count) MAX_POOL_SIZE)
        else sub_prefixes (network n) (2 ^ (128 - delegate_len)) count delegate_len
  end.

(** The endpoints are parsed as [Ipv6Network], not as [IpNetwork]; the shift by [128 - prefix_len]
    overflows for a prefix length of 0. *)
Definition expand_ipv6_prefix_range (start_s end_s : string) : Expansion IpNetwork :=
  match parse_v6_network start_s, parse_v6_network end_s with
  | Err e, _ => ExpandErr (InvalidArgument e)
  | _, Err e => ExpandErr (InvalidArgument e)
  | Ok start_net, Ok end_net =>
      let prefix_len := net_prefix start_net in
      if negb (net_prefix end_net =? prefix_len) then
        ExpandErr (InvalidArgument ("Range endpoints have different prefix lengths: /" +:+
          print_u prefix_len +:+ " vs /" +:+ print_u (net_prefix end_net)))
      else if negb (net_ip start_net =? network start_net) then
        ExpandErr (InvalidArgument ("Start prefix " +:+ start_s +:+ " has host bits set"))
      else if negb (net_ip end_net =? network end_net) then
        ExpandErr (InvalidArgument ("End prefix " +:+ end_s +:+ " has host bits set"))
      else if 128 <=? 128 - prefix_len then ExpandPanic
      else
        let step := 2 ^ (128 - prefix_len) in
        let start_addr := network start_net in
        let end_addr := network end_net in
        if end_addr <=? start_addr then
          ExpandErr (InvalidArgument "End prefix must be greater than start prefix")
        else
          let count := (end_addr - start_addr) / step in
          if MAX_POOL_SIZE <? count then ExpandErr (TooBig (to_usize count) MAX_POOL_SIZE)
          else sub_prefixes start_addr step count prefix_len
  end.
End Expand.

(** *** Integers *)

(** The value of a digit in a base up to 16, for lower-case letters. *)
Definition digit_value (base : Z) (c : ascii) : option Z :=
  let n := Z.of_N (N_of_ascii c) in
  let d := if (48 <=? n) && (n <=? 57) then n - 48
           else if (97 <=? n) && (n <=? 102) then n - 87 else base in
  if d <? base then Some d else None.

Fixpoint digits_value (base acc : Z) (s : string) : option Z :=
  match s with
  | EmptyString => Some acc
  | String c s => d ← digit_value base c; digits_value base (acc * base + d) s
  end.

(** [i64::from_str_radix]: a sign, at least one digit, and a value of the type. *)
Definition from_str_radix (base : Z) (s : string) : option Z :=
  let '(sign, digits) := match s with
                         | String "-"%char rest => (-1, rest)
                         | String "+"%char rest => (1, rest)
                         | _ => (1, s)
                         end in
  match digits with
  | EmptyString => None
  | _ => n ← digits_value base 0 digits;
         let n := sign * n in
         if (i64_min <=? n) && (n <=? i64_max) then Some n else None
  end.

(** [trim_start_matches(HEX_PRE)]: as often as the prefix is there. *)
Fixpoint trim_hex (s : string) : string :=
  match s with
  | String "0"%char (String "x"%char rest) => trim_hex rest
  | _ => s
  end.

Definition parse_int_range (data : string) : option Z :=
  let data := to_lowercase data in
  let base := match data with String "0"%char (String "x"%char _) => 16 | _ => 10 end in
  from_str_radix base (trim_hex data).

Definition expand_int_range (start_s end_s : string) : option (list Z) :=
  start ← parse_int_range start_s; end_ ← parse_int_range end_s; Some (half_open start end_).

(** ** Definition and reconciliation of pools *)

Record Range := mk_range { range_start : string; range_end : string; range_auto_assign : bool }.

Record ResourcePoolDef := mk_def {
  def_ranges : list Range;
  def_prefix : option string;
  pool_type : ValueType;
  delegate_prefix_len : option Z;
}.

Section Define.
Context `{I : IpNetworks} (parse_network parse_v6_network : string → result string IpNetwork)
        (parse_v4 parse_v6 : string → result string Z)
        (print_v4 print_v6 : Z → string) (print_network : IpNetwork → string).

(** What a step of the definition of pools ends with. *)
Inductive Defined (A : Type) :=
| DefOk (a : A)
| DefErr (e : DefineResourcePoolError)
| DefPanic.
Arguments DefOk {A} _.
Arguments DefErr {A} _.
Arguments DefPanic {A}.

Definition populate_expanded {A} (print : A → string) (name : string) (vt : ValueType) (auto : bool)
    (e : Expansion A) (t : pool_table) : Defined pool_table :=
  match e with
  | Expanded values => DefOk (populate (mk_pool name vt) (print <$> values) auto t)
  | ExpandErr e => DefErr e
  | ExpandPanic => DefPanic
  end.

(** The size check the callers make for IPv4 and integers. *)
Definition checked_size (r : result string (list Z)) : Expansion Z :=
  match r with
  | Err e => ExpandErr (InvalidArgument e)
  | Ok values =>
      let n := Z.of_nat (length values) in
      if MAX_POOL_SIZE <? n then ExpandErr (TooBig n MAX_POOL_SIZE) else Expanded values
  end.

Definition define_by_prefix (name : string) (vt : ValueType) (prefix : string)
    (delegate_len : option Z) (t : pool_table) : Defined pool_table :=
  match vt with
  | Ipv4 => populate_expanded print_v4 name Ipv4 true
              (checked_size (expand_ip_prefix parse_network prefix)) t
  | Ipv6 => populate_expanded print_v6 name Ipv6 true (expand_ipv6_prefix parse_network prefix) t
  | Ipv6Prefix =>
      match delegate_len with
      | None => DefErr (InvalidArgument "Pool type 'ipv6prefix' requires 'delegate_prefix_len'")
      | Some d => populate_expanded print_network name Ipv6Prefix true
                    (expand_ipv6_prefix_delegation parse_network prefix d) t
      end
  | Integer => DefErr (InvalidArgument "Pool type 'integer' cannot take a prefix")
  end.

Definition define_by_range (name : string) (vt : ValueType) (r : Range) (t : pool_table)
    : Defined pool_table :=
  match vt with
  | Ipv4 => populate_expanded print_v4 name Ipv4 (range_auto_assign r)
              (checked_size (expand_ip_range parse_v4 (range_start r) (range_end r))) t
  | Ipv6 => populate_expanded print_v6 name Ipv6 (range_auto_assign r)
              (expand_ipv6_range parse_v6 (range_start r) (range_end r)) t
  | Ipv6Prefix => populate_expanded print_network name Ipv6Prefix (range_auto_assign r)
                    (expand_ipv6_prefix_range parse_v6_network (range_start r) (range_end r)) t
  | Integer => populate_expanded print_i name Integer (range_auto_assign r)
                 (checked_size (ok_or (expand_int_range (range_start r) (range_end r))
                                  "invalid digit found in string")) t
  end.

Fixpoint define_ranges (name : string) (vt : ValueType) (rs : list Range) (t : pool_table)
    : Defined pool_table :=
  match rs with
  | [] => DefOk t
  | r :: rs => match define_by_range name vt r t with
               | DefOk t => define_ranges name vt rs t
               | e => e
               end
  end.

Definition define (name : string) (def : ResourcePoolDef) (t : pool_table) : Defined pool_table :=
  if String.eqb name "pkey" then
    DefErr (InvalidArgument "pkey pool is deprecated. Use ib_fabrics.default.pkeys as replacement")
  else
    match def_prefix def, def_ranges def with
    | None, [] => DefErr (InvalidArgument "Please provide one of 'prefix' or 'ranges'")
    | Some _, _ :: _ => DefErr (InvalidArgument "Please provide only one of 'prefix' or 'ranges'")
    | Some prefix, [] => define_by_prefix name (pool_type def) prefix (delegate_prefix_len def) t
    | None, ranges => define_ranges name (pool_type def) ranges t
    end.

(** [define_all_from], over the pools in the order the map iterates. *)
Fixpoint define_all_from (declared : list (string * ResourcePoolDef)) (t : pool_table)
    : Defined pool_table :=
  match declared with
  | [] => DefOk t
  | (name, def) :: rest =>
      match define name def t with
      | DefOk t => define_all_from rest t
      | e => e
      end
  end.

(** The table and the stored definitions. *)
Record pools := mk_pools { pool_rows : pool_table; stored_defs : gmap string ResourcePoolDef }.

(** [insert_pool_def]: a plain insert; its unique violation is an error. *)
Definition insert_pool_def (name : string) (def : ResourcePoolDef) (p : pools) : Defined pools :=
  match stored_defs p !! name with
  | Some _ => DefErr (DatabaseError "duplicate key value violates unique constraint")
  | None => DefOk (mk_pools (pool_rows p) (<[name := def]> (stored_defs p)))
  end.

(** One declared pool; [stored] is the snapshot read at the beginning. *)
Definition reconcile_one (stored : gmap string ResourcePoolDef) (name : string)
    (def : ResourcePoolDef) (p : pools) : Defined pools :=
  match stored !! name, pool_has_rows (pool_rows p) name with
  | Some _, _ => DefOk p
  | None, true => insert_pool_def name def p
  | None, false =>
      match define name def (pool_rows p) with
      | DefOk t => insert_pool_def name def (mk_pools t (stored_defs p))
      | DefErr e => DefErr e
      | DefPanic => DefPanic
      end
  end.

(** The declared pools in the order the map iterates. *)
Fixpoint reconcile_loop (stored : gmap string ResourcePoolDef)
    (declared : list (string * ResourcePoolDef)) (p : pools) : Defined pools :=
  match declared with
  | [] => DefOk p
  | (name, def) :: rest =>
      match reconcile_one stored name def p with
      | DefOk p => reconcile_loop stored rest p
      | e => e
      end
  end.

Definition reconcile_pool_defs (declared : list (string * ResourcePoolDef)) (p : pools)
    : Defined pools :=
  reconcile_loop (stored_defs p) declared p.
End Define.
Arguments DefOk {A} _.
Arguments DefErr {A} _.
Arguments DefPanic {A}.
