(* ===== verification/ResourcePoolFacts.v ===== *)
(** * What resource pools guarantee

    The requests refine an abstract map from values to owners; the errors of an
    allocation are exact; populating and reconciling only add; expansions are disjoint, aligned
    and within bounds. *)

From S2P Require Import Prelude Ordered IpNetwork ObjectQueue ResourcePool.

(** ** Populating *)

Lemma populate_values_lookup pool (auto : bool) (vals : list string) (t : pool_table) k :
  foldl (populate_value pool auto) t vals !! k =
  match t !! k with
  | Some r => Some r
  | None => if decide (fst k = pool_name pool ∧ snd k ∈ vals)
            then Some (mk_pool_row (pool_value_type pool) Free auto None) else None
  end.
Proof.
  revert t. induction vals as [|v vals IH]; intros t; cbn [foldl].
  - destruct (t !! k); [done|]. rewrite decide_False; [done|]. intros [_ Hin].
    by apply not_elem_of_nil in Hin.
  - rewrite IH. unfold populate_value. destruct k as [n v']. simpl.
    destruct (t !! (pool_name pool, v)) as [r|] eqn:E.
    + destruct (t !! (n, v')) eqn:E'; [done|].
      apply decide_ext. rewrite elem_of_cons. split; [naive_solver|].
      intros [-> [->|Hin]]; [congruence|done].
    + destruct (decide ((n, v') = (pool_name pool, v))) as [Heq|Hne].
      * rewrite Heq, lookup_insert_eq, E. injection Heq as -> ->.
        rewrite decide_True; [done|]. split; [done|by left].
      * rewrite lookup_insert_ne by done. destruct (t !! (n, v')); [done|].
        apply decide_ext. rewrite elem_of_cons. split; [naive_solver|].
        intros [-> [->|Hin]]; [done|done].
Qed.

Lemma populate_lookup pool (vals : list string) (auto : bool) (t : pool_table) k :
  populate pool vals auto t !! k =
  match t !! k with
  | Some r => Some r
  | None => if decide (fst k = pool_name pool ∧ snd k ∈ vals)
            then Some (mk_pool_row (pool_value_type pool) Free auto None) else None
  end.
Proof.
  unfold populate. rewrite foldl_concat, concat_chunks by (vm_compute; lia).
  apply populate_values_lookup.
Qed.

(** ** Allocation *)

Lemma pick_spec (name : string) (requested : option string) (order : list string) (locked : gset string) (t : pool_table) v :
  pick name requested order locked t = Some v →
  v ∈ order ∧ v ∉ locked ∧
  ∃ r, t !! (name, v) = Some r ∧ allocatable requested v r = true.
Proof.
  unfold pick. intros Hh. apply head_Some_elem_of in Hh.
  apply list_elem_of_filter in Hh as [[Hl Ha] Ho].
  destruct (t !! (name, v)) as [r|]; [|done]. eauto.
Qed.

Lemma pick_none (name : string) (requested : option string) (order : list string) (locked : gset string) (t : pool_table) v r :
  pick name requested order locked t = None →
  v ∈ order → v ∉ locked → t !! (name, v) = Some r → allocatable requested v r = false.
Proof.
  unfold pick. intros Hh Ho Hl Hr. destruct (allocatable requested v r) eqn:E; [|done].
  apply head_None in Hh. exfalso. eapply (filter_nil_not_elem_of _ order v); [exact Hh| |exact Ho].
  simpl. rewrite Hr. done.
Qed.

Lemma allocatable_spec requested v r :
  allocatable requested v r = true ↔
  entry_state r = Free ∧
  match requested with
  | None => row_auto_assign r = true
  | Some req => row_auto_assign r = false ∧ req = v
  end.
Proof.
  unfold allocatable, is_free. destruct requested as [req|], (row_auto_assign r); simpl;
    rewrite ?andb_true_iff, ?andb_false_r, ?andb_true_r, ?orb_true_r, ?bool_decide_eq_true; naive_solver.
Qed.

Lemma count_rows_zero (P : pool_row → bool) (name : string) (t : pool_table) :
  count_rows P name t = 0 ↔ ∀ v r, t !! (name, v) = Some r → P r = false.
Proof.
  unfold count_rows. set (m := filter _ t).
  split.
  - intros Hz v r Hr. destruct (P r) eqn:E; [|done]. exfalso.
    assert (Hm : m = ∅) by (apply map_size_empty_iff; lia).
    assert (Hin : m !! (name, v) = Some r) by (by apply map_lookup_filter_Some).
    by rewrite Hm, lookup_empty in Hin.
  - intros Hall. assert (Hm : m = ∅); [|by rewrite Hm, map_size_empty].
    apply map_empty. intros [n v]. apply map_lookup_filter_None. right.
    intros r Hr [-> Hp]. by rewrite (Hall v r Hr) in Hp.
Qed.

(** The abstract pool: who owns which value of a pool. *)
Definition owners (t : pool_table) (name v : string) : option (string * string) :=
  r ← t !! (name, v);
  match entry_state r with
  | Free => None
  | Allocated owner owner_type => Some (owner, owner_type)
  end.

Lemma populate_owners pool t vals auto n v :
  owners (populate pool vals auto t) n v = owners t n v.
Proof.
  unfold owners. rewrite populate_lookup. destruct (t !! (n, v)); [done|]. by case_decide.
Qed.

Lemma release_owners pool t v n v' :
  owners (release pool v t) n v' =
  if decide ((n, v') = (pool_name pool, v)) then None else owners t n v'.
Proof.
  unfold owners, release. case_decide as Heq.
  - injection Heq as -> ->. rewrite lookup_alter_eq. by destruct (t !! (pool_name pool, v)).
  - by rewrite lookup_alter_ne.
Qed.

(** Whether a value of a pool is for automatic assignment or for explicit requests. *)
Definition partition (t : pool_table) (name v : string) : option bool :=
  row_auto_assign <$> t !! (name, v).

Lemma set_entry_partition now st k (t : pool_table) n v :
  partition (alter (set_entry now st) k t) n v = partition t n v.
Proof.
  unfold partition. destruct (decide ((n, v) = k)) as [<-|Hne]; [|by rewrite lookup_alter_ne].
  rewrite lookup_alter_eq. by destruct (t !! (n, v)).
Qed.

(** What an allocation may take: a value that the query gets to see, that has no owner and
    that is for automatic assignment, or is the requested one and for explicit requests. *)
Definition offered (name : string) (requested : option string) (order : list string)
    (locked : gset string) (t : pool_table) (v : string) : Prop :=
  v ∈ order ∧ v ∉ locked ∧ owners t name v = None ∧
  match requested with
  | None => partition t name v = Some true
  | Some req => v = req ∧ partition t name v = Some false
  end.

Lemma offered_iff name requested order locked (t : pool_table) v :
  offered name requested order locked t v ↔
  v ∈ order ∧ v ∉ locked ∧ ∃ r, t !! (name, v) = Some r ∧ allocatable requested v r = true.
Proof.
  unfold offered, owners, partition. destruct (t !! (name, v)) as [r|] eqn:E; simpl.
  - trans (v ∈ order ∧ v ∉ locked ∧ allocatable requested v r = true).
    + rewrite allocatable_spec. destruct (entry_state r), requested, (row_auto_assign r);
        intuition congruence.
    + repeat f_equiv. split; [eauto|]. by intros (? & [= <-] & ?).
  - split; [|by intros (_ & _ & ? & ? & _)]. destruct requested; intros (_ & _ & _ & ?); naive_solver.
Qed.

(** The requests that change a pool, from whatever transactions. *)
Inductive pool_request :=
| Populate (pool : ResourcePool) (vals : list string) (auto : bool)
| Allocate (now : Z) (pool : ResourcePool) (otype oid : string) (requested : option string)
    (order : list string) (locked : gset string)
| Release (pool : ResourcePool) (v : string).

Definition serve {T} (parse : string → result string T) (t : pool_table) (q : pool_request) : pool_table :=
  match q with
  | Populate pool vals auto => populate pool vals auto t
  | Allocate now pool otype oid requested order locked =>
      snd (allocate parse now pool otype oid requested order locked t)
  | Release pool v => release pool v t
  end.

Definition releases (n v : string) (q : pool_request) : Prop :=
  match q with Release pool v' => pool_name pool = n ∧ v' = v | _ => False end.

(** What an allocation does to owners and partitions, as a relation. *)
Definition allocates {T} (parse : string → result string T) (pool : ResourcePool) (otype oid : string)
    (avail : string → Prop) (t : pool_table) (r : result AllocateError T) (t' : pool_table) : Prop :=
  (∃ v, avail v ∧ r = map_err (λ e, ParseError e v (pool_name pool) otype oid) (parse v) ∧
     ∀ n v', owners t' n v' = (if decide ((n, v') = (pool_name pool, v)) then Some (oid, otype)
                               else owners t n v') ∧
             partition t' n v' = partition t n v') ∨
  ((∀ v, ¬ avail v) ∧ t' = t ∧ ∃ e, r = Err e).

Lemma allocate_allocates {T} (parse : string → result string T) now pool otype oid requested order locked t :
  let '(r, t') := allocate parse now pool otype oid requested order locked t in
  allocates parse pool otype oid (offered (pool_name pool) requested order locked t) t r t'.
Proof.
  unfold allocate, allocates. destruct (pick _ _ _ _ _) as [v|] eqn:Hp.
  - left. exists v. apply pick_spec in Hp as (Ho & Hl & r & Hr & Ha).
    split_and!; [by apply offered_iff; eauto|done|]. intros n v'. split; [|apply set_entry_partition].
    unfold owners. case_decide as E.
    + injection E as -> ->. by rewrite lookup_alter_eq, Hr.
    + by rewrite lookup_alter_ne.
  - right. split_and!; [|done|eauto]. intros v (Ho & Hl & r & Hr & Ha)%offered_iff.
    by rewrite (pick_none _ _ _ _ _ _ _ Hp Ho Hl Hr) in Ha.
Qed.

Lemma served_owned {T} (parse : string → result string T) t q n v o :
  owners t n v = Some o → ¬ releases n v q → owners (serve parse t q) n v = Some o.
Proof.
  intros Ho Hq. destruct q as [pool vals auto|now pool otype oid requested order locked|pool v']; simpl.
  - by rewrite populate_owners.
  - pose proof (allocate_allocates parse now pool otype oid requested order locked t) as H.
    destruct (allocate _ _ _ _ _ _ _ _ _) as [r t']; simpl.
    destruct H as [(w & Hw & _ & H)|(_ & -> & _)]; [|done].
    rewrite (proj1 (H n v)). case_decide as E; [|done]. injection E as -> ->.
    destruct Hw as (_ & _ & Hw & _). congruence.
  - rewrite release_owners. case_decide as E; [|done]. injection E as -> ->. by destruct Hq.
Qed.

(** C35: Resource pools refine a map from values to owners.  An allocation takes a value
    that is offered (seen by the query and not locked, without an owner, and in the
    partition of the request: for automatic assignment, or the requested value itself and
    for explicit requests) and makes the caller its owner, returning the value or the error
    that it does not parse, and changes no other owner and no partition; only when nothing
    is offered does it fail and change nothing.  Populating adds the missing values, without
    owner, to one partition, and a release frees one value.  So whatever requests are
    served, an owner keeps its value until that value is released. *)
Theorem allocation_refines_owners {T} (parse : string → result string T) (t : pool_table) :
  (∀ now pool otype oid requested order locked,
     let '(r, t') := allocate parse now pool otype oid requested order locked t in
     allocates parse pool otype oid (offered (pool_name pool) requested order locked t) t r t') ∧
  (∀ pool vals auto n v,
     let t' := populate pool vals auto t in
     owners t' n v = owners t n v ∧
     partition t' n v = (if decide (n = pool_name pool ∧ v ∈ vals)
                         then Some (default auto (partition t n v)) else partition t n v)) ∧
  (∀ pool v n v',
     let t' := release pool v t in
     owners t' n v' = (if decide ((n, v') = (pool_name pool, v)) then None else owners t n v') ∧
     partition t' n v' = partition t n v') ∧
  (∀ qs n v o, owners t n v = Some o → Forall (λ q, ¬ releases n v q) qs →
     owners (foldl (serve parse) t qs) n v = Some o).
Proof.
  split_and!.
  - intros. apply allocate_allocates.
  - intros pool vals auto n v t'. split; [apply populate_owners|].
    unfold t', partition. rewrite populate_lookup. simpl.
    destruct (t !! (n, v)); simpl; by case_decide.
  - intros. split; [apply release_owners|apply set_entry_partition].
  - intros qs n v o Ho Hqs. revert t Ho. induction Hqs as [|q qs Hq _ IH]; intros t Ho; [done|].
    apply IH. by apply served_owned.
Qed.

(** The errors of an allocation are exact.  When no row is locked and the query sees
    every value of the pool: it takes a value if and only if some value qualifies, and
    then returns that value parsed; otherwise it
    reports an exhausted pool only if the partition has no free value at all, and
    an unavailable value only if that value is not free for explicit requests; the
    generic missing-row error does not occur. *)
Theorem allocate_errors_exact {T} (parse : string → result string T) (now : Z) (pool : ResourcePool)
    (otype oid : string) (requested : option string) (order : list string) (t : pool_table)
    (Hall : ∀ v r, t !! (pool_name pool, v) = Some r → v ∈ order) :
  let r := fst (allocate parse now pool otype oid requested order ∅ t) in
  match pick (pool_name pool) requested order ∅ t with
  | Some v =>
      (∃ row, t !! (pool_name pool, v) = Some row ∧ allocatable requested v row = true) ∧
      r = map_err (λ e, ParseError e v (pool_name pool) otype oid) (parse v)
  | None =>
      (∀ v row, t !! (pool_name pool, v) = Some row → allocatable requested v row = false) ∧
      ((r = Err PoolEmpty ∧
       ∀ v row, t !! (pool_name pool, v) = Some row → entry_state row = Free →
                row_auto_assign row ≠ match requested with None => true | Some _ => false end) ∨
      (∃ req, requested = Some req ∧ r = Err (NotAvailable req (pool_name pool)) ∧
       ∀ row, t !! (pool_name pool, req) = Some row → entry_state row = Free →
              row_auto_assign row = true))
  end.
Proof.
  unfold allocate. destruct (pick _ _ _ _ _) as [v|] eqn:Hp.
  - apply pick_spec in Hp as (_ & _ & row & Hr & Ha). eauto.
  - assert (Hno : ∀ v row, t !! (pool_name pool, v) = Some row → allocatable requested v row = false).
    { intros v row Hr. eapply pick_none; [exact Hp|by eapply Hall|apply not_elem_of_empty|exact Hr]. }
    split; [exact Hno|]. simpl. destruct requested as [req|]; simpl.
    + destruct (count_rows _ _ _ =? 0) eqn:E.
      * left. split; [done|]. apply Z.eqb_eq in E. rewrite count_rows_zero in E.
        intros v row Hr Hf. specialize (E v row Hr). unfold is_free in E.
        rewrite bool_decide_true in E by done. by destruct (row_auto_assign row).
      * right. exists req. split_and!; [done..|]. intros row Hr Hf.
        specialize (Hno req row Hr). destruct (row_auto_assign row) eqn:Ea; [done|].
        exfalso. apply not_true_iff_false in Hno. apply Hno. by apply allocatable_spec.
    + left. destruct (count_rows _ _ _ =? 0) eqn:E.
      * split; [done|]. apply Z.eqb_eq in E. rewrite count_rows_zero in E.
        intros v row Hr Hf. specialize (E v row Hr). unfold is_free in E.
        rewrite bool_decide_true in E by done. by destruct (row_auto_assign row).
      * exfalso. apply Z.eqb_neq in E. apply E. apply count_rows_zero. intros v row Hr.
        specialize (Hno v row Hr). apply not_true_iff_false. intros [Hf Ha]%andb_true_iff.
        apply not_true_iff_false in Hno. apply Hno. apply allocatable_spec.
        split; [by apply bool_decide_eq_true in Hf|done].
Qed.

Lemma allocate_errors_exact_witness :
  let pool := mk_pool "vlan" Integer in
  let t : pool_table := populate pool ["1"; "2"] false ∅ in
  pick "vlan" None ["1"; "2"] ∅ t = None ∧
  fst (allocate (Ok (E := string)) 5 pool "machine" "m1" None ["1"; "2"] ∅ t) = Err PoolEmpty.
Proof.
  intros pool t.
  assert (Hall : ∀ v r, t !! (pool_name pool, v) = Some r → v ∈ ["1"; "2"]).
  { intros v r. unfold t. rewrite populate_lookup, lookup_empty. case_decide as Hv; [|done].
    intros _. apply Hv. }
  pose proof (allocate_errors_exact (Ok (E := string)) 5 pool "machine" "m1" None ["1"; "2"] t Hall) as H.
  assert (Hp : pick "vlan" None ["1"; "2"] ∅ t = None) by (vm_compute; reflexivity).
  split; [exact Hp|]. change (pool_name pool) with "vlan" in H. rewrite Hp in H.
  by destruct H as [_ [[H _]|(req & [=] & _)]].
Defined.

(** ** Expansion *)

Lemma elem_of_half_open a b x : x ∈ half_open a b ↔ a ≤ x < b.
Proof. unfold half_open. rewrite elem_of_seqZ. lia. Qed.

Section Delegation.
Context `{I : IpNetworks}.

(** The prefixes of the loop: prefix [i] is the block that starts at [base + i * step]. *)
Lemma sub_prefixes_spec base d count :
  0 < d ≤ 128 → base mod 2 ^ (128 - d) = 0 → 0 ≤ base → 0 ≤ count →
  base + count * 2 ^ (128 - d) ≤ 2 ^ 128 →
  ∃ l, sub_prefixes base (2 ^ (128 - d)) count d = Expanded l ∧
  Z.of_nat (length l) = count ∧
  (∀ m, m ∈ l → net_v6 m = true ∧ net_prefix m = d ∧ network m = net_ip m ∧
                broadcast m = net_ip m + 2 ^ (128 - d) - 1 ∧
                ∃ i, 0 ≤ i < count ∧ net_ip m = base + i * 2 ^ (128 - d)) ∧
  (∀ i, 0 ≤ i < count → ∃ m, m ∈ l ∧ net_ip m = base + i * 2 ^ (128 - d)).
Proof.
  intros Hd Hb Hb0 Hc Htop. unfold sub_prefixes. set (s := 2 ^ (128 - d)) in *.
  assert (0 < s) by (apply Z.pow_pos_nonneg; lia).
  assert (∀ i, 0 ≤ i < count → ∃ m, net_make true (base + i * s) d = Ok m ∧ net_v6 m = true ∧
            net_ip m = base + i * s ∧ net_prefix m = d) as Hmake.
  { intros i Hi. apply net_make_ok; simpl; nia. }
  destruct (result_mapM_total (λ i, net_make true (base + i * s) d) (half_open 0 count)) as [l E].
  { intros i Hi%elem_of_half_open. destruct (Hmake i Hi) as (m & ? & _). by exists m. }
  rewrite E. exists l. apply result_mapM_ok in E. split_and!; [done|..].
  - apply Forall2_length in E. unfold half_open in E. rewrite length_seqZ in E. lia.
  - intros m Hm. apply list_elem_of_lookup in Hm as [k Hk].
    destruct (Forall2_lookup_r _ _ _ _ _ E Hk) as (i & Hi & Em).
    apply list_elem_of_lookup_2, elem_of_half_open in Hi.
    destruct (Hmake i Hi) as (m' & Em' & Hv & Hip & Hp). rewrite Em in Em'. injection Em' as <-.
    assert (net_size m = s) as Hs by (unfold net_size; by rewrite Hv, Hp).
    assert (network m = net_ip m) as Hn.
    { apply network_of_aligned. rewrite Hs, Hip, Z.mod_add by lia. done. }
    split_and!; try done; [rewrite broadcast_size, Hn, Hs; done|eauto].
  - intros i Hi. destruct (Hmake i Hi) as (m & Em & _ & Hip & _).
    assert (i ∈ half_open 0 count) as [k Hk]%list_elem_of_lookup by (by apply elem_of_half_open).
    destruct (Forall2_lookup_l _ _ _ _ _ E Hk) as (m' & Hm' & Em').
    rewrite Em in Em'. injection Em' as <-. exists m. split; [|done].
    by eapply list_elem_of_lookup_2.
Qed.

Lemma pow2_split (p d : Z) : 0 ≤ p ≤ d → d ≤ 128 → 2 ^ (128 - p) = 2 ^ (d - p) * 2 ^ (128 - d).
Proof using Type. intros. rewrite <- Z.pow_add_r by lia. f_equal. lia. Qed.

Lemma mod_pow_weaken a p d :
  0 ≤ p ≤ d → d ≤ 128 → a mod 2 ^ (128 - p) = 0 → a mod 2 ^ (128 - d) = 0.
Proof.
  intros Hp Hd Ha.
  assert (0 < 2 ^ (128 - d)) by (apply Z.pow_pos_nonneg; lia).
  assert (0 < 2 ^ (128 - p)) by (apply Z.pow_pos_nonneg; lia).
  apply Z.div_exact in Ha; [|lia]. rewrite Ha, (pow2_split p d) by lia.
  rewrite (Z.mul_comm (2 ^ (d - p))), <- Z.mul_assoc, Z.mul_comm. apply Z.mod_mul. lia.
Qed.

(** The size check is not affected by the saturation of the shift. *)
Lemma checked_shl_too_big bits : 0 ≤ bits ≤ 128 →
  (MAX_POOL_SIZE <? checked_shl_or_max bits) = (MAX_POOL_SIZE <? 2 ^ bits).
Proof using Type.
  intros H. unfold checked_shl_or_max. destruct (Z.ltb_spec bits 128); [done|].
  by replace bits with 128 by lia.
Qed.

Lemma checked_shl_small bits : 0 ≤ bits ≤ 128 → 2 ^ bits ≤ MAX_POOL_SIZE →
  checked_shl_or_max bits = 2 ^ bits.
Proof using Type.
  intros H Hm. unfold checked_shl_or_max. destruct (Z.ltb_spec bits 128); [done|].
  exfalso. replace bits with 128 in Hm by lia. revert Hm. unfold MAX_POOL_SIZE. by apply Z.lt_nge.
Qed.

(** Delegating an IPv6 parent prefix to a longer prefix length succeeds exactly when
    there are at most 250,000 delegations, and then yields aligned prefixes of the
    delegation length that partition the parent: each lies inside it and inside the
    address space (the address arithmetic does not overflow), and every address of
    the parent is in exactly one of them. *)
Theorem delegation_partitions_parent parse_network parent d n
    (Hparse : parse_network parent = Ok n) (Hv : net_v6 n = true)
    (Hd : net_prefix n < d ≤ 128) :
  if MAX_POOL_SIZE <? 2 ^ (d - net_prefix n)
  then ∃ k, expand_ipv6_prefix_delegation parse_network parent d = ExpandErr (TooBig k MAX_POOL_SIZE)
  else ∃ l, expand_ipv6_prefix_delegation parse_network parent d = Expanded l ∧
    Z.of_nat (length l) = 2 ^ (d - net_prefix n) ∧
    (∀ m, m ∈ l → net_v6 m = true ∧ net_prefix m = d ∧ net_ip m = network m ∧
                  network n ≤ network m ∧ broadcast m ≤ broadcast n < 2 ^ 128) ∧
    (∀ a, network n ≤ a ≤ broadcast n →
          ∃ m, m ∈ l ∧ network m ≤ a ≤ broadcast m ∧
               ∀ m', m' ∈ l → network m' ≤ a ≤ broadcast m' → m' = m).
Proof.
  unfold expand_ipv6_prefix_delegation. rewrite Hparse, Hv. cbn [negb].
  rewrite (proj2 (Z.leb_gt d _)), (proj2 (Z.ltb_ge 128 d)) by lia.
  pose proof (net_prefix_range n) as Hp. pose proof (network_bounds n) as [Hn0 Htop].
  pose proof (broadcast_size n) as Hbc. pose proof (network_aligned n) as Hal.
  unfold net_size in Hbc, Htop, Hal. rewrite Hv in *. cbn [family_bits] in *.
  set (p := net_prefix n) in *. rewrite checked_shl_too_big by lia.
  destruct (MAX_POOL_SIZE <? 2 ^ (d - p)) eqn:Hmax; [by eexists|].
  apply Z.ltb_ge in Hmax. rewrite checked_shl_small by lia.
  set (s := 2 ^ (128 - d)) in *. set (c := 2 ^ (d - p)) in *.
  assert (Hs : 0 < s) by (apply Z.pow_pos_nonneg; lia).
  assert (Hc : 0 < c) by (apply Z.pow_pos_nonneg; lia).
  assert (Hcs : 2 ^ (128 - p) = c * s) by (apply pow2_split; lia).
  rewrite Hcs in Hbc, Htop.
  destruct (sub_prefixes_spec (network n) d c) as (l & El & Hlen & Hin & Hall); [lia| |lia..|].
  { apply (mod_pow_weaken _ p); [lia..|done]. }
  exists l. fold s in El, Hin, Hall. split_and!; [done|lia| |].
  - intros m Hm. destruct (Hin m Hm) as (? & ? & Hnet & -> & i & Hi & Hip).
    rewrite Hnet, Hip. split_and!; try done; nia.
  - intros a Ha. set (i := (a - network n) / s).
    assert (Hi : i * s ≤ a - network n < i * s + s) by (unfold i; pose proof (Z.div_mod (a - network n) s);
      pose proof (Z.mod_pos_bound (a - network n) s); nia).
    destruct (Hall i ltac:(nia)) as (m & Hm & Hip). exists m.
    destruct (Hin m Hm) as (Hv1 & Hp1 & -> & -> & _). split_and!; [done|lia|lia|].
    intros m' Hm'. destruct (Hin m' Hm') as (Hv2 & Hp2 & -> & -> & j & Hj & Hip'). intros Ha'.
    assert (i = j) as <- by nia. apply network_ext; congruence.
Qed.

(** The IPv4 expansion of a prefix lists every address of it except the last one, so
    in particular a /32 expands to nothing, although it is documented to list all
    the addresses the prefix covers. *)
Theorem ip_prefix_expansion_drops_last parse_network s n l
    (Hparse : parse_network s = Ok n)
    (Hexp : expand_ip_prefix parse_network s = Ok l) :
  (∀ a, a ∈ l ↔ network n ≤ a < broadcast n) ∧ broadcast n ∉ l ∧ (net_prefix n = 32 → l = []).
Proof.
  unfold expand_ip_prefix in Hexp. rewrite Hparse in Hexp. simpl in Hexp.
  destruct (net_v6 n) eqn:Hv; [done|]. injection Hexp as <-. split_and!.
  - intros a. apply elem_of_half_open.
  - rewrite elem_of_half_open. lia.
  - intros Hp. unfold half_open. rewrite broadcast_spec, Hv, Hp.
    change (2 ^ (family_bits false - 32)) with 1. by rewrite Z.add_simpl_r, Z.sub_diag.
Qed.

(** The expansion of a range of IPv6 prefixes panics instead of returning an error
    exactly when both endpoints have prefix length 0 and no host bits. *)
Theorem prefix_range_panics_on_zero_length parse_v6_network start_s end_s n m
    (Hn : parse_v6_network start_s = Ok n) (Hm : parse_v6_network end_s = Ok m) :
  expand_ipv6_prefix_range parse_v6_network start_s end_s = ExpandPanic ↔
  net_prefix n = 0 ∧ net_prefix m = 0 ∧ net_ip n = network n ∧ net_ip m = network m.
Proof.
  pose proof (net_prefix_range n). unfold expand_ipv6_prefix_range. rewrite Hn, Hm.
  destruct (net_prefix m =? net_prefix n) eqn:E1; simpl; [|split; [done|to_prop; lia]].
  destruct (net_ip n =? network n) eqn:E2; simpl; [|split; [done|to_prop; lia]].
  destruct (net_ip m =? network m) eqn:E3; simpl; [|split; [done|to_prop; lia]].
  destruct (128 <=? 128 - net_prefix n) eqn:E4; to_prop; [split; [lia|done]|].
  split; [|lia]. destruct (_ <=? _); [done|]. destruct (_ <? _); [done|].
  unfold sub_prefixes. by destruct (mapM _ _).
Qed.
End Delegation.

Lemma delegation_partitions_parent_witness :
  let parse := λ _ : string, Ok (E := string) (ref_network true (2 ^ 120) 60) in
  ∃ l, expand_ipv6_prefix_delegation (I := ref_ipnetworks) parse "100::/60" 64 = Expanded l ∧
       Z.of_nat (length l) = 16.
Proof.
  intros parse.
  pose proof (delegation_partitions_parent (I := ref_ipnetworks) parse "100::/60" 64
                (ref_network true (2 ^ 120) 60) eq_refl eq_refl) as H.
  cbn [net_prefix ref_ipnetworks] in H.
  change (ref_n_prefix (ref_network true (2 ^ 120) 60)) with 60 in H.
  destruct (H ltac:(lia)) as (l & E & Hl & _). exists l. split; [exact E|]. rewrite Hl. reflexivity.
Defined.

Lemma ip_prefix_expansion_drops_last_witness :
  let parse := λ _ : string, Ok (E := string) (ref_network false 167772161 32) in
  ∃ l, expand_ip_prefix (I := ref_ipnetworks) parse "10.0.0.1/32" = Ok l ∧ l = [].
Proof.
  intros parse. eexists. split; [reflexivity|].
  destruct (ip_prefix_expansion_drops_last (I := ref_ipnetworks) parse "10.0.0.1/32"
              (ref_network false 167772161 32) _ eq_refl eq_refl) as (_ & _ & H).
  apply H. reflexivity.
Defined.

Lemma prefix_range_panics_on_zero_length_witness :
  let parse := λ _ : string, Ok (E := string) (ref_network true 0 0) in
  expand_ipv6_prefix_range (I := ref_ipnetworks) parse "::/0" "::/0" = ExpandPanic.
Proof.
  intros parse.
  apply (prefix_range_panics_on_zero_length (I := ref_ipnetworks) parse "::/0" "::/0"
           (ref_network true 0 0) (ref_network true 0 0)); [reflexivity|reflexivity|].
  vm_compute. done.
Defined.

(** ** Reconciliation *)

Section Reconcile.
Context `{I : IpNetworks} (parse_network parse_v6_network : string → result string IpNetwork)
        (parse_v4 parse_v6 : string → result string Z)
        (print_v4 print_v6 : Z → string) (print_network : IpNetwork → string).
Notation define := (define parse_network parse_v6_network parse_v4 parse_v6 print_v4 print_v6 print_network).
Notation reconcile_pool_defs :=
  (reconcile_pool_defs parse_network parse_v6_network parse_v4 parse_v6 print_v4 print_v6 print_network).
Notation reconcile_one :=
  (reconcile_one parse_network parse_v6_network parse_v4 parse_v6 print_v4 print_v6 print_network).
Notation reconcile_loop :=
  (reconcile_loop parse_network parse_v6_network parse_v4 parse_v6 print_v4 print_v6 print_network).

Lemma populate_subseteq pool vals auto (t : pool_table) : t ⊆ populate pool vals auto t.
Proof. apply map_subseteq_spec. intros k r Hr. by rewrite populate_lookup, Hr. Qed.

Lemma populate_expanded_subseteq {A} (print : A → string) name vt auto e (t t' : pool_table) :
  populate_expanded print name vt auto e t = DefOk t' → t ⊆ t'.
Proof. destruct e; simpl; intros [= <-]; try done. apply populate_subseteq. Qed.

Lemma define_subseteq name def (t t' : pool_table) : define name def t = DefOk t' → t ⊆ t'.
Proof.
  unfold ResourcePool.define. destruct (String.eqb name "pkey"); [done|].
  destruct (def_prefix def) as [prefix|], (def_ranges def) as [|r rs] eqn:Hr; try done.
  - unfold define_by_prefix. destruct (pool_type def); [done|..|destruct (delegate_prefix_len def); [|done]];
      by apply populate_expanded_subseteq.
  - generalize (r :: rs). intros l. revert t. induction l as [|x l IH]; intros t; simpl; [by intros [= <-]|].
    destruct (define_by_range _ _ _ _ _ _ _ _ x t) as [t1| |] eqn:E; [|done..]. intros H.
    etransitivity; [|by apply IH].
    unfold define_by_range in E. destruct (pool_type def); by eapply populate_expanded_subseteq.
Qed.

(** One declared pool: rows and definitions are only added, and its definition is
    stored afterwards. *)
Lemma reconcile_one_adds stored name def p p' :
  stored ⊆ stored_defs p → reconcile_one stored name def p = DefOk p' →
  pool_rows p ⊆ pool_rows p' ∧ stored_defs p ⊆ stored_defs p' ∧ is_Some (stored_defs p' !! name).
Proof.
  intros Hst. unfold ResourcePool.reconcile_one, insert_pool_def.
  destruct (stored !! name) as [d|] eqn:Hs.
  - intros [= <-]. split_and!; try done. exists d. by eapply lookup_weaken.
  - destruct (pool_has_rows _ _).
    + destruct (stored_defs p !! name) eqn:E; [done|]. intros [= <-]. simpl. split_and!; try done.
      * by apply insert_subseteq.
      * rewrite lookup_insert_eq. eauto.
    + destruct (define name def (pool_rows p)) as [t| |] eqn:Ed; [|done..]. simpl.
      destruct (stored_defs p !! name) eqn:E; [done|]. intros [= <-]. simpl. split_and!.
      * by eapply define_subseteq.
      * by apply insert_subseteq.
      * rewrite lookup_insert_eq. eauto.
Qed.

Lemma reconcile_loop_adds stored declared p p' :
  stored ⊆ stored_defs p → reconcile_loop stored declared p = DefOk p' →
  pool_rows p ⊆ pool_rows p' ∧ stored_defs p ⊆ stored_defs p' ∧
  Forall (λ nd, is_Some (stored_defs p' !! fst nd)) declared.
Proof.
  revert p. induction declared as [|[name def] rest IH]; intros p Hst; simpl; [by intros [= <-]|].
  destruct (reconcile_one stored name def p) as [p1| |] eqn:E; [|done..]. intros Hl.
  destruct (reconcile_one_adds _ _ _ _ _ Hst E) as (Hr & Hd & [d Hn]).
  destruct (IH p1) as (Hr' & Hd' & Hf); [by etransitivity|done|].
  split_and!; [by etransitivity..|]. constructor; [|done]. exists d. by eapply lookup_weaken.
Qed.

Lemma reconcile_loop_stored stored declared p :
  Forall (λ nd, is_Some (stored !! fst nd)) declared → reconcile_loop stored declared p = DefOk p.
Proof.
  intros Hall. induction Hall as [|[name def] rest [d Hd] _ IH]; simpl; [done|].
  unfold ResourcePool.reconcile_one. simpl in Hd. by rewrite Hd.
Qed.

(** Reconciling the declared pools only adds: no existing row (and so no allocation)
    and no stored definition changes, every declared pool has a stored definition
    afterwards, and reconciling again does nothing. *)
Theorem reconcile_additive_idempotent declared p p'
    (Hrec : reconcile_pool_defs declared p = DefOk p') :
  pool_rows p ⊆ pool_rows p' ∧ stored_defs p ⊆ stored_defs p' ∧
  Forall (λ nd, is_Some (stored_defs p' !! fst nd)) declared ∧
  reconcile_pool_defs declared p' = DefOk p'.
Proof.
  apply reconcile_loop_adds in Hrec as (Hr & Hd & Hf); [|done]. split_and!; try done.
  by apply reconcile_loop_stored.
Qed.
End Reconcile.

Lemma reconcile_additive_idempotent_witness :
  let no := λ _ : string, Err (A := Z) "none" in
  let nonet := λ _ : string, Err (A := RefNetwork) "none" in
  let pr := λ _ : Z, EmptyString in
  let prn := λ _ : RefNetwork, EmptyString in
  let declared := [("vlan", mk_def [mk_range "1" "4" true] None Integer None)] in
  ∃ p', reconcile_pool_defs (I := ref_ipnetworks) nonet nonet no no pr pr prn declared (mk_pools ∅ ∅) = DefOk p' ∧
        reconcile_pool_defs (I := ref_ipnetworks) nonet nonet no no pr pr prn declared p' = DefOk p'.
Proof.
  intros no nonet pr prn declared.
  destruct (reconcile_pool_defs (I := ref_ipnetworks) nonet nonet no no pr pr prn declared (mk_pools ∅ ∅)) as [p'| |] eqn:E;
    [|vm_compute in E; discriminate E..].
  exists p'. split; [reflexivity|].
  apply (reconcile_additive_idempotent (I := ref_ipnetworks) nonet nonet no no pr pr prn declared (mk_pools ∅ ∅) p' E).
Defined.
