(* ===== verification/NetworkSegment.v ===== *)
(** * The network segment controller
      ([crates/network-segment-controller/src/handler.rs], [io.rs],
      [crates/api-model/src/network_segment/mod.rs], [crates/api-db/src/network_segment.rs])

    The first object type on the state controller: the controller states of a
    network segment, its handler, the tables the handler touches, and the instance
    of [StateControllerIO].  A segment that its user deleted is drained: it stays
    until no address has been seen on it for the drain period, then its VNI, VLAN
    id, prefixes and row go in one transaction.

    Times are nanoseconds.  Of a segment row the columns are kept that the
    controller reads; the address gauges of [record_metrics] are not modelled, and
    a database error is represented by a short text. *)

From S2P Require Import Prelude ConfigVersion StateHistory StateHandler ControllerIO ControllerTable.
From S2P Require Import ResourcePool ProcessObject ProcessObjectFacts TableRuns.

Inductive NetworkSegmentDeletionState :=
| DrainAllocatedIps (delete_at : Z)
| DBDelete.

Inductive NetworkSegmentControllerState :=
| Provisioning
| Ready
| Deleting (deletion_state : NetworkSegmentDeletionState).

Record NetworkSegment := mk_segment {
  segment_name : string;
  vlan_id : option Z;
  vni : option Z;
  deleted_at : option Z;
}.

Definition is_marked_as_deleted (s : NetworkSegment) : bool :=
  match deleted_at s with Some _ => true | None => false end.

(** ** SLAs and metrics *)

Definition PROVISIONING : Z := 15 * 60 * 1000000000.
Definition DELETING_DBDELETE : Z := 15 * 60 * 1000000000.

Definition segment_state_sla (now : Z) (state : NetworkSegmentControllerState)
    (state_version : ConfigVersion) : StateSla :=
  let time_in_state := std_duration_or_day (now - timestamp state_version) in
  match state with
  | Provisioning => with_sla PROVISIONING time_in_state
  | Ready => no_sla
  | Deleting (DrainAllocatedIps _) => no_sla
  | Deleting DBDelete => with_sla DELETING_DBDELETE time_in_state
  end.

Definition deletion_state_name (d : NetworkSegmentDeletionState) : string :=
  match d with DrainAllocatedIps _ => "drainallocatedips" | DBDelete => "dbdelete" end.

Definition segment_state_names (s : NetworkSegmentControllerState) : string * string :=
  match s with
  | Provisioning => ("provisioning", EmptyString)
  | Ready => ("ready", EmptyString)
  | Deleting d => ("deleting", deletion_state_name d)
  end.

(** ** Tables *)

Notation segment_row := (table_row NetworkSegmentControllerState NetworkSegment).

(** The tables of the controller: of [network_prefixes], [network_def],
    [machine_interfaces] and [instance_addresses] the column [segment_id]. *)
Record segment_db := mk_segment_db {
  network_segments : table string NetworkSegmentControllerState NetworkSegment;
  network_prefixes : list string;
  network_defs : list string;
  machine_interfaces : list string;
  instance_addresses : list string;
  resource_pools : pool_table;
}.

Definition set_segments (t : table string NetworkSegmentControllerState NetworkSegment)
    (db : segment_db) : segment_db :=
  mk_segment_db t (network_prefixes db) (network_defs db) (machine_interfaces db)
    (instance_addresses db) (resource_pools db).

Definition set_pools (p : pool_table) (db : segment_db) : segment_db :=
  mk_segment_db (network_segments db) (network_prefixes db) (network_defs db)
    (machine_interfaces db) (instance_addresses db) p.

Definition segment_has_allocations (o : string) (db : segment_db) : bool :=
  bool_decide (o ∈ machine_interfaces db) || bool_decide (o ∈ instance_addresses db).

(** [mark_as_deleted] *)
Definition mark_as_deleted (now : Z) (o : string) (db : segment_db) : result string segment_db :=
  if decide (o ∈ machine_interfaces db) then
    Err "Network Segment can't be deleted with associated MachineInterface"
  else if decide (o ∈ instance_addresses db) then
    Err "Network Segment can't be deleted while addresses on the segment are allocated to instances"
  else
    let t := network_segments db in
    match rows t !! o with
    | None => Err "no rows returned"
    | Some r =>
        let s := row_object r in
        let s := mk_segment (segment_name s) (vlan_id s) (vni s) (Some now) in
        Ok (set_segments (mk_table (<[o := mk_row (row_state r) (row_outcome r) s]> (rows t)) (log t)) db)
    end.

(** [network_prefix::delete_for_segment] *)
Definition delete_for_segment (o : string) (db : segment_db) : segment_db :=
  mk_segment_db (network_segments db) (filter (λ p, p ≠ o) (network_prefixes db)) (network_defs db)
    (machine_interfaces db) (instance_addresses db) (resource_pools db).

(** [final_delete].  A machine interface holds a foreign key on the segment, and
    the rows of [network_def] are deleted with it; [instance_addresses] has no
    such key. *)
Definition final_delete (o : string) (db : segment_db) : result string segment_db :=
  let db := delete_for_segment o db in
  let t := network_segments db in
  match rows t !! o with
  | None => Err "no rows returned"
  | Some _ =>
      if decide (o ∈ machine_interfaces db) then
        Err "violates foreign key constraint machine_interfaces_segment_id_fkey"
      else
        Ok (mk_segment_db (mk_table (delete o (rows t)) (log t)) (network_prefixes db)
              (filter (λ d, d ≠ o) (network_defs db)) (machine_interfaces db)
              (instance_addresses db) (resource_pools db))
  end.

(** ** The interface *)

#[export] Program Instance segment_table
    : TableLens segment_db NetworkSegmentControllerState NetworkSegment := {|
  table_of := network_segments;
  with_table := set_segments;
|}.
Solve Obligations with by intros [].

#[export] Instance segment_view : ObjectView segment_db string NetworkSegmentControllerState := lens_view.

(** [NetworkSegmentStateControllerIO] *)
Definition segment_io (debug : NetworkSegmentControllerState → string) (db_now : Z)
    : StateControllerIO segment_db string segment_row NetworkSegmentControllerState :=
  lens_io debug segment_state_names (λ _, None)
    (λ now cs _, segment_state_sla now (value cs) (version cs)) db_now.

(** ** The handler *)

Record NetworkSegmentStateHandler := mk_segment_handler {
  drain_period : Z;
  pool_vlan_id : ResourcePool;
  pool_vni : ResourcePool;
}.

Section Handler.
Context (hd : NetworkSegmentStateHandler) (env : Env) (here : Location).
Notation Outcome := (StateHandlerOutcome segment_db NetworkSegmentControllerState).

Definition drain_deadline : Z :=
  default (utc_now_again env) (checked_add_signed env (utc_now env) (drain_period hd)).

(** The branch of [DrainAllocatedIps] *)
Definition drain_allocated_ips (o : string) (delete_at : Z) (db : segment_db)
    : result StateHandlerError Outcome :=
  txn ← begin_txn env 0 db;
  has_allocations ← query env 1 (Ok (segment_has_allocations o txn));
  if has_allocations : bool then
    Ok (attach txn (transition here (Deleting (DrainAllocatedIps drain_deadline))))
  else if delete_at <=? utc_now env then Ok (attach txn (transition here (Deleting DBDelete)))
  else Ok (attach txn (wait here
         ("Cannot delete from database until draining completes at " +:+ to_rfc3339 env delete_at))).

(** [if let Some(value) = .. { release(pool, txn, value)? }] *)
Definition release_taken (n : nat) (pool : ResourcePool) (v : option Z) (txn : segment_db)
    : result StateHandlerError segment_db :=
  match v with
  | Some v => query env n (Ok (set_pools (release pool (print_i v) (resource_pools txn)) txn))
  | None => Ok txn
  end.

(** The branch of [DBDelete] *)
Definition db_delete (o : string) (s : NetworkSegment) (db : segment_db)
    : result StateHandlerError Outcome :=
  txn ← begin_txn env 0 db;
  txn ← release_taken 1 (pool_vni hd) (vni s) txn;
  txn ← release_taken 2 (pool_vlan_id hd) (vlan_id s) txn;
  txn ← query env 3 (final_delete o txn);
  Ok (attach txn (deleted here)).

(** The snapshot after [vni.take()] and [vlan_id.take()], which happen up to the
    first await that fails. *)
Definition taken (s : NetworkSegment) : NetworkSegment :=
  match faults env 0 with
  | Some _ => s
  | None =>
      let stopped := match vni s, faults env 1 with Some _, Some _ => true | _, _ => false end in
      mk_segment (segment_name s) (if stopped then vlan_id s else None) None (deleted_at s)
  end.

Definition handle_object_state
    : Handler segment_db string segment_row NetworkSegmentControllerState :=
  λ o state controller_state db,
    match controller_state with
    | Provisioning => mk_run state db (Ok (transition here Ready)) batch_new
    | Ready =>
        mk_run state db
          (Ok (if is_marked_as_deleted (row_object state)
               then transition here (Deleting (DrainAllocatedIps drain_deadline))
               else do_nothing here)) batch_new
    | Deleting (DrainAllocatedIps delete_at) =>
        mk_run state db (drain_allocated_ips o delete_at db) batch_new
    | Deleting DBDelete =>
        mk_run (mk_row (row_state state) (row_outcome state) (taken (row_object state))) db
          (db_delete o (row_object state) db) batch_new
    end.
End Handler.
