(* ===== verification/NetworkSegmentFacts.v ===== *)
(** * What the network segment controller guarantees

    The interface laws for the tables of the segments, the transitions a run of the
    processor with the segment handler can make under any failure and interference,
    the drain period over a whole life, and the final deletion. *)

From S2P Require Import Prelude ConfigVersion StateHistory StateHandler ControllerIO ControllerTable.
From S2P Require Import ResourcePool ProcessObject ProcessObjectFacts TableRuns NetworkSegment.

#[export] Instance segment_laws debug db_now :
  StateControllerIOLaws segment_db string segment_row NetworkSegmentControllerState
    (IO := segment_io debug db_now) (V := segment_view).
Proof. apply lens_laws. Qed.

Section Runs.
Context (debug : NetworkSegmentControllerState → string) (db_now : Z).
Notation IO := (segment_io debug db_now).
Context (hd : NetworkSegmentStateHandler) (env : Env) (loc : Location) (clk : Clock) (o : string).
Notation handler := (handle_object_state hd env loc).
Notation stored db := (controller_state_of (ObjectView := segment_view) db o).
Notation run db orc := (process_object (IO := IO) handler clk o db orc).

(** ** One run *)

(** The columns of the segment, if it is there. *)
Definition segment_of (db : segment_db) : option NetworkSegment :=
  row_object <$> rows (network_segments db) !! o.

(** The pool after a value is released. *)
Definition released (pool : ResourcePool) (v : option Z) (p : pool_table) : pool_table :=
  match v with Some v => release pool (print_i v) p | None => p end.

(** The segment [s] is removed from [db]. *)
Definition removed (s : NetworkSegment) (db db' : segment_db) : Prop :=
  o ∉ machine_interfaces db ∧
  db' = mk_segment_db
    (mk_table (delete o (rows (network_segments db))) (log (network_segments db)))
    (filter (λ p, p ≠ o) (network_prefixes db)) (filter (λ d, d ≠ o) (network_defs db))
    (machine_interfaces db) (instance_addresses db)
    (released (pool_vlan_id hd) (vlan_id s) (released (pool_vni hd) (vni s) (resource_pools db))).

(** A transition of the life cycle from [cs]: the segment was loaded from [db0], the
    handler's transaction began in [db1], and [db'] is committed. *)
Definition lifecycle (cs : Versioned NetworkSegmentControllerState) (db0 db1 db' : segment_db) : Prop :=
  let becomes n :=
    stored db' = Some (mk_versioned n (increment (at_increment clk) (version cs))) in
  match value cs with
  | Provisioning => becomes Ready
  | Ready =>
      (is_marked_as_deleted <$> segment_of db0) = Some true ∧
      becomes (Deleting (DrainAllocatedIps (drain_deadline hd env)))
  | Deleting (DrainAllocatedIps delete_at) =>
      if segment_has_allocations o db1
      then becomes (Deleting (DrainAllocatedIps (drain_deadline hd env)))
      else delete_at ≤ utc_now env ∧ becomes (Deleting DBDelete)
  | Deleting DBDelete => ∃ s, segment_of db0 = Some s ∧ removed s db1 db'
  end.

Lemma drain_outcome delete_at db oc :
  drain_allocated_ips hd env loc o delete_at db = Ok oc →
  fst (take_transaction oc) = Some db ∧
  if segment_has_allocations o db
  then oc = Transition (Deleting (DrainAllocatedIps (drain_deadline hd env))) loc (Some db)
  else (delete_at ≤ utc_now env ∧ oc = Transition (Deleting DBDelete) loc (Some db)) ∨
       ∃ r, oc = Wait r loc (Some db).
Proof.
  unfold drain_allocated_ips, begin_txn, query. intros (txn & H0 & H)%result_bind_ok.
  destruct (faults env 0); [done|]. injection H0 as <-.
  apply result_bind_ok in H as (has & H1 & H). destruct (faults env 1); [done|].
  injection H1 as <-. destruct (segment_has_allocations o db); [by injection H as <-|].
  destruct (Z.leb_spec delete_at (utc_now env)); injection H as <-; simpl; split; eauto.
Qed.

Lemma release_taken_ok n pool v txn txn' :
  release_taken env n pool v txn = Ok txn' →
  txn' = set_pools (released pool v (resource_pools txn)) txn.
Proof.
  unfold release_taken, query. destruct v; [destruct (faults env n); [done|]|];
    intros [= <-]; [done|by destruct txn].
Qed.

Lemma db_delete_outcome s db oc :
  db_delete hd env loc o s db = Ok oc →
  ∃ txn, oc = Deleted loc (Some txn) ∧ removed s db txn.
Proof.
  unfold db_delete, begin_txn. intros (t0 & H0 & H)%result_bind_ok.
  destruct (faults env 0); [done|]. injection H0 as <-.
  apply result_bind_ok in H as (t1 & H1%release_taken_ok & H).
  apply result_bind_ok in H as (t2 & H2%release_taken_ok & H).
  apply result_bind_ok in H as (t3 & H3 & H). subst t1 t2. unfold query, final_delete in H3.
  destruct (faults env 3); [done|]. simpl in H3.
  destruct (rows _ !! o); [|done]. case_decide; [done|]. injection H3 as <-. injection H as <-.
  eexists. split; [reflexivity|]. by split.
Qed.

Lemma handler_plain s cs db :
  run_pending (handler o s cs db) = [] ∧ run_committed (handler o s cs db) = db.
Proof. by destruct cs as [| |[]]. Qed.

Lemma handler_txn r cs db1 oc txn :
  run_output (handler o r cs db1) = Ok oc → fst (take_transaction oc) = Some txn →
  (∃ l t, oc = Deleted l t) ∨ txn = db1.
Proof.
  destruct cs as [| |[delete_at|]]; simpl.
  - by intros [= <-].
  - by destruct (is_marked_as_deleted _); intros [= <-].
  - intros [Ht _]%drain_outcome. rewrite Ht. intros [= <-]. by right.
  - intros (? & -> & _)%db_delete_outcome. eauto.
Qed.

Lemma segment_run_cases (K : segment_db → Prop) cs db orc h
    (HK : ignores_outcome (IO := IO) o K)
    (Hothers : others_keep (stays o K cs) orc) (Hdb : stays o K cs db)
    (Hrun : run db orc = Some h) :
  stays o K cs (h_db h) ∨
  ∃ db0 db1, stays o K cs db0 ∧ stays o K cs db1 ∧ lifecycle cs db0 db1 (h_db h).
Proof.
  destruct (table_run_steps _ _ _ _ _ handler clk o handler_plain K cs db orc h HK Hothers Hdb)
    as [?|(db0 & r & db1 & oc & H0 & Hr & H1 & Hout & Hoc)]; [intros ????; apply handler_txn|done|by left|right].
  exists db0, db1. do 2 (split; [done|]). unfold lifecycle, segment_of. simpl in Hr. rewrite Hr. simpl.
  destruct cs as [[| |[delete_at|]] v]; simpl in Hout |- *.
  - by destruct Hoc as [(n & l & t & -> & Hn)|[? ->]]; simplify_eq.
  - unfold transition, do_nothing in Hout. destruct (is_marked_as_deleted (row_object r)); simplify_eq;
      destruct Hoc as [(n & l & t & ? & Hn)|[? ?]]; by simplify_eq/=.
  - apply drain_outcome in Hout as [_ Hout].
    destruct (segment_has_allocations o db1); [|destruct Hout as [[Hle ->]|[r' ->]]]; simplify_eq;
      destruct Hoc as [(n & l & t & ? & Hn)|[? ?]]; by simplify_eq/=.
  - apply db_delete_outcome in Hout as (txn2 & -> & Hrem).
    destruct Hoc as [(n & l & t & ? & Hn)|[? [= _ <-]]]; [done|]. by exists (row_object r).
Qed.

(** C26: A run of the processor on a segment makes the next step of its life cycle or
    leaves it as it is, for every failure, timeout, unconfirmed commit and
    interference that leaves the controller state to the controller: it becomes
    ready, it starts to drain once its user deleted it, draining starts over while
    addresses are allocated, it is up for deletion only when none is allocated at
    or after the deadline, and its VNI, its VLAN id, its prefixes and its row go
    in one transaction, which needs that no machine interface is left. *)
Theorem segment_run_lifecycle (K : segment_db → Prop) cs db orc h
    (HK : ignores_outcome (IO := IO) o K)
    (Hothers : others_keep (stays o K cs) orc) (Hdb : stays o K cs db)
    (Hrun : run db orc = Some h) :
  stays o K cs (h_db h) ∨
  ∃ db0 db1, stays o K cs db0 ∧ stays o K cs db1 ∧ lifecycle cs db0 db1 (h_db h).
Proof. by eapply segment_run_cases. Qed.
End Runs.

(** ** The drain period *)

Section Life.
Context (debug : NetworkSegmentControllerState → string) (db_now : Z)
  (hd : NetworkSegmentStateHandler) (loc : Location) (o : string) (add : Z → Z → option Z).
Notation IO := (segment_io debug db_now).
Notation stored db := (controller_state_of (ObjectView := segment_view) db o).

(** The life of a segment: others change anything but its controller state, and
    the processor runs the handler, at any times and with any failures; a clock is
    read during the run. *)
Inductive life_step : Z * segment_db → Z * segment_db → Prop :=
| life_others t t' db db' :
    t ≤ t' → stored db' = stored db → life_step (t, db) (t', db')
| life_run t t' db orc env clk h cs :
    t ≤ utc_now env ≤ t' → checked_add_signed env = add →
    stored db = Some cs → others_keep (stays o (λ _, True) cs) orc →
    process_object (IO := IO) (handle_object_state hd env loc) clk o db orc = Some h →
    life_step (t, db) (t', h_db h).

(** The segment is ready, or draining at least until [t]. *)
Definition kept_until (t : Z) (db : segment_db) : Prop :=
  ∃ cs, stored db = Some cs ∧
    (value cs = Ready ∨ ∃ d, value cs = Deleting (DrainAllocatedIps d) ∧ t ≤ d).

Lemma life_step_kept t0 p p' :
  (∀ t, add t (drain_period hd) = Some (t + drain_period hd)) →
  life_step p p' →
  t0 ≤ fst p ∧ (kept_until (t0 + drain_period hd) (snd p) ∨ t0 + drain_period hd ≤ fst p) →
  t0 ≤ fst p' ∧ (kept_until (t0 + drain_period hd) (snd p') ∨ t0 + drain_period hd ≤ fst p').
Proof.
  intros Hadd [t t' db db' Ht Hst|t t' db orc env clk h cs [Ht Ht'] Henv Hcs Hothers Hrun] [H0 Hk];
    cbn [fst snd] in *; (split; [lia|]).
  - destruct Hk as [(cs & Hcs & Hv)|]; [left|right; lia]. exists cs. split; [|done].
    etransitivity; [exact Hst|exact Hcs].
  - destruct Hk as [(cs' & Hcs' & Hv)|]; [|right; lia].
    assert (cs' = cs) as -> by congruence.
    assert (Hdl : drain_deadline hd env = utc_now env + drain_period hd)
      by (unfold drain_deadline; by rewrite Henv, Hadd).
    destruct (segment_run_cases debug db_now hd env loc clk o (λ _, True) cs db orc h)
      as [[Hs _]|(db0 & db1 & _ & _ & Hl)]; [by intros ?|done|by split|done|left; by exists cs|].
    unfold lifecycle in Hl. destruct Hv as [Hv|(d & Hv & Hd)]; rewrite Hv in Hl.
    + destruct Hl as [_ Hb]. left. eexists. split; [exact Hb|]. right. eexists. split; [done|]. lia.
    + destruct (segment_has_allocations o db1).
      * left. eexists. split; [exact Hl|]. right. eexists. split; [done|]. lia.
      * right. lia.
Qed.

(** The drain period is respected: a segment that is ready, or whose draining was
    started over because addresses were seen, at time [t0] is still there, ready
    or draining, at every time before [t0] plus the drain period, however often
    the handler runs and whatever fails, as long as dates do not overflow. *)
Theorem drain_period_respected t0 db0 t db
    (Hadd : ∀ t, add t (drain_period hd) = Some (t + drain_period hd))
    (Hstart : kept_until (t0 + drain_period hd) db0)
    (Hlife : rtc life_step (t0, db0) (t, db))
    (Hearly : t < t0 + drain_period hd) :
  kept_until (t0 + drain_period hd) db.
Proof.
  assert (Hinv : ∀ p p', rtc life_step p p' →
    t0 ≤ fst p ∧ (kept_until (t0 + drain_period hd) (snd p) ∨ t0 + drain_period hd ≤ fst p) →
    t0 ≤ fst p' ∧ (kept_until (t0 + drain_period hd) (snd p') ∨ t0 + drain_period hd ≤ fst p')).
  { induction 1; [done|]. intros. by eapply IHrtc, life_step_kept. }
  destruct (Hinv _ _ Hlife) as [_ [?|?]]; simpl in *; [split; [lia|by left]|done|lia].
Qed.
End Life.

(** ** Runs without failures *)

Section FaultFree.
Context (debug : NetworkSegmentControllerState → string) (db_now : Z)
  (hd : NetworkSegmentStateHandler) (loc : Location) (o : string).
Notation IO := (segment_io debug db_now).
Notation run env clk db := (process_object (IO := IO) (handle_object_state hd env loc) clk o db []).

Lemma run_transition env clk db r n t :
  rows (network_segments db) !! o = Some r →
  run_output (handle_object_state hd env loc o r (value (row_state r)) db) = Ok (Transition n loc t) →
  t = None ∨ t = Some db →
  ∃ h, run env clk db = Some h ∧
    moved_to o n (increment (at_increment clk) (version (row_state r))) db (h_db h).
Proof.
  intros Hr Hout Ht. assert (default db t = db) as E by (by destruct Ht; subst).
  destruct (quiet_transition (L := segment_table) debug segment_state_names (λ _, None)
              (λ now cs _, segment_state_sla now (value cs) (version cs)) db_now _ clk o
              (handler_plain hd env loc o) db r n loc t) as (h & Hh & Hm);
    [done..|rewrite E; simpl; by rewrite Hr|]. exists h. by rewrite E in Hm.
Qed.

Lemma moved_to_row n nv r db db' :
  rows (network_segments db) !! o = Some r → moved_to o n nv db db' →
  (∃ oc, rows (network_segments db') !! o = Some (mk_row (mk_versioned n nv) oc (row_object r))) ∧
  delete o (rows (network_segments db')) = delete o (rows (network_segments db)) ∧
  network_prefixes db' = network_prefixes db ∧ machine_interfaces db' = machine_interfaces db ∧
  instance_addresses db' = instance_addresses db ∧ resource_pools db' = resource_pools db.
Proof.
  intros Hr (r' & oc & l & Hr' & ->). simpl in *. simplify_eq. split_and!; try done.
  - exists (Some oc). by rewrite lookup_insert_eq.
  - by rewrite delete_insert_eq.
Qed.

(** The last run: the deletion, or the error that a machine interface causes. *)
Lemma run_delete env clk db r :
  rows (network_segments db) !! o = Some r → value (row_state r) = Deleting DBDelete →
  (∀ n, faults env n = None) → o ∉ machine_interfaces db →
  ∃ h, run env clk db = Some h ∧ removed hd o (row_object r) db (h_db h) ∧
    h_recorder h = Clear o ∧ h_events h = [].
Proof.
  intros Hr Hv Hf Hmi.
  unfold process_object, handle, load, outcome_txn, commit_outcome, statement, call_handler, mbind,
    step_bind. simpl. rewrite Hr. simpl. rewrite Hv. simpl.
  unfold db_delete, begin_txn, release_taken, query, final_delete. rewrite !Hf. simpl.
  destruct (vni (row_object r)) eqn:Evni, (vlan_id (row_object r)) eqn:Evlan; simpl;
    rewrite Hr, decide_False by done; simpl;
    (eexists; split; [reflexivity|]; simpl; split_and!; try done; split; [done|]);
    unfold released; by rewrite ?Evni, ?Evlan.
Qed.

(** A machine interface that is left on the segment makes the deletion fail as a
    whole: the identifiers stay allocated, and the error is stored. *)
Theorem run_delete_refused env clk db r :
  rows (network_segments db) !! o = Some r → value (row_state r) = Deleting DBDelete →
  (∀ n, faults env n = None) → o ∈ machine_interfaces db →
  ∃ h oc, run env clk db = Some h ∧
    h_db h = set_segments (update_controller_state_outcome (network_segments db) o oc) db ∧
    is_Some (error (h_metrics h)).
Proof.
  intros Hr Hv Hf Hmi.
  unfold process_object, handle, load, outcome_txn, commit_outcome, statement, call_handler, mbind,
    step_bind. simpl. rewrite Hr. simpl. rewrite Hv. simpl.
  unfold db_delete, begin_txn, release_taken, query, final_delete. rewrite !Hf. simpl.
  destruct (vni (row_object r)), (vlan_id (row_object r)); simpl;
    rewrite Hr, decide_True by done; simpl; (eexists _, _; split; [reflexivity|]); simpl; eauto.
Qed.

(** A segment that its user deleted and that has no addresses goes away: when
    nothing fails, three runs, the second one after the drain deadline, remove its
    row and its prefixes, keep all other segments, return its VNI and its VLAN id
    to their pools, and clear its gauges. *)
Theorem segment_deletion_completes env1 env2 env3 clk1 clk2 clk3 db r
    (Hr : rows (network_segments db) !! o = Some r)
    (Hready : value (row_state r) = Ready)
    (Hmarked : is_marked_as_deleted (row_object r) = true)
    (Hfree : segment_has_allocations o db = false)
    (Hfaults2 : ∀ n, faults env2 n = None) (Hfaults3 : ∀ n, faults env3 n = None)
    (Htime : drain_deadline hd env1 ≤ utc_now env2) :
  ∃ h1 h2 h3,
    run env1 clk1 db = Some h1 ∧ run env2 clk2 (h_db h1) = Some h2 ∧
    run env3 clk3 (h_db h2) = Some h3 ∧
    rows (network_segments (h_db h3)) = delete o (rows (network_segments db)) ∧
    network_prefixes (h_db h3) = filter (λ p, p ≠ o) (network_prefixes db) ∧
    resource_pools (h_db h3) =
      released (pool_vlan_id hd) (vlan_id (row_object r))
        (released (pool_vni hd) (vni (row_object r)) (resource_pools db)) ∧
    h_recorder h3 = Clear o.
Proof.
  destruct (run_transition env1 clk1 db r
              (Deleting (DrainAllocatedIps (drain_deadline hd env1))) None) as (h1 & Hh1 & Hm1);
    [done|rewrite Hready; simpl; by rewrite Hmarked|by left|].
  apply (moved_to_row _ _ r) in Hm1 as ([oc1 Hr1] & Hrows1 & Hp1 & Hmi1 & Hia1 & Hpool1); [|done].
  destruct (run_transition env2 clk2 (h_db h1) _ (Deleting DBDelete) (Some (h_db h1)) Hr1)
    as (h2 & Hh2 & Hm2); [|by right|].
  { simpl. unfold drain_allocated_ips, begin_txn, query. rewrite !Hfaults2. simpl.
    unfold segment_has_allocations in *. rewrite Hmi1, Hia1, Hfree. by rewrite (proj2 (Z.leb_le _ _) Htime). }
  apply (moved_to_row _ _ _ _ _ Hr1) in Hm2 as ([oc2 Hr2] & Hrows2 & Hp2 & Hmi2 & Hia2 & Hpool2).
  simpl in Hr2.
  destruct (run_delete env3 clk3 (h_db h2) _ Hr2) as (h3 & Hh3 & [_ Hdb3] & Hclear & _); [done|done|..].
  { unfold segment_has_allocations in Hfree. to_prop. by rewrite Hmi2, Hmi1. }
  exists h1, h2, h3. rewrite Hdb3. simpl.
  rewrite Hrows2, Hrows1, Hp2, Hp1, Hpool2, Hpool1. done.
Qed.
End FaultFree.

(** ** Concrete segments *)

Module SegmentExamples.
Definition debug (s : NetworkSegmentControllerState) : string := fst (segment_state_names s).

Definition hd : NetworkSegmentStateHandler :=
  mk_segment_handler 300 (mk_pool "vlan-id" Integer) (mk_pool "vni" Integer).

Definition env (now : Z) : Env :=
  mk_env now now (λ _, None) (λ t d, Some (t + d)) print_i.

Definition loc : Location := mk_location "handler.rs" 1.
Definition clk (now : Z) : Clock := mk_clock now now now now now 1.

Definition row (s : NetworkSegmentControllerState) : segment_row :=
  mk_row (mk_versioned s (mk_version 1 100)) None (mk_segment "admin" (Some 7) (Some 4097) (Some 90)).

Definition owned (owner : string) : pool_row := mk_pool_row Integer (Allocated owner "network_segment") true (Some 1).

(** Two segments, the first one deleted by its user, and their identifiers. *)
Definition db (s : NetworkSegmentControllerState) (interfaces : list string) : segment_db :=
  mk_segment_db (mk_table {["a" := row s; "b" := row Ready]} empty_log) ["a"; "b"; "a"] ["a"]
    interfaces [] {[("vlan-id", "7") := owned "a"; ("vni", "4097") := owned "a"]}.

Definition after (s : NetworkSegmentControllerState) (interfaces : list string) (now : Z)
    (orc : list (Verdict segment_db)) : option segment_db :=
  h_db <$> process_object (IO := segment_io debug 0) (handle_object_state hd (env now) loc)
             (clk now) "a" (db s interfaces) orc.

(** Someone takes an address on the segment. *)
Definition lease (d : segment_db) : segment_db :=
  mk_segment_db (network_segments d) (network_prefixes d) (network_defs d)
    ("a" :: machine_interfaces d) (instance_addresses d) (resource_pools d).

Lemma lease_keeps cs : others_keep (stays "a" (λ _, True) cs) [mk_verdict lease Go].
Proof. constructor; [|constructor]. by intros d [Hs _]. Qed.
End SegmentExamples.
Import SegmentExamples.

(** The deadline has passed, but an address is taken as the run begins:
    draining starts over. *)
Lemma segment_run_lifecycle_witness :
  let cs := mk_versioned (Deleting (DrainAllocatedIps 400)) (mk_version 1 100) in
  let db := db (Deleting (DrainAllocatedIps 400)) [] in
  ∃ h, process_object (IO := segment_io debug 0) (handle_object_state hd (env 500) loc)
         (clk 500) "a" db [mk_verdict lease Go] = Some h ∧
    (stays "a" (λ _, True) cs (h_db h) ∨
     ∃ db0 db1, stays "a" (λ _, True) cs db0 ∧ stays "a" (λ _, True) cs db1 ∧
       lifecycle hd (env 500) (clk 500) "a" cs db0 db1 (h_db h)) ∧
    (value <$> controller_state_of (h_db h) "a") = Some (Deleting (DrainAllocatedIps 800)).
Proof.
  intros cs db. eexists. split; [vm_compute; reflexivity|]. split; [|vm_compute; reflexivity].
  apply (segment_run_lifecycle debug 0 hd (env 500) loc (clk 500) "a" (λ _, True) cs db
           [mk_verdict lease Go]); [by intros ?|apply lease_keeps| |vm_compute; reflexivity].
  split; [vm_compute; reflexivity|done].
Defined.

(** The ready segment starts to drain at 100 and is still there at 350. *)
Lemma drain_period_respected_witness :
  ∃ d, after Ready [] 100 [] = Some d ∧ kept_until "a" 350 d.
Proof.
  destruct (process_object (IO := segment_io debug 0) (handle_object_state hd (env 100) loc)
              (clk 100) "a" (db Ready []) []) as [h|] eqn:Hrun; [|vm_compute in Hrun; discriminate Hrun].
  exists (h_db h). split; [unfold after; rewrite Hrun; reflexivity|].
  apply (drain_period_respected debug 0 hd loc "a" (λ t d, Some (t + d)) 50 (db Ready []) 349 (h_db h));
    [done| | |vm_compute; reflexivity].
  - eexists. split; [vm_compute; reflexivity|]. by left.
  - apply rtc_once. eapply (life_run debug 0 hd loc "a" _ 50 349 (db Ready []) [] (env 100) (clk 100));
      [vm_compute; split; discriminate|done|vm_compute; reflexivity|constructor|exact Hrun].
Defined.

Lemma segment_deletion_completes_witness :
  ∃ h3 : Handled segment_db string NetworkSegmentControllerState,
    rows (network_segments (h_db h3)) = {["b" := row Ready]} ∧
    resource_pools (h_db h3) !! ("vni", "4097") = Some (mk_pool_row Integer Free true None).
Proof.
  destruct (segment_deletion_completes debug 0 hd loc "a" (env 100) (env 400) (env 401)
              (clk 100) (clk 400) (clk 401) (db Ready []) (row Ready))
    as (h1 & h2 & h3 & _ & _ & _ & Hrows & _ & Hpools & _);
    [vm_compute; reflexivity|reflexivity|reflexivity|vm_compute; reflexivity|done|done|
     vm_compute; discriminate|].
  exists h3. rewrite Hrows, Hpools. split; vm_compute; reflexivity.
Defined.
