(* ===== verification/VpcPrefix.v ===== *)
(** * VPC prefixes, their network prefixes and their controller
      ([crates/api-db/src/vpc_prefix.rs], [crates/api-db/src/network_prefix.rs],
      [crates/api-model/src/vpc_prefix.rs], [crates/vpc-prefix-controller/src/handler.rs], [io.rs])

    A VPC prefix is the address space of a VPC; the linknets of instance interfaces
    are network prefixes carved out of it.  The file models the tables with the
    constraints of [crates/api-db/migrations], the statements that read and write
    them, and the state controller that deletes a VPC prefix: once its user marked it,
    it is drained until no network prefix refers to it, kept for the drain period,
    and then removed.

    Times are nanoseconds.  Of a row the columns are kept that the allocation and the
    controller read or write; the capacity figures that [get_by_id] adds to a loaded
    row are in the file of the linknet allocator.  A value cast to [cidr] has its host
    bits cleared. *)

From S2P Require Import Prelude Ordered IpNetwork VpcCapability ConfigVersion StateHistory StateHandler.
From S2P Require Import ControllerIO ControllerTable ProcessObject ProcessObjectFacts TableRuns NetworkSegment.

Inductive VpcPrefixDeletionState :=
| DrainNetworkPrefixes (delete_at : Z)
| DBDelete.

Inductive VpcPrefixControllerState :=
| Provisioning
| Ready
| Deleting (deletion_state : VpcPrefixDeletionState).

Inductive DatabaseError :=
| InvalidArgument (msg : string)
| NotFoundError (kind id : string)
| ConcurrentModificationError (kind : string) (expected : ConfigVersion)
| RowNotFound
| Sqlx (constraint : option string) (msg : string).

(** The text of an error, without the version, the query and its position. *)
Definition error_text (e : DatabaseError) : string :=
  match e with
  | InvalidArgument m => "argument is invalid: " +:+ m
  | NotFoundError kind id => kind +:+ " not found: " +:+ id
  | ConcurrentModificationError kind _ =>
      "an object of type " +:+ kind +:+ " was intended to be modified did not have the expected version"
  | RowNotFound => "Database Error: no rows returned by a query that expected to return at least one row"
  | Sqlx _ m => "Database Error: " +:+ m
  end.

Section Tables.
Context `{I : IpNetworks}.

Record VpcPrefix := mk_vpc_prefix {
  vp_vpc_id : string;
  vp_prefix : IpNetwork;
  last_used_prefix : option IpNetwork;
  vp_deleted : option Z;
}.

Definition is_marked_as_deleted (p : VpcPrefix) : bool :=
  match vp_deleted p with Some _ => true | None => false end.

(** [NetworkPrefix]; the reference to a VPC prefix is its id and its prefix, which
    are both set or both null. *)
Record NetworkPrefix := mk_network_prefix {
  np_segment_id : string;
  np_prefix : IpNetwork;
  np_gateway : option (bool * Z);
  np_num_reserved : Z;
  np_vpc_prefix : option (string * IpNetwork);
}.

Record NewNetworkPrefix := mk_new_network_prefix {
  new_prefix : IpNetwork;
  new_gateway : option (bool * Z);
  new_num_reserved : Z;
}.

(** The columns of a network segment that the allocation writes. *)
Record GeneratedSegment := mk_generated_segment {
  gs_name : string;
  gs_vpc_id : option string;
  gs_mtu : Z;
  gs_type : NetworkSegmentType;
  gs_can_stretch : option bool;
}.

Record Vpc := mk_vpc {
  tenant_organization_id : string;
  network_virtualization_type : VpcVirtualizationType;
  vpc_version : ConfigVersion;
  vpc_deleted : bool;
}.

Record net_db := mk_net_db {
  network_vpc_prefixes : table string VpcPrefixControllerState VpcPrefix;
  network_prefixes : gmap string NetworkPrefix;
  network_segments : table string NetworkSegmentControllerState GeneratedSegment;
  vpcs : gmap string Vpc;
}.

Notation vpc_prefix_row := (table_row VpcPrefixControllerState VpcPrefix).

Definition set_vpc_prefixes (t : table string VpcPrefixControllerState VpcPrefix) (db : net_db) : net_db :=
  mk_net_db t (network_prefixes db) (network_segments db) (vpcs db).

Definition set_network_prefixes (m : gmap string NetworkPrefix) (db : net_db) : net_db :=
  mk_net_db (network_vpc_prefixes db) m (network_segments db) (vpcs db).

Definition set_segments (t : table string NetworkSegmentControllerState GeneratedSegment)
    (db : net_db) : net_db :=
  mk_net_db (network_vpc_prefixes db) (network_prefixes db) t (vpcs db).

Definition set_vpcs (m : gmap string Vpc) (db : net_db) : net_db :=
  mk_net_db (network_vpc_prefixes db) (network_prefixes db) (network_segments db) m.

(** The VPC prefix with its id, without the columns of the controller. *)
Definition vpc_prefix_of (db : net_db) (id : string) : option VpcPrefix :=
  row_object <$> rows (network_vpc_prefixes db) !! id.

Definition set_vpc_prefix_row (id : string) (f : VpcPrefix → VpcPrefix) (db : net_db) : net_db :=
  let t := network_vpc_prefixes db in
  set_vpc_prefixes
    (mk_table (alter (λ r, mk_row (row_state r) (row_outcome r) (f (row_object r))) id (rows t)) (log t)) db.

(** ** Networks in SQL *)

(** [a && b] *)
Definition overlaps (a b : IpNetwork) : bool :=
  bool_decide (net_v6 a = net_v6 b) && (network a <=? broadcast b) && (network b <=? broadcast a).

(** [a <<= b] *)
Definition within (a b : IpNetwork) : bool :=
  bool_decide (net_v6 a = net_v6 b) && (network b <=? network a) && (broadcast a <=? broadcast b).

(** [a::cidr] *)
Definition to_cidr (a : IpNetwork) : IpNetwork :=
  match net_make (net_v6 a) (network a) (net_prefix a) with Ok n => n | Err _ => a end.

(** [g << p] for the address [g] *)
Definition address_within (g : bool * Z) (p : IpNetwork) : bool :=
  net_contains_ip p g && (net_prefix p <? family_bits (net_v6 p)).

(** ** VPCs *)

(** [increment_vpc_version] *)
Definition increment_vpc_version (now : Z) (id : string) (expected : ConfigVersion) (db : net_db)
    : result DatabaseError (ConfigVersion * net_db) :=
  let next_version := increment now expected in
  match vpcs db !! id with
  | Some v =>
      if bool_decide (vpc_version v = expected) && negb (vpc_deleted v) then
        Ok (next_version, set_vpcs (<[id := mk_vpc (tenant_organization_id v)
              (network_virtualization_type v) next_version (vpc_deleted v)]> (vpcs db)) db)
      else Err (ConcurrentModificationError "vpc" expected)
  | None => Err (ConcurrentModificationError "vpc" expected)
  end.

(** [vpc::find_by] over a list of ids *)
Definition find_vpcs (ids : list string) (db : net_db) : gmap string Vpc :=
  filter (λ kv, kv.1 ∈ ids ∧ vpc_deleted kv.2 = false) (vpcs db).

(** ** VPC prefixes *)

Record NewVpcPrefix := mk_new_vpc_prefix {
  nv_id : string;
  nv_vpc_id : string;
  nv_prefix : IpNetwork;
}.

(** [persist]: the exclusion constraint covers the prefixes that are being deleted. *)
Definition persist (print_net : IpNetwork → string) (clock now : Z) (value : NewVpcPrefix)
    (expected_vpc_version : ConfigVersion) (db : net_db) : result DatabaseError net_db :=
  let initial_version := initial clock in
  let t := network_vpc_prefixes db in
  let prefix := to_cidr (nv_prefix value) in
  match rows t !! nv_id value with
  | Some _ => Err (Sqlx (Some "network_vpc_prefixes_pkey") "duplicate key value")
  | None =>
      if existsb (λ kv, overlaps (vp_prefix (row_object kv.2)) prefix) (map_to_list (rows t)) then
        Err (InvalidArgument ("The requested VPC prefix (" +:+ print_net (nv_prefix value) +:+
               ") overlaps an existing or deleting VPC prefix"))
      else if decide (vpcs db !! nv_vpc_id value = None) then
        Err (Sqlx (Some "network_vpc_prefixes_vpc_id_fkey") "violates foreign key constraint")
      else
        let r := mk_row (mk_versioned Provisioning initial_version) None
                   (mk_vpc_prefix (nv_vpc_id value) prefix None None) in
        let t := persist_history_row (mk_table (<[nv_id value := r]> (rows t)) (log t)) now
                   (nv_id value) initial_version Provisioning in
        '(_, db) ← increment_vpc_version clock (nv_vpc_id value) expected_vpc_version
                     (set_vpc_prefixes t db);
        Ok db
  end.

(** [mark_as_deleted] *)
Definition mark_as_deleted (clock now : Z) (id : string) (expected_vpc_version : ConfigVersion)
    (db : net_db) : result DatabaseError net_db :=
  match vpc_prefix_of db id with
  | Some p =>
      if is_marked_as_deleted p then Err (NotFoundError "vpc_prefix" id)
      else
        let mark p := mk_vpc_prefix (vp_vpc_id p) (vp_prefix p) (last_used_prefix p) (Some now) in
        '(_, db) ← increment_vpc_version clock (vp_vpc_id p) expected_vpc_version
                     (set_vpc_prefix_row id mark db);
        Ok db
  | None => Err (NotFoundError "vpc_prefix" id)
  end.

(** The network prefix refers to the VPC prefix [id]. *)
Definition refers_to (id : string) (n : NetworkPrefix) : bool :=
  match np_vpc_prefix n with Some (i, _) => bool_decide (i = id) | None => false end.

(** [count_network_prefixes_by_vpc_prefix_id] *)
Definition count_network_prefixes_by_vpc_prefix_id (db : net_db) (id : string) : nat :=
  length (filter (λ kv, refers_to id kv.2 = true) (map_to_list (network_prefixes db))).

(** [final_delete]: a network prefix holds a foreign key on its VPC prefix. *)
Definition final_delete (id : string) (db : net_db) : result DatabaseError net_db :=
  let t := network_vpc_prefixes db in
  match rows t !! id with
  | None => Err RowNotFound
  | Some _ =>
      if decide (count_network_prefixes_by_vpc_prefix_id db id = 0%nat)
      then Ok (set_vpc_prefixes (mk_table (delete id (rows t)) (log t)) db)
      else Err (Sqlx (Some "network_prefixes_vpc_prefix_fkey") "violates foreign key constraint")
  end.

(** [get_for_allocation_by_ids]: deleted rows are included; the result becomes a map. *)
Definition get_for_allocation_by_ids (ids : list string) (db : net_db) : gmap string VpcPrefix :=
  row_object <$> filter (λ kv, kv.1 ∈ ids) (rows (network_vpc_prefixes db)).

(** The prefix is wide enough for the linknets of its family. *)
Definition holds_linknets (p : IpNetwork) : bool :=
  if net_v6 p then net_prefix p <? 127 else net_prefix p <=? 31.

(** [find_allocation_candidates]: ordered by VPC and id *)
Definition find_allocation_candidates (vpc_ids : list string) (db : net_db)
    : list (string * VpcPrefix) :=
  let eligible kv := bool_decide (vp_vpc_id kv.2 ∈ vpc_ids) &&
    negb (is_marked_as_deleted kv.2) && holds_linknets (vp_prefix kv.2) in
  let found := filter (λ kv, eligible kv = true)
                 (map_to_list (row_object <$> rows (network_vpc_prefixes db))) in
  let keys := foldl (λ s kv, bset_insert (pair_cmp string_cmp string_cmp) (vp_vpc_id kv.2, kv.1) s)
                [] found in
  omap (λ k, (λ p, (k.2, p)) <$> vpc_prefix_of db k.2) keys.

(** [lock_for_allocation]: the row is locked until the transaction ends. *)
Definition lock_for_allocation (id : string) (db : net_db) : option VpcPrefix :=
  p ← vpc_prefix_of db id;
  if is_marked_as_deleted p then None else Some p.

(** [update_last_used_prefix] *)
Definition update_last_used_prefix (id : string) (used : IpNetwork) (db : net_db)
    : result DatabaseError net_db :=
  match lock_for_allocation id db with
  | Some _ =>
      Ok (set_vpc_prefix_row id
            (λ p, mk_vpc_prefix (vp_vpc_id p) (vp_prefix p) (Some used) (vp_deleted p)) db)
  | None => Err RowNotFound
  end.

(** ** Network prefixes *)

(** [find_allocation_occupancy] *)
Definition find_allocation_occupancy (id : string) (vpc_prefix : IpNetwork) (db : net_db)
    : list IpNetwork :=
  np_prefix <$> filter (λ n, overlaps (np_prefix n) vpc_prefix && match np_vpc_prefix n with
                                 | Some (i, _) => bool_decide (i = id)
                                 | None => true
                                 end = true) (map_to_list (network_prefixes db)).*2.

(** The insertion of [create_for]: the checks of the table, its keys in the order of
    their creation, and the foreign key. *)
Definition insert_network_prefix (id segment_id : string) (p : NewNetworkPrefix) (db : net_db)
    : result DatabaseError net_db :=
  let prefix := to_cidr (new_prefix p) in
  let stored := (map_to_list (network_prefixes db)).*2 in
  let fail c := Err (Sqlx (Some c) "violates constraint") in
  if match new_gateway p with Some g => negb (address_within g prefix) | None => false end then
    fail "gateway_within_network"
  else if net_v6 prefix && bool_decide (is_Some (new_gateway p)) then fail "no_gateway_on_ipv6"
  else if decide (is_Some (network_prefixes db !! id)) then fail "network_prefixes_pkey"
  else if existsb (λ n, overlaps (np_prefix n) prefix) stored then fail "network_prefixes_prefix_excl"
  else if existsb (λ n, bool_decide (np_segment_id n = segment_id) &&
                        bool_decide (net_v6 (np_prefix n) = net_v6 prefix)) stored then
    fail "network_prefix_family"
  else if decide (rows (network_segments db) !! segment_id = None) then
    fail "network_prefixes_segment_id_fkey"
  else Ok (set_network_prefixes (<[id := mk_network_prefix segment_id prefix (new_gateway p)
             (new_num_reserved p) None]> (network_prefixes db)) db).

(** [delete_for_segment] *)
Definition delete_for_segment (segment_id : string) (db : net_db) : net_db :=
  set_network_prefixes (filter (λ kv, np_segment_id kv.2 ≠ segment_id) (network_prefixes db)) db.

(** [set_vpc_prefix] *)
Definition set_vpc_prefix (id vpc_prefix_id : string) (prefix : IpNetwork) (db : net_db)
    : result DatabaseError net_db :=
  match network_prefixes db !! id with
  | None => Err RowNotFound
  | Some n =>
      if negb (within (np_prefix n) (to_cidr prefix)) then
        Err (Sqlx (Some "network_prefix_within_vpc_prefix") "violates constraint")
      else if decide ((vp_prefix <$> vpc_prefix_of db vpc_prefix_id) = Some (to_cidr prefix)) then
        Ok (set_network_prefixes (<[id := mk_network_prefix (np_segment_id n) (np_prefix n)
              (np_gateway n) (np_num_reserved n) (Some (vpc_prefix_id, to_cidr prefix))]>
              (network_prefixes db)) db)
      else Err (Sqlx (Some "network_prefixes_vpc_prefix_fkey") "violates foreign key constraint")
  end.

(** The insertion of [network_segment::persist], without its prefixes *)
Definition insert_segment (clock : Z) (id : string) (s : GeneratedSegment)
    (initial_state : NetworkSegmentControllerState) (db : net_db) : result DatabaseError net_db :=
  let version := initial clock in
  let t := network_segments db in
  match rows t !! id with
  | Some _ => Err (Sqlx (Some "network_segments_pkey") "duplicate key value")
  | None =>
      match gs_vpc_id s with
      | Some v =>
          if decide (vpcs db !! v = None) then
            Err (Sqlx (Some "network_segments_vpc_id_fkey") "violates foreign key constraint")
          else Ok (set_segments (mk_table (<[id := mk_row (mk_versioned initial_state version) None s]>
                     (rows t)) (log t)) db)
      | None => Ok (set_segments (mk_table (<[id := mk_row (mk_versioned initial_state version) None s]>
                      (rows t)) (log t)) db)
      end
  end.
End Tables.
Notation vpc_prefix_row := (table_row VpcPrefixControllerState VpcPrefix).

(** ** The controller *)

Definition PROVISIONING_SLA : Z := 15 * 60 * 1000000000.
Definition DELETING_DBDELETE_SLA : Z := 15 * 60 * 1000000000.

Definition vpc_prefix_state_sla (now : Z) (state : VpcPrefixControllerState)
    (state_version : ConfigVersion) : StateSla :=
  let time_in_state := std_duration_or_day (now - timestamp state_version) in
  match state with
  | Provisioning => with_sla PROVISIONING_SLA time_in_state
  | Ready => no_sla
  | Deleting (DrainNetworkPrefixes _) => no_sla
  | Deleting DBDelete => with_sla DELETING_DBDELETE_SLA time_in_state
  end.

Definition vpc_prefix_state_names (s : VpcPrefixControllerState) : string * string :=
  match s with
  | Provisioning => ("provisioning", EmptyString)
  | Ready => ("ready", EmptyString)
  | Deleting (DrainNetworkPrefixes _) => ("deleting", "drainnetworkprefixes")
  | Deleting DBDelete => ("deleting", "dbdelete")
  end.

Section Controller.
Context `{I : IpNetworks}.

#[export] Program Instance vpc_prefix_table : TableLens net_db VpcPrefixControllerState VpcPrefix := {|
  table_of := network_vpc_prefixes;
  with_table := set_vpc_prefixes;
|}.
Solve Obligations with by intros [].

#[export] Instance vpc_prefix_view : ObjectView net_db string VpcPrefixControllerState := lens_view.

(** [VpcPrefixStateControllerIO] *)
Definition vpc_prefix_io (debug : VpcPrefixControllerState → string) (db_now : Z)
    : StateControllerIO net_db string vpc_prefix_row VpcPrefixControllerState :=
  lens_io debug vpc_prefix_state_names (λ _, None)
    (λ now cs _, vpc_prefix_state_sla now (value cs) (version cs)) db_now.

Section Handler.
Context (drain_period : Z) (env : Env) (here : Location).
Notation Outcome := (StateHandlerOutcome net_db VpcPrefixControllerState).

(** [drain_state] *)
Definition drain_state : VpcPrefixControllerState :=
  Deleting (DrainNetworkPrefixes
    (default (utc_now_again env) (checked_add_signed env (utc_now env) drain_period))).

(** The branch of [DrainNetworkPrefixes] *)
Definition drain_network_prefixes (o : string) (delete_at : Z) (db : net_db)
    : result StateHandlerError Outcome :=
  txn ← begin_txn env 0 db;
  referenced_prefixes ← query env 1 (Ok (count_network_prefixes_by_vpc_prefix_id txn o));
  if bool_decide (0 < referenced_prefixes)%nat then Ok (attach txn (transition here drain_state))
  else if delete_at <=? utc_now env then Ok (attach txn (transition here (Deleting DBDelete)))
  else Ok (attach txn (wait here
         ("Cannot delete VPC prefix from database until draining completes at " +:+
            to_rfc3339 env delete_at))).

(** The branch of [DBDelete] *)
Definition db_delete (o : string) (db : net_db) : result StateHandlerError Outcome :=
  txn ← begin_txn env 0 db;
  txn ← query env 1 (map_err error_text (final_delete o txn));
  Ok (attach txn (deleted here)).

Definition handle_object_state : Handler net_db string vpc_prefix_row VpcPrefixControllerState :=
  λ o state controller_state db,
    let output :=
      match controller_state with
      | Provisioning =>
          Ok (transition here (if is_marked_as_deleted (row_object state) then drain_state else Ready))
      | Ready =>
          Ok (if is_marked_as_deleted (row_object state) then transition here drain_state
              else do_nothing here)
      | Deleting (DrainNetworkPrefixes delete_at) => drain_network_prefixes o delete_at db
      | Deleting DBDelete => db_delete o db
      end in
    mk_run state db output batch_new.
End Handler.
End Controller.
