(* ===== verification/VpcPrefixFacts.v ===== *)
(** * What the tables and the controller of VPC prefixes guarantee

    The integrity of the address space as an invariant of every interleaving of the
    statements and of the controller's runs, and the life cycle of a VPC prefix. *)

From S2P Require Import Prelude Ordered IpNetwork VpcCapability ConfigVersion StateHistory StateHandler.
From S2P Require Import ControllerIO ControllerTable ProcessObject ProcessObjectFacts TableRuns VpcPrefix.

Section Networks.
Context `{I : IpNetworks}.

Lemma net_overlaps_sym a b : overlaps a b = overlaps b a.
Proof.
  unfold overlaps. rewrite (bool_decide_ext (net_v6 a = net_v6 b) (net_v6 b = net_v6 a)) by done.
  by destruct (bool_decide _), (network a <=? broadcast b), (network b <=? broadcast a).
Qed.

Lemma overlaps_refl a : overlaps a a = true.
Proof.
  unfold overlaps. rewrite bool_decide_eq_true_2 by done. pose proof (net_size_pos a).
  rewrite (broadcast_size a), (proj2 (Z.leb_le _ _)); [done|lia].
Qed.

(** The cast to [cidr] changes only the host bits. *)
Lemma to_cidr_spec a :
  net_v6 (to_cidr a) = net_v6 a ∧ net_prefix (to_cidr a) = net_prefix a ∧
  network (to_cidr a) = network a ∧ broadcast (to_cidr a) = broadcast a ∧
  net_ip (to_cidr a) = network a.
Proof.
  unfold to_cidr. pose proof (network_bounds a) as [H0 H1]. pose proof (net_size_pos a).
  destruct (net_make_ok (net_v6 a) (network a) (net_prefix a)) as (n & -> & Hv & Hi & Hp);
    [lia|apply net_prefix_range|].
  assert (net_size n = net_size a) as Hs by (unfold net_size; by rewrite Hv, Hp).
  assert (network n = network a) as Hn.
  { rewrite network_of_aligned; [done|]. rewrite Hi, Hs. apply network_aligned. }
  split_and!; try done. by rewrite !broadcast_size, Hn, Hs.
Qed.

Lemma to_cidr_idem a : to_cidr (to_cidr a) = to_cidr a.
Proof.
  destruct (to_cidr_spec a) as (H1 & H2 & H3 & _ & H5).
  destruct (to_cidr_spec (to_cidr a)) as (K1 & K2 & K3 & _ & K5).
  apply network_ext; congruence.
Qed.

Lemma overlaps_cidr_r a b : overlaps a (to_cidr b) = overlaps a b.
Proof. unfold overlaps. by destruct (to_cidr_spec b) as (-> & _ & -> & -> & _). Qed.

Lemma within_overlaps a b p : within a p = true → overlaps a b = true → overlaps p b = true.
Proof.
  unfold within, overlaps. rewrite !andb_true_iff, !bool_decide_eq_true, !Z.leb_le.
  pose proof (net_size_pos a). pose proof (broadcast_size a).
  intros [[? ?] ?] [[? ?] ?]. split_and!; [congruence|lia..].
Qed.
End Networks.

(** ** The address space *)

Section Integrity.
Context `{I : IpNetworks}.

(** The prefix of the VPC prefix [id]. *)
Definition space_of (db : net_db) (id : string) : option IpNetwork := vp_prefix <$> vpc_prefix_of db id.

(** No address belongs to two VPC prefixes or to two network prefixes, a network prefix
    lies inside the VPC prefix it refers to, which is there, and a VPC prefix has no
    host bits. *)
Record net_wf (db : net_db) : Prop := mk_net_wf {
  spaces_disjoint i j p q :
    i ≠ j → space_of db i = Some p → space_of db j = Some q → overlaps p q = false;
  prefixes_disjoint i j n m :
    i ≠ j → network_prefixes db !! i = Some n → network_prefixes db !! j = Some m →
    overlaps (np_prefix n) (np_prefix m) = false;
  references_hold k n i p :
    network_prefixes db !! k = Some n → np_vpc_prefix n = Some (i, p) →
    space_of db i = Some p ∧ within (np_prefix n) p = true;
  spaces_canonical i p : space_of db i = Some p → to_cidr p = p;
}.

(** Only the spaces and the network prefixes count. *)
Lemma net_wf_ext db db' :
  (∀ i, space_of db' i = space_of db i) → network_prefixes db' = network_prefixes db →
  net_wf db → net_wf db'.
Proof.
  intros Hs Hn [H1 H2 H3 H4]. split.
  - intros i j p q. rewrite !Hs. apply H1.
  - rewrite Hn. apply H2.
  - rewrite Hn. intros k n i p. rewrite Hs. apply H3.
  - intros i p. rewrite Hs. apply H4.
Qed.

Lemma space_of_set_row db id f i :
  (∀ p, vp_prefix (f p) = vp_prefix p) → space_of (set_vpc_prefix_row id f db) i = space_of db i.
Proof.
  intros Hf. unfold space_of, vpc_prefix_of, set_vpc_prefix_row. simpl.
  destruct (decide (i = id)) as [->|]; [rewrite lookup_alter_eq|by rewrite lookup_alter_ne].
  destruct (rows _ !! id); simpl; by rewrite ?Hf.
Qed.

Lemma increment_vpc_version_ok now id v db nv db' :
  increment_vpc_version now id v db = Ok (nv, db') →
  (∃ m, db' = set_vpcs m db) ∧ nv = increment now v ∧
  ∃ c, vpcs db !! id = Some c ∧ vpc_version c = v ∧ vpc_deleted c = false.
Proof.
  unfold increment_vpc_version. destruct (vpcs db !! id) as [c|]; [|done].
  destruct (bool_decide _ && _) eqn:E; [|done]. intros [= <- <-]. to_prop. split_and!; eauto.
Qed.

(** *** The statements keep it *)

Lemma vpc_persist_wf print clock now v ver db db' :
  persist print clock now v ver db = Ok db' → net_wf db → net_wf db'.
Proof.
  unfold persist. intros Hp Hwf. destruct (rows _ !! nv_id v) eqn:Hid; [done|].
  destruct (existsb _ _) eqn:Hex; [done|]. case_decide; [done|].
  apply result_bind_ok in Hp as ([nv db1] & Hinc & [= <-]).
  apply increment_vpc_version_ok in Hinc as ([m ->] & _ & _).
  rewrite <- not_true_iff_false, existsb_exists in Hex.
  assert (Hnew : ∀ i p, space_of db i = Some p → overlaps p (to_cidr (nv_prefix v)) = false).
  { intros i p Hp. apply not_true_is_false. intros Ho. apply Hex. unfold space_of, vpc_prefix_of in Hp.
    destruct (rows _ !! i) as [r|] eqn:Hr; [|done]. injection Hp as <-.
    exists (i, r). split; [|done]. by apply list_elem_of_In, elem_of_map_to_list. }
  assert (Hsp : ∀ i, space_of (set_vpcs m (set_vpc_prefixes (persist_history_row
      (mk_table (<[nv_id v := mk_row (mk_versioned Provisioning (initial clock)) None
         (mk_vpc_prefix (nv_vpc_id v) (to_cidr (nv_prefix v)) None None)]>
         (rows (network_vpc_prefixes db))) (log (network_vpc_prefixes db))) now (nv_id v)
         (initial clock) Provisioning) db)) i =
      if decide (i = nv_id v) then Some (to_cidr (nv_prefix v)) else space_of db i).
  { intros i. unfold space_of, vpc_prefix_of. simpl.
    destruct (decide (i = nv_id v)) as [->|]; [by rewrite lookup_insert_eq|by rewrite lookup_insert_ne]. }
  destruct Hwf as [H1 H2 H3 H4]. split; [|exact H2| |].
  - intros i j p q Hij. rewrite !Hsp. repeat case_decide; intros Hp Hq; simplify_eq.
    + rewrite net_overlaps_sym. by eapply Hnew.
    + by eapply Hnew.
    + by apply (H1 i j).
  - intros k n i p Hk Hr. destruct (H3 k n i p Hk Hr) as [Hs Hw]. split; [|done]. rewrite Hsp.
    case_decide; [subst|done]. unfold space_of, vpc_prefix_of in Hs. by rewrite Hid in Hs.
  - intros i p. rewrite Hsp. case_decide; [|by apply H4]. intros [= <-]. apply to_cidr_idem.
Qed.

Lemma mark_as_deleted_wf clock now id v db db' :
  mark_as_deleted clock now id v db = Ok db' → net_wf db → net_wf db'.
Proof.
  unfold mark_as_deleted. destruct (vpc_prefix_of db id); [|done]. case_match; [done|].
  intros ([nv db1] & Hinc & [= <-])%result_bind_ok.
  apply increment_vpc_version_ok in Hinc as ([m ->] & _ & _).
  apply net_wf_ext; [|done]. intros i. by rewrite <- (space_of_set_row db id (λ p,
    mk_vpc_prefix (vp_vpc_id p) (vp_prefix p) (last_used_prefix p) (Some now)) i).
Qed.

Lemma update_last_used_prefix_wf id u db db' :
  update_last_used_prefix id u db = Ok db' → net_wf db → net_wf db'.
Proof.
  unfold update_last_used_prefix. destruct (lock_for_allocation id db); [|done]. intros [= <-].
  apply net_wf_ext; [|done]. intros i. by apply space_of_set_row.
Qed.

Lemma refers_to_count db id :
  count_network_prefixes_by_vpc_prefix_id db id = 0%nat ↔
  ∀ k n, network_prefixes db !! k = Some n → refers_to id n = false.
Proof.
  unfold count_network_prefixes_by_vpc_prefix_id. rewrite length_zero_iff_nil. split.
  - intros H k n Hk. apply not_true_is_false. intros Hr.
    assert ((k, n) ∈ filter (λ kv : string * NetworkPrefix, refers_to id kv.2 = true)
                       (map_to_list (network_prefixes db))) as Hin.
    { apply list_elem_of_filter. split; [done|]. by apply elem_of_map_to_list. }
    rewrite H in Hin. by apply elem_of_nil in Hin.
  - intros H. apply filter_nil_of. intros [k n] Hin%elem_of_map_to_list. simpl. by rewrite (H k n).
Qed.

Lemma final_delete_ok id db db' :
  final_delete id db = Ok db' →
  is_Some (vpc_prefix_of db id) ∧
  (∀ k n, network_prefixes db !! k = Some n → refers_to id n = false) ∧
  db' = set_vpc_prefixes (mk_table (delete id (rows (network_vpc_prefixes db)))
          (log (network_vpc_prefixes db))) db.
Proof.
  unfold final_delete, vpc_prefix_of. destruct (rows _ !! id) eqn:Hid; [|done].
  case_decide as Hc; [|done]. intros [= <-]. split; [by eauto|]. split; [|done].
  by apply refers_to_count.
Qed.

Lemma final_delete_wf id db db' : final_delete id db = Ok db' → net_wf db → net_wf db'.
Proof.
  intros (_ & Href & ->)%final_delete_ok [H1 H2 H3 H4].
  assert (Hsp : ∀ i, space_of (set_vpc_prefixes (mk_table (delete id (rows (network_vpc_prefixes db)))
      (log (network_vpc_prefixes db))) db) i = if decide (i = id) then None else space_of db i).
  { intros i. unfold space_of, vpc_prefix_of. simpl.
    destruct (decide (i = id)) as [->|]; [by rewrite lookup_delete_eq|by rewrite lookup_delete_ne]. }
  split; [|exact H2| |].
  - intros i j p q Hij. rewrite !Hsp. repeat case_decide; try done. by apply H1.
  - intros k n i p Hk Hr. rewrite Hsp. destruct (H3 k n i p Hk Hr) as [Hs Hw]. split; [|done].
    case_decide; [subst|done]. specialize (Href k n Hk). unfold refers_to in Href.
    rewrite Hr, bool_decide_eq_true_2 in Href by done. done.
  - intros i p. rewrite Hsp. case_decide; [done|]. apply H4.
Qed.

Lemma delete_for_segment_wf seg db : net_wf db → net_wf (delete_for_segment seg db).
Proof.
  intros [H1 H2 H3 H4]. split; [exact H1| | |exact H4]; simpl.
  - intros i j n m Hij [Hi _]%map_lookup_filter_Some [Hj _]%map_lookup_filter_Some. by apply (H2 i j).
  - intros k n i p [Hk _]%map_lookup_filter_Some. by apply (H3 k n i p).
Qed.

Lemma insert_network_prefix_ok id seg p db db' :
  insert_network_prefix id seg p db = Ok db' →
  network_prefixes db !! id = None ∧
  (∀ k n, network_prefixes db !! k = Some n → overlaps (np_prefix n) (new_prefix p) = false) ∧
  is_Some (rows (network_segments db) !! seg) ∧
  db' = set_network_prefixes (<[id := mk_network_prefix seg (to_cidr (new_prefix p)) (new_gateway p)
          (new_num_reserved p) None]> (network_prefixes db)) db.
Proof.
  unfold insert_network_prefix.
  destruct (match new_gateway p with Some g => _ | None => _ end); [done|].
  destruct (net_v6 _ && _); [done|]. case_decide; [done|]. destruct (existsb _ _) eqn:Hex; [done|].
  destruct (existsb (λ n, bool_decide _ && _) _); [done|]. case_decide as Hs; [done|]. intros [= <-].
  split; [by apply eq_None_not_Some|]. split; [|split; [by apply not_eq_None_Some|done]].
  intros k n Hk. rewrite <- not_true_iff_false, existsb_exists in Hex.
  apply not_true_is_false. intros Ho. apply Hex. exists n. split; [|by rewrite overlaps_cidr_r].
  apply list_elem_of_In, list_elem_of_fmap. exists (k, n). split; [done|]. by apply elem_of_map_to_list.
Qed.

Lemma insert_network_prefix_wf id seg p db db' :
  insert_network_prefix id seg p db = Ok db' → net_wf db → net_wf db'.
Proof.
  intros (Hid & Hno & _ & ->)%insert_network_prefix_ok [H1 H2 H3 H4]. split; [exact H1| | |exact H4]; simpl.
  - intros i j n m Hij Hi Hj. apply lookup_insert_Some in Hi as [[<- <-]|[? Hi]];
      apply lookup_insert_Some in Hj as [[<- <-]|[? Hj]]; simpl.
    + done.
    + rewrite net_overlaps_sym, overlaps_cidr_r. by eapply Hno.
    + rewrite overlaps_cidr_r. by eapply Hno.
    + by apply (H2 i j).
  - intros k n i q Hk Hr. apply lookup_insert_Some in Hk as [[<- <-]|[? Hk]]; [done|].
    by apply (H3 k n i q).
Qed.

Lemma set_vpc_prefix_ok id vid p db db' :
  set_vpc_prefix id vid p db = Ok db' →
  ∃ n, network_prefixes db !! id = Some n ∧ within (np_prefix n) (to_cidr p) = true ∧
    space_of db vid = Some (to_cidr p) ∧
    db' = set_network_prefixes (<[id := mk_network_prefix (np_segment_id n) (np_prefix n)
            (np_gateway n) (np_num_reserved n) (Some (vid, to_cidr p))]> (network_prefixes db)) db.
Proof.
  unfold set_vpc_prefix. destruct (network_prefixes db !! id) as [n|] eqn:Hn; [|done].
  case_match eqn:Hw; [done|]. case_decide as Hs; [|done]. intros [= <-]. exists n.
  split_and!; try done. by destruct (within _ _).
Qed.

Lemma set_vpc_prefix_wf id vid p db db' :
  set_vpc_prefix id vid p db = Ok db' → net_wf db → net_wf db'.
Proof.
  intros (n0 & Hn0 & Hw & Hs & ->)%set_vpc_prefix_ok [H1 H2 H3 H4]. split; [exact H1| | |exact H4]; simpl.
  - intros i j n m Hij Hi Hj. apply lookup_insert_Some in Hi as [[<- <-]|[? Hi]];
      apply lookup_insert_Some in Hj as [[<- <-]|[? Hj]]; simpl;
      [done|by apply (H2 id j)|by apply (H2 i id)|by apply (H2 i j)].
  - intros k n i q Hk Hr. apply lookup_insert_Some in Hk as [[<- <-]|[? Hk]]; simpl in *; simplify_eq.
    + done.
    + by apply (H3 k n i q).
Qed.

Lemma insert_segment_ok clock id s st db db' :
  insert_segment clock id s st db = Ok db' → ∃ t, db' = set_segments t db.
Proof. unfold insert_segment. repeat case_match; intros ?; simplify_eq; eauto. Qed.

Lemma set_segments_wf t db : net_wf db → net_wf (set_segments t db).
Proof. by apply net_wf_ext. Qed.
End Integrity.

(** ** Runs of the controller *)

#[export] Instance vpc_prefix_laws `{I : IpNetworks} debug db_now :
  StateControllerIOLaws net_db string vpc_prefix_row VpcPrefixControllerState
    (IO := vpc_prefix_io debug db_now) (V := vpc_prefix_view).
Proof. apply lens_laws. Qed.

Section Runs.
Context `{I : IpNetworks} (debug : VpcPrefixControllerState → string) (db_now drain_period : Z).
Notation IO := (vpc_prefix_io debug db_now).
Context (env : Env) (loc : Location) (clk : Clock) (o : string).
Notation handler := (handle_object_state drain_period env loc).
Notation stored db := (controller_state_of (ObjectView := vpc_prefix_view) db o).
Notation run db orc := (process_object (IO := IO) handler clk o db orc).

(** No network prefix refers to the VPC prefix. *)
Definition unreferenced (db : net_db) : Prop :=
  ∀ k n, network_prefixes db !! k = Some n → refers_to o n = false.

(** A step of the life cycle from [cs]: the VPC prefix was loaded from [db0], the
    handler's transaction began in [db1], and [db'] is committed. *)
Definition vpc_prefix_lifecycle (cs : Versioned VpcPrefixControllerState) (db0 db1 db' : net_db) : Prop :=
  let becomes n :=
    stored db' = Some (mk_versioned n (increment (at_increment clk) (version cs))) in
  let marked b := (is_marked_as_deleted <$> vpc_prefix_of db0 o) = Some b in
  match value cs with
  | Provisioning =>
      marked true ∧ becomes (drain_state drain_period env) ∨ marked false ∧ becomes Ready
  | Ready => marked true ∧ becomes (drain_state drain_period env)
  | Deleting (DrainNetworkPrefixes delete_at) =>
      ¬ unreferenced db1 ∧ becomes (drain_state drain_period env) ∨
      unreferenced db1 ∧ delete_at ≤ utc_now env ∧ becomes (Deleting DBDelete)
  | Deleting DBDelete =>
      unreferenced db1 ∧
      db' = set_vpc_prefixes (mk_table (delete o (rows (network_vpc_prefixes db1)))
              (log (network_vpc_prefixes db1))) db1
  end.

Lemma vpc_handler_plain s cs db :
  run_pending (handler o s cs db) = [] ∧ run_committed (handler o s cs db) = db.
Proof. done. Qed.

Lemma vpc_drain_outcome delete_at db oc :
  drain_network_prefixes drain_period env loc o delete_at db = Ok oc →
  fst (take_transaction oc) = Some db ∧
  (¬ unreferenced db ∧ oc = Transition (drain_state drain_period env) loc (Some db) ∨
   unreferenced db ∧ delete_at ≤ utc_now env ∧ oc = Transition (Deleting DBDelete) loc (Some db) ∨
   ∃ r, oc = Wait r loc (Some db)).
Proof.
  unfold drain_network_prefixes. intros (txn & [_ ->]%begin_txn_ok & H)%result_bind_ok.
  apply result_bind_ok in H as (c & [_ [= <-]]%query_ok & H).
  pose proof (refers_to_count db o) as Hu. fold (unreferenced db) in Hu.
  case_bool_decide as Hc.
  - injection H as <-. split; [done|]. left. split; [|done]. intros Hn%Hu. lia.
  - assert (unreferenced db) by (apply Hu; lia).
    destruct (Z.leb_spec delete_at (utc_now env)); injection H as <-; simpl; split; eauto.
Qed.

Lemma vpc_db_delete_outcome db oc :
  db_delete env loc o db = Ok oc → ∃ txn, oc = Deleted loc (Some txn) ∧ final_delete o db = Ok txn.
Proof.
  unfold db_delete. intros (t0 & [_ ->]%begin_txn_ok & H)%result_bind_ok.
  apply result_bind_ok in H as (t1 & [_ H1]%query_ok & [= <-]).
  destruct (final_delete o db) as [db'|]; [|done]. injection H1 as <-. by eexists.
Qed.

Lemma vpc_handler_txn r cs db1 oc txn :
  run_output (handler o r cs db1) = Ok oc → fst (take_transaction oc) = Some txn →
  (∃ l t, oc = Deleted l t) ∨ txn = db1.
Proof.
  destruct cs as [| |[delete_at|]]; simpl.
  - by intros [= <-].
  - by destruct (is_marked_as_deleted _); intros [= <-].
  - intros [Ht _]%vpc_drain_outcome. rewrite Ht. intros [= <-]. by right.
  - intros (? & -> & _)%vpc_db_delete_outcome. eauto.
Qed.

Lemma vpc_prefix_run_cases (K : net_db → Prop) cs db orc h :
  ignores_outcome (IO := IO) o K → others_keep (stays o K cs) orc → stays o K cs db →
  run db orc = Some h →
  stays o K cs (h_db h) ∨
  ∃ db0 db1, stays o K cs db0 ∧ stays o K cs db1 ∧ vpc_prefix_lifecycle cs db0 db1 (h_db h).
Proof.
  intros HK Hothers Hdb Hrun.
  destruct (table_run_steps _ _ _ _ _ handler clk o vpc_handler_plain K cs db orc h HK Hothers Hdb)
    as [?|(db0 & r & db1 & oc & H0 & Hr & H1 & Hout & Hoc)];
    [intros ????; apply vpc_handler_txn|done|by left|right].
  exists db0, db1. do 2 (split; [done|]). unfold vpc_prefix_lifecycle, vpc_prefix_of.
  simpl in Hr. rewrite Hr. simpl. unfold transition, do_nothing in *.
  destruct cs as [[| |[delete_at|]] v]; simpl in Hout |- *.
  - destruct Hoc as [(n & l & t & -> & Hn)|[? ->]]; [|done].
    destruct (is_marked_as_deleted (row_object r)); simplify_eq; auto.
  - destruct (is_marked_as_deleted (row_object r)), Hoc as [(n & l & t & -> & Hn)|[? ->]]; by simplify_eq.
  - apply vpc_drain_outcome in Hout as [_ Hout].
    destruct Hoc as [(n & l & t & -> & Hn)|[? ->]]; [|naive_solver].
    destruct Hout as [[? [= -> _ _]]|[(? & ? & [= -> _ _])|[? [=]]]]; auto.
  - apply vpc_db_delete_outcome in Hout as (txn & -> & Hdel).
    destruct Hoc as [(n & l & t & [=] & _)|[? [= _ ->]]].
    by apply final_delete_ok in Hdel as (_ & Hu & ->).
Qed.

(** C37: A run of the controller on a VPC prefix makes the next step of its life cycle or
    leaves it as it is, for every failure, unconfirmed commit and interference that
    leaves the controller state to the controller.  It becomes ready, or starts to
    drain if its user deleted it; draining starts over while a network prefix refers
    to it and ends, at or after the deadline, only when none does; and its row is
    removed, with nothing else changed, only when no network prefix refers to it. *)
Theorem vpc_prefix_run_lifecycle (K : net_db → Prop) cs db orc h
    (HK : ignores_outcome (IO := IO) o K)
    (Hothers : others_keep (stays o K cs) orc) (Hdb : stays o K cs db)
    (Hrun : run db orc = Some h) :
  stays o K cs (h_db h) ∨
  ∃ db0 db1, stays o K cs db0 ∧ stays o K cs db1 ∧ vpc_prefix_lifecycle cs db0 db1 (h_db h).
Proof. by apply (vpc_prefix_run_cases K cs db orc h). Qed.

(** The run keeps the integrity of the address space. *)
Lemma vpc_prefix_run_wf cs db orc h :
  others_keep (stays o net_wf cs) orc → stays o net_wf cs db → run db orc = Some h → net_wf (h_db h).
Proof.
  intros Hothers Hdb. eapply (table_run_keeps _ _ _ _ _ handler clk o vpc_handler_plain); [|exact Hothers|done|].
  - intros db1 r cs' oc l Hwf Hr. revert Hwf. apply net_wf_ext; [|done]. intros i.
    unfold space_of, vpc_prefix_of. simpl. destruct (decide (i = o)) as [->|];
      [by rewrite lookup_insert_eq; simpl in Hr; rewrite Hr|by rewrite lookup_insert_ne].
  - intros r db1 oc txn [Hst Hwf] Hout Htxn. destruct (vpc_handler_txn _ _ _ _ _ Hout Htxn) as [(l & t & ->)| ->].
    + split; [|by eauto]. simpl in Htxn. subst t.
      destruct (value cs) as [| |[d|]]; simpl in Hout.
      * done.
      * by destruct (is_marked_as_deleted _).
      * apply vpc_drain_outcome in Hout as [_ Hout]. naive_solver.
      * apply vpc_db_delete_outcome in Hout as (t & [= _ ->] & Hd). by eapply final_delete_wf.
    + split; [done|]. by right.
Qed.
End Runs.

(** ** Examples *)

Module VpcPrefixExamples.
#[export] Existing Instance ref_ipnetworks.

Definition v4 (a b c d len : Z) : IpNetwork := ref_network false (((a * 256 + b) * 256 + c) * 256 + d) len.
Definition v6 (host len : Z) : IpNetwork := ref_network true (Z.shiftl 8193 112 + host) len.

Definition empty : net_db :=
  mk_net_db (mk_table ∅ empty_log) ∅ (mk_table ∅ empty_log)
    {["v" := mk_vpc "t" Fnn (initial 0) false]}.

(** The VPC prefixes are created one after the other. *)
Definition create (d : net_db) (v : NewVpcPrefix) : net_db :=
  match vpc_version <$> vpcs d !! nv_vpc_id v with
  | Some ver => match persist (λ _, EmptyString) 0 0 v ver d with Ok d' => d' | Err _ => d end
  | None => d
  end.

(** A VPC with two IPv4 prefixes, the first of which holds one linknet, and an IPv6 one *)
Definition start : net_db :=
  foldl create empty [mk_new_vpc_prefix "p1" "v" (v4 10 0 0 0 31); mk_new_vpc_prefix "p2" "v" (v4 10 0 1 7 24);
                      mk_new_vpc_prefix "p3" "v" (v6 0 64)].

Lemma start_wf : net_wf start.
Proof.
  unfold start. generalize [mk_new_vpc_prefix "p1" "v" (v4 10 0 0 0 31); mk_new_vpc_prefix "p2" "v" (v4 10 0 1 7 24);
                            mk_new_vpc_prefix "p3" "v" (v6 0 64)] as vs.
  assert (He : net_wf empty) by (split; intros *; by rewrite ?lookup_empty).
  revert He. generalize empty. intros d Hd vs. revert d Hd. induction vs as [|v vs IH]; intros d Hd; [done|].
  simpl. apply IH. unfold create. destruct (vpc_version <$> _) as [ver|]; [|done].
  destruct (persist _ _ _ _ _ _) eqn:E; [by eapply vpc_persist_wf|done].
Qed.

Definition env (now : Z) : Env := mk_env now now (λ _, None) (λ t d, Some (t + d)) print_i.
Definition loc : Location := mk_location "handler.rs" 1.
Definition clk (now : Z) : Clock := mk_clock now now now now now 1.

(** A prefix that drains until 400 *)
Definition draining : net_db :=
  set_vpc_prefixes (mk_table {["p1" := mk_row (mk_versioned (Deleting (DrainNetworkPrefixes 400)) (mk_version 3 100))
    None (mk_vpc_prefix "v" (v4 10 0 0 0 31) None (Some 50))]} empty_log) empty.

(** Someone takes a linknet of the prefix. *)
Definition take (d : net_db) : net_db :=
  set_network_prefixes {["n" := mk_network_prefix "s" (v4 10 0 0 0 31) None 0 (Some ("p1", v4 10 0 0 0 31))]} d.

Lemma take_keeps cs : others_keep (stays "p1" (λ _, True) cs) [mk_verdict take Go].
Proof. constructor; [|constructor]. by intros d [Hs _]. Qed.

Definition run (now : Z) (orc : list (Verdict net_db)) :=
  process_object (IO := vpc_prefix_io (λ _, EmptyString) 0) (handle_object_state 300 (env now) loc) (clk now) "p1"
    draining orc.
End VpcPrefixExamples.

Section Examples.
Import VpcPrefixExamples.

(** The deadline has passed, but a linknet is taken as the run begins: draining starts over. *)
Lemma vpc_prefix_run_lifecycle_witness :
  let cs := mk_versioned (Deleting (DrainNetworkPrefixes 400)) (mk_version 3 100) in
  ∃ h, run 500 [mk_verdict take Go] = Some h ∧
    (stays "p1" (λ _, True) cs (h_db h) ∨
     ∃ db0 db1, stays "p1" (λ _, True) cs db0 ∧ stays "p1" (λ _, True) cs db1 ∧
       vpc_prefix_lifecycle 300 (env 500) (clk 500) "p1" cs db0 db1 (h_db h)) ∧
    (value <$> controller_state_of (h_db h) "p1") = Some (Deleting (DrainNetworkPrefixes 800)).
Proof.
  intros cs.
  assert (E : (λ h, value <$> controller_state_of (h_db h) "p1") <$> run 500 [mk_verdict take Go] =
    Some (Some (Deleting (DrainNetworkPrefixes 800)))) by (vm_compute; reflexivity).
  apply fmap_Some in E as (h & Hrun & E). exists h. split; [exact Hrun|]. split; [|symmetry; exact E].
  apply (vpc_prefix_run_lifecycle (λ _, EmptyString) 0 300 (env 500) loc (clk 500) "p1" (λ _, True) cs draining
           [mk_verdict take Go]); [by intros ?|apply take_keeps| |exact Hrun].
  split; [vm_compute; reflexivity|done].
Defined.
End Examples.
