(* ===== verification/LinknetAllocator.v ===== *)
(** * The allocator of linknets
      ([crates/api-core/src/network_segment/allocate.rs], [crates/api-db/src/network_prefix.rs],
      [update_stats] of [crates/api-db/src/vpc_prefix.rs])

    A linknet is a prefix of fixed length ([/31] or [/127]) of a VPC prefix.  The
    allocator searches the next free one after a cursor over index intervals, and the
    capacity figures count the free ones from the same intervals.  Integers are kept at
    the width of the source; [Panic] stands for a panic of its arithmetic,
    [Unfinished] for a loop of the model that ran out of fuel. *)

From stdpp Require Import sorting.
From S2P Require Import Prelude Ordered IpNetwork VpcPrefix.

Inductive CarbideError :=
| InvalidArgument (msg : string)
| InvalidConfiguration (msg : string)
| FailedPrecondition (msg : string)
| ResourceExhausted (msg : string)
| UnavailableError (msg : string)
| AlreadyFoundError (kind id : string)
| Internal (msg : string)
| DBError (e : DatabaseError)
| Panic
| Unfinished.

(** ** Machine integers *)

Definition saturating_add_u128 (a b : Z) : Z := Z.min u128_max (a + b).
Definition checked_add_u128 (a b : Z) : option Z := if a + b <=? u128_max then Some (a + b) else None.
Definition checked_sub_u128 (a b : Z) : option Z := if b <=? a then Some (a - b) else None.
Definition checked_mul_u128 (a b : Z) : option Z := if a * b <=? u128_max then Some (a * b) else None.
Definition checked_shl_u128 (a n : Z) : option Z :=
  if n <? 128 then Some (Z.shiftl a n mod 2 ^ 128) else None.

Section Intervals.
Context `{I : IpNetworks}.

(** The order of pairs *)
Definition interval_le (a b : Z * Z) : Prop := a.1 < b.1 ∨ a.1 = b.1 ∧ a.2 ≤ b.2.

#[export] Instance interval_le_dec : RelDecision interval_le.
Proof. intros a b. unfold interval_le. apply _. Defined.

(** The interval of the children that [prefix] touches; the filters of the source *)
Definition occupied_interval (parent : IpNetwork) (child_size : Z) (prefix : IpNetwork) : option (Z * Z) :=
  if bool_decide (net_v6 prefix = net_v6 parent) then
    let parent_start := network parent in
    let occupied_start := Z.max (network prefix) parent_start in
    let occupied_end := Z.min (broadcast prefix) (broadcast parent) in
    if occupied_start <=? occupied_end
    then Some ((occupied_start - parent_start) / child_size, (occupied_end - parent_start) / child_size)
    else None
  else None.

Definition occupied_prefix_intervals (parent : IpNetwork) (child_prefix_length : Z)
    (occupied_prefixes : list IpNetwork) : option (list (Z * Z)) :=
  let max_bits := family_bits (net_v6 parent) in
  host_bits ← checked_sub_u128 max_bits child_prefix_length;
  child_size ← checked_shl_u128 1 host_bits;
  Some (merge_sort interval_le (omap (occupied_interval parent child_size) occupied_prefixes)).

(** The loop of [occupied_prefix_count] *)
Fixpoint union_count (occupied current_start current_end : Z) (intervals : list (Z * Z)) : option Z :=
  match intervals with
  | [] =>
      n ← checked_add_u128 occupied current_end;
      n ← checked_sub_u128 n current_start;
      checked_add_u128 n 1
  | (start, end_) :: intervals =>
      if start <=? saturating_add_u128 current_end 1
      then union_count occupied current_start (Z.max current_end end_) intervals
      else
        n ← checked_sub_u128 current_end current_start;
        n ← checked_add_u128 n 1;
        occupied ← checked_add_u128 occupied n;
        union_count occupied start end_ intervals
  end.

Definition occupied_prefix_count (parent : IpNetwork) (child_prefix_length : Z)
    (occupied_prefixes : list IpNetwork) : option Z :=
  intervals ← occupied_prefix_intervals parent child_prefix_length occupied_prefixes;
  match intervals with
  | [] => Some 0
  | (first_start, first_end) :: rest => union_count 0 first_start first_end rest
  end.

(** ** Capacity figures *)

Record Stats := mk_stats {
  total_31_segments : Z;
  available_31_segments : Z;
  total_linknet_segments : Z;
  available_linknet_segments : Z;
}.

(** [uN::try_from(n).unwrap_or(uN::MAX)] *)
Definition clamp (max n : Z) : Z := if n <=? max then n else max.

(** The number of linknets of a VPC prefix *)
Definition total_linknets (vpc_prefix : IpNetwork) : Z :=
  let linknet_prefix := if net_v6 vpc_prefix then 127 else 31 in
  let len := net_prefix vpc_prefix in
  let supports_full_root_linknet := negb (net_v6 vpc_prefix) && (len =? linknet_prefix) in
  if (len <? linknet_prefix) || supports_full_root_linknet then Z.shiftl 1 (linknet_prefix - len) else 0.

(** [update_stats] for one VPC prefix; the stats of a loaded row are zero before. *)
Definition update_stats (vpc_prefix : IpNetwork) (occupied_prefixes : list IpNetwork) : option Stats :=
  let linknet_prefix := if net_v6 vpc_prefix then 127 else 31 in
  let total := total_linknets vpc_prefix in
  occupied ← occupied_prefix_count vpc_prefix linknet_prefix occupied_prefixes;
  let available := saturating_sub total occupied in
  let v4 n := if net_v6 vpc_prefix then 0 else clamp u32_max n in
  Some (mk_stats (v4 total) (v4 available) (clamp u64_max total) (clamp u64_max available)).

(** ** The search *)

(** The loop of [first_unoccupied_index] *)
Fixpoint unoccupied_from (occupied : list (Z * Z)) (candidate range_end : Z) : option Z :=
  match occupied with
  | [] => Some candidate
  | (occupied_start, occupied_end) :: occupied =>
      if occupied_end <? candidate then unoccupied_from occupied candidate range_end
      else if candidate <? occupied_start then Some candidate
      else
        let candidate := saturating_add_u128 occupied_end 1 in
        if range_end <? candidate then None else unoccupied_from occupied candidate range_end
  end.

Definition first_unoccupied_index (occupied : list (Z * Z)) (range_start range_end : Z) : option Z :=
  if range_end <? range_start then None else unoccupied_from occupied range_start range_end.

Record PrefixAllocator := mk_prefix_allocator {
  pa_vpc_prefix_id : string;
  pa_vpc_prefix : IpNetwork;
  pa_last_used_prefix : option IpNetwork;
  pa_prefix : Z;
}.

Definition new_allocator (vpc_prefix_id : string) (vpc_prefix : IpNetwork)
    (last_used : option IpNetwork) (prefix : Z) : result CarbideError PrefixAllocator :=
  if family_bits (net_v6 vpc_prefix) <? prefix then
    Err (InvalidArgument "prefix length exceeds maximum for address family")
  else
    let is_single_ipv4_linknet :=
      negb (net_v6 vpc_prefix) && (net_prefix vpc_prefix =? 31) && (prefix =? 31) in
    if (prefix <=? net_prefix vpc_prefix) && negb is_single_ipv4_linknet then
      Err (InvalidArgument "prefix length must be greater than VPC prefix length, except for an IPv4 /31")
    else Ok (mk_prefix_allocator vpc_prefix_id vpc_prefix last_used prefix).

(** [u128_to_ip]: an IPv4 address is truncated. *)
Definition u128_to_ip (val : Z) (is_v6 : bool) : Z := if is_v6 then val else val mod 2 ^ 32.

(** The index the search starts at: the one after the cursor *)
Definition start_index (a : PrefixAllocator) (linknet_size total : Z) : Z :=
  let vpc_start := network (pa_vpc_prefix a) in
  let vpc_end := broadcast (pa_vpc_prefix a) in
  match pa_last_used_prefix a with
  | Some p =>
      let prefix_end := broadcast p in
      if bool_decide (net_v6 p = net_v6 (pa_vpc_prefix a)) && (vpc_start <=? prefix_end) &&
         (prefix_end <=? vpc_end)
      then ((prefix_end - vpc_start) / linknet_size + 1) mod total
      else 0
  | None => 0
  end.

(** [next_free_prefix], after the query that returned [used_prefixes] *)
Definition next_free_prefix (a : PrefixAllocator) (used_prefixes : list IpNetwork)
    : result CarbideError IpNetwork :=
  let vpc := pa_vpc_prefix a in
  prefix_delta ← ok_or (checked_sub_u128 (pa_prefix a) (net_prefix vpc)) Panic;
  total ← ok_or (checked_shl_u128 1 prefix_delta) (Internal "unable to represent the number of linknets");
  host_bits ← ok_or (checked_sub_u128 (family_bits (net_v6 vpc)) (pa_prefix a)) Panic;
  linknet_size ← ok_or (checked_shl_u128 1 host_bits)
                   (Internal "unable to represent a linknet address range");
  occupied ← ok_or (occupied_prefix_intervals vpc (pa_prefix a) used_prefixes) Panic;
  let start := start_index a linknet_size total in
  last ← ok_or (checked_sub_u128 total 1) Panic;
  let free := match first_unoccupied_index occupied start last with
              | Some i => Some i
              | None => range_end ← checked_sub_u128 start 1; first_unoccupied_index occupied 0 range_end
              end in
  free_index ← ok_or free (ResourceExhausted "VPC prefix has no available linknets");
  address ← ok_or (offset ← checked_mul_u128 free_index linknet_size;
                   checked_add_u128 (network vpc) offset)
              (Internal "allocated linknet index overflowed VPC prefix");
  map_err (λ _, Internal "unable to construct allocated linknet")
    (net_make (net_v6 vpc) (u128_to_ip address (net_v6 vpc)) (pa_prefix a)).

(** [networks_overlap] *)
Definition networks_overlap (a b : IpNetwork) : bool :=
  net_contains_ip a (net_v6 b, network b) || net_contains_ip b (net_v6 a, network a).

(** [validate_desired_prefix], after the query that returned [used_prefixes] *)
Definition validate_desired_prefix (print_net : IpNetwork → string) (a : PrefixAllocator)
    (used_prefixes : list IpNetwork) (prefix : IpNetwork) : result CarbideError () :=
  if negb (net_contains_ip (pa_vpc_prefix a) (net_v6 prefix, network prefix)) then
    Err (InvalidArgument (print_net prefix +:+ " is not contained within " +:+
           print_net (pa_vpc_prefix a)))
  else if existsb (λ u, networks_overlap u prefix) used_prefixes then
    Err (AlreadyFoundError "prefix" (print_net prefix))
  else Ok ().

(** [generated_linknet_num_reserved] *)
Definition generated_linknet_num_reserved (prefix : IpNetwork) : Z := if net_v6 prefix then 1 else 0.
End Intervals.
