(* ===== verification/LinknetAllocatorFacts.v ===== *)
(** * What the allocator of linknets guarantees

    The search finds the next free linknet after the cursor and fails only when none
    is left; the capacity figures count exactly the free linknets. *)

From stdpp Require Import sorting.
From S2P Require Import Prelude Ordered IpNetwork VpcPrefix VpcPrefixFacts LinknetAllocator.

Lemma StronglySorted_weaken {A} (R S : A → A → Prop) (l : list A) :
  (∀ x y, R x y → S x y) → StronglySorted R l → StronglySorted S l.
Proof. intros HRS. induction 1 as [|x l _ IH Hx]; constructor; [done|]. eapply Forall_impl; eauto. Qed.

(** ** Index intervals *)

(** The index [i] lies in one of the intervals. *)
Definition covered (l : list (Z * Z)) (i : Z) : Prop := ∃ x, x ∈ l ∧ x.1 ≤ i ≤ x.2.

Lemma covered_cons x l i : covered (x :: l) i ↔ x.1 ≤ i ≤ x.2 ∨ covered l i.
Proof.
  unfold covered. setoid_rewrite elem_of_cons. split; [|intros [?|(y & ? & ?)]; eauto].
  intros (y & [->|?] & ?); eauto.
Qed.

Lemma not_covered_nil i : ¬ covered [] i.
Proof. intros (x & Hx & _). by apply elem_of_nil in Hx. Qed.

#[export] Instance covered_dec l i : Decision (covered l i).
Proof.
  refine (cast_if (decide (Exists (λ x, x.1 ≤ i ≤ x.2) l))); unfold covered; by rewrite <- Exists_exists.
Defined.

Lemma covered_perm l l' i : l ≡ₚ l' → covered l i ↔ covered l' i.
Proof. intros Hp. unfold covered. by setoid_rewrite Hp. Qed.

#[export] Instance interval_le_trans : Transitive interval_le.
Proof. intros x y z. unfold interval_le. lia. Qed.

#[export] Instance interval_le_total : Total interval_le.
Proof. intros x y. unfold interval_le. lia. Qed.

(** Intervals sorted by their start, none empty or ending at the largest integer *)
Definition intervals_ok (l : list (Z * Z)) : Prop :=
  StronglySorted (λ x y, x.1 ≤ y.1) l ∧ Forall (λ x, 0 ≤ x.1 ≤ x.2 ∧ x.2 < u128_max) l.

Lemma intervals_ok_cons x l : intervals_ok (x :: l) →
  intervals_ok l ∧ 0 ≤ x.1 ≤ x.2 ∧ x.2 < u128_max ∧ ∀ y, y ∈ l → x.1 ≤ y.1.
Proof.
  intros [[Hs Hx]%StronglySorted_inv [Hb Hl]%Forall_cons]. split_and!; try done; try lia.
  intros y Hy. rewrite Forall_forall in Hx. by apply Hx.
Qed.

(** The search returns the first uncovered index of its range. *)
Lemma unoccupied_from_spec l c hi : intervals_ok l → c ≤ hi →
  match unoccupied_from l c hi with
  | Some k => c ≤ k ≤ hi ∧ ¬ covered l k ∧ ∀ i, c ≤ i < k → covered l i
  | None => ∀ i, c ≤ i ≤ hi → covered l i
  end.
Proof.
  revert c. induction l as [|[s e] l IH]; intros c Hl Hc; simpl.
  { split_and!; [lia|lia|apply not_covered_nil|lia]. }
  apply intervals_ok_cons in Hl as (Hl & Hse & Hmax & Hstart). simpl in *.
  destruct (Z.ltb_spec e c).
  - specialize (IH c Hl Hc). destruct (unoccupied_from l c hi) as [k|].
    + destruct IH as (Hk & Hn & Hi). split; [done|]. rewrite covered_cons. simpl.
      split; [intros [?|?]; [lia|done]|]. intros i ?. rewrite covered_cons. auto.
    + intros i ?. rewrite covered_cons. auto.
  - destruct (Z.ltb_spec c s).
    + split; [lia|]. split; [|lia]. rewrite covered_cons. simpl. intros [?|(y & Hy & ?)]; [lia|].
      specialize (Hstart y Hy). lia.
    + unfold saturating_add_u128. rewrite Z.min_r by lia. destruct (Z.ltb_spec hi (e + 1)).
      * intros i ?. rewrite covered_cons. simpl. lia.
      * specialize (IH (e + 1) Hl ltac:(lia)).
        destruct (unoccupied_from l (e + 1) hi) as [k|].
        -- destruct IH as (Hk & Hn & Hi). split; [lia|]. rewrite covered_cons. simpl.
           split; [intros [?|?]; [lia|done]|]. intros i ?. rewrite covered_cons. simpl.
           destruct (decide (i ≤ e)); [lia|]. right. apply Hi. lia.
        -- intros i ?. rewrite covered_cons. simpl. destruct (decide (i ≤ e)); [lia|].
           right. apply IH. lia.
Qed.

(** ** Counting *)

(** The number of indexes below [n] that satisfy [P]. *)
Definition count_below (n : Z) (P : Z → Prop) `{∀ i, Decision (P i)} : Z :=
  Z.of_nat (length (filter P (seqZ 0 n))).

Section Counting.
Context (P Q : Z → Prop) `{∀ i, Decision (P i)} `{∀ i, Decision (Q i)}.

Lemma count_below_ext n : (∀ i, 0 ≤ i < n → P i ↔ Q i) → count_below n P = count_below n Q.
Proof using Type.
  intros He. unfold count_below. do 2 f_equal.
  generalize (λ i (Hi : i ∈ seqZ 0 n), He i (proj1 (elem_of_seqZ 0 n i) Hi)).
  clear He. induction (seqZ 0 n) as [|x l IH]; intros He; [done|].
  rewrite !filter_cons. pose proof (He x ltac:(set_solver)).
  rewrite IH by (intros; apply He; set_solver). repeat case_decide; tauto || done.
Qed.
End Counting.

Lemma count_below_disjoint (P Q : Z → Prop) `{∀ i, Decision (P i)} `{∀ i, Decision (Q i)} n :
  (∀ i, P i → Q i → False) →
  count_below n (λ i, P i ∨ Q i) = count_below n P + count_below n Q.
Proof.
  intros Hd. unfold count_below. induction (seqZ 0 n) as [|x l IH]; [done|].
  rewrite !filter_cons. repeat case_decide; simpl; try lia; naive_solver lia.
Qed.

Lemma count_below_not (P : Z → Prop) `{∀ i, Decision (P i)} n :
  0 ≤ n → count_below n (λ i, ¬ P i) = n - count_below n P.
Proof.
  intros Hn. unfold count_below.
  assert (∀ l : list Z, Z.of_nat (length (filter (λ i, ¬ P i) l)) +
            Z.of_nat (length (filter P l)) = Z.of_nat (length l)) as Hl.
  { induction l as [|x l IH]; [done|]. rewrite !filter_cons. repeat case_decide; simpl; try lia; tauto. }
  specialize (Hl (seqZ 0 n)). rewrite length_seqZ in Hl. lia.
Qed.

Lemma count_below_interval n a b : 0 ≤ a ≤ b → b < n → count_below n (λ i, a ≤ i ≤ b) = b - a + 1.
Proof.
  intros Hab Hb. unfold count_below.
  assert (seqZ 0 n = seqZ 0 a ++ seqZ a (b - a + 1) ++ seqZ (b + 1) (n - b - 1)) as ->.
  { replace n with (a + ((b - a + 1) + (n - b - 1))) at 1 by lia.
    rewrite !seqZ_app by lia. do 2 f_equal; f_equal; lia. }
  rewrite !filter_app, !length_app, (filter_nil_of _ (seqZ 0 a)), (filter_nil_of _ (seqZ (b + 1) _)).
  - rewrite filter_id; [rewrite length_seqZ; simpl; lia|]. intros x ?%elem_of_seqZ. lia.
  - intros x ?%elem_of_seqZ. lia.
  - intros x ?%elem_of_seqZ. lia.
Qed.

(** The loop counts the union of the intervals. *)
Lemma union_count_spec n l occ cs ce :
  intervals_ok ((cs, ce) :: l) → Forall (λ x, x.2 < n) ((cs, ce) :: l) → 2 * n ≤ 2 ^ 128 →
  0 ≤ occ ≤ cs →
  union_count occ cs ce l = Some (occ + count_below n (λ i, cs ≤ i ≤ ce ∨ covered l i)).
Proof.
  revert occ cs ce. induction l as [|[s e] l IH]; intros occ cs ce Hok Hn Hb Hocc;
    apply intervals_ok_cons in Hok as (Hl & Hse & Hmax & Hstart);
    apply Forall_cons in Hn as [Hce Hn]; simpl in Hse, Hce, Hmax.
  - rewrite (count_below_ext _ (λ i, cs ≤ i ≤ ce)), count_below_interval by
      (try lia; intros i _; pose proof (not_covered_nil i); tauto).
    simpl. unfold checked_add_u128, checked_sub_u128, u128_max.
    rewrite (proj2 (Z.leb_le (occ + ce) _)) by lia. simpl.
    rewrite (proj2 (Z.leb_le cs _)) by lia. simpl. rewrite (proj2 (Z.leb_le _ (2 ^ 128 - 1))) by lia.
    f_equal. lia.
  - pose proof (Hstart (s, e) ltac:(set_solver)) as Hs. simpl in Hs.
    apply Forall_cons in Hn as [He Hn]. simpl in He.
    pose proof Hl as Hl'. apply intervals_ok_cons in Hl' as (Hl' & Hse' & Hmax' & Hstart'). simpl in *.
    unfold saturating_add_u128. rewrite Z.min_r by (unfold u128_max; lia).
    destruct (Z.leb_spec s (ce + 1)).
    + rewrite IH; [|split|constructor; [simpl; lia|done]|done..].
      * do 2 f_equal. apply count_below_ext. intros i _. rewrite covered_cons. simpl.
        split; [intros [?|?]; [lia|tauto]|intros [?|[?|?]]; [lia|lia|tauto]].
      * constructor; [apply Hl'|]. apply Forall_forall. intros y Hy. apply (Hstart y). set_solver.
      * constructor; [simpl; lia|apply Hl'].
    + unfold checked_sub_u128, checked_add_u128, u128_max.
      rewrite (proj2 (Z.leb_le cs ce)) by lia. simpl. rewrite (proj2 (Z.leb_le (ce - cs + 1) _)) by lia.
      simpl. rewrite (proj2 (Z.leb_le (occ + _) _)) by lia. simpl.
      rewrite (IH (occ + (ce - cs + 1))); [|done|by constructor|done|lia].
      rewrite (count_below_ext (λ i, cs ≤ i ≤ ce ∨ covered ((s, e) :: l) i)
                 (λ i, cs ≤ i ≤ ce ∨ (s ≤ i ≤ e ∨ covered l i)))
        by (intros i _; by rewrite covered_cons).
      rewrite (count_below_disjoint (λ i, cs ≤ i ≤ ce) (λ i, s ≤ i ≤ e ∨ covered l i)),
        count_below_interval; [f_equal; lia|lia|lia|].
      intros i ? [?|(y & Hy & ?)]; [lia|specialize (Hstart' y Hy); lia].
Qed.

(** ** Linknets *)

Section Linknets.
Context `{I : IpNetworks}.

(** The prefix [u] has an address of the linknet [i] of [parent]. *)
Definition touches (parent : IpNetwork) (size i : Z) (u : IpNetwork) : bool :=
  bool_decide (net_v6 u = net_v6 parent) && (network u <=? network parent + i * size + size - 1) &&
  (network parent + i * size <=? broadcast u).

Definition linknet_free (parent : IpNetwork) (size : Z) (used : list IpNetwork) (i : Z) : Prop :=
  Forall (λ u, touches parent size i u = false) used.

#[export] Instance linknet_free_dec parent size used i : Decision (linknet_free parent size used i).
Proof. unfold linknet_free. apply _. Defined.

Lemma linknet_not_free parent size used i :
  ¬ linknet_free parent size used i ↔ ∃ u, u ∈ used ∧ touches parent size i u = true.
Proof.
  unfold linknet_free. split.
  - intros (u & Hu & Ht)%not_Forall_Exists%Exists_exists; [|apply _].
    exists u. split; [done|]. by apply not_false_iff_true.
  - intros (u & Hu & Ht) Hf. rewrite Forall_forall in Hf. specialize (Hf u Hu). congruence.
Qed.

Lemma checked_shl_ok n : 0 ≤ n < 128 → checked_shl_u128 1 n = Some (2 ^ n).
Proof.
  intros Hn. unfold checked_shl_u128. rewrite (proj2 (Z.ltb_lt n 128)) by lia.
  rewrite Z.shiftl_mul_pow2, Z.mul_1_l by lia. rewrite Z.mod_small; [done|].
  split; [lia|]. apply Z.pow_lt_mono_r; lia.
Qed.

Lemma checked_sub_ok a b : b ≤ a → checked_sub_u128 a b = Some (a - b).
Proof. intros H. unfold checked_sub_u128. by rewrite (proj2 (Z.leb_le b a)). Qed.

(** The intervals of the children lie below [n], if [n] children cover the parent. *)
Lemma occupied_interval_bounds parent size n u x :
  0 < size → 1 ≤ n → net_size parent ≤ n * size →
  occupied_interval parent size u = Some x → 0 ≤ x.1 ≤ x.2 ∧ x.2 < n.
Proof.
  intros Hs Hn Hcover. unfold occupied_interval. case_bool_decide; [|done].
  destruct (Z.leb_spec (Z.max (network u) (network parent)) (Z.min (broadcast u) (broadcast parent)));
    [|done].
  intros [= <-]. simpl. pose proof (broadcast_size parent). split.
  - split; [apply Z.div_pos; lia|]. apply Z.div_le_mono; lia.
  - apply Z.div_lt_upper_bound; lia.
Qed.

Lemma occupied_interval_touches parent size n u i :
  0 < size → net_size parent = n * size → 0 ≤ i < n →
  (∃ x, occupied_interval parent size u = Some x ∧ x.1 ≤ i ≤ x.2) ↔ touches parent size i u = true.
Proof.
  intros Hs Hsize Hi. unfold occupied_interval, touches. pose proof (broadcast_size parent) as Hb.
  pose proof (broadcast_size u) as Hbu. pose proof (net_size_pos u).
  rewrite !andb_true_iff, !Z.leb_le, bool_decide_eq_true.
  set (ps := network parent) in *. case_bool_decide; [|split; [by intros (? & ? & _)|tauto]].
  set (a := Z.max (network u) ps). set (b := Z.min (broadcast u) (broadcast parent)).
  assert (i * size + size ≤ n * size) by nia. assert (0 ≤ i * size) by nia.
  split.
  - destruct (Z.leb_spec a b); [|by intros (? & ? & _)]. intros (x & [= <-] & Ha & Hb'). simpl in *.
    assert (a - ps < i * size + size).
    { pose proof (Z.mul_succ_div_gt (a - ps) size Hs). nia. }
    assert (i * size ≤ b - ps). { pose proof (Z.mul_div_le (b - ps) size Hs). nia. }
    unfold a, b in *. split_and!; [done|lia|lia].
  - intros [[_ Hlo] Hhi]. rewrite (proj2 (Z.leb_le a b)) by (unfold a, b; lia).
    eexists. split; [done|]. simpl. split.
    + enough ((a - ps) / size < i + 1) by lia. apply Z.div_lt_upper_bound; unfold a; lia.
    + apply Z.div_le_lower_bound; unfold b; lia.
Qed.

Section Parent.
Context (parent : IpNetwork) (len : Z).
Notation bits := (family_bits (net_v6 parent)).
Notation size := (2 ^ (bits - len)).
Hypothesis Hlen : 0 ≤ len ≤ bits.
Hypothesis Hwidth : bits - len < 128.

Lemma intervals_eq used :
  occupied_prefix_intervals parent len used =
  Some (merge_sort interval_le (omap (occupied_interval parent size) used)).
Proof using Hlen Hwidth.
  unfold occupied_prefix_intervals. rewrite checked_sub_ok by lia. simpl. by rewrite checked_shl_ok by lia.
Qed.

Lemma intervals_wf used n :
  1 ≤ n → n ≤ 2 ^ 127 → net_size parent ≤ n * size →
  let l := merge_sort interval_le (omap (occupied_interval parent size) used) in
  intervals_ok l ∧ Forall (λ x, x.2 < n) l.
Proof using Hlen.
  intros Hn Hn' Hcover l. pose proof (pow2_pos (bits - len) ltac:(lia)) as Hs.
  assert (Hall : Forall (λ x, 0 ≤ x.1 ≤ x.2 ∧ x.2 < n) l).
  { apply Forall_forall. intros x Hx. unfold l in Hx. rewrite merge_sort_Permutation in Hx.
    apply list_elem_of_omap in Hx as (u & _ & Hu). by eapply (occupied_interval_bounds parent size n u). }
  split; [split|].
  - apply (StronglySorted_weaken interval_le); [unfold interval_le; lia|].
    apply StronglySorted_merge_sort; apply _.
  - eapply Forall_impl; [exact Hall|]. unfold u128_max. intros x ?. simpl in *. lia.
  - eapply Forall_impl; [exact Hall|]. intros x ?. simpl in *. lia.
Qed.

Lemma covered_touches used n i :
  net_size parent = n * size → 0 ≤ i < n →
  covered (merge_sort interval_le (omap (occupied_interval parent size) used)) i ↔
  ¬ linknet_free parent size used i.
Proof using Hlen.
  intros Hsize Hi. pose proof (pow2_pos (bits - len) ltac:(lia)) as Hs.
  rewrite (covered_perm _ _ i (merge_sort_Permutation _ _)), linknet_not_free. unfold covered.
  setoid_rewrite list_elem_of_omap. setoid_rewrite <- (occupied_interval_touches parent size n _ i Hs Hsize Hi).
  naive_solver.
Qed.
End Parent.

(** ** The search for a free linknet *)

(** The two searches of [next_free_prefix]: from the cursor to the last index, then
    from the first one up to the cursor *)
Lemma next_fit_spec l start total :
  intervals_ok l → 0 ≤ start < total →
  match match first_unoccupied_index l start (total - 1) with
        | Some i => Some i
        | None => range_end ← checked_sub_u128 start 1; first_unoccupied_index l 0 range_end
        end with
  | Some k => 0 ≤ k < total ∧ ¬ covered l k ∧
      ∀ j, 0 ≤ j < (k - start) mod total → covered l ((start + j) mod total)
  | None => ∀ i, 0 ≤ i < total → covered l i
  end.
Proof using Type.
  intros Hl Hst. unfold first_unoccupied_index at 1. rewrite (proj2 (Z.ltb_ge _ _)) by lia.
  pose proof (unoccupied_from_spec l start (total - 1) Hl ltac:(lia)) as H1.
  destruct (unoccupied_from l start (total - 1)) as [k|].
  - destruct H1 as (Hk & Hn & Hc). split_and!; [lia..|done|]. intros j Hj.
    rewrite Z.mod_small in Hj by lia. rewrite Z.mod_small by lia. apply Hc. lia.
  - unfold checked_sub_u128. destruct (Z.leb_spec 1 start); simpl.
    + unfold first_unoccupied_index. rewrite (proj2 (Z.ltb_ge _ _)) by lia.
      pose proof (unoccupied_from_spec l 0 (start - 1) Hl ltac:(lia)) as H2.
      destruct (unoccupied_from l 0 (start - 1)) as [k|].
      * destruct H2 as (Hk & Hn & Hc). split_and!; [lia..|done|]. intros j Hj.
        replace (k - start) with (k - start + total + -1 * total) in Hj by lia.
        rewrite Z_mod_plus_full, Z.mod_small in Hj by lia.
        destruct (decide (start + j < total)).
        -- rewrite Z.mod_small by lia. apply H1. lia.
        -- replace (start + j) with (start + j - total + 1 * total) by lia.
           rewrite Z_mod_plus_full, Z.mod_small by lia. apply Hc. lia.
      * intros i Hi. destruct (decide (i < start)); [apply H2|apply H1]; lia.
    + intros i Hi. apply H1. lia.
Qed.

Lemma new_allocator_ok id vpc last len a :
  new_allocator id vpc last len = Ok a →
  a = mk_prefix_allocator id vpc last len ∧
  net_prefix vpc ≤ len ≤ family_bits (net_v6 vpc) ∧ family_bits (net_v6 vpc) - len < 128.
Proof using Type.
  unfold new_allocator. pose proof (net_prefix_range vpc) as Hr.
  destruct (Z.ltb_spec (family_bits (net_v6 vpc)) len); [done|].
  destruct (Z.leb_spec len (net_prefix vpc)) as [Hle|]; simpl;
    [|intros [= <-]; split; [done|destruct (net_v6 vpc); simpl in *; lia]].
  destruct (net_v6 vpc); simpl in *; [done|].
  destruct (Z.eqb_spec (net_prefix vpc) 31), (Z.eqb_spec len 31); simpl; try done.
  intros [= <-]. split; [done|lia].
Qed.

Section Grid.
Context (vpc : IpNetwork) (len : Z).
Notation bits := (family_bits (net_v6 vpc)).
Notation size := (2 ^ (bits - len)).
Notation total := (2 ^ (len - net_prefix vpc)).
Hypothesis Hlen : net_prefix vpc ≤ len ≤ bits.

Lemma grid_size : net_size vpc = total * size.
Proof using Hlen. unfold net_size. rewrite <- Z.pow_add_r by lia. f_equal. lia. Qed.

(** The linknet [k] as the allocator builds it. *)
Lemma grid_linknet k (e e' : CarbideError) :
  0 ≤ k < total →
  ∃ p, (address ← ok_or (offset ← checked_mul_u128 k size; checked_add_u128 (network vpc) offset) e;
        map_err (λ _, e') (net_make (net_v6 vpc) (u128_to_ip address (net_v6 vpc)) len)) = Ok p ∧
    net_v6 p = net_v6 vpc ∧ net_prefix p = len ∧ net_ip p = network vpc + k * size ∧
    network p = network vpc + k * size ∧ broadcast p = network vpc + k * size + size - 1.
Proof using Hlen.
  intros Hk. pose proof (net_prefix_range vpc) as Hr. pose proof grid_size as Hg.
  pose proof (network_bounds vpc) as [Hn0 Hn1]. pose proof (pow2_pos (bits - len) ltac:(lia)) as Hs.
  assert (k * size + size ≤ net_size vpc) by (rewrite Hg; nia). assert (0 ≤ k * size) by nia.
  assert (2 ^ bits ≤ 2 ^ 128) by (destruct (net_v6 vpc); simpl; lia).
  unfold checked_mul_u128, checked_add_u128, u128_max.
  rewrite (proj2 (Z.leb_le (k * size) _)) by lia. simpl.
  rewrite (proj2 (Z.leb_le (network vpc + _) _)) by lia. simpl.
  assert (u128_to_ip (network vpc + k * size) (net_v6 vpc) = network vpc + k * size) as ->.
  { unfold u128_to_ip. destruct (net_v6 vpc); [done|]. simpl in *. apply Z.mod_small. lia. }
  destruct (net_make_ok (net_v6 vpc) (network vpc + k * size) len) as (p & -> & Hv & Hi & Hp); [lia..|].
  assert (net_size p = size) as Hps by (unfold net_size; by rewrite Hv, Hp).
  assert (network p = network vpc + k * size) as Hnp.
  { rewrite network_of_aligned; [done|]. rewrite Hps, Hi, Z.mod_add by lia.
    pose proof (network_aligned vpc) as Ha. rewrite Hg in Ha.
    apply Z.mod_divide in Ha as [c ->]; [|nia]. rewrite Z.mul_assoc. apply Z.mod_mul. lia. }
  exists p. split_and!; try done. rewrite broadcast_size, Hnp, Hps. lia.
Qed.

Lemma grid_overlaps p k u :
  net_v6 p = net_v6 vpc → network p = network vpc + k * size →
  broadcast p = network vpc + k * size + size - 1 → overlaps u p = touches vpc size k u.
Proof using Type.
  intros Hv Hn Hb. unfold overlaps, touches. by rewrite Hv, Hn, Hb, <- !andb_assoc, (andb_comm (_ <=? _)).
Qed.

Lemma grid_within p k :
  0 ≤ k < total → net_v6 p = net_v6 vpc → network p = network vpc + k * size →
  broadcast p = network vpc + k * size + size - 1 → within p vpc = true.
Proof using Hlen.
  intros Hk Hv Hn Hb. pose proof (net_prefix_range vpc). pose proof (pow2_pos (bits - len) ltac:(lia)).
  unfold within. rewrite !andb_true_iff, bool_decide_eq_true, !Z.leb_le, Hv, Hn, Hb, broadcast_size, grid_size.
  split_and!; [done|nia|nia].
Qed.
End Grid.

Lemma next_free_prefix_exact id vpc last len a used
    (Hnew : new_allocator id vpc last len = Ok a)
    (Hwidth : len - net_prefix vpc < 128) :
  let size := 2 ^ (family_bits (net_v6 vpc) - len) in
  let total := 2 ^ (len - net_prefix vpc) in
  let start := start_index a size total in
  match next_free_prefix a used with
  | Ok p => ∃ k, 0 ≤ k < total ∧ net_ip p = network vpc + k * size ∧ net_prefix p = len ∧
      within p vpc = true ∧ Forall (λ u, overlaps u p = false) used ∧
      ∀ j, 0 ≤ j < (k - start) mod total → ¬ linknet_free vpc size used ((start + j) mod total)
  | Err e => (∃ m, e = ResourceExhausted m) ∧
      ∀ k, 0 ≤ k < total → ¬ linknet_free vpc size used k
  end.
Proof using Type.
  intros size total start. apply new_allocator_ok in Hnew as (-> & Hlen & Hhost).
  pose proof (net_prefix_range vpc) as Hr. pose proof (pow2_pos (len - net_prefix vpc) ltac:(lia)) as Ht.
  fold total in Ht. unfold next_free_prefix. simpl. fold size.
  rewrite !checked_sub_ok by lia. simpl. rewrite checked_shl_ok by lia. simpl. fold total.
  rewrite checked_shl_ok by lia. simpl. rewrite intervals_eq by lia. simpl.
  fold total. rewrite (checked_sub_ok total 1) by lia. simpl. fold size start. set (l := merge_sort _ _).
  assert (Hl : intervals_ok l).
  { apply (intervals_wf vpc len ltac:(lia) used total); [lia| |by rewrite (grid_size vpc len Hlen)].
    apply Z.pow_le_mono_r; lia. }
  assert (Hcov : ∀ i, 0 ≤ i < total → covered l i ↔ ¬ linknet_free vpc size used i).
  { intros i. apply covered_touches; [lia|]. by apply grid_size. }
  assert (Hst : 0 ≤ start < total).
  { unfold start, start_index. simpl. repeat case_match; try lia. apply Z.mod_pos_bound. lia. }
  pose proof (next_fit_spec l start total Hl Hst) as Hfit.
  destruct (match first_unoccupied_index l start (total - 1) with Some i => Some i | None => _ end) as [k|];
    simpl.
  - destruct Hfit as (Hk & Hn & Hc).
    destruct (grid_linknet vpc len Hlen k (Internal "allocated linknet index overflowed VPC prefix")
                (Internal "unable to construct allocated linknet"))
      as (p & Hp & Hv & Hpl & Hi & Hnet & Hb); [done|].
    unfold size in Hp |- *. rewrite Hp. exists k. fold size. split_and!; try done; [lia..| | |].
    + by apply (grid_within vpc len Hlen p k).
    + apply Forall_forall. intros u Hu. rewrite (grid_overlaps vpc len p k u Hv Hnet Hb).
      apply not_true_is_false. intros Ht'. apply Hn, Hcov, linknet_not_free; [done|eauto].
    + intros j Hj. apply Hcov; [by apply Z.mod_pos_bound|]. by apply Hc.
  - split; [by eauto|]. intros k Hk. by apply Hcov, Hfit.
Qed.

(** C27: The search for a linknet is exact.  For every allocator that was built and
    whose linknets fit in a machine integer, it returns a linknet of the VPC prefix
    that overlaps no used prefix and is the first free one in cyclic order after the
    cursor; it fails only with [ResourceExhausted], and only when every linknet of the
    VPC prefix overlaps a used prefix. *)
Theorem next_free_prefix_spec id vpc last len a used
    (Hnew : new_allocator id vpc last len = Ok a)
    (Hwidth : len - net_prefix vpc < 128) :
  let size := 2 ^ (family_bits (net_v6 vpc) - len) in
  let total := 2 ^ (len - net_prefix vpc) in
  let start := start_index a size total in
  match next_free_prefix a used with
  | Ok p => ∃ k, 0 ≤ k < total ∧ net_ip p = network vpc + k * size ∧ net_prefix p = len ∧
      within p vpc = true ∧ Forall (λ u, overlaps u p = false) used ∧
      ∀ j, 0 ≤ j < (k - start) mod total → ¬ linknet_free vpc size used ((start + j) mod total)
  | Err e => (∃ m, e = ResourceExhausted m) ∧
      ∀ k, 0 ≤ k < total → ¬ linknet_free vpc size used k
  end.
Proof using Type. exact (next_free_prefix_exact id vpc last len a used Hnew Hwidth). Qed.

(** ** Capacity *)

Lemma occupied_prefix_count_eq parent len used n :
  0 ≤ len ≤ family_bits (net_v6 parent) → family_bits (net_v6 parent) - len < 128 →
  1 ≤ n ≤ 2 ^ 127 → net_size parent ≤ n * 2 ^ (family_bits (net_v6 parent) - len) →
  occupied_prefix_count parent len used =
  Some (count_below n (covered (merge_sort interval_le
          (omap (occupied_interval parent (2 ^ (family_bits (net_v6 parent) - len))) used)))).
Proof using Type.
  intros Hlen Hw Hn Hc. unfold occupied_prefix_count. rewrite intervals_eq by lia. simpl.
  destruct (intervals_wf parent len Hlen used n) as [Hok Hb]; [lia..|done|].
  set (l := merge_sort _ _) in *. clearbody l. destruct l as [|[s e] l].
  - unfold count_below. rewrite filter_nil_of; [done|]. intros i _. apply not_covered_nil.
  - rewrite (union_count_spec n); [|done|done|lia|split; [lia|]; by apply intervals_ok_cons in Hok as (_ & [? _] & _)].
    rewrite Z.add_0_l. f_equal. apply count_below_ext. intros i _. by rewrite covered_cons.
Qed.

Lemma count_below_bounds n (P : Z → Prop) `{∀ i, Decision (P i)} : 0 ≤ count_below n P ≤ Z.max 0 n.
Proof using Type.
  unfold count_below. pose proof (length_filter P (seqZ 0 n)) as Hl. rewrite length_seqZ in Hl. lia.
Qed.

Lemma total_linknets_cases vpc :
  let len := if net_v6 vpc then 127 else 31 in
  net_prefix vpc ≤ len ∧ total_linknets vpc = 2 ^ (len - net_prefix vpc) ∨
  len ≤ net_prefix vpc ∧ total_linknets vpc = 0.
Proof using Type.
  intros len. unfold total_linknets. fold len.
  destruct (Z.ltb_spec (net_prefix vpc) len); simpl.
  - left. split; [lia|]. rewrite Z.shiftl_mul_pow2; lia.
  - destruct (negb (net_v6 vpc) && (net_prefix vpc =? len)) eqn:E; [left|by right].
    apply andb_true_iff in E as [_ ->%Z.eqb_eq]. split; [lia|]. by rewrite Z.sub_diag.
Qed.

(** The capacity figures of a VPC prefix are exact, for both families and all
    lengths and without overflow: the available linknets are the ones that overlap no
    occupied prefix, counted without enumerating them; only the final conversions to
    the field widths saturate. *)
Theorem update_stats_exact vpc used :
  let size := 2 ^ (family_bits (net_v6 vpc) - (if net_v6 vpc then 127 else 31)) in
  let total := total_linknets vpc in
  let available := count_below total (linknet_free vpc size used) in
  update_stats vpc used =
  Some (mk_stats (if net_v6 vpc then 0 else clamp u32_max total)
          (if net_v6 vpc then 0 else clamp u32_max available)
          (clamp u64_max total) (clamp u64_max available)).
Proof using Type.
  intros size total available. pose proof (net_prefix_range vpc) as Hr.
  unfold update_stats. fold total. set (len := if net_v6 vpc then 127 else 31) in *.
  set (bits := family_bits (net_v6 vpc)) in *.
  assert (Hlen : bits = len + 1 ∧ 31 ≤ len ≤ 127) by (unfold bits, len; destruct (net_v6 vpc); simpl; lia).
  destruct Hlen as [Hbits Hlen]. assert (size = 2) as Hsize by (unfold size; by rewrite Hbits, Z.add_simpl_l).
  pose proof (total_linknets_cases vpc) as Hcases. fold total len bits in Hcases.
  assert (∃ c, occupied_prefix_count vpc len used = Some c ∧ saturating_sub total c = available) as (c & -> & <-).
  { destruct Hcases as [(Hle & Ht)|(Hge & Ht)].
    - rewrite (occupied_prefix_count_eq vpc len used total); fold bits; [|lia|lia| |].
      + eexists. split; [done|]. unfold saturating_sub, available. fold size.
        rewrite (count_below_ext (covered _) (λ i, ¬ linknet_free vpc size used i)).
        * rewrite count_below_not by lia. pose proof (count_below_bounds total (linknet_free vpc size used)). lia.
        * intros i Hi. apply (covered_touches vpc len ltac:(fold bits; lia) used total); [|done].
          rewrite Ht. apply grid_size. fold bits. lia.
      + rewrite Ht. split; [pose proof (pow2_pos (len - net_prefix vpc)); lia|].
        apply Z.pow_le_mono_r; lia.
      + rewrite Ht. rewrite (grid_size vpc len); [done|fold bits; lia].
    - rewrite (occupied_prefix_count_eq vpc len used 1); fold bits; [|lia|lia|lia|].
      + eexists. split; [done|]. unfold available. rewrite Ht. unfold saturating_sub, count_below at 2. simpl.
        pose proof (count_below_bounds 1 (covered (merge_sort interval_le
          (omap (occupied_interval vpc (2 ^ (bits - len))) used)))). lia.
      + unfold net_size. fold bits. rewrite Z.mul_1_l. apply Z.pow_le_mono_r; lia. }
  simpl. by destruct (net_v6 vpc).
Qed.

(** ** Requested prefixes *)

Lemma networks_overlap_eq a b : networks_overlap a b = overlaps a b.
Proof using Type.
  unfold networks_overlap, overlaps. rewrite !net_contains_ip_spec. simpl.
  pose proof (net_size_pos a). pose proof (net_size_pos b). rewrite !broadcast_size.
  rewrite (bool_decide_ext (net_v6 b = net_v6 a) (net_v6 a = net_v6 b)) by done.
  case_bool_decide; [|done]. simpl. apply eq_true_iff_eq.
  rewrite orb_true_iff, !andb_true_iff, !Z.leb_le. lia.
Qed.

(** A requested prefix that is accepted and is no wider than the VPC prefix lies
    inside it and overlaps no used prefix. *)
Lemma validate_desired_prefix_ok print a used p :
  validate_desired_prefix print a used p = Ok () → net_prefix (pa_vpc_prefix a) ≤ net_prefix p →
  within p (pa_vpc_prefix a) = true ∧ Forall (λ u, overlaps u p = false) used.
Proof using Type.
  unfold validate_desired_prefix. intros H Hle. set (vpc := pa_vpc_prefix a) in *.
  destruct (net_contains_ip _ _) eqn:Hc; [|done]. simpl in H.
  destruct (existsb _ _) eqn:Hex; [done|]. split.
  - rewrite net_contains_ip_spec in Hc. simpl in Hc.
    apply andb_true_iff in Hc as [[Hv%bool_decide_eq_true Hlo%Z.leb_le]%andb_true_iff Hhi%Z.leb_le].
    unfold within. rewrite bool_decide_eq_true_2 by done. simpl.
    pose proof (net_prefix_range p) as Hr.
    assert (net_size vpc = net_size p * 2 ^ (net_prefix p - net_prefix vpc)) as Hs.
    { unfold net_size. rewrite <- Hv in Hr. rewrite Hv, <- Z.pow_add_r by (rewrite <- ?Hv; lia). f_equal. lia. }
    pose proof (pow2_pos (net_prefix p - net_prefix vpc) ltac:(lia)). pose proof (net_size_pos p).
    pose proof (blocks_nested_or_disjoint (network vpc) (network p) (net_size p)
                  (2 ^ (net_prefix p - net_prefix vpc))) as Hb.
    rewrite <- Hs in Hb. rewrite !broadcast_size in *.
    destruct Hb as [?|[?|?]]; [lia|lia|apply network_aligned|apply network_aligned|..];
      [|lia|lia]. rewrite !(proj2 (Z.leb_le _ _)); [done|lia|lia].
  - rewrite <- not_true_iff_false, existsb_exists in Hex. apply Forall_forall. intros u Hu.
    apply not_true_is_false. intros Ho. apply Hex. exists u. rewrite networks_overlap_eq.
    split; [|done]. by apply list_elem_of_In.
Qed.
End Linknets.

(** ** Concrete prefixes *)

Module LinknetExamples.
#[export] Existing Instance ref_ipnetworks.

Definition v4 (a b c d len : Z) : IpNetwork := ref_network false (((a * 256 + b) * 256 + c) * 256 + d) len.

Definition vpc : IpNetwork := v4 10 0 0 0 29.
Definition used : list IpNetwork := [v4 10 0 0 6 31; v4 10 0 0 0 32; v4 172 16 0 0 12].

Definition allocator (cursor : option IpNetwork) : result CarbideError PrefixAllocator :=
  new_allocator "p" vpc cursor 31.

Definition next (cursor : option IpNetwork) (used : list IpNetwork) : result CarbideError (Z * Z) :=
  a ← allocator cursor; p ← next_free_prefix a used; Ok (net_ip p - net_ip vpc, net_prefix p).
End LinknetExamples.

Section Examples.
Import LinknetExamples.

(** The cursor is at the third of four linknets; the last and the first are used. *)
Lemma next_free_prefix_spec_witness :
  let a := mk_prefix_allocator "p" vpc (Some (v4 10 0 0 4 31)) 31 in
  new_allocator "p" vpc (Some (v4 10 0 0 4 31)) 31 = Ok a ∧
  next (Some (v4 10 0 0 4 31)) used = Ok (2, 31) ∧
  ∃ p k, next_free_prefix a used = Ok p ∧ net_ip p = network vpc + k * 2 ^ (32 - 31) ∧
    Forall (λ u, overlaps u p = false) used.
Proof.
  intros a. assert (Hnew : new_allocator "p" vpc (Some (v4 10 0 0 4 31)) 31 = Ok a) by reflexivity.
  split; [exact Hnew|]. split; [vm_compute; reflexivity|].
  pose proof (next_free_prefix_spec "p" vpc (Some (v4 10 0 0 4 31)) 31 a used Hnew) as H.
  destruct (next_free_prefix a used) as [p|e] eqn:E; [|vm_compute in E; discriminate E].
  destruct H as (k & _ & Hip & _ & _ & Hf & _); [vm_compute; reflexivity|].
  exists p, k. split; [reflexivity|]. split; [exact Hip|exact Hf].
Defined.

(** Two of four linknets are free. *)
Lemma update_stats_exact_witness :
  update_stats vpc used = Some (mk_stats 4 2 4 2) ∧ count_below 4 (linknet_free vpc 2 used) = 2.
Proof.
  assert (E : update_stats vpc used = Some (mk_stats 4 2 4 2)) by (vm_compute; reflexivity).
  split; [exact E|]. pose proof (update_stats_exact vpc used) as H. cbv zeta in H. rewrite E in H.
  change (total_linknets vpc) with 4 in H. change (net_v6 vpc) with false in H.
  apply (f_equal (from_option available_linknet_segments 0)) in H. simpl in H.
  change (2 ^ (32 - 31)) with 2 in H. unfold clamp in H.
  destruct (Z.leb_spec (count_below 4 (linknet_free vpc 2 used)) u64_max); [symmetry; exact H|].
  unfold u64_max in H. lia.
Defined.

(** The comment on [validate_desired_prefix] says that a prefix that is bigger than the
    VPC prefix is rejected; only its first address is looked at. *)
Lemma validate_accepts_wider_prefix :
  let a := mk_prefix_allocator "p" (v4 10 0 0 0 24) None 31 in
  validate_desired_prefix (λ _, EmptyString) a [] (v4 10 0 0 0 16) = Ok () ∧
  within (v4 10 0 0 0 16) (v4 10 0 0 0 24) = false.
Proof. vm_compute. done. Qed.
End Examples.
