(* ===== verification/PrefixAllocation.v ===== *)
(** * The allocation of linknets to the interfaces of instances
      ([crates/api-core/src/instance/mod.rs], lines 71 to 1258)

    A batch of instances asks for linknets, from VPC prefixes it names or from any
    prefix of a VPC.  The request is planned into work items, and the items are
    executed grouped by VPC and family and, in a group, in ascending order of the
    candidate prefixes, each of which is locked while it is used.

    The transaction is a state monad over [World].  Before each statement other
    connections may commit anything ([others]), and the statement may fail ([fault]).
    A savepoint keeps the contents to return to; what others commit is seen from there
    too.  Ids are drawn from a supply; a duplicate violates the primary key.  Messages
    of errors are shortened. *)

From S2P Require Import Prelude Ordered IpNetwork VpcCapability ConfigVersion StateHistory ControllerTable.
From S2P Require Import NetworkSegment VpcPrefix LinknetAllocator.

(** ** Data *)

Inductive AllocationAddressFamily := Ipv4 | Ipv6.

#[export] Instance AllocationAddressFamily_eq_dec : EqDecision AllocationAddressFamily.
Proof. solve_decision. Defined.

Definition family_cmp (a b : AllocationAddressFamily) : comparison :=
  match a, b with
  | Ipv4, Ipv6 => Lt
  | Ipv6, Ipv4 => Gt
  | _, _ => Eq
  end.

(** [linknet_prefix] *)
Definition linknet_prefix (f : AllocationAddressFamily) : Z := match f with Ipv4 => 31 | Ipv6 => 127 end.
Definition family_name (f : AllocationAddressFamily) : string :=
  match f with Ipv4 => "IPv4" | Ipv6 => "IPv6" end.

Inductive InstanceInterfaceIpFamilyMode := Ipv4Only | Ipv6Only | DualStack.

#[export] Instance InstanceInterfaceIpFamilyMode_eq_dec : EqDecision InstanceInterfaceIpFamilyMode.
Proof. solve_decision. Defined.

Inductive NetworkDetails :=
| NetworkSegmentRef (id : string)
| VpcPrefixId (id : string).

Record Ipv6InterfaceConfig := mk_ipv6_config {
  v6_vpc_prefix_id : string;
  v6_requested_ip_addr : option Z;
}.

Record InstanceInterfaceVpcSelection := mk_selection {
  sel_vpc_id : string;
  family_mode : InstanceInterfaceIpFamilyMode;
}.

(** [InstanceInterfaceConfig], the fields the allocation reads or writes *)
Record InstanceInterfaceConfig := mk_interface {
  network_details : option NetworkDetails;
  vpc_selection : option InstanceInterfaceVpcSelection;
  network_segment_id : option string;
  ip_addrs : list (string * (bool * Z));
  requested_ip_addr : option (bool * Z);
  ipv6_interface_config : option Ipv6InterfaceConfig;
  if_vpc_id : option string;
}.

Record NetworkAllocationTarget := mk_target {
  interfaces : list InstanceInterfaceConfig;
  tenant : string;
}.

Inductive PrefixAllocationSlot := Primary | SecondaryIpv6.

Inductive PrefixAllocationOperation :=
| Create
| Attach (segment : string).

Inductive CandidateAllocationOutcome :=
| Allocated (segment : option string)
| Exhausted
| Deleted.

Inductive CandidateUnavailable := UnavailableExhausted | UnavailableDeleted.

(** [requested_families] *)
Definition requested_families (mode : InstanceInterfaceIpFamilyMode) : list AllocationAddressFamily :=
  match mode with
  | Ipv4Only => [Ipv4]
  | Ipv6Only => [Ipv6]
  | DualStack => [Ipv4; Ipv6]
  end.

(** [interface_needs_prefix_allocation] *)
Definition interface_needs_prefix_allocation (i : InstanceInterfaceConfig) : bool :=
  match ip_addrs i with [] => true | _ => false end.

(** [vpc_supports_family] *)
Definition vpc_supports_family (t : VpcVirtualizationType) (f : AllocationAddressFamily) : bool :=
  match f with Ipv4 => supports_ipv4_prefix t | Ipv6 => supports_ipv6_prefix t end.

Definition from_address (a : bool * Z) : AllocationAddressFamily := if a.1 then Ipv6 else Ipv4.

(** [is_network_prefix_overlap_conflict] *)
Definition is_network_prefix_overlap_conflict (e : CarbideError) : bool :=
  match e with
  | DBError (Sqlx (Some c) _) => bool_decide (c = "network_prefixes_prefix_excl")
  | _ => false
  end.

Section Allocation.
Context `{I : IpNetworks} (print_net : IpNetwork → string) (print_ip : bool * Z → string).

Definition from_network (n : IpNetwork) : AllocationAddressFamily := if net_v6 n then Ipv6 else Ipv4.

Record PrefixAllocationWork := mk_work {
  target_index : nat;
  interface_index : nat;
  w_vpc_id : string;
  w_family : AllocationAddressFamily;
  candidates : list string;
  candidate_index : nat;
  slot : PrefixAllocationSlot;
  requested_prefix : option IpNetwork;
  automatic : bool;
}.

Record PrefixAllocationContext := mk_context {
  explicit_prefixes : gmap string VpcPrefix;
  automatic_candidates : list ((string * AllocationAddressFamily) * list string);
  context_vpcs : gmap string Vpc;
}.

(** The order of the groups *)
Definition group_cmp : string * AllocationAddressFamily → string * AllocationAddressFamily → comparison :=
  pair_cmp string_cmp family_cmp.

(** ** The transaction *)

Record Step := mk_step {
  others : net_db → net_db;
  fault : option string;
  clock : Z;
}.

Definition quiet : Step := mk_step (λ db, db) None 0.

(** [requests] are the locks asked for, oldest first. *)
Record World := mk_world {
  db : net_db;
  saved : list net_db;
  script : list Step;
  uuids : list string;
  requests : list (string * AllocationAddressFamily * string);
}.

Definition M (A : Type) : Type := World → result CarbideError A * World.

#[export] Instance M_ret : MRet M := λ A a w, (Ok a, w).
#[export] Instance M_bind : MBind M := λ A B f m w,
  match m w with
  | (Ok a, w) => f a w
  | (Err e, w) => (Err e, w)
  end.

Definition lift {A} (r : result CarbideError A) : M A := λ w, (r, w).

(** The time others have before a statement *)
Definition next_step (w : World) : Step * World :=
  let st := default quiet (head (script w)) in
  (st, mk_world (others st (db w)) (others st <$> saved w) (tail (script w)) (uuids w) (requests w)).

Definition statement {A} (f : Z → net_db → result DatabaseError (A * net_db)) : M A := λ w,
  let '(st, w) := next_step w in
  match fault st with
  | Some e => (Err (DBError (Sqlx None e)), w)
  | None =>
      match f (clock st) (db w) with
      | Ok (a, db) => (Ok a, mk_world db (saved w) (script w) (uuids w) (requests w))
      | Err e => (Err (DBError e), w)
      end
  end.

Definition read {A} (f : net_db → A) : M A := statement (λ _ db, Ok (f db, db)).
Definition write (f : Z → net_db → result DatabaseError net_db) : M () :=
  statement (λ c db, db ← f c db; Ok ((), db)).

Definition new_uuid : M string := λ w,
  (Ok (default EmptyString (head (uuids w))),
   mk_world (db w) (saved w) (script w) (tail (uuids w)) (requests w)).

(** Savepoints: [begin_inner], [commit] and [rollback] of [db::Transaction].  Both ends
    discard the savepoints inside, which a failed statement leaves open. *)
Definition savepoint {A} (f : World → A * World) : M A := λ w,
  let '(st, w) := next_step w in
  match fault st with
  | Some e => (Err (DBError (Sqlx None e)), w)
  | None => let '(a, w) := f w in (Ok a, w)
  end.

Definition begin_inner : M nat := savepoint (λ w,
  (length (saved w), mk_world (db w) (db w :: saved w) (script w) (uuids w) (requests w))).

Definition commit_inner (depth : nat) : M () := savepoint (λ w,
  ((), mk_world (db w) (drop (length (saved w) - depth) (saved w)) (script w) (uuids w) (requests w))).

Definition rollback_inner (depth : nat) : M () := savepoint (λ w,
  ((), mk_world (default (db w) (saved w !! (length (saved w) - S depth)%nat))
         (drop (length (saved w) - depth) (saved w)) (script w) (uuids w) (requests w))).

Definition catch {A} (m : M A) : M (result CarbideError A) := λ w, let '(r, w) := m w in (Ok r, w).

Definition request_lock (k : string * AllocationAddressFamily * string) : M () := λ w,
  (Ok (), mk_world (db w) (saved w) (script w) (uuids w) (requests w ++ [k])).

(** ** One candidate *)

(** [network_prefix::create_for] with one prefix; the id of the new row *)
Definition create_for (segment_id : string) (p : NewNetworkPrefix) : M string :=
  inner ← begin_inner;
  id ← new_uuid;
  _ ← write (λ _, insert_network_prefix id segment_id p);
  _ ← commit_inner inner;
  mret id.

(** The new network prefix of a linknet *)
Definition linknet_row (prefix : IpNetwork) : NewNetworkPrefix :=
  mk_new_network_prefix prefix (if net_v6 prefix then None else Some (false, network prefix))
    (generated_linknet_num_reserved prefix).

(** The ids of the prefixes of a segment *)
Definition prefixes_of_segment (segment_id : string) (db : net_db) : list string :=
  (filter (λ kv, np_segment_id kv.2 = segment_id) (map_to_list (network_prefixes db))).*1.

(** [network_segment::persist] and its final [find_by] *)
Definition persist_segment (id : string) (s : GeneratedSegment) (p : NewNetworkPrefix)
    (initial_state : NetworkSegmentControllerState) : M (list string) :=
  version ← statement (λ c db, db ← insert_segment c id s initial_state db; Ok (initial c, db));
  _ ← create_for id p;
  _ ← write (λ c db, Ok (set_segments (persist_history_row (network_segments db) c id version initial_state) db));
  statement (λ _ db, match rows (network_segments db) !! id with
                     | Some _ => Ok (prefixes_of_segment id db, db)
                     | None => Err RowNotFound
                     end).

(** [for prefix in .. { set_vpc_prefix(..)? }] *)
Fixpoint set_vpc_prefixes_of (ids : list string) (vpc_prefix_id : string) (vpc_prefix : IpNetwork) : M () :=
  match ids with
  | [] => mret ()
  | id :: ids =>
      _ ← write (λ _, set_vpc_prefix id vpc_prefix_id vpc_prefix);
      set_vpc_prefixes_of ids vpc_prefix_id vpc_prefix
  end.

(** [allocate_network_segment_for_prefix] *)
Definition allocate_network_segment_for_prefix (a : PrefixAllocator) (vpc_id : string)
    (prefix : IpNetwork) : M string :=
  segment_id ← new_uuid;
  let ns := mk_generated_segment ("vpc_prefix_" +:+ print_ip (net_v6 prefix, network prefix))
              (Some vpc_id) 9000 Tenant (Some false) in
  ids ← persist_segment segment_id ns (linknet_row prefix) NetworkSegment.Ready;
  _ ← set_vpc_prefixes_of ids (pa_vpc_prefix_id a) (pa_vpc_prefix a);
  mret segment_id.

(** [allocate_linknet_for_segment_with_prefix] *)
Definition allocate_linknet_for_segment_with_prefix (a : PrefixAllocator) (segment_id : string)
    (prefix : IpNetwork) : M () :=
  id ← create_for segment_id (linknet_row prefix);
  set_vpc_prefixes_of [id] (pa_vpc_prefix_id a) (pa_vpc_prefix a).

(** The linknet to allocate: the requested one, or the next free one, if there is one *)
Definition select_prefix (a : PrefixAllocator) (used : list IpNetwork) (requested : option IpNetwork)
    : result CarbideError (option IpNetwork) :=
  match requested with
  | Some p => _ ← validate_desired_prefix print_net a used p; Ok (Some p)
  | None =>
      match next_free_prefix a used with
      | Ok p => Ok (Some p)
      | Err (ResourceExhausted _) => Ok None
      | Err e => Err e
      end
  end.

(** [allocate_prefix_candidate_once] *)
Definition allocate_prefix_candidate_once (vpc_id : string) (family : AllocationAddressFamily)
    (vpc_prefix_id : string) (operation : PrefixAllocationOperation)
    (requested : option IpNetwork) : M CandidateAllocationOutcome :=
  _ ← request_lock (vpc_id, family, vpc_prefix_id);
  locked ← read (lock_for_allocation vpc_prefix_id);
  match locked with
  | None => mret Deleted
  | Some vpc_prefix =>
      if negb (bool_decide (vp_vpc_id vpc_prefix = vpc_id)) ||
         negb (bool_decide (from_network (vp_prefix vpc_prefix) = family)) then
        lift (Err (FailedPrecondition "VPC prefix no longer belongs to the requested allocation group"))
      else
        allocator ← lift (new_allocator vpc_prefix_id (vp_prefix vpc_prefix)
                            (last_used_prefix vpc_prefix) (linknet_prefix family));
        used ← read (find_allocation_occupancy vpc_prefix_id (vp_prefix vpc_prefix));
        allocated ← lift (select_prefix allocator used requested);
        match allocated with
        | None => mret Exhausted
        | Some prefix =>
            segment ← match operation with
                      | Create =>
                          segment_id ← allocate_network_segment_for_prefix allocator vpc_id prefix;
                          mret (Some segment_id)
                      | Attach segment_id =>
                          _ ← allocate_linknet_for_segment_with_prefix allocator segment_id prefix; mret None
                      end;
            _ ← write (λ _, update_last_used_prefix vpc_prefix_id prefix);
            mret (Allocated segment)
        end
  end.

(** The loop of [attempt_prefix_candidate] *)
Fixpoint candidate_attempts (n : nat) (vpc_id : string) (family : AllocationAddressFamily)
    (vpc_prefix_id : string) (operation : PrefixAllocationOperation)
    (requested : option IpNetwork) : M CandidateAllocationOutcome :=
  match n with
  | O => lift (Err (UnavailableError "allocation repeatedly raced with an overlapping network-prefix write"))
  | S n =>
      inner ← begin_inner;
      r ← catch (allocate_prefix_candidate_once vpc_id family vpc_prefix_id operation requested);
      match r with
      | Ok (Allocated segment) => _ ← commit_inner inner; mret (Allocated segment)
      | Ok outcome => _ ← rollback_inner inner; mret outcome
      | Err e =>
          _ ← rollback_inner inner;
          if is_network_prefix_overlap_conflict e
          then candidate_attempts n vpc_id family vpc_prefix_id operation requested
          else lift (Err e)
      end
  end.

Definition PREFIX_ALLOCATION_TOTAL_ATTEMPTS : nat := 2.

(** [attempt_prefix_candidate] *)
Definition attempt_prefix_candidate := candidate_attempts PREFIX_ALLOCATION_TOTAL_ATTEMPTS.

(** ** Work items *)

Definition set_candidate_index (n : nat) (w : PrefixAllocationWork) : PrefixAllocationWork :=
  mk_work (target_index w) (interface_index w) (w_vpc_id w) (w_family w) (candidates w) n (slot w)
    (requested_prefix w) (automatic w).

(** The queues of a group, by candidate *)
Notation queues := (list (string * list nat)).

Definition push_back (candidate : string) (i : nat) (pending : queues) : queues :=
  bmap_upsert string_cmp candidate (λ q, default [] q ++ [i]) pending.

(** [advance_prefix_work] *)
Definition advance_prefix_work (i : nat) (current : string) (unavailable : CandidateUnavailable)
    (works : list PrefixAllocationWork) (pending : queues)
    : result CarbideError (list PrefixAllocationWork * queues) :=
  work ← ok_or (works !! i) (Internal "prefix allocation work index is out of bounds");
  match unavailable, automatic work with
  | UnavailableDeleted, false =>
      Err (InvalidArgument "VPC prefix is marked for deletion and cannot be used for allocation")
  | _, _ =>
      let work := set_candidate_index (S (candidate_index work)) work in
      next ← ok_or (candidates work !! candidate_index work)
               (ResourceExhausted "no eligible VPC prefix could allocate an interface linknet");
      match string_cmp next current with
      | Gt => Ok (<[i := work]> works, push_back next i pending)
      | _ => Err (Internal "VPC prefix candidate order moved backward")
      end
  end.

(** The target and the interface of a work item *)
Definition interface_of (targets : list NetworkAllocationTarget) (w : PrefixAllocationWork)
    : result CarbideError (NetworkAllocationTarget * InstanceInterfaceConfig) :=
  target ← ok_or (targets !! target_index w) (Internal "network allocation target index is out of bounds");
  interface ← ok_or (interfaces target !! interface_index w) (Internal "network interface index is out of bounds");
  Ok (target, interface).

(** The interface after its linknet of the slot is allocated *)
Definition resolve_interface (i : InstanceInterfaceConfig) (w : PrefixAllocationWork)
    (vpc_prefix_id : string) (segment : option string) : result CarbideError InstanceInterfaceConfig :=
  match slot w with
  | Primary =>
      segment_id ← ok_or segment (Internal "primary VPC-prefix allocation did not create a network segment");
      Ok (mk_interface (Some (VpcPrefixId vpc_prefix_id)) (vpc_selection i) (Some segment_id) (ip_addrs i)
            (requested_ip_addr i) (ipv6_interface_config i) (Some (w_vpc_id w)))
  | SecondaryIpv6 =>
      let requested := ipv6_interface_config i ≫= v6_requested_ip_addr in
      Ok (mk_interface (network_details i) (vpc_selection i) (network_segment_id i) (ip_addrs i)
            (requested_ip_addr i) (Some (mk_ipv6_config vpc_prefix_id requested)) (if_vpc_id i))
  end.

(** [apply_prefix_resolution] *)
Definition apply_prefix_resolution (targets : list NetworkAllocationTarget) (w : PrefixAllocationWork)
    (vpc_prefix_id : string) (segment : option string) : result CarbideError (list NetworkAllocationTarget) :=
  '(target, interface) ← interface_of targets w;
  interface ← resolve_interface interface w vpc_prefix_id segment;
  Ok (<[target_index w := mk_target (<[interface_index w := interface]> (interfaces target)) (tenant target)]>
        targets).

(** ** The execution *)

(** The operation of the slot of a work item *)
Definition operation_of (targets : list NetworkAllocationTarget) (w : PrefixAllocationWork)
    : result CarbideError PrefixAllocationOperation :=
  match slot w with
  | Primary => Ok Create
  | SecondaryIpv6 =>
      '(_, interface) ← interface_of targets w;
      segment ← ok_or (network_segment_id interface)
                  (Internal "IPv6 allocation ran before its primary segment was created");
      Ok (Attach segment)
  end.

(** The loop over the work queued on one candidate *)
Fixpoint drain_candidate (candidate : string) (queue : list nat) (unavailable : option CandidateUnavailable)
    (works : list PrefixAllocationWork) (pending : queues) (targets : list NetworkAllocationTarget)
    : M (list PrefixAllocationWork * queues * list NetworkAllocationTarget) :=
  match queue with
  | [] => mret (works, pending, targets)
  | i :: queue =>
      match unavailable with
      | Some u =>
          '(works, pending) ← lift (advance_prefix_work i candidate u works pending);
          drain_candidate candidate queue unavailable works pending targets
      | None =>
          work ← lift (ok_or (works !! i) (Internal "prefix allocation work index is out of bounds"));
          operation ← lift (operation_of targets work);
          outcome ← attempt_prefix_candidate (w_vpc_id work) (w_family work) candidate operation
                      (requested_prefix work);
          match outcome with
          | Allocated segment =>
              targets ← lift (apply_prefix_resolution targets work candidate segment);
              drain_candidate candidate queue None works pending targets
          | Exhausted =>
              '(works, pending) ← lift (advance_prefix_work i candidate UnavailableExhausted works pending);
              drain_candidate candidate queue (Some UnavailableExhausted) works pending targets
          | Deleted =>
              '(works, pending) ← lift (advance_prefix_work i candidate UnavailableDeleted works pending);
              drain_candidate candidate queue (Some UnavailableDeleted) works pending targets
          end
      end
  end.

(** The loop over the candidates of a group: [pop_first] *)
Fixpoint drain_group (fuel : nat) (works : list PrefixAllocationWork) (pending : queues)
    (targets : list NetworkAllocationTarget) : M (list PrefixAllocationWork * list NetworkAllocationTarget) :=
  match pending with
  | [] => mret (works, targets)
  | (candidate, queue) :: pending =>
      match fuel with
      | O => lift (Err Unfinished)
      | S fuel =>
          '(works, pending, targets) ← drain_candidate candidate queue None works pending targets;
          drain_group fuel works pending targets
      end
  end.

(** The queues a group starts with *)
Fixpoint initial_queues (works : list PrefixAllocationWork) (indices : list nat) (pending : queues)
    : result CarbideError queues :=
  match indices with
  | [] => Ok pending
  | i :: indices =>
      work ← ok_or (works !! i) (Internal "prefix allocation work index is out of bounds");
      candidate ← ok_or (head (candidates work)) (Internal "prefix allocation work has no candidates");
      initial_queues works indices (push_back candidate i pending)
  end.

(** Every candidate of every work item is popped at most once. *)
Definition group_fuel (works : list PrefixAllocationWork) : nat :=
  sum_list_with (λ w, length (candidates w)) works.

Fixpoint run_groups (groups : list ((string * AllocationAddressFamily) * list nat))
    (works : list PrefixAllocationWork) (targets : list NetworkAllocationTarget)
    : M (list NetworkAllocationTarget) :=
  match groups with
  | [] => mret targets
  | (_, indices) :: groups =>
      pending ← lift (initial_queues works indices []);
      '(works, targets) ← drain_group (group_fuel works) works pending targets;
      run_groups groups works targets
  end.

(** The indexes of the work items by group *)
Definition group_works (works : list PrefixAllocationWork)
    : list ((string * AllocationAddressFamily) * list nat) :=
  group_by group_cmp (λ iw, (w_vpc_id iw.2, w_family iw.2)) fst (imap pair works).

(** [execute_prefix_allocations] *)
Definition execute_prefix_allocations (targets : list NetworkAllocationTarget)
    (works : list PrefixAllocationWork) : M (list NetworkAllocationTarget) :=
  run_groups (group_works works) works targets.
End Allocation.
