(* ===== verification/PrefixPlan.v ===== *)
(** * The planning of linknet allocations
      ([build_requested_linknet_prefix], [load_prefix_allocation_context],
      [plan_prefix_allocations] and [allocate_networks] of [crates/api-core/src/instance/mod.rs])

    What a batch of instances asks for is validated against the VPCs and the VPC
    prefixes it refers to and flattened into work items.  A set of ids is a sorted
    list, as a [BTreeSet] is. *)

From S2P Require Import Prelude Ordered IpNetwork VpcCapability ConfigVersion ControllerTable.
From S2P Require Import NetworkSegment VpcPrefix LinknetAllocator PrefixAllocation.

Section Plan.
Context `{I : IpNetworks} (print_net : IpNetwork → string) (print_ip : bool * Z → string).

(** [IpAddr::to_canonical]: an IPv4-mapped address becomes IPv4. *)
Definition to_canonical (a : bool * Z) : bool * Z :=
  if a.1 && (Z.shiftr a.2 32 =? 65535) then (false, a.2 mod 2 ^ 32) else a.

(** [build_requested_linknet_prefix] *)
Definition build_requested_linknet_prefix (ip : bool * Z) (linknet_prefix_len : Z)
    : result CarbideError IpNetwork :=
  if Z.land ip.2 1 =? 0 then
    Err (InvalidConfiguration "requested IP address must not have final host bit of 0")
  else
    let c := to_canonical ip in
    map_err (λ _, Internal "unable to create IP network") (net_make c.1 c.2 linknet_prefix_len).

(** ** The context *)

(** The ids an interface refers to: explicit prefixes, selected VPCs, and the selected
    VPCs that need candidates *)
Definition interface_ids (s : list string * list string * list string) (i : InstanceInterfaceConfig)
    : list string * list string * list string :=
  let ins := bset_insert string_cmp in
  let '(explicit, selected, needed) := s in
  match vpc_selection i with
  | Some selection =>
      (explicit, ins (sel_vpc_id selection) selected,
       if interface_needs_prefix_allocation i then ins (sel_vpc_id selection) needed else needed)
  | None =>
      let explicit := match network_details i with
                      | Some (VpcPrefixId id) => ins id explicit
                      | _ => explicit
                      end in
      let explicit := match ipv6_interface_config i with
                      | Some c => ins (v6_vpc_prefix_id c) explicit
                      | None => explicit
                      end in
      (explicit, selected, needed)
  end.

Definition target_ids (targets : list NetworkAllocationTarget) : list string * list string * list string :=
  foldl interface_ids ([], [], []) (targets ≫= interfaces).

(** Every named prefix exists and is not being deleted. *)
Fixpoint check_explicit (found : gmap string VpcPrefix) (ids : list string) : result CarbideError () :=
  match ids with
  | [] => Ok ()
  | id :: ids =>
      p ← ok_or (found !! id) (FailedPrecondition "VPC prefix does not exist");
      if is_marked_as_deleted p then
        Err (InvalidArgument "VPC prefix is marked for deletion and cannot be used for allocation")
      else check_explicit found ids
  end.

(** The candidates by VPC and family, in the order of the query *)
Definition group_candidates (found : list (string * VpcPrefix))
    : list ((string * AllocationAddressFamily) * list string) :=
  group_by group_cmp (λ kp, (vp_vpc_id kp.2, from_network (vp_prefix kp.2))) fst found.

(** The loading of what the ids refer to; a query over no ids is not made. *)
Definition load_context (explicit_ids selected_ids needed_ids : list string)
    : M (option PrefixAllocationContext) :=
  explicit ← match explicit_ids with
             | [] => mret ∅
             | _ => read (get_for_allocation_by_ids explicit_ids)
             end;
  _ ← lift (check_explicit explicit explicit_ids);
  found ← match needed_ids with
          | [] => mret []
          | _ => read (find_allocation_candidates needed_ids)
          end;
  let parents := (λ kp, vp_vpc_id kp.2) <$> map_to_list explicit in
  let referenced := foldl (λ s id, bset_insert string_cmp id s) selected_ids parents in
  vpcs ← read (find_vpcs referenced);
  if existsb (λ id, bool_decide (vpcs !! id = None)) selected_ids then
    lift (Err (FailedPrecondition
      "VPC selected for automatic VPC-prefix allocation does not exist or is deleted"))
  else if existsb (λ id, bool_decide (vpcs !! id = None)) parents then
    lift (Err (FailedPrecondition "VPC prefix references VPC which does not exist or is deleted"))
  else mret (Some (mk_context explicit (group_candidates found) vpcs)).

(** [load_prefix_allocation_context] *)
Definition load_prefix_allocation_context (targets : list NetworkAllocationTarget)
    : M (option PrefixAllocationContext) :=
  let '(explicit_ids, selected_ids, needed_ids) := target_ids targets in
  match explicit_ids, selected_ids with
  | [], [] => mret None
  | _, _ => load_context explicit_ids selected_ids needed_ids
  end.

(** ** The plan *)

(** The work items of an interface that selects a VPC *)
Definition plan_automatic (ctx : PrefixAllocationContext) (t i : nat) (target : NetworkAllocationTarget)
    (interface : InstanceInterfaceConfig) (selection : InstanceInterfaceVpcSelection)
    : result CarbideError (list string * list PrefixAllocationWork) :=
  vpc ← ok_or (context_vpcs ctx !! sel_vpc_id selection)
          (Internal "prefix-allocation context is missing automatically selected VPC");
  if negb (bool_decide (tenant_organization_id vpc = tenant target)) then
    Err (FailedPrecondition "VPC is not owned by tenant")
  else if negb (bool_decide (network_virtualization_type vpc = Fnn)) then
    Err (FailedPrecondition "automatic VPC-prefix selection requires an FNN VPC")
  else
    let families := requested_families (family_mode selection) in
    if existsb (λ f, negb (vpc_supports_family (network_virtualization_type vpc) f)) families then
      Err (FailedPrecondition "VPC does not support prefixes of the family")
    else if bool_decide (is_Some (requested_ip_addr interface)) ||
            bool_decide (is_Some (ipv6_interface_config interface ≫= v6_requested_ip_addr)) ||
            bool_decide (network_details interface = None ∧ is_Some (ipv6_interface_config interface)) ||
            bool_decide (family_mode selection ≠ DualStack ∧ is_Some (ipv6_interface_config interface)) ||
            match network_details interface with Some (NetworkSegmentRef _) => true | _ => false end then
      Err (InvalidArgument "explicit IP requests, incompatible IPv6 configuration, and explicit network segments are invalid with automatic VPC-prefix selection")
    else if negb (interface_needs_prefix_allocation interface) then Ok ([sel_vpc_id selection], [])
    else
      works ← mapM (λ f,
        match default [] (bmap_get group_cmp (sel_vpc_id selection, f) (automatic_candidates ctx)) with
        | [] => Err (ResourceExhausted "VPC has no eligible VPC prefix of the family")
        | cs => Ok (mk_work t i (sel_vpc_id selection) f cs 0
                      (if bool_decide (length families = 2%nat ∧ f = Ipv6) then SecondaryIpv6 else Primary)
                      None true)
        end) families;
      Ok ([sel_vpc_id selection], works).

(** [addr.map(|a| build_requested_linknet_prefix(a, ..)).transpose()?] *)
Definition requested_linknet (a : option (bool * Z)) (f : AllocationAddressFamily)
    : result CarbideError (option IpNetwork) :=
  match a with
  | Some a => Some <$> build_requested_linknet_prefix a (linknet_prefix f)
  | None => Ok None
  end.

(** The secondary prefix of an interface whose primary prefix is explicit *)
Definition secondary_prefix (ctx : PrefixAllocationContext) (interface : InstanceInterfaceConfig)
    (primary : VpcPrefix) : result CarbideError (option (string * VpcPrefix)) :=
  match ipv6_interface_config interface with
  | None => Ok None
  | Some ipv6 =>
      if negb (bool_decide (from_network (vp_prefix primary) = Ipv4)) then
        Err (InvalidConfiguration "vpc_prefix_id points to an IPv6 prefix but ipv6_interface_config is also set")
      else
        prefix ← ok_or (explicit_prefixes ctx !! v6_vpc_prefix_id ipv6)
                   (FailedPrecondition "VPC prefix does not exist");
        if negb (net_v6 (vp_prefix prefix)) then
          Err (InvalidArgument "ipv6_interface_config VPC prefix is not IPv6")
        else if negb (bool_decide (vp_vpc_id prefix = vp_vpc_id primary)) then
          Err (InvalidConfiguration "dual-stack VPC prefixes must belong to the same VPC")
        else Ok (Some (v6_vpc_prefix_id ipv6, prefix))
  end.

(** The work items of an interface with an explicit VPC prefix *)
Definition plan_explicit (ctx : PrefixAllocationContext) (t i : nat) (target : NetworkAllocationTarget)
    (interface : InstanceInterfaceConfig) (primary_id : string)
    : result CarbideError (list string * list PrefixAllocationWork) :=
  primary ← ok_or (explicit_prefixes ctx !! primary_id) (FailedPrecondition "VPC prefix does not exist");
  vpc ← ok_or (context_vpcs ctx !! vp_vpc_id primary)
          (Internal "prefix-allocation context is missing VPC referenced by VPC prefix");
  if negb (bool_decide (tenant_organization_id vpc = tenant target)) then
    Err (FailedPrecondition "VPC prefix belongs to VPC which is not owned by tenant")
  else
    let family := from_network (vp_prefix primary) in
    if match requested_ip_addr interface with
       | Some a => negb (bool_decide (from_address a = family))
       | None => false
       end then
      Err (InvalidArgument "requested IP address does not match VPC prefix")
    else
      secondary ← secondary_prefix ctx interface primary;
      if negb (interface_needs_prefix_allocation interface) then Ok ([vp_vpc_id primary], [])
      else
        requested ← requested_linknet (requested_ip_addr interface) family;
        let first := mk_work t i (vp_vpc_id primary) family [primary_id] 0 Primary requested false in
        match secondary with
        | None => Ok ([vp_vpc_id primary], [first])
        | Some (id, prefix) =>
            let v6_requested := ipv6_interface_config interface ≫= v6_requested_ip_addr in
            requested ← requested_linknet ((λ a, (true, a)) <$> v6_requested) Ipv6;
            Ok ([vp_vpc_id primary],
                [first; mk_work t i (vp_vpc_id prefix) Ipv6 [id] 0 SecondaryIpv6 requested false])
        end.

(** The VPC ids and the work items of an interface *)
Definition plan_interface (ctx : PrefixAllocationContext) (t : nat) (target : NetworkAllocationTarget)
    (ii : nat * InstanceInterfaceConfig) : result CarbideError (list string * list PrefixAllocationWork) :=
  let '(i, interface) := ii in
  match vpc_selection interface with
  | Some selection => plan_automatic ctx t i target interface selection
  | None =>
      match network_details interface with
      | Some (VpcPrefixId id) => plan_explicit ctx t i target interface id
      | _ => Ok ([], [])
      end
  end.

(** The work items of a target; several VPCs on one instance must all be FNN. *)
Definition plan_target (ctx : PrefixAllocationContext) (tt : nat * NetworkAllocationTarget)
    : result CarbideError (list PrefixAllocationWork) :=
  planned ← mapM (plan_interface ctx tt.1 tt.2) (imap pair (interfaces tt.2));
  let vpc_ids := foldl (λ s id, bset_insert string_cmp id s) [] (planned ≫= fst) in
  if bool_decide (1 < length vpc_ids)%nat &&
     existsb (λ id, match context_vpcs ctx !! id with
                    | Some vpc => negb (bool_decide (network_virtualization_type vpc = Fnn))
                    | None => true
                    end) vpc_ids then
    Err (InvalidConfiguration "prefix-backed interfaces from multiple VPCs are only supported when all VPCs use FNN")
  else Ok (planned ≫= snd).

(** [plan_prefix_allocations] *)
Definition plan_prefix_allocations (targets : list NetworkAllocationTarget) (ctx : PrefixAllocationContext)
    : result CarbideError (list PrefixAllocationWork) :=
  works ← mapM (plan_target ctx) (imap pair targets);
  Ok (mjoin works).

(** [allocate_networks] *)
Definition allocate_networks (targets : list NetworkAllocationTarget) : M (list NetworkAllocationTarget) :=
  context ← load_prefix_allocation_context targets;
  match context with
  | None => mret targets
  | Some ctx =>
      works ← lift (plan_prefix_allocations targets ctx);
      execute_prefix_allocations print_net print_ip targets works
  end.
End Plan.
