(* ===== verification/PrefixAllocationFacts.v ===== *)
(** * What one attempt to allocate a linknet guarantees

    Invariants of the actions of the transaction, proved once for the primitive
    actions: the integrity of the address space, and the locks an attempt asks for.
    An attempt never fails with an internal error.  When others leave the rows of the
    transaction alone, the linknet that it reports is stored, with its segment and its
    reference to the VPC prefix, and what was stored before is kept. *)

From S2P Require Import Prelude Ordered IpNetwork VpcCapability ConfigVersion StateHistory ControllerTable.
From S2P Require Import NetworkSegment VpcPrefix VpcPrefixFacts LinknetAllocator LinknetAllocatorFacts.
From S2P Require Import PrefixAllocation.

#[export] Instance family_cmp_total : TotalCmp family_cmp.
Proof. split; [by intros [] []|by intros [] []|by intros [] [] []]. Qed.

#[export] Instance group_cmp_total : TotalCmp group_cmp.
Proof. apply pair_cmp_total; apply _. Qed.

(** The errors that no input is meant to cause. *)
Definition internal (e : CarbideError) : bool :=
  match e with Internal _ | Panic | Unfinished => true | _ => false end.

(** ** Invariants of actions *)

Create HintDb keeps.

Section Keeps.
Context `{I : IpNetworks} (print_net : IpNetwork → string) (print_ip : bool * Z → string).

Lemma bind_run {A B} (m : M A) (f : A → M B) w :
  (m ≫= f) w = match m w with (Ok a, w) => f a w | (Err e, w) => (Err e, w) end.
Proof using Type. done. Qed.

(** The action keeps [P], whether it fails or not. *)
Definition keeps (P : World → Prop) {A} (m : M A) : Prop := ∀ w, P w → P (snd (m w)).

Lemma keeps_ret P {A} (a : A) : keeps P (mret a : M A).
Proof using Type. by intros w. Qed.

Lemma keeps_lift P {A} (r : result CarbideError A) : keeps P (lift r).
Proof using Type. by intros w. Qed.

Lemma keeps_bind P {A B} (m : M A) (f : A → M B) :
  keeps P m → (∀ a, keeps P (f a)) → keeps P (m ≫= f).
Proof using Type.
  intros Hm Hf w Hw. specialize (Hm w Hw). rewrite bind_run.
  destruct (m w) as [[a|e] w']; simpl in *; [by apply Hf|done].
Qed.

Lemma keeps_catch P {A} (m : M A) : keeps P m → keeps P (catch m).
Proof using Type. intros Hm w Hw. specialize (Hm w Hw). unfold catch. by destruct (m w). Qed.

(** *** The integrity of the address space *)

(** The contents, those of the savepoints and whatever others commit are well formed. *)
Record world_wf (w : World) : Prop := mk_world_wf {
  wf_db : net_wf (db w);
  wf_saved : Forall net_wf (saved w);
  wf_script : Forall (λ st, ∀ d, net_wf d → net_wf (others st d)) (script w);
}.

Lemma next_step_wf w : world_wf w → world_wf (snd (next_step w)).
Proof using Type.
  intros [Hd Hs Hsc]. unfold next_step. destruct (script w) as [|st sc]; simpl.
  - split; simpl; [done| |by constructor]. by rewrite list_fmap_id.
  - apply Forall_cons in Hsc as [Hst Hsc]. split; simpl; [by apply Hst| |done].
    apply Forall_fmap. eapply Forall_impl; [exact Hs|]. intros d. apply Hst.
Qed.

(** A statement that keeps the integrity. *)
Definition sound {A} (f : Z → net_db → result DatabaseError (A * net_db)) : Prop :=
  ∀ c d a d', f c d = Ok (a, d') → net_wf d → net_wf d'.

Lemma sound_write (f : Z → net_db → result DatabaseError net_db) :
  (∀ c d d', f c d = Ok d' → net_wf d → net_wf d') → sound (λ c d, d ← f c d; Ok ((), d)).
Proof using Type. intros Hf c d [] d' (d1 & Hd & [= <-])%result_bind_ok. by eapply Hf. Qed.

(** *** Invariants of the primitive actions are invariants of an attempt *)

(** What the actions of an attempt that asks for the lock [k] consist of keep [P]. *)
Class Stable (P : World → Prop) (k : string * AllocationAddressFamily * string) : Prop := {
  stable_statement {A} (f : Z → net_db → result DatabaseError (A * net_db)) :
    sound f → keeps P (statement f);
  stable_new_uuid : keeps P new_uuid;
  stable_begin : keeps P begin_inner;
  stable_commit d : keeps P (commit_inner d);
  stable_rollback d : keeps P (rollback_inner d);
  stable_request : keeps P (request_lock k);
}.

Hint Resolve keeps_ret keeps_lift keeps_bind keeps_catch stable_new_uuid stable_begin stable_commit
  stable_rollback stable_request : keeps.

Ltac keeps_steps := repeat first [progress intros | solve [eauto with keeps] | apply keeps_bind].

Section StableAttempt.
Context (P : World → Prop) (vpc : string) (fam : AllocationAddressFamily) (id : string)
  {HP : Stable P (vpc, fam, id)}.

Lemma keeps_read {A} (f : net_db → A) : keeps P (read f).
Proof using HP. apply (stable_statement (k := (vpc, fam, id))). by intros c d a d' [= _ <-]. Qed.

Lemma keeps_write f : (∀ c d d', f c d = Ok d' → net_wf d → net_wf d') → keeps P (write f).
Proof using HP. intros Hf. apply (stable_statement (k := (vpc, fam, id))). by apply sound_write. Qed.

Hint Resolve keeps_read : keeps.

Lemma keeps_create_for seg p : keeps P (create_for seg p).
Proof using HP.
  unfold create_for. keeps_steps. apply keeps_write. intros c d d'. by apply insert_network_prefix_wf.
Qed.

Lemma keeps_set_vpc_prefixes_of ids vid p : keeps P (set_vpc_prefixes_of ids vid p).
Proof using HP.
  induction ids; simpl; keeps_steps. apply keeps_write. intros c d d'. by apply set_vpc_prefix_wf.
Qed.

Lemma keeps_persist_segment sid s p st : keeps P (persist_segment sid s p st).
Proof using HP.
  unfold persist_segment. apply keeps_bind; [|intros v; apply keeps_bind; [apply keeps_create_for|]].
  - apply (stable_statement (k := (vpc, fam, id))).
    intros c d v d' (d1 & Hd & [= _ <-])%result_bind_ok Hwf.
    apply insert_segment_ok in Hd as [t ->]. by apply set_segments_wf.
  - intros _. apply keeps_bind; [|intros _].
    + apply keeps_write. intros c d d' [= <-]. by apply set_segments_wf.
    + apply (stable_statement (k := (vpc, fam, id))). intros c d l d'.
      destruct (rows _ !! sid); [|done]. by intros [= _ <-].
Qed.

Hint Resolve keeps_create_for keeps_set_vpc_prefixes_of keeps_persist_segment : keeps.

Lemma keeps_once op req :
  keeps P (allocate_prefix_candidate_once print_net print_ip vpc fam id op req).
Proof using HP.
  unfold allocate_prefix_candidate_once. keeps_steps. destruct (_ : option VpcPrefix); [|keeps_steps].
  case_match; [keeps_steps|]. keeps_steps. destruct (_ : option IpNetwork); [|keeps_steps].
  apply keeps_bind; [destruct op; keeps_steps|].
  keeps_steps. apply keeps_write. intros c d d'. by apply update_last_used_prefix_wf.
Qed.

Lemma keeps_attempts n op req :
  keeps P (candidate_attempts print_net print_ip n vpc fam id op req).
Proof using HP.
  induction n as [|n IH]; simpl; keeps_steps; [apply keeps_catch, keeps_once|].
  destruct (_ : result CarbideError CandidateAllocationOutcome) as [[]|e]; keeps_steps.
  destruct (is_network_prefix_overlap_conflict e); keeps_steps.
Qed.
End StableAttempt.

(** *** Two invariants *)

Lemma savepoint_wf {A} (f : World → A * World) :
  (∀ w, world_wf w → world_wf (snd (f w))) → keeps world_wf (savepoint f).
Proof using Type.
  intros Hf w Hw%next_step_wf. unfold savepoint. destruct (next_step w) as [st w1]. simpl in Hw.
  destruct (fault st); [done|]. specialize (Hf w1 Hw). by destruct (f w1).
Qed.

#[export] Instance stable_wf k : Stable world_wf k.
Proof using Type.
  split.
  - intros A f Hf w Hw%next_step_wf. unfold statement. destruct (next_step w) as [st w1]. simpl in Hw.
    destruct (fault st); [done|]. destruct (f (clock st) (db w1)) as [[a d]|e] eqn:E; [|done].
    destruct Hw. split; simpl; [by eapply Hf|done..].
  - by intros w [].
  - apply savepoint_wf. intros w []. split; simpl; [done|by constructor|done].
  - intros d. apply savepoint_wf. intros w []. split; simpl; [done|by apply Forall_drop|done].
  - intros d. apply savepoint_wf. intros w [Hd Hs Hc]. split; simpl; [|by apply Forall_drop|done].
    destruct (saved w !! _) as [x|] eqn:E; [|done]. simpl. by eapply (Forall_lookup_1 _ _ _ _ Hs).
  - by intros w [].
Qed.

(** The locks asked for since [R] are all [k]. *)
Definition asked (R : list (string * AllocationAddressFamily * string))
    (k : string * AllocationAddressFamily * string) (w : World) : Prop :=
  ∃ n, requests w = R ++ replicate n k.

#[export] Instance stable_asked R k : Stable (asked R k) k.
Proof using Type.
  assert (Hs : ∀ A (f : World → A * World),
    (∀ w, requests (snd (f w)) = requests w) → keeps (asked R k) (savepoint f)).
  { intros A f Hf w [n Hn]. unfold savepoint, next_step. destruct (fault _); [by exists n|].
    specialize (Hf (mk_world (others (default quiet (head (script w))) (db w))
      (others (default quiet (head (script w))) <$> saved w) (tail (script w)) (uuids w) (requests w))).
    destruct (f _) as [a w']. simpl in *. exists n. by rewrite Hf. }
  split; [|by intros w [n ?]; exists n|by apply Hs|by intros; apply Hs|by intros; apply Hs|].
  - intros A f _ w [n Hn]. unfold statement, next_step.
    destruct (fault _); [by exists n|]. destruct (f _ _) as [[]|]; by exists n.
  - intros w [n Hn]. exists (n + 1)%nat. simpl. rewrite Hn, replicate_add. simpl. by rewrite app_assoc.
Qed.

(** ** How an attempt ends *)

(** The action returns a value that satisfies [Q], or fails with a proper error. *)
Definition ends {A} (Q : A → Prop) (m : M A) : Prop :=
  ∀ w, match fst (m w) with Ok a => Q a | Err e => internal e = false end.

Lemma ends_bind {A B} (Q : A → Prop) (R : B → Prop) (m : M A) (f : A → M B) :
  ends Q m → (∀ a, Q a → ends R (f a)) → ends R (m ≫= f).
Proof using Type.
  intros Hm Hf w. specialize (Hm w). rewrite bind_run.
  destruct (m w) as [[a|e] w']; simpl in *; [by apply Hf|done].
Qed.

Lemma ends_any {A B} (R : B → Prop) (m : M A) (f : A → M B) :
  ends (λ _, True) m → (∀ a, ends R (f a)) → ends R (m ≫= f).
Proof using Type. intros Hm Hf. by apply (ends_bind (λ _, True)). Qed.

Lemma ends_statement {A} (f : Z → net_db → result DatabaseError (A * net_db)) :
  ends (λ _, True) (statement f).
Proof using Type.
  intros w. unfold statement, next_step. destruct (fault _); [done|]. by destruct (f _ _) as [[]|].
Qed.

Lemma ends_savepoint {A} (f : World → A * World) : ends (λ _, True) (savepoint f).
Proof using Type. intros w. unfold savepoint, next_step. destruct (fault _); [done|]. by destruct (f _). Qed.

Lemma ends_ret {A} (Q : A → Prop) a : Q a → ends Q (mret a : M A).
Proof using Type. by intros ? w. Qed.

Lemma ends_lift {A} (r : result CarbideError A) :
  (∀ e, r = Err e → internal e = false) → ends (λ a, r = Ok a) (lift r).
Proof using Type. intros Hr w. unfold lift. simpl. destruct r; [done|by apply Hr]. Qed.

Lemma ends_uuid : ends (λ _, True) new_uuid.
Proof using Type. by intros w. Qed.

Lemma ends_request k : ends (λ _, True) (request_lock k).
Proof using Type. by intros w. Qed.

Create HintDb ends.
Hint Resolve ends_any ends_statement ends_savepoint ends_uuid ends_request : ends.
Hint Extern 0 (ends _ (mret _)) => apply ends_ret; done : ends.

Ltac ends_steps := repeat first [progress intros | solve [eauto with ends] | apply ends_any].

Lemma ends_create_for seg p : ends (λ _, True) (create_for seg p).
Proof using Type. unfold create_for. ends_steps. Qed.

Lemma ends_set_vpc_prefixes_of ids vid p : ends (λ _, True) (set_vpc_prefixes_of ids vid p).
Proof using Type. induction ids; simpl; ends_steps. Qed.

Hint Resolve ends_create_for ends_set_vpc_prefixes_of : ends.

(** A linknet length never leaves the machine integers. *)
Lemma linknet_width vpc :
  linknet_prefix (from_network vpc) - net_prefix vpc < 128.
Proof using Type.
  pose proof (net_prefix_range vpc). unfold from_network. destruct (net_v6 vpc); simpl; lia.
Qed.

Lemma select_prefix_errors vid vpc last a used req e :
  new_allocator vid vpc last (linknet_prefix (from_network vpc)) = Ok a →
  select_prefix print_net a used req = Err e → internal e = false.
Proof using Type.
  intros Hnew. unfold select_prefix. destruct req as [p|].
  - unfold validate_desired_prefix. destruct (negb _); [by intros [= <-]|].
    destruct (existsb _ _); [by intros [= <-]|done].
  - pose proof (next_free_prefix_exact vid vpc last _ a used Hnew (linknet_width vpc)) as H.
    destruct (next_free_prefix a used) as [p|e']; [done|]. destruct H as [[m ->] _]. done.
Qed.

(** The segment an attempt reports. *)
Definition outcome_of_operation (op : PrefixAllocationOperation) (oc : CandidateAllocationOutcome) : Prop :=
  match oc with
  | Allocated s => match op with Create => is_Some s | Attach _ => s = None end
  | _ => True
  end.

Lemma ends_once vpc fam id op req :
  ends (outcome_of_operation op) (allocate_prefix_candidate_once print_net print_ip vpc fam id op req).
Proof using Type.
  unfold allocate_prefix_candidate_once. apply ends_any; [apply ends_request|]. intros _.
  apply ends_any; [apply ends_statement|]. intros [p|]; [|ends_steps].
  destruct (bool_decide (vp_vpc_id p = vpc)); simpl; [|by intros w].
  case_bool_decide as Hf; simpl; [subst fam|by intros w].
  eapply ends_bind; [apply ends_lift|].
  { intros e. unfold new_allocator. repeat case_match; intros [= <-]; done. }
  intros al Hal. apply ends_any; [apply ends_statement|]. intros used.
  eapply ends_bind; [apply ends_lift; intros e; exact (select_prefix_errors _ _ _ _ _ _ _ Hal)|].
  intros [q|] _; [|ends_steps].
  apply (ends_bind (λ s, match op with Create => is_Some s | Attach _ => s = None end)).
  - destruct op; ends_steps.
  - intros s Hs. apply ends_any; [apply ends_statement|]. intros _. by apply ends_ret.
Qed.

Lemma ends_attempts n vpc fam id op req :
  ends (outcome_of_operation op) (candidate_attempts print_net print_ip n vpc fam id op req).
Proof using Type.
  induction n as [|n IH]; [by intros w|]. simpl. apply ends_any; [apply ends_savepoint|]. intros inner.
  apply (ends_bind (λ r, match r with Ok a => outcome_of_operation op a | Err e => internal e = false end)).
  { intros w. pose proof (ends_once vpc fam id op req w) as H. unfold catch.
    by destruct (allocate_prefix_candidate_once _ _ _ _ _ _ _ w). }
  intros [oc|e] Hr.
  - destruct oc; apply ends_any; (apply ends_savepoint || (intros; by apply ends_ret)).
  - apply ends_any; [apply ends_savepoint|]. intros _.
    destruct (is_network_prefix_overlap_conflict e); [apply IH|by intros w].
Qed.
End Keeps.

(** ** What an attempt leaves in the tables *)

Section Catalogue.
Context `{I : IpNetworks}.

(** The group of a prefix row *)
Definition row_group (p : VpcPrefix) : string * AllocationAddressFamily :=
  (vp_vpc_id p, from_network (vp_prefix p)).

(** Every row that there is, now or after others commit, has the VPC and the family that
    [cat] says: no statement of the program changes either. *)
Definition catalogued (cat : string → string * AllocationAddressFamily) (d : net_db) : Prop :=
  ∀ id p, vpc_prefix_of d id = Some p → row_group p = cat id.

Definition world_catalogued (cat : string → string * AllocationAddressFamily) (w : World) : Prop :=
  catalogued cat (db w) ∧ Forall (λ st, ∀ d, catalogued cat d → catalogued cat (others st d)) (script w).

(** The segment with an id *)
Definition stored_segment (d : net_db) (id : string) : option GeneratedSegment :=
  row_object <$> rows (network_segments d) !! id.
End Catalogue.

Section Stored.
Context `{I : IpNetworks} (print_net : IpNetwork → string) (print_ip : bool * Z → string).
(** the ids that the transaction draws *)
Context (cat : string → string * AllocationAddressFamily) (own : string → Prop) (Hown : own EmptyString).

(** The rows of the transaction are still there. *)
Record extends (d d' : net_db) : Prop := {
  ext_prefix id n : own id → network_prefixes d !! id = Some n → network_prefixes d' !! id = Some n;
  ext_segment id s : own id → stored_segment d id = Some s → stored_segment d' id = Some s;
}.

(** The network prefixes of the transaction are on segments of its own. *)
Definition linked (d : net_db) : Prop := ∀ id n, own id → network_prefixes d !! id = Some n →
  own (np_segment_id n) ∧ is_Some (stored_segment d (np_segment_id n)).

Record good (d0 d : net_db) : Prop := {
  good_wf : net_wf d;
  good_cat : catalogued cat d;
  good_linked : linked d;
  good_ext : extends d0 d;
}.

(** What others commit leaves the rows of the transaction, which they cannot see, and keeps
    the constraints of the tables. *)
Record courteous (st : Step) : Prop := {
  court_wf d : net_wf d → net_wf (others st d);
  court_cat d : catalogued cat d → catalogued cat (others st d);
  court_prefix d id : own id → network_prefixes (others st d) !! id = network_prefixes d !! id;
  court_segment d id : own id → stored_segment (others st d) id = stored_segment d id;
}.

Lemma extends_refl d : extends d d.
Proof using Type. by split. Qed.

Lemma extends_trans d1 d2 d3 : extends d1 d2 → extends d2 d3 → extends d1 d3.
Proof using Type. intros [] []. split; eauto. Qed.

(** Nothing of the transaction has the id. *)
Lemma unseen_prefix d0 d id : extends d0 d → own id → network_prefixes d !! id = None → network_prefixes d0 !! id = None.
Proof using Type.
  intros He Hi Hn. apply eq_None_not_Some. intros [n H]. apply (ext_prefix _ _ He) in H; [congruence|done].
Qed.

Lemma quiet_courteous : courteous quiet.
Proof using Type. by split. Qed.

Lemma others_good st d0 d : courteous st → good d0 d → good d0 (others st d) ∧ good d (others st d).
Proof using Type.
  intros [Hw Hc Hp Hs] [Gw Gc Gl [Ge1 Ge2]].
  assert (linked (others st d)).
  { intros id n Hi. rewrite Hp by done. intros [Ho Hx]%Gl; [|done]. by rewrite Hs. }
  split; (split; [by apply Hw|by apply Hc|done|]); split; intros id x Hi; rewrite ?Hp, ?Hs by done; eauto.
Qed.

(** *** Triples *)

Definition act {A} (P : World → Prop) (m : M A) (Q : A → World → Prop) (E : World → Prop) : Prop :=
  ∀ w, P w → match m w with (Ok a, w') => Q a w' | (Err _, w') => E w' end.

Lemma act_bind {A B} P (m : M A) R (f : A → M B) Q E :
  act P m R E → (∀ a, act (R a) (f a) Q E) → act P (m ≫= f) Q E.
Proof using Type.
  intros Hm Hf w Hw. specialize (Hm w Hw). rewrite bind_run. destruct (m w) as [[a|e] w']; [by apply Hf|done].
Qed.

Lemma act_ret {A} P (a : A) Q E : (∀ w, P w → Q a w) → act P (mret a) Q E.
Proof using Type. intros H w Hw. by apply H. Qed.

Lemma act_weaken {A} P P' (m : M A) Q Q' E :
  act P' m Q' E → (∀ w, P w → P' w) → (∀ a w, Q' a w → Q a w) → act P m Q E.
Proof using Type.
  intros Hm HP HQ w Hw. specialize (Hm w (HP w Hw)). destruct (m w) as [[a|e] w']; [by apply HQ|done].
Qed.

(** A fact about rows of the transaction *)
Class Lasting (φ : net_db → Prop) : Prop := lasting d d' : extends d d' → φ d → φ d'.

(** [n] savepoints are open, to which the tables of [d0] can return, and [φ] is known. *)
Record knows (n : nat) (d0 : net_db) (φ : net_db → Prop) (w : World) : Prop := {
  kn_script : Forall courteous (script w);
  kn_uuids : Forall own (uuids w);
  kn_depth : length (saved w) = n;
  kn_saved : Forall (good d0) (saved w);
  kn_db : good d0 (db w);
  kn_fact : φ (db w);
}.

(** A statement failed: all that is left is to return to a savepoint. *)
Record broken (d0 : net_db) (w : World) : Prop := {
  br_script : Forall courteous (script w);
  br_uuids : Forall own (uuids w);
  br_depth : saved w ≠ [];
  br_saved : Forall (good d0) (saved w);
}.

Lemma knows_broken n d0 φ w : knows (S n) d0 φ w → broken d0 w.
Proof using Type. intros []. split; try done. by destruct (saved w). Qed.

Lemma knows_impl n d0 (φ ψ : net_db → Prop) w : (∀ d, φ d → ψ d) → knows n d0 φ w → knows n d0 ψ w.
Proof using Type. intros H []. split; auto. Qed.

Lemma next_step_script w : Forall courteous (script w) →
  courteous (default quiet (head (script w))) ∧ Forall courteous (tail (script w)).
Proof using Type. destruct 1; [split; [apply quiet_courteous|constructor]|done]. Qed.

Lemma next_step_knows n d0 φ w : Lasting φ → knows n d0 φ w → knows n d0 φ (snd (next_step w)).
Proof using Type.
  intros Hl [Hs Hu Hd Hsv Hdb Hf]. apply next_step_script in Hs as [Hst Hs]. unfold next_step. split; simpl; try done.
  - by rewrite length_fmap.
  - apply Forall_fmap. eapply Forall_impl; [exact Hsv|]. intros d Hg. by apply (others_good _ _ _ Hst).
  - by apply (others_good _ _ _ Hst).
  - eapply lasting; [|exact Hf]. by apply (others_good _ _ _ Hst Hdb).
Qed.

Lemma act_statement {A} n d0 φ (f : Z → net_db → result DatabaseError (A * net_db)) ψ : Lasting φ →
  (∀ c d a d', good d0 d → φ d → f c d = Ok (a, d') → good d0 d' ∧ ψ a d') →
  act (knows (S n) d0 φ) (statement f) (λ a, knows (S n) d0 (ψ a)) (broken d0).
Proof using Type.
  intros Hl Hf w Hw%next_step_knows; [|done]. unfold statement. destruct (next_step w) as [st w1]. simpl in Hw.
  destruct (fault st); [by eapply knows_broken|].
  destruct (f (clock st) (db w1)) as [[a d']|e] eqn:E; [|by eapply knows_broken].
  destruct Hw as [Hs Hu Hd Hsv Hdb Hφ]. destruct (Hf _ _ _ _ Hdb Hφ E). by split.
Qed.

Lemma act_write n d0 φ f ψ : Lasting φ →
  (∀ c d d', good d0 d → φ d → f c d = Ok d' → good d0 d' ∧ ψ d') →
  act (knows (S n) d0 φ) (write f) (λ _, knows (S n) d0 ψ) (broken d0).
Proof using Type.
  intros Hl Hf. apply (act_statement n d0 φ _ (λ _, ψ)); [done|].
  intros c d [] d' Hg Hφ (d1 & Hd & [= <-])%result_bind_ok. by eapply Hf.
Qed.

Lemma act_read {A} n d0 φ (f : net_db → A) ψ : Lasting φ →
  (∀ d, good d0 d → φ d → ψ (f d) d) →
  act (knows (S n) d0 φ) (read f) (λ a, knows (S n) d0 (ψ a)) (broken d0).
Proof using Type. intros Hl Hf. apply act_statement; [done|]. intros c d a d' Hg Hφ [= <- <-]. by auto. Qed.

Lemma act_lift {A} n d0 φ (r : result CarbideError A) :
  act (knows (S n) d0 φ) (lift r) (λ a w, r = Ok a ∧ knows (S n) d0 φ w) (broken d0).
Proof using Type. intros w Hw. unfold lift. destruct r; [done|by eapply knows_broken]. Qed.

Lemma act_uuid n d0 φ E : act (knows n d0 φ) new_uuid (λ u w, own u ∧ knows n d0 φ w) E.
Proof using Hown.
  intros w [Hs Hu Hd Hsv Hdb Hf]. unfold new_uuid. split.
  - by destruct Hu.
  - split; simpl; try done. by destruct Hu.
Qed.

Lemma act_begin n d0 φ (E : World → Prop) : Lasting φ → (∀ w, knows n d0 φ w → E w) →
  act (knows n d0 φ) begin_inner (λ k w, k = n ∧ knows (S n) d0 φ w) E.
Proof using Type.
  intros Hl HE w Hw%next_step_knows; [|done]. unfold begin_inner, savepoint. destruct (next_step w) as [st w1].
  simpl in Hw. destruct (fault st); [by apply HE|]. destruct Hw as [Hs Hu Hd Hsv Hdb Hf].
  split; [done|]. split; simpl; try done; [by rewrite Hd|by constructor].
Qed.

Lemma act_commit k n d0 φ (E : World → Prop) : Lasting φ → (k ≤ n)%nat → (∀ w, knows n d0 φ w → E w) →
  act (knows n d0 φ) (commit_inner k) (λ _, knows k d0 φ) E.
Proof using Type.
  intros Hl Hk HE w Hw%next_step_knows; [|done]. unfold commit_inner, savepoint. destruct (next_step w) as [st w1].
  simpl in Hw. destruct (fault st); [by apply HE|]. destruct Hw as [Hs Hu Hd Hsv Hdb Hf].
  split; simpl; try done; [rewrite length_drop, Hd; lia|by apply Forall_drop].
Qed.

Lemma act_rollback d0 : act (broken d0) (rollback_inner 0) (λ _, knows 0 d0 (λ _, True)) (λ _, True).
Proof using Type.
  intros w [Hs Hu Hd Hsv]. apply next_step_script in Hs as [Hst Hs]. unfold rollback_inner, savepoint, next_step.
  set (st := default quiet (head (script w))) in *. cbn [fst snd]. destruct (fault st); [done|].
  assert (Hsv' : Forall (good d0) (others st <$> saved w)).
  { apply Forall_fmap. eapply Forall_impl; [exact Hsv|]. intros d Hg. by apply (others_good _ _ _ Hst). }
  split; cbn [db saved script uuids]; try done.
  - rewrite length_drop. lia.
  - by apply Forall_drop.
  - destruct (_ !! (length (others st <$> saved w) - 1)%nat) as [d|] eqn:E; [by eapply (Forall_lookup_1 _ _ _ _ Hsv')|].
    apply lookup_ge_None in E. rewrite length_fmap in E. destruct (saved w); [done|]. simpl in E. lia.
Qed.

Lemma act_catch {A} P (m : M A) Q E E' :
  act P m Q E → act P (catch m) (λ r w, match r with Ok a => Q a w | Err _ => E w end) E'.
Proof using Type. intros Hm w Hw. specialize (Hm w Hw). unfold catch. by destruct (m w) as [[a|e] w']. Qed.

(** *** Facts about rows of the transaction *)

Definition row_at (id : string) (P : NetworkPrefix → Prop) (d : net_db) : Prop :=
  own id ∧ ∃ n, network_prefixes d !! id = Some n ∧ P n.

Definition segment_at (seg vpc : string) (d : net_db) : Prop :=
  own seg ∧ ∃ g, stored_segment d seg = Some g ∧ gs_vpc_id g = Some vpc.

#[local] Instance row_at_lasting id P : Lasting (row_at id P).
Proof using Type. intros d d' He (Ho & n & Hn & Hp). split; [done|]. exists n. split; [by apply He|done]. Qed.

#[local] Instance segment_at_lasting seg vpc : Lasting (segment_at seg vpc).
Proof using Type. intros d d' He (Ho & g & Hg & Hv). split; [done|]. exists g. split; [by apply He|done]. Qed.

#[local] Instance and_lasting φ ψ : Lasting φ → Lasting ψ → Lasting (λ d, φ d ∧ ψ d).
Proof using Type. intros H1 H2 d d' He [? ?]. split; [by eapply H1|by eapply H2]. Qed.

#[local] Instance pure_lasting (P : Prop) : Lasting (λ _, P).
Proof using Type. by intros d d' _ ?. Qed.

#[local] Instance exist_lasting {X} (φ : X → net_db → Prop) :
  (∀ x, Lasting (φ x)) → Lasting (λ d, ∃ x, φ x d).
Proof using Type. intros H d d' He [x Hx]. exists x. by eapply H. Qed.

(** The linknet of a work item is stored: a network prefix that refers to the candidate, which
    is of the VPC and the family, on a segment of the VPC. *)
Definition allocated_at (vpc : string) (fam : AllocationAddressFamily) (c : string)
    (requested : option IpNetwork) (seg : string) (d : net_db) : Prop :=
  cat c = (vpc, fam) ∧ segment_at seg vpc d ∧
  ∃ id, row_at id (λ n, np_segment_id n = seg ∧ (∃ p, np_vpc_prefix n = Some (c, p)) ∧
                        ∀ r, requested = Some r → np_prefix n = to_cidr r) d.

#[local] Instance allocated_at_lasting vpc fam c req seg : Lasting (allocated_at vpc fam c req seg).
Proof using Type. unfold allocated_at. apply _. Qed.

(** *** The statements of an attempt *)

Lemma good_insert_prefix d0 d d' id seg p :
  good d0 d → insert_network_prefix id seg p d = Ok d' → own id → own seg →
  good d0 d' ∧ extends d d' ∧ network_prefixes d0 !! id = None ∧
  row_at id (λ n, np_segment_id n = seg ∧ np_prefix n = to_cidr (new_prefix p)) d'.
Proof using Type.
  intros Hg Hi Ho Hs. pose proof (insert_network_prefix_wf _ _ _ _ _ Hi (good_wf _ _ Hg)) as Hwf.
  apply insert_network_prefix_ok in Hi as (Hnew & _ & Hseg & ->).
  assert (He : extends d (set_network_prefixes (<[id := mk_network_prefix seg (to_cidr (new_prefix p)) (new_gateway p)
    (new_num_reserved p) None]> (network_prefixes d)) d)).
  { split; [|done]. intros k n _ Hk. simpl. rewrite lookup_insert_ne; [done|]. congruence. }
  split; [split|split; [done|split]]; try done.
  - apply Hg.
  - intros k n Hk. simpl. intros [[<- <-]|[_ Hn]]%lookup_insert_Some; simpl; [split; [done|]|].
    + unfold stored_segment. simpl. by rewrite fmap_is_Some.
    + by apply (good_linked _ _ Hg k n).
  - eapply extends_trans; [apply Hg|done].
  - by eapply unseen_prefix; [apply Hg| |].
  - split; [done|]. eexists. simpl. by rewrite lookup_insert_eq.
Qed.

Lemma good_insert_segment d0 d d' clock seg s vpc st :
  good d0 d → insert_segment clock seg s st d = Ok d' → own seg → gs_vpc_id s = Some vpc →
  good d0 d' ∧ segment_at seg vpc d' ∧ stored_segment d0 seg = None.
Proof using Type.
  intros Hg. unfold insert_segment. destruct (rows _ !! seg) eqn:Hn; [done|]. intros Hi Ho Hv. rewrite Hv in Hi.
  case_decide; [done|]. injection Hi as <-. set (d1 := set_segments _ d).
  assert (Hs : ∀ k, stored_segment d1 k = if decide (k = seg) then Some s else stored_segment d k).
  { intros k. unfold stored_segment. simpl. case_decide as E; [subst; by rewrite lookup_insert_eq|by rewrite lookup_insert_ne]. }
  assert (Hnone : stored_segment d seg = None) by (unfold stored_segment; by rewrite Hn).
  assert (He : extends d d1).
  { split; [done|]. intros k x _ Hk. rewrite Hs. case_decide; [congruence|done]. }
  split_and!; [split|split; [done|]|].
  - apply set_segments_wf, Hg.
  - apply Hg.
  - intros k n Hk Hp. destruct (good_linked _ _ Hg k n Hk Hp) as [? [x Hx]]. split; [done|]. exists x.
    by apply (ext_segment _ _ He).
  - eapply extends_trans; [apply Hg|done].
  - exists s. by rewrite Hs, decide_True.
  - apply eq_None_not_Some. intros [x Hx]. apply (ext_segment _ _ (good_ext _ _ Hg)) in Hx; [congruence|done].
Qed.

Lemma good_history d0 d c seg v st :
  good d0 d → good d0 (set_segments (persist_history_row (network_segments d) c seg v st) d).
Proof using Type. intros [? ? ? [? ?]]. split; [by apply set_segments_wf|done|done|by split]. Qed.

(** A row that is not yet a result of the transaction gets its reference. *)
Lemma good_set_vpc_prefix d0 d d' k vid p :
  good d0 d → set_vpc_prefix k vid p d = Ok d' → (own k → network_prefixes d0 !! k = None) → good d0 d'.
Proof using Type.
  intros Hg Hi Hk. pose proof (set_vpc_prefix_wf _ _ _ _ _ Hi (good_wf _ _ Hg)) as Hwf.
  apply set_vpc_prefix_ok in Hi as (n & Hn & _ & _ & ->). split; [done|apply Hg| |].
  - intros j m Hj. simpl. intros [[<- <-]|[_ Hm]]%lookup_insert_Some;
      [exact (good_linked _ _ Hg k n Hj Hn)|exact (good_linked _ _ Hg j m Hj Hm)].
  - destruct (good_ext _ _ Hg) as [H1 H2]. split; [|done]. intros j m Hj Hm. simpl.
    rewrite lookup_insert_ne; [by apply H1|]. intros <-. by rewrite Hk in Hm.
Qed.

Lemma good_update_last_used d0 d d' id p :
  good d0 d → update_last_used_prefix id p d = Ok d' → good d0 d' ∧ extends d d'.
Proof using Type.
  intros Hg Hu. pose proof (update_last_used_prefix_wf _ _ _ _ Hu (good_wf _ _ Hg)) as Hwf. revert Hu.
  unfold update_last_used_prefix. destruct (lock_for_allocation id d); [|done]. intros [= <-].
  destruct Hg as [_ Hc Hl [H1 H2]]. split; [|by split]. split; [done| |done|by split].
  intros j q. unfold vpc_prefix_of. simpl. destruct (decide (j = id)) as [->|Hne].
  - rewrite lookup_alter_eq. specialize (Hc id). unfold vpc_prefix_of in Hc.
    destruct (rows _ !! id) as [r|]; [|done]. intros [= <-]. by apply (Hc (row_object r)).
  - rewrite lookup_alter_ne by done. apply Hc.
Qed.
(** *** The attempt *)

Lemma act_create_for n d0 φ seg q : Lasting φ → own seg →
  act (knows (S n) d0 φ) (create_for seg (linknet_row q))
    (λ id, knows (S n) d0 (λ d, (φ d ∧ network_prefixes d0 !! id = None) ∧
       row_at id (λ n, np_segment_id n = seg ∧ np_prefix n = to_cidr q) d)) (broken d0).
Proof using Hown.
  intros Hl Hs. unfold create_for.
  eapply act_bind; [apply act_begin; [done|apply knows_broken]|]. intros k w [-> Hw]. revert w Hw.
  eapply act_bind; [apply act_uuid|]. intros id w [Ho Hw]. revert w Hw.
  eapply act_bind; [eapply (act_write _ _ _ _ (λ d, (φ d ∧ network_prefixes d0 !! id = None) ∧ row_at id _ d)); [done|]|].
  - intros c d d' Hg Hφ Hi. destruct (good_insert_prefix _ _ _ _ _ _ Hg Hi Ho Hs) as (Hg' & He & Hn & Hr).
    split; [done|]. split; [|exact Hr]. split; [by eapply lasting|done].
  - intros []. eapply act_bind; [apply act_commit; [apply _|lia|apply knows_broken]|]. intros []. by apply act_ret.
Qed.

(** The references of new rows, that of [id] among them or set already *)
Lemma act_refer n d0 seg vpc id q vid p ids : (∀ k, k ∈ ids → own k → network_prefixes d0 !! k = None) →
  act (knows (S n) d0 (λ d, segment_at seg vpc d ∧ row_at id (λ n, np_segment_id n = seg ∧ np_prefix n = q ∧
         (id ∈ ids ∨ np_vpc_prefix n = Some (vid, to_cidr p))) d))
    (set_vpc_prefixes_of ids vid p)
    (λ _, knows (S n) d0 (λ d, segment_at seg vpc d ∧ row_at id (λ n, np_segment_id n = seg ∧ np_prefix n = q ∧
       np_vpc_prefix n = Some (vid, to_cidr p)) d)) (broken d0).
Proof using Type.
  induction ids as [|k ids IH]; intros Hids; simpl.
  { apply act_ret. intros w. apply knows_impl. intros d (Hs & Ho & m & Hm & Hseg & Hq & Hv). split; [done|].
    split; [done|]. exists m. split_and!; try done. by destruct Hv as [?%elem_of_nil|?]. }
  apply (act_bind _ _ (λ _, knows (S n) d0 (λ d, segment_at seg vpc d ∧ row_at id (λ n, np_segment_id n = seg ∧
    np_prefix n = q ∧ (id ∈ ids ∨ np_vpc_prefix n = Some (vid, to_cidr p))) d)));
    [|intros []; apply IH; intros j Hj; apply Hids; by right].
  apply act_write; [apply _|]. intros c d d' Hg (Hs & Ho & m & Hm & Hseg & Hq & Hv) Hi.
  split; [eapply good_set_vpc_prefix; [done..|]; apply Hids; by left|].
  apply set_vpc_prefix_ok in Hi as (n0 & Hn0 & _ & _ & ->). split; [exact Hs|]. split; [done|]. simpl.
  destruct (decide (k = id)) as [->|Hne].
  - assert (n0 = m) as -> by congruence. rewrite lookup_insert_eq. eexists. split; [done|]. by auto.
  - rewrite lookup_insert_ne by done. exists m. split_and!; try done.
    destruct Hv as [[<-|?]%elem_of_cons|?]; [done|by left|by right].
Qed.

(** The linknet [q] of the VPC prefix [c] is on the segment. *)
Definition referred (seg vpc c : string) (q : IpNetwork) (d : net_db) : Prop :=
  segment_at seg vpc d ∧
  ∃ id, row_at id (λ n, np_segment_id n = seg ∧ np_prefix n = to_cidr q ∧ ∃ p, np_vpc_prefix n = Some (c, p)) d.

#[local] Instance referred_lasting seg vpc c q : Lasting (referred seg vpc c q).
Proof using Type. unfold referred. apply _. Qed.

Lemma referred_intro seg vpc id q vid p d : segment_at seg vpc d ∧
  row_at id (λ n, np_segment_id n = seg ∧ np_prefix n = to_cidr q ∧ np_vpc_prefix n = Some (vid, to_cidr p)) d →
  referred seg vpc vid q d.
Proof using Type. intros (Hs & Ho & n & Hn & ? & ? & ?). split; [done|]. exists id. split; [done|]. by eauto 6. Qed.

Lemma act_persist_segment n d0 seg s vpc q st : linked d0 → own seg → gs_vpc_id s = Some vpc →
  act (knows (S n) d0 (λ _, True)) (persist_segment seg s (linknet_row q) st)
    (λ ids, knows (S n) d0 (λ d, ∃ id, (stored_segment d0 seg = None ∧ id ∈ ids ∧
         ∀ k, k ∈ ids → own k → network_prefixes d0 !! k = None) ∧
       segment_at seg vpc d ∧ row_at id (λ n, np_segment_id n = seg ∧ np_prefix n = to_cidr q) d)) (broken d0).
Proof using Hown.
  intros Hlinked Ho Hv. unfold persist_segment.
  eapply act_bind; [apply (act_statement _ _ _ _ (λ _ d, segment_at seg vpc d ∧ stored_segment d0 seg = None)); [apply _|]|].
  { intros c d a d' Hg _ (d1 & Hd & [= _ <-])%result_bind_ok.
    destruct (good_insert_segment _ _ _ _ _ _ _ _ Hg Hd Ho Hv) as (? & ? & ?). done. }
  intros v. eapply act_bind; [apply act_create_for; [apply _|done]|]. intros id.
  eapply act_bind; [eapply (act_write _ _ _ _ (λ d, ((segment_at seg vpc d ∧ stored_segment d0 seg = None) ∧
    network_prefixes d0 !! id = None) ∧ row_at id _ d)); [apply _|]|].
  { intros c d d' Hg Hφ [= <-]. split; [by apply good_history|exact Hφ]. }
  intros []. apply act_statement; [apply _|]. intros c d ids d' Hg [[[Hs Hnew] Hnone] Hr].
  destruct (rows (network_segments d) !! seg); [|done]. intros [= <- <-]. split; [done|]. exists id.
  split_and!; [done| | |done|done].
  - destruct Hr as (_ & m & Hm & Hseg & _). apply list_elem_of_fmap. exists (id, m). split; [done|].
    apply list_elem_of_filter. split; [done|]. by apply elem_of_map_to_list.
  - intros k ([k' m] & -> & [Hseg Hin%elem_of_map_to_list]%list_elem_of_filter)%list_elem_of_fmap Hk. simpl in *.
    apply eq_None_not_Some. intros [m' Hm'].
    pose proof (ext_prefix _ _ (good_ext _ _ Hg) _ _ Hk Hm') as Hm. assert (m' = m) as -> by congruence. clear Hm.
    destruct (Hlinked k' m Hk Hm') as [_ [x Hx]]. congruence.
Qed.
Lemma act_create_segment n d0 a vpc q : linked d0 →
  act (knows (S n) d0 (λ _, True)) (allocate_network_segment_for_prefix print_ip a vpc q)
    (λ seg, knows (S n) d0 (λ d, stored_segment d0 seg = None ∧ referred seg vpc (pa_vpc_prefix_id a) q d)) (broken d0).
Proof using Hown.
  intros Hl. unfold allocate_network_segment_for_prefix.
  eapply act_bind; [apply act_uuid|]. intros seg w [Ho Hw]. revert w Hw.
  eapply act_bind; [by apply (act_persist_segment _ _ _ _ vpc)|]. intros ids w [Hs Hu Hd Hsv Hdb (id & (Hnew & Hin & Hids) & Hf)].
  assert (Hw : knows (S n) d0 (λ d, segment_at seg vpc d ∧ row_at id (λ n, np_segment_id n = seg ∧
    np_prefix n = to_cidr q ∧ (id ∈ ids ∨ np_vpc_prefix n = Some (pa_vpc_prefix_id a, to_cidr (pa_vpc_prefix a)))) d) w).
  { split; try done. destruct Hf as (Hseg & Hi & m & Hm & ? & ?). split; [done|]. split; [done|]. exists m. by auto. }
  clear Hs Hu Hd Hsv Hdb Hf. revert w Hw. eapply act_bind; [by apply act_refer|]. intros []. apply act_ret.
  intros w. apply knows_impl. intros d Hd. split; [done|]. by eapply referred_intro.
Qed.

Lemma act_attach n d0 a seg vpc q : segment_at seg vpc d0 →
  act (knows (S n) d0 (λ _, True)) (allocate_linknet_for_segment_with_prefix a seg q)
    (λ _, knows (S n) d0 (referred seg vpc (pa_vpc_prefix_id a) q)) (broken d0).
Proof using Hown.
  intros Hseg. unfold allocate_linknet_for_segment_with_prefix.
  eapply act_bind; [apply act_create_for; [apply _|apply Hseg]|]. intros id w [Hs Hu Hd Hsv Hdb [[_ Hnew] Hf]].
  assert (Hw : knows (S n) d0 (λ d, segment_at seg vpc d ∧ row_at id (λ n, np_segment_id n = seg ∧
    np_prefix n = to_cidr q ∧ (id ∈ [id] ∨ np_vpc_prefix n = Some (pa_vpc_prefix_id a, to_cidr (pa_vpc_prefix a)))) d) w).
  { split; try done. destruct Hf as (Hi & m & Hm & ? & ?). split; [by eapply lasting; [apply Hdb|]|].
    split; [done|]. exists m. split_and!; try done. left. by left. }
  clear Hs Hu Hd Hsv Hdb Hf. revert w Hw. eapply act_weaken; [apply act_refer|done|].
  - intros k ->%list_elem_of_singleton _. done.
  - intros [] w. apply knows_impl. intros d. apply referred_intro.
Qed.

(** The segment of the linknet that an operation reports; one that it creates is new. *)
Definition fresh_for (op : PrefixAllocationOperation) (d : net_db) (seg : string) : Prop :=
  op = Create → stored_segment d seg = None.

Definition reported (op : PrefixAllocationOperation) (oc : CandidateAllocationOutcome) (seg : string) : Prop :=
  match op with Create => oc = Allocated (Some seg) | Attach s => s = seg ∧ oc = Allocated None end.

#[local] Instance reported_lasting vpc fam c req op oc :
  ∀ d0, Lasting (λ d, ∀ seg, reported op oc seg → fresh_for op d0 seg ∧ allocated_at vpc fam c req seg d).
Proof using Type. intros d0 d d' He H seg Hr. destruct (H seg Hr). split; [done|]. by eapply lasting. Qed.

Lemma act_once vpc fam c op req d0 : linked d0 → (∀ seg, op = Attach seg → segment_at seg vpc d0) →
  act (knows 1 d0 (λ _, True)) (allocate_prefix_candidate_once print_net print_ip vpc fam c op req)
    (λ oc, knows 1 d0 (λ d, ∀ seg, reported op oc seg → fresh_for op d0 seg ∧ allocated_at vpc fam c req seg d)) (broken d0).
Proof using Hown.
  intros Hl Hop. unfold allocate_prefix_candidate_once.
  apply (act_bind _ _ (λ _, knows 1 d0 (λ _, True))); [intros w []; by split|]. intros [].
  assert (Hnone : ∀ oc, (∀ seg, ¬ reported op oc seg) → act (knows 1 d0 (λ _, True)) (mret oc)
    (λ oc, knows 1 d0 (λ d, ∀ seg, reported op oc seg → fresh_for op d0 seg ∧ allocated_at vpc fam c req seg d)) (broken d0)).
  { intros oc Hoc. apply act_ret. intros w. apply knows_impl. by intros d _ seg ?%Hoc. }
  eapply act_bind; [apply (act_read _ _ _ _ (λ l _, ∀ p, l = Some p → row_group p = cat c)); [apply _|]|].
  { intros d Hg _ p. unfold lock_for_allocation. destruct (vpc_prefix_of d c) as [x|] eqn:Hx; [|done]. simpl.
    destruct (is_marked_as_deleted x); [done|]. intros [= <-]. by apply (good_cat _ _ Hg). }
  intros [p|] w [Hs Hu Hd Hsv Hdb Hcat]; (assert (Hw : knows 1 d0 (λ _, True) w) by by split);
    clear Hs Hu Hd Hsv Hdb; revert w Hw; [|apply Hnone; intros seg; by destruct op; [intros [=]|intros [_ [=]]]].
  case_bool_decide as Hv; simpl; [|intros w Hw; by eapply knows_broken].
  case_bool_decide as Hf; simpl; [|intros w Hw; by eapply knows_broken].
  eapply act_bind; [apply act_lift|]. intros al w [Hal Hw]. revert w Hw.
  eapply act_bind; [by apply (act_read _ _ _ _ (λ _ _, True))|]. intros used.
  eapply act_bind; [apply act_lift|]. intros [q|] w [Hq Hw]; revert w Hw;
    [|apply Hnone; intros seg; by destruct op; [intros [=]|intros [_ [=]]]].
  assert (Hreq : ∀ r, req = Some r → q = r).
  { intros r ->. unfold select_prefix in Hq. by apply result_bind_ok in Hq as (_ & _ & [= ->]). }
  assert (Eal : pa_vpc_prefix_id al = c) by (revert Hal; unfold new_allocator; repeat case_match; by intros [= <-]).
  apply (act_bind _ _ (λ s, knows 1 d0 (λ d, ∀ seg, reported op (Allocated s) seg → fresh_for op d0 seg ∧ referred seg vpc c q d))).
  - destruct op as [|seg].
    + eapply act_bind; [by apply act_create_segment|]. intros seg. apply act_ret. intros w. apply knows_impl.
      rewrite Eal. intros d [Hnew Hr] seg' [= <-]. split; [by intros _|done].
    + eapply act_bind; [apply act_attach; by apply Hop|]. intros []. apply act_ret. intros w. apply knows_impl.
      rewrite Eal. intros d Hr seg' [<- _]. split; [by intros ?|done].
  - intros s. eapply act_bind; [apply (act_write _ _ _ _ (λ d, ∀ seg, reported op (Allocated s) seg → fresh_for op d0 seg ∧ referred seg vpc c q d))|].
    + intros d d' He H seg Hr. destruct (H seg Hr). split; [done|]. by eapply lasting.
    + intros _ d d' Hg Hr Hup. destruct (good_update_last_used _ _ _ _ _ Hg Hup) as [? He]. split; [done|].
      intros seg Hs. destruct (Hr seg Hs). split; [done|]. by eapply lasting.
    + intros []. apply act_ret. intros w. apply knows_impl. intros d Hr seg Hs.
      destruct (Hr seg Hs) as (Hnew & Hseg & id & Ho & n & Hn & Hns & Hnq & Hnp). split; [done|]. split; [|split; [done|]].
      * rewrite <- (Hcat p eq_refl). unfold row_group. congruence.
      * exists id. split; [done|]. exists n. split_and!; try done. intros r ->%Hreq. done.
Qed.

(** An attempt keeps the rows of the transaction and stores the linknet that it reports. *)
Lemma act_attempts n vpc fam c op req d0 : linked d0 → (∀ seg, op = Attach seg → segment_at seg vpc d0) →
  act (knows 0 d0 (λ _, True)) (candidate_attempts print_net print_ip n vpc fam c op req)
    (λ oc, knows 0 d0 (λ d, ∀ seg, reported op oc seg → fresh_for op d0 seg ∧ allocated_at vpc fam c req seg d)) (λ _, True).
Proof using Hown.
  intros Hl Hop. induction n as [|n IH]; simpl; [by intros w|].
  eapply act_bind; [by apply act_begin; [apply _|]|]. intros k w [-> Hw]. revert w Hw.
  eapply act_bind; [by eapply act_catch, act_once|]. intros [oc|e].
  - assert (Hroll : act (knows 1 d0 (λ d, ∀ seg, reported op oc seg → fresh_for op d0 seg ∧ allocated_at vpc fam c req seg d))
      (rollback_inner 0) (λ _, knows 0 d0 (λ _, True)) (λ _, True)).
    { eapply act_weaken; [apply act_rollback|apply knows_broken|done]. }
    destruct oc as [s| |]; (eapply act_bind; [first [exact Hroll|by apply act_commit; [apply _|lia|]]|]); intros [];
      apply act_ret; intros w; try done; apply knows_impl; intros d _ seg; by destruct op; [intros [=]|intros [_ [=]]].
  - eapply act_bind; [apply act_rollback|]. intros []. destruct (is_network_prefix_overlap_conflict e); [done|by intros w].
Qed.
End Stored.
