(* ===== verification/AttemptFacts.v ===== *)
(** * What an attempt to allocate a linknet does when nothing interferes

    In an address space that is well formed, the next free linknet of a VPC prefix
    overlaps no network prefix at all, so that inserting it violates no constraint.
    Hence an attempt that is not disturbed allocates exactly when a linknet is free. *)

From S2P Require Import Prelude Ordered IpNetwork VpcCapability ConfigVersion StateHistory ControllerTable.
From S2P Require Import NetworkSegment VpcPrefix VpcPrefixFacts LinknetAllocator LinknetAllocatorFacts.
From S2P Require Import PrefixAllocation PrefixAllocationFacts.

Section Rest.
Context `{I : IpNetworks} (print_net : IpNetwork → string) (print_ip : bool * Z → string).

(** ** Actions when nothing interferes *)

Notation at_rest d sv us R := (mk_world d sv [] us R).

Lemma statement_rest {A} (f : Z → net_db → result DatabaseError (A * net_db)) d sv us R a d' :
  f 0 d = Ok (a, d') → statement f (at_rest d sv us R) = (Ok a, at_rest d' sv us R).
Proof using Type.
  intros Hf. unfold statement, next_step. simpl. rewrite Hf, list_fmap_id. done.
Qed.

Lemma read_rest {A} (f : net_db → A) d sv us R :
  read f (at_rest d sv us R) = (Ok (f d), at_rest d sv us R).
Proof using Type. by apply statement_rest. Qed.

Lemma write_rest f d sv us R d' : f 0 d = Ok d' →
  write f (at_rest d sv us R) = (Ok (), at_rest d' sv us R).
Proof using Type. intros Hf. apply statement_rest. by rewrite Hf. Qed.

Lemma uuid_rest d sv u us R : new_uuid (at_rest d sv (u :: us) R) = (Ok u, at_rest d sv us R).
Proof using Type. done. Qed.

Lemma begin_rest d sv us R : begin_inner (at_rest d sv us R) = (Ok (length sv), at_rest d (d :: sv) us R).
Proof using Type. unfold begin_inner, savepoint, next_step. simpl. by rewrite list_fmap_id. Qed.

Lemma commit_rest d d0 sv us R :
  commit_inner (length sv) (at_rest d (d0 :: sv) us R) = (Ok (), at_rest d sv us R).
Proof using Type.
  assert (E : (S (length sv) - length sv)%nat = 1%nat) by lia. simpl in E.
  unfold commit_inner, savepoint, next_step. simpl. by rewrite list_fmap_id, E.
Qed.

Lemma rollback_rest d d0 sv us R :
  rollback_inner (length sv) (at_rest d (d0 :: sv) us R) = (Ok (), at_rest d0 sv us R).
Proof using Type.
  assert (E : (S (length sv) - length sv)%nat = 1%nat) by lia. simpl in E.
  unfold rollback_inner, savepoint, next_step. simpl. by rewrite list_fmap_id, E, Nat.sub_diag.
Qed.

(** ** The next free linknet can be inserted *)

(** In a well-formed address space what overlaps a VPC prefix is counted as its
    occupancy. *)
Lemma free_of_occupancy d id p q :
  net_wf d → space_of d id = Some p → within q p = true →
  Forall (λ u, overlaps u q = false) (find_allocation_occupancy id p d) →
  ∀ k n, network_prefixes d !! k = Some n → overlaps (np_prefix n) q = false.
Proof using Type.
  intros Hwf Hp Hq Hf k n Hn. apply not_true_is_false. intros Ho.
  assert (Hpn : overlaps p (np_prefix n) = true) by (rewrite net_overlaps_sym in Ho; by eapply within_overlaps).
  rewrite Forall_forall in Hf. unfold find_allocation_occupancy in Hf.
  destruct (np_vpc_prefix n) as [[j s]|] eqn:Hr; [destruct (decide (j = id)) as [->|Hj]|].
  2: { destruct (references_hold _ Hwf k n j s Hn Hr) as [Hs Hw].
       rewrite net_overlaps_sym in Hpn. pose proof (within_overlaps _ _ _ Hw Hpn) as Hsp.
       rewrite (spaces_disjoint _ Hwf j id s p Hj Hs Hp) in Hsp. done. }
  all: rewrite (Hf (np_prefix n)) in Ho; [done|]; apply list_elem_of_fmap; exists n; split; [done|];
    apply list_elem_of_filter; split;
    [rewrite net_overlaps_sym, Hpn, Hr; simpl; rewrite ?bool_decide_eq_true_2 by done; done|];
    apply list_elem_of_fmap; exists (k, n); split; [done|]; by apply elem_of_map_to_list.
Qed.

(** The tables with a new network prefix *)
Definition with_prefix (nid : string) (n : NetworkPrefix) (d : net_db) : net_db :=
  set_network_prefixes (<[nid := n]> (network_prefixes d)) d.

(** The row of a linknet *)
Definition linknet_of (seg : string) (q : IpNetwork) (parent : option (string * IpNetwork)) : NetworkPrefix :=
  mk_network_prefix seg (to_cidr q) (new_gateway (linknet_row q)) (new_num_reserved (linknet_row q)) parent.

(** The segment exists and has no prefix of the family, and nothing overlaps the linknet. *)
Record insertable (d : net_db) (nid seg : string) (q : IpNetwork) : Prop := {
  ins_fresh : network_prefixes d !! nid = None;
  ins_free k n : network_prefixes d !! k = Some n → overlaps (np_prefix n) q = false;
  ins_family k n : network_prefixes d !! k = Some n → np_segment_id n = seg → net_v6 (np_prefix n) ≠ net_v6 q;
  ins_segment : is_Some (rows (network_segments d) !! seg);
  ins_length : net_prefix q < family_bits (net_v6 q);
}.

Lemma insert_linknet d nid seg q : insertable d nid seg q →
  insert_network_prefix nid seg (linknet_row q) d = Ok (with_prefix nid (linknet_of seg q None) d).
Proof using Type.
  intros [Hid Hfree Hfam [r Hseg] Hlen]. unfold insert_network_prefix. cbv zeta.
  change (new_prefix (linknet_row q)) with q.
  destruct (to_cidr_spec q) as (Ev & El & En & Eb & _). pose proof (network_bounds q) as Hb.
  pose proof (net_size_pos q). rewrite (broadcast_size q) in Eb.
  assert (Hnone : ∀ f : NetworkPrefix → bool, (∀ k n, network_prefixes d !! k = Some n → f n = false) →
    existsb f (map_to_list (network_prefixes d)).*2 = false).
  { intros f Hf. apply not_true_is_false. intros (n & Hin%list_elem_of_In & Ht)%existsb_exists.
    apply list_elem_of_fmap in Hin as ([k n'] & -> & Hin%elem_of_map_to_list).
    simpl in Ht. by rewrite (Hf k n' Hin) in Ht. }
  assert (match new_gateway (linknet_row q) with
          | Some g => negb (address_within g (to_cidr q))
          | None => false
          end = false) as ->.
  { unfold linknet_row. simpl. destruct (net_v6 q) eqn:E; [done|]. apply negb_false_iff. unfold address_within.
    rewrite net_contains_ip_spec, Ev, El, En, Eb, bool_decide_eq_true_2 by done. cbn [fst snd].
    rewrite (proj2 (Z.leb_le _ _)), (proj2 (Z.leb_le _ _)), (proj2 (Z.ltb_lt _ _)) by (simpl in *; lia). done. }
  assert (net_v6 (to_cidr q) && bool_decide (is_Some (new_gateway (linknet_row q))) = false) as ->.
  { rewrite Ev. unfold linknet_row. simpl. by destruct (net_v6 q). }
  rewrite decide_False by (rewrite Hid; by intros []).
  rewrite !Hnone, decide_False; [done|congruence| |].
  - intros k n Hk. rewrite Ev. case_bool_decide as Hs; [|done]. simpl. by apply bool_decide_eq_false, (Hfam k).
  - intros k n Hk. rewrite overlaps_cidr_r. by eapply Hfree.
Qed.

Lemma create_linknet d sv us R nid seg q : insertable d nid seg q →
  create_for seg (linknet_row q) (at_rest d sv (nid :: us) R) =
  (Ok nid, at_rest (with_prefix nid (linknet_of seg q None) d) sv us R).
Proof using Type.
  intros Hins. unfold create_for. rewrite bind_run, begin_rest, bind_run, uuid_rest.
  rewrite bind_run, (write_rest _ _ _ _ _ _ (insert_linknet d nid seg q Hins)), bind_run, commit_rest. done.
Qed.

(** The reference to the VPC prefix *)
Lemma refer_linknet d sv us R nid seg q id p :
  space_of d id = Some p → to_cidr p = p → within q p = true →
  set_vpc_prefixes_of [nid] id p (at_rest (with_prefix nid (linknet_of seg q None) d) sv us R) =
  (Ok (), at_rest (with_prefix nid (linknet_of seg q (Some (id, p))) d) sv us R).
Proof using Type.
  intros Hs Hc Hw. simpl. rewrite bind_run, (write_rest _ _ _ _ _ (with_prefix nid (linknet_of seg q (Some (id, p))) d));
    [done|].
  unfold set_vpc_prefix. simpl. rewrite lookup_insert_eq, Hc.
  assert (within (np_prefix (linknet_of seg q None)) p = true) as ->.
  { simpl. destruct (to_cidr_spec q) as (Ev & _ & En & Eb & _). unfold within in *. by rewrite Ev, En, Eb. }
  simpl. change (vpc_prefix_of (with_prefix nid (linknet_of seg q None) d) id) with (vpc_prefix_of d id).
  change (vp_prefix <$> vpc_prefix_of d id) with (space_of d id). rewrite Hs, decide_True by done.
  unfold with_prefix. simpl. by rewrite insert_insert_eq.
Qed.

(** ** The operations *)

(** The ids drawn are new. *)
Definition fresh_ids (d : net_db) (seg nid : string) : Prop :=
  rows (network_segments d) !! seg = None ∧ network_prefixes d !! nid = None ∧
  ∀ k n, network_prefixes d !! k = Some n → np_segment_id n ≠ seg.

(** The segment of a linknet *)
Definition linknet_segment (vpc : string) (q : IpNetwork) : GeneratedSegment :=
  mk_generated_segment ("vpc_prefix_" +:+ print_ip (net_v6 q, network q)) (Some vpc) 9000 Tenant (Some false).

(** The tables with a new segment and its history *)
Definition with_segment (seg : string) (s : GeneratedSegment) (d : net_db) : net_db :=
  let t := network_segments d in
  set_segments (persist_history_row
    (mk_table (<[seg := mk_row (mk_versioned NetworkSegment.Ready (initial 0)) None s]> (rows t)) (log t))
    0 seg (initial 0) NetworkSegment.Ready) d.

Lemma prefixes_of_new_segment d d' nid n :
  network_prefixes d' = <[nid := n]> (network_prefixes d) → network_prefixes d !! nid = None →
  (∀ k m, network_prefixes d !! k = Some m → np_segment_id m ≠ np_segment_id n) →
  prefixes_of_segment (np_segment_id n) d' = [nid].
Proof using Type.
  intros Hd Hid Hno. unfold prefixes_of_segment. rewrite Hd. apply Permutation_singleton_r.
  rewrite map_to_list_insert by done. rewrite filter_cons_True by done. csimpl.
  rewrite filter_nil_of; [done|]. intros [k m] Hin%elem_of_map_to_list. by apply (Hno k).
Qed.

Lemma create_segment_linknet d sv us R a vpc seg nid q p :
  fresh_ids d seg nid → is_Some (vpcs d !! vpc) → pa_vpc_prefix a = p →
  space_of d (pa_vpc_prefix_id a) = Some p → to_cidr p = p → within q p = true →
  (∀ k n, network_prefixes d !! k = Some n → overlaps (np_prefix n) q = false) →
  net_prefix q < family_bits (net_v6 q) →
  allocate_network_segment_for_prefix print_ip a vpc q (at_rest d sv (seg :: nid :: us) R) =
  (Ok seg, at_rest (with_prefix nid (linknet_of seg q (Some (pa_vpc_prefix_id a, p)))
                      (with_segment seg (linknet_segment vpc q) d)) sv us R).
Proof using Type.
  intros (Hs & Hn & Hnos) [v Hv] Ha Hsp Hc Hw Hfree Hlen. unfold allocate_network_segment_for_prefix.
  rewrite bind_run, uuid_rest, bind_run. unfold persist_segment. rewrite bind_run.
  set (t0 := network_segments d).
  set (d1 := set_segments (mk_table (<[seg := mk_row (mk_versioned NetworkSegment.Ready (initial 0)) None
    (linknet_segment vpc q)]> (rows t0)) (log t0)) d).
  rewrite (statement_rest _ d sv _ R (initial 0) d1).
  2: { unfold insert_segment. cbv zeta. rewrite Hs. simpl. by rewrite decide_False by congruence. }
  rewrite bind_run, (create_linknet d1 sv us R nid seg q).
  2: { split; [done|done| |by simpl; rewrite lookup_insert_eq|done]. intros k n Hk E. by destruct (Hnos k n Hk). }
  rewrite bind_run. erewrite write_rest by done.
  erewrite statement_rest.
  2: { simpl. by rewrite lookup_insert_eq. }
  erewrite (prefixes_of_new_segment d _ nid (linknet_of seg q None)) by done.
  set (d2 := set_segments _ _).
  change d2 with (with_prefix nid (linknet_of seg q None) (with_segment seg (linknet_segment vpc q) d)).
  rewrite bind_run, Ha, refer_linknet by done. done.
Qed.

Lemma attach_linknet d sv us R a seg nid q p :
  insertable d nid seg q → pa_vpc_prefix a = p →
  space_of d (pa_vpc_prefix_id a) = Some p → to_cidr p = p → within q p = true →
  allocate_linknet_for_segment_with_prefix a seg q (at_rest d sv (nid :: us) R) =
  (Ok (), at_rest (with_prefix nid (linknet_of seg q (Some (pa_vpc_prefix_id a, p))) d) sv us R).
Proof using Type.
  intros Hins Ha Hsp Hc Hw. unfold allocate_linknet_for_segment_with_prefix.
  rewrite bind_run, create_linknet by done. by rewrite Ha, refer_linknet.
Qed.

(** ** Attempts *)

(** The ids of the segment and of the network prefix that the operation uses, and what it
    needs of them *)
Definition ready_for (op : PrefixAllocationOperation) (vpc : string) (fam : AllocationAddressFamily)
    (d : net_db) (us : list string) (seg nid : string) (us' : list string) : Prop :=
  match op with
  | Create => us = seg :: nid :: us' ∧ fresh_ids d seg nid ∧ is_Some (vpcs d !! vpc)
  | Attach s => s = seg ∧ us = nid :: us' ∧ network_prefixes d !! nid = None ∧
      is_Some (rows (network_segments d) !! seg) ∧
      ∀ k n, network_prefixes d !! k = Some n → np_segment_id n = seg → from_network (np_prefix n) ≠ fam
  end.

(** The tables after the allocation of the linknet [q] *)
Definition with_linknet (op : PrefixAllocationOperation) (vpc id : string) (p q : IpNetwork) (seg nid : string)
    (d : net_db) : net_db :=
  let d := match op with Create => with_segment seg (linknet_segment vpc q) d | Attach _ => d end in
  set_vpc_prefix_row id (λ r, mk_vpc_prefix (vp_vpc_id r) (vp_prefix r) (Some q) (vp_deleted r))
    (with_prefix nid (linknet_of seg q (Some (id, p))) d).

Definition segment_of (op : PrefixAllocationOperation) (seg : string) : option string :=
  match op with Create => Some seg | Attach _ => None end.

Lemma next_free_prefix_insertable d id p a q :
  net_wf d → vpc_prefix_of d id = Some p →
  new_allocator id (vp_prefix p) (last_used_prefix p) (linknet_prefix (from_network (vp_prefix p))) = Ok a →
  next_free_prefix a (find_allocation_occupancy id (vp_prefix p) d) = Ok q →
  within q (vp_prefix p) = true ∧ net_prefix q < family_bits (net_v6 q) ∧
  from_network q = from_network (vp_prefix p) ∧
  ∀ k n, network_prefixes d !! k = Some n → overlaps (np_prefix n) q = false.
Proof using Type.
  intros Hwf Hp Hnew Hnext.
  pose proof (next_free_prefix_exact _ _ _ _ _ (find_allocation_occupancy id (vp_prefix p) d) Hnew
                (linknet_width (vp_prefix p))) as H.
  rewrite Hnext in H. destruct H as (k & _ & _ & Hlen & Hw & Hf & _). split; [done|].
  assert (net_v6 q = net_v6 (vp_prefix p)) as Ev.
  { unfold within in Hw. apply andb_true_iff in Hw as [[Hw%bool_decide_eq_true _]%andb_true_iff _]. done. }
  rewrite Hlen. unfold from_network. rewrite Ev. split_and!; [by destruct (net_v6 (vp_prefix p))|done|].
  eapply free_of_occupancy; [done| |done|done]. unfold space_of. by rewrite Hp.
Qed.

Section Candidate.
Context (d : net_db) (id : string) (p : VpcPrefix) (a : PrefixAllocator).
Context (Hwf : net_wf d) (Hlock : lock_for_allocation id d = Some p).
Hypothesis Hnew :
  new_allocator id (vp_prefix p) (last_used_prefix p) (linknet_prefix (from_network (vp_prefix p))) = Ok a.

Lemma lock_row : vpc_prefix_of d id = Some p.
Proof using Hlock.
  revert Hlock. unfold lock_for_allocation. destruct (vpc_prefix_of d id) as [r|]; [|done]. simpl.
  by destruct (is_marked_as_deleted r).
Qed.

Lemma allocator_fields : pa_vpc_prefix a = vp_prefix p ∧ pa_vpc_prefix_id a = id.
Proof using Hnew. revert Hnew. unfold new_allocator. repeat case_match; intros [= <-]; done. Qed.

Lemma once_rest op sv us R seg nid us' :
  ready_for op (vp_vpc_id p) (from_network (vp_prefix p)) d us seg nid us' →
  let R' := R ++ [(vp_vpc_id p, from_network (vp_prefix p), id)] in
  allocate_prefix_candidate_once print_net print_ip (vp_vpc_id p) (from_network (vp_prefix p)) id op None
    (at_rest d sv us R) =
  match next_free_prefix a (find_allocation_occupancy id (vp_prefix p) d) with
  | Ok q => (Ok (Allocated (segment_of op seg)), at_rest (with_linknet op (vp_vpc_id p) id (vp_prefix p) q seg nid d) sv us' R')
  | Err _ => (Ok Exhausted, at_rest d sv us R')
  end.
Proof using Hwf Hlock Hnew.
  intros Hready R'. unfold allocate_prefix_candidate_once. rewrite bind_run. unfold request_lock at 1.
  cbn [db saved script uuids requests]. fold R'.
  rewrite bind_run, read_rest, Hlock. rewrite !bool_decide_eq_true_2 by done. cbn [negb orb].
  rewrite bind_run. unfold lift at 1. rewrite Hnew, bind_run, read_rest, bind_run. unfold lift at 1, select_prefix.
  destruct allocator_fields as [Ea Ei]. pose proof lock_row as Hp.
  assert (space_of d id = Some (vp_prefix p)) as Hsp by (unfold space_of; by rewrite Hp).
  pose proof (spaces_canonical _ Hwf id _ Hsp) as Hc.
  destruct (next_free_prefix a _) as [q|e] eqn:Hnext.
  - destruct (next_free_prefix_insertable d id p a q Hwf Hp Hnew Hnext) as (Hw & Hlen & Hfam & Hfree).
    set (D := match op with Create => with_segment seg (linknet_segment (vp_vpc_id p) q) d | Attach _ => d end).
    rewrite bind_run.
    assert (Hop : (match op with
                   | Create => segment_id ← allocate_network_segment_for_prefix print_ip a (vp_vpc_id p) q;
                               mret (Some segment_id)
                   | Attach s => _ ← allocate_linknet_for_segment_with_prefix a s q; mret None
                   end) (at_rest d sv us R') =
      (Ok (segment_of op seg), at_rest (with_prefix nid (linknet_of seg q (Some (id, vp_prefix p))) D) sv us' R')).
    { destruct op as [|s].
      - destruct Hready as (-> & Hfresh & Hvpc). rewrite bind_run, (create_segment_linknet _ _ _ _ _ _ _ _ _ (vp_prefix p));
          try done; by rewrite Ei.
      - destruct Hready as (-> & -> & Hn & Hs & Hf). rewrite bind_run, (attach_linknet _ _ _ _ _ _ _ _ (vp_prefix p));
          try done; [by rewrite Ei| |by rewrite Ei].
        split; try done. intros k n Hk Hseg Ev. apply (Hf k n Hk Hseg). rewrite <- Hfam. unfold from_network. by rewrite Ev. }
    rewrite Hop, bind_run.
    rewrite (write_rest _ _ _ _ _ (with_linknet op (vp_vpc_id p) id (vp_prefix p) q seg nid d)); [done|].
    unfold update_last_used_prefix. change (lock_for_allocation id (with_prefix _ _ D)) with (lock_for_allocation id D).
    assert (lock_for_allocation id D = Some p) as -> by (subst D; by destruct op). done.
  - pose proof (next_free_prefix_exact _ _ _ _ _ (find_allocation_occupancy id (vp_prefix p) d) Hnew
                  (linknet_width (vp_prefix p))) as H. rewrite Hnext in H. by destruct H as [[m ->] _].
Qed.
End Candidate.

(** C24: An attempt on a candidate that no other transaction disturbs and in which no
    statement fails allocates a linknet exactly when one is free: it reports a prefix
    that is gone or marked as deleted, reports exhaustion and changes nothing when no
    linknet is free, and otherwise stores the next free linknet, with its segment and the
    reference to the VPC prefix, moves the cursor of the prefix there, and leaves the
    address space well formed; no constraint of the tables is ever violated. *)
Theorem undisturbed_attempt_spec d sv us R op vpc fam id a seg nid us' :
  world_wf (at_rest d sv us R) →
  (∀ p, lock_for_allocation id d = Some p → vp_vpc_id p = vpc ∧ from_network (vp_prefix p) = fam ∧
     new_allocator id (vp_prefix p) (last_used_prefix p) (linknet_prefix fam) = Ok a) →
  ready_for op vpc fam d us seg nid us' →
  let '(r, w') := attempt_prefix_candidate print_net print_ip vpc fam id op None (at_rest d sv us R) in
  saved w' = sv ∧ requests w' = R ++ [(vpc, fam, id)] ∧ net_wf (db w') ∧
  match lock_for_allocation id d with
  | None => r = Ok Deleted ∧ db w' = d
  | Some p =>
      match next_free_prefix a (find_allocation_occupancy id (vp_prefix p) d) with
      | Ok q => r = Ok (Allocated (segment_of op seg)) ∧
                db w' = with_linknet op vpc id (vp_prefix p) q seg nid d
      | Err _ => r = Ok Exhausted ∧ db w' = d
      end
  end.
Proof using Type.
  intros Hww Hlock Hready. pose proof (wf_db _ Hww) as Hwf. simpl in Hwf.
  pose proof (keeps_attempts print_net print_ip world_wf vpc fam id 2 op None _ Hww) as Hwf'.
  destruct (attempt_prefix_candidate _ _ _ _ _ _ _ _) as [r w'] eqn:E.
  unfold attempt_prefix_candidate, PREFIX_ALLOCATION_TOTAL_ATTEMPTS in E. rewrite E in Hwf'.
  apply wf_db in Hwf'. simpl in Hwf'. revert E. simpl. rewrite bind_run, begin_rest, bind_run. unfold catch at 1.
  destruct (lock_for_allocation id d) as [p|] eqn:Hl.
  - destruct (Hlock p eq_refl) as (<- & <- & Hnew). rewrite (once_rest d id p a Hwf Hl Hnew op _ us R seg nid us' Hready).
    destruct (next_free_prefix _ _) as [q|e].
    + rewrite bind_run, commit_rest. by intros [= <- <-].
    + rewrite bind_run, rollback_rest. by intros [= <- <-].
  - assert (allocate_prefix_candidate_once print_net print_ip vpc fam id op None (at_rest d (d :: sv) us R) =
      (Ok Deleted, at_rest d (d :: sv) us (R ++ [(vpc, fam, id)]))) as ->.
    { unfold allocate_prefix_candidate_once. rewrite bind_run. unfold request_lock at 1.
      cbn [db saved script uuids requests]. by rewrite bind_run, read_rest, Hl. }
    rewrite bind_run, rollback_rest. by intros [= <- <-].
Qed.
End Rest.

Section Examples.
Import VpcPrefixExamples.

#[local] Instance VpcPrefix_eq_dec : EqDecision VpcPrefix.
Proof. solve_decision. Defined.

Definition start_world (us : list string) : World := mk_world start [] [] us [].

Lemma start_world_wf us : world_wf (start_world us).
Proof. split; [apply start_wf|by constructor..]. Qed.

(** The only linknet of the first prefix is allocated, with a new segment. *)
Lemma undisturbed_attempt_spec_witness :
  let '(r, w') := attempt_prefix_candidate (λ _, EmptyString) (λ _, EmptyString) "v" Ipv4 "p1" Create None
                    (start_world ["s"; "n"]) in
  r = Ok (Allocated (Some "s")) ∧ net_wf (db w') ∧
  db w' = with_linknet (λ _, EmptyString) Create "v" "p1" (v4 10 0 0 0 31) (v4 10 0 0 0 31) "s" "n" start.
Proof.
  set (p := v4 10 0 0 0 31).
  assert (Hlock : lock_for_allocation "p1" start = Some (mk_vpc_prefix "v" p None None))
    by (apply (bool_decide_eq_true_1 _); vm_compute; reflexivity).
  assert (Hnext : next_free_prefix (mk_prefix_allocator "p1" p None 31) (find_allocation_occupancy "p1" p start) = Ok p).
  { set (r := next_free_prefix _ _). assert (E : match r with Ok q => bool_decide (q = p) | Err _ => false end = true)
      by (vm_compute; reflexivity). destruct r; [|discriminate E]. by apply bool_decide_eq_true in E as ->. }
  assert (Hready : ready_for Create "v" Ipv4 start ["s"; "n"] "s" "n" []).
  { split; [reflexivity|]. split; [|by exists (mk_vpc "t" Fnn (mk_version 4 0) false); vm_compute; reflexivity].
    split; [vm_compute; reflexivity|]. split; [apply eq_None_not_Some, (bool_decide_eq_false_1 _); vm_compute; reflexivity|].
    intros k n Hk. exfalso. assert (E : size (network_prefixes start) = 0%nat) by (vm_compute; reflexivity).
    apply map_size_empty_inv in E. rewrite E, lookup_empty in Hk. discriminate Hk. }
  pose proof (undisturbed_attempt_spec (λ _, EmptyString) (λ _, EmptyString) start [] ["s"; "n"] [] Create "v" Ipv4 "p1"
    (mk_prefix_allocator "p1" p None 31) "s" "n" [] (start_world_wf ["s"; "n"])) as H.
  change (mk_world start [] [] ["s"; "n"] []) with (start_world ["s"; "n"]) in H.
  destruct (attempt_prefix_candidate _ _ _ _ _ _ _ _) as [r w'].
  destruct H as (_ & _ & Hwf & Hres); [|exact Hready|].
  - intros q Hq. rewrite Hlock in Hq. injection Hq as <-. split; [reflexivity|]. split; reflexivity.
  - rewrite Hlock in Hres. cbn [vp_prefix] in Hres. rewrite Hnext in Hres. destruct Hres as [Hr Hdb].
    split; [exact Hr|]. split; [exact Hwf|exact Hdb].
Defined.
End Examples.
