(* ===== verification/PrefixExecution.v ===== *)
(** * What the execution of planned linknet allocations guarantees

    For works as the planning makes them, the execution terminates, never fails with an
    internal error, resolves every work item when it succeeds, with segments of their own, and asks for the locks
    of the VPC prefixes in the order of VPC, family and id. *)

From S2P Require Import Prelude Ordered IpNetwork VpcCapability ConfigVersion ControllerTable.
From S2P Require Import NetworkSegment VpcPrefix LinknetAllocator PrefixAllocation PrefixAllocationFacts.

(** ** Queues *)

Lemma push_back_perm c i p : push_back c i p ≫= snd ≡ₚ i :: (p ≫= snd).
Proof.
  unfold push_back. induction p as [|[k q] p IH]; csimpl; [done|].
  destruct (string_cmp c k); csimpl.
  - rewrite <- app_assoc. simpl. symmetry. apply Permutation_middle.
  - done.
  - rewrite IH. symmetry. apply Permutation_middle.
Qed.

Lemma push_back_Forall (P : string * list nat → Prop) c i p :
  Forall P p → (∀ q, P (c, q) ∨ q = [] → P (c, q ++ [i])) → Forall P (push_back c i p).
Proof.
  unfold push_back. intros Hp Hc. induction Hp as [|[k q] p Hk Hp IH]; simpl.
  - constructor; [|done]. simpl. apply (Hc []). by right.
  - destruct (string_cmp c k) eqn:E; simpl.
    + apply (cmp_eq_iff _) in E as ->. constructor; [|done]. apply Hc. by left.
    + constructor; [apply (Hc []); by right|]. by constructor.
    + by constructor.
Qed.

Lemma push_back_keys c i p k : k ∈ (push_back c i p).*1 ↔ k = c ∨ k ∈ p.*1.
Proof. unfold push_back. rewrite bmap_upsert_keys. apply bset_elem_of_insert, _. Qed.

Section Execution.
Context `{I : IpNetworks} (print_net : IpNetwork → string) (print_ip : bool * Z → string).

(** ** Interfaces *)

Definition lookup_interface (targets : list NetworkAllocationTarget) (t i : nat)
    : option InstanceInterfaceConfig := target ← targets !! t; interfaces target !! i.

(** Only the candidate index differs. *)
Definition same_plan (w w' : PrefixAllocationWork) : Prop :=
  set_candidate_index 0 w = set_candidate_index 0 w'.

Lemma same_plan_fields w w' : same_plan w w' →
  target_index w = target_index w' ∧ interface_index w = interface_index w' ∧ w_vpc_id w = w_vpc_id w' ∧
  w_family w = w_family w' ∧ candidates w = candidates w' ∧ slot w = slot w' ∧
  requested_prefix w = requested_prefix w'.
Proof using Type. unfold same_plan, set_candidate_index. intros [=]. done. Qed.

Lemma interface_of_lookup targets w itf :
  lookup_interface targets (target_index w) (interface_index w) = Some itf →
  ∃ t, interface_of targets w = Ok (t, itf) ∧ targets !! target_index w = Some t ∧
    interfaces t !! interface_index w = Some itf.
Proof using Type.
  unfold lookup_interface, interface_of. destruct (targets !! target_index w) as [t|] eqn:Ht; [|done].
  simpl. intros Hi. exists t. by rewrite Hi.
Qed.

Lemma lookup_interface_insert targets t target ii itf t' i' :
  targets !! t = Some target → is_Some (interfaces target !! ii) →
  lookup_interface (<[t := mk_target (<[ii := itf]> (interfaces target)) (tenant target)]> targets) t' i' =
  if decide (t' = t ∧ i' = ii) then Some itf else lookup_interface targets t' i'.
Proof using Type.
  intros Ht [x Hi]. unfold lookup_interface.
  pose proof (lookup_lt_Some _ _ _ Ht). pose proof (lookup_lt_Some _ _ _ Hi).
  destruct (decide (t' = t)) as [->|Hne]; [|rewrite list_lookup_insert_ne, decide_False by naive_solver; done].
  rewrite list_lookup_insert_eq by done. simpl. rewrite Ht. simpl.
  destruct (decide (i' = ii)) as [->|]; [|rewrite list_lookup_insert_ne, decide_False by naive_solver; done].
  rewrite list_lookup_insert_eq, decide_True by done. done.
Qed.

(** Resolving a work item writes its own interface only. *)
Lemma apply_prefix_resolution_ok targets w c s itf :
  lookup_interface targets (target_index w) (interface_index w) = Some itf →
  (slot w = Primary → is_Some s) →
  ∃ itf' targets', resolve_interface itf w c s = Ok itf' ∧
    apply_prefix_resolution targets w c s = Ok targets' ∧
    ∀ t i, lookup_interface targets' t i =
      if decide (t = target_index w ∧ i = interface_index w) then Some itf' else lookup_interface targets t i.
Proof using Type.
  intros Hi Hs. apply interface_of_lookup in Hi as (t & Hio & Ht & Hi).
  assert (∃ itf', resolve_interface itf w c s = Ok itf') as [itf' Hr].
  { unfold resolve_interface. destruct (slot w); [|by eexists]. destruct (Hs eq_refl) as [x ->]. by eexists. }
  unfold apply_prefix_resolution. rewrite Hio. simpl. rewrite Hr. simpl.
  exists itf'. eexists. split; [done|]. split; [done|]. intros t' i'. by apply lookup_interface_insert.
Qed.

(** ** Plans *)

(** Works that the execution can run. *)
Record plan_ok (works : list PrefixAllocationWork) (targets : list NetworkAllocationTarget) : Prop := {
  plan_candidates i w : works !! i = Some w →
    candidates w ≠ [] ∧ StronglySorted (cmp_lt string_cmp) (candidates w) ∧ candidate_index w = 0%nat;
  plan_interfaces i w : works !! i = Some w →
    is_Some (lookup_interface targets (target_index w) (interface_index w));
  (** the IPv4 linknet that creates the segment of a secondary one *)
  plan_secondary i w : works !! i = Some w → slot w = SecondaryIpv6 → w_family w = Ipv6 ∧
    ∃ j p, works !! j = Some p ∧ slot p = Primary ∧ w_family p = Ipv4 ∧ w_vpc_id p = w_vpc_id w ∧
      target_index p = target_index w ∧ interface_index p = interface_index w;
  plan_slots i j w w' : works !! i = Some w → works !! j = Some w' → i ≠ j →
    ¬ (target_index w' = target_index w ∧ interface_index w' = interface_index w ∧ slot w' = slot w);
}.

Definition group_of (w : PrefixAllocationWork) : string * AllocationAddressFamily := (w_vpc_id w, w_family w).

(** How many candidates a work item has left. *)
Definition left_of (works : list PrefixAllocationWork) (i : nat) : nat :=
  match works !! i with Some w => length (candidates w) - candidate_index w | None => 0 end.

Definition measure (works : list PrefixAllocationWork) (l : list nat) : nat := sum_list_with (left_of works) l.

Lemma measure_cons works i l : measure works (i :: l) = (left_of works i + measure works l)%nat.
Proof using Type. done. Qed.

Lemma measure_app works l1 l2 : measure works (l1 ++ l2) = (measure works l1 + measure works l2)%nat.
Proof using Type. apply sum_list_with_app. Qed.

Lemma measure_perm works l1 l2 : l1 ≡ₚ l2 → measure works l1 = measure works l2.
Proof using Type. apply sum_list_with_Permutation_proper. Qed.

Lemma measure_insert_ne works i w l : i ∉ l → measure (<[i := w]> works) l = measure works l.
Proof using Type.
  unfold measure. induction l as [|x l IH]; simpl; [done|]. intros Hi.
  rewrite IH by set_solver. f_equal. unfold left_of. by rewrite list_lookup_insert_ne by set_solver.
Qed.

(** The whole measure is at most the number of candidates. *)
Lemma measure_fuel works l :
  NoDup l → (∀ i, i ∈ l → i < length works)%nat → (measure works l ≤ group_fuel works)%nat.
Proof using Type.
  intros Hnd Hl.
  assert (l ⊆+ seq 0 (length works)) as [k Hk]%submseteq_Permutation.
  { apply NoDup_submseteq; [done|]. intros i Hi. apply elem_of_seq. specialize (Hl i Hi). lia. }
  assert (measure works (seq 0 (length works)) ≤ group_fuel works)%nat as Hm.
  { clear. unfold measure, group_fuel. induction works as [|w ws IH]; [done|]. simpl.
    assert (∀ l, sum_list_with (left_of (w :: ws)) (S <$> l) = sum_list_with (left_of ws) l) as Hs
      by (induction l as [|x l IHl]; csimpl; [done|by rewrite IHl]).
    rewrite <- fmap_S_seq, Hs. apply Nat.add_le_mono; [unfold left_of; simpl; lia|exact IH]. }
  rewrite (measure_perm _ _ _ Hk), measure_app in Hm. lia.
Qed.

(** ** Locks *)

(** The order in which the locks are asked for *)
Definition lock_cmp : string * AllocationAddressFamily * string →
    string * AllocationAddressFamily * string → comparison := pair_cmp group_cmp string_cmp.

#[export] Instance lock_cmp_total : TotalCmp lock_cmp.
Proof. apply pair_cmp_total; apply _. Qed.

(** The lock is that of a candidate of a planned work item. *)
Definition lock_planned (works : list PrefixAllocationWork) (k : string * AllocationAddressFamily * string)
    : Prop := ∃ i w, works !! i = Some w ∧ group_of w = k.1 ∧ k.2 ∈ candidates w.

(** The locks were asked for in order, and none after [k]. *)
Record locks_up_to (works : list PrefixAllocationWork) (k : string * AllocationAddressFamily * string)
    (w : World) : Prop := {
  locks_sorted : StronglySorted (cmp_le lock_cmp) (requests w);
  locks_planned : Forall (lock_planned works) (requests w);
  locks_below : Forall (λ r, cmp_le lock_cmp r k) (requests w);
}.

Lemma locks_asked works k w w' :
  locks_up_to works k w → lock_planned works k → asked (requests w) k w' → locks_up_to works k w'.
Proof using Type.
  intros [Hs Hp Hb] Hk [n Hn]. rewrite Forall_forall in Hb.
  split; rewrite Hn.
  - clear Hn Hp. induction n as [|n IH]; [by rewrite app_nil_r|].
    replace (S n) with (n + 1)%nat by lia. rewrite replicate_add, app_assoc. simpl.
    assert (Forall (λ r, cmp_le lock_cmp r k) (requests w ++ replicate n k)) as Hall.
    { apply Forall_app. split; [by apply Forall_forall|]. apply Forall_replicate, (cmp_le_refl _). }
    by apply StronglySorted_snoc.
  - apply Forall_app. split; [done|]. by apply Forall_replicate.
  - apply Forall_app. split; [by apply Forall_forall|]. apply Forall_replicate, (cmp_le_refl _).
Qed.

Lemma locks_weaken works k k' w : cmp_le lock_cmp k k' → locks_up_to works k w → locks_up_to works k' w.
Proof using Type.
  intros Hk [Hs Hp Hb]. split; [done..|]. eapply Forall_impl; [exact Hb|]. intros r Hr.
  exact (cmp_le_trans lock_cmp r k k' Hr Hk).
Qed.

(** ** Resolved work items *)

(** What is known of the tables: an invariant [K], and [B] for a work item, the candidate and
    the segment of its linknet.  Every attempt establishes and keeps it; when segments are
    to be [apart], the one that an attempt creates is not known before. *)
Context (K : World → Prop) (B : World → PrefixAllocationWork → string → string → Prop) (apart : Prop).
Hypothesis Hattempt : ∀ w wk c op, K w →
  (∀ seg, op = Attach seg → ∃ p c0, w_vpc_id p = w_vpc_id wk ∧ B w p c0 seg) →
  match attempt_prefix_candidate print_net print_ip (w_vpc_id wk) (w_family wk) c op (requested_prefix wk) w with
  | (Ok oc, w') => K w' ∧ (∀ p c0 seg, B w p c0 seg → B w' p c0 seg) ∧
      ∀ seg, reported op oc seg → B w' wk c seg ∧ (apart → op = Create → ∀ p c0, ¬ B w p c0 seg)
  | (Err _, _) => True
  end.
Hypothesis Hsame : ∀ w wk wk' c seg, same_plan wk wk' → B w wk c seg → B w wk' c seg.

(** The linknet of a work item is allocated: its interface has a segment and refers to one of
    its candidates. *)
Definition resolved (wd : World) (targets : list NetworkAllocationTarget) (w : PrefixAllocationWork) : Prop :=
  ∃ itf c seg, lookup_interface targets (target_index w) (interface_index w) = Some itf ∧ c ∈ candidates w ∧
    network_segment_id itf = Some seg ∧ B wd w c seg ∧
    match slot w with
    | Primary => network_details itf = Some (VpcPrefixId c) ∧ if_vpc_id itf = Some (w_vpc_id w)
    | SecondaryIpv6 => v6_vpc_prefix_id <$> ipv6_interface_config itf = Some c
    end.

Definition segment_on (targets : list NetworkAllocationTarget) (w : PrefixAllocationWork) : option string :=
  lookup_interface targets (target_index w) (interface_index w) ≫= network_segment_id.

Lemma resolve_interface_resolves wd targets w c s seg itf itf' :
  resolve_interface itf w c s = Ok itf' → c ∈ candidates w →
  lookup_interface targets (target_index w) (interface_index w) = Some itf' →
  network_segment_id itf' = Some seg → B wd w c seg → resolved wd targets w.
Proof using Type.
  intros Hr Hc Hl Hseg HB. exists itf', c, seg. split_and!; try done. unfold resolve_interface in Hr.
  destruct (slot w); [|by injection Hr as <-]. destruct s; [|done]. by injection Hr as <-.
Qed.

(** The segment of the interface afterwards *)
Lemma resolve_interface_segment w c s itf itf' :
  resolve_interface itf w c s = Ok itf' →
  network_segment_id itf' = match slot w with Primary => s | SecondaryIpv6 => network_segment_id itf end.
Proof using Type.
  unfold resolve_interface. destruct (slot w); [|by intros [= <-]]. destruct s; [|done]. by intros [= <-].
Qed.

Lemma resolve_interface_keeps wd targets targets' w w' c s itf itf' :
  lookup_interface targets (target_index w) (interface_index w) = Some itf →
  resolve_interface itf w c s = Ok itf' →
  (∀ t i, lookup_interface targets' t i =
     if decide (t = target_index w ∧ i = interface_index w) then Some itf' else lookup_interface targets t i) →
  ¬ (target_index w' = target_index w ∧ interface_index w' = interface_index w ∧
     (slot w' = slot w ∨ slot w' = SecondaryIpv6)) →
  resolved wd targets w' → resolved wd targets' w'.
Proof using Type.
  intros Hl Hr Ht Hne (itf0 & c0 & seg & H0 & Hc & Hseg & HB & Hm). unfold resolved. rewrite Ht.
  case_decide as Hd; [|by exists itf0, c0, seg].
  destruct Hd as [E1 E2]. rewrite E1, E2, Hl in H0. injection H0 as <-.
  exists itf', c0, seg. rewrite (resolve_interface_segment _ _ _ _ _ Hr). unfold resolve_interface in Hr.
  destruct (slot w) eqn:Ew, (slot w') eqn:Ew'; try (destruct Hne; by auto).
  destruct Hm. injection Hr as <-. by split_and!.
Qed.

(** ** The invariant of a group *)

Section Group.
Context (works0 : list PrefixAllocationWork) (targets0 : list NetworkAllocationTarget)
  (Hplan : plan_ok works0 targets0).
(** the group, the work items of it and of the groups before it *)
Context (g : string * AllocationAddressFamily) (G : list nat).
Hypothesis Hprimary : ∀ i w j p, works0 !! i = Some w → group_of w = g → slot w = SecondaryIpv6 →
  works0 !! j = Some p → group_of p = (w_vpc_id w, Ipv4) → j ∈ G.
Hypothesis Hgroup : ∀ i w, works0 !! i = Some w → group_of w = g → i ∈ G.
Hypothesis Hbefore : ∀ i w, i ∈ G → works0 !! i = Some w → cmp_le group_cmp (group_of w) g.

(** The work item waits for the candidate [c]. *)
Definition queued (works : list PrefixAllocationWork) (c : string) (i : nat) : Prop :=
  ∃ w, works !! i = Some w ∧ candidates w !! candidate_index w = Some c ∧ group_of w = g.

Record group_inv (wd : World) (works : list PrefixAllocationWork) (queue : list nat) (c : string)
    (pending : list (string * list nat)) (targets : list NetworkAllocationTarget) : Prop := {
  inv_plan : Forall2 same_plan works0 works;
  inv_sorted : bmap_sorted string_cmp pending;
  inv_above k : k ∈ pending.*1 → string_cmp c k = Lt;
  inv_queue : Forall (queued works c) queue;
  inv_pending : Forall (λ kq, kq.2 ≠ [] ∧ Forall (queued works kq.1) kq.2) pending;
  inv_nodup : NoDup (queue ++ (pending ≫= snd));
  inv_interfaces i w : works0 !! i = Some w →
    is_Some (lookup_interface targets (target_index w) (interface_index w));
  inv_rest i w : i ∈ G → works0 !! i = Some w → i ∈ queue ++ (pending ≫= snd) ∨ resolved wd targets w;
  (** the work items of later groups are as they were planned *)
  inv_later i : i ∉ G → works !! i = works0 !! i;
  inv_apart i j w w' seg : apart → i ∈ G → j ∈ G → i ∉ queue ++ (pending ≫= snd) → j ∉ queue ++ (pending ≫= snd) →
    works0 !! i = Some w → works0 !! j = Some w' → slot w = Primary → slot w' = Primary →
    segment_on targets w = Some seg → segment_on targets w' = Some seg → i = j;
}.

Lemma resolved_later wd wd' targets w : (∀ p c seg, B wd p c seg → B wd' p c seg) →
  resolved wd targets w → resolved wd' targets w.
Proof using Type. intros H (itf & c & seg & ? & ? & ? & HB%H & ?). by exists itf, c, seg. Qed.

Lemma group_inv_later wd wd' works queue c pending targets : (∀ p c seg, B wd p c seg → B wd' p c seg) →
  group_inv wd works queue c pending targets → group_inv wd' works queue c pending targets.
Proof using Type.
  intros H []. split; try done. intros i w Hi Hw. destruct (inv_rest0 i w Hi Hw); [by left|right].
  by eapply resolved_later.
Qed.

(** A queued work item as it was planned *)
Lemma queued_planned works c i : Forall2 same_plan works0 works → queued works c i →
  ∃ w0 w, works0 !! i = Some w0 ∧ works !! i = Some w ∧ same_plan w0 w ∧
    candidates w !! candidate_index w = Some c ∧ group_of w = g.
Proof using Type.
  intros Hp (w & Hw & Hc & Hg). destruct (Forall2_lookup_r _ _ _ _ _ Hp Hw) as (w0 & Hw0 & Hs).
  by exists w0, w.
Qed.

Lemma pending_queued works pending i : Forall (λ kq, kq.2 ≠ [] ∧ Forall (queued works kq.1) kq.2) pending →
  i ∈ pending ≫= snd → ∃ c, queued works c i.
Proof using Type.
  intros Hp (kq & Hi & Hk)%list_elem_of_bind. rewrite Forall_forall in Hp. destruct (Hp kq Hk) as [_ Hq].
  rewrite Forall_forall in Hq. eauto.
Qed.

Lemma queued_insert works i w c j : i ≠ j → queued works c j → queued (<[i := w]> works) c j.
Proof using Type. intros Hij (w' & Hw' & ?). exists w'. by rewrite list_lookup_insert_ne. Qed.

(** The operation of a work item *)
Definition operates (wd : World) (targets : list NetworkAllocationTarget) (w : PrefixAllocationWork)
    (op : PrefixAllocationOperation) : Prop :=
  match slot w with
  | Primary => op = Create
  | SecondaryIpv6 => ∃ seg, op = Attach seg ∧ segment_on targets w = Some seg ∧
      ∃ p c0, w_vpc_id p = w_vpc_id w ∧ B wd p c0 seg
  end.

(** The segment that a secondary work item attaches to is there. *)
Lemma operation_of_ok wd works queue c pending targets i w :
  group_inv wd works queue c pending targets → queued works c i → works !! i = Some w →
  ∃ op, operation_of targets w = Ok op ∧ operates wd targets w op.
Proof using Hplan Hprimary Hgroup.
  intros Hinv Hq Hw. unfold operation_of, operates. destruct (slot w) eqn:Hs; [by eexists|].
  destruct (queued_planned _ _ _ (inv_plan _ _ _ _ _ _ Hinv) Hq) as (w0 & w' & Hw0 & Hw' & Hsp & _ & Hg).
  assert (w' = w) as -> by congruence. apply same_plan_fields in Hsp as (Et & Ei & Ev & Ef & _ & Es & _).
  destruct (plan_secondary _ _ Hplan i w0 Hw0) as [Hf (j & p & Hj & Hp & Hpf & Hpv & Hpt & Hpi)]; [congruence|].
  destruct (inv_rest _ _ _ _ _ _ Hinv j p) as [Hin|Hres]; [|done|exfalso|].
  - eapply (Hprimary i w0 j p); [done| |congruence|done|]; unfold group_of in *; congruence.
  - assert (∃ c', queued works c' j) as [c' Hqj].
    { apply elem_of_app in Hin as [Hin|Hin].
      - exists c. pose proof (inv_queue _ _ _ _ _ _ Hinv) as HQ. rewrite Forall_forall in HQ. by apply HQ.
      - by eapply pending_queued; [apply Hinv|]. }
    destruct (queued_planned _ _ _ (inv_plan _ _ _ _ _ _ Hinv) Hqj) as (p0 & p' & Hp0 & _ & Hsp & _ & Hg').
    apply same_plan_fields in Hsp as (_ & _ & _ & Ef' & _). unfold group_of in *. congruence.
  - destruct Hres as (itf & c' & seg & Hl & _ & Hseg & HB & _). rewrite Hpt, Hpi, Et, Ei in Hl.
    assert (Hon : segment_on targets w = Some seg) by (unfold segment_on; by rewrite Hl).
    apply interface_of_lookup in Hl as (t & -> & _). simpl. rewrite Hseg. simpl. eexists. split; [done|].
    exists seg. split_and!; [done..|]. exists p, c'. split; [congruence|done].
Qed.

(** A work item that moves on to its next candidate *)
Lemma advance_inv wd works i queue c pending targets u :
  group_inv wd works (i :: queue) c pending targets →
  match advance_prefix_work i c u works pending with
  | Ok (works', pending') => group_inv wd works' queue c pending' targets ∧
      (measure works' (queue ++ (pending' ≫= snd)) + 1 ≤ measure works (i :: queue ++ (pending ≫= snd)))%nat
  | Err e => internal e = false
  end.
Proof using Hplan Hprimary Hgroup.
  intros Hinv. pose proof (inv_queue _ _ _ _ _ _ Hinv) as [Hi Hq]%Forall_cons.
  destruct (queued_planned _ _ _ (inv_plan _ _ _ _ _ _ Hinv) Hi) as (w0 & w & Hw0 & Hw & Hsp & Hc & Hg).
  pose proof (inv_nodup _ _ _ _ _ _ Hinv) as [Hnot Hnd]%NoDup_cons.
  unfold advance_prefix_work. rewrite Hw. simpl.
  assert (match ok_or (candidates w !! S (candidate_index w)) (ResourceExhausted
      "no eligible VPC prefix could allocate an interface linknet") with
    | Ok n => string_cmp n c = Gt | Err e => internal e = false end) as Hnext.
  { destruct (candidates w !! S (candidate_index w)) as [n|] eqn:Hn; simpl; [|done].
    apply (cmp_gt_lt _). destruct (plan_candidates _ _ Hplan i w0 Hw0) as (_ & Hsort & _).
    apply same_plan_fields in Hsp as (_ & _ & _ & _ & Ec & _). rewrite Ec in Hsort.
    eapply (StronglySorted_lookup _ _ _ _ _ _ Hsort); [|done..]. lia. }
  set (w' := set_candidate_index (S (candidate_index w)) w).
  assert (Hstep : ∀ n, candidates w !! S (candidate_index w) = Some n → string_cmp n c = Gt →
    group_inv wd (<[i := w']> works) queue c (push_back n i pending) targets ∧
    (measure (<[i := w']> works) (queue ++ (push_back n i pending ≫= snd)) + 1 ≤
       measure works (i :: queue ++ (pending ≫= snd)))%nat).
  { intros n Hn Hlt. pose proof (lookup_lt_Some _ _ _ Hw) as Hlen.
    assert (Hqi : queued (<[i := w']> works) n i).
    { exists w'. rewrite list_lookup_insert_eq by done. done. }
    assert (Hperm : queue ++ (push_back n i pending ≫= snd) ≡ₚ i :: queue ++ (pending ≫= snd))
      by (rewrite push_back_perm; symmetry; apply Permutation_middle).
    split; [split|].
    - rewrite <- (list_insert_id works0 i w0) by done. apply Forall2_insert; [apply Hinv|].
      unfold w', same_plan in *. by rewrite Hsp.
    - apply bmap_upsert_sorted, Hinv. apply _.
    - intros k [-> |Hk]%push_back_keys; [by apply (cmp_gt_lt _)|]. by apply (inv_above _ _ _ _ _ _ Hinv).
    - apply Forall_forall. intros j Hj. rewrite Forall_forall in Hq.
      apply queued_insert; [|by apply Hq]. intros ->. apply Hnot, elem_of_app. by left.
    - apply push_back_Forall.
      + pose proof (inv_pending _ _ _ _ _ _ Hinv) as Hp. rewrite Forall_forall in Hp.
        apply Forall_forall. intros kq Hkq. destruct (Hp kq Hkq) as [Hne Hall]. split; [done|].
        rewrite Forall_forall in Hall. apply Forall_forall. intros j Hj. apply queued_insert; [|by apply Hall].
        intros ->. apply Hnot, elem_of_app. right. apply list_elem_of_bind. eauto.
      + simpl. intros q Hq'. split; [by destruct q|]. apply Forall_app. split; [|by constructor].
        destruct Hq' as [[_ ?]| ->]; [done|constructor].
    - rewrite Hperm. by constructor.
    - apply Hinv.
    - intros j wj Hj Hwj. rewrite Hperm. by apply Hinv.
    - intros j Hj. rewrite list_lookup_insert_ne; [by apply Hinv|]. intros <-. apply Hj, (Hgroup i w0 Hw0).
      apply same_plan_fields in Hsp as (_ & _ & Ev & Ef & _). unfold group_of in *. congruence.
    - intros j k wj wk seg Ha Hj Hk Hnj Hnk. rewrite Hperm in Hnj, Hnk.
      by apply (inv_apart _ _ _ _ _ _ Hinv j k wj wk seg Ha).
    - rewrite (measure_perm _ _ _ Hperm), !measure_cons, measure_insert_ne by done. unfold left_of.
      rewrite list_lookup_insert_eq, Hw by done. simpl. apply lookup_lt_Some in Hn. lia. }
  destruct u, (automatic w); simpl; try done;
    (destruct (candidates w !! S (candidate_index w)) as [n|] eqn:Hn; simpl in *; [|done]);
    rewrite Hnext; by apply Hstep.
Qed.

(** The segment of the interface when the attempt succeeded *)
Lemma operates_segment wd targets w op s itf : operates wd targets w op → outcome_of_operation op (Allocated s) →
  lookup_interface targets (target_index w) (interface_index w) = Some itf →
  (slot w = Primary → is_Some s) ∧
  ∃ seg, reported op (Allocated s) seg ∧
    match slot w with Primary => s | SecondaryIpv6 => network_segment_id itf end = Some seg.
Proof using Type.
  unfold operates, segment_on. intros Hop Hs Hl. rewrite Hl in Hop. destruct (slot w).
  - subst op. destruct Hs as [seg ->]. split; [done|]. by exists seg.
  - destruct Hop as (seg & -> & Hseg & _). simpl in Hs. subst s. split; [done|]. by exists seg.
Qed.

(** The other interfaces keep their segments. *)
Lemma segment_on_other targets targets' w wj c s itf itf' :
  lookup_interface targets (target_index w) (interface_index w) = Some itf →
  resolve_interface itf w c s = Ok itf' →
  (∀ t i, lookup_interface targets' t i =
     if decide (t = target_index w ∧ i = interface_index w) then Some itf' else lookup_interface targets t i) →
  ¬ (target_index wj = target_index w ∧ interface_index wj = interface_index w ∧ slot wj = slot w) →
  slot wj = Primary → segment_on targets' wj = segment_on targets wj.
Proof using Type.
  intros Hl Hr Ht Hne Hp. unfold segment_on. rewrite Ht. case_decide as Hd; [|done]. destruct Hd as [E1 E2].
  rewrite E1, E2, Hl. simpl. rewrite (resolve_interface_segment _ _ _ _ _ Hr).
  destruct (slot w) eqn:Es; [|done]. destruct Hne. by rewrite Hp.
Qed.

(** A work item whose linknet is allocated *)
Lemma resolve_inv wd wd' works i queue c pending targets w op s :
  group_inv wd works (i :: queue) c pending targets → works !! i = Some w →
  operates wd targets w op → outcome_of_operation op (Allocated s) →
  (∀ p c seg, B wd p c seg → B wd' p c seg) →
  (∀ seg, reported op (Allocated s) seg → B wd' w c seg ∧ (apart → op = Create → ∀ p c0, ¬ B wd p c0 seg)) →
  ∃ targets', apply_prefix_resolution targets w c s = Ok targets' ∧
    group_inv wd' works queue c pending targets'.
Proof using Hplan Hbefore Hsame.
  intros Hinv Hw Hop Hs Hkeep Hnew. pose proof (inv_queue _ _ _ _ _ _ Hinv) as [Hi Hq]%Forall_cons.
  destruct (queued_planned _ _ _ (inv_plan _ _ _ _ _ _ Hinv) Hi) as (w0 & w' & Hw0 & Hw' & Hsp & Hc & Hg).
  assert (w' = w) as -> by congruence. pose proof Hsp as (Et & Ei & Ev & Ef & Ec & Es & _)%same_plan_fields.
  pose proof (inv_nodup _ _ _ _ _ _ Hinv) as [Hnot Hnd]%NoDup_cons.
  destruct (inv_interfaces _ _ _ _ _ _ Hinv i w0 Hw0) as [itf Hitf]. rewrite Et, Ei in Hitf.
  destruct (operates_segment _ _ _ _ _ _ Hop Hs Hitf) as (Hprim & seg & Hrep & Hseg).
  destruct (apply_prefix_resolution_ok targets w c s itf Hitf Hprim) as (itf' & targets' & Hr & Ha & Hl).
  destruct (Hnew seg Hrep) as [HB Hfresh]. rewrite <- (resolve_interface_segment _ _ _ _ _ Hr) in Hseg.
  exists targets'. split; [done|].
  assert (Hself : lookup_interface targets' (target_index w) (interface_index w) = Some itf')
    by by rewrite Hl, decide_True.
  assert (Hres : resolved wd' targets' w0).
  { assert (resolved wd' targets' w) as (x & y & z & H1 & H2 & H3 & H4 & H5).
    { eapply resolve_interface_resolves; [done|by eapply list_elem_of_lookup_2|done..]. }
    exists x, y, z. rewrite Et, Ei, Ec, Es, Ev. split_and!; try done. by eapply Hsame; [symmetry; exact Hsp|]. }
  assert (Hon : ∀ j wj, j ≠ i → works0 !! j = Some wj → slot wj = Primary →
    segment_on targets' wj = segment_on targets wj).
  { intros j wj Hne Hwj Hp. eapply segment_on_other; [done..| |done]. rewrite <- Et, <- Ei, <- Es.
    by apply (plan_slots _ _ Hplan i j). }
  assert (Hnoclash : ∀ j wj, apart → j ≠ i → j ∈ G → j ∉ queue ++ (pending ≫= snd) → works0 !! j = Some wj →
    slot w0 = Primary → slot wj = Primary → segment_on targets' w0 = segment_on targets' wj → False).
  { intros j wj Hap Hne Hj Hnj Hwj Hp0 Hp E. rewrite (Hon j wj Hne Hwj Hp) in E.
    assert (segment_on targets' w0 = Some seg) as E0 by (unfold segment_on; by rewrite Et, Ei, Hself). rewrite E0 in E.
    destruct (inv_rest _ _ _ _ _ _ Hinv j wj Hj Hwj) as [[?|?]%elem_of_cons|(x & y & z & H1 & _ & H3 & H4 & _)]; [done..|].
    unfold segment_on in E. rewrite H1 in E. simpl in E. assert (z = seg) as -> by congruence.
    eapply Hfresh; [done| |exact H4]. unfold operates in Hop. rewrite <- Es, Hp0 in Hop. done. }
  destruct Hinv as [H1 H2 H3 _ H5 _ H7 H8 H9 H10]. split; try done.
  - intros j wj Hj. rewrite Hl. case_decide; [done|]. by eapply H7.
  - intros j wj Hj Hwj. destruct (decide (j = i)) as [->|Hne]; [right; by assert (wj = w0) as -> by congruence|].
    destruct (H8 j wj Hj Hwj) as [[->|Hin]%elem_of_cons|Hr']; [done|by left|right].
    apply (resolved_later wd wd') in Hr'; [|done]. eapply (resolve_interface_keeps wd' targets targets' w wj c s itf itf'); [done..| |done].
    intros (E1 & E2 & [E3|E3]).
    + apply (plan_slots _ _ Hplan i j w0 wj Hw0 Hwj); [done|]. by rewrite Et, Ei, Es.
    + destruct (plan_secondary _ _ Hplan j wj Hwj E3) as (Hf & k & p & Hk & Hp & Hpf & Hpv & Hpt & Hpi).
      destruct (slot w0) eqn:Es0.
      * assert (k = i) as ->.
        { destruct (decide (k = i)) as [|Hki]; [done|]. exfalso.
          apply (plan_slots _ _ Hplan i k w0 p Hw0 Hk); [done|]. rewrite Hp, Hpt, Hpi, Es0, E1, E2. by split_and!. }
        assert (p = w0) as -> by congruence. specialize (Hbefore j wj Hj Hwj). revert Hbefore.
        unfold group_of in Hg. rewrite <- Ev, <- Ef, Hpf, Hpv in Hg. rewrite <- Hg. unfold group_of. rewrite Hf.
        unfold cmp_le, group_cmp, pair_cmp. simpl. rewrite (cmp_refl string_cmp). done.
      * apply (plan_slots _ _ Hplan i j w0 wj Hw0 Hwj); [done|]. by rewrite Et, Ei, Es0.
  - intros j k wj wk sg Hap Hj Hk Hnj Hnk Hwj Hwk Hpj Hpk Ej Ek.
    destruct (decide (j = i)) as [->|Hji], (decide (k = i)) as [->|Hki]; [done|exfalso|exfalso|].
    + assert (wj = w0) as -> by congruence. apply (Hnoclash k wk); try done. congruence.
    + assert (wk = w0) as -> by congruence. apply (Hnoclash j wj); try done. congruence.
    + rewrite (Hon j wj Hji Hwj Hpj) in Ej. rewrite (Hon k wk Hki Hwk Hpk) in Ek.
      apply (H10 j k wj wk sg); try done; by intros [?|?]%elem_of_cons.
Qed.

(** The work queued on one candidate *)
Lemma drain_candidate_spec queue : ∀ u works c pending targets R w,
  K w → group_inv w works queue c pending targets → asked R (g, c) w →
  let '(r, w') := drain_candidate print_net print_ip c queue u works pending targets w in
  asked R (g, c) w' ∧
  match r with
  | Ok (works', pending', targets') => K w' ∧ group_inv w' works' [] c pending' targets' ∧
      (measure works' (pending' ≫= snd) + length queue ≤ measure works (queue ++ (pending ≫= snd)))%nat
  | Err e => internal e = false
  end.
Proof using Hplan Hprimary Hgroup Hbefore Hattempt Hsame.
  induction queue as [|i queue IH]; intros u works c pending targets R w HK Hinv HR; simpl.
  { split_and!; try done. lia. }
  assert (Hadv : ∀ u' w, K w → group_inv w works (i :: queue) c pending targets → asked R (g, c) w →
    let '(r, w') := ('(works, pending) ← lift (advance_prefix_work i c u' works pending);
       drain_candidate print_net print_ip c queue (Some u') works pending targets) w in
    asked R (g, c) w' ∧
    match r with
    | Ok (works', pending', targets') => K w' ∧ group_inv w' works' [] c pending' targets' ∧
        (measure works' (pending' ≫= snd) + S (length queue) ≤
           measure works (i :: queue ++ (pending ≫= snd)))%nat
    | Err e => internal e = false
    end).
  { intros u' w1 HK1 Hinv1 HR1. pose proof (advance_inv w1 works i queue c pending targets u' Hinv1) as Ha.
    rewrite bind_run. unfold lift. destruct (advance_prefix_work _ _ _ _ _) as [[works' pending']|e]; [|done].
    destruct Ha as [Hinv' Hm]. specialize (IH (Some u') works' c pending' targets R w1 HK1 Hinv' HR1).
    destruct (drain_candidate _ _ _ _ _ _ _ _ w1) as [[[[ws p] ts]|e] w2]; [|done].
    destruct IH as (? & ? & ? & ?). split_and!; try done. lia. }
  destruct u as [u|]; [by apply Hadv|].
  pose proof (inv_queue _ _ _ _ _ _ Hinv) as [Hi Hq]%Forall_cons.
  pose proof Hi as (wk & Hwk & _ & Hgk).
  rewrite bind_run. unfold lift at 1. rewrite Hwk. simpl.
  destruct (operation_of_ok w works (i :: queue) c pending targets i wk Hinv Hi Hwk) as (op & Hop & Hoperates).
  rewrite bind_run. unfold lift at 1. rewrite Hop, bind_run.
  assert (Hkey : (w_vpc_id wk, w_family wk, c) = (g, c)) by (unfold group_of in Hgk; by rewrite Hgk).
  pose proof (ends_attempts print_net print_ip PREFIX_ALLOCATION_TOTAL_ATTEMPTS (w_vpc_id wk) (w_family wk) c
                op (requested_prefix wk) w) as He.
  pose proof (keeps_attempts print_net print_ip (asked R (w_vpc_id wk, w_family wk, c)) (w_vpc_id wk)
                (w_family wk) c PREFIX_ALLOCATION_TOTAL_ATTEMPTS op (requested_prefix wk) w) as Hk.
  pose proof (Hattempt w wk c op HK) as Hat.
  rewrite Hkey in Hk. specialize (Hk HR). unfold attempt_prefix_candidate in *.
  destruct (candidate_attempts _ _ _ _ _ _ _ _ w) as [[oc|e] w1]; simpl in He, Hk; [|done].
  destruct Hat as (HK1 & Hkeep & Hnew).
  { intros seg ->. unfold operates in Hoperates. destruct (slot wk); [done|].
    destruct Hoperates as (seg' & [= <-] & _ & Hp). done. }
  destruct oc as [seg| |]; [|apply Hadv; [done|by eapply group_inv_later|done]..].
  destruct (resolve_inv w w1 works i queue c pending targets wk op seg) as (ts & Ht & Hinv'); [done..|].
  rewrite bind_run. unfold lift. rewrite Ht. specialize (IH None works c pending ts R w1 HK1 Hinv' Hk).
  destruct (drain_candidate _ _ _ _ _ _ _ _ w1) as [[[[ws p] ts']|e] w2]; [|done].
  destruct IH as (? & ? & ? & Hm). split_and!; try done.
  change (measure ws (p ≫= snd) + S (length queue) ≤ measure works (i :: queue ++ (pending ≫= snd)))%nat.
  rewrite measure_cons. assert (1 ≤ left_of works i)%nat; [|lia]. unfold left_of. rewrite Hwk.
  destruct Hi as (w' & Hw' & Hc & _). assert (w' = wk) as -> by congruence.
  apply lookup_lt_Some in Hc. lia.
Qed.

Lemma queued_left works c i : queued works c i → (1 ≤ left_of works i)%nat.
Proof using Type.
  intros (w & Hw & Hc & _). unfold left_of. rewrite Hw. apply lookup_lt_Some in Hc. lia.
Qed.

(** [pop_first] *)
Lemma pop_inv wd works c0 c q pending targets :
  group_inv wd works [] c0 ((c, q) :: pending) targets →
  group_inv wd works q c pending targets ∧ q ≠ [] ∧ string_cmp c0 c = Lt.
Proof using Type.
  intros [H1 H2 H3 H4 [[Hne Hq] H5]%Forall_cons H6 H7 H8 H9 H10]. simpl in *. split; [split|split]; try done.
  - by apply bmap_sorted_cons in H2 as [? _].
  - intros k Hk. apply bmap_sorted_cons in H2 as [_ Hlt]. rewrite Forall_forall in Hlt. by apply Hlt.
  - apply H3, elem_of_cons. by left.
Qed.

Lemma queue_planned wd works c q pending targets :
  group_inv wd works q c pending targets → q ≠ [] → lock_planned works0 (g, c).
Proof using Type.
  intros Hinv Hne. destruct q as [|i q]; [done|]. pose proof (inv_queue _ _ _ _ _ _ Hinv) as [Hi _]%Forall_cons.
  destruct (queued_planned _ _ _ (inv_plan _ _ _ _ _ _ Hinv) Hi) as (w0 & w & Hw0 & _ & Hsp & Hc & Hg).
  apply same_plan_fields in Hsp as (_ & _ & Ev & Ef & Ec & _).
  exists i, w0. split; [done|]. unfold group_of in *. simpl. rewrite Ev, Ef, Ec.
  split; [done|]. by eapply list_elem_of_lookup_2.
Qed.

(** The candidates of a group: with fuel for the candidates that are left, the loop
    ends, every work item is resolved, and the locks are asked for in order. *)
Lemma drain_group_spec fuel : ∀ works c q pending targets w,
  K w → group_inv w works q c pending targets → q ≠ [] →
  (measure works (q ++ (pending ≫= snd)) ≤ fuel)%nat → locks_up_to works0 (g, c) w →
  let '(r, w') := drain_group print_net print_ip fuel works ((c, q) :: pending) targets w in
  (∃ c', locks_up_to works0 (g, c') w') ∧
  match r with
  | Ok (works', targets') => K w' ∧ ∃ c', group_inv w' works' [] c' [] targets'
  | Err e => internal e = false
  end.
Proof using Hplan Hprimary Hgroup Hbefore Hattempt Hsame.
  induction fuel as [|fuel IH]; intros works c q pending targets w HK Hinv Hne Hfuel Hlocks.
  { destruct q as [|i q]; [done|]. pose proof (inv_queue _ _ _ _ _ _ Hinv) as [Hi _]%Forall_cons.
    apply queued_left in Hi. rewrite measure_app, measure_cons in Hfuel. lia. }
  simpl. rewrite bind_run.
  pose proof (drain_candidate_spec q None works c pending targets (requests w) w HK Hinv) as Hd.
  destruct (drain_candidate _ _ _ _ _ _ _ _ w) as [r w1].
  destruct Hd as [Ha Hr]; [exists 0%nat; by rewrite app_nil_r|].
  pose proof (locks_asked _ _ _ _ Hlocks (queue_planned _ _ _ _ _ _ Hinv Hne) Ha) as Hl1.
  destruct r as [[[works1 pending1] targets1]|e]; [|by eauto]. destruct Hr as (HK1 & Hinv1 & Hm).
  destruct pending1 as [|[c' q'] pending1].
  - destruct fuel; simpl; split; eauto.
  - apply pop_inv in Hinv1 as (Hinv1 & Hne1 & Hlt). apply IH; [done..| |].
    + rewrite bind_cons in Hm. cbn [snd] in Hm. assert (1 ≤ length q)%nat; [|lia]. destruct q; [done|simpl; lia].
    + eapply locks_weaken; [|exact Hl1]. apply cmp_lt_le. unfold lock_cmp, pair_cmp. simpl.
      by rewrite (cmp_refl group_cmp).
Qed.
End Group.

(** ** All groups *)

(** The queues a group starts with hold its work items. *)
Lemma initial_queues_spec g works indices : ∀ pending,
  (∀ i, i ∈ indices → ∃ w, works !! i = Some w ∧ group_of w = g ∧ candidates w ≠ [] ∧ candidate_index w = 0%nat) →
  bmap_sorted string_cmp pending →
  Forall (λ kq, kq.2 ≠ [] ∧ Forall (queued g works kq.1) kq.2) pending →
  ∃ pending', initial_queues works indices pending = Ok pending' ∧ bmap_sorted string_cmp pending' ∧
    Forall (λ kq, kq.2 ≠ [] ∧ Forall (queued g works kq.1) kq.2) pending' ∧
    pending' ≫= snd ≡ₚ indices ++ (pending ≫= snd).
Proof using Type.
  induction indices as [|i indices IH]; intros pending Hi Hs Hp; simpl; [by eauto|].
  destruct (Hi i ltac:(by left)) as (w & Hw & Hg & Hne & H0). rewrite Hw. simpl.
  destruct (candidates w) as [|c cs] eqn:Hc; [done|]. simpl.
  assert (Hq : queued g works c i) by (exists w; by rewrite Hc, H0).
  destruct (IH (push_back c i pending)) as (p' & -> & Hs' & Hp' & Hperm).
  - intros j Hj. apply Hi. by right.
  - apply bmap_upsert_sorted; [apply _|done].
  - apply push_back_Forall; [done|]. simpl. intros q Hq'. split; [by destruct q|].
    apply Forall_app. split; [|by constructor]. destruct Hq' as [[_ ?]| ->]; [done|constructor].
  - exists p'. split_and!; try done. rewrite Hperm, push_back_perm. symmetry. apply Permutation_middle.
Qed.

Lemma group_works_spec works g q :
  (g, q) ∈ group_works works →
  q ≠ [] ∧ NoDup q ∧ ∀ i, i ∈ q ↔ ∃ w, works !! i = Some w ∧ group_of w = g.
Proof using Type.
  intros Hq. apply (bmap_get_Some group_cmp) in Hq; [|apply group_by_sorted, _].
  unfold group_works in Hq. apply (group_by_get group_cmp) in Hq as [Hne ->]. split; [done|]. split.
  - assert (Hnd : NoDup (imap pair works)).
    { apply (NoDup_fmap_1 fst). rewrite fmap_imap.
      rewrite (imap_ext _ (λ j _, j)), (imap_seq_0 works (λ j, j)) by done. rewrite list_fmap_id. apply NoDup_seq. }
    apply NoDup_fmap_2_strong; [|by apply NoDup_filter].
    intros x y [_ Hx]%list_elem_of_filter [_ Hy]%list_elem_of_filter Heq.
    apply elem_of_lookup_imap in Hx as (i & w & -> & Hw), Hy as (j & w' & -> & Hw'). simpl in Heq. congruence.
  - intros i. rewrite list_elem_of_fmap. split.
    + intros ([j w] & -> & [Hg Hin]%list_elem_of_filter). simpl in *.
      apply elem_of_lookup_imap in Hin as (k & w' & [= -> ->] & Hw). eauto.
    + intros (w & Hw & Hg). exists (i, w). split; [done|]. apply list_elem_of_filter. split; [done|].
      by apply elem_of_lookup_imap_2.
Qed.

Lemma group_works_complete works i w :
  works !! i = Some w → group_of w ∈ (group_works works).*1.
Proof using Type.
  intros Hw. apply list_elem_of_fmap.
  set (q := fst <$> filter (λ iw : nat * PrefixAllocationWork, (w_vpc_id iw.2, w_family iw.2) = group_of w)
                     (imap pair works)).
  exists (group_of w, q). split; [done|].
  apply (bmap_get_Some group_cmp); [apply group_by_sorted, _|]. apply (group_by_get group_cmp). split; [|done].
  intros Hnil. assert (i ∈ q) as Hi; [|rewrite Hnil in Hi; by apply elem_of_nil in Hi].
  apply list_elem_of_fmap. exists (i, w). split; [done|]. apply list_elem_of_filter. split; [done|].
  by apply elem_of_lookup_imap_2.
Qed.

Section Groups.
Context (works0 : list PrefixAllocationWork) (targets0 : list NetworkAllocationTarget)
  (Hplan : plan_ok works0 targets0).

(** Between two groups: the work items in [done] are resolved, the others untouched. *)
Record between (wd : World) (done : list nat) (works : list PrefixAllocationWork)
    (targets : list NetworkAllocationTarget) : Prop := {
  bt_plan : Forall2 same_plan works0 works;
  bt_interfaces i w : works0 !! i = Some w →
    is_Some (lookup_interface targets (target_index w) (interface_index w));
  bt_done i w : i ∈ done → works0 !! i = Some w → resolved wd targets w;
  bt_later i : i ∉ done → works !! i = works0 !! i;
  bt_apart i j w w' seg : apart → i ∈ done → j ∈ done → works0 !! i = Some w → works0 !! j = Some w' →
    slot w = Primary → slot w' = Primary →
    segment_on targets w = Some seg → segment_on targets w' = Some seg → i = j;
}.

Definition locks_before (groups : list ((string * AllocationAddressFamily) * list nat)) (w : World) : Prop :=
  StronglySorted (cmp_le lock_cmp) (requests w) ∧ Forall (lock_planned works0) (requests w) ∧
  Forall (λ r, ∀ g, g ∈ groups.*1 → group_cmp r.1 g = Lt) (requests w).

Lemma run_groups_spec groups : ∀ done works targets w,
  bmap_sorted group_cmp groups → (∀ g q, (g, q) ∈ groups → (g, q) ∈ group_works works0) →
  (∀ i w, works0 !! i = Some w → i ∈ done ∨ group_of w ∈ groups.*1) →
  (∀ i w g, i ∈ done → works0 !! i = Some w → g ∈ groups.*1 → cmp_lt group_cmp (group_of w) g) →
  K w → between w done works targets → locks_before groups w →
  let '(r, w') := run_groups print_net print_ip groups works targets w in
  StronglySorted (cmp_le lock_cmp) (requests w') ∧ Forall (lock_planned works0) (requests w') ∧
  match r with
  | Ok targets' => K w' ∧ (∀ i w, works0 !! i = Some w → resolved w' targets' w) ∧
      (apart → ∀ i j w w' seg, works0 !! i = Some w → works0 !! j = Some w' → slot w = Primary → slot w' = Primary →
        segment_on targets' w = Some seg → segment_on targets' w' = Some seg → i = j)
  | Err e => internal e = false
  end.
Proof using Hplan Hattempt Hsame.
  induction groups as [|[g q] groups IH]; intros fin works targets w Hsorted Hgroups Hcover Hdisj HK Hbt Hlocks.
  { assert (Hfin : ∀ i wk, works0 !! i = Some wk → i ∈ fin)
      by (intros i wk Hw; by destruct (Hcover i wk Hw) as [?|?%elem_of_nil]).
    simpl. split_and!; [apply Hlocks..|done|intros i wk Hw; eapply bt_done; [done|by eapply Hfin|done]|].
    intros Ha i j wi wj seg Hi Hj. by apply (bt_apart _ _ _ _ Hbt i j wi wj seg Ha); [eapply Hfin..| |]. }
  destruct (group_works_spec works0 g q) as (Hne & Hnd & Hq); [apply Hgroups; by left|].
  apply bmap_sorted_cons in Hsorted as [Hsorted Habove]. rewrite Forall_forall in Habove.
  assert (Hnotdone : ∀ i, i ∈ q → i ∉ fin).
  { intros i Hi Hd. apply Hq in Hi as (wk & Hw & Hg). apply (cmp_lt_irrefl group_cmp g).
    rewrite <- Hg at 1. apply (Hdisj i wk g Hd Hw). csimpl. by left. }
  destruct (initial_queues_spec g works q []) as (pending & Hinit & Hps & Hpf & Hperm);
    [|apply bmap_nil_sorted|done|].
  { intros i Hi. pose proof Hi as (wk & Hw & Hg)%Hq. exists wk.
    rewrite (bt_later _ _ _ _ Hbt) by by apply Hnotdone. destruct (plan_candidates _ _ Hplan i wk Hw) as (? & ? & ?).
    done. }
  rewrite app_nil_r in Hperm. simpl. rewrite bind_run. unfold lift at 1. rewrite Hinit, bind_run.
  set (G := fin ++ q).
  assert (Hprimary : ∀ i wk j p, works0 !! i = Some wk → group_of wk = g → slot wk = SecondaryIpv6 →
    works0 !! j = Some p → group_of p = (w_vpc_id wk, Ipv4) → j ∈ G).
  { intros i wk j p Hwk Hg Hs Hp Hgp. apply elem_of_app. left.
    destruct (plan_secondary _ _ Hplan i wk Hwk Hs) as [Hf _]. unfold group_of in Hg. rewrite Hf in Hg. subst g.
    destruct (Hcover j p Hp) as [?|Hin]; [done|]. rewrite Hgp in Hin.
    csimpl in Hin. apply elem_of_cons in Hin as [[=]|Hin]. apply Habove in Hin. exfalso. revert Hin.
    unfold cmp_lt, group_cmp, pair_cmp. simpl. by rewrite (cmp_refl string_cmp). }
  assert (Hgroup : ∀ i wk, works0 !! i = Some wk → group_of wk = g → i ∈ G).
  { intros i wk Hw Hg. apply elem_of_app. right. apply Hq. eauto. }
  assert (Hbefore : ∀ i wk, i ∈ G → works0 !! i = Some wk → cmp_le group_cmp (group_of wk) g).
  { intros i wk Hi Hw. apply elem_of_app in Hi as [Hi|Hi].
    - apply cmp_lt_le, (Hdisj i wk g Hi Hw). csimpl. by left.
    - apply Hq in Hi as (wk' & Hw' & <-). assert (wk' = wk) as -> by congruence. apply (cmp_le_refl _). }
  destruct pending as [|[c q'] pending].
  { destruct q as [|i q]; [done|]. by apply Permutation_nil_cons in Hperm. }
  apply bmap_sorted_cons in Hps as [Hps Hpabove]. rewrite Forall_forall in Hpabove.
  apply Forall_cons in Hpf as [[Hne' Hq'] Hpf]. rewrite bind_cons in Hperm. cbn [fst snd] in Hperm, Hne', Hq'.
  assert (Hinv : group_inv works0 g G w works q' c pending targets).
  { split; try done; [apply Hbt|by rewrite Hperm|apply Hbt|..].
    - intros i wk Hi Hw. apply elem_of_app in Hi as [Hi|Hi]; [right; by eapply bt_done|left]. by rewrite Hperm.
    - intros i Hi. apply (bt_later _ _ _ _ Hbt). intros Hd. apply Hi, elem_of_app. by left.
    - intros i j wi wj seg Ha Hi Hj Hni Hnj. rewrite Hperm in Hni, Hnj.
      apply (bt_apart _ _ _ _ Hbt i j wi wj seg Ha); [by apply elem_of_app in Hi as [?|?]|by apply elem_of_app in Hj as [?|?]]. }
  destruct Hlocks as (Hls & Hlp & Hlb).
  pose proof (drain_group_spec works0 targets0 Hplan g G Hprimary Hgroup Hbefore (group_fuel works) works c q' pending
                targets w HK Hinv Hne') as Hd.
  destruct (drain_group _ _ _ _ _ _ w) as [r w1]. destruct Hd as [(c' & [Hls1 Hlp1 Hlb1]) Hr].
  - apply measure_fuel; [by rewrite Hperm|]. intros i Hi. rewrite Hperm in Hi.
    apply Hq in Hi as (wk & Hw & _). rewrite <- (Forall2_length _ _ _ (bt_plan _ _ _ _ Hbt)). by eapply lookup_lt_Some.
  - split; [done..|]. eapply Forall_impl; [exact Hlb|]. intros r' Hr'. apply cmp_lt_le.
    unfold lock_cmp, pair_cmp. simpl. rewrite Hr'; [done|]. by left.
  - destruct r as [[works1 targets1]|e]; [|done]. destruct Hr as (HK1 & c'' & Hinv1).
    apply (IH G works1 targets1 w1 Hsorted).
    + intros g' q'' Hin. apply Hgroups. by right.
    + intros i wk Hw. destruct (Hcover i wk Hw) as [Hi|Hi]; [left; apply elem_of_app; by left|].
      csimpl in Hi. apply elem_of_cons in Hi as [Hi|Hi]; [left; by eapply Hgroup|by right].
    + intros i wk g' Hi Hw Hg'. apply elem_of_app in Hi as [Hi|Hi].
      * apply (Hdisj i wk g' Hi Hw). csimpl. by right.
      * apply Hq in Hi as (wk' & Hw' & Hg). assert (wk' = wk) as -> by congruence. rewrite Hg. by apply Habove.
    + done.
    + split; [apply Hinv1..| |apply Hinv1|].
      * intros i wk Hi Hw. by destruct (inv_rest _ _ _ _ _ _ _ _ _ Hinv1 i wk Hi Hw) as [?%elem_of_nil|?].
      * intros i j wi wj seg Ha Hi Hj. by apply (inv_apart _ _ _ _ _ _ _ _ _ Hinv1 i j wi wj seg Ha);
          [..|by intros ?%elem_of_nil|by intros ?%elem_of_nil].
    + split_and!; [done..|]. eapply Forall_impl; [exact Hlb1|]. intros r Hr g' Hg'. apply Habove in Hg'.
      unfold cmp_le, lock_cmp, pair_cmp in Hr. simpl in Hr.
      destruct (group_cmp r.1 g) eqn:E; [|by eapply (cmp_lt_trans group_cmp)|done].
      apply (cmp_eq_iff group_cmp) in E as ->. exact Hg'.
Qed.
End Groups.
End Execution.
