(* ===== verification/PrefixPlanFacts.v ===== *)
(** * What the allocation of linknets to a batch of instances guarantees

    The planning only makes works that the execution can run; hence the allocation as a
    whole ends without an internal error, gives every interface what it asked for, stores
    it if the transaction is isolated, and asks for its locks in an order in which
    transactions cannot block each other. *)

From S2P Require Import Prelude Ordered IpNetwork VpcCapability ConfigVersion ControllerTable.
From S2P Require Import NetworkSegment VpcPrefix VpcPrefixFacts LinknetAllocator PrefixAllocation.
From S2P Require Import PrefixPlan PrefixAllocationFacts PrefixExecution.

(** ** Lists of blocks *)

(** Blocks whose elements carry the index of the block *)
Lemma NoDup_fmap_join {A B} (key : A → B) (ix : B → nat) (bs : list (list A)) n :
  (∀ j ws, bs !! j = Some ws → NoDup (key <$> ws) ∧ ∀ x, x ∈ ws → ix (key x) = (n + j)%nat) →
  NoDup (key <$> mjoin bs).
Proof.
  revert n. induction bs as [|ws bs IH]; intros n H; csimpl; [constructor|].
  rewrite fmap_app. apply NoDup_app. destruct (H 0%nat ws eq_refl) as [Hnd Hix]. split_and!; [done| |].
  - intros y (x & -> & Hx)%list_elem_of_fmap (x' & Heq & Hx')%list_elem_of_fmap.
    apply list_elem_of_join in Hx' as (ws' & Hx' & [j Hj]%list_elem_of_lookup_1).
    destruct (H (S j) ws' Hj) as [_ Hix']. specialize (Hix x Hx). specialize (Hix' x' Hx').
    rewrite <- Heq in Hix'. lia.
  - apply (IH (S n)). intros j ws' Hj. destruct (H (S j) ws' Hj) as [? Hix']. split; [done|].
    intros x Hx. rewrite (Hix' x Hx). lia.
Qed.

Lemma bind_as_join {A B} (f : A → list B) l : l ≫= f = mjoin (f <$> l).
Proof. induction l as [|x l IH]; csimpl; [done|]. by rewrite IH. Qed.

(** The results of a fallible map over an enumerated list *)
Lemma mapM_imap_lookup {E A B} (f : nat * A → result E B) (l : list A) ys :
  mapM f (imap pair l) = Ok ys →
  (∀ j y, ys !! j = Some y → ∃ x, l !! j = Some x ∧ f (j, x) = Ok y) ∧
  (∀ j x, l !! j = Some x → ∃ y, ys !! j = Some y ∧ f (j, x) = Ok y).
Proof.
  intros H%result_mapM_ok. split.
  - intros j y Hy. destruct (Forall2_lookup_r _ _ _ _ _ H Hy) as (x & Hx & Hf).
    apply list_lookup_imap_Some in Hx as (x' & Hx' & ->). eauto.
  - intros j x Hx. destruct (Forall2_lookup_l _ _ _ j (j, x) H) as (y & Hy & Hf); [|by eauto].
    rewrite list_lookup_imap, Hx. done.
Qed.

Section Plan.
Context `{I : IpNetworks}.

(** ** The context *)

(** The candidates of a group are in ascending order. *)
Definition ascending (ctx : PrefixAllocationContext) : Prop :=
  ∀ k cs, bmap_get group_cmp k (automatic_candidates ctx) = Some cs → StronglySorted (cmp_lt string_cmp) cs.

Notation key_cmp := (pair_cmp string_cmp string_cmp).
#[local] Instance key_cmp_total : TotalCmp key_cmp.
Proof. apply pair_cmp_total; apply _. Qed.

(** The query returns eligible rows in the order of VPC and id. *)
Lemma find_allocation_candidates_spec ids d :
  StronglySorted (cmp_lt key_cmp) ((λ kp, (vp_vpc_id kp.2, kp.1)) <$> find_allocation_candidates ids d) ∧
  ∀ id p, (id, p) ∈ find_allocation_candidates ids d → vpc_prefix_of d id = Some p.
Proof using Type.
  unfold find_allocation_candidates. set (found := filter _ _). set (keys := foldl _ _ _).
  assert (Hs : bset_sorted key_cmp keys)
    by (apply (foldl_bset_insert_sorted key_cmp (λ kv, (vp_vpc_id kv.2, kv.1))), bset_nil_sorted).
  assert (Hk : ∀ k, k ∈ keys → ∀ p, vpc_prefix_of d k.2 = Some p → vp_vpc_id p = k.1).
  { intros k Hk p Hp. apply (foldl_bset_insert_elem key_cmp (λ kv, (vp_vpc_id kv.2, kv.1))) in Hk
      as [Hk%elem_of_nil|([id p'] & -> & Hin)%list_elem_of_fmap]; [done|]. simpl in *.
    apply list_elem_of_filter in Hin as [_ Hin%elem_of_map_to_list].
    unfold vpc_prefix_of in Hp. rewrite lookup_fmap in Hin. congruence. }
  clearbody keys. clear found.
  split.
  - induction Hs as [|k keys Hs IH Hall]; csimpl; [constructor|].
    assert (IH' := IH (λ k' Hk', Hk k' (proj2 (elem_of_cons _ _ _) (or_intror Hk')))).
    destruct (vpc_prefix_of d k.2) as [p|] eqn:Hp; simpl; [|exact IH'].
    constructor; [exact IH'|]. rewrite (Hk k ltac:(by left) p Hp). apply Forall_forall.
    intros x ([id q] & -> & Hin)%list_elem_of_fmap. apply list_elem_of_omap in Hin as (k' & Hk' & Hq).
    destruct (vpc_prefix_of d k'.2) as [q'|] eqn:Hq'; [|done]. injection Hq as <- <-. simpl.
    rewrite (Hk k' ltac:(by right) q' Hq'). rewrite Forall_forall in Hall.
    specialize (Hall k' Hk'). by destruct k, k'.
  - intros id p Hin. apply list_elem_of_omap in Hin as (k & _ & Hx).
    destruct (vpc_prefix_of d k.2) as [q|] eqn:Hq; [|done]. by injection Hx as <- <-.
Qed.

Lemma group_candidates_ascending found :
  StronglySorted (cmp_lt key_cmp) ((λ kp, (vp_vpc_id kp.2, kp.1)) <$> found) →
  ∀ k cs, bmap_get group_cmp k (group_candidates found) = Some cs → StronglySorted (cmp_lt string_cmp) cs.
Proof using Type.
  intros Hs k cs Hg. unfold group_candidates in Hg. apply (group_by_get group_cmp) in Hg as [_ ->].
  induction found as [|[id p] found IH]; csimpl; [constructor|].
  csimpl in Hs. apply StronglySorted_inv in Hs as [Hs Hall]. rewrite filter_cons. case_decide as Hk; [|by apply IH].
  csimpl. constructor; [by apply IH|]. apply Forall_forall.
  intros x ([id' p'] & -> & [Hk' Hin]%list_elem_of_filter)%list_elem_of_fmap. simpl in *.
  rewrite Forall_forall in Hall. specialize (Hall (vp_vpc_id p', id')).
  assert (vp_vpc_id p' = vp_vpc_id p) as E by congruence. unfold cmp_lt, pair_cmp in Hall. simpl in Hall.
  rewrite E, (cmp_refl string_cmp) in Hall. apply Hall.
  apply list_elem_of_fmap. exists (id', p'). by rewrite <- E.
Qed.

(** ** The loading *)

(** What a read leaves *)
Definition after_read (w w' : World) : Prop :=
  requests w' = requests w ∧ ∀ cat, world_catalogued cat w → world_catalogued cat w'.

Lemma after_read_refl w : after_read w w.
Proof using Type. by split. Qed.

Lemma after_read_trans w1 w2 w3 : after_read w1 w2 → after_read w2 w3 → after_read w1 w3.
Proof using Type. intros [H1 K1] [H2 K2]. split; [congruence|auto]. Qed.

Lemma read_run {A} (f : net_db → A) w : ∃ w', after_read w w' ∧
  (read f w = (Ok (f (db w')), w') ∨ ∃ e, read f w = (Err (DBError (Sqlx None e)), w')).
Proof using Type.
  unfold read, statement, next_step. set (st := default quiet (head (script w))).
  eexists (mk_world _ _ _ _ _). split; [|destruct (fault st); [right; by eexists|by left]]. split; [done|].
  intros cat [Hd Hs]. unfold world_catalogued. simpl. subst st.
  destruct (script w) as [|st sc]; simpl; [done|]. apply Forall_cons in Hs as [Hst Hs]. split; [by apply Hst|done].
Qed.

(** A query that is not made for an empty list of ids *)
Lemma read_unless_empty {A} (ids : list string) (a0 : A) f w :
  let m := match ids with [] => mret a0 | _ => read f end in
  ∃ w', after_read w w' ∧
    ((∃ a, m w = (Ok a, w') ∧ (a = a0 ∨ a = f (db w'))) ∨ ∃ e, m w = (Err (DBError (Sqlx None e)), w')).
Proof using Type.
  simpl. destruct ids.
  - exists w. split; [apply after_read_refl|]. left. exists a0. by auto.
  - destruct (read_run f w) as (w' & Hw & [H|[e H]]); exists w'; (split; [done|]); rewrite H; eauto.
Qed.

(** What the loading finds. *)
Record context_ok (targets : list NetworkAllocationTarget) (ctx : PrefixAllocationContext) : Prop := {
  ctx_ascending k cs : bmap_get group_cmp k (automatic_candidates ctx) = Some cs →
    StronglySorted (cmp_lt string_cmp) cs;
  ctx_selected itf s : itf ∈ targets ≫= interfaces → vpc_selection itf = Some s →
    is_Some (context_vpcs ctx !! sel_vpc_id s);
  ctx_parents id p : explicit_prefixes ctx !! id = Some p → is_Some (context_vpcs ctx !! vp_vpc_id p);
}.

Record context_catalogued (cat : string → string * AllocationAddressFamily) (ctx : PrefixAllocationContext)
    : Prop := {
  cat_explicit id p : explicit_prefixes ctx !! id = Some p → row_group p = cat id;
  cat_automatic k cs c : bmap_get group_cmp k (automatic_candidates ctx) = Some cs → c ∈ cs → cat c = k;
}.

Lemma interface_ids_elem itfs : ∀ s itf,
  let r := foldl interface_ids s itfs in
  (∀ id, id ∈ s.1.1 → id ∈ r.1.1) ∧ (∀ id, id ∈ s.1.2 → id ∈ r.1.2) ∧
  (itf ∈ itfs → match vpc_selection itf, network_details itf with
                | Some sel, _ => sel_vpc_id sel ∈ r.1.2
                | None, Some (VpcPrefixId id) => id ∈ r.1.1
                | _, _ => True
                end).
Proof using Type.
  assert (Hstep : ∀ s itf, let r := interface_ids s itf in
    (∀ id, id ∈ s.1.1 → id ∈ r.1.1) ∧ (∀ id, id ∈ s.1.2 → id ∈ r.1.2) ∧
    match vpc_selection itf, network_details itf with
    | Some sel, _ => sel_vpc_id sel ∈ r.1.2
    | None, Some (VpcPrefixId id) => id ∈ r.1.1
    | _, _ => True
    end).
  { intros [[e sel] n] itf. unfold interface_ids.
    destruct (vpc_selection itf), (network_details itf) as [[]|], (ipv6_interface_config itf); simpl;
      split_and!; intros; rewrite ?(bset_elem_of_insert string_cmp); auto. }
  induction itfs as [|x itfs IH]; intros s itf; simpl.
  { split_and!; [done..|]. by intros ?%elem_of_nil. }
  destruct (Hstep s x) as (K1 & K2 & K3). destruct (IH (interface_ids s x) itf) as (H1 & H2 & H3).
  split_and!; [auto..|]. intros [->|Hin]%elem_of_cons; [|by apply H3].
  destruct (vpc_selection x); [by apply H2|]. destruct (network_details x) as [[]|]; auto.
Qed.

Lemma check_explicit_errors found ids e : check_explicit found ids = Err e → internal e = false.
Proof using Type.
  induction ids as [|id ids IH]; simpl; [done|]. destruct (found !! id) as [p|]; simpl; [|by intros [= <-]].
  destruct (is_marked_as_deleted p); [by intros [= <-]|done].
Qed.

Lemma existsb_missing {A} (m : gmap string A) ids :
  existsb (λ id, bool_decide (m !! id = None)) ids = false ↔ ∀ id, id ∈ ids → is_Some (m !! id).
Proof using Type.
  rewrite <- not_true_iff_false, existsb_exists. split.
  - intros H id Hin. destruct (m !! id) eqn:E; [done|]. exfalso. apply H. exists id.
    split; [by apply list_elem_of_In|by apply bool_decide_eq_true].
  - intros H (id & Hin%list_elem_of_In & Hn%bool_decide_eq_true). destruct (H id Hin). congruence.
Qed.

Lemma found_candidates_catalogued cat d ids k cs c : catalogued cat d →
  bmap_get group_cmp k (group_candidates (find_allocation_candidates ids d)) = Some cs → c ∈ cs → cat c = k.
Proof using Type.
  intros Hd Hg Hc. unfold group_candidates in Hg. apply (group_by_get group_cmp) in Hg as [_ ->].
  apply list_elem_of_fmap in Hc as ([id p] & -> & [Hk Hin]%list_elem_of_filter). simpl in *.
  apply find_allocation_candidates_spec in Hin. by rewrite <- (Hd id p Hin).
Qed.

Lemma load_context_spec e s n w :
  let '(r, w') := load_context e s n w in
  requests w' = requests w ∧
  match r with
  | Ok (Some ctx) =>
      (∀ k cs, bmap_get group_cmp k (automatic_candidates ctx) = Some cs → StronglySorted (cmp_lt string_cmp) cs) ∧
      (∀ id, id ∈ s → is_Some (context_vpcs ctx !! id)) ∧
      (∀ id p, explicit_prefixes ctx !! id = Some p → is_Some (context_vpcs ctx !! vp_vpc_id p)) ∧
      ∀ cat, world_catalogued cat w → context_catalogued cat ctx
  | Ok None => False
  | Err e => internal e = false
  end.
Proof using Type.
  unfold load_context. rewrite bind_run.
  destruct (read_unless_empty e ∅ (get_for_allocation_by_ids e) w) as (w1 & H1 & [(ex & -> & Hex)|[x ->]]);
    [|split; [apply H1|done]].
  rewrite bind_run. unfold lift at 1. destruct (check_explicit ex e) as [|x] eqn:Hc;
    [|split; [apply H1|by eapply check_explicit_errors]].
  rewrite bind_run.
  destruct (read_unless_empty n [] (find_allocation_candidates n) w1) as (w2 & H2 & [(found & -> & Hfound)|[x ->]]);
    [|split; [destruct H1, H2; congruence|done]].
  rewrite bind_run. destruct (read_run (find_vpcs (foldl (λ s id, bset_insert string_cmp id s) s
    ((λ kp, vp_vpc_id kp.2) <$> map_to_list ex))) w2) as (w3 & H3 & [->|[x ->]]);
    [|split; [destruct H1, H2, H3; congruence|done]].
  assert (requests w3 = requests w) as Hr by (destruct H1, H2, H3; congruence).
  set (vpcs := find_vpcs _ _). clearbody vpcs.
  destruct (existsb _ s) eqn:E1; [by split|]. destruct (existsb _ (_ <$> _)) eqn:E2; [by split|].
  split; [done|]. simpl. rewrite existsb_missing in E1, E2. split_and!; [|exact E1| |].
  - destruct Hfound as [->| ->]; [done|].
    apply group_candidates_ascending, find_allocation_candidates_spec.
  - intros id p Hp. apply E2, list_elem_of_fmap. exists (id, p). by rewrite elem_of_map_to_list.
  - intros cat Hcat. apply H1 in Hcat as Hcat1. apply H2 in Hcat1 as Hcat2. split; simpl.
    + intros id p Hp. destruct Hex as [->| ->]; [done|]. apply Hcat1. unfold get_for_allocation_by_ids in Hp.
      apply lookup_fmap_Some in Hp as (row & <- & [Hrow _]%map_lookup_filter_Some).
      unfold vpc_prefix_of. by rewrite Hrow.
    + intros k cs c. destruct Hfound as [->| ->]; [done|].
      apply found_candidates_catalogued, Hcat2.
Qed.

Lemma load_prefix_allocation_context_spec targets w :
  let '(r, w') := load_prefix_allocation_context targets w in
  requests w' = requests w ∧
  match r with
  | Ok (Some ctx) => context_ok targets ctx ∧ ∀ cat, world_catalogued cat w → context_catalogued cat ctx
  | Ok None => ∀ itf, itf ∈ targets ≫= interfaces → vpc_selection itf = None ∧
                 ∀ id, network_details itf ≠ Some (VpcPrefixId id)
  | Err e => internal e = false
  end.
Proof using Type.
  unfold load_prefix_allocation_context, target_ids.
  pose proof (λ itf, proj2 (proj2 (interface_ids_elem (targets ≫= interfaces) ([], [], []) itf))) as Hids.
  destruct (foldl _ _ _) as [[e s] n]. simpl in Hids.
  assert (Hload : let '(r, w') := load_context e s n w in requests w' = requests w ∧
    match r with
    | Ok (Some ctx) => context_ok targets ctx ∧ ∀ cat, world_catalogued cat w → context_catalogued cat ctx
    | Ok None => False
    | Err e => internal e = false
    end).
  { pose proof (load_context_spec e s n w) as H. destruct (load_context e s n w) as [[[ctx|]|x] w']; [|done..].
    destruct H as (Hr & Ha & Hsel & Hp & Hcat). split; [done|]. split; [|done]. split; [done| |done].
    intros itf sel Hin Hs. apply Hsel. specialize (Hids itf Hin). by rewrite Hs in Hids. }
  assert (Hdone : ∀ r w', load_context e s n w = (r, w') → requests w' = requests w ∧
    match r with
    | Ok (Some ctx) => context_ok targets ctx ∧ ∀ cat, world_catalogued cat w → context_catalogued cat ctx
    | Ok None => ∀ itf, itf ∈ targets ≫= interfaces → vpc_selection itf = None ∧
                   ∀ id, network_details itf ≠ Some (VpcPrefixId id)
    | Err e => internal e = false
    end).
  { intros r w' E. rewrite E in Hload. destruct Hload as [? Hl]. split; [done|]. by destruct r as [[]|]. }
  destruct e as [|x e], s as [|y s]; try (destruct (load_context _ _ _ w) eqn:E; by apply Hdone).
  split; [done|]. intros itf Hin. specialize (Hids itf Hin). destruct (vpc_selection itf).
  - by apply elem_of_nil in Hids.
  - split; [done|]. intros id E. rewrite E in Hids. by apply elem_of_nil in Hids.
Qed.

(** ** The planning *)

(** An address in the range of its family that is not an IPv4 address in IPv6 *)
Definition proper_address (a : bool * Z) : Prop := 0 ≤ a.2 < 2 ^ family_bits a.1 ∧ to_canonical a = a.

Definition proper_requests (itf : InstanceInterfaceConfig) : Prop :=
  (∀ a, requested_ip_addr itf = Some a → proper_address a) ∧
  ∀ c a, ipv6_interface_config itf = Some c → v6_requested_ip_addr c = Some a → proper_address (true, a).

(** The interface needs a linknet, and an IPv6 one besides. *)
Definition wants_linknet (itf : InstanceInterfaceConfig) : Prop :=
  interface_needs_prefix_allocation itf = true ∧
  (is_Some (vpc_selection itf) ∨ ∃ id, network_details itf = Some (VpcPrefixId id)).

Definition wants_secondary (itf : InstanceInterfaceConfig) : Prop :=
  match vpc_selection itf with
  | Some s => family_mode s = DualStack
  | None => is_Some (ipv6_interface_config itf)
  end.

(** The address that is requested of a linknet *)
Definition asked_address (itf : InstanceInterfaceConfig) (sl : PrefixAllocationSlot) : option (bool * Z) :=
  match sl with
  | Primary => requested_ip_addr itf
  | SecondaryIpv6 => (λ a, (true, a)) <$> (ipv6_interface_config itf ≫= v6_requested_ip_addr)
  end.

(** The family of a linknet of a selected VPC *)
Definition slot_family (mode : InstanceInterfaceIpFamilyMode) (sl : PrefixAllocationSlot) : AllocationAddressFamily :=
  match mode, sl with
  | Ipv6Only, _ | _, SecondaryIpv6 => Ipv6
  | _, Primary => Ipv4
  end.

(** The work item is for what the interface asks for. *)
Definition asked_for (itf : InstanceInterfaceConfig) (w : PrefixAllocationWork) : Prop :=
  requested_linknet (asked_address itf (slot w)) (w_family w) = Ok (requested_prefix w) ∧
  match vpc_selection itf with
  | Some s => w_vpc_id w = sel_vpc_id s ∧ w_family w = slot_family (family_mode s) (slot w)
  | None =>
      match slot w with
      | Primary => ∃ id, network_details itf = Some (VpcPrefixId id) ∧ candidates w = [id]
      | SecondaryIpv6 => ∃ c, ipv6_interface_config itf = Some c ∧ candidates w = [v6_vpc_prefix_id c]
      end
  end.

(** A work item that the execution can run. *)
Record work_ok (ctx : PrefixAllocationContext) (t i : nat) (itf : InstanceInterfaceConfig)
    (w : PrefixAllocationWork) : Prop := {
  work_index : target_index w = t ∧ interface_index w = i;
  work_candidates :
    candidates w ≠ [] ∧ StronglySorted (cmp_lt string_cmp) (candidates w) ∧ candidate_index w = 0%nat;
  work_asked : asked_for itf w;
  work_group cat c : context_catalogued cat ctx → c ∈ candidates w → cat c = group_of w;
}.

(** The work items of one interface. *)
Record interface_plan (ctx : PrefixAllocationContext) (t i : nat) (itf : InstanceInterfaceConfig)
    (ws : list PrefixAllocationWork) : Prop := {
  ip_works w : w ∈ ws → work_ok ctx t i itf w;
  ip_slots : NoDup (slot <$> ws);
  ip_secondary w : w ∈ ws → slot w = SecondaryIpv6 → w_family w = Ipv6 ∧
    ∃ p, p ∈ ws ∧ slot p = Primary ∧ w_family p = Ipv4 ∧ w_vpc_id p = w_vpc_id w;
  ip_has_primary : wants_linknet itf → ∃ p, p ∈ ws ∧ slot p = Primary;
  ip_has_secondary : wants_linknet itf → wants_secondary itf → ∃ s, s ∈ ws ∧ slot s = SecondaryIpv6;
}.

Lemma interface_plan_nil ctx t i itf : ¬ wants_linknet itf → interface_plan ctx t i itf [].
Proof using Type. intros Hn. split; try done; try (by intros * ?%elem_of_nil); constructor. Qed.

Lemma interface_plan_one ctx t i itf w :
  work_ok ctx t i itf w → slot w = Primary → ¬ wants_secondary itf → interface_plan ctx t i itf [w].
Proof using Type.
  intros Hw Hp Hs. split; [by intros ? ->%list_elem_of_singleton|apply NoDup_singleton| | |done].
  - intros ? ->%list_elem_of_singleton. congruence.
  - exists w. by split; [left|].
Qed.

Lemma interface_plan_two ctx t i itf p s :
  work_ok ctx t i itf p → work_ok ctx t i itf s → slot p = Primary → slot s = SecondaryIpv6 →
  w_family p = Ipv4 → w_family s = Ipv6 → w_vpc_id p = w_vpc_id s → interface_plan ctx t i itf [p; s].
Proof using Type.
  intros Hp Hs Ep Es Fp Fs Ev. split.
  - by intros ? [->| ->%list_elem_of_singleton]%elem_of_cons.
  - csimpl. rewrite Ep, Es. apply NoDup_cons. split; [by intros ?%list_elem_of_singleton|apply NoDup_singleton].
  - intros ? [->| ->%list_elem_of_singleton]%elem_of_cons ?; [congruence|]. split; [done|].
    exists p. split_and!; [by left|done..].
  - exists p. by split; [left|].
  - exists s. by split; [right; left|].
Qed.

Lemma requested_linknet_errors a f e :
  (∀ x, a = Some x → proper_address x ∧ from_address x = f) →
  requested_linknet a f = Err e → internal e = false.
Proof using Type.
  intros Ha. unfold requested_linknet. destruct a as [x|]; [|done]. destruct (Ha x eq_refl) as [[Hr Hc] <-].
  unfold build_requested_linknet_prefix. destruct (_ =? 0); [by intros [= <-]|]. rewrite Hc.
  destruct (net_make_ok x.1 x.2 (linknet_prefix (from_address x))) as (n & -> & _); [done| |done].
  unfold from_address, family_bits. destruct x.1; simpl; lia.
Qed.

Section Interface.
Context (targets : list NetworkAllocationTarget) (ctx : PrefixAllocationContext) (Hctx : context_ok targets ctx).
Context (t i : nat) (target : NetworkAllocationTarget) (itf : InstanceInterfaceConfig).
Hypothesis Hin : itf ∈ targets ≫= interfaces.

Lemma plan_automatic_spec sel : vpc_selection itf = Some sel →
  match plan_automatic ctx t i target itf sel with
  | Ok (_, ws) => interface_plan ctx t i itf ws
  | Err e => proper_requests itf → internal e = false
  end.
Proof using Hctx Hin.
  intros Hsel. unfold plan_automatic. destruct (ctx_selected _ _ Hctx itf sel Hin Hsel) as [vpc ->]. simpl.
  destruct (negb _); [done|]. destruct (negb _); [done|]. destruct (existsb _ _); [done|].
  destruct (_ || _) eqn:Hnoreq; [done|].
  assert (Haddr : ∀ sl, asked_address itf sl = None).
  { rewrite !orb_false_iff in Hnoreq. destruct Hnoreq as ((((H1 & H2) & _) & _) & _).
    apply bool_decide_eq_false, eq_None_not_Some in H1, H2. intros []; simpl; [done|]. by rewrite H2. }
  destruct (interface_needs_prefix_allocation itf) eqn:Hn; simpl;
    [|apply interface_plan_nil; intros [? _]; congruence].
  assert (Hwork : ∀ f c cs sl a, bmap_get group_cmp (sel_vpc_id sel, f) (automatic_candidates ctx) = Some (c :: cs) →
    f = slot_family (family_mode sel) sl →
    work_ok ctx t i itf (mk_work t i (sel_vpc_id sel) f (c :: cs) 0 sl None a)).
  { intros f c cs sl a Hg Hf. split; simpl; [done| | |].
    - split_and!; [done|by eapply ctx_ascending|done].
    - unfold asked_for. simpl. by rewrite Hsel, Haddr.
    - intros cat c' Hcat Hc. by eapply (cat_automatic _ _ Hcat). }
  destruct (family_mode sel) eqn:Hm; simpl.
  3: destruct (bmap_get group_cmp (sel_vpc_id sel, Ipv4) _) as [[|c cs]|] eqn:E; simpl; [done| |done].
  1,2: destruct (bmap_get group_cmp _ _) as [[|c cs]|] eqn:E; simpl; [done| |done].
  1,2: apply interface_plan_one; [by apply Hwork|done|unfold wants_secondary; rewrite Hsel; congruence].
  destruct (bmap_get group_cmp (sel_vpc_id sel, Ipv6) _) as [[|c' cs']|] eqn:E'; simpl; [done| |done].
  apply interface_plan_two; try done; by apply Hwork.
Qed.

Lemma plan_explicit_spec id : vpc_selection itf = None → network_details itf = Some (VpcPrefixId id) →
  match plan_explicit ctx t i target itf id with
  | Ok (_, ws) => interface_plan ctx t i itf ws
  | Err e => proper_requests itf → internal e = false
  end.
Proof using Hctx.
  intros Hsel Hid. unfold plan_explicit. destruct (explicit_prefixes ctx !! id) as [p|] eqn:Hp; [|done]. simpl.
  destruct (ctx_parents _ _ Hctx id p Hp) as [vpc ->]. simpl. destruct (negb _); [done|].
  destruct (match requested_ip_addr itf with
            | Some a => negb (bool_decide (from_address a = from_network (vp_prefix p)))
            | None => false
            end) eqn:Hfam; [done|].
  destruct (secondary_prefix ctx itf p) as [sec|e] eqn:Hsec; simpl.
  2: { revert Hsec. unfold secondary_prefix. destruct (ipv6_interface_config itf) as [c|]; [|done].
       destruct (negb _); [by intros [= <-]|]. destruct (_ !! v6_vpc_prefix_id c); [|by intros [= <-]]. simpl.
       destruct (negb _); [by intros [= <-]|]. destruct (negb _); [by intros [= <-]|done]. }
  destruct (interface_needs_prefix_allocation itf) eqn:Hn; simpl;
    [|apply interface_plan_nil; intros [? _]; congruence].
  destruct (requested_linknet (requested_ip_addr itf) _) as [req|e] eqn:Hreq; simpl.
  2: { intros Hproper. eapply requested_linknet_errors; [|exact Hreq]. intros x Hx. split; [by apply Hproper|].
       rewrite Hx in Hfam. by apply negb_false_iff, bool_decide_eq_true in Hfam. }
  assert (Hfirst : work_ok ctx t i itf
    (mk_work t i (vp_vpc_id p) (from_network (vp_prefix p)) [id] 0 Primary req false)).
  { split; simpl; [done| | |].
    - split_and!; [done|repeat constructor|done].
    - unfold asked_for. rewrite Hsel. simpl. by eauto.
    - intros cat c Hcat ->%list_elem_of_singleton. symmetry. by apply (cat_explicit _ _ Hcat). }
  revert Hsec. unfold secondary_prefix. destruct (ipv6_interface_config itf) as [c6|] eqn:H6.
  2: { intros [= <-]. apply interface_plan_one; [done|done|]. unfold wants_secondary. rewrite Hsel, H6.
       by intros [? ?]. }
  case_bool_decide as Hf4; simpl; [|done].
  destruct (explicit_prefixes ctx !! v6_vpc_prefix_id c6) as [q|] eqn:Hq; simpl; [|done].
  destruct (net_v6 (vp_prefix q)) eqn:Hv6; simpl; [|done]. case_bool_decide as Hvpc; simpl; [|done].
  intros [= <-]. simpl.
  destruct (requested_linknet ((λ a, (true, a)) <$> _) Ipv6) as [req'|e] eqn:Hreq'; simpl.
  2: { intros Hproper. eapply requested_linknet_errors; [|exact Hreq']. intros x Hx.
       apply fmap_Some in Hx as (a & Ha & ->). split; [by eapply Hproper|done]. }
  apply interface_plan_two; try done. split; simpl; [done| | |].
  - split_and!; [done|repeat constructor|done].
  - unfold asked_for. simpl. rewrite Hsel, H6. by eauto.
  - intros cat c Hcat ->%list_elem_of_singleton. symmetry. rewrite <- (cat_explicit _ _ Hcat _ _ Hq).
    unfold row_group, group_of, from_network. by rewrite Hv6.
Qed.

Lemma plan_interface_spec :
  match plan_interface ctx t target (i, itf) with
  | Ok (_, ws) => interface_plan ctx t i itf ws
  | Err e => proper_requests itf → internal e = false
  end.
Proof using Hctx Hin.
  simpl. destruct (vpc_selection itf) as [sel|] eqn:Hsel; [by apply plan_automatic_spec|].
  destruct (network_details itf) as [[sid|id]|] eqn:Hd; [|by apply plan_explicit_spec|];
    apply interface_plan_nil; intros [_ [[? ?]|[? ?]]]; congruence.
Qed.
End Interface.

(** The works are the plans of the interfaces, one after the other. *)
Record planned (targets : list NetworkAllocationTarget) (ctx : PrefixAllocationContext)
    (works : list PrefixAllocationWork) : Prop := {
  planned_all t i itf : lookup_interface targets t i = Some itf →
    ∃ ws, interface_plan ctx t i itf ws ∧ ∀ w, w ∈ ws → w ∈ works;
  planned_only w : w ∈ works → ∃ itf ws,
    lookup_interface targets (target_index w) (interface_index w) = Some itf ∧
    interface_plan ctx (target_index w) (interface_index w) itf ws ∧ w ∈ ws ∧ ∀ w, w ∈ ws → w ∈ works;
  planned_once : NoDup ((λ w, (target_index w, interface_index w, slot w)) <$> works);
}.

Section Targets.
Context (targets : list NetworkAllocationTarget) (ctx : PrefixAllocationContext) (Hctx : context_ok targets ctx).

(** An error is not internal when the requested addresses are proper. *)
Definition proper_targets : Prop := ∀ itf, itf ∈ targets ≫= interfaces → proper_requests itf.

Lemma interface_elem t target i itf :
  targets !! t = Some target → interfaces target !! i = Some itf → itf ∈ targets ≫= interfaces.
Proof using Type.
  intros Ht Hi. apply list_elem_of_bind. exists target. split; by eapply list_elem_of_lookup_2.
Qed.

(** The blocks of a target, by interface *)
Definition target_blocks (t : nat) (target : NetworkAllocationTarget)
    (blocks : list (list PrefixAllocationWork)) : Prop :=
  (∀ i b, blocks !! i = Some b → ∃ itf, interfaces target !! i = Some itf ∧ interface_plan ctx t i itf b) ∧
  ∀ i itf, interfaces target !! i = Some itf → is_Some (blocks !! i).

Lemma plan_target_spec t target : targets !! t = Some target →
  match plan_target ctx (t, target) with
  | Ok ws => ∃ blocks, ws = mjoin blocks ∧ target_blocks t target blocks
  | Err e => proper_targets → internal e = false
  end.
Proof using Hctx.
  intros Ht. unfold plan_target. simpl.
  assert (Hspec : ∀ i itf, interfaces target !! i = Some itf →
    match plan_interface ctx t target (i, itf) with
    | Ok (_, ws) => interface_plan ctx t i itf ws
    | Err e => proper_requests itf → internal e = false
    end).
  { intros i itf Hi. eapply plan_interface_spec; eauto using interface_elem. }
  destruct (mapM _ _) as [planned|e] eqn:Hm; simpl.
  - destruct (_ && _); [done|]. exists (snd <$> planned). split; [apply bind_as_join|].
    apply mapM_imap_lookup in Hm as [H1 H2]. split.
    + intros i b (p & -> & (itf & Hi & Hp)%H1)%list_lookup_fmap_Some. exists itf. split; [done|].
      specialize (Hspec i itf Hi). rewrite Hp in Hspec. by destruct p.
    + intros i itf (p & Hp & _)%H2. rewrite list_lookup_fmap, Hp. by eexists.
  - apply result_mapM_err in Hm as ([i itf] & Hin & He).
    apply elem_of_lookup_imap in Hin as (i' & itf' & [= <- <-] & Hi). specialize (Hspec i itf Hi).
    rewrite He in Hspec. intros Hproper. by eapply Hspec, Hproper, interface_elem.
Qed.

Lemma target_blocks_works t target blocks w : target_blocks t target blocks → w ∈ mjoin blocks →
  ∃ itf b, interfaces target !! interface_index w = Some itf ∧ target_index w = t ∧
    interface_plan ctx t (interface_index w) itf b ∧ w ∈ b ∧ ∀ w, w ∈ b → w ∈ mjoin blocks.
Proof using Type.
  intros [H1 _] (b & Hw & [i Hi]%list_elem_of_lookup_1)%list_elem_of_join.
  destruct (H1 i b Hi) as (itf & Hitf & Hip). destruct (work_index _ _ _ _ _ (ip_works _ _ _ _ _ Hip w Hw)) as [<- <-].
  exists itf, b. split_and!; [done..|]. intros w' Hw'. apply list_elem_of_join. exists b.
  split; [done|]. by eapply list_elem_of_lookup_2.
Qed.

Lemma target_blocks_once t target blocks : target_blocks t target blocks →
  NoDup ((λ w, (target_index w, interface_index w, slot w)) <$> mjoin blocks).
Proof using Type.
  intros [H1 _]. apply (NoDup_fmap_join _ (λ k, k.1.2) blocks 0). intros i b Hb.
  destruct (H1 i b Hb) as (itf & _ & Hip). split.
  - pose proof (ip_slots _ _ _ _ _ Hip) as Hnd. apply (NoDup_fmap_1 snd). rewrite <- list_fmap_compose. exact Hnd.
  - intros w Hw. simpl. by apply (ip_works _ _ _ _ _ Hip w Hw).
Qed.

Lemma plan_prefix_allocations_spec :
  match plan_prefix_allocations targets ctx with
  | Ok works => planned targets ctx works
  | Err e => proper_targets → internal e = false
  end.
Proof using Hctx.
  unfold plan_prefix_allocations. destruct (mapM _ _) as [blocks|e] eqn:Hm; simpl.
  2: { apply result_mapM_err in Hm as ([t target] & Hin & He).
       apply elem_of_lookup_imap in Hin as (t' & target' & [= <- <-] & Ht).
       pose proof (plan_target_spec t target Ht) as H. by rewrite He in H. }
  apply mapM_imap_lookup in Hm as [H1 H2].
  assert (Hblock : ∀ t ws, blocks !! t = Some ws → ∃ target bs, targets !! t = Some target ∧
    ws = mjoin bs ∧ target_blocks t target bs).
  { intros t ws (target & Ht & Hp)%H1. pose proof (plan_target_spec t target Ht) as H.
    rewrite Hp in H. destruct H as (bs & -> & ?). by exists target, bs. }
  assert (Hsub : ∀ t ws w, blocks !! t = Some ws → w ∈ ws → w ∈ mjoin blocks).
  { intros t ws w Hws Hw. apply list_elem_of_join. exists ws. split; [done|]. by eapply list_elem_of_lookup_2. }
  split.
  - unfold lookup_interface. intros t i itf Hl. destruct (targets !! t) as [target|] eqn:Ht; [|done]. simpl in Hl.
    destruct (H2 t target Ht) as (ws & Hws & _). destruct (Hblock t ws Hws) as (target' & bs & Ht' & -> & Hbs).
    assert (target' = target) as -> by congruence. destruct Hbs as [K1 K2]. destruct (K2 i itf Hl) as [b Hb].
    destruct (K1 i b Hb) as (itf' & Hi & Hip). assert (itf' = itf) as -> by congruence. exists b. split; [done|].
    intros w Hw. eapply Hsub; [exact Hws|]. apply list_elem_of_join. exists b.
    split; [done|]. by eapply list_elem_of_lookup_2.
  - intros w (ws & Hw & [t Hws]%list_elem_of_lookup_1)%list_elem_of_join.
    destruct (Hblock t ws Hws) as (target & bs & Ht & -> & Hbs).
    destruct (target_blocks_works t target bs w Hbs Hw) as (itf & b & Hi & <- & Hip & Hwb & Hb).
    exists itf, b. split_and!; [|done|done|by eauto]. unfold lookup_interface. by rewrite Ht.
  - apply (NoDup_fmap_join _ (λ k, k.1.1) blocks 0). intros t ws Hws.
    destruct (Hblock t ws Hws) as (target & bs & Ht & -> & Hbs). split; [by eapply target_blocks_once|].
    intros w Hw. by destruct (target_blocks_works t target bs w Hbs Hw) as (? & ? & _ & ? & _).
Qed.
End Targets.

(** Works that are planned can be executed. *)
Lemma planned_plan_ok targets ctx works : planned targets ctx works → plan_ok works targets.
Proof using Type.
  intros [_ Honly Honce]. split.
  - intros i w Hw. apply list_elem_of_lookup_2 in Hw. destruct (Honly w Hw) as (itf & ws & _ & Hip & Hin & _).
    by apply (work_candidates _ _ _ _ _ (ip_works _ _ _ _ _ Hip w Hin)).
  - intros i w Hw. apply list_elem_of_lookup_2 in Hw. destruct (Honly w Hw) as (itf & ws & -> & _). by eexists.
  - intros i w Hw Hs. apply list_elem_of_lookup_2 in Hw.
    destruct (Honly w Hw) as (itf & ws & _ & Hip & Hin & Hsub).
    destruct (ip_secondary _ _ _ _ _ Hip w Hin Hs) as (Hf & p & Hp & Hsp & Hfp & Hv). split; [done|].
    destruct (list_elem_of_lookup_1 _ _ (Hsub p Hp)) as [j Hj]. exists j, p.
    split_and!; try done; by apply (work_index _ _ _ _ _ (ip_works _ _ _ _ _ Hip p Hp)).
  - intros i j w w' Hi Hj Hne (E1 & E2 & E3). apply Hne. eapply (NoDup_lookup _ i j); [exact Honce| |].
    + rewrite list_lookup_fmap, Hi. done.
    + rewrite list_lookup_fmap, Hj. simpl. by rewrite E1, E2, E3.
Qed.

(** ** The allocation *)

Context (print_net : IpNetwork → string) (print_ip : bool * Z → string).

(** What is known of the tables, as for the execution *)
Section Known.
Context (K : World → Prop) (B : World → PrefixAllocationWork → string → string → Prop) (apart : Prop).
Hypothesis Hattempt : ∀ w wk c op, K w →
  (∀ seg, op = Attach seg → ∃ p c0, w_vpc_id p = w_vpc_id wk ∧ B w p c0 seg) →
  match attempt_prefix_candidate print_net print_ip (w_vpc_id wk) (w_family wk) c op (requested_prefix wk) w with
  | (Ok oc, w') => K w' ∧ (∀ p c0 seg, B w p c0 seg → B w' p c0 seg) ∧
      ∀ seg, reported op oc seg → B w' wk c seg ∧ (apart → op = Create → ∀ p c0, ¬ B w p c0 seg)
  | (Err _, _) => True
  end.
Hypothesis Hsame : ∀ w wk wk' c seg, same_plan wk wk' → B w wk c seg → B w wk' c seg.

Lemma execute_prefix_allocations_spec targets works w :
  plan_ok works targets → requests w = [] → K w →
  let '(r, w') := execute_prefix_allocations print_net print_ip targets works w in
  StronglySorted (cmp_le lock_cmp) (requests w') ∧ Forall (lock_planned works) (requests w') ∧
  match r with
  | Ok targets' => K w' ∧ (∀ i w, works !! i = Some w → resolved B w' targets' w) ∧
      (apart → ∀ i j w w' seg, works !! i = Some w → works !! j = Some w' → slot w = Primary → slot w' = Primary →
        segment_on targets' w = Some seg → segment_on targets' w' = Some seg → i = j)
  | Err e => internal e = false
  end.
Proof using Hattempt Hsame.
  intros Hplan Hw HK.
  apply (run_groups_spec print_net print_ip K B apart Hattempt Hsame works targets Hplan (group_works works) []).
  - apply (group_by_sorted group_cmp).
  - done.
  - intros i wk Hwk. right. by eapply group_works_complete.
  - by intros i wk g ?%elem_of_nil.
  - done.
  - split; [by apply Forall_Forall2_diag, Forall_forall|apply Hplan|by intros ? ? ?%elem_of_nil|done|].
    by intros i j wi wj seg _ ?%elem_of_nil.
  - unfold locks_before. rewrite Hw. split_and!; constructor.
Qed.

(** What an interface has got, with what is known of its linknets *)
Definition backed (wd : World) (itf itf' : InstanceInterfaceConfig) : Prop :=
  ∃ p c seg, asked_for itf p ∧ slot p = Primary ∧ network_segment_id itf' = Some seg ∧
    network_details itf' = Some (VpcPrefixId c) ∧ if_vpc_id itf' = Some (w_vpc_id p) ∧
    c ∈ candidates p ∧ B wd p c seg ∧
    (wants_secondary itf → ∃ q c6, asked_for itf q ∧ slot q = SecondaryIpv6 ∧ w_family q = Ipv6 ∧
       w_vpc_id q = w_vpc_id p ∧ ipv6_interface_config itf' = Some c6 ∧ v6_vpc_prefix_id c6 ∈ candidates q ∧
       B wd q (v6_vpc_prefix_id c6) seg).

Lemma primary_unique ctx t i itf ws p p' : interface_plan ctx t i itf ws → p ∈ ws → p' ∈ ws →
  slot p = Primary → slot p' = Primary → p = p'.
Proof using Type.
  intros Hip [a Ha]%list_elem_of_lookup_1 [b Hb]%list_elem_of_lookup_1 Hp Hp'.
  assert (a = b) as ->; [|congruence].
  eapply (NoDup_lookup _ a b); [exact (ip_slots _ _ _ _ _ Hip)| |]; rewrite list_lookup_fmap;
    [rewrite Ha|rewrite Hb]; simpl; by rewrite ?Hp, ?Hp'.
Qed.

Lemma planned_backed targets ctx works wd targets' t i itf :
  planned targets ctx works → (∀ j w, works !! j = Some w → resolved B wd targets' w) →
  lookup_interface targets t i = Some itf → wants_linknet itf →
  ∃ itf', lookup_interface targets' t i = Some itf' ∧ backed wd itf itf'.
Proof using Type.
  intros Hplan Hres Hl Hw. destruct (planned_all _ _ _ Hplan t i itf Hl) as (ws & Hip & Hsub).
  assert (Hget : ∀ w, w ∈ ws → asked_for itf w ∧ resolved B wd targets' w ∧ target_index w = t ∧ interface_index w = i).
  { intros w Hin. destruct (ip_works _ _ _ _ _ Hip w Hin) as [[<- <-] _ Hask _]. split; [done|].
    destruct (list_elem_of_lookup_1 _ _ (Hsub w Hin)) as [j Hj]. by eauto. }
  destruct (ip_has_primary _ _ _ _ _ Hip Hw) as (p & Hp & Hsp).
  destruct (Hget p Hp) as (Hask & (itf' & c & seg & Hl' & Hc & Hseg & HB & Hm) & Et & Ei). rewrite Et, Ei in Hl'.
  rewrite Hsp in Hm. destruct Hm as [Hd Hv]. exists itf'. split; [done|]. exists p, c, seg. split_and!; try done.
  intros Hsec. destruct (ip_has_secondary _ _ _ _ _ Hip Hw Hsec) as (q & Hq & Hsq).
  destruct (Hget q Hq) as (Hask' & (itf'' & c' & seg' & Hl'' & Hc' & Hseg' & HB' & Hm') & Et' & Ei').
  rewrite Et', Ei' in Hl''. rewrite Hsq in Hm'. assert (itf'' = itf') as -> by congruence.
  assert (seg' = seg) as -> by congruence. apply fmap_Some in Hm' as (c6 & H6 & ->).
  destruct (ip_secondary _ _ _ _ _ Hip q Hq Hsq) as (Hf & p' & Hp' & Hsp' & _ & Hv').
  rewrite (primary_unique _ _ _ _ _ _ _ Hip Hp' Hp Hsp' Hsp) in Hv'. exists q, c6. by split_and!.
Qed.

(** No two interfaces that want a linknet have the same segment. *)
Definition separate (targets targets' : list NetworkAllocationTarget) : Prop :=
  ∀ t i t2 i2 itf itf2 x x2, lookup_interface targets t i = Some itf → wants_linknet itf →
    lookup_interface targets t2 i2 = Some itf2 → wants_linknet itf2 →
    lookup_interface targets' t i = Some x → lookup_interface targets' t2 i2 = Some x2 →
    network_segment_id x = network_segment_id x2 → t = t2 ∧ i = i2.

Lemma planned_separate targets ctx works targets' wd :
  planned targets ctx works → (∀ j w, works !! j = Some w → resolved B wd targets' w) →
  (∀ i j w w' seg, works !! i = Some w → works !! j = Some w' → slot w = Primary → slot w' = Primary →
     segment_on targets' w = Some seg → segment_on targets' w' = Some seg → i = j) →
  separate targets targets'.
Proof using Type.
  intros Hplan Hres Hap.
  assert (Hget : ∀ t i itf x, lookup_interface targets t i = Some itf → wants_linknet itf →
    lookup_interface targets' t i = Some x → ∃ j p, works !! j = Some p ∧ slot p = Primary ∧
      target_index p = t ∧ interface_index p = i ∧ segment_on targets' p = network_segment_id x ∧
      is_Some (network_segment_id x)).
  { intros t i itf x Hl Hw Hx. destruct (planned_all _ _ _ Hplan t i itf Hl) as (ws & Hip & Hsub).
    destruct (ip_has_primary _ _ _ _ _ Hip Hw) as (p & Hp & Hsp).
    destruct (list_elem_of_lookup_1 _ _ (Hsub p Hp)) as [j Hj]. exists j, p.
    destruct (work_index _ _ _ _ _ (ip_works _ _ _ _ _ Hip p Hp)) as [Et Ei]. split_and!; try done.
    - unfold segment_on. by rewrite Et, Ei, Hx.
    - destruct (Hres j p Hj) as (y & c & seg & Hy & _ & Hseg & _). rewrite Et, Ei, Hx in Hy.
      injection Hy as ->. by eexists. }
  intros t i t2 i2 itf itf2 x x2 Hl Hw Hl2 Hw2 Hx Hx2 E.
  destruct (Hget t i itf x Hl Hw Hx) as (j & p & Hj & Hsp & <- & <- & Hseg & [seg Hsome]).
  destruct (Hget t2 i2 itf2 x2 Hl2 Hw2 Hx2) as (j2 & p2 & Hj2 & Hsp2 & <- & <- & Hseg2 & _).
  assert (j = j2) as <-; [|by assert (p = p2) as -> by congruence].
  apply (Hap j j2 p p2 seg); try done; congruence.
Qed.

Lemma allocate_networks_run targets w : requests w = [] → K (snd (load_prefix_allocation_context targets w)) →
  let '(r, w') := allocate_networks print_net print_ip targets w in
  StronglySorted (cmp_le lock_cmp) (requests w') ∧
  (∀ cat, world_catalogued cat w → Forall (λ k, cat k.2 = k.1) (requests w')) ∧
  match r with
  | Ok targets' => K w' ∧ (∀ t i itf, lookup_interface targets t i = Some itf → wants_linknet itf →
      ∃ itf', lookup_interface targets' t i = Some itf' ∧ backed w' itf itf') ∧ (apart → separate targets targets')
  | Err e => proper_targets targets → internal e = false
  end.
Proof using Hattempt Hsame.
  intros Hw HK. unfold allocate_networks. rewrite bind_run.
  pose proof (load_prefix_allocation_context_spec targets w) as Hload.
  destruct (load_prefix_allocation_context targets w) as [[[ctx|]|e] w1]; destruct Hload as [Hr Hload];
    rewrite Hw in Hr; simpl in HK.
  - destruct Hload as [Hctx Hcat]. rewrite bind_run. unfold lift at 1.
    pose proof (plan_prefix_allocations_spec targets ctx Hctx) as Hplan.
    destruct (plan_prefix_allocations targets ctx) as [works|e].
    2: { rewrite Hr. split_and!; [constructor|by constructor|done]. }
    pose proof (execute_prefix_allocations_spec targets works w1 (planned_plan_ok _ _ _ Hplan) Hr HK) as Hex.
    destruct (execute_prefix_allocations _ _ targets works w1) as [r w2].
    destruct Hex as (Hs & Hl & Hres). split_and!; [done| |].
    + intros cat Hc%Hcat. eapply Forall_impl; [exact Hl|]. intros k (j & wk & Hj & Hg & Hk).
      apply list_elem_of_lookup_2 in Hj. destruct (planned_only _ _ _ Hplan wk Hj) as (itf & ws & _ & Hip & Hin & _).
      rewrite <- Hg. by apply (work_group _ _ _ _ _ (ip_works _ _ _ _ _ Hip wk Hin)).
    + destruct r as [targets'|e]; [|done]. destruct Hres as (HK2 & Hres & Hap). split_and!; [done| |].
      * intros t i itf. by apply (planned_backed _ _ _ _ _ _ _ _ Hplan).
      * intros Ha. by eapply planned_separate; [exact Hplan|exact Hres|apply Hap].
  - assert (Hnone : ∀ t i itf, lookup_interface targets t i = Some itf → ¬ wants_linknet itf).
    { intros t i itf Hl [_ Hwant]. unfold lookup_interface in Hl. destruct (targets !! t) as [target|] eqn:Ht; [|done].
      destruct (Hload itf (interface_elem targets t target i itf Ht Hl)) as [Hs Hd].
      destruct Hwant as [[s Es]|[id Ed]]; [congruence|by apply (Hd id)]. }
    simpl. rewrite Hr. split_and!; [constructor|by constructor|done| |].
    + by intros t i itf Hl%Hnone.
    + by intros _ t i t2 i2 itf itf2 x x2 Hl%Hnone.
  - rewrite Hr. split_and!; [constructor|by constructor|done].
Qed.
End Known.

(** Nothing need be known of the tables. *)
Lemma allocate_networks_bare targets w : requests w = [] →
  let '(r, w') := allocate_networks print_net print_ip targets w in
  StronglySorted (cmp_le lock_cmp) (requests w') ∧
  (∀ cat, world_catalogued cat w → Forall (λ k, cat k.2 = k.1) (requests w')) ∧
  match r with
  | Ok targets' => ∀ t i itf, lookup_interface targets t i = Some itf → wants_linknet itf →
      ∃ itf', lookup_interface targets' t i = Some itf' ∧ backed (λ _ _ _ _, True) w' itf itf'
  | Err e => proper_targets targets → internal e = false
  end.
Proof using Type.
  intros Hw. pose proof (allocate_networks_run (λ _, True) (λ _ _ _ _, True) False) as H.
  specialize (λ H1 H2, H H1 H2 targets w Hw Logic.I).
  destruct (allocate_networks _ _ targets w) as [r w']. destruct H as (? & ? & H); [|done|].
  - intros w0 wk c op _ _. destruct (attempt_prefix_candidate _ _ _ _ _ _ _ _) as [[oc|e] w1]; [|done].
    split_and!; [done..|]. intros seg _. split; [done|]. by intros [].
  - split_and!; [done..|]. destruct r; [|done]. apply H.
Qed.

(** ** What the tables hold afterwards *)

(** The ids that the transaction draws; an empty one when the supply is used up *)
Definition drawn (w : World) (id : string) : Prop := id ∈ uuids w ∨ id = EmptyString.

(** The transaction runs in a database: its ids are new, others keep the constraints of the
    tables and leave the rows of the transaction, which they cannot see, and after the
    loading no VPC prefix is moved to another VPC or family. *)
Record isolated (targets : list NetworkAllocationTarget) (w : World) : Prop := {
  iso_saved : saved w = [];
  iso_wf : net_wf (db w);
  iso_new id : drawn w id → network_prefixes (db w) !! id = None;
  iso_others : Forall (λ st, ∀ d, (net_wf d → net_wf (others st d)) ∧
    ∀ id, drawn w id → network_prefixes (others st d) !! id = network_prefixes d !! id ∧
                       stored_segment (others st d) id = stored_segment d id) (script w);
  iso_catalogue : ∃ cat, world_catalogued cat (snd (load_prefix_allocation_context targets w));
}.

(** The linknet: a network prefix inside a VPC prefix of the VPC and the family, to which it
    refers, with the requested address, on a segment of the VPC *)
Definition linknet_stored (d : net_db) (seg id vpc : string) (fam : AllocationAddressFamily)
    (address : option (bool * Z)) : Prop :=
  ∃ nid n p g, network_prefixes d !! nid = Some n ∧ np_segment_id n = seg ∧
    np_vpc_prefix n = Some (id, vp_prefix p) ∧ vpc_prefix_of d id = Some p ∧
    vp_vpc_id p = vpc ∧ from_network (vp_prefix p) = fam ∧ within (np_prefix n) (vp_prefix p) = true ∧
    (∀ a, address = Some a → net_contains_ip (np_prefix n) a = true) ∧
    stored_segment d seg = Some g ∧ gs_vpc_id g = Some vpc.

(** The linknets of an interface are stored. *)
Record stored (d : net_db) (itf itf' : InstanceInterfaceConfig) : Prop := {
  stored_primary : ∃ seg id vpc fam, network_segment_id itf' = Some seg ∧
    network_details itf' = Some (VpcPrefixId id) ∧ if_vpc_id itf' = Some vpc ∧
    linknet_stored d seg id vpc fam (requested_ip_addr itf) ∧
    ∀ s, vpc_selection itf = Some s → vpc = sel_vpc_id s ∧ fam = slot_family (family_mode s) Primary;
  stored_secondary : wants_secondary itf → ∃ seg c vpc, network_segment_id itf' = Some seg ∧
    ipv6_interface_config itf' = Some c ∧ if_vpc_id itf' = Some vpc ∧
    linknet_stored d seg (v6_vpc_prefix_id c) vpc Ipv6 (asked_address itf SecondaryIpv6);
}.

Lemma requested_contains a f r : proper_address a →
  build_requested_linknet_prefix a (linknet_prefix f) = Ok r → net_contains_ip (to_cidr r) a = true.
Proof using Type.
  intros [Ha Hc]. unfold build_requested_linknet_prefix. destruct (_ =? 0); [done|]. rewrite Hc.
  destruct (decide (linknet_prefix f ≤ family_bits a.1)) as [Hle|Hlt].
  2: { destruct (net_make_too_long a.1 a.2 (linknet_prefix f)) as [e ->]; [lia|done]. }
  destruct (net_make_ok a.1 a.2 (linknet_prefix f)) as (n & -> & Hv & Hi & _); [done|by destruct f; simpl in *; lia|].
  simpl. intros [= <-]. destruct (to_cidr_spec n) as (Ev & _ & En & Eb & _).
  rewrite net_contains_ip_spec, Ev, En, Eb, Hv, bool_decide_eq_true_2, broadcast_size, network_spec by done.
  fold (net_size n). pose proof (net_size_pos n). pose proof (Z.mod_pos_bound (net_ip n) (net_size n)). simpl.
  rewrite andb_true_iff, !Z.leb_le. lia.
Qed.

Lemma allocated_stored cat own d vpc fam c req seg address :
  net_wf d → catalogued cat d → allocated_at cat own vpc fam c req seg d →
  requested_linknet address fam = Ok req → (∀ a, address = Some a → proper_address a) →
  linknet_stored d seg c vpc fam address.
Proof using Type.
  intros Hwf Hcat (Hc & (_ & g & Hg & Hgv) & nid & _ & n & Hn & Hseg & (P & HP) & Hreq) Ha Hproper.
  destruct (references_hold _ Hwf nid n c P Hn HP) as [Hsp Hin]. unfold space_of in Hsp.
  apply fmap_Some in Hsp as (p & Hp & ->). specialize (Hcat c p Hp). rewrite Hc in Hcat. injection Hcat as Hv Hf.
  exists nid, n, p, g. split_and!; try done. intros a ->. unfold requested_linknet in Ha.
  destruct (build_requested_linknet_prefix a _) as [r|e] eqn:Hb; [|done]. injection Ha as <-.
  rewrite (Hreq r eq_refl). by eapply requested_contains; [apply Hproper|].
Qed.

Section Tables.
Context (cat : string → string * AllocationAddressFamily) (own : string → Prop) (Hown : own EmptyString).

Definition known (w : World) : Prop := knows cat own 0 (db w) (λ _, True) w.
Definition stored_for (w : World) (wk : PrefixAllocationWork) (c seg : string) : Prop :=
  allocated_at cat own (w_vpc_id wk) (w_family wk) c (requested_prefix wk) seg (db w).

Lemma known_attempt w wk c op : known w →
  (∀ seg, op = Attach seg → ∃ p c0, w_vpc_id p = w_vpc_id wk ∧ stored_for w p c0 seg) →
  match attempt_prefix_candidate print_net print_ip (w_vpc_id wk) (w_family wk) c op (requested_prefix wk) w with
  | (Ok oc, w') => known w' ∧ (∀ p c0 seg, stored_for w p c0 seg → stored_for w' p c0 seg) ∧
      ∀ seg, reported op oc seg → stored_for w' wk c seg ∧ (True → op = Create → ∀ p c0, ¬ stored_for w p c0 seg)
  | (Err _, _) => True
  end.
Proof using Hown.
  intros Hw Hop. pose proof (good_linked _ _ _ _ (kn_db _ _ _ _ _ _ Hw)) as Hl.
  assert (Hseg : ∀ seg, op = Attach seg → segment_at own seg (w_vpc_id wk) (db w)).
  { intros seg ->. destruct (Hop seg eq_refl) as (p & c0 & <- & _ & ? & _). done. }
  pose proof (act_attempts print_net print_ip cat own Hown PREFIX_ALLOCATION_TOTAL_ATTEMPTS (w_vpc_id wk) (w_family wk)
                c op (requested_prefix wk) (db w) Hl Hseg w Hw) as H.
  unfold attempt_prefix_candidate. destruct (candidate_attempts _ _ _ _ _ _ _ _ w) as [[oc|e] w']; [|done].
  destruct H as [Hs Hu Hd Hsv [Gw Gc Gl Ge] Hf]. split_and!.
  - split; try done. by apply nil_length_inv in Hd as ->.
  - intros p c0 seg. by apply allocated_at_lasting.
  - intros seg Hr. destruct (Hf seg Hr) as [Hfresh Hal]. split; [done|].
    intros _ Hc p c0 (_ & (_ & g & Hg & _) & _). rewrite (Hfresh Hc) in Hg. done.
Qed.
End Tables.

(** What holds of reads holds of the loading. *)
Lemma keeps_load (P : World → Prop) targets :
  (∀ A (f : net_db → A), keeps P (read f)) → keeps P (load_prefix_allocation_context targets).
Proof using Type.
  intros Hread.
  assert (Hload : ∀ e s n, keeps P (load_context e s n)).
  { intros e s n. unfold load_context. apply keeps_bind; [destruct e; auto using keeps_ret|]. intros ex.
    apply keeps_bind; [apply keeps_lift|]. intros _. apply keeps_bind; [destruct n; auto using keeps_ret|]. intros found.
    apply keeps_bind; [done|]. intros vpcs. repeat case_match; auto using keeps_ret, keeps_lift. }
  unfold load_prefix_allocation_context. destruct (target_ids targets) as [[[|x e] [|y s]] n];
    first [apply Hload|apply keeps_ret].
Qed.

Lemma isolated_known targets w : isolated targets w → ∃ cat, known cat (drawn w) (snd (load_prefix_allocation_context targets w)).
Proof using Type.
  intros [Hsv Hwf Hnew Hoth [cat [Hcat Hcs]]]. exists cat.
  set (P := λ w', saved w' = [] ∧ net_wf (db w') ∧ Forall (drawn w) (uuids w') ∧
    (∀ id, drawn w id → network_prefixes (db w') !! id = None) ∧
    Forall (λ st, ∀ d, (net_wf d → net_wf (others st d)) ∧
      ∀ id, drawn w id → network_prefixes (others st d) !! id = network_prefixes d !! id ∧
                         stored_segment (others st d) id = stored_segment d id) (script w')).
  assert (HP : P (snd (load_prefix_allocation_context targets w))).
  { apply (keeps_load P).
    - intros A f w' (Hs & Hw & Hu & Hn & Ho). unfold read, statement, next_step.
      assert (Hst : ∀ d, (net_wf d → net_wf (others (default quiet (head (script w'))) d)) ∧
        ∀ id, drawn w id → network_prefixes (others (default quiet (head (script w'))) d) !! id = network_prefixes d !! id)
        by (destruct Ho as [|st sc H _]; [done|]; simpl; intros d; split; [apply H|]; intros id Hid; by apply H).
      destruct (fault _); (split_and!; simpl; [by rewrite Hs|by apply Hst|done| |by destruct Ho]);
        intros id Hid; rewrite (proj2 (Hst (db w'))) by done; by apply Hn.
    - split_and!; try done. apply Forall_forall. intros id Hid. by left. }
  destruct HP as (Hs & Hw & Hu & Hn & Ho). split; try done.
  - apply Forall_forall. rewrite Forall_forall in Ho, Hcs. intros st Hst. specialize (Ho st Hst).
    split; [apply Ho|by apply Hcs|intros d id Hid; by apply Ho..].
  - by rewrite Hs.
  - by rewrite Hs.
  - split; [done|done| |apply extends_refl]. intros id n Hid. by rewrite Hn.
Qed.

(** What an interface gets: a segment with a linknet of the prefix it named or of the VPC
    it selected, and the IPv6 linknet it asked for besides. *)
Record satisfied (itf itf' : InstanceInterfaceConfig) : Prop := {
  sat_segment : is_Some (network_segment_id itf');
  sat_prefix : ∃ id, network_details itf' = Some (VpcPrefixId id) ∧
    (vpc_selection itf = None → network_details itf = Some (VpcPrefixId id));
  sat_vpc s : vpc_selection itf = Some s → if_vpc_id itf' = Some (sel_vpc_id s);
  sat_secondary : wants_secondary itf → ∃ c', ipv6_interface_config itf' = Some c' ∧
    (vpc_selection itf = None → ∃ c, ipv6_interface_config itf = Some c ∧ v6_vpc_prefix_id c = v6_vpc_prefix_id c');
}.

Lemma backed_satisfied B wd itf itf' : backed B wd itf itf' → satisfied itf itf'.
Proof using Type.
  intros (p & c & seg & [_ Hask] & Hsp & Hseg & Hd & Hv & Hc & _ & Hsec). rewrite Hsp in Hask. split.
  - by eexists.
  - exists c. split; [done|]. intros E. rewrite E in Hask. destruct Hask as (id & -> & Hid).
    rewrite Hid in Hc. by apply list_elem_of_singleton in Hc as ->.
  - intros s E. rewrite E in Hask. destruct Hask. congruence.
  - intros (q & c6 & [_ Hask'] & Hsq & _ & _ & H6 & Hc6 & _)%Hsec. exists c6. split; [done|]. intros E.
    rewrite E, Hsq in Hask'. destruct Hask' as (c0 & Hc0 & Hcs). exists c0. split; [done|].
    rewrite Hcs in Hc6. by apply list_elem_of_singleton in Hc6 as ->.
Qed.

Lemma backed_stored cat own wd itf itf' : known cat own wd → proper_requests itf →
  backed (stored_for cat own) wd itf itf' → stored (db wd) itf itf'.
Proof using Type.
  intros [_ _ _ _ [Hwf Hcat _ _] _] [Hproper Hproper6] (p & c & seg & [Hreq Hask] & Hsp & Hseg & Hd & Hv & _ & HB & Hsec).
  rewrite Hsp in Hreq, Hask. split.
  - exists seg, c, (w_vpc_id p), (w_family p). split_and!; try done.
    + by eapply allocated_stored.
    + intros s E. rewrite E in Hask. done.
  - intros (q & c6 & [Hreq' _] & Hsq & Hf & Hvq & H6 & _ & HB')%Hsec. rewrite Hsq, Hf in Hreq'.
    exists seg, c6, (w_vpc_id p). split_and!; try done. rewrite <- Hvq. unfold stored_for in HB'. rewrite Hf in HB'.
    eapply allocated_stored; [done..|]. intros a (x & Hx & ->)%fmap_Some.
    apply bind_Some in Hx as (c7 & Hc7 & Hx). by eapply Hproper6.
Qed.

(** C4: Whatever other transactions commit between its statements and whichever statements
    fail, the allocation of linknets to a batch of instances terminates; unless an
    IPv4-mapped address is requested it never ends in one of the errors the code calls
    internal (indexes out of bounds, a candidate order that moves backward, an IPv6
    linknet before its segment, a VPC missing from the context).  When it succeeds, every
    interface that needs a linknet refers to the VPC prefix it named or to one of the VPC it
    selected, with a segment, and to the IPv6 prefix it asked for besides.  And when the
    transaction is isolated (others keep the constraints and leave its rows, its ids are new,
    and VPC prefixes stay in their VPC and family once they are loaded), these linknets are
    in the database: each is a network prefix on the segment of the interface, inside the VPC
    prefix that the interface and the row refer to, which is of the VPC and of the family
    asked for, with the requested address in it; the segment belongs to the VPC, no two
    interfaces have the same segment, and no two network prefixes overlap. *)
Theorem allocate_networks_spec targets w :
  requests w = [] → proper_targets targets →
  match allocate_networks print_net print_ip targets w with
  | (Ok targets', w') =>
      (∀ t i itf, lookup_interface targets t i = Some itf → wants_linknet itf →
         ∃ itf', lookup_interface targets' t i = Some itf' ∧ satisfied itf itf' ∧
           (isolated targets w → stored (db w') itf itf')) ∧
      (isolated targets w → separate targets targets' ∧ net_wf (db w'))
  | (Err e, _) => internal e = false
  end.
Proof using Type.
  intros Hw Hp. pose proof (allocate_networks_bare targets w Hw) as H.
  pose proof (λ cat, allocate_networks_run (known cat (drawn w)) (stored_for cat (drawn w)) True) as Hrun.
  specialize (λ cat H1 H2, Hrun cat H1 H2 targets w Hw).
  destruct (allocate_networks _ _ targets w) as [[targets'|e] w']; destruct H as (_ & _ & H); [|by apply H].
  assert (Hiso : isolated targets w → ∃ cat, known cat (drawn w) w' ∧
    (∀ t i itf, lookup_interface targets t i = Some itf → wants_linknet itf →
      ∃ itf', lookup_interface targets' t i = Some itf' ∧ backed (stored_for cat (drawn w)) w' itf itf') ∧
    separate targets targets').
  { intros [cat Hk]%isolated_known. exists cat. destruct (Hrun cat) as (_ & _ & HK & Hb & Hs); [| |done|by auto].
    - apply known_attempt. by right.
    - intros w0 wk wk' c seg (_ & _ & E1 & E2 & _ & _ & E3)%same_plan_fields. unfold stored_for. by rewrite E1, E2, E3. }
  split.
  - intros t i itf Hl Hwant. destruct (H t i itf Hl Hwant) as (itf' & Hl' & Hb). exists itf'.
    split_and!; [done|by eapply backed_satisfied|]. intros (cat & HK & Hst & _)%Hiso.
    destruct (Hst t i itf Hl Hwant) as (x & Hx & Hback). assert (x = itf') as -> by congruence.
    eapply backed_stored; [done| |done]. unfold lookup_interface in Hl.
    destruct (targets !! t) as [target|] eqn:Ht; [|done]. by eapply Hp, interface_elem.
  - intros (cat & HK & _ & Hsep)%Hiso. split; [done|]. exact (good_wf _ _ _ _ (kn_db _ _ _ _ _ _ HK)).
Qed.

(** ** Deadlocks *)

(** A transaction that holds the locks of some VPC prefixes and waits for another. *)
Record Allocation := mk_allocation {
  al_targets : list NetworkAllocationTarget;
  al_world : World;
  al_held : list string;
  al_waits : string;
}.

(** It asked for the locks it holds before the one it waits for. *)
Definition blocked (cat : string → string * AllocationAddressFamily) (a : Allocation) : Prop :=
  requests (al_world a) = [] ∧ world_catalogued cat (al_world a) ∧ al_waits a ∉ al_held a ∧
  ∃ before k after,
    requests (snd (allocate_networks print_net print_ip (al_targets a) (al_world a))) = before ++ k :: after ∧
    al_waits a = k.2 ∧ al_held a ⊆ before.*2.

Definition waits_for (a b : Allocation) : Prop := al_waits a ∈ al_held b.

Lemma blocked_order cat a id : blocked cat a → id ∈ al_held a →
  cmp_lt lock_cmp (cat id, id) (cat (al_waits a), al_waits a).
Proof using Type.
  intros (Hw & Hcat & Hnot & before & k & after & Hr & Hk & Hheld) Hid.
  pose proof (allocate_networks_bare (al_targets a) (al_world a) Hw) as H.
  destruct (allocate_networks _ _ _ _) as [r w']. simpl in Hr. destruct H as (Hs & Hc & _).
  specialize (Hc cat Hcat). rewrite Hr in Hs, Hc. apply Forall_app in Hc as [Hcb [Hck _]%Forall_cons].
  pose proof Hid as (h & -> & Hh)%Hheld%list_elem_of_fmap. rewrite Forall_forall in Hcb.
  rewrite (Hcb h Hh), Hk, Hck. destruct h as [hg h], k as [kg k]. simpl.
  assert (cmp_le lock_cmp (hg, h) (kg, k)) as Hle.
  { clear -Hs Hh. induction before as [|x before IH]; [by apply elem_of_nil in Hh|].
    simpl in Hs. apply StronglySorted_inv in Hs as [Hs Hall]. apply elem_of_cons in Hh as [<-|Hh]; [|by apply IH].
    rewrite Forall_forall in Hall. apply Hall, elem_of_app. right. by left. }
  unfold cmp_le in Hle. unfold cmp_lt. destruct (lock_cmp (hg, h) (kg, k)) eqn:E; [|done|done].
  apply (cmp_eq_iff lock_cmp) in E as [= -> ->]. simpl in *. congruence.
Qed.

(** C19: Transactions that allocate linknets cannot deadlock on the VPC prefixes they lock:
    among any set of them, each holding locks it was granted and waiting for the next one
    it asks for, no chain of waiting leads back to its start, because all of them ask in
    the order of VPC, family and id. *)
Theorem allocations_deadlock_free cat (S : Allocation → Prop) :
  (∀ a, S a → blocked cat a) → ∀ a, ¬ tc (λ a b, S a ∧ S b ∧ waits_for a b) a a.
Proof using Type.
  intros HS. set (key a := (cat (al_waits a), al_waits a)).
  assert (Hlt : ∀ a b, S a ∧ S b ∧ waits_for a b → cmp_lt lock_cmp (key a) (key b)).
  { intros a b (_ & Hb & Hab). by apply blocked_order; [apply HS|]. }
  intros a Hcycle. apply (cmp_lt_irrefl lock_cmp (key a)). revert Hcycle. generalize a at 2 4. intros b Hab.
  induction Hab as [a b Hab|a b c Hab _ IH]; [by apply Hlt|].
  eapply (cmp_lt_trans lock_cmp); [by apply Hlt|exact IH].
Qed.
End Plan.

(** ** Examples *)

Module AllocationExamples.
Import VpcPrefixExamples.

Definition world (uuids : list string) : World := mk_world start [] [] uuids [].

Definition auto (mode : InstanceInterfaceIpFamilyMode) : InstanceInterfaceConfig :=
  mk_interface None (Some (mk_selection "v" mode)) None [] None None None.
Definition named (id : string) (a : option (bool * Z)) : InstanceInterfaceConfig :=
  mk_interface (Some (VpcPrefixId id)) None None [] a None None.

Definition run (targets : list NetworkAllocationTarget) (w : World) :=
  allocate_networks (λ _, EmptyString) (λ _, EmptyString) targets w.

(** Two instances, one with a dual-stack interface and one that names an address *)
Definition batch : list NetworkAllocationTarget :=
  [mk_target [auto DualStack] "t"; mk_target [auto Ipv4Only; named "p2" (Some (false, 167772421))] "t"].

Definition ids : list string := ["s1"; "n1"; "s2"; "n2"; "s3"; "n3"; "n4"; "n5"].
End AllocationExamples.

Section Examples.
Import VpcPrefixExamples AllocationExamples.

Lemma batch_proper : proper_targets batch.
Proof.
  intros itf Hin. change (batch ≫= interfaces) with [auto DualStack; auto Ipv4Only; named "p2" (Some (false, 167772421))] in Hin.
  repeat (apply elem_of_cons in Hin as [->|Hin]); [split; by intros ?..| |by apply elem_of_nil in Hin].
  split; [|by intros ?]. intros a [= <-]. split; [|vm_compute; reflexivity].
  unfold family_bits. simpl. lia.
Qed.

Definition start_group (id : string) : string * AllocationAddressFamily :=
  default (EmptyString, Ipv4) (row_group <$> vpc_prefix_of start id).

Lemma world_groups : world_catalogued start_group (world ids).
Proof.
  split; [|constructor]. intros id p Hp. change (vpc_prefix_of start id = Some p) in Hp.
  unfold start_group. by rewrite Hp.
Qed.

Lemma batch_isolated : isolated batch (world ids).
Proof.
  split; [done|apply start_wf| |constructor|].
  - intros id _. assert (E : size (network_prefixes start) = 0%nat) by (vm_compute; reflexivity).
    apply map_size_empty_inv in E. change (network_prefixes start !! id = None). by rewrite E.
  - exists start_group. apply (keeps_load (world_catalogued start_group)); [|apply world_groups].
    intros A f w Hw. destruct (read_run f w) as (w' & [_ Hcat] & [->|[e ->]]); by apply Hcat.
Qed.

(** The first prefix is used up by the first instance, so the second one moves on. *)
Lemma allocate_networks_spec_witness :
  (∃ targets' itf', fst (run batch (world ids)) = Ok targets' ∧
     lookup_interface targets' 1 0 = Some itf' ∧ stored (db (snd (run batch (world ids)))) (auto Ipv4Only) itf' ∧
     network_details itf' = Some (VpcPrefixId "p2")) ∧
  requests (snd (run batch (world ids))) =
    [("v", Ipv4, "p1"); ("v", Ipv4, "p1"); ("v", Ipv4, "p2"); ("v", Ipv4, "p2"); ("v", Ipv6, "p3")].
Proof.
  split; [|vm_compute; reflexivity].
  pose proof (allocate_networks_spec (λ _, EmptyString) (λ _, EmptyString) batch (world ids) eq_refl batch_proper) as H.
  change (allocate_networks _ _ batch (world ids)) with (run batch (world ids)) in H.
  assert (E : ∃ ts itf', fst (run batch (world ids)) = Ok ts ∧ lookup_interface ts 1 0 = Some itf' ∧
    network_details itf' = Some (VpcPrefixId "p2")).
  { eexists _, _. split; [vm_compute; reflexivity|]. split; vm_compute; reflexivity. }
  destruct E as (ts & itf' & E & Hl & Hd). destruct (run batch (world ids)) as [r w'].
  cbn [fst snd] in *. subst r. destruct H as [H _].
  destruct (H 1%nat 0%nat (auto Ipv4Only) eq_refl) as (itf'' & Hl' & _ & Hs).
  { split; [reflexivity|]. left. by eexists. }
  rewrite Hl in Hl'. injection Hl' as <-. exists ts, itf'. split; [reflexivity|]. split; [exact Hl|].
  split; [exact (Hs batch_isolated)|exact Hd].
Defined.

(** The first prefixes of the two families, held by one transaction, and a second one *)
Definition holder : Allocation := mk_allocation batch (world ids) ["p1"; "p2"] "p3".
Definition waiter : Allocation := mk_allocation [mk_target [named "p2" None] "t"] (world ids) [] "p2".

Lemma allocations_deadlock_free_witness :
  let S a := a = holder ∨ a = waiter in
  waits_for waiter holder ∧ ¬ tc (λ a b, S a ∧ S b ∧ waits_for a b) holder holder.
Proof.
  intros S. split; [right; left|].
  apply (allocations_deadlock_free (λ _, EmptyString) (λ _, EmptyString) start_group).
  intros a [->| ->]; (split; [reflexivity|]; split; [exact world_groups|]; split).
  - apply (bool_decide_eq_false_1 _). vm_compute. reflexivity.
  - exists [("v", Ipv4, "p1"); ("v", Ipv4, "p1"); ("v", Ipv4, "p2"); ("v", Ipv4, "p2")], ("v", Ipv6, "p3"), [].
    split; [vm_compute; reflexivity|]. split; [reflexivity|]. intros x. csimpl. rewrite !elem_of_cons. tauto.
  - apply not_elem_of_nil.
  - exists [], ("v", Ipv4, "p2"), []. split; [vm_compute; reflexivity|]. split; [reflexivity|]. intros x. tauto.
Defined.

(** An IPv4-mapped address that is requested becomes an IPv4 address, for which the
    length of an IPv6 linknet is invalid: the request ends in an internal error. *)
Lemma mapped_address_internal_error :
  ∃ m, build_requested_linknet_prefix (true, Z.shiftl 65535 32 + 167772161) (linknet_prefix Ipv6) = Err (Internal m).
Proof. vm_compute. by eexists. Qed.
End Examples.
