(* ===== verification/AddressSpace.v ===== *)
(** * The integrity of the address space

    Every transaction of the program that writes the VPC prefixes or the network prefixes
    keeps the address space well formed, in any order. *)

From S2P Require Import Prelude Ordered IpNetwork VpcCapability ConfigVersion StateHistory StateHandler.
From S2P Require Import ControllerIO ControllerTable ProcessObject ProcessObjectFacts TableRuns.
From S2P Require Import NetworkSegment VpcPrefix VpcPrefixFacts LinknetAllocator LinknetAllocatorFacts.
From S2P Require Import PrefixAllocation PrefixPlan PrefixAllocationFacts AttemptFacts PrefixExecution PrefixPlanFacts.

Section Integrity.
Context `{I : IpNetworks} (print_net : IpNetwork → string) (print_ip : bool * Z → string).

(** ** The allocation of linknets *)

Lemma keeps_wf_read {A} (f : net_db → A) : keeps world_wf (read f).
Proof using Type. apply (keeps_read world_wf EmptyString Ipv4 EmptyString). Qed.

Hint Resolve keeps_ret keeps_lift keeps_bind keeps_wf_read : keeps.

Ltac keeps_steps := repeat first [progress intros | solve [eauto with keeps] | apply keeps_bind].

Lemma keeps_drain_candidate c queue : ∀ u works pending targets,
  keeps world_wf (drain_candidate print_net print_ip c queue u works pending targets).
Proof using Type.
  induction queue as [|i queue IH]; intros u works pending targets; simpl; [keeps_steps|].
  destruct u; [apply keeps_bind; [keeps_steps|]; intros []; apply IH|].
  apply keeps_bind; [keeps_steps|]. intros work. apply keeps_bind; [keeps_steps|]. intros op.
  apply keeps_bind; [apply keeps_attempts, _|]. intros []; (apply keeps_bind; [apply keeps_lift|]);
    [intros ?; apply IH|intros [? ?]; apply IH..].
Qed.

Lemma keeps_drain_group fuel : ∀ works pending targets,
  keeps world_wf (drain_group print_net print_ip fuel works pending targets).
Proof using Type.
  induction fuel as [|fuel IH]; intros works [|[c q] pending] targets; simpl; try solve [keeps_steps].
  apply keeps_bind; [apply keeps_drain_candidate|]. intros [[]]. apply IH.
Qed.

Lemma keeps_allocate targets : keeps world_wf (allocate_networks print_net print_ip targets).
Proof using Type.
  unfold allocate_networks. apply keeps_bind; [apply keeps_load; intros; apply keeps_wf_read|]. intros [ctx|]; [|keeps_steps].
  apply keeps_bind; [keeps_steps|]. intros works. unfold execute_prefix_allocations.
  generalize works at 2. revert targets. induction (group_works works) as [|[g q] groups IH];
    intros targets ws; simpl; [keeps_steps|].
  apply keeps_bind; [keeps_steps|]. intros pending. apply keeps_bind; [apply keeps_drain_group|].
  intros []. apply IH.
Qed.

(** ** All transactions *)

(** The transactions that write the two tables.  Others may commit between the statements of an
    allocation or of a run of the controller; they keep the address space well formed
    and leave the controller state of the prefix that is run. *)
Inductive net_step : net_db → net_db → Prop :=
| create_vpc_prefix print clock now v version d d' :
    persist print clock now v version d = Ok d' → net_step d d'
| delete_vpc_prefix clock now id version d d' :
    mark_as_deleted clock now id version d = Ok d' → net_step d d'
| delete_segment seg d : net_step d (delete_for_segment seg d)
| allocate_linknets targets targets' d w w' :
    db w = d → saved w = [] → Forall (λ st, ∀ d, net_wf d → net_wf (others st d)) (script w) →
    allocate_networks print_net print_ip targets w = (Ok targets', w') → net_step d (db w')
| run_controller debug db_now drain_period env loc clk o cs orc d h :
    others_keep (stays o net_wf cs) orc → controller_state_of (ObjectView := vpc_prefix_view) d o = Some cs →
    process_object (IO := vpc_prefix_io debug db_now) (handle_object_state drain_period env loc) clk o d orc =
      Some h → net_step d (h_db h).

(** Whatever sequence of transactions creates and deletes VPC prefixes, allocates linknets,
    deletes segments and runs the controller of VPC prefixes, with whatever other
    transactions commit in between, no address ever belongs to two VPC prefixes or to two
    network prefixes, and every network prefix lies inside the VPC prefix that it refers
    to, which is still there. *)
Theorem address_space_integrity d d' : net_wf d → rtc net_step d d' → net_wf d'.
Proof using Type.
  intros Hwf Hsteps. revert Hwf. induction Hsteps as [|d d1 d' Hstep _ IH]; [done|]. intros Hwf. apply IH.
  destruct Hstep.
  - by eapply vpc_persist_wf.
  - by eapply mark_as_deleted_wf.
  - by apply delete_for_segment_wf.
  - subst. assert (world_wf w) as Hw by (split; [done| |done]; by rewrite H0).
    apply (keeps_allocate targets) in Hw. rewrite H2 in Hw. apply Hw.
  - eapply (vpc_prefix_run_wf _ _ _ _ _ _ _ cs d); [eassumption|by split|eassumption].
Qed.
End Integrity.

Section Examples.
Import VpcPrefixExamples.

(** A prefix is marked as deleted, and a linknet of another one is allocated. *)
Lemma address_space_integrity_witness :
  ∃ d d', mark_as_deleted 1 2 "p2" (mk_version 4 0) start = Ok d ∧ net_wf d' ∧
    size (network_prefixes d') = 1%nat.
Proof.
  destruct (mark_as_deleted 1 2 "p2" (mk_version 4 0) start) as [d|e] eqn:Hd.
  2: { exfalso. assert (E : match mark_as_deleted 1 2 "p2" (mk_version 4 0) start with Ok _ => true | _ => false end = true)
         by (vm_compute; reflexivity). rewrite Hd in E. discriminate E. }
  set (targets := [mk_target [mk_interface (Some (VpcPrefixId "p1")) None None [] None None None] "t"]).
  set (w d := mk_world d [] [] ["s"; "n"] []).
  assert (E : match mark_as_deleted 1 2 "p2" (mk_version 4 0) start with
              | Ok d => let '(r, w') := allocate_networks (λ _, EmptyString) (λ _, EmptyString) targets (w d) in
                  match r with Ok _ => bool_decide (size (network_prefixes (db w')) = 1%nat) | Err _ => false end
              | Err _ => false
              end = true) by (vm_compute; reflexivity).
  rewrite Hd in E. destruct (allocate_networks _ _ targets (w d)) as [[targets'|e] w'] eqn:Hal; [|discriminate E].
  exists d, (db w'). split; [reflexivity|]. split; [|by apply bool_decide_eq_true in E].
  apply (address_space_integrity (λ _, EmptyString) (λ _, EmptyString) start (db w') start_wf).
  eapply rtc_l; [by eapply delete_vpc_prefix|]. apply rtc_once.
  eapply (allocate_linknets _ _ targets targets' d (w d) w'); [reflexivity|reflexivity|constructor|exact Hal].
Defined.
End Examples.
