(* ===== verification/IpPrefix.v ===== *)
(** * IP prefixes ([crates/network/src/ip/prefix.rs])

    An [Ipv4Prefix] or [Ipv6Prefix] wraps a network of the [ipnet] crate whose
    address has no bit set after the prefix.  The crate is the class [Ipnet]: the
    operations the source calls, with their documented behaviour as laws, for an
    address width [W].  The two prefix types have the same code at the widths 32 and
    128, which is written once here; [IpPrefix] is the sum of both.

    A panic ([unwrap], [unreachable!], [new_assert]) is [None] of an outer option. *)

From S2P Require Import Prelude Ordered.

(** ** The [ipnet] crate *)

Class Ipnet (W : Z) := {
  Net : Type;
  addr : Net → Z;
  prefix_len : Net → Z;
  net_new : Z → Z → option Net;
  net_from : Z → Net;
  net_trunc : Net → Net;
  net_network : Net → Z;
  net_broadcast : Net → Z;
  net_contains : Net → Net → bool;
  net_supernet : Net → option Net;
  net_cmp : Net → Net → comparison;
  addr_range n : 0 ≤ addr n < 2 ^ W;
  prefix_len_range n : 0 ≤ prefix_len n ≤ W;
  net_ext n m : addr n = addr m → prefix_len n = prefix_len m → n = m;
  net_new_ok a l : 0 ≤ a < 2 ^ W → 0 ≤ l ≤ W →
    ∃ n, net_new a l = Some n ∧ addr n = a ∧ prefix_len n = l;
  net_new_too_long a l : W < l → net_new a l = None;
  net_from_spec a : 0 ≤ a < 2 ^ W → addr (net_from a) = a ∧ prefix_len (net_from a) = W;
  net_trunc_spec n : addr (net_trunc n) = net_network n ∧ prefix_len (net_trunc n) = prefix_len n;
  net_network_spec n : net_network n = addr n - addr n mod 2 ^ (W - prefix_len n);
  net_broadcast_spec n : net_broadcast n = net_network n + 2 ^ (W - prefix_len n) - 1;
  net_contains_spec n m :
    net_contains n m = (net_network n <=? net_network m) && (net_broadcast m <=? net_broadcast n);
  net_supernet_spec n :
    match net_supernet n with
    | None => prefix_len n = 0
    | Some m => 0 < prefix_len n ∧ prefix_len m = prefix_len n - 1 ∧
                addr m = addr n - addr n mod 2 ^ (W - prefix_len m)
    end;
  net_cmp_spec n m :
    net_cmp n m = pair_cmp Z.compare Z.compare (addr n, prefix_len n) (addr m, prefix_len m);
}.

(** ** Prefixes of one family *)

Inductive PrefixError := NonCanonicalRepresentation | BadPrefixLength.

Section Family.
Context (W : Z) `{I : Ipnet W}.

(** [struct Ipv4Prefix { prefix: Ipv4Net }] *)
Record FamilyPrefix := mk_prefix { prefix : Net }.

Definition family_contains (p q : FamilyPrefix) : bool := net_contains (prefix p) (prefix q).

Definition family_get_sibling (p : FamilyPrefix) : option (option FamilyPrefix) :=
  let n := prefix_len (prefix p) in
  if n =? 0 then Some None
  else if n <=? W then
    let single_bit_flip := Z.shiftl 1 (W - n) in
    let sibling_addr_bits := Z.lxor (addr (prefix p)) single_bit_flip in
    Some ∘ mk_prefix <$> net_new sibling_addr_bits n
  else None.

Definition family_bifurcate (p : FamilyPrefix) : option (option (FamilyPrefix * FamilyPrefix)) :=
  let n := prefix_len (prefix p) in
  if n <=? W - 1 then
    let even_addr_bits := addr (prefix p) in
    let single_bit_flip := Z.shiftr (2 ^ (W - 1)) n in
    let odd_addr_bits := Z.lor even_addr_bits single_bit_flip in
    even_net ← net_new even_addr_bits (n + 1);
    odd_net ← net_new odd_addr_bits (n + 1);
    Some (Some (mk_prefix even_net, mk_prefix odd_net))
  else Some None.

Definition family_get_last_subprefix (p : FamilyPrefix) : FamilyPrefix :=
  mk_prefix (net_from (net_broadcast (prefix p))).

(** [super1 == super2] is the derived equality. *)
Definition net_eqb (n m : Net) : bool := (addr n =? addr m) && (prefix_len n =? prefix_len m).

Definition family_try_aggregate (p1 p2 : FamilyPrefix) : option FamilyPrefix :=
  if family_contains p1 p2 then Some p1
  else if family_contains p2 p1 then Some p2
  else match net_supernet (prefix p1), net_supernet (prefix p2) with
       | Some super1, Some super2 => if net_eqb super1 super2 then Some (mk_prefix super1) else None
       | _, _ => None
       end.

(** The derived [Ord]. *)
Definition family_cmp (p q : FamilyPrefix) : comparison := net_cmp (prefix p) (prefix q).

(** [TryFrom<Ipv4Net>] *)
Definition family_try_from (n : Net) : result PrefixError FamilyPrefix :=
  if addr n =? net_network n then Ok (mk_prefix n) else Err NonCanonicalRepresentation.

(** [ToV4Prefix] for an address and for a network. *)
Definition family_of_addr (a : Z) : FamilyPrefix := mk_prefix (net_from a).
Definition family_of_net (n : Net) : FamilyPrefix := mk_prefix (net_trunc n).
End Family.

Arguments prefix {W I} _.
Arguments mk_prefix {W I} _.
Arguments family_contains {W I} _ _.
Arguments family_get_sibling {W I} _.
Arguments family_bifurcate {W I} _.
Arguments family_get_last_subprefix {W I} _.
Arguments family_try_aggregate {W I} _ _.
Arguments family_cmp {W I} _ _.
Arguments family_try_from {W I} _.

(** ** Prefixes of both families *)

Section IpPrefix.
Context `{I4 : Ipnet 32} `{I6 : Ipnet 128}.

Inductive IpPrefix :=
| V4 (p : FamilyPrefix 32)
| V6 (p : FamilyPrefix 128).

Definition contains (p q : IpPrefix) : bool :=
  match p, q with
  | V4 p, V4 q => family_contains p q
  | V6 p, V6 q => family_contains p q
  | _, _ => false
  end.

Definition get_sibling (p : IpPrefix) : option (option IpPrefix) :=
  match p with
  | V4 p => option_map V4 <$> family_get_sibling p
  | V6 p => option_map V6 <$> family_get_sibling p
  end.

Definition bifurcate (p : IpPrefix) : option (option (IpPrefix * IpPrefix)) :=
  match p with
  | V4 p => option_map (λ c, (V4 c.1, V4 c.2)) <$> family_bifurcate p
  | V6 p => option_map (λ c, (V6 c.1, V6 c.2)) <$> family_bifurcate p
  end.

Definition get_last_subprefix (p : IpPrefix) : IpPrefix :=
  match p with
  | V4 p => V4 (family_get_last_subprefix p)
  | V6 p => V6 (family_get_last_subprefix p)
  end.

Definition try_aggregate (p q : IpPrefix) : option IpPrefix :=
  match p, q with
  | V4 p, V4 q => V4 <$> family_try_aggregate p q
  | V6 p, V6 q => V6 <$> family_try_aggregate p q
  | _, _ => None
  end.

(** [Ord for IpPrefix] *)
Definition prefix_cmp (p q : IpPrefix) : comparison :=
  match p, q with
  | V4 _, V6 _ => Lt
  | V6 _, V4 _ => Gt
  | V4 p, V4 q => family_cmp p q
  | V6 p, V6 q => family_cmp p q
  end.

(** [TryFrom<(IpAddr, u8)>]; the flag says that the address is an IPv6 address. *)
Definition try_from (v6 : bool) (a : Z) (len : Z) : result PrefixError IpPrefix :=
  if v6 then n ← ok_or (net_new (W := 128) a len) BadPrefixLength; V6 <$> family_try_from n
  else n ← ok_or (net_new (W := 32) a len) BadPrefixLength; V4 <$> family_try_from n.

(** *** What a prefix denotes *)

Definition family (p : IpPrefix) : bool := match p with V4 _ => false | V6 _ => true end.
Definition width (f : bool) : Z := if f then 128 else 32.
Definition lo (p : IpPrefix) : Z :=
  match p with V4 p => addr (prefix p) | V6 p => addr (prefix p) end.
Definition plen (p : IpPrefix) : Z :=
  match p with V4 p => prefix_len (prefix p) | V6 p => prefix_len (prefix p) end.
Definition psize (p : IpPrefix) : Z := 2 ^ (width (family p) - plen p).

(** No bit is set after the prefix. *)
Definition canonical (p : IpPrefix) : Prop := lo p mod psize p = 0.

(** The addresses of a prefix; an address is its family and its bits. *)
Definition covers (p : IpPrefix) (a : bool * Z) : Prop :=
  family p = a.1 ∧ lo p ≤ a.2 < lo p + psize p.
End IpPrefix.

(** ** Arithmetic of aligned blocks *)

Lemma lxor_one_bit j k : 0 ≤ j → 0 ≤ k →
  Z.lxor (j * 2 ^ k) (Z.shiftl 1 k) = (if Z.even j then j + 1 else j - 1) * 2 ^ k.
Proof.
  intros Hj Hk. rewrite <-(Z.shiftl_mul_pow2 j) by done. rewrite <-Z.shiftl_lxor.
  rewrite Z.shiftl_mul_pow2 by done. f_equal.
  destruct (Z.even j) eqn:E.
  - apply Z.even_spec in E as [m ->]. destruct m; done.
  - rewrite <-Z.negb_odd in E. apply negb_false_iff, Z.odd_spec in E as [m ->].
    destruct m; try done; lia.
Qed.

Lemma lor_low_bit j k : 0 ≤ j → 0 ≤ k →
  Z.lor (2 * j * 2 ^ k) (2 ^ k) = (2 * j + 1) * 2 ^ k.
Proof.
  intros Hj Hk. rewrite <-(Z.shiftl_mul_pow2 (2 * j)) by done.
  rewrite <-(Z.shiftl_1_l k), <-Z.shiftl_lor, Z.shiftl_mul_pow2 by done.
  f_equal; [by destruct j | by rewrite Z.shiftl_1_l].
Qed.

(** ** The operations of one family in terms of blocks *)

Section FamilyFacts.
Context (W : Z) `{I : Ipnet W}.
Implicit Types p q : FamilyPrefix W.

Definition fsize p : Z := 2 ^ (W - prefix_len (prefix p)).
Definition faligned p : Prop := addr (prefix p) mod fsize p = 0.

Lemma fsize_pos p : 0 < fsize p.
Proof. apply pow2_pos. pose proof (prefix_len_range (prefix p)). lia. Qed.

Lemma family_ext p q :
  addr (prefix p) = addr (prefix q) → prefix_len (prefix p) = prefix_len (prefix q) → p = q.
Proof. destruct p, q; simpl. intros. f_equal. by apply net_ext. Qed.

(** A block of the address space lies in it with its end. *)
Lemma faligned_end p : faligned p → addr (prefix p) + fsize p ≤ 2 ^ W.
Proof.
  intros Ha. pose proof (fsize_pos p). pose proof (addr_range (prefix p)).
  pose proof (prefix_len_range (prefix p)).
  assert (2 ^ W = fsize p * 2 ^ prefix_len (prefix p)) as E.
  { unfold fsize. rewrite <-Z.pow_add_r by lia. f_equal. lia. }
  unfold faligned in Ha. apply aligned_mul in Ha; [|done].
  set (j := addr (prefix p) / fsize p) in *. clearbody j.
  set (T := 2 ^ prefix_len (prefix p)) in *. clearbody T. set (s := fsize p) in *. clearbody s.
  assert (j < T) by (apply (Z.mul_lt_mono_pos_r s); lia). nia.
Qed.

Lemma family_contains_iff p q : faligned p → faligned q →
  family_contains p q = true ↔
  addr (prefix p) ≤ addr (prefix q) ∧
  addr (prefix q) + fsize q ≤ addr (prefix p) + fsize p.
Proof.
  intros Hp Hq. unfold family_contains, faligned, fsize in *.
  rewrite net_contains_spec, !net_broadcast_spec, !net_network_spec, Hp, Hq.
  rewrite andb_true_iff, !Z.leb_le. lia.
Qed.

Lemma family_get_sibling_spec p : faligned p →
  (prefix_len (prefix p) = 0 ∧ family_get_sibling p = Some None) ∨
  (0 < prefix_len (prefix p) ∧ ∃ q, family_get_sibling p = Some (Some q) ∧
    faligned q ∧ prefix_len (prefix q) = prefix_len (prefix p) ∧
    addr (prefix q) = (if Z.even (addr (prefix p) / fsize p)
                       then addr (prefix p) + fsize p else addr (prefix p) - fsize p)).
Proof.
  intros Ha. unfold family_get_sibling. pose proof (prefix_len_range (prefix p)) as Hr.
  pose proof (addr_range (prefix p)) as Har. pose proof (fsize_pos p) as Hs.
  pose proof (faligned_end p Ha) as Hend.
  destruct (Z.eqb_spec (prefix_len (prefix p)) 0) as [E|E]; [by left|right]. split; [lia|].
  rewrite (proj2 (Z.leb_le _ _)) by lia. unfold faligned in Ha. apply aligned_mul in Ha; [|done].
  assert (2 ^ W = 2 * (2 ^ (prefix_len (prefix p) - 1) * fsize p)) as EW.
  { unfold fsize. rewrite <-Z.pow_add_r, <-Z.pow_succ_r by lia. f_equal. lia. }
  set (j := addr (prefix p) / fsize p) in *.
  assert (0 ≤ j) as Hj by (apply Z.div_pos; lia).
  assert (Z.lxor (addr (prefix p)) (Z.shiftl 1 (W - prefix_len (prefix p))) =
          (if Z.even j then j + 1 else j - 1) * fsize p) as Ex.
  { rewrite Ha. unfold fsize at 1 2. rewrite lxor_one_bit by lia. done. }
  set (j' := if Z.even j then j + 1 else j - 1) in *.
  assert (0 ≤ j' * fsize p < 2 ^ W) as Hb.
  { subst j'. destruct (Z.even j) eqn:Ej.
    - apply Z.even_spec in Ej as [m Ej]. set (T := 2 ^ (prefix_len (prefix p) - 1)) in *.
      assert (2 * m + 1 ≤ 2 * T) by (apply (Z.mul_le_mono_pos_r _ _ (fsize p)); lia). nia.
    - assert (j ≠ 0) by (intros E0; by rewrite E0 in Ej). nia. }
  rewrite Ex. destruct (net_new_ok (j' * fsize p) (prefix_len (prefix p)) Hb ltac:(lia))
    as (n & -> & En & El).
  exists (mk_prefix n). simpl. split_and!; [done| |done|].
  - unfold faligned, fsize. simpl. rewrite El, En. by apply Z_mod_mult.
  - rewrite En. subst j'. destruct (Z.even j); rewrite Ha; ring.
Qed.

Lemma family_bifurcate_spec p : faligned p →
  (prefix_len (prefix p) = W ∧ family_bifurcate p = Some None) ∨
  (prefix_len (prefix p) < W ∧ ∃ c1 c2, family_bifurcate p = Some (Some (c1, c2)) ∧
    faligned c1 ∧ faligned c2 ∧
    prefix_len (prefix c1) = prefix_len (prefix p) + 1 ∧
    prefix_len (prefix c2) = prefix_len (prefix p) + 1 ∧
    addr (prefix c1) = addr (prefix p) ∧
    addr (prefix c2) = addr (prefix p) + 2 ^ (W - (prefix_len (prefix p) + 1))).
Proof.
  intros Ha. unfold family_bifurcate. pose proof (prefix_len_range (prefix p)) as Hr.
  pose proof (addr_range (prefix p)) as Har. pose proof (fsize_pos p) as Hs.
  pose proof (faligned_end p Ha) as Hend.
  destruct (Z.leb_spec (prefix_len (prefix p)) (W - 1)); [right|left; split; [lia|done]].
  split; [lia|]. set (h := 2 ^ (W - (prefix_len (prefix p) + 1))).
  assert (fsize p = 2 * h) as Eh.
  { unfold fsize, h. rewrite <-Z.pow_succ_r by lia. f_equal. lia. }
  assert (0 < h) by lia.
  assert (0 ≤ addr (prefix p) + h < 2 ^ W) as Hodd by lia.
  assert (Z.shiftr (2 ^ (W - 1)) (prefix_len (prefix p)) = h) as ->.
  { rewrite Z.shiftr_div_pow2, <-Z.pow_sub_r by lia. unfold h. f_equal. lia. }
  unfold faligned in Ha. apply aligned_mul in Ha; [|done].
  set (j := addr (prefix p) / fsize p) in *. assert (0 ≤ j) by (apply Z.div_pos; lia).
  assert (Z.lor (addr (prefix p)) h = addr (prefix p) + h) as ->.
  { rewrite Ha, Eh. replace (j * (2 * h)) with (2 * j * h) by ring.
    unfold h. rewrite lor_low_bit by lia. ring. }
  destruct (net_new_ok (addr (prefix p)) (prefix_len (prefix p) + 1) Har ltac:(lia))
    as (n1 & -> & En1 & El1).
  destruct (net_new_ok (addr (prefix p) + h) (prefix_len (prefix p) + 1) Hodd ltac:(lia))
    as (n2 & -> & En2 & El2).
  exists (mk_prefix n1), (mk_prefix n2). simpl. split_and!; try done.
  - unfold faligned, fsize. simpl. rewrite El1, En1, Ha, Eh. fold h.
    replace (j * (2 * h)) with (j * 2 * h) by ring. by apply Z_mod_mult.
  - unfold faligned, fsize. simpl. rewrite El2, En2, Ha, Eh. fold h.
    replace (j * (2 * h) + h) with ((j * 2 + 1) * h) by ring. by apply Z_mod_mult.
Qed.

Lemma family_get_last_subprefix_spec p : faligned p →
  addr (prefix (family_get_last_subprefix p)) = addr (prefix p) + fsize p - 1 ∧
  prefix_len (prefix (family_get_last_subprefix p)) = W.
Proof.
  intros Ha. unfold family_get_last_subprefix. simpl.
  pose proof (faligned_end p Ha). pose proof (fsize_pos p). pose proof (addr_range (prefix p)).
  assert (net_broadcast (prefix p) = addr (prefix p) + fsize p - 1) as ->.
  { rewrite net_broadcast_spec, net_network_spec. unfold faligned, fsize in *. lia. }
  apply net_from_spec. lia.
Qed.

(** The truncation of an address to the block twice as large. *)
Lemma trunc_double a s : 0 < s → a mod s = 0 →
  a - a mod (2 * s) = if Z.even (a / s) then a else a - s.
Proof.
  intros Hs Ha. apply aligned_mul in Ha; [|done]. set (j := a / s) in *. clearbody j. subst a.
  rewrite Z.mul_mod_distr_r by lia. destruct (Z.even j) eqn:E.
  - apply Z.even_spec in E as [m ->]. replace (2 * m mod 2) with 0; [ring|].
    by rewrite Z.mul_comm, Z_mod_mult.
  - rewrite <-Z.negb_odd in E. apply negb_false_iff, Z.odd_spec in E as [m ->].
    replace ((2 * m + 1) mod 2) with 1; [ring|].
    by rewrite Z.add_comm, Z.mul_comm, Z_mod_plus_full.
Qed.

(** Siblings aggregate into the block that is exactly both of them. *)
Lemma family_try_aggregate_sibling p q : faligned p → faligned q →
  0 < prefix_len (prefix p) → prefix_len (prefix q) = prefix_len (prefix p) →
  addr (prefix q) = (if Z.even (addr (prefix p) / fsize p)
                     then addr (prefix p) + fsize p else addr (prefix p) - fsize p) →
  ∃ r, family_try_aggregate p q = Some r ∧ faligned r ∧
       prefix_len (prefix r) = prefix_len (prefix p) - 1 ∧
       addr (prefix r) = Z.min (addr (prefix p)) (addr (prefix q)).
Proof.
  intros Hp Hq Hl Elen Eq. pose proof (fsize_pos p) as Hs.
  pose proof (prefix_len_range (prefix p)) as Hr.
  assert (fsize q = fsize p) as Es by (unfold fsize; by rewrite Elen).
  unfold family_try_aggregate.
  destruct (family_contains p q) eqn:E1; [apply family_contains_iff in E1; [|done..];
    destruct (Z.even _); lia|].
  destruct (family_contains q p) eqn:E2; [apply family_contains_iff in E2; [|done..];
    destruct (Z.even _); lia|].
  pose proof (net_supernet_spec (prefix p)) as S1. pose proof (net_supernet_spec (prefix q)) as S2.
  destruct (net_supernet (prefix p)) as [m1|]; [|lia].
  destruct (net_supernet (prefix q)) as [m2|]; [|lia].
  destruct S1 as (_ & L1 & A1), S2 as (_ & L2 & A2).
  assert (2 ^ (W - prefix_len m1) = 2 * fsize p) as E.
  { unfold fsize. rewrite <-Z.pow_succ_r by lia. f_equal. lia. }
  assert (addr m1 = Z.min (addr (prefix p)) (addr (prefix q))) as M1.
  { rewrite A1, E, trunc_double by done. rewrite Eq. destruct (Z.even _); lia. }
  assert (addr m2 = addr m1) as M2.
  { rewrite A2, M1. replace (W - prefix_len m2) with (W - prefix_len m1) by lia.
    rewrite E, <-Es, trunc_double; [|by rewrite Es|done]. rewrite Es.
    apply aligned_mul in Hp; [|done]. set (j := addr (prefix p) / fsize p) in *.
    assert (addr (prefix q) / fsize p = if Z.even j then j + 1 else j - 1) as ->.
    { rewrite Eq. destruct (Z.even j); rewrite Hp.
      - replace (j * fsize p + fsize p) with ((j + 1) * fsize p) by ring. by rewrite Z.div_mul by lia.
      - replace (j * fsize p - fsize p) with ((j - 1) * fsize p) by ring. by rewrite Z.div_mul by lia. }
    destruct (Z.even j) eqn:Ej.
    - rewrite Z.even_add, Ej. simpl. lia.
    - rewrite Z.even_sub, Ej. simpl. lia. }
  unfold net_eqb. rewrite (proj2 (Z.eqb_eq (addr m1) (addr m2))) by lia.
  rewrite (proj2 (Z.eqb_eq (prefix_len m1) (prefix_len m2))) by lia.
  exists (mk_prefix m1). simpl. split_and!; try done.
  unfold faligned, fsize. simpl. rewrite A1.
  pose proof (pow2_pos (W - prefix_len m1) ltac:(lia)).
  rewrite Zminus_mod_idemp_r, Z.sub_diag. by apply Zmod_0_l.
Qed.
End FamilyFacts.

(** ** The operations of [IpPrefix] in terms of blocks *)

Section IpPrefixFacts.
Context `{I4 : Ipnet 32} `{I6 : Ipnet 128}.
Implicit Types p q r : IpPrefix.

Lemma width_pos f : 1 ≤ width f.
Proof. by destruct f. Qed.

Lemma plen_range p : 0 ≤ plen p ≤ width (family p).
Proof. destruct p; apply prefix_len_range. Qed.

Lemma psize_pos p : 0 < psize p.
Proof. destruct p; apply fsize_pos. Qed.

Lemma prefix_ext p q : family p = family q → lo p = lo q → plen p = plen q → p = q.
Proof. destruct p, q; simpl; try done; intros; f_equal; by apply family_ext. Qed.

(** The length of a prefix is determined by the size of its block. *)
Lemma psize_inj p q : family p = family q → psize p = psize q → plen p = plen q.
Proof.
  unfold psize. intros Hf Hs. rewrite Hf in Hs. pose proof (plen_range p). pose proof (plen_range q).
  rewrite Hf in *. apply Z.pow_inj_r in Hs; lia.
Qed.

Lemma contains_iff p q : canonical p → canonical q →
  contains p q = true ↔ family p = family q ∧ lo p ≤ lo q ∧ lo q + psize q ≤ lo p + psize p.
Proof.
  destruct p as [p|p], q as [q|q]; simpl; intros Hp Hq; [|naive_solver..|];
    rewrite family_contains_iff by done; unfold psize, fsize; simpl; naive_solver.
Qed.

Lemma get_sibling_spec p : canonical p →
  (plen p = 0 ∧ get_sibling p = Some None) ∨
  (0 < plen p ∧ ∃ q, get_sibling p = Some (Some q) ∧ canonical q ∧ family q = family p ∧
    plen q = plen p ∧ lo q = if Z.even (lo p / psize p) then lo p + psize p else lo p - psize p).
Proof.
  destruct p as [p|p]; simpl; intros Hp;
    (destruct (family_get_sibling_spec _ p Hp) as [[? ->]|(? & q & -> & Hq & El & Ea)];
     [by left | right; split; [done|]]).
  - exists (V4 q). done.
  - exists (V6 q). done.
Qed.

Lemma bifurcate_spec p : canonical p →
  (plen p = width (family p) ∧ bifurcate p = Some None) ∨
  (plen p < width (family p) ∧ ∃ c1 c2, bifurcate p = Some (Some (c1, c2)) ∧
    canonical c1 ∧ canonical c2 ∧ family c1 = family p ∧ family c2 = family p ∧
    plen c1 = plen p + 1 ∧ plen c2 = plen p + 1 ∧ lo c1 = lo p ∧ lo c2 = lo p + psize c2).
Proof.
  destruct p as [p|p]; simpl; intros Hp;
    (destruct (family_bifurcate_spec _ p Hp) as [[? ->]|(? & c1 & c2 & -> & H)];
     [by left | right; split; [done|]]); destruct H as (? & ? & ? & E & ? & ?).
  - exists (V4 c1), (V4 c2). split_and!; try done. unfold psize. simpl. by rewrite E.
  - exists (V6 c1), (V6 c2). split_and!; try done. unfold psize. simpl. by rewrite E.
Qed.

Lemma get_last_subprefix_spec p : canonical p →
  family (get_last_subprefix p) = family p ∧ lo (get_last_subprefix p) = lo p + psize p - 1 ∧
  plen (get_last_subprefix p) = width (family p).
Proof.
  destruct p as [p|p]; simpl; intros Hp; by destruct (family_get_last_subprefix_spec _ p Hp).
Qed.

Lemma try_aggregate_sibling p q : canonical p → get_sibling p = Some (Some q) →
  ∃ r, try_aggregate p q = Some r ∧ canonical r ∧ family r = family p ∧
       plen r = plen p - 1 ∧ lo r = Z.min (lo p) (lo q).
Proof.
  intros Hp Hsib. destruct (get_sibling_spec p Hp) as [[_ E]|(Hl & q' & E & Hq & Hf & El & Ea)];
    rewrite E in Hsib; [done|]. injection Hsib as ->.
  destruct p as [p|p], q as [q|q]; try done; simpl in *;
    destruct (family_try_aggregate_sibling _ p q Hp Hq Hl El Ea) as (r & -> & Hr & Lr & Ar).
  - by exists (V4 r).
  - by exists (V6 r).
Qed.

Lemma prefix_cmp_spec p q :
  prefix_cmp p q = pair_cmp Z.compare (pair_cmp Z.compare Z.compare)
    (width (family p), (lo p, plen p)) (width (family q), (lo q, plen q)).
Proof. destruct p, q; simpl; try done; apply net_cmp_spec. Qed.

Lemma width_inj f g : width f = width g → f = g.
Proof. by destruct f, g. Qed.

#[export] Instance prefix_cmp_total : TotalCmp prefix_cmp.
Proof.
  pose proof (pair_cmp_total Z.compare (pair_cmp Z.compare Z.compare) _ _) as T.
  split.
  - intros p q. rewrite prefix_cmp_spec, (cmp_eq_iff _). split; [|by intros ->].
    intros [= Ef El Ep]. apply prefix_ext; [|done..]. by apply width_inj.
  - intros p q. rewrite !prefix_cmp_spec. apply (cmp_antisym _).
  - intros p q r. rewrite !prefix_cmp_spec. apply (cmp_lt_trans _).
Qed.

(** Within a family prefixes are ordered by their block's start, then by length. *)
Lemma prefix_cmp_lt p q : family p = family q →
  prefix_cmp p q = Lt ↔ lo p < lo q ∨ lo p = lo q ∧ plen p < plen q.
Proof.
  intros Hf. rewrite prefix_cmp_spec, Hf. unfold pair_cmp. simpl. rewrite Z.compare_refl.
  destruct (Z.compare_spec (lo p) (lo q)); rewrite ?Z.compare_lt_iff; split; try done; lia.
Qed.

(** Prefixes of the same family are nested or disjoint. *)
Lemma nested_or_disjoint p q : canonical p → canonical q → family p = family q →
  plen p ≤ plen q →
  (lo p ≤ lo q ∧ lo q + psize q ≤ lo p + psize p) ∨ lo q + psize q ≤ lo p ∨ lo p + psize p ≤ lo q.
Proof.
  intros Hp Hq Hf Hl. pose proof (plen_range p). pose proof (plen_range q).
  assert (psize p = psize q * 2 ^ (plen q - plen p)) as E.
  { unfold psize. rewrite Hf, <-Z.pow_add_r by (rewrite ?Hf in *; lia). f_equal. lia. }
  unfold canonical in Hp. rewrite E in *.
  apply blocks_nested_or_disjoint; [apply psize_pos|apply pow2_pos; lia|done..].
Qed.

Lemma psize_le p q : family p = family q → plen p ≤ plen q → psize q ≤ psize p.
Proof.
  intros Hf Hl. unfold psize. rewrite Hf. pose proof (plen_range q).
  apply Z.pow_le_mono_r; lia.
Qed.

Lemma psize_lt p q : family p = family q → plen p < plen q → psize q < psize p.
Proof.
  intros Hf Hl. unfold psize. rewrite Hf. pose proof (plen_range q). pose proof (plen_range p).
  rewrite Hf in *. apply Z.pow_lt_mono_r; lia.
Qed.

(** Prefixes that share an address are nested. *)
Lemma overlap_nested p q a : canonical p → canonical q → covers p a → covers q a →
  contains p q = true ∨ contains q p = true.
Proof.
  intros Hp Hq [Fp Ap] [Fq Aq]. rewrite !contains_iff by done.
  destruct (Z.le_ge_cases (plen p) (plen q)).
  - destruct (nested_or_disjoint p q); [done..|congruence|done| |lia]. left. split; [congruence|lia].
  - destruct (nested_or_disjoint q p); [done..|congruence|done| |lia]. right. split; [congruence|lia].
Qed.

Lemma contains_covers p q : canonical p → canonical q →
  contains p q = true ↔ ∀ a, covers q a → covers p a.
Proof.
  intros Hp Hq. rewrite contains_iff by done. pose proof (psize_pos q). unfold covers. split.
  - intros (Hf & H1 & H2) [f x] [E Ex]. simpl in *. split; [congruence|lia].
  - intros Hall. destruct (Hall (family q, lo q)) as [Hf H1]; [simpl; split; [done|lia]|].
    destruct (Hall (family q, lo q + psize q - 1)) as [_ H2]; [simpl; split; [done|lia]|].
    simpl in *. split; [done|lia].
Qed.

Lemma contains_refl p : canonical p → contains p p = true.
Proof. intros. apply contains_covers; auto. Qed.

Lemma contains_trans p q r : canonical p → canonical q → canonical r →
  contains p q = true → contains q r = true → contains p r = true.
Proof.
  intros Hp Hq Hr. rewrite !contains_iff by done. intros (? & ? & ?) (? & ? & ?).
  split_and!; [congruence|lia..].
Qed.

Lemma contains_antisym p q : canonical p → canonical q →
  contains p q = true → contains q p = true → p = q.
Proof.
  intros Hp Hq. rewrite !contains_iff by done. intros (Hf & ? & ?) (_ & ? & ?).
  apply prefix_ext; [done|lia|]. apply psize_inj; [done|lia].
Qed.
End IpPrefixFacts.

(** ** The laws hold: networks as pairs of an address and a length *)

Section Reference.
Context (W : Z) (HW : 0 ≤ W).

Definition ref_valid (x : Z * Z) : bool :=
  (0 <=? x.1) && (x.1 <? 2 ^ W) && (0 <=? x.2) && (x.2 <=? W).

Definition RefNet : Type := { x : Z * Z | ref_valid x = true }.

Lemma ref_clamp_valid a l : ref_valid (a mod 2 ^ W, Z.max 0 (Z.min l W)) = true.
Proof.
  pose proof (Z.mod_pos_bound a (2 ^ W) (pow2_pos W HW)).
  unfold ref_valid. simpl. rewrite !andb_true_iff, !Z.leb_le, Z.ltb_lt. lia.
Qed.

Definition ref_net (a l : Z) : RefNet := exist _ _ (ref_clamp_valid a l).

Definition ref_trunc_addr (a l : Z) : Z := a - a mod 2 ^ (W - l).

Definition ref_network (n : RefNet) : Z := ref_trunc_addr (`n).1 (`n).2.
Definition ref_broadcast (n : RefNet) : Z := ref_network n + 2 ^ (W - (`n).2) - 1.

Lemma ref_valid_range (n : RefNet) : 0 ≤ (`n).1 < 2 ^ W ∧ 0 ≤ (`n).2 ≤ W.
Proof.
  destruct n as [[a l] H]. unfold ref_valid in H. simpl in *.
  rewrite !andb_true_iff, !Z.leb_le, Z.ltb_lt in H. lia.
Qed.

Lemma ref_net_fields a l : 0 ≤ a < 2 ^ W → 0 ≤ l ≤ W → proj1_sig (ref_net a l) = (a, l).
Proof. intros. simpl. rewrite Z.mod_small by done. f_equal. lia. Qed.

Lemma ref_trunc_range a l : 0 ≤ a < 2 ^ W → 0 ≤ l ≤ W → 0 ≤ ref_trunc_addr a l < 2 ^ W.
Proof.
  intros Ha Hl. unfold ref_trunc_addr.
  pose proof (Z.mod_pos_bound a (2 ^ (W - l)) (pow2_pos (W - l) ltac:(lia))).
  pose proof (Z.mod_le a (2 ^ (W - l)) ltac:(lia) ltac:(lia)). lia.
Qed.

Definition ref_new (a l : Z) : option RefNet := if l <=? W then Some (ref_net a l) else None.
Definition ref_contains (n m : RefNet) : bool :=
  (ref_network n <=? ref_network m) && (ref_broadcast m <=? ref_broadcast n).
Definition ref_supernet (n : RefNet) : option RefNet :=
  if (`n).2 =? 0 then None else Some (ref_net (ref_trunc_addr (`n).1 ((`n).2 - 1)) ((`n).2 - 1)).

#[refine, local] Instance ref_ipnet : Ipnet W := {|
  Net := RefNet;
  addr n := (`n).1;
  prefix_len n := (`n).2;
  net_new := ref_new;
  net_from a := ref_net a W;
  net_trunc n := ref_net (ref_network n) (`n).2;
  net_network := ref_network;
  net_broadcast := ref_broadcast;
  net_contains := ref_contains;
  net_supernet := ref_supernet;
  net_cmp n m := pair_cmp Z.compare Z.compare (`n) (`m);
|}.
Proof.
  - intros n. apply ref_valid_range.
  - intros n. apply ref_valid_range.
  - intros [[a l] H] [[b k] K]. simpl. intros -> ->. f_equal. apply (proof_irrel H K).
  - intros a l Ha Hl. exists (ref_net a l). unfold ref_new. rewrite (proj2 (Z.leb_le l W)) by lia.
    rewrite ref_net_fields by done. done.
  - intros a l Hl. unfold ref_new. by rewrite (proj2 (Z.leb_gt l W)).
  - intros a Ha. rewrite ref_net_fields by (done || lia). done.
  - intros n. destruct (ref_valid_range n). rewrite ref_net_fields; [done| |done].
    by apply ref_trunc_range.
  - done.
  - done.
  - done.
  - intros n. destruct (ref_valid_range n). unfold ref_supernet.
    destruct (Z.eqb_spec ((`n).2) 0); [done|].
    rewrite ref_net_fields; [simpl; split_and!; [lia|done|done]| |lia]. apply ref_trunc_range; lia.
  - intros [[a l] H] [[b k] K]. done.
Defined.
End Reference.

Definition ref_ipnet4 : Ipnet 32 := ref_ipnet 32 ltac:(lia).
Definition ref_ipnet6 : Ipnet 128 := ref_ipnet 128 ltac:(lia).
