(* ===== verification/IpSetFacts.v ===== *)
(** * Correctness of the sets of IP addresses

    The operations of [IpSet] on a well-formed set neither panic nor run out of
    fuel, keep it well-formed, and compute membership, union and difference of the
    sets of addresses.  A well-formed set is determined by its addresses. *)

From S2P Require Import Prelude Ordered IpPrefix IpSet.

Section Facts.
Context `{I4 : Ipnet 32} `{I6 : Ipnet 128}.
Implicit Types p q r c x y : IpPrefix.
Implicit Types l : list IpPrefix.

Lemma prefix_eqb_eq p q : prefix_eqb p q = true ↔ p = q.
Proof.
  split.
  - destruct p, q; simpl; try done; unfold net_eqb; intros H; to_prop; f_equal; by apply family_ext.
  - intros ->. destruct q; simpl; unfold net_eqb; by rewrite !Z.eqb_refl.
Qed.

(** ** Lookup *)

Lemma sorted_last_max l r x :
  bset_sorted prefix_cmp l → last l = Some r → x ∈ l → prefix_cmp x r ≠ Gt.
Proof.
  intros Hs. revert r x. induction Hs as [|y l Hs IH Hy]; intros r x Hl Hx; [by inversion Hx|].
  rewrite last_cons in Hl. destruct (last l) as [r'|] eqn:E.
  - injection Hl as ->. apply elem_of_cons in Hx as [->|Hx]; [|by eapply IH].
    rewrite Forall_forall in Hy. rewrite (Hy r); [done|]. by apply last_Some_elem_of.
  - injection Hl as ->. apply last_None in E as ->.
    apply list_elem_of_singleton in Hx as ->. by rewrite (cmp_refl prefix_cmp).
Qed.

Lemma range_to_sorted p l : bset_sorted prefix_cmp l → bset_sorted prefix_cmp (range_to p l).
Proof. apply bset_filter_sorted. Qed.

(** Two prefixes between which a third lies in the order are of its family. *)
Lemma between_family q r p : prefix_cmp q r ≠ Gt → prefix_cmp r p ≠ Gt →
  family q = family p → family r = family p.
Proof. destruct q, r, p; simpl; done. Qed.

Lemma cmp_not_gt p q : family p = family q →
  prefix_cmp p q ≠ Gt ↔ lo p < lo q ∨ lo p = lo q ∧ plen p ≤ plen q.
Proof.
  intros Hf. rewrite prefix_cmp_spec, Hf. unfold pair_cmp. simpl. rewrite Z.compare_refl.
  destruct (Z.compare_spec (lo p) (lo q)); rewrite ?Z.compare_le_iff; split; try done; try lia.
Qed.

Lemma contains_cmp p q : canonical p → canonical q → contains p q = true → prefix_cmp p q ≠ Gt.
Proof.
  intros Hp Hq. rewrite contains_iff by done. intros (Hf & H1 & H2). apply cmp_not_gt; [done|].
  destruct (Z.lt_ge_cases (plen q) (plen p)) as [Hlt|]; [|lia].
  pose proof (psize_lt q p ltac:(done) Hlt). lia.
Qed.

Lemma get_containing_prefix_spec l p q : wf l → canonical p →
  get_containing_prefix (mk_ipset l) p = Some q ↔ q ∈ l ∧ contains q p = true.
Proof.
  intros Hwf Hp. unfold get_containing_prefix. simpl. split.
  - destruct (last (range_to p l)) as [r|] eqn:E; [|done]. simpl.
    destruct (contains r p) eqn:Ec; [|done]. intros [= <-]. split; [|done].
    apply last_Some_elem_of, list_elem_of_filter in E as [_ ?]. done.
  - intros [Hq Hc]. pose proof (wf_canonical _ Hwf q Hq) as Hqc.
    pose proof (contains_cmp q p Hqc Hp Hc) as Hle.
    assert (q ∈ range_to p l) as Hin by (by apply list_elem_of_filter).
    destruct (last (range_to p l)) as [r|] eqn:E; simpl.
    2:{ apply last_None in E. rewrite E in Hin. by inversion Hin. }
    pose proof (sorted_last_max _ _ q (range_to_sorted p l (wf_sorted _ Hwf)) E Hin) as Hqr.
    apply last_Some_elem_of, list_elem_of_filter in E as [Hrp Hr].
    pose proof (wf_canonical _ Hwf r Hr) as Hrc.
    apply contains_iff in Hc as (Hf & H1 & H2); [|done..].
    pose proof (between_family q r p Hqr Hrp Hf) as Hfr.
    rewrite cmp_not_gt in Hqr by congruence. rewrite cmp_not_gt in Hrp by done.
    pose proof (psize_pos p). pose proof (psize_pos r).
    assert (q = r) as <-.
    { destruct (overlap_nested q r (family p, lo r)) as [Hn|Hn]; try done.
      - unfold covers. simpl. split; [done|lia].
      - unfold covers. simpl. split; [done|lia].
      - by apply (wf_antichain _ Hwf).
      - symmetry. by apply (wf_antichain _ Hwf). }
    rewrite (proj2 (contains_iff q p Hqc Hp)); done.
Qed.

Lemma contains_prefix_iff l p : wf l → canonical p →
  contains_prefix (mk_ipset l) p = true ↔ ∃ q, q ∈ l ∧ contains q p = true.
Proof.
  intros Hwf Hp. unfold contains_prefix.
  destruct (get_containing_prefix (mk_ipset l) p) as [q|] eqn:E.
  - apply get_containing_prefix_spec in E; [|done..]. naive_solver.
  - split; [done|]. intros [q Hq]. apply get_containing_prefix_spec in Hq; [|done..]. congruence.
Qed.

Lemma contains_prefix_false l p x : wf l → canonical p →
  contains_prefix (mk_ipset l) p = false → x ∈ l → contains x p = false.
Proof.
  intros Hwf Hp Hc Hx. destruct (contains x p) eqn:E; [|done].
  rewrite (proj2 (contains_prefix_iff l p Hwf Hp)) in Hc; [done|eauto].
Qed.

(** ** Siblings and halves *)

Lemma covers_self p : covers p (family p, lo p).
Proof. pose proof (psize_pos p). split; simpl; [done|lia]. Qed.

Lemma psize_double p q : family p = family q → plen q = plen p - 1 → psize q = 2 * psize p.
Proof.
  intros Hf Hl. pose proof (plen_range p). pose proof (plen_range q). unfold psize.
  rewrite Hf, <-Z.pow_succ_r by (rewrite Hf in *; lia). f_equal. lia.
Qed.

Lemma same_len_psize p q : family p = family q → plen p = plen q → psize p = psize q.
Proof. intros Hf Hl. unfold psize. by rewrite Hf, Hl. Qed.

Lemma and_or_iff (P X Y Z : Prop) : (X ↔ Y ∨ Z) → (P ∧ X ↔ (P ∧ Y) ∨ (P ∧ Z)).
Proof. tauto. Qed.

(** Aggregating siblings gives exactly the addresses of both. *)
Lemma aggregate_covers p q r : canonical p → get_sibling p = Some (Some q) →
  try_aggregate p q = Some r → canonical r ∧ plen r = plen p - 1 ∧
  ∀ a, covers r a ↔ covers p a ∨ covers q a.
Proof.
  intros Hp Hs Ha. destruct (try_aggregate_sibling p q Hp Hs) as (r' & E & Hr & Hf & Hl & El).
  rewrite E in Ha. injection Ha as ->.
  destruct (get_sibling_spec p Hp) as [[_ E']|(Hpos & q' & E' & Hq & Hfq & Hlq & Hlo)];
    rewrite E' in Hs; [done|]. injection Hs as ->. split_and!; [done..|].
  pose proof (psize_double p r ltac:(done) Hl) as Sr.
  pose proof (same_len_psize q p Hfq Hlq) as Sq. pose proof (psize_pos p).
  intros [f a]. unfold covers. simpl. rewrite Hf, Hfq, Sq, Sr, El, Hlo.
  apply and_or_iff. destruct (Z.even _); lia.
Qed.

Lemma sibling_canonical p q : canonical p → get_sibling p = Some (Some q) →
  canonical q ∧ 0 < plen p ∧ family q = family p ∧ plen q = plen p ∧ p ≠ q.
Proof.
  intros Hp Hs. destruct (get_sibling_spec p Hp) as [[_ E]|(? & q' & E & ? & ? & ? & Hlo)];
    rewrite E in Hs; [done|]. injection Hs as ->. split_and!; try done.
  intros <-. pose proof (psize_pos p). destruct (Z.even _); lia.
Qed.

Lemma sibling_sym p q : canonical p → get_sibling p = Some (Some q) →
  get_sibling q = Some (Some p).
Proof.
  intros Hp Hs. destruct (get_sibling_spec p Hp) as [[_ E]|(Hpos & q' & E & Hq & Hf & Hl & Hlo)];
    rewrite E in Hs; [done|]. injection Hs as ->.
  destruct (get_sibling_spec q Hq) as [[? _]|(_ & p' & -> & Hp' & Hf' & Hl' & Hlo')]; [lia|].
  do 2 f_equal. apply prefix_ext; [congruence| |congruence].
  pose proof (psize_pos p) as Hs. rewrite (same_len_psize q p Hf Hl) in Hlo'.
  unfold canonical in Hp. apply aligned_mul in Hp; [|done].
  set (j := lo p / psize p) in *.
  assert (lo q / psize p = if Z.even j then j + 1 else j - 1) as Ej.
  { rewrite Hlo, Hp. destruct (Z.even j).
    - replace (j * psize p + psize p) with ((j + 1) * psize p) by ring. apply Z.div_mul. lia.
    - replace (j * psize p - psize p) with ((j - 1) * psize p) by ring. apply Z.div_mul. lia. }
  rewrite Ej in Hlo'. destruct (Z.even j) eqn:Ev.
  - rewrite Z.even_add, Ev in Hlo'. simpl in Hlo'. lia.
  - rewrite Z.even_sub, Ev in Hlo'. simpl in Hlo'. lia.
Qed.

(** The halves of a prefix are siblings and partition it. *)
Lemma bifurcate_halves p c1 c2 : canonical p → bifurcate p = Some (Some (c1, c2)) →
  canonical c1 ∧ canonical c2 ∧ plen c1 = plen p + 1 ∧ plen c2 = plen p + 1 ∧
  family c1 = family p ∧ family c2 = family p ∧
  get_sibling c1 = Some (Some c2) ∧ (∀ a, covers p a ↔ covers c1 a ∨ covers c2 a) ∧
  ∀ a, covers c1 a → ¬ covers c2 a.
Proof.
  intros Hp Hb.
  destruct (bifurcate_spec p Hp) as [[_ E]|(Hlt & d1 & d2 & E & H1 & H2 & F1 & F2 & L1 & L2 & A1 & A2)];
    rewrite E in Hb; [done|]. injection Hb as -> ->.
  pose proof (psize_double c1 p F1 ltac:(lia)) as Sp.
  pose proof (same_len_psize c2 c1 ltac:(congruence) ltac:(lia)) as S2.
  pose proof (psize_pos c1) as Hpos. split_and!; try done.
  - pose proof (plen_range p).
    destruct (get_sibling_spec c1 H1) as [[? _]|(_ & q & -> & Hq & Fq & Lq & Aq)]; [lia|].
    do 2 f_equal. apply prefix_ext; [congruence| |lia].
    assert (Z.even (lo c1 / psize c1) = true) as Ev.
    { rewrite A1. unfold canonical in Hp. rewrite Sp in Hp. apply aligned_mul in Hp; [|lia].
      set (j := lo p / (2 * psize c1)) in *. rewrite Hp.
      replace (j * (2 * psize c1)) with (2 * j * psize c1) by ring.
      rewrite Z.div_mul by lia. by rewrite Z.even_mul. }
    rewrite Ev in Aq. lia.
  - intros [f a]. unfold covers. simpl. rewrite F1, F2, A1, A2, S2, Sp.
    apply and_or_iff. lia.
  - intros [f a]. unfold covers. simpl. lia.
Qed.

(** What contains a half contains the whole, unless it is the half. *)
Lemma contains_half p c q : canonical p → canonical c → canonical q →
  family c = family p → plen c = plen p + 1 → (∀ a, covers c a → covers p a) →
  contains q c = true → contains q p = true ∨ q = c.
Proof.
  intros Hp Hc Hq Fc Lc Hsub Hcq.
  pose proof (proj1 (contains_covers q c Hq Hc) Hcq _ (covers_self c)) as Ha.
  destruct (overlap_nested q p _ Hq Hp Ha (Hsub _ (covers_self c))) as [|Hin]; [by left|].
  apply contains_iff in Hin as (Hfi & I1 & I2); [|done..].
  destruct (Z.le_gt_cases (plen q) (plen p)) as [Hle|Hgt].
  - left. pose proof (psize_le q p ltac:(done) Hle).
    apply contains_iff; [done..|]. split; [done|lia].
  - right. apply contains_iff in Hcq as (Hfq & J1 & J2); [|done..].
    pose proof (psize_le c q ltac:(congruence) ltac:(lia)).
    assert (psize q = psize c) by lia.
    apply prefix_ext; [done|lia|]. by apply psize_inj.
Qed.

(** ** A covered prefix lies in a single stored prefix *)

Lemma covered_contained l p : wf l → canonical p →
  (∀ a, covers p a → den l a) → ∃ q, q ∈ l ∧ contains q p = true.
Proof.
  intros Hwf. remember (Z.to_nat (width (family p) - plen p)) as n eqn:En. revert p En.
  induction n as [|n IH]; intros p En Hp Hcov; pose proof (plen_range p) as Hr.
  all: destruct (Hcov _ (covers_self p)) as (q & Hq & Hqa);
    pose proof (wf_canonical _ Hwf q Hq) as Hqc;
    destruct (overlap_nested q p _ Hqc Hp Hqa (covers_self p)) as [Hc|Hc]; [by eauto|].
  - exists q. split; [done|]. apply contains_iff in Hc as (Hf & H1 & H2); [|done..].
    pose proof (plen_range q) as Hrq. rewrite <-Hf in Hrq.
    pose proof (psize_le q p ltac:(done) ltac:(lia)).
    apply contains_iff; [done..|]. split; [done|]. destruct Hqa as [_ Hqa]. simpl in Hqa. lia.
  - destruct (bifurcate_spec p Hp) as [[? _]|(Hlt & c1 & c2 & Hb & _)]; [lia|].
    destruct (bifurcate_halves p c1 c2 Hp Hb)
      as (H1 & H2 & L1 & L2 & F1 & F2 & Hs & Hhalves & _).
    destruct (IH c1) as (q1 & Hq1 & Hc1); [rewrite F1; lia|done| |].
    { intros a Ha. apply Hcov, Hhalves. by left. }
    destruct (IH c2) as (q2 & Hq2 & Hc2); [rewrite F2; lia|done| |].
    { intros a Ha. apply Hcov, Hhalves. by right. }
    pose proof (wf_canonical _ Hwf q1 Hq1) as Hk1. pose proof (wf_canonical _ Hwf q2 Hq2) as Hk2.
    destruct (contains_half p c1 q1) as [?| ->]; try done; [intros; apply Hhalves; by left|by eauto|].
    destruct (contains_half p c2 q2) as [?| ->]; try done; [intros; apply Hhalves; by right|by eauto|].
    by destruct (wf_aggregated _ Hwf c1 c2 Hq1 Hq2).
Qed.

(** ** The invariant under insertion and removal *)

Lemma den_insert p l a : den (bset_insert prefix_cmp p l) a ↔ covers p a ∨ den l a.
Proof.
  unfold den. split.
  - intros (q & Hq & Ha). apply (bset_elem_of_insert prefix_cmp) in Hq as [->|Hq]; [by left|eauto].
  - intros [Ha|(q & Hq & Ha)]; [exists p|exists q]; rewrite (bset_elem_of_insert prefix_cmp); eauto.
Qed.

Lemma wf_nil : wf [].
Proof. split; [constructor|..]; set_solver. Qed.

Lemma wf_remove p l : wf l → wf (bset_remove prefix_cmp p l).
Proof.
  intros H. assert (∀ x, x ∈ bset_remove prefix_cmp p l → x ∈ l) as Hsub.
  { intros x Hx. apply (bset_elem_of_remove prefix_cmp) in Hx; [naive_solver|apply H]. }
  split; [apply (bset_remove_sorted prefix_cmp), H|..]; intros; [eapply wf_canonical|eapply wf_antichain|
    eapply wf_aggregated]; eauto.
Qed.

Lemma wf_insert p l : wf l → canonical p → fresh p l →
  (∀ q, get_sibling p = Some (Some q) → q ∉ l) → wf (bset_insert prefix_cmp p l).
Proof.
  intros H Hp Hf Hs. split; [apply (bset_insert_sorted prefix_cmp), H|..]; intros x.
  - intros [->|Hx]%(bset_elem_of_insert prefix_cmp); [done|by eapply wf_canonical].
  - intros y [->|Hx]%(bset_elem_of_insert prefix_cmp) [->|Hy]%(bset_elem_of_insert prefix_cmp); [done|..].
    + intros E. destruct (Hf y Hy). congruence.
    + intros E. destruct (Hf x Hx). congruence.
    + by apply (wf_antichain _ H).
  - intros y [->|Hx]%(bset_elem_of_insert prefix_cmp) [->|Hy]%(bset_elem_of_insert prefix_cmp) E.
    + by destruct (sibling_canonical p p Hp E) as (_ & _ & _ & _ & ?).
    + by apply (Hs y).
    + apply (Hs x); [|done]. apply sibling_sym; [by eapply wf_canonical|done].
    + by apply (wf_aggregated _ H x y).
Qed.

(** A fresh prefix shares no address with the stored ones. *)
Lemma fresh_disjoint p l a : wf l → canonical p → fresh p l → covers p a → ¬ den l a.
Proof.
  intros H Hp Hf Ha (x & Hx & Hxa). destruct (Hf x Hx) as [H1 H2].
  destruct (overlap_nested p x a Hp (wf_canonical _ H x Hx) Ha Hxa); congruence.
Qed.

Lemma disjoint_fresh p l : wf l → canonical p → (∀ a, covers p a → ¬ den l a) → fresh p l.
Proof.
  intros H Hp Hd x Hx. pose proof (wf_canonical _ H x Hx) as Hxc. split; apply not_true_is_false; intros E.
  - apply (Hd (family p, lo p)); [apply covers_self|]. exists x. split; [done|].
    eapply contains_covers; [| |exact E|apply covers_self]; done.
  - apply (Hd (family x, lo x)); [|exists x; split; [done|apply covers_self]].
    eapply contains_covers; [| |exact E|apply covers_self]; done.
Qed.

Lemma den_remove p l a : wf l → p ∈ l →
  den (bset_remove prefix_cmp p l) a ↔ den l a ∧ ¬ covers p a.
Proof.
  intros H Hp. split.
  - intros (x & [Hx Hne]%(bset_elem_of_remove prefix_cmp) & Ha); [|apply H]. split; [by exists x|].
    intros Hpa. apply Hne.
    destruct (overlap_nested x p a) as [E|E]; eauto using wf_canonical.
    + by apply (wf_antichain _ H).
    + symmetry. by apply (wf_antichain _ H).
  - intros [(x & Hx & Ha) Hn]. exists x. split; [|done]. apply (bset_elem_of_remove prefix_cmp); [apply H|].
    split; [done|]. by intros ->.
Qed.

(** ** The loops *)

Lemma last_subprefix_ge p x : canonical p → canonical x → contains p x = true →
  prefix_cmp x p ≠ Lt ∧ prefix_cmp x (get_last_subprefix p) ≠ Gt.
Proof.
  intros Hp Hx Hc. destruct (get_last_subprefix_spec p Hp) as (Fl & Al & Ll).
  pose proof (contains_cmp p x Hp Hx Hc) as Hle.
  apply contains_iff in Hc as (Hf & H1 & H2); [|done..]. split.
  - intros E. apply Hle. by apply (cmp_gt_lt prefix_cmp).
  - apply cmp_not_gt; [congruence|]. pose proof (psize_pos x). pose proof (plen_range x).
    rewrite Al, Ll, Hf. lia.
Qed.

Lemma remove_subprefixes_spec fuel p l : wf l → canonical p → (length l < fuel)%nat →
  ∃ l', remove_subprefixes fuel p l = Some l' ∧ wf l' ∧
    ∀ x, x ∈ l' ↔ x ∈ l ∧ contains p x = false.
Proof.
  revert l. induction fuel as [|fuel IH]; intros l H Hp Hlen; [lia|]. simpl.
  unfold range_inclusive.
  pose proof (proj2 (last_subprefix_ge p p Hp Hp (contains_refl p Hp))) as Hr.
  set (r := filter _ l).
  assert (match prefix_cmp p (get_last_subprefix p) with Gt => None | _ => Some r end = Some r) as ->
    by (by destruct (prefix_cmp p _)).
  simpl. destruct (List.find (contains p) r) as [sub|] eqn:E.
  - apply find_some in E as [Hin Hc]. apply list_elem_of_In in Hin.
    apply list_elem_of_filter in Hin as [_ Hin].
    pose proof (bset_remove_length prefix_cmp sub l (wf_sorted _ H) Hin).
    destruct (IH (bset_remove prefix_cmp sub l)) as (l' & -> & Hwf & Hl'); [by apply wf_remove|done|lia|].
    exists l'. split_and!; [done..|]. intros x. rewrite Hl', (bset_elem_of_remove prefix_cmp) by apply H.
    split; [naive_solver|]. intros [? Hx]. split_and!; try done. intros ->. congruence.
  - exists l. split_and!; [done..|]. intros x. split; [|naive_solver]. intros Hx. split; [done|].
    destruct (contains p x) eqn:Hc; [|done].
    rewrite <-Hc. eapply find_none; [exact E|]. apply list_elem_of_In, list_elem_of_filter.
    split; [|done]. apply last_subprefix_ge; eauto using wf_canonical.
Qed.

Lemma aggregate_siblings_spec fuel p l : wf l → canonical p → fresh p l →
  (Z.to_nat (plen p) < fuel)%nat →
  ∃ p' l', aggregate_siblings fuel p l = Some (p', l') ∧ wf l' ∧ canonical p' ∧ fresh p' l' ∧
    (∀ q, get_sibling p' = Some (Some q) → q ∉ l') ∧
    ∀ a, covers p' a ∨ den l' a ↔ covers p a ∨ den l a.
Proof.
  revert p l. induction fuel as [|fuel IH]; intros p l H Hp Hf Hlen; [lia|]. simpl.
  destruct (get_sibling_spec p Hp) as [[_ E]|(Hpos & q & E & _)]; rewrite E; simpl.
  { exists p, l. split_and!; try done. intros q Hq. congruence. }
  destruct (bset_mem prefix_cmp q l) eqn:Em.
  2:{ exists p, l. split_and!; try done. intros q' Hq' Hin. rewrite E in Hq'. injection Hq' as <-.
      apply (bset_mem_spec prefix_cmp) in Hin; [congruence|apply H]. }
  apply (bset_mem_spec prefix_cmp) in Em; [|apply H].
  destruct (try_aggregate_sibling p q Hp E) as (r & Er & _). rewrite Er. simpl.
  destruct (aggregate_covers p q r Hp E Er) as (Hr & Lr & Hcov).
  assert (∀ a, den (bset_remove prefix_cmp q l) a ↔ den l a ∧ ¬ covers q a) as Hden
    by (intros; by apply den_remove).
  assert (∀ a, covers q a → den l a) as Hql by (intros a Ha; by exists q).
  destruct (IH r (bset_remove prefix_cmp q l)) as (p' & l' & -> & Hwf & Hp' & Hf' & Hs & Hd).
  - by apply wf_remove.
  - done.
  - apply disjoint_fresh; [by apply wf_remove|done|]. intros a Ha [Hl Hnq]%Hden.
    apply Hcov in Ha as [Ha|Ha]; [|done]. by apply (fresh_disjoint p l a).
  - pose proof (plen_range r). lia.
  - exists p', l'. split_and!; try done. intros a. rewrite Hd, Hcov, Hden.
    destruct (decide (covers q a)) as [Hq|Hq]; [|tauto]. specialize (Hql a). tauto.
Qed.

(** Splitting: [d'] goes back to the set, the loop continues with [d]. *)
Lemma fragment_invariant c d d' l : wf l → canonical c → canonical d → canonical d' → fresh c l →
  get_sibling d' = Some (Some d) → (∀ a, covers c a ↔ covers d a ∨ covers d' a) →
  (∀ a, covers d a → ¬ covers d' a) →
  wf (bset_insert prefix_cmp d' l) ∧ fresh d (bset_insert prefix_cmp d' l).
Proof.
  intros H Hc Hd Hd' Hf Hsib Hcov Hdj.
  assert (∀ a, covers c a → ¬ den l a) as Hcl by (intros a; by apply fresh_disjoint).
  assert (wf (bset_insert prefix_cmp d' l)) as Hwf.
  { apply wf_insert; [done|done|apply disjoint_fresh; [done..|]; intros; apply Hcl, Hcov; tauto|].
    intros q Hq Hin. rewrite Hsib in Hq. injection Hq as <-.
    apply (Hcl (family d, lo d)); [apply Hcov; left; apply covers_self|].
    exists d. split; [done|apply covers_self]. }
  split; [done|]. apply disjoint_fresh; [done..|].
  intros a Ha [Hx|Hx]%den_insert; [by apply (Hdj a)|].
  apply (Hcl a); [|done]. apply Hcov. tauto.
Qed.

(** A strictly longer prefix lies in one of the halves. *)
Lemma contained_in_half c c1 c2 p : canonical c → canonical p → contains c p = true → c ≠ p →
  bifurcate c = Some (Some (c1, c2)) → contains c1 p = true ∨ contains c2 p = true.
Proof.
  intros Hc Hp Hcp Hne Hb.
  destruct (bifurcate_halves c c1 c2 Hc Hb) as (H1 & H2 & L1 & L2 & F1 & F2 & _ & Hh & _).
  assert (covers c (family p, lo p)) as Ha
    by (eapply contains_covers; [exact Hc|exact Hp|done|apply covers_self]).
  assert (∀ d, canonical d → family d = family c → plen d = plen c + 1 →
    (∀ a, covers d a → covers c a) → covers d (family p, lo p) → contains d p = true) as Hhalf.
  { intros d Hd Fd Ld Hsub Hda.
    destruct (overlap_nested d p _ Hd Hp Hda (covers_self p)) as [|Hpd]; [done|].
    destruct (contains_half c d p) as [Hpc| ->]; try done.
    by destruct Hne; apply contains_antisym. }
  apply Hh in Ha as [Ha|Ha]; [left|right]; (apply Hhalf; [done..| |done]); intros; apply Hh; tauto.
Qed.

(** A prefix of full length contains only itself. *)
Lemma full_length_contains c p : canonical c → canonical p → plen c = width (family c) →
  contains c p = true → c = p.
Proof.
  intros Hc Hp Hl Hcp. apply contains_antisym; [done..|].
  apply contains_iff in Hcp as (Hf & ? & ?); [|done..]. pose proof (plen_range p) as Hr.
  rewrite <-Hf in Hr. pose proof (psize_le p c ltac:(done) ltac:(lia)). pose proof (psize_pos c).
  pose proof (psize_pos p). assert (psize c = 1) as E by (unfold psize; by rewrite Hl, Z.sub_diag).
  apply contains_iff; [done..|]. split; [done|lia].
Qed.

Lemma fragment_spec fuel c p l : wf l → canonical c → canonical p → fresh c l →
  contains c p = true → (Z.to_nat (width (family c) - plen c) < fuel)%nat →
  ∃ l', fragment fuel c p l = Some l' ∧ wf l' ∧
    ∀ a, den l' a ↔ den l a ∨ covers c a ∧ ¬ covers p a.
Proof.
  revert c l. induction fuel as [|fuel IH]; intros c l H Hc Hp Hf Hcp Hlen; [lia|]. simpl.
  destruct (prefix_eqb c p) eqn:E.
  { apply prefix_eqb_eq in E as ->. exists l. split_and!; try done. intros a. tauto. }
  assert (c ≠ p) as Hne by (intros ->; by rewrite (proj2 (prefix_eqb_eq p p) eq_refl) in E).
  destruct (bifurcate_spec c Hc) as [[Hl _]|(Hlt & c1 & c2 & Hb & _)].
  { by destruct Hne; apply full_length_contains. }
  rewrite Hb. simpl.
  destruct (bifurcate_halves c c1 c2 Hc Hb) as (H1 & H2 & L1 & L2 & F1 & F2 & Hs & Hh & Hdis).
  assert (∀ d d', canonical d → canonical d' → family d = family c → plen d = plen c + 1 →
    get_sibling d' = Some (Some d) → (∀ a, covers c a ↔ covers d a ∨ covers d' a) →
    (∀ a, covers d a → ¬ covers d' a) → contains d p = true →
    ∃ l', fragment fuel d p (bset_insert prefix_cmp d' l) = Some l' ∧ wf l' ∧
      ∀ a, den l' a ↔ den l a ∨ covers c a ∧ ¬ covers p a) as Hstep.
  { intros d d' Hd Hd' Fd Ld Hsib Hcov Hdj Hdp.
    destruct (fragment_invariant c d d' l) as [Hwf Hfr]; try done.
    destruct (IH d (bset_insert prefix_cmp d' l)) as (l' & -> & Hw & Hden); try done.
    { pose proof (plen_range c). rewrite Fd. lia. }
    exists l'. split_and!; try done. intros a. rewrite Hden, den_insert, Hcov.
    pose proof (proj1 (contains_covers d p Hd Hp) Hdp a). specialize (Hdj a). tauto. }
  destruct (contains c1 p) eqn:E1; [apply Hstep; try done; by apply sibling_sym|].
  destruct (contained_in_half c c1 c2 p) as [?|E2]; try done; [congruence|]. rewrite E2.
  apply Hstep; try done; [intros a; rewrite Hh; tauto|]. intros a Ha Ha'. by apply (Hdis a).
Qed.

(** ** The operations on sets *)

Lemma add_correct l p : wf l → canonical p →
  ∃ l', add (mk_ipset l) p = Some (mk_ipset l') ∧ wf l' ∧ ∀ a, den l' a ↔ den l a ∨ covers p a.
Proof.
  intros H Hp. unfold add. destruct (contains_prefix (mk_ipset l) p) eqn:E.
  - apply contains_prefix_iff in E as (q & Hq & Hc); [|done..]. exists l. split_and!; try done.
    intros a. split; [tauto|]. intros [?|Ha]; [done|]. exists q. split; [done|].
    eapply contains_covers; [| |exact Hc|exact Ha]; [by eapply wf_canonical|done].
  - cbn [included_prefixes]. destruct (remove_subprefixes_spec (S (length l)) p l)
      as (l1 & -> & Hw1 & Hl1); [done..|lia|]. cbn [mbind option_bind].
    assert (fresh p l1) as Hf.
    { intros x [Hx Hc]%Hl1. split; [by apply (contains_prefix_false l)|done]. }
    destruct (aggregate_siblings_spec (S (Z.to_nat (plen p))) p l1)
      as (p' & l2 & -> & Hw2 & Hp' & Hf' & Hs & Hd); [done..|lia|]. cbn [mbind option_bind].
    eexists. split_and!; [done|by apply wf_insert|]. intros a. rewrite den_insert, Hd.
    split; intros [Ha|Ha]; [by right| |destruct Ha as (x & Hx & Ha)|by left].
    + destruct Ha as (x & [Hx _]%Hl1 & Ha). left. by exists x.
    + destruct (contains p x) eqn:Hc.
      * left. eapply contains_covers; [exact Hp| |exact Hc|done]. by apply (wf_canonical l).
      * right. exists x. by rewrite Hl1.
Qed.

Lemma add_all_correct ps l : wf l → Forall canonical ps →
  ∃ l', add_all (mk_ipset l) ps = Some (mk_ipset l') ∧ wf l' ∧
    ∀ a, den l' a ↔ den l a ∨ den ps a.
Proof.
  intros H Hps. revert l H. induction Hps as [|p ps Hp Hps IH]; intros l H; simpl.
  - exists l. split_and!; try done. intros a. unfold den. set_solver.
  - destruct (add_correct l p H Hp) as (l1 & -> & H1 & D1). simpl.
    destruct (IH l1 H1) as (l2 & -> & H2 & D2). exists l2. split_and!; try done.
    intros a. rewrite D2, D1. unfold den. set_solver.
Qed.

(** A well-formed set is determined by its addresses. *)
Lemma wf_unique l1 l2 : wf l1 → wf l2 → (∀ a, den l1 a ↔ den l2 a) → l1 = l2.
Proof.
  intros H1 H2 Hd.
  assert (∀ l l', wf l → wf l' → (∀ a, den l a ↔ den l' a) → ∀ x, x ∈ l → x ∈ l') as Hsub.
  { intros l l' Hl Hl' Heq x Hx. pose proof (wf_canonical _ Hl x Hx) as Hxc.
    destruct (covered_contained l' x Hl' Hxc) as (q & Hq & Hqx).
    { intros a Ha. apply Heq. by exists x. }
    pose proof (wf_canonical _ Hl' q Hq) as Hqc.
    destruct (covered_contained l q Hl Hqc) as (y & Hy & Hyq).
    { intros a Ha. apply Heq. by exists q. }
    pose proof (wf_canonical _ Hl y Hy) as Hyc.
    assert (y = x) as ->.
    { apply (wf_antichain _ Hl); [done..|]. by eapply (contains_trans y q x). }
    by rewrite (contains_antisym x q). }
  apply (bset_ext prefix_cmp); [apply H1|apply H2|]. intros x. split; eapply Hsub; eauto.
  intros a. symmetry. apply Hd.
Qed.

Lemma wf_singleton p : canonical p → wf [p].
Proof.
  intros Hp. change [p] with (bset_insert prefix_cmp p []). apply wf_insert; [apply wf_nil|done|..].
  - intros x Hx. by inversion Hx.
  - intros q _ Hq. by inversion Hq.
Qed.

Lemma ipset_has l p (Hwf : wf l) (Hp : canonical p) :
  contains_prefix (mk_ipset l) p = true ↔ ∀ a, covers p a → den l a.
Proof.
  rewrite contains_prefix_iff by done. split.
  - intros (q & Hq & Hc) a Ha. exists q. split; [done|].
    eapply contains_covers; [| |exact Hc|exact Ha]; [by eapply wf_canonical|done].
  - by apply covered_contained.
Qed.

(** Membership in an [IpSet] is inclusion of addresses: a prefix is reported as
    contained exactly when the set has every address of it, also when these come
    from prefixes added one by one. *)
Theorem ipset_contains_spec l p (Hwf : wf l) (Hp : canonical p) :
  contains_prefix (mk_ipset l) p = true ↔ ∀ a, covers p a → den l a.
Proof. by apply ipset_has. Qed.

(** C31: [IpSet::add] computes the union: it terminates without a panic, keeps the set
    sorted, free of overlaps and fully aggregated, and the addresses afterwards
    are those of the set and those of the prefix. *)
Theorem ipset_add_spec l p (Hwf : wf l) (Hp : canonical p) :
  ∃ l', add (mk_ipset l) p = Some (mk_ipset l') ∧ wf l' ∧ ∀ a, den l' a ↔ den l a ∨ covers p a.
Proof. by apply add_correct. Qed.

(** C32: [IpSet::remove] of a prefix that the set has as a whole or not at all computes the
    difference: it terminates without a panic, keeps the set sorted, free of overlaps and
    fully aggregated, and the addresses afterwards are those of the set without those of the
    prefix.  (For a prefix that the set has in part, see [ipset_remove_partial_noop].) *)
Theorem ipset_remove_spec l p (Hwf : wf l) (Hp : canonical p)
    (Hwhole : (∀ a, covers p a → den l a) ∨ (∀ a, covers p a → ¬ den l a)) :
  ∃ l', remove (mk_ipset l) p = Some (mk_ipset l') ∧ wf l' ∧ ∀ a, den l' a ↔ den l a ∧ ¬ covers p a.
Proof.
  unfold remove. destruct (get_containing_prefix (mk_ipset l) p) as [c|] eqn:E.
  2: { exists l. split_and!; [done..|]. destruct Hwhole as [Hin|Hout]; [|intros a; specialize (Hout a); tauto].
       apply ipset_has in Hin; [|done..]. unfold contains_prefix in Hin. by rewrite E in Hin. }
  apply get_containing_prefix_spec in E as [Hc Hcp]; [|done..].
  pose proof (wf_canonical _ Hwf c Hc) as Hcc. cbn [included_prefixes].
  assert (∀ a, den (bset_remove prefix_cmp c l) a ↔ den l a ∧ ¬ covers c a) as Hden
    by (intros; by apply den_remove).
  destruct (fragment_spec (S (Z.to_nat (width (family c) - plen c))) c p (bset_remove prefix_cmp c l))
    as (l' & -> & Hw & Hd); [by apply wf_remove|done|done| |done|lia|].
  { apply disjoint_fresh; [by apply wf_remove|done|]. intros a Ha Hx%Hden. tauto. }
  exists l'. split_and!; try done. intros a. rewrite Hd, Hden.
  pose proof (proj1 (contains_covers c p Hcc Hp) Hcp a).
  assert (covers c a → den l a) by (intros; by exists c).
  destruct (decide (covers c a)); tauto.
Qed.

(** Removing a prefix that the set has only in part removes nothing: every address the
    set shares with the prefix is still there, although the operation is documented
    to remove the address space of the prefix. *)
Theorem ipset_remove_partial_noop l p a (Hwf : wf l) (Hp : canonical p)
    (Hin : den l a) (Ha : covers p a) (Hpart : contains_prefix (mk_ipset l) p = false) :
  ∃ s', remove (mk_ipset l) p = Some s' ∧ den (included_prefixes s') a.
Proof.
  unfold remove, contains_prefix in *. destruct (get_containing_prefix _ p); [done|].
  by exists (mk_ipset l).
Qed.

(** C36: [aggregate_prefixes] is canonical: it returns for every list of prefixes, the
    result covers exactly the addresses of the list without overlap or siblings,
    and two lists that cover the same addresses give the same result. *)
Theorem aggregate_prefixes_canonical ps qs (Hps : Forall canonical ps) (Hqs : Forall canonical qs) :
  ∃ l l', aggregate_prefixes ps = Some l ∧ aggregate_prefixes qs = Some l' ∧ wf l ∧
    (∀ a, den l a ↔ den ps a) ∧ (l = l' ↔ ∀ a, den ps a ↔ den qs a).
Proof.
  unfold aggregate_prefixes, from_iter.
  destruct (add_all_correct ps [] wf_nil Hps) as (l & El & Hl & Dl).
  destruct (add_all_correct qs [] wf_nil Hqs) as (l' & El' & Hl' & Dl').
  unfold new_empty. rewrite El, El'. exists l, l'.
  assert (∀ a, ¬ den [] a) as Hnil by (intros a (x & Hx & _); by inversion Hx).
  assert (∀ a, den l a ↔ den ps a) as D1 by (intros a; rewrite Dl; specialize (Hnil a); tauto).
  assert (∀ a, den l' a ↔ den qs a) as D2 by (intros a; rewrite Dl'; specialize (Hnil a); tauto).
  split_and!; try done. split.
  - intros <- a. by rewrite <-D1, D2.
  - intros Heq. apply wf_unique; [done..|]. intros a. by rewrite D1, D2.
Qed.
End Facts.

(** ** Instances *)

(** An IPv4 prefix of the reference networks. *)
Definition ref_v4 (a len : Z) : @IpPrefix ref_ipnet4 ref_ipnet6 :=
  V4 (I4 := ref_ipnet4) (I6 := ref_ipnet6) (mk_prefix (I := ref_ipnet4) (ref_net 32 ltac:(lia) a len)).

(** 10.0.0.0/24, 10.0.0.0/25, 10.0.1.0/24 and 10.0.0.0/23 *)
Definition net_24 := ref_v4 167772160 24.
Definition net_25 := ref_v4 167772160 25.
Definition net_24' := ref_v4 167772416 24.
Definition net_23 := ref_v4 167772160 23.

Lemma ipset_contains_spec_witness :
  contains_prefix (mk_ipset [net_24]) net_25 = true ∧ (∀ a, covers net_25 a → den [net_24] a).
Proof.
  split; [vm_compute; reflexivity|].
  apply (ipset_contains_spec [net_24] net_25).
  - apply wf_singleton. vm_compute. reflexivity.
  - vm_compute. reflexivity.
  - vm_compute. reflexivity.
Defined.

Lemma ipset_add_spec_witness :
  ∃ l', add (mk_ipset [net_24]) net_24' = Some (mk_ipset l') ∧ wf l' ∧
    ∀ a, den l' a ↔ den [net_24] a ∨ covers net_24' a.
Proof.
  apply (ipset_add_spec [net_24] net_24').
  - apply wf_singleton. vm_compute. reflexivity.
  - vm_compute. reflexivity.
Defined.

Lemma ipset_remove_spec_witness :
  ∃ l', remove (mk_ipset [net_24]) net_25 = Some (mk_ipset l') ∧
    ∀ a, den l' a ↔ den [net_24] a ∧ ¬ covers net_25 a.
Proof.
  destruct (ipset_remove_spec [net_24] net_25) as (l' & E & _ & H).
  - apply wf_singleton. vm_compute. reflexivity.
  - vm_compute. reflexivity.
  - left. apply ipset_has; [apply wf_singleton|..]; vm_compute; reflexivity.
  - exists l'. split; [exact E|exact H].
Defined.

Lemma ipset_remove_partial_noop_witness :
  ∃ s', remove (mk_ipset [net_24]) net_23 = Some s' ∧
        den (included_prefixes s') (false, 167772160).
Proof.
  apply (ipset_remove_partial_noop [net_24] net_23 (false, 167772160)).
  - apply wf_singleton. vm_compute. reflexivity.
  - vm_compute. reflexivity.
  - exists net_24. split; [left; reflexivity|]. vm_compute. repeat split; discriminate.
  - vm_compute. repeat split; discriminate.
  - vm_compute. reflexivity.
Defined.

Lemma aggregate_prefixes_canonical_witness :
  ∃ l l', aggregate_prefixes [net_24'; net_25; net_24] = Some l ∧
          aggregate_prefixes [net_23] = Some l' ∧
          (l = l' ↔ ∀ a, den [net_24'; net_25; net_24] a ↔ den [net_23] a).
Proof.
  destruct (aggregate_prefixes_canonical [net_24'; net_25; net_24] [net_23])
    as (l & l' & E & E' & _ & _ & H).
  - repeat constructor; vm_compute; reflexivity.
  - repeat constructor; vm_compute; reflexivity.
  - exists l, l'. split; [exact E|]. split; [exact E'|exact H].
Defined.
