(* ===== verification/IpAllocator.v ===== *)
(** * The allocator of addresses ([crates/api-db/src/ip_allocator.rs])

    An [IpAllocator] walks over the prefixes of a network segment and finds in each
    the lowest free subnet of a requested length.  The file models the list of
    networks that count as allocated, its collapsing, the search and the count of
    free addresses, at the integer widths of the source: a panic of its arithmetic is
    [None] or [SearchPanic].

    The search has binary fuel for one step more than there are candidates;
    [Unfinished] would be its end, which the theorems exclude. *)

From S2P Require Import Prelude Ordered IpNetwork.

Inductive AddressSelectionStrategy :=
| NextAvailableIp
| Automatic
| NextAvailablePrefix (len : Z)
| StaticAddress (a : bool * Z).

Inductive DatabaseError :=
| Internal (msg : string)
| NetworkError (e : string)
| PrefixExhausted (ip : bool * Z).

(** ** Counts of addresses *)

Inductive AddressCount :=
| Count (n : Z)
| FullIpv6Space.

Definition count_add (a b : AddressCount) : AddressCount :=
  match a, b with
  | Count x, Count y => if x + y <=? u128_max then Count (x + y) else FullIpv6Space
  | _, _ => FullIpv6Space
  end.

Definition free_after (total allocated : AddressCount) : result DatabaseError Z :=
  match total, allocated with
  | Count total, Count allocated => Ok (saturating_sub total allocated)
  | _, FullIpv6Space => Ok 0
  | FullIpv6Space, Count allocated =>
      if allocated =? 0
      then Err (Internal "an unallocated IPv6 /0 free-address count does not fit in u128")
      else Ok (u128_max - (allocated - 1))
  end.

Section IpAllocator.
Context `{I : IpNetworks} (print_network : IpNetwork → string) (print_error : DatabaseError → string).

Record Prefix := mk_segment_prefix {
  prefix_id : string;
  prefix_net : IpNetwork;
  gateway : option (bool * Z);
  num_reserved : Z;
}.

Record IpAllocator := mk_allocator {
  prefixes : list Prefix;
  used_ips : list IpNetwork;
  address_strategy : AddressSelectionStrategy;
}.

(** The address of a network with its family. *)
Definition network_addr (n : IpNetwork) : bool * Z := (net_v6 n, network n).

(** [IpNetwork::new(addr, addr.address_family().interface_prefix_len())?] *)
Definition interface_network (a : bool * Z) : result DatabaseError IpNetwork :=
  map_err NetworkError (net_make a.1 a.2 (family_bits a.1)).

(** [i32 as usize] *)
Definition as_usize (n : Z) : Z := n mod 2 ^ 64.

Definition build_allocated_networks (p : Prefix) (used : list IpNetwork)
    : result DatabaseError (list IpNetwork) :=
  let net := prefix_net p in
  gateway_nets ←
    match gateway p with
    | Some g => if net_contains_ip net g then (λ n, [n]) <$> interface_network g else Ok []
    | None => Ok []
    end;
  reserved_nets ← mapM (λ a, interface_network (net_v6 net, a))
                    (net_iter_take net (as_usize (num_reserved p)));
  endpoint_nets ←
    (if (if net_v6 net then net_prefix net <? 127 else net_prefix net <? 31)
     then mapM (λ a, interface_network (net_v6 net, a)) [network net; broadcast net]
     else Ok []);
  Ok (gateway_nets ++ reserved_nets ++ endpoint_nets ++
      filter (λ n, net_contains_ip net (network_addr n) = true) used).

(** [sort_by_key(|b| Reverse(b.prefix()))]: the longest prefix first; the sort is
    stable. *)
Definition longer_first (n m : IpNetwork) : Prop := net_prefix m ≤ net_prefix n.

#[export] Instance longer_first_dec : RelDecision longer_first.
Proof. intros n m. unfold longer_first. apply _. Defined.

(** The closure of the fold: insert unless the set has a network that contains the
    first address. *)
Definition collapse_step (acc : list IpNetwork) (n : IpNetwork) : list IpNetwork :=
  if existsb (λ existing, net_contains_ip existing (network_addr n)) acc then acc
  else bset_insert network_cmp n acc.

Definition collapse_allocated_networks (input : list IpNetwork) : list IpNetwork :=
  foldl collapse_step [] (merge_sort longer_first input).

Definition get_network_size (n : IpNetwork) : AddressCount :=
  if net_v6 n
  then if net_prefix n =? 0 then FullIpv6Space else Count (net_num_addresses n)
  else if net_prefix n =? 0 then Count (2 ^ 32) else Count (net_num_addresses n).

Record NetworkDetails := mk_details { base_ip : Z; broadcast_ip : Z; network_size : Z }.

(** [i32 as u128] *)
Definition i32_as_u128 (n : Z) : Z := n mod 2 ^ 128.

(** [1 << k] at the type [i32] *)
Definition i32_shl_one (k : Z) : Z := if k =? 31 then - 2 ^ 31 else 2 ^ k.

(** [32 - prefix_length] and [128 - prefix_length] are subtractions of [u8]; the
    literal that is shifted is an [i32] for IPv4. *)
Definition get_network_details (n : IpNetwork) (prefix_length : Z) : option NetworkDetails :=
  if family_bits (net_v6 n) <? prefix_length then None
  else if net_v6 n then Some (mk_details (network n) (broadcast n) (2 ^ (128 - prefix_length)))
  else Some (mk_details (network n) (broadcast n) (i32_as_u128 (i32_shl_one (32 - prefix_length)))).

(** [current_ip as u32] truncates for IPv4. *)
Definition build_candidate_subnet (n : IpNetwork) (current_ip prefix_length : Z)
    : result DatabaseError IpNetwork :=
  map_err NetworkError
    (net_make (net_v6 n) (if net_v6 n then current_ip else current_ip mod 2 ^ 32) prefix_length).

Inductive Search :=
| Found (c : option IpNetwork)
| SearchErr (e : DatabaseError)
| SearchPanic
| Unfinished.

Definition is_allocated (allocated : list IpNetwork) (candidate : IpNetwork) : bool :=
  existsb (λ a, net_contains_ip a (network_addr candidate) ||
                net_contains_ip candidate (network_addr a)) allocated.

(** One iteration of the search: the next [current_ip] or the end. *)
Definition search_step (seg : IpNetwork) (prefix_length : Z) (allocated : list IpNetwork)
    (d : NetworkDetails) (current_ip : Z) : Z + Search :=
  if current_ip <=? broadcast_ip d then
    match build_candidate_subnet seg current_ip prefix_length with
    | Err e => inr (SearchErr e)
    | Ok candidate =>
        if is_allocated allocated candidate then
          if current_ip + network_size d <=? u128_max then inl (current_ip + network_size d)
          else inr SearchPanic
        else inr (Found (Some candidate))
    end
  else inr (Found None).

Definition search_fuel (d : NetworkDetails) : positive :=
  Z.to_pos ((broadcast_ip d - base_ip d) / network_size d + 2).

Definition next_available_prefix (seg : IpNetwork) (prefix_length : Z)
    (allocated : list IpNetwork) : Search :=
  if prefix_length <=? net_prefix seg then
    SearchErr (Internal ("requested prefix length (" +:+ print_u prefix_length +:+
      ") must be greater than the network segment prefix length (" +:+
      print_u (net_prefix seg) +:+ ")"))
  else
    match get_network_details seg prefix_length with
    | None => SearchPanic
    | Some d =>
        match loop_pos (search_fuel d) (search_step seg prefix_length allocated d) (base_ip d) with
        | inr r => r
        | inl _ => Unfinished
        end
    end.

(** ** The allocator *)

Definition get_allocated (a : IpAllocator) (p : Prefix) : result DatabaseError (list IpNetwork) :=
  collapse_allocated_networks <$> build_allocated_networks p (used_ips a).

Definition num_free (a : IpAllocator) (id : string) : result DatabaseError Z :=
  p ← ok_or (List.find (λ p, String.eqb (prefix_id p) id) (prefixes a))
        (Internal ("network prefix " +:+ id +:+ " is not part of this IP allocator"));
  allocated ← map_err (λ e, Internal ("failed to get_allocated: " +:+ print_error e))
                (get_allocated a p);
  free_after (get_network_size (prefix_net p))
    (foldl count_add (Count 0) (get_network_size <$> allocated)).

(** The end of [next]: the search in a prefix; [None] is a panic. *)
Definition allocate_len (p : Prefix) (allocated : list IpNetwork) (prefix_length : Z)
    : option (result DatabaseError IpNetwork) :=
  match next_available_prefix (prefix_net p) prefix_length allocated with
  | Found None => Some (Err (PrefixExhausted (net_v6 (prefix_net p), net_ip (prefix_net p))))
  | Found (Some n) => Some (Ok n)
  | SearchErr e => Some (Err (Internal ("failed to get next available for prefix: " +:+
                     print_network (prefix_net p) +:+ " (err: " +:+ print_error e +:+ ")")))
  | SearchPanic | Unfinished => None
  end.

(** What [next] yields for a prefix. *)
Definition allocate_from (a : IpAllocator) (p : Prefix) : option (result DatabaseError IpNetwork) :=
  match get_allocated a p with
  | Err e => Some (Err (Internal ("failed to get allocated IPs for prefix: " +:+
                 print_network (prefix_net p) +:+ " (err: " +:+ print_error e +:+ ")")))
  | Ok allocated =>
      match address_strategy a with
      | NextAvailableIp | Automatic =>
          allocate_len p allocated (if net_v6 (prefix_net p) then 128 else 32)
      | NextAvailablePrefix len => allocate_len p allocated len
      | StaticAddress _ =>
          Some (Err (Internal "StaticAddress cannot be allocated by the DHCP allocator"))
      end
  end.

(** [Iterator::next]: the item, and the allocator without its first prefix. *)
Definition next (a : IpAllocator)
    : option (option (string * result DatabaseError IpNetwork)) * IpAllocator :=
  match prefixes a with
  | [] => (Some None, a)
  | p :: rest =>
      let a' := mk_allocator rest (used_ips a) (address_strategy a) in
      ((λ r, Some (prefix_id p, r)) <$> allocate_from a' p, a')
  end.
End IpAllocator.
