(* ===== verification/IpAllocatorFacts.v ===== *)
(** * What the allocator of addresses guarantees

    The search returns the lowest free subnet of the requested length; the allocator
    hands out nothing that is in use, and counts the free addresses exactly, as long
    as the networks in use do not overlap each other.  When they do, collapsing them
    loses addresses in use. *)

From S2P Require Import Prelude Ordered IpNetwork IpAllocator.

Section Facts.
Context `{I : IpNetworks}.
Implicit Types n m c u seg : IpNetwork.

(** ** Networks as blocks of addresses *)

(** The network has the address. *)
Definition has_addr n (a : bool * Z) : Prop :=
  net_v6 n = a.1 ∧ network n ≤ a.2 ≤ broadcast n.

(** The networks share an address. *)
Definition overlaps n m : Prop :=
  net_v6 n = net_v6 m ∧ network n ≤ broadcast m ∧ network m ≤ broadcast n.

(** The networks have the same addresses. *)
Definition same_block n m : Prop :=
  net_v6 n = net_v6 m ∧ network n = network m ∧ net_prefix n = net_prefix m.

Lemma net_contains_ip_iff n a : net_contains_ip n a = true ↔ has_addr n a.
Proof.
  rewrite net_contains_ip_spec, !andb_true_iff, bool_decide_eq_true, !Z.leb_le.
  unfold has_addr. tauto.
Qed.

Lemma broadcast_ge n : network n ≤ broadcast n.
Proof. rewrite broadcast_size. pose proof (net_size_pos n). lia. Qed.

(** Two networks overlap iff one has the first address of the other. *)
Lemma overlaps_first n m :
  overlaps n m ↔ has_addr n (network_addr m) ∨ has_addr m (network_addr n).
Proof.
  unfold overlaps, has_addr, network_addr. simpl.
  pose proof (broadcast_ge n). pose proof (broadcast_ge m).
  split; [|intuition (congruence || lia)]. intros (E & ? & ?).
  destruct (Z.le_ge_cases (network n) (network m)); [left|right]; split_and!; (congruence || lia).
Qed.

Lemma overlaps_sym n m : overlaps n m → overlaps m n.
Proof. unfold overlaps. intuition congruence. Qed.

Lemma is_allocated_iff allocated c :
  is_allocated allocated c = true ↔ ∃ a, a ∈ allocated ∧ overlaps a c.
Proof.
  unfold is_allocated. rewrite existsb_exists. split.
  - intros (a & Ha & E). exists a. split; [by apply list_elem_of_In|].
    rewrite orb_true_iff, !net_contains_ip_iff in E. by apply overlaps_first.
  - intros (a & Ha & E). exists a. split; [by apply list_elem_of_In|].
    rewrite orb_true_iff, !net_contains_ip_iff. by apply overlaps_first.
Qed.

Lemma net_size_pow n : net_size n = 2 ^ (family_bits (net_v6 n) - net_prefix n).
Proof. done. Qed.

(** A network that overlaps a network with a shorter or equal prefix lies in it. *)
Lemma overlaps_nested n m : overlaps n m → net_prefix n ≤ net_prefix m →
  network n ≤ network m ∧ broadcast m ≤ broadcast n.
Proof.
  intros (Hf & H1 & H2) Hp. rewrite !broadcast_size in *.
  pose proof (net_prefix_range n). pose proof (net_prefix_range m).
  pose proof (network_aligned n) as An. pose proof (network_aligned m) as Am.
  assert (net_size n = net_size m * 2 ^ (net_prefix m - net_prefix n)) as E.
  { rewrite !net_size_pow, Hf, <-Z.pow_add_r by (rewrite ?Hf in *; lia). f_equal. lia. }
  rewrite E in *.
  destruct (blocks_nested_or_disjoint (network n) (network m) (net_size m)
              (2 ^ (net_prefix m - net_prefix n))) as [|[|]]; [apply net_size_pos| |done|done|lia..].
  apply pow2_pos. lia.
Qed.

(** ** The search *)

(** The subnets of length [len] of a network. *)
Definition subnet_of seg len c : Prop :=
  net_v6 c = net_v6 seg ∧ net_prefix c = len ∧ network c = net_ip c ∧
  network seg ≤ network c ∧ broadcast c ≤ broadcast seg.

Section Search.
Context seg (len : Z) (allocated : list IpNetwork).
Hypothesis Hlen : net_prefix seg < len ≤ family_bits (net_v6 seg).

Let size := 2 ^ (family_bits (net_v6 seg) - len).

Lemma search_size_pos : 0 < size.
Proof. apply pow2_pos. lia. Qed.

(** For IPv4 the shifted literal fits its type from length 2 on. *)
Lemma get_network_details_spec : (net_v6 seg = false → 2 ≤ len) →
  get_network_details seg len = Some (mk_details (network seg) (broadcast seg) size).
Proof.
  intros Hshift. unfold get_network_details, size. rewrite (proj2 (Z.ltb_ge _ _)) by lia.
  destruct (net_v6 seg) eqn:Hv; [done|]. do 2 f_equal. unfold i32_as_u128, i32_shl_one.
  specialize (Hshift eq_refl). pose proof (net_prefix_range seg). cbn [family_bits] in *.
  rewrite (proj2 (Z.eqb_neq _ _)) by lia. apply Z.mod_small. split; [apply Z.pow_nonneg; lia|].
  apply Z.pow_lt_mono_r; lia.
Qed.

(** The segment is a whole number of candidates. *)
Lemma segment_candidates :
  net_size seg = size * 2 ^ (len - net_prefix seg) ∧ network seg mod size = 0.
Proof.
  pose proof (net_prefix_range seg). pose proof search_size_pos.
  assert (net_size seg = size * 2 ^ (len - net_prefix seg)) as E.
  { rewrite net_size_pow. unfold size. rewrite <-Z.pow_add_r by lia. f_equal. lia. }
  split; [done|]. pose proof (network_aligned seg) as Ha. rewrite E in Ha.
  pose proof (pow2_pos (len - net_prefix seg) ltac:(lia)).
  apply aligned_mul in Ha; [|nia]. rewrite Ha.
  rewrite (Z.mul_comm size), Z.mul_assoc. by apply Z_mod_mult.
Qed.

(** The candidate at an aligned address of the segment. *)
Lemma candidate_spec i : 0 ≤ i < 2 ^ (len - net_prefix seg) →
  ∃ c, build_candidate_subnet seg (network seg + i * size) len = Ok c ∧ subnet_of seg len c ∧
       network c = network seg + i * size.
Proof.
  intros Hi. destruct segment_candidates as [Es Ha]. pose proof search_size_pos.
  pose proof (network_bounds seg) as [H0 Htop]. pose proof (net_prefix_range seg).
  assert (0 ≤ network seg + i * size < 2 ^ family_bits (net_v6 seg)) as Hr by nia.
  unfold build_candidate_subnet.
  assert ((if net_v6 seg then network seg + i * size else (network seg + i * size) mod 2 ^ 32) =
          network seg + i * size) as ->.
  { destruct (net_v6 seg); [done|]. by apply Z.mod_small. }
  destruct (net_make_ok (net_v6 seg) (network seg + i * size) len Hr ltac:(lia))
    as (c & -> & Hv & Hip & Hp).
  assert (net_size c = size) as Hs by (rewrite net_size_pow, Hv, Hp; done).
  assert (network c = net_ip c) as Hn.
  { apply network_of_aligned. rewrite Hs, Hip, Z.mod_add by lia. done. }
  exists c. split; [done|]. split; [|lia]. unfold subnet_of.
  rewrite !broadcast_size, Hs, Es, Hn, Hip. split_and!; try done; nia.
Qed.

(** Every subnet is one of the candidates. *)
Lemma subnet_is_candidate c : subnet_of seg len c →
  ∃ i, 0 ≤ i < 2 ^ (len - net_prefix seg) ∧ network c = network seg + i * size.
Proof.
  intros (Hv & Hp & Hn & H1 & H2). destruct segment_candidates as [Es Ha].
  pose proof search_size_pos as Hs. pose proof (network_aligned c) as Hc.
  assert (net_size c = size) as Esc by (rewrite net_size_pow, Hv, Hp; done).
  rewrite !broadcast_size, Esc, Es in H2. rewrite Esc in Hc.
  apply aligned_mul in Ha, Hc; [|done..].
  exists (network c / size - network seg / size). split; [|nia].
  set (x := network c / size) in *. set (y := network seg / size) in *. clearbody x y.
  rewrite Ha, Hc in *. set (k := 2 ^ (len - net_prefix seg)) in *. clearbody k. nia.
Qed.

Lemma subnet_unique c c' : subnet_of seg len c → subnet_of seg len c' →
  network c = network c' → c = c'.
Proof. intros (? & ? & ? & _) (? & ? & ? & _) ?. apply network_ext; congruence. Qed.

(** What the search has established before candidate [i]. *)
Definition searched (i : Z) : Prop :=
  ∀ c, subnet_of seg len c → network c < network seg + i * size → ∃ a, a ∈ allocated ∧ overlaps a c.

Definition search_post (r : Search) : Prop :=
  match r with
  | Found (Some c) =>
      subnet_of seg len c ∧ (∀ a, a ∈ allocated → ¬ overlaps a c) ∧
      ∀ c', subnet_of seg len c' → network c' < network c → ∃ a, a ∈ allocated ∧ overlaps a c'
  | Found None => ∀ c, subnet_of seg len c → ∃ a, a ∈ allocated ∧ overlaps a c
  | SearchPanic =>
      net_v6 seg = true ∧ broadcast seg = u128_max ∧
      ∀ c, subnet_of seg len c → ∃ a, a ∈ allocated ∧ overlaps a c
  | SearchErr _ | Unfinished => False
  end.

Let details := mk_details (network seg) (broadcast seg) size.
Let num := 2 ^ (len - net_prefix seg).

Lemma searched_all c : searched num → subnet_of seg len c → ∃ a, a ∈ allocated ∧ overlaps a c.
Proof.
  intros H Hc. destruct (subnet_is_candidate c Hc) as (i & Hi & Ei). apply H; [done|].
  pose proof search_size_pos. unfold num. nia.
Qed.

(** One iteration: it exits correctly, or establishes one candidate more. *)
Lemma search_step_spec i : 0 ≤ i ≤ num → searched i →
  match search_step seg len allocated details (network seg + i * size) with
  | inl ip => i < num ∧ ip = network seg + (i + 1) * size ∧ searched (i + 1)
  | inr r => search_post r
  end.
Proof.
  intros Hi Hdone. destruct segment_candidates as [Es _]. pose proof search_size_pos as Hs.
  pose proof (network_bounds seg) as [H0 Htop]. pose proof (broadcast_size seg) as Hb.
  unfold search_step. cbn [broadcast_ip network_size details]. fold num in Es.
  destruct (Z.leb_spec (network seg + i * size) (broadcast seg)) as [Hle|Hgt].
  2:{ assert (i = num) as -> by nia. intros c Hc. by apply searched_all. }
  assert (i < num) as Hlt by nia.
  destruct (candidate_spec i ltac:(unfold num in *; lia)) as (c & -> & Hc & Hnc).
  destruct (is_allocated allocated c) eqn:Ha.
  - assert (searched (i + 1)) as Hnext.
    { intros c' Hc' Hn'. destruct (Z.lt_ge_cases (network c') (network seg + i * size)) as [|Hge].
      { by apply Hdone. }
      destruct (subnet_is_candidate c' Hc') as (j & Hj & Ej).
      assert (i = j) as <- by nia.
      rewrite (subnet_unique c' c) by (done || lia). by apply is_allocated_iff. }
    destruct (Z.leb_spec (network seg + i * size + size) u128_max) as [|Hover].
    { split_and!; [done|lia|done]. }
    simpl. unfold u128_max in Hover |- *.
    assert (net_v6 seg = true) as Hv.
    { apply not_false_is_true. intros Hv. rewrite Hv in Htop. cbn [family_bits] in Htop.
      assert (2 ^ 32 < 2 ^ 128) by done. nia. }
    rewrite Hv in Htop. cbn [family_bits] in Htop.
    assert (i + 1 = num) as E by nia. rewrite E in Hnext. split_and!; [done|nia|].
    intros c' Hc'. by apply searched_all.
  - split_and!; [done| |].
    + intros a Hin Ho. assert (is_allocated allocated c = true) by (apply is_allocated_iff; eauto).
      congruence.
    + intros c' Hc' Hn'. apply Hdone; [done|lia].
Qed.

Lemma search_loop fuel i : 0 ≤ i ≤ num → searched i → num - i < Z.of_nat fuel →
  ∃ r, loop_nat fuel (search_step seg len allocated details) (network seg + i * size) = inr r ∧
       search_post r.
Proof.
  revert i. induction fuel as [|fuel IH]; intros i Hi Hd Hf; [lia|]. simpl.
  pose proof (search_step_spec i Hi Hd) as Hstep.
  destruct (search_step _ _ _ _ _) as [ip|r]; [|by eauto].
  destruct Hstep as (Hlt & -> & Hd'). apply IH; [lia|done|lia].
Qed.

Lemma next_available_prefix_post : (net_v6 seg = false → 2 ≤ len) →
  search_post (next_available_prefix seg len allocated).
Proof.
  intros Hshift.
  unfold next_available_prefix. rewrite (proj2 (Z.leb_gt _ _)) by lia.
  rewrite get_network_details_spec by done. destruct segment_candidates as [Es _].
  pose proof search_size_pos as Hs. pose proof (broadcast_size seg) as Hb.
  pose proof (pow2_pos (len - net_prefix seg) ltac:(lia)) as Hn. fold num in Hn, Es.
  assert ((broadcast seg - network seg) / size = num - 1) as Eq.
  { rewrite Hb, Es. symmetry. apply (Z.div_unique _ _ _ (size - 1)); nia. }
  rewrite loop_pos_nat. cbn [base_ip].
  destruct (search_loop (Pos.to_nat (search_fuel details)) 0) as (r & Er & Hr); [lia| | |].
  - intros c (_ & _ & _ & Hc & _) Hlt. lia.
  - unfold search_fuel. cbn [broadcast_ip base_ip network_size details]. rewrite Eq.
    rewrite positive_nat_Z, Z2Pos.id; lia.
  - rewrite Z.mul_0_l, Z.add_0_r in Er. fold details. by rewrite Er.
Qed.
End Search.

(** ** Collapsing *)

(** Networks that overlap have the same addresses. *)
Definition separate (nets : list IpNetwork) : Prop :=
  ∀ x y, x ∈ nets → y ∈ nets → overlaps x y → same_block x y.

Lemma same_block_size n m : same_block n m → net_size n = net_size m.
Proof. intros (Hv & _ & Hp). by rewrite !net_size_pow, Hv, Hp. Qed.

Lemma same_block_addr n m a : same_block n m → has_addr n a ↔ has_addr m a.
Proof.
  intros H. unfold has_addr. rewrite !broadcast_size, (same_block_size n m H).
  destruct H as (-> & -> & _). done.
Qed.

Lemma same_block_refl n : same_block n n.
Proof. done. Qed.

Lemma overlaps_addr n m : overlaps n m ↔ ∃ a, has_addr n a ∧ has_addr m a.
Proof.
  split.
  - intros (Hv & H1 & H2). pose proof (broadcast_ge n). pose proof (broadcast_ge m).
    exists (net_v6 n, Z.max (network n) (network m)). unfold has_addr. simpl.
    split_and!; (congruence || lia).
  - intros ([v a] & [Hn ?] & [Hm ?]). unfold overlaps. simpl in *. split_and!; (congruence || lia).
Qed.

Lemma same_block_overlaps n m : same_block n m → overlaps n m.
Proof.
  intros H. apply overlaps_addr. exists (network_addr n).
  assert (has_addr n (network_addr n)).
  { split; simpl; [done|]. pose proof (broadcast_ge n). lia. }
  split; [done|]. by apply (same_block_addr n m).
Qed.

(** What the fold over sorted networks maintains. *)
Record collapsed (seen acc : list IpNetwork) : Prop := {
  collapsed_sorted : bset_sorted network_cmp acc;
  collapsed_subset x : x ∈ acc → x ∈ seen;
  collapsed_covers x : x ∈ seen → ∃ y, y ∈ acc ∧ same_block y x;
  collapsed_disjoint x y : x ∈ acc → y ∈ acc → overlaps x y → x = y;
}.

Lemma collapse_step_spec seen acc n : separate (n :: seen) → collapsed seen acc →
  collapsed (n :: seen) (collapse_step acc n).
Proof.
  intros Hsep [Hs Hsub Hcov Hdis]. unfold collapse_step.
  destruct (existsb _ acc) eqn:E.
  - apply existsb_exists in E as (e & He & Hc%net_contains_ip_iff). apply list_elem_of_In in He.
    split; [done|by right; auto| |done]. intros x [->|Hx]%elem_of_cons; [|by auto].
    exists e. split; [done|]. apply Hsep; [right; auto|by left|]. apply overlaps_first. by left.
  - assert (∀ e, e ∈ acc → ¬ overlaps e n) as Hno.
    { intros e He Ho. assert (same_block e n) as Hb by (apply Hsep; [right; auto|by left|done]).
      apply not_true_iff_false in E. apply E, existsb_exists. exists e.
      split; [by apply list_elem_of_In|]. apply net_contains_ip_iff.
      apply (same_block_addr e n _ Hb). split; simpl; [done|]. pose proof (broadcast_ge n). lia. }
    split; [by apply (bset_insert_sorted network_cmp)|..].
    + intros x [->|Hx]%(bset_elem_of_insert network_cmp); [by left|right; auto].
    + intros x [->|Hx]%elem_of_cons.
      * exists n. split; [|done]. apply (bset_elem_of_insert network_cmp). by left.
      * destruct (Hcov x Hx) as (y & Hy & Hb). exists y. split; [|done].
        apply (bset_elem_of_insert network_cmp). by right.
    + intros x y [->|Hx]%(bset_elem_of_insert network_cmp)
        [->|Hy]%(bset_elem_of_insert network_cmp) Ho; [done| | |by auto].
      * destruct (Hno y Hy). by apply overlaps_sym.
      * by destruct (Hno x Hx).
Qed.

Lemma separate_proper nets nets' :
  (∀ x, x ∈ nets ↔ x ∈ nets') → separate nets → separate nets'.
Proof. intros H Hs x y Hx Hy. apply Hs; by apply H. Qed.

Lemma collapse_spec input : separate input →
  collapsed input (collapse_allocated_networks input).
Proof.
  intros Hsep. unfold collapse_allocated_networks.
  pose proof (merge_sort_Permutation longer_first input) as Hperm.
  assert (∀ l seen acc, separate (l ++ seen) → collapsed seen acc →
            collapsed (rev l ++ seen) (foldl collapse_step acc l)) as Hfold.
  { induction l as [|n l IH]; intros seen acc Hs Hc; [done|]. simpl.
    rewrite <-app_assoc. apply IH.
    - eapply separate_proper; [|exact Hs]. intros x. set_solver.
    - apply collapse_step_spec; [|done]. intros x y Hx Hy. apply Hs; set_solver. }
  assert (∀ x, x ∈ rev (merge_sort longer_first input) ++ [] ↔ x ∈ input) as Heq.
  { intros x. by rewrite app_nil_r, <-Permutation_rev, Hperm. }
  destruct (Hfold (merge_sort longer_first input) [] []) as [H1 H2 H3 H4].
  - eapply separate_proper; [|exact Hsep]. intros x. rewrite app_nil_r. by rewrite Hperm.
  - split; [constructor|set_solver..].
  - split; [done|..|done].
    + intros x Hx. by apply Heq, H2.
    + intros x Hx. by apply H3, Heq.
Qed.

(** ** The networks that count as allocated *)

(** The addresses of a prefix that are never handed out: the gateway, the first
    [num_reserved] ones, and the first and last one of a prefix that has more. *)
Definition reserved_addr (p : Prefix) (a : Z) : Prop :=
  let net := prefix_net p in
  (gateway p = Some (net_v6 net, a) ∧ network net ≤ a ≤ broadcast net) ∨
  network net ≤ a < network net + Z.min (as_usize (num_reserved p)) (net_size net) ∨
  net_prefix net < family_bits (net_v6 net) - 1 ∧ (a = network net ∨ a = broadcast net).

(** The network of a single address. *)
Definition is_interface n (a : bool * Z) : Prop :=
  net_v6 n = a.1 ∧ net_ip n = a.2 ∧ net_prefix n = family_bits a.1.

Lemma interface_network_spec a : 0 ≤ a.2 < 2 ^ family_bits a.1 →
  ∃ n, interface_network a = Ok n ∧ is_interface n a.
Proof.
  intros Ha. unfold interface_network.
  destruct (net_make_ok a.1 a.2 (family_bits a.1) Ha) as (n & -> & H); [by destruct a.1|].
  by exists n.
Qed.

Lemma is_interface_addr n a b : is_interface n a → has_addr n b ↔ b = a.
Proof.
  intros (Hv & Hi & Hp). unfold has_addr. rewrite broadcast_size, network_spec, net_size_pow.
  rewrite Hv, Hp, Z.sub_diag, Z.pow_0_r, Z.mod_1_r, Hi. destruct a as [v x], b as [w y]. simpl.
  split; [intros [-> ?]; f_equal; lia|intros [= -> ->]; split; [done|lia]].
Qed.

Lemma segment_addr_range n a : network n ≤ a ≤ broadcast n → 0 ≤ a < 2 ^ family_bits (net_v6 n).
Proof. rewrite broadcast_size. pose proof (network_bounds n). lia. Qed.

(** A list of addresses of the segment becomes a list of interface networks. *)
Lemma interface_networks_spec n l : (∀ a, a ∈ l → network n ≤ a ≤ broadcast n) →
  ∃ nets, mapM (λ a, interface_network (net_v6 n, a)) l = Ok nets ∧
    (∀ x, x ∈ nets → ∃ a, a ∈ l ∧ is_interface x (net_v6 n, a)) ∧
    (∀ a, a ∈ l → ∃ x, x ∈ nets ∧ is_interface x (net_v6 n, a)).
Proof.
  intros Hl.
  assert (∀ a, a ∈ l → ∃ x, interface_network (net_v6 n, a) = Ok x ∧ is_interface x (net_v6 n, a))
    as Hmake by (intros a Ha; by apply interface_network_spec, segment_addr_range, Hl).
  destruct (result_mapM_total (λ a, interface_network (net_v6 n, a)) l) as [nets E].
  { intros a Ha. destruct (Hmake a Ha) as (x & ? & _). by exists x. }
  exists nets. split; [done|]. apply result_mapM_ok in E. split.
  - intros x [k Hk]%list_elem_of_lookup. destruct (Forall2_lookup_r _ _ _ _ _ E Hk) as (a & Ha & Ea).
    apply list_elem_of_lookup_2 in Ha. destruct (Hmake a Ha) as (x' & Ex & Hx). exists a. split; [done|].
    rewrite Ea in Ex. by injection Ex as <-.
  - intros a Ha. destruct (Hmake a Ha) as (x & Ex & Hx). exists x. split; [|done].
    apply list_elem_of_lookup in Ha as [k Hk].
    destruct (Forall2_lookup_l _ _ _ _ _ E Hk) as (x' & Hx' & Ex'). rewrite Ex in Ex'.
    injection Ex' as <-. by eapply list_elem_of_lookup_2.
Qed.

(** A list of networks is that of the single addresses that satisfy [P]. *)
Definition interfaces_of net (P : Z → Prop) (nets : list IpNetwork) : Prop :=
  (∀ x, x ∈ nets → ∃ a, P a ∧ is_interface x (net_v6 net, a)) ∧
  (∀ a, P a → ∃ x, x ∈ nets ∧ is_interface x (net_v6 net, a)).

Lemma gateway_networks_spec p (net := prefix_net p) :
  ∃ nets,
    match gateway p with
    | Some g => if net_contains_ip net g then (λ n, [n]) <$> interface_network g else Ok []
    | None => Ok []
    end = Ok nets ∧
    interfaces_of net (λ a, gateway p = Some (net_v6 net, a) ∧ network net ≤ a ≤ broadcast net) nets.
Proof.
  destruct (gateway p) as [[v g]|]; [|exists []; split; [done|]; split; [set_solver|naive_solver]].
  destruct (net_contains_ip net (v, g)) eqn:E.
  - apply net_contains_ip_iff in E as [Ev Eg]. simpl in *. subst v.
    destruct (interface_network_spec (net_v6 net, g)) as (n & -> & Hn); [by apply segment_addr_range|].
    exists [n]. split; [done|]. split.
    + intros x ->%list_elem_of_singleton. exists g. done.
    + intros a [[= <-] _]. exists n. split; [by left|done].
  - exists []. split; [done|]. split; [set_solver|]. intros a [[= -> ->] Ha].
    apply not_true_iff_false in E. destruct E. by apply net_contains_ip_iff.
Qed.

Lemma endpoint_networks_spec net :
  ∃ nets,
    (if (if net_v6 net then net_prefix net <? 127 else net_prefix net <? 31)
     then mapM (λ a, interface_network (net_v6 net, a)) [network net; broadcast net]
     else Ok []) = Ok nets ∧
    interfaces_of net (λ a, net_prefix net < family_bits (net_v6 net) - 1 ∧
                            (a = network net ∨ a = broadcast net)) nets.
Proof.
  assert ((if net_v6 net then net_prefix net <? 127 else net_prefix net <? 31) =
          (net_prefix net <? family_bits (net_v6 net) - 1)) as -> by (by destruct (net_v6 net)).
  pose proof (broadcast_ge net).
  destruct (Z.ltb_spec (net_prefix net) (family_bits (net_v6 net) - 1)).
  - destruct (interface_networks_spec net [network net; broadcast net]) as (nets & -> & H1 & H2).
    { intros a [->|[->|[]%not_elem_of_nil]%elem_of_cons]%elem_of_cons; lia. }
    exists nets. split; [done|]. split.
    + intros x Hx. destruct (H1 x Hx) as (a & Ha & Hi). exists a. split; [|done]. split; [done|].
      set_solver.
    + intros a [_ Ha]. apply H2. set_solver.
  - exists []. split; [done|]. split; [set_solver|]. intros a [? _]. lia.
Qed.

(** The list is always built; it has the interface networks of the reserved addresses
    and the used networks that start in the prefix. *)
Lemma build_allocated_networks_spec p used :
  ∃ nets, build_allocated_networks p used = Ok nets ∧
    (∀ x, x ∈ nets → (∃ a, reserved_addr p a ∧ is_interface x (net_v6 (prefix_net p), a)) ∨
                     x ∈ used ∧ has_addr (prefix_net p) (network_addr x)) ∧
    (∀ a, reserved_addr p a → ∃ x, x ∈ nets ∧ is_interface x (net_v6 (prefix_net p), a)) ∧
    (∀ x, x ∈ used → has_addr (prefix_net p) (network_addr x) → x ∈ nets).
Proof.
  unfold build_allocated_networks. pose proof (broadcast_size (prefix_net p)) as Hb.
  destruct (gateway_networks_spec p) as (g1 & -> & S1 & T1). cbn [mbind result_bind].
  destruct (interface_networks_spec (prefix_net p) (net_iter_take (prefix_net p) (as_usize (num_reserved p))))
    as (g2 & -> & S2 & T2).
  { intros a. rewrite net_iter_take_spec, elem_of_seqZ. lia. }
  destruct (endpoint_networks_spec (prefix_net p)) as (g3 & -> & S3 & T3). cbn [mbind result_bind].
  assert (∀ a, a ∈ net_iter_take (prefix_net p) (as_usize (num_reserved p)) ↔
    network (prefix_net p) ≤ a < network (prefix_net p) +
      Z.min (as_usize (num_reserved p)) (net_size (prefix_net p))) as Hres.
  { intros a. rewrite net_iter_take_spec, elem_of_seqZ, Hb. lia. }
  eexists. split; [done|]. unfold reserved_addr. split_and!.
  - intros x. rewrite !elem_of_app, list_elem_of_filter, net_contains_ip_iff.
    intros [Hx|[Hx|[Hx|[? Hx]]]]; [| | |by right].
    + destruct (S1 x Hx) as (a & Ha & Hi). left. exists a. eauto.
    + destruct (S2 x Hx) as (a & Ha%Hres & Hi). left. exists a. eauto.
    + destruct (S3 x Hx) as (a & Ha & Hi). left. exists a. eauto.
  - intros a Ha. assert (∃ x, (x ∈ g1 ∨ x ∈ g2 ∨ x ∈ g3) ∧ is_interface x (net_v6 (prefix_net p), a))
      as (x & Hx & Hi).
    { destruct Ha as [Ha|[Ha|Ha]].
      - destruct (T1 a Ha) as (x & ? & ?). eauto.
      - apply Hres in Ha. destruct (T2 a Ha) as (x & ? & ?). eauto.
      - destruct (T3 a Ha) as (x & ? & ?). exists x. eauto. }
    exists x. rewrite !elem_of_app. tauto.
  - intros x Hx Ha. rewrite !elem_of_app, list_elem_of_filter, net_contains_ip_iff. tauto.
Qed.

(** ** Counting *)

#[local] Instance has_addr_dec n a : Decision (has_addr n a).
Proof. unfold has_addr. apply _. Defined.

(** The addresses of the list that a network of [nets] has. *)
Definition covered_in (v6 : bool) (nets : list IpNetwork) (l : list Z) : list Z :=
  filter (λ a, Exists (λ n, has_addr n (v6, a)) nets) l.

Lemma filter_or_length {A} (P Q : A → Prop) `{∀ x, Decision (P x), ∀ x, Decision (Q x)} l :
  (∀ x, P x → ¬ Q x) →
  length (filter (λ x, P x ∨ Q x) l) = (length (filter P l) + length (filter Q l))%nat.
Proof.
  intros Hd. induction l as [|x l IH]; [done|]. rewrite !filter_cons.
  specialize (Hd x). repeat case_decide; simpl; try tauto; lia.
Qed.

Lemma filter_interval_length lo len a size : lo ≤ a → 0 ≤ size → a + size ≤ lo + len →
  Z.of_nat (length (filter (λ x, a ≤ x < a + size) (seqZ lo len))) = size.
Proof.
  intros H1 H2 H3.
  assert (seqZ lo len = seqZ lo (a - lo) ++ seqZ a size ++ seqZ (a + size) (lo + len - a - size)) as ->.
  { rewrite <-(seqZ_app a size) by lia. replace (seqZ a) with (seqZ (lo + (a - lo))) by (f_equal; lia).
    rewrite <-(seqZ_app lo (a - lo)) by lia. f_equal. lia. }
  rewrite !filter_app, (filter_nil_of _ (seqZ lo _)), (filter_id _ (seqZ a _)),
    (filter_nil_of _ (seqZ (a + size) _)); try (intros x; rewrite elem_of_seqZ; lia).
  rewrite app_nil_r. simpl. rewrite length_seqZ. lia.
Qed.

(** Networks inside a segment that do not overlap cover as many addresses as the sum of
    their sizes. *)
Lemma covered_length seg nets : NoDup nets →
  (∀ x y, x ∈ nets → y ∈ nets → overlaps x y → x = y) →
  (∀ x, x ∈ nets → net_v6 x = net_v6 seg ∧ network seg ≤ network x ∧ broadcast x ≤ broadcast seg) →
  Z.of_nat (length (covered_in (net_v6 seg) nets (seqZ (network seg) (net_size seg)))) =
  foldr (λ n acc, net_size n + acc) 0 nets.
Proof.
  unfold covered_in. induction 1 as [|n nets Hn Hnd IH]; intros Hdis Hin.
  { simpl. rewrite filter_nil_of; [done|]. intros x _ H. by inversion H. }
  destruct (Hin n) as (Hv & H1 & H2); [by left|]. simpl.
  rewrite <-IH; [|intros x y Hx Hy; apply Hdis; by right|intros x Hx; apply Hin; by right].
  pose proof (net_size_pos n). rewrite !broadcast_size in H2.
  rewrite <-(filter_interval_length (network seg) (net_size seg) (network n) (net_size n)) by lia.
  rewrite <-Nat2Z.inj_add. f_equal. rewrite <-filter_or_length.
  - f_equal. apply list_filter_iff. intros a. rewrite Exists_cons. unfold has_addr at 1. simpl.
    rewrite broadcast_size, Hv. split; (intros [Ha|Ha]; [left|by right]); [lia|split; [done|lia]].
  - intros a Ha (m & Hm & Hma)%Exists_exists. apply Hn.
    rewrite (Hdis n m); [done|by left|by right|]. apply overlaps_addr. exists (net_v6 seg, a).
    split; [|done]. unfold has_addr. simpl. rewrite broadcast_size. split; [done|lia].
Qed.

(** The number of addresses as a count. *)
Definition as_count (n : Z) : AddressCount := if n <=? u128_max then Count n else FullIpv6Space.

Lemma get_network_size_spec n : get_network_size n = as_count (net_size n).
Proof.
  unfold get_network_size, as_count. pose proof (net_prefix_range n) as Hr.
  rewrite net_size_pow. destruct (net_v6 n) eqn:Hv; cbn [family_bits] in *;
    destruct (Z.eqb_spec (net_prefix n) 0) as [E|E].
  - by rewrite E.
  - rewrite net_num_addresses_spec, Hv by lia. cbn [family_bits].
    rewrite (proj2 (Z.leb_le _ _)); [done|].
    assert (2 ^ (128 - net_prefix n) ≤ 2 ^ 127) by (apply Z.pow_le_mono_r; lia).
    unfold u128_max. assert (2 ^ 127 < 2 ^ 128 - 1) by done. lia.
  - by rewrite E.
  - rewrite net_num_addresses_spec, Hv by lia. cbn [family_bits].
    rewrite (proj2 (Z.leb_le _ _)); [done|].
    assert (2 ^ (32 - net_prefix n) ≤ 2 ^ 32) by (apply Z.pow_le_mono_r; lia).
    unfold u128_max. assert (2 ^ 32 < 2 ^ 128 - 1) by done. lia.
Qed.

Lemma count_add_spec a b : 0 ≤ a → 0 ≤ b → count_add (as_count a) (as_count b) = as_count (a + b).
Proof.
  intros Ha Hb. unfold as_count. destruct (Z.leb_spec a u128_max), (Z.leb_spec b u128_max); simpl;
    [done|..]; rewrite (proj2 (Z.leb_gt _ _)) by lia; done.
Qed.

Lemma count_sum_spec nets acc : 0 ≤ acc →
  foldl count_add (as_count acc) (get_network_size <$> nets) =
  as_count (acc + foldr (λ n acc, net_size n + acc) 0 nets).
Proof.
  revert acc. induction nets as [|n nets IH]; intros acc Ha; csimpl; [by rewrite Z.add_0_r|].
  pose proof (net_size_pos n). rewrite get_network_size_spec, count_add_spec, IH by lia.
  f_equal. lia.
Qed.

Lemma free_after_spec total allocated : 0 ≤ allocated ≤ total → total ≤ 2 ^ 128 →
  0 < allocated ∨ total < 2 ^ 128 →
  free_after (as_count total) (as_count allocated) = Ok (total - allocated).
Proof.
  intros H1 H2 H3. unfold as_count, u128_max.
  destruct (Z.leb_spec total (2 ^ 128 - 1)), (Z.leb_spec allocated (2 ^ 128 - 1)); simpl; try lia.
  - f_equal. unfold saturating_sub. lia.
  - rewrite (proj2 (Z.eqb_neq _ _)) by lia. f_equal. unfold u128_max. lia.
  - f_equal. lia.
Qed.

(** ** The allocator *)

(** The prefix length a strategy asks for. *)
Definition strategy_len (strategy : AddressSelectionStrategy) (v6 : bool) : option Z :=
  match strategy with
  | NextAvailableIp | Automatic => Some (family_bits v6)
  | NextAvailablePrefix len => Some len
  | StaticAddress _ => None
  end.

(** A subnet that must not be handed out. *)
Definition occupied (p : Prefix) (used : list IpNetwork) c : Prop :=
  (∃ a, reserved_addr p a ∧ has_addr c (net_v6 (prefix_net p), a)) ∨
  (∃ u, u ∈ used ∧ has_addr (prefix_net p) (network_addr u) ∧ overlaps u c).

(** The networks that count as allocated in a prefix overlap only when they are the
    same block. *)
Definition separate_in (p : Prefix) (used : list IpNetwork) : Prop :=
  ∀ nets, build_allocated_networks p used = Ok nets → separate nets.

Lemma interface_overlaps x c v6 a : is_interface x (v6, a) → overlaps x c ↔ has_addr c (v6, a).
Proof.
  intros Hi. rewrite overlaps_addr. split.
  - intros (b & Hb & Hc). by apply (is_interface_addr x (v6, a) b) in Hb as ->.
  - intros Hc. exists (v6, a). split; [|done]. by apply (is_interface_addr x (v6, a)).
Qed.

Lemma same_block_overlaps_iff x y c : same_block x y → overlaps x c ↔ overlaps y c.
Proof.
  intros H. rewrite !overlaps_addr. split; intros (a & Ha & Hc); exists a; split; try done;
    by apply (same_block_addr x y).
Qed.

(** The collapsed networks occupy what the reserved addresses and used networks do. *)
Lemma get_allocated_spec p used rest strategy : separate_in p used →
  ∃ allocated, get_allocated (mk_allocator rest used strategy) p = Ok allocated ∧
    ∀ c, (∃ a, a ∈ allocated ∧ overlaps a c) ↔ occupied p used c.
Proof.
  intros Hsep. unfold get_allocated. cbn [used_ips].
  destruct (build_allocated_networks_spec p used) as (nets & E & Hin & Hres & Hused).
  specialize (Hsep nets E). rewrite E. exists (collapse_allocated_networks nets). split; [done|].
  destruct (collapse_spec nets Hsep) as [_ Hsub Hcov _]. intros c. split.
  - intros (x & Hx%Hsub & Ho). destruct (Hin x Hx) as [(a & Ha & Hi)|[Hu Ha]].
    + left. exists a. split; [done|]. by apply (interface_overlaps x c).
    + right. by exists x.
  - assert (∀ x, x ∈ nets → overlaps x c → ∃ y, y ∈ collapse_allocated_networks nets ∧ overlaps y c)
      as Hlift.
    { intros x Hx Ho. destruct (Hcov x Hx) as (y & Hy & Hb). exists y. split; [done|].
      by apply (same_block_overlaps_iff y x c). }
    intros [(a & Ha & Hc)|(u & Hu & Ha & Ho)].
    + destruct (Hres a Ha) as (x & Hx & Hi). apply (Hlift x Hx). by eapply interface_overlaps.
    + apply (Hlift u); [by apply Hused|done].
Qed.

(** What is handed out of a prefix for a length that fits: the lowest free subnet, or
    exhaustion, or the panic at the end of the IPv6 address space. *)
Definition handed_out (p : Prefix) (used : list IpNetwork) (len : Z) (item : option (result DatabaseError IpNetwork)) : Prop :=
  let seg := prefix_net p in
  (∃ c, item = Some (Ok c) ∧ subnet_of seg len c ∧ ¬ occupied p used c ∧
        ∀ c', subnet_of seg len c' → network c' < network c → occupied p used c') ∨
  (item = Some (Err (PrefixExhausted (net_v6 seg, net_ip seg))) ∧ ∀ c, subnet_of seg len c → occupied p used c) ∨
  (item = None ∧ net_v6 seg = true ∧ broadcast seg = u128_max ∧ ∀ c, subnet_of seg len c → occupied p used c).

Lemma allocate_len_spec (print_network : IpNetwork → string) (print_error : DatabaseError → string) p used allocated len :
  (∀ c, (∃ a, a ∈ allocated ∧ overlaps a c) ↔ occupied p used c) →
  net_prefix (prefix_net p) < len ≤ family_bits (net_v6 (prefix_net p)) →
  (net_v6 (prefix_net p) = false → 2 ≤ len) →
  handed_out p used len (allocate_len print_network print_error p allocated len).
Proof.
  intros Hocc Hrange Hshift. pose proof (next_available_prefix_post (prefix_net p) len allocated Hrange Hshift) as Hs.
  unfold allocate_len, handed_out. destruct (next_available_prefix _ _ _) as [[c|]|e| |]; try done; simpl in Hs.
  - left. exists c. destruct Hs as (H1 & H2 & H3). split_and!; try done.
    + intros (a & Ha & Ho)%Hocc. by apply (H2 a).
    + intros c' Hc' Hlt. by apply Hocc, H3.
  - right. left. split; [done|]. intros c Hc. by apply Hocc, Hs.
  - right. right. destruct Hs as (? & ? & Hs). split_and!; try done. intros c Hc. by apply Hocc, Hs.
Qed.

(** C28: Every item of the allocator is what it should be.  A static address is refused, and
    so is a length that is not greater than that of the prefix; a length beyond the width
    of the address is a panic.  Otherwise the allocator hands out the lowest subnet of the
    requested length that has no reserved address (the gateway, the first addresses that
    are reserved, and in a prefix with more than two addresses its first and last) and
    overlaps no used network that starts in the prefix; it reports exhaustion only when
    every such subnet is occupied, and it panics only for an exhausted prefix that ends with
    the IPv6 address space.  Two of the reserved addresses and used networks overlap only if
    they are the same block, and halves of the IPv4 address space are not asked for. *)
Theorem allocator_next_spec (print_network : IpNetwork → string) (print_error : DatabaseError → string)
    (p : Prefix) (rest : list Prefix) (used : list IpNetwork) strategy
    (Hshift : net_v6 (prefix_net p) = false → strategy_len strategy false ≠ Some 1)
    (Hsep : separate_in p used) :
  let seg := prefix_net p in
  let '(item, a') := next print_network print_error (mk_allocator (p :: rest) used strategy) in
  a' = mk_allocator rest used strategy ∧
  ∃ r, item = (λ r, Some (prefix_id p, r)) <$> r ∧
  match strategy_len strategy (net_v6 seg) with
  | None => r = Some (Err (Internal "StaticAddress cannot be allocated by the DHCP allocator"))
  | Some len =>
      if len <=? net_prefix seg then ∃ text, r = Some (Err (Internal text))
      else if family_bits (net_v6 seg) <? len then r = None
      else handed_out p used len r
  end.
Proof.
  cbv zeta. unfold next, allocate_from. cbn [prefixes used_ips address_strategy].
  destruct (get_allocated_spec p used rest strategy Hsep) as (allocated & Hal & Hocc). rewrite Hal.
  split; [done|]. eexists. split; [done|].
  assert (match strategy with
          | NextAvailableIp | Automatic =>
              allocate_len print_network print_error p allocated (if net_v6 (prefix_net p) then 128 else 32)
          | NextAvailablePrefix l => allocate_len print_network print_error p allocated l
          | StaticAddress _ =>
              Some (Err (Internal "StaticAddress cannot be allocated by the DHCP allocator"))
          end = match strategy_len strategy (net_v6 (prefix_net p)) with
                | Some len => allocate_len print_network print_error p allocated len
                | None => Some (Err (Internal "StaticAddress cannot be allocated by the DHCP allocator"))
                end) as -> by by destruct strategy.
  destruct (strategy_len strategy (net_v6 (prefix_net p))) as [len|] eqn:Hlen; [|done].
  destruct (Z.leb_spec len (net_prefix (prefix_net p))) as [Hle|Hgt].
  { unfold allocate_len, next_available_prefix. rewrite (proj2 (Z.leb_le _ _) Hle). by eexists. }
  destruct (Z.ltb_spec (family_bits (net_v6 (prefix_net p))) len) as [Hbig|Hfit].
  { unfold allocate_len, next_available_prefix, get_network_details.
    by rewrite (proj2 (Z.leb_gt _ _) Hgt), (proj2 (Z.ltb_lt _ _) Hbig). }
  apply allocate_len_spec; [done|lia|]. intros Hv. pose proof (net_prefix_range (prefix_net p)).
  specialize (Hshift Hv). rewrite Hv in Hlen. assert (len ≠ 1) by congruence. lia.
Qed.

(** Allocated networks that are not larger than the prefix lie in it. *)
Lemma allocated_inside p used nets x :
  build_allocated_networks p used = Ok nets → x ∈ nets →
  (∀ u, u ∈ used → has_addr (prefix_net p) (network_addr u) →
        net_prefix (prefix_net p) ≤ net_prefix u) →
  net_v6 x = net_v6 (prefix_net p) ∧ network (prefix_net p) ≤ network x ∧
  broadcast x ≤ broadcast (prefix_net p).
Proof.
  intros Hbuild Hx Hin.
  destruct (build_allocated_networks_spec p used) as (nets' & E & Hmem & _ & _).
  rewrite Hbuild in E. injection E as <-.
  assert (overlaps (prefix_net p) x ∧ net_prefix (prefix_net p) ≤ net_prefix x) as [Ho Hp].
  { destruct (Hmem x Hx) as [(b & Hb & Hi)|[Hu Ha]].
    - split; [|pose proof (net_prefix_range (prefix_net p)); destruct Hi as (_ & _ & ->); simpl; lia].
      apply overlaps_sym, (interface_overlaps x (prefix_net p) _ b Hi). split; [done|]. simpl.
      pose proof (broadcast_ge (prefix_net p)). pose proof (broadcast_size (prefix_net p)).
      destruct Hb as [[_ ?]|[?|[_ ?]]]; lia.
    - split; [apply overlaps_first; by left|by apply Hin]. }
  destruct (overlaps_nested (prefix_net p) x Ho Hp). destruct Ho as (? & _). done.
Qed.

(** Collapsing keeps the covered addresses. *)
Lemma covered_collapse v6 nets l : separate nets →
  covered_in v6 nets l = covered_in v6 (collapse_allocated_networks nets) l.
Proof.
  intros Hsep. destruct (collapse_spec nets Hsep) as [_ Hsub Hcov _].
  apply list_filter_iff. intros b. rewrite !Exists_exists. split.
  - intros (x & Hx & Hb). destruct (Hcov x Hx) as (y & Hy & Hsb). exists y.
    split; [done|]. by apply (same_block_addr y x).
  - intros (x & Hx & Hb). exists x. auto.
Qed.

Lemma elem_of_length_pos {A} (x : A) l : x ∈ l → (0 < length l)%nat.
Proof. destruct l; [by intros ?%not_elem_of_nil|simpl; lia]. Qed.

(** Something is allocated in the whole IPv6 space. *)
Lemma full_space_allocated p used nets : build_allocated_networks p used = Ok nets →
  let seg := prefix_net p in
  net_size seg = 2 ^ 128 →
  (0 < length (covered_in (net_v6 seg) nets (seqZ (network seg) (net_size seg))))%nat.
Proof.
  intros Hbuild seg Hfull. pose proof (net_prefix_range seg) as Hr.
  assert (net_v6 seg = true ∧ net_prefix seg = 0) as [Hv Hp].
  { rewrite net_size_pow in Hfull. apply Z.pow_inj_r in Hfull; [|lia..].
    destruct (net_v6 seg); simpl in *; [split; [done|lia]|lia]. }
  destruct (build_allocated_networks_spec p used) as (nets' & E & _ & Hres & _).
  rewrite Hbuild in E. injection E as <-.
  destruct (Hres (network seg)) as (x & Hx & Hi).
  { right. right. fold seg. rewrite Hv, Hp. split; [done|]. by left. }
  apply (elem_of_length_pos (network seg)), list_elem_of_filter. split.
  - apply Exists_exists. exists x. split; [done|]. by apply (is_interface_addr x _ _ Hi).
  - apply elem_of_seqZ. pose proof (net_size_pos seg). lia.
Qed.

(** The free-address count is exact: it is the number of addresses of the prefix that
    are in no allocated network, for every prefix up to the whole IPv6 space, when the
    networks in use lie in the prefix and do not overlap each other. *)
Theorem num_free_exact (print_error : DatabaseError → string) (a : IpAllocator) id p nets
    (Hfind : List.find (λ p, String.eqb (prefix_id p) id) (prefixes a) = Some p)
    (Hbuild : build_allocated_networks p (used_ips a) = Ok nets)
    (Hsep : separate nets)
    (Hin : ∀ u, u ∈ used_ips a → has_addr (prefix_net p) (network_addr u) →
                net_prefix (prefix_net p) ≤ net_prefix u) :
  let seg := prefix_net p in
  num_free print_error a id =
  Ok (net_size seg - Z.of_nat (length (covered_in (net_v6 seg) nets
                                         (seqZ (network seg) (net_size seg))))).
Proof.
  cbn zeta. set (seg := prefix_net p). pose proof (full_space_allocated p _ nets Hbuild) as Hfull.
  cbn zeta in Hfull. fold seg in Hfull.
  unfold num_free, get_allocated. rewrite Hfind. cbn [ok_or mbind result_bind].
  rewrite Hbuild. cbn [fmap result_fmap map_err mbind result_bind]. fold seg.
  destruct (collapse_spec nets Hsep) as [Hs Hsub _ Hdis].
  pose proof (covered_length seg _ (bset_sorted_NoDup network_cmp _ Hs) Hdis) as Hlen.
  rewrite <-covered_collapse in Hlen by done.
  change (Count 0) with (as_count 0). rewrite count_sum_spec by lia. rewrite Z.add_0_l, <-Hlen.
  2:{ intros x Hx. by apply (allocated_inside p _ nets x Hbuild (Hsub x Hx)). }
  rewrite get_network_size_spec. pose proof (network_bounds seg) as [H0 Htop].
  set (l := covered_in _ _ _) in *.
  assert (Z.of_nat (length l) ≤ net_size seg).
  { unfold l, covered_in. etransitivity; [apply Nat2Z.inj_le, length_filter|].
    rewrite length_seqZ. pose proof (net_size_pos seg). lia. }
  assert (2 ^ family_bits (net_v6 seg) ≤ 2 ^ 128) by (by destruct (net_v6 seg)).
  apply free_after_spec; [lia|lia|].
  destruct (Z.eq_dec (net_size seg) (2 ^ 128)) as [E|]; [left; specialize (Hfull E); lia|lia].
Qed.
End Facts.

(** ** Instances *)

(** 192.168.1.[a]/[len] *)
Definition net_192 (a len : Z) : RefNetwork := ref_network false (3232235776 + a) len.

(** The prefix 192.168.1.0/24 with the gateway 192.168.1.1 and one reserved address. *)
Definition prefix_192 : Prefix (I := ref_ipnetworks) :=
  mk_segment_prefix (I := ref_ipnetworks) "p" (net_192 0 24) (Some (false, 3232235777)) 1.

Definition overlapsb (n m : RefNetwork) : bool :=
  Bool.eqb (ref_n_v6 n) (ref_n_v6 m) && (ref_n_network n <=? ref_n_broadcast m) &&
  (ref_n_network m <=? ref_n_broadcast n).
Definition same_blockb (n m : RefNetwork) : bool :=
  Bool.eqb (ref_n_v6 n) (ref_n_v6 m) && (ref_n_network n =? ref_n_network m) &&
  (ref_n_prefix n =? ref_n_prefix m).

(** A test for separate networks. *)
Lemma separate_test (nets : list RefNetwork) :
  forallb (λ x, forallb (λ y, negb (overlapsb x y) || same_blockb x y) nets) nets = true →
  separate (I := ref_ipnetworks) nets.
Proof.
  intros H x y Hx%list_elem_of_In Hy%list_elem_of_In Ho. rewrite forallb_forall in H.
  specialize (H x Hx). rewrite forallb_forall in H. specialize (H y Hy).
  apply orb_true_iff in H as [H|H].
  - exfalso. apply negb_true_iff, not_true_iff_false in H. apply H. destruct Ho as (Hv & H1 & H2).
    unfold overlapsb. simpl in *. rewrite Hv, eqb_reflx. simpl. by rewrite andb_true_iff, !Z.leb_le.
  - unfold same_blockb in H. rewrite !andb_true_iff, !Z.eqb_eq in H.
    destruct H as [[H1%eqb_prop H2] H3]. done.
Qed.

Lemma allocator_next_spec_witness :
  let pn := λ _ : RefNetwork, EmptyString in
  let pe := λ _ : DatabaseError, EmptyString in
  let used := [net_192 4 30] in
  let a := mk_allocator (I := ref_ipnetworks) [prefix_192] used (NextAvailablePrefix 30) in
  (next (I := ref_ipnetworks) pn pe a).1 = Some (Some ("p", Ok (net_192 8 30))) ∧
  ¬ occupied (I := ref_ipnetworks) prefix_192 used (net_192 8 30).
Proof.
  intros pn pe used a.
  assert ((next (I := ref_ipnetworks) pn pe a).1 = Some (Some ("p", Ok (net_192 8 30)))) as E
    by (vm_compute; reflexivity).
  split; [exact E|].
  assert (separate_in (I := ref_ipnetworks) prefix_192 used) as Hsep.
  { intros nets En. vm_compute in En. injection En as <-. apply separate_test. vm_compute. reflexivity. }
  pose proof (allocator_next_spec (I := ref_ipnetworks) pn pe prefix_192 [] used
                (NextAvailablePrefix 30) ltac:(discriminate) Hsep) as H.
  cbv zeta in H. fold a in H. destruct (next (I := ref_ipnetworks) pn pe a) as [item a'].
  cbn [fst] in E. subst item. destruct H as (_ & r & Er & H).
  destruct r as [r|]; [|discriminate Er]. injection Er as <-.
  change (handed_out (I := ref_ipnetworks) prefix_192 used 30 (Some (Ok (net_192 8 30)))) in H.
  destruct H as [(c & Ec & _ & Ho & _)|[[Ec _]|[Ec _]]].
  - injection Ec as <-. exact Ho.
  - discriminate Ec.
  - discriminate Ec.
Defined.

Lemma num_free_exact_witness :
  let pe := λ _ : DatabaseError, EmptyString in
  let a := mk_allocator (I := ref_ipnetworks) [prefix_192] [net_192 4 30] NextAvailableIp in
  num_free (I := ref_ipnetworks) pe a "p" = Ok 249.
Proof.
  intros pe a.
  destruct (build_allocated_networks (I := ref_ipnetworks) prefix_192 [net_192 4 30]) as [nets|] eqn:E;
    [|vm_compute in E; discriminate E].
  rewrite (num_free_exact (I := ref_ipnetworks) pe a "p" prefix_192 nets eq_refl E).
  - vm_compute in E. injection E as <-. vm_compute. reflexivity.
  - vm_compute in E. injection E as <-. apply separate_test. vm_compute. reflexivity.
  - intros u ->%list_elem_of_singleton _. vm_compute. discriminate.
Defined.

(** Overlapping networks in use lead to a double allocation.  Collapsing drops the /30
    because a used /31 has its first address, so that the allocator hands out the other
    half of the /30, which is in use; the collapsing is documented to drop the smaller
    networks that larger ones cover. *)
Theorem collapse_double_allocation :
  let pn := λ _ : RefNetwork, EmptyString in
  let pe := λ _ : DatabaseError, EmptyString in
  let used := [net_192 2 31; net_192 4 31; net_192 4 30] in
  let a := mk_allocator (I := ref_ipnetworks) [prefix_192] used (NextAvailablePrefix 31) in
  collapse_allocated_networks (I := ref_ipnetworks) [net_192 4 31; net_192 4 30] = [net_192 4 31] ∧
  (next (I := ref_ipnetworks) pn pe a).1 = Some (Some ("p", Ok (net_192 6 31))) ∧
  net_192 4 30 ∈ used ∧ overlaps (I := ref_ipnetworks) (net_192 4 30) (net_192 6 31).
Proof.
  cbv zeta. split; [vm_compute; reflexivity|]. split; [vm_compute; reflexivity|].
  split; [set_solver|]. vm_compute. repeat split; discriminate.
Qed.
