(* ===== verification/Credentials.v ===== *)
(** * Credentials and their keys

    [secrets/src/credentials.rs]: credentials, the generator and the strength policy of
    passwords, and the keys under which credentials are stored.  Identifiers, hardware
    addresses and vendors are the strings that the source prints them as.  The random
    numbers of the generator are an argument. *)

From S2P Require Import Prelude.

(** [Credentials] *)
Record Credentials := UsernamePassword {
  username : string;
  password : string;
}.

#[export] Instance Credentials_eq_dec : EqDecision Credentials.
Proof. solve_decision. Defined.

(** ** Passwords *)

Definition PASSWORD_LEN : nat := 16.
Definition UPPERCHARS : list ascii := list_ascii_of_string "ABCDEFGHIJKLMNOPQRSTUVWXYZ".
Definition LOWERCHARS : list ascii := list_ascii_of_string "abcdefghijklmnopqrstuvwxyz".
Definition NUMCHARS : list ascii := list_ascii_of_string "0123456789".
Definition SPECIALCHARS : list ascii := list_ascii_of_string "^%$@!~_".

(** What the random number generator draws: a class and an index in it for every
    character, the shuffled positions, and an index for the character that overwrites
    the position of a class. *)
Record Draws := mk_draws {
  draw : nat → nat * nat;
  shuffled : list nat;
  overwrite : nat → nat;
}.

(** [random_range] stays in the range it is given, and [shuffle] permutes. *)
Definition fair_draws (charset : list (list ascii)) (d : Draws) : Prop :=
  (∀ i, ∃ class c, charset !! (draw d i).1 = Some class ∧ class !! (draw d i).2 = Some c) ∧
  shuffled d ≡ₚ seq 0 PASSWORD_LEN ∧
  (∀ i class, charset !! i = Some class → is_Some (class !! overwrite d i)).

(** [charset[class][idx]]; an index out of range panics. *)
Definition char_at (charset : list (list ascii)) (class idx : nat) : option ascii :=
  charset !! class ≫= λ chars, chars !! idx.

(** [Credentials::generate_password_with_charset] *)
Definition generate_password_with_charset (d : Draws) (charset : list (list ascii)) : option string :=
  p ← mapM (λ i, char_at charset (draw d i).1 (draw d i).2) (seq 0 PASSWORD_LEN);
  p ← foldl (λ p '(class, pos), p ← p; c ← char_at charset class (overwrite d class);
               Some (<[pos := c]> p))
        (Some p) (imap pair (take (length charset) (shuffled d)));
  Some (string_of_list_ascii p).

Definition all_classes : list (list ascii) := [UPPERCHARS; LOWERCHARS; NUMCHARS; SPECIALCHARS].

(** [Credentials::generate_password] *)
Definition generate_password (d : Draws) : option string :=
  generate_password_with_charset d all_classes.

(** [Credentials::generate_password_no_special_char] *)
Definition generate_password_no_special_char (d : Draws) : option string :=
  generate_password_with_charset d [UPPERCHARS; LOWERCHARS; NUMCHARS].

(** [PasswordPolicyError] *)
Inductive PasswordPolicyError :=
| TooShort (min actual : nat)
| MissingCharacterClasses (missing : string).

Definition between (lo hi : N) (c : ascii) : bool :=
  (lo <=? N_of_ascii c)%N && (N_of_ascii c <=? hi)%N.
Definition is_ascii_uppercase (c : ascii) : bool := between 65 90 c.
Definition is_ascii_lowercase (c : ascii) : bool := between 97 122 c.
Definition is_ascii_digit (c : ascii) : bool := between 48 57 c.
Definition is_ascii_punctuation (c : ascii) : bool :=
  between 33 47 c || between 58 64 c || between 91 96 c || between 123 126 c.

Definition has_char (f : ascii → bool) (s : string) : bool := existsb f (list_ascii_of_string s).

(** [Credentials::validate_password_strength] *)
Definition validate_password_strength (password : string) : result PasswordPolicyError () :=
  if bool_decide (String.length password < PASSWORD_LEN)%nat then
    Err (TooShort PASSWORD_LEN (String.length password))
  else
    let missing :=
      (if has_char is_ascii_uppercase password then [] else ["uppercase"%string]) ++
      (if has_char is_ascii_lowercase password then [] else ["lowercase"%string]) ++
      (if has_char is_ascii_digit password then [] else ["digit"%string]) ++
      (if has_char is_ascii_punctuation password then [] else ["punctuation"%string]) in
    match missing with
    | [] => Ok ()
    | _ => Err (MissingCharacterClasses (join ", " missing))
    end.

(** ** Keys *)

Inductive DpuModel := BlueField2 | BlueField3 | BlueField4 | UnknownModel.

(** [CredentialType] *)
Inductive CredentialType :=
| DpuHardwareDefault (model : DpuModel)
| HostHardwareDefault (vendor : string)
| SiteDefault.

(** [BmcCredentialType] *)
Inductive BmcCredentialType :=
| SiteWideRoot
| SiteWideRootVersioned (version : Z)
| BmcRoot (bmc_mac_address : string)
| BmcForgeAdmin (bmc_mac_address : string)
| SiteWideDpuBmcService.

(** [MqttCredentialType] *)
Inductive MqttCredentialType := Dpa | DsxExchangeEventBus | DsxExchangeConsumer.

(** [CredentialKey]; [NicLockdownIkm] and [BgpCredentialType] have one variant each. *)
Inductive CredentialKey :=
| DpuSsh (machine_id : string)
| DpuHbn (machine_id : string)
| DpuRedfish (credential_type : CredentialType)
| Bgp
| HostRedfish (credential_type : CredentialType)
| UfmAuth (fabric : string)
| DpuUefi (credential_type : CredentialType)
| HostUefi (credential_type : CredentialType)
| BmcCredentials (credential_type : BmcCredentialType)
| NicLockdownIkm (version : Z)
| HostUefiSiteVersioned (version : Z)
| DpuUefiSiteVersioned (version : Z)
| ExtensionService (service_id version : string)
| NmxM (nmxm_id : string)
| SwitchNvosAdmin (bmc_mac_address : string)
| SwitchNvosSiteAdmin (version : Z)
| MqttAuth (credential_type : MqttCredentialType)
| MachineIdentityEncryptionKey (key_id : string)
| RackMaintenanceAccessToken (rack_id : string)
| ContainerRegistry (registry : string).

(** [BmcCredentialType::site_wide_root] *)
Definition site_wide_root (version : Z) : BmcCredentialType :=
  if version =? 0 then SiteWideRoot else SiteWideRootVersioned version.

(** [CredentialKey::host_uefi_site_default] *)
Definition host_uefi_site_default (version : Z) : CredentialKey :=
  if version =? 0 then HostUefi SiteDefault else HostUefiSiteVersioned version.

(** [CredentialKey::dpu_uefi_site_default] *)
Definition dpu_uefi_site_default (version : Z) : CredentialKey :=
  if version =? 0 then DpuUefi SiteDefault else DpuUefiSiteVersioned version.

(** [CredentialPrefix::as_str] of [CredentialKey::prefix] *)
Definition key_prefix (k : CredentialKey) : string :=
  match k with
  | DpuSsh _ | DpuHbn _ => "machines/"
  | DpuRedfish _ | DpuUefi _ | DpuUefiSiteVersioned _ => "machines/all_dpus/"
  | Bgp => "bgp/"
  | HostRedfish _ | HostUefi _ | HostUefiSiteVersioned _ => "machines/all_hosts/"
  | UfmAuth _ => "ufm/"
  | BmcCredentials _ => "machines/bmc/"
  | NicLockdownIkm _ => "machines/nic_lockdown_ikm/"
  | ExtensionService _ _ => "machines/extension-services/"
  | NmxM _ => "nmxm/"
  | SwitchNvosAdmin _ | SwitchNvosSiteAdmin _ => "switch_nvos/"
  | MqttAuth _ => "mqtt/"
  | MachineIdentityEncryptionKey _ => "machine_identity/"
  | RackMaintenanceAccessToken _ => "racks/"
  | ContainerRegistry _ => "container_registries/"
  end.

(** [dpu_model_vault_segment] *)
Definition dpu_model_vault_segment (m : DpuModel) : string :=
  match m with
  | BlueField2 => "bf2"
  | BlueField3 => "bf3"
  | BlueField4 => "bf4"
  | UnknownModel => "root"
  end.

(** [CredentialKey::to_key_str]; combinations that the source declares unreachable panic. *)
Definition to_key_str (k : CredentialKey) : option string :=
  match k with
  | DpuSsh machine_id => Some ("machines/" +:+ machine_id +:+ "/dpu-ssh")
  | DpuHbn machine_id => Some ("machines/" +:+ machine_id +:+ "/dpu-hbn")
  | DpuRedfish (DpuHardwareDefault model) =>
      Some ("machines/all_dpus/factory_default/bmc-metadata-items/" +:+ dpu_model_vault_segment model)
  | DpuRedfish SiteDefault => Some "machines/all_dpus/site_default/bmc-metadata-items/root"%string
  | DpuRedfish (HostHardwareDefault _) => None
  | HostRedfish (HostHardwareDefault vendor) =>
      Some ("machines/all_hosts/factory_default/bmc-metadata-items/" +:+ vendor)
  | HostRedfish SiteDefault => Some "machines/all_hosts/site_default/bmc-metadata-items/root"%string
  | HostRedfish (DpuHardwareDefault _) => None
  | UfmAuth fabric => Some ("ufm/" +:+ fabric +:+ "/auth")
  | DpuUefi (DpuHardwareDefault _) =>
      Some "machines/all_dpus/factory_default/uefi-metadata-items/auth"%string
  | DpuUefi SiteDefault => Some "machines/all_dpus/site_default/uefi-metadata-items/auth"%string
  | DpuUefi (HostHardwareDefault _) => None
  | HostUefi SiteDefault => Some "machines/all_hosts/site_default/uefi-metadata-items/auth"%string
  | HostUefi _ => None
  | BmcCredentials SiteWideRoot => Some "machines/bmc/site/root"%string
  | BmcCredentials (SiteWideRootVersioned version) =>
      Some ("machines/bmc/site/root/v" +:+ print_u version)
  | BmcCredentials (BmcRoot mac) => Some ("machines/bmc/" +:+ mac +:+ "/root")
  | BmcCredentials (BmcForgeAdmin mac) => Some ("machines/bmc/" +:+ mac +:+ "/forge-admin-account")
  | BmcCredentials SiteWideDpuBmcService => Some "machines/bmc/site/dpu_service"%string
  | NicLockdownIkm version => Some ("machines/nic_lockdown_ikm/site/root/v" +:+ print_u version)
  | HostUefiSiteVersioned version =>
      Some ("machines/all_hosts/site_default/uefi-metadata-items/auth/v" +:+ print_u version)
  | DpuUefiSiteVersioned version =>
      Some ("machines/all_dpus/site_default/uefi-metadata-items/auth/v" +:+ print_u version)
  | ExtensionService service_id version =>
      Some ("machines/extension-services/" +:+ service_id +:+ "/versions/" +:+ version +:+ "/credential")
  | NmxM nmxm_id => Some ("nmxm/" +:+ nmxm_id +:+ "/auth")
  | SwitchNvosAdmin mac => Some ("switch_nvos/" +:+ mac +:+ "/admin")
  | SwitchNvosSiteAdmin version => Some ("switch_nvos/site/admin/v" +:+ print_u version)
  | MqttAuth Dpa => Some "mqtt/dpa/auth"%string
  | MqttAuth DsxExchangeEventBus => Some "mqtt/dsx-exchange-event-bus/auth"%string
  | MqttAuth DsxExchangeConsumer => Some "mqtt/dsx-exchange-consumer/auth"%string
  | MachineIdentityEncryptionKey key_id => Some ("machine_identity/encryption_keys/" +:+ key_id)
  | Bgp => Some "bgp/leaf/site/auth"%string
  | RackMaintenanceAccessToken rack_id => Some ("racks/" +:+ rack_id +:+ "/maintenance/access-token")
  | ContainerRegistry registry => Some ("container_registries/" +:+ registry +:+ "/auth")
  end.

(** ** Paths are not shared *)

Definition no_slash (s : string) : Prop := all_chars (λ c, negb (Ascii.eqb c "/")) s = true.
#[export] Instance no_slash_dec s : Decision (no_slash s).
Proof. unfold no_slash. apply _. Defined.

(** Printed identifiers have no slash, no hardware address is printed as [site], and
    versions are unsigned integers of 32 bits. *)
Definition key_ok (k : CredentialKey) : Prop :=
  match k with
  | DpuSsh s | DpuHbn s | UfmAuth s | NmxM s | MachineIdentityEncryptionKey s
  | RackMaintenanceAccessToken s | ContainerRegistry s => no_slash s
  | HostRedfish (HostHardwareDefault s) => no_slash s
  | BmcCredentials (BmcRoot s) | BmcCredentials (BmcForgeAdmin s) | SwitchNvosAdmin s =>
      no_slash s ∧ s ≠ "site"%string
  | ExtensionService s v => no_slash s ∧ no_slash v
  | BmcCredentials (SiteWideRootVersioned v) | NicLockdownIkm v | HostUefiSiteVersioned v
  | DpuUefiSiteVersioned v | SwitchNvosSiteAdmin v => 0 ≤ v ≤ u32_max
  | _ => True
  end.

(** The parts of a path *)
Definition segments (k : CredentialKey) : list string :=
  match k with
  | DpuSsh s => ["machines"; s; "dpu-ssh"]
  | DpuHbn s => ["machines"; s; "dpu-hbn"]
  | DpuRedfish (DpuHardwareDefault m) =>
      ["machines"; "all_dpus"; "factory_default"; "bmc-metadata-items"; dpu_model_vault_segment m]
  | DpuRedfish _ => ["machines"; "all_dpus"; "site_default"; "bmc-metadata-items"; "root"]
  | HostRedfish (HostHardwareDefault s) =>
      ["machines"; "all_hosts"; "factory_default"; "bmc-metadata-items"; s]
  | HostRedfish _ => ["machines"; "all_hosts"; "site_default"; "bmc-metadata-items"; "root"]
  | UfmAuth s => ["ufm"; s; "auth"]
  | DpuUefi SiteDefault => ["machines"; "all_dpus"; "site_default"; "uefi-metadata-items"; "auth"]
  | DpuUefi _ => ["machines"; "all_dpus"; "factory_default"; "uefi-metadata-items"; "auth"]
  | HostUefi _ => ["machines"; "all_hosts"; "site_default"; "uefi-metadata-items"; "auth"]
  | BmcCredentials SiteWideRoot => ["machines"; "bmc"; "site"; "root"]
  | BmcCredentials (SiteWideRootVersioned v) => ["machines"; "bmc"; "site"; "root"; "v" +:+ print_u v]
  | BmcCredentials (BmcRoot s) => ["machines"; "bmc"; s; "root"]
  | BmcCredentials (BmcForgeAdmin s) => ["machines"; "bmc"; s; "forge-admin-account"]
  | BmcCredentials SiteWideDpuBmcService => ["machines"; "bmc"; "site"; "dpu_service"]
  | NicLockdownIkm v => ["machines"; "nic_lockdown_ikm"; "site"; "root"; "v" +:+ print_u v]
  | HostUefiSiteVersioned v =>
      ["machines"; "all_hosts"; "site_default"; "uefi-metadata-items"; "auth"; "v" +:+ print_u v]
  | DpuUefiSiteVersioned v =>
      ["machines"; "all_dpus"; "site_default"; "uefi-metadata-items"; "auth"; "v" +:+ print_u v]
  | ExtensionService s v => ["machines"; "extension-services"; s; "versions"; v; "credential"]
  | NmxM s => ["nmxm"; s; "auth"]
  | SwitchNvosAdmin s => ["switch_nvos"; s; "admin"]
  | SwitchNvosSiteAdmin v => ["switch_nvos"; "site"; "admin"; "v" +:+ print_u v]
  | MqttAuth Dpa => ["mqtt"; "dpa"; "auth"]
  | MqttAuth DsxExchangeEventBus => ["mqtt"; "dsx-exchange-event-bus"; "auth"]
  | MqttAuth DsxExchangeConsumer => ["mqtt"; "dsx-exchange-consumer"; "auth"]
  | MachineIdentityEncryptionKey s => ["machine_identity"; "encryption_keys"; s]
  | Bgp => ["bgp"; "leaf"; "site"; "auth"]
  | RackMaintenanceAccessToken s => ["racks"; s; "maintenance"; "access-token"]
  | ContainerRegistry s => ["container_registries"; s; "auth"]
  end.

Lemma digits_no_slash v : no_slash ("v" +:+ print_u v).
Proof.
  unfold no_slash. rewrite all_chars_app. simpl. pose proof (print_u_digits v) as H.
  induction (print_u v) as [|c s IH]; [done|]. simpl in *. apply andb_true_iff in H as [Hc Hs].
  rewrite IH by done. rewrite andb_true_r. destruct (Ascii.eqb_spec c "/") as [->|]; [|done].
  by vm_compute in Hc.
Qed.

Lemma model_no_slash m : no_slash (dpu_model_vault_segment m).
Proof. by destruct m. Qed.

Lemma segments_no_slash k : key_ok k → Forall no_slash (segments k).
Proof.
  pose proof digits_no_slash. pose proof model_no_slash.
  destruct k as [| |[]| |[]| |[]|[]|[]| | | | | | | |[]| | |]; simpl; intros;
    destruct_and?; repeat constructor; auto; done.
Qed.

Lemma to_key_str_join k s : to_key_str k = Some s → s = join "/" (segments k).
Proof.
  destruct k as [| |[]| |[]| |[]|[]|[]| | | | | | | |[]| | |]; simpl; intros [= <-];
    repeat rewrite <-?string_app_assoc; done.
Qed.

Lemma to_key_str_segments k s : key_ok k → to_key_str k = Some s → split_on "/" s = segments k.
Proof.
  intros Hk ->%to_key_str_join. apply (split_join "/"%char).
  - by destruct k as [| |[]| |[]| |[]|[]|[]| | | | | | | |[]| | |].
  - by apply segments_no_slash.
Qed.

Lemma print_u_inj a b : 0 ≤ a ≤ u32_max → 0 ≤ b ≤ u32_max → print_u a = print_u b → a = b.
Proof. intros [Ha _] [Hb _]. by apply print_u_injective. Qed.

Lemma version_segment_inj a b : 0 ≤ a ≤ u32_max → 0 ≤ b ≤ u32_max →
  ("v" +:+ print_u a)%string = "v" +:+ print_u b → a = b.
Proof. intros Ha Hb [= E]. by apply print_u_inj. Qed.

Lemma model_inj a b : dpu_model_vault_segment a = dpu_model_vault_segment b → a = b.
Proof. by destruct a, b. Qed.

(** The default UEFI password of DPUs is one secret for all models. *)
Definition same_secret (k1 k2 : CredentialKey) : Prop :=
  k1 = k2 ∨ ∃ m1 m2, k1 = DpuUefi (DpuHardwareDefault m1) ∧ k2 = DpuUefi (DpuHardwareDefault m2).

Lemma to_key_str_inj k1 k2 s :
  key_ok k1 → key_ok k2 → to_key_str k1 = Some s → to_key_str k2 = Some s → same_secret k1 k2.
Proof.
  intros H1 H2 E1 E2. pose proof (to_key_str_segments _ _ H1 E1) as Hs.
  rewrite (to_key_str_segments _ _ H2 E2) in Hs.
  destruct k1 as [| |[]| |[]| |[]|[]|[]| | | | | | | |[]| | |]; try discriminate E1; clear E1;
    destruct k2 as [| |[]| |[]| |[]|[]|[]| | | | | | | |[]| | |]; try discriminate E2; clear E2;
    try discriminate Hs; simpl in H1, H2, Hs; unfold same_secret; destruct_and?;
    try (injection Hs as Hs; exfalso; congruence);
    try (injection Hs as Hs; left; f_equal; f_equal; first [congruence | by apply print_u_inj | by apply model_inj]);
    try (injection Hs as Hs Hs'; left; congruence);
    try (left; reflexivity).
  right. eauto.
Qed.

(** No two credentials share a path of the secret store: keys with the same path are
    the same key, apart from the default UEFI password of DPUs, which does not depend on
    the model.  In particular the credential of one device is never stored over that of
    another device or over a version of the site-wide one. *)
Theorem key_paths_injective k1 k2 s :
  key_ok k1 → key_ok k2 → to_key_str k1 = Some s → to_key_str k2 = Some s → same_secret k1 k2.
Proof. apply to_key_str_inj. Qed.

Lemma key_paths_injective_witness :
  let k1 := BmcCredentials (BmcRoot "02:00:00:00:00:01") in
  let k2 := BmcCredentials (site_wide_root 3) in
  same_secret k1 k1 ∧ (to_key_str k1 = to_key_str k2 → same_secret k1 k2).
Proof.
  assert (H1 : key_ok (BmcCredentials (BmcRoot "02:00:00:00:00:01"))) by by_eval.
  split.
  - by apply (key_paths_injective _ _ "machines/bmc/02:00:00:00:00:01/root").
  - intros E. apply (key_paths_injective _ _ "machines/bmc/02:00:00:00:00:01/root"); [done|by_eval|done|].
    by rewrite <- E.
Defined.

(** Listing a category by its prefix finds every key of the category. *)
Lemma key_has_prefix k s : to_key_str k = Some s → starts_with s (key_prefix k) = true.
Proof.
  assert (H : ∀ a b, String.prefix a (a +:+ b) = true).
  { induction a as [|c a IH]; intros b; [by destruct b|]. rewrite string_app_cons. simpl.
    destruct (ascii_dec c c); [apply IH|done]. }
  destruct k as [| |[]| |[]| |[]|[]|[]| | | | | | | |[]| | |]; intros [= <-];
    unfold starts_with, key_prefix; first [by vm_compute | by rewrite <-?string_app_assoc; apply H |
      match goal with |- String.prefix ?a ?t = true => by apply (H a) end].
Qed.

(** ** Generated passwords *)

Lemma foldl_insert_option {A} (f : nat → option A) ps (start : nat) (p : list A) :
  (∀ i, (start ≤ i < start + length ps)%nat → is_Some (f i)) →
  ∃ q, foldl (λ p '(i, pos), p ← p; c ← f i; Some (<[pos := c]> p)) (Some p)
         (imap (λ i pos, (start + i, pos)%nat) ps) = Some q ∧
       length q = length p ∧
       (NoDup ps → (∀ pos, pos ∈ ps → (pos < length p)%nat) →
        (∀ i pos, ps !! i = Some pos → q !! pos = f (start + i)%nat) ∧
        (∀ pos, pos ∉ ps → q !! pos = p !! pos)).
Proof.
  revert start p. induction ps as [|pos ps IH]; intros start p Hf; simpl.
  - exists p. naive_solver.
  - destruct (Hf start) as [c Hc]; [simpl; lia|]. rewrite Nat.add_0_r, Hc. simpl.
    destruct (IH (S start) (<[pos := c]> p)) as (q & Hq & Hlen & Hlook).
    { intros i Hi. apply Hf. simpl. lia. }
    exists q. split_and!.
    + rewrite <- Hq. f_equal. apply imap_ext. intros i x _. simpl. f_equal. lia.
    + by rewrite length_insert in Hlen.
    + intros [Hnin Hnd]%NoDup_cons Hlt.
      destruct Hlook as [H1 H2]; [done|intros; rewrite length_insert; apply Hlt; by right|].
      split.
      * intros [|i] pos' [= E]; [subst pos'|].
        -- rewrite H2 by done. rewrite list_lookup_insert_eq by (apply Hlt; by left). by rewrite Nat.add_0_r.
        -- rewrite (H1 i pos') by done. f_equal. lia.
      * intros pos' [Hne Hnin']%not_elem_of_cons. rewrite H2 by done. by rewrite list_lookup_insert_ne.
Qed.

Lemma mapM_total {A B} (f : A → option B) l : (∀ x, x ∈ l → is_Some (f x)) →
  ∃ k, mapM f l = Some k ∧ length k = length l.
Proof.
  intros H. destruct (mapM f l) as [k|] eqn:E.
  - exists k. split; [done|]. symmetry. by eapply length_mapM.
  - apply mapM_None_1, Exists_exists in E as (x & Hx & E). destruct (H x Hx); congruence.
Qed.

Lemma has_char_lookup f l i c : l !! i = Some c → f c = true → has_char f (string_of_list_ascii l) = true.
Proof.
  intros Hl Hf. unfold has_char. rewrite list_ascii_of_string_of_list_ascii. apply existsb_exists.
  exists c. split; [|done]. apply list_elem_of_In. by eapply list_elem_of_lookup_2.
Qed.

Lemma string_length_of_list l : String.length (string_of_list_ascii l) = length l.
Proof. induction l as [|c l IH]; [done|]. simpl. by rewrite IH. Qed.

Lemma classes_tests i class c j : all_classes !! i = Some class → class !! j = Some c →
  match i with 0%nat => is_ascii_uppercase | 1%nat => is_ascii_lowercase | 2%nat => is_ascii_digit
  | _ => is_ascii_punctuation end c = true.
Proof.
  intros Hc Hj.
  assert (H : Forall (λ c, match i with 0%nat => is_ascii_uppercase | 1%nat => is_ascii_lowercase
                | 2%nat => is_ascii_digit | _ => is_ascii_punctuation end c = true) class).
  { destruct i as [|[|[|[|]]]]; try discriminate Hc; injection Hc as <-; apply Forall_forall; intros x Hx;
      repeat (apply elem_of_cons in Hx as [->|Hx]; [reflexivity|]); by apply elem_of_nil in Hx. }
  eapply (Forall_lookup_1 _ _ _ _ H Hj).
Qed.

(** A generated password always satisfies the policy that passwords of operators have
    to satisfy: whatever the random numbers, it has 16 characters, one of each class, and
    the generator does not panic. *)
Theorem generated_password_strong d : fair_draws all_classes d →
  ∃ p, generate_password d = Some p ∧ String.length p = PASSWORD_LEN ∧
       validate_password_strength p = Ok ().
Proof.
  intros (Hd & Hperm & Ho). unfold generate_password, generate_password_with_charset.
  destruct (mapM_total (λ i, char_at all_classes (draw d i).1 (draw d i).2) (seq 0 PASSWORD_LEN))
    as (p0 & Hp0 & Hlen0).
  { intros i _. destruct (Hd i) as (class & c & Hc & Hi). unfold char_at. rewrite Hc. simpl. eauto. }
  rewrite Hp0. cbn [mbind option_bind].
  assert (Hsh : length (shuffled d) = PASSWORD_LEN) by by rewrite Hperm, length_seq.
  set (ps := take (length all_classes) (shuffled d)).
  assert (Hps : length ps = 4%nat) by (unfold ps; rewrite length_take, Hsh; done).
  assert (Hchar : ∀ i, (i < 4)%nat → is_Some (char_at all_classes i (overwrite d i))).
  { intros i Hi. destruct (lookup_lt_is_Some_2 all_classes i Hi) as [class Hc]. unfold char_at.
    rewrite Hc. simpl. by apply Ho. }
  destruct (foldl_insert_option (λ i, char_at all_classes i (overwrite d i)) ps 0 p0) as (q & Hq & Hlen & Hlook).
  { intros i Hi. apply Hchar. lia. }
  change (imap (λ i pos, (0 + i, pos)%nat) ps) with (imap pair ps) in Hq. rewrite Hq. cbn [mbind option_bind].
  destruct Hlook as [Hl _].
  { assert (Hnd : NoDup (shuffled d)) by (rewrite Hperm; apply NoDup_seq).
    rewrite <- (take_drop (length all_classes) (shuffled d)) in Hnd. by apply NoDup_app in Hnd as [? _]. }
  { intros pos Hpos%elem_of_take. rewrite Hlen0, length_seq.
    destruct Hpos as (i & Hi & _).
    assert (pos ∈ seq 0 PASSWORD_LEN) as [_ ?]%elem_of_seq; [|done].
    rewrite <- Hperm. by eapply list_elem_of_lookup_2. }
  exists (string_of_list_ascii q). split; [done|].
  rewrite string_length_of_list, Hlen, Hlen0, length_seq. split; [done|].
  unfold validate_password_strength. rewrite string_length_of_list, Hlen, Hlen0, length_seq.
  rewrite bool_decide_eq_false_2 by lia.
  assert (Hhas : ∀ i, (i < 4)%nat → has_char match i with 0%nat => is_ascii_uppercase
     | 1%nat => is_ascii_lowercase | 2%nat => is_ascii_digit | _ => is_ascii_punctuation end
     (string_of_list_ascii q) = true).
  { intros i Hi. destruct (lookup_lt_is_Some_2 ps i) as [pos Hpos]; [lia|].
    destruct (Hchar i Hi) as [c Hc].
    eapply has_char_lookup; [rewrite (Hl i pos Hpos); exact Hc|].
    unfold char_at in Hc. apply bind_Some in Hc as (class & Hclass & Hj). by eapply classes_tests. }
  rewrite (Hhas 0%nat), (Hhas 1%nat), (Hhas 2%nat), (Hhas 3%nat) by lia. done.
Qed.

Lemma generated_password_strong_witness :
  let d := mk_draws (λ i, (1, i `min` 25)%nat) (reverse (seq 0 16)) (λ i, i) in
  fair_draws all_classes d ∧ ∃ p, generate_password d = Some p ∧ validate_password_strength p = Ok ().
Proof.
  intros d. assert (H : fair_draws all_classes d).
  { split_and!.
    - intros i. destruct (lookup_lt_is_Some_2 LOWERCHARS (i `min` 25)) as [c Hc]; [simpl; lia|].
      exists LOWERCHARS, c. by split.
    - simpl. apply reverse_Permutation.
    - intros [|[|[|[|i]]]] class [= <-]; eexists; reflexivity. }
  split; [exact H|]. destruct (generated_password_strong d H) as (p & Hp & _ & Hv). eauto.
Defined.
