(* ===== verification/Calls.v ===== *)
(** * Programs that call databases, stores and devices

    A program is a function of the state of the world and a script.  Before every call
    the script lets others act on the world and decides the fate of the call: it works,
    it fails before or after it took effect, or the process dies.  Failures are values
    that the program can handle; a dead process does nothing more.  Triples quantify
    over all scripts with allowed steps. *)

From S2P Require Import Prelude.

Inductive Fate :=
| Works
| FailsBefore (why : string)
| FailsAfter (why : string)
| Dies.

Record Step (S : Type) := mk_step {
  others : S → S;
  fate : Fate;
  clock : Z;
}.
Arguments mk_step {S}.
Arguments others {S}.
Arguments fate {S}.
Arguments clock {S}.

Inductive stop (E : Type) :=
| Failed (e : E)
| Crashed.
Arguments Failed {E}.
Arguments Crashed {E}.

(** The steps to come, one for every call *)
Definition script (S : Type) : Type := nat → Step S.
Definition later {S} (sc : script S) : script S := λ n, sc (Datatypes.S n).

Definition prog (S E A : Type) : Type := S → script S → result (stop E) A * (S * script S).

#[export] Instance prog_ret {S E} : MRet (prog S E) := λ A a s sc, (Ok a, (s, sc)).
#[export] Instance prog_bind {S E} : MBind (prog S E) := λ A B f m s sc,
  match m s sc with
  | (Ok a, (s, sc)) => f a s sc
  | (Err e, w) => (Err e, w)
  end.

(** Nobody interferes, and the call works. *)
Definition quiet {S} : Step S := mk_step id Works 0.
Definition script_of {S} (l : list (Step S)) : script S := λ n, nth n l quiet.

Lemma script_of_all {S} (P : Step S → Prop) (l : list (Step S)) : P quiet → Forall P l → ∀ n, P (script_of l n).
Proof.
  intros Hq Hl n. unfold script_of. destruct (nth_in_or_default n l quiet) as [H| ->]; [|done].
  rewrite Forall_forall in Hl. apply Hl. by apply list_elem_of_In.
Qed.

Definition returned {E A} (r : result E A) : result (stop E) A :=
  match r with Ok a => Ok a | Err e => Err (Failed e) end.

Section Calls.
Context {S E : Type}.

(** One call; [wrap] makes an error of the text of a failure. *)
Definition run_call {A} (wrap : string → E) (f : Z → S → result E A * S) (st : Step S) (s : S)
    : result (stop E) A * S :=
  let s := others st s in
  let effect := f (clock st) s in
  match fate st with
  | Works => (returned effect.1, effect.2)
  | FailsBefore why => (Err (Failed (wrap why)), s)
  | FailsAfter why => (Err (Failed (wrap why)), effect.2)
  | Dies => (Err Crashed, s)
  end.

Definition call {A} (wrap : string → E) (f : Z → S → result E A * S) : prog S E A := λ s sc,
  let '(r, s) := run_call wrap f (sc 0%nat) s in (r, (s, later sc)).

Definition read {A} (wrap : string → E) (f : Z → S → result E A) : prog S E A :=
  call wrap (λ c s, (f c s, s)).

(** The local clock *)
Definition utc_now : prog S E Z := λ s sc, (Ok (clock (sc 0%nat)), (s, sc)).

Definition lift {A} (r : result E A) : prog S E A := λ s sc,
  (returned r, (s, sc)).

(** A [match] on the result of a call; it does not see the death of the process. *)
Definition catch {E' A} (m : prog S E' A) : prog S E (result E' A) := λ s sc,
  match m s sc with
  | (Ok a, w) => (Ok (Ok a), w)
  | (Err (Failed e), w) => (Ok (Err e), w)
  | (Err Crashed, w) => (Err Crashed, w)
  end.

End Calls.

(** [map_err] *)
Definition convert {S E E' A} (f : E → E') (m : prog S E A) : prog S E' A := λ s sc,
  match m s sc with
  | (Ok a, w) => (Ok a, w)
  | (Err (Failed e), w) => (Err (Failed (f e)), w)
  | (Err Crashed, w) => (Err Crashed, w)
  end.

(** ** Triples *)

Definition hoare {S E A} (allowed : Step S → Prop) (P : S → Prop) (m : prog S E A)
    (Q : result (stop E) A → S → Prop) : Prop :=
  ∀ s sc, (∀ n, allowed (sc n)) → P s →
    (∀ n, allowed ((m s sc).2.2 n)) ∧ Q (m s sc).1 (m s sc).2.1.

Section Triples.
Context {S E : Type} (allowed : Step S → Prop).

Lemma hoare_ret {A} (P : S → Prop) (a : A) Q :
  (∀ s, P s → Q (Ok a) s) → hoare allowed P (mret a : prog S E A) Q.
Proof using Type. intros H s sc Hsc HP. split; [done|]. by apply H. Qed.

Lemma hoare_bind {A B} P (m : prog S E A) (f : A → prog S E B) R Q :
  hoare allowed P m (λ r s, match r with Ok a => R a s | Err e => Q (Err e) s end) →
  (∀ a, hoare allowed (R a) (f a) Q) → hoare allowed P (m ≫= f) Q.
Proof using Type.
  intros Hm Hf s sc Hsc HP. destruct (Hm s sc Hsc HP) as [Hsc' HR].
  unfold mbind, prog_bind. destruct (m s sc) as [[a|e] [s' sc']]; simpl in *; [by apply Hf|done].
Qed.

Lemma hoare_call {A} P wrap (f : Z → S → result E A * S) Q :
  (∀ st s, allowed st → P s → Q (run_call wrap f st s).1 (run_call wrap f st s).2) →
  hoare allowed P (call wrap f) Q.
Proof using Type.
  intros H s sc Hsc HP. unfold call. specialize (H _ s (Hsc 0%nat) HP).
  destruct (run_call _ _ _ _) as [r s']. split; [|done]. intros n. apply (Hsc (Datatypes.S n)).
Qed.

Lemma hoare_now P Q : (∀ s c, P s → Q (Ok c) s) → hoare allowed P (utc_now : prog S E Z) Q.
Proof using Type. intros H s sc Hsc HP. split; [done|]. by apply H. Qed.

Lemma hoare_lift {A} P (r : result E A) Q :
  (∀ s, P s → Q (returned r) s) →
  hoare allowed P (lift r : prog S E A) Q.
Proof using Type. intros H s sc Hsc HP. split; [done|]. by apply H. Qed.

Lemma hoare_weaken {A} P P' (m : prog S E A) Q Q' :
  hoare allowed P' m Q' → (∀ s, P s → P' s) → (∀ r s, Q' r s → Q r s) → hoare allowed P m Q.
Proof using Type. intros H HP HQ s sc Hsc Hs. destruct (H s sc Hsc (HP _ Hs)). auto. Qed.

Lemma hoare_from {A} (P' P : S → Prop) (m : prog S E A) Q :
  (∀ s, P s → P' s) → hoare allowed P' m Q → hoare allowed P m Q.
Proof using Type. intros HP H s sc Hsc Hs. apply H; auto. Qed.

Lemma hoare_pre {A} (P : S → Prop) (X : Prop) (m : prog S E A) Q :
  (X → hoare allowed P m Q) → hoare allowed (λ s, X ∧ P s) m Q.
Proof using Type. intros H s sc Hsc [HX HP]. by apply H. Qed.

Lemma hoare_exists {A B} (P : B → S → Prop) (m : prog S E A) Q :
  (∀ b, hoare allowed (P b) m Q) → hoare allowed (λ s, ∃ b, P b s) m Q.
Proof using Type. intros H s sc Hsc [b HP]. by eapply H. Qed.

Lemma hoare_assume {A} (X : Prop) (P : S → Prop) (m : prog S E A) Q :
  (∀ s, P s → X) → (X → hoare allowed P m Q) → hoare allowed P m Q.
Proof using Type. intros HX H s sc Hsc HP. apply H; eauto. Qed.

End Triples.

Lemma hoare_catch {S E E' A} allowed P (m : prog S E' A) (Q : result (stop E) (result E' A) → S → Prop) :
  hoare allowed P m (λ r s, match r with
    | Ok a => Q (Ok (Ok a)) s | Err (Failed e) => Q (Ok (Err e)) s | Err Crashed => Q (Err Crashed) s end) →
  hoare allowed P (catch m) Q.
Proof.
  intros H s sc Hsc HP. destruct (H s sc Hsc HP) as [Hsc' HQ]. unfold catch.
  by destruct (m s sc) as [[a|[e|]] w].
Qed.

Lemma hoare_seq {S E A B} allowed P (m : prog S E A) (f : A → prog S E B) Q1 Q :
  hoare allowed P m Q1 → (∀ a, hoare allowed (Q1 (Ok a)) (f a) Q) →
  (∀ e s, Q1 (Err e) s → Q (Err e) s) → hoare allowed P (m ≫= f) Q.
Proof.
  intros Hm Hf He. eapply (hoare_bind _ _ _ _ (λ a, Q1 (Ok a))); [|done].
  eapply hoare_weaken; [exact Hm|done|]. intros [a|e] s; auto.
Qed.

(** After a call with a known result *)
Lemma hoare_known {S E A B} allowed (P R : S → Prop) (m : prog S E A) (f : A → prog S E B) x Q :
  hoare allowed P m (λ r s, r = Ok x ∧ R s) → hoare allowed R (f x) Q → hoare allowed P (m ≫= f) Q.
Proof.
  intros Hm Hf. eapply hoare_seq; [exact Hm| |by intros e s []].
  intros a. apply (hoare_assume _ (a = x)); [by intros s [[= <-] _]|]. intros ->.
  eapply hoare_weaken; [exact Hf|by intros s []|done].
Qed.

Lemma hoare_try {S E E' A B} allowed P (m : prog S E' A) (f : result E' A → prog S E B) Q1 Q :
  hoare allowed P m Q1 → (∀ a, hoare allowed (Q1 (Ok a)) (f (Ok a)) Q) →
  (∀ e, hoare allowed (Q1 (Err (Failed e))) (f (Err e)) Q) →
  (∀ s, Q1 (Err Crashed) s → Q (Err Crashed) s) → hoare allowed P (catch m ≫= f) Q.
Proof.
  intros Hm Ha He Hc. eapply (hoare_bind _ _ _ _ (λ r, Q1 (returned r))).
  - apply hoare_catch. eapply hoare_weaken; [exact Hm|done|]. intros [a|[e|]] s H; [exact H..|by apply Hc].
  - intros [a|e]; [apply Ha|apply He].
Qed.

Lemma hoare_convert {S E E' A} allowed P (f : E → E') (m : prog S E A) Q1 Q :
  hoare allowed P m Q1 → (∀ a s, Q1 (Ok a) s → Q (Ok a) s) →
  (∀ e s, Q1 (Err (Failed e)) s → Q (Err (Failed (f e))) s) →
  (∀ s, Q1 (Err Crashed) s → Q (Err Crashed) s) → hoare allowed P (convert f m) Q.
Proof.
  intros H Ha He Hc s sc Hsc HP. destruct (H s sc Hsc HP) as [Hsc' HQ]. unfold convert.
  destruct (m s sc) as [[a|[e|]] w]; simpl in *; auto.
Qed.

Lemma hoare_convert_known {S E E' A} allowed P (f : E → E') (m : prog S E A) x R :
  hoare allowed P m (λ r s, r = Ok x ∧ R s) → hoare allowed P (convert f m) (λ r s, r = Ok x ∧ R s).
Proof. intros H. eapply hoare_convert; [exact H|by intros a s [[= ->] ?]|by intros e s []|by intros s []]. Qed.

Lemma hoare_lift_known {S E A} allowed P (r : result E A) x :
  r = Ok x → hoare allowed P (lift r : prog S E A) (λ r s, r = Ok x ∧ P s).
Proof. intros ->. by apply hoare_lift. Qed.

(** ** Calm scripts: nobody interferes and every call works *)

Definition calm {S} (st : Step S) : Prop := fate st = Works ∧ ∀ s, others st s = s.

Lemma run_call_calm {S E A} wrap (f : Z → S → result E A * S) st s : calm st →
  run_call wrap f st s = (returned (f (clock st) s).1, (f (clock st) s).2).
Proof. intros [Hf Ho]. unfold run_call. by rewrite Hf, Ho. Qed.

(** Calm steps from the time [t0] on *)
Definition calm_from {S} (t0 : Z) (st : Step S) : Prop := calm st ∧ t0 ≤ clock st.

Lemma hoare_calm {S E A} t0 P wrap (f : Z → S → result E A * S) Q :
  (∀ c s, t0 ≤ c → P s → Q (returned (f c s).1) (f c s).2) → hoare (calm_from t0) P (call wrap f) Q.
Proof.
  intros H. apply hoare_call. intros st s [Hst Ht] HP. rewrite run_call_calm by done. by apply H.
Qed.

(** From the world [w], a calm run of [m] returns a result with [Φ]. *)
Definition runs {S E A} (t0 : Z) (w : S) (m : prog S E A) (Φ : A → S → Prop) : Prop :=
  hoare (calm_from t0) (eq w) m (λ r s, ∃ a, r = Ok a ∧ Φ a s).

Section Runs.
Context {S : Type} (t0 : Z).

Lemma runs_ret {E A} (w : S) (a : A) (Φ : A → S → Prop) : Φ a w → runs t0 w (mret a : prog S E A) Φ.
Proof using Type. intros H. apply hoare_ret. intros s <-. eauto. Qed.

Lemma runs_bind {E A B} (w : S) (m : prog S E A) (f : A → prog S E B) Φ Ψ :
  runs t0 w m Φ → (∀ a s, Φ a s → runs t0 s (f a) Ψ) → runs t0 w (m ≫= f) Ψ.
Proof using Type.
  intros Hm Hf. eapply hoare_seq; [exact Hm| |by intros e s (a & ? & _)].
  intros a s sc Hsc (a' & [= <-] & Ha). by apply (Hf a s Ha).
Qed.

Lemma runs_call {E A} (w : S) wrap (f : Z → S → result E A * S) Φ :
  (∀ now, t0 ≤ now → ∃ a w', f now w = (Ok a, w') ∧ Φ a w') → runs t0 w (call wrap f) Φ.
Proof using Type.
  intros H. apply hoare_calm. intros c s Hc <-. destruct (H c Hc) as (a & w' & -> & Ha). simpl. eauto.
Qed.

Lemma runs_read {E A} (w : S) wrap (f : Z → S → result E A) a Φ :
  (∀ now, f now w = Ok a) → Φ a w → runs t0 w (read wrap f) Φ.
Proof using Type. intros Hf Ha. apply runs_call. intros now _. rewrite Hf. eauto. Qed.

Lemma runs_lift {E A} (w : S) (r : result E A) a Φ : r = Ok a → Φ a w → runs t0 w (lift r) Φ.
Proof using Type. intros -> Ha. apply hoare_lift. intros s <-. simpl. eauto. Qed.

Lemma runs_convert {E E' A} (w : S) (g : E → E') (m : prog S E A) Φ : runs t0 w m Φ → runs t0 w (convert g m) Φ.
Proof using Type.
  intros H. eapply hoare_convert; [exact H|intros a s (x & [= <-] & Hx); by eauto|by intros e s (a & ? & _)|by intros s (a & ? & _)].
Qed.

Lemma runs_catch {E E' A} (w : S) (m : prog S E' A) (Φ : result E' A → S → Prop) :
  runs t0 w m (λ a, Φ (Ok a)) → runs t0 w (catch m : prog S E _) Φ.
Proof using Type.
  intros H. apply hoare_catch. eapply hoare_weaken; [exact H|done|].
  intros r s (a & -> & Ha). eauto.
Qed.

Lemma runs_catch_call {E E' A} (w : S) wrap (f : Z → S → result E' A * S) (Φ : result E' A → S → Prop) :
  (∀ now, t0 ≤ now → Φ (f now w).1 (f now w).2) → runs t0 w (catch (call wrap f) : prog S E _) Φ.
Proof using Type.
  intros H. apply hoare_catch, hoare_calm. intros c s Hc <-. specialize (H c Hc).
  destruct (f c w) as [[a|e] s]; simpl in *; eauto.
Qed.

(** Calm runs whose errors are caught *)
Lemma runs_catch_lift {E E' A} (w : S) (r : result E' A) (Φ : result E' A → S → Prop) :
  Φ r w → runs t0 w (catch (lift r) : prog S E _) Φ.
Proof using Type. intros H. apply hoare_catch, hoare_lift. intros s <-. destruct r; simpl; eauto. Qed.

Lemma runs_catch_convert {E E1 E2 A} (w : S) (g : E1 → E2) (m : prog S E1 A) (Φ : result E2 A → S → Prop) :
  runs t0 w (catch m : prog S E _) (λ r, Φ (map_err g r)) → runs t0 w (catch (convert g m) : prog S E _) Φ.
Proof using Type.
  intros H s sc Hsc <-. specialize (H w sc Hsc eq_refl). revert H. unfold catch, convert.
  destruct (m w sc) as [[a|[e|]] [w' sc']]; simpl; intros [Hsc' (x & [= <-] & Hx)]; split; eauto.
Qed.

Lemma runs_catch_bind {E E' A B} (w : S) (m : prog S E' A) (f : A → prog S E' B) Φ (Ψ : result E' B → S → Prop) :
  runs t0 w (catch m : prog S E _) Φ → (∀ a s, Φ (Ok a) s → runs t0 s (catch (f a) : prog S E _) Ψ) →
  (∀ e s, Φ (Err e) s → Ψ (Err e) s) → runs t0 w (catch (m ≫= f) : prog S E _) Ψ.
Proof using Type.
  intros Hm Hf He s sc Hsc <-. specialize (Hm w sc Hsc eq_refl). revert Hm. unfold catch, mbind, prog_bind.
  destruct (m w sc) as [[a|[e|]] [w' sc']]; simpl; intros [Hsc' (x & [= <-] & Hx)]; [|by eauto].
  apply (Hf a w' Hx w' sc' Hsc' eq_refl).
Qed.

Lemma runs_weaken {E A} (w : S) (m : prog S E A) (Φ Ψ : A → S → Prop) :
  runs t0 w m Φ → (∀ a s, Φ a s → Ψ a s) → runs t0 w m Ψ.
Proof using Type. intros H Hi. eapply hoare_weaken; [exact H|done|]. intros r s (a & -> & ?). eauto. Qed.

End Runs.

(** ** Scripts under a rely condition *)

Definition relies {S} (R : S → S → Prop) (st : Step S) : Prop := ∀ s, R s (others st s).

Lemma hoare_rely {S E A} (R : S → S → Prop) (P P' : S → Prop) wrap
    (f : Z → S → result E A * S) Q :
  (∀ s s', P s → R s s' → P' s') →
  (∀ c s, P' s → Q (returned (f c s).1) (f c s).2 ∧ ∀ why, Q (Err (Failed (wrap why))) (f c s).2) →
  (∀ s why, P' s → Q (Err (Failed (wrap why))) s) → (∀ s, P' s → Q (Err Crashed) s) →
  hoare (relies R) P (call wrap f) Q.
Proof.
  intros HR Hf Hb Hd. apply hoare_call. intros st s Hst HP.
  assert (HP' : P' (others st s)) by by eapply HR. specialize (Hf (clock st) _ HP').
  unfold run_call. destruct (fate st); simpl; naive_solver.
Qed.

(** ** Programs that keep a property *)

Definition keeps {S E A} (allowed : Step S → Prop) (P : S → Prop) (m : prog S E A) : Prop :=
  hoare allowed P m (λ _, P).

Create HintDb kept discriminated.

Section Keeps.
Context {S : Type} (allowed : Step S → Prop) (P : S → Prop).
Context (Hothers : ∀ st s, allowed st → P s → P (others st s)).

Lemma kept_call {E A} wrap (f : Z → S → result E A * S) : (∀ c s, P s → P (f c s).2) → keeps allowed P (call wrap f).
Proof using Hothers.
  intros Hf. apply hoare_call. intros st s Hst HP. unfold run_call. specialize (Hothers st s Hst HP).
  destruct (fate st); simpl; auto.
Qed.

Lemma kept_read {E A} wrap (f : Z → S → result E A) : keeps allowed P (read wrap f).
Proof using Hothers. by apply kept_call. Qed.

Lemma kept_ret {E A} (a : A) : keeps allowed P (mret a : prog S E A).
Proof using Type. by apply hoare_ret. Qed.

Lemma kept_lift {E A} (r : result E A) : keeps allowed P (lift r : prog S E A).
Proof using Type. by apply hoare_lift. Qed.

Lemma kept_now {E} : keeps allowed P (utc_now : prog S E Z).
Proof using Type. by apply hoare_now. Qed.

Lemma kept_bind {E A B} (m : prog S E A) (f : A → prog S E B) :
  keeps allowed P m → (∀ a, keeps allowed P (f a)) → keeps allowed P (m ≫= f).
Proof using Type. intros Hm Hf. eapply hoare_seq; [exact Hm|exact Hf|done]. Qed.

Lemma kept_catch {E E' A} (m : prog S E' A) : keeps allowed P m → keeps allowed P (catch m : prog S E _).
Proof using Type. intros Hm. apply hoare_catch. eapply hoare_weaken; [exact Hm|done|]. intros [a|[e|]] s; done. Qed.

Lemma kept_convert {E E' A} (f : E → E') (m : prog S E A) : keeps allowed P m → keeps allowed P (convert f m).
Proof using Type. intros Hm. by eapply hoare_convert; [exact Hm|..]. Qed.

End Keeps.

#[export] Hint Resolve kept_ret kept_lift kept_now : kept.

(** Both of two triples *)
Lemma hoare_and {S E A} allowed (P P' : S → Prop) (m : prog S E A) Q Q' :
  hoare allowed P m Q → hoare allowed P' m Q' → hoare allowed (λ s, P s ∧ P' s) m (λ r s, Q r s ∧ Q' r s).
Proof. intros H H' s sc Hsc [HP HP']. destruct (H s sc Hsc HP), (H' s sc Hsc HP'). auto. Qed.

(** A triple holds for fewer scripts, if the program consumes steps one by one. *)
Lemma hoare_narrow {S E A} (allowed allowed' : Step S → Prop) (P : S → Prop) (m : prog S E A) Q :
  (∀ st, allowed' st → allowed st) → keeps allowed' (λ _, True) m → hoare allowed P m Q → hoare allowed' P m Q.
Proof.
  intros Hal Hk H s sc Hsc HP. destruct (Hk s sc Hsc I) as [Hsc' _]. split; [done|]. apply H; auto.
Qed.

(** ** What a program returns *)

Definition returns {S E A} (m : prog S E A) (Φ : A → Prop) : Prop := ∀ s sc a, (m s sc).1 = Ok a → Φ a.

Section Returns.
Context {S : Type}.

Lemma returns_any {E A} (m : prog S E A) : returns m (λ _, True).
Proof using Type. done. Qed.

Lemma returns_weaken {E A} (m : prog S E A) (Φ Ψ : A → Prop) : returns m Φ → (∀ a, Φ a → Ψ a) → returns m Ψ.
Proof using Type. intros H Hi s sc a Ha. eauto. Qed.

Lemma returns_ret {E A} (a : A) (Φ : A → Prop) : Φ a → returns (mret a : prog S E A) Φ.
Proof using Type. intros Ha s sc x [= <-]. done. Qed.

Lemma returns_bind {E A B} (m : prog S E A) (f : A → prog S E B) (Φ : A → Prop) (Ψ : B → Prop) :
  returns m Φ → (∀ a, Φ a → returns (f a) Ψ) → returns (m ≫= f) Ψ.
Proof using Type.
  intros Hm Hf s sc b. unfold mbind, prog_bind. destruct (m s sc) as [[a|e] [s' sc']] eqn:Em; [|done].
  apply Hf. apply (Hm s sc). by rewrite Em.
Qed.

Lemma returns_then {E A B} (m : prog S E A) (f : A → prog S E B) (Ψ : B → Prop) :
  (∀ a, returns (f a) Ψ) → returns (m ≫= f) Ψ.
Proof using Type. intros Hf. eapply returns_bind; [apply returns_any|auto]. Qed.

Lemma returns_read {E A} wrap (f : Z → S → result E A) (Φ : A → Prop) :
  (∀ c s a, f c s = Ok a → Φ a) → returns (read wrap f : prog S E A) Φ.
Proof using Type.
  intros Hf s sc a. unfold read, call, run_call. destruct (fate (sc 0%nat)); simpl; try done.
  destruct (f _ _) eqn:Ef; simpl; [|done]. intros [= <-]. eauto.
Qed.

Lemma returns_catch {E E' A} (m : prog S E' A) (Φ : A → Prop) :
  returns m Φ → returns (catch m : prog S E _) (λ r, ∀ a, r = Ok a → Φ a).
Proof using Type.
  intros Hm s sc r. unfold catch. destruct (m s sc) as [[a|[e|]] w] eqn:Em; simpl; try done; intros [= <-] x [= <-].
  apply (Hm s sc). by rewrite Em.
Qed.

End Returns.

(** A program keeps a property if its second part does for the results of the first. *)
Lemma kept_bind_returns {S E A B} allowed (P : S → Prop) (m : prog S E A) (f : A → prog S E B) (Φ : A → Prop) :
  keeps allowed P m → returns m Φ → (∀ a, Φ a → keeps allowed P (f a)) → keeps allowed P (m ≫= f).
Proof.
  intros Hm Hr Hf. eapply (hoare_seq _ _ _ _ (λ r s, P s ∧ ∀ a, r = Ok a → Φ a)).
  - intros s sc Hsc HP. destruct (Hm s sc Hsc HP). split; [done|]. split; [done|]. apply (Hr s sc).
  - intros a. apply (hoare_assume _ (Φ a)); [naive_solver|]. intros Ha. apply (hoare_from _ P); [by intros s []|by apply Hf].
  - by intros e s [].
Qed.
