(* ===== verification/CredentialRotation.v ===== *)
(** * The tables of credential rotation

    [api-db/src/credential_rotation.rs]: the site-wide target of each credential type,
    the progress of every device towards it, and the statements on both.  A statement is
    a function on the tables; [now] is the time of the database.  A comparison with an
    absent value is not true, as in SQL.  Hardware addresses are strings, and a time is
    a number of seconds. *)

From S2P Require Import Prelude Ordered.

(** [CredentialRotationType] *)
Inductive CredentialRotationType := Bmc | HostUefi | DpuUefi | Nvos | LockdownIkm.

#[export] Instance CredentialRotationType_eq_dec : EqDecision CredentialRotationType.
Proof. solve_decision. Defined.
#[export] Instance CredentialRotationType_countable : Countable CredentialRotationType.
Proof.
  refine (inj_countable'
    (λ t, match t with Bmc => 0 | HostUefi => 1 | DpuUefi => 2 | Nvos => 3 | LockdownIkm => 4 end%nat)
    (λ n, match n with 0 => Bmc | 1 => HostUefi | 2 => DpuUefi | 3 => Nvos | _ => LockdownIkm end%nat) _).
  by intros [].
Defined.

Inductive DatabaseError :=
| MissingSitewideRotationTarget (t : CredentialRotationType)
| InvalidArgument (message : string)
| QueryError (message : string).

(** [Debug] of the type, and the texts of the errors *)
Definition rotation_type_debug (t : CredentialRotationType) : string :=
  match t with Bmc => "Bmc" | HostUefi => "HostUefi" | DpuUefi => "DpuUefi" | Nvos => "Nvos" | LockdownIkm => "LockdownIkm" end.
Definition database_text (e : DatabaseError) : string :=
  match e with
  | MissingSitewideRotationTarget t => "no site-wide rotation target for credential type: " +:+ rotation_type_debug t
  | InvalidArgument m => "argument is invalid: " +:+ m
  | QueryError m => m
  end.

(** A row of [sitewide_credential_rotation] *)
Record Sitewide := mk_sitewide {
  target_version : Z;
  started_at : Z;
  request_meta : string;
}.

(** A row of [device_credential_rotation] *)
Record DeviceRow := mk_device {
  current_version : option Z;
  rotating_to_version : option Z;
  rotate_job_id : option string;
  rotate_attempts : Z;
  rotate_last_attempt_at : option Z;
  rotate_last_error_redacted : option string;
  rotate_quarantined_until : option Z;
}.

#[export] Instance DeviceRow_eq_dec : EqDecision DeviceRow.
Proof. solve_decision. Defined.

(** The columns of [switches] and [expected_switches] that rotation reads *)
Record SwitchRow := mk_switch {
  bmc_mac_address : option string;
  switch_deleted : bool;
}.
Record ExpectedSwitch := mk_expected {
  nvos_username : option string;
  nvos_password : option string;
  nvos_mac_addresses : list string;
}.

Record rotation_db := mk_rotation_db {
  sitewide : gmap CredentialRotationType Sitewide;
  devices : gmap (string * CredentialRotationType) DeviceRow;
  switches : gmap string SwitchRow;
  expected_switches : gmap string ExpectedSwitch;
}.

Definition set_sitewide (t : CredentialRotationType) (s : Sitewide) (db : rotation_db) : rotation_db :=
  mk_rotation_db (<[t := s]> (sitewide db)) (devices db) (switches db) (expected_switches db).
Definition set_device (k : string * CredentialRotationType) (d : DeviceRow) (db : rotation_db) : rotation_db :=
  mk_rotation_db (sitewide db) (<[k := d]> (devices db)) (switches db) (expected_switches db).

(** The integer columns have 32 bits; a result out of their range is an error. *)
Definition i32_max : Z := 2 ^ 31 - 1.
Definition plus_one (n : Z) : result DatabaseError Z :=
  if n <? i32_max then Ok (n + 1) else Err (QueryError "integer out of range").
Definition non_negative (column : string) (n : Z) : result DatabaseError () :=
  if 0 <=? n then Ok () else Err (QueryError column).

(** [a >= b] and [a > b] of SQL on a nullable column *)
Definition sql_ge (a : option Z) (b : Z) : bool := match a with Some x => b <=? x | None => false end.
Definition sql_gt (a : option Z) (b : Z) : bool := match a with Some x => b <? x | None => false end.

(** ** Backoff *)

Definition BACKOFF_BASE_SECS : Z := 900.
Definition BACKOFF_CAP_SECS : Z := 3600.

Definition saturating_mul_i64 (a b : Z) : Z := Z.max i64_min (Z.min i64_max (a * b)).
Definition saturating_pow_i64 (a e : Z) : Z := Z.max i64_min (Z.min i64_max (a ^ e)).

(** [backoff_until] *)
Definition backoff_until (prior_attempts now : Z) : Z :=
  let exp := Z.max prior_attempts 0 in
  let secs := Z.min (saturating_mul_i64 BACKOFF_BASE_SECS (saturating_pow_i64 2 exp)) BACKOFF_CAP_SECS in
  now + secs.

(** ** Devices *)

Section Statements.
Context (now : Z).

(** [record_device_converged] *)
Definition record_device_converged (mac : string) (t : CredentialRotationType) (db : rotation_db)
    : result DatabaseError rotation_db :=
  s ← ok_or (sitewide db !! t) (MissingSitewideRotationTarget t);
  match devices db !! (mac, t) with
  | Some _ => Ok db
  | None => Ok (set_device (mac, t) (mk_device (Some (target_version s)) None None 0 None None None) db)
  end.

(** [mark_device_rotating_to_version] *)
Definition mark_device_rotating_to_version (mac : string) (t : CredentialRotationType) (v : Z)
    (db : rotation_db) : result DatabaseError rotation_db :=
  _ ← non_negative "device_credential_rotation_rotating_to_version_non_negative" v;
  match devices db !! (mac, t) with
  | None => Ok (set_device (mac, t) (mk_device None (Some v) None 0 None None None) db)
  | Some d =>
      if decide (rotating_to_version d = Some v) then Ok db
      else Ok (set_device (mac, t) (mk_device (current_version d) (Some v) (rotate_job_id d)
                 (rotate_attempts d) (rotate_last_attempt_at d) (rotate_last_error_redacted d)
                 (rotate_quarantined_until d)) db)
  end.

(** [promote_rotating_to_current]; the flag says whether a row was promoted. *)
Definition promote_rotating_to_current (mac : string) (t : CredentialRotationType) (db : rotation_db)
    : bool * rotation_db :=
  match devices db !! (mac, t) with
  | Some d =>
      match rotating_to_version d with
      | Some v => (true, set_device (mac, t) (mk_device (Some v) None (rotate_job_id d) 0
                           (rotate_last_attempt_at d) None None) db)
      | None => (false, db)
      end
  | None => (false, db)
  end.

(** [increment_rotate_attempt] *)
Definition increment_rotate_attempt (mac : string) (t : CredentialRotationType) (error_redacted : string)
    (quarantined_until : Z) (db : rotation_db) : result DatabaseError rotation_db :=
  match devices db !! (mac, t) with
  | None => Ok db
  | Some d =>
      n ← plus_one (rotate_attempts d);
      Ok (set_device (mac, t) (mk_device (current_version d) (rotating_to_version d) (rotate_job_id d)
            n (Some now) (Some error_redacted) (Some quarantined_until)) db)
  end.

(** [record_device_rotation_started]: the attempt, if the target could be claimed *)
Definition record_device_rotation_started (mac : string) (t : CredentialRotationType) (v : Z)
    (db : rotation_db) : result DatabaseError (option Z * rotation_db) :=
  if v <? 0 then Err (InvalidArgument ("rotating_to_version must be non-negative, got " +:+ print_i v)) else
  match sitewide db !! t with
  | Some s =>
      if negb (target_version s =? v) then Ok (None, db) else
      match devices db !! (mac, t) with
      | None => Ok (Some 1, set_device (mac, t) (mk_device None (Some v) None 1 (Some now) None None) db)
      | Some d =>
          let idle := bool_decide (rotating_to_version d = None) &&
                      bool_decide (rotate_last_error_redacted d = None) in
          let rejected := match rotating_to_version d with Some r => r <? v | None => false end &&
                          bool_decide (is_Some (rotate_last_error_redacted d)) &&
                          bool_decide (rotate_job_id d = None) in
          let behind := match current_version d with Some c => c <? v | None => true end in
          let awake := negb (sql_gt (rotate_quarantined_until d) now) in
          if (idle || rejected) && behind && awake then
            n ← plus_one (rotate_attempts d);
            Ok (Some n, set_device (mac, t)
                  (mk_device (current_version d) (Some v) None n (Some now) None None) db)
          else Ok (None, db)
      end
  | None => Ok (None, db)
  end.

(** [record_device_rotation_submitted] *)
Definition record_device_rotation_submitted (mac : string) (t : CredentialRotationType)
    (v expected_attempt : Z) (job_id : string) (db : rotation_db)
    : result DatabaseError (bool * rotation_db) :=
  if bool_decide (job_id = EmptyString) then Err (InvalidArgument "rotation job ID must not be empty") else
  match devices db !! (mac, t) with
  | Some d =>
      if bool_decide (rotating_to_version d = Some v) && (rotate_attempts d =? expected_attempt) &&
         (bool_decide (rotate_job_id d = None) || bool_decide (rotate_job_id d = Some job_id)) &&
         bool_decide (rotate_last_error_redacted d = None) then
        Ok (true, set_device (mac, t) (mk_device (current_version d) (rotating_to_version d) (Some job_id)
                    (rotate_attempts d) (rotate_last_attempt_at d) (rotate_last_error_redacted d)
                    (rotate_quarantined_until d)) db)
      else Ok (false, db)
  | None => Ok (false, db)
  end.

(** [record_device_rotation_retry_started] *)
Definition record_device_rotation_retry_started (mac : string) (t : CredentialRotationType)
    (v expected_attempt : Z) (expected_job_id : option string) (db : rotation_db)
    : result DatabaseError (option Z * rotation_db) :=
  match devices db !! (mac, t) with
  | Some d =>
      if bool_decide (rotating_to_version d = Some v) && (rotate_attempts d =? expected_attempt) &&
         bool_decide (rotate_job_id d = expected_job_id) &&
         bool_decide (rotate_last_error_redacted d = None) &&
         negb (sql_gt (rotate_quarantined_until d) now) then
        n ← plus_one (rotate_attempts d);
        Ok (Some n, set_device (mac, t) (mk_device (current_version d) (rotating_to_version d) None n
                      (Some now) None None) db)
      else Ok (None, db)
  | None => Ok (None, db)
  end.

(** [record_device_rotation_failed] *)
Definition record_device_rotation_failed (mac : string) (t : CredentialRotationType)
    (v expected_attempt : Z) (error_redacted : string) (db : rotation_db) : bool * rotation_db :=
  match devices db !! (mac, t) with
  | Some d =>
      if bool_decide (rotating_to_version d = Some v) && (rotate_attempts d =? expected_attempt) &&
         bool_decide (rotate_job_id d = None) && bool_decide (rotate_last_error_redacted d = None) then
        (true, set_device (mac, t) (mk_device (current_version d) (rotating_to_version d) (rotate_job_id d)
                 (rotate_attempts d) (rotate_last_attempt_at d) (Some error_redacted)
                 (rotate_quarantined_until d)) db)
      else (false, db)
  | None => (false, db)
  end.

(** [record_device_rotation_succeeded] *)
Definition record_device_rotation_succeeded (mac : string) (t : CredentialRotationType)
    (v expected_attempt : Z) (expected_job_id : string) (db : rotation_db)
    : result DatabaseError (bool * rotation_db) :=
  if bool_decide (expected_job_id = EmptyString) then
    Err (InvalidArgument "rotation job ID must not be empty")
  else
  match devices db !! (mac, t) with
  | Some d =>
      if bool_decide (rotating_to_version d = Some v) && (rotate_attempts d =? expected_attempt) &&
         bool_decide (rotate_job_id d = Some expected_job_id) &&
         bool_decide (rotate_last_error_redacted d = None) then
        Ok (true, set_device (mac, t) (mk_device (rotating_to_version d) None None (rotate_attempts d)
                    (rotate_last_attempt_at d) None None) db)
      else Ok (false, db)
  | None => Ok (false, db)
  end.

(** [delete_device_converged] *)
Definition delete_device_converged (mac : string) (t : CredentialRotationType) (db : rotation_db)
    : rotation_db :=
  mk_rotation_db (sitewide db) (delete (mac, t) (devices db)) (switches db) (expected_switches db).

(** ** Targets *)

(** [current_target_version] *)
Definition current_target_version (t : CredentialRotationType) (db : rotation_db) : option Z :=
  target_version <$> sitewide db !! t.

(** [StagedRotation] *)
Record StagedRotation := mk_staged {
  staged_target : Z;
  staged_at : Z;
}.

(** [set_initial_target_version] *)
Definition set_initial_target_version (t : CredentialRotationType) (meta : string) (db : rotation_db)
    : option StagedRotation * rotation_db :=
  match sitewide db !! t with
  | Some _ => (None, db)
  | None => (Some (mk_staged 0 now), set_sitewide t (mk_sitewide 0 now meta) db)
  end.

(** [set_next_target_version] *)
Definition set_next_target_version (t : CredentialRotationType) (expected_current : Z) (meta : string)
    (db : rotation_db) : result DatabaseError (option StagedRotation * rotation_db) :=
  match sitewide db !! t with
  | Some s =>
      if target_version s =? expected_current then
        n ← plus_one (target_version s);
        Ok (Some (mk_staged n now), set_sitewide t (mk_sitewide n now meta) db)
      else Ok (None, db)
  | None => Ok (None, db)
  end.

(** ** Status *)

(** [RotationStatus] *)
Record RotationStatus := mk_status {
  st_target_version : Z;
  converged : nat;
  pending : nat;
  quarantined : nat;
  quarantined_device_macs : list string;
  st_started_at : Z;
}.

Definition is_converged (target : Z) (d : option DeviceRow) : bool :=
  sql_ge (d ≫= current_version) target.
Definition is_quarantined (d : option DeviceRow) : bool := sql_gt (d ≫= rotate_quarantined_until) now.
Definition is_pending (target : Z) (d : option DeviceRow) : bool :=
  negb (is_converged target d) && negb (is_quarantined d).

Definition count (f : option DeviceRow → bool) (l : list (option DeviceRow)) : nat :=
  length (filter (λ d, f d = true) l).

Definition sorted_macs (l : list string) : list string := foldr (bset_insert string_cmp) [] l.

(** The rows of a type, and the quarantined ones among them *)
Definition rows_of (t : CredentialRotationType) (db : rotation_db) : list ((string * CredentialRotationType) * DeviceRow) :=
  filter (λ e, e.1.2 = t) (map_to_list (devices db)).
Definition quarantined_macs (l : list ((string * CredentialRotationType) * DeviceRow)) : list string :=
  sorted_macs ((filter (λ e, is_quarantined (Some e.2) = true) l).*1.*1).

Definition live_switches (db : rotation_db) : list SwitchRow :=
  filter (λ s, switch_deleted s = false) (map_to_list (switches db)).*2.

Definition nvos_row (db : rotation_db) (s : SwitchRow) : option DeviceRow :=
  mac ← bmc_mac_address s; devices db !! (mac, Nvos).

Definition counts (s : Sitewide) (l : list (option DeviceRow)) (macs : list string) : RotationStatus :=
  mk_status (target_version s) (count (is_converged (target_version s)) l)
    (count (is_pending (target_version s)) l) (count is_quarantined l) macs (started_at s).

(** [nvos_rotation_status] *)
Definition nvos_rotation_status (db : rotation_db) : result DatabaseError RotationStatus :=
  s ← ok_or (sitewide db !! Nvos) (MissingSitewideRotationTarget Nvos);
  let macs := omap bmc_mac_address (live_switches db) in
  Ok (counts s (nvos_row db <$> live_switches db)
        (quarantined_macs (filter (λ e, e.1.1 ∈ macs) (rows_of Nvos db)))).

(** [rotation_status] *)
Definition rotation_status (t : CredentialRotationType) (db : rotation_db)
    : result DatabaseError RotationStatus :=
  if decide (t = Nvos) then nvos_rotation_status db else
  s ← ok_or (sitewide db !! t) (MissingSitewideRotationTarget t);
  Ok (counts s ((λ e, Some e.2) <$> rows_of t db) (quarantined_macs (rows_of t db))).

(** [DeviceRotationStatus] *)
Record DeviceRotationStatus := mk_device_status {
  ds_target_version : Z;
  ds_started_at : Z;
  ds_device_mac : string;
  ds_current_version : option Z;
  ds_rotating_to_version : option Z;
  ds_converged : bool;
  ds_quarantined : bool;
  ds_quarantined_until : option Z;
  ds_rotate_attempts : Z;
  ds_last_attempt_at : option Z;
  ds_last_error : option string;
}.

Definition device_status (s : Sitewide) (mac : string) (d : option DeviceRow) : DeviceRotationStatus :=
  mk_device_status (target_version s) (started_at s) mac (d ≫= current_version)
    (d ≫= rotating_to_version) (is_converged (target_version s) d) (is_quarantined d)
    (d ≫= rotate_quarantined_until) (from_option rotate_attempts 0 d) (d ≫= rotate_last_attempt_at)
    (d ≫= rotate_last_error_redacted).

(** [nvos_device_rotation_status] *)
Definition nvos_device_rotation_status (mac : string) (db : rotation_db)
    : result DatabaseError (option DeviceRotationStatus) :=
  if decide (mac ∈ omap bmc_mac_address (live_switches db)) then
    s ← ok_or (sitewide db !! Nvos) (MissingSitewideRotationTarget Nvos);
    Ok (Some (device_status s mac (devices db !! (mac, Nvos))))
  else Ok None.

(** [device_rotation_status] *)
Definition device_rotation_status (t : CredentialRotationType) (mac : string) (db : rotation_db)
    : result DatabaseError (option DeviceRotationStatus) :=
  if decide (t = Nvos) then nvos_device_rotation_status mac db
  else Ok (s ← sitewide db !! t; d ← devices db !! (mac, t); Some (device_status s mac (Some d))).

End Statements.

(** [device_rotation_operation_state]: the row itself *)
Definition device_rotation_operation_state (t : CredentialRotationType) (mac : string) (db : rotation_db)
    : option DeviceRow := devices db !! (mac, t).

(** [nvos_credential_source_gaps]: identifier, address, and whether the expected
    credentials are partial *)
Definition nvos_credential_source_gaps (db : rotation_db) : list (string * option string * bool) :=
  let rows := filter (λ e, switch_deleted e.2 = false) (map_to_list (switches db)) in
  let missing (o : option string) := bool_decide (o = None) || bool_decide (o = Some EmptyString) in
  let gaps := omap (λ '(id, s),
    let es := mac ← bmc_mac_address s; expected_switches db !! mac in
    let user := es ≫= nvos_username in
    let pass := es ≫= nvos_password in
    if missing user || missing pass then
      Some (id, bmc_mac_address s, bool_decide (is_Some user) || bool_decide (is_Some pass))
    else None) rows in
  (foldr (λ g, bmap_insert string_cmp g.1.1 g) [] gaps).*2.
