(* ===== verification/PowerShelfTable.v ===== *)
(** * Power shelves and their table

    [api-model/src/power_shelf/mod.rs] with its SLAs, what a power shelf takes from
    [api-model/src/rack.rs], and the statements of [api-db/src/power_shelf.rs].  Of a shelf
    the columns are kept that its controller reads; the BMC endpoint is a column here, where
    the load query joins it.  Times of requests are seconds, those of versions and SLAs
    nanoseconds; an error of the database is the string it prints. *)

From S2P Require Import Prelude ConfigVersion StateHistory StateHandler ControllerIO ControllerTable ProcessObject.

(** ** Data *)

(** [BmcInfo], as far as the controllers read it *)
Record BmcInfo := mk_bmc_info {
  bmc_mac : option string;
  bmc_ip : option string;
  bmc_port : option Z;
}.

(** [PowerAction] *)
Inductive PowerAction := On | GracefulShutdown | ForceOff | GracefulRestart | ForceRestart | AcPowercycle.

(** [MaintenanceActivity] *)
Inductive MaintenanceActivity :=
| FirmwareUpgrade (firmware_version : option string) (components : list string) (force_update : bool)
| NvosUpdate (config_json : string)
| ConfigureNmxCluster
| PowerSequence
| PowerControl (action : PowerAction).

(** [MaintenanceActivity::same_kind] *)
Definition same_kind (self other : MaintenanceActivity) : bool :=
  match self, other with
  | FirmwareUpgrade _ _ _, FirmwareUpgrade _ _ _ | NvosUpdate _, NvosUpdate _
  | ConfigureNmxCluster, ConfigureNmxCluster | PowerSequence, PowerSequence
  | PowerControl _, PowerControl _ => true
  | _, _ => false
  end.

(** [RackFirmwareUpgradeState] and [RackFirmwareUpgradeStatus] *)
Inductive RackFirmwareUpgradeState := UpgradeStarted | UpgradeInProgress | UpgradeCompleted | UpgradeFailed (cause : string).

Record RackFirmwareUpgradeStatus := mk_upgrade_status {
  task_id : string;
  upgrade_state : RackFirmwareUpgradeState;
  upgrade_started_at : option Z;
  upgrade_ended_at : option Z;
}.

(** [is_terminal] *)
Definition is_terminal (s : RackFirmwareUpgradeStatus) : bool :=
  match upgrade_state s with UpgradeCompleted | UpgradeFailed _ => true | _ => false end.

(** [is_current_for] *)
Definition is_current_for (s : RackFirmwareUpgradeStatus) (requested : Z) : bool :=
  match upgrade_ended_at s with Some t => requested <=? t | None => false end ||
  match upgrade_started_at s with Some t => requested <=? t | None => false end.

(** [RackState] without its sub-states *)
Inductive RackState := RackCreated | RackDiscovering | RackValidating | RackReady | RackMaintenance | RackError (cause : string) | RackDeleting.

(** [PowerShelfStatus] *)
Record PowerShelfStatus := mk_shelf_status {
  shelf_name : string;
  power_state : string;
  health_status : string;
}.

(** [PowerShelfMaintenanceOperation] and [PowerShelfMaintenanceRequest] *)
Inductive PowerShelfMaintenanceOperation := PowerOn | PowerOff.

Record PowerShelfMaintenanceRequest := mk_maintenance {
  mr_requested_at : Z;
  mr_initiator : string;
  mr_operation : PowerShelfMaintenanceOperation;
}.

(** [PowerShelfReprovisionRequest] *)
Record PowerShelfReprovisionRequest := mk_reprovision {
  rr_requested_at : Z;
  rr_initiator : string;
  rr_activities : list MaintenanceActivity;
}.

Inductive ReProvisioningState := WaitingForRackFirmwareUpgrade.

(** [PowerShelfControllerState] *)
Inductive PowerShelfControllerState :=
| Initializing
| FetchingData
| Configuring
| Ready
| RotatingBmc (retry_count : Z)
| Maintenance (operation : PowerShelfMaintenanceOperation)
| ReProvisioning (reprovisioning_state : ReProvisioningState)
| Error (cause : string)
| Deleting.

(** [PowerShelf]; state and outcome of the controller are columns of every table. *)
Record PowerShelf := mk_shelf {
  ps_name : string;
  ps_status : option PowerShelfStatus;
  ps_deleted : option Z;
  ps_bmc_mac_address : option string;
  ps_bmc_credential_rotation_requested : bool;
  ps_bmc_info : option BmcInfo;
  ps_rack_id : option string;
  ps_maintenance_requested : option PowerShelfMaintenanceRequest;
  ps_reprovisioning_requested : option PowerShelfReprovisionRequest;
  ps_firmware_upgrade_status : option RackFirmwareUpgradeStatus;
}.

Definition set_status (v : option PowerShelfStatus) (s : PowerShelf) : PowerShelf :=
  mk_shelf (ps_name s) v (ps_deleted s) (ps_bmc_mac_address s) (ps_bmc_credential_rotation_requested s) (ps_bmc_info s)
    (ps_rack_id s) (ps_maintenance_requested s) (ps_reprovisioning_requested s) (ps_firmware_upgrade_status s).
Definition set_deleted (v : option Z) (s : PowerShelf) : PowerShelf :=
  mk_shelf (ps_name s) (ps_status s) v (ps_bmc_mac_address s) (ps_bmc_credential_rotation_requested s) (ps_bmc_info s)
    (ps_rack_id s) (ps_maintenance_requested s) (ps_reprovisioning_requested s) (ps_firmware_upgrade_status s).
Definition set_rotation_requested (v : bool) (s : PowerShelf) : PowerShelf :=
  mk_shelf (ps_name s) (ps_status s) (ps_deleted s) (ps_bmc_mac_address s) v (ps_bmc_info s)
    (ps_rack_id s) (ps_maintenance_requested s) (ps_reprovisioning_requested s) (ps_firmware_upgrade_status s).
Definition set_maintenance (v : option PowerShelfMaintenanceRequest) (s : PowerShelf) : PowerShelf :=
  mk_shelf (ps_name s) (ps_status s) (ps_deleted s) (ps_bmc_mac_address s) (ps_bmc_credential_rotation_requested s)
    (ps_bmc_info s) (ps_rack_id s) v (ps_reprovisioning_requested s) (ps_firmware_upgrade_status s).
Definition set_reprovisioning (v : option PowerShelfReprovisionRequest) (s : PowerShelf) : PowerShelf :=
  mk_shelf (ps_name s) (ps_status s) (ps_deleted s) (ps_bmc_mac_address s) (ps_bmc_credential_rotation_requested s)
    (ps_bmc_info s) (ps_rack_id s) (ps_maintenance_requested s) v (ps_firmware_upgrade_status s).
Definition set_firmware (v : option RackFirmwareUpgradeStatus) (s : PowerShelf) : PowerShelf :=
  mk_shelf (ps_name s) (ps_status s) (ps_deleted s) (ps_bmc_mac_address s) (ps_bmc_credential_rotation_requested s)
    (ps_bmc_info s) (ps_rack_id s) (ps_maintenance_requested s) (ps_reprovisioning_requested s) v.

(** [PowerShelf::is_marked_as_deleted] *)
Definition is_marked_as_deleted (s : PowerShelf) : bool := bool_decide (is_Some (ps_deleted s)).

(** ** SLAs and metrics *)

Definition seconds (n : Z) : Z := n * 1000000000.
Definition INITIALIZING : Z := seconds 300.
Definition FETCHING_DATA : Z := seconds 300.
Definition CONFIGURING : Z := seconds 300.
Definition DELETING : Z := seconds 300.
Definition MAINTENANCE : Z := seconds 300.
Definition ROTATING_BMC : Z := seconds (15 * 60).
Definition REPROVISIONING : Z := seconds 3600.

(** [state_sla] *)
Definition shelf_state_sla (now : Z) (state : PowerShelfControllerState) (state_version : ConfigVersion) : StateSla :=
  let time_in_state := std_duration_or_day (now - timestamp state_version) in
  match state with
  | Initializing => with_sla INITIALIZING time_in_state
  | FetchingData => with_sla FETCHING_DATA time_in_state
  | Configuring => with_sla CONFIGURING time_in_state
  | Ready => no_sla
  | RotatingBmc _ => with_sla ROTATING_BMC time_in_state
  | Maintenance _ => with_sla MAINTENANCE time_in_state
  | ReProvisioning _ => with_sla REPROVISIONING time_in_state
  | Error _ => no_sla
  | Deleting => with_sla DELETING time_in_state
  end.

(** [metric_state_names] *)
Definition shelf_state_names (s : PowerShelfControllerState) : string * string :=
  match s with
  | Initializing => ("initializing", EmptyString)
  | FetchingData => ("fetching_data", EmptyString)
  | Configuring => ("configuring", EmptyString)
  | Ready => ("ready", EmptyString)
  | RotatingBmc _ => ("rotatingbmc", EmptyString)
  | Maintenance PowerOn => ("maintenance", "power_on")
  | Maintenance PowerOff => ("maintenance", "power_off")
  | ReProvisioning WaitingForRackFirmwareUpgrade => ("reprovisioning", "waiting_for_rack_firmware_upgrade")
  | Error _ => ("error", EmptyString)
  | Deleting => ("deleting", EmptyString)
  end%string.

(** [manual_intervention_reason] *)
Definition shelf_intervention (s : PowerShelfControllerState) : option string :=
  match s with Error _ => Some "error"%string | _ => None end.

(** ** Statements *)

Notation shelf_row := (table_row PowerShelfControllerState PowerShelf).
Notation shelf_table := (table string PowerShelfControllerState PowerShelf).

Definition update_shelf : (PowerShelf → PowerShelf) → string → shelf_table → shelf_table := update_object.

(** [power_shelf not found] of the statements that fetch one row *)
Definition found (o : string) (t : shelf_table) : result string () :=
  match rows t !! o with Some _ => Ok () | None => Err ("power_shelf not found: " +:+ o) end.

(** [NewPowerShelf] *)
Record NewPowerShelf := mk_new_shelf {
  nps_id : string;
  nps_name : string;
  nps_bmc_mac_address : option string;
  nps_rack_id : option string;
}.

(** [create] *)
Definition create (clock : Z) (n : NewPowerShelf) (t : shelf_table) : result string shelf_table :=
  match rows t !! nps_id n with
  | Some _ => Err "power_shelves_pkey"%string
  | None =>
      Ok (mk_table (<[nps_id n := mk_row (mk_versioned Initializing (initial clock)) None
            (mk_shelf (nps_name n) None None (nps_bmc_mac_address n) false None (nps_rack_id n) None None None)]> (rows t)) (log t))
  end.

(** [set_power_shelf_maintenance_requested] *)
Definition set_power_shelf_maintenance_requested (now : Z) (o initiator : string)
    (operation : PowerShelfMaintenanceOperation) : shelf_table → shelf_table :=
  update_shelf (set_maintenance (Some (mk_maintenance now initiator operation))) o.

(** [clear_power_shelf_maintenance_requested] *)
Definition clear_power_shelf_maintenance_requested : string → shelf_table → shelf_table :=
  update_shelf (set_maintenance None).

(** [set_bmc_credential_rotation_requested] and [clear_bmc_credential_rotation_requested] *)
Definition set_bmc_credential_rotation_requested (o : string) (t : shelf_table) : result string shelf_table :=
  _ ← found o t; Ok (update_shelf (set_rotation_requested true) o t).
Definition clear_bmc_credential_rotation_requested (o : string) (t : shelf_table) : result string shelf_table :=
  _ ← found o t; Ok (update_shelf (set_rotation_requested false) o t).

(** [set_power_shelf_reprovisioning_requested] *)
Definition set_power_shelf_reprovisioning_requested (now : Z) (o initiator : string)
    (activities : list MaintenanceActivity) : shelf_table → shelf_table :=
  update_shelf (set_reprovisioning (Some (mk_reprovision now initiator activities))) o.

(** [clear_power_shelf_reprovisioning_requested] *)
Definition clear_power_shelf_reprovisioning_requested : string → shelf_table → shelf_table :=
  update_shelf (set_reprovisioning None).

(** [clear_ready_power_shelf_reprovisioning_requested] *)
Definition clear_ready_power_shelf_reprovisioning_requested (o initiator : string) (t : shelf_table)
    : bool * shelf_table :=
  match rows t !! o with
  | Some r =>
      match value (row_state r), ps_reprovisioning_requested (row_object r) with
      | Ready, Some req =>
          if decide (rr_initiator req = initiator)
          then (true, clear_power_shelf_reprovisioning_requested o t) else (false, t)
      | _, _ => (false, t)
      end
  | None => (false, t)
  end.

(** [update_firmware_upgrade_status] *)
Definition update_firmware_upgrade_status (o : string) (status : option RackFirmwareUpgradeStatus)
    : shelf_table → shelf_table :=
  update_shelf (set_firmware status) o.

(** [mark_as_deleted] *)
Definition mark_as_deleted (now : Z) : string → shelf_table → shelf_table := update_shelf (set_deleted (Some now)).

(** [final_delete] *)
Definition final_delete (o : string) (t : shelf_table) : result string shelf_table :=
  match rows t !! o with
  | Some _ => Ok (mk_table (delete o (rows t)) (log t))
  | None => Err "no rows returned"%string
  end.

(** [update], which stores the status *)
Definition update (o : string) (status : option PowerShelfStatus) : shelf_table → shelf_table :=
  update_shelf (set_status status) o.
