(* ===== verification/SwitchTable.v ===== *)
(** * Switches and their tables

    [api-model/src/switch/mod.rs] with its SLAs, what a switch takes from
    [api-model/src/rack.rs], the statements of [api-db/src/switch.rs] that the controllers
    use, and the association of network interfaces with switches
    ([api-db/src/machine_interface.rs]).  Of a switch the columns are kept that its
    controller reads or writes; the BMC endpoint is a column here, where the load query joins
    it.  Times of requests are seconds, those of versions and SLAs nanoseconds; an error of
    the database is the string it prints. *)

From S2P Require Import Prelude ConfigVersion StateHistory StateHandler ControllerIO ControllerTable ProcessObject PowerShelfTable.

(** ** Data *)

(** [SwitchNvosUpdateState] and [SwitchNvosUpdateStatus] *)
Inductive SwitchNvosUpdateState := NvosStarted | NvosInProgress | NvosCompleted | NvosFailed (cause : string).

Record SwitchNvosUpdateStatus := mk_nvos_status {
  nvos_task_id : string;
  nvos_firmware_id : string;
  nvos_image_filename : string;
  nvos_state : SwitchNvosUpdateState;
  nvos_started_at : option Z;
  nvos_ended_at : option Z;
}.

(** [SwitchNvosUpdateStatus::is_terminal] and [is_current_for] *)
Definition nvos_is_terminal (s : SwitchNvosUpdateStatus) : bool :=
  match nvos_state s with NvosCompleted | NvosFailed _ => true | _ => false end.
Definition nvos_is_current_for (s : SwitchNvosUpdateStatus) (requested : Z) : bool :=
  match nvos_ended_at s with Some t => requested <=? t | None => false end ||
  match nvos_started_at s with Some t => requested <=? t | None => false end.

(** [FabricManagerState] and [FabricManagerStatus] *)
Inductive FabricManagerState := FabricOk | FabricNotOk | FabricUnknown.
Record FabricManagerStatus := mk_fabric_status {
  fabric_manager_state : FabricManagerState;
  addition_info : option string;
  fm_reason : option string;
  fm_error_message : option string;
}.

(** [is_control_plane_configured] and [display_status] *)
Definition CONTROL_PLANE_STATE_CONFIGURED : string := "CONTROL_PLANE_STATE_CONFIGURED".
Definition is_control_plane_configured (s : FabricManagerStatus) : bool :=
  match fabric_manager_state s with FabricOk => true | _ => false end &&
  bool_decide (addition_info s = Some CONTROL_PLANE_STATE_CONFIGURED).
Definition display_status (s : FabricManagerStatus) : string :=
  if is_control_plane_configured s then "running" else "not_running".

(** [SwitchMaintenanceOperation] and [SwitchMaintenanceRequest] *)
Inductive SwitchMaintenanceOperation := PowerOn | PowerOff | Reset | ReconfigureCertificate.

Record SwitchMaintenanceRequest := mk_switch_maintenance {
  smr_requested_at : Z;
  smr_initiator : string;
  smr_operation : SwitchMaintenanceOperation;
}.

(** [SwitchReprovisionRequest] *)
Record SwitchReprovisionRequest := mk_switch_reprovision {
  srr_requested_at : Z;
  srr_initiator : string;
  srr_activities : list MaintenanceActivity;
}.

(** The sub-states of the controller *)
Inductive InitializingState := WaitForOsMachineInterface.
Inductive ConfigureCertificateState := Start | WaitForComplete (job_id : string).
Inductive ConfiguringState := ConfigureCertificate (configure_certificate : ConfigureCertificateState) | RotateOsPassword.
Inductive ValidatingState := ValidationComplete.
Inductive BomValidatingState := BomValidationComplete.
Inductive ReProvisioningState := WaitingForRackFirmwareUpgrade | WaitingForNVOSUpgrade | WaitingForNMXCConfigure.

(** [SwitchControllerState] *)
Inductive SwitchControllerState :=
| Created
| Initializing (initializing_state : InitializingState)
| Configuring (config_state : ConfiguringState)
| FetchInfo
| Validating (validating_state : ValidatingState)
| BomValidating (bom_validating_state : BomValidatingState)
| Ready
| RotatingBmc (retry_count : Z)
| Maintenance (operation : SwitchMaintenanceOperation) (configure_certificate : option ConfigureCertificateState)
| ReProvisioning (reprovisioning_state : ReProvisioningState)
| Error (cause : string)
| Deleting.

#[export] Instance maintenance_operation_eq_dec : EqDecision SwitchMaintenanceOperation.
Proof. solve_decision. Defined.
#[export] Instance configure_certificate_eq_dec : EqDecision ConfigureCertificateState.
Proof. solve_decision. Defined.
#[export] Instance configuring_state_eq_dec : EqDecision ConfiguringState.
Proof. solve_decision. Defined.
#[export] Instance initializing_state_eq_dec : EqDecision InitializingState.
Proof. solve_decision. Defined.
#[export] Instance validating_state_eq_dec : EqDecision ValidatingState.
Proof. solve_decision. Defined.
#[export] Instance bom_validating_state_eq_dec : EqDecision BomValidatingState.
Proof. solve_decision. Defined.
#[export] Instance reprovisioning_state_eq_dec : EqDecision ReProvisioningState.
Proof. solve_decision. Defined.
#[export] Instance switch_state_eq_dec : EqDecision SwitchControllerState.
Proof. solve_decision. Defined.

(** [SwitchControllerState::maintenance_for_operation] *)
Definition maintenance_for_operation (operation : SwitchMaintenanceOperation) : SwitchControllerState :=
  Maintenance operation (match operation with ReconfigureCertificate => Some Start | _ => None end).

(** [Switch]; state and outcome of the controller are columns of every table. *)
Record Switch := mk_switch {
  sw_deleted : option Z;
  sw_bmc_mac_address : option string;
  sw_bmc_info : option BmcInfo;
  sw_bmc_credential_rotation_requested : bool;
  sw_maintenance_requested : option SwitchMaintenanceRequest;
  sw_reprovisioning_requested : option SwitchReprovisionRequest;
  sw_firmware_upgrade_status : option RackFirmwareUpgradeStatus;
  sw_nvos_update_status : option SwitchNvosUpdateStatus;
  sw_fabric_manager_status : option FabricManagerStatus;
  sw_rack_id : option string;
  sw_slot_number : option Z;
  sw_tray_index : option Z;
}.

Definition set_deleted (v : option Z) (s : Switch) : Switch :=
  mk_switch v (sw_bmc_mac_address s) (sw_bmc_info s) (sw_bmc_credential_rotation_requested s) (sw_maintenance_requested s)
    (sw_reprovisioning_requested s) (sw_firmware_upgrade_status s) (sw_nvos_update_status s) (sw_fabric_manager_status s)
    (sw_rack_id s) (sw_slot_number s) (sw_tray_index s).
Definition set_rotation_requested (v : bool) (s : Switch) : Switch :=
  mk_switch (sw_deleted s) (sw_bmc_mac_address s) (sw_bmc_info s) v (sw_maintenance_requested s)
    (sw_reprovisioning_requested s) (sw_firmware_upgrade_status s) (sw_nvos_update_status s) (sw_fabric_manager_status s)
    (sw_rack_id s) (sw_slot_number s) (sw_tray_index s).
Definition set_maintenance (v : option SwitchMaintenanceRequest) (s : Switch) : Switch :=
  mk_switch (sw_deleted s) (sw_bmc_mac_address s) (sw_bmc_info s) (sw_bmc_credential_rotation_requested s) v
    (sw_reprovisioning_requested s) (sw_firmware_upgrade_status s) (sw_nvos_update_status s) (sw_fabric_manager_status s)
    (sw_rack_id s) (sw_slot_number s) (sw_tray_index s).
Definition set_reprovisioning (v : option SwitchReprovisionRequest) (s : Switch) : Switch :=
  mk_switch (sw_deleted s) (sw_bmc_mac_address s) (sw_bmc_info s) (sw_bmc_credential_rotation_requested s)
    (sw_maintenance_requested s) v (sw_firmware_upgrade_status s) (sw_nvos_update_status s) (sw_fabric_manager_status s)
    (sw_rack_id s) (sw_slot_number s) (sw_tray_index s).
Definition set_firmware (v : option RackFirmwareUpgradeStatus) (s : Switch) : Switch :=
  mk_switch (sw_deleted s) (sw_bmc_mac_address s) (sw_bmc_info s) (sw_bmc_credential_rotation_requested s)
    (sw_maintenance_requested s) (sw_reprovisioning_requested s) v (sw_nvos_update_status s) (sw_fabric_manager_status s)
    (sw_rack_id s) (sw_slot_number s) (sw_tray_index s).
Definition set_nvos (v : option SwitchNvosUpdateStatus) (s : Switch) : Switch :=
  mk_switch (sw_deleted s) (sw_bmc_mac_address s) (sw_bmc_info s) (sw_bmc_credential_rotation_requested s)
    (sw_maintenance_requested s) (sw_reprovisioning_requested s) (sw_firmware_upgrade_status s) v (sw_fabric_manager_status s)
    (sw_rack_id s) (sw_slot_number s) (sw_tray_index s).
Definition set_fabric_manager (v : option FabricManagerStatus) (s : Switch) : Switch :=
  mk_switch (sw_deleted s) (sw_bmc_mac_address s) (sw_bmc_info s) (sw_bmc_credential_rotation_requested s)
    (sw_maintenance_requested s) (sw_reprovisioning_requested s) (sw_firmware_upgrade_status s) (sw_nvos_update_status s) v
    (sw_rack_id s) (sw_slot_number s) (sw_tray_index s).
Definition set_location (slot tray : option Z) (s : Switch) : Switch :=
  mk_switch (sw_deleted s) (sw_bmc_mac_address s) (sw_bmc_info s) (sw_bmc_credential_rotation_requested s)
    (sw_maintenance_requested s) (sw_reprovisioning_requested s) (sw_firmware_upgrade_status s) (sw_nvos_update_status s)
    (sw_fabric_manager_status s) (sw_rack_id s) slot tray.

(** [Switch::is_marked_as_deleted] *)
Definition is_marked_as_deleted (s : Switch) : bool := bool_decide (is_Some (sw_deleted s)).

(** ** SLAs and metrics *)

Definition INITIALIZING : Z := seconds 300.
Definition CONFIGURING : Z := seconds 300.
Definition FETCH_INFO : Z := seconds 300.
Definition VALIDATING : Z := seconds 300.
Definition DELETING : Z := seconds 300.
Definition MAINTENANCE : Z := seconds 300.
Definition ROTATING_BMC : Z := seconds (15 * 60).

(** [state_sla] *)
Definition switch_state_sla (now : Z) (state : SwitchControllerState) (state_version : ConfigVersion) : StateSla :=
  let time_in_state := std_duration_or_day (now - timestamp state_version) in
  match state with
  | Created | Initializing _ => with_sla INITIALIZING time_in_state
  | Configuring _ => with_sla CONFIGURING time_in_state
  | FetchInfo => with_sla FETCH_INFO time_in_state
  | Validating _ => with_sla VALIDATING time_in_state
  | BomValidating _ => with_sla CONFIGURING time_in_state
  | Ready => no_sla
  | RotatingBmc _ => with_sla ROTATING_BMC time_in_state
  | Maintenance _ _ => with_sla MAINTENANCE time_in_state
  | ReProvisioning _ => with_sla CONFIGURING time_in_state
  | Error _ => no_sla
  | Deleting => with_sla DELETING time_in_state
  end.

(** [metric_state_names] *)
Definition switch_state_names (s : SwitchControllerState) : string * string :=
  match s with
  | Created => ("created", EmptyString)
  | Initializing _ => ("initializing", EmptyString)
  | Configuring _ => ("configuring", EmptyString)
  | FetchInfo => ("fetchinfo", EmptyString)
  | Validating _ => ("validating", EmptyString)
  | BomValidating _ => ("bomvalidating", EmptyString)
  | Ready => ("ready", EmptyString)
  | RotatingBmc _ => ("rotatingbmc", EmptyString)
  | Maintenance PowerOn _ => ("maintenance", "power_on")
  | Maintenance PowerOff _ => ("maintenance", "power_off")
  | Maintenance Reset _ => ("maintenance", "reset")
  | Maintenance ReconfigureCertificate (Some (WaitForComplete _)) => ("maintenance", "reconfigure_certificate_wait")
  | Maintenance ReconfigureCertificate _ => ("maintenance", "reconfigure_certificate")
  | ReProvisioning _ => ("reprovisioning", EmptyString)
  | Error _ => ("error", EmptyString)
  | Deleting => ("deleting", EmptyString)
  end%string.

(** [manual_intervention_reason] *)
Definition switch_intervention (s : SwitchControllerState) : option string :=
  match s with Error _ => Some "error"%string | _ => None end.

(** ** Statements *)

Notation switch_row := (table_row SwitchControllerState Switch).
Notation switch_table := (table string SwitchControllerState Switch).

Definition update_switch : (Switch → Switch) → string → switch_table → switch_table := update_object.

(** The statements that fetch one row fail if there is none. *)
Definition fetch_one {A} (o : string) (missing : string) (t : switch_table) (a : A) : result string A :=
  match rows t !! o with Some _ => Ok a | None => Err missing end.
Definition no_rows : string := "no rows returned".
Definition not_found (o : string) : string := "switch not found: " +:+ o.

(** [NewSwitch] *)
Record NewSwitch := mk_new_switch {
  nsw_id : string;
  nsw_bmc_mac_address : option string;
  nsw_rack_id : option string;
  nsw_slot_number : option Z;
  nsw_tray_index : option Z;
}.

(** [create] *)
Definition create (clock : Z) (n : NewSwitch) (t : switch_table) : result string switch_table :=
  match rows t !! nsw_id n with
  | Some _ => Err "switches_pkey"%string
  | None =>
      Ok (mk_table (<[nsw_id n := mk_row (mk_versioned Created (initial clock)) None
            (mk_switch None (nsw_bmc_mac_address n) None false None None None None None
               (nsw_rack_id n) (nsw_slot_number n) (nsw_tray_index n))]> (rows t)) (log t))
  end.

(** [set_switch_reprovisioning_requested] and [clear_switch_reprovisioning_requested] *)
Definition set_switch_reprovisioning_requested (now : Z) (o initiator : string)
    (activities : list MaintenanceActivity) : switch_table → switch_table :=
  update_switch (set_reprovisioning (Some (mk_switch_reprovision now initiator activities))) o.
Definition clear_switch_reprovisioning_requested : string → switch_table → switch_table :=
  update_switch (set_reprovisioning None).

(** [clear_ready_switch_reprovisioning_requested] *)
Definition clear_ready_switch_reprovisioning_requested (o initiator : string) (t : switch_table) : bool * switch_table :=
  match rows t !! o with
  | Some r =>
      match value (row_state r), sw_reprovisioning_requested (row_object r) with
      | Ready, Some req =>
          if decide (srr_initiator req = initiator)
          then (true, clear_switch_reprovisioning_requested o t) else (false, t)
      | _, _ => (false, t)
      end
  | None => (false, t)
  end.

(** [set_switch_maintenance_requested] and [clear_switch_maintenance_requested] *)
Definition set_switch_maintenance_requested (now : Z) (o initiator : string) (operation : SwitchMaintenanceOperation)
    (t : switch_table) : result string switch_table :=
  fetch_one o no_rows t (update_switch (set_maintenance (Some (mk_switch_maintenance now initiator operation))) o t).
Definition clear_switch_maintenance_requested (o : string) (t : switch_table) : result string switch_table :=
  fetch_one o no_rows t (update_switch (set_maintenance None) o t).

(** [update_firmware_upgrade_status], [update_nvos_update_status] and
    [update_fabric_manager_status] *)
Definition update_firmware_upgrade_status (o : string) (status : option RackFirmwareUpgradeStatus)
    : switch_table → switch_table := update_switch (set_firmware status) o.
Definition update_nvos_update_status (o : string) (status : option SwitchNvosUpdateStatus)
    : switch_table → switch_table := update_switch (set_nvos status) o.
Definition update_fabric_manager_status (o : string) (status : option FabricManagerStatus)
    : switch_table → switch_table := update_switch (set_fabric_manager status) o.

(** [update_slot_and_tray] *)
Definition update_slot_and_tray (o : string) (slot_number tray_index : option Z) : switch_table → switch_table :=
  update_switch (set_location slot_number tray_index) o.

(** [set_bmc_credential_rotation_requested] and [clear_bmc_credential_rotation_requested] *)
Definition set_bmc_credential_rotation_requested (o : string) (t : switch_table) : result string switch_table :=
  fetch_one o (not_found o) t (update_switch (set_rotation_requested true) o t).
Definition clear_bmc_credential_rotation_requested (o : string) (t : switch_table) : result string switch_table :=
  fetch_one o (not_found o) t (update_switch (set_rotation_requested false) o t).

(** [mark_as_deleted] and [final_delete] *)
Definition mark_as_deleted (now : Z) : string → switch_table → switch_table := update_switch (set_deleted (Some now)).
Definition final_delete (o : string) (t : switch_table) : result string switch_table :=
  fetch_one o no_rows t (mk_table (delete o (rows t)) (log t)).

(** ** Interfaces *)

(** [MachineInterfaceAssociation] *)
Inductive MachineInterfaceAssociation := ToMachine (id : string) | ToSwitch (id : string) | ToPowerShelf (id : string).

(** Rows of [machine_interfaces]; the constraint [chk_max_one_association] lets at most one
    of the three references be set. *)
Record Interface := mk_interface {
  if_id : string;
  if_mac : string;
  if_association : option MachineInterfaceAssociation;
}.
Definition if_switch_id (i : Interface) : option string :=
  match if_association i with Some (ToSwitch s) => Some s | _ => None end.

(** [find_by_mac_address], in the order of the scan *)
Definition find_by_mac_address (mac : string) (t : list Interface) : list Interface := filter (λ i, if_mac i = mac) t.

(** [associate_interface_with_machine] *)
Definition same_reference (a b : MachineInterfaceAssociation) : bool :=
  match a, b with ToMachine _, ToMachine _ | ToSwitch _, ToSwitch _ | ToPowerShelf _, ToPowerShelf _ => true | _, _ => false end.
Definition associate_interface_with_machine (interface_id : string) (a : MachineInterfaceAssociation) (t : list Interface)
    : result string (list Interface) :=
  match list_find (λ i, if_id i = interface_id) t with
  | None => Err no_rows
  | Some (n, i) =>
      if match if_association i with Some b => same_reference a b | None => true end
      then Ok (<[n := mk_interface (if_id i) (if_mac i) (Some a)]> t)
      else Err "maximum one association per interface"%string
  end.
