(* ===== verification/RmsNodeIdentity.v ===== *)
(** * How a rack profile describes a node to the rack manager

    [rack/src/rms_node_type.rs], with the part of [api-model/src/rack_type.rs] it reads: the
    descriptor of a node inherits the attributes of the rack and of the role; the role, the
    vendor and the product family are generated.  A hash map is a [gmap]; where the source
    iterates over one, the order is that of [map_to_list]. *)

From S2P Require Import Prelude.

(** [RackProductFamily] *)
Inductive RackProductFamily :=
| Gb200
| Gb300
| OtherFamily (value : string).

(** [RackProductFamily::as_str] *)
Definition family_str (f : RackProductFamily) : string :=
  match f with Gb200 => "gb200" | Gb300 => "gb300" | OtherFamily v => trim v end.

(** [RackProductFamily::from_str] *)
Definition family_from_str (value : string) : option RackProductFamily :=
  let value := trim value in
  if decide (value = EmptyString) then None
  else Some (if decide (value = "gb200"%string) then Gb200
             else if decide (value = "gb300"%string) then Gb300 else OtherFamily value).

(** The vendor and the attributes of [RackCapabilityCompute], [RackCapabilitySwitch] and
    [RackCapabilityPowerShelf] *)
Record RackCapability := mk_capability {
  vendor : option string;
  role_attributes : gmap string string;
}.

(** [RackProfile], with the fields that descriptors need *)
Record RackProfile := mk_profile {
  product_family : option RackProductFamily;
  attributes : gmap string string;
  compute : RackCapability;
  switch : RackCapability;
  power_shelf : RackCapability;
}.

(** [RmsNodeRole] *)
Inductive RmsNodeRole := Compute | Switch | PowerShelf.
#[export] Instance role_eq_dec : EqDecision RmsNodeRole.
Proof. solve_decision. Defined.

Definition RMS_NODE_ROLES : list RmsNodeRole := [Compute; Switch; PowerShelf].

Definition descriptor_value (r : RmsNodeRole) : string :=
  match r with Compute => "compute" | Switch => "switch" | PowerShelf => "power_shelf" end.
Definition label (r : RmsNodeRole) : string :=
  match r with Compute => "compute" | Switch => "switch" | PowerShelf => "power shelf" end.

(** [NodeDescriptorError] and its texts *)
Inductive NodeDescriptorError :=
| MissingProductFamily
| VendorMissing (role : string).

Definition descriptor_error_text (e : NodeDescriptorError) : string :=
  match e with
  | MissingProductFamily => "rack profile does not identify an RMS product family"
  | VendorMissing role => "rack profile does not identify an RMS " +:+ role +:+ " vendor"
  end.

(** The values of [rms::NodeType] that are used *)
Inductive NodeType :=
| ComputeGb200Nvidia | ComputeGb300Nvidia | ComputeGb300Lenovo | ComputeVrnvl72Nvidia
| SwitchGb200Nvidia | SwitchGb300Nvidia | SwitchVrnvl72Nvidia
| PowershelfGb200Liteon | PowershelfGb200Delta | PowershelfGb300Liteon | PowershelfGb300Delta.
#[export] Instance node_type_eq_dec : EqDecision NodeType.
Proof. solve_decision. Defined.

(** [RmsNodeIdentity] *)
Record RmsNodeIdentity := mk_node_identity {
  role : RmsNodeRole;
  legacy : option NodeType;
  node_descriptor : gmap string string;
}.

(** ** Identities *)

Fixpoint without (drop : ascii → bool) (s : string) : string :=
  match s with
  | EmptyString => EmptyString
  | String c s => if drop c then without drop s else String c (without drop s)
  end.

(** [normalize_descriptor_value] *)
Definition normalize_descriptor_value (value : string) : string :=
  without (λ c, Ascii.eqb c " " || Ascii.eqb c "-" || Ascii.eqb c "_") (to_lowercase (trim value)).

(** [legacy_node_type] *)
Definition legacy_node_type (r : RmsNodeRole) (product_family vendor : string) : option NodeType :=
  let product_family := normalize_descriptor_value product_family in
  let vendor := normalize_descriptor_value vendor in
  let named family v := bool_decide (product_family = family) && bool_decide (vendor = v) in
  match r with
  | Compute =>
      if named "gb200"%string "nvidia"%string then Some ComputeGb200Nvidia
      else if named "gb300"%string "nvidia"%string then Some ComputeGb300Nvidia
      else if named "gb300"%string "lenovo"%string then Some ComputeGb300Lenovo
      else if named "vrnvl72"%string "nvidia"%string then Some ComputeVrnvl72Nvidia
      else None
  | Switch =>
      if named "gb200"%string "nvidia"%string then Some SwitchGb200Nvidia
      else if named "gb300"%string "nvidia"%string then Some SwitchGb300Nvidia
      else if named "vrnvl72"%string "nvidia"%string then Some SwitchVrnvl72Nvidia
      else None
  | PowerShelf =>
      if named "gb200"%string "liteon"%string then Some PowershelfGb200Liteon
      else if named "gb200"%string "delta"%string then Some PowershelfGb200Delta
      else if named "gb300"%string "liteon"%string then Some PowershelfGb300Liteon
      else if named "gb300"%string "delta"%string then Some PowershelfGb300Delta
      else None
  end.

(** [vendor_and_attributes_for_role] *)
Definition vendor_and_attributes_for_role (p : RackProfile) (r : RmsNodeRole) : option string * gmap string string :=
  let c := match r with Compute => compute p | Switch => switch p | PowerShelf => power_shelf p end in
  (vendor c, role_attributes c).

Definition non_empty (s : string) : option string := if decide (s = EmptyString) then None else Some s.

(** [node_identity_for_profile]; the chain of iterators keeps the last value of a key. *)
Definition node_identity_for_profile (p : RackProfile) (r : RmsNodeRole) : result NodeDescriptorError RmsNodeIdentity :=
  family ← ok_or (f ← product_family p; non_empty (family_str f)) MissingProductFamily;
  let '(v, role_attributes) := vendor_and_attributes_for_role p r in
  v ← ok_or (v ← v; non_empty (trim v)) (VendorMissing (label r));
  let descriptor := <["product_family"%string := family]> (<["vendor"%string := v]>
                      (<["role"%string := descriptor_value r]> (role_attributes ∪ attributes p))) in
  Ok (mk_node_identity r (legacy_node_type r family v) descriptor).

(** [compute_node_identity_for_profile], [switch_node_identity_for_profile],
    [power_shelf_node_identity_for_profile] *)
Definition compute_node_identity_for_profile (p : RackProfile) := node_identity_for_profile p Compute.
Definition switch_node_identity_for_profile (p : RackProfile) := node_identity_for_profile p Switch.
Definition power_shelf_node_identity_for_profile (p : RackProfile) := node_identity_for_profile p PowerShelf.

(** [firmware_object_component_filters_for_node_identities] *)
Definition firmware_object_component_filters_for_node_identities (components : list string)
    (identities : list RmsNodeIdentity) : list (NodeType * list string) * list (gmap string string * list string) :=
  match components with
  | [] => ([], [])
  | _ => (omap (λ i, t ← legacy i; Some (t, components)) identities,
          (λ i, (node_descriptor i, components)) <$> identities)
  end.

(** ** Warnings *)

Inductive source := FromRack | FromRole | FromNamedField.
#[export] Instance source_eq_dec : EqDecision source.
Proof. solve_decision. Defined.

(** One warning of [warn_rms_node_descriptor_attribute_overrides] *)
Record override := mk_override {
  rack_profile_id : string;
  warned_role : RmsNodeRole;
  attribute_key : string;
  overridden_source : source;
  winning_source : source;
}.

Definition named_fields (p : RackProfile) (r : RmsNodeRole) : list string :=
  let '(v, _) := vendor_and_attributes_for_role p r in
  "role"%string ::
  (if bool_decide (is_Some (v ← v; non_empty (trim v))) then ["vendor"%string] else []) ++
  (if bool_decide (is_Some (f ← product_family p; non_empty (family_str f))) then ["product_family"%string] else []).

Definition overrides_of (id : string) (p : RackProfile) (r : RmsNodeRole) : list override :=
  let '(_, role_attributes) := vendor_and_attributes_for_role p r in
  ((λ k, mk_override id r k FromRack FromRole) <$>
     filter (λ k, is_Some (attributes p !! k)) (map_to_list role_attributes).*1) ++
  omap (λ k, source ← (if bool_decide (is_Some (role_attributes !! k)) then Some FromRole
                       else if bool_decide (is_Some (attributes p !! k)) then Some FromRack else None);
             Some (mk_override id r k source FromNamedField)) (named_fields p r).

(** [warn_rms_node_descriptor_attribute_overrides]: the warnings *)
Definition warn_rms_node_descriptor_attribute_overrides (config : gmap string RackProfile) : list override :=
  '(id, p) ← map_to_list config;
  r ← RMS_NODE_ROLES;
  overrides_of id p r.

(** ** Startup *)

(** The backends of [ComponentManagerConfig] *)
Inductive ComputeBackend := ComputeCore | ComputeRms | ComputeMock.
Inductive NvSwitchBackend := SwitchNsm | SwitchRms | SwitchMock.
Inductive PowerShelfBackend := ShelfPsm | ShelfRms | ShelfMock.
Record ComponentManagerConfig := mk_cm_config {
  nv_switch_backend : NvSwitchBackend;
  power_shelf_backend : PowerShelfBackend;
  compute_tray_backend : ComputeBackend;
}.

(** [rms_node_descriptor_config_error] *)
Definition rms_node_descriptor_config_error (profile_id : string) (r : RmsNodeRole) (e : NodeDescriptorError) : string :=
  "rack profile " +:+ profile_id +:+ " cannot build RMS " +:+ label r +:+ " node descriptor: " +:+ descriptor_error_text e.

(** The check of one profile for the roles that use the backend *)
Fixpoint check_roles (id : string) (p : RackProfile) (roles : list (bool * RmsNodeRole)) : result string () :=
  match roles with
  | [] => Ok ()
  | (uses_rms, r) :: roles =>
      _ ← (if uses_rms : bool then
             match node_identity_for_profile p r with
             | Ok _ => Ok ()
             | Err e => Err (rms_node_descriptor_config_error id r e)
             end
           else Ok ());
      check_roles id p roles
  end.
Fixpoint check_profiles (roles : list (bool * RmsNodeRole)) (profiles : list (string * RackProfile)) : result string () :=
  match profiles with
  | [] => Ok ()
  | (id, p) :: profiles => _ ← check_roles id p roles; check_profiles roles profiles
  end.

Definition uses_rms (config : ComponentManagerConfig) (r : RmsNodeRole) : bool :=
  match r with
  | Compute => match compute_tray_backend config with ComputeRms => true | _ => false end
  | Switch => match nv_switch_backend config with SwitchRms => true | _ => false end
  | PowerShelf => match power_shelf_backend config with ShelfRms => true | _ => false end
  end.

(** [validate_rms_backend_rack_profiles]: the text of an invalid argument *)
Definition validate_rms_backend_rack_profiles (config : ComponentManagerConfig) (profiles : gmap string RackProfile)
    : result string () :=
  if negb (uses_rms config Compute || uses_rms config Switch || uses_rms config PowerShelf) then Ok ()
  else if decide (profiles = ∅) then
    Err "rack_profiles must contain at least one profile when component_manager uses an RMS backend"%string
  else check_profiles ((λ r, (uses_rms config r, r)) <$> RMS_NODE_ROLES) (map_to_list profiles).

(** ** What descriptors contain *)

(** The value of the sources for a key *)
Definition named_value (p : RackProfile) (r : RmsNodeRole) (k : string) : option string :=
  let '(v, _) := vendor_and_attributes_for_role p r in
  if decide (k = "role"%string) then Some (descriptor_value r)
  else if decide (k = "vendor"%string) then v ← v; non_empty (trim v)
  else if decide (k = "product_family"%string) then f ← product_family p; non_empty (family_str f)
  else None.
Definition value_of (p : RackProfile) (r : RmsNodeRole) (s : source) (k : string) : option string :=
  match s with
  | FromRack => attributes p !! k
  | FromRole => (vendor_and_attributes_for_role p r).2 !! k
  | FromNamedField => named_value p r k
  end.

(** [s'] is the next source after [s] that has the key. *)
Definition next_source (p : RackProfile) (r : RmsNodeRole) (k : string) (s s' : source) : Prop :=
  is_Some (value_of p r s k) ∧ is_Some (value_of p r s' k) ∧
  match s, s' with
  | FromRack, FromRole | FromRole, FromNamedField => True
  | FromRack, FromNamedField => value_of p r FromRole k = None
  | _, _ => False
  end.

Lemma descriptor_lookup p r i k : node_identity_for_profile p r = Ok i →
  node_descriptor i !! k =
    match value_of p r FromNamedField k with
    | Some x => Some x
    | None => match value_of p r FromRole k with Some x => Some x | None => value_of p r FromRack k end
    end.
Proof.
  unfold node_identity_for_profile, value_of, named_value.
  destruct (product_family p) as [f|]; simpl; [|done]. destruct (non_empty (family_str f)) as [family|]; [|done].
  simpl. destruct (vendor _) as [v|]; simpl; [|done]. destruct (non_empty (trim v)) as [v'|]; [|done].
  simpl. intros [= <-]. simpl.
  destruct (decide (k = "role"%string)) as [->|H1]; [by rewrite !lookup_insert_ne, lookup_insert_eq by done|].
  destruct (decide (k = "vendor"%string)) as [->|H2]; [by rewrite lookup_insert_ne, lookup_insert_eq by done|].
  destruct (decide (k = "product_family"%string)) as [->|H3]; [by rewrite lookup_insert_eq|].
  rewrite !lookup_insert_ne by done. rewrite lookup_union.
  by destruct (role_attributes _ !! k), (attributes p !! k).
Qed.

Lemma named_fields_value p r k : k ∈ named_fields p r ↔ is_Some (named_value p r k).
Proof.
  unfold named_fields, named_value. destruct (vendor_and_attributes_for_role p r) as [v a]. rewrite elem_of_cons, elem_of_app.
  set (x := v ← v; non_empty (trim v)). set (y := f ← product_family p; non_empty (family_str f)).
  assert (∀ (o : option string) (key : string), k ∈ (if bool_decide (is_Some o) then [key] else []) ↔ is_Some o ∧ k = key) as Hl.
  { intros o key. case_bool_decide; [rewrite list_elem_of_singleton|rewrite elem_of_nil]; naive_solver. }
  rewrite !Hl. destruct (decide (k = "role"%string)) as [->|H1]; [by split; [eauto|left]|].
  destruct (decide (k = "vendor"%string)) as [->|H2]; [naive_solver|].
  destruct (decide (k = "product_family"%string)) as [->|H3]; [naive_solver|].
  split; [naive_solver|by intros [? ?]].
Qed.

Lemma overrides_of_exact id p r o : o ∈ overrides_of id p r ↔
  rack_profile_id o = id ∧ warned_role o = r ∧ next_source p r (attribute_key o) (overridden_source o) (winning_source o).
Proof.
  unfold overrides_of, next_source. pose proof (named_fields_value p r) as Hn.
  destruct (vendor_and_attributes_for_role p r) as [v a] eqn:Ev.
  assert (∀ k, value_of p r FromRole k = a !! k) as Hrole by (intros k; unfold value_of; by rewrite Ev).
  assert (∀ k, k ∈ (map_to_list a).*1 ↔ is_Some (a !! k)) as Hkeys.
  { intros k. rewrite list_elem_of_fmap. split.
    - intros ([k' x] & -> & Hin%elem_of_map_to_list). eauto.
    - intros [x Hx]. exists (k, x). split; [done|]. by apply elem_of_map_to_list. }
  rewrite elem_of_app, list_elem_of_fmap, list_elem_of_omap. destruct o as [id' r' k s s'].
  cbn [rack_profile_id warned_role attribute_key overridden_source winning_source]. split.
  - intros [(k' & [= -> -> -> -> ->] & [Hk Hin]%list_elem_of_filter)|(k' & Hin & Hk)].
    + rewrite Hrole. rewrite Hkeys in Hin. done.
    + rewrite Hn in Hin. destruct (bool_decide_reflect (is_Some (a !! k'))) as [Ha|Ha].
      * simpl in Hk. injection Hk as <- <- <- <- <-. rewrite Hrole. done.
      * destruct (bool_decide_reflect (is_Some (attributes p !! k'))) as [Hp|Hp]; [|done].
        simpl in Hk. injection Hk as <- <- <- <- <-. rewrite Hrole. split_and!; try done. by apply eq_None_not_Some.
  - intros (-> & -> & Hs & Hs' & Hn'). destruct s, s'; try done.
    + left. exists k. split; [done|]. apply list_elem_of_filter. rewrite Hrole in Hs'. by rewrite Hkeys.
    + right. exists k. rewrite Hn. split; [done|]. rewrite Hrole in Hn'. rewrite Hn'.
      rewrite bool_decide_eq_false_2 by (by intros [? ?]). by rewrite bool_decide_eq_true_2.
    + right. exists k. rewrite Hn. split; [done|]. rewrite Hrole in Hs. by rewrite bool_decide_eq_true_2.
Qed.

(** The warnings at startup are exact: there is one for a key, a role and a profile
    exactly when two sources in a row (rack, role, named field) give it a value.  So in the
    descriptor that is sent, the custom value of a key is one that no warning calls
    overridden. *)
Theorem descriptor_overrides_warned config id p r i k s :
  config !! id = Some p → node_identity_for_profile p r = Ok i →
  (∀ s', mk_override id r k s s' ∈ warn_rms_node_descriptor_attribute_overrides config ↔ next_source p r k s s') ∧
  (is_Some (value_of p r s k) →
   (∀ s', mk_override id r k s s' ∉ warn_rms_node_descriptor_attribute_overrides config) →
   node_descriptor i !! k = value_of p r s k).
Proof.
  intros Hp Hi. assert (∀ s', mk_override id r k s s' ∈ warn_rms_node_descriptor_attribute_overrides config ↔ next_source p r k s s') as Hw.
  { intros s'. unfold warn_rms_node_descriptor_attribute_overrides. rewrite list_elem_of_bind. split.
    - intros ([id' p'] & Hin & Hc). apply list_elem_of_bind in Hin as (r' & Ho & _).
      apply overrides_of_exact in Ho as (<- & <- & Hn). apply elem_of_map_to_list in Hc. simpl in *. by simplify_eq.
    - intros Hn. exists (id, p). split; [|by apply elem_of_map_to_list]. apply list_elem_of_bind. exists r.
      split; [by apply overrides_of_exact|]. destruct r; unfold RMS_NODE_ROLES; set_solver. }
  split; [done|]. intros [x Hx] Hno. rewrite (descriptor_lookup p r i k Hi).
  assert (∀ s', ¬ next_source p r k s s') as Hnn by (intros s' Hn; by apply (Hno s'), Hw).
  destruct s.
  - destruct (value_of p r FromRole k) eqn:E1; [by destruct (Hnn FromRole)|].
    destruct (value_of p r FromNamedField k) eqn:E2; [by destruct (Hnn FromNamedField)|done].
  - destruct (value_of p r FromNamedField k) eqn:E2; [by destruct (Hnn FromNamedField)|]. by rewrite Hx.
  - by rewrite Hx.
Qed.

Definition demo_profile : RackProfile :=
  mk_profile (Some Gb200) {["vendor"%string := "rack vendor"%string]} (mk_capability (Some "NVIDIA"%string) ∅)
    (mk_capability None ∅) (mk_capability None ∅).

Lemma descriptor_overrides_warned_witness :
  let config := {["gb"%string := demo_profile]} in
  mk_override "gb" Compute "vendor" FromRack FromNamedField ∈ warn_rms_node_descriptor_attribute_overrides config.
Proof.
  apply (descriptor_overrides_warned {["gb"%string := demo_profile]} "gb" demo_profile Compute
    (mk_node_identity Compute (Some ComputeGb200Nvidia)
       (<["product_family"%string := "gb200"%string]> (<["vendor"%string := "NVIDIA"%string]>
          (<["role"%string := "compute"%string]> (∅ ∪ {["vendor"%string := "rack vendor"%string]})))))
    "vendor" FromRack); [reflexivity|vm_compute; reflexivity|].
  split; [by eexists|]. split; [by eexists|]. vm_compute. reflexivity.
Defined.

(** What startup validation guarantees *)

Lemma check_roles_ok id p roles : check_roles id p roles = Ok () ↔
  ∀ r, (true, r) ∈ roles → ∃ i, node_identity_for_profile p r = Ok i.
Proof.
  induction roles as [|[b r] roles IH]; simpl; [split; [by intros _ r ?%not_elem_of_nil|done]|].
  split.
  - intros H r' [[= <- <-]|Hin]%elem_of_cons.
    + simpl in H. destruct (node_identity_for_profile p r') as [i|]; [eauto|done].
    + assert (check_roles id p roles = Ok ()) as H'.
      { destruct b; [|exact H]. by destruct (node_identity_for_profile p r). }
      by apply IH.
  - intros H. assert (check_roles id p roles = Ok ()) as -> by (apply IH; intros r' Hr'; apply H; by right).
    destruct b; [|done]. by destruct (H r) as [i ->]; [left|].
Qed.

Lemma check_profiles_ok roles profiles : check_profiles roles profiles = Ok () ↔
  ∀ id p, (id, p) ∈ profiles → check_roles id p roles = Ok ().
Proof.
  induction profiles as [|[id p] profiles IH]; simpl; [split; [by intros _ id p ?%not_elem_of_nil|done]|].
  split.
  - intros H id' p' Hin. destruct (check_roles id p roles) as [[]|] eqn:Ec; [|done].
    apply elem_of_cons in Hin as [[= -> ->]|Hin]; [done|]. by apply IH.
  - intros H. rewrite (H id p) by (by left). simpl. apply IH. intros. apply H. by right.
Qed.

(** Validation succeeds exactly when every profile describes every role that uses RMS. *)
Lemma validate_exact config profiles :
  validate_rms_backend_rack_profiles config profiles = Ok () ↔
  ((∃ r, uses_rms config r = true) → profiles ≠ ∅ ∧
    ∀ id p r, profiles !! id = Some p → uses_rms config r = true → ∃ i, node_identity_for_profile p r = Ok i).
Proof.
  unfold validate_rms_backend_rack_profiles.
  destruct (negb _) eqn:En.
  - apply negb_true_iff, orb_false_iff in En as [[E1 E2]%orb_false_iff E3].
    split; [|done]. intros _ [r Hr]. destruct r; congruence.
  - apply negb_false_iff in En. assert (∃ r, uses_rms config r = true) as Hex.
    { rewrite !orb_true_iff in En. destruct En as [[?|?]|?]; eauto. }
    destruct (decide (profiles = ∅)) as [->|Hne]; [split; [done|naive_solver]|].
    rewrite check_profiles_ok. split.
    + intros H _. split; [done|]. intros id p r Hp Hr. apply elem_of_map_to_list in Hp.
      specialize (H id p Hp). rewrite check_roles_ok in H. apply H. apply list_elem_of_fmap. exists r. rewrite Hr.
      split; [done|]. unfold RMS_NODE_ROLES. destruct r; set_solver.
    + intros H id p Hp%elem_of_map_to_list. apply check_roles_ok. intros r (r' & [= Hr ->] & _)%list_elem_of_fmap.
      destruct (H Hex) as [_ H']. by eapply H'.
Qed.
