(* ===== verification/RotationWorld.v ===== *)
(** * What a credential rotation acts on

    The database, the secret store ([secrets/src/credentials.rs], [chained_reader.rs]) and
    the baseboard management controllers (BMCs) behind the Redfish client pool
    ([redfish/src/libredfish/mod.rs]), with the calls of the rotation engine on them.  A
    BMC has one root account; a request that authenticates with other credentials is
    rejected and counts as a failed login.  The account ids of the client and its redaction
    of error texts are left out. *)

From S2P Require Import Prelude ObjectQueue ControllerTable SwitchTable PowerShelfTable Credentials CredentialRotation Calls.

(** ** Switches as the rotation of their passwords sees them

    The operating system (NVOS) of a switch has one administrator account.  A backend
    changes its password on request: it accepts a request, works on it whenever it likes,
    possibly more than once, and lets its caller observe the job.  Which requests it has
    accepted and which jobs have succeeded is recorded here; the record is what the
    documentation of [NvSwitchManager] ([component-manager/src/nv_switch_manager.rs]) talks
    about, and nothing of the source reads it. *)

(** [SwitchEndpointRow], without the id, which is the key *)
Record SwitchEndpointRow := mk_endpoint_row {
  er_bmc_mac : string;
  er_bmc_ip : string;
  er_nvos_mac : option string;
  er_nvos_ip : option string;
  er_nvos_hostname : option string;
}.

(** A request to take the account of a switch from its current credentials to the next
    password *)
Record NvosRequest := mk_nvos_request {
  rq_mac : string;
  rq_current : Credentials;
  rq_next : string;
}.

#[export] Instance nvos_request_eq_dec : EqDecision NvosRequest.
Proof. solve_decision. Defined.

(** [switch_os] holds the accounts by the address of the BMC; [rms_jobs] the accepted
    request of a job and whether the job succeeded; [endpoint_rows] is what the query for
    endpoints finds. *)
Record SwitchFabric := mk_fabric {
  switch_os : gmap string Credentials;
  rms_requests : list NvosRequest;
  rms_jobs : gmap string (NvosRequest * bool);
  endpoint_rows : gmap string SwitchEndpointRow;
}.

Definition no_fabric : SwitchFabric := mk_fabric ∅ [] ∅ ∅.

(** The account after the request *)
Definition rq_target (r : NvosRequest) : Credentials := UsernamePassword (username (rq_current r)) (rq_next r).

Definition set_os (m : string) (c : Credentials) (f : SwitchFabric) : SwitchFabric :=
  mk_fabric (<[m := c]> (switch_os f)) (rms_requests f) (rms_jobs f) (endpoint_rows f).
Definition add_request (r : NvosRequest) (f : SwitchFabric) : SwitchFabric :=
  mk_fabric (switch_os f) (r :: rms_requests f) (rms_jobs f) (endpoint_rows f).
Definition set_job (j : string) (r : NvosRequest) (done : bool) (f : SwitchFabric) : SwitchFabric :=
  mk_fabric (switch_os f) (rms_requests f) (<[j := (r, done)]> (rms_jobs f)) (endpoint_rows f).

(** What the backend does by itself: if the account has the current credentials of an
    accepted request, it gets the next password; a job of a request whose target the
    account has may be recognised as successful. *)
Inductive backend_step (f : SwitchFabric) : SwitchFabric → Prop :=
| backend_applies r : r ∈ rms_requests f → switch_os f !! rq_mac r = Some (rq_current r) →
    backend_step f (set_os (rq_mac r) (rq_target r) f)
| backend_succeeds j r b : rms_jobs f !! j = Some (r, b) → switch_os f !! rq_mac r = Some (rq_target r) →
    backend_step f (set_job j r true f).

(** The backend accepts a request, with the job that stands for it, if there is one *)
Inductive accepted (r : NvosRequest) (f : SwitchFabric) : option string → SwitchFabric → Prop :=
| accepted_bare : accepted r f None (add_request r f)
| accepted_job j : rms_jobs f !! j = None → accepted r f (Some j) (set_job j r false (add_request r f))
| accepted_again j r' b : rms_jobs f !! j = Some (r', b) → rq_mac r' = rq_mac r → rq_next r' = rq_next r →
    accepted r f (Some j) (add_request r f).

(** The backend leaves the rows of the database alone. *)
Lemma backend_rows f f' : rtc backend_step f f' → endpoint_rows f' = endpoint_rows f.
Proof. intros Hs. induction Hs as [f|f f1 f2 Hs _ IH]; [done|]. rewrite IH. by destruct Hs. Qed.

(** [RedfishVendor] of the Redfish library, as far as the source names it *)
Inductive RedfishVendor :=
| Lenovo | NvidiaDpu | NvidiaGH200 | NvidiaGBSwitch | P3809 | LiteOnPowerShelf | DeltaPowerShelf
| NvidiaGBx00 | VeraRubin | AMI | LenovoAMI | LenovoGB300 | Supermicro | Dell | Hpe | Unknown.

#[export] Instance RedfishVendor_eq_dec : EqDecision RedfishVendor.
Proof. solve_decision. Defined.

(** The state of a BMC: the root account, whether the account service answers before a
    factory password is changed, which passwords it accepts, whether it rejects the
    password it already has, the vendor of the service root, the manufacturers of the
    chassis, whether the policy of the vendor is set, and the failed logins so far. *)
Record BmcState := mk_bmc {
  account : Credentials;
  password_change_required : bool;
  accepts : string → bool;
  rejects_reuse : bool;
  service_root_vendor : option RedfishVendor;
  chassis : list (option string);
  policy_set : bool;
  failed_logins : nat;
}.

Inductive BmcSuppressionSubsystem := SiteExplorer | Dhcp.

#[export] Instance Subsystem_eq_dec : EqDecision BmcSuppressionSubsystem.
Proof. solve_decision. Defined.
#[export] Instance Subsystem_countable : Countable BmcSuppressionSubsystem.
Proof.
  refine (inj_countable' (λ s, match s with SiteExplorer => true | Dhcp => false end)
    (λ b : bool, if b then SiteExplorer else Dhcp) _). by intros [].
Defined.

(** [BmcSuppression]; the address and the subsystem are the key. *)
Record BmcSuppression := mk_suppression {
  reason : string;
  requested_at : Z;
  acknowledged_at : option Z;
}.

(** [BmcCredentialRotationResult], the label of the counter of results *)
Inductive RotationResult := ResultConverged | ResultRecovered | ResultQuarantined.

(** [shadow] holds the credentials of readers that come before the writer in the chain;
    [switch_queue] is the queue of the switch controller; [racks] holds the states of the
    racks; [fabric] holds the switches and the backend that changes their passwords;
    [switch_rows] is the table of the switch controller. *)
Record World := mk_world {
  rot : rotation_db;
  store : gmap string Credentials;
  shadow : gmap string Credentials;
  bmcs : gmap (string * option Z) BmcState;
  sessions : gset string;
  suppressions : gmap (string * BmcSuppressionSubsystem) BmcSuppression;
  results : list (string * RotationResult);
  switch_queue : gmap string queue_row;
  power_shelves : shelf_table;
  racks : gmap string RackState;
  fabric : SwitchFabric;
  switch_rows : switch_table;
  interfaces : list Interface;
}.

Definition set_rot (r : rotation_db) (w : World) : World :=
  mk_world r (store w) (shadow w) (bmcs w) (sessions w) (suppressions w) (results w) (switch_queue w)
    (power_shelves w) (racks w) (fabric w)
    (switch_rows w) (interfaces w).
Definition set_store (s : gmap string Credentials) (w : World) : World :=
  mk_world (rot w) s (shadow w) (bmcs w) (sessions w) (suppressions w) (results w) (switch_queue w)
    (power_shelves w) (racks w) (fabric w)
    (switch_rows w) (interfaces w).
Definition set_bmcs (b : gmap (string * option Z) BmcState) (w : World) : World :=
  mk_world (rot w) (store w) (shadow w) b (sessions w) (suppressions w) (results w) (switch_queue w)
    (power_shelves w) (racks w) (fabric w)
    (switch_rows w) (interfaces w).
Definition set_sessions (s : gset string) (w : World) : World :=
  mk_world (rot w) (store w) (shadow w) (bmcs w) s (suppressions w) (results w) (switch_queue w)
    (power_shelves w) (racks w) (fabric w)
    (switch_rows w) (interfaces w).
Definition set_suppressions (s : gmap (string * BmcSuppressionSubsystem) BmcSuppression) (w : World) : World :=
  mk_world (rot w) (store w) (shadow w) (bmcs w) (sessions w) s (results w) (switch_queue w)
    (power_shelves w) (racks w) (fabric w)
    (switch_rows w) (interfaces w).
Definition set_switch_queue (q : gmap string queue_row) (w : World) : World :=
  mk_world (rot w) (store w) (shadow w) (bmcs w) (sessions w) (suppressions w) (results w) q
    (power_shelves w) (racks w) (fabric w)
    (switch_rows w) (interfaces w).
Definition add_result (m : string) (r : RotationResult) (w : World) : World :=
  mk_world (rot w) (store w) (shadow w) (bmcs w) (sessions w) (suppressions w) (results w ++ [(m, r)]) (switch_queue w)
    (power_shelves w) (racks w) (fabric w)
    (switch_rows w) (interfaces w).

Definition set_power_shelves (t : shelf_table) (w : World) : World :=
  mk_world (rot w) (store w) (shadow w) (bmcs w) (sessions w) (suppressions w) (results w) (switch_queue w) t (racks w) (fabric w)
    (switch_rows w) (interfaces w).
Definition set_racks (r : gmap string RackState) (w : World) : World :=
  mk_world (rot w) (store w) (shadow w) (bmcs w) (sessions w) (suppressions w) (results w) (switch_queue w)
    (power_shelves w) r (fabric w) (switch_rows w) (interfaces w).

Definition set_fabric (f : SwitchFabric) (w : World) : World :=
  mk_world (rot w) (store w) (shadow w) (bmcs w) (sessions w) (suppressions w) (results w) (switch_queue w)
    (power_shelves w) (racks w) f (switch_rows w) (interfaces w).

(** The rotation reads columns of the same rows. *)
Definition rotation_columns (t : switch_table) : gmap string SwitchRow :=
  (λ r, mk_switch (sw_bmc_mac_address (row_object r)) (SwitchTable.is_marked_as_deleted (row_object r))) <$> rows t.
Definition set_switch_rows (t : switch_table) (w : World) : World :=
  mk_world (mk_rotation_db (sitewide (rot w)) (devices (rot w)) (rotation_columns t) (expected_switches (rot w)))
    (store w) (shadow w) (bmcs w) (sessions w) (suppressions w) (results w) (switch_queue w)
    (power_shelves w) (racks w) (fabric w) t (interfaces w).
Definition set_interfaces (t : list Interface) (w : World) : World :=
  mk_world (rot w) (store w) (shadow w) (bmcs w) (sessions w) (suppressions w) (results w) (switch_queue w)
    (power_shelves w) (racks w) (fabric w) (switch_rows w) t.

(** ** The secret store *)

Definition path (k : CredentialKey) : string := default EmptyString (to_key_str k).

(** The effective credentials: the first reader of the chain that has some *)
Definition effective (w : World) (k : CredentialKey) : option Credentials :=
  match shadow w !! path k with Some c => Some c | None => store w !! path k end.

(** [get_credentials] of [CompositeCredentialManager] over [ChainedCredentialReader] *)
Definition get_credentials (k : CredentialKey) : prog World string (option Credentials) :=
  read id (λ _ w, Ok (effective w k)).

(** [get_credentials_from_writer] *)
Definition get_credentials_from_writer (k : CredentialKey) : prog World string (option Credentials) :=
  read id (λ _ w, Ok (store w !! path k)).

(** [set_credentials] *)
Definition set_credentials (k : CredentialKey) (c : Credentials) : prog World string () :=
  call id (λ _ w, (Ok (), set_store (<[path k := c]> (store w)) w)).

(** [create_credentials]: never overwrites *)
Definition create_credentials (k : CredentialKey) (c : Credentials) : prog World string () :=
  call id (λ _ w, match store w !! path k with
                  | Some _ => (Err "already exists"%string, w)
                  | None => (Ok (), set_store (<[path k := c]> (store w)) w)
                  end).

(** ** Redfish *)

Inductive RedfishError :=
| Unauthorized
| PasswordChangeRequired
| MissingVendor
| OtherError (message : string).

Definition error_text (e : RedfishError) : string :=
  match e with
  | Unauthorized => "unauthorized"
  | PasswordChangeRequired => "password change required"
  | MissingVendor => "missing vendor"
  | OtherError m => m
  end.

Notation location := (string * option Z)%type.

(** A request to a BMC *)
Definition request {A} (loc : location) (f : BmcState → result RedfishError A * BmcState)
    : prog World RedfishError A :=
  call OtherError (λ _ w, match bmcs w !! loc with
                          | None => (Err (OtherError "connection refused"), w)
                          | Some b => let '(r, b) := f b in (r, set_bmcs (<[loc := b]> (bmcs w)) w)
                          end).

Definition fail_login (b : BmcState) : BmcState :=
  mk_bmc (account b) (password_change_required b) (accepts b) (rejects_reuse b) (service_root_vendor b)
    (chassis b) (policy_set b) (S (failed_logins b)).
Definition set_password (p : string) (b : BmcState) : BmcState :=
  mk_bmc (UsernamePassword (username (account b)) p) false (accepts b) (rejects_reuse b)
    (service_root_vendor b) (chassis b) (policy_set b) (failed_logins b).
Definition set_policy (b : BmcState) : BmcState :=
  mk_bmc (account b) (password_change_required b) (accepts b) (rejects_reuse b) (service_root_vendor b)
    (chassis b) true (failed_logins b).

Definition authenticated {A} (c : Credentials) (f : BmcState → result RedfishError A * BmcState)
    (b : BmcState) : result RedfishError A * BmcState :=
  if decide (account b = c) then f b else (Err Unauthorized, fail_login b).

(** The change of a password by its account; a BMC may refuse the password. *)
Definition patch_password (new_password : string) (b : BmcState) : result RedfishError () * BmcState :=
  if negb (accepts b new_password) then (Err (OtherError "password rejected"), b)
  else if rejects_reuse b && bool_decide (password (account b) = new_password)
  then (Err (OtherError "password reuse"), b)
  else (Ok (), set_password new_password b).

(** [change_password_by_id] *)
Definition change_password_by_id (loc : location) (c : Credentials) (new_password : string)
    : prog World RedfishError () :=
  request loc (authenticated c (patch_password new_password)).

(** [change_password], which first reads the accounts *)
Definition change_password (loc : location) (c : Credentials) (new_password : string)
    : prog World RedfishError () :=
  request loc (authenticated c (λ b,
    if password_change_required b then (Err PasswordChangeRequired, b)
    else patch_password new_password b)).

(** The dispatch of [set_bmc_root_password] on the vendor *)
Definition change_by_vendor (loc : location) (vendor : RedfishVendor) (c : Credentials)
    (new_password : string) : prog World RedfishError () :=
  match vendor with
  | Lenovo | NvidiaDpu | NvidiaGH200 | NvidiaGBSwitch | P3809 | LiteOnPowerShelf | DeltaPowerShelf
  | NvidiaGBx00 | VeraRubin => change_password_by_id loc c new_password
  | AMI | LenovoAMI | LenovoGB300 =>
      r ← catch (change_password loc c new_password);
      match r with
      | Ok () => mret ()
      | Err PasswordChangeRequired => change_password_by_id loc c new_password
      | Err e => lift (Err e)
      end
  | Supermicro | Dell | Hpe => change_password loc c new_password
  | Unknown => lift (Err MissingVendor)
  end.

(** [set_bmc_root_password] *)
Definition set_bmc_root_password (loc : location) (vendor : RedfishVendor) (current : Credentials)
    (new_password : string) : prog World RedfishError () :=
  _ ← change_by_vendor loc vendor current new_password;
  request loc (authenticated (UsernamePassword (username current) new_password) (λ b, (Ok (), set_policy b))).

(** [bmc_credentials_valid] *)
Definition bmc_credentials_valid (loc : location) (c : Credentials) : prog World RedfishError bool :=
  r ← catch (request loc (authenticated c (λ b, (Ok (), b))));
  match r with
  | Ok () => mret true
  | Err Unauthorized => mret false
  | Err e => lift (Err e)
  end.

Definition contains_str (s needle : string) : bool :=
  match String.index 0 needle s with Some _ => true | None => false end.

(** The vendor by the manufacturer of a chassis *)
Definition vendor_of_manufacturer (m : string) : option RedfishVendor :=
  let m := to_lowercase m in
  if contains_str m "lite-on" then Some LiteOnPowerShelf
  else if contains_str m "delta" then Some DeltaPowerShelf
  else None.

Fixpoint probe_chassis (loc : location) (c : Credentials) (ids : list nat) : prog World RedfishError RedfishVendor :=
  match ids with
  | [] => lift (Err MissingVendor)
  | i :: ids =>
      manufacturer ← request loc (authenticated c (λ b, (ok_or (chassis b !! i) (OtherError "not found"), b)));
      match manufacturer ≫= vendor_of_manufacturer with
      | Some v => mret v
      | None => probe_chassis loc c ids
      end
  end.

(** [probe_bmc_vendor] *)
Definition probe_bmc_vendor (loc : location) (c : Credentials) : prog World RedfishError RedfishVendor :=
  let by_chassis :=
    ids ← request loc (authenticated c (λ b, (Ok (seq 0 (length (chassis b))), b)));
    probe_chassis loc c ids in
  root ← catch (request loc (λ b, (Ok (service_root_vendor b), b)));
  match root with
  | Ok (Some v) => if decide (v = Unknown) then by_chassis else mret v
  | _ => by_chassis
  end.
