(* ===== verification/HandlerRuns.v ===== *)
(** * Handlers on the world, and runs of the processor on one object

    The handlers of the power shelf and the switch controllers call the database outside of
    transactions, secret stores, devices and backends; others act between the calls, which
    fail as the script says.  A transaction is the list of its writes, which take effect
    together when it is committed.  A run of the state processor
    ([state-controller/src/controller/processor.rs], [process_object]) loads the object,
    calls its handler, and commits the outcome; here its own statements work, and what
    happens when they do not is the subject of [ProcessObjectFacts]. *)

From S2P Require Import Prelude ConfigVersion StateHistory StateHandler ControllerIO ProcessObject ControllerTable Calls RotationWorld.

Notation handler := (prog World StateHandlerError).

(** ** Transactions *)

Definition Txn : Type := list (World → World).
Definition in_txn (txn : Txn) (w : World) : World := foldl (λ w write, write w) w txn.

(** [db_pool.begin().await?] *)
Definition begin_txn : handler Txn := read TransactionError (λ _ _, Ok []).

(** A statement sees the world with the writes of its transaction. *)
Definition statement (f : Z → World → result string World) (txn : Txn) : handler Txn :=
  read DBError (λ now w,
    match f now (in_txn txn w) with
    | Ok _ => Ok (txn ++ [λ w, match f now w with Ok w => w | Err _ => w end])
    | Err e => Err (DBError e)
    end).

(** [txn.commit().await?] *)
Definition commit_txn (txn : Txn) : handler () := call TransactionError (λ _ w, (Ok (), in_txn txn w)).

(** A panic ends the task. *)
Definition panic {A} : handler A := λ w sc, (Err Crashed, (w, sc)).

(** [.with_txn(txn)] of an outcome that has none *)
Definition attach_txn {CS} (txn : Txn) (oc : StateHandlerOutcome Txn CS) : StateHandlerOutcome Txn CS :=
  default oc (with_txn txn oc).

Lemma in_txn_app txn f w : in_txn (txn ++ [f]) w = f (in_txn txn w).
Proof. unfold in_txn. by rewrite foldl_app. Qed.

(** ** Runs *)

Section Runs.
Context {CS Obj C : Type}.
Notation object_table := (table string CS Obj).
Notation Outcome := (StateHandlerOutcome Txn CS).
Context (tbl : World → object_table) (set_tbl : object_table → World → World).
Context (sla : Z → CS → ConfigVersion → StateSla) (o : string).

Definition on_table (f : object_table → result string object_table) : Txn → handler Txn :=
  statement (λ _ w, (λ t, set_tbl t w) <$> f (tbl w)).

Definition store_outcome (r : result StateHandlerError Outcome) (w : World) : World :=
  match from_result r with Some p => set_tbl (update_controller_state_outcome (tbl w) o p) w | None => w end.
Definition above_sla (clk : Clock) (cs : Versioned CS) : bool :=
  time_in_state_above_sla (sla (at_sla clk) (value cs) (version cs)).

(** What the processor commits: the transaction of the outcome, the next state if the
    version is still the one that was loaded, with its entry of the history, and the
    outcome. *)
Definition commit_run (clk : Clock) (cs : Versioned CS) (r : result StateHandlerError Outcome) (now : Z) (w : World) : World :=
  let w := match r with Ok oc => in_txn (default [] (fst (take_transaction oc))) w | Err _ => w end in
  let w := match r with
           | Ok (Transition n _ _) =>
               let nv := increment (at_increment clk) (version cs) in
               let '(ok, t) := try_update_controller_state (tbl w) o (version cs) nv n in
               if ok : bool then set_tbl (persist_history_row t now o nv n) w else w
           | _ => w
           end in
  store_outcome (sla_outcome (above_sla clk cs) r) w.

(** A commit writes the table, and what the transaction writes. *)
Lemma commit_keeps (P : World → Prop) clk cs r now w : (∀ t w, P w → P (set_tbl t w)) → P w →
  (∀ oc, r = Ok oc → P (in_txn (default [] (fst (take_transaction oc))) w)) → P (commit_run clk cs r now w).
Proof using Type.
  intros Ht Hw Hr. assert (Hs : ∀ r w, P w → P (store_outcome r w)).
  { intros r' w' Hw'. unfold store_outcome. destruct (from_result r'); auto. }
  unfold commit_run. apply Hs. destruct r as [oc|]; [|done]. specialize (Hr oc eq_refl). destruct oc; try done.
  destruct (try_update_controller_state _ _ _ _ _) as [[] t']; auto.
Qed.

Lemma commit_view {A} (v : World → A) clk cs r now w : (∀ t w, v (set_tbl t w) = v w) →
  v (commit_run clk cs r now w) = v (match r with Ok oc => in_txn (default [] (fst (take_transaction oc))) w | Err _ => w end).
Proof using Type.
  intros Ht. unfold commit_run, store_outcome. destruct (from_result _); rewrite ?Ht; (destruct r as [oc|]; [|done]); destruct oc; try done;
    destruct (try_update_controller_state _ _ _ _ _) as [[] t']; by rewrite ?Ht.
Qed.

(** One run of the processor on the object; [cache] is kept from run to run. *)
Definition object_run (attempt : Obj → CS → C → handler (Outcome * C)) (clk : Clock) (cache : C) : handler C :=
  row ← read DBError (λ _ w, ok_or (rows (tbl w) !! o) (MissingData o "object_state"));
  let cs := row_state row in
  r ← catch (attempt (row_object row) (value cs) cache);
  _ ← call DBError (λ now w, (Ok (), commit_run clk cs (fst <$> r) now w));
  mret (match r with Ok (_, cache) => cache | Err _ => cache end).

(** ** State machines *)

Context (Hset : ∀ t w, tbl (set_tbl t w) = t).

Definition state_of (w : World) : option (Versioned CS) := row_state <$> rows (tbl w) !! o.
Definition same_state (w w' : World) : Prop := state_of w' = state_of w.

(** A transaction that leaves states of controllers alone *)
Definition plain_txn (txn : Txn) : Prop := ∀ w, state_of (in_txn txn w) = state_of w.

Lemma plain_nil : plain_txn [].
Proof using Type. done. Qed.

Lemma begin_plain : returns begin_txn plain_txn.
Proof using Type. apply returns_read. intros c w a [= <-]. apply plain_nil. Qed.

Lemma statement_plain f txn : plain_txn txn → (∀ now w w', f now w = Ok w' → state_of w' = state_of w) →
  returns (statement f txn) plain_txn.
Proof using Type.
  intros Ht Hf. apply returns_read. intros c w a. destruct (f c (in_txn txn w)); [|done]. intros [= <-] w'.
  rewrite in_txn_app. destruct (f c (in_txn txn w')) as [w2|] eqn:E; [|apply Ht]. rewrite (Hf _ _ _ E). apply Ht.
Qed.

Lemma update_object_state f o' t w : state_of (set_tbl (update_object f o' t) w) = row_state <$> rows t !! o.
Proof using Hset.
  unfold state_of. rewrite Hset. simpl. destruct (decide (o' = o)) as [->|Hne]; [|by rewrite lookup_alter_ne].
  rewrite lookup_alter_eq. by destruct (rows t !! o).
Qed.

Lemma on_table_plain f g o' txn : plain_txn txn → (∀ t t', f t = Ok t' → t' = update_object g o' t) →
  returns (on_table f txn) plain_txn.
Proof using Hset.
  intros Ht Hf. apply statement_plain; [done|]. intros now w w'. destruct (f (tbl w)) as [t|] eqn:E; [|done].
  simpl. intros [= <-]. rewrite (Hf _ _ E). apply update_object_state.
Qed.

(** The edges of the state machine, and the states from which an object is removed *)
Context (edge : CS → CS → bool) (last : CS → Prop).

Definition permitted (cs : CS) (oc : Outcome) : Prop :=
  match oc with
  | Transition n _ t => edge cs n = true ∧ plain_txn (default [] t)
  | Wait _ _ t | DoNothing _ t => plain_txn (default [] t)
  | Deleted _ t => last cs ∧ ∀ w, state_of (in_txn (default [] t) w) = None
  end.

(** A transaction with one statement on the table goes with the outcome. *)
Lemma one_statement_permitted cs f g (oc : Outcome) : (∀ t t', f t = Ok t' → t' = update_object g o t) →
  (∀ txn, plain_txn txn → permitted cs (attach_txn txn oc)) →
  returns (txn ← begin_txn; txn ← on_table f txn; mret (attach_txn txn oc)) (permitted cs).
Proof using Hset.
  intros Hf Hoc. eapply returns_bind; [apply begin_plain|]. intros txn Ht. cbv beta in Ht.
  eapply returns_bind; [by eapply on_table_plain|]. intros txn' Ht'. apply returns_ret. auto.
Qed.

(** The next state *)
Definition moved (clk : Clock) (cs : Versioned CS) (n : CS) : option (Versioned CS) :=
  Some (mk_versioned n (increment (at_increment clk) (version cs))).

Lemma store_outcome_row r w : (λ r, (row_state r, row_object r)) <$> rows (tbl (store_outcome r w)) !! o =
  (λ r, (row_state r, row_object r)) <$> rows (tbl w) !! o.
Proof using Hset.
  unfold store_outcome. destruct (from_result r); [|done]. rewrite Hset. simpl. rewrite lookup_alter_eq. by destruct (rows (tbl w) !! o).
Qed.

Lemma store_outcome_state r w : state_of (store_outcome r w) = state_of w.
Proof using Hset.
  pose proof (store_outcome_row r w) as H. unfold state_of.
  destruct (rows (tbl (store_outcome r w)) !! o), (rows (tbl w) !! o); simplify_eq/=; congruence.
Qed.

Lemma commit_state clk cs r now w : state_of w = Some cs → (∀ oc, r = Ok oc → permitted (value cs) oc) →
  state_of (commit_run clk cs r now w) =
    match r with
    | Ok (Transition n _ _) => moved clk cs n
    | Ok (Deleted _ _) => None
    | _ => Some cs
    end.
Proof using Hset.
  intros Hs Hr. unfold commit_run. rewrite store_outcome_state. destruct r as [oc|e]; [|done].
  specialize (Hr oc eq_refl). destruct oc as [why l t|n l t|l t|l t]; simpl in *; [by rewrite Hr| |by rewrite Hr|by destruct Hr].
  destruct Hr as [_ Hr]. specialize (Hr w). rewrite Hs in Hr. unfold state_of in Hr.
  unfold try_update_controller_state. destruct (rows _ !! o) as [row|]; [|done]. injection Hr as Hr. rewrite Hr.
  rewrite decide_True by done. unfold state_of. rewrite Hset. simpl. by rewrite lookup_insert_eq.
Qed.

(** The row after the commit of a transition *)
Lemma commit_row clk cs n l (t : option Txn) row now w :
  let w' := in_txn (default [] t) w in
  rows (tbl w') !! o = Some row → version (row_state row) = version cs →
  (λ r, (row_state r, row_object r)) <$> rows (tbl (commit_run clk cs (Ok (Transition n l t : Outcome)) now w)) !! o =
    Some (mk_versioned n (increment (at_increment clk) (version cs)), row_object row).
Proof using Hset.
  intros w' Hrow Hv. unfold commit_run. rewrite store_outcome_row. cbn [take_transaction fst]. fold w'.
  unfold try_update_controller_state. rewrite Hrow, decide_True by done. rewrite Hset. simpl. by rewrite lookup_insert_eq.
Qed.

(** Of a run nothing but the commit changes the state, if the handler only returns what is
    permitted. *)
Lemma run_moves attempt clk cache cs :
  (∀ s, keeps (relies same_state) (λ w, state_of w = Some cs) (attempt s (value cs) cache)) →
  (∀ s, returns (attempt s (value cs) cache) (λ r, permitted (value cs) r.1)) →
  hoare (relies same_state) (λ w, state_of w = Some cs) (object_run attempt clk cache)
    (λ _ w, state_of w = Some cs ∨ (∃ n, edge (value cs) n = true ∧ state_of w = moved clk cs n) ∨
            last (value cs) ∧ state_of w = None).
Proof using Hset.
  intros Hkeep Hperm. set (P := λ w, state_of w = Some cs).
  unfold object_run. eapply (hoare_seq _ _ _ _ (λ r w, P w ∧ ∀ row, r = Ok row → row_state row = cs)).
  { apply (hoare_rely _ _ P); [intros w w' HP Hr; unfold P; by rewrite Hr| |done..].
    intros c w HP. unfold P, state_of in HP. split; [|done]. destruct (rows _ !! o) as [row|] eqn:E; simpl in *; [|done].
    split; [unfold P, state_of; by rewrite E|]. intros ? [= <-]. by injection HP. }
  2: by intros e w [HP _]; left.
  intros row. cbv beta. apply (hoare_assume _ (row_state row = cs)); [naive_solver|]. intros Hrow. rewrite Hrow.
  eapply (hoare_seq _ _ _ _ (λ r w, P w ∧ ∀ x, r = Ok x → ∀ oc, fst <$> x = Ok oc → permitted (value cs) oc)).
  { intros w sc Hsc [HP _]. pose proof (kept_catch (E := StateHandlerError) _ _ _ (Hkeep (row_object row))) as Hk.
    destruct (Hk w sc Hsc HP) as [Hsc' HP']. split; [done|]. split; [done|]. intros x Hx oc Hoc.
    pose proof (returns_catch (E := StateHandlerError) _ _ (Hperm (row_object row)) w sc x Hx) as Hret.
    destruct x as [[oc' c']|]; [|done]. injection Hoc as <-. by apply (Hret _ eq_refl). }
  2: by intros e w [HP _]; left.
  intros x. apply (hoare_assume _ (∀ oc, fst <$> x = Ok oc → permitted (value cs) oc)); [naive_solver|]. intros Hx.
  set (Q := λ w, P w ∨ (∃ n, edge (value cs) n = true ∧ state_of w = moved clk cs n) ∨ last (value cs) ∧ state_of w = None).
  eapply (hoare_seq _ _ _ _ (λ _, Q)); [|intros []; by apply hoare_ret|done].
  apply (hoare_rely _ _ P); [by intros w w' [HP _] Hr; unfold P; rewrite Hr| |by left..].
  intros c w HP. assert (HQ : Q (commit_run clk cs (fst <$> x) c w)); [|done].
  unfold Q, P. rewrite commit_state by done.
  destruct (fst <$> x) as [oc|e]; [|by left]. specialize (Hx oc eq_refl).
  destruct oc; simpl in Hx; [by left|right; left; destruct Hx; by eauto|by left|right; right; by destruct Hx].
Qed.

End Runs.

(** ** Tables of the world under the state processor

    An interface to the processor for the objects of one table of the world
    ([StateControllerIO] of [state-controller/src/io.rs], as [power-shelf-controller/src/io.rs]
    and [switch-controller/src/io.rs] implement it), and that a run on such an object is what
    [process_object] does with the result of the handler. *)

Section Processor.
Context {CS Obj C : Type} (tbl : World → table string CS Obj) (set_tbl : table string CS Obj → World → World).
Context (sla : Z → CS → ConfigVersion → StateSla) (names : CS → string * string) (intervention : CS → option string).
Context (debug : CS → string) (Hset : ∀ t w, tbl (set_tbl t w) = t).

Notation Outcome := (StateHandlerOutcome Txn CS).

(** The last argument is the time of the database. *)
Definition world_io (db_now : Z) : StateControllerIO World string (table_row CS Obj) CS :=
  let io := table_io debug names intervention (λ now cs (_ : Obj), sla now (value cs) (version cs)) db_now in
  {|
    id_string := id_string (StateControllerIO := io);
    id_from_str := id_from_str (StateControllerIO := io);
    debug_state := debug;
    list_objects w := list_objects (tbl w);
    load_object_state w := load_object_state (tbl w);
    load_controller_state w := load_controller_state (tbl w);
    persist_controller_state w o old nv cs :=
      (λ '(ok, t), (ok, if ok : bool then set_tbl t w else w)) <$> persist_controller_state (tbl w) o old nv cs;
    persist_state_history w o nv cs := (λ t, set_tbl t w) <$> persist_state_history (tbl w) o nv cs;
    persist_outcome w o oc := (λ t, set_tbl t w) <$> persist_outcome (tbl w) o oc;
    metric_state_names := names;
    manual_intervention_reason := intervention;
    state_sla := state_sla (StateControllerIO := io);
  |}.

Definition world_view : ObjectView World string CS := {|
  controller_state_of w := controller_state_of (tbl w);
  history_of w := history_of (tbl w);
  outcome_of w := outcome_of (tbl w);
|}.

(** What every theorem about the processor asks of an object type *)
Lemma world_io_laws db_now : StateControllerIOLaws World string (table_row CS Obj) CS (IO := world_io db_now) (V := world_view).
Proof using Hset.
  set (io := table_io debug names intervention (λ now cs (_ : Obj), sla now (value cs) (version cs)) db_now).
  assert (L : StateControllerIOLaws (table string CS Obj) string (table_row CS Obj) CS (IO := io)) by apply table_io_laws.
  destruct L as [L1 L2 L3 L4 L5 L6].
  split.
  - apply L1.
  - intros w. apply L2.
  - intros w o old nv cs w' [= Hp]. destruct (try_update_controller_state _ _ _ _ _) as [ok t] eqn:E. simplify_eq. simpl. rewrite Hset.
    apply (L3 (tbl w) o old nv cs t). simpl. by rewrite E.
  - intros w o old nv cs w' [= Hp]. destruct (try_update_controller_state _ _ _ _ _) as [ok t] eqn:E. destruct ok; [done|]. injection Hp as <-.
    destruct (L4 (tbl w) o old nv cs t) as [-> H]; [simpl; by rewrite E|]. by split.
  - intros w o nv cs w' [= <-]. simpl. rewrite Hset. by apply L5.
  - intros w o oc w' [= <-]. simpl. rewrite Hset. by apply L6.
Qed.

(** The outcome of the handler with its transaction as a working copy of [w] *)
Definition in_db (w : World) (oc : Outcome) : StateHandlerOutcome World CS :=
  match oc with
  | Wait r l t => Wait r l ((λ txn, in_txn txn w) <$> t)
  | Transition n l t => Transition n l ((λ txn, in_txn txn w) <$> t)
  | DoNothing l t => DoNothing l ((λ txn, in_txn txn w) <$> t)
  | Deleted l t => Deleted l ((λ txn, in_txn txn w) <$> t)
  end.

(** What the handler did and returned *)
Definition handled (w' : World) (r : result StateHandlerError Outcome) : Handler World string (table_row CS Obj) CS :=
  λ _ s _ _, mk_run s w' (in_db w' <$> r) [].

Context (Hset2 : ∀ t t' w, set_tbl t (set_tbl t' w) = set_tbl t w).

Lemma commit_is_processor clk o c w row w' r :
  rows (tbl w) !! o = Some row →
  committed (handle (IO := world_io c) (handled w' r) clk o (ProcessObject.mk_world w [] default_metrics)).2 =
    commit_run tbl set_tbl sla o clk (row_state row) r c w'.
Proof using Hset Hset2.
  intros Hrow. unfold handle, load, call_handler, outcome_txn, commit_run, store_outcome, above_sla, handled, mbind, step_bind.
  cbn. rewrite Hrow. cbn.
  destruct r as [[why l t|n l t|l t|l t]|e]; cbn; [destruct t; cbn; by destruct (time_in_state_above_sla _)| |
    destruct t; cbn; by destruct (time_in_state_above_sla _)|by destruct t|done].
  destruct t as [t|]; cbn; unfold persist_transition, mbind, step_bind; cbn;
    destruct (try_update_controller_state _ _ _ _ _) as [[] ?]; cbn; by rewrite ?Hset, ?Hset2.
Qed.

(** A run whose own statements work leaves the database that [process_object] leaves when it
    is given what the handler did and returned. *)
Lemma object_run_refines attempt o clk (cache : C) w sc row r w' sc' :
  rows (tbl w) !! o = Some row → calm (sc 0%nat) →
  (catch (attempt (row_object row) (value (row_state row)) cache) : handler _) w (later sc) = (Ok r, (w', sc')) → calm (sc' 0%nat) →
  (object_run tbl set_tbl sla o attempt clk cache w sc).2.1 =
    committed (handle (IO := world_io (clock (sc' 0%nat))) (handled w' (fst <$> r)) clk o
                 (ProcessObject.mk_world w [] default_metrics)).2.
Proof using Hset Hset2.
  intros Hrow Hl Hh Hc. rewrite (commit_is_processor _ _ _ _ row) by done.
  unfold object_run, read, call, mbind, prog_bind. rewrite run_call_calm by done. cbn. rewrite Hrow. cbn. rewrite Hh, run_call_calm by done.
  by destruct r as [[]|].
Qed.

End Processor.
