(* ===== verification/RotationEngine.v ===== *)
(** * The rotation engine for BMC passwords

    [credential-rotation/src/lib.rs] and the machine controller's [handler/rotation.rs]: one
    attempt to bring a BMC to the site-wide password, the gate in front of it, and ticks
    over the BMCs of a managed host.  Log lines are left out; the counter of results is
    [results] of the world. *)

From S2P Require Import Prelude PowerShelfTable Credentials CredentialRotation Calls RotationWorld.

(** ** Redaction of error texts *)

(** [str::replace]: every occurrence from the left, without overlaps.  The fuel is the
    length of the text. *)
Fixpoint replace_fuel (fuel : nat) (s from to : string) : string :=
  match fuel, s with
  | O, _ | _, EmptyString => s
  | S fuel, String c s' =>
      if String.prefix from s
      then to +:+ replace_fuel fuel (String.substring (String.length from) (String.length s) s) from to
      else String c (replace_fuel fuel s' from to)
  end.
Definition replace (s from to : string) : string := replace_fuel (String.length s) s from to.

(** [redact] *)
Definition redact (message : string) (secrets : list string) : string :=
  foldl (λ m secret, if bool_decide (secret = EmptyString) then m else replace m secret "REDACTED")
    message secrets.

(** ** One attempt *)

(** [DispatchVendor] *)
Inductive DispatchVendor :=
| Fixed (vendor : RedfishVendor)
| Probe.

(** [BmcRotationTarget]; the host and the port are the location. *)
Record BmcRotationTarget := mk_target {
  device_mac : string;
  loc : location;
  vendor : DispatchVendor;
}.

(** [RotateOutcome] *)
Inductive RotateOutcome :=
| Converged
| Quarantined (until : Z)
| CredentialStoreReconcilePending
| NoWork.

(** [RotationEngineError] *)
Inductive RotationEngineError :=
| Database (e : DatabaseError)
| Acquire (message : string)
| BadTargetVersion (version : Z).

(** The texts of [RotationEngineError] *)
Definition engine_text (e : RotationEngineError) : string :=
  match e with
  | Database e => "rotation bookkeeping error: " +:+ database_text e
  | Acquire m => "could not acquire a database connection: " +:+ m
  | BadTargetVersion v => "rotation target version " +:+ print_i v +:+ " is not representable"
  end.

(** [CredentialConvergence] *)
Inductive CredentialConvergence :=
| Changed
| Recovered (change_error : string).

(** [ConvergeError] *)
Inductive ConvergeError :=
| DeviceFault (reason : string)
| CredentialStoreWriteFailed (reason : string).

(** [CredentialConvergence::redacted] *)
Definition redacted (c : CredentialConvergence) (secrets : list string) : CredentialConvergence :=
  match c with
  | Changed => Changed
  | Recovered e => Recovered (redact e secrets)
  end.

(** The loop of [resolve_dispatch_vendor] over the candidates *)
Fixpoint probe_candidates (l : location) (candidates : list Credentials) (last_err : option string)
    : prog World string RedfishVendor :=
  match candidates with
  | [] => lift (Err ("probe BMC dispatch vendor: " +:+ default "no credential candidates"%string last_err))
  | c :: candidates =>
      r ← catch (probe_bmc_vendor l c);
      match r with
      | Ok v => mret v
      | Err e => probe_candidates l candidates (Some (error_text e))
      end
  end.

(** [resolve_dispatch_vendor] *)
Definition resolve_dispatch_vendor (bmc : BmcRotationTarget) (rotate_from rotate_to : Credentials)
    : prog World string RedfishVendor :=
  match vendor bmc with
  | Fixed v => mret v
  | Probe => probe_candidates (loc bmc) [rotate_from; rotate_to] None
  end.

(** [change_or_recover] *)
Definition change_or_recover (bmc : BmcRotationTarget) (v : RedfishVendor)
    (rotate_from rotate_to : Credentials) : prog World string CredentialConvergence :=
  r ← catch (set_bmc_root_password (loc bmc) v rotate_from (password rotate_to));
  match r with
  | Ok () => mret Changed
  | Err e =>
      let change_err := error_text e in
      r ← catch (bmc_credentials_valid (loc bmc) rotate_to);
      match r with
      | Ok true => mret (Recovered change_err)
      | Ok false => lift (Err change_err)
      | Err verify => lift (Err (change_err +:+ "; rotate-to credential probe also failed: " +:+ error_text verify))
      end
  end.

Definition per_device_key (mac : string) : CredentialKey := BmcCredentials (BmcRoot mac).
Definition rotate_to_key (version : Z) : CredentialKey := BmcCredentials (site_wide_root version).

(** [converge_bmc_password] *)
Definition converge_bmc_password (bmc : BmcRotationTarget) (rotate_to_version : Z)
    : prog World ConvergeError CredentialConvergence :=
  per_device ← convert (λ e, DeviceFault ("read per-device BMC secret: " +:+ e))
                 (get_credentials (per_device_key (device_mac bmc)));
  per_device ← lift (ok_or per_device (DeviceFault "per-device BMC secret is not set"));
  rotate_to ← convert (λ e, DeviceFault ("read rotate-to BMC secret: " +:+ e))
                (get_credentials (rotate_to_key rotate_to_version));
  rotate_to ← lift (ok_or rotate_to (DeviceFault ("rotate-to BMC secret for version " +:+
                      print_u rotate_to_version +:+ " is not staged")));
  let secrets := [password per_device; password rotate_to] in
  let rotate_from := per_device in
  let rotate_to := UsernamePassword (username per_device) (password rotate_to) in
  v ← convert (λ e, DeviceFault (redact e secrets)) (resolve_dispatch_vendor bmc rotate_from rotate_to);
  c ← convert (λ e, DeviceFault (redact e secrets)) (change_or_recover bmc v rotate_from rotate_to);
  _ ← convert (λ e, CredentialStoreWriteFailed (redact ("persist per-device BMC secret: " +:+ e) secrets))
        (set_credentials (per_device_key (device_mac bmc)) rotate_to);
  mret (redacted c secrets).

(** ** The engine *)

Notation engine := (prog World RotationEngineError).

Definition acquire : engine () := read Acquire (λ _ _, Ok ()).

(** Statements on a connection outside of a transaction *)
Definition query {A} (f : Z → rotation_db → result DatabaseError A) : engine A :=
  read (Database ∘ QueryError) (λ now w, map_err Database (f now (rot w))).
Definition execute (f : Z → rotation_db → result DatabaseError rotation_db) : engine () :=
  call (Database ∘ QueryError) (λ now w, match f now (rot w) with
                                        | Ok r => (Ok (), set_rot r w)
                                        | Err e => (Err (Database e), w)
                                        end).

(** [db::bmc_redfish_session::delete_by_mac] *)
Definition delete_sessions (mac : string) : engine () :=
  call (Database ∘ QueryError) (λ _ w, (Ok (), set_sessions (sessions w ∖ {[mac]}) w)).

Definition emit (mac : string) (r : RotationResult) : engine () := λ w sc, (Ok (), (add_result mac r w, sc)).

(** [u32::try_from] of an [i32] *)
Definition to_u32 (v : Z) : result RotationEngineError Z :=
  if 0 <=? v then Ok v else Err (BadTargetVersion v).

(** [rotate_bmc] *)
Definition rotate_bmc (bmc : BmcRotationTarget) (force : bool) : engine RotateOutcome :=
  let mac := device_mac bmc in
  _ ← acquire;
  status ← query (λ now, device_rotation_status now Bmc mac);
  match status with
  | None => mret NoWork
  | Some status =>
      if ds_converged status then mret Converged
      else if ds_quarantined status && negb force then
        match ds_quarantined_until status with
        | Some until => mret (Quarantined until)
        | None => now ← utc_now; mret (Quarantined now)
        end
      else
        target_version ← lift (to_u32 (ds_target_version status));
        _ ← acquire;
        _ ← execute (λ _, mark_device_rotating_to_version mac Bmc (ds_target_version status));
        r ← catch (converge_bmc_password bmc target_version);
        match r with
        | Ok convergence =>
            _ ← acquire;
            _ ← delete_sessions mac;
            _ ← execute (λ _ db, Ok (promote_rotating_to_current mac Bmc db).2);
            _ ← emit mac (match convergence with Changed => ResultConverged | Recovered _ => ResultRecovered end);
            mret Converged
        | Err (DeviceFault reason) =>
            now ← utc_now;
            let until := backoff_until (ds_rotate_attempts status) now in
            _ ← acquire;
            _ ← execute (λ now, increment_rotate_attempt now mac Bmc reason until);
            _ ← emit mac ResultQuarantined;
            mret (Quarantined until)
        | Err (CredentialStoreWriteFailed _) => mret CredentialStoreReconcilePending
        end
  end.

(** ** The gate *)

(** [needs_rotation] *)
Definition needs_rotation (s : DeviceRotationStatus) : bool := negb (ds_converged s) && negb (ds_quarantined s).

(** [CachedAggregate] *)
Record CachedAggregate := mk_cache {
  checked_at : option Z;
  work_pending : bool;
}.

(** [RotationGate]; the cache is passed along. *)
Record RotationGate := mk_gate {
  ttl : Z;
  family : CredentialRotationType;
}.

(** [RotationGate::rotation_pending] *)
Definition rotation_pending (g : RotationGate) (cache : CachedAggregate) : engine (bool * CachedAggregate) :=
  now ← utc_now;
  if match checked_at cache with Some t => saturating_sub now t <? ttl g | None => false end
  then mret (work_pending cache, cache)
  else
    _ ← acquire;
    status ← query (λ now, rotation_status now (family g));
    let work := (0 <? st_target_version status) &&
                bool_decide (0 < pending status + quarantined status)%nat in
    now ← utc_now;
    mret (work, mk_cache (Some now) work).

(** [RotationGate::rotation_needed] *)
Definition rotation_needed (g : RotationGate) (mac : string) (cache : CachedAggregate)
    : engine (bool * CachedAggregate) :=
  '(p, cache) ← rotation_pending g cache;
  if negb p then mret (false, cache) else
  _ ← acquire;
  status ← query (λ now, device_rotation_status now (family g) mac);
  mret (match status with Some s => needs_rotation s | None => false end, cache).

(** ** Ticks *)

Definition MAX_BMC_ROTATION_RETRIES : Z := 3.

(** [BmcRotationTick] *)
Inductive BmcRotationTick := Settled | Retry | WaitForCredentialStoreReconcile.

(** [BmcRotationTick::merge] *)
Definition merge (self other : BmcRotationTick) : BmcRotationTick :=
  match self, other with
  | WaitForCredentialStoreReconcile, _ | _, WaitForCredentialStoreReconcile => WaitForCredentialStoreReconcile
  | Retry, _ | _, Retry => Retry
  | Settled, Settled => Settled
  end.

(** [RotationStep] *)
Inductive RotationStep :=
| StepSettled
| StepGaveUp
| StepRetry (retry_count : Z)
| StepWait.

(** [advance] *)
Definition advance (tick : BmcRotationTick) (retry_count : Z) : RotationStep :=
  match tick with
  | Settled => StepSettled
  | WaitForCredentialStoreReconcile => StepWait
  | Retry =>
      let next := retry_count + 1 in
      if MAX_BMC_ROTATION_RETRIES <=? next then StepGaveUp else StepRetry next
  end.

(** The [match] on the result of [rotate_bmc] in every controller *)
Definition tick_of (r : result RotationEngineError RotateOutcome) : BmcRotationTick :=
  match r with
  | Ok Converged | Ok (Quarantined _) | Ok NoWork => Settled
  | Ok CredentialStoreReconcilePending => WaitForCredentialStoreReconcile
  | Err _ => Retry
  end.

(** [BmcEndpoint::from_bmc_info] and [into_target_with] *)
Definition from_bmc_info (i : BmcInfo) (v : DispatchVendor) : option BmcRotationTarget :=
  mac ← bmc_mac i; ip ← bmc_ip i; Some (mk_target mac (ip, bmc_port i) v).

(** What the machine controller reads of a machine *)
Record RotationMachine := mk_machine {
  bmc_info : BmcInfo;
  bmc_credential_rotation_requested : bool;
}.

(** [rotate_endpoint] of the machine controller *)
Definition rotate_endpoint (t : BmcRotationTarget) (force : bool) : engine BmcRotationTick :=
  r ← catch (rotate_bmc t force); mret (tick_of r).

(** [rotate_managed_host_bmcs]: the host and its DPUs *)
Fixpoint rotate_managed_host_bmcs (enabled : bool) (machines : list RotationMachine)
    (tick : BmcRotationTick) : engine BmcRotationTick :=
  match machines with
  | [] => mret tick
  | m :: machines =>
      let force := bmc_credential_rotation_requested m in
      if negb force && negb enabled then rotate_managed_host_bmcs enabled machines tick
      else match from_bmc_info (bmc_info m) Probe with
           | Some t => o ← rotate_endpoint t force; rotate_managed_host_bmcs enabled machines (merge tick o)
           | None => rotate_managed_host_bmcs enabled machines tick
           end
  end.
