(* ===== verification/SitePause.v ===== *)
(** * The pause of site explorer around a change of credentials

    [api-db/src/bmc_suppression.rs], [credential-rotation/src/site_explorer_pause.rs] and the
    entry of a managed host into rotation ([machine-controller/src/handler/rotation.rs]).
    The statements are functions on the table of suppressions; [now] is the time of the
    database. *)

From S2P Require Import Prelude StateHandler ControllerTable Ordered Credentials CredentialRotation Calls RotationWorld HandlerRuns RotationEngine.

Notation suppression_table := (gmap (string * BmcSuppressionSubsystem) BmcSuppression).

(** ** Statements *)

Section Statements.
Context (now : Z).

(** [NewBmcSuppression] is the address, the subsystem and the reason.  [upsert] *)
Definition upsert (mac : string) (sub : BmcSuppressionSubsystem) (why : string) (t : suppression_table)
    : BmcSuppression * suppression_table :=
  let s := match t !! (mac, sub) with
           | Some s => mk_suppression why (requested_at s) (acknowledged_at s)
           | None => mk_suppression why now None
           end in
  (s, <[(mac, sub) := s]> t).

(** [ensure_present] *)
Definition ensure_present (mac : string) (sub : BmcSuppressionSubsystem) (why : string) (t : suppression_table)
    : BmcSuppression * suppression_table :=
  let s := match t !! (mac, sub) with
           | Some s => mk_suppression (reason s) (requested_at s) (acknowledged_at s)
           | None => mk_suppression why now None
           end in
  (s, <[(mac, sub) := s]> t).

(** [acknowledge_unacknowledged]: the addresses acknowledged by the call *)
Definition acknowledge_unacknowledged (macs : list string) (sub : BmcSuppressionSubsystem) (t : suppression_table)
    : gset string * suppression_table :=
  (list_to_set (filter (λ mac, (t !! (mac, sub) ≫= λ s, match acknowledged_at s with None => Some () | Some _ => None end) = Some ()) macs),
   map_imap (λ k s, Some (if decide (k.1 ∈ macs ∧ k.2 = sub ∧ acknowledged_at s = None)
                         then mk_suppression (reason s) (requested_at s) (Some now) else s)) t).

(** [acknowledge] *)
Definition acknowledge (mac : string) (sub : BmcSuppressionSubsystem) (t : suppression_table)
    : bool * suppression_table :=
  match t !! (mac, sub) with
  | Some s => (true, <[(mac, sub) := mk_suppression (reason s) (requested_at s)
                                       (Some (default now (acknowledged_at s)))]> t)
  | None => (false, t)
  end.

End Statements.

(** [find_many], in the order of the addresses *)
Definition find_many (macs : list string) (sub : BmcSuppressionSubsystem) (t : suppression_table)
    : list (string * BmcSuppression) :=
  omap (λ mac, (mac,.) <$> t !! (mac, sub)) (sorted_macs macs).

(** [find] *)
Definition find (mac : string) (sub : BmcSuppressionSubsystem) (t : suppression_table) : option BmcSuppression :=
  t !! (mac, sub).

(** [find_all_by_subsystem] *)
Definition find_all_by_subsystem (sub : BmcSuppressionSubsystem) (t : suppression_table)
    : list (string * BmcSuppression) :=
  find_many ((filter (λ e, e.1.2 = sub) (map_to_list t)).*1.*1) sub t.

(** [is_suppressed] *)
Definition is_suppressed (mac : string) (sub : BmcSuppressionSubsystem) (t : suppression_table) : bool :=
  bool_decide (is_Some (t !! (mac, sub))).

(** [delete] *)
Definition delete_suppression (mac : string) (sub : BmcSuppressionSubsystem) (t : suppression_table)
    : bool * suppression_table :=
  (is_suppressed mac sub t, delete (mac, sub) t).

Definition delete_where (P : string * BmcSuppressionSubsystem → BmcSuppression → Prop)
    `{∀ k s, Decision (P k s)} (t : suppression_table) : nat * suppression_table :=
  (size (filter (λ '(k, s), P k s) t), filter (λ '(k, s), ¬ P k s) t).

(** [delete_many]: the number of rows removed, too *)
Definition delete_many (macs : list string) (sub : BmcSuppressionSubsystem) : suppression_table → nat * suppression_table :=
  delete_where (λ k _, k.1 ∈ macs ∧ k.2 = sub).

(** [delete_many_with_reason] *)
Definition delete_many_with_reason (macs : list string) (sub : BmcSuppressionSubsystem) (why : string)
    : suppression_table → nat * suppression_table :=
  delete_where (λ k s, k.1 ∈ macs ∧ k.2 = sub ∧ reason s = why).

(** ** The pause *)

Definition ROTATION_SUPPRESSION_REASON : string := "bmc_credential_rotation".
Definition SITE_EXPLORER_PAUSE_BUDGET : Z := 300.

(** [GateDecision] *)
Inductive GateDecision := Proceed | Wait.

(** The decision on the rows that were read *)
Definition gate_decision (macs : list string) (rows : list (string * BmcSuppression)) (now : Z) : GateDecision :=
  let acknowledged mac := existsb (λ r, bool_decide (r.1 = mac) && bool_decide (is_Some (acknowledged_at r.2))) rows in
  if forallb acknowledged macs then Proceed
  else
    match (λ r, requested_at r.2) <$> filter (λ r : string * BmcSuppression, acknowledged_at r.2 = None) rows with
    | [] => Wait
    | t :: ts => if SITE_EXPLORER_PAUSE_BUDGET <? now - foldr Z.max t ts then Proceed else Wait
    end.

(** The statements of the transaction of [gate_before_credential_change] *)
Definition pause (now : Z) (macs : list string) (why : string) (t : suppression_table) : suppression_table :=
  foldl (λ t mac, (ensure_present now mac SiteExplorer why t).2) t macs.

(** [gate_before_credential_change]; its transaction is one call, which commits. *)
Definition gate_before_credential_change (macs : list string) (why : string) : prog World DatabaseError GateDecision :=
  if decide (macs = []) then mret Proceed else
  rows ← call QueryError (λ now w,
    let t := pause now macs why (suppressions w) in
    (Ok (find_many macs SiteExplorer t), set_suppressions t w));
  now ← utc_now;
  mret (gate_decision macs rows now).

(** [resume_after_credential_change], a statement in the transaction of the caller *)
Definition resume_after_credential_change (macs : list string) (why : string) (t : suppression_table) : suppression_table :=
  if decide (macs = []) then t else (delete_many_with_reason macs SiteExplorer why t).2.

(** ** The entry of a managed host *)

(** [managed_host_bmc_endpoints] *)
Definition managed_host_bmc_endpoints (machines : list RotationMachine) : list BmcRotationTarget :=
  omap (λ m, from_bmc_info (bmc_info m) Probe) machines.

(** [bmc_rotation_needed] *)
Fixpoint bmc_rotation_needed (g : RotationGate) (endpoints : list BmcRotationTarget) (cache : CachedAggregate)
    : engine (bool * CachedAggregate) :=
  match endpoints with
  | [] => mret (false, cache)
  | e :: endpoints =>
      '(needed, cache) ← rotation_needed g (device_mac e) cache;
      if needed : bool then mret (true, cache) else bmc_rotation_needed g endpoints cache
  end.

(** [bmc_rotation_force_requested] *)
Definition bmc_rotation_force_requested (machines : list RotationMachine) : bool :=
  existsb bmc_credential_rotation_requested machines.

(** [should_enter_bmc_rotation] *)
Definition should_enter_bmc_rotation (enabled : bool) (g : RotationGate) (machines : list RotationMachine)
    (cache : CachedAggregate) : engine (bool * CachedAggregate) :=
  if bmc_rotation_force_requested machines then mret (true, cache)
  else if negb enabled then mret (false, cache)
  else bmc_rotation_needed g (managed_host_bmc_endpoints machines) cache.

(** ** Facts *)

Lemma lookup_ensure now mac sub why t k :
  (ensure_present now mac sub why t).2 !! k =
    if decide (k = (mac, sub)) then Some (default (mk_suppression why now None) (t !! k)) else t !! k.
Proof.
  unfold ensure_present. simpl. case_decide as Hk; [subst k; rewrite lookup_insert_eq|by rewrite lookup_insert_ne].
  by destruct (t !! (mac, sub)) as [[]|].
Qed.

(** After the pause every address has a row; existing rows are as they were. *)
Lemma lookup_pause now macs why t k :
  pause now macs why t !! k =
    if decide (k.1 ∈ macs ∧ k.2 = SiteExplorer) then Some (default (mk_suppression why now None) (t !! k))
    else t !! k.
Proof.
  unfold pause. revert t. induction macs as [|mac macs IH]; intros t; cbn [foldl].
  - case_decide as H; [|done]. by destruct H as [?%not_elem_of_nil _].
  - rewrite IH, lookup_ensure. destruct k as [m sub]. simpl.
    repeat case_decide; simplify_eq; try done; set_solver.
Qed.

Lemma sorted_macs_elem m l : m ∈ sorted_macs l ↔ m ∈ l.
Proof.
  unfold sorted_macs. induction l as [|x l IH]; simpl; [done|]. rewrite bset_elem_of_insert, IH by apply _. set_solver.
Qed.

Lemma elem_find_many macs sub t mac s :
  (mac, s) ∈ find_many macs sub t ↔ mac ∈ macs ∧ t !! (mac, sub) = Some s.
Proof.
  unfold find_many. rewrite list_elem_of_omap. setoid_rewrite sorted_macs_elem. split.
  - intros (m & Hm & E). destruct (t !! (m, sub)) eqn:Ht; simplify_eq/=. done.
  - intros [Hm Ht]. exists mac. split; [done|]. by rewrite Ht.
Qed.

Lemma foldr_max_lt (c t : Z) ts : foldr Z.max t ts < c ↔ ∀ x, x ∈ t :: ts → x < c.
Proof.
  induction ts as [|y ts IH]; simpl; [set_solver|]. rewrite Z.max_lub_lt_iff, IH. set_solver.
Qed.

(** One row lets the change proceed. *)
Definition cleared (now : Z) (s : BmcSuppression) : Prop :=
  is_Some (acknowledged_at s) ∨ SITE_EXPLORER_PAUSE_BUDGET < now - requested_at s.

Lemma cleared_later t t' s : t ≤ t' → cleared t s → cleared t' s.
Proof. intros Ht [H|H]; [by left|right; lia]. Qed.

Section Decision.
Context (macs : list string) (t : suppression_table) (now : Z).
Context (Hrows : ∀ mac, mac ∈ macs → is_Some (t !! (mac, SiteExplorer))).

Let rows := find_many macs SiteExplorer t.

Lemma all_acknowledged :
  forallb (λ mac, existsb (λ r, bool_decide (r.1 = mac) && bool_decide (is_Some (acknowledged_at r.2))) rows) macs = true ↔
  ∀ mac s, mac ∈ macs → t !! (mac, SiteExplorer) = Some s → is_Some (acknowledged_at s).
Proof using Hrows.
  rewrite forallb_forall. split.
  - intros H mac s Hm Hs. specialize (H mac (proj1 (list_elem_of_In _ _) Hm)). rewrite existsb_exists in H.
    destruct H as ([m s'] & Hin & E). apply andb_prop in E as [E1 E2].
    apply bool_decide_eq_true_1 in E1, E2. simpl in *. subst m.
    apply list_elem_of_In, elem_find_many in Hin. naive_solver.
  - intros H mac Hm. apply list_elem_of_In in Hm. destruct (Hrows mac Hm) as [s Hs]. apply existsb_exists.
    exists (mac, s). split; [apply list_elem_of_In, elem_find_many; done|].
    simpl. rewrite !bool_decide_eq_true_2; [done| |done]. by eapply H.
Qed.

Lemma elem_open x :
  x ∈ ((λ r, requested_at r.2) <$> filter (λ r : string * BmcSuppression, acknowledged_at r.2 = None) rows) ↔
  ∃ mac s, mac ∈ macs ∧ t !! (mac, SiteExplorer) = Some s ∧ acknowledged_at s = None ∧ x = requested_at s.
Proof using Type.
  rewrite list_elem_of_fmap. split.
  - intros ([m s] & -> & H). apply list_elem_of_filter in H as [Ha H]. apply elem_find_many in H. naive_solver.
  - intros (m & s & Hm & Hs & Ha & ->). exists (m, s). split; [done|]. apply list_elem_of_filter. split; [done|].
    by apply elem_find_many.
Qed.

Lemma gate_decision_exact :
  gate_decision macs rows now = Proceed ↔
  ∀ mac s, mac ∈ macs → t !! (mac, SiteExplorer) = Some s → cleared now s.
Proof using Hrows.
  unfold gate_decision. case_match eqn:Hall.
  { pose proof (proj1 all_acknowledged Hall) as H. split; [|done]. intros _ mac s Hm Hs. left. eauto. }
  assert (Hnot : ¬ ∀ mac s, mac ∈ macs → t !! (mac, SiteExplorer) = Some s → is_Some (acknowledged_at s)).
  { intros H. apply all_acknowledged in H. congruence. }
  destruct (_ <$> _) as [|x l] eqn:Hopen.
  - split; [done|]. intros _. exfalso. apply Hnot. intros mac s Hm Hs.
    destruct (acknowledged_at s) eqn:Ha; [done|]. exfalso.
    apply (not_elem_of_nil (requested_at s)). rewrite <- Hopen. apply elem_open. eauto 6.
  - assert (Hiff : SITE_EXPLORER_PAUSE_BUDGET < now - foldr Z.max x l ↔
      ∀ mac s, mac ∈ macs → t !! (mac, SiteExplorer) = Some s → acknowledged_at s = None →
        requested_at s < now - SITE_EXPLORER_PAUSE_BUDGET).
    { transitivity (foldr Z.max x l < now - SITE_EXPLORER_PAUSE_BUDGET); [unfold SITE_EXPLORER_PAUSE_BUDGET; lia|].
      rewrite foldr_max_lt, <- Hopen. setoid_rewrite elem_open. naive_solver. }
    destruct (SITE_EXPLORER_PAUSE_BUDGET <? now - foldr Z.max x l) eqn:E.
    + pose proof (proj1 Hiff (proj1 (Z.ltb_lt _ _) E)) as Hold. split; [|done]. intros _ mac s Hm Hs. unfold cleared.
      destruct (acknowledged_at s) eqn:Ha; [by left|right]. specialize (Hold mac s Hm Hs Ha). lia.
    + apply Z.ltb_ge in E. split; [done|]. intros H. exfalso.
      assert (SITE_EXPLORER_PAUSE_BUDGET < now - foldr Z.max x l); [|lia]. apply Hiff.
      intros mac s Hm Hs Ha. destruct (H mac s Hm Hs) as [[? ?]|?]; [congruence|lia].
Qed.

End Decision.

Lemma pause_has_rows now macs why t mac : mac ∈ macs → is_Some (pause now macs why t !! (mac, SiteExplorer)).
Proof. intros Hm. rewrite lookup_pause, decide_True; [by eexists|done]. Qed.

(** The gate suppresses site explorer for every address and lets a change of
    credentials proceed exactly if each of the suppressions is acknowledged or older than
    the budget; rows that existed keep their reason and times. *)
Theorem pause_gate_exact macs why w now :
  macs ≠ [] →
  let t := pause now macs why (suppressions w) in
  let run := gate_before_credential_change macs why w (λ _, mk_step id Works now) in
  suppressions run.2.1 = t ∧
  (∀ k s, suppressions w !! k = Some s → t !! k = Some s) ∧
  ∃ d, run.1 = Ok d ∧
    (d = Proceed ↔ ∀ mac, mac ∈ macs → ∃ s, t !! (mac, SiteExplorer) = Some s ∧ cleared now s).
Proof.
  intros Hm t run. unfold run, gate_before_credential_change. rewrite decide_False by done. simpl.
  split; [done|]. split.
  { intros k s Hs. unfold t. rewrite lookup_pause, Hs. by case_decide. }
  eexists. split; [done|]. fold t. rewrite gate_decision_exact.
  - pose proof (pause_has_rows now macs why (suppressions w)) as Hr. fold t in Hr. split.
    + intros H mac Hmac. destruct (Hr mac Hmac) as [s Hs]. eauto.
    + intros H mac s Hmac Hs. destruct (H mac Hmac) as (s' & Hs' & Hc). by simplify_eq.
  - apply pause_has_rows.
Qed.

Definition paused_table : suppression_table :=
  {[ ("m1"%string, SiteExplorer) := mk_suppression "operator" 5 (Some 6) ]}.
Definition paused_world : World :=
  mk_world (mk_rotation_db ∅ ∅ ∅ ∅) ∅ ∅ ∅ ∅ paused_table [] ∅ (mk_table ∅ empty_log) ∅ no_fabric (mk_table ∅ empty_log) [].

Lemma pause_gate_exact_witness :
  let t := pause 7 ["m1"; "m2"]%string ROTATION_SUPPRESSION_REASON paused_table in
  let run := gate_before_credential_change ["m1"; "m2"]%string ROTATION_SUPPRESSION_REASON paused_world
               (λ _, mk_step id Works 7) in
  suppressions run.2.1 = t ∧ (∀ k s, paused_table !! k = Some s → t !! k = Some s) ∧
  ∃ d, run.1 = Ok d ∧
    (d = Proceed ↔ ∀ mac, mac ∈ ["m1"; "m2"]%string → ∃ s, t !! (mac, SiteExplorer) = Some s ∧ cleared 7 s).
Proof. apply (pause_gate_exact ["m1"; "m2"]%string ROTATION_SUPPRESSION_REASON paused_world 7). done. Defined.

(** Two tables ask for the same; acknowledgements may differ. *)
Definition request_of (s : BmcSuppression) : string * Z := (reason s, requested_at s).
Definition same_requests (t t' : suppression_table) : Prop := ∀ k, request_of <$> t !! k = request_of <$> t' !! k.

(** Resuming undoes a pause: if no suppression of the addresses had the reason of the
    rotation, the table asks for the same afterwards as before, whatever was acknowledged
    in between; suppressions of operators are kept. *)
Theorem pause_resume_roundtrip now macs why t t' :
  (∀ mac s, mac ∈ macs → t !! (mac, SiteExplorer) = Some s → reason s ≠ why) →
  same_requests (pause now macs why t) t' → same_requests t (resume_after_credential_change macs why t').
Proof.
  intros Hown Hsame k. specialize (Hsame k). rewrite lookup_pause in Hsame. unfold resume_after_credential_change.
  destruct (decide (macs = [])) as [->|He]; [rewrite decide_False in Hsame; [done|set_solver]|].
  unfold delete_many_with_reason, delete_where. simpl. destruct k as [mac sub]. simpl in *.
  rewrite map_lookup_filter. destruct (t' !! (mac, sub)) as [s|] eqn:Hs'; simpl.
  - case_decide as Hk.
    + destruct Hk as [Hm ->]. destruct (t !! (mac, SiteExplorer)) as [s0|] eqn:Hs; simpl in *.
      * unfold request_of in Hsame. simplify_eq/=. rewrite option_guard_True; [simpl; unfold request_of; congruence|].
        intros (_ & _ & Hr). apply (Hown mac s0 Hm Hs). congruence.
      * unfold request_of in Hsame. simplify_eq/=. by rewrite option_guard_False by tauto.
    + rewrite option_guard_True by tauto. done.
  - simpl. by case_decide; [|destruct (t !! (mac, sub))].
Qed.

Lemma pause_resume_roundtrip_witness :
  same_requests paused_table (resume_after_credential_change ["m1"; "m2"]%string ROTATION_SUPPRESSION_REASON
    (acknowledge 9 "m2" SiteExplorer (pause 7 ["m1"; "m2"]%string ROTATION_SUPPRESSION_REASON paused_table)).2).
Proof.
  apply (pause_resume_roundtrip 7).
  - intros mac s Hm. unfold paused_table. rewrite lookup_singleton_Some. by intros [_ <-].
  - intros k. unfold acknowledge. destruct (pause _ _ _ _ !! ("m2"%string, SiteExplorer)) as [s|] eqn:E; [|done].
    destruct (decide (k = ("m2"%string, SiteExplorer))) as [->|Hk]; cbn [snd];
      [by rewrite lookup_insert_eq, E|by rewrite lookup_insert_ne].
Defined.

(** ** What a rotation leaves alone

    A property of the world is kept by a run of the rotation engine, by the pause and by the
    statements of a transaction, whatever fails, if it does not depend on what they write:
    the row of the BMC, its secret, the devices, sessions, suppressions and counters. *)

(** Two databases that differ at most in the row of a device *)
Record but_device (k : string * CredentialRotationType) (r r' : rotation_db) : Prop := {
  but_sitewide : sitewide r' = sitewide r;
  but_switches : switches r' = switches r;
  but_expected : expected_switches r' = expected_switches r;
  but_others k' : k' ≠ k → devices r' !! k' = devices r !! k';
}.

Lemma but_device_refl k r : but_device k r r.
Proof. by split. Qed.

Lemma but_device_set k d r : but_device k r (set_device k d r).
Proof. split; try done. intros k' Hk. by apply lookup_insert_ne. Qed.

#[local] Hint Resolve but_device_refl but_device_set : core.

Lemma mark_but mac v r r' : mark_device_rotating_to_version mac Bmc v r = Ok r' → but_device (mac, Bmc) r r'.
Proof.
  unfold mark_device_rotating_to_version. destruct (non_negative _ _); [|done]. simpl.
  repeat case_match; intros; simplify_eq; auto.
Qed.

Lemma promote_but mac r : but_device (mac, Bmc) r (promote_rotating_to_current mac Bmc r).2.
Proof. unfold promote_rotating_to_current. repeat case_match; simpl; auto. Qed.

Lemma increment_but now mac e q r r' : increment_rotate_attempt now mac Bmc e q r = Ok r' → but_device (mac, Bmc) r r'.
Proof.
  unfold increment_rotate_attempt. case_match; [|by intros [= <-]]. destruct (plus_one _); [|done]. simpl. intros [= <-]. auto.
Qed.

(** [Hothers] says that others keep the property. *)
Ltac keep_with Hothers :=
  repeat match goal with
  | |- keeps _ _ (_ ≫= _) => apply kept_bind; [|intros ?]
  | |- keeps _ _ _ => solve [auto with kept nocore]
  | |- keeps _ _ (catch _) => apply kept_catch
  | |- keeps _ _ (convert _ _) => apply kept_convert
  | |- keeps _ _ (read _ _) => apply kept_read; exact Hothers
  | |- keeps _ _ _ => case_match
  | |- keeps _ _ _ => by auto
  end.

Section Frame.
Context (allowed : Step World → Prop) (P : World → Prop).
Context (Hothers : ∀ st w, allowed st → P w → P (others st w)).
Context (bmc : BmcRotationTarget).
Context (Hrot : ∀ r w, but_device (device_mac bmc, Bmc) (rot w) r → P w → P (set_rot r w)).
Context (Hstore : ∀ c w, P w → P (set_store (<[path (BmcCredentials (BmcRoot (device_mac bmc))) := c]> (store w)) w)).
Context (Hbmcs : ∀ b w, P w → P (set_bmcs b w)) (Hsessions : ∀ s w, P w → P (set_sessions s w)).
Context (Hresults : ∀ m r w, P w → P (add_result m r w)).

Notation kept m := (keeps allowed P m).
Ltac keep := keep_with Hothers.

Lemma request_kept {A} l (f : BmcState → result RedfishError A * BmcState) : kept (request l f).
Proof using Hothers Hbmcs.
  apply kept_call; [done|]. intros c w HP. destruct (bmcs w !! l) as [b|]; [|done]. destruct (f b). by apply Hbmcs.
Qed.

Lemma probe_chassis_kept l c ids : kept (probe_chassis l c ids).
Proof using Hothers Hbmcs.
  induction ids as [|i ids IH]; simpl; [apply kept_lift|]. apply kept_bind; [apply request_kept|]. intros m.
  destruct (m ≫= _); [apply kept_ret|done].
Qed.

Lemma probe_kept l c : kept (probe_bmc_vendor l c).
Proof using Hothers Hbmcs.
  unfold probe_bmc_vendor. keep; try apply request_kept; apply probe_chassis_kept.
Qed.

Lemma change_or_recover_kept v from to : kept (change_or_recover bmc v from to).
Proof using Hothers Hbmcs.
  unfold change_or_recover, set_bmc_root_password, change_by_vendor, bmc_credentials_valid, change_password, change_password_by_id.
  keep; apply request_kept.
Qed.

Lemma resolve_kept from to : kept (resolve_dispatch_vendor bmc from to).
Proof using Hothers Hbmcs.
  unfold resolve_dispatch_vendor. destruct (vendor bmc); [apply kept_ret|].
  generalize (None : option string). induction [from; to] as [|c l IH]; intros e; simpl; [apply kept_lift|].
  apply kept_bind; [apply kept_catch, probe_kept|]. intros [v|e']; [apply kept_ret|apply IH].
Qed.

Lemma converge_kept v : kept (converge_bmc_password bmc v).
Proof using Hothers Hbmcs Hstore.
  unfold converge_bmc_password, get_credentials. keep; [apply resolve_kept|apply change_or_recover_kept|].
  apply kept_call; [done|]. intros c w HP. by apply Hstore.
Qed.

Lemma rotate_bmc_kept force : kept (rotate_bmc bmc force).
Proof using Hothers Hbmcs Hstore Hrot Hsessions Hresults.
  assert (Hx : ∀ f, (∀ c r r', f c r = Ok r' → but_device (device_mac bmc, Bmc) r r') → kept (execute f)).
  { intros f Hf. apply kept_call; [done|]. intros c w HP. destruct (f c (rot w)) eqn:E; [apply Hrot; eauto|done]. }
  assert (Hd : ∀ m, kept (delete_sessions m)) by (intros m; apply kept_call; [done|]; intros c w HP; by apply Hsessions).
  assert (He : ∀ m r, kept (emit m r)) by (intros m r w sc Hsc HP; split; [done|]; by apply Hresults).
  unfold rotate_bmc, acquire, query. keep; try apply converge_kept; apply Hx; intros c r r'.
  - apply mark_but.
  - intros [= <-]. apply promote_but.
  - apply increment_but.
Qed.

Context (Hsuppressions : ∀ s w, P w → P (set_suppressions s w)).

Lemma gate_kept macs why : kept (gate_before_credential_change macs why).
Proof using Hothers Hsuppressions.
  unfold gate_before_credential_change. keep. apply kept_call; [done|]. intros c w HP. by apply Hsuppressions.
Qed.

Lemma statement_kept f txn : kept (statement f txn).
Proof using Hothers. apply kept_read; done. Qed.

End Frame.
