(* ===== verification/RotationEngineFacts.v ===== *)
(** * The rotation engine never loses a BMC

    What holds of a device after every attempt to rotate its password, whatever fails and
    wherever the process dies, as long as the site-wide target does not move before the
    device is in step again; that one undisturbed attempt then brings the device to the
    target; and what happens when the target moves too early. *)

From S2P Require Import Prelude Credentials CredentialRotation Calls RotationWorld RotationEngine.

Section Device.
Context (bmc : BmcRotationTarget).

(** ** What the engine knows of one device *)

Definition row (w : World) : option DeviceRow := devices (rot w) !! (device_mac bmc, Bmc).
Definition target (w : World) : option Sitewide := sitewide (rot w) !! Bmc.
Definition acct (w : World) : option Credentials := account <$> bmcs w !! loc bmc.
Definition stored (w : World) : option Credentials := effective w (per_device_key (device_mac bmc)).
Definition secret (w : World) (v : Z) : option Credentials := effective w (rotate_to_key v).

(** Others leave the device alone: its row, the target, the BMC and its secret; secrets of
    versions are never changed. *)
Record undisturbed (w w' : World) : Prop := {
  und_row : row w' = row w;
  und_target : target w' = target w;
  und_bmc : bmcs w' !! loc bmc = bmcs w !! loc bmc;
  und_stored : stored w' = stored w;
  und_shadow : shadow w' !! path (per_device_key (device_mac bmc)) =
               shadow w !! path (per_device_key (device_mac bmc));
  und_secret v c : secret w v = Some c → secret w' v = Some c;
}.

Record view (t : Sitewide) (d : DeviceRow) (c s a : Credentials) (w : World) : Prop := {
  view_target : target w = Some t;
  view_row : row w = Some d;
  view_stored : stored w = Some c;
  view_shadow : shadow w !! path (per_device_key (device_mac bmc)) = None;
  view_secret : secret w (target_version t) = Some s;
  view_account : acct w = Some a;
}.

(** The credentials the device gets *)
Definition new (c s : Credentials) : Credentials := UsernamePassword (username c) (password s).

(** The printed address is one that has a path of its own. *)
Definition mac_ok : Prop := no_slash (device_mac bmc) ∧ device_mac bmc ≠ "site"%string.

Definition version_ok (t : Sitewide) : Prop := 0 ≤ target_version t ≤ i32_max.

Lemma view_undisturbed t d c s a w w' : view t d c s a w → undisturbed w w' → view t d c s a w'.
Proof using Type.
  intros [] []. split; try congruence; [auto|]. unfold acct in *. congruence.
Qed.

Lemma path_ne v : mac_ok → 0 ≤ v ≤ i32_max →
  path (per_device_key (device_mac bmc)) ≠ path (rotate_to_key v).
Proof using Type.
  intros [Hs Hne] Hv E. unfold rotate_to_key, site_wide_root, path, per_device_key in E.
  assert (same_secret (BmcCredentials (BmcRoot (device_mac bmc))) (rotate_to_key v)) as [Hk|(? & ? & Hk & _)]; [| |done].
  { unfold rotate_to_key, site_wide_root.
    destruct (v =? 0); (eapply to_key_str_inj; [done| |reflexivity|]);
      [done | simpl in E |- *; by rewrite E | | simpl in E |- *; by rewrite E].
    simpl. unfold u32_max, i32_max in *. lia. }
  unfold rotate_to_key, site_wide_root in Hk. by destruct (v =? 0).
Qed.

Lemma view_set_row t d c s a d' w : view t d c s a w →
  view t d' c s a (set_rot (set_device (device_mac bmc, Bmc) d' (rot w)) w).
Proof using Type.
  intros []. split; try done. unfold row. simpl. by rewrite lookup_insert_eq.
Qed.

Lemma view_set_bmc t d c s a b w : view t d c s a w →
  view t d c s (account b) (set_bmcs (<[loc bmc := b]> (bmcs w)) w).
Proof using Type.
  intros []. split; try done. unfold acct. simpl. by rewrite lookup_insert_eq.
Qed.

Lemma view_set_stored t d c s a c' w : mac_ok → version_ok t → view t d c s a w →
  view t d c' s a (set_store (<[path (per_device_key (device_mac bmc)) := c']> (store w)) w).
Proof using Type.
  intros Hm Hv [Ht Hr Hst Hsh Hs Ha]. split; try done.
  - unfold stored, effective. simpl. rewrite Hsh. by rewrite lookup_insert_eq.
  - unfold secret, effective in *. simpl. rewrite lookup_insert_ne; [done|]. by apply path_ne.
Qed.

Lemma view_add_result t d c s a m r w : view t d c s a w → view t d c s a (add_result m r w).
Proof using Type. by intros []. Qed.

(** ** Requests to the device *)

Notation allowed := (relies undisturbed).

Lemma request_triple {A} t d c s a (f : BmcState → result RedfishError A * BmcState)
    (Post : result (stop RedfishError) A → Credentials → Prop) :
  (∀ b, account b = a → Post (returned (f b).1) (account (f b).2) ∧
     ∀ why, Post (Err (Failed (OtherError why))) (account (f b).2)) →
  (∀ why, Post (Err (Failed (OtherError why))) a) → Post (Err Crashed) a →
  hoare allowed (view t d c s a) (request (loc bmc) f)
    (λ r w, ∃ a', view t d c s a' w ∧ Post r a').
Proof using Type.
  intros Hf Hb Hd. apply (hoare_rely _ _ (view t d c s a)); [by eauto using view_undisturbed| | |].
  - intros z w Hw. destruct (view_account _ _ _ _ _ _ Hw).
    pose proof (view_account _ _ _ _ _ _ Hw) as Ha. unfold acct in Ha.
    apply fmap_Some in Ha as (b & Hb' & ->). rewrite Hb'. destruct (Hf b eq_refl) as [H1 H2].
    destruct (f b) as [r b'] eqn:E. simpl in *. split; [|intros why]; exists (account b');
      (split; [by eapply view_set_bmc|auto]).
  - intros w why Hw. eauto.
  - eauto.
Qed.

(** Every request of an attempt authenticates with the old or the new credentials and sets
    no password but the new one; so the account has one of both. *)
Definition either (t : Sitewide) (d : DeviceRow) (c s : Credentials) (w : World) : Prop :=
  ∃ a, view t d c s a w ∧ (a = c ∨ a = new c s).
Definition changed (t : Sitewide) (d : DeviceRow) (c s : Credentials) : World → Prop :=
  view t d c s (new c s).

Lemma changed_either t d c s w : changed t d c s w → either t d c s w.
Proof using Type. intros H. eexists. eauto. Qed.

Lemma authenticated_triple {A} t d c s cred (f : BmcState → result RedfishError A * BmcState) :
  (∀ b, account (f b).2 = account b) →
  hoare allowed (either t d c s) (request (loc bmc) (authenticated cred f))
    (λ r w, either t d c s w ∧ (∀ x, r = Ok x → cred = new c s → changed t d c s w)).
Proof using Type.
  intros Hf. apply hoare_exists. intros a. apply (hoare_assume _ (a = c ∨ a = new c s)); [tauto|]. intros Ha.
  eapply hoare_weaken; [apply (request_triple t d c s a _ (λ r a', a' = a ∧ ∀ x, r = Ok x → a = cred))| |].
  - intros b <-. unfold authenticated. case_decide; simpl; split; auto; intros; split; auto; done.
  - done.
  - done.
  - by intros w [? _].
  - intros r w (a' & Hw & -> & H). split; [by exists a|]. intros x Hr Hn. rewrite (H x Hr), Hn in Hw. done.
Qed.

Lemma patch_triple t d c s (f : BmcState → result RedfishError () * BmcState) :
  (∀ b, f b = patch_password (password s) b ∨ ∃ e, f b = (Err e, b)) →
  hoare allowed (either t d c s) (request (loc bmc) (authenticated c f))
    (λ r w, either t d c s w ∧ (r = Ok () → changed t d c s w)).
Proof using Type.
  intros Hf. apply hoare_exists. intros a. apply (hoare_assume _ (a = c ∨ a = new c s)); [tauto|]. intros Ha.
  eapply hoare_weaken; [apply (request_triple t d c s a _
    (λ r a', (a' = a ∨ a' = new c s) ∧ (r = Ok () → a' = new c s)))| |].
  - intros b <-. unfold authenticated. case_decide as Hc; simpl; [|naive_solver].
    destruct (Hf b) as [-> | [e ->]]; simpl; [|naive_solver]. unfold patch_password.
    assert (Hnew : account (set_password (password s) b) = new c s) by (simpl; by rewrite Hc).
    repeat case_match; simpl in *; naive_solver.
  - intros why. split; [by left|done].
  - split; [by left|done].
  - by intros w [? _].
  - intros r w (a' & Hw & Ha' & Hr). split; [exists a'; naive_solver|]. intros E. by rewrite (Hr E) in Hw.
Qed.

Lemma change_by_vendor_triple t d c s v :
  hoare allowed (either t d c s) (change_by_vendor (loc bmc) v c (password s))
    (λ r w, either t d c s w ∧ (r = Ok () → changed t d c s w)).
Proof using Type.
  assert (Hid : hoare allowed (either t d c s) (change_password_by_id (loc bmc) c (password s))
    (λ r w, either t d c s w ∧ (r = Ok () → changed t d c s w))) by (apply patch_triple; auto).
  assert (Hname : hoare allowed (either t d c s) (change_password (loc bmc) c (password s))
    (λ r w, either t d c s w ∧ (r = Ok () → changed t d c s w))).
  { apply patch_triple. intros b. case_match; eauto. }
  assert (Hami : hoare allowed (either t d c s) (change_by_vendor (loc bmc) AMI c (password s))
    (λ r w, either t d c s w ∧ (r = Ok () → changed t d c s w))).
  { eapply hoare_try; [exact Hname| | |naive_solver].
    - intros []. apply hoare_ret. naive_solver.
    - intros e. apply (hoare_weaken _ _ (either t d c s) _ _
        (λ r w, either t d c s w ∧ (r = Ok () → changed t d c s w))); [|tauto|done].
      destruct e; try exact Hid; by apply hoare_lift; intros w Hw; split. }
  destruct v; try exact Hid; try exact Hname; try exact Hami.
  by apply hoare_lift; intros w ?; split.
Qed.

Lemma set_bmc_root_password_triple t d c s v :
  hoare allowed (either t d c s) (set_bmc_root_password (loc bmc) v c (password s))
    (λ r w, either t d c s w ∧ (r = Ok () → changed t d c s w)).
Proof using Type.
  eapply hoare_seq; [apply change_by_vendor_triple| |naive_solver].
  intros []. eapply hoare_weaken; [apply (authenticated_triple t d c s (new c s)); done| |].
  - tauto.
  - intros r w [He Hc]. split; [done|]. intros ->. by eapply Hc.
Qed.

Lemma bmc_credentials_valid_triple t d c s :
  hoare allowed (either t d c s) (bmc_credentials_valid (loc bmc) (new c s))
    (λ r w, either t d c s w ∧ (r = Ok true → changed t d c s w)).
Proof using Type.
  eapply hoare_try; [apply (authenticated_triple t d c s (new c s)); done| | |naive_solver].
  - intros []. apply hoare_ret. intros w [He Hc]. split; [done|]. intros _. by eapply Hc.
  - intros []; first [apply hoare_ret | apply hoare_lift]; naive_solver.
Qed.

Lemma change_or_recover_triple t d c s v :
  hoare allowed (either t d c s) (change_or_recover bmc v c (new c s))
    (λ r w, either t d c s w ∧ (∀ x, r = Ok x → changed t d c s w)).
Proof using Type.
  unfold change_or_recover. change (password (new c s)) with (password s).
  eapply hoare_try; [apply set_bmc_root_password_triple| | |naive_solver].
  - intros []. apply hoare_ret. naive_solver.
  - intros e. eapply hoare_try; [eapply hoare_weaken; [apply (bmc_credentials_valid_triple t d c s)|tauto|done]| | |].
    + intros []; [apply hoare_ret | apply hoare_lift]; naive_solver.
    + intros e'. apply hoare_lift. naive_solver.
    + naive_solver.
Qed.

Lemma probe_chassis_triple t d c s cred ids :
  hoare allowed (either t d c s) (probe_chassis (loc bmc) cred ids) (λ _ w, either t d c s w).
Proof using Type.
  induction ids as [|i ids IH]; [by apply hoare_lift|].
  eapply hoare_seq; [apply (authenticated_triple t d c s cred); done| |naive_solver].
  intros o. simpl. destruct (o ≫= _); [apply hoare_ret; naive_solver|].
  eapply hoare_weaken; [exact IH|tauto|done].
Qed.

Lemma probe_bmc_vendor_triple t d c s cred :
  hoare allowed (either t d c s) (probe_bmc_vendor (loc bmc) cred) (λ _ w, either t d c s w).
Proof using Type.
  assert (Hby : hoare allowed (either t d c s)
    (ids ← request (loc bmc) (authenticated cred (λ b, (Ok (seq 0 (length (chassis b))), b)));
     probe_chassis (loc bmc) cred ids) (λ _ w, either t d c s w)).
  { eapply hoare_seq; [apply (authenticated_triple t d c s cred); done| |naive_solver].
    intros ids. eapply hoare_weaken; [apply probe_chassis_triple|naive_solver|done]. }
  unfold probe_bmc_vendor. eapply (hoare_try _ _ _ _ (λ _ w, either t d c s w)); [| | |done].
  - apply hoare_exists. intros a. apply (hoare_assume _ (a = c ∨ a = new c s)); [tauto|]. intros Ha.
    eapply hoare_weaken; [apply (request_triple t d c s a _ (λ _ a', a' = a)); naive_solver|tauto|].
    intros r w (a' & Hw & ->). by exists a.
  - intros [v|]; [|exact Hby]. destruct (decide (v = Unknown)); [exact Hby|]. by apply hoare_ret.
  - intros e. exact Hby.
Qed.

Lemma resolve_dispatch_vendor_triple t d c s from to :
  hoare allowed (either t d c s) (resolve_dispatch_vendor bmc from to) (λ _ w, either t d c s w).
Proof using Type.
  unfold resolve_dispatch_vendor. destruct (vendor bmc); [by apply hoare_ret|].
  generalize (None : option string). induction [from; to] as [|cr l IH]; intros o; [by apply hoare_lift|].
  eapply hoare_try; [apply probe_bmc_vendor_triple| |intros e; apply IH|done].
  intros v. by apply hoare_ret.
Qed.

(** ** One attempt *)

(** Device and store agree on the new credentials. *)
Definition in_step (t : Sitewide) (d : DeviceRow) (c s : Credentials) : World → Prop :=
  view t d (new c s) s (new c s).

Lemma either_undisturbed t d c s w w' : either t d c s w → undisturbed w w' → either t d c s w'.
Proof using Type. intros (a & Hw & Ha) Hu. exists a. eauto using view_undisturbed. Qed.

Lemma get_credentials_triple t d c s k o :
  (∀ w, either t d c s w → effective w k = o) →
  hoare allowed (either t d c s) (get_credentials k)
    (λ r w, either t d c s w ∧ ∀ x, r = Ok x → x = o).
Proof using Type.
  intros Ho. apply (hoare_rely _ _ (either t d c s)); [by eauto using either_undisturbed| | |]; simpl.
  - intros _ w Hw. rewrite Ho by done. naive_solver.
  - naive_solver.
  - naive_solver.
Qed.

Lemma set_credentials_triple t d c s : mac_ok → version_ok t →
  hoare allowed (changed t d c s) (set_credentials (per_device_key (device_mac bmc)) (new c s))
    (λ r w, (changed t d c s w ∨ in_step t d c s w) ∧ (r = Ok () → in_step t d c s w)).
Proof using Type.
  intros Hm Hv. apply (hoare_rely _ _ (changed t d c s)); [unfold changed; by eauto using view_undisturbed| | |]; simpl.
  - intros _ w Hw. assert (Hs : in_step t d c s (set_store
      (<[path (per_device_key (device_mac bmc)) := new c s]> (store w)) w)) by by apply view_set_stored with c.
    naive_solver.
  - naive_solver.
  - naive_solver.
Qed.

(** Failures before the store is written are faults of the device. *)
Lemma fault_triple {A} t d c s (m : prog World string A) (Post : result (stop string) A → World → Prop)
    (f : string → string) :
  hoare allowed (either t d c s) m (λ r w, either t d c s w ∧ Post r w) →
  hoare allowed (either t d c s) (convert (DeviceFault ∘ f) m) (λ r w, either t d c s w ∧
    match r with Ok x => Post (Ok x) w | Err (Failed (DeviceFault _)) | Err Crashed => True | _ => False end).
Proof using Type. intros H. eapply hoare_convert; [exact H|done|naive_solver|naive_solver]. Qed.

Definition attempt_post {A} (t : Sitewide) (d : DeviceRow) (c s : Credentials)
    (r : result (stop ConvergeError) A) (w : World) : Prop :=
  match r with
  | Ok _ => in_step t d c s w
  | Err (Failed (DeviceFault _)) => either t d c s w
  | _ => either t d c s w ∨ in_step t d c s w
  end.

Lemma converge_triple t d c s : mac_ok → version_ok t →
  hoare allowed (either t d c s) (converge_bmc_password bmc (target_version t))
    (attempt_post t d c s).
Proof using Type.
  intros Hm Hv. unfold converge_bmc_password.
  eapply hoare_seq; [apply (fault_triple _ _ _ _ _ _ _ (get_credentials_triple t d c s _ (Some c)
    ltac:(by intros w (a & [] & _))))| |intros [[]|] w; naive_solver].
  intros o. apply (hoare_assume _ (o = Some c)); [naive_solver|]. intros ->. simpl.
  eapply hoare_seq; [apply (hoare_lift _ _ (Ok c) (λ r w, either t d c s w ∧ r = Ok c)); naive_solver| |naive_solver].
  intros c'. apply (hoare_assume _ (c' = c)); [naive_solver|]. intros ->.
  apply (hoare_from _ (either t d c s)); [tauto|].
  eapply hoare_seq; [apply (fault_triple _ _ _ _ _ _ _ (get_credentials_triple t d c s _ (Some s)
    ltac:(by intros w (a & [] & _))))| |intros [[]|] w; naive_solver].
  intros o. apply (hoare_assume _ (o = Some s)); [naive_solver|]. intros ->. simpl.
  eapply hoare_seq; [apply (hoare_lift _ _ (Ok s) (λ r w, either t d c s w ∧ r = Ok s)); naive_solver| |naive_solver].
  intros s'. apply (hoare_assume _ (s' = s)); [naive_solver|]. intros ->.
  apply (hoare_from _ (either t d c s)); [tauto|].
  eapply hoare_seq; [apply (fault_triple _ _ _ _ _ (λ _ _, True) (λ e, redact e [password c; password s])
    (hoare_weaken _ _ _ _ _ _ (resolve_dispatch_vendor_triple t d c s c (new c s)) (λ _ H, H) (λ _ _ H, conj H I)))| |intros [[]|] w; naive_solver].
  intros v. apply (hoare_from _ (either t d c s)); [tauto|].
  eapply hoare_seq; [apply (fault_triple _ _ _ _ _ _ (λ e, redact e [password c; password s])
    (change_or_recover_triple t d c s v))| |intros [[]|] w; naive_solver].
  intros x. apply (hoare_from _ (changed t d c s)); [naive_solver|].
  eapply (hoare_seq _ _ _ _ (λ r w, (changed t d c s w ∨ in_step t d c s w) ∧
    match r with Ok _ => in_step t d c s w | Err (Failed (DeviceFault _)) => False | _ => True end)).
  - eapply hoare_convert; [apply (set_credentials_triple t d c s Hm Hv)| | |].
    + intros [] w [H1 H2]. auto.
    + by intros e w [H1 _].
    + by intros w [H1 _].
  - intros []. apply hoare_ret. naive_solver.
  - pose proof changed_either. intros [[]|] w; naive_solver.
Qed.

(** ** One run of the engine *)

(** What is known of the device between runs: no version above the target is recorded; a
    device whose row says that it has the target has it, in the account and in the store;
    and the account has the stored credentials, or those of a change that was announced
    in the row. *)
Record good (t : Sitewide) (d : DeviceRow) (c s a : Credentials) : Prop := {
  good_version : version_ok t;
  good_current v : current_version d = Some v → v ≤ target_version t;
  good_honest : current_version d = Some (target_version t) → a = c ∧ password c = password s;
  good_known : a = c ∨ (a = new c s ∧ rotating_to_version d = Some (target_version t));
}.

Definition recoverable (w : World) : Prop := ∃ t d c s a, view t d c s a w ∧ good t d c s a.

(** Row, store and account agree on the target. *)
Definition settled (w : World) : Prop := ∃ t d c s,
  view t d c s c w ∧ current_version d = Some (target_version t) ∧ password c = password s.

(** What a run leaves *)
Definition run_post (r : result (stop RotationEngineError) RotateOutcome) (w : World) : Prop :=
  recoverable w ∧ (r = Ok Converged → settled w).

(** A row that announces the target and does not have it yet *)
Record announced (t : Sitewide) (d : DeviceRow) : Prop := {
  ann_version : version_ok t;
  ann_current v : current_version d = Some v → v < target_version t;
  ann_rotating : rotating_to_version d = Some (target_version t);
}.

Lemma either_recoverable t d c s w : announced t d → either t d c s w → recoverable w.
Proof using Type.
  intros [Hv Hc Hr] (a & Hw & Ha). exists t, d, c, s, a. split; [done|]. split; [done| | |naive_solver].
  - intros v E. specialize (Hc v E). lia.
  - intros E. specialize (Hc _ E). lia.
Qed.

Lemma in_step_recoverable t d c s w : announced t d → in_step t d c s w → recoverable w.
Proof using Type.
  intros Hd Hw. apply (either_recoverable t d (new c s) s w Hd). exists (new c s). auto.
Qed.

Lemma recoverable_undisturbed w w' : recoverable w → undisturbed w w' → recoverable w'.
Proof using Type. intros (t & d & c & s & a & Hw & Hg) Hu. exists t, d, c, s, a. eauto using view_undisturbed. Qed.

Lemma recoverable_intro t d c s a w : view t d c s a w → good t d c s a → recoverable w.
Proof using Type. intros. by exists t, d, c, s, a. Qed.

Lemma settled_recoverable w t d c s :
  version_ok t → view t d c s c w → current_version d = Some (target_version t) → password c = password s →
  recoverable w ∧ settled w.
Proof using Type.
  intros. split; [|by exists t, d, c, s]. exists t, d, c, s, c. split; [done|]. split; [done| |done|by left].
  intros v ?. simplify_eq. lia.
Qed.

Section Stable.
Context (P : World → Prop) (Hstable : ∀ w w', P w → undisturbed w w' → P w').

Lemma acquire_triple : hoare allowed P acquire (λ _, P).
Proof using Hstable. apply (hoare_rely _ _ P); naive_solver. Qed.

Lemma query_triple {A} (f : Z → rotation_db → result DatabaseError A) :
  hoare allowed P (query f) (λ r w, P w ∧ ∀ x, r = Ok x → ∃ now, f now (rot w) = Ok x).
Proof using Hstable.
  apply (hoare_rely _ _ P); [done| |naive_solver..]. intros now w Hw. simpl.
  destruct (f now (rot w)) eqn:E; simpl; naive_solver.
Qed.

Lemma execute_triple (f : Z → rotation_db → result DatabaseError rotation_db) (R : World → Prop) :
  (∀ now w r, P w → f now (rot w) = Ok r → R (set_rot r w)) →
  hoare allowed P (execute f) (λ r w, match r with Ok _ => R w | Err _ => P w ∨ R w end).
Proof using Hstable.
  intros HR. apply (hoare_rely _ _ P); [done| |naive_solver..]. intros now w Hw.
  destruct (f now (rot w)) eqn:E; simpl; naive_solver.
Qed.

End Stable.

Lemma status_of t d c s a now w : view t d c s a w →
  device_rotation_status now Bmc (device_mac bmc) (rot w) =
    Ok (Some (device_status now t (device_mac bmc) (Some d))).
Proof using Type.
  intros [Ht Hr _ _ _ _]. unfold device_rotation_status. simpl. unfold target, row in *. by rewrite Ht, Hr.
Qed.

Lemma good_converged t d c s a : good t d c s a → is_converged (target_version t) (Some d) = true →
  current_version d = Some (target_version t) ∧ a = c ∧ password c = password s.
Proof using Type.
  intros [Hv Hcur Hh _] Hc. unfold is_converged in Hc. simpl in Hc.
  destruct (current_version d) as [v|] eqn:Hd; [|done]. simpl in Hc. specialize (Hcur v eq_refl).
  assert (v = target_version t) as -> by lia. auto.
Qed.

(** The row is marked before the device is touched. *)
Lemma mark_announces t d c s a w : good t d c s a → view t d c s a w →
  is_converged (target_version t) (Some d) = false →
  ∃ r d', mark_device_rotating_to_version (device_mac bmc) Bmc (target_version t) (rot w) = Ok r ∧
    announced t d' ∧ view t d' c s a (set_rot r w).
Proof using Type.
  intros [Hv Hcur _ _] Hw Hnc.
  assert (Hlt : ∀ v, current_version d = Some v → v < target_version t).
  { intros v Hd. unfold is_converged in Hnc. simpl in Hnc. rewrite Hd in Hnc. simpl in Hnc. lia. }
  unfold mark_device_rotating_to_version. pose proof (view_row _ _ _ _ _ _ Hw) as Hr. unfold row in Hr.
  unfold non_negative. destruct Hv as [Hv1 Hv2]. rewrite (proj2 (Z.leb_le _ _) Hv1), Hr. simpl. case_decide.
  - exists (rot w), d. split; [done|]. split; [by split|]. by destruct w.
  - eexists _, _. split; [done|]. split; [|by apply view_set_row with d]. by split.
Qed.

Lemma promote_settles t d c s w : announced t d → in_step t d c s w →
  recoverable (set_rot (promote_rotating_to_current (device_mac bmc) Bmc (rot w)).2 w) ∧
  settled (set_rot (promote_rotating_to_current (device_mac bmc) Bmc (rot w)).2 w).
Proof using Type.
  intros Hd Hw. unfold promote_rotating_to_current. pose proof (view_row _ _ _ _ _ _ Hw) as Hr. unfold row in Hr.
  rewrite Hr, (ann_rotating _ _ Hd). simpl.
  eapply settled_recoverable; [apply Hd|by apply view_set_row with d|done|done].
Qed.

Lemma settled_undisturbed w w' : settled w → undisturbed w w' → settled w'.
Proof using Type. intros (t & d & c & s & Hw & ?) Hu. exists t, d, c, s. eauto using view_undisturbed. Qed.

Lemma finish_triple t d c s x : announced t d →
  hoare allowed (in_step t d c s)
    (_ ← acquire; _ ← delete_sessions (device_mac bmc);
     _ ← execute (λ _ db, Ok (promote_rotating_to_current (device_mac bmc) Bmc db).2);
     _ ← emit (device_mac bmc) x; mret Converged)
    run_post.
Proof using Type. unfold run_post.
  intros Hd. pose proof (in_step_recoverable t d c s) as Hrec. unfold in_step in *.
  assert (Hst : ∀ w w', view t d (new c s) s (new c s) w → undisturbed w w' → view t d (new c s) s (new c s) w')
    by eauto using view_undisturbed.
  eapply hoare_seq; [apply (acquire_triple _ Hst)|intros []|naive_solver].
  eapply (hoare_seq _ _ _ _ (λ _, view t d (new c s) s (new c s))); [|intros []|naive_solver].
  { apply (hoare_rely _ _ (view t d (new c s) s (new c s))); [done| |done..].
    intros _ w []. by repeat split. }
  eapply hoare_seq; [apply (execute_triple _ Hst _ (λ w, recoverable w ∧ settled w))|intros []|naive_solver].
  { intros _ w r Hw [= <-]. by eapply promote_settles. }
  intros w sc Hsc [Hr Hs]. split; [done|]. simpl. split; [|intros _].
  - destruct Hr as (t' & d' & c' & s' & a & Hw & Hg). exists t', d', c', s', a. by eauto using view_add_result.
  - destruct Hs as (t' & d' & c' & s' & Hw & Hg). exists t', d', c', s'. by eauto using view_add_result.
Qed.

Lemma recoverable_add_result m r w : recoverable w → recoverable (add_result m r w).
Proof using Type.
  intros (t & d & c & s & a & Hw & Hg). exists t, d, c, s, a. by eauto using view_add_result.
Qed.

Lemma increment_recoverable now e until r w : recoverable w →
  increment_rotate_attempt now (device_mac bmc) Bmc e until (rot w) = Ok r → recoverable (set_rot r w).
Proof using Type.
  intros (t & d & c & s & a & Hw & [? ? ? ?]) E. unfold increment_rotate_attempt in E.
  pose proof (view_row _ _ _ _ _ _ Hw) as Hr. unfold row in Hr. rewrite Hr in E.
  destruct (plus_one _); simplify_eq/=.
  eapply recoverable_intro; [by apply view_set_row with d|by split].
Qed.

Lemma quarantine_triple reason attempts :
  hoare allowed recoverable
    (now ← utc_now; let until := backoff_until attempts now in
     _ ← acquire; _ ← execute (λ now, increment_rotate_attempt now (device_mac bmc) Bmc reason until);
     _ ← emit (device_mac bmc) ResultQuarantined; mret (Quarantined until))
    run_post.
Proof using Type. unfold run_post.
  pose proof recoverable_undisturbed as Hst.
  eapply (hoare_seq _ _ _ _ (λ _, recoverable)); [by apply hoare_now|intros now|naive_solver].
  eapply hoare_seq; [apply (acquire_triple _ Hst)|intros []|naive_solver].
  eapply hoare_seq; [apply (execute_triple _ Hst _ recoverable)|intros []|naive_solver].
  { intros now' w r Hw E. by eapply increment_recoverable. }
  intros w sc Hsc Hw. split; [done|]. simpl. split; [by apply recoverable_add_result|done].
Qed.

(** Whatever fails, a run leaves the device recoverable; and if it says that the device
    has converged, it has. *)
Lemma rotate_bmc_triple force : mac_ok →
  hoare allowed recoverable (rotate_bmc bmc force) run_post.
Proof using Type. unfold run_post.
  intros Hm. do 5 (apply hoare_exists; intros ?). rename b into t, b0 into d, b1 into c, b2 into s, b3 into a.
  apply (hoare_assume _ (good t d c s a)); [tauto|]. intros Hg.
  apply (hoare_from _ (view t d c s a)); [tauto|].
  assert (Hst : ∀ w w', view t d c s a w → undisturbed w w' → view t d c s a w') by eauto using view_undisturbed.
  assert (Hrec : ∀ w, view t d c s a w → recoverable w) by eauto using recoverable_intro.
  unfold rotate_bmc. eapply hoare_seq; [apply (acquire_triple _ Hst)|intros []|naive_solver].
  eapply hoare_seq; [apply (query_triple _ Hst)|intros o|naive_solver].
  apply (hoare_assume _ (∃ now, o = Some (device_status now t (device_mac bmc) (Some d)))).
  { intros w [Hw Ho]. destruct (Ho _ eq_refl) as [now E]. rewrite (status_of _ _ _ _ _ now _ Hw) in E. naive_solver. }
  intros [now ->]. apply (hoare_from _ (view t d c s a)); [tauto|]. simpl.
  destruct (is_converged _ _) eqn:Hc.
  { apply hoare_ret. intros w Hw. destruct (good_converged _ _ _ _ _ Hg Hc) as (Hd & -> & Hp).
    edestruct (settled_recoverable w t d c s); auto. apply Hg. }
  case_match.
  { destruct (rotate_quarantined_until d); [apply hoare_ret; naive_solver|].
    eapply (hoare_seq _ _ _ _ (λ _, view t d c s a)); [by apply hoare_now|intros ?; apply hoare_ret; naive_solver|naive_solver]. }
  destruct (good_version _ _ _ _ _ Hg) as [Hv _]. unfold to_u32. rewrite (proj2 (Z.leb_le _ _) Hv).
  eapply (hoare_seq _ _ _ _ (λ r w, view t d c s a w ∧ r = Ok (target_version t))); [by apply hoare_lift| |naive_solver].
  intros v. apply (hoare_assume _ (v = target_version t)); [naive_solver|]. intros ->.
  apply (hoare_from _ (view t d c s a)); [tauto|].
  eapply hoare_seq; [apply (acquire_triple _ Hst)|intros []|naive_solver].
  eapply hoare_seq; [apply (execute_triple _ Hst _ (λ w, ∃ d', announced t d' ∧ either t d' c s w))|intros []|].
  { intros _ w r Hw E. destruct (mark_announces t d c s a w Hg Hw Hc) as (r' & d' & E' & Hd & Hw').
    rewrite E' in E. simplify_eq. exists d'. split; [done|]. exists a. destruct (good_known _ _ _ _ _ Hg); naive_solver. }
  2: { intros e w [Hw|(d' & Hd & Hw)]; split; try done; [auto|by eapply either_recoverable]. }
  apply hoare_exists. intros d'. apply hoare_pre. intros Hd.
  pose proof (λ w, either_recoverable t d' c s w Hd) as He.
  pose proof (λ w, in_step_recoverable t d' c s w Hd) as Hi.
  eapply hoare_try; [apply (converge_triple t d' c s Hm (ann_version _ _ Hd))| | |].
  - intros x. apply finish_triple, Hd.
  - intros [e|e]; simpl.
    + eapply hoare_weaken; [apply quarantine_triple|by apply He|done].
    + apply hoare_ret. naive_solver.
  - simpl. naive_solver.
Qed.

(** ** Runs, crashes and new targets *)

(** A new target is published for a version whose secret is staged. *)
Definition published (w w' : World) : Prop :=
  ∃ now t meta st db, target w = Some t ∧
    set_next_target_version now Bmc (target_version t) meta (rot w) = Ok (Some st, db) ∧
    is_Some (secret w (staged_target st)) ∧ w' = set_rot db w.

(** Runs end in any way, at any call; a target is only published while the device has the
    credentials of the store. *)
Inductive event (w : World) : World → Prop :=
| event_run force sc : (∀ n, allowed (sc n)) → event w (rotate_bmc bmc force w sc).2.1
| event_publish w' : acct w = stored w → published w w' → event w w'
| event_others w' : undisturbed w w' → event w w'.

Lemma publish_recoverable w w' : recoverable w → acct w = stored w → published w w' → recoverable w'.
Proof using Type.
  intros (t & d & c & s & a & Hw & [Hv Hcur _ _]) Heq (now & t' & meta & st & db & Ht & E & [s' Hs] & ->).
  rewrite (view_target _ _ _ _ _ _ Hw) in Ht. simplify_eq.
  rewrite (view_account _ _ _ _ _ _ Hw), (view_stored _ _ _ _ _ _ Hw) in Heq. simplify_eq.
  pose proof (view_target _ _ _ _ _ _ Hw) as Ht. unfold target in Ht.
  unfold set_next_target_version in E. rewrite Ht, Z.eqb_refl in E. unfold plus_one in E.
  destruct (target_version t' <? i32_max) eqn:Hlt; simplify_eq/=. unfold version_ok in *.
  eapply (recoverable_intro (mk_sitewide (target_version t' + 1) now meta) d c s' c).
  - destruct Hw. split; try done. unfold target. simpl. by rewrite lookup_insert_eq.
  - split; simpl; [unfold version_ok; simpl; lia| | |by left].
    + intros v Hd. specialize (Hcur v Hd). lia.
    + intros Hd. specialize (Hcur _ Hd). lia.
Qed.

Lemma events_recoverable w w' : mac_ok → recoverable w → rtc event w w' → recoverable w'.
Proof using Type.
  intros Hm Hw H. induction H as [|w w1 w2 [force sc Hsc|? Heq Hp|? Hu] _ IH]; [done|apply IH..].
  - apply (rotate_bmc_triple force Hm w sc Hsc Hw).
  - by eapply publish_recoverable.
  - by eapply recoverable_undisturbed.
Qed.

(** ** An undisturbed run *)

Section Calm.
Context (t0 : Z).

Definition snap (t : Sitewide) (d : DeviceRow) (c s : Credentials) (b : BmcState) (w : World) : Prop :=
  view t d c s (account b) w ∧ bmcs w !! loc bmc = Some b.

Lemma request_calm {A} t d c s b (f : BmcState → result RedfishError A * BmcState) :
  hoare (calm_from t0) (snap t d c s b) (request (loc bmc) f)
    (λ r w, r = returned (f b).1 ∧ snap t d c s (f b).2 w).
Proof using Type.
  apply hoare_calm. intros z w _ [Hw Hb]. rewrite Hb. destruct (f b) as [r b'] eqn:E. simpl.
  split; [done|]. split; [by eapply view_set_bmc|]. simpl. by rewrite lookup_insert_eq.
Qed.

(** The vendor by the first chassis whose manufacturer is recognised *)
Definition vendor_by_chassis (b : BmcState) : option RedfishVendor :=
  head (omap (λ m, m ≫= vendor_of_manufacturer) (chassis b)).

(** The vendor can be found: it is fixed, the service root names it, or the service root
    names none and a chassis shows it, as with power shelves. *)
Definition vendor_known (v : RedfishVendor) (b : BmcState) : Prop :=
  vendor bmc = Fixed v ∨ vendor bmc = Probe ∧
    (service_root_vendor b = Some v ∨
     (service_root_vendor b = None ∨ service_root_vendor b = Some Unknown) ∧ vendor_by_chassis b = Some v).

(** The device takes the password of the target: through the vendor [v], which is known. *)
Record takes (s : Credentials) (v : RedfishVendor) (b : BmcState) : Prop := {
  takes_accepts : accepts b (password s) = true;
  takes_vendor : v ≠ Unknown;
  takes_service : v ∈ [Supermicro; Dell; Hpe] → password_change_required b = false;
  takes_known : vendor_known v b;
}.

(** After the request for the change, answered or refused, the account has the new
    credentials. *)
Definition tried (t : Sitewide) (d : DeviceRow) (c s : Credentials)
    (r : result (stop RedfishError) ()) (w : World) : Prop :=
  r ≠ Err Crashed ∧ r ≠ Err (Failed PasswordChangeRequired) ∧ ∃ b, snap t d c s b w ∧ account b = new c s.

Lemma patch_calm t d c s b (f : BmcState → result RedfishError () * BmcState) :
  account b = c ∨ account b = new c s → accepts b (password s) = true →
  f b = patch_password (password s) b →
  hoare (calm_from t0) (snap t d c s b) (request (loc bmc) (authenticated c f)) (tried t d c s).
Proof using Type.
  intros Ha Hacc Hf. eapply hoare_weaken; [apply request_calm|done|].
  intros r w [-> Hw]. revert Hw. unfold authenticated. case_decide as Hc; simpl.
  - rewrite Hf. unfold patch_password. rewrite Hacc. simpl.
    case_match eqn:Hp; simpl; intros Hw; (do 2 (split; [done|])).
    + exists b. split; [done|]. apply andb_true_iff in Hp as [_ Hp]. apply bool_decide_eq_true_1 in Hp.
      unfold new. rewrite <- Hp, <- Hc. by destruct (account b).
    + eexists. split; [done|]. simpl. by subst c.
  - intros Hw. do 2 (split; [done|]). exists (fail_login b). split; [done|]. simpl. naive_solver.
Qed.

Lemma change_by_vendor_calm t d c s v b : account b = c ∨ account b = new c s → takes s v b →
  hoare (calm_from t0) (snap t d c s b) (change_by_vendor (loc bmc) v c (password s)) (tried t d c s).
Proof using Type.
  intros Ha [Hacc Hv Hs _].
  assert (Hid : hoare (calm_from t0) (snap t d c s b) (change_password_by_id (loc bmc) c (password s)) (tried t d c s))
    by by apply patch_calm.
  assert (Hname : password_change_required b = false →
    hoare (calm_from t0) (snap t d c s b) (change_password (loc bmc) c (password s)) (tried t d c s))
    by (intros Hp; apply patch_calm; [done|done|by rewrite Hp]).
  assert (Hami : hoare (calm_from t0) (snap t d c s b) (change_by_vendor (loc bmc) AMI c (password s)) (tried t d c s)).
  { destruct (decide (password_change_required b = true ∧ account b = c)) as [[Hp Hc]|Hn].
    - eapply hoare_try; [apply request_calm| | |]; unfold authenticated; rewrite decide_True, Hp by done; simpl.
      + intros []. apply (hoare_assume _ False); [by intros w []|done].
      + intros e. apply (hoare_assume _ (e = PasswordChangeRequired)); [by intros w [[= <-] _]|]. intros ->.
        eapply hoare_weaken; [exact Hid|by intros w []|done].
      + by intros w [].
    - eapply (hoare_try _ _ _ _ (tried t d c s)).
      + apply (hoare_weaken _ _ (snap t d c s b) _ _ (tried t d c s)); [|done|done].
        destruct (password_change_required b) eqn:Hp; [|by apply Hname].
        eapply hoare_weaken; [apply request_calm|done|]. unfold authenticated. rewrite decide_False by naive_solver.
        intros r w [-> Hw]. do 2 (split; [done|]). exists (fail_login b). split; [done|]. simpl. naive_solver.
      + intros []. apply hoare_ret. done.
      + intros e. apply (hoare_assume _ (e ≠ PasswordChangeRequired)); [unfold tried; naive_solver|]. intros He.
        destruct e; try done; by apply hoare_lift.
      + done. }
  destruct v; try exact Hid; try exact Hami; try (apply Hname, Hs; set_solver). done.
Qed.

Lemma authenticated_calm {A} t d c s b (f : BmcState → result RedfishError A * BmcState) :
  hoare (calm_from t0) (λ w, snap t d c s b w ∧ account b = new c s) (request (loc bmc) (authenticated (new c s) f))
    (λ r w, r = returned (f b).1 ∧ snap t d c s (f b).2 w ∧ account b = new c s).
Proof using Type.
  apply (hoare_assume _ (account b = new c s)); [by intros w []|]. intros Hb.
  eapply hoare_weaken; [apply request_calm|by intros w [H _]; exact H|].
  intros r w. unfold authenticated. rewrite decide_True by done. tauto.
Qed.

Lemma set_bmc_root_password_calm t d c s v b : account b = c ∨ account b = new c s → takes s v b →
  hoare (calm_from t0) (snap t d c s b) (set_bmc_root_password (loc bmc) v c (password s)) (tried t d c s).
Proof using Type.
  intros Ha Ht. eapply (hoare_seq _ _ _ _ (tried t d c s)); [by apply change_by_vendor_calm|intros []|done].
  apply (hoare_from _ (λ w, ∃ b, snap t d c s b w ∧ account b = new c s)); [by intros w (_ & _ & ?)|].
  apply hoare_exists. intros b'. eapply hoare_weaken; [apply (authenticated_calm t d c s b')|done|].
  intros r w (-> & Hw & Hb). do 2 (split; [done|]). by eexists.
Qed.

Lemma change_or_recover_calm t d c s v b : account b = c ∨ account b = new c s → takes s v b →
  hoare (calm_from t0) (snap t d c s b) (change_or_recover bmc v c (new c s))
    (λ r w, (∃ x, r = Ok x) ∧ changed t d c s w).
Proof using Type.
  intros Ha Ht. assert (Hc : ∀ b w, snap t d c s b w → account b = new c s → changed t d c s w).
  { intros b' w [Hw _] Hb. unfold changed. by rewrite <- Hb. }
  unfold change_or_recover. change (password (new c s)) with (password s).
  eapply (hoare_try _ _ _ _ (tried t d c s)); [by apply set_bmc_root_password_calm| | |by intros w []].
  - intros []. apply hoare_ret. intros w (_ & _ & b' & Hw & Hb). eauto.
  - intros e. apply (hoare_from _ (λ w, ∃ b, snap t d c s b w ∧ account b = new c s)); [by intros w (_ & _ & ?)|].
    apply hoare_exists. intros b'. eapply (hoare_try _ _ _ _ (λ r w, r = Ok true ∧ changed t d c s w)).
    + eapply hoare_try; [apply (authenticated_calm t d c s b')| | |]; simpl.
      * intros []. apply hoare_ret. intros w (_ & Hw & Hb). eauto.
      * intros e'. apply (hoare_assume _ False); [by intros w []|done].
      * by intros w [].
    + intros x. apply (hoare_assume _ (x = true)); [by intros w [[= ->] _]|]. intros ->.
      apply hoare_ret. intros w [_ Hw]. eauto.
    + intros e'. apply (hoare_assume _ False); [by intros w []|done].
    + by intros w [].
Qed.

Lemma probe_chassis_calm t d c s v b cred k : account b = cred →
  head (omap (λ m, m ≫= vendor_of_manufacturer) (drop k (chassis b))) = Some v →
  hoare (calm_from t0) (snap t d c s b) (probe_chassis (loc bmc) cred (seq k (length (chassis b) - k)))
    (λ r w, r = Ok v ∧ snap t d c s b w).
Proof using Type.
  intros Hc. remember (length (chassis b) - k)%nat as n eqn:Hn. revert k Hn. induction n as [|n IH]; intros k Hn Hv.
  { by rewrite drop_ge in Hv by lia. }
  destruct (lookup_lt_is_Some_2 (chassis b) k) as [m Hm]; [lia|]. rewrite (drop_S _ _ _ Hm) in Hv.
  cbn [seq probe_chassis]. eapply (hoare_known _ _ (snap t d c s b) _ _ m).
  - eapply hoare_weaken; [apply request_calm|done|]. intros r w. unfold authenticated. rewrite decide_True, Hm by done. done.
  - cbn [omap list_omap] in Hv. destruct (m ≫= vendor_of_manufacturer) as [v'|].
    + apply hoare_ret. simpl in Hv. by simplify_eq.
    + apply IH; [lia|done].
Qed.

(** A probe with credentials that are not those of the account fails, once. *)
Lemma probe_calm t d c s v b cred : takes s v b → vendor bmc = Probe →
  hoare (calm_from t0) (snap t d c s b) (probe_bmc_vendor (loc bmc) cred)
    (λ r w, r = Ok v ∧ snap t d c s b w ∨ account b ≠ cred ∧ (∃ e, r = Err (Failed e)) ∧ snap t d c s (fail_login b) w).
Proof using Type.
  intros [_ Hv _ Hk] Hp. destruct Hk as [Hk|[_ Hk]]; [congruence|].
  assert (Hby : vendor_by_chassis b = Some v →
    hoare (calm_from t0) (snap t d c s b)
      (ids ← request (loc bmc) (authenticated cred (λ b, (Ok (seq 0 (length (chassis b))), b))); probe_chassis (loc bmc) cred ids)
      (λ r w, r = Ok v ∧ snap t d c s b w ∨ account b ≠ cred ∧ (∃ e, r = Err (Failed e)) ∧ snap t d c s (fail_login b) w)).
  { intros Hch. destruct (decide (account b = cred)) as [Hc|Hc].
    - eapply (hoare_known _ _ (snap t d c s b) _ _ (seq 0 (length (chassis b)))).
      + eapply hoare_weaken; [apply request_calm|done|]. intros r w. unfold authenticated. by rewrite decide_True.
      + rewrite <- (Nat.sub_0_r (length (chassis b))). eapply hoare_weaken; [by apply probe_chassis_calm|done|]. by left.
    - eapply hoare_seq; [apply request_calm| |]; unfold authenticated; rewrite decide_False by done; simpl.
      + intros a. apply (hoare_assume _ False); [by intros w []|done].
      + intros e w [[= ->] Hw]. right. eauto. }
  eapply hoare_try; [apply request_calm| | |by intros w []]; simpl.
  - intros o. apply (hoare_assume _ (o = service_root_vendor b)); [by intros w [[= ->] _]|]. intros ->.
    apply (hoare_from _ (snap t d c s b)); [by intros w []|]. destruct Hk as [-> | [[-> | ->] Hch]].
    + rewrite decide_False by done. apply hoare_ret. by left.
    + auto.
    + rewrite decide_True by done. auto.
  - intros e. apply (hoare_assume _ False); [by intros w []|done].
Qed.

Lemma takes_fail_login s v b : takes s v b → takes s v (fail_login b).
Proof using Type. by intros []. Qed.

Lemma resolve_dispatch_vendor_calm t d c s v b : account b = c ∨ account b = new c s → takes s v b →
  hoare (calm_from t0) (snap t d c s b) (resolve_dispatch_vendor bmc c (new c s))
    (λ r w, r = Ok v ∧ ∃ b', (account b' = account b ∧ takes s v b') ∧ snap t d c s b' w).
Proof using Type.
  intros Ha Ht. unfold resolve_dispatch_vendor. destruct (vendor bmc) as [v'|] eqn:Hp.
  { apply hoare_ret. intros w Hw. split; [|eauto]. destruct Ht as [_ _ _ [Hk|[Hk _]]]; congruence. }
  eapply hoare_try; [by apply probe_calm| | |by intros w [[]|(_ & [] & _)]].
  - intros v'. apply hoare_ret. intros w [[[= ->] Hw]|(_ & [] & _)]; [eauto|done].
  - intros e. cbv beta. apply (hoare_assume _ (account b = new c s)); [by intros w [[]|(Hn & _)]; [|destruct Ha]|]. intros Hb.
    apply (hoare_from _ (snap t d c s (fail_login b))); [by intros w [[]|(_ & _ & ?)]|].
    eapply hoare_try; [by apply probe_calm, Hp; apply takes_fail_login| | |by intros w [[]|(_ & [] & _)]].
    + intros v'. apply hoare_ret. intros w [[[= ->] Hw]|(_ & [] & _)]; [|done]. split; [done|].
      exists (fail_login b). split; [|done]. split; [done|by apply takes_fail_login].
    + intros e'. apply (hoare_assume _ False); [by intros w [[]|(Hn & _)]|done].
Qed.

Lemma get_credentials_calm (P : World → Prop) k c : (∀ w, P w → effective w k = Some c) →
  hoare (calm_from t0) P (get_credentials k) (λ r w, r = Ok (Some c) ∧ P w).
Proof using Type. intros H. apply hoare_calm. intros z w _ Hw. simpl. by rewrite (H w Hw). Qed.

Lemma converge_calm t d c s v b : mac_ok → version_ok t → account b = c ∨ account b = new c s → takes s v b →
  hoare (calm_from t0) (snap t d c s b) (converge_bmc_password bmc (target_version t))
    (λ r w, (∃ x, r = Ok x) ∧ in_step t d c s w).
Proof using Type.
  intros Hm Hv Ha Ht. unfold converge_bmc_password.
  eapply hoare_known; [apply hoare_convert_known, (get_credentials_calm _ _ c); by intros w [[] _]|].
  eapply hoare_known; [by apply hoare_lift_known|].
  eapply hoare_known; [apply hoare_convert_known, (get_credentials_calm _ _ s); by intros w [[] _]|].
  eapply hoare_known; [by apply hoare_lift_known|].
  eapply hoare_known; [by apply hoare_convert_known, resolve_dispatch_vendor_calm|].
  apply hoare_exists. intros b'. apply hoare_pre. intros [Hb' Ht']. rewrite <- Hb' in Ha.
  eapply (hoare_seq _ _ _ _ (λ r w, (∃ x, r = Ok x) ∧ changed t d c s w)); [|intros x|by intros e w [[]]].
  { eapply hoare_convert; [by apply change_or_recover_calm|by intros x w [_ ?]; eauto|by intros e w [[]]|by intros w [[]]]. }
  apply (hoare_from _ (changed t d c s)); [by intros w []|].
  eapply (hoare_known _ _ (in_step t d c s)); [apply hoare_convert_known, hoare_calm|apply hoare_ret; eauto].
  intros z w _ Hw. split; [done|]. by apply view_set_stored with c.
Qed.

(** The device answers, takes the password, and is not quarantined or forced. *)
Definition ready (force : bool) (w : World) : Prop := ∃ t d c s b v,
  snap t d c s b w ∧ takes s v b ∧
  (force = true ∨ ∀ until, rotate_quarantined_until d = Some until → until ≤ t0).

Lemma acquire_calm (P : World → Prop) : hoare (calm_from t0) P acquire (λ r w, r = Ok () ∧ P w).
Proof using Type. by apply hoare_calm. Qed.

Lemma execute_calm (P R : World → Prop) f :
  (∀ now w, P w → ∃ r, f now (rot w) = Ok r ∧ R (set_rot r w)) →
  hoare (calm_from t0) P (execute f) (λ r w, r = Ok () ∧ R w).
Proof using Type.
  intros H. apply hoare_calm. intros now w _ Hw. destruct (H now w Hw) as (r & -> & Hr). done.
Qed.

Lemma finish_calm t d c s x : announced t d →
  hoare (calm_from t0) (in_step t d c s)
    (_ ← acquire; _ ← delete_sessions (device_mac bmc);
     _ ← execute (λ _ db, Ok (promote_rotating_to_current (device_mac bmc) Bmc db).2);
     _ ← emit (device_mac bmc) x; mret Converged)
    (λ r w, r = Ok Converged ∧ settled w).
Proof using Type.
  intros Hd. eapply hoare_known; [apply acquire_calm|].
  eapply (hoare_known _ _ (in_step t d c s)); [apply hoare_calm|].
  { intros _ w _ Hw. split; [done|]. by destruct Hw. }
  eapply (hoare_known _ _ settled); [apply execute_calm|].
  { intros _ w Hw. eexists. split; [done|]. by eapply promote_settles. }
  intros w sc Hsc (t' & d' & c' & s' & Hw & Hg). split; [done|]. split; [done|].
  exists t', d', c', s'. split; [by apply view_add_result|done].
Qed.

Lemma rotate_bmc_calm force : mac_ok →
  hoare (calm_from t0) (λ w, recoverable w ∧ ready force w) (rotate_bmc bmc force)
    (λ r w, r = Ok Converged ∧ settled w).
Proof using Type.
  intros Hm.
  apply (hoare_from _ (λ w, ∃ t d c s b v, (good t d c s (account b) ∧ takes s v b ∧
    (force = true ∨ ∀ until, rotate_quarantined_until d = Some until → until ≤ t0)) ∧ snap t d c s b w)).
  { intros w [(t & d & c & s & a & [] & Hg) (t' & d' & c' & s' & b & v & [[] Hb] & Ht)]. simplify_eq.
    exists t, d, c, s, b, v. split; [|by repeat split]. split; [by simplify_eq|done]. }
  do 6 (apply hoare_exists; intros ?). rename b into t, b0 into d, b1 into c, b2 into s, b3 into b, b4 into v.
  apply hoare_pre. intros (Hg & Ht & Hq). unfold rotate_bmc.
  eapply hoare_known; [apply acquire_calm|].
  eapply (hoare_seq _ _ _ _ (λ r w, (∃ now, t0 ≤ now ∧
    r = Ok (Some (device_status now t (device_mac bmc) (Some d)))) ∧ snap t d c s b w)); [|intros o|by intros e w [(? & ? & ?) _]].
  { apply hoare_calm. intros now w Hn Hw. cbv beta. rewrite (status_of _ _ _ _ _ now _ (proj1 Hw)). simpl. eauto. }
  apply (hoare_assume _ (∃ now, t0 ≤ now ∧ o = Some (device_status now t (device_mac bmc) (Some d)))).
  { intros w [(now & ? & ?) _]. simplify_eq. eauto. }
  intros (now & Hn & ->). apply (hoare_from _ (snap t d c s b)); [by intros w []|]. simpl.
  destruct (is_converged _ _) eqn:Hc.
  { apply hoare_ret. intros w [Hw _]. split; [done|].
    destruct (good_converged _ _ _ _ _ Hg Hc) as (Hd & <- & Hp). by exists t, d, (account b), s. }
  assert (Hnq : is_quarantined now (Some d) && negb force = false).
  { destruct Hq as [-> | Hq]; [by rewrite andb_false_r|]. unfold is_quarantined. simpl.
    destruct (rotate_quarantined_until d) as [u|] eqn:Hu; [|done]. specialize (Hq u eq_refl). simpl.
    rewrite (proj2 (Z.ltb_ge now u)) by lia. done. }
  rewrite Hnq. destruct (good_version _ _ _ _ _ Hg) as [Hv _]. unfold to_u32. rewrite (proj2 (Z.leb_le _ _) Hv).
  eapply hoare_known; [by apply hoare_lift_known|]. eapply hoare_known; [apply acquire_calm|].
  eapply (hoare_known _ _ (λ w, ∃ d', announced t d' ∧ snap t d' c s b w)); [apply execute_calm|].
  { intros _ w [Hw Hb]. destruct (mark_announces t d c s (account b) w Hg Hw Hc) as (r & d' & E & Hd & Hw').
    exists r. split; [done|]. exists d'. split; [done|]. by split. }
  apply hoare_exists. intros d'. apply hoare_pre. intros Hd.
  assert (Ha : account b = c ∨ account b = new c s) by (destruct (good_known _ _ _ _ _ Hg); tauto).
  eapply hoare_try; [by apply (converge_calm t d' c s v b Hm (ann_version _ _ Hd))| | |by intros w [[]]].
  - intros x. apply (hoare_from _ (in_step t d' c s)); [by intros w []|]. by apply finish_calm.
  - intros e. apply (hoare_assume _ False); [by intros w [[]]|done].
Qed.

End Calm.

(** ** A device that is lost *)

(** The account has neither the stored credentials nor those of the target. *)
Record shut (t : Sitewide) (d : DeviceRow) (c s a : Credentials) (w : World) : Prop := {
  shut_view : view t d c s a w;
  shut_version : version_ok t;
  shut_behind : is_converged (target_version t) (Some d) = false;
  shut_stored : a ≠ c;
  shut_new : a ≠ new c s;
}.
Definition lost (w : World) : Prop := ∃ t d c s a, shut t d c s a w.

Section Shut.
Context (t : Sitewide) (d : DeviceRow) (c s a : Credentials).
Notation closed := (shut t d c s a).

Lemma shut_undisturbed w w' : closed w → undisturbed w w' → closed w'.
Proof using Type. intros [] ?. split; eauto using view_undisturbed. Qed.

Lemma shut_request {A} (f : BmcState → result RedfishError A * BmcState) (Post : result (stop RedfishError) A → Prop) :
  (∀ b, account b = a → account (f b).2 = a ∧ Post (returned (f b).1)) → (∀ e, Post (Err e)) →
  hoare allowed closed (request (loc bmc) f) (λ r w, closed w ∧ Post r).
Proof using Type.
  intros Hf He. eapply (hoare_assume _ (version_ok t ∧ is_converged (target_version t) (Some d) = false ∧
    a ≠ c ∧ a ≠ new c s)); [by intros w []|]. intros (? & ? & ? & ?).
  eapply hoare_weaken; [apply (request_triple t d c s a f (λ r a', a' = a ∧ Post r))| |].
  - intros b Hb. destruct (Hf b Hb). auto.
  - auto.
  - auto.
  - by intros w [].
  - intros r w (a' & Hw & -> & Hr). done.
Qed.

Lemma shut_login {A} cred (f : BmcState → result RedfishError A * BmcState) : cred = c ∨ cred = new c s →
  hoare allowed closed (request (loc bmc) (authenticated cred f)) (λ r w, closed w ∧ ∀ x, r ≠ Ok x).
Proof using Type.
  intros Hc. eapply (hoare_assume _ (a ≠ c ∧ a ≠ new c s)); [by intros w []|]. intros [H1 H2].
  apply shut_request; [|done]. intros b Hb. unfold authenticated. rewrite decide_False by naive_solver. done.
Qed.

Lemma shut_change v : hoare allowed closed (change_or_recover bmc v c (new c s)) (λ r w, closed w ∧ ∀ x, r ≠ Ok x).
Proof using Type.
  unfold change_or_recover. change (password (new c s)) with (password s).
  assert (Hch : hoare allowed closed (change_by_vendor (loc bmc) v c (password s)) (λ r w, closed w ∧ ∀ x, r ≠ Ok x)).
  { assert (Hl : ∀ f : BmcState → result RedfishError () * BmcState,
      hoare allowed closed (request (loc bmc) (authenticated c f)) (λ r w, closed w ∧ ∀ x, r ≠ Ok x))
      by (intros f; apply shut_login; auto).
    assert (Hami : hoare allowed closed (change_by_vendor (loc bmc) AMI c (password s)) (λ r w, closed w ∧ ∀ x, r ≠ Ok x)).
    { eapply hoare_try; [apply Hl| | |naive_solver].
      - intros []. apply hoare_ret. naive_solver.
      - intros e. apply (hoare_from _ closed); [tauto|]. destruct e; try apply Hl; by apply hoare_lift. }
    destruct v; try apply Hl; try apply Hami. by apply hoare_lift. }
  eapply (hoare_try _ _ _ _ (λ r w, closed w ∧ ∀ x, r ≠ Ok x)).
  - eapply hoare_seq; [exact Hch|intros [] w sc Hsc [_ H]; by destruct (H ())|naive_solver].
  - intros [] w sc Hsc [_ H]. by destruct (H ()).
  - intros e. apply (hoare_from _ closed); [tauto|].
    eapply (hoare_try _ _ _ _ (λ r w, closed w ∧ r ≠ Ok true)).
    + eapply hoare_try; [apply (shut_login (new c s)); auto| | |naive_solver].
      * intros [] w sc Hsc [_ H]. by destruct (H ()).
      * intros []; first [apply hoare_ret | apply hoare_lift]; naive_solver.
    + intros [] w sc Hsc [Hw H]; done.
    + intros e'. apply hoare_lift. naive_solver.
    + naive_solver.
  - naive_solver.
Qed.

Lemma shut_probe : hoare allowed closed (resolve_dispatch_vendor bmc c (new c s)) (λ _, closed).
Proof using Type.
  assert (Hp : ∀ cred, cred = c ∨ cred = new c s →
    hoare allowed closed (probe_bmc_vendor (loc bmc) cred) (λ _, closed)).
  { intros cred Hc.
    assert (Hby : hoare allowed closed
      (ids ← request (loc bmc) (authenticated cred (λ b, (Ok (seq 0 (length (chassis b))), b)));
       probe_chassis (loc bmc) cred ids) (λ _, closed)).
    { eapply hoare_seq; [by apply shut_login|intros ids w sc Hsc [_ H]; by destruct (H ids)|naive_solver]. }
    eapply (hoare_try _ _ _ _ (λ _, closed)); [|intros [v|]|intros e; exact Hby|done].
    - eapply hoare_weaken; [apply (shut_request _ (λ _, True)); auto|done|naive_solver].
    - destruct (decide (v = Unknown)); [exact Hby|by apply hoare_ret].
    - exact Hby. }
  unfold resolve_dispatch_vendor. destruct (vendor bmc); [by apply hoare_ret|].
  eapply (hoare_try _ _ _ _ (λ _, closed)); [apply Hp; auto|by intros v; apply hoare_ret| |done].
  intros e. eapply (hoare_try _ _ _ _ (λ _, closed)); [apply Hp; auto|by intros v; apply hoare_ret| |done].
  intros e'. by apply hoare_lift.
Qed.

Lemma shut_read k o : (∀ w, closed w → effective w k = o) →
  hoare allowed closed (get_credentials k) (λ r w, closed w ∧ ∀ x, r = Ok x → x = o).
Proof using Type.
  intros Ho. apply (hoare_rely _ _ closed); [by eauto using shut_undisturbed| |naive_solver..].
  intros _ w Hw. simpl. rewrite Ho by done. naive_solver.
Qed.

(** An attempt ends as a fault of the device. *)
Definition faulty {A} (r : result (stop ConvergeError) A) (w : World) : Prop :=
  closed w ∧ match r with Ok _ => False | Err (Failed (CredentialStoreWriteFailed _)) => False | _ => True end.

Lemma shut_converge : hoare allowed closed (converge_bmc_password bmc (target_version t)) faulty.
Proof using Type.
  assert (Hcv : ∀ {A} (m : prog World string A) f Q,
    hoare allowed closed m (λ r w, closed w ∧ Q r) → hoare allowed closed (convert (DeviceFault ∘ f) m)
      (λ r w, closed w ∧ match r with Ok x => Q (Ok x) | Err (Failed (DeviceFault _)) | Err Crashed => True | _ => False end)).
  { intros A m f Q H. eapply hoare_convert; [exact H|done|naive_solver|naive_solver]. }
  unfold converge_bmc_password, faulty.
  eapply hoare_seq; [apply (Hcv _ _ _ _ (shut_read _ (Some c) ltac:(by intros w [[] _ _ _ _])))|intros o|intros [[]|] w; naive_solver].
  apply (hoare_assume _ (o = Some c)); [naive_solver|]. intros ->. apply (hoare_from _ closed); [tauto|].
  eapply hoare_known; [by apply hoare_lift_known|].
  eapply hoare_seq; [apply (Hcv _ _ _ _ (shut_read _ (Some s) ltac:(by intros w [[] _ _ _ _])))|intros o|intros [[]|] w; naive_solver].
  apply (hoare_assume _ (o = Some s)); [naive_solver|]. intros ->. apply (hoare_from _ closed); [tauto|].
  eapply hoare_known; [by apply hoare_lift_known|].
  eapply hoare_seq; [apply (Hcv _ _ (λ e, redact e [password c; password s]) (λ _, True))|intros v|intros [[]|] w; naive_solver].
  { eapply hoare_weaken; [apply shut_probe|done|done]. }
  apply (hoare_from _ closed); [tauto|].
  eapply hoare_seq; [apply (Hcv _ _ (λ e, redact e [password c; password s]) _ (shut_change v))|intros x|intros [[]|] w; naive_solver].
  intros w sc Hsc [_ H]. by destruct (H x).
Qed.

End Shut.

Lemma lost_undisturbed w w' : lost w → undisturbed w w' → lost w'.
Proof using Type. intros (t & d & c & s & a & H) ?. exists t, d, c, s, a. eauto using shut_undisturbed. Qed.

Lemma lost_set_row t d c s a d' w : shut t d c s a w → current_version d' = current_version d →
  lost (set_rot (set_device (device_mac bmc, Bmc) d' (rot w)) w).
Proof using Type.
  intros [Hw Hv Hb H1 H2] Hd. exists t, d', c, s, a. split; try done; [by apply view_set_row with d|].
  unfold is_converged in *. simpl in *. by rewrite Hd.
Qed.

Lemma lost_mark t d c s a w r : shut t d c s a w →
  mark_device_rotating_to_version (device_mac bmc) Bmc (target_version t) (rot w) = Ok r →
  ∃ d', shut t d' c s a (set_rot r w).
Proof using Type.
  intros [Hw Hv Hb H1 H2] E. unfold mark_device_rotating_to_version, non_negative in E.
  pose proof (view_row _ _ _ _ _ _ Hw) as Hr. unfold row in Hr. destruct Hv as [Hv1 Hv2].
  rewrite (proj2 (Z.leb_le _ _) Hv1), Hr in E. simpl in E. case_decide; simplify_eq.
  - exists d. by destruct w; split.
  - eexists. split; [by apply view_set_row with d|done..].
Qed.

Lemma lost_quarantine reason attempts :
  hoare allowed lost
    (now ← utc_now; let until := backoff_until attempts now in
     _ ← acquire; _ ← execute (λ now, increment_rotate_attempt now (device_mac bmc) Bmc reason until);
     _ ← emit (device_mac bmc) ResultQuarantined; mret (Quarantined until))
    (λ r w, lost w ∧ r ≠ Ok Converged).
Proof using Type.
  pose proof lost_undisturbed as Hst.
  eapply (hoare_seq _ _ _ _ (λ _, lost)); [by apply hoare_now|intros now|naive_solver].
  eapply hoare_seq; [apply (acquire_triple _ Hst)|intros []|naive_solver].
  eapply hoare_seq; [apply (execute_triple _ Hst _ lost)|intros []|naive_solver].
  { intros now' w r (t & d & c & s & a & Hw) E. unfold increment_rotate_attempt in E.
    pose proof (view_row _ _ _ _ _ _ (shut_view _ _ _ _ _ _ Hw)) as Hr. unfold row in Hr. rewrite Hr in E.
    destruct (plus_one _); simplify_eq/=. by eapply lost_set_row. }
  intros w sc Hsc (t & d & c & s & a & [Hw ? ? ? ?]). split; [done|]. split; [|done].
  exists t, d, c, s, a. split; [by apply view_add_result|done..].
Qed.

(** No run brings a lost device back. *)
Lemma rotate_bmc_lost force : hoare allowed lost (rotate_bmc bmc force) (λ r w, lost w ∧ r ≠ Ok Converged).
Proof using Type.
  do 5 (apply hoare_exists; intros ?). rename b into t, b0 into d, b1 into c, b2 into s, b3 into a.
  pose proof (shut_undisturbed t d c s a) as Hst.
  assert (Hl : ∀ w, shut t d c s a w → lost w) by (intros; by exists t, d, c, s, a).
  unfold rotate_bmc. eapply hoare_seq; [apply (acquire_triple _ Hst)|intros []|naive_solver].
  eapply hoare_seq; [apply (query_triple _ Hst)|intros o|naive_solver].
  apply (hoare_assume _ (∃ now, o = Some (device_status now t (device_mac bmc) (Some d)))).
  { intros w [Hw Ho]. destruct (Ho _ eq_refl) as [now E].
    rewrite (status_of _ _ _ _ _ now _ (shut_view _ _ _ _ _ _ Hw)) in E. naive_solver. }
  intros [now ->]. apply (hoare_from _ (shut t d c s a)); [tauto|]. simpl.
  apply (hoare_assume _ (is_converged (target_version t) (Some d) = false ∧ 0 ≤ target_version t)).
  { by intros w [_ [] ? _ _]. }
  intros [-> Hv]. case_match.
  { destruct (rotate_quarantined_until d); [apply hoare_ret; naive_solver|].
    eapply (hoare_seq _ _ _ _ (λ _, shut t d c s a)); [by apply hoare_now|intros ?; apply hoare_ret; naive_solver|naive_solver]. }
  unfold to_u32. rewrite (proj2 (Z.leb_le _ _) Hv). eapply hoare_known; [by apply hoare_lift_known|].
  eapply hoare_seq; [apply (acquire_triple _ Hst)|intros []|naive_solver].
  eapply hoare_seq; [apply (execute_triple _ Hst _ (λ w, ∃ d', shut t d' c s a w))|intros []|].
  { intros _ w r Hw E. by eapply lost_mark. }
  2: { intros e w [Hw|[d' Hw]]; split; try done; [auto|by exists t, d', c, s, a]. }
  apply hoare_exists. intros d'. assert (Hl' : ∀ w, shut t d' c s a w → lost w) by (intros; by exists t, d', c, s, a).
  eapply hoare_try; [apply shut_converge|intros x w sc Hsc [_ []]| |unfold faulty; naive_solver].
  intros [e|e]; [|intros w sc Hsc [_ []]].
  apply (hoare_from _ lost); [unfold faulty; naive_solver|]. apply lost_quarantine.
Qed.

(** A new target with another password loses a device that is ahead of the store. *)
Lemma publish_loses w w' :
  recoverable w → acct w ≠ stored w → published w w' →
  (∀ t s, target w' = Some t → secret w' (target_version t) = Some s → password <$> acct w ≠ Some (password s)) →
  lost w'.
Proof using Type.
  intros (t & d & c & s & a & Hw & [Hv Hcur _ _]) Hne (now & t' & meta & st & db & Ht & E & [s' Hs] & ->) Hpw.
  rewrite (view_target _ _ _ _ _ _ Hw) in Ht. simplify_eq.
  rewrite (view_account _ _ _ _ _ _ Hw) in Hne, Hpw. rewrite (view_stored _ _ _ _ _ _ Hw) in Hne.
  pose proof (view_target _ _ _ _ _ _ Hw) as Ht. unfold target in Ht.
  unfold set_next_target_version in E. rewrite Ht, Z.eqb_refl in E. unfold plus_one in E.
  destruct (target_version t' <? i32_max) eqn:Hlt; simplify_eq/=. unfold version_ok in *.
  set (t1 := mk_sitewide (target_version t' + 1) now meta). destruct Hw as [Hw1 Hw2 Hw3 Hw4 Hw5 Hw6].
  exists t1, d, c, s', a. split.
  - split; try done. unfold target. simpl. by rewrite lookup_insert_eq.
  - unfold version_ok. simpl. lia.
  - unfold is_converged. simpl. destruct (current_version d) as [v|] eqn:Hd; [|done]. specialize (Hcur v eq_refl). simpl. lia.
  - congruence.
  - intros ->. specialize (Hpw t1 s'). destruct Hpw; [|done|done]. unfold target. simpl. by rewrite lookup_insert_eq.
Qed.

End Device.
