(* ===== verification/RotationRuns.v ===== *)
(** * What holds over many runs of the rotation engine

    Devices stay recoverable across failures, crashes and new targets; when a new target
    comes too early, the device is lost; the number of failed logins of a run is bounded. *)

From S2P Require Import Prelude ControllerTable Credentials CredentialRotation Calls RotationWorld RotationEngine RotationEngineFacts.

(** ** Failed logins *)

Section Logins.
Context (bmc : BmcRotationTarget) (n : nat).

Notation allowed := (relies (undisturbed bmc)).

(** The account is [a], and [k] logins may still fail. *)
Definition left (a : Credentials) (k : nat) (w : World) : Prop :=
  ∀ b, bmcs w !! loc bmc = Some b → account b = a ∧ (failed_logins b + k ≤ n)%nat.

Definition over (w : World) : Prop := ∃ a, left a 0 w.

Lemma left_less a k k' w : (k' ≤ k)%nat → left a k w → left a k' w.
Proof using Type. intros Hk H b Hb. destruct (H b Hb). split; [done|lia]. Qed.

Lemma left_over a k w : left a k w → over w.
Proof using Type. intros H. exists a. eapply left_less; [|done]. lia. Qed.

Lemma left_undisturbed a k w w' : left a k w → undisturbed bmc w w' → left a k w'.
Proof using Type. intros H [_ _ Hb _ _ _] b. rewrite Hb. apply H. Qed.

Lemma over_undisturbed w w' : over w → undisturbed bmc w w' → over w'.
Proof using Type. intros [a H] Hu. exists a. eauto using left_undisturbed. Qed.

(** Any call that leaves the BMCs as they are *)
Lemma left_call {E A} a k wrap (f : Z → World → result E A * World) :
  (∀ z w, bmcs (f z w).2 = bmcs w) →
  hoare allowed (left a k) (call wrap f) (λ _, left a k).
Proof using Type.
  intros Hf. apply (hoare_rely _ _ (left a k)); [by eauto using left_undisturbed| |done..].
  intros z w Hw. unfold left in *. rewrite Hf. done.
Qed.

Lemma over_call {E A} wrap (f : Z → World → result E A * World) :
  (∀ z w, bmcs (f z w).2 = bmcs w) → hoare allowed over (call wrap f) (λ _, over).
Proof using Type.
  intros Hf. apply hoare_exists. intros a. eapply hoare_weaken; [by apply (left_call a 0)|done|].
  intros r w Hw. by exists a.
Qed.

(** A login with other credentials than those of the account costs one. *)
Lemma wrong_login {A} a k cred (f : BmcState → result RedfishError A * BmcState) : cred ≠ a →
  hoare allowed (left a (S k)) (request (loc bmc) (authenticated cred f))
    (λ r w, left a k w ∧ (∀ x, r ≠ Ok x) ∧ r ≠ Err (Failed PasswordChangeRequired)).
Proof using Type.
  intros Hne. apply (hoare_rely _ _ (left a (S k))); [by eauto using left_undisturbed| | |].
  - intros z w Hw. destruct (bmcs w !! loc bmc) as [b|] eqn:Hb.
    + destruct (Hw b Hb) as [Ha Hn]. unfold authenticated. rewrite decide_False by naive_solver. simpl.
      assert (left a k (set_bmcs (<[loc bmc := fail_login b]> (bmcs w)) w)); [|done].
      intros b'. simpl. rewrite lookup_insert_eq. intros [= <-]. simpl. split; [done|lia].
    + assert (left a k w) by (intros b'; by rewrite Hb). done.
  - intros w why Hw. split; [|done]. eapply left_less; [|done]. lia.
  - intros w Hw. split; [|done]. eapply left_less; [|done]. lia.
Qed.

(** A login with the credentials of the account costs nothing. *)
Lemma right_login {A} a k (f : BmcState → result RedfishError A * BmcState) :
  (∀ b, failed_logins (f b).2 = failed_logins b) →
  (∀ b, (f b).1 = Err PasswordChangeRequired → account (f b).2 = account b) →
  hoare allowed (left a k) (request (loc bmc) (authenticated a f))
    (λ r w, ∃ a', left a' k w ∧ (r = Err (Failed PasswordChangeRequired) → a' = a)).
Proof using Type.
  intros Hl Hp. apply (hoare_rely _ _ (left a k)); [by eauto using left_undisturbed| |naive_solver..].
  intros z w Hw. destruct (bmcs w !! loc bmc) as [b|] eqn:Hb; [|simpl; naive_solver].
  destruct (Hw b Hb) as [Hab Hn]. unfold authenticated. rewrite decide_True by done.
  specialize (Hl b). specialize (Hp b). destruct (f b) as [r b'] eqn:E. simpl in *.
  assert (left (account b') k (set_bmcs (<[loc bmc := b']> (bmcs w)) w)).
  { intros b2. simpl. rewrite lookup_insert_eq. intros [= <-]. rewrite Hl. done. }
  split; [|intros why]; exists (account b'); (split; [done|]); [|done].
  destruct r; simpl; [done|]. intros [= ->]. rewrite Hp by done. done.
Qed.

Lemma any_login {A} k cred (f : BmcState → result RedfishError A * BmcState) :
  (∀ b, failed_logins (f b).2 = failed_logins b) →
  (∀ b, (f b).1 = Err PasswordChangeRequired → account (f b).2 = account b) →
  hoare allowed (λ w, ∃ a, left a (S k) w) (request (loc bmc) (authenticated cred f)) (λ _ w, ∃ a, left a k w).
Proof using Type.
  intros Hl Hp. apply hoare_exists. intros a. destruct (decide (cred = a)) as [->|Hne].
  - eapply hoare_weaken; [by apply (right_login a (S k))|done|].
    intros r w (a' & Hw & _). exists a'. eapply left_less; [|done]. lia.
  - eapply hoare_weaken; [by apply (wrong_login a k)|done|]. intros r w [Hw _]. by exists a.
Qed.

Lemma patch_quiet new_password b :
  failed_logins (patch_password new_password b).2 = failed_logins b ∧
  ((patch_password new_password b).1 = Err PasswordChangeRequired →
   account (patch_password new_password b).2 = account b).
Proof using Type. unfold patch_password. by repeat case_match. Qed.

(** A change with the right credentials costs nothing; one with others costs one and fails. *)
Lemma change_cost a k v from pw :
  hoare allowed (left a (S k)) (change_by_vendor (loc bmc) v from pw)
    (λ r w, ∃ a', (left a' (S k) w ∨ left a' k w ∧ r ≠ Ok ())).
Proof using Type.
  set (Q := λ (r : result (stop RedfishError) ()) w, ∃ a', (left a' (S k) w ∨ left a' k w ∧ r ≠ Ok ())).
  assert (Hone : ∀ f : BmcState → result RedfishError () * BmcState,
    (∀ b, failed_logins (f b).2 = failed_logins b) →
    (∀ b, (f b).1 = Err PasswordChangeRequired → account (f b).2 = account b) →
    hoare allowed (left a (S k)) (request (loc bmc) (authenticated from f))
      (λ r w, Q r w ∧ (r = Err (Failed PasswordChangeRequired) → left a (S k) w))).
  { intros f Hl Hp. unfold Q. destruct (decide (from = a)) as [->|Hne].
    - eapply hoare_weaken; [by apply (right_login a (S k))|done|]. naive_solver.
    - eapply hoare_weaken; [by apply (wrong_login a k)|done|]. naive_solver. }
  assert (Hid : hoare allowed (left a (S k)) (change_password_by_id (loc bmc) from pw) Q).
  { eapply hoare_weaken; [apply Hone; intros b; apply (patch_quiet pw b)|done|naive_solver]. }
  assert (Hname : hoare allowed (left a (S k)) (change_password (loc bmc) from pw)
    (λ r w, Q r w ∧ (r = Err (Failed PasswordChangeRequired) → left a (S k) w))).
  { apply Hone; intros b; case_match; try done; apply (patch_quiet pw b). }
  assert (Hami : hoare allowed (left a (S k)) (change_by_vendor (loc bmc) AMI from pw) Q).
  { eapply hoare_try; [exact Hname| | |naive_solver].
    - intros []. apply hoare_ret. naive_solver.
    - intros []; try (apply hoare_lift; unfold Q; naive_solver).
      apply (hoare_from _ (left a (S k))); [naive_solver|exact Hid]. }
  destruct v; try exact Hid; try exact Hami; try (eapply hoare_weaken; [exact Hname|done|naive_solver]).
  apply hoare_lift. unfold Q. naive_solver.
Qed.

Lemma change_or_recover_cost a v from to :
  hoare allowed (left a 2) (change_or_recover bmc v from to) (λ _, over).
Proof using Type.
  assert (Hless : ∀ k w, (∃ a, left a k w) → over w) by (intros k w [a' H]; by eapply left_over).
  unfold change_or_recover. eapply (hoare_try _ _ _ _ (λ _ w, ∃ a, left a 1 w)).
  - eapply hoare_seq; [apply (change_cost a 1)|intros []|].
    + apply (hoare_from _ (λ w, ∃ a, left a 2 w)); [naive_solver|].
      by apply any_login.
    + intros e w (a' & [H|[H _]]); exists a'; [|done]. eapply left_less; [|done]. lia.
  - intros []. apply hoare_ret. eauto.
  - intros e. eapply (hoare_try _ _ _ _ (λ _, over)); [| | |done].
    + unfold bmc_credentials_valid. eapply (hoare_try _ _ _ _ (λ _ w, ∃ a, left a 0 w)); [by apply any_login| | |eauto].
      * intros []. apply hoare_ret. eauto.
      * intros []; first [apply hoare_ret | apply hoare_lift]; eauto.
    + intros []; first [apply hoare_ret | apply hoare_lift]; eauto.
    + intros e'. apply hoare_lift. eauto.
  - eauto.
Qed.

Lemma login_reading {A} a k (f : BmcState → result RedfishError A * BmcState) :
  (∀ b, account b = a → (f b).2 = b) → hoare allowed (left a k) (request (loc bmc) f) (λ _, left a k).
Proof using Type.
  intros Hf. apply (hoare_rely _ _ (left a k)); [by eauto using left_undisturbed| |done..].
  intros z w Hw. destruct (bmcs w !! loc bmc) as [b|] eqn:Hb; [|done].
  destruct (Hw b Hb) as [Hab Hn]. specialize (Hf b Hab). destruct (f b) as [r b']. simpl in *. subst b'.
  assert (left a k (set_bmcs (<[loc bmc := b]> (bmcs w)) w)); [|done].
  intros b2. simpl. rewrite lookup_insert_eq. by intros [= <-].
Qed.

Lemma right_reading {A} a k (f : BmcState → result RedfishError A) :
  hoare allowed (left a k) (request (loc bmc) (authenticated a (λ b, (f b, b)))) (λ _, left a k).
Proof using Type. apply login_reading. intros b Hb. unfold authenticated. by rewrite decide_True. Qed.

(** A probe with the wrong credentials fails if it costs a login. *)
Lemma probe_cost a k cred :
  hoare allowed (left a (S k)) (probe_bmc_vendor (loc bmc) cred)
    (λ r w, match r with Ok _ => left a (S k) w | Err _ => left a k w end).
Proof using Type.
  assert (Hless : ∀ w, left a (S k) w → left a k w) by (intros w; apply left_less; lia).
  set (Q := λ (r : result (stop RedfishError) RedfishVendor) w, match r with Ok _ => left a (S k) w | Err _ => left a k w end).
  assert (Hby : hoare allowed (left a (S k))
      (ids ← request (loc bmc) (authenticated cred (λ b, (Ok (seq 0 (length (chassis b))), b)));
       probe_chassis (loc bmc) cred ids) Q).
  { destruct (decide (cred = a)) as [->|Hne].
    - eapply hoare_seq; [apply right_reading|intros ids|unfold Q; naive_solver].
      induction ids as [|i ids IH]; [apply hoare_lift; unfold Q; naive_solver|].
      eapply hoare_seq; [apply right_reading|intros m|unfold Q; naive_solver].
      simpl. destruct (m ≫= _); [by apply hoare_ret|exact IH].
    - eapply hoare_seq; [by apply wrong_login|intros ids w sc Hsc (_ & H & _); by destruct (H ids)|unfold Q; naive_solver]. }
  eapply (hoare_try _ _ _ _ (λ _, left a (S k))); [by apply login_reading|intros [v|]|intros e; exact Hby|unfold Q; naive_solver].
  - destruct (decide (v = Unknown)); [exact Hby|by apply hoare_ret].
  - exact Hby.
Qed.

Lemma resolve_cost a from to :
  hoare allowed (left a 3) (resolve_dispatch_vendor bmc from to)
    (λ r w, match r with Ok _ => left a 2 w | Err _ => over w end).
Proof using Type.
  assert (Hless : ∀ k w, left a (S k) w → left a k w) by (intros k w; apply left_less; lia).
  pose proof (left_over a) as Hover.
  unfold resolve_dispatch_vendor. destruct (vendor bmc); [apply hoare_ret; eauto|].
  eapply hoare_try; [apply (probe_cost a 2)|intros v; apply hoare_ret; eauto| |simpl; eauto].
  intros e. eapply hoare_try; [apply (probe_cost a 1)|intros v; by apply hoare_ret| |simpl; eauto].
  intros e'. apply hoare_lift. simpl. eauto.
Qed.

Lemma converge_cost a v :
  hoare allowed (left a 3) (converge_bmc_password bmc v) (λ _, over).
Proof using Type.
  pose proof (left_over a) as Hover. unfold converge_bmc_password.
  assert (Hc : ∀ {E A} (m : prog World E A) f P, hoare allowed P m (λ _, P) →
    hoare allowed P (convert (f : E → ConvergeError) m) (λ _, P)) by (intros; eapply hoare_convert; eauto).
  assert (Hl : ∀ {A} (r : result ConvergeError A) P, hoare allowed P (lift r) (λ _, P)) by (intros; by apply hoare_lift).
  eapply hoare_seq; [by apply Hc, left_call|intros o|simpl; eauto].
  eapply hoare_seq; [apply Hl|intros c|simpl; eauto].
  eapply hoare_seq; [by apply Hc, left_call|intros o'|simpl; eauto].
  eapply hoare_seq; [apply Hl|intros s|simpl; eauto].
  eapply (hoare_seq _ _ _ _ (λ r w, match r with Ok _ => left a 2 w | Err _ => over w end)); [|intros v'|simpl; eauto].
  { eapply hoare_convert; [apply resolve_cost|done..]. }
  eapply (hoare_seq _ _ _ _ (λ _, over)); [|intros x|simpl; eauto].
  { eapply hoare_convert; [apply (change_or_recover_cost a)|done..]. }
  eapply hoare_seq; [by apply Hc, over_call|intros []; by apply hoare_ret|simpl; eauto].
Qed.

Lemma rotate_cost a force : hoare allowed (left a 3) (rotate_bmc bmc force) (λ _, over).
Proof using Type.
  pose proof (left_over a 3) as Hover. unfold rotate_bmc.
  eapply hoare_seq; [by apply left_call|intros []|simpl; eauto].
  eapply hoare_seq; [by apply left_call|intros [st|]; [|apply hoare_ret; simpl; eauto]|simpl; eauto].
  destruct (ds_converged st); [apply hoare_ret; simpl; eauto|].
  case_match.
  { destruct (ds_quarantined_until st); [apply hoare_ret; simpl; eauto|].
    eapply (hoare_seq _ _ _ _ (λ _, left a 3)); [by apply hoare_now|intros ?; apply hoare_ret; simpl; eauto|simpl; eauto]. }
  eapply (hoare_seq _ _ _ _ (λ _, left a 3)); [by apply hoare_lift|intros v|simpl; eauto].
  eapply hoare_seq; [by apply left_call|intros []|simpl; eauto].
  eapply hoare_seq; [apply left_call; by intros z w; repeat case_match|intros []|simpl; eauto].
  eapply hoare_try; [apply (converge_cost a)| | |simpl; eauto].
  - intros x. eapply hoare_seq; [by apply over_call|intros []|simpl; eauto].
    eapply hoare_seq; [by apply over_call|intros []|simpl; eauto].
    eapply hoare_seq; [apply over_call; by intros z w; repeat case_match|intros []|simpl; eauto].
    by intros w sc Hsc Hw.
  - intros [e|e]; [|by apply hoare_ret].
    eapply (hoare_seq _ _ _ _ (λ _, over)); [by apply hoare_now|intros now|simpl; eauto].
    eapply hoare_seq; [by apply over_call|intros []|simpl; eauto].
    eapply hoare_seq; [apply over_call; by intros z w; repeat case_match|intros []|simpl; eauto].
    by intros w sc Hsc Hw.
Qed.

End Logins.

(** ** Backoff *)

(** A quarantine lasts between a quarter of an hour and an hour, for every number of
    attempts. *)
Lemma backoff_bounds attempts now :
  now + BACKOFF_BASE_SECS ≤ backoff_until attempts now ≤ now + BACKOFF_CAP_SECS.
Proof.
  unfold backoff_until, saturating_mul_i64, saturating_pow_i64, BACKOFF_BASE_SECS, BACKOFF_CAP_SECS, i64_min, i64_max.
  assert (1 ≤ 2 ^ Z.max attempts 0) by (apply Z.lt_pred_le, Z.pow_pos_nonneg; lia). lia.
Qed.

(** ** An example *)

Definition demo_bmc : BmcRotationTarget := mk_target "aa:bb" ("10.0.0.1"%string, None) (Fixed Dell).
Definition root (p : string) : Credentials := UsernamePassword "root" p.
Definition demo_row (current : Z) : DeviceRow := mk_device (Some current) None None 0 None None None.
Definition demo_device (p : string) : BmcState := mk_bmc (root p) false (λ _, true) true (Some Dell) [] true 0.

(** A device with the password of version 0, and the target 1 *)
Definition demo : World :=
  mk_world (mk_rotation_db {[ Bmc := mk_sitewide 1 0 EmptyString ]} {[ ("aa:bb"%string, Bmc) := demo_row 0 ]} ∅ ∅)
    (<[path (rotate_to_key 1) := root "p1"]> (<[path (rotate_to_key 2) := root "p2"]>
      {[ path (per_device_key "aa:bb") := root "p0" ]})) ∅
    {[ loc demo_bmc := demo_device "p0" ]} ∅ ∅ [] ∅ (mk_table ∅ empty_log) ∅ no_fabric (mk_table ∅ empty_log) [].

(** The process dies before the store is written. *)
Definition dies : script World := script_of (repeat quiet 8 ++ [mk_step id Dies 0]).

(** The next version becomes the target. *)
Definition publish (now : Z) (w : World) : World :=
  match set_next_target_version now Bmc 1 EmptyString (rot w) with
  | Ok (_, db) => set_rot db w
  | Err _ => w
  end.

Lemma undisturbed_refl bmc w : undisturbed bmc w w.
Proof. by split. Qed.

Lemma quiet_relies bmc : relies (undisturbed bmc) quiet.
Proof. intros w. apply undisturbed_refl. Qed.

Lemma dies_relies bmc n : relies (undisturbed bmc) (dies n).
Proof. apply (script_of_all (relies (undisturbed bmc))); [apply quiet_relies|]. repeat constructor; intros; by apply undisturbed_refl. Qed.

Lemma demo_mac : mac_ok demo_bmc.
Proof. split; [by vm_compute|done]. Qed.

Lemma demo_recoverable : recoverable demo_bmc demo.
Proof.
  exists (mk_sitewide 1 0 EmptyString), (demo_row 0), (root "p0"), (root "p1"), (root "p0"). split.
  - split; vm_compute; reflexivity.
  - split; [by vm_compute| | |by left]; simpl; intros; simplify_eq; lia.
Qed.

(** ** The theorems *)

(** C2: A run of the rotation engine, whatever calls fail before or after they took effect
    and wherever the process dies, leaves the device recoverable: its account has the
    stored credentials, or those of the target that the row announces.  If the run reports
    convergence, the account and the store have the password of the target, and the row
    its version. *)
Theorem rotation_crash_safe bmc force :
  mac_ok bmc →
  hoare (relies (undisturbed bmc)) (recoverable bmc) (rotate_bmc bmc force)
    (λ r w, recoverable bmc w ∧ (r = Ok Converged → settled bmc w)).
Proof. apply rotate_bmc_triple. Qed.

Lemma rotation_crash_safe_witness :
  let w := (rotate_bmc demo_bmc false demo dies).2.1 in
  recoverable demo_bmc w ∧ acct demo_bmc w = Some (root "p1") ∧ stored demo_bmc w = Some (root "p0").
Proof.
  split; [|by vm_compute].
  exact (proj1 (proj2 (rotation_crash_safe demo_bmc false demo_mac demo dies (dies_relies _) demo_recoverable))).
Defined.

(** C14: After any number of runs that ended in any way, with new targets published while
    the device had the credentials of the store, one undisturbed run converges: the
    device takes the password of the live target, from whichever side of the change the
    last run stopped at.  The run is asked of a device that is ready: it answers, it
    accepts the password of the target, its row is not quarantined or the run is forced,
    and its vendor is known, fixed by the caller, from the service root, or, where that
    names none, from the first chassis with a manufacturer that is recognised; on
    Supermicro, Dell and HPE, no change of the password is pending. *)
Theorem rotation_recovers bmc force t0 w w' sc :
  mac_ok bmc → recoverable bmc w → rtc (event bmc) w w' → ready bmc t0 force w' → (∀ n, calm_from t0 (sc n)) →
  (rotate_bmc bmc force w' sc).1 = Ok Converged ∧ settled bmc (rotate_bmc bmc force w' sc).2.1.
Proof.
  intros Hm Hw He Hr Hsc. apply (rotate_bmc_calm bmc t0 force Hm w' sc Hsc).
  split; [|done]. by apply (events_recoverable bmc w w').
Qed.

Lemma rotation_recovers_witness :
  let w := (rotate_bmc demo_bmc false demo dies).2.1 in
  (rotate_bmc demo_bmc false w (λ _, quiet)).1 = Ok Converged ∧
  settled demo_bmc (rotate_bmc demo_bmc false w (λ _, quiet)).2.1.
Proof.
  intros w. apply (rotation_recovers demo_bmc false 0 demo w).
  - apply demo_mac.
  - apply demo_recoverable.
  - apply rtc_once. apply (event_run demo_bmc demo false dies), dies_relies.
  - exists (mk_sitewide 1 0 EmptyString), (mk_device (Some 0) (Some 1) None 0 None None None), (root "p0"), (root "p1"),
      (demo_device "p1"), Dell.
    split; [split; [split; vm_compute; reflexivity|by vm_compute]|]. split; [|by right].
    split; try done. left. done.
  - intros n. by repeat split.
Defined.

(** Runs and the work of others, but no new target *)
Inductive rerun (bmc : BmcRotationTarget) (w : World) : World → Prop :=
| rerun_run force sc : (∀ n, relies (undisturbed bmc) (sc n)) → rerun bmc w (rotate_bmc bmc force w sc).2.1
| rerun_others w' : undisturbed bmc w w' → rerun bmc w w'.

Lemma lost_forever bmc w w' force sc :
  lost bmc w → rtc (rerun bmc) w w' → (∀ n, relies (undisturbed bmc) (sc n)) →
  (rotate_bmc bmc force w' sc).1 ≠ Ok Converged.
Proof.
  intros Hw Hr Hsc. assert (Hw' : lost bmc w').
  { induction Hr as [|w w1 w2 [f sc' Hsc'|? Hu] _ IH]; [done|apply IH..].
    - apply (rotate_bmc_lost bmc f w sc' Hsc' Hw).
    - by eapply lost_undisturbed. }
  apply (rotate_bmc_lost bmc force w' sc Hsc Hw').
Qed.

(** C34: A target that is published while a device is ahead of the store loses the device:
    if the account of a recoverable device does not have the stored credentials, as after a
    crash between the change of the password and the write of the store, and a new target
    with another password is published, no run of the engine ever converges, whatever
    becomes of its calls and however many runs came before, as long as only the engine
    works on the device; although the module says that a target that advanced in the
    meantime is superseded. *)
Theorem early_target_strands bmc w w1 w' force sc :
  recoverable bmc w → acct bmc w ≠ stored bmc w → published w w1 →
  (∀ t s, target w1 = Some t → secret w1 (target_version t) = Some s → password <$> acct bmc w ≠ Some (password s)) →
  rtc (rerun bmc) w1 w' → (∀ n, relies (undisturbed bmc) (sc n)) →
  (rotate_bmc bmc force w' sc).1 ≠ Ok Converged.
Proof. intros Hw Hne Hp Hpw. apply lost_forever. by eapply publish_loses. Qed.

(** The process dies before the write of the store, and the target becomes 2. *)
Lemma early_target_strands_witness :
  let crashed := (rotate_bmc demo_bmc false demo dies).2.1 in
  let w := (rotate_bmc demo_bmc false (publish 5 crashed) dies).2.1 in
  (rotate_bmc demo_bmc true w (λ _, quiet)).1 ≠ Ok Converged.
Proof.
  intros crashed w. apply (early_target_strands demo_bmc crashed (publish 5 crashed) w).
  - apply (rotate_bmc_triple demo_bmc false demo_mac demo dies (dies_relies _) demo_recoverable).
  - by vm_compute.
  - exists 5, (mk_sitewide 1 0 EmptyString), EmptyString, (mk_staged 2 5), (rot (publish 5 crashed)).
    split; [by vm_compute|]. split; [by vm_compute|]. split; [exists (root "p2"); by vm_compute|]. by vm_compute.
  - intros t s Ht. replace (target (publish 5 crashed)) with (Some (mk_sitewide 2 5 EmptyString)) in Ht by (by vm_compute).
    injection Ht as <-. replace (secret (publish 5 crashed) _) with (Some (root "p2")) by (by vm_compute).
    intros [= <-]. by vm_compute.
  - apply rtc_once. apply (rerun_run demo_bmc _ false dies), dies_relies.
  - intros n. apply quiet_relies.
Defined.

(** C33: A run adds at most three failed logins to a BMC that nobody else changes, whatever
    the rows and secrets say and whatever fails. *)
Theorem failed_logins_bounded bmc force w sc b :
  (∀ n, relies (undisturbed bmc) (sc n)) → bmcs w !! loc bmc = Some b →
  ∀ b', bmcs (rotate_bmc bmc force w sc).2.1 !! loc bmc = Some b' →
  (failed_logins b' ≤ failed_logins b + 3)%nat.
Proof.
  intros Hsc Hb. edestruct (rotate_cost bmc (failed_logins b + 3) (account b) force w sc Hsc) as [_ [a H]].
  - intros b'. rewrite Hb. intros [= <-]. done.
  - intros b' Hb'. destruct (H b' Hb'). lia.
Qed.

Lemma failed_logins_bounded_witness :
  let w := publish 5 (rotate_bmc demo_bmc false demo dies).2.1 in
  ∃ b', bmcs (rotate_bmc demo_bmc true w (λ _, quiet)).2.1 !! loc demo_bmc = Some b' ∧ (failed_logins b' ≤ 0 + 3)%nat.
Proof.
  intros w. destruct (bmcs (rotate_bmc demo_bmc true w (λ _, quiet)).2.1 !! loc demo_bmc) as [b'|] eqn:E;
    [|by vm_compute in E]. exists b'. split; [reflexivity|].
  apply (failed_logins_bounded demo_bmc true w (λ _, quiet) (demo_device "p1")); [intros n; apply quiet_relies|by vm_compute|exact E].
Defined.

(** The call number [k] fails in the given way. *)
Definition at_call (k : nat) (fates : list Fate) : script World :=
  script_of (repeat quiet k ++ ((λ f, mk_step id f 0) <$> fates)).

(** Three logins do fail: when the first read of the service root fails, a login is spent on
    the chassis, and the vendor is found without one. *)
Lemma three_logins_fail :
  let w := set_bmcs {[ loc demo_bmc := demo_device "other" ]} demo in
  let probed := mk_target "aa:bb" (loc demo_bmc) Probe in
  failed_logins <$> bmcs (rotate_bmc probed false w (at_call 6 [FailsBefore "timeout"])).2.1 !! loc demo_bmc = Some 3%nat.
Proof. by vm_compute. Qed.

(** A device can be quarantined with a password that is not the stored one: the change takes
    effect but reports an error, and the check of the new password fails. *)
Lemma quarantined_ahead_of_store :
  let run := rotate_bmc demo_bmc false demo (at_call 6 [FailsAfter "timeout"; FailsBefore "timeout"]) in
  run.1 = Ok (Quarantined BACKOFF_BASE_SECS) ∧
  acct demo_bmc run.2.1 = Some (root "p1") ∧ stored demo_bmc run.2.1 = Some (root "p0").
Proof. by vm_compute. Qed.

(** The rest of a new password that extends the old one survives redaction. *)
Lemma redact_leaks_extension : redact "login with swordfish-2" ["swordfish"; "swordfish-2"]%string = "login with REDACTED-2"%string.
Proof. by vm_compute. Qed.

(** ** The gate *)

Section Gate.
Context (g : RotationGate) (mac : string) (now : Z) (w : World) (s : Sitewide).
Context (Hf : family g ≠ Nvos) (Hs : sitewide (rot w) !! family g = Some s).

Lemma rows_of_spec t (db : rotation_db) k d : (k, d) ∈ rows_of t db ↔ k.2 = t ∧ devices db !! k = Some d.
Proof using Type. unfold rows_of. rewrite list_elem_of_filter, elem_of_map_to_list. done. Qed.

Lemma count_pos f l : (0 < count f l)%nat ↔ ∃ d, d ∈ l ∧ f d = true.
Proof using Type.
  unfold count. split.
  - intros H. destruct (filter _ l) as [|d l'] eqn:E; [simpl in H; lia|]. exists d.
    assert (Hd : d ∈ filter (λ d, f d = true) l) by (rewrite E; left). apply list_elem_of_filter in Hd. tauto.
  - intros (d & Hd & E). assert (H : d ∈ filter (λ d, f d = true) l) by by apply list_elem_of_filter.
    destruct (filter _ l); [by apply not_elem_of_nil in H|simpl; lia].
Qed.

(** A device that needs work makes the aggregate say so. *)
Lemma pending_counted d : devices (rot w) !! (mac, family g) = Some d →
  is_pending now (target_version s) (Some d) = true →
  (0 < count (is_pending now (target_version s)) ((λ e, Some e.2) <$> rows_of (family g) (rot w)))%nat.
Proof using Type.
  intros Hd Hp. apply count_pos. exists (Some d). split; [|done].
  apply list_elem_of_fmap. exists ((mac, family g), d). split; [done|]. by apply rows_of_spec.
Qed.

End Gate.

Definition at_time (now : Z) : script World := λ _, mk_step id Works now.

(** The gate in front of the engine answers what the row of the device says, when its
    cached aggregate is too old to be used: the device is let in exactly if a version
    above 0 is the target, its row is behind, and no quarantine is running. *)
Theorem rotation_gate_exact g mac cache now w s :
  family g ≠ Nvos → sitewide (rot w) !! family g = Some s →
  (∀ t, checked_at cache = Some t → ttl g ≤ saturating_sub now t) →
  ∃ cache', (rotation_needed g mac cache w (at_time now)).1 =
    Ok ((0 <? target_version s) &&
        match devices (rot w) !! (mac, family g) with
        | Some d => is_pending now (target_version s) (Some d)
        | None => false
        end, cache') ∧ checked_at cache' = Some now.
Proof.
  intros Hf Hs Hold. unfold rotation_needed, rotation_pending.
  assert (Hstale : match checked_at cache with Some t => saturating_sub now t <? ttl g | None => false end = false).
  { destruct (checked_at cache) as [t|]; [|done]. specialize (Hold t eq_refl). lia. }
  unfold mbind, prog_bind, utc_now. cbn [clock at_time]. rewrite Hstale.
  unfold acquire, query, read, call, run_call. cbn. unfold rotation_status. rewrite decide_False by done.
  rewrite Hs. cbn.
  set (n := count _ _). set (q := count (is_quarantined now) _).
  destruct (0 <? target_version s) eqn:Ht; cbn; [|eauto].
  destruct (devices (rot w) !! (mac, family g)) as [d|] eqn:Hd.
  - case_bool_decide as Hw; cbn.
    + unfold device_rotation_status. rewrite decide_False, Hs, Hd by done. cbn. eauto.
    + destruct (is_pending _ _ (Some d)) eqn:Hp; [|eauto]. exfalso.
      pose proof (pending_counted g mac now w s d Hd Hp) as Hc. fold n in Hc. lia.
  - case_bool_decide; cbn; [|eauto]. unfold device_rotation_status. rewrite decide_False, Hs, Hd by done. cbn. eauto.
Qed.

Lemma rotation_gate_exact_witness :
  ∃ cache', (rotation_needed (mk_gate 30 Bmc) "aa:bb" (mk_cache None false) demo (at_time 7)).1 =
    Ok ((0 <? 1) && true, cache') ∧ checked_at cache' = Some 7.
Proof. apply (rotation_gate_exact (mk_gate 30 Bmc) "aa:bb" (mk_cache None false) 7 demo (mk_sitewide 1 0 EmptyString)); done. Defined.
