(* ===== verification/Admission.v ===== *)
(** * Admission control of the API

    [api-core/src/admission/{limits,peak_ewma,retry,mod}.rs] and the decision of
    [engine.rs]: limits and their validation, the estimate of execution times, the advice
    to retry, the classification of requests, the identity of clients, and the decision on
    one request under the state lock.  Durations are numbers of nanoseconds; [usize] has 64
    bits. *)

From S2P Require Import Prelude.

(** ** Integers and durations *)

Definition NANOS_PER_SEC : Z := 10 ^ 9.
(** [Duration::MAX] *)
Definition DURATION_MAX : Z := 2 ^ 64 * NANOS_PER_SEC - 1.

Definition saturating_add_usize (a b : Z) : Z := Z.min (a + b) u64_max.
Definition saturating_mul_u64 (a b : Z) : Z := Z.min (a * b) u64_max.
(** [u32::try_from(n).unwrap_or(u32::MAX)] *)
Definition u32_or_max (n : Z) : Z := Z.min n u32_max.
(** [Duration::saturating_mul] and the division of a duration by a [u32] *)
Definition duration_saturating_mul (d n : Z) : Z := Z.min (d * n) DURATION_MAX.
Definition duration_div (d n : Z) : Z := d / n.
Definition clamp (x lo hi : Z) : Z := if x <? lo then lo else if hi <? x then hi else x.

(** ** Limits *)

(** [AdmissionLimitsError] *)
Inductive AdmissionLimitsError :=
| ZeroWorkCapacity
| WorkCapacityTooLarge (maximum : Z)
| ZeroPendingCapacity
| PendingCapacityTooLarge (maximum : Z)
| ZeroClientWorkCapacity
| ClientWorkCapacityTooLarge
| ZeroClientPendingCapacity
| ClientPendingCapacityTooLarge
| ZeroPendingTimeout
| ZeroClientIdleTimeout.

(** [ClientLimits] *)
Record ClientLimits := mk_client_limits {
  cl_max_work_in_flight : Z;
  cl_max_pending : Z;
  pending_timeout : Z;
}.

(** [ClientLimits::new] *)
Definition client_limits_new (max_work_in_flight max_pending timeout global_work global_pending : Z)
    : result AdmissionLimitsError ClientLimits :=
  if max_work_in_flight =? 0 then Err ZeroClientWorkCapacity
  else if (global_work <? max_work_in_flight) || (u32_max <? max_work_in_flight) then Err ClientWorkCapacityTooLarge
  else if max_pending =? 0 then Err ZeroClientPendingCapacity
  else if global_pending <? max_pending then Err ClientPendingCapacityTooLarge
  else if timeout =? 0 then Err ZeroPendingTimeout
  else Ok (mk_client_limits max_work_in_flight max_pending timeout).

(** [AdmissionLimits] *)
Record AdmissionLimits := mk_limits {
  max_work_in_flight : Z;
  max_pending : Z;
  default_client : ClientLimits;
  client_idle_timeout : Z;
}.

(** [AdmissionLimits::new]; [max_permits] is tokio's [Semaphore::MAX_PERMITS]. *)
Definition limits_new (max_permits work pending client_work client_pending timeout idle_timeout : Z)
    : result AdmissionLimitsError AdmissionLimits :=
  if work =? 0 then Err ZeroWorkCapacity
  else if max_permits <? work then Err (WorkCapacityTooLarge max_permits)
  else if pending =? 0 then Err ZeroPendingCapacity
  else if max_permits <? pending then Err (PendingCapacityTooLarge max_permits)
  else if idle_timeout =? 0 then Err ZeroClientIdleTimeout
  else
    default_client ← client_limits_new client_work client_pending timeout work pending;
    Ok (mk_limits work pending default_client idle_timeout).

(** ** The estimate of execution times *)

Definition EWMA_NEW_SAMPLE_WEIGHT : Z := 1.
Definition EWMA_EXISTING_WEIGHT : Z := 4.

(** [duration_to_nanos] *)
Definition duration_to_nanos (d : Z) : Z := Z.min d u64_max.

(** The next value in the loop of [PeakEwma::observe] *)
Definition ewma_next (current sample : Z) : Z :=
  if current <=? sample then sample
  else Z.min (saturating_mul_u64 current EWMA_EXISTING_WEIGHT + saturating_mul_u64 sample EWMA_NEW_SAMPLE_WEIGHT) u64_max
         / (EWMA_EXISTING_WEIGHT + EWMA_NEW_SAMPLE_WEIGHT).

(** [PeakEwma::new] and [observe] without interference *)
Definition ewma_new (initial : Z) : Z := duration_to_nanos initial.
Definition observe (sample ewma : Z) : Z := ewma_next ewma (duration_to_nanos sample).

(** [initial_duration] *)
Definition initial_duration (timeout concurrency pending : Z) : Z :=
  duration_div (duration_saturating_mul timeout (u32_or_max concurrency)) (u32_or_max pending).

(** ** Advice to retry *)

Definition MIN_RETRY_DELAY : Z := 1 * NANOS_PER_SEC.
Definition MAX_RETRY_DELAY : Z := 30 * NANOS_PER_SEC.
Definition RETRY_JITTER_BASIS_POINTS : Z := 2000.
Definition BASIS_POINTS : Z := 10000.

(** [RejectionScope] *)
Inductive RejectionScope := Global | Client.

(** [RetryAdvice] *)
Record RetryAdvice := mk_advice {
  delay_seconds : Z;
  pressure_scope : RejectionScope;
}.

(** [AdmissionPressure] *)
Record AdmissionPressure := mk_pressure {
  work_in_flight : Z;
  pending : Z;
  pr_max_work_in_flight : Z;
  execution_duration_ewma : Z;
}.

(** [AdmissionPressure::estimated_wait] *)
Definition estimated_wait (p : AdmissionPressure) : Z :=
  let complete_batches := saturating_add_usize (work_in_flight p) (pending p) / pr_max_work_in_flight p in
  duration_saturating_mul (execution_duration_ewma p) (u32_or_max complete_batches).

(** [AdmissionPressure::estimated_delay] *)
Definition estimated_delay (p : AdmissionPressure) : Z :=
  let backlog := saturating_add_usize (work_in_flight p) (pending p) in
  let batches := saturating_add_usize backlog (Z.max 0 (pr_max_work_in_flight p - 1)) / pr_max_work_in_flight p in
  duration_saturating_mul (execution_duration_ewma p) (u32_or_max batches).

(** [retry_advice] *)
Definition retry_advice (client global : AdmissionPressure) (jitter_basis_points : Z) : RetryAdvice :=
  let jitter := clamp jitter_basis_points (- RETRY_JITTER_BASIS_POINTS) RETRY_JITTER_BASIS_POINTS in
  let client_delay := estimated_delay client in
  let global_delay := estimated_delay global in
  let '(delay, scope) := if global_delay <? client_delay then (client_delay, Client) else (global_delay, Global) in
  let bounded := clamp delay MIN_RETRY_DELAY MAX_RETRY_DELAY in
  let multiplier := Z.max 0 (Z.min (BASIS_POINTS + jitter) u32_max) in
  let jittered_nanos := Z.min (bounded * multiplier) u128_max / BASIS_POINTS in
  let jittered := clamp (Z.min jittered_nanos u64_max) MIN_RETRY_DELAY MAX_RETRY_DELAY in
  mk_advice (Z.min (jittered / NANOS_PER_SEC + (if jittered mod NANOS_PER_SEC =? 0 then 0 else 1)) u64_max) scope.

(** ** Requests *)

(** [RequestTransport] *)
Inductive RequestTransport := Grpc | Http.

Definition EXCLUDED_ADMIN_PATHS : list string := ["/admin/static"; "/admin/auth-callback"; "/admin/logs"]%string.

(** [str::strip_prefix] *)
Fixpoint strip_prefix (prefix s : string) : option string :=
  match prefix, s with
  | EmptyString, s => Some s
  | String a prefix, String b s => if Ascii.eqb a b then strip_prefix prefix s else None
  | String _ _, EmptyString => None
  end.
Definition starts_with (prefix s : string) : bool := bool_decide (is_Some (strip_prefix prefix s)).

(** [is_path_or_child] *)
Definition is_path_or_child (path root : string) : bool :=
  bool_decide (path = root) ||
  match strip_prefix root path with Some suffix => starts_with "/" suffix | None => false end.

(** [RequestTransport::classify]; the name of the gRPC service is generated code. *)
Definition classify (service_name path : string) : option RequestTransport :=
  if starts_with ("/" +:+ service_name +:+ "/") path then Some Grpc
  else if negb (is_path_or_child path "/admin") ||
          existsb (is_path_or_child path) EXCLUDED_ADMIN_PATHS then None
  else Some Http.

(** What is sent to a client that was rejected: [RequestTransport::overloaded_response] *)
Inductive Overloaded :=
| ResourceExhausted (pushback_milliseconds : Z)
| ServiceUnavailable (retry_after_seconds : Z).
Definition overloaded_response (t : RequestTransport) (retry : RetryAdvice) : Overloaded :=
  match t with
  | Grpc => ResourceExhausted (saturating_mul_u64 (delay_seconds retry) 1000)
  | Http => ServiceUnavailable (delay_seconds retry)
  end.

(** [ClientKey]; the user of a certificate is its printed identity. *)
Inductive ClientKey :=
| ExternalUser (user : string)
| ServiceId (id : string)
| MachineId (id : string)
| Default.

#[export] Instance ClientKey_eq_dec : EqDecision ClientKey.
Proof. solve_decision. Defined.
#[export] Instance ClientKey_countable : Countable ClientKey.
Proof.
  refine (inj_countable'
    (λ k, match k with ExternalUser u => (0%nat, u) | ServiceId i => (1%nat, i) | MachineId i => (2%nat, i)
          | Default => (3%nat, EmptyString) end)
    (λ p, match p with (0%nat, u) => ExternalUser u | (1%nat, i) => ServiceId i | (2%nat, i) => MachineId i
          | _ => Default end) _).
  by intros [].
Defined.

(** What [AuthContext] tells of a request *)
Record AuthContext := mk_auth {
  external_user_info : option string;
  spiffe_service_id : option string;
  spiffe_machine_id : option string;
}.

(** [ApiAdmissionControl::client] *)
Definition client_of (default_limits : ClientLimits) (service_limits : gmap string ClientLimits)
    (auth : option AuthContext) : ClientKey * ClientLimits :=
  match auth ≫= external_user_info with
  | Some u => (ExternalUser u, default_limits)
  | None =>
      match auth ≫= spiffe_service_id with
      | Some id => (ServiceId id, default default_limits (service_limits !! id))
      | None =>
          match auth ≫= spiffe_machine_id with
          | Some id => (MachineId id, default_limits)
          | None => (Default, default_limits)
          end
      end
  end.

(** [RejectionReason] *)
Inductive RejectionReason :=
| QueueFull (scope : RejectionScope)
| EstimatedQueueDelay (scope : RejectionScope)
| QueueTimeout
| ControllerUnavailable
| ShuttingDown.

(** [AdmissionRejection] *)
Record AdmissionRejection := mk_rejection {
  rej_reason : RejectionReason;
  rej_retry : RetryAdvice;
}.
