(* ===== verification/AdmissionEngine.v ===== *)
(** * The admission engine

    [api-core/src/admission/engine.rs]: clients with their queues, the decision on a request
    under the state lock, grants, permits, timeouts, the cleanup of idle clients and
    shutdown, as a step relation over all interleavings.  The dispatcher is a library; the
    engine uses it through a class whose laws state its documented behaviour: bounded
    first-in-first-out queues with tail drop, bounded concurrency per child and overall. *)

From S2P Require Import Prelude Admission.

(** ** The dispatcher *)

(** [EnqueueOutcome], of a queue that drops at its tail; [Accepted] is its first case. *)
Inductive EnqueueOutcome := Accepted | Rejected | Closed.

(** Entries are pairs of the child they belong to and the request. *)
Class Dispatcher (D : Type) := {
  (** concurrency and capacity of every child *)
  children : D → gmap nat (Z * Z);
  (** in the order of arrival *)
  queued : D → list (nat * nat);
  running : D → list (nat * nat);
  add_child : Z → Z → D → option (nat * D);
  remove_child : nat → D → D;
  try_push : nat → nat → D → EnqueueOutcome * D;
  start : nat → D → option D;
  finish : nat → D → D;
  graceful_shutdown : D → D;
}.

Section Views.
Context `{Dispatcher D}.

(** [stats().depth] and [stats().in_flight] of a child *)
Definition depth (i : nat) (d : D) : Z := Z.of_nat (length (filter (λ e, e.1 = i) (queued d))).
Definition in_flight (i : nat) (d : D) : Z := Z.of_nat (length (filter (λ e, e.1 = i) (running d))).
Definition total_in_flight (d : D) : Z := Z.of_nat (length (running d)).

Definition same_view (d d' : D) : Prop :=
  children d' = children d ∧ queued d' = queued d ∧ running d' = running d.

End Views.

Class DispatcherLaws (D : Type) `{!Dispatcher D} (global_max_in_flight : Z) : Prop := {
  add_child_fresh conc cap d i d' : add_child conc cap d = Some (i, d') →
    children d !! i = None ∧ children d' = <[i := (conc, cap)]> (children d) ∧
    queued d' = queued d ∧ running d' = running d;
  remove_child_deletes i d :
    children (remove_child i d) = delete i (children d) ∧
    queued (remove_child i d) = filter (λ e, e.1 ≠ i) (queued d) ∧ running (remove_child i d) = running d;
  push_admitted i w d d' : try_push i w d = (Accepted, d') →
    ∃ conc cap, children d !! i = Some (conc, cap) ∧ depth i d < cap ∧
      children d' = children d ∧ queued d' = queued d ++ [(i, w)] ∧ running d' = running d;
  push_rejected i w d d' conc cap : try_push i w d = (Rejected, d') → children d !! i = Some (conc, cap) → cap ≤ depth i d;
  push_refused i w d o d' : try_push i w d = (o, d') → o ≠ Accepted → same_view d d';
  start_oldest w d d' : start w d = Some d' →
    ∃ i q1 q2 conc cap, queued d = q1 ++ (i, w) :: q2 ∧ (∀ e, e ∈ q1 → e.1 ≠ i) ∧
      children d !! i = Some (conc, cap) ∧ in_flight i d < conc ∧ total_in_flight d < global_max_in_flight ∧
      children d' = children d ∧ queued d' = q1 ++ q2 ∧ running d' = (i, w) :: running d;
  finish_removes w d :
    children (finish w d) = children d ∧ queued (finish w d) = queued d ∧
    running (finish w d) = filter (λ e, e.2 ≠ w) (running d);
  shutdown_drops d :
    children (graceful_shutdown d) = children d ∧ queued (graceful_shutdown d) = [] ∧
    running (graceful_shutdown d) = running d;
}.

(** ** The engine *)

(** [ClientState]; the producer is the handle of the child's queue. *)
Record ClientState := mk_client {
  child_id : nat;
  cs_limits : ClientLimits;
  execution_ewma : Z;
  last_activity : Z;
}.

(** A request after the decision.  Its queue entry may outlive it. *)
Inductive Phase := Waiting | Granted | Executing (started : Z) | Over.

Record Request := mk_request {
  client_key : ClientKey;
  phase : Phase;
}.

Section Engine.
Context `{Dispatcher D} (limits : AdmissionLimits).

Record Engine := mk_engine {
  clients : gmap ClientKey ClientState;
  dispatcher : D;
  pending_count : Z;
  global_execution_ewma : Z;
  requests : gmap nat Request;
  (** children of removed clients that the dispatcher still has *)
  orphans : list nat;
  (** requests whose bridge has left the queue and has not run yet *)
  unstarted : list nat;
  shutdown : bool;
}.

Definition set_clients (c : gmap ClientKey ClientState) (s : Engine) : Engine :=
  mk_engine c (dispatcher s) (pending_count s) (global_execution_ewma s) (requests s) (orphans s) (unstarted s) (shutdown s).
Definition set_dispatcher (d : D) (s : Engine) : Engine :=
  mk_engine (clients s) d (pending_count s) (global_execution_ewma s) (requests s) (orphans s) (unstarted s) (shutdown s).
Definition set_pending (n : Z) (s : Engine) : Engine :=
  mk_engine (clients s) (dispatcher s) n (global_execution_ewma s) (requests s) (orphans s) (unstarted s) (shutdown s).
Definition set_request (w : nat) (r : Request) (s : Engine) : Engine :=
  mk_engine (clients s) (dispatcher s) (pending_count s) (global_execution_ewma s) (<[w := r]> (requests s))
    (orphans s) (unstarted s) (shutdown s).

(** [FairAdmission::start] with a dispatcher that has just been created *)
Definition start_engine (d : D) : Engine :=
  mk_engine ∅ d 0
    (ewma_new (initial_duration (pending_timeout (default_client limits)) (max_work_in_flight limits) (max_pending limits)))
    ∅ [] [] false.

Definition client_pressure (c : ClientState) (d : D) : AdmissionPressure :=
  mk_pressure (in_flight (child_id c) d) (depth (child_id c) d) (cl_max_work_in_flight (cs_limits c)) (execution_ewma c).
Definition global_pressure (s : Engine) : AdmissionPressure :=
  mk_pressure (total_in_flight (dispatcher s)) (pending_count s) (max_work_in_flight limits) (global_execution_ewma s).

(** [FairAdmission::retry_advice] *)
Definition engine_retry_advice (s : Engine) (key : ClientKey) (l : ClientLimits) (jitter : Z) : RetryAdvice :=
  retry_advice
    (match clients s !! key with
     | Some c => client_pressure c (dispatcher s)
     | None => mk_pressure 0 0 (cl_max_work_in_flight l)
                 (initial_duration (pending_timeout l) (cl_max_work_in_flight l) (cl_max_pending l))
     end) (global_pressure s) jitter.

(** [FairAdmission::client] *)
Definition client (key : ClientKey) (l : ClientLimits) (now : Z) (s : Engine) : option (ClientState * Engine) :=
  match clients s !! key with
  | Some c => Some (c, s)
  | None =>
      '(i, d) ← add_child (cl_max_work_in_flight l) (cl_max_pending l) (dispatcher s);
      let c := mk_client i l (ewma_new (initial_duration (pending_timeout l) (cl_max_work_in_flight l) (cl_max_pending l))) now in
      Some (c, set_clients (<[key := c]> (clients s)) (set_dispatcher d s))
  end.

(** The decision of [FairAdmission::acquire] under the state lock, on request [w] *)
Definition decide_admission (key : ClientKey) (l : ClientLimits) (now jitter : Z) (w : nat) (s : Engine)
    : option AdmissionRejection * Engine :=
  let advise s reason := (Some (mk_rejection reason (engine_retry_advice s key l jitter)), s) in
  if shutdown s then advise s ShuttingDown
  else if max_pending limits <=? pending_count s then advise s (QueueFull Global)
  else
    match client key l now s with
    | None => advise s ControllerUnavailable
    | Some (c, s) =>
        let cp := client_pressure c (dispatcher s) in
        let gp := global_pressure s in
        let reject reason s := (Some (mk_rejection reason (retry_advice cp gp jitter)), s) in
        if cl_max_pending (cs_limits c) <=? pending cp then reject (QueueFull Client) s
        else if pending_timeout (cs_limits c) <? estimated_wait cp then reject (EstimatedQueueDelay Client) s
        else if pending_timeout (cs_limits c) <? estimated_wait gp then reject (EstimatedQueueDelay Global) s
        else
          let '(o, d) := try_push (child_id c) w (dispatcher s) in
          match o with
          | Accepted =>
              let c := mk_client (child_id c) (cs_limits c) (execution_ewma c) now in
              (None, set_request w (mk_request key Waiting)
                       (set_clients (<[key := c]> (clients s))
                         (set_pending (pending_count s + 1) (set_dispatcher d s))))
          | Rejected => reject (QueueFull Client) (set_dispatcher d s)
          | Closed => reject ControllerUnavailable (set_dispatcher d s)
          end
    end.

(** The dispatcher takes an entry from the queue. *)
Definition dequeue (w : nat) (d : D) (s : Engine) : Engine :=
  mk_engine (clients s) d (pending_count s) (global_execution_ewma s) (requests s) (orphans s) (w :: unstarted s) (shutdown s).

(** [dispatch_grant] up to its await: the pending entry is dropped, and a request that
    still waits gets the grant. *)
Definition dispatch_grant (w : nat) (unstarted' : list nat) (s : Engine) : Engine :=
  let s := mk_engine (clients s) (dispatcher s) (pending_count s - 1) (global_execution_ewma s) (requests s) (orphans s)
             unstarted' (shutdown s) in
  match requests s !! w with
  | Some (mk_request key Waiting) => set_request w (mk_request key Granted) s
  | _ => s
  end.

(** The request takes its grant: the end of [acquire].  The flag says whether the client
    was found. *)
Definition take_grant (w : nat) (now : Z) (s : Engine) : option (bool * Engine) :=
  match requests s !! w with
  | Some (mk_request key Granted) =>
      match clients s !! key with
      | Some _ => Some (true, set_request w (mk_request key (Executing now)) s)
      | None => Some (false, set_request w (mk_request key Over) s)
      end
  | _ => None
  end.

(** A request that waits for its grant ends by timeout, cancellation or shutdown. *)
Definition withdraw (w : nat) (s : Engine) : option Engine :=
  match requests s !! w with
  | Some (mk_request key Waiting) | Some (mk_request key Granted) =>
      Some (set_request w (mk_request key Over) s)
  | _ => None
  end.

(** [Drop for ExecutionPermit]; signalling and recording the duration are one step. *)
Definition drop_permit (w : nat) (now : Z) (s : Engine) : option Engine :=
  match requests s !! w with
  | Some (mk_request key (Executing started)) =>
      let duration := Z.max 0 (now - started) in
      Some (mk_engine
        (alter (λ c, mk_client (child_id c) (cs_limits c) (observe duration (execution_ewma c)) (last_activity c)) key (clients s))
        (dispatcher s) (pending_count s) (observe duration (global_execution_ewma s))
        (<[w := mk_request key Over]> (requests s)) (orphans s) (unstarted s) (shutdown s))
  | _ => None
  end.

(** The idle clients of [cleanup_idle_clients] *)
Definition idle (now : Z) (s : Engine) (c : ClientState) : bool :=
  (depth (child_id c) (dispatcher s) =? 0) && (in_flight (child_id c) (dispatcher s) =? 0) &&
  (client_idle_timeout limits <=? Z.max 0 (now - last_activity c)).
Definition cleanup_idle_clients (now : Z) (s : Engine) : Engine :=
  mk_engine (filter (λ kc, idle now s kc.2 = false) (clients s)) (dispatcher s) (pending_count s)
    (global_execution_ewma s) (requests s)
    (orphans s ++ (child_id <$> (map_to_list (filter (λ kc, idle now s kc.2 = true) (clients s))).*2))
    (unstarted s) (shutdown s).

(** [graceful_shutdown]: queued bridges are dropped, and with them their pending entries. *)
Definition close (s : Engine) : Engine :=
  set_pending (pending_count s - Z.of_nat (length (queued (dispatcher s))))
    (set_dispatcher (graceful_shutdown (dispatcher s)) s).

Definition begin_shutdown (s : Engine) : Engine :=
  mk_engine (clients s) (dispatcher s) (pending_count s) (global_execution_ewma s) (requests s) (orphans s) (unstarted s) true.

Definition drop_orphan (i : nat) (orphans' : list nat) (s : Engine) : Engine :=
  mk_engine (clients s) (remove_child i (dispatcher s)) (pending_count s) (global_execution_ewma s) (requests s)
    orphans' (unstarted s) (shutdown s).

(** The limits of clients are [NonZero] integers and a [Duration]. *)
Definition client_limits_ok (l : ClientLimits) : Prop :=
  0 < cl_max_work_in_flight l ∧ 0 < cl_max_pending l ∧ 0 ≤ pending_timeout l.

(** One atomic step of the request tasks, the dispatcher or the cleanup task *)
Inductive step (s : Engine) : Engine → Prop :=
| step_acquire key l now jitter w s' :
    requests s !! w = None → client_limits_ok l → (decide_admission key l now jitter w s).2 = s' → step s s'
| step_start w d : start w (dispatcher s) = Some d → step s (dequeue w d s)
| step_bridge w u1 u2 : unstarted s = u1 ++ w :: u2 → step s (dispatch_grant w (u1 ++ u2) s)
| step_grant w now b s' : take_grant w now s = Some (b, s') → step s s'
| step_withdraw w s' : withdraw w s = Some s' → step s s'
| step_drop_permit w now s' : drop_permit w now s = Some s' → step s s'
| step_finish w : (phase <$> requests s !! w) = Some Over → w ∉ unstarted s → step s (set_dispatcher (finish w (dispatcher s)) s)
| step_cleanup now : step s (cleanup_idle_clients now s)
| step_orphan i o1 o2 : orphans s = o1 ++ i :: o2 → step s (drop_orphan i (o1 ++ o2) s)
| step_shutdown : step s (begin_shutdown s)
| step_close : shutdown s = true → step s (close s).

End Engine.
