(* ===== verification/AdmissionFacts.v ===== *)
(** * The bounds of admission control

    In every reachable state of the engine the queues and the running handlers stay within
    their limits, globally and for every client, and the accounting is exact.  And what the
    estimate of execution times and the advice to retry compute. *)

From S2P Require Import Prelude Admission AdmissionEngine.

Lemma filter_filter_length {A} (P Q : A → Prop) `{∀ x, Decision (P x), ∀ x, Decision (Q x)} (l : list A) :
  (length (filter P (filter Q l)) ≤ length (filter P l))%nat.
Proof.
  induction l as [|x l IH]; [done|]. rewrite (filter_cons Q), (filter_cons P x l).
  repeat case_decide; simpl; rewrite ?filter_cons_True, ?filter_cons_False by done; simpl; lia.
Qed.

Lemma clamp_range x lo hi : lo ≤ hi → lo ≤ clamp x lo hi ≤ hi.
Proof. unfold clamp. repeat case_match; lia. Qed.

Lemma retry_advice_range client global jitter : 1 ≤ delay_seconds (retry_advice client global jitter) ≤ 30.
Proof.
  unfold retry_advice. destruct (if _ <? _ then _ else _) as [delay scope]. simpl.
  match goal with |- context [clamp ?x MIN_RETRY_DELAY MAX_RETRY_DELAY / _ + _] =>
    assert (Hc : MIN_RETRY_DELAY ≤ clamp x MIN_RETRY_DELAY MAX_RETRY_DELAY ≤ MAX_RETRY_DELAY) by (by apply clamp_range);
    revert Hc; generalize (clamp x MIN_RETRY_DELAY MAX_RETRY_DELAY) end.
  unfold MIN_RETRY_DELAY, MAX_RETRY_DELAY, NANOS_PER_SEC, u64_max. intros n Hn.
  pose proof (Z.div_mod n (10 ^ 9)) as Hdm. pose proof (Z.mod_pos_bound n (10 ^ 9)) as Hm.
  destruct (Z.eqb_spec (n mod 10 ^ 9) 0); lia.
Qed.

(** Free capacity means no wait. *)
Lemma estimated_wait_free p : 0 ≤ work_in_flight p → 0 ≤ pending p → work_in_flight p + pending p < pr_max_work_in_flight p →
  estimated_wait p = 0.
Proof.
  intros H1 H2 H3. unfold estimated_wait, saturating_add_usize. rewrite Z.div_small.
  - unfold duration_saturating_mul, u32_or_max, DURATION_MAX, NANOS_PER_SEC, u32_max. rewrite (Z.min_l 0) by lia. lia.
  - unfold u64_max. lia.
Qed.

Lemma estimated_wait_busy t p : 0 ≤ t → 0 ≤ work_in_flight p → 0 ≤ pending p → t < estimated_wait p →
  pr_max_work_in_flight p ≤ work_in_flight p + pending p.
Proof.
  intros Ht H1 H2 Hw. destruct (decide (work_in_flight p + pending p < pr_max_work_in_flight p)); [|lia].
  rewrite estimated_wait_free in Hw; lia.
Qed.

(** The average lies between its last value and the sample, as long as five times the value
    fits 64 bits. *)
Lemma ewma_next_between current sample : 0 ≤ sample → 0 ≤ current → 5 * current ≤ u64_max →
  Z.min current sample ≤ ewma_next current sample ≤ Z.max current sample.
Proof.
  intros Hs Hc Hu. unfold ewma_next, saturating_mul_u64, EWMA_EXISTING_WEIGHT, EWMA_NEW_SAMPLE_WEIGHT.
  destruct (Z.leb_spec current sample); [lia|]. rewrite !(Z.min_l _ u64_max) by lia.
  change (4 + 1) with 5. split; [apply Z.div_le_lower_bound; lia|].
  transitivity current; [|lia]. apply Z.div_le_upper_bound; lia.
Qed.

Lemma limits_new_fields max_permits work pend cwork cpend timeout idle_timeout limits :
  limits_new max_permits work pend cwork cpend timeout idle_timeout = Ok limits →
  max_work_in_flight limits = work ∧ max_pending limits = pend.
Proof.
  unfold limits_new. repeat (case_match; [done|]). destruct (client_limits_new _ _ _ _ _); [|done].
  simpl. by intros [= <-].
Qed.

Section Reachable.
Context {D : Type} `{!Dispatcher D} (limits : AdmissionLimits).
Context `{!DispatcherLaws D (max_work_in_flight limits)}.

Notation Engine := (@Engine D).

Definition entries (s : Engine) : list (nat * nat) := queued (dispatcher s) ++ running (dispatcher s).

Record inv (s : Engine) : Prop := {
  inv_pending : pending_count s = Z.of_nat (length (queued (dispatcher s)) + length (unstarted s));
  inv_bound : pending_count s ≤ max_pending limits;
  inv_works : NoDup (entries s).*2;
  inv_child k c : clients s !! k = Some c →
    children (dispatcher s) !! child_id c = Some (cl_max_work_in_flight (cs_limits c), cl_max_pending (cs_limits c));
  inv_inj k k' c c' : clients s !! k = Some c → clients s !! k' = Some c' → child_id c = child_id c' → k = k';
  inv_orphans : NoDup (orphans s);
  inv_orphan i : i ∈ orphans s →
    is_Some (children (dispatcher s) !! i) ∧ ∀ k c, clients s !! k = Some c → child_id c ≠ i;
  inv_entry i w : (i, w) ∈ entries s →
    ∃ r c, requests s !! w = Some r ∧ clients s !! client_key r = Some c ∧ child_id c = i;
  inv_waiting w k : requests s !! w = Some (mk_request k Waiting) →
    shutdown s = true ∨ w ∈ unstarted s ∨ ∃ i, (i, w) ∈ queued (dispatcher s);
  inv_active w k p : requests s !! w = Some (mk_request k p) → p ≠ Waiting → p ≠ Over →
    ∃ i, (i, w) ∈ running (dispatcher s);
  inv_queues i conc cap : children (dispatcher s) !! i = Some (conc, cap) →
    depth i (dispatcher s) ≤ cap ∧ in_flight i (dispatcher s) ≤ conc;
  inv_total : total_in_flight (dispatcher s) ≤ max_work_in_flight limits;
  inv_unstarted : NoDup (unstarted s) ∧ ∀ w, w ∈ unstarted s → ∃ i, (i, w) ∈ running (dispatcher s);
}.

(** A step that changes neither clients nor the view of the dispatcher *)
Lemma inv_same_view s s' :
  same_view (dispatcher s) (dispatcher s') → clients s' = clients s → pending_count s' = pending_count s →
  requests s' = requests s → orphans s' = orphans s → unstarted s' = unstarted s → shutdown s' = shutdown s → inv s → inv s'.
Proof using Type.
  intros (Hch & Hq & Hr) Hc Hp Hrq Ho Hu Hs [].
  split; unfold entries, depth, in_flight, total_in_flight in *; rewrite ?Hch, ?Hq, ?Hr, ?Hc, ?Hp, ?Hrq, ?Ho, ?Hu, ?Hs; done.
Qed.

Lemma client_inv key l now s c s' : client_limits_ok l → inv s → client key l now s = Some (c, s') →
  inv s' ∧ clients s' !! key = Some c ∧ requests s' = requests s ∧ pending_count s' = pending_count s ∧
  shutdown s' = shutdown s.
Proof using DispatcherLaws0.
  intros (Hw & Hp & _) Hs. unfold client. destruct (clients s !! key) as [c0|] eqn:Hk; [by intros [= <- <-]|].
  destruct (add_child _ _ _) as [[i d]|] eqn:E; [|done]. simpl. intros [= <- <-]. simpl.
  destruct (add_child_fresh _ _ _ _ _ E) as (Hfresh & Hch & Hq & Hr). destruct Hs as [A B C E1 F G I J K L M N U].
  rewrite lookup_insert_eq. split; [|done].
  split; unfold entries, depth, in_flight, total_in_flight in *; simpl; rewrite ?Hch, ?Hq, ?Hr; try done.
  - intros k c Hkc. apply lookup_insert_Some in Hkc as [[<- <-]|[Hne Hkc]]; simpl; [by rewrite lookup_insert_eq|].
    rewrite lookup_insert_ne; [by eapply E1|]. specialize (E1 _ _ Hkc). intros ->. congruence.
  - intros k k' c c' H1 H2 Heq.
    apply lookup_insert_Some in H1 as [[<- <-]|[Hne1 H1]], H2 as [[<- <-]|[Hne2 H2]]; simpl in *; try done.
    + specialize (E1 _ _ H2). congruence.
    + specialize (E1 _ _ H1). congruence.
    + by eapply F.
  - intros j Hj. destruct (I j Hj) as [Hsome Hnot]. split.
    + rewrite lookup_insert_ne; [done|]. intros ->. destruct Hsome. congruence.
    + intros k c Hkc. apply lookup_insert_Some in Hkc as [[<- <-]|[Hne Hkc]]; simpl; [|by eapply Hnot].
      intros ->. destruct Hsome. congruence.
  - intros j w Hj. destruct (J j w Hj) as (r & c & H1 & H2 & H3). exists r, c. split; [done|]. split; [|done].
    rewrite lookup_insert_ne; [done|]. congruence.
  - intros j conc cap Hj. apply lookup_insert_Some in Hj as [[<- [= <- <-]]|[Hne Hj]]; [|by eapply M].
    assert (Hno : ∀ l : list (nat * nat), (∀ e, e ∈ l → e ∈ queued (dispatcher s) ++ running (dispatcher s)) →
      filter (λ e, e.1 = i) l = []).
    { intros l' Hl. apply filter_nil_of. intros e He Hi. destruct e as [i' w]. simpl in Hi. subst i'.
      destruct (J i w (Hl _ He)) as (r & c & _ & H2 & H3). specialize (E1 _ _ H2). congruence. }
    rewrite !Hno by set_solver. simpl. lia.
Qed.

Lemma filter_snoc_length i j (w : nat) (l : list (nat * nat)) :
  length (filter (λ e, e.1 = i) (l ++ [(j, w)])) = (length (filter (λ e, e.1 = i) l) + if decide (j = i) then 1 else 0)%nat.
Proof using Type.
  rewrite filter_app, length_app. f_equal. case_decide; [by rewrite filter_cons_True|by rewrite filter_cons_False].
Qed.

(** An entry is added at the end of the queue of its client. *)
Lemma push_inv key now w c d s :
  inv s → clients s !! key = Some c → requests s !! w = None → pending_count s < max_pending limits →
  try_push (child_id c) w (dispatcher s) = (Accepted, d) →
  inv (set_request w (mk_request key Waiting)
        (set_clients (<[key := mk_client (child_id c) (cs_limits c) (execution_ewma c) now]> (clients s))
          (set_pending (pending_count s + 1) (set_dispatcher d s)))).
Proof using DispatcherLaws0.
  intros [A B C E1 F G I J K L M N U] Hc Hw Hlt Hpush.
  destruct (push_admitted _ _ _ _ Hpush) as (conc & cap & Hi & Hd & Hch & Hq & Hr).
  assert (Hnew : ∀ i, (i, w) ∉ entries s).
  { intros i Hin. destruct (J i w Hin) as (r & ? & ? & _). congruence. }
  assert (Hent : ∀ i w', (i, w') ∈ (queued (dispatcher s) ++ [(child_id c, w)]) ++ running (dispatcher s) ↔
    (i, w') ∈ entries s ∨ (i = child_id c ∧ w' = w)).
  { intros i w'. unfold entries. rewrite !elem_of_app, list_elem_of_singleton. naive_solver. }
  assert (Hsame : ∀ k c', <[key := mk_client (child_id c) (cs_limits c) (execution_ewma c) now]> (clients s) !! k = Some c' →
    ∃ c0, clients s !! k = Some c0 ∧ child_id c' = child_id c0 ∧ cs_limits c' = cs_limits c0).
  { intros k c' H. apply lookup_insert_Some in H as [[<- <-]|[_ H]]; eauto. }
  split; unfold entries, depth, in_flight, total_in_flight in *; simpl; rewrite ?Hch, ?Hq, ?Hr; try done.
  - rewrite length_app. simpl. lia.
  - lia.
  - rewrite <- (assoc_L (++)), !fmap_app in *. apply NoDup_app in C as (C1 & C2 & C3). simpl.
    apply NoDup_app. split; [done|]. split.
    + intros x Hx Hx'. apply elem_of_cons in Hx' as [->|Hx']; [|by eapply C2].
      apply list_elem_of_fmap in Hx as ([i w'] & -> & Hx). apply (Hnew i). set_solver.
    + apply NoDup_cons. split; [|done]. intros Hx. apply list_elem_of_fmap in Hx as ([i w'] & -> & Hx).
      apply (Hnew i). set_solver.
  - intros k c' H. destruct (Hsame _ _ H) as (c0 & H0 & -> & ->). by eapply E1.
  - intros k k' c1 c2 H1 H2 Heq. destruct (Hsame _ _ H1) as (c3 & H3 & E3 & _), (Hsame _ _ H2) as (c4 & H4 & E4 & _).
    eapply F; [done|done|congruence].
  - intros i Hi'. destruct (I i Hi') as [Hsome Hno]. split; [done|]. intros k c' H.
    destruct (Hsame _ _ H) as (c0 & H0 & -> & _). by eapply Hno.
  - intros i w' Hin. apply Hent in Hin as [Hin|[-> ->]].
    + destruct (J i w' Hin) as (r & c0 & H1 & H2 & H3). exists r.
      destruct (decide (client_key r = key)) as [Hk|Hk].
      * exists (mk_client (child_id c) (cs_limits c) (execution_ewma c) now). rewrite lookup_insert_ne by congruence.
        split; [done|]. rewrite Hk, lookup_insert_eq. split; [done|]. simpl. congruence.
      * exists c0. rewrite lookup_insert_ne by congruence. split; [done|]. by rewrite lookup_insert_ne.
    + exists (mk_request key Waiting). eexists. rewrite lookup_insert_eq. split; [done|]. simpl.
      by rewrite lookup_insert_eq.
  - intros w' k H. apply lookup_insert_Some in H as [[<- [= <-]]|[Hne H]].
    + do 2 right. exists (child_id c). set_solver.
    + destruct (K w' k H) as [?|[?|[i Hi']]]; [by left|by right; left|]. do 2 right. exists i. set_solver.
  - intros w' k p H Hp1 Hp2. apply lookup_insert_Some in H as [[<- [= <- <-]]|[Hne H]]; [done|]. by eapply L.
  - intros i conc' cap' Hi'. rewrite filter_snoc_length. destruct (M i conc' cap' Hi') as [M1 M2].
    split; [|done]. case_decide; simplify_eq; lia.
Qed.

Lemma decide_inv key l now jitter w s : client_limits_ok l → requests s !! w = None → inv s →
  inv (decide_admission limits key l now jitter w s).2.
Proof using DispatcherLaws0.
  intros Hl Hw Hs. unfold decide_admission. destruct (shutdown s); [done|].
  destruct (max_pending limits <=? pending_count s) eqn:Hp; [done|].
  destruct (client key l now s) as [[c s1]|] eqn:Hc; [|done].
  destruct (client_inv _ _ _ _ _ _ Hl Hs Hc) as (Hs1 & Hk & Hr & Hpc & _).
  do 3 (case_match; [done|]).
  destruct (try_push (child_id c) w (dispatcher s1)) as [o d] eqn:Hpush. destruct o; simpl.
  - eapply push_inv; [done|done|congruence|lia|done].
  - eapply inv_same_view; [by eapply push_refused|done..].
  - eapply inv_same_view; [by eapply push_refused|done..].
Qed.

Lemma dequeue_inv w d s : inv s → start w (dispatcher s) = Some d → inv (dequeue w d s).
Proof using DispatcherLaws0.
  intros [A B C E1 F G I J K L M N U] Hst.
  destruct (start_oldest _ _ _ Hst) as (i & q1 & q2 & conc & cap & Hq & Hold & Hi & Hfl & Htot & Hch & Hq' & Hr').
  assert (Hent : ∀ e, e ∈ (q1 ++ q2) ++ (i, w) :: running (dispatcher s) ↔ e ∈ entries s).
  { intros e. unfold entries. rewrite Hq. set_solver. }
  assert (Hlen : length (queued (dispatcher s)) = S (length (q1 ++ q2))).
  { rewrite Hq, !length_app. simpl. lia. }
  assert (Hperm : (q1 ++ q2) ++ (i, w) :: running (dispatcher s) ≡ₚ (q1 ++ (i, w) :: q2) ++ running (dispatcher s))
    by solve_Permutation.
  split; unfold entries, depth, in_flight, total_in_flight in *; simpl; rewrite ?Hch, ?Hq', ?Hr'; try done.
  - simpl. lia.
  - by rewrite Hperm, <- Hq.
  - intros j w' Hin. apply Hent in Hin. by apply J.
  - intros w' k Hw'. destruct (K w' k Hw') as [?|[?|[j Hj]]]; [by left|right; left; by right|].
    destruct (decide (w' = w)) as [->|Hne]; [right; left; left|]. do 2 right. exists j.
    rewrite Hq in Hj. apply elem_of_app in Hj as [Hj|Hj]; [set_solver|]. apply elem_of_cons in Hj as [[= -> ->]|Hj]; [done|set_solver].
  - intros w' k p Hw' Hp1 Hp2. destruct (L w' k p Hw' Hp1 Hp2) as [j Hj]. exists j. by right.
  - intros j conc' cap' Hj. destruct (M j conc' cap' Hj) as [M1 M2].
    rewrite Hq, filter_app, filter_cons, length_app in M1. rewrite filter_app, filter_cons, length_app. simpl in *.
    case_decide; simplify_eq; simpl in *; lia.
  - simpl. lia.
  - destruct U as [U1 U2]. split.
    + apply NoDup_cons. split; [|done]. intros Hw. destruct (U2 w Hw) as [j Hj].
      rewrite Hq, <- Hperm, fmap_app in C. apply NoDup_app in C as (_ & _ & C). simpl in C.
      apply NoDup_cons in C as [C _]. apply C. apply list_elem_of_fmap. by exists (j, w).
    + intros w' Hw'. apply elem_of_cons in Hw' as [->|Hw']; [exists i; left|].
      destruct (U2 w' Hw') as [j Hj]. exists j. by right.
Qed.

Lemma grant_inv w u1 u2 s : inv s → unstarted s = u1 ++ w :: u2 → inv (dispatch_grant w (u1 ++ u2) s).
Proof using DispatcherLaws0.
  intros [A B C E1 F G I J K L M N U] Hu. destruct U as [U1 U2]. rewrite Hu in A, U1.
  destruct (U2 w) as [i Hi]; [rewrite Hu; set_solver|].
  destruct (J i w) as (r & c & Hrw & Hcl & Hci); [unfold entries; set_solver|].
  apply NoDup_app in U1 as (U3 & U4 & U5). apply NoDup_cons in U5 as [U5 U6].
  assert (Hbase : ∀ s', clients s' = clients s → dispatcher s' = dispatcher s → pending_count s' = pending_count s - 1 →
    orphans s' = orphans s → unstarted s' = u1 ++ u2 → shutdown s' = shutdown s →
    (∀ w', w' ≠ w → requests s' !! w' = requests s !! w') →
    (∃ r', requests s' !! w = Some r' ∧ client_key r' = client_key r ∧ phase r' ≠ Waiting) → inv s').
  { intros s' H1 H2 H3 H4 Hu' H5 H6 (r' & H7 & H8 & H9).
    split; unfold entries in *; rewrite ?H1, ?H2, ?H3, ?H4, ?Hu', ?H5; try done.
    - rewrite length_app in *. simpl in A. lia.
    - lia.
    - intros j w' Hin. destruct (J j w' Hin) as (r0 & c0 & Hr0 & Hc0 & Hj).
      destruct (decide (w' = w)) as [->|Hne]; [|exists r0, c0; by rewrite H6].
      exists r', c0. rewrite H8. by simplify_eq.
    - intros w' k Hw'. destruct (decide (w' = w)) as [->|Hne]; [simplify_eq; by destruct H9|].
      rewrite H6 in Hw' by done. rewrite Hu in K. destruct (K w' k Hw') as [?|[Hin|?]]; [by left|right; left|by do 2 right].
      apply elem_of_app in Hin as [Hin|Hin]; [set_solver|]. apply elem_of_cons in Hin as [->|Hin]; [done|set_solver].
    - intros w' k p Hw' Hp1 Hp2. destruct (decide (w' = w)) as [->|Hne]; [by exists i|].
      rewrite H6 in Hw' by done. by eapply L.
    - split; [|intros w' Hw'; apply U2; rewrite Hu; set_solver]. apply NoDup_app. split; [done|]. split; [|done].
      intros x Hx Hx'. eapply U4; [done|by right]. }
  unfold dispatch_grant. simpl. rewrite Hrw. destruct r as [k p]. destruct p; apply Hbase; try done; simpl.
  - intros w' Hne. by rewrite lookup_insert_ne.
  - eexists. rewrite lookup_insert_eq. by split_and!.
  - eexists. rewrite Hrw. by split_and!.
  - eexists. rewrite Hrw. by split_and!.
  - eexists. rewrite Hrw. by split_and!.
Qed.

(** A request that is not in the queue changes its phase. *)
Lemma phase_inv w k p p' s : inv s → requests s !! w = Some (mk_request k p) →
  (p' = Over ∨ ∃ now, p = Granted ∧ p' = Executing now) → inv (set_request w (mk_request k p') s).
Proof using Type.
  intros [A B C E1 F G I J K L M N U] Hw Hp. split; simpl; try done.
  - intros i w' Hin. destruct (J i w' Hin) as (r & c & H1 & H2 & H3).
    destruct (decide (w' = w)) as [->|Hne]; [|exists r, c; by rewrite lookup_insert_ne].
    exists (mk_request k p'), c. rewrite lookup_insert_eq. by simplify_eq.
  - intros w' k' H. apply lookup_insert_Some in H as [[<- H]|[Hne H]]; [|by eapply K]. naive_solver.
  - intros w' k' q H H1 H2. apply lookup_insert_Some in H as [[<- H]|[Hne H]]; [|by eapply L].
    destruct Hp as [->|(now & -> & ->)]; [naive_solver|]. by eapply L.
Qed.

(** Clients may change anything but their child and limits. *)
Lemma reshape_inv clients' s :
  (∀ k, (λ c, (child_id c, cs_limits c)) <$> clients' !! k = (λ c, (child_id c, cs_limits c)) <$> clients s !! k) →
  inv s → inv (set_clients clients' s).
Proof using Type.
  intros Hsh [A B C E1 F G I J K L M N U].
  assert (Hto : ∀ k c, clients' !! k = Some c → ∃ c0, clients s !! k = Some c0 ∧ child_id c = child_id c0 ∧ cs_limits c = cs_limits c0).
  { intros k c Hk. specialize (Hsh k). rewrite Hk in Hsh. destruct (clients s !! k); naive_solver. }
  assert (Hfrom : ∀ k c, clients s !! k = Some c → ∃ c0, clients' !! k = Some c0 ∧ child_id c0 = child_id c).
  { intros k c Hk. specialize (Hsh k). rewrite Hk in Hsh. destruct (clients' !! k); naive_solver. }
  split; simpl; try done.
  - intros k c Hk. destruct (Hto _ _ Hk) as (c0 & H0 & -> & ->). by eapply E1.
  - intros k k' c c' H1 H2 Heq. destruct (Hto _ _ H1) as (c1 & H1' & E3 & _), (Hto _ _ H2) as (c2 & H2' & E4 & _).
    eapply F; [done|done|congruence].
  - intros i Hi. destruct (I i Hi) as [Hsome Hno]. split; [done|]. intros k c Hk.
    destruct (Hto _ _ Hk) as (c0 & H0 & -> & _). by eapply Hno.
  - intros i w Hin. destruct (J i w Hin) as (r & c & H1 & H2 & H3). destruct (Hfrom _ _ H2) as (c0 & H0 & Hid).
    exists r, c0. split; [done|]. split; [done|congruence].
Qed.

Lemma permit_inv w now s s' : inv s → drop_permit w now s = Some s' → inv s'.
Proof using Type.
  intros Hs. unfold drop_permit. destruct (requests s !! w) as [[k p]|] eqn:Hw; [|done]. destruct p; try done.
  intros [= <-].
  eapply inv_same_view; [| | | | | | |eapply (reshape_inv _ (set_request w (mk_request k Over) s)); [|by eapply phase_inv; [done..|left]]];
    simpl; try done.
  intros k'. destruct (decide (k' = k)) as [->|Hne]; [|by rewrite lookup_alter_ne].
  rewrite lookup_alter_eq. by destruct (clients s !! k).
Qed.

Lemma finish_inv w s : inv s → phase <$> requests s !! w = Some Over → w ∉ unstarted s → inv (set_dispatcher (finish w (dispatcher s)) s).
Proof using DispatcherLaws0.
  intros [A B C E1 F G I J K L M N U] Hw Hu. destruct (finish_removes w (dispatcher s)) as (Hch & Hq & Hr).
  assert (Hsub : filter (λ e : nat * nat, e.2 ≠ w) (running (dispatcher s)) `sublist_of` running (dispatcher s))
    by apply sublist_filter.
  split; unfold entries, depth, in_flight, total_in_flight in *; simpl; rewrite ?Hch, ?Hq, ?Hr; try done.
  - eapply sublist_NoDup; [exact C|]. refine (fmap_sublist snd _ _ _). by apply sublist_app.
  - intros i w' Hin. apply J. rewrite elem_of_app, list_elem_of_filter in Hin. set_solver.
  - intros w' k p Hw' H1 H2. destruct (L w' k p Hw' H1 H2) as [i Hi]. exists i. apply list_elem_of_filter.
    split; [|done]. simpl. intros ->. rewrite Hw' in Hw. naive_solver.
  - intros i conc cap Hi. destruct (M i conc cap Hi) as [M1 M2]. split; [done|].
    pose proof (filter_filter_length (λ e : nat * nat, e.1 = i) (λ e, e.2 ≠ w) (running (dispatcher s))). lia.
  - pose proof (sublist_length _ _ Hsub). lia.
  - destruct U as [U1 U2]. split; [done|]. intros w' Hw'. destruct (U2 w' Hw') as [i Hi]. exists i.
    apply list_elem_of_filter. split; [|done]. simpl. by intros ->.
Qed.

Lemma entry_not_idle i w now s c : (i, w) ∈ entries s → child_id c = i → idle limits now s c = false.
Proof using Type.
  intros Hin <-. unfold idle, depth, in_flight. unfold entries in Hin. apply elem_of_app in Hin as [Hin|Hin].
  - assert (H : (child_id c, w) ∈ filter (λ e, e.1 = child_id c) (queued (dispatcher s))) by by apply list_elem_of_filter.
    destruct (filter _ (queued _)); [by apply not_elem_of_nil in H|done].
  - assert (H : (child_id c, w) ∈ filter (λ e, e.1 = child_id c) (running (dispatcher s))) by by apply list_elem_of_filter.
    destruct (filter _ (running _)); [by apply not_elem_of_nil in H|]. by rewrite andb_false_r.
Qed.

Lemma cleanup_inv now s : inv s → inv (cleanup_idle_clients limits now s).
Proof using Type.
  intros [A B C E1 F G I J K L M N U].
  assert (Hold : ∀ i, i ∈ child_id <$> (map_to_list (filter (λ kc, idle limits now s kc.2 = true) (clients s))).*2 ↔
    ∃ k c, clients s !! k = Some c ∧ idle limits now s c = true ∧ child_id c = i).
  { intros i. rewrite <- list_fmap_compose, list_elem_of_fmap. split.
    - intros ([k c] & -> & H). apply elem_of_map_to_list, map_lookup_filter_Some in H as [H1 H2]. eauto.
    - intros (k & c & H1 & H2 & <-). exists (k, c). split; [done|]. apply elem_of_map_to_list.
      by apply map_lookup_filter_Some. }
  split; unfold entries in *; simpl; try done.
  - intros k c H. apply map_lookup_filter_Some in H as [H _]. by eapply E1.
  - intros k k' c c' H1 H2. apply map_lookup_filter_Some in H1 as [H1 _], H2 as [H2 _]. by eapply F.
  - apply NoDup_app. split; [done|]. split.
    + intros i Hi Hi'. apply Hold in Hi' as (k & c & H1 & _ & H2). by eapply I.
    + rewrite <- list_fmap_compose. apply NoDup_fmap_2_strong; [|apply NoDup_map_to_list].
      intros [k c] [k' c'] H1 H2 Heq. simpl in Heq.
      apply elem_of_map_to_list, map_lookup_filter_Some in H1 as [H1 _], H2 as [H2 _].
      assert (k = k') as -> by by eapply F. by simplify_eq.
  - intros i Hi. apply elem_of_app in Hi as [Hi|Hi].
    + destruct (I i Hi) as [Hsome Hno]. split; [done|]. intros k c H. apply map_lookup_filter_Some in H as [H _]. by eapply Hno.
    + apply Hold in Hi as (k & c & H1 & H2 & <-). split; [by rewrite (E1 _ _ H1)|].
      intros k' c' H. apply map_lookup_filter_Some in H as [H H3]. simpl in H3. intros Heq.
      assert (k' = k) as -> by by eapply F. simplify_eq. congruence.
  - intros i w Hin. destruct (J i w Hin) as (r & c & H1 & H2 & H3). exists r, c. split; [done|]. split; [|done].
    apply map_lookup_filter_Some. split; [done|]. simpl. by eapply entry_not_idle.
Qed.

Lemma orphan_inv i o1 o2 s : inv s → orphans s = o1 ++ i :: o2 → inv (drop_orphan i (o1 ++ o2) s).
Proof using DispatcherLaws0.
  intros [A B C E1 F G I J K L M N U] Ho. destruct (remove_child_deletes i (dispatcher s)) as (Hch & Hq & Hr).
  destruct (I i) as [_ Hno]; [rewrite Ho; set_solver|].
  assert (Hq' : filter (λ e : nat * nat, e.1 ≠ i) (queued (dispatcher s)) = queued (dispatcher s)).
  { apply filter_id. intros [j w] Hin Hj. simpl in Hj. subst j.
    destruct (J i w) as (r & c & _ & H2 & H3); [unfold entries; set_solver|]. by eapply Hno. }
  rewrite Hq' in Hq. rewrite Ho in G. apply NoDup_app in G as (G1 & G2 & G3). apply NoDup_cons in G3 as [G3 G4].
  split; unfold entries, depth, in_flight, total_in_flight in *; simpl; rewrite ?Hch, ?Hq, ?Hr; try done.
  - intros k c Hk. rewrite lookup_delete_ne; [by eapply E1|]. intros Heq. by eapply Hno.
  - apply NoDup_app. split; [done|]. split; [|done]. intros x Hx Hx'. eapply G2; [done|by right].
  - intros j Hj. assert (j ≠ i) by set_solver. destruct (I j) as [H1 H2]; [rewrite Ho; set_solver|].
    split; [by rewrite lookup_delete_ne|done].
  - intros j conc cap Hj. apply lookup_delete_Some in Hj as [_ Hj]. by eapply M.
Qed.

Lemma close_inv s : inv s → shutdown s = true → inv (close s).
Proof using DispatcherLaws0.
  intros [A B C E1 F G I J K L M N U] Hs. destruct (shutdown_drops (dispatcher s)) as (Hch & Hq & Hr).
  split; unfold close, entries, depth, in_flight, total_in_flight in *; simpl; rewrite ?Hch, ?Hq, ?Hr; try done.
  - simpl. lia.
  - lia.
  - rewrite fmap_app in C. by apply NoDup_app in C as (_ & _ & C).
  - intros i w Hin. apply J. set_solver.
  - by left.
  - intros i conc cap Hi. destruct (M i conc cap Hi). simpl. lia.
Qed.

Lemma step_inv s s' : inv s → step limits s s' → inv s'.
Proof using DispatcherLaws0.
  intros Hs [key l now jitter w ? Hw Hl <-|w d Hd|w u1 u2 Hu|w now b ? Hg|w ? Hg|w now ? Hp|w Hw Hu|now|i o1 o2 Ho| |Hsd].
  - by apply decide_inv.
  - by apply dequeue_inv.
  - by apply grant_inv.
  - unfold take_grant in Hg. destruct (requests s !! w) as [[k []]|] eqn:Hw; try done.
    destruct (clients s !! k); simplify_eq; eapply phase_inv; eauto.
  - unfold withdraw in Hg. destruct (requests s !! w) as [[k []]|] eqn:Hw; simplify_eq; eapply phase_inv; eauto.
  - by eapply permit_inv.
  - by apply finish_inv.
  - by apply cleanup_inv.
  - by apply orphan_inv.
  - destruct Hs as [A B C E1 F G I J K L M N U]. split; try done. by left.
  - by apply close_inv.
Qed.

Lemma initial_inv d : children d = ∅ → queued d = [] → running d = [] →
  0 ≤ max_pending limits → 0 ≤ max_work_in_flight limits → inv (start_engine limits d).
Proof using DispatcherLaws0.
  intros Hch Hq Hr Hp Hw.
  split; unfold start_engine, entries, depth, in_flight, total_in_flight; simpl; rewrite ?Hch, ?Hq, ?Hr; simpl; try done;
    solve [constructor | split; [constructor|set_solver] | set_solver].
Qed.

Definition timeouts (s : Engine) : Prop := ∀ k c, clients s !! k = Some c → client_limits_ok (cs_limits c).

Lemma client_timeouts key l now s c s' : client_limits_ok l → client key l now s = Some (c, s') →
  timeouts s → timeouts s'.
Proof using Type.
  intros Hl. unfold client. destruct (clients s !! key) eqn:Hk; [by intros [= <- <-]|].
  destruct (add_child _ _ _) as [[i d]|]; [|done]. simpl. intros [= <- <-] Hs k c'. simpl.
  intros [[<- <-]|[_ Hk']]%lookup_insert_Some; [done|by eapply Hs].
Qed.

Lemma client_lookup key l now s c s' : client key l now s = Some (c, s') → clients s' !! key = Some c.
Proof using Type.
  unfold client. destruct (clients s !! key) eqn:Hk; [by intros [= <- <-]|].
  destruct (add_child _ _ _) as [[i d]|]; [|done]. simpl. intros [= <- <-]. apply lookup_insert_eq.
Qed.

Lemma step_timeouts s s' : step limits s s' → timeouts s → timeouts s'.
Proof using Type.
  intros [key l now jitter w ? Hw Hl <-|w d Hd|w u1 u2 Hu|w now b ? Hg|w ? Hg|w now ? Hp|w Hw Hu|now|i o1 o2 Ho| |Hsd] Hs; try done.
  - unfold decide_admission. do 2 (case_match; [done|]). destruct (client key l now s) as [[c s1]|] eqn:Hc; [|done].
    pose proof (client_timeouts _ _ _ _ _ _ Hl Hc Hs) as Hs1. do 3 (case_match; [done|]).
    destruct (try_push _ _ _) as [[] d]; try done. intros k c'. simpl.
    intros [[<- <-]|[_ Hk']]%lookup_insert_Some; [|by eapply Hs1]. simpl. eapply Hs1. by eapply client_lookup.
  - unfold dispatch_grant. by repeat case_match.
  - unfold take_grant in Hg. by repeat case_match; simplify_eq.
  - unfold withdraw in Hg. by repeat case_match; simplify_eq.
  - unfold drop_permit in Hp. repeat case_match; simplify_eq. intros k c. simpl.
    intros Hk. apply lookup_alter_Some in Hk as [(-> & c0 & Hk & ->)|[_ Hk]]; by eapply Hs in Hk.
  - intros k c. simpl. intros [Hk _]%map_lookup_filter_Some. by eapply Hs.
Qed.

(** The states an engine can reach from its start *)
Definition reachable (s : Engine) : Prop :=
  ∃ d, children d = ∅ ∧ queued d = [] ∧ running d = [] ∧ rtc (step limits) (start_engine limits d) s.

Lemma engine_reachable_inv s : 0 ≤ max_pending limits → 0 ≤ max_work_in_flight limits → reachable s → inv s ∧ timeouts s.
Proof using DispatcherLaws0.
  intros Hp Hw (d & H1 & H2 & H3 & Hsteps).
  assert (H0 : inv (start_engine limits d) ∧ timeouts (start_engine limits d)) by by split; [apply initial_inv|].
  revert H0. clear H1 H2 H3. induction Hsteps as [|x y z Hxy _ IH]; [done|]. intros [Hi Ht].
  apply IH. split; [by eapply step_inv|by eapply step_timeouts].
Qed.

(** The handlers that execute, of all clients and of one *)
Definition is_executing (r : Request) : bool := match phase r with Executing _ => true | _ => false end.
Definition executing (s : Engine) : gmap nat Request := filter (λ wr, is_executing wr.2 = true) (requests s).
Definition executing_of (k : ClientKey) (s : Engine) : gmap nat Request :=
  filter (λ wr, is_executing wr.2 = true ∧ client_key wr.2 = k) (requests s).

Lemma size_le_elements (m : gmap nat Request) (l : list (nat * nat)) : NoDup l.*2 →
  (∀ w r, m !! w = Some r → ∃ i, (i, w) ∈ l) → (size m ≤ length l)%nat.
Proof.
  intros Hnd Hin. rewrite <- size_dom, <- (length_fmap snd l). unfold size, set_size. simpl.
  apply submseteq_length, NoDup_submseteq; [apply NoDup_elements|]. intros w Hw.
  apply elem_of_elements, elem_of_dom in Hw as [r Hr]. destruct (Hin w r Hr) as [i Hi].
  apply list_elem_of_fmap. by exists (i, w).
Qed.

Lemma running_of_executing w k t s : inv s → requests s !! w = Some (mk_request k (Executing t)) →
  ∃ c, clients s !! k = Some c ∧ (child_id c, w) ∈ running (dispatcher s).
Proof using DispatcherLaws0.
  intros Hs Hw. destruct (inv_active _ Hs _ _ _ Hw) as [i Hi]; [done..|].
  destruct (inv_entry _ Hs i w) as (r & c & Hr & Hc & <-); [unfold entries; set_solver|].
  rewrite Hw in Hr. simplify_eq. eauto.
Qed.

Lemma running_works s : inv s → NoDup (running (dispatcher s)).*2.
Proof using DispatcherLaws0. intros Hs. pose proof (inv_works _ Hs) as H. unfold entries in H. rewrite fmap_app in H. by apply NoDup_app in H as (_ & _ & H). Qed.

Lemma executing_total s : inv s → Z.of_nat (size (executing s)) ≤ max_work_in_flight limits.
Proof using DispatcherLaws0.
  intros Hs. pose proof (inv_total _ Hs) as Ht. unfold total_in_flight in Ht.
  assert (size (executing s) ≤ length (running (dispatcher s)))%nat; [|lia].
  apply size_le_elements; [by apply running_works|]. intros w [k p] Hw.
  apply map_lookup_filter_Some in Hw as [Hw Hp]. unfold is_executing in Hp. simpl in Hp. destruct p; try done.
  destruct (running_of_executing _ _ _ _ Hs Hw) as (c & _ & H). eauto.
Qed.

Lemma executing_client k c s : inv s → clients s !! k = Some c →
  Z.of_nat (size (executing_of k s)) ≤ cl_max_work_in_flight (cs_limits c).
Proof using DispatcherLaws0.
  intros Hs Hk. destruct (inv_queues _ Hs _ _ _ (inv_child _ Hs _ _ Hk)) as [_ Hf]. unfold in_flight in Hf.
  assert (size (executing_of k s) ≤ length (filter (λ e : nat * nat, e.1 = child_id c) (running (dispatcher s))))%nat; [|lia].
  apply size_le_elements.
  - eapply sublist_NoDup; [by apply running_works|]. refine (fmap_sublist snd _ _ _). apply sublist_filter.
  - intros w [k' p] Hw. apply map_lookup_filter_Some in Hw as [Hw [Hp Hkk]]. unfold is_executing in Hp. simpl in *.
    destruct p; try done. subst k'. destruct (running_of_executing _ _ _ _ Hs Hw) as (c' & Hc' & H).
    rewrite Hk in Hc'. simplify_eq. exists (child_id c'). by apply list_elem_of_filter.
Qed.

Lemma grants_find_clients w now b s s' : inv s → take_grant w now s = Some (b, s') → b = true.
Proof using DispatcherLaws0.
  intros Hs. unfold take_grant. destruct (requests s !! w) as [[k []]|] eqn:Hw; try done.
  destruct (inv_active _ Hs _ _ _ Hw) as [i Hi]; [done..|].
  destruct (inv_entry _ Hs i w) as (r & c & Hr & Hc & _); [unfold entries; set_solver|].
  rewrite Hw in Hr. simplify_eq. simpl in Hc. rewrite Hc. by intros [= <- _].
Qed.

(** C5: For the limits that [AdmissionLimits::new] accepts, in every state that any
    interleaving of requests, grants, timeouts, finished handlers, cleanup and shutdown
    reaches: the counter of pending requests is exactly the number of entries whose bridge
    has not run and at most the global limit; at most [max_work_in_flight] handlers
    execute; the queue of a client and its executing handlers stay within that client's
    limits; a waiting request still has its entry unless the API shuts down; and a request
    that takes its grant always finds its client, though idle clients are removed
    concurrently. *)
Theorem admission_bounds max_permits work pend cwork cpend timeout idle_timeout s :
  0 ≤ work → 0 ≤ pend →
  limits_new max_permits work pend cwork cpend timeout idle_timeout = Ok limits →
  reachable s →
  pending_count s = Z.of_nat (length (queued (dispatcher s)) + length (unstarted s)) ∧ pending_count s ≤ pend ∧
  Z.of_nat (size (executing s)) ≤ work ∧
  (∀ k c, clients s !! k = Some c →
    depth (child_id c) (dispatcher s) ≤ cl_max_pending (cs_limits c) ∧
    Z.of_nat (size (executing_of k s)) ≤ cl_max_work_in_flight (cs_limits c)) ∧
  (∀ w k, requests s !! w = Some (mk_request k Waiting) →
    shutdown s = true ∨ w ∈ unstarted s ∨ ∃ i, (i, w) ∈ queued (dispatcher s)) ∧
  (∀ w now b s', take_grant w now s = Some (b, s') → b = true).
Proof using DispatcherLaws0.
  intros Hw Hp Hl Hr. destruct (limits_new_fields _ _ _ _ _ _ _ _ Hl) as [Ew Ep].
  destruct (engine_reachable_inv s) as [Hs _]; [lia..|done|].
  split; [by apply inv_pending|]. split; [rewrite <- Ep; by apply inv_bound|].
  split; [rewrite <- Ew; by apply executing_total|]. split.
  - intros k c Hk. split; [|by apply executing_client].
    by destruct (inv_queues _ Hs _ _ _ (inv_child _ Hs _ _ Hk)).
  - split; [by apply inv_waiting|by intros; eapply grants_find_clients].
Qed.

(** What each reason of a rejection says about the state [s] before and [s'] after the
    decision *)
Definition truthful (key : ClientKey) (s s' : Engine) (reason : RejectionReason) : Prop :=
  match reason with
  | ShuttingDown => shutdown s = true
  | QueueFull Global => pending_count s = max_pending limits
  | QueueFull Client => ∃ c, clients s' !! key = Some c ∧
      depth (child_id c) (dispatcher s') = cl_max_pending (cs_limits c)
  | EstimatedQueueDelay Client => ∃ c, clients s' !! key = Some c ∧
      cl_max_work_in_flight (cs_limits c) ≤ in_flight (child_id c) (dispatcher s') + depth (child_id c) (dispatcher s') ∧
      pending_timeout (cs_limits c) < estimated_wait (client_pressure c (dispatcher s'))
  | EstimatedQueueDelay Global => ∃ c, clients s' !! key = Some c ∧
      max_work_in_flight limits ≤ total_in_flight (dispatcher s) + pending_count s ∧
      pending_timeout (cs_limits c) < estimated_wait (global_pressure limits s)
  | ControllerUnavailable => True
  | QueueTimeout => False
  end.

Lemma client_keeps key l now s c s' : client key l now s = Some (c, s') →
  queued (dispatcher s') = queued (dispatcher s) ∧ running (dispatcher s') = running (dispatcher s) ∧
  global_execution_ewma s' = global_execution_ewma s.
Proof using DispatcherLaws0.
  unfold client. destruct (clients s !! key); [by intros [= <- <-]|].
  destruct (add_child _ _ _) as [[i d]|] eqn:E; [|done]. simpl. intros [= <- <-].
  by destruct (add_child_fresh _ _ _ _ _ E) as (_ & _ & Hq & Hr).
Qed.

(** C22: A request of a client with valid limits that the engine, in a state it can reach,
    turns away is turned away for the reason it names, and leaves no trace in the queues:
    the queued and running entries, the pending counter and the requests are as before;
    "queue full" means exactly full, globally or for this client; an estimated delay is
    claimed only when the requests of that scope, running and waiting, are no fewer than its
    execution slots, so that the request would have to wait for one, and the estimate
    exceeds the timeout of the client; "shutting down" is claimed only during shutdown, and
    a timeout in the queue never; and the advised delay is between 1 and 30 seconds. *)
Theorem admission_rejection_exact s key l now jitter w rej s' :
  0 ≤ max_pending limits → 0 ≤ max_work_in_flight limits → reachable s → client_limits_ok l →
  decide_admission limits key l now jitter w s = (Some rej, s') →
  truthful key s s' (rej_reason rej) ∧ 1 ≤ delay_seconds (rej_retry rej) ≤ 30 ∧
  queued (dispatcher s') = queued (dispatcher s) ∧ running (dispatcher s') = running (dispatcher s) ∧
  pending_count s' = pending_count s ∧ requests s' = requests s.
Proof using DispatcherLaws0.
  intros Hmp Hmw Hr Hl. destruct (engine_reachable_inv s Hmp Hmw Hr) as [Hs Ht]. unfold decide_admission.
  destruct (shutdown s) eqn:Hsd; [intros [= <- <-]; by split; [|split; [apply retry_advice_range|]]|].
  destruct (Z.leb_spec (max_pending limits) (pending_count s)).
  { intros [= <- <-]. split; [|split; [apply retry_advice_range|done]]. simpl. pose proof (inv_bound _ Hs). lia. }
  destruct (client key l now s) as [[c s1]|] eqn:Hc; [|intros [= <- <-]; by split; [|split; [apply retry_advice_range|]]].
  destruct (client_inv _ _ _ _ _ _ Hl Hs Hc) as (Hs1 & Hk & Hrq & Hpc & _).
  destruct (client_keeps _ _ _ _ _ _ Hc) as (Hq & Hrun & Hew).
  destruct (client_timeouts _ _ _ _ _ _ Hl Hc Ht _ _ Hk) as (_ & _ & Hto).
  pose proof (inv_child _ Hs1 _ _ Hk) as Hch. destruct (inv_queues _ Hs1 _ _ _ Hch) as [Hcap _].
  assert (0 ≤ in_flight (child_id c) (dispatcher s1) ∧ 0 ≤ depth (child_id c) (dispatcher s1)) as [Hf0 Hd0]
    by (unfold in_flight, depth; lia).
  simpl. destruct (Z.leb_spec (cl_max_pending (cs_limits c)) (depth (child_id c) (dispatcher s1))).
  { intros [= <- <-]. split; [|split; [apply retry_advice_range|done]]. simpl. exists c. split; [done|lia]. }
  destruct (Z.ltb_spec (pending_timeout (cs_limits c)) (estimated_wait (client_pressure c (dispatcher s1)))) as [Hest|_].
  { intros [= <- <-]. split; [|split; [apply retry_advice_range|done]]. simpl. exists c. split; [done|]. split; [|done].
    by apply estimated_wait_busy in Hest. }
  assert (Hgp : global_pressure limits s1 = global_pressure limits s).
  { unfold global_pressure, total_in_flight. by rewrite Hrun, Hpc, Hew. }
  destruct (Z.ltb_spec (pending_timeout (cs_limits c)) (estimated_wait (global_pressure limits s1))) as [Hest|_].
  { intros [= <- <-]. split; [|split; [apply retry_advice_range|done]]. simpl. exists c. rewrite Hgp in Hest.
    split; [done|]. split; [|done]. apply estimated_wait_busy in Hest; simpl in *; [done|done|unfold total_in_flight; lia|].
    rewrite (inv_pending _ Hs). lia. }
  destruct (try_push (child_id c) w (dispatcher s1)) as [o d] eqn:Hpush. destruct o; [done| |]; intros [= <- <-];
    destruct (push_refused _ _ _ _ _ Hpush ltac:(done)) as (_ & Hq' & Hr'); simpl;
    (split; [|split; [apply retry_advice_range|rewrite Hq', Hr'; done]]); [|done].
  exists c. split; [done|]. pose proof (push_rejected _ _ _ _ _ _ Hpush Hch). unfold depth in *. rewrite Hq'. lia.
Qed.

End Reachable.

(** ** A dispatcher *)

(** Lists of entries with two execution slots in total: the behaviour the engine relies
    on. *)
Record ListDispatcher := mk_list_dispatcher {
  ld_children : gmap nat (Z * Z);
  ld_queued : list (nat * nat);
  ld_running : list (nat * nat);
  ld_closed : bool;
}.

Fixpoint split_entry (w : nat) (q : list (nat * nat)) : option (list (nat * nat) * nat * list (nat * nat)) :=
  match q with
  | [] => None
  | (i, w') :: q =>
      if decide (w = w') then Some ([], i, q)
      else '(q1, j, q2) ← split_entry w q; Some ((i, w') :: q1, j, q2)
  end.

Lemma split_entry_spec w q q1 i q2 : split_entry w q = Some (q1, i, q2) → q = q1 ++ (i, w) :: q2.
Proof.
  revert q1. induction q as [|[j w'] q IH]; intros q1; simpl; [done|]. case_decide; [by intros [= <- <- <-]; subst|].
  destruct (split_entry w q) as [[[q1' j'] q2']|]; [|done]. simpl. intros [= <- <- <-]. by rewrite (IH _ eq_refl).
Qed.

Definition ld_slots : Z := 2.
Definition ld_count (i : nat) (l : list (nat * nat)) : Z := Z.of_nat (length (filter (λ e, e.1 = i) l)).

#[export] Instance list_dispatcher : Dispatcher ListDispatcher := {|
  children := ld_children;
  queued := ld_queued;
  running := ld_running;
  add_child conc cap d :=
    let i := fresh (dom (ld_children d)) in
    if ld_closed d then None
    else Some (i, mk_list_dispatcher (<[i := (conc, cap)]> (ld_children d)) (ld_queued d) (ld_running d) false);
  remove_child i d :=
    mk_list_dispatcher (delete i (ld_children d)) (filter (λ e, e.1 ≠ i) (ld_queued d)) (ld_running d) (ld_closed d);
  try_push i w d :=
    match ld_children d !! i with
    | Some (_, cap) =>
        if ld_closed d then (Closed, d)
        else if ld_count i (ld_queued d) <? cap
        then (Accepted, mk_list_dispatcher (ld_children d) (ld_queued d ++ [(i, w)]) (ld_running d) false)
        else (Rejected, d)
    | None => (Closed, d)
    end;
  start w d :=
    '(q1, i, q2) ← split_entry w (ld_queued d);
    '(conc, _) ← ld_children d !! i;
    if bool_decide (Forall (λ e, e.1 ≠ i) q1) && (ld_count i (ld_running d) <? conc) &&
       (Z.of_nat (length (ld_running d)) <? ld_slots)
    then Some (mk_list_dispatcher (ld_children d) (q1 ++ q2) ((i, w) :: ld_running d) (ld_closed d))
    else None;
  finish w d := mk_list_dispatcher (ld_children d) (ld_queued d) (filter (λ e, e.2 ≠ w) (ld_running d)) (ld_closed d);
  graceful_shutdown d := mk_list_dispatcher (ld_children d) [] (ld_running d) true;
|}.

#[export] Instance list_dispatcher_laws : DispatcherLaws ListDispatcher ld_slots.
Proof.
  split.
  - intros conc cap d i d'. simpl. destruct (ld_closed d); [done|]. intros [= <- <-]. split; [|done].
    apply not_elem_of_dom, is_fresh.
  - done.
  - intros i w d d'. simpl. destruct (ld_children d !! i) as [[conc cap]|]; [|done]. destruct (ld_closed d); [done|].
    destruct (Z.ltb_spec (ld_count i (ld_queued d)) cap); [|done]. intros [= <-]. by exists conc, cap.
  - intros i w d d' conc cap. simpl. intros H1 H2. rewrite H2 in H1. destruct (ld_closed d); [done|].
    by destruct (Z.ltb_spec (ld_count i (ld_queued d)) cap).
  - intros i w d o d'. simpl. unfold same_view. repeat case_match; by intros [= <- <-].
  - intros w d d'. simpl. destruct (split_entry w _) as [[[q1 i] q2]|] eqn:E; [|done]. simpl.
    destruct (ld_children d !! i) as [[conc cap]|] eqn:Ei; [|done]. simpl. case_match eqn:Hb; [|done].
    apply andb_true_iff in Hb as [[Hf Hc]%andb_true_iff Ht]. apply bool_decide_eq_true in Hf. intros [= <-].
    exists i, q1, q2, conc, cap. rewrite (split_entry_spec _ _ _ _ _ E). rewrite Forall_forall in Hf.
    split; [done|]. split; [done|]. split; [done|]. split; [by apply Z.ltb_lt|]. by split; [apply Z.ltb_lt|].
  - done.
  - done.
Qed.

(** Two slots, three pending requests; one slot and two pending requests for each client *)
Definition demo_client : ClientLimits := mk_client_limits 1 2 (4 * NANOS_PER_SEC).
Definition demo_limits : AdmissionLimits := mk_limits 2 3 demo_client (60 * NANOS_PER_SEC).
Definition demo_start : Engine := start_engine demo_limits (mk_list_dispatcher ∅ [] [] false).
Definition demo_acquire (name : string) (w : nat) (s : Engine) : option AdmissionRejection * Engine :=
  decide_admission demo_limits (ServiceId name) demo_client 0 0 w s.
Definition demo_grant (w : nat) (s : Engine (D := ListDispatcher)) : Engine :=
  match start w (dispatcher s) with
  | Some d => let s := dispatch_grant w [] (dequeue w d s) in match take_grant w 5 s with Some (_, s) => s | None => s end
  | None => s
  end.
(** Client [a] executes request 0 and has 1 and 2 queued; the third is turned away. *)
Definition demo_busy : Engine :=
  (demo_acquire "a" 2 (demo_acquire "a" 1 (demo_grant 0 (demo_acquire "a" 0 demo_start).2)).2).2.

Lemma demo_client_ok : client_limits_ok demo_client.
Proof. by vm_compute. Qed.

Lemma demo_acquire_step name w s : requests s !! w = None → rtc (step demo_limits) s (demo_acquire name w s).2.
Proof. intros Hw. apply rtc_once. eapply step_acquire; [done|apply demo_client_ok|done]. Qed.

Lemma demo_grant_step w s : unstarted s = [] → rtc (step demo_limits) s (demo_grant w s).
Proof.
  intros Hu. unfold demo_grant. destruct (start w (dispatcher s)) as [d|] eqn:E; [|done].
  eapply rtc_l; [by apply step_start|]. eapply rtc_l; [apply (step_bridge _ _ w [] []); simpl; by rewrite Hu|]. simpl. destruct (take_grant w 5 _) as [[b s']|] eqn:E'; [|done].
  apply rtc_once. by eapply step_grant.
Qed.

Lemma demo_reachable : reachable demo_limits demo_busy.
Proof.
  exists (mk_list_dispatcher ∅ [] [] false). do 3 (split; [done|]). unfold demo_busy.
  do 2 (etrans; [|apply demo_acquire_step; vm_compute; reflexivity]).
  etrans; [|by apply demo_grant_step]. apply demo_acquire_step. reflexivity.
Qed.

Lemma admission_bounds_witness :
  let s := demo_busy in
  (size (requests s) = 3%nat ∧ size (executing s) = 1%nat ∧ pending_count s = 2) ∧
  pending_count s ≤ 3 ∧ Z.of_nat (size (executing s)) ≤ 2.
Proof.
  intros s. split; [by vm_compute|].
  destruct (admission_bounds demo_limits 1000 2 3 1 2 (4 * NANOS_PER_SEC) (60 * NANOS_PER_SEC) s) as (_ & H1 & H2 & _);
    [lia|lia|vm_compute; reflexivity|apply demo_reachable|exact (conj H1 H2)].
Defined.

Lemma admission_rejection_exact_witness :
  let r := decide_admission demo_limits (ServiceId "a") demo_client 0 0 3 demo_busy in
  ∃ rej, r.1 = Some rej ∧ rej_reason rej = QueueFull Client ∧ 1 ≤ delay_seconds (rej_retry rej) ≤ 30 ∧
    pending_count r.2 = pending_count demo_busy.
Proof.
  assert (Ho : rej_reason <$> (decide_admission demo_limits (ServiceId "a") demo_client 0 0 3 demo_busy).1 =
    Some (QueueFull Client)) by (vm_compute; reflexivity).
  destruct (decide_admission demo_limits (ServiceId "a") demo_client 0 0 3 demo_busy) as [[rej|] s'] eqn:E; [|discriminate Ho].
  destruct (admission_rejection_exact demo_limits demo_busy (ServiceId "a") demo_client 0 0 3 rej s')
    as (_ & Hd & _ & _ & Hp & _); [vm_compute; discriminate|vm_compute; discriminate|apply demo_reachable|apply demo_client_ok|exact E|].
  exists rej. split; [reflexivity|]. injection Ho as Ho. exact (conj Ho (conj Hd Hp)).
Defined.
