(* ===== verification/NvosRotation.v ===== *)
(** * The rotation of switch passwords

    [switch-controller/src/nvos_password_rotation.rs] with what it uses of [configuring.rs]
    and [endpoint.rs]: a run that brings the password of one switch closer to the target of
    the site.  The work itself is done by a backend ([NvSwitchManager] of
    [component-manager/src/nv_switch_manager.rs]), which is a class.  A transaction is one
    call.  Log texts are left out; in [SwitchEndpoint] an address is a string. *)

From S2P Require Import Prelude StateHandler Credentials RotationWorld CredentialRotation Calls HandlerRuns.

(** ** The backend *)

(** [SwitchEndpoint] *)
Record SwitchEndpoint := mk_switch_endpoint {
  ep_bmc_ip : string;
  ep_bmc_mac : string;
  ep_nvos_ip : string;
  ep_nvos_mac : string;
  ep_bmc_credentials : Credentials;
  nvos_credentials : Credentials;
  nvos_host_name : option string;
}.

(** [SwitchPasswordRotationState] *)
Inductive SwitchPasswordRotationState := JobNotFound | JobUnknown | JobPending | JobCompleted | JobFailed.
#[export] Instance rotation_state_eq_dec : EqDecision SwitchPasswordRotationState.
Proof. solve_decision. Defined.

(** [ComponentManagerError] and its texts; the errors of gRPC are strings. *)
Inductive ComponentManagerError :=
| Unavailable (e : string)
| CmNotFound (e : string)
| CmInvalidArgument (e : string)
| Unsupported (e : string)
| RejectedBeforeDispatch (e : string)
| OperationOutcomeUnknown (e : string)
| CmInternal (e : string)
| Transport (e : string)
| Status (e : string)
| Rms (e : string).

Definition component_manager_text (e : ComponentManagerError) : string :=
  match e with
  | Unavailable e => "backend unavailable: " +:+ e
  | CmNotFound e => "not found: " +:+ e
  | CmInvalidArgument e => "invalid argument: " +:+ e
  | Unsupported e => "unsupported operation: " +:+ e
  | RejectedBeforeDispatch e => "operation rejected before dispatch: " +:+ e
  | OperationOutcomeUnknown e => "operation outcome unknown: " +:+ e
  | CmInternal e => "internal error: " +:+ e
  | Transport e => "gRPC transport error: " +:+ e
  | Status e => "gRPC status error: " +:+ e
  | Rms e => "RMS error: " +:+ e
  end.

(** The operations of [NvSwitchManager] on passwords *)
Class NvSwitchManager := mk_manager {
  supports_password_rotation : bool;
  ensure_password_rotation : SwitchEndpoint → string → World → result ComponentManagerError string * World;
  get_password_rotation_job_status : string → World → result ComponentManagerError SwitchPasswordRotationState;
}.

(** What the other operations answer *)

(** [SwitchComponentResult], [PowerShelfComponentResult] and [ComputeTrayResult], by address *)
Record ComponentResult := mk_component_result {
  cr_key : string;
  cr_success : bool;
  cr_error : option string;
}.

(** [SwitchSlotAndTrayResult] *)
Record SlotAndTrayResult := mk_slot_result {
  st_key : string;
  st_slot_number : option Z;
  st_tray_index : option Z;
  st_error : option string;
}.

(** [ConfigureSwitchCertificateState] *)
Inductive ConfigureSwitchCertificateState := CertificateStarted | CertificateInProgress | CertificateCompleted | CertificateFailed.

(** ** Results *)

(** [NvosPasswordRotationOutcome] *)
Inductive NvosPasswordRotationOutcome :=
| UpToDate
| Waiting (why : string)
| CredentialError (cause : string).

(** [NvosAdminCredentialStatus] *)
Inductive NvosAdminCredentialStatus :=
| Available
| Skip
| CredentialStatusError (cause : string).

(** [RotationInputs] *)
Record RotationInputs := mk_inputs {
  endpoint : SwitchEndpoint;
  target_credentials : Credentials;
}.

(** [expected_nvos_credential_pair] *)
Definition expected_nvos_credential_pair (username password : option string)
    : result string (option (string * string)) :=
  match username, password with
  | None, None => Ok None
  | Some u, Some p =>
      if decide (u = EmptyString) then Err "Expected switch nvos_username must not be empty"%string
      else if decide (p = EmptyString) then Err "Expected switch nvos_password must not be empty"%string
      else Ok (Some (u, p))
  | _, _ => Err "Expected switch nvos_username and nvos_password must be set together"%string
  end.

(** ** Calls *)

Definition acquire : handler () := read TransactionError (λ _ _, Ok ()).

Definition query {A} (f : rotation_db → A) : handler A := read DBError (λ _ w, Ok (f (rot w))).

(** A transaction of one statement *)
Definition transaction {A} (f : Z → rotation_db → result DatabaseError (A * rotation_db)) : handler A :=
  call TransactionError (λ now w, match f now (rot w) with
                                  | Ok (a, r) => (Ok a, set_rot r w)
                                  | Err e => (Err (DBError (database_text e)), w)
                                  end).

Definition generic {A} (text : string → string) (m : prog World string A) : handler A :=
  convert (λ e, GenericError (text e)) m.

Section Switch.
Context (component_manager : option NvSwitchManager) (id : string).

Definition of_switch (text : string) : string := "switch " +:+ id +:+ ": " +:+ text.

(** [read_nvos_site_credentials] *)
Definition read_nvos_site_credentials (version : Z) : handler (option Credentials) :=
  if version <? 0 then
    lift (Err (GenericError (of_switch ("invalid NVOS credential version " +:+ print_i version))))
  else
    generic (λ e, of_switch ("failed to read NVOS credential version " +:+ print_u version +:+ ": " +:+ e))
      (get_credentials_from_writer (SwitchNvosSiteAdmin version)).

(** ** Endpoints *)

(** [fetch_switch_nvos_credentials] *)
Definition fetch_switch_nvos_credentials (mac : string) : handler Credentials :=
  c ← generic (λ e, "failed to read NVOS admin credentials for BMC MAC " +:+ mac +:+ ": " +:+ e)
        (get_credentials (SwitchNvosAdmin mac));
  lift (ok_or c (GenericError ("no NVOS admin credentials configured for BMC MAC " +:+ mac))).

(** [switch_endpoint_from_row] *)
Definition switch_endpoint_from_row (row : SwitchEndpointRow) (c : Credentials)
    : result StateHandlerError SwitchEndpoint :=
  match er_nvos_mac row, er_nvos_ip row with
  | Some nvos_mac, Some nvos_ip =>
      Ok (mk_switch_endpoint (er_bmc_ip row) (er_bmc_mac row) nvos_ip nvos_mac c c
            (h ← er_nvos_hostname row; if decide (h = EmptyString) then None else Some h))
  | _, _ => Err (GenericError (of_switch "missing NVOS MAC or IP required for component manager operations"))
  end.

(** [resolve_switch_endpoint] *)
Definition resolve_switch_endpoint : handler SwitchEndpoint :=
  rows ← read DBError (λ _ w, Ok (endpoint_rows (fabric w) !! id));
  row ← lift (ok_or rows (GenericError (of_switch "no endpoint row found in database")));
  c ← fetch_switch_nvos_credentials (er_bmc_mac row);
  lift (switch_endpoint_from_row row c).

(** [rotation_inputs] *)
Definition rotation_inputs (target_version : Z) : handler RotationInputs :=
  e ← convert (λ e, GenericError (of_switch ("could not resolve switch endpoint: " +:+ error_string e)))
        resolve_switch_endpoint;
  target ← read_nvos_site_credentials target_version;
  target ← lift (ok_or target (GenericError (of_switch ("missing NVOS target version " +:+ print_i target_version))));
  let name := username (nvos_credentials e) in
  if bool_decide (name = EmptyString) || bool_decide (password target = EmptyString) then
    lift (Err (GenericError (of_switch "NVOS rotation requires a non-empty username and target password")))
  else mret (mk_inputs e (UsernamePassword name (password target))).

(** ** Credentials of the switch *)

(** [persist_nvos_admin_credentials] *)
Definition persist_nvos_admin_credentials (mac : string) (c : Credentials) : handler () :=
  let key := SwitchNvosAdmin mac in
  _ ← generic (λ e, of_switch ("failed to persist NVOS credentials: " +:+ e)) (set_credentials key c);
  persisted ← generic (λ e, of_switch ("failed to read back NVOS credentials: " +:+ e)) (get_credentials_from_writer key);
  if decide (persisted ≠ Some c) then
    lift (Err (GenericError (of_switch "NVOS credential writer readback did not match")))
  else
    effective ← generic (λ e, of_switch ("failed to read effective NVOS credentials: " +:+ e)) (get_credentials key);
    if decide (effective ≠ Some c) then
      lift (Err (GenericError (of_switch "NVOS credential is shadowed in the effective read chain")))
    else mret ().

(** A valid credential of the store *)
Definition usable_password (existing : option Credentials) : option string :=
  c ← existing;
  if bool_decide (username c = EmptyString) || bool_decide (password c = EmptyString) then None else Some (password c).

(** The existing password is the one of the version that is staged. *)
Definition holds_staged (existing : option Credentials) (staged_version : Z) : handler bool :=
  match usable_password existing with
  | None => mret false
  | Some p =>
      staged ← read_nvos_site_credentials staged_version;
      mret (match staged with Some s => bool_decide (p = password s) | None => false end)
  end.

(** The part of [ensure_nvos_admin_credentials] that finds the credential to restore; it
    is stored when it says so. *)
Definition restored_credentials (existing : option Credentials) (current_version : option Z)
    (expected : option (string * string)) : handler (NvosAdminCredentialStatus + Credentials) :=
  match current_version with
  | Some v =>
      versioned ← read_nvos_site_credentials v;
      versioned ← lift (ok_or versioned (GenericError (of_switch
        ("confirmed NVOS credential version " +:+ print_i v +:+ " is missing"))));
      if decide (password versioned = EmptyString) then
        mret (inl (CredentialStatusError ("Confirmed NVOS credential version " +:+ print_i v +:+ " has an empty password")))
      else
        let established := c ← existing; if decide (username c = EmptyString) then None else Some (username c) in
        match established, expected with
        | Some u, _ | None, Some (u, _) => mret (inr (UsernamePassword u (password versioned)))
        | None, None => mret (inl (CredentialStatusError
            ("Cannot restore confirmed NVOS credential version " +:+ print_i v +:+ " without an expected-switch username")))
        end
  | None =>
      match expected, existing with
      | Some (u, p), _ => mret (inr (UsernamePassword u p))
      | None, Some c => mret (inr c)
      | None, None => mret (inl Skip)
      end
  end.

(** [ensure_nvos_admin_credentials] *)
Definition ensure_nvos_admin_credentials (mac : string) : handler NvosAdminCredentialStatus :=
  existing ← generic (λ e, of_switch ("failed to read NVOS credentials from credential store: " +:+ e))
               (get_credentials (SwitchNvosAdmin mac));
  '(expected_switch, operation) ← query (λ db, (expected_switches db !! mac, devices db !! (mac, Nvos)));
  let staged := d ← operation; v ← rotating_to_version d; Some (d, v) in
  kept ← match staged with
         | None => mret None
         | Some (d, v) =>
             if decide (current_version d = None) then
               mret (Some (match usable_password existing with
                           | Some _ => Available
                           | None => CredentialStatusError "Staged NVOS rotation has no valid current per-switch credential"
                           end))
             else
               same ← holds_staged existing v;
               mret (if same : bool then Some Available else None)
         end;
  match kept with
  | Some status => mret status
  | None =>
      match expected_switch with
      | None => mret (CredentialStatusError ("No expected switch found for BMC MAC " +:+ mac))
      | Some es =>
          match expected_nvos_credential_pair (nvos_username es) (nvos_password es) with
          | Err e => mret (CredentialStatusError e)
          | Ok expected =>
              r ← restored_credentials existing (operation ≫= current_version) expected;
              match r with
              | inl status => mret status
              | inr c => _ ← persist_nvos_admin_credentials mac c; mret Available
              end
          end
      end
  end.

(** ** One attempt *)

(** [complete_staged_rotation] *)
Definition complete_staged_rotation (mac : string) (target_version expected_attempt : Z) (expected_job_id : string)
    : handler NvosPasswordRotationOutcome :=
  inputs ← rotation_inputs target_version;
  _ ← persist_nvos_admin_credentials mac (target_credentials inputs);
  succeeded ← transaction (λ _, record_device_rotation_succeeded mac Nvos target_version expected_attempt expected_job_id);
  mret (if succeeded : bool then UpToDate else Waiting "NVOS operation changed while recording backend completion").

(** [ensure_staged_rotation] *)
Definition ensure_staged_rotation (mac : string) (target_version expected_attempt : Z)
    : handler NvosPasswordRotationOutcome :=
  cm ← lift (ok_or component_manager
         (GenericError (of_switch "component manager is unavailable for NVOS password submission")));
  i ← catch (rotation_inputs target_version);
  match i with
  | Err e => mret (Waiting ("NVOS password rotation inputs are not ready: " +:+ error_string e))
  | Ok inputs =>
      r ← catch (call OperationOutcomeUnknown (λ _,
            ensure_password_rotation (NvSwitchManager := cm) (endpoint inputs) (password (target_credentials inputs))));
      match r with
      | Ok job_id =>
          recorded ← transaction (λ _, record_device_rotation_submitted mac Nvos target_version expected_attempt job_id);
          if recorded : bool then mret (Waiting ("NVOS job " +:+ job_id +:+ " was submitted"))
          else lift (Err (GenericError (of_switch "NVOS job returned after its staged attempt changed")))
      | Err (OperationOutcomeUnknown e) =>
          mret (Waiting ("NVOS submission outcome is unknown and will be retried: " +:+ e))
      | Err (RejectedBeforeDispatch e) =>
          failed ← transaction (λ _ db, Ok (record_device_rotation_failed mac Nvos target_version expected_attempt
                     "component-manager rejected the NVOS password request" db));
          if failed : bool then
            lift (Err (GenericError (of_switch ("NVOS submission is not retryable without correction: " +:+ e))))
          else mret (Waiting "NVOS operation changed while recording failure")
      | Err e => lift (Err (GenericError (of_switch ("NVOS submission could not be attempted: " +:+ component_manager_text e))))
      end
  end.

(** [retry_staged_rotation] *)
Definition retry_staged_rotation (mac : string) (target_version expected_attempt : Z) (expected_job_id : option string)
    : handler NvosPasswordRotationOutcome :=
  attempt ← transaction (λ now, record_device_rotation_retry_started now mac Nvos target_version expected_attempt expected_job_id);
  match attempt with
  | None => mret (Waiting "NVOS operation changed while retrying backend observation")
  | Some attempt => ensure_staged_rotation mac target_version attempt
  end.

(** [reconcile_staged_rotation] *)
Definition reconcile_staged_rotation (mac : string) (operation : DeviceRow) : handler NvosPasswordRotationOutcome :=
  target_version ← lift (ok_or (rotating_to_version operation)
    (GenericError (of_switch "staged NVOS operation has no target version")));
  match rotate_last_error_redacted operation, rotate_job_id operation with
  | Some error, _ => mret (Waiting error)
  | None, None => retry_staged_rotation mac target_version (rotate_attempts operation) None
  | None, Some job_id =>
      match component_manager with
      | None => mret (Waiting "component manager is unavailable while polling NVOS rotation")
      | Some cm =>
          status ← catch (read Unavailable (λ _, get_password_rotation_job_status (NvSwitchManager := cm) job_id));
          match status with
          | Err e => mret (Waiting ("NVOS job " +:+ job_id +:+ " could not be observed and remains attached: " +:+
                                      component_manager_text e))
          | Ok JobPending => mret (Waiting ("NVOS job " +:+ job_id +:+ " is still in progress"))
          | Ok JobCompleted => complete_staged_rotation mac target_version (rotate_attempts operation) job_id
          | Ok (JobFailed | JobNotFound | JobUnknown) =>
              retry_staged_rotation mac target_version (rotate_attempts operation) (Some job_id)
          end
      end
  end.

(** [stage_rotation] *)
Definition stage_rotation (mac : string) (target_version : Z) : handler NvosPasswordRotationOutcome :=
  _ ← rotation_inputs target_version;
  attempt ← transaction (λ now, record_device_rotation_started now mac Nvos target_version);
  match attempt with
  | None => mret (Waiting "NVOS rotation could not be claimed because target or device state changed")
  | Some attempt => ensure_staged_rotation mac target_version attempt
  end.

(** ** Reconciliation *)

(** [has_nvos_admin_credential] *)
Definition has_nvos_admin_credential (mac : string) (confirmed_version : option Z) : handler bool :=
  current ← generic (λ e, of_switch ("failed to read NVOS credentials for BMC MAC " +:+ mac +:+ ": " +:+ e))
              (get_credentials (SwitchNvosAdmin mac));
  match usable_password current, confirmed_version with
  | None, _ => mret false
  | Some _, None => mret true
  | Some p, Some v =>
      confirmed ← read_nvos_site_credentials v;
      mret (match confirmed with Some c => bool_decide (p = password c) | None => false end)
  end.

(** Rotation is rolled out. *)
Definition enabled : bool :=
  match component_manager with Some cm => supports_password_rotation (NvSwitchManager := cm) | None => false end.

(** The work that a row stands for, given the target *)
Definition row_needs_reconciliation (mac : string) (target_version : Z) (d : DeviceRow) : handler bool :=
  if bool_decide (is_Some (rotate_last_error_redacted d)) && bool_decide (rotate_job_id d = None) then
    if match rotating_to_version d with Some staged => staged <? target_version | None => false end then mret true
    else b ← has_nvos_admin_credential mac None; mret (negb b)
  else if bool_decide (is_Some (rotating_to_version d)) then mret true
  else match current_version d with
       | None => mret true
       | Some v =>
           if v <? target_version then mret true
           else b ← has_nvos_admin_credential mac (Some v); mret (negb b)
       end.

(** [needs_nvos_password_reconciliation] *)
Definition needs_nvos_password_reconciliation (bmc_mac_address : option string) : handler bool :=
  if negb enabled then mret false
  else match bmc_mac_address with
  | None => mret false
  | Some mac =>
      _ ← acquire;
      target ← query (current_target_version Nvos);
      match target with
      | None => mret false
      | Some target_version =>
          operation ← query (λ db, devices db !! (mac, Nvos));
          match operation with
          | Some d => row_needs_reconciliation mac target_version d
          | None =>
              b ← has_nvos_admin_credential mac None;
              if b : bool then mret true
              else
                _ ← acquire;
                expected ← query (λ db, expected_switches db !! mac);
                mret (match expected with
                      | None => false
                      | Some es => match expected_nvos_credential_pair (nvos_username es) (nvos_password es) with
                                   | Ok None => false
                                   | _ => true
                                   end
                      end)
          end
      end
  end.

(** The last part of [reconcile_nvos_password_rotation], with the credential at hand *)
Definition reconcile_operation (mac : string) (target_version : Z) (operation : option DeviceRow)
    : handler NvosPasswordRotationOutcome :=
  match operation with
  | Some d =>
      match rotating_to_version d with
      | Some staged =>
          if bool_decide (is_Some (rotate_last_error_redacted d)) && bool_decide (rotate_job_id d = None) &&
             (staged <? target_version)
          then stage_rotation mac target_version
          else reconcile_staged_rotation mac d
      | None =>
          if match current_version d with Some v => target_version <=? v | None => false end then mret UpToDate
          else stage_rotation mac target_version
      end
  | None => stage_rotation mac target_version
  end.

(** [reconcile_nvos_password_rotation] *)
Definition reconcile_nvos_password_rotation (bmc_mac_address : option string) : handler NvosPasswordRotationOutcome :=
  if negb enabled then mret UpToDate
  else
    _ ← acquire;
    target ← query (current_target_version Nvos);
    match target with
    | None => mret UpToDate
    | Some target_version =>
        match bmc_mac_address with
        | None => mret (CredentialError "No BMC MAC address on switch")
        | Some mac =>
            status ← ensure_nvos_admin_credentials mac;
            match status with
            | Skip => mret UpToDate
            | CredentialStatusError cause => mret (CredentialError cause)
            | Available =>
                _ ← acquire;
                operation ← query (λ db, devices db !! (mac, Nvos));
                reconcile_operation mac target_version operation
            end
        end
    end.

End Switch.
