(* ===== verification/RmsBackend.v ===== *)
(** * The rack manager as a backend of the component manager

    [component-manager/src/rms.rs]: switches, power shelves and compute trays are managed by
    the rack manager service (RMS).  The service is the class [RmsApi] over a state of its
    own, and the tables that are read are functions of that state; what the code of this
    repository does is to resolve identities, to build requests, and to make one result of
    every answer.  The ids of firmware jobs are kept in memory by the address of the
    device.  Addresses are strings; log texts are left out. *)

From S2P Require Import Prelude Credentials PowerShelfTable SwitchTable RmsNodeIdentity NvosRotation.

(** ** Messages *)

(** The status code of an answer, [rms::ReturnCode], with the values it does not know *)
Inductive ReturnCode := Success | Failure | UnspecifiedCode | OtherCode (code : Z).
#[export] Instance return_code_eq_dec : EqDecision ReturnCode.
Proof. solve_decision. Defined.
Definition is_success (c : ReturnCode) : bool := match c with Success => true | _ => false end.

(** [rms::JobExecutionState] and [rms::FirmwareJobState] *)
Inductive JobExecutionState :=
| ExecutionQueued | ExecutionRunning | ExecutionCompleted | ExecutionFailed | ExecutionUnspecified
| ExecutionOther (state : Z).
#[export] Instance job_execution_state_eq_dec : EqDecision JobExecutionState.
Proof. solve_decision. Defined.
Inductive FirmwareJobState := JobIsQueued | JobIsRunning | JobIsCompleted | JobIsFailed | JobIsOther (state : Z).

(** The codes of [tonic::Status] that the code tells apart *)
Inductive Code :=
| NotFoundCode | InvalidArgumentCode | UnimplementedCode | UnavailableCode | DeadlineExceededCode | CancelledCode
| ResourceExhaustedCode | AnyOtherCode.

Inductive RackManagerError :=
| ApiInvocationError (code : Code) (status : string)
| TlsError (text : string).

(** [rms::Endpoint] with its interface *)
Record Endpoint := mk_endpoint {
  ip_address : string;
  mac_address : string;
  host_name : option string;
  port : Z;
  endpoint_credentials : Credentials;
}.

(** [rms::NodeInfo] *)
Record NodeInfo := mk_node {
  node_id : string;
  rack_id : string;
  node_type : option NodeType;
  bmc_endpoint : option Endpoint;
  host_endpoint : option Endpoint;
  descriptor : option (gmap string string);
}.

(** [rms::NodeBatchResponse] *)
Record NodeResult := mk_node_result {
  nr_node_id : string;
  nr_status : ReturnCode;
  nr_error : string;
}.
Record NodeBatchResponse := mk_batch {
  batch_status : ReturnCode;
  failed_nodes : option Z;
  node_results : list NodeResult;
  batch_message : string;
  batch_job_id : string;
}.
Definition no_batch : NodeBatchResponse := mk_batch UnspecifiedCode None [] EmptyString EmptyString.

(** Answers that start jobs: the batch, and the jobs of nodes *)
Record ApplyResponse := mk_apply {
  response : option NodeBatchResponse;
  jobs : list (string * string);
}.

(** [rms::ApplyFirmwareObjectRequest]; [rms::ApplySwitchSystemImageRequest] is the same
    without the last three fields. *)
Record ApplyFirmwareObjectRequest := mk_apply_request {
  rq_rack_id : string;
  rq_config_json : string;
  rq_access_token : option string;
  rq_type : string;
  rq_hardware_type : string;
  rq_nodes : list NodeInfo;
  rq_force_update : bool;
  rq_component_filters : list (NodeType * list string);
  rq_descriptor_filters : list (gmap string string * list string);
}.
Record ApplySwitchSystemImageRequest := mk_image_request {
  im_rack_id : string;
  im_config_json : string;
  im_access_token : option string;
  im_software_type : string;
  im_hardware_type : string;
  im_nodes : list NodeInfo;
}.

(** The answer to a query for a job *)
Record JobAnswer (State : Type) := mk_answer {
  ja_status : ReturnCode;
  ja_state : State;
  ja_error_message : string;
  ja_message : string;
}.
Arguments mk_answer {State}.
Arguments ja_status {State}.
Arguments ja_state {State}.
Arguments ja_error_message {State}.
Arguments ja_message {State}.

(** [rms::JobStatus] *)
Record JobStatus := mk_job {
  js_job_id : string;
  parent_job_id : option string;
  child_job_ids : list string;
  execution_state : JobExecutionState;
  error_code : Z;
  js_error_message : string;
  js_node_id : option string;
  state_description : string;
}.

(** [rms::PowerOperation] *)
Inductive PowerOperation := PowerOperationOn | PowerOperationOff | PowerOperationReset.

(** [rms::NodeDeviceInfo] *)
Record NodeDeviceInfo := mk_device_info {
  di_slot_number : option Z;
  di_tray_index : option Z;
}.

(** Rows of [find_rms_identities_by_macs] and [find_rms_identities_by_bmc_ips]; [key] is the
    address that is looked up. *)
Record IdentityRow := mk_identity_row {
  ir_id : string;
  ir_key : string;
  ir_bmc_mac : string;
  ir_rack_id : option string;
  ir_rack_profile_id : option string;
}.

(** [rms::ScaleUpFabricServiceStatusEntry], and what [RmsFabricManagerStatusPayload] reads
    of its JSON *)
Record ServiceStatusEntry := mk_entry {
  status_json : string;
  entry_error_message : string;
}.
Record StatusPayload := mk_payload {
  payload_status : option string;
  payload_addition_info : option string;
  payload_reason : option string;
}.

(** [ScaleUpFabricSwitchStatus] *)
Record ScaleUpFabricSwitchStatus := mk_fabric_switch {
  fsw_node_id : string;
  fsw_enabled : bool;
  fsw_error_message : string;
}.

(** The service and the tables.  [number] and [state_number] are the codes on
    the wire, [job_error_name] the names of [rms::JobError], [status_from_json] is
    [serde_json::from_str]. *)
Class RmsApi (S : Type) := {
  number : ReturnCode → Z;
  state_number : JobExecutionState → Z;
  job_error_name : Z → option string;
  rack_manager_text : RackManagerError → string;
  batch_set_power_state : list NodeInfo → PowerOperation → S → result RackManagerError (option NodeBatchResponse) * S;
  batch_get_power_state : list NodeInfo → S → result RackManagerError (option NodeBatchResponse * list (string * string));
  batch_get_node_device_info : list NodeInfo → S → result RackManagerError (ReturnCode * string * list NodeDeviceInfo);
  apply_firmware_object : ApplyFirmwareObjectRequest → S → result RackManagerError ApplyResponse * S;
  apply_switch_system_image : ApplySwitchSystemImageRequest → S → result RackManagerError ApplyResponse * S;
  get_firmware_job_status : string → S → result RackManagerError (JobAnswer FirmwareJobState);
  get_switch_system_image_job_status : option (string → S → result RackManagerError (JobAnswer string));
  get_node_firmware_inventory : string → string → S → result RackManagerError (ReturnCode * list string);
  list_firmware_objects : S → result RackManagerError (list string);
  configure_switch_certificate : list NodeInfo → list Z → option string → S → result RackManagerError ApplyResponse * S;
  get_configure_switch_certificate_job_status : string → S → result RackManagerError (JobAnswer string);
  batch_reset_switch_factory_default : list NodeInfo → option string → S → result RackManagerError (option NodeBatchResponse) * S;
  update_switch_system_password : list NodeInfo → string → string → S → result RackManagerError (option NodeBatchResponse) * S;
  get_job_status : string → bool → S → result RackManagerError (list JobStatus);
  configure_scale_up_fabric_manager_v2 : list NodeInfo → string → S → result RackManagerError string * S;
  get_scale_up_fabric_status : list NodeInfo → S → result RackManagerError (ReturnCode * option (list ScaleUpFabricSwitchStatus) * string);
  batch_get_scale_up_fabric_service_status : list NodeInfo → S → result RackManagerError (ReturnCode * gmap string ServiceStatusEntry);
  status_from_json : string → option StatusPayload;
  switch_identities : S → result string (list IdentityRow);
  power_shelf_identities : S → result string (list IdentityRow);
  machine_identities : S → result string (list IdentityRow);
  interface_hostnames : S → result string (list (string * string));
}.

(** [From<RackManagerError> for ComponentManagerError] *)
Definition from_rack_manager (e : RackManagerError) : ComponentManagerError :=
  match e with ApiInvocationError _ s => Status s | TlsError t => Unavailable t end.

(** ** States *)

(** [FirmwareState] *)
Inductive FirmwareState := Unknown | Queued | InProgress | Verifying | Completed | Failed | Cancelled.
#[export] Instance firmware_state_eq_dec : EqDecision FirmwareState.
Proof. solve_decision. Defined.

(** [SwitchFactoryResetState] and [SwitchFactoryResetJobStatus] *)
Inductive SwitchFactoryResetState := ResetPending | ResetCompleted | ResetFailed.
Record SwitchFactoryResetJobStatus := mk_reset_status {
  reset_state : SwitchFactoryResetState;
  reset_error : option string;
}.

(** [to_rms_power_operation] *)
Definition to_rms_power_operation (action : PowerAction) : PowerOperation :=
  match action with
  | On => PowerOperationOn
  | GracefulShutdown | ForceOff => PowerOperationOff
  | GracefulRestart | ForceRestart | AcPowercycle => PowerOperationReset
  end.

(** [map_rms_firmware_job_state] *)
Definition map_rms_firmware_job_state (s : FirmwareJobState) : FirmwareState :=
  match s with
  | JobIsQueued => Queued
  | JobIsRunning => InProgress
  | JobIsCompleted => Completed
  | JobIsFailed => Failed
  | JobIsOther _ => Unknown
  end.

Definition one_of (l : list string) (s : string) : bool := bool_decide (s ∈ l).

(** [map_rms_switch_system_image_job_state] *)
Definition map_rms_switch_system_image_job_state (state : string) : FirmwareState :=
  let state := to_lowercase state in
  if one_of ["queued"; "pending"]%string state then Queued
  else if one_of ["running"; "in_progress"; "active"]%string state then InProgress
  else if one_of ["verifying"; "verify"; "validating"; "validation"]%string state then Verifying
  else if one_of ["completed"; "success"; "done"]%string state then Completed
  else if one_of ["failed"; "error"]%string state then Failed
  else if one_of ["cancelled"; "canceled"]%string state then Cancelled
  else Unknown.

(** [map_rms_configure_switch_certificate_job_state] *)
Definition map_rms_configure_switch_certificate_job_state (state : string) : option ConfigureSwitchCertificateState :=
  let state := to_lowercase state in
  if one_of ["queued"; "pending"]%string state then Some CertificateStarted
  else if one_of ["running"; "in_progress"; "active"]%string state then Some CertificateInProgress
  else if one_of ["completed"; "success"; "done"]%string state then Some CertificateCompleted
  else if one_of ["failed"; "error"]%string state then Some CertificateFailed
  else None.

(** [aggregate_firmware_job_states] *)
Definition aggregate_firmware_job_states (states : list FirmwareState) : FirmwareState :=
  let contains s := bool_decide (s ∈ states) in
  match states with
  | [] => Unknown
  | _ =>
      if contains Failed then Failed
      else if contains Cancelled then Cancelled
      else if contains InProgress then InProgress
      else if contains Verifying then Verifying
      else if contains Queued then Queued
      else if contains Unknown then Unknown
      else if forallb (λ s, bool_decide (s = Completed)) states then Completed
      else Unknown
  end.

(** ** Summaries of answers *)

Definition some_text (s : string) : option string := if decide (s = EmptyString) then None else Some s.
Definition is_none {A} (o : option A) : bool := match o with None => true | Some _ => false end.

(** The first that there is *)
Definition first_of {A} (o o' : option A) : option A := match o with Some a => Some a | None => o' end.

(** [summarize_power_batch] *)
Definition summarize_power_batch (batch : NodeBatchResponse) : bool * option string :=
  if is_success (batch_status batch) && (default 0 (failed_nodes batch) =? 0) then (true, None)
  else
    let node_error := r ← list_find (λ r, is_success (nr_status r) = false ∨ nr_error r ≠ EmptyString) (node_results batch);
                      some_text (nr_error r.2) in
    (false, Some (default "RMS power control failed"%string (first_of node_error (some_text (batch_message batch))))).

(** [summarize_firmware_batch]: success, error and job id *)
Definition summarize_firmware_batch (batch : option NodeBatchResponse) (node_job_id : option string) (node : string)
    (default_error : string) : bool * option string * option string :=
  match batch with
  | None => (false, Some default_error, node_job_id)
  | Some batch =>
      let failing r := is_success (nr_status r) = false in
      let node_failure := snd <$> first_of (list_find (λ r, nr_node_id r = node ∧ failing r) (node_results batch))
                                           (list_find failing (node_results batch)) in
      let success := is_success (batch_status batch) && (default 0 (failed_nodes batch) =? 0) && is_none node_failure in
      let job_id := first_of node_job_id (some_text (batch_job_id batch)) in
      if success then (true, None, job_id)
      else
        let error := first_of (r ← node_failure; some_text (nr_error r)) (some_text (batch_message batch)) in
        (false, Some (default default_error error), job_id)
  end.

(** [summarize_firmware_object_apply_response], [summarize_switch_system_image_apply_response]
    and [summarize_configure_switch_certificate_response] *)
Definition summarize_apply_response (default_error : string) (r : ApplyResponse) (node : string)
    : bool * option string * option string :=
  let node_job_id := j ← list_find (λ j, j.1 = node ∧ j.2 ≠ EmptyString) (jobs r); Some j.2.2 in
  summarize_firmware_batch (response r) node_job_id node default_error.
Definition summarize_firmware_object_apply_response := summarize_apply_response "RMS firmware update failed".
Definition summarize_switch_system_image_apply_response := summarize_apply_response "RMS switch system image update failed".
Definition summarize_configure_switch_certificate_response :=
  summarize_apply_response "RMS switch certificate configuration failed".

(** [map_rms_password_rotation_state] *)
Definition map_rms_password_rotation_state (job : JobStatus) : SwitchPasswordRotationState :=
  match execution_state job with
  | ExecutionQueued | ExecutionRunning => JobPending
  | ExecutionCompleted => JobCompleted
  | ExecutionFailed => JobFailed
  | ExecutionUnspecified | ExecutionOther _ => JobUnknown
  end.

(** [summarize_password_rotation_jobs] *)
Definition summarize_password_rotation_jobs (job_id : string) (jobs : list JobStatus) : SwitchPasswordRotationState :=
  let related := filter (λ j, js_job_id j = job_id ∨ parent_job_id j = Some job_id) jobs in
  match related with
  | [] => JobNotFound
  | _ =>
      match list_find (λ j, parent_job_id j = Some job_id ∧ map_rms_password_rotation_state j = JobFailed) related with
      | Some (_, failed) => map_rms_password_rotation_state failed
      | None =>
          match list_find (λ j, js_job_id j = job_id ∧ map_rms_password_rotation_state j = JobFailed) related with
          | Some (_, failed) => map_rms_password_rotation_state failed
          | None =>
              let states := map_rms_password_rotation_state <$> related in
              if forallb (λ s, bool_decide (s = JobCompleted)) states then JobCompleted
              else if bool_decide (JobPending ∈ states) then JobPending
              else JobUnknown
          end
      end
  end.

(** ** Locations *)

(** [rms_switch_location_value]: a value that does not fit [i32] is an error. *)
Definition rms_switch_location_value (value : option Z) : result Z (option Z) :=
  match value with
  | None => Ok None
  | Some v => if v <=? 2 ^ 31 - 1 then Ok (Some v) else Err v
  end.

Definition ok_flatten {E A} (r : result E (option A)) : option A := match r with Ok o => o | Err _ => None end.
Definition is_err {E A} (r : result E A) : bool := match r with Err _ => true | Ok _ => false end.

(** [RmsSwitchSlotAndTrayObservation] and [classify_rms_switch_slot_and_tray] *)
Definition classify_rms_switch_slot_and_tray (details : option NodeDeviceInfo) : option Z * option Z * option string :=
  match details with
  | None => (None, None, Some "RMS returned no device info"%string)
  | Some d =>
      let slot := rms_switch_location_value (di_slot_number d) in
      let tray := rms_switch_location_value (di_tray_index d) in
      (ok_flatten slot, ok_flatten tray,
       match is_err slot, is_err tray with
       | false, false => None
       | true, false => Some "RMS returned slot_number outside the supported range"%string
       | false, true => Some "RMS returned tray_index outside the supported range"%string
       | true, true => Some "RMS returned slot_number and tray_index outside the supported range"%string
       end)
  end.

(** ** Requests *)

(** [RmsIdentity] and [ResolvedRmsNode] *)
Record RmsIdentity := mk_identity {
  id_node_id : string;
  id_rack_id : string;
  id_rack_profile_id : option string;
}.
Record ResolvedRmsNode := mk_resolved {
  identity : RmsIdentity;
  node_identity : RmsNodeIdentity;
}.

(** [PowerShelfEndpoint] and [ComputeTrayEndpoint], as far as they are used *)
Record PowerShelfEndpoint := mk_pmc {
  pmc_ip : string;
  pmc_mac : string;
  pmc_credentials : Credentials;
}.
Record ComputeTrayEndpoint := mk_tray {
  tray_bmc_ip : string;
  tray_bmc_credentials : Credentials;
}.

(** [FirmwareUpdateOptions] *)
Record FirmwareUpdateOptions := mk_options {
  access_token : option string;
  force_update : bool;
}.

(** [NvSwitchComponent], [PowerShelfComponent] and [ComputeTrayComponent] *)
Inductive NvSwitchComponent := SwitchBmc | SwitchCpld | SwitchBios | SwitchNvos.
Inductive PowerShelfComponent := ShelfPmc | ShelfPsu.
Inductive ComputeTrayComponent := TrayBmc | TrayCpld | TrayBios | TrayCx7.

(** [RmsTrackedFirmwareJob] *)
Inductive RmsTrackedFirmwareJob :=
| FirmwareObject (job_id : string)
| SwitchSystemImage (job_id : string).

Definition BMC_PORT : Z := 443.
Definition RMS_IDENTITY_LOOKUP_ERROR : string := "could not resolve RMS identity from database".

(** [apply_to_node_info] *)
Definition apply_to_node_info (i : RmsNodeIdentity) (n : NodeInfo) : NodeInfo :=
  mk_node (node_id n) (rack_id n) (legacy i) (bmc_endpoint n) (host_endpoint n) (Some (node_descriptor i)).

(** [build_power_shelf_node_info] *)
Definition build_power_shelf_node_info (ep : PowerShelfEndpoint) (resolved : ResolvedRmsNode) : NodeInfo :=
  apply_to_node_info (node_identity resolved)
    (mk_node (id_node_id (identity resolved)) (id_rack_id (identity resolved)) None
       (Some (mk_endpoint (pmc_ip ep) (pmc_mac ep) None BMC_PORT (pmc_credentials ep))) None None).

(** [build_switch_node_info] *)
Definition build_switch_node_info (ep : SwitchEndpoint) (resolved : ResolvedRmsNode) (nvos_host_name : option string) : NodeInfo :=
  apply_to_node_info (node_identity resolved)
    (mk_node (id_node_id (identity resolved)) (id_rack_id (identity resolved)) None
       (Some (mk_endpoint (ep_bmc_ip ep) (ep_bmc_mac ep) None BMC_PORT (ep_bmc_credentials ep)))
       (Some (mk_endpoint (ep_nvos_ip ep) (ep_nvos_mac ep) nvos_host_name 0 (nvos_credentials ep))) None).

(** [build_switch_password_rotation_node_info] *)
Definition build_switch_password_rotation_node_info (ep : SwitchEndpoint) (resolved : ResolvedRmsNode)
    (nvos_host_name : option string) : NodeInfo :=
  let node := build_switch_node_info ep resolved nvos_host_name in
  mk_node (node_id node) (rack_id node) (node_type node) None (host_endpoint node) (descriptor node).

(** [build_compute_tray_node_info] *)
Definition build_compute_tray_node_info (ep : ComputeTrayEndpoint) (resolved : ResolvedRmsNode) (bmc_mac : string) : NodeInfo :=
  apply_to_node_info (node_identity resolved)
    (mk_node (id_node_id (identity resolved)) (id_rack_id (identity resolved)) None
       (Some (mk_endpoint (tray_bmc_ip ep) bmc_mac None BMC_PORT (tray_bmc_credentials ep))) None None).

(** [rms_access_token_or_noauth] *)
Definition rms_access_token_or_noauth (token : option string) : string :=
  match token with
  | Some t => if decide (trim t = EmptyString) then "NOAUTH" else t
  | None => "NOAUTH"
  end.

(** [apply_firmware_object_request] *)
Definition apply_firmware_object_request (device : NodeInfo) (resolved : ResolvedRmsNode) (config_json : string)
    (options : FirmwareUpdateOptions) (components : list string) : result ComponentManagerError ApplyFirmwareObjectRequest :=
  if decide (trim config_json = EmptyString) then
    Err (CmInvalidArgument "target_version must contain firmware-object JSON for direct RMS updates")
  else
    let '(component_filters, descriptor_filters) :=
      firmware_object_component_filters_for_node_identities components [node_identity resolved] in
    Ok (mk_apply_request (id_rack_id (identity resolved)) config_json
          (Some (rms_access_token_or_noauth (access_token options))) "prod" "any" [device]
          (force_update options) component_filters descriptor_filters).

(** [apply_switch_system_image_request] *)
Definition apply_switch_system_image_request (device : NodeInfo) (i : RmsIdentity) (config_json : string)
    (options : FirmwareUpdateOptions) : result ComponentManagerError ApplySwitchSystemImageRequest :=
  if decide (trim config_json = EmptyString) then
    Err (CmInvalidArgument "target_version must contain firmware-object JSON for direct RMS updates")
  else Ok (mk_image_request (id_rack_id i) config_json (Some (rms_access_token_or_noauth (access_token options)))
             "prod" "any" [device]).

(** [power_shelf_firmware_object_component_filters] *)
Definition power_shelf_firmware_object_component_filters (components : list PowerShelfComponent) : list string :=
  match components with [] => [] | _ => ["PowerShelfFW"%string] end.

(** [switch_update_includes_firmware_object], [switch_update_includes_system_image] and
    [switch_firmware_object_component_filters] *)
Definition is_nvos (c : NvSwitchComponent) : bool := match c with SwitchNvos => true | _ => false end.
Definition switch_update_includes_firmware_object (components : list NvSwitchComponent) : bool :=
  match components with [] => true | _ => existsb (λ c, negb (is_nvos c)) components end.
Definition switch_update_includes_system_image (components : list NvSwitchComponent) : bool :=
  match components with [] => true | _ => existsb is_nvos components end.
Definition switch_firmware_object_component_filters (components : list NvSwitchComponent) : list string :=
  omap (λ c, match c with
             | SwitchBmc => Some "BMC"%string
             | SwitchCpld => Some "CPLD"%string
             | SwitchBios => Some "BIOS"%string
             | SwitchNvos => None
             end) components.

(** [compute_tray_firmware_object_component_filters] *)
Definition compute_tray_firmware_object_component_filters (components : list ComputeTrayComponent) : list string :=
  (λ c, match c with TrayBmc => "BMC" | TrayCpld => "CPLD" | TrayBios => "BIOS" | TrayCx7 => "CX7" end%string) <$> components.

(** ** The backend *)

(** The tracked jobs, and the state of the service and of the tables *)
Record Backend (S : Type) := mk_backend {
  firmware_jobs : gmap string (list RmsTrackedFirmwareJob);
  service : S;
}.
Arguments mk_backend {S}.
Arguments firmware_jobs {S}.
Arguments service {S}.

(** Programs of the backend: state and errors *)
Definition rms (S A : Type) : Type := Backend S → result ComponentManagerError A * Backend S.

#[export] Instance rms_ret {S} : MRet (rms S) := λ A a b, (Ok a, b).
#[export] Instance rms_bind {S} : MBind (rms S) := λ A B f m b,
  match m b with
  | (Ok a, b) => f a b
  | (Err e, b) => (Err e, b)
  end.

Section Backend.
Context {S : Type} `{RmsApi S} (rack_profiles : gmap string RackProfile).

Definition fail {A} (e : ComponentManagerError) : rms S A := λ b, (Err e, b).
Definition from_result {E A} (f : E → ComponentManagerError) (r : result E A) : rms S A :=
  match r with Ok a => mret a | Err e => fail (f e) end.

(** A query, and a call that changes the state of the service *)
Definition ask {E A} (f : S → result E A) : rms S (result E A) := λ b, (Ok (f (service b)), b).
Definition send {E A} (f : S → result E A * S) : rms S (result E A) := λ b,
  let '(r, s) := f (service b) in (Ok r, mk_backend (firmware_jobs b) s).

Definition track (mac : string) (jobs : list RmsTrackedFirmwareJob) : rms S () := λ b,
  (Ok (), mk_backend (<[mac := jobs]> (firmware_jobs b)) (service b)).
Definition untrack (mac : string) : rms S () := λ b, (Ok (), mk_backend (delete mac (firmware_jobs b)) (service b)).
Definition tracked : rms S (gmap string (list RmsTrackedFirmwareJob)) := λ b, (Ok (firmware_jobs b), b).

(** A [for] loop over items; what the body pushes to is passed along. *)
Fixpoint for_each {A B} (body : A → B → rms S B) (l : list A) (results : B) : rms S B :=
  match l with
  | [] => mret results
  | a :: l => results ← body a results; for_each body l results
  end.

Definition push {A} (r : A) (results : list A) : rms S (list A) := mret (results ++ [r]).

(** *** Identities *)

Definition identities_of (rows : list IdentityRow) : gmap string (RmsIdentity * string) :=
  foldl (λ m row, match ir_rack_id row with
                  | Some rack => <[ir_key row := (mk_identity (ir_id row) rack (ir_rack_profile_id row), ir_bmc_mac row)]> m
                  | None => m
                  end) ∅ rows.

Definition find_identities (table : S → result string (list IdentityRow)) (keys : list string) (s : S)
    : result string (list IdentityRow) :=
  rows ← table s; Ok (filter (λ r, ir_key r ∈ keys) rows).

(** [resolve_switch_identities] and [resolve_power_shelf_identities] *)
Definition resolve_switch_identities (macs : list string) : rms S (gmap string (RmsIdentity * string)) :=
  rows ← ask (find_identities switch_identities macs);
  rows ← from_result (λ e, CmInternal ("failed to resolve switch RMS identities: " +:+ e)) rows;
  mret (identities_of rows).
Definition resolve_power_shelf_identities (macs : list string) : rms S (gmap string (RmsIdentity * string)) :=
  rows ← ask (find_identities power_shelf_identities macs);
  rows ← from_result (λ e, CmInternal ("failed to resolve power shelf RMS identities: " +:+ e)) rows;
  mret (identities_of rows).

(** The first address that occurs twice *)
Fixpoint first_duplicate (seen : list string) (keys : list string) : option string :=
  match keys with
  | [] => None
  | k :: keys => if bool_decide (k ∈ seen) then Some k else first_duplicate (k :: seen) keys
  end.

(** [find_rms_identities_by_bmc_ips] and [resolve_compute_tray_identities] *)
Definition find_rms_identities_by_bmc_ips (ips : list string) (s : S) : result string (list IdentityRow) :=
  rows ← find_identities machine_identities ips s;
  match first_duplicate [] (ir_key <$> rows) with
  | Some ip => Err ("duplicate machine RMS identity mapping for bmc_ip=" +:+ ip)
  | None => Ok rows
  end.
Definition resolve_compute_tray_identities (ips : list string) : rms S (gmap string (RmsIdentity * string)) :=
  rows ← ask (find_rms_identities_by_bmc_ips ips);
  rows ← from_result (λ e, CmInternal ("failed to resolve compute tray RMS identities: " +:+ e)) rows;
  mret (identities_of rows).

(** [rack_profile] *)
Definition rack_profile (i : RmsIdentity) : result ComponentManagerError RackProfile :=
  id ← ok_or (id_rack_profile_id i)
    (CmInvalidArgument ("rack " +:+ id_rack_id i +:+ " has no rack_profile_id for RMS node descriptor resolution"));
  ok_or (rack_profiles !! id)
    (CmInvalidArgument ("rack profile " +:+ id +:+ " is not configured for RMS node descriptor resolution")).

Definition resolve_node (i : RmsIdentity) (r : RmsNodeRole) : result string ResolvedRmsNode :=
  profile ← map_err component_manager_text (rack_profile i);
  n ← map_err descriptor_error_text (node_identity_for_profile profile r);
  Ok (mk_resolved i n).

(** [resolve_switch_or_power_shelf_node] *)
Definition resolve_switch_or_power_shelf_node (ids : gmap string (RmsIdentity * string)) (mac : string) (r : RmsNodeRole)
    : result string ResolvedRmsNode :=
  i ← ok_or (ids !! mac) RMS_IDENTITY_LOOKUP_ERROR;
  resolve_node i.1 r.

(** [resolve_compute_node], after the lookup of the identity *)
Definition resolve_compute_tray (ids : gmap string (RmsIdentity * string)) (ip : string)
    : result string (ResolvedRmsNode * string) :=
  i ← ok_or (ids !! ip) RMS_IDENTITY_LOOKUP_ERROR;
  resolved ← resolve_node i.1 Compute;
  Ok (resolved, i.2).

(** [resolve_switch_machine_interface_hostnames]; the names of the endpoints that have none
    are looked up. *)
Definition resolve_switch_machine_interface_hostnames (endpoints : list SwitchEndpoint) : rms S (gmap string string) :=
  let known := foldl (λ m ep, match nvos_host_name ep ≫= some_text with
                              | Some name => <[ep_nvos_mac ep := name]> m
                              | None => m
                              end) ∅ endpoints in
  let macs := ep_nvos_mac <$> filter (λ ep, nvos_host_name ep ≫= some_text = None) endpoints in
  match macs with
  | [] => mret known
  | _ =>
      rows ← ask interface_hostnames;
      rows ← from_result (λ e, CmInternal ("failed to resolve switch machine interface hostnames: " +:+ e)) rows;
      mret (foldl (λ m e, if bool_decide (e.1 ∈ macs ∧ e.2 ≠ EmptyString) then <[e.1 := e.2]> m else m) known rows)
  end.

(** *** Power *)

Definition failed_result (key : string) (error : string) : ComponentResult := mk_component_result key false (Some error).

(** One turn of the loops of [power_control] *)
Definition power_control_one (key : string) (device : result string NodeInfo) (action : PowerAction)
    (results : list ComponentResult) : rms S (list ComponentResult) :=
  match device with
  | Err error => push (failed_result key error) results
  | Ok device =>
      r ← send (batch_set_power_state [device] (to_rms_power_operation action));
      match r with
      | Ok response => let '(success, error) := summarize_power_batch (default no_batch response) in
                       push (mk_component_result key success error) results
      | Err e => push (failed_result key (rack_manager_text e)) results
      end
  end.

Definition shelf_device (ids : gmap string (RmsIdentity * string)) (ep : PowerShelfEndpoint) : result string (ResolvedRmsNode * NodeInfo) :=
  resolved ← resolve_switch_or_power_shelf_node ids (pmc_mac ep) RmsNodeIdentity.PowerShelf;
  Ok (resolved, build_power_shelf_node_info ep resolved).
Definition switch_device (ids : gmap string (RmsIdentity * string)) (hostnames : gmap string string) (ep : SwitchEndpoint)
    : result string (ResolvedRmsNode * NodeInfo) :=
  resolved ← resolve_switch_or_power_shelf_node ids (ep_bmc_mac ep) Switch;
  Ok (resolved, build_switch_node_info ep resolved (hostnames !! ep_nvos_mac ep)).
Definition tray_device (ids : gmap string (RmsIdentity * string)) (ep : ComputeTrayEndpoint)
    : result string (ResolvedRmsNode * string * NodeInfo) :=
  '(resolved, mac) ← resolve_compute_tray ids (tray_bmc_ip ep);
  Ok (resolved, mac, build_compute_tray_node_info ep resolved mac).

(** [power_control] of the three traits *)
Definition power_shelf_power_control (endpoints : list PowerShelfEndpoint) (action : PowerAction) : rms S (list ComponentResult) :=
  ids ← resolve_power_shelf_identities (pmc_mac <$> endpoints);
  for_each (λ ep, power_control_one (pmc_mac ep) (snd <$> shelf_device ids ep) action) endpoints [].
Definition switch_power_control (endpoints : list SwitchEndpoint) (action : PowerAction) : rms S (list ComponentResult) :=
  ids ← resolve_switch_identities (ep_bmc_mac <$> endpoints);
  hostnames ← resolve_switch_machine_interface_hostnames endpoints;
  for_each (λ ep, power_control_one (ep_bmc_mac ep) (snd <$> switch_device ids hostnames ep) action) endpoints [].
Definition compute_tray_power_control (endpoints : list ComputeTrayEndpoint) (action : PowerAction) : rms S (list ComponentResult) :=
  ids ← resolve_compute_tray_identities (tray_bmc_ip <$> endpoints);
  for_each (λ ep, power_control_one (tray_bmc_ip ep) (snd <$> tray_device ids ep) action) endpoints [].

(** [SwitchPowerStateResult] and [PowerShelfPowerStateResult] *)
Record PowerStateResult := mk_power_state_result {
  ps_key : string;
  ps_power_state : option string;
  ps_error : option string;
}.

(** [query_rms_power_state] *)
Definition query_rms_power_state (device : NodeInfo) (node : string) : rms S (option string * option string) :=
  r ← ask (batch_get_power_state [device]);
  mret (match r with
        | Ok (response, states) =>
            let batch := default no_batch response in
            let failed := default 0 (failed_nodes batch) in
            if negb (is_success (batch_status batch)) || negb (failed =? 0) then
              (None, Some (default ("batch status " +:+ print_i (number (batch_status batch)) +:+ ", failed_nodes " +:+ print_i failed)
                             (some_text (batch_message batch))))
            else (n ← list_find (λ n, n.1 = node) states; Some (to_lowercase n.2.2), None)
        | Err e => (None, Some (rack_manager_text e))
        end).

Definition power_state_one (key : string) (device : result string (ResolvedRmsNode * NodeInfo))
    (results : list PowerStateResult) : rms S (list PowerStateResult) :=
  match device with
  | Err error => push (mk_power_state_result key None (Some error)) results
  | Ok (resolved, device) =>
      '(state, error) ← query_rms_power_state device (id_node_id (identity resolved));
      push (mk_power_state_result key state error) results
  end.

(** [get_power_state] *)
Definition power_shelf_get_power_state (endpoints : list PowerShelfEndpoint) : rms S (list PowerStateResult) :=
  ids ← resolve_power_shelf_identities (pmc_mac <$> endpoints);
  for_each (λ ep, power_state_one (pmc_mac ep) (shelf_device ids ep)) endpoints [].
Definition switch_get_power_state (endpoints : list SwitchEndpoint) : rms S (list PowerStateResult) :=
  ids ← resolve_switch_identities (ep_bmc_mac <$> endpoints);
  hostnames ← resolve_switch_machine_interface_hostnames endpoints;
  for_each (λ ep, power_state_one (ep_bmc_mac ep) (switch_device ids hostnames ep)) endpoints [].

(** *** Locations and inventories *)

(** [get_slot_and_tray] *)
Definition slot_and_tray_one (key : string) (device : result string NodeInfo) (results : list SlotAndTrayResult)
    : rms S (list SlotAndTrayResult) :=
  match device with
  | Err error => push (mk_slot_result key None None (Some error)) results
  | Ok device =>
      r ← ask (batch_get_node_device_info [device]);
      match r with
      | Ok (status, message, details) =>
          if is_success status then
            let '(slot, tray, error) := classify_rms_switch_slot_and_tray (head details) in
            push (mk_slot_result key slot tray error) results
          else push (mk_slot_result key None None
                       (Some (default ("status " +:+ print_i (number status)) (some_text message)))) results
      | Err e => push (mk_slot_result key None None (Some (rack_manager_text e))) results
      end
  end.
Definition get_slot_and_tray (endpoints : list SwitchEndpoint) : rms S (list SlotAndTrayResult) :=
  ids ← resolve_switch_identities (ep_bmc_mac <$> endpoints);
  hostnames ← resolve_switch_machine_interface_hostnames endpoints;
  for_each (λ ep, slot_and_tray_one (ep_bmc_mac ep) (snd <$> switch_device ids hostnames ep)) endpoints [].

(** [PowerShelfFirmwareVersions] *)
Record FirmwareVersions := mk_versions {
  fv_key : string;
  fv_versions : list string;
  fv_error : option string;
}.

(** [list_firmware] *)
Definition list_firmware (endpoints : list PowerShelfEndpoint) : rms S (list FirmwareVersions) :=
  ids ← resolve_power_shelf_identities (pmc_mac <$> endpoints);
  for_each (λ ep results,
    match ids !! pmc_mac ep with
    | None => push (mk_versions (pmc_mac ep) [] (Some RMS_IDENTITY_LOOKUP_ERROR)) results
    | Some (i, _) =>
        r ← ask (get_node_firmware_inventory (id_node_id i) (id_rack_id i));
        match r with
        | Ok (status, versions) =>
            if is_success status then push (mk_versions (pmc_mac ep) versions None) results
            else push (mk_versions (pmc_mac ep) [] (Some "RMS firmware inventory query failed"%string)) results
        | Err e => push (mk_versions (pmc_mac ep) [] (Some (rack_manager_text e))) results
        end
    end) endpoints [].

(** [list_firmware_object_ids] *)
Definition list_firmware_object_ids : rms S (list string) :=
  r ← ask list_firmware_objects;
  from_result (λ e, CmInternal ("failed to list firmware objects from RMS: " +:+ rack_manager_text e)) r.

(** *** Firmware *)

Definition join_errors (errors : list string) : option string :=
  match errors with [] => None | _ => Some (join "; " errors) end.

(** One turn of [update_firmware] for power shelves and compute trays; [mac] is the address
    under which the job is kept. *)
Definition update_firmware_one (key mac : string) (resolved : ResolvedRmsNode) (device : NodeInfo) (target_version : string)
    (options : FirmwareUpdateOptions) (filters : list string) (results : list ComponentResult) : rms S (list ComponentResult) :=
  match apply_firmware_object_request device resolved target_version options filters with
  | Err e => push (failed_result key (component_manager_text e)) results
  | Ok request =>
      r ← send (apply_firmware_object request);
      match r with
      | Ok response =>
          let '(success, error, job_id) := summarize_firmware_object_apply_response response (id_node_id (identity resolved)) in
          _ ← match success, job_id with
              | true, Some job_id => track mac [FirmwareObject job_id]
              | _, _ => untrack mac
              end;
          push (mk_component_result key success error) results
      | Err e => push (failed_result key (rack_manager_text e)) results
      end
  end.

(** [update_firmware] *)
Definition power_shelf_update_firmware (endpoints : list PowerShelfEndpoint) (target_version : string)
    (components : list PowerShelfComponent) (options : FirmwareUpdateOptions) : rms S (list ComponentResult) :=
  ids ← resolve_power_shelf_identities (pmc_mac <$> endpoints);
  for_each (λ ep results,
    match shelf_device ids ep with
    | Err error => push (failed_result (pmc_mac ep) error) results
    | Ok (resolved, device) =>
        update_firmware_one (pmc_mac ep) (pmc_mac ep) resolved device target_version options
          (power_shelf_firmware_object_component_filters components) results
    end) endpoints [].
Definition compute_tray_update_firmware (endpoints : list ComputeTrayEndpoint) (target_version : string)
    (components : list ComputeTrayComponent) (options : FirmwareUpdateOptions) : rms S (list ComponentResult) :=
  ids ← resolve_compute_tray_identities (tray_bmc_ip <$> endpoints);
  for_each (λ ep results,
    match tray_device ids ep with
    | Err error => push (failed_result (tray_bmc_ip ep) error) results
    | Ok (resolved, mac, device) =>
        update_firmware_one (tray_bmc_ip ep) mac resolved device target_version options
          (compute_tray_firmware_object_component_filters components) results
    end) endpoints [].

(** What one of the two parts of a switch update yields: success, errors and jobs *)
Definition switch_part (request : result ComponentManagerError (S → result RackManagerError ApplyResponse * S))
    (summary : ApplyResponse → bool * option string * option string) (job : string → RmsTrackedFirmwareJob)
    : rms S (bool * list string * list RmsTrackedFirmwareJob) :=
  match request with
  | Err e => mret (false, [component_manager_text e], [])
  | Ok request =>
      r ← send request;
      mret (match r with
            | Ok response =>
                let '(success, error, job_id) := summary response in
                (success, match error with Some e => [e] | None => [] end,
                 match success, job_id with true, Some j => [job j] | _, _ => [] end)
            | Err e => (false, [rack_manager_text e], [])
            end)
  end.
Definition skip_part : rms S (bool * list string * list RmsTrackedFirmwareJob) := mret (true, [], []).

(** [queue_firmware_updates] *)
Definition queue_firmware_update_one (components : list NvSwitchComponent) (bundle_version : string)
    (options : FirmwareUpdateOptions) (key : string) (resolved : ResolvedRmsNode) (device : NodeInfo)
    (results : list ComponentResult) : rms S (list ComponentResult) :=
  let node := id_node_id (identity resolved) in
  '(success, errors, jobs) ←
    (if switch_update_includes_firmware_object components then
       switch_part (apply_firmware_object <$> apply_firmware_object_request device resolved bundle_version options
                      (switch_firmware_object_component_filters components))
         (λ r, summarize_firmware_object_apply_response r node) FirmwareObject
     else skip_part);
  '(success', errors', jobs') ←
    (if switch_update_includes_system_image components then
       switch_part (apply_switch_system_image <$> apply_switch_system_image_request device (identity resolved) bundle_version options)
         (λ r, summarize_switch_system_image_apply_response r node) SwitchSystemImage
     else skip_part);
  _ ← match jobs ++ jobs' with [] => untrack key | tracked_jobs => track key tracked_jobs end;
  push (mk_component_result key (success && success') (join_errors (errors ++ errors'))) results.
Definition queue_firmware_updates (endpoints : list SwitchEndpoint) (bundle_version : string)
    (components : list NvSwitchComponent) (options : FirmwareUpdateOptions) : rms S (list ComponentResult) :=
  ids ← resolve_switch_identities (ep_bmc_mac <$> endpoints);
  hostnames ← resolve_switch_machine_interface_hostnames endpoints;
  for_each (λ ep results,
    match switch_device ids hostnames ep with
    | Err error => push (failed_result (ep_bmc_mac ep) error) results
    | Ok (resolved, device) =>
        queue_firmware_update_one components bundle_version options (ep_bmc_mac ep) resolved device results
    end) endpoints [].

(** [PowerShelfFirmwareUpdateStatus], [SwitchFirmwareUpdateStatus] and
    [ComputeTrayFirmwareUpdateStatus]; the target version is always empty. *)
Record FirmwareUpdateStatus := mk_firmware_status {
  fs_key : string;
  fs_state : FirmwareState;
  fs_error : option string;
}.

(** The first part of [query_tracked_firmware_job_status] *)
Definition firmware_object_job_status (job_id : string) : rms S (FirmwareState * option string) :=
  r ← ask (get_firmware_job_status job_id);
  mret (match r with
        | Ok a =>
            let success := is_success (ja_status a) in
            (if success then map_rms_firmware_job_state (ja_state a) else Unknown,
             match some_text (ja_error_message a) with
             | Some e => Some e
             | None => if success then None else Some ("RMS could not report status for firmware job " +:+ job_id)
             end)
        | Err e => (Unknown, Some (rack_manager_text e))
        end).

(** [query_tracked_firmware_job_status] *)
Definition query_tracked_firmware_job_status (job : RmsTrackedFirmwareJob) : rms S (FirmwareState * option string) :=
  match job with
  | FirmwareObject job_id => firmware_object_job_status job_id
  | SwitchSystemImage job_id =>
      match get_switch_system_image_job_status with
      | None => mret (Unknown, Some "RMS switch system-image status client is not configured"%string)
      | Some client =>
          r ← ask (client job_id);
          mret (match r with
                | Ok a =>
                    if is_success (ja_status a) then
                      let state := map_rms_switch_system_image_job_state (ja_state a) in
                      (state, match some_text (ja_error_message a) with
                              | Some e => Some e
                              | None => if bool_decide (state = Failed ∨ state = Unknown) then some_text (ja_message a) else None
                              end)
                    else
                      (Unknown, Some (default ("RMS could not report status for switch system-image job " +:+ job_id)
                                        (first_of (some_text (ja_error_message a)) (some_text (ja_message a)))))
                | Err e => (Unknown, Some (rack_manager_text e))
                end)
      end
  end.

Definition firmware_object_job (jobs : list RmsTrackedFirmwareJob) : option string :=
  head (omap (λ j, match j with FirmwareObject id => Some id | SwitchSystemImage _ => None end) jobs).

(** [get_firmware_status] for power shelves and compute trays *)
Definition tracked_status (kind : string) (e : string * option string) (statuses : list FirmwareUpdateStatus)
    : rms S (list FirmwareUpdateStatus) :=
  match e.2 with
  | None => push (mk_firmware_status e.1 Unknown (Some ("no firmware job tracked for this " +:+ kind))) statuses
  | Some job_id =>
      '(state, error) ← firmware_object_job_status job_id;
      push (mk_firmware_status e.1 state error) statuses
  end.
Definition power_shelf_get_firmware_status (endpoints : list PowerShelfEndpoint) : rms S (list FirmwareUpdateStatus) :=
  jobs ← tracked;
  for_each (tracked_status "power shelf") ((λ ep, (pmc_mac ep, jobs !! pmc_mac ep ≫= firmware_object_job)) <$> endpoints) [].
Definition compute_tray_get_firmware_status (endpoints : list ComputeTrayEndpoint) : rms S (list FirmwareUpdateStatus) :=
  ids ← resolve_compute_tray_identities (tray_bmc_ip <$> endpoints);
  jobs ← tracked;
  for_each (tracked_status "compute tray")
    ((λ ep, (tray_bmc_ip ep, i ← ids !! tray_bmc_ip ep; jobs !! i.2 ≫= firmware_object_job)) <$> endpoints) [].

(** [get_firmware_status] for switches *)
Definition switch_get_firmware_status (endpoints : list SwitchEndpoint) : rms S (list FirmwareUpdateStatus) :=
  jobs ← tracked;
  for_each (λ (e : string * list RmsTrackedFirmwareJob) statuses,
    match e.2 with
    | [] => push (mk_firmware_status e.1 Unknown (Some "no firmware job tracked for this switch"%string)) statuses
    | jobs =>
        '(states, errors) ← for_each (λ job '(states, errors),
            '(state, error) ← query_tracked_firmware_job_status job;
            mret (states ++ [state], match error with Some e => errors ++ [e] | None => errors end)) jobs ([], []);
        push (mk_firmware_status e.1 (aggregate_firmware_job_states states) (join_errors errors)) statuses
    end) ((λ ep, (ep_bmc_mac ep, default [] (jobs !! ep_bmc_mac ep))) <$> endpoints) [].

(** *** Certificates *)

(** [rms_configure_switch_certificate] *)
Definition rms_configure_switch_certificate (device : NodeInfo) (domain_name : option string) (services : option (list Z))
    : rms S string :=
  r ← send (configure_switch_certificate [device] (default [] services) domain_name);
  response ← from_result (λ e, CmInternal ("failed to start RMS switch certificate configuration: " +:+ rack_manager_text e)) r;
  let '(success, error, job_id) := summarize_configure_switch_certificate_response response (node_id device) in
  if success : bool then
    from_result id (ok_or job_id (CmInternal "RMS switch certificate configuration succeeded but returned no job id"))
  else fail (CmInternal (default "RMS switch certificate configuration failed"%string error)).

(** The device of one switch, or an internal error *)
Definition resolved_switch (ep : SwitchEndpoint) : rms S (ResolvedRmsNode * gmap string string) :=
  ids ← resolve_switch_identities [ep_bmc_mac ep];
  resolved ← from_result CmInternal (resolve_switch_or_power_shelf_node ids (ep_bmc_mac ep) Switch);
  hostnames ← resolve_switch_machine_interface_hostnames [ep];
  mret (resolved, hostnames).

(** [configure_switch_certificate] *)
Definition rms_backend_configure_switch_certificate (ep : SwitchEndpoint) (domain_name : option string)
    (services : option (list Z)) : rms S string :=
  '(resolved, hostnames) ← resolved_switch ep;
  rms_configure_switch_certificate (build_switch_node_info ep resolved (hostnames !! ep_nvos_mac ep)) domain_name services.

(** [rms_get_configure_switch_certificate_job_status] *)
Definition rms_get_configure_switch_certificate_job_status (job_id : string)
    : rms S (ConfigureSwitchCertificateState * option string) :=
  r ← ask (get_configure_switch_certificate_job_status job_id);
  a ← from_result (λ e, CmInternal ("failed to get RMS switch certificate job status: " +:+ rack_manager_text e)) r;
  let text := first_of (some_text (ja_error_message a)) (some_text (ja_message a)) in
  if is_success (ja_status a) then
    let state := default CertificateInProgress (map_rms_configure_switch_certificate_job_state (ja_state a)) in
    mret (state, match state with
                 | CertificateFailed => Some (default "switch certificate configuration failed"%string text)
                 | _ => None
                 end)
  else mret (CertificateFailed, Some (default ("RMS could not report status for switch certificate job " +:+ job_id) text)).

(** *** Factory resets *)

(** [rms_batch_reset_switch_factory_default] *)
Definition rms_batch_reset_switch_factory_default (nodes : list NodeInfo) (domain : option string) : rms S string :=
  r ← send (batch_reset_switch_factory_default nodes domain);
  response ← from_result (λ e,
    match e with
    | ApiInvocationError UnimplementedCode _ => Unsupported "RMS does not support switch factory reset"
    | _ => OperationOutcomeUnknown "RMS switch factory-reset submission returned no durable job ID"
    end) r;
  batch ← from_result id (ok_or response
    (OperationOutcomeUnknown "RMS switch factory-reset submission returned no operation response or job ID"));
  if decide (trim (batch_job_id batch) = EmptyString) then
    fail (OperationOutcomeUnknown ("RMS switch factory-reset submission returned no job ID (status " +:+
            print_i (number (batch_status batch)) +:+ "); the operation outcome is unknown"))
  else mret (batch_job_id batch).

(** The nodes of switches, all of which must be known; [resolve_scale_up_fabric_nodes] is
    the same. *)
Definition resolve_all (ids : gmap string (RmsIdentity * string)) (hostnames : gmap string string) (endpoints : list SwitchEndpoint)
    : rms S (list NodeInfo) :=
  for_each (λ ep nodes,
    node ← from_result CmInternal (snd <$> switch_device ids hostnames ep);
    push node nodes) endpoints [].

(** [batch_reset_switch_factory_default] *)
Definition rms_backend_batch_reset_switch_factory_default (endpoints : list SwitchEndpoint) (domain : option string) : rms S string :=
  match endpoints with
  | [] => fail (CmInvalidArgument "switch factory reset requires at least one endpoint")
  | _ =>
      ids ← resolve_switch_identities (ep_bmc_mac <$> endpoints);
      hostnames ← resolve_switch_machine_interface_hostnames endpoints;
      nodes ← resolve_all ids hostnames endpoints;
      rms_batch_reset_switch_factory_default nodes domain
  end.

(** [rms_switch_factory_reset_job_failure] *)
Definition rms_switch_factory_reset_job_failure (job : JobStatus) : string :=
  let code := default ("unknown(" +:+ print_i (error_code job) +:+ ")") (job_error_name (error_code job)) in
  let node := match js_node_id job with Some n => " for node " +:+ n | None => EmptyString end in
  let message := if decide (trim (js_error_message job) = EmptyString) then "no error message"%string else js_error_message job in
  "switch factory-reset job " +:+ js_job_id job +:+ node +:+ " failed with " +:+ code +:+ ": " +:+ message.

Definition is_failed (job : JobStatus) : bool := match execution_state job with ExecutionFailed => true | _ => false end.

(** The loop over the parent and its children *)
Fixpoint reset_states (pending : bool) (jobs : list JobStatus) : result ComponentManagerError SwitchFactoryResetJobStatus :=
  match jobs with
  | [] => Ok (mk_reset_status (if pending then ResetPending else ResetCompleted) None)
  | job :: jobs =>
      match execution_state job with
      | ExecutionQueued | ExecutionRunning => reset_states true jobs
      | ExecutionCompleted => reset_states pending jobs
      | ExecutionFailed => Ok (mk_reset_status ResetFailed (Some (rms_switch_factory_reset_job_failure job)))
      | ExecutionUnspecified | ExecutionOther _ =>
          Err (OperationOutcomeUnknown ("RMS switch factory-reset job " +:+ js_job_id job +:+
                 " returned unknown execution state " +:+ print_i (state_number (execution_state job)) +:+
                 "; the reset outcome is unknown"))
      end
  end.

Definition reset_children (job_id : string) (parent : JobStatus) (jobs : list JobStatus) : list JobStatus :=
  filter (λ j, js_job_id j ≠ job_id ∧ (parent_job_id j = Some job_id ∨ js_job_id j ∈ child_job_ids parent)) jobs.

(** [summarize_rms_switch_factory_reset_jobs] *)
Definition summarize_rms_switch_factory_reset_jobs (job_id : string) (jobs : list JobStatus)
    : result ComponentManagerError SwitchFactoryResetJobStatus :=
  match list_find (λ j, js_job_id j = job_id) jobs with
  | None => Err (OperationOutcomeUnknown ("RMS returned no state for switch factory-reset job " +:+ job_id +:+
                   "; the reset outcome is unknown"))
  | Some (_, parent) =>
      let children := reset_children job_id parent jobs in
      match list_find (λ j, is_failed j = true) children with
      | Some (_, failed) => Ok (mk_reset_status ResetFailed (Some (rms_switch_factory_reset_job_failure failed)))
      | None =>
          if is_failed parent then Ok (mk_reset_status ResetFailed (Some (rms_switch_factory_reset_job_failure parent)))
          else
            let pending := match children with [] => true | _ => false end ||
              existsb (λ c, negb (existsb (λ j, bool_decide (js_job_id j = c)) children)) (child_job_ids parent) in
            reset_states pending (parent :: children)
      end
  end.

(** [rms_get_switch_factory_reset_job_status] *)
Definition rms_get_switch_factory_reset_job_status (job_id : string) : rms S SwitchFactoryResetJobStatus :=
  if decide (trim job_id = EmptyString) then
    fail (CmInvalidArgument "switch factory-reset job ID must be non-empty")
  else
    r ← ask (get_job_status job_id true);
    match r with
    | Ok jobs => from_result id (summarize_rms_switch_factory_reset_jobs job_id jobs)
    | Err (ApiInvocationError NotFoundCode _) =>
        fail (OperationOutcomeUnknown ("RMS has no state for switch factory-reset job " +:+ job_id +:+ "; the reset outcome is unknown"))
    | Err (ApiInvocationError InvalidArgumentCode _) =>
        fail (OperationOutcomeUnknown ("RMS rejected observation of switch factory-reset job " +:+ job_id +:+
                "; the reset outcome is unknown"))
    | Err (ApiInvocationError UnimplementedCode _) =>
        fail (Unsupported "RMS does not support switch factory-reset job status")
    | Err (ApiInvocationError (UnavailableCode | DeadlineExceededCode | CancelledCode | ResourceExhaustedCode) _) | Err (TlsError _) =>
        fail (Unavailable "RMS switch factory-reset job status is temporarily unavailable")
    | Err (ApiInvocationError AnyOtherCode status) =>
        fail (Rms ("RMS could not read switch factory-reset job " +:+ job_id +:+ ": " +:+ status))
    end.

(** *** Passwords *)

(** [rms_ensure_switch_password_rotation] *)
Definition rms_ensure_switch_password_rotation (device : NodeInfo) (current : Credentials) (next_password : string) : rms S string :=
  if bool_decide (username current = EmptyString) || bool_decide (password current = EmptyString) ||
     bool_decide (next_password = EmptyString)
  then fail (RejectedBeforeDispatch "switch password rotation requires non-empty username, current password, and next password")
  else
    r ← send (update_switch_system_password [device] (username current) next_password);
    response ← from_result (λ e,
      match e with
      | ApiInvocationError InvalidArgumentCode _ => RejectedBeforeDispatch "RMS rejected the switch password rotation request"
      | ApiInvocationError UnimplementedCode _ => Unsupported "RMS does not support switch password rotation"
      | _ => OperationOutcomeUnknown "RMS switch password request returned no durable job ID"
      end) r;
    batch ← from_result id (ok_or response
      (OperationOutcomeUnknown "RMS switch password rotation returned no operation response or job ID"));
    if decide (batch_job_id batch = EmptyString) then
      fail (OperationOutcomeUnknown ("RMS switch password rotation returned no job ID (status " +:+
              print_i (number (batch_status batch)) +:+ "); the operation outcome is unknown"))
    else mret (batch_job_id batch).

(** [ensure_password_rotation] *)
Definition rms_backend_ensure_password_rotation (enabled : bool) (ep : SwitchEndpoint) (next_password : string) : rms S string :=
  if negb enabled then
    fail (Unsupported "RMS switch password rotation is disabled; enable it only after every RMS server has been upgraded")
  else
    '(resolved, hostnames) ← resolved_switch ep;
    rms_ensure_switch_password_rotation
      (build_switch_password_rotation_node_info ep resolved (hostnames !! ep_nvos_mac ep)) (nvos_credentials ep) next_password.

(** [rms_get_switch_password_rotation_job_status] *)
Definition rms_get_switch_password_rotation_job_status (job_id : string) : rms S SwitchPasswordRotationState :=
  if decide (job_id = EmptyString) then
    fail (CmInvalidArgument "switch password rotation job ID must be non-empty")
  else
    r ← ask (get_job_status job_id true);
    match r with
    | Ok jobs => mret (summarize_password_rotation_jobs job_id jobs)
    | Err (ApiInvocationError NotFoundCode _) => mret JobNotFound
    | Err (ApiInvocationError InvalidArgumentCode _) =>
        fail (CmInvalidArgument "RMS rejected the switch password-rotation job status request")
    | Err (ApiInvocationError UnimplementedCode _) =>
        fail (Unsupported "RMS does not support switch password-rotation job status")
    | Err (ApiInvocationError (UnavailableCode | DeadlineExceededCode | CancelledCode | ResourceExhaustedCode) _) | Err (TlsError _) =>
        fail (Unavailable "RMS switch password-rotation job status is temporarily unavailable")
    | Err (ApiInvocationError AnyOtherCode _) =>
        fail (CmInternal "RMS switch password-rotation job status could not be read")
    end.

(** *** Scale-up fabric *)

(** [RackHardwareTopology] and its text *)
Inductive RackHardwareTopology :=
| Gb200Nvl36r1C2g4Topology | Gb300Nvl36r1C2g4Topology | Gb200Nvl72r1C2g4Topology | Gb300Nvl72r1C2g4Topology
| VrNvl8r1C2g4RtfTopology | VrNvl72r1C2g4Topology.
Definition topology_text (t : RackHardwareTopology) : string :=
  match t with
  | Gb200Nvl36r1C2g4Topology => "gb200_nvl36r1_c2g4_topology"
  | Gb300Nvl36r1C2g4Topology => "gb300_nvl36r1_c2g4_topology"
  | Gb200Nvl72r1C2g4Topology => "gb200_nvl72r1_c2g4_topology"
  | Gb300Nvl72r1C2g4Topology => "gb300_nvl72r1_c2g4_topology"
  | VrNvl8r1C2g4RtfTopology => "vr_nvl8r1_c2g4_rtf_topology"
  | VrNvl72r1C2g4Topology => "vr_nvl72r1_c2g4_topology"
  end.

(** [ScaleUpFabricManagerJobStatus] *)
Inductive ScaleUpFabricManagerJobStatus :=
| FabricJobPending (description : string)
| FabricJobCompleted
| FabricJobFailed (error : option string)
| FabricJobUnknown (state : Z).

(** [ScaleUpFabricResponseStatus] *)
Inductive ScaleUpFabricResponseStatus := ResponseSuccess | ResponseFailure | ResponseUnknown (status : Z).

(** [scale_up_fabric_response_status_from_rms] *)
Definition scale_up_fabric_response_status_from_rms (status : ReturnCode) : ScaleUpFabricResponseStatus :=
  match status with
  | Success => ResponseSuccess
  | Failure => ResponseFailure
  | UnspecifiedCode | OtherCode _ => ResponseUnknown (number status)
  end.

(** [scale_up_fabric_job_status_from_rms] *)
Definition scale_up_fabric_job_status_from_rms (job_id : string) (jobs : list JobStatus) : option ScaleUpFabricManagerJobStatus :=
  job ← list_find (λ j, js_job_id j = job_id) jobs;
  let job := job.2 in
  Some (match execution_state job with
        | ExecutionQueued | ExecutionRunning => FabricJobPending (state_description job)
        | ExecutionCompleted => FabricJobCompleted
        | ExecutionFailed =>
            FabricJobFailed (if decide (trim (js_error_message job) = EmptyString) then None else Some (js_error_message job))
        | ExecutionUnspecified | ExecutionOther _ => FabricJobUnknown (state_number (execution_state job))
        end).

(** [fabric_manager_status_from_rms] *)
Definition fabric_manager_status_from_rms (entry : ServiceStatusEntry) : FabricManagerStatus :=
  if decide (trim (entry_error_message entry) ≠ EmptyString) then
    mk_fabric_status FabricUnknown None None (Some (entry_error_message entry))
  else if decide (trim (status_json entry) = EmptyString) then mk_fabric_status FabricUnknown None None None
  else match status_from_json (status_json entry) with
       | None => mk_fabric_status FabricUnknown None None None
       | Some payload =>
           let status := default EmptyString (payload_status payload) in
           mk_fabric_status (if decide (status = "ok"%string) then FabricOk
                             else if decide (status = "not ok"%string) then FabricNotOk else FabricUnknown)
             (payload_addition_info payload) (payload_reason payload) None
       end.

(** [resolve_scale_up_fabric_nodes] *)
Definition resolve_scale_up_fabric_nodes (endpoints : list SwitchEndpoint) : rms S (list NodeInfo) :=
  ids ← resolve_switch_identities (ep_bmc_mac <$> endpoints);
  hostnames ← resolve_switch_machine_interface_hostnames endpoints;
  resolve_all ids hostnames endpoints.

(** [configure_scale_up_fabric_manager], with [scale_up_fabric_manager_job_id_from_rms] *)
Definition rms_backend_configure_scale_up_fabric_manager (endpoints : list SwitchEndpoint) (topology : RackHardwareTopology)
    : rms S string :=
  nodes ← resolve_scale_up_fabric_nodes endpoints;
  r ← send (configure_scale_up_fabric_manager_v2 nodes (topology_text topology));
  job_id ← from_result from_rack_manager r;
  if decide (trim job_id = EmptyString) then
    fail (OperationOutcomeUnknown "RMS ConfigureScaleUpFabricManagerV2 returned an empty job ID")
  else mret job_id.

(** [get_scale_up_fabric_manager_job_status] *)
Definition get_scale_up_fabric_manager_job_status (job_id : string) : rms S (option ScaleUpFabricManagerJobStatus) :=
  r ← ask (get_job_status job_id false);
  match r with
  | Err (ApiInvocationError NotFoundCode _) => mret None
  | _ => jobs ← from_result from_rack_manager r; mret (scale_up_fabric_job_status_from_rms job_id jobs)
  end.

(** [get_scale_up_fabric_status], with [scale_up_fabric_status_from_rms] *)
Definition rms_backend_get_scale_up_fabric_status (endpoints : list SwitchEndpoint)
    : rms S (ScaleUpFabricResponseStatus * option (list ScaleUpFabricSwitchStatus) * string) :=
  nodes ← resolve_scale_up_fabric_nodes endpoints;
  r ← ask (get_scale_up_fabric_status nodes);
  '(status, switches, error) ← from_result from_rack_manager r;
  mret (scale_up_fabric_response_status_from_rms status, switches, error).

(** [batch_get_scale_up_fabric_service_status], with [scale_up_fabric_service_statuses_from_rms] *)
Definition rms_backend_batch_get_scale_up_fabric_service_status (endpoints : list SwitchEndpoint)
    : rms S (ScaleUpFabricResponseStatus * gmap string FabricManagerStatus) :=
  nodes ← resolve_scale_up_fabric_nodes endpoints;
  r ← ask (batch_get_scale_up_fabric_service_status nodes);
  '(status, entries) ← from_result from_rack_manager r;
  mret (scale_up_fabric_response_status_from_rms status, fabric_manager_status_from_rms <$> entries).

End Backend.
