(* ===== verification/NvosRotationFacts.v ===== *)
(** * What the rotation of switch passwords guarantees

    Whatever fails and wherever the process dies, the account of a switch has the password
    that the database calls confirmed, or the one of the version it calls staged.  A run
    that reports the switch as up to date has brought account and store together.  The
    passwords of the versions are told apart by [pw], whose value at [-1] is the password
    the switch came with. *)

From S2P Require Import Prelude StateHandler Credentials RotationWorld CredentialRotation Calls HandlerRuns NvosRotation.

(** ** What the backend promises *)

Definition request_of (ep : SwitchEndpoint) (next : string) : NvosRequest :=
  mk_nvos_request (ep_bmc_mac ep) (nvos_credentials ep) next.

(** The documentation of [NvSwitchManager]: a job id stands for an accepted request; when
    the outcome is unknown the request may have been accepted; any other error means that
    it was not; a job that is reported as completed has succeeded. *)
Class PasswordBackend `{M : NvSwitchManager} : Prop := {
  ensure_ok ep next w j w' : ensure_password_rotation ep next w = (Ok j, w') →
    ∃ f, accepted (request_of ep next) (fabric w) (Some j) f ∧ w' = set_fabric f w;
  ensure_unknown ep next w e w' : ensure_password_rotation ep next w = (Err (OperationOutcomeUnknown e), w') →
    w' = w ∨ ∃ oj f, accepted (request_of ep next) (fabric w) oj f ∧ w' = set_fabric f w;
  ensure_error ep next w e w' : ensure_password_rotation ep next w = (Err e, w') →
    (∀ t, e ≠ OperationOutcomeUnknown t) → w' = w;
  status_completed j w : get_password_rotation_job_status j w = Ok JobCompleted →
    ∃ r, rms_jobs (fabric w) !! j = Some (r, true);
}.

Definition well_formed (ep : SwitchEndpoint) (next : string) : Prop :=
  username (nvos_credentials ep) ≠ EmptyString ∧ password (nvos_credentials ep) ≠ EmptyString ∧ next ≠ EmptyString.

(** The rejection of a well-formed request proves that no request for the same password
    was accepted, this time or before. *)
Class RejectsCleanly `{M : NvSwitchManager} : Prop :=
  rejected_clean ep next w e w' : well_formed ep next →
    ensure_password_rotation ep next w = (Err (RejectedBeforeDispatch e), w') →
    ∀ r, r ∈ rms_requests (fabric w) → rq_mac r = ep_bmc_mac ep → rq_next r ≠ next.

(** ** The state of a switch *)

Section Facts.
Context (mac id u : string) (pw : Z → string) (es : option ExpectedSwitch).
Context (Hmac : no_slash mac) (Hsite : mac ≠ "site"%string) (Hu : u ≠ EmptyString).
Context (Hinj : ∀ i j, -1 ≤ i → -1 ≤ j → pw i = pw j → i = j) (Hpw : ∀ i, -1 ≤ i → pw i ≠ EmptyString).

Notation admin := (SwitchNvosAdmin mac).
Notation account l := (UsernamePassword u (pw l)).

Definition confirmed (d : option DeviceRow) : option Z := d ≫= current_version.
Definition cur (d : option DeviceRow) : Z := default (-1) (confirmed d).
Definition stg (d : option DeviceRow) : option Z := d ≫= rotating_to_version.
Definition job (d : option DeviceRow) : option string := d ≫= rotate_job_id.
Definition err (d : option DeviceRow) : Prop := is_Some (d ≫= rotate_last_error_redacted).

(** The account has the confirmed password or the staged one. *)
Definition range (d : option DeviceRow) (l : Z) : Prop :=
  -1 ≤ cur d ∧ match stg d with None => l = cur d | Some v => cur d < v ∧ (l = cur d ∨ l = v) end.

(** A request leads from an earlier password to a confirmed one, or from the confirmed to
    the staged one, which the account may have already. *)
Definition harmless (d : option DeviceRow) (l : Z) (r : NvosRequest) : Prop :=
  ∃ i n, rq_current r = account i ∧ rq_next r = pw n ∧ -1 ≤ i ≤ n ∧
    (n ≤ cur d ∨ stg d = Some n ∧ (i = cur d ∨ l = n)).

(** A job stands for a request to a version; no request for a version was accepted. *)
Definition has_job (j : string) (v : Z) (f : SwitchFabric) : Prop :=
  ∃ r b, rms_jobs f !! j = Some (r, b) ∧ rq_mac r = mac ∧ rq_next r = pw v.
Definition no_request (v : Z) (f : SwitchFabric) : Prop :=
  ∀ r, r ∈ rms_requests f → rq_mac r = mac → rq_next r ≠ pw v.

Record fabric_ok (d : option DeviceRow) (l : Z) (f : SwitchFabric) : Prop := {
  f_os : switch_os f !! mac = Some (account l);
  f_requests r : r ∈ rms_requests f → rq_mac r = mac → harmless d l r;
  f_listed j r b : rms_jobs f !! j = Some (r, b) → rq_mac r = mac → r ∈ rms_requests f;
  f_done j r : rms_jobs f !! j = Some (r, true) → rq_mac r = mac → ∃ n, rq_next r = pw n ∧ -1 ≤ n ≤ l;
  f_job j v : job d = Some j → stg d = Some v → has_job j v f;
  f_sent v : stg d = Some v → l = v → ∃ r, r ∈ rms_requests f ∧ rq_mac r = mac ∧ rq_next r = pw v;
  f_error v : err d → stg d = Some v → no_request v f;
}.

(** The credentials that the expected switch announces *)
Definition announced : option (string * string) :=
  es ← es;
  match expected_nvos_credential_pair (nvos_username es) (nvos_password es) with Ok p => p | Err _ => None end.

(** The stored credentials name the account, and hold the staged password only when the
    account does; before the first rotation they are the ones the switch came with. *)
Record stored_ok (d : option DeviceRow) (e : option Credentials) (l : Z) : Prop := {
  s_name c : e = Some c → username c ≠ EmptyString → username c = u;
  s_staged c v : e = Some c → stg d = Some v → password c = pw v → l = v;
  s_first v : stg d = Some v → confirmed d = None → e = Some (account (-1)) ∨ e = Some (account v);
  s_boot a b : announced = Some (a, b) → a = u ∧ (stg d = None → confirmed d = None → b = pw (-1));
  s_bare c : announced = None → e = Some c → stg d = None → confirmed d = None → c = account (-1);
}.

Definition sites_ok (w : World) : Prop :=
  ∀ v c, 0 ≤ v → store w !! path (SwitchNvosSiteAdmin v) = Some c → password c = pw v.
Definition ends_ok (w : World) : Prop := ∀ row, endpoint_rows (fabric w) !! id = Some row → er_bmc_mac row = mac.
Definition published (w : World) : Prop := is_Some (sitewide (rot w) !! Nvos).

Record view (d : option DeviceRow) (e : option Credentials) (l : Z) (w : World) : Prop := {
  v_row : devices (rot w) !! (mac, Nvos) = d;
  v_eff : effective w admin = e;
  v_range : range d l;
  v_fabric : fabric_ok d l (fabric w);
  v_expected : expected_switches (rot w) !! mac = es;
  v_stored : stored_ok d e l;
  v_sites : sites_ok w;
  v_ends : ends_ok w;
  v_published : published w;
}.

(** Of the level only that it is the staged one, if so *)
Definition holds (d : option DeviceRow) (e : option Credentials) (top : bool) (w : World) : Prop :=
  ∃ l, view d e l w ∧ (top = true → stg d = Some l).

(** The switch can be recovered: some row, credentials and level fit together. *)
Definition os_recoverable (w : World) : Prop := ∃ d e, holds d e false w.

(** The account has the confirmed password, which is stored. *)
Definition os_settled (v : Z) (w : World) : Prop := ∃ d,
  devices (rot w) !! (mac, Nvos) = Some d ∧ current_version d = Some v ∧ rotating_to_version d = None ∧
  switch_os (fabric w) !! mac = Some (account v) ∧ effective w admin = Some (account v).

(** ** What others do *)

Definition fabric_step (f f' : SwitchFabric) : Prop :=
  backend_step f f' ∨ ∃ r oj, rq_mac r ≠ mac ∧ accepted r f oj f'.

(** The backend works on accepted requests, and accepts those for other switches; nobody
    else changes the row and the credentials of the switch; versions of the site are
    added, and the target stays published. *)
Record os_lets (w w' : World) : Prop := {
  lets_row : devices (rot w') !! (mac, Nvos) = devices (rot w) !! (mac, Nvos);
  lets_expected : expected_switches (rot w') !! mac = expected_switches (rot w) !! mac;
  lets_store : store w' !! path admin = store w !! path admin;
  lets_shadow : shadow w' !! path admin = shadow w !! path admin;
  lets_sites : sites_ok w → sites_ok w';
  lets_ends : ends_ok w → ends_ok w';
  lets_published : published w → published w';
  lets_fabric : ∃ f, rtc fabric_step (fabric w) f ∧ switch_os (fabric w') = switch_os f ∧
    rms_requests (fabric w') = rms_requests f ∧ rms_jobs (fabric w') = rms_jobs f;
}.

Lemma harmless_from d l r : range d l → harmless d l r → rq_current r = account l →
  rq_next r = pw l ∨ ∃ v, stg d = Some v ∧ l = cur d ∧ rq_next r = pw v.
Proof using Hinj.
  intros [Hc Hr] (i & n & Hi & Hn & Hin & Hd) Hl. rewrite Hi in Hl. injection Hl as Hl.
  assert (i = l) as ->. { apply Hinj; [lia| |done]. destruct (stg d); lia. }
  destruct Hd as [Hd|[Hd _]]; [left|].
  - assert (n = l) as ->; [|done]. destruct (stg d); lia.
  - rewrite Hd in Hr. destruct Hr as [? [->| ->]]; [right; eauto|by left].
Qed.

Lemma fabric_ok_os d l l' f : fabric_ok d l f → l ≤ l' → l' = l ∨ stg d = Some l' →
  (∀ v, stg d = Some v → l' = v → ∃ r, r ∈ rms_requests f ∧ rq_mac r = mac ∧ rq_next r = pw v) →
  fabric_ok d l' (set_os mac (account l') f).
Proof using Type.
  intros [] Hl Hup Hsent. split; simpl; try done.
  - by rewrite lookup_insert_eq.
  - intros r Hin Hmac'. destruct (f_requests0 r Hin Hmac') as (i & n & ? & ? & ? & [?|[Hd Hi]]); exists i, n;
      split_and!; try done; try lia.
    right. split; [done|]. destruct Hi as [?|Hi]; [by left|]. right. destruct Hup as [->|Hup]; congruence.
  - intros j r Hj Hm. destruct (f_done0 j r Hj Hm) as (n & ? & ?). exists n. split; [done|lia].
Qed.

Lemma request_moves d l r f : range d l → fabric_ok d l f → r ∈ rms_requests f → rq_mac r = mac →
  rq_current r = account l →
  ∃ l', range d l' ∧ (l' = l ∨ l = cur d ∧ stg d = Some l') ∧ fabric_ok d l' (set_os mac (rq_target r) f).
Proof using Hinj.
  intros Hr Hf Hin Hm Hc. pose proof (f_requests _ _ _ Hf r Hin Hm) as Hh.
  assert (rq_target r = UsernamePassword u (rq_next r)) as -> by (unfold rq_target; by rewrite Hc).
  destruct (harmless_from d l r Hr Hh Hc) as [Hn|(v & Hv & -> & Hn)]; rewrite Hn.
  - exists l. split_and!; [done|by left|]. apply (fabric_ok_os d l l f); [done|lia|by left|apply Hf].
  - exists v. destruct Hr as [Hc1 Hr]. rewrite Hv in Hr. split_and!.
    + split; [done|]. rewrite Hv. split; [apply Hr|by right].
    + by right.
    + apply (fabric_ok_os d (cur d) v f); [done|lia|by right|]. intros v' Hv' <-. by exists r.
Qed.

Lemma has_job_insert j v f j' r b : (∀ r' b', rms_jobs f !! j' = Some (r', b') → r' = r) →
  has_job j v f → has_job j v (set_job j' r b f).
Proof using Type.
  intros Hr (r0 & b0 & Hj & Hm). unfold has_job. simpl. destruct (decide (j = j')) as [<-|Hne].
  - rewrite lookup_insert_eq. rewrite (Hr _ _ Hj) in Hm. eauto.
  - rewrite lookup_insert_ne by done. eauto.
Qed.

Lemma job_succeeds d l j r b f : range d l → fabric_ok d l f → rms_jobs f !! j = Some (r, b) →
  switch_os f !! rq_mac r = Some (rq_target r) → fabric_ok d l (set_job j r true f).
Proof using Type.
  intros Hr Hf Hj Hos. destruct Hf. split; simpl; try done.
  - intros j' r' b' Hj' Hm. destruct (decide (j' = j)) as [->|Hne].
    + rewrite lookup_insert_eq in Hj'. injection Hj' as <- <-. eauto.
    + rewrite lookup_insert_ne in Hj' by done. eauto.
  - intros j' r' Hj' Hm. destruct (decide (j' = j)) as [->|Hne].
    + rewrite lookup_insert_eq in Hj'. injection Hj' as <-. rewrite Hm, f_os0 in Hos. injection Hos as _ Hos.
      exists l. split; [done|]. destruct Hr as [? Hr]. destruct (stg d); lia.
    + rewrite lookup_insert_ne in Hj' by done. eauto.
  - intros j' v Hd Hv. apply has_job_insert; [|auto]. intros r' b' Hj'. rewrite Hj in Hj'. by injection Hj'.
Qed.

(** The requests of other switches do not matter; those for this one are harmless. *)
Lemma accepted_ok d l r oj f f' : (rq_mac r = mac → harmless d l r ∧ ¬ err d) → accepted r f oj f' →
  fabric_ok d l f → fabric_ok d l f'.
Proof using Type.
  intros Hr Ha []. destruct Ha as [|j Hj|j r' b Hj Hm Hn]; split; simpl; try done.
  all: try (intros r0 [->|]%elem_of_cons ?; [by apply Hr|by eauto]).
  all: try (intros v ? ? r0 [->|]%elem_of_cons ?; [by destruct Hr|by eapply f_error0]).
  all: try (intros j' r0 b0 Hj' Hm'; right; by eauto).
  all: try (intros v ? ?; destruct (f_sent0 v) as (r0 & ? & ? & ?); [done..|]; exists r0; split_and!; [by right|done..]).
  - intros j' r' b' Hj' Hm. destruct (decide (j' = j)) as [->|?].
    + rewrite lookup_insert_eq in Hj'. injection Hj' as <- <-. by left.
    + rewrite lookup_insert_ne in Hj' by done. right. eauto.
  - intros j' r' Hj' Hm. destruct (decide (j' = j)) as [->|?]; [by rewrite lookup_insert_eq in Hj'|].
    rewrite lookup_insert_ne in Hj' by done. eauto.
  - intros j' v Hd Hv. apply has_job_insert; [|by apply f_job0]. simpl. congruence.
Qed.

Lemma fabric_step_ok d l f f' : range d l → fabric_ok d l f → fabric_step f f' →
  ∃ l', range d l' ∧ (l' = l ∨ l = cur d ∧ stg d = Some l') ∧ fabric_ok d l' f'.
Proof using Hinj.
  intros Hr Hf [Hs|(r & oj & Hne & Ha)]; [destruct Hs as [r Hin Hos|j r b Hj Hos]|].
  - destruct (decide (rq_mac r = mac)) as [Hm|Hm].
    + rewrite Hm in *. rewrite (f_os _ _ _ Hf) in Hos. injection Hos as Hos. by apply request_moves.
    + exists l. split_and!; [done|by left|]. destruct Hf. split; try done. simpl. by rewrite lookup_insert_ne.
  - exists l. split_and!; [done|by left|]. by eapply job_succeeds.
  - exists l. split_and!; [done|by left|]. by eapply accepted_ok.
Qed.

Lemma fabric_steps_ok d l f f' : rtc fabric_step f f' → range d l → fabric_ok d l f →
  ∃ l', range d l' ∧ (l' = l ∨ l = cur d ∧ stg d = Some l') ∧ fabric_ok d l' f'.
Proof using Hinj.
  intros Hs. revert l. induction Hs as [f|f f1 f2 Hs _ IH]; intros l Hr Hf; [by eauto|].
  destruct (fabric_step_ok d l f f1 Hr Hf Hs) as (l1 & Hr1 & Hl1 & Hf1).
  destruct (IH l1 Hr1 Hf1) as (l2 & Hr2 & Hl2 & Hf2). exists l2. split_and!; [done| |done].
  destruct Hl1 as [->|[? ?]], Hl2 as [->|[? ?]]; auto.
Qed.

Lemma fabric_ok_eq d l f f' : switch_os f' = switch_os f → rms_requests f' = rms_requests f → rms_jobs f' = rms_jobs f →
  fabric_ok d l f → fabric_ok d l f'.
Proof using Type. destruct f, f'. simpl. intros -> -> -> []. by split. Qed.

Definition stable (P : World → Prop) : Prop := ∀ w w', P w → os_lets w w' → P w'.

Lemma stable_holds d e top : stable (holds d e top).
Proof using Hinj.
  intros w w' (l & Hv & Ht) HR. destruct Hv. destruct (lets_fabric _ _ HR) as (f & Hs & Hos & Hrq & Hjs).
  destruct (fabric_steps_ok d l _ _ Hs v_range0 v_fabric0) as (l' & Hr' & Hl' & Hf').
  exists l'. split.
  - split; try apply HR; try done.
    + etrans; [apply HR|done].
    + rewrite <-v_eff0. unfold effective. by rewrite (lets_store _ _ HR), (lets_shadow _ _ HR).
    + by apply (fabric_ok_eq _ _ f).
    + etrans; [apply HR|done].
    + destruct v_stored0. split; try done.
      intros c v Hc Hv Hp. destruct Hl' as [->|[Hl Hl']]; [eauto|congruence].
  - intros Htop. destruct Hl' as [->|[_ ?]]; auto.
Qed.

(** ** Steps of a run *)

Lemma admin_path_ne v : path admin ≠ path (SwitchNvosSiteAdmin v).
Proof using Hmac Hsite.
  intros E. apply (f_equal (split_on "/")) in E.
  rewrite (to_key_str_join admin (path admin) eq_refl), (to_key_str_join (SwitchNvosSiteAdmin v) (path (SwitchNvosSiteAdmin v)) eq_refl) in E.
  rewrite !(split_join "/"%char) in E; try done; repeat constructor; try done. apply digits_no_slash.
Qed.

Lemma holds_recoverable d e top w : holds d e top w → os_recoverable w.
Proof using Type. intros (l & Hv & _). by exists d, e, l. Qed.

(** Results are as described; after an error the switch can be recovered. *)
Definition ends {E A} (Φ : A → World → Prop) (r : result (stop E) A) (w : World) : Prop :=
  match r with Ok a => Φ a w | Err _ => os_recoverable w end.

Definition triple {E A} (P : World → Prop) (m : prog World E A) (Φ : A → World → Prop) : Prop :=
  hoare (relies os_lets) P m (ends Φ).

(** What can be said between two calls *)
Definition assertion (P : World → Prop) : Prop := stable P ∧ ∀ w, P w → os_recoverable w.

Lemma assertion_holds d e top : assertion (holds d e top).
Proof using Hinj. split; [apply stable_holds|apply holds_recoverable]. Qed.

Lemma assertion_and P X : assertion P → stable X → assertion (λ w, P w ∧ X w).
Proof using Type. intros [Hs Hr] HX. split; [intros w w' [] ?; split; eauto|intros w []; eauto]. Qed.

Lemma triple_ret {E A} P (a : A) (Φ : A → World → Prop) : (∀ w, P w → Φ a w) → triple P (mret a : prog World E A) Φ.
Proof using Type. intros H. by apply hoare_ret. Qed.

Lemma triple_bind {E A B} P (m : prog World E A) (f : A → prog World E B) R Φ :
  triple P m R → (∀ a, triple (R a) (f a) Φ) → triple P (m ≫= f) Φ.
Proof using Type. intros Hm Hf. eapply hoare_seq; [exact Hm|exact Hf|done]. Qed.

(** The result of the first part satisfies a fact about the result alone. *)
Lemma triple_then {E A B} P (X : A → Prop) R (m : prog World E A) (f : A → prog World E B) Φ :
  triple P m (λ a w, X a ∧ R w) → (∀ a, X a → triple R (f a) Φ) → triple P (m ≫= f) Φ.
Proof using Type. intros Hm Hf. eapply triple_bind; [exact Hm|]. intros a. apply hoare_pre. intros Ha. by apply Hf. Qed.

Lemma triple_convert {E E' A} P (g : E → E') (m : prog World E A) Φ : triple P m Φ → triple P (convert g m) Φ.
Proof using Type. intros H. eapply hoare_convert; [exact H|done..]. Qed.

Lemma triple_lift {E A} P (r : result E A) Φ : (∀ w, P w → os_recoverable w) →
  (∀ a w, r = Ok a → P w → Φ a w) → triple P (lift r) Φ.
Proof using Type. intros Hr H. apply hoare_lift. intros w Hw. destruct r; simpl; auto. Qed.

Lemma triple_ok_or {E A} P (o : option A) (e : E) : (∀ w, P w → os_recoverable w) →
  triple P (lift (ok_or o e)) (λ a w, o = Some a ∧ P w).
Proof using Type. intros Hr. apply triple_lift; [done|]. intros a w Ha Hw. destruct o; [|done]. by injection Ha as ->. Qed.

Lemma triple_weaken {E A} P P' (m : prog World E A) Φ Φ' :
  triple P' m Φ' → (∀ w, P w → P' w) → (∀ a w, Φ' a w → Φ a w) → triple P m Φ.
Proof using Type. intros H HP HΦ. eapply hoare_weaken; [exact H|done|]. intros [a|e] w; simpl; auto. Qed.

Lemma triple_call {E A} P wrap (f : Z → World → result E A * World) Φ : assertion P →
  (∀ c w, P w → os_recoverable (f c w).2 ∧ ∀ a, (f c w).1 = Ok a → Φ a (f c w).2) → triple P (call wrap f) Φ.
Proof using Type.
  intros [Hs Hr] Hf. apply (hoare_rely _ _ P); [done| |by intros; apply Hr|by intros; apply Hr].
  intros c w Hw. destruct (Hf c w Hw) as [Hrec Ha]. split; [|done]. destruct (f c w) as [[a|e] w']; simpl in *; auto.
Qed.

Lemma triple_read {E A} P wrap (f : Z → World → result E A) Φ : assertion P →
  (∀ c w a, P w → f c w = Ok a → Φ a w) → triple P (read wrap f) Φ.
Proof using Type.
  intros HP Hf. apply triple_call; [done|]. intros c w Hw. simpl. split; [by apply HP|]. intros a. by apply Hf.
Qed.

Lemma get_admin d e top :
  triple (holds d e top) (get_credentials admin) (λ a w, a = e ∧ holds d e top w).
Proof using Hinj.
  apply triple_read; [apply assertion_holds|]. intros c w a Hw [= <-]. split; [|done]. by destruct Hw as (l & [] & _).
Qed.

Definition reads_site (v : Z) (a : option Credentials) : Prop := 0 ≤ v ∧ ∀ c, a = Some c → password c = pw v.

Lemma read_site d e top v : triple (holds d e top) (read_nvos_site_credentials id v)
  (λ a w, reads_site v a ∧ holds d e top w).
Proof using Hinj.
  unfold read_nvos_site_credentials. destruct (Z.ltb_spec v 0) as [?|Hv].
  - apply triple_lift; [apply holds_recoverable|done].
  - apply triple_convert, triple_read; [apply assertion_holds|]. intros c w a Hw [= <-].
    split; [|done]. split; [done|]. destruct Hw as (l & [] & _). eauto.
Qed.

Lemma query_row d e top : triple (holds d e top) (query (λ db, devices db !! (mac, Nvos)))
  (λ a w, a = d ∧ holds d e top w).
Proof using Hinj.
  apply triple_read; [apply assertion_holds|]. intros c w a Hw [= <-]. split; [|done]. by destruct Hw as (l & [] & _).
Qed.

(** ** Storing credentials *)

Lemma holds_store d e top c w : holds d e top w →
  (∀ l, range d l → stored_ok d e l → (top = true → stg d = Some l) → stored_ok d (Some c) l) →
  let w' := set_store (<[path admin := c]> (store w)) w in holds d e top w' ∨ holds d (Some c) top w'.
Proof using Hmac Hsite.
  intros (l & Hv & Ht) Hc w'. destruct Hv.
  assert (sites_ok w') as Hs.
  { intros v c' H0 Hl. unfold w' in Hl. simpl in Hl. rewrite lookup_insert_ne in Hl by apply admin_path_ne. eauto. }
  destruct (shadow w !! path admin) as [c'|] eqn:Esh; [left|right]; exists l; (split; [|done]); split; try done.
  - rewrite <-v_eff0. unfold effective, w'. simpl. by rewrite Esh.
  - unfold effective, w'. simpl. by rewrite Esh, lookup_insert_eq.
  - by apply Hc.
Qed.

Lemma persist_triple d e top c :
  (∀ l, range d l → stored_ok d e l → (top = true → stg d = Some l) → stored_ok d (Some c) l) →
  triple (holds d e top) (persist_nvos_admin_credentials id mac c) (λ _ w, holds d (Some c) top w).
Proof using Hinj Hmac Hsite.
  intros Hc. set (P := λ w, ∃ e', holds d e' top w).
  assert (HP : assertion P).
  { split; [|by intros w [e' ?]; eapply holds_recoverable]. intros w w' [e' Hw] HR. exists e'. by eapply stable_holds. }
  unfold persist_nvos_admin_credentials. eapply (triple_bind _ _ _ (λ _, P)).
  - apply triple_convert, triple_call; [apply assertion_holds|]. intros t w Hw. simpl.
    destruct (holds_store d e top c w Hw Hc) as [H|H]; (split; [by eapply holds_recoverable|]); intros _ _; eexists; exact H.
  - intros _. eapply (triple_bind _ _ _ (λ _, P)); [apply triple_convert, triple_read; [done|by intros]|].
    intros p. destruct (decide _) as [?|?]; [apply triple_lift; [apply HP|done]|].
    eapply (triple_bind _ _ _ (λ a w, holds d a top w)).
    + apply triple_convert, triple_read; [done|]. intros t w a (e' & l & Hv & Ht) [= <-]. exists l. split; [|done].
      destruct Hv. by rewrite v_eff0.
    + intros a. destruct (decide _) as [Hne|Heq]; [apply triple_lift; [apply holds_recoverable|done]|].
      apply triple_ret. intros w Hw. destruct (decide (a = Some c)) as [->|]; [done|]. by destruct Heq.
Qed.

(** The credentials name the account and have the confirmed or the staged password. *)
Definition ready (d : option DeviceRow) (e : option Credentials) : Prop :=
  ∃ i, e = Some (account i) ∧ (i = cur d ∨ stg d = Some i).

Lemma stored_confirmed d e l : range d l → stored_ok d e l → stored_ok d (Some (account (cur d))) l.
Proof using Hinj.
  intros [Hc Hr] []. split; try done.
  - by intros c [= <-].
  - intros c v [= <-] Hv Hp. rewrite Hv in Hr. apply Hinj in Hp; simpl; lia.
  - intros v Hv Hn. left. unfold cur. by rewrite Hn.
  - intros c _ [= <-] _ Hn. unfold cur. by rewrite Hn.
Qed.

Lemma stored_staged d e l v : stg d = Some v → stored_ok d e l → l = v → stored_ok d (Some (account v)) l.
Proof using Type.
  intros Hv [] ->. split; try done.
  - by intros c [= <-].
  - by intros c v' _ [= <-]%(eq_trans (eq_sym Hv)).
  - intros v' [= <-]%(eq_trans (eq_sym Hv)) _. by right.
  - congruence.
Qed.

(** What [restored_credentials] finds for an idle switch, or for one with a confirmed password *)
Definition restored (d : option DeviceRow) (e : option Credentials) (a : NvosAdminCredentialStatus + Credentials) : Prop :=
  match a with
  | inr c => c = account (cur d)
  | inl Available => False
  | inl Skip => e = None ∧ announced = None
  | inl (CredentialStatusError _) => True
  end.

Lemma restored_triple d e : stg d = None ∨ is_Some (confirmed d) →
  triple (holds d e false) (restored_credentials id e (confirmed d) announced)
    (λ a w, restored d e a ∧ holds d e false w).
Proof using Hinj.
  intros Hi. apply (hoare_assume _ (∃ l, range d l ∧ stored_ok d e l)); [by intros w (l & [] & _); eauto|].
  intros (l & Hr & Hs). unfold restored_credentials. destruct (confirmed d) as [v|] eqn:Ec.
  - eapply triple_then; [apply read_site|]. intros o [Hv Ho].
    eapply triple_then; [apply triple_ok_or, holds_recoverable|]. intros c ->.
    destruct (decide _) as [|_]; [by apply triple_ret|].
    assert (cur d = v) as Hcur by (unfold cur; by rewrite Ec). rewrite (Ho c eq_refl).
    destruct e as [ce|]; simpl; [destruct (decide (username ce = EmptyString)) as [|Hn]|].
    2: { apply triple_ret. intros w Hw. simpl. by rewrite Hcur, (s_name _ _ _ Hs ce eq_refl Hn). }
    all: destruct announced as [[a b]|] eqn:Ea; [|by apply triple_ret]; apply triple_ret; intros w Hw;
      destruct (s_boot _ _ _ Hs a b Ea) as [-> _]; simpl; by rewrite Hcur.
  - destruct Hi as [Hi|[? ?]]; [|done]. assert (cur d = -1) as Hcur by (unfold cur; by rewrite Ec).
    destruct announced as [[a b]|] eqn:Ea; [|destruct e as [c|]]; apply triple_ret; intros w Hw.
    + destruct (s_boot _ _ _ Hs a b Ea) as [-> Hb]. simpl. by rewrite Hcur, Hb.
    + split; [|exact Hw]. simpl. rewrite Hcur. by apply (s_bare _ _ _ Hs).
    + done.
Qed.

Lemma ready_name d e l c i : stored_ok d e l → e = Some c → username c ≠ EmptyString → password c = pw i →
  i = cur d ∨ stg d = Some i → ready d e.
Proof using Type.
  intros Hs -> Hn Hp Hi. exists i. split; [|done]. destruct c as [a b]. simpl in *.
  by rewrite <-(s_name _ _ _ Hs _ eq_refl Hn), Hp.
Qed.

Lemma usable_some e p : usable_password e = Some p →
  ∃ c, e = Some c ∧ username c ≠ EmptyString ∧ password c ≠ EmptyString ∧ password c = p.
Proof using Type.
  unfold usable_password. destruct e as [c|]; [|done]. simpl. intros H. exists c.
  destruct (bool_decide_reflect (username c = EmptyString)); [done|].
  destruct (bool_decide_reflect (password c = EmptyString)); [done|]. by injection H.
Qed.

(** A staged rotation leaves usable credentials alone. *)
Lemma holds_staged_triple d e v : stg d = Some v →
  triple (holds d e false) (holds_staged id e v) (λ b w, (b = true → ready d e) ∧ holds d e false w).
Proof using Hinj.
  intros Hv. apply (hoare_assume _ (∃ l, stored_ok d e l)); [by intros w (l & [] & _); eauto|].
  intros (l & Hs). unfold holds_staged. destruct (usable_password e) as [p|] eqn:Ee; [|by apply triple_ret].
  apply usable_some in Ee as (c & -> & Hn & _ & <-).
  eapply triple_then; [apply read_site|]. intros o [H0 Ho]. apply triple_ret. intros w Hw. split; [|done].
  destruct o as [cs|]; [|done]. intros Hp%bool_decide_eq_true. rewrite (Ho cs eq_refl) in Hp.
  eapply ready_name; [exact Hs|done|done|exact Hp|by right].
Qed.

Lemma first_ready d e l v : stored_ok d e l → stg d = Some v → confirmed d = None → ready d e.
Proof using Type.
  intros Hs Hv Hc. destruct (s_first _ _ _ Hs v Hv Hc) as [->| ->]; eexists; (split; [done|]); [left; unfold cur; by rewrite Hc|by right].
Qed.

Lemma ensure_admin_triple d e :
  triple (holds d e false) (ensure_nvos_admin_credentials id mac)
    (λ s w, match s with
            | Available => ∃ e', ready d e' ∧ holds d e' false w
            | Skip => (e = None ∧ announced = None) ∧ holds d e false w
            | CredentialStatusError _ => holds d e false w
            end).
Proof using Hinj Hmac Hsite.
  unfold ensure_nvos_admin_credentials.
  eapply triple_then; [apply triple_convert, get_admin|]. intros _ ->.
  eapply (triple_then _ (λ a, a = (es, d))).
  { apply triple_read; [apply assertion_holds|]. intros c w a Hw [= <-]. split; [|exact Hw].
    destruct Hw as (l & [] & _). congruence. }
  intros _ ->.
  apply (hoare_assume _ (∃ l, stored_ok d e l)); [by intros w (l & [] & _); eauto|]. intros (l & Hs).
  eapply (triple_then _ (λ k, match k with
    | Some Available => ready d e | Some Skip => False | Some (CredentialStatusError _) => True
    | None => stg d = None ∨ is_Some (confirmed d) end)).
  { destruct d as [r|]; simpl; [|apply triple_ret; by intros w Hw; split; [left|]].
    destruct (rotating_to_version r) as [v|] eqn:Ev; simpl; [|apply triple_ret; by intros w Hw; split; [left|]].
    destruct (decide (current_version r = None)) as [Hc|Hc].
    - apply triple_ret. intros w Hw. split; [|exact Hw]. destruct (usable_password e) eqn:Ee; [|done]. by eapply first_ready.
    - eapply triple_then; [by apply (holds_staged_triple (Some r))|]. intros [] Hb; apply triple_ret; intros w Hw; (split; [|exact Hw]); [by apply Hb|].
      right. by apply not_eq_None_Some. }
  intros [[| |cause]|] Hk.
  - apply triple_ret. eauto.
  - done.
  - by apply triple_ret.
  - destruct es as [x|] eqn:Ees; [|by apply triple_ret].
    destruct (expected_nvos_credential_pair _ _) as [pair|] eqn:Ep; [|by apply triple_ret].
    assert (announced = pair) as <- by (unfold announced; rewrite Ees; simpl; by rewrite Ep).
    eapply triple_then; [by apply restored_triple|]. intros [[| |cause]|c] Hc.
    + done.
    + by apply triple_ret.
    + by apply triple_ret.
    + simpl in Hc. subst c. eapply triple_bind; [apply persist_triple; intros; by eapply stored_confirmed|].
      intros []. apply triple_ret. intros w Hw. eexists. split; [|exact Hw]. exists (cur d). by auto.
Qed.

(** ** Inputs *)

Definition inputs_of (e : option Credentials) (v : Z) (i : RotationInputs) : Prop :=
  e = Some (nvos_credentials (endpoint i)) ∧ ep_bmc_mac (endpoint i) = mac ∧
  target_credentials i = UsernamePassword (username (nvos_credentials (endpoint i))) (pw v).

Lemma resolve_triple d e top : triple (holds d e top) (resolve_switch_endpoint id)
  (λ ep w, (e = Some (nvos_credentials ep) ∧ ep_bmc_mac ep = mac) ∧ holds d e top w).
Proof using Hinj.
  unfold resolve_switch_endpoint.
  eapply (triple_then _ (λ o, ∀ row, o = Some row → er_bmc_mac row = mac)).
  { apply triple_read; [apply assertion_holds|]. intros c w a Hw [= <-]. split; [|exact Hw].
    destruct Hw as (l & [] & _). apply v_ends0. }
  intros o Ho. eapply triple_then; [apply triple_ok_or, holds_recoverable|]. intros row ->.
  rewrite (Ho row eq_refl). unfold fetch_switch_nvos_credentials.
  eapply (triple_then _ (λ c, e = Some c)).
  { eapply triple_then; [apply triple_convert, get_admin|]. intros _ ->. apply triple_ok_or, holds_recoverable. }
  intros c ->. apply triple_lift; [apply holds_recoverable|]. unfold switch_endpoint_from_row. intros ep w Hep Hw.
  destruct (er_nvos_mac row), (er_nvos_ip row); try done. injection Hep as <-. split; [|exact Hw]. split; [done|by apply Ho].
Qed.

Lemma inputs_triple d e top v : triple (holds d e top) (rotation_inputs id v)
  (λ i w, inputs_of e v i ∧ holds d e top w).
Proof using Hinj.
  unfold rotation_inputs.
  eapply triple_then; [apply triple_convert, resolve_triple|]. intros ep [He Hm].
  eapply triple_then; [apply read_site|]. intros o [Hv Ho].
  eapply triple_then; [apply triple_ok_or, holds_recoverable|]. intros c ->.
  destruct (_ || _); [apply triple_lift; [apply holds_recoverable|done]|].
  apply triple_ret. intros w Hw. split; [|exact Hw]. unfold inputs_of. simpl. by rewrite (Ho c eq_refl).
Qed.

(** ** Rows *)

Lemma transaction_triple {A} P (f : Z → rotation_db → result DatabaseError (A * rotation_db)) Φ : assertion P →
  (∀ now w, P w → match f now (rot w) with
                  | Ok (a, r) => os_recoverable (set_rot r w) ∧ Φ a (set_rot r w)
                  | Err _ => True end) →
  triple P (transaction f) Φ.
Proof using Type.
  intros HP Hf. apply triple_call; [done|]. intros now w Hw. specialize (Hf now w Hw).
  destruct (f now (rot w)) as [[a r]|e]; simpl; [|split; [by apply HP|done]].
  destruct Hf. split; [done|]. by intros ? [= <-].
Qed.

Lemma set_rot_same w : set_rot (rot w) w = w.
Proof using Type. by destruct w. Qed.

Lemma view_os_row d e l d' w : view d e l w → range (Some d') l → fabric_ok (Some d') l (fabric w) →
  stored_ok (Some d') e l → view (Some d') e l (set_rot (set_device (mac, Nvos) d' (rot w)) w).
Proof using Type. intros [] Hr Hf Hs. split; try done. simpl. by rewrite lookup_insert_eq. Qed.

(** A row with the same versions *)
Lemma fabric_same d d' l f : confirmed d' = confirmed d → stg d' = stg d →
  (∀ j v, job d' = Some j → stg d = Some v → has_job j v f) → (∀ v, err d' → stg d = Some v → no_request v f) →
  fabric_ok d l f → fabric_ok d' l f.
Proof using Type.
  intros Hc Hv Hj He []. split; rewrite ?Hv; try done.
  intros r Hr Hm. destruct (f_requests0 r Hr Hm) as (i & n & ? & ? & ? & Hn). exists i, n. unfold cur. rewrite Hc, Hv. done.
Qed.

Lemma holds_same d e top d' w : confirmed (Some d') = confirmed d → stg (Some d') = stg d →
  (∀ j v, job (Some d') = Some j → stg d = Some v → has_job j v (fabric w)) →
  (∀ v, err (Some d') → stg d = Some v → no_request v (fabric w)) →
  holds d e top w → holds (Some d') e top (set_rot (set_device (mac, Nvos) d' (rot w)) w).
Proof using Type.
  intros Hc Hv Hj He (l & Hw & Ht). exists l. rewrite Hv. split; [|done].
  assert (range (Some d') l) as Hr. { destruct Hw. unfold range, cur in *. by rewrite Hc, Hv. }
  eapply view_os_row; [exact Hw|done| |].
  - eapply fabric_same; [done..|apply Hw].
  - destruct Hw as [_ _ _ _ _ []]. split; rewrite ?Hv, ?Hc; done.
Qed.

Lemma ready_same d d' e : confirmed d' = confirmed d → stg d' = stg d → ready d e → ready d' e.
Proof using Type. intros Hc Hv (i & ? & ?). exists i. unfold cur. by rewrite Hc, Hv. Qed.

(** A version that was rejected has never reached the switch. *)
Lemma level_confirmed d l f : range d l → fabric_ok d l f → stg d = None ∨ err d → l = cur d.
Proof using Type.
  intros [_ Hr] [] Hi. destruct (stg d) as [r|] eqn:Er; [|done]. destruct Hr as [_ [->| ->]]; [done|].
  destruct Hi as [|Hi]; [done|]. destruct (f_sent0 r eq_refl eq_refl) as (rq & Hin & Hm & Hn).
  by destruct (f_error0 r Hi eq_refl rq Hin Hm).
Qed.

Lemma restage d d' e l f v : confirmed d' = confirmed d → stg d' = Some v → job d' = None → ¬ err d' →
  cur d < v → stg d = None ∨ err d → range d l → fabric_ok d l f → stored_ok d e l → ready d e →
  range d' l ∧ fabric_ok d' l f ∧ stored_ok d' e l ∧ ready d' e.
Proof using Hinj.
  intros Hc Hv Hj He Hlt Hi Hr Hf Hs (i & -> & Hri).
  assert (cur d' = cur d) as Hcur by (unfold cur; by rewrite Hc).
  pose proof (level_confirmed d l f Hr Hf Hi) as ->. pose proof Hr as [Hge Hr'].
  assert (i = cur d) as ->.
  { destruct Hri as [|Hri]; [done|]. by rewrite (s_staged _ _ _ Hs _ i eq_refl Hri eq_refl). }
  split_and!.
  - split; rewrite Hcur, ?Hv; [done|]. split; [done|by left].
  - destruct Hf. split; rewrite ?Hv, ?Hj; try done.
    + intros r Hr0 Hm. destruct (f_requests0 r Hr0 Hm) as (i & n & ? & Hn & ? & [Hd|Hd]); exists i, n; rewrite Hcur; [by auto|]. destruct Hd as [Hd _].
      destruct Hi as [Hi|Hi]; [congruence|]. by destruct (f_error0 n Hi Hd r Hr0 Hm).
    + intros v' [= <-] ?. lia.
  - destruct Hs. split; rewrite ?Hv, ?Hc; try done.
    + intros c v' [= <-] [= <-] Hp. apply Hinj in Hp; lia.
    + intros v' [= <-] Hn. left. unfold cur. by rewrite Hn.
    + intros a b Ha. destruct (s_boot0 a b Ha). done.
  - exists (cur d). by rewrite Hcur; auto.
Qed.

(** ** Facts about the backend that stay *)

Lemma stable_fabric (X : SwitchFabric → Prop) : (∀ f f', fabric_step f f' → X f → X f') →
  (∀ f f', rms_requests f' = rms_requests f → rms_jobs f' = rms_jobs f → X f → X f') → stable (λ w, X (fabric w)).
Proof using Type.
  intros Hs He w w' Hw HR. destruct (lets_fabric _ _ HR) as (f & Hrtc & _ & Hrq & Hjs).
  apply (He f); [done..|]. clear -Hs Hrtc Hw. induction Hrtc; eauto.
Qed.

Lemma stable_has_job j v : stable (λ w, has_job j v (fabric w)).
Proof using Type.
  apply stable_fabric.
  - intros f f' [[r Hr Ho|j' r b Hj Ho]|(r & oj & Hne & [|j' Hj|j' r' b Hj _ _])]; try done.
    + apply has_job_insert. intros. congruence.
    + intros Hx. apply has_job_insert; [simpl; congruence|done].
  - unfold has_job. by intros f f' _ ->.
Qed.

Lemma stable_no_request v : stable (λ w, no_request v (fabric w)).
Proof using Type.
  apply stable_fabric.
  - intros f f' [[]|(r & oj & Hne & Ha)] Hx; try done.
    intros r' Hr' Hm. assert (r' ≠ r) by congruence. destruct Ha; simpl in Hr'; (apply elem_of_cons in Hr' as [|]; [done|by apply Hx]).
  - unfold no_request. by intros f f' -> _.
Qed.

Definition os_unmanaged (w : World) : Prop := effective w admin = None ∧ announced = None.

(** What a run promises *)
Definition reconciled (o : NvosPasswordRotationOutcome) (w : World) : Prop :=
  os_recoverable w ∧ (o = UpToDate → (∃ v, os_settled v w) ∨ os_unmanaged w).

Lemma waiting w why : os_recoverable w → reconciled (Waiting why) w.
Proof using Type. by split. Qed.

Lemma triple_waiting P why : (∀ w, P w → os_recoverable w) → triple P (mret (Waiting why) : handler _) reconciled.
Proof using Type. intros H. apply triple_ret. intros w Hw. by apply waiting, H. Qed.

Lemma triple_fails {A} P e (Φ : A → World → Prop) : (∀ w, P w → os_recoverable w) → triple P (lift (Err e) : handler A) Φ.
Proof using Type. intros H. by apply triple_lift. Qed.

Lemma triple_try {E E' A B} P (m : prog World E' A) R (f : result E' A → prog World E B) Φ :
  triple P m R → (∀ a, triple (R a) (f (Ok a)) Φ) → (∀ e, triple os_recoverable (f (Err e)) Φ) →
  triple P (catch m ≫= f) Φ.
Proof using Type. intros Hm Ha He. eapply hoare_try; [exact Hm|done..]. Qed.

(** ** An attempt *)

Context {M : NvSwitchManager} {HB : PasswordBackend} {HC : RejectsCleanly}.

(** A request from the stored credentials to the staged password *)
Definition sends (d : option DeviceRow) (e : option Credentials) (r : NvosRequest) : Prop :=
  ∃ i v, stg d = Some v ∧ e = Some (account i) ∧ (i = cur d ∨ stg d = Some i) ∧ rq_current r = account i ∧ rq_next r = pw v.

Lemma sends_harmless d e l r : sends d e r → range d l → stored_ok d e l → harmless d l r.
Proof using Type.
  intros (i & v & Hv & -> & Hi & Hc & Hn) [Hge Hr] Hs. exists i, v. rewrite Hv in Hr, Hi |- *.
  split_and!; try done; try (destruct Hi as [?|[= ?]]; lia).
  right. split; [done|]. destruct Hi as [?|[= <-]]; [by left|]. right. by apply (s_staged _ _ _ Hs _ v eq_refl Hv).
Qed.

Lemma accept_mine d e v ep next oj f w : sends d e (request_of ep next) → ¬ err d → ep_bmc_mac ep = mac → next = pw v →
  accepted (request_of ep next) (fabric w) oj f → holds d e false w →
  holds d e false (set_fabric f w) ∧ ∀ j, oj = Some j → has_job j v f.
Proof using Type.
  intros Hh He Hm -> Ha (l & Hw & _). pose proof (sends_harmless _ _ _ _ Hh (v_range _ _ _ _ Hw) (v_stored _ _ _ _ Hw)).
  destruct Hw. split.
  - exists l. split; [|done]. split; try done; [by eapply accepted_ok|]. destruct Ha; done.
  - intros j ->. inversion Ha as [|j' Hj|j' r' b Hj Hm' Hn]; subst.
    + eexists _, false. simpl. by rewrite lookup_insert_eq.
    + eexists r', b. split_and!; [done|by rewrite Hm'|by rewrite Hn].
Qed.

(** The call that submits, and what is known after it *)
Lemma submit_triple d e v i : sends d e (request_of (endpoint i) (pw v)) → ¬ err d → ep_bmc_mac (endpoint i) = mac →
  well_formed (endpoint i) (pw v) →
  hoare (relies os_lets) (holds d e false)
    (call OperationOutcomeUnknown (λ _, ensure_password_rotation (endpoint i) (pw v)))
    (λ r w, match r with
            | Ok j => holds d e false w ∧ has_job j v (fabric w)
            | Err (Failed (RejectedBeforeDispatch _)) => holds d e false w ∧ no_request v (fabric w)
            | Err _ => os_recoverable w
            end).
Proof using HB HC Hinj.
  intros Hh He Hm Hwf. apply (hoare_rely _ _ (holds d e false)); [apply stable_holds| |by intros; eapply holds_recoverable..].
  intros _ w Hw. destruct (ensure_password_rotation (endpoint i) (pw v) w) as [[j|x] w'] eqn:Ee; simpl.
  - destruct (ensure_ok _ _ _ _ _ Ee) as (f & Ha & ->).
    destruct (accept_mine d e v _ _ _ _ _ Hh He Hm eq_refl Ha Hw) as [Hw' Hj].
    split; [split; [done|by apply Hj]|]. intros _. by eapply holds_recoverable.
  - assert (os_recoverable w') as Hr.
    { assert ((∃ t, x = OperationOutcomeUnknown t) ∨ ∀ t, x ≠ OperationOutcomeUnknown t) as [[t ->]|Hne]
        by (destruct x; eauto; by right).
      - destruct (ensure_unknown _ _ _ _ _ Ee) as [->|(oj & f & Ha & ->)]; [by eapply holds_recoverable|].
        eapply holds_recoverable. by eapply accept_mine.
      - rewrite (ensure_error _ _ _ _ _ Ee) by done. by eapply holds_recoverable. }
    split; [|done]. destruct x; try done.
    rewrite (ensure_error _ _ _ _ _ Ee) by done. split; [done|]. intros r Hin Hm'. eapply rejected_clean; [exact Hwf|exact Ee|done|congruence].
Qed.

Lemma ready_sends d e v i : ready d e → inputs_of e v i → stg d = Some v →
  sends d e (request_of (endpoint i) (pw v)) ∧ target_credentials i = account v.
Proof using Type.
  intros (k & -> & Hk) (He & _ & Ht) Hv. injection He as He. rewrite <-He in Ht. split; [|exact Ht].
  exists k, v. unfold request_of. simpl. by rewrite <-He.
Qed.

Lemma ready_well_formed d e v l i : range d l → ready d e → inputs_of e v i → stg d = Some v → well_formed (endpoint i) (pw v).
Proof using Hpw Hu.
  intros [Hge Hr] (k & -> & Hk) (He & _) Hv. injection He as He. unfold well_formed. rewrite <-He, Hv in *. simpl.
  split_and!; [done|apply Hpw; destruct Hk as [?|[= ?]]; lia|apply Hpw; lia].
Qed.

(** A statement that leaves the switch recoverable *)
Lemma transaction_recovers {A} P (f : Z → rotation_db → result DatabaseError (A * rotation_db)) : assertion P →
  (∀ now w, P w → match f now (rot w) with Ok (_, r) => os_recoverable (set_rot r w) | Err _ => True end) →
  triple P (transaction f) (λ _, os_recoverable).
Proof using Type.
  intros HP Hf. apply transaction_triple; [done|]. intros now w Hw. specialize (Hf now w Hw).
  by destruct (f now (rot w)) as [[a r]|e].
Qed.

Lemma holds_row d e top w : holds d e top w → devices (rot w) !! (mac, Nvos) = d.
Proof using Type. by intros (l & [] & _). Qed.

Lemma submitted_recovers d e v n j : ¬ err (Some d) →
  triple (λ w, holds (Some d) e false w ∧ has_job j v (fabric w))
    (transaction (λ _, record_device_rotation_submitted mac Nvos v n j)) (λ _, os_recoverable).
Proof using Hinj.
  intros He. apply transaction_recovers; [apply (assertion_and _ _ (assertion_holds _ _ _) (stable_has_job j v))|].
  intros now w [Hw Hj]. unfold record_device_rotation_submitted. destruct (bool_decide _); [done|].
  rewrite (holds_row _ _ _ _ Hw). destruct (_ && _) eqn:Eg; [|rewrite set_rot_same; by eapply holds_recoverable].
  rewrite !andb_true_iff, bool_decide_eq_true in Eg. destruct Eg as [[[Hv _] _] _].
  eapply holds_recoverable, (holds_same (Some d)); [done..| | |exact Hw]; [|done].
  intros j' v' [= <-] Hv'. simpl in Hv'. rewrite Hv in Hv'. by injection Hv' as <-.
Qed.

Lemma failed_recovers d e v n text :
  triple (λ w, holds (Some d) e false w ∧ no_request v (fabric w))
    (transaction (λ _ db, Ok (record_device_rotation_failed mac Nvos v n text db))) (λ _, os_recoverable).
Proof using Hinj.
  apply transaction_recovers; [apply (assertion_and _ _ (assertion_holds _ _ _) (stable_no_request v))|].
  intros now w [Hw Hn]. unfold record_device_rotation_failed.
  rewrite (holds_row _ _ _ _ Hw). destruct (_ && _) eqn:Eg; [|rewrite set_rot_same; by eapply holds_recoverable].
  rewrite !andb_true_iff, !bool_decide_eq_true in Eg. destruct Eg as [[[Hv _] Hj] _].
  eapply holds_recoverable, (holds_same (Some d)); [done..| | |exact Hw].
  - intros j' v' Hj' _. simpl in Hj'. by rewrite Hj in Hj'.
  - intros v' _ Hv'. simpl in Hv'. rewrite Hv in Hv'. by injection Hv' as <-.
Qed.

Lemma ensure_staged_triple d e v n : ready (Some d) e → rotating_to_version d = Some v → rotate_last_error_redacted d = None →
  triple (holds (Some d) e false) (ensure_staged_rotation (Some M) id mac v n) reconciled.
Proof using HB HC Hinj Hpw Hu.
  intros Hr Hv He. apply (hoare_assume _ (∃ l, range (Some d) l)); [by intros w (l & [] & _); eauto|]. intros [l Hl].
  assert (¬ err (Some d)) as Hne by (unfold err; simpl; rewrite He; by intros [? ?]).
  unfold ensure_staged_rotation. eapply triple_then; [apply triple_ok_or, holds_recoverable|]. intros cm [= <-].
  eapply triple_try; [apply inputs_triple| |intros; by apply triple_waiting].
  intros i. apply hoare_pre. intros Hi. destruct (ready_sends _ _ _ _ Hr Hi Hv) as [Hh ->].
  pose proof (ready_well_formed _ _ _ _ _ Hl Hr Hi Hv). destruct Hi as (_ & Hm & _).
  eapply hoare_try; [by apply submit_triple| | |done].
  - intros j. eapply triple_bind; [by apply submitted_recovers|]. intros []; [by apply triple_waiting|by apply triple_fails].
  - intros x. destruct x; try (by apply triple_fails); [|by apply triple_waiting].
    eapply triple_bind; [apply failed_recovers|]. intros []; [by apply triple_fails|by apply triple_waiting].
Qed.

(** The attempt that a statement has claimed for a version *)
Definition claimed (e : option Credentials) (v : Z) (a : option Z) (w : World) : Prop :=
  match a with
  | None => os_recoverable w
  | Some n => ∃ d, (ready (Some d) e ∧ rotating_to_version d = Some v ∧ rotate_last_error_redacted d = None ∧
      rotate_attempts d = n) ∧ holds (Some d) e false w
  end.

Lemma claimed_triple e v a why : triple (claimed e v a)
  (match a with None => mret (Waiting why) | Some n => ensure_staged_rotation (Some M) id mac v n end) reconciled.
Proof using HB HC Hinj Hpw Hu.
  destruct a as [n|]; [|by apply triple_waiting]. apply hoare_exists. intros d. apply hoare_pre.
  intros (Hr & Hv & He & _). by apply ensure_staged_triple.
Qed.

Lemma claimed_row e v n d w : ready (Some d) e → rotating_to_version d = Some v → rotate_last_error_redacted d = None →
  rotate_attempts d = n → holds (Some d) e false w → os_recoverable w ∧ claimed e v (Some n) w.
Proof using Type. intros. split; [by eapply holds_recoverable|]. exists d. by split_and!. Qed.

Lemma retry_triple d e v n oj : ready (Some d) e →
  triple (holds (Some d) e false) (retry_staged_rotation (Some M) id mac v n oj) reconciled.
Proof using HB HC Hinj Hpw Hu.
  intros Hr. unfold retry_staged_rotation.
  eapply (triple_bind _ _ _ (claimed e v)); [|intros; apply claimed_triple].
  apply transaction_triple; [apply assertion_holds|]. intros now w Hw. unfold record_device_rotation_retry_started.
  rewrite (holds_row _ _ _ _ Hw). destruct (_ && _) eqn:Eg; [|rewrite set_rot_same; by split; eapply holds_recoverable].
  rewrite !andb_true_iff, !bool_decide_eq_true in Eg. destruct Eg as [[[[Hv _] _] _] _].
  destruct (plus_one _) as [m|]; [|done]. simpl.
  match goal with |- context [set_device _ ?d' _] => apply (claimed_row e v m d') end; try done.
  apply (holds_same (Some d)); try done. by intros v' [? ?].
Qed.

Lemma started_claims d e v now w r a : ready d e → holds d e false w →
  record_device_rotation_started now mac Nvos v (rot w) = Ok (a, r) →
  os_recoverable (set_rot r w) ∧ claimed e v a (set_rot r w).
Proof using Hinj.
  intros Hr Hw. unfold record_device_rotation_started. destruct (Z.ltb_spec v 0) as [|Hv]; [done|].
  assert (os_recoverable (set_rot (rot w) w)) as Hsame by (rewrite set_rot_same; by eapply holds_recoverable).
  destruct (sitewide (rot w) !! Nvos) as [s|]; [|by intros [= <- <-]]. destruct (negb _); [by intros [= <- <-]|].
  rewrite (holds_row _ _ _ _ Hw).
  assert (∀ d', confirmed (Some d') = confirmed d → stg (Some d') = Some v → job (Some d') = None → 
    rotate_last_error_redacted d' = None → cur d < v → stg d = None ∨ err d →
    os_recoverable (set_rot (set_device (mac, Nvos) d' (rot w)) w) ∧
    claimed e v (Some (rotate_attempts d')) (set_rot (set_device (mac, Nvos) d' (rot w)) w)) as Hd.
  { intros d' Hc Hs Hj He Hlt Hi. destruct Hw as (l & Hw & _).
    destruct (restage d (Some d') e l (fabric w) v) as (Hr' & Hf' & Hs' & Hrd); try done; try apply Hw.
    - unfold err. simpl. rewrite He. by intros [? ?].
    - apply (claimed_row e v _ d'); try done. exists l. split; [|done]. by eapply view_os_row. }
  destruct d as [d|]; [|intros [= <- <-]; apply Hd; try done; [unfold cur; simpl; lia|by left]].
  destruct (_ && _) eqn:Eg; [|by intros [= <- <-]]. rewrite !andb_true_iff, orb_true_iff in Eg. destruct Eg as [[Hi Hb] _].
  destruct (plus_one _) as [m|]; [|done]. intros [= <- <-]. apply Hd; try done.
  - unfold cur. simpl. destruct (current_version d) as [c|]; simpl; [by apply Z.ltb_lt|lia].
  - destruct Hi as [Hi|Hi]; rewrite ?andb_true_iff, ?bool_decide_eq_true in Hi; [left; by destruct Hi|].
    right. by destruct Hi as [[_ ?] _].
Qed.

Lemma stage_rotation_triple d e v : ready d e →
  triple (holds d e false) (stage_rotation (Some M) id mac v) reconciled.
Proof using HB HC Hinj Hpw Hu.
  intros Hr. unfold stage_rotation. eapply triple_then; [apply inputs_triple|]. intros i _.
  eapply (triple_bind _ _ _ (claimed e v)); [|intros; apply claimed_triple].
  apply transaction_triple; [apply assertion_holds|]. intros now w Hw.
  destruct (record_device_rotation_started _ _ _ _ _) as [[a r]|x] eqn:Es; [|done]. by eapply started_claims.
Qed.

(** ** Completion *)

Lemma done_on_top d e j v w : job d = Some j → stg d = Some v → holds d e false w →
  get_password_rotation_job_status j w = Ok JobCompleted → holds d e true w.
Proof using HB Hinj.
  intros Hj Hv (l & Hw & _) Hs. exists l. split; [done|]. intros _. rewrite Hv. f_equal.
  destruct (status_completed j w Hs) as (r & Hr). destruct Hw.
  destruct (f_job _ _ _ v_fabric0 j v Hj Hv) as (r' & b & Hr' & Hm & Hn). rewrite Hr in Hr'. injection Hr' as <- <-.
  destruct (f_done _ _ _ v_fabric0 j r Hr Hm) as (n & Hn' & Hle). destruct v_range0 as [Hc Hl]. rewrite Hv in Hl.
  rewrite Hn in Hn'. apply Hinj in Hn'; [|lia..]. destruct Hl as [? [?|?]]; lia.
Qed.

Lemma succeeded_settles d v n j w : stg (Some d) = Some v → holds (Some d) (Some (account v)) true w →
  match record_device_rotation_succeeded mac Nvos v n j (rot w) with
  | Ok (b, r) => os_recoverable (set_rot r w) ∧ (b = true → os_settled v (set_rot r w))
  | Err _ => True
  end.
Proof using Type.
  intros Hv Hw. unfold record_device_rotation_succeeded. destruct (bool_decide _); [done|].
  rewrite (holds_row _ _ _ _ Hw). destruct (_ && _) eqn:Eg; [|rewrite set_rot_same; split; [by eapply holds_recoverable|done]].
  destruct Hw as (l & Hw & Hl). rewrite Hv in Hl. injection (Hl eq_refl) as <-. simpl in Hv.
  destruct Hw as [Hrow Heff [Hc Hr] Hf Hes Hs Hsites Hends Hpub]. unfold stg in Hr. simpl in Hr. rewrite Hv in Hr |- *.
  assert (view (Some (mk_device (Some v) None None (rotate_attempts d) (rotate_last_attempt_at d) None None))
    (Some (account v)) v (set_rot (set_device (mac, Nvos)
      (mk_device (Some v) None None (rotate_attempts d) (rotate_last_attempt_at d) None None) (rot w)) w)) as Hw'.
  { split; try done; simpl.
    - by rewrite lookup_insert_eq.
    - split; [|done]. unfold cur. simpl. lia.
    - destruct Hf. split; try done. intros r Hr0 Hm. destruct (f_requests0 r Hr0 Hm) as (i & k & ? & ? & ? & Hd).
      exists i, k. split_and!; try done; try lia. left. unfold cur at 1. simpl.
      destruct Hd as [?|[Hd _]]; [lia|]. unfold stg in Hd. simpl in Hd. rewrite Hv in Hd. injection Hd as <-. lia.
    - destruct Hs. split; try done. intros a b Ha. destruct (s_boot0 a b Ha). done. }
  split; [by eexists _, _, _|]. intros _. eexists. destruct Hw'. split_and!; try done. apply v_fabric0.
Qed.

Lemma complete_triple d e v n j : stg (Some d) = Some v → ready (Some d) e →
  triple (holds (Some d) e true) (complete_staged_rotation id mac v n j) reconciled.
Proof using Hinj Hmac Hsite.
  intros Hv (k & -> & _). unfold complete_staged_rotation.
  eapply triple_then; [apply inputs_triple|]. intros i ([= Hi] & _ & ->). rewrite <-Hi. simpl.
  eapply triple_bind.
  { apply persist_triple. intros l _ Hs Ht. eapply stored_staged; [exact Hv|exact Hs|]. rewrite Hv in Ht. by injection (Ht eq_refl). }
  intros []. eapply (triple_bind _ _ _ (λ b w, os_recoverable w ∧ (b = true → os_settled v w))).
  - apply transaction_triple; [apply assertion_holds|]. intros now w Hw.
    pose proof (succeeded_settles d v n j w Hv Hw) as Hx.
    destruct (record_device_rotation_succeeded _ _ _ _ _ _) as [[b r]|]; [|done]. split; [apply Hx|done].
  - intros []; apply triple_ret; intros w [Hw Hx]; (split; [done|]); [by eauto|done].
Qed.

Lemma reconcile_staged_triple d e : ready (Some d) e →
  triple (holds (Some d) e false) (reconcile_staged_rotation (Some M) id mac d) reconciled.
Proof using HB HC Hinj Hmac Hsite Hpw Hu.
  intros Hr. unfold reconcile_staged_rotation.
  eapply triple_then; [apply triple_ok_or, holds_recoverable|]. intros v Hv.
  destruct (rotate_last_error_redacted d); [apply triple_waiting, holds_recoverable|].
  destruct (rotate_job_id d) as [j|] eqn:Ej; [|by apply retry_triple].
  eapply (triple_try _ _ (λ s w, match s with JobCompleted => holds (Some d) e true w | _ => holds (Some d) e false w end)).
  - apply triple_read; [apply assertion_holds|]. intros c w s Hw Hs. destruct s; try done.
    apply (done_on_top (Some d) e j v); [exact Ej|exact Hv|done..].
  - intros []; try (by apply retry_triple); [apply triple_waiting, holds_recoverable|by apply complete_triple].
  - intros x. by apply triple_waiting.
Qed.

(** ** Reconciliation *)

Lemma idle_settled d e v w : ready (Some d) e → rotating_to_version d = None → current_version d = Some v →
  holds (Some d) e false w → os_settled v w.
Proof using Type.
  intros (i & -> & Hi) Hs Hc (l & Hw & _). unfold stg in Hi. simpl in Hi. rewrite Hs in Hi. destruct Hi as [->|]; [|done].
  destruct Hw as [Hrow Heff [_ Hr] Hf]. unfold stg in Hr. simpl in Hr. rewrite Hs in Hr. subst l.
  assert (cur (Some d) = v) as Hv by (unfold cur, confirmed; simpl; by rewrite Hc). rewrite Hv in *.
  exists d. split_and!; try done. apply Hf.
Qed.

Lemma reconcile_operation_triple d e t : ready d e →
  triple (holds d e false) (reconcile_operation (Some M) id mac t d) reconciled.
Proof using HB HC Hinj Hmac Hsite Hpw Hu.
  intros Hr. unfold reconcile_operation. destruct d as [d|]; [|by apply stage_rotation_triple].
  destruct (rotating_to_version d) as [v|] eqn:Ev.
  - destruct (_ && _); [by apply stage_rotation_triple|by apply reconcile_staged_triple].
  - destruct (current_version d) as [c|] eqn:Ec; [destruct (t <=? c)|]; try by apply stage_rotation_triple.
    apply triple_ret. intros w Hw. split; [by eapply holds_recoverable|]. intros _. left. exists c. by eapply idle_settled.
Qed.

Lemma reconcile_triple : supports_password_rotation = true →
  triple os_recoverable (reconcile_nvos_password_rotation (Some M) id (Some mac)) reconciled.
Proof using HB HC Hinj Hmac Hsite Hpw Hu.
  intros Hen. unfold reconcile_nvos_password_rotation, enabled. rewrite Hen. simpl.
  apply hoare_exists. intros d. apply hoare_exists. intros e.
  eapply (triple_bind _ _ _ (λ _, holds d e false)); [apply triple_read; [apply assertion_holds|done]|]. intros [].
  eapply (triple_then _ (λ t, t ≠ None)).
  { apply triple_read; [apply assertion_holds|]. intros c w a Hw [= <-]. split; [|exact Hw].
    destruct Hw as (l & [] & _). unfold current_target_version. by destruct v_published0 as [? ->]. }
  intros [t|] Ht; [|done]. eapply triple_bind; [apply ensure_admin_triple|]. intros [| |cause].
  - apply hoare_exists. intros e'. apply hoare_pre. intros Hr.
    eapply (triple_bind _ _ _ (λ _, holds d e' false)); [apply triple_read; [apply assertion_holds|done]|]. intros [].
    eapply triple_then; [apply query_row|]. intros _ ->. by apply reconcile_operation_triple.
  - apply triple_ret. intros w [[-> Ha] Hw]. split; [by eapply holds_recoverable|]. intros _. right.
    split; [|done]. by destruct Hw as (l & [] & _).
  - apply triple_ret. intros w Hw. split; [by eapply holds_recoverable|done].
Qed.

(** C3: A switch that can be recovered stays so, whatever fails and wherever the process
    that rotates its password dies, while the backend works on accepted requests in any
    order and other switches are rotated: its account has the confirmed or the staged
    password, and a completed job proves that it is the staged one.  A run that calls the
    switch up to date leaves the confirmed password in the account and in the store,
    unless the switch has no credentials at all.  *)
Theorem nvos_crash_safe w sc : supports_password_rotation = true → (∀ n, relies os_lets (sc n)) → os_recoverable w →
  let '(r, (w', _)) := reconcile_nvos_password_rotation (Some M) id (Some mac) w sc in
  os_recoverable w' ∧ (r = Ok UpToDate → (∃ v, os_settled v w') ∨ os_unmanaged w').
Proof using HB HC Hinj Hmac Hsite Hpw Hu.
  intros Hen Hsc Hw. destruct (reconcile_triple Hen w sc Hsc Hw) as [_ Hr].
  destruct (reconcile_nvos_password_rotation _ _ _ _ _) as [[o|x] [w' sc']]; simpl in Hr; [|done].
  destruct Hr as [Hr Ho]. split; [done|]. intros [= ->]. auto.
Qed.

End Facts.
