(* ===== verification/NvosRotationRuns.v ===== *)
(** * Calm runs of the rotation of switch passwords

    When nothing fails and the backend accepts requests, one run submits what there is to
    do; after the backend has done its work, the next run completes it. *)

From S2P Require Import Prelude StateHandler Credentials RotationWorld CredentialRotation Calls HandlerRuns NvosRotation NvosRotationFacts.

(** A backend that is up: it accepts every request for the switch under a job id, and
    reports jobs that have succeeded. *)
Class RespondingBackend `{M : NvSwitchManager} (mac : string) : Prop := {
  accepts ep next w : ep_bmc_mac ep = mac → well_formed ep next →
    ∃ j w', ensure_password_rotation ep next w = (Ok j, w') ∧ j ≠ EmptyString;
  reports j r w : rms_jobs (fabric w) !! j = Some (r, true) → get_password_rotation_job_status j w = Ok JobCompleted;
}.

(** A backend that goes on with the jobs it has accepted: it does not report them as failed,
    unknown or gone. *)
Class KeepsJobs `{M : NvSwitchManager} : Prop :=
  keeps_job j r w : rms_jobs (fabric w) !! j = Some (r, false) →
    get_password_rotation_job_status j w = Ok JobPending ∨ ∃ e, get_password_rotation_job_status j w = Err e.

Section Runs.
Context (mac id u : string) (pw : Z → string) (es : option ExpectedSwitch) (t0 : Z).
Context (Hmac : no_slash mac) (Hsite : mac ≠ "site"%string) (Hu : u ≠ EmptyString).
Context (Hinj : ∀ i j, -1 ≤ i → -1 ≤ j → pw i = pw j → i = j) (Hpw : ∀ i, -1 ≤ i → pw i ≠ EmptyString).
Context {M : NvSwitchManager} {HB : PasswordBackend} {HC : RejectsCleanly} {HR : RespondingBackend mac}.

Notation admin := (SwitchNvosAdmin mac).
Notation account l := (UsernamePassword u (pw l)).
Notation holds := (holds mac id u pw es).
Notation triple := (triple mac id u pw es).
Notation ready := (ready u pw).
Notation announced := (announced es).
Notation runs := (runs t0).

(** What a run needs besides the state of the rotation *)
Record serviceable (d : option DeviceRow) (t : Z) (w : World) : Prop := {
  sv_target : current_target_version Nvos (rot w) = Some t;
  sv_secret v : confirmed d = Some v ∨ stg d = Some v ∨ v = t → 0 ≤ v ∧ is_Some (store w !! path (SwitchNvosSiteAdmin v));
  sv_end : ∃ row m i, endpoint_rows (fabric w) !! id = Some row ∧ er_nvos_mac row = Some m ∧ er_nvos_ip row = Some i;
  sv_shadow : shadow w !! path admin = None;
}.

(** The name of the account is known. *)
Definition named (e : option Credentials) : Prop :=
  is_Some announced ∨ ∃ c, e = Some c ∧ username c ≠ EmptyString.
Definition expected_ok : Prop := ∃ x, es = Some x ∧ ∃ p, expected_nvos_credential_pair (nvos_username x) (nvos_password x) = Ok p.

(** Nothing in the row keeps a run from working on it. *)
Definition row_open (d : option DeviceRow) : Prop :=
  ∀ r, d = Some r → rotate_last_error_redacted r = None ∧ rotate_attempts r < i32_max ∧
    rotate_job_id r ≠ Some EmptyString ∧ ∀ q, rotate_quarantined_until r = Some q → q ≤ t0.

Lemma os_lets_refl w : os_lets mac id pw w w.
Proof using Type. split; try done. exists (fabric w). by split_and!. Qed.

(** Calm runs are runs. *)
Lemma runs_safe {E A} P (m : prog World E A) w Φ Ψ : runs w m Φ → triple P m Ψ → P w →
  runs w m (λ a s, Φ a s ∧ Ψ a s).
Proof using Type.
  intros Hr Ht Hw s sc Hsc <-. destruct (Hr w sc Hsc eq_refl) as (Hsc' & a & Ha & HΦ). split; [done|].
  exists a. split; [done|]. split; [done|].
  assert (∀ n, relies (os_lets mac id pw) (sc n)) as Hrel.
  { intros n s. destruct (Hsc n) as [[_ Ho] _]. rewrite Ho. apply os_lets_refl. }
  destruct (Ht w sc Hrel Hw) as [_ Hx]. by rewrite Ha in Hx.
Qed.

(** ** Reads and writes of the store *)

Definition put (c : Credentials) (w : World) : World := set_store (<[path admin := c]> (store w)) w.

Lemma serviceable_put d t c w : serviceable d t w → serviceable d t (put c w).
Proof using Hmac Hsite.
  intros []. split; try done. intros v Hv. simpl. rewrite lookup_insert_ne by (by apply admin_path_ne). auto.
Qed.

Lemma run_site d e top t v w : holds d e top w → serviceable d t w → confirmed d = Some v ∨ stg d = Some v ∨ v = t →
  runs w (read_nvos_site_credentials id v) (λ a s, s = w ∧ ∃ c, a = Some c ∧ password c = pw v).
Proof using Type.
  intros (l & Hw & _) Hs Hv. destruct (sv_secret _ _ _ Hs v Hv) as [H0 [c Hc]]. unfold read_nvos_site_credentials.
  destruct (Z.ltb_spec v 0); [lia|]. apply runs_convert. eapply runs_read; [done|]. split; [done|]. exists c. split; [done|].
  by apply (v_sites _ _ _ _ _ _ _ _ _ Hw).
Qed.

Lemma run_admin d e top w : holds d e top w → runs w (get_credentials admin) (λ a s, s = w ∧ a = e).
Proof using Type. intros (l & [] & _). eapply runs_read; [done|]. by split. Qed.

Lemma run_persist d t c w : serviceable d t w →
  runs w (persist_nvos_admin_credentials id mac c) (λ _ s, s = put c w).
Proof using Type.
  intros Hs. unfold persist_nvos_admin_credentials.
  eapply runs_bind; [apply runs_convert, (runs_call _ _ _ _ (λ _ s, s = put c w)); intros; by eexists _, _|]. intros _ s ->.
  eapply runs_bind; [apply runs_convert; by eapply (runs_read _ _ _ _ _ (λ a s, s = put c w ∧ a = store (put c w) !! path admin))|].
  intros a s [-> ->]. simpl. rewrite lookup_insert_eq. destruct (decide _) as [Hne|_]; [done|].
  eapply runs_bind; [apply runs_convert; by eapply (runs_read _ _ _ _ _ (λ a s, s = put c w ∧ a = effective (put c w) admin))|].
  intros a s [-> ->]. unfold effective. simpl. rewrite (sv_shadow _ _ _ Hs), lookup_insert_eq.
  destruct (decide _) as [Hne|_]; [done|]. by apply runs_ret.
Qed.

Lemma run_restored d e t w : holds d e false w → serviceable d t w → named e →
  runs w (restored_credentials id e (confirmed d) announced) (λ a s, s = w ∧ ∃ c, a = inr c).
Proof using Hpw.
  intros Hw Hs Hn. unfold restored_credentials. destruct (confirmed d) as [v|] eqn:Ec.
  - eapply runs_bind; [eapply run_site; [done..|by left]|]. intros a s (-> & c & -> & Hp).
    eapply runs_bind; [by eapply (runs_lift _ _ _ c (λ a s, s = w ∧ a = c))|]. intros a s [-> ->].
    destruct (sv_secret _ _ _ Hs v) as [H0 _]; [by left|].
    destruct (decide _) as [He|_]; [rewrite Hp in He; by destruct (Hpw v); [lia|]|].
    destruct e as [ce|]; simpl; [destruct (decide (username ce = EmptyString)) as [Hce|]|]; try (apply runs_ret; by eauto).
    all: destruct Hn as [[[a b] ->]|(c' & Hc' & ?)]; [apply runs_ret; by eauto|by simplify_eq].
  - destruct announced as [[a b]|] eqn:Ea; [|destruct e as [c|]]; try (apply runs_ret; by eauto).
    destruct Hn as [[? Hn]|(c' & ? & _)]; [|done]. by rewrite Ea in Hn.
Qed.

Lemma run_holds_staged d e t v w : holds d e false w → serviceable d t w → stg d = Some v →
  runs w (holds_staged id e v) (λ _ s, s = w).
Proof using Type.
  intros Hw Hs Hv. unfold holds_staged. destruct (usable_password e) as [p|]; [|by apply runs_ret].
  eapply runs_bind; [eapply run_site; [done..|by right; left]|]. intros a s (-> & c & -> & _). by apply runs_ret.
Qed.

Lemma usable_account i : -1 ≤ i → usable_password (Some (account i)) = Some (pw i).
Proof using Hpw Hu.
  intros Hi. unfold usable_password. simpl. rewrite !bool_decide_eq_false_2; [done|by apply Hpw|done].
Qed.

(** The credentials are found or restored. *)
Lemma run_ensure_admin_part d e t w : holds d e false w → serviceable d t w → named e → expected_ok →
  runs w (ensure_nvos_admin_credentials id mac) (λ a s, a = Available ∧ (s = w ∨ ∃ c, s = put c w)).
Proof using Hpw Hu.
  intros Hw Hs Hn (x & Hx & p & Hp). unfold ensure_nvos_admin_credentials.
  eapply runs_bind; [apply runs_convert; by eapply run_admin|]. intros a s [-> ->].
  eapply runs_bind; [by eapply (runs_read _ _ _ _ (es, d) (λ a s, s = w ∧ a = (es, d)));
    [intros; destruct Hw as (l & [] & _); congruence|]|]. intros a s [-> ->].
  eapply (runs_bind _ _ _ _ (λ k s, s = w ∧ (k = None ∨ k = Some Available))).
  { destruct d as [r|]; simpl; [|apply runs_ret; by auto].
    destruct (rotating_to_version r) as [v|] eqn:Ev; simpl; [|apply runs_ret; by auto].
    destruct (decide _) as [Hc|Hc].
    - apply runs_ret. split; [done|]. right. destruct Hw as (l & Hw & _). pose proof (v_range _ _ _ _ _ _ _ _ _ Hw) as [Hge Hr].
      destruct (s_first _ _ _ _ _ _ (v_stored _ _ _ _ _ _ _ _ _ Hw) v Ev Hc) as [->| ->]; rewrite usable_account; try done.
      unfold stg in Hr. simpl in Hr. rewrite Ev in Hr. lia.
    - eapply runs_bind; [by eapply (run_holds_staged (Some r))|]. intros b s ->. apply runs_ret. destruct b; by auto. }
  intros k s [-> [->| ->]]; [|apply runs_ret; by auto].
  rewrite Hx, Hp. assert (announced = p) as <- by (unfold NvosRotationFacts.announced; rewrite Hx; simpl; by rewrite Hp).
  eapply runs_bind; [by eapply run_restored|]. intros a s (-> & c & ->).
  eapply runs_bind; [by eapply run_persist|]. intros [] s ->. apply runs_ret. eauto.
Qed.

Lemma run_ensure_admin d e t w : holds d e false w → serviceable d t w → named e → expected_ok →
  runs w (ensure_nvos_admin_credentials id mac)
    (λ a s, a = Available ∧ fabric s = fabric w ∧ serviceable d t s ∧ ∃ e', ready d e' ∧ holds d e' false s).
Proof using Hinj Hmac Hpw Hsite Hu.
  intros Hw Hs Hn Hx. eapply runs_weaken.
  - eapply runs_safe; [by eapply run_ensure_admin_part|by eapply ensure_admin_triple|exact Hw].
  - intros a s [[-> Hp] He]. split_and!; [done| | |exact He]; destruct Hp as [->|[c ->]]; try done. by apply serviceable_put.
Qed.

(** ** An attempt *)

Lemma run_inputs d e top t v w i : holds d e top w → serviceable d t w → confirmed d = Some v ∨ stg d = Some v ∨ v = t →
  e = Some (account i) → runs w (rotation_inputs id v) (λ a s, s = w ∧ inputs_of mac pw e v a).
Proof using Hinj Hpw Hu.
  intros Hw Hs Hv He.
  eapply runs_weaken; [eapply (runs_safe _ _ _ (λ _ s, s = w)); [|by eapply inputs_triple|exact Hw]|by intros a s [? [? ?]]].
  unfold rotation_inputs, resolve_switch_endpoint, fetch_switch_nvos_credentials.
  destruct (sv_end _ _ _ Hs) as (row & m & ip & Hrow & Hm & Hip).
  assert (er_bmc_mac row = mac) as Hbmc by (destruct Hw as (l & [] & _); by apply v_ends).
  eapply (runs_bind _ _ _ _ (λ ep s, s = w ∧ nvos_credentials ep = account i)).
  { apply runs_convert. eapply runs_bind; [by eapply (runs_read _ _ _ _ (Some row) (λ a s, s = w ∧ a = Some row)); [intros; by rewrite Hrow|]|].
    intros a s [-> ->]. eapply runs_bind; [by eapply (runs_lift _ _ _ row (λ a s, s = w ∧ a = row))|]. intros a s [-> ->].
    rewrite Hbmc. eapply (runs_bind _ _ _ _ (λ c s, s = w ∧ c = account i)).
    - eapply runs_bind; [apply runs_convert; by eapply run_admin|]. intros a s [-> ->]. rewrite He. by eapply runs_lift.
    - intros c s [-> ->]. eapply runs_lift; [unfold switch_endpoint_from_row; by rewrite Hm, Hip|done]. }
  intros ep s [-> Hep]. eapply runs_bind; [by eapply run_site|]. intros a s (-> & c & -> & Hp).
  eapply runs_bind; [by eapply (runs_lift _ _ _ c (λ a s, s = w ∧ a = c))|]. intros a s [-> ->].
  destruct (sv_secret _ _ _ Hs v Hv) as [H0 _].
  rewrite Hep. simpl. rewrite Hp, !bool_decide_eq_false_2; [by apply runs_ret|apply Hpw; lia|done].
Qed.

(** A statement of a calm run *)
Lemma run_transaction {A} (f : Z → rotation_db → result DatabaseError (A * rotation_db)) w Φ :
  (∀ now, t0 ≤ now → ∃ a r, f now (rot w) = Ok (a, r) ∧ Φ a (set_rot r w)) → runs w (transaction f) Φ.
Proof using Type. intros H. apply runs_call. intros now Hn. destruct (H now Hn) as (a & r & -> & Ha). eauto. Qed.

(** A job is attached to the staged version. *)
Definition attached (t v : Z) (w : World) : Prop := ∃ d e j,
  holds (Some d) e false w ∧ ready (Some d) e ∧ serviceable (Some d) t w ∧ rotating_to_version d = Some v ∧
  rotate_job_id d = Some j ∧ j ≠ EmptyString ∧ rotate_last_error_redacted d = None.
Definition in_flight (t v : Z) (o : NvosPasswordRotationOutcome) (w : World) : Prop := (∃ why, o = Waiting why) ∧ attached t v w.

Lemma serviceable_row d t d' w : serviceable d t w → confirmed (Some d') = confirmed d →
  stg (Some d') = stg d ∨ stg (Some d') = Some t → serviceable (Some d') t (set_rot (set_device (mac, Nvos) d' (rot w)) w).
Proof using Type.
  intros [] Hc Hs. split; try done. intros v. rewrite Hc. intros Hv. apply sv_secret0. destruct Hv as [?|[Hv|?]]; auto.
  destruct Hs as [Hs|Hs]; rewrite Hs in Hv; [auto|]. injection Hv as <-. auto.
Qed.

Lemma serviceable_fabric d t f w : serviceable d t w → endpoint_rows f = endpoint_rows (fabric w) →
  serviceable d t (set_fabric f w).
Proof using Type. intros [] Hf. split; try done. simpl. by rewrite Hf. Qed.

Lemma accepted_rows r f oj f' : accepted r f oj f' → endpoint_rows f' = endpoint_rows f.
Proof using Type. by intros []. Qed.

Lemma run_ensure_staged d e t v w : holds (Some d) e false w → ready (Some d) e → serviceable (Some d) t w →
  rotating_to_version d = Some v → rotate_last_error_redacted d = None → rotate_job_id d = None →
  runs w (ensure_staged_rotation (Some M) id mac v (rotate_attempts d)) (in_flight t v).
Proof using HB HC HR Hinj Hpw Hu.
  intros Hw Hr Hs Hv He Hj. pose proof Hr as (i & Hi & _).
  assert (¬ err (Some d)) as Hne by (unfold err; simpl; rewrite He; by intros [? ?]).
  unfold ensure_staged_rotation. eapply runs_bind; [by eapply (runs_lift _ _ _ M (λ a s, s = w ∧ a = M))|]. intros a s [-> ->].
  eapply (runs_bind _ _ _ _ (λ a s, s = w ∧ ∃ x, a = Ok x ∧ inputs_of mac pw e v x)).
  { apply runs_catch. eapply runs_weaken; [eapply run_inputs; [done..|by right; left|done]|]. intros x s [-> Hx]. by eauto. }
  intros a s (-> & x & -> & Hx). destruct (ready_sends _ _ _ _ _ _ _ Hr Hx Hv) as [Hsend ->].
  assert (well_formed (endpoint x) (pw v)) as Hwf
    by (destruct Hw as (l & [] & _); eapply ready_well_formed; [done|done|done|exact Hr|exact Hx|exact Hv]).
  destruct Hx as (_ & Hm & _). simpl.
  destruct (accepts (endpoint x) (pw v) w Hm Hwf) as (j & w' & Hen & Hj0).
  destruct (ensure_ok _ _ _ _ _ Hen) as (f & Hacc & ->).
  destruct (accept_mine _ _ _ _ _ _ _ v _ _ _ _ _ Hsend Hne Hm eq_refl Hacc Hw) as [Hw' Hjob].
  eapply (runs_bind _ _ _ _ (λ a s, s = set_fabric f w ∧ a = Ok j)); [apply runs_catch, runs_call; by eauto|]. intros a s [-> ->].
  eapply (runs_bind _ _ _ _ (λ b s, b = true ∧ attached t v s)); [|intros b s [-> Hb]; apply runs_ret; by split; [eexists|]].
  apply run_transaction. intros now _. unfold record_device_rotation_submitted.
  rewrite bool_decide_eq_false_2 by done. rewrite (holds_row _ _ _ _ _ _ _ _ _ Hw').
  rewrite Hv, Z.eqb_refl, Hj, He, !(bool_decide_eq_true_2 (Some v = Some v)) by done. cbn [andb orb]. eexists _, _. split; [done|]. split; [done|].
  eexists _, e, j. split; [eapply (holds_same _ _ _ _ _ (Some d)); [done|exact (eq_sym Hv)|..|exact Hw']|split_and!].
  - intros j' v' [= <-] Hv'. simpl in Hv'. rewrite Hv in Hv'. injection Hv' as <-. by apply Hjob.
  - by intros v' [? ?].
  - by eapply ready_same; [| |exact Hr]; [|exact (eq_sym Hv)].
  - apply (serviceable_row (Some d)); [|done|left; exact (eq_sym Hv)]. apply serviceable_fabric; [done|by eapply accepted_rows].
  - done.
  - done.
  - done.
  - done.
Qed.

Lemma open_awake r now : row_open (Some r) → t0 ≤ now → sql_gt (rotate_quarantined_until r) now = false.
Proof using Type.
  intros Ho Hn. destruct (Ho r eq_refl) as (_ & _ & _ & Hq). unfold sql_gt. destruct (rotate_quarantined_until r) as [q|]; [|done].
  apply Z.ltb_ge. specialize (Hq q eq_refl). lia.
Qed.

Lemma open_plus r : row_open (Some r) → plus_one (rotate_attempts r) = Ok (rotate_attempts r + 1).
Proof using Type. intros Ho. destruct (Ho r eq_refl) as (_ & Ha & _). unfold plus_one. by rewrite (proj2 (Z.ltb_lt _ _)). Qed.

Lemma run_retry d e t v w : holds (Some d) e false w → ready (Some d) e → serviceable (Some d) t w →
  rotating_to_version d = Some v → row_open (Some d) →
  runs w (retry_staged_rotation (Some M) id mac v (rotate_attempts d) (rotate_job_id d)) (in_flight t v).
Proof using HB HC HR Hinj Hpw Hu.
  intros Hw Hr Hs Hv Ho. unfold retry_staged_rotation.
  set (row := λ now, mk_device (current_version d) (rotating_to_version d) None (rotate_attempts d + 1) (Some now) None None).
  eapply (runs_bind _ _ _ _ (λ a s, a = Some (rotate_attempts d + 1) ∧
    ∃ now, s = set_rot (set_device (mac, Nvos) (row now) (rot w)) w)).
  - apply run_transaction. intros now Hn. unfold record_device_rotation_retry_started.
    rewrite (holds_row _ _ _ _ _ _ _ _ _ Hw).
    destruct (Ho d eq_refl) as (He & _). rewrite (open_awake d now Ho Hn), Hv, Z.eqb_refl, He, !bool_decide_eq_true_2, (open_plus d Ho) by done.
    simpl. eexists _, _. split; [done|]. split; [done|]. exists now. unfold row. by rewrite Hv.
  - intros a s (-> & now & ->). apply (run_ensure_staged (row now) e t v); try done.
    + apply (holds_same _ _ _ _ _ (Some d)); try done. by intros ? [? ?].
    + apply (serviceable_row (Some d)); [done..|by left].
Qed.

Lemma started_row now v w d : current_target_version Nvos (rot w) = Some v → devices (rot w) !! (mac, Nvos) = d →
  0 ≤ v → cur d < v → stg d = None → row_open d → t0 ≤ now →
  ∃ n, record_device_rotation_started now mac Nvos v (rot w) = Ok (Some n, set_device (mac, Nvos)
    (mk_device (confirmed d) (Some v) None n (Some now) None None) (rot w)).
Proof using Type.
  intros Ht Hd Hv Hc Hs Ho Hn. unfold record_device_rotation_started. destruct (Z.ltb_spec v 0); [lia|].
  unfold current_target_version in Ht. destruct (sitewide (rot w) !! Nvos) as [s|]; [|done]. injection Ht as ->.
  rewrite Z.eqb_refl. simpl. rewrite Hd. destruct d as [r|]; [|by exists 1].
  destruct (Ho r eq_refl) as (He & _). rewrite (open_awake r now Ho Hn), (open_plus r Ho), He. unfold stg in Hs. simpl in Hs. rewrite Hs.
  rewrite bool_decide_eq_true_2 by done. simpl.
  assert (match current_version r with Some c => c <? v | None => true end = true) as ->; [|by eexists].
  unfold cur, confirmed in Hc. simpl in Hc. destruct (current_version r) as [c|]; [|done]. by apply Z.ltb_lt.
Qed.

Lemma run_stage d e t w : holds d e false w → ready d e → serviceable d t w → cur d < t → stg d = None → row_open d →
  runs w (stage_rotation (Some M) id mac t) (in_flight t t).
Proof using HB HC HR Hinj Hpw Hu.
  intros Hw Hr Hs Hc Hi Ho. pose proof Hr as (i & He & _). unfold stage_rotation.
  eapply runs_bind; [eapply run_inputs; [done..|by right; right|done]|]. intros x s [-> _].
  set (row := λ n now, mk_device (confirmed d) (Some t) None n (Some now) None None).
  eapply (runs_bind _ _ _ _ (λ a s, ∃ n now, a = Some n ∧ s = set_rot (set_device (mac, Nvos) (row n now) (rot w)) w)).
  - apply run_transaction. intros now Hn. destruct (sv_secret _ _ _ Hs t) as [H0 _]; [by auto|].
    destruct (started_row now t w d (sv_target _ _ _ Hs) (holds_row _ _ _ _ _ _ _ _ _ Hw) H0 Hc Hi Ho Hn) as [n ->].
    eexists _, _. split; [done|]. by exists n, now.
  - intros a s (n & now & -> & ->). destruct Hw as (l & Hw & _).
    destruct (restage mac u pw es Hinj d (Some (row n now)) e l (fabric w) t) as (Hr' & Hf' & Hs' & Hrd);
      try done; try apply Hw; [by intros [? ?]|by left|].
    apply (run_ensure_staged (row n now) e t t); try done.
    + exists l. split; [|done]. by eapply view_os_row.
    + apply (serviceable_row d); [done..|by right].
Qed.

(** ** Completion *)

Lemma run_complete d e t v j w : holds (Some d) e true w → ready (Some d) e → serviceable (Some d) t w →
  rotating_to_version d = Some v → rotate_last_error_redacted d = None → rotate_job_id d = Some j → j ≠ EmptyString →
  runs w (complete_staged_rotation id mac v (rotate_attempts d) j) (λ o s, o = UpToDate ∧ os_settled mac u pw v s).
Proof using Hinj Hmac Hpw Hsite Hu.
  intros Hw Hr Hs Hv He Hj Hj0. pose proof Hr as (i & -> & _). unfold complete_staged_rotation.
  eapply runs_bind; [eapply run_inputs; [done..|by right; left|done]|]. intros x s (-> & [= Hx] & _ & ->).
  rewrite <-Hx. cbn [username].
  eapply runs_bind.
  { eapply runs_safe; [by eapply run_persist|apply (persist_triple mac id u pw es Hmac Hsite Hinj (Some d) (Some (account i)) true)|exact Hw].
    intros l _ Hst Ht. eapply stored_staged; [exact Hv|exact Hst|]. unfold stg in Ht. simpl in Ht. rewrite Hv in Ht. by injection (Ht eq_refl). }
  intros [] s [-> Hw']. 
  eapply (runs_bind _ _ _ _ (λ b s, b = true ∧ os_settled mac u pw v s)); [|intros b s [-> Hb]; by apply runs_ret].
  apply run_transaction. intros now _.
  pose proof (succeeded_settles mac id u pw es d v (rotate_attempts d) j _ Hv Hw') as Hx'.
  revert Hx'. unfold record_device_rotation_succeeded. rewrite bool_decide_eq_false_2 by done.
  rewrite (holds_row _ _ _ _ _ _ _ _ _ Hw'). rewrite Hv, Hj, He, Z.eqb_refl, !bool_decide_eq_true_2 by done. cbn [andb].
  intros [_ Hx']. eexists _, _. split; [done|]. split; [done|]. by apply Hx'.
Qed.

(** A run ends with the switch settled, or with a job for the version it aims at. *)
Definition aim (d : option DeviceRow) (t : Z) : Z := match stg d with Some v => v | None => Z.max (cur d) t end.

Lemma run_reconcile_staged d e t v w : holds (Some d) e false w → ready (Some d) e → serviceable (Some d) t w →
  rotating_to_version d = Some v → row_open (Some d) →
  runs w (reconcile_staged_rotation (Some M) id mac d)
    (λ o s, o = UpToDate ∧ os_settled mac u pw v s ∨ in_flight t v o s).
Proof using HB HC HR Hinj Hmac Hpw Hsite Hu.
  intros Hw Hr Hs Hv Ho. destruct (Ho d eq_refl) as (He & _ & Hj0 & _). unfold reconcile_staged_rotation.
  eapply runs_bind; [by eapply (runs_lift _ _ _ v (λ a s, s = w ∧ a = v)); [by rewrite Hv|]|]. intros a s [-> ->].
  rewrite He. destruct (rotate_job_id d) as [j|] eqn:Ej.
  2: { rewrite <-Ej. eapply runs_weaken; [by eapply run_retry|by right]. }
  assert (j ≠ EmptyString) by congruence.
  assert (attached t v w) as Hatt by (exists d, e, j; by split_and!).
  eapply (runs_bind _ _ _ _ (λ a s, s = w ∧ a = get_password_rotation_job_status j w)).
  { by apply runs_catch_call. }
  intros a s [-> ->]. destruct (get_password_rotation_job_status j w) as [[]|x] eqn:Est.
  all: try (apply runs_ret; right; by split; [eexists|]).
  all: try (rewrite <-Ej; eapply runs_weaken; [by eapply run_retry|by right]).
  eapply runs_weaken; [eapply (run_complete d e t v j); try done|by left].
  by eapply (done_on_top _ _ _ _ _ Hinj (Some d) e j v).
Qed.

Lemma run_reconcile_operation d e t w : holds d e false w → ready d e → serviceable d t w → row_open d →
  runs w (reconcile_operation (Some M) id mac t d)
    (λ o s, o = UpToDate ∧ os_settled mac u pw (aim d t) s ∨ in_flight t (aim d t) o s).
Proof using HB HC HR Hinj Hmac Hpw Hsite Hu.
  intros Hw Hr Hs Ho. unfold reconcile_operation, aim.
  destruct d as [d|].
  2: { destruct (sv_secret _ _ _ Hs t) as [H0 _]; [by auto|]. unfold cur. simpl. rewrite Z.max_r by lia.
       eapply runs_weaken; [eapply run_stage; try done; unfold cur; simpl; lia|by right]. }
  unfold stg at 1. simpl. destruct (Ho d eq_refl) as (He & _). destruct (rotating_to_version d) as [v|] eqn:Ev.
  - rewrite He. simpl. by eapply run_reconcile_staged.
  - unfold cur, confirmed. simpl. destruct (current_version d) as [c|] eqn:Ec; simpl; [destruct (Z.leb_spec t c)|].
    + rewrite Z.max_l by lia. apply runs_ret. left. split; [done|]. by eapply idle_settled.
    + rewrite Z.max_r by lia. eapply runs_weaken; [eapply run_stage; try done|by right].
      unfold cur, confirmed. simpl. by rewrite Ec.
    + destruct (sv_secret _ _ _ Hs t) as [H0 _]; [by auto|]. rewrite Z.max_r by lia.
      eapply runs_weaken; [eapply run_stage; try done|by right]. unfold cur, confirmed. simpl. rewrite Ec. simpl. lia.
Qed.

(** The first part of a run provides the credentials. *)
Lemma run_head d e t w Φ : supports_password_rotation = true → holds d e false w → serviceable d t w → named e → expected_ok →
  (∀ e' s, fabric s = fabric w → holds d e' false s → ready d e' → serviceable d t s →
     runs s (reconcile_operation (Some M) id mac t d) Φ) →
  runs w (reconcile_nvos_password_rotation (Some M) id (Some mac)) Φ.
Proof using Hinj Hmac Hpw Hsite Hu.
  intros Hen Hw Hs Hn Hx HΦ. unfold reconcile_nvos_password_rotation, enabled. rewrite Hen. cbn [negb].
  eapply (runs_bind _ _ _ _ (λ _ s, s = w)); [by eapply runs_read|]. intros _ s ->.
  eapply (runs_bind _ _ _ _ (λ a s, s = w ∧ a = Some t)); [by eapply runs_read; [intros; by rewrite (sv_target _ _ _ Hs)|]|].
  intros a s [-> ->]. eapply runs_bind; [by eapply run_ensure_admin|]. intros a s (-> & Hf & Hs' & e' & Hr & Hw').
  eapply (runs_bind _ _ _ _ (λ _ s', s' = s)); [by eapply runs_read|]. intros _ s' ->.
  eapply (runs_bind _ _ _ _ (λ a s', s' = s ∧ a = d)); [by eapply runs_read; [intros; by rewrite (holds_row _ _ _ _ _ _ _ _ _ Hw')|]|].
  intros a s' [-> ->]. by eapply HΦ.
Qed.

(** The work of the backend on an attached job: it changes the password, unless the
    account has it already, and sees that the job has succeeded. *)
Lemma backend_works d e v j w : holds (Some d) e false w → rotating_to_version d = Some v → rotate_job_id d = Some j →
  ∃ f r, rtc backend_step (fabric w) f ∧ rms_jobs f !! j = Some (r, true) ∧ endpoint_rows f = endpoint_rows (fabric w).
Proof using Hinj.
  intros (l & Hw & _) Hv Hj. destruct Hw as [_ _ [Hge Hr] Hf]. unfold stg in Hr. simpl in Hr. rewrite Hv in Hr.
  destruct (f_job _ _ _ _ _ _ Hf j v Hj Hv) as (r & b & Hjr & Hm & Hn).
  pose proof (f_listed _ _ _ _ _ _ Hf j r b Hjr Hm) as Hin.
  destruct (f_requests _ _ _ _ _ _ Hf r Hin Hm) as (i & n & Hc & Hn' & Hi & Hd).
  assert (n = v) as ->. { rewrite Hn in Hn'. symmetry. apply Hinj; [lia..|done]. }
  destruct Hd as [?|[_ Hd]]; [lia|].
  assert (rq_target r = account v) as Ht by (unfold rq_target; by rewrite Hc, Hn).
  destruct (decide (l = v)) as [->|Hne].
  - exists (set_job j r true (fabric w)), r. split_and!; [|simpl; by rewrite lookup_insert_eq|done].
    apply rtc_once. eapply backend_succeeds; [exact Hjr|]. rewrite Hm, Ht. apply Hf.
  - destruct Hd as [->|?]; [|done]. destruct Hr as [_ [->|?]]; [|done].
    exists (set_job j r true (set_os mac (account v) (fabric w))), r. split_and!; [|simpl; by rewrite lookup_insert_eq|done].
    eapply rtc_l; [|apply rtc_once; eapply backend_succeeds; [exact Hjr|simpl; by rewrite Hm, Ht, lookup_insert_eq]].
    rewrite <-Hm, <-Ht. apply backend_applies; [done|]. rewrite Hm, Hc. apply Hf.
Qed.

Lemma backend_lets w f : rtc backend_step (fabric w) f → endpoint_rows f = endpoint_rows (fabric w) →
  os_lets mac id pw w (set_fabric f w).
Proof using Type.
  intros Hf He. split; try done.
  - intros H row Hrow. apply H. simpl in Hrow. by rewrite He in Hrow.
  - exists f. split_and!; try done. simpl. eapply rtc_subrel; [|exact Hf]. intros f1 f2 ?. by left.
Qed.

(** The job that the row names has succeeded. *)
Definition job_done (w : World) : Prop := ∃ d j r,
  devices (rot w) !! (mac, Nvos) = Some d ∧ rotate_job_id d = Some j ∧ rms_jobs (fabric w) !! j = Some (r, true).

Lemma attached_backend t v w f : attached t v w → rtc backend_step (fabric w) f → attached t v (set_fabric f w).
Proof using Hinj.
  intros (d & e & j & Hw & Hr & Hs & H) Hf. exists d, e, j.
  split; [eapply stable_holds; [done|exact Hw|by apply backend_lets, backend_rows]|]. split; [done|].
  split; [by apply serviceable_fabric, backend_rows|done].
Qed.

Lemma job_done_backend w f : job_done w → rtc backend_step (fabric w) f → job_done (set_fabric f w).
Proof using Type.
  intros (d & j & r & Hd & Hj & Hjr) Hf. exists d, j, r. split; [done|]. split; [done|]. simpl.
  revert Hjr. induction Hf as [|f f1 f2 Hs _ IH]; [done|]. intros Hjr. apply IH. destruct Hs as [|j' r' b Hj' _]; [done|].
  simpl. destruct (decide (j' = j)) as [->|]; [|by rewrite lookup_insert_ne]. rewrite lookup_insert_eq. congruence.
Qed.

Lemma attached_can_finish t v w : attached t v w → ∃ f, rtc backend_step (fabric w) f ∧ job_done (set_fabric f w).
Proof using Hinj.
  intros (d & e & j & Hw & _ & _ & Hv & Hj & _). destruct (backend_works d e v j w Hw Hv Hj) as (f & r & Hf & Hjr & _).
  exists f. split; [done|]. exists d, j, r. split; [by apply (holds_row _ _ _ _ _ _ _ _ _ Hw)|done].
Qed.

(** A run that polls an attached job *)
Lemma run_polls t v w Φ : supports_password_rotation = true → attached t v w → expected_ok →
  (∀ d e j s, devices (rot w) !! (mac, Nvos) = Some d → fabric s = fabric w → holds (Some d) e false s → ready (Some d) e →
     serviceable (Some d) t s → rotating_to_version d = Some v → rotate_job_id d = Some j → j ≠ EmptyString →
     rotate_last_error_redacted d = None → runs s (reconcile_staged_rotation (Some M) id mac d) Φ) →
  runs w (reconcile_nvos_password_rotation (Some M) id (Some mac)) Φ.
Proof using Hinj Hmac Hpw Hsite Hu.
  intros Hen (d & e & j & Hw & (i & He & Hi) & Hs & Hv & Hj & Hj0 & Herr) Hx HΦ.
  eapply (run_head (Some d) e t); try done.
  - right. exists (account i). split; [done|]. exact Hu.
  - intros e' s Hfs Hw' Hr Hs'. unfold reconcile_operation. rewrite Hv, Herr. cbn [bool_decide andb].
    eapply (HΦ d e' j); try done. by apply (holds_row _ _ _ _ _ _ _ _ _ Hw).
Qed.

(** An attached job that the backend has completed *)
Lemma run_done t v w : supports_password_rotation = true → attached t v w → job_done w → expected_ok →
  runs w (reconcile_nvos_password_rotation (Some M) id (Some mac)) (λ o s, o = UpToDate ∧ os_settled mac u pw v s).
Proof using HB HR Hinj Hmac Hpw Hsite Hu.
  intros Hen Ha (d & j & r & Hd & Hj & Hjr) Hx. eapply run_polls; [done..|].
  intros d' e j' s Hd' Hfs Hw Hr Hs Hv Hj' Hj0 Herr. simplify_eq. unfold reconcile_staged_rotation. rewrite Herr, Hj.
  eapply runs_bind; [by eapply (runs_lift _ _ _ v (λ a s', s' = s ∧ a = v)); [by rewrite Hv|]|]. intros a s' [-> ->].
  assert (get_password_rotation_job_status j s = Ok JobCompleted) as Hst by (apply (reports j r); by rewrite Hfs).
  eapply (runs_bind _ _ _ _ (λ a s', s' = s ∧ a = Ok JobCompleted)); [apply runs_catch_call; by rewrite Hst|]. intros a s' [-> ->].
  eapply (run_complete d e t v j); try done. by eapply (done_on_top _ _ _ _ _ Hinj (Some d) e j v).
Qed.

Lemma run_attached t v w : supports_password_rotation = true → attached t v w → expected_ok →
  ∃ f, rtc backend_step (fabric w) f ∧
    runs (set_fabric f w) (reconcile_nvos_password_rotation (Some M) id (Some mac))
      (λ o s, o = UpToDate ∧ os_settled mac u pw v s).
Proof using HB HR Hinj Hmac Hpw Hsite Hu.
  intros Hen Ha Hx. destruct (attached_can_finish t v w Ha) as (f & Hf & Hd). exists f. split; [done|].
  apply (run_done t v); try done. by apply attached_backend.
Qed.

(** An attached job that the backend still works on *)
Lemma run_waits {HK : KeepsJobs} t v w : supports_password_rotation = true → attached t v w → expected_ok →
  job_done w ∨ runs w (reconcile_nvos_password_rotation (Some M) id (Some mac)) (in_flight t v).
Proof using Hinj Hmac Hpw Hsite Hu.
  intros Hen Ha Hx. pose proof Ha as (d & e & j & (l & Hw & _) & _ & _ & Hv & Hj & _).
  destruct (f_job _ _ _ _ _ _ (v_fabric _ _ _ _ _ _ _ _ _ Hw) j v Hj Hv) as (r & b & Hjr & _).
  assert (devices (rot w) !! (mac, Nvos) = Some d) as Hd by apply Hw.
  destruct b; [left; by exists d, j, r|right]. eapply run_polls; [done..|].
  intros d' e' j' s Hd' Hfs Hw' Hr Hs _ Hj' Hj0 Herr. simplify_eq. unfold reconcile_staged_rotation. rewrite Herr, Hj.
  eapply runs_bind; [by eapply (runs_lift _ _ _ v (λ a s', s' = s ∧ a = v)); [by rewrite Hv|]|]. intros a s' [-> ->].
  assert (attached t v s) as Hatt by (exists d, e', j; by split_and!).
  eapply (runs_bind _ _ _ _ (λ a s', s' = s ∧ a = get_password_rotation_job_status j s)); [by apply runs_catch_call|].
  intros a s' [-> ->].
  destruct (keeps_job j r s ltac:(by rewrite Hfs)) as [-> | [x ->]]; apply runs_ret; by split; [eexists|].
Qed.

(** A run from anywhere *)
Lemma run_reconcile w t : supports_password_rotation = true → os_recoverable mac id u pw es w →
  let d := devices (rot w) !! (mac, Nvos) in
  serviceable d t w → row_open d → named (effective w admin) → expected_ok →
  runs w (reconcile_nvos_password_rotation (Some M) id (Some mac))
    (λ o s, o = UpToDate ∧ os_settled mac u pw (aim d t) s ∨ in_flight t (aim d t) o s).
Proof using HB HC HR Hinj Hmac Hpw Hsite Hu.
  intros Hen (d & e & Hw) d' Hs Ho Hn Hx. assert (d' = d) as Hd by (by eapply holds_row). rewrite Hd in *. clear Hd.
  assert (effective w admin = e) as He by (by destruct Hw as (l & [] & _)). rewrite He in Hn.
  eapply run_head; [done..|]. intros. by eapply run_reconcile_operation.
Qed.


End Runs.
