(* ===== verification/NvosRotationDemo.v ===== *)
(** * A switch whose password is rotated

    A concrete backend and a concrete switch, which show that the laws that the theorems
    about rotation assume can hold. *)

From S2P Require Import Prelude ControllerTable StateHandler Credentials RotationWorld CredentialRotation Calls HandlerRuns NvosRotation NvosRotationFacts NvosRotationRuns.

(** ** A backend *)

Fixpoint stars (n : nat) : string := match n with O => "*" | S n => String "*" (stars n) end.

Lemma stars_length n : String.length (stars n) = S n.
Proof. induction n as [|n IH]; simpl; [done|]. by rewrite IH. Qed.

(** A job id longer than all that are taken *)
Definition fresh_job {A} (m : gmap string A) : string :=
  stars (foldr (λ e n, String.length e.1 + n)%nat 0%nat (map_to_list m)).

Lemma fresh_job_fresh {A} (m : gmap string A) : m !! fresh_job m = None.
Proof.
  destruct (m !! fresh_job m) as [a|] eqn:E; [|done]. apply elem_of_map_to_list in E.
  assert (∀ l : list (string * A), (fresh_job m, a) ∈ l →
    String.length (fresh_job m) ≤ foldr (λ e n, String.length e.1 + n) 0 l)%nat as H.
  { intros l. induction l as [|e l IH]; [by intros ?%not_elem_of_nil|].
    intros [<-|Hin]%elem_of_cons; simpl; [lia|]. specialize (IH Hin). lia. }
  specialize (H _ E). unfold fresh_job in H at 1. rewrite stars_length in H. lia.
Qed.

Definition submit (ep : SwitchEndpoint) (next : string) (w : World) : result ComponentManagerError string * World :=
  let j := fresh_job (rms_jobs (fabric w)) in
  (Ok j, set_fabric (set_job j (request_of ep next) false (add_request (request_of ep next) (fabric w))) w).

Definition observe (j : string) (w : World) : result ComponentManagerError SwitchPasswordRotationState :=
  Ok match rms_jobs (fabric w) !! j with
     | Some (_, true) => JobCompleted
     | Some (_, false) => JobPending
     | None => JobNotFound
     end.

Definition demo_manager : NvSwitchManager := mk_manager true submit observe.

Lemma submit_accepted ep next w j w' : submit ep next w = (Ok j, w') →
  ∃ f, accepted (request_of ep next) (fabric w) (Some j) f ∧ w' = set_fabric f w.
Proof. intros [= <- <-]. eexists. split; [|done]. apply accepted_job, fresh_job_fresh. Qed.

Lemma observe_completed j w : observe j w = Ok JobCompleted → ∃ r, rms_jobs (fabric w) !! j = Some (r, true).
Proof. unfold observe. destruct (rms_jobs (fabric w) !! j) as [[r []]|]; eauto; discriminate. Qed.

#[export] Instance demo_backend : PasswordBackend (M := demo_manager).
Proof. split; [exact submit_accepted|discriminate|discriminate|exact observe_completed]. Qed.

#[export] Instance demo_clean : RejectsCleanly (M := demo_manager).
Proof. intros ep next w e w' _. discriminate. Qed.

#[export] Instance demo_responding mac : RespondingBackend (M := demo_manager) mac.
Proof.
  split.
  - intros ep next w _ _. eexists _, _. split; [done|]. unfold fresh_job. by destruct (foldr _ _ _).
  - intros j r w Hj. unfold get_password_rotation_job_status, demo_manager, observe. by rewrite Hj.
Qed.

#[export] Instance demo_keeps : KeepsJobs (M := demo_manager).
Proof. intros j r w Hj. left. unfold get_password_rotation_job_status, demo_manager, observe. by rewrite Hj. Qed.

(** ** A switch *)

Definition demo_pw (i : Z) : string := "p" +:+ print_u (i + 1).

Lemma demo_pw_inj i j : -1 ≤ i → -1 ≤ j → demo_pw i = demo_pw j → i = j.
Proof.
  intros Hi Hj E. apply (f_equal (λ s, match s with String _ t => t | EmptyString => s end)) in E.
  apply (print_u_injective (i + 1) (j + 1)) in E; lia.
Qed.

Lemma demo_pw_some i : -1 ≤ i → demo_pw i ≠ EmptyString.
Proof. done. Qed.

Definition demo_mac : string := "0a:0b".
Definition demo_expected : ExpectedSwitch := mk_expected (Some "admin"%string) (Some (demo_pw (-1))) [].
Definition demo_row : SwitchEndpointRow := mk_endpoint_row demo_mac "10.0.0.1" (Some "0c:0d"%string) (Some "10.0.0.2"%string) None.
Definition demo_secret (v : Z) : string * Credentials := (path (SwitchNvosSiteAdmin v), UsernamePassword "admin" (demo_pw v)).

(** A switch as it comes, and a first target *)
Definition demo_world (target : Z) : World :=
  mk_world (mk_rotation_db {[Nvos := mk_sitewide target 0 EmptyString]} ∅ ∅ {[demo_mac := demo_expected]})
    (list_to_map [demo_secret 0; demo_secret 1]) ∅ ∅ ∅ ∅ [] ∅ (mk_table ∅ empty_log) ∅
    (mk_fabric {[demo_mac := UsernamePassword "admin" (demo_pw (-1))]} [] ∅ {["sw" := demo_row]}) (mk_table ∅ empty_log) [].

Lemma site_path_inj v v' : 0 ≤ v → 0 ≤ v' → path (SwitchNvosSiteAdmin v) = path (SwitchNvosSiteAdmin v') → v = v'.
Proof.
  intros Hv Hv' E. apply print_u_injective; [done..|].
  unfold path in E. simpl default in E. by repeat (injection E as E).
Qed.

Lemma demo_sites t : sites_ok demo_pw (demo_world t).
Proof.
  intros v c Hv Hc. unfold demo_world in Hc. cbn [store list_to_map foldr] in Hc.
  apply lookup_insert_Some in Hc as [[E <-]|[_ Hc]]; [by apply site_path_inj in E as <-|].
  apply lookup_insert_Some in Hc as [[E <-]|[_ Hc]]; [by apply site_path_inj in E as <-|done].
Qed.

Lemma demo_ends t : ends_ok demo_mac "sw" (demo_world t).
Proof. intros row Hrow. vm_compute in Hrow. by injection Hrow as <-. Qed.

Lemma demo_os_recoverable t : os_recoverable demo_mac "sw" "admin" demo_pw (Some demo_expected) (demo_world t).
Proof.
  exists None, None, (-1). split; [|done]. split; try done.
  - split; try done. by intros r ?%not_elem_of_nil.
  - split; try done. intros a b. vm_compute. by intros [= <- <-].
  - apply demo_sites.
  - apply demo_ends.
  - by eexists.
Qed.

(** What the backend can do with the account of the switch, as steps of others *)
Definition applies (r : NvosRequest) (w : World) : World :=
  if decide (r ∈ rms_requests (fabric w) ∧ switch_os (fabric w) !! rq_mac r = Some (rq_current r))
  then set_fabric (set_os (rq_mac r) (rq_target r) (fabric w)) w else w.

Lemma applies_lets r w : os_lets demo_mac "sw" demo_pw w (applies r w).
Proof.
  unfold applies. destruct (decide _) as [[Hin Hos]|]; [|apply os_lets_refl]. split; try done.
  eexists. split_and!; [|done..]. apply rtc_once. left. by apply backend_applies.
Qed.

Definition demo_request : NvosRequest :=
  mk_nvos_request demo_mac (UsernamePassword "admin" (demo_pw (-1))) (demo_pw 0).

(** The process dies while it records the job; the backend has changed the password. *)
Definition demo_death : script World := script_of (repeat quiet 17 ++ [mk_step (applies demo_request) Dies 0]).

Lemma nvos_crash_safe_witness :
  let '(r, (w, _)) := reconcile_nvos_password_rotation (Some demo_manager) "sw" (Some demo_mac) (demo_world 0) demo_death in
  (r = Err Crashed ∧ switch_os (fabric w) !! demo_mac = Some (UsernamePassword "admin" (demo_pw 0))) ∧
  os_recoverable demo_mac "sw" "admin" demo_pw (Some demo_expected) w.
Proof.
  assert (∀ n, relies (os_lets demo_mac "sw" demo_pw) (demo_death n)) as Hsc.
  { apply script_of_all; [by intros s; apply os_lets_refl|]. cbn [repeat app].
    repeat (apply Forall_cons_2; [intros s; first [apply os_lets_refl|apply applies_lets]|]). constructor. }
  assert (let '(r, (w, _)) := reconcile_nvos_password_rotation (Some demo_manager) "sw" (Some demo_mac) (demo_world 0) demo_death in
    r = Err Crashed ∧ switch_os (fabric w) !! demo_mac = Some (UsernamePassword "admin" (demo_pw 0))) as Hr
    by (vm_compute; split; reflexivity).
  pose proof (nvos_crash_safe demo_mac "sw" "admin" demo_pw (Some demo_expected) eq_refl ltac:(discriminate) ltac:(discriminate)
    demo_pw_inj demo_pw_some (M := demo_manager) (demo_world 0) demo_death eq_refl Hsc (demo_os_recoverable 0)) as H.
  destruct (reconcile_nvos_password_rotation _ _ _ _ _) as [r [w sc]]. split; [exact Hr|]. destruct H as [H _]. exact H.
Defined.

Lemma demo_serviceable : serviceable demo_mac "sw" None 0 (demo_world 0).
Proof.
  split; [done| |by eexists _, _, _|done]. intros v [?|[?|Hv]]; [done..|]. rewrite Hv. split; [done|]. by eexists.
Qed.

