(* ===== verification/RmsBackendFacts.v ===== *)
(** * What the rack manager backend guarantees

    A completed factory reset has the evidence of every switch; batches answer for every
    device, in order; and passwords: if the service keeps what its answers say, the backend
    keeps the promises of [NvSwitchManager] that the rotation of passwords relies on. *)

From S2P Require Import Prelude Credentials RotationWorld PowerShelfTable RmsNodeIdentity Calls HandlerRuns NvosRotation RmsBackend NvosRotationFacts NvosRotationRuns NvosRotationDemo.

(** ** Jobs *)

Lemma list_find_None_all {A} (P : A → Prop) `{∀ x, Decision (P x)} l : list_find P l = None ↔ ∀ x, x ∈ l → ¬ P x.
Proof. rewrite list_find_None. by rewrite Forall_forall. Qed.

Section Reset.
Context {S : Type} `{RmsApi S}.

(** The evidence for a completed reset *)
Definition reset_done (job_id : string) (jobs : list JobStatus) : Prop := ∃ k parent,
  list_find (λ j, js_job_id j = job_id) jobs = Some (k, parent) ∧
  execution_state parent = ExecutionCompleted ∧ reset_children job_id parent jobs ≠ [] ∧
  (∀ c, c ∈ reset_children job_id parent jobs → execution_state c = ExecutionCompleted) ∧
  (∀ id, id ∈ child_job_ids parent → ∃ c, c ∈ reset_children job_id parent jobs ∧ js_job_id c = id).

Definition reset_broken (job_id : string) (jobs : list JobStatus) : Prop := ∃ k parent,
  list_find (λ j, js_job_id j = job_id) jobs = Some (k, parent) ∧
  (is_failed parent = true ∨ ∃ c, c ∈ reset_children job_id parent jobs ∧ is_failed c = true).

Lemma reset_states_completed pending js e : reset_states pending js = Ok (mk_reset_status ResetCompleted e) →
  pending = false ∧ ∀ j, j ∈ js → execution_state j = ExecutionCompleted.
Proof using Type.
  revert pending. induction js as [|j js IH]; intros pending; simpl.
  - intros [= Hp _]. destruct pending; [done|]. split; [done|]. by intros j ?%not_elem_of_nil.
  - destruct (execution_state j) eqn:Ej; try done; intros Hr.
    + by destruct (IH true Hr).
    + by destruct (IH true Hr).
    + destruct (IH pending Hr) as [-> Hall]. split; [done|]. intros j' [->|Hj']%elem_of_cons; auto.
Qed.

Lemma reset_states_all js : (∀ j, j ∈ js → execution_state j = ExecutionCompleted) →
  reset_states false js = Ok (mk_reset_status ResetCompleted None).
Proof using Type.
  induction js as [|j js IH]; intros Hall; simpl; [done|]. rewrite (Hall j) by (by left). apply IH. intros j' Hj'. apply Hall. by right.
Qed.

Lemma reset_states_failed pending js e : (∀ j, j ∈ js → is_failed j = false) →
  reset_states pending js ≠ Ok (mk_reset_status ResetFailed e).
Proof using Type.
  revert pending. induction js as [|j js IH]; intros pending Hall; simpl; [by destruct pending|].
  pose proof (Hall j (list_elem_of_here _ _)) as Hj. unfold is_failed in Hj.
  assert (∀ j, j ∈ js → is_failed j = false) by (intros; apply Hall; by right).
  destruct (execution_state j); try done; auto.
Qed.

Lemma missing_child ids (children : list JobStatus) :
  existsb (λ c, negb (existsb (λ j, bool_decide (js_job_id j = c)) children)) ids = false ↔
  ∀ id, id ∈ ids → ∃ c, c ∈ children ∧ js_job_id c = id.
Proof using Type.
  rewrite <-not_true_iff_false, existsb_exists. split.
  - intros Hn id Hid. destruct (existsb (λ j, bool_decide (js_job_id j = id)) children) eqn:E.
    + apply existsb_exists in E as (c & Hc & Hb%bool_decide_eq_true). exists c. by rewrite list_elem_of_In.
    + destruct Hn. exists id. rewrite E. split; [by apply list_elem_of_In|done].
  - intros Hall (id & Hid & Hb). apply negb_true_iff in Hb. destruct (Hall id) as (c & Hc & <-); [by apply list_elem_of_In|].
    apply not_true_iff_false in Hb. apply Hb, existsb_exists. exists c. split; [by apply list_elem_of_In|]. by apply bool_decide_eq_true.
Qed.

(** A factory reset counts as completed exactly when its job is listed as completed,
    has children, every child it declares is listed, and all of them are completed; it
    counts as failed exactly when the job or one of its children failed.  Without a record
    of the job the outcome is unknown. *)
Theorem factory_reset_exact job_id jobs :
  let answer := summarize_rms_switch_factory_reset_jobs job_id jobs in
  ((∃ e, answer = Ok (mk_reset_status ResetCompleted e)) ↔ reset_done job_id jobs) ∧
  ((∃ e, answer = Ok (mk_reset_status ResetFailed e)) ↔ reset_broken job_id jobs) ∧
  ((∀ j, j ∈ jobs → js_job_id j ≠ job_id) → ∃ text, answer = Err (OperationOutcomeUnknown text)).
Proof using Type.
  intros answer. unfold answer, summarize_rms_switch_factory_reset_jobs, reset_done, reset_broken.
  destruct (list_find (λ j, js_job_id j = job_id) jobs) as [[k parent]|] eqn:Ep.
  2: { split_and!; [split; [by intros [? ?]|by intros (? & ? & ? & _)]..|by eauto]. }
  assert (¬ ∀ j, j ∈ jobs → js_job_id j ≠ job_id) as Hex.
  { apply list_find_Some in Ep as (Hk & Hid & _). intros Hno. apply (Hno parent); [by eapply list_elem_of_lookup_2|done]. }
  set (children := reset_children job_id parent jobs).
  destruct (list_find (λ j, is_failed j = true) children) as [[k' c]|] eqn:Ec.
  { apply list_find_Some in Ec as (Hk' & Hf & _). apply list_elem_of_lookup_2 in Hk'. split_and!; [split|split|done].
    - by intros [? ?].
    - intros (k0 & p0 & [= <- <-] & _ & _ & Hall & _). specialize (Hall c Hk'). unfold is_failed in Hf. by rewrite Hall in Hf.
    - intros _. exists k, parent. split; [done|]. right. eauto.
    - eauto. }
  assert (∀ c, c ∈ children → is_failed c = false) as Hc
    by (intros c Hin; apply not_true_iff_false; by apply (proj1 (list_find_None_all _ _) Ec)).
  destruct (is_failed parent) eqn:Epf.
  { split_and!; [split|split|done].
    - by intros [? ?].
    - intros (k0 & p0 & [= <- <-] & Hp & _). unfold is_failed in Epf. by rewrite Hp in Epf.
    - intros _. exists k, parent. auto.
    - eauto. }
  set (missing := existsb _ (child_job_ids parent)).
  split_and!; [split|split|done].
  - intros [e Hr]. apply reset_states_completed in Hr as [Hp Hall]. apply orb_false_iff in Hp as [Hne Hm].
    exists k, parent. split_and!; [done|by apply Hall; left| | |].
    + fold children. by destruct children.
    + intros c Hin. apply Hall. by right.
    + by apply missing_child.
  - intros (k0 & p0 & [= <- <-] & Hp & Hne & Hall & Hch). exists None.
    assert (missing = false) as -> by (by apply missing_child).
    fold children in Hne, Hall. assert (match children with [] => true | _ => false end = false) as -> by (by destruct children).
    apply reset_states_all. intros j [->|Hj]%elem_of_cons; [done|by apply Hall].
  - intros [e Hr]. exfalso. eapply reset_states_failed; [|exact Hr]. intros j [->|Hj]%elem_of_cons; auto.
  - intros (k0 & p0 & [= <- <-] & [Hp|(c & Hin & Hf)]); [congruence|]. fold children in Hin. by rewrite (Hc c Hin) in Hf.
Qed.

End Reset.

(** ** Batches *)

Section Batches.
Context {S : Type} `{RmsApi S} (rack_profiles : gmap string RackProfile).

(** The operation fails as a whole exactly when what it reads from the database is not
    readable, and then it has done nothing; otherwise there is one result for every device,
    in the order of the request. *)
Definition answers_each {A R} (readable : list A → S → Prop) (k : A → string) (key : R → string)
    (op : list A → rms S (list R)) : Prop :=
  ∀ l b, match op l b with
         | (Ok rs, _) => readable l (service b) ∧ key <$> rs = k <$> l
         | (Err e, b') => ¬ readable l (service b) ∧ b' = b ∧ ∃ text, e = CmInternal text
         end.

Definition succeeds {E A} (r : result E A) : Prop := match r with Ok _ => True | Err _ => False end.

(** The identities of switches, and the names of their interfaces where the request has
    none *)
Definition switches_readable (l : list SwitchEndpoint) (s : S) : Prop :=
  succeeds (switch_identities s) ∧
  (filter (λ ep, nvos_host_name ep ≫= some_text = None) l = [] ∨ succeeds (interface_hostnames s)).
Definition shelves_readable (_ : list PowerShelfEndpoint) (s : S) : Prop := succeeds (power_shelf_identities s).
(** The identities of machines, with no address of the request twice *)
Definition trays_readable (l : list ComputeTrayEndpoint) (s : S) : Prop :=
  ∃ rows, machine_identities s = Ok rows ∧ NoDup (ir_key <$> filter (λ r, ir_key r ∈ tray_bmc_ip <$> l) rows).
(** What is kept in memory *)
Definition kept_in_memory {A} (_ : list A) (_ : S) : Prop := True.

(** A program that always has a result, with a property *)
Definition always {A} (m : rms S A) (P : A → Prop) : Prop := ∀ b, ∃ a b', m b = (Ok a, b') ∧ P a.
(** One that may find the database unreadable *)
Definition looks_up {A} (readable : S → Prop) (m : rms S A) : Prop :=
  ∀ b, (readable (service b) ∧ ∃ a, m b = (Ok a, b)) ∨ (¬ readable (service b) ∧ ∃ text, m b = (Err (CmInternal text), b)).
Definition lookup_only {A} (m : rms S A) : Prop :=
  ∀ b, (∃ a, m b = (Ok a, b)) ∨ ∃ text, m b = (Err (CmInternal text), b).

Lemma always_ret {A} (a : A) (P : A → Prop) : P a → always (mret a) P.
Proof using Type. intros Ha b. by exists a, b. Qed.

Lemma always_bind {A B} (m : rms S A) (f : A → rms S B) P Q :
  always m P → (∀ a, P a → always (f a) Q) → always (m ≫= f) Q.
Proof using Type.
  intros Hm Hf b. destruct (Hm b) as (a & b1 & Ha & HP). destruct (Hf a HP b1) as (r & b2 & Hr & HQ).
  exists r, b2. split; [|done]. unfold mbind, rms_bind. by rewrite Ha.
Qed.

Lemma always_send {E A} (f : S → result E A * S) : always (send f) (λ _, True).
Proof using Type. intros b. unfold send. destruct (f (service b)) as [r s]. by eexists _, _. Qed.
Lemma always_ask {E A} (f : S → result E A) : always (ask f) (λ _, True).
Proof using Type. intros b. by eexists _, _. Qed.
Lemma always_track mac js : always (track (S := S) mac js) (λ _, True).
Proof using Type. intros b. by eexists _, _. Qed.
Lemma always_untrack mac : always (untrack (S := S) mac) (λ _, True).
Proof using Type. intros b. by eexists _, _. Qed.
Lemma always_tracked : always (tracked (S := S)) (λ _, True).
Proof using Type. intros b. by eexists _, _. Qed.

Lemma always_any {A} (m : rms S A) (P : A → Prop) : always m P → always m (λ _, True).
Proof using Type. intros Hm b. destruct (Hm b) as (a & b' & Ha & _). by exists a, b'. Qed.

(** A body that pushes one result, with the key *)
Definition pushes {R} (key : R → string) (x : string) (body : list R → rms S (list R)) : Prop :=
  ∀ results, always (body results) (λ rs, ∃ r, rs = results ++ [r] ∧ key r = x).

Lemma pushes_push {R} (key : R → string) x r : key r = x → pushes key x (push r).
Proof using Type. intros Hr results. apply always_ret. eauto. Qed.

Lemma pushes_bind {B R} (m : rms S B) (key : R → string) x (body : B → list R → rms S (list R)) :
  always m (λ _, True) → (∀ b, pushes key x (body b)) → pushes key x (λ results, b ← m; body b results).
Proof using Type. intros Hm Hf results. eapply always_bind; [exact Hm|]. intros b _. apply Hf. Qed.

Lemma always_for_each {A R} (k : A → string) (key : R → string) (body : A → list R → rms S (list R)) l :
  (∀ a, pushes key (k a) (body a)) → always (for_each body l []) (λ rs, key <$> rs = k <$> l).
Proof using Type.
  intros Hf. assert (∀ results, always (for_each body l results) (λ rs, key <$> rs = (key <$> results) ++ (k <$> l))) as Hall;
    [|apply (Hall [])].
  induction l as [|a l IH]; intros results; simpl; [apply always_ret; by rewrite app_nil_r|].
  eapply always_bind; [apply Hf|]. intros ? (r & -> & Hr) b. destruct (IH (results ++ [r]) b) as (rs & b' & He & Hk).
  exists rs, b'. split; [done|]. by rewrite Hk, fmap_app, <-app_assoc, <-Hr.
Qed.

Lemma always_for_each_any {A B} (body : A → B → rms S B) l acc :
  (∀ a acc, always (body a acc) (λ _, True)) → always (for_each body l acc) (λ _, True).
Proof using Type.
  intros Hf. revert acc. induction l as [|a l IH]; intros acc; simpl; [by apply always_ret|].
  eapply always_bind; [apply Hf|]. intros acc' _. apply IH.
Qed.

Lemma looks_from {E A B} (f : S → result E A) (g : E → string) (h : A → B) :
  looks_up (λ s, succeeds (f s)) (r ← ask f; a ← from_result (λ e, CmInternal (g e)) r; mret (h a)).
Proof using Type.
  intros b. unfold mbind, rms_bind, ask. simpl. destruct (f (service b)); simpl; [left|right]; (split; [by auto|]); eexists; reflexivity.
Qed.

Lemma looks_up_only {A} readable (m : rms S A) : looks_up readable m → lookup_only m.
Proof using Type. intros Hm b. destruct (Hm b) as [[_ ?]|[_ ?]]; auto. Qed.

Lemma looks_up_iff {A} readable readable' (m : rms S A) : (∀ s, readable s ↔ readable' s) → looks_up readable m → looks_up readable' m.
Proof using Type. intros Hi Hm b. rewrite <-Hi. apply Hm. Qed.

Lemma lookup_from {E A B} (f : S → result E A) (g : E → string) (h : A → B) :
  lookup_only (r ← ask f; a ← from_result (λ e, CmInternal (g e)) r; mret (h a)).
Proof using Type. eapply looks_up_only, looks_from. Qed.

Lemma looks_hostnames eps : looks_up (λ s, filter (λ ep, nvos_host_name ep ≫= some_text = None) eps = [] ∨ succeeds (interface_hostnames s))
  (resolve_switch_machine_interface_hostnames eps).
Proof using Type.
  unfold resolve_switch_machine_interface_hostnames. destruct (filter _ eps) as [|ep rest].
  - intros b. left. split; [by left|]. by eexists.
  - eapply looks_up_iff; [|apply looks_from]. intros s. split; [by right|by intros [|]].
Qed.

Lemma lookup_hostnames eps : lookup_only (resolve_switch_machine_interface_hostnames eps).
Proof using Type. eapply looks_up_only, looks_hostnames. Qed.

Lemma find_succeeds (table : S → result string (list IdentityRow)) keys s :
  succeeds (find_identities table keys s) ↔ succeeds (table s).
Proof using Type. unfold find_identities. by destruct (table s). Qed.

Lemma first_duplicate_None seen keys : first_duplicate seen keys = None ↔ NoDup keys ∧ ∀ k, k ∈ keys → k ∉ seen.
Proof using Type.
  revert seen. induction keys as [|k keys IH]; intros seen; simpl.
  - split; [|done]. intros _. split; [constructor|]. by intros k ?%not_elem_of_nil.
  - case_bool_decide as Hin.
    + split; [done|]. intros [_ Hn]. by destruct (Hn k (list_elem_of_here _ _)).
    + rewrite IH, NoDup_cons. split.
      * intros [Hd Hn]. split; [split; [|done]; intros Hk; apply (Hn k Hk); by left|].
        intros k' [->|Hk']%elem_of_cons; [done|]. intros Hs. apply (Hn k' Hk'). by right.
      * intros [[Hk Hd] Hn]. split; [done|]. intros k' Hk' [->|Hs]%elem_of_cons; [done|]. apply (Hn k'); [by right|done].
Qed.

Lemma find_trays l s : succeeds (find_rms_identities_by_bmc_ips (tray_bmc_ip <$> l) s) ↔ trays_readable l s.
Proof using Type.
  unfold find_rms_identities_by_bmc_ips, find_identities, trays_readable. destruct (machine_identities s) as [rows|]; simpl.
  - destruct (first_duplicate _ _) eqn:Ed; simpl.
    + split; [done|]. intros (rows' & [= <-] & Hd). assert (first_duplicate [] (ir_key <$> filter (λ r, ir_key r ∈ tray_bmc_ip <$> l) rows) = None) as Hn;
        [|by rewrite Hn in Ed]. apply first_duplicate_None. split; [done|]. by intros k _ ?%not_elem_of_nil.
    + split; [|done]. intros _. exists rows. split; [done|]. by apply first_duplicate_None in Ed as [? _].
  - split; [done|]. by intros (rows' & ? & _).
Qed.

Lemma answers_bind {A B R} readable readable' (k : A → string) (key : R → string) (m : list A → rms S B) (f : B → list A → rms S (list R)) :
  (∀ l, looks_up (readable l) (m l)) → (∀ b, answers_each readable' k key (f b)) →
  answers_each (λ l s, readable l s ∧ readable' l s) k key (λ l, a ← m l; f a l).
Proof using Type.
  intros Hm Hf l b. unfold mbind, rms_bind. destruct (Hm l b) as [[Hr [a Ha]]|[Hr [t Ha]]]; rewrite Ha.
  - specialize (Hf a l b). destruct (f a l b) as [[rs|e] b']; [naive_solver|]. destruct Hf as (Hn & -> & Ht). split; [by intros [_ ?]|done].
  - split; [by intros [? _]|]. split; [done|]. by eexists.
Qed.

Lemma answers_iff {A R} readable readable' (k : A → string) (key : R → string) f :
  (∀ l s, readable l s ↔ readable' l s) → answers_each readable k key f → answers_each readable' k key f.
Proof using Type.
  intros Hi Hf l b. specialize (Hf l b). destruct (f l b) as [[rs|e] b']; by rewrite <-Hi.
Qed.

Lemma answers_always {A R} (k : A → string) (key : R → string) (f : list A → rms S (list R)) :
  (∀ l, always (f l) (λ rs, key <$> rs = k <$> l)) → answers_each kept_in_memory k key f.
Proof using Type. intros Hf l b. destruct (Hf l b) as (rs & b' & -> & Hk). done. Qed.

Lemma power_control_one_key key device action : pushes cr_key key (power_control_one (S := S) key device action).
Proof using Type.
  destruct device as [d|]; [|by apply pushes_push]. apply pushes_bind; [apply always_send|]. intros [a|]; [|by apply pushes_push].
  destruct (summarize_power_batch _). by apply pushes_push.
Qed.

Lemma power_state_one_key key device : pushes ps_key key (power_state_one (S := S) key device).
Proof using Type.
  destruct device as [[resolved d]|]; [|by apply pushes_push]. apply pushes_bind; [|intros []; by apply pushes_push].
  unfold query_rms_power_state. eapply always_bind; [apply always_ask|]. intros r _. by apply always_ret.
Qed.

Lemma slot_and_tray_one_key key device : pushes st_key key (slot_and_tray_one (S := S) key device).
Proof using Type.
  destruct device as [d|]; [|by apply pushes_push]. apply pushes_bind; [apply always_ask|].
  intros [[[status message] details]|]; [|by apply pushes_push]. destruct (is_success status); [|by apply pushes_push].
  destruct (classify_rms_switch_slot_and_tray _) as [[? ?] ?]. by apply pushes_push.
Qed.

Lemma update_firmware_one_key key mac resolved device v o fs :
  pushes cr_key key (update_firmware_one (S := S) key mac resolved device v o fs).
Proof using Type.
  unfold update_firmware_one. destruct (apply_firmware_object_request _ _ _ _ _) as [rq|]; [|by apply pushes_push].
  apply pushes_bind; [apply always_send|]. intros [a|]; [|by apply pushes_push].
  destruct (summarize_firmware_object_apply_response _ _) as [[success error] job].
  apply pushes_bind; [|intros; by apply pushes_push]. destruct success, job; first [apply always_track|apply always_untrack].
Qed.

Lemma switch_part_always rq sm j : always (switch_part (S := S) rq sm j) (λ _, True).
Proof using Type.
  destruct rq as [rq|]; [|by apply always_ret]. eapply always_bind; [apply always_send|]. intros r _. by apply always_ret.
Qed.

Lemma queue_firmware_update_one_key cs v o key resolved device :
  pushes cr_key key (queue_firmware_update_one (S := S) cs v o key resolved device).
Proof using Type.
  unfold queue_firmware_update_one. apply pushes_bind.
  { destruct (switch_update_includes_firmware_object cs); [apply switch_part_always|by apply always_ret]. }
  intros [[s1 e1] j1]. apply pushes_bind.
  { destruct (switch_update_includes_system_image cs); [apply switch_part_always|by apply always_ret]. }
  intros [[s2 e2] j2]. apply pushes_bind; [|intros; by apply pushes_push].
  destruct (j1 ++ j2); [apply always_untrack|apply always_track].
Qed.

Lemma object_job_always j : always (firmware_object_job_status (S := S) j) (λ _, True).
Proof using Type. unfold firmware_object_job_status. eapply always_bind; [apply always_ask|]. intros r _. by apply always_ret. Qed.

Lemma tracked_status_key kind e : pushes fs_key e.1 (tracked_status (S := S) kind e).
Proof using Type.
  unfold tracked_status. destruct e.2 as [j|]; [|by apply pushes_push].
  apply pushes_bind; [apply object_job_always|]. intros []. by apply pushes_push.
Qed.

Lemma query_tracked_always j : always (query_tracked_firmware_job_status (S := S) j) (λ _, True).
Proof using Type.
  destruct j as [j|j]; simpl; [apply object_job_always|]. destruct get_switch_system_image_job_status as [client|]; [|by apply always_ret].
  eapply always_bind; [apply always_ask|]. intros r _. by apply always_ret.
Qed.

Lemma lookup_batch {A B R} readable (k : A → string) (key : R → string) (m : list A → rms S B) (f : B → A → list R → rms S (list R)) :
  (∀ l, looks_up (readable l) (m l)) → (∀ ids a, pushes key (k a) (f ids a)) →
  answers_each readable k key (λ l, ids ← m l; for_each (f ids) l []).
Proof using Type.
  intros Hm Hf. eapply answers_iff; [|eapply answers_bind; [exact Hm|]; intros ids; apply answers_always; intros l; by apply always_for_each].
  intros l s. unfold kept_in_memory. tauto.
Qed.

Lemma switch_batch {R} (key : R → string) (f : _ → _ → SwitchEndpoint → list R → rms S (list R)) :
  (∀ ids hs ep, pushes key (ep_bmc_mac ep) (f ids hs ep)) →
  answers_each switches_readable ep_bmc_mac key (λ l, ids ← resolve_switch_identities (ep_bmc_mac <$> l);
                                    hs ← resolve_switch_machine_interface_hostnames l; for_each (f ids hs) l []).
Proof using Type.
  intros Hf. eapply answers_iff; [|eapply answers_bind; [intros l; apply looks_from|]; intros ids; apply lookup_batch; [apply looks_hostnames|auto]].
  intros l s. unfold switches_readable. simpl. by rewrite find_succeeds.
Qed.

Lemma shelf_batch {R} (key : R → string) (f : _ → PowerShelfEndpoint → list R → rms S (list R)) :
  (∀ ids ep, pushes key (pmc_mac ep) (f ids ep)) →
  answers_each shelves_readable pmc_mac key (λ l, ids ← resolve_power_shelf_identities (pmc_mac <$> l); for_each (f ids) l []).
Proof using Type.
  intros Hf. eapply answers_iff; [|apply lookup_batch; [intros l; apply looks_from|done]]. intros l s. apply find_succeeds.
Qed.

Lemma looks_trays l : looks_up (trays_readable l) (resolve_compute_tray_identities (S := S) (tray_bmc_ip <$> l)).
Proof using Type. eapply looks_up_iff; [|apply looks_from]. intros s. apply find_trays. Qed.

(** Answers about what is kept in memory for the devices *)
Lemma each_of_devices {A B R} (k : A → string) (key : R → string) (g : A → string * B) (f : string * B → list R → rms S (list R)) l :
  (∀ a, (g a).1 = k a) → (∀ e, pushes key e.1 (f e)) → always (for_each f (g <$> l) []) (λ rs, key <$> rs = k <$> l).
Proof using Type.
  intros Hg Hf b. destruct (always_for_each fst key f (g <$> l) Hf b) as (rs & b' & He & Hk).
  exists rs, b'. split; [done|]. rewrite Hk, <-list_fmap_compose. apply list_fmap_ext. intros n a _. apply Hg.
Qed.

(** C29: Every batch operation of the backend pushes one answer for every device that was
    asked for, in order, whatever the service answers, whatever calls fail and whatever
    cannot be resolved: power control, power states, firmware updates and their states,
    locations and inventories of switches, power shelves and compute trays.  A batch fails
    as a whole exactly when the database does not answer for the identities (for switches
    without a name, for the names of their interfaces), or when an address of a compute
    tray has two identities, and then nothing has been sent; the states of the updates of
    switches and power shelves come from memory and never fail. *)
Theorem batches_answer_each v os (cs : list NvSwitchComponent) (ps : list PowerShelfComponent) (ts : list ComputeTrayComponent) act :
  (answers_each switches_readable ep_bmc_mac cr_key (λ l, switch_power_control rack_profiles l act) ∧
   answers_each switches_readable ep_bmc_mac cr_key (λ l, queue_firmware_updates rack_profiles l v cs os) ∧
   answers_each kept_in_memory ep_bmc_mac fs_key (switch_get_firmware_status (S := S)) ∧
   answers_each switches_readable ep_bmc_mac ps_key (switch_get_power_state rack_profiles) ∧
   answers_each switches_readable ep_bmc_mac st_key (get_slot_and_tray rack_profiles)) ∧
  (answers_each shelves_readable pmc_mac cr_key (λ l, power_shelf_power_control rack_profiles l act) ∧
   answers_each shelves_readable pmc_mac cr_key (λ l, power_shelf_update_firmware rack_profiles l v ps os) ∧
   answers_each kept_in_memory pmc_mac fs_key (power_shelf_get_firmware_status (S := S)) ∧
   answers_each shelves_readable pmc_mac ps_key (power_shelf_get_power_state rack_profiles) ∧
   answers_each shelves_readable pmc_mac fv_key (list_firmware (S := S))) ∧
  (answers_each trays_readable tray_bmc_ip cr_key (λ l, compute_tray_power_control rack_profiles l act) ∧
   answers_each trays_readable tray_bmc_ip cr_key (λ l, compute_tray_update_firmware rack_profiles l v ts os) ∧
   answers_each trays_readable tray_bmc_ip fs_key (compute_tray_get_firmware_status (S := S))).
Proof using Type.
  split_and!.
  - apply switch_batch. intros. apply power_control_one_key.
  - apply switch_batch. intros ids hs ep. destruct (switch_device _ ids hs ep) as [[resolved d]|];
      [apply queue_firmware_update_one_key|by apply pushes_push].
  - apply answers_always. intros l. eapply always_bind; [apply always_tracked|]. intros js _. apply each_of_devices; [done|].
    intros [key kept]. cbn [fst snd]. destruct kept as [|job kept]; [by apply pushes_push|].
    apply pushes_bind; [|intros []; by apply pushes_push].
    apply always_for_each_any. intros j [sts ers]. eapply always_bind; [apply query_tracked_always|]. intros [] _. by apply always_ret.
  - apply switch_batch. intros. apply power_state_one_key.
  - apply switch_batch. intros. apply slot_and_tray_one_key.
  - apply shelf_batch. intros. apply power_control_one_key.
  - apply shelf_batch. intros ids ep. destruct (shelf_device _ ids ep) as [[resolved d]|]; [apply update_firmware_one_key|by apply pushes_push].
  - apply answers_always. intros l. eapply always_bind; [apply always_tracked|]. intros js _.
    apply each_of_devices; [done|apply tracked_status_key].
  - apply shelf_batch. intros. apply power_state_one_key.
  - apply shelf_batch. intros ids ep. destruct (ids !! pmc_mac ep) as [[i m]|]; [|by apply pushes_push].
    apply pushes_bind; [apply always_ask|]. intros [[st vs]|]; [|by apply pushes_push]. destruct (is_success st); by apply pushes_push.
  - apply lookup_batch; [apply looks_trays|]. intros. apply power_control_one_key.
  - apply lookup_batch; [apply looks_trays|]. intros ids ep.
    destruct (tray_device _ ids ep) as [[[resolved m] d]|]; [apply update_firmware_one_key|by apply pushes_push].
  - eapply answers_iff; [|eapply answers_bind; [apply looks_trays|]; intros ids; apply answers_always; intros l;
      eapply always_bind; [apply always_tracked|]; intros js _; apply each_of_devices; [done|apply tracked_status_key]].
    intros l s. unfold kept_in_memory. tauto.
Qed.

End Batches.

(** ** Tracked firmware jobs *)

Section Tracking.
Context {S : Type} `{RmsApi S}.

(** When the call that submits firmware to a power shelf or a compute tray fails, the
    jobs that are tracked stay as they are, also the job of an earlier update of the same
    device; for a switch the same failure leaves no job. *)
Lemma failed_submission_keeps_job key mac resolved device version options filters request (b : Backend S) e s' :
  apply_firmware_object_request device resolved version options filters = Ok request →
  apply_firmware_object request (service b) = (Err e, s') →
  update_firmware_one key mac resolved device version options filters [] b =
    (Ok [failed_result key (rack_manager_text e)], mk_backend (firmware_jobs b) s') ∧
  (filters = ["BMC"%string] →
   queue_firmware_update_one [SwitchBmc] version options mac resolved device [] b =
     (Ok [failed_result mac (rack_manager_text e)], mk_backend (delete mac (firmware_jobs b)) s')).
Proof using Type.
  intros Hrq Hcall. split.
  - unfold update_firmware_one. rewrite Hrq. unfold mbind, rms_bind, send. by rewrite Hcall.
  - intros ->. unfold queue_firmware_update_one. simpl. rewrite Hrq. simpl.
    unfold mbind, rms_bind, send. by rewrite Hcall.
Qed.

End Tracking.

(** ** Passwords *)

Section Passwords.
Context `{RmsApi World} (rack_profiles : gmap string RackProfile) (enabled : bool) (switch_of : string → string).

(** The operations on passwords, which do not look at the tracked jobs *)
Definition rms_manager : NvSwitchManager :=
  mk_manager enabled
    (λ ep next w, let '(r, b) := rms_backend_ensure_password_rotation rack_profiles enabled ep next (mk_backend ∅ w) in (r, service b))
    (λ j w, (rms_get_switch_password_rotation_job_status j (mk_backend ∅ w)).1).

(** The change that a request to the service stands for: the node is the switch, and the
    credentials of its host endpoint are the current ones. *)
Definition node_request (device : NodeInfo) (next : string) : option NvosRequest :=
  e ← host_endpoint device;
  Some (mk_nvos_request (switch_of (node_id device)) (endpoint_credentials e) next).

(** An answer that leaves open what happened *)
Definition vague (r : result RackManagerError (option NodeBatchResponse)) : Prop :=
  match r with
  | Ok (Some b) => batch_job_id b = EmptyString
  | Ok None => True
  | Err (ApiInvocationError (InvalidArgumentCode | UnimplementedCode) _) => False
  | Err _ => True
  end.

(** What the service says is so: a job id stands for an accepted request; a refusal means
    that it was not accepted; the child job for the switch, when it is completed, has
    changed the password.  A completed parent is no evidence. *)
Class ServiceTruthful : Prop := {
  rows_fit w rows row : switch_identities w = Ok rows → row ∈ rows → switch_of (ir_id row) = ir_key row;
  password_job device name next w b w' r : node_request device next = Some r →
    update_switch_system_password [device] name next w = (Ok (Some b), w') → batch_job_id b ≠ EmptyString →
    ∃ f, accepted r (fabric w) (Some (batch_job_id b)) f ∧ w' = set_fabric f w;
  password_vague device name next w a w' r : node_request device next = Some r →
    update_switch_system_password [device] name next w = (a, w') → vague a →
    w' = w ∨ ∃ oj f, accepted r (fabric w) oj f ∧ w' = set_fabric f w;
  password_refused device name next w code text w' :
    update_switch_system_password [device] name next w = (Err (ApiInvocationError code text), w') →
    code = InvalidArgumentCode ∨ code = UnimplementedCode → w' = w;
  child_done w j listed c : get_job_status j true w = Ok listed → c ∈ listed → parent_job_id c = Some j →
    execution_state c = ExecutionCompleted → ∃ r, rms_jobs (fabric w) !! j = Some (r, true);
}.

(** The service lists the child jobs of a job that it reports as completed: then there is
    no completed parent without children. *)
Class ServiceListsChildren : Prop :=
  children_listed w j listed p : get_job_status j true w = Ok listed → p ∈ listed → js_job_id p = j →
    execution_state p = ExecutionCompleted → ∃ c, c ∈ listed ∧ parent_job_id c = Some j.

(** The service refuses as malformed only what it has never accepted. *)
Class ServiceRefusesCleanly : Prop :=
  refused_clean device name next w text w' r : node_request device next = Some r →
    update_switch_system_password [device] name next w = (Err (ApiInvocationError InvalidArgumentCode text), w') →
    ∀ r', r' ∈ rms_requests (fabric w) → rq_mac r' = rq_mac r → rq_next r' ≠ next.

Lemma identities_of_row rows k i m : identities_of rows !! k = Some (i, m) →
  ∃ row, row ∈ rows ∧ ir_key row = k ∧ id_node_id i = ir_id row.
Proof using Type.
  unfold identities_of. induction rows as [|row rows IH] using rev_ind; [done|]. rewrite foldl_snoc.
  assert (∀ x, x ∈ rows → x ∈ rows ++ [row]) as Hmono by (intros; apply elem_of_app; by left).
  destruct (ir_rack_id row) as [rack|]; [|intros Hl; destruct (IH Hl) as (x & Hx & ?); eauto].
  intros [[Hk [= <- _]]|[_ Hl]]%lookup_insert_Some; [|destruct (IH Hl) as (x & Hx & ?); eauto].
  exists row. split; [apply elem_of_app; right; by left|done].
Qed.

Lemma lookup_only_bind {A B} (m : rms World A) (f : A → rms World B) :
  lookup_only m → (∀ a, lookup_only (f a)) → lookup_only (m ≫= f).
Proof using Type.
  intros Hm Hf b. unfold mbind, rms_bind. destruct (Hm b) as [[a Ha]|[t Ha]]; rewrite Ha; [apply Hf|right; by eexists].
Qed.

Lemma lookup_only_from {A} (r : result string A) : lookup_only (from_result (S := World) CmInternal r).
Proof using Type. intros b. destruct r; [left|right]; by eexists. Qed.

Lemma resolved_switch_only ep : lookup_only (resolved_switch rack_profiles ep).
Proof using Type.
  unfold resolved_switch. apply lookup_only_bind; [apply lookup_from|]. intros ids.
  apply lookup_only_bind; [apply lookup_only_from|]. intros resolved.
  apply lookup_only_bind; [apply lookup_hostnames|]. intros hs b. left. by eexists.
Qed.

Lemma rms_bind_Ok {A B} (m : rms World A) (f : A → rms World B) b c b' : (m ≫= f) b = (Ok c, b') →
  ∃ a b1, m b = (Ok a, b1) ∧ f a b1 = (Ok c, b').
Proof using Type. unfold mbind, rms_bind. destruct (m b) as [[a|e] b1]; [eauto|done]. Qed.

Lemma resolve_node_identity i role n : resolve_node rack_profiles i role = Ok n → identity n = i.
Proof using Type.
  unfold resolve_node. destruct (rack_profile rack_profiles i) as [p|]; [|done]. simpl.
  destruct (node_identity_for_profile p role) as [x|]; [|done]. simpl. by intros [= <-].
Qed.

(** The switch of the request is the one of the endpoint. *)
Lemma resolved_switch_node `{!ServiceTruthful} ep b resolved hs b' : resolved_switch rack_profiles ep b = (Ok (resolved, hs), b') →
  switch_of (id_node_id (identity resolved)) = ep_bmc_mac ep.
Proof using Type.
  intros (ids & b1 & Hids & Hr)%rms_bind_Ok.
  apply rms_bind_Ok in Hids as (rows & b2 & [= <- <-] & (rows' & b3 & Hrows & [= <- <-])%rms_bind_Ok).
  unfold find_identities in Hrows. destruct (switch_identities (service b)) as [all|] eqn:Eall; [|done]. simpl in Hrows.
  injection Hrows as <- <-.
  apply rms_bind_Ok in Hr as (resolved' & b4 & Hres & (hs' & b5 & _ & [= <- _ _])%rms_bind_Ok).
  unfold resolve_switch_or_power_shelf_node in Hres. destruct (identities_of _ !! ep_bmc_mac ep) as [[i m]|] eqn:Ei; [|done].
  simpl in Hres. destruct (resolve_node rack_profiles i Switch) as [n|] eqn:En; [|done]. injection Hres as <- <-.
  rewrite (resolve_node_identity _ _ _ En). destruct (identities_of_row _ _ _ _ Ei) as (row & Hin & Hk & ->).
  apply list_elem_of_filter in Hin as [_ Hin]. rewrite <-Hk. by eapply rows_fit.
Qed.

(** What a submission does: it fails before the call, or its answer is classified. *)
Lemma rms_ensure_cases `{!ServiceTruthful} ep next w r w' : ensure_password_rotation (NvSwitchManager := rms_manager) ep next w = (r, w') →
  (∃ e, r = Err e ∧ w' = w ∧ (∀ t, e ≠ OperationOutcomeUnknown t) ∧ (∀ t, e = RejectedBeforeDispatch t → ¬ well_formed ep next)) ∨
  ∃ device name a, node_request device next = Some (request_of ep next) ∧
    update_switch_system_password [device] name next w = (a, w') ∧
    match a with
    | Ok (Some b) => if decide (batch_job_id b = EmptyString) then ∃ t, r = Err (OperationOutcomeUnknown t) else r = Ok (batch_job_id b)
    | Err (ApiInvocationError InvalidArgumentCode _) => ∃ t, r = Err (RejectedBeforeDispatch t)
    | Err (ApiInvocationError UnimplementedCode _) => ∃ t, r = Err (Unsupported t)
    | _ => ∃ t, r = Err (OperationOutcomeUnknown t)
    end.
Proof using Type.
  unfold ensure_password_rotation, rms_manager, rms_backend_ensure_password_rotation. destruct enabled; simpl.
  2: { intros [= <- <-]. left. by eexists. }
  unfold mbind at 1, rms_bind at 1.
  destruct (resolved_switch_only ep (mk_backend ∅ w)) as [[[resolved hs] Hres]|[t Hres]]; rewrite Hres.
  2: { intros [= <- <-]. left. by eexists. }
  pose proof (resolved_switch_node _ _ _ _ _ Hres) as Hnode.
  unfold rms_ensure_switch_password_rotation. destruct (_ || _) eqn:Ee.
  { intros [= <- <-]. left. eexists. split_and!; [done..|]. intros t _ (Hn & Hp & Hx).
    rewrite !orb_true_iff, !bool_decide_eq_true in Ee. naive_solver. }
  set (device := build_switch_password_rotation_node_info _ _ _) in *.
  unfold mbind, rms_bind, send. simpl.
  destruct (update_switch_system_password [device] _ next w) as [a w2] eqn:Eu.
  assert (node_request device next = Some (request_of ep next)) as Hreq
    by (unfold node_request, request_of, device; simpl; by rewrite Hnode).
  intros He. right. exists device, (username (nvos_credentials ep)), a.
  destruct a as [[batch|]|[[] text|text]]; simpl in He; [destruct (decide (batch_job_id batch = EmptyString))|..];
    injection He as <- <-; split_and!; by eauto.
Qed.

(** What a listing says about the job [j] *)
Definition related (j : string) (x : JobStatus) : Prop := js_job_id x = j ∨ parent_job_id x = Some j.

(** A rotation counts as completed exactly when there are related jobs and all of them are
    completed. *)
Lemma password_completed j listed : summarize_password_rotation_jobs j listed = JobCompleted ↔
  (∃ x, x ∈ listed ∧ related j x) ∧ ∀ y, y ∈ listed → related j y → execution_state y = ExecutionCompleted.
Proof using Type.
  unfold summarize_password_rotation_jobs, related. set (rel := filter _ listed).
  assert (∀ y, y ∈ rel ↔ (js_job_id y = j ∨ parent_job_id y = Some j) ∧ y ∈ listed) as Hrel
    by (intros y; unfold rel; by rewrite list_elem_of_filter).
  clearbody rel. destruct rel as [|x rest] eqn:Er.
  { split; [done|]. intros [(x & Hin & Hx) _]. destruct (not_elem_of_nil x). by apply Hrel. }
  rewrite <-Er in *. split.
  - destruct (list_find _ rel) as [[k f]|] eqn:E1.
    { apply list_find_Some in E1 as (_ & [_ ->] & _). done. }
    destruct (list_find (λ j0, js_job_id j0 = j ∧ _) rel) as [[k f]|] eqn:E2.
    { apply list_find_Some in E2 as (_ & [_ ->] & _). done. }
    destruct (forallb _ _) eqn:Ef; [|by case_bool_decide]. intros _. rewrite forallb_forall in Ef.
    assert (x ∈ rel) as Hx by (rewrite Er; by left). apply Hrel in Hx as [Hx Hin]. split; [by exists x|].
    intros y Hy Hry. assert (y ∈ rel) as Hyr by (by apply Hrel).
    assert (bool_decide (map_rms_password_rotation_state y = JobCompleted) = true) as Hc%bool_decide_eq_true.
    { apply Ef, list_elem_of_In. by apply list_elem_of_fmap_2. }
    unfold map_rms_password_rotation_state in Hc. by destruct (execution_state y).
  - intros [_ Hall]. assert (∀ y, y ∈ rel → map_rms_password_rotation_state y = JobCompleted) as Hm.
    { intros y [Hy Hin]%Hrel. unfold map_rms_password_rotation_state. by rewrite (Hall y Hin Hy). }
    rewrite (proj2 (list_find_None_all _ _)) by (intros y Hy [_ Hf]; by rewrite Hm in Hf).
    rewrite (proj2 (list_find_None_all _ _)) by (intros y Hy [_ Hf]; by rewrite Hm in Hf).
    assert (forallb (λ st, bool_decide (st = JobCompleted)) (map_rms_password_rotation_state <$> rel) = true) as ->; [|done].
    apply forallb_forall. intros st (y & -> & Hy)%list_elem_of_In%list_elem_of_fmap. apply bool_decide_eq_true. by apply Hm.
Qed.

Lemma rms_status_completed j w :
  get_password_rotation_job_status (NvSwitchManager := rms_manager) j w = Ok JobCompleted ↔
  j ≠ EmptyString ∧ ∃ listed, get_job_status j true w = Ok listed ∧ (∃ x, x ∈ listed ∧ related j x) ∧
    ∀ y, y ∈ listed → related j y → execution_state y = ExecutionCompleted.
Proof using Type.
  unfold get_password_rotation_job_status, rms_manager, rms_get_switch_password_rotation_job_status.
  destruct (decide (j = EmptyString)) as [->|Hj]; [split; [done|by intros [? _]]|]. unfold mbind, rms_bind, ask. cbn [service].
  destruct (get_job_status j true w) as [listed|[[] t|t]] eqn:El; simpl.
  all: try (split; [done|]; by intros (_ & ? & ? & _)).
  split.
  - intros [= Hs%password_completed]. split; [done|]. by exists listed.
  - intros (_ & ? & [= <-] & Hs). f_equal. by apply password_completed.
Qed.

(** The promises about submissions *)
Lemma rms_submissions `{!ServiceTruthful} ep next w r w' :
  ensure_password_rotation (NvSwitchManager := rms_manager) ep next w = (r, w') →
  match r with
  | Ok j => ∃ f, accepted (request_of ep next) (fabric w) (Some j) f ∧ w' = set_fabric f w
  | Err (OperationOutcomeUnknown _) => w' = w ∨ ∃ oj f, accepted (request_of ep next) (fabric w) oj f ∧ w' = set_fabric f w
  | Err _ => w' = w
  end.
Proof using Type.
  intros He. destruct (rms_ensure_cases _ _ _ _ _ He) as [(e & -> & -> & Hne & _)|(d & n & a & Hreq & Hu & Ha)].
  { destruct e; try done. by edestruct Hne. }
  assert (vague a → w' = w ∨ ∃ oj f, accepted (request_of ep next) (fabric w) oj f ∧ w' = set_fabric f w) as Hv
    by (intros Hv; by eapply password_vague).
  destruct a as [[b|]|[[] t|t]]; try (destruct Ha as [? ->]; by apply Hv).
  - destruct (decide (batch_job_id b = EmptyString)); [destruct Ha as [? ->]; by apply Hv|]. subst r. by eapply password_job.
  - destruct Ha as [? ->]. eapply password_refused; [exact Hu|by left].
  - destruct Ha as [? ->]. eapply password_refused; [exact Hu|by right].
Qed.

(** A completed rotation has changed the password, unless no child is listed. *)
Lemma rms_completed `{!ServiceTruthful} j w :
  get_password_rotation_job_status (NvSwitchManager := rms_manager) j w = Ok JobCompleted →
  (∃ r, rms_jobs (fabric w) !! j = Some (r, true)) ∨
  ∃ listed, get_job_status j true w = Ok listed ∧ (∀ c, c ∈ listed → parent_job_id c ≠ Some j) ∧
    ∃ p, p ∈ listed ∧ js_job_id p = j ∧ execution_state p = ExecutionCompleted.
Proof using Type.
  intros (_ & listed & El & (x & Hin & Hx) & Hall)%rms_status_completed.
  destruct (list_find (λ c, parent_job_id c = Some j) listed) as [[k c]|] eqn:Ec.
  - left. apply list_find_Some in Ec as (Hk & Hc & _). apply list_elem_of_lookup_2 in Hk.
    eapply child_done; [exact El|exact Hk|exact Hc|]. apply Hall; [done|by right].
  - right. exists listed. split; [done|]. rewrite list_find_None_all in Ec. split; [done|].
    destruct Hx as [Hx|Hx]; [|by destruct (Ec x)]. exists x. split; [done|]. split; [done|]. apply Hall; [done|by left].
Qed.

Lemma rms_password_backend `{!ServiceTruthful} `{!ServiceListsChildren} : PasswordBackend (M := rms_manager).
Proof using Type.
  split.
  - intros ep next w j w' He. exact (rms_submissions _ _ _ _ _ He).
  - intros ep next w e w' He. exact (rms_submissions _ _ _ _ _ He).
  - intros ep next w e w' He Hne. pose proof (rms_submissions _ _ _ _ _ He) as H'. destruct e; try done. by edestruct Hne.
  - intros j w [?|(listed & El & Hno & p & Hin & Hp & Hc)]%rms_completed; [done|].
    destruct (children_listed w j listed p El Hin Hp Hc) as (c & Hcin & Hcp). by destruct (Hno c Hcin).
Qed.

(** C12: The backend keeps the promises of [NvSwitchManager] as far as the answers of the
    rack manager service allow.  If the service means what it says, a job id is returned
    only for a request that was accepted for this very switch with its current credentials;
    whatever is unclear is reported as an unknown outcome, in which the request was accepted
    or nothing happened; and every other error means that nothing was accepted.  A rotation
    counts as completed exactly when the service lists the job or its children and every
    one of them is completed; then the service has changed the password, except that a
    completed parent counts also when none of its children is listed. *)
Theorem rms_keeps_promises `{!ServiceTruthful} ep next w r w' j v :
  ensure_password_rotation (NvSwitchManager := rms_manager) ep next w = (r, w') →
  match r with
  | Ok j => ∃ f, accepted (request_of ep next) (fabric w) (Some j) f ∧ w' = set_fabric f w
  | Err (OperationOutcomeUnknown _) => w' = w ∨ ∃ oj f, accepted (request_of ep next) (fabric w) oj f ∧ w' = set_fabric f w
  | Err _ => w' = w
  end ∧
  (get_password_rotation_job_status (NvSwitchManager := rms_manager) j v = Ok JobCompleted ↔
   j ≠ EmptyString ∧ ∃ listed, get_job_status j true v = Ok listed ∧ (∃ x, x ∈ listed ∧ related j x) ∧
     ∀ y, y ∈ listed → related j y → execution_state y = ExecutionCompleted) ∧
  (get_password_rotation_job_status (NvSwitchManager := rms_manager) j v = Ok JobCompleted →
   (∃ r, rms_jobs (fabric v) !! j = Some (r, true)) ∨
   ∃ listed, get_job_status j true v = Ok listed ∧ (∀ c, c ∈ listed → parent_job_id c ≠ Some j) ∧
     ∃ p, p ∈ listed ∧ js_job_id p = j ∧ execution_state p = ExecutionCompleted).
Proof using Type.
  intros He. split; [by apply rms_submissions|]. split; [apply rms_status_completed|apply rms_completed].
Qed.

Lemma rms_rejects_cleanly `{!ServiceTruthful} `{!ServiceRefusesCleanly} : RejectsCleanly (M := rms_manager).
Proof using Type.
  intros ep next w e w' Hwf He. destruct (rms_ensure_cases _ _ _ _ _ He) as [(x & [= <-] & _ & _ & Hx)|(d & n & a & Hreq & Hu & Ha)].
  - by destruct (Hx e).
  - destruct a as [[b|]|[[] t|t]]; try (destruct Ha as [? ?]; done).
    + by destruct (decide (batch_job_id b = EmptyString)); [destruct Ha|].
    + intros r Hr Hm. by eapply (refused_clean d n next w t w' (request_of ep next)).
Qed.

(** The rotation of a switch through the backend stays recoverable when the service keeps
    its contract, whatever fails. *)
Lemma rotation_through_rms `{!ServiceTruthful} `{!ServiceListsChildren} `{!ServiceRefusesCleanly} mac id u pw es w sc : no_slash mac → mac ≠ "site"%string →
  u ≠ EmptyString → (∀ i j, -1 ≤ i → -1 ≤ j → pw i = pw j → i = j) → (∀ i, -1 ≤ i → pw i ≠ EmptyString) → enabled = true →
  (∀ n, relies (os_lets mac id pw) (sc n)) → os_recoverable mac id u pw es w →
  os_recoverable mac id u pw es (reconcile_nvos_password_rotation (Some rms_manager) id (Some mac) w sc).2.1.
Proof using Type.
  intros Hmac Hsite Hu Hinj Hpw Hen Hsc Hw. pose proof rms_password_backend as HB. pose proof rms_rejects_cleanly as HC.
  destruct (reconcile_triple mac id u pw es Hmac Hsite Hu Hinj Hpw (M := rms_manager) (HB := HB) (HC := HC) Hen w sc Hsc Hw) as [_ Hr].
  destruct (reconcile_nvos_password_rotation _ _ _ _ _) as [[o|x] [w' sc']]; simpl in *; [by destruct Hr|done].
Qed.

(** A completed job without children is a completed rotation, but not a completed reset. *)
Lemma lone_parent_evidence j : execution_state j = ExecutionCompleted → parent_job_id j = None →
  summarize_password_rotation_jobs (js_job_id j) [j] = JobCompleted ∧
  summarize_rms_switch_factory_reset_jobs (js_job_id j) [j] = Ok (mk_reset_status ResetPending None).
Proof using Type.
  intros Hs Hp. split.
  - unfold summarize_password_rotation_jobs, map_rms_password_rotation_state. rewrite filter_cons_True, filter_nil by auto. simpl.
    rewrite Hs, Hp. rewrite !decide_False by (by intros []). done.
  - unfold summarize_rms_switch_factory_reset_jobs, is_failed. simpl. rewrite decide_True by done. simpl.
    unfold reset_children. rewrite filter_cons_False, filter_nil by (intros []; done). simpl. by rewrite Hs.
Qed.

End Passwords.

(** ** A service *)

Definition no_answer {A} : result RackManagerError A := Err (TlsError "down").

(** It accepts every request for a password under a new job, and has two records for each,
    the job and its child for the switch; it knows one switch. *)
#[export] Instance demo_service : RmsApi World := {|
  number _ := 0;
  state_number _ := 0;
  job_error_name _ := None;
  rack_manager_text _ := "down";
  batch_set_power_state _ _ w := (no_answer, w);
  batch_get_power_state _ _ := no_answer;
  batch_get_node_device_info _ _ := no_answer;
  apply_firmware_object _ w := (no_answer, w);
  apply_switch_system_image _ w := (no_answer, w);
  get_firmware_job_status _ _ := no_answer;
  get_switch_system_image_job_status := None;
  get_node_firmware_inventory _ _ _ := no_answer;
  list_firmware_objects _ := no_answer;
  configure_switch_certificate _ _ _ w := (no_answer, w);
  get_configure_switch_certificate_job_status _ _ := no_answer;
  batch_reset_switch_factory_default _ _ w := (no_answer, w);
  update_switch_system_password devices _ next w :=
    match devices ≫= (λ d, option_list (host_endpoint d)) with
    | [e] =>
        let r := mk_nvos_request demo_mac (endpoint_credentials e) next in
        let j := fresh_job (rms_jobs (fabric w)) in
        (Ok (Some (mk_batch Success None [] EmptyString j)), set_fabric (set_job j r false (add_request r (fabric w))) w)
    | _ => (no_answer, w)
    end;
  get_job_status j _ w :=
    match rms_jobs (fabric w) !! j with
    | Some (_, finished) =>
        let state := if finished : bool then ExecutionCompleted else ExecutionRunning in
        Ok [mk_job j None [j +:+ "-1"] state 0 EmptyString None EmptyString;
            mk_job (j +:+ "-1") (Some j) [] state 0 EmptyString (Some demo_mac) EmptyString]
    | None => Err (ApiInvocationError NotFoundCode "no job")
    end;
  configure_scale_up_fabric_manager_v2 _ _ w := (no_answer, w);
  get_scale_up_fabric_status _ _ := no_answer;
  batch_get_scale_up_fabric_service_status _ _ := no_answer;
  status_from_json _ := None;
  switch_identities _ := Ok [mk_identity_row "sw" demo_mac demo_mac (Some "r1"%string) (Some "gb"%string)];
  power_shelf_identities _ := Ok [];
  machine_identities _ := Ok [];
  interface_hostnames _ := Ok [];
|}.

#[export] Instance demo_truthful : ServiceTruthful (λ _, demo_mac).
Proof.
  split.
  - intros w rows row [= <-] Hin. apply list_elem_of_singleton in Hin as ->. done.
  - intros d name next w b w' r Hr. simpl. unfold node_request in Hr. destruct (host_endpoint d) as [e|]; [|done]. simpl in *.
    injection Hr as <-. intros [= <- <-] _. eexists. split; [|done]. apply accepted_job, fresh_job_fresh.
  - intros d name next w a w' r Hr. simpl. unfold node_request in Hr. destruct (host_endpoint d) as [e|]; [|done]. simpl in *.
    injection Hr as <-. intros [= <- <-] _. right. eexists _, _. split; [|done]. apply accepted_job, fresh_job_fresh.
  - intros d name next w code text w'. simpl. by destruct (host_endpoint d).
  - intros w j listed c. simpl. destruct (rms_jobs (fabric w) !! j) as [[r f]|] eqn:Ej; [|done]. intros [= <-] Hin _.
    assert (execution_state c = if f then ExecutionCompleted else ExecutionRunning) as ->
      by (apply elem_of_cons in Hin as [->|Hin]; [done|]; apply list_elem_of_singleton in Hin as ->; done).
    destruct f; [|done]. intros _. by exists r.
Qed.

#[export] Instance demo_lists : ServiceListsChildren.
Proof.
  intros w j listed p. simpl. destruct (rms_jobs (fabric w) !! j) as [[r f]|]; [|done]. intros [= <-] _ _ _.
  eexists. split; [right; left|done].
Qed.

Definition demo_switch_profile : RackProfile :=
  mk_profile (Some Gb200) ∅ (mk_capability None ∅) (mk_capability (Some "NVIDIA"%string) ∅) (mk_capability None ∅).
Definition demo_rms : NvSwitchManager := rms_manager {["gb"%string := demo_switch_profile]} true.

Definition demo_endpoint : SwitchEndpoint :=
  mk_switch_endpoint "10.0.0.1" demo_mac "10.0.0.2" "0c:0d" (UsernamePassword "root" "bmc")
    (UsernamePassword "admin" (demo_pw (-1))) (Some "sw"%string).
Definition demo_submitted : World := (ensure_password_rotation (NvSwitchManager := demo_rms) demo_endpoint (demo_pw 0) (demo_world 0)).2.

(** A request is accepted under a job; when the service reports the job and its child as
    completed, it counts as completed. *)
Lemma rms_keeps_promises_witness :
  let done := set_fabric (set_job "*" demo_request true (fabric demo_submitted)) demo_submitted in
  (∃ f, accepted (request_of demo_endpoint (demo_pw 0)) (fabric (demo_world 0)) (Some "*"%string) f ∧
     demo_submitted = set_fabric f (demo_world 0)) ∧
  get_password_rotation_job_status (NvSwitchManager := demo_rms) "*" done = Ok JobCompleted ∧
  ((∃ r, rms_jobs (fabric done) !! "*"%string = Some (r, true)) ∨
   ∃ listed, get_job_status "*" true done = Ok listed ∧ (∀ c, c ∈ listed → parent_job_id c ≠ Some "*"%string) ∧
     ∃ p, p ∈ listed ∧ js_job_id p = "*"%string ∧ execution_state p = ExecutionCompleted).
Proof.
  intros done.
  assert (ensure_password_rotation (NvSwitchManager := demo_rms) demo_endpoint (demo_pw 0) (demo_world 0) = (Ok "*"%string, demo_submitted)) as He
    by (vm_compute; reflexivity).
  destruct (rms_keeps_promises {["gb"%string := demo_switch_profile]} true (λ _, demo_mac) demo_endpoint (demo_pw 0) (demo_world 0)
    (Ok "*"%string) demo_submitted "*" done He) as (H1 & _ & H3).
  split; [exact H1|]. split; [vm_compute; reflexivity|]. apply H3. vm_compute. reflexivity.
Defined.

(** The rotation of the switch through this service: submitted, done, and confirmed *)
Lemma demo_rms_rotates :
  let run w := reconcile_nvos_password_rotation (Some demo_rms) "sw" (Some demo_mac) w (script_of []) in
  let w1 := (run (demo_world 0)).2.1 in
  let w2 := set_fabric (set_job "*" demo_request true (set_os demo_mac (rq_target demo_request) (fabric w1))) w1 in
  (run (demo_world 0)).1 = Ok (Waiting "NVOS job * was submitted") ∧
  rtc backend_step (fabric w1) (fabric w2) ∧
  (run w2).1 = Ok UpToDate ∧
  effective (run w2).2.1 (SwitchNvosAdmin demo_mac) = Some (UsernamePassword "admin" (demo_pw 0)).
Proof.
  split_and!; [vm_compute; reflexivity| |vm_compute; reflexivity..].
  eapply rtc_l; [apply (backend_applies _ demo_request)|apply rtc_once, (backend_succeeds _ "*" demo_request false)].
  - vm_compute. left.
  - vm_compute. reflexivity.
  - vm_compute. reflexivity.
  - vm_compute. reflexivity.
Qed.
