(* ===== verification/SwitchController.v ===== *)
(** * The switch controller

    [switch-controller/src/*.rs]: the handlers of the controller states of a switch, and a
    run of the state processor on one switch.  The handlers call the database outside of
    transactions, the rotation engine, the rotation of NVOS passwords ([NvosRotation]), the
    secret store and the component manager; others act between the calls, which fail as
    the script says.  Log texts, metrics and counted events are left out; the text of an id
    is the id. *)

From S2P Require Import Prelude ConfigVersion StateHistory StateHandler ControllerIO ProcessObject ControllerTable PowerShelfTable.
From S2P Require Import RmsNodeIdentity Credentials RotationWorld CredentialRotation SwitchTable Calls HandlerRuns.
From S2P Require Import RotationEngine SitePause NvosRotation.

Notation Outcome := (StateHandlerOutcome Txn SwitchControllerState).

Definition on_switches : (switch_table → result string switch_table) → Txn → handler Txn := on_table switch_rows set_switch_rows.

(** ** Services *)

(** [ComponentManager], as far as the controller uses it: [nv_switch] has the operations on
    passwords; the others may change the world of the backend. *)
Record ComponentManager := mk_component_manager {
  nv_switch : NvSwitchManager;
  power_control : SwitchEndpoint → PowerAction → World → result ComponentManagerError (list ComponentResult) * World;
  configure_switch_certificate : SwitchEndpoint → option string → option (list Z) → World → result ComponentManagerError string * World;
  get_configure_switch_certificate_job_status : string → World → result ComponentManagerError (ConfigureSwitchCertificateState * option string);
  get_slot_and_tray : SwitchEndpoint → World → result ComponentManagerError (list SlotAndTrayResult);
}.

(** [SwitchStateHandlerServices] *)
Record SwitchStateHandlerServices := mk_services {
  component_manager : option ComponentManager;
  switch_mtls_services : list Z;
  bmc_rotation_gate : RotationGate;
  bmc_rotation_enabled : bool;
}.

Section Handlers.
Context (svc : SwitchStateHandlerServices) (here : Location) (o : string).

Notation manager := (nv_switch <$> component_manager svc).

(** ** Interfaces *)

(** The loop of [handle_wait_for_os_machine_interface]: the number of interfaces of the
    switch, or the outcome that ends it early *)
Fixpoint associate_all (macs : list string) (txn : Txn) (associated_count : Z) : handler (Outcome + Txn * Z) :=
  match macs with
  | [] => mret (inr (txn, associated_count))
  | mac :: macs =>
      found ← read DBError (λ _ w, Ok (find_by_mac_address mac (interfaces (in_txn txn w))));
      match found with
      | [] => associate_all macs txn associated_count
      | i :: _ =>
          match if_switch_id i with
          | Some existing =>
              if decide (existing = o) then associate_all macs txn (associated_count + 1)
              else mret (inl (transition here (Error ("NVOS MAC " +:+ mac +:+ " already associated with switch " +:+ existing))))
          | None =>
              txn ← statement (λ _ w, (λ t, set_interfaces t w) <$>
                      associate_interface_with_machine (if_id i) (ToSwitch o) (interfaces w)) txn;
              associate_all macs txn (associated_count + 1)
          end
      end
  end.

(** [handle_wait_for_os_machine_interface] *)
Definition handle_wait_for_os_machine_interface (s : Switch) : handler Outcome :=
  match sw_bmc_mac_address s with
  | None => mret (transition here (Error "No BMC MAC address on switch"))
  | Some mac =>
      txn ← begin_txn;
      expected ← read DBError (λ _ w, Ok (expected_switches (rot w) !! mac));
      match expected with
      | None => mret (transition here (Error ("No expected switch found for BMC MAC " +:+ mac)))
      | Some es =>
          if decide (nvos_mac_addresses es = []) then
            mret (transition here (Error ("No NVOS MAC addresses on expected switch for serial " +:+ mac +:+ ", BMC MAC " +:+ mac)))
          else
            r ← associate_all (nvos_mac_addresses es) txn 0;
            match r with
            | inl oc => mret oc
            | inr (txn, n) =>
                _ ← commit_txn txn;
                if 1 <=? n then mret (transition here (Configuring (ConfigureCertificate Start)))
                else mret (wait here (print_u n +:+ "/" +:+ print_u (Z.of_nat (length (nvos_mac_addresses es))) +:+
                             " NVOS interfaces associated, waiting"))
            end
      end
  end.

(** ** Certificates *)

(** [ConfigureSwitchCertificateMode] and [ConfigureSwitchCertificatePollOutcome] *)
Inductive ConfigureSwitchCertificateMode := BringUp | Reconfigure.
Inductive ConfigureSwitchCertificatePollOutcome := PollCompleted | PollFailed (cause : string) | PollInProgress.

(** [start_configure_switch_certificate]: [StartConfigureSwitchCertificateResult] is the
    outcome of an early transition or the id of the job. *)
Definition start_configure_switch_certificate (s : Switch) (domain_name : option string)
    (mode : ConfigureSwitchCertificateMode) : handler (Outcome + string) :=
  let missing what :=
    match mode with
    | BringUp => transition here (Configuring RotateOsPassword)
    | Reconfigure => transition here (Error ("Switch " +:+ o +:+ " certificate reconfiguration: " +:+ what))
    end in
  match sw_rack_id s with
  | None => mret (inl (missing "switch has no rack association"%string))
  | Some _ =>
      match component_manager svc with
      | None => mret (inl (missing "component manager not configured"%string))
      | Some cm =>
          match sw_bmc_mac_address s with
          | None => mret (inl (transition here (Error "No BMC MAC address on switch")))
          | Some _ =>
              e ← catch (resolve_switch_endpoint o);
              match e with
              | Err error =>
                  mret (inl (transition here (Error ("Switch " +:+ o +:+
                    ": cannot resolve switch endpoint for certificate configuration: " +:+ error_string error))))
              | Ok endpoint =>
                  job_id ← convert (λ e, GenericError ("switch " +:+ o +:+ ": failed to start switch certificate configuration: " +:+
                                                       component_manager_text e))
                             (call Unavailable (λ _, configure_switch_certificate cm endpoint domain_name (Some (switch_mtls_services svc))));
                  mret (inr job_id)
              end
          end
      end
  end.

(** [poll_configure_switch_certificate_job] *)
Definition poll_configure_switch_certificate_job (job_id : string) : handler ConfigureSwitchCertificatePollOutcome :=
  match component_manager svc with
  | None => mret (PollFailed "component manager is not configured while waiting for switch certificate job")
  | Some cm =>
      '(state, error) ← convert (λ e, GenericError ("switch " +:+ o +:+ ": failed to get switch certificate job status for " +:+
                                                    job_id +:+ ": " +:+ component_manager_text e))
                          (read Unavailable (λ _, get_configure_switch_certificate_job_status cm job_id));
      mret (match state with
            | CertificateCompleted => PollCompleted
            | CertificateFailed => PollFailed (default "switch certificate configuration failed"%string error)
            | CertificateStarted | CertificateInProgress => PollInProgress
            end)
  end.

(** ** Configuring *)

(** [handle_rotate_os_password] *)
Definition handle_rotate_os_password (s : Switch) : handler Outcome :=
  r ← reconcile_nvos_password_rotation manager o (sw_bmc_mac_address s);
  mret (match r with
        | UpToDate => transition here FetchInfo
        | Waiting reason => wait here reason
        | CredentialError cause => transition here (Error cause)
        end).

(** The part of [handle_configure_certificate_start] that provides the credentials; a
    reason to wait, if there is one *)
Definition certificate_credentials (s : Switch) : handler (option string) :=
  match sw_rack_id s, component_manager svc, sw_bmc_mac_address s with
  | Some _, Some _, Some mac =>
      c ← generic (λ e, of_switch o ("failed to read NVOS credentials from credential store: " +:+ e))
            (get_credentials (SwitchNvosAdmin mac));
      if decide (is_Some c) then mret None
      else
        status ← ensure_nvos_admin_credentials o mac;
        mret (match status with
              | Available => None
              | Skip => Some (of_switch o "waiting for NVOS admin credentials")
              | CredentialStatusError cause => Some (of_switch o ("waiting for valid NVOS admin credentials: " +:+ cause))
              end)
  | _, _, _ => mret None
  end.

(** [handle_configure_certificate_start] *)
Definition handle_configure_certificate_start (s : Switch) : handler Outcome :=
  blocked ← certificate_credentials s;
  match blocked with
  | Some reason => mret (wait here reason)
  | None =>
      r ← start_configure_switch_certificate s None BringUp;
      mret (match r with
            | inl oc => oc
            | inr job_id => transition here (Configuring (ConfigureCertificate (WaitForComplete job_id)))
            end)
  end.

(** [handle_configure_certificate_wait_for_complete] *)
Definition handle_configure_certificate_wait_for_complete (job_id : string) : handler Outcome :=
  p ← poll_configure_switch_certificate_job job_id;
  mret (match p with
        | PollCompleted => transition here (Configuring RotateOsPassword)
        | PollFailed cause => transition here (Error cause)
        | PollInProgress => wait here ("switch certificate job " +:+ job_id +:+ " in progress")
        end).

(** [handle_configuring] and [handle_configure_certificate] *)
Definition handle_configuring (s : Switch) (config_state : ConfiguringState) : handler Outcome :=
  match config_state with
  | ConfigureCertificate Start => handle_configure_certificate_start s
  | ConfigureCertificate (WaitForComplete job_id) => handle_configure_certificate_wait_for_complete job_id
  | RotateOsPassword => handle_rotate_os_password s
  end.

(** [handle_fetch_info] *)
Definition handle_fetch_info (s : Switch) : handler Outcome :=
  _ ← match sw_rack_id s, component_manager svc with
      | Some _, Some cm =>
          e ← catch (resolve_switch_endpoint o);
          match e with
          | Err _ => mret ()
          | Ok endpoint =>
              r ← catch (read Unavailable (λ _, get_slot_and_tray cm endpoint));
              match r with
              | Ok (result :: _) =>
                  txn ← begin_txn;
                  u ← catch (on_switches (λ t, Ok (update_slot_and_tray o (st_slot_number result) (st_tray_index result) t)) txn);
                  match u with
                  | Err _ => read TransactionError (λ _ _, Ok ())
                  | Ok txn => commit_txn txn
                  end
              | _ => mret ()
              end
          end
      | _, _ => mret ()
      end;
  mret (transition here (Validating ValidationComplete)).

(** ** Maintenance *)

(** [lookup_bmc_credentials] and [lookup_nvos_credentials] *)
Definition lookup_bmc_credentials (mac : string) : prog World string Credentials :=
  r ← catch (get_credentials (BmcCredentials (BmcRoot mac)));
  match r with
  | Ok (Some c) => mret c
  | Ok None => lift (Err ("no per-device BMC credentials configured for " +:+ mac +:+ "; the device must be (re)ingested"))
  | Err e => lift (Err ("failed to read BMC credentials for " +:+ mac +:+ ": " +:+ e))
  end.
Definition lookup_nvos_credentials (mac : string) : prog World string Credentials :=
  c ← convert (λ e, "failed to read NVOS credentials for " +:+ mac +:+ ": " +:+ e) (get_credentials (SwitchNvosAdmin mac));
  lift (ok_or c ("no NVOS admin credentials configured for " +:+ mac)).

(** [build_switch_endpoint] *)
Definition build_switch_endpoint (s : Switch) : prog World string SwitchEndpoint :=
  mac ← lift (ok_or (sw_bmc_mac_address s) ("switch " +:+ o +:+ " has no BMC MAC address recorded"));
  row ← read (λ e, "failed to look up switch endpoints: " +:+ e) (λ _ w, Ok (endpoint_rows (fabric w) !! o));
  row ← lift (ok_or row ("no endpoint info found for switch " +:+ o));
  match er_nvos_mac row, er_nvos_ip row with
  | Some nvos_mac, Some nvos_ip =>
      bmc ← lookup_bmc_credentials mac;
      nvos ← lookup_nvos_credentials mac;
      mret (mk_switch_endpoint (er_bmc_ip row) mac nvos_ip nvos_mac bmc nvos
              (h ← er_nvos_hostname row; if decide (h = EmptyString) then None else Some h))
  | _, _ => lift (Err ("switch " +:+ o +:+ " is missing NVOS MAC or IP required for power control"))
  end.

(** [finish_maintenance_with_success] and [finish_maintenance_with_error] *)
Definition finish_maintenance (next : SwitchControllerState) : handler Outcome :=
  txn ← begin_txn;
  txn ← on_switches (clear_switch_maintenance_requested o) txn;
  mret (attach_txn txn (transition here next)).
Definition finish_maintenance_with_success : handler Outcome := finish_maintenance Ready.
Definition finish_maintenance_with_error (cause : string) : handler Outcome := finish_maintenance (Error cause).

(** [finish_maintenance_outcome] *)
Definition finish_maintenance_outcome (outcome : Outcome) : handler Outcome :=
  match outcome with
  | Transition (Error cause) _ _ => finish_maintenance_with_error cause
  | Transition Ready _ _ => finish_maintenance_with_success
  | other => mret other
  end.

(** [invoke_power_operation] *)
Definition invoke_power_operation (s : Switch) (action : PowerAction) (operation_label : string) : handler Outcome :=
  let cause text := "Switch " +:+ o +:+ " maintenance (" +:+ operation_label +:+ "): " +:+ text in
  match component_manager svc with
  | None => finish_maintenance_with_error (cause "component manager not configured")
  | Some cm =>
      match sw_rack_id s with
      | None => finish_maintenance_with_error (cause "switch has no rack association")
      | Some _ =>
          e ← catch (build_switch_endpoint s);
          match e with
          | Err text => finish_maintenance_with_error (cause text)
          | Ok endpoint =>
              r ← catch (call Unavailable (λ _, power_control cm endpoint action));
              match r with
              | Ok results =>
                  let result := default (mk_component_result (ep_bmc_mac endpoint) false (Some "component manager returned no result"%string)) (head results) in
                  if cr_success result then finish_maintenance Ready
                  else finish_maintenance_with_error
                         (cause ("power control failed: " +:+ default "power control failed"%string (cr_error result)))
              | Err error => finish_maintenance_with_error (cause ("power control failed: " +:+ component_manager_text error))
              end
          end
      end
  end.

(** [handle_reconfigure_certificate] with its two parts *)
Definition handle_reconfigure_certificate (s : Switch) (configure_certificate : ConfigureCertificateState) : handler Outcome :=
  match configure_certificate with
  | Start =>
      r ← start_configure_switch_certificate s None Reconfigure;
      match r with
      | inl oc => finish_maintenance_outcome oc
      | inr job_id => mret (transition here (Maintenance ReconfigureCertificate (Some (WaitForComplete job_id))))
      end
  | WaitForComplete job_id =>
      p ← poll_configure_switch_certificate_job job_id;
      match p with
      | PollCompleted => finish_maintenance_with_success
      | PollFailed cause =>
          finish_maintenance_with_error ("Switch " +:+ o +:+ " maintenance (ReconfigureCertificate): " +:+ cause)
      | PollInProgress => mret (wait here ("switch certificate reconfiguration job " +:+ job_id +:+ " in progress"))
      end
  end.

(** [handle_maintenance] with [handle_power_on], [handle_power_off] and [handle_reset] *)
Definition handle_maintenance (s : Switch) (operation : SwitchMaintenanceOperation)
    (configure_certificate : option ConfigureCertificateState) : handler Outcome :=
  match operation with
  | PowerOn => invoke_power_operation s On "PowerOn"
  | PowerOff => invoke_power_operation s ForceOff "PowerOff"
  | Reset => invoke_power_operation s ForceRestart "Reset"
  | ReconfigureCertificate => handle_reconfigure_certificate s (default Start configure_certificate)
  end.

(** ** Reprovisioning *)

Definition rack_initiated (initiator : string) : bool := String.prefix "rack-" initiator.

(** [is_rack_level_reprovisioning] *)
Definition is_rack_level_reprovisioning (s : Switch) : bool :=
  match sw_reprovisioning_requested s with Some req => rack_initiated (srr_initiator req) | None => false end.

(** [should_run] and the activities of interest *)
Definition should_run (activities : list MaintenanceActivity) (activity : MaintenanceActivity) : bool :=
  bool_decide (activities = []) || existsb (λ a, same_kind a activity) activities.
Definition nvos_update_requested (activities : list MaintenanceActivity) : bool := should_run activities (NvosUpdate EmptyString).
Definition configure_nmx_cluster_requested (activities : list MaintenanceActivity) : bool := should_run activities ConfigureNmxCluster.
Definition firmware_upgrade_requested (activities : list MaintenanceActivity) : bool :=
  should_run activities (FirmwareUpgrade None [] false).

(** [next_state_after_nvos], [next_state_after_firmware] and [first_reprovisioning_state] *)
Definition next_state_after_nvos (req : SwitchReprovisionRequest) : option ReProvisioningState :=
  if configure_nmx_cluster_requested (srr_activities req) then Some WaitingForNMXCConfigure else None.
Definition next_state_after_firmware (req : SwitchReprovisionRequest) : option ReProvisioningState :=
  if nvos_update_requested (srr_activities req) then Some WaitingForNVOSUpgrade
  else if configure_nmx_cluster_requested (srr_activities req) then Some WaitingForNMXCConfigure else None.
Definition first_reprovisioning_state (req : SwitchReprovisionRequest) : option ReProvisioningState :=
  if firmware_upgrade_requested (srr_activities req) then Some WaitingForRackFirmwareUpgrade
  else if nvos_update_requested (srr_activities req) then Some WaitingForNVOSUpgrade
  else if configure_nmx_cluster_requested (srr_activities req) then Some WaitingForNMXCConfigure else None.

Definition clear_reprovisioning (oc : Outcome) : handler Outcome :=
  txn ← begin_txn;
  txn ← on_switches (λ t, Ok (clear_switch_reprovisioning_requested o t)) txn;
  mret (attach_txn txn oc).

(** [rack_failed_abort_outcome] *)
Definition rack_failed_abort_outcome (s : Switch) : handler (option Outcome) :=
  if negb (is_rack_level_reprovisioning s) then mret None
  else match sw_rack_id s with
       | None => mret None
       | Some rack_id =>
           rack ← read DBError (λ _ w, Ok (racks w !! rack_id));
           match rack with
           | Some (RackError _) => oc ← clear_reprovisioning (transition here Ready); mret (Some oc)
           | _ => mret None
           end
       end.

(** The end of a phase: the next one, or the return to [Ready] *)
Definition phase_completed (next : option ReProvisioningState) : handler Outcome :=
  match next with
  | Some st => mret (transition here (ReProvisioning st))
  | None => clear_reprovisioning (transition here Ready)
  end.

(** [handle_reprovisioning] *)
Definition handle_reprovisioning (s : Switch) (st : ReProvisioningState) : handler Outcome :=
  aborted ← rack_failed_abort_outcome s;
  match aborted with
  | Some oc => mret oc
  | None =>
      match st, sw_reprovisioning_requested s with
      | WaitingForRackFirmwareUpgrade, None | WaitingForNVOSUpgrade, None => panic
      | WaitingForRackFirmwareUpgrade, Some req =>
          match sw_firmware_upgrade_status s with
          | None => mret (wait here "waiting for switch firmware upgrade status")
          | Some status =>
              if negb (is_current_for status (srr_requested_at req)) then mret (wait here "waiting for current rack firmware cycle")
              else if negb (is_terminal status) then mret (wait here "waiting for switch firmware completion")
              else match upgrade_state status with
                   | UpgradeCompleted => phase_completed (next_state_after_firmware req)
                   | UpgradeFailed cause => clear_reprovisioning (transition here (Error cause))
                   | UpgradeStarted | UpgradeInProgress => mret (wait here "waiting for switch firmware completion")
                   end
          end
      | WaitingForNVOSUpgrade, Some req =>
          match sw_nvos_update_status s with
          | None => mret (wait here "waiting for switch NVOS update status")
          | Some status =>
              if negb (nvos_is_current_for status (srr_requested_at req)) then mret (wait here "waiting for current rack NVOS cycle")
              else if negb (nvos_is_terminal status) then mret (wait here "waiting for switch NVOS completion")
              else match nvos_state status with
                   | NvosCompleted => phase_completed (next_state_after_nvos req)
                   | NvosFailed cause => clear_reprovisioning (transition here (Error cause))
                   | NvosStarted | NvosInProgress => mret (wait here "waiting for switch NVOS completion")
                   end
          end
      | WaitingForNMXCConfigure, _ =>
          match sw_fabric_manager_status s with
          | None => mret (wait here "waiting for switch fabric manager status")
          | Some status =>
              if decide (display_status status = "running"%string) then clear_reprovisioning (transition here Ready)
              else match fm_error_message status, fm_reason status with
                   | Some cause, _ => clear_reprovisioning (transition here (Error cause))
                   | None, Some reason =>
                       if decide (reason = EmptyString) then mret (wait here reason)
                       else clear_reprovisioning (transition here Ready)
                   | None, None => clear_reprovisioning (transition here Ready)
                   end
          end
      end
  end.

(** ** Rotation of the BMC *)

(** [BmcEndpoint::from_switch] and [into_target] *)
Definition from_switch (s : Switch) : option BmcRotationTarget :=
  i ← sw_bmc_info s; from_bmc_info i (Fixed NvidiaGBSwitch).

(** [should_enter_bmc_rotation] *)
Definition should_enter_bmc_rotation (s : Switch) (cache : CachedAggregate) : handler (bool * CachedAggregate) :=
  if sw_bmc_credential_rotation_requested s then mret (true, cache)
  else if negb (bmc_rotation_enabled svc) then mret (false, cache)
  else match from_switch s with
       | None => mret (false, cache)
       | Some endpoint =>
           convert (λ e, GenericError ("bmc rotation gate query: " +:+ engine_text e))
             (rotation_needed (bmc_rotation_gate svc) (device_mac endpoint) cache)
       end.

(** [rotate_switch_bmc] *)
Definition rotate_switch_bmc (target : BmcRotationTarget) (force : bool) : handler BmcRotationTick :=
  r ← catch (rotate_bmc target force); mret (tick_of r).

(** [handle_rotating_bmc] *)
Definition handle_rotating_bmc (s : Switch) (retry_count : Z) : handler Outcome :=
  let force := sw_bmc_credential_rotation_requested s in
  let endpoint := from_switch s in
  let bmc_macs := match endpoint with Some e => [device_mac e] | None => [] end in
  decision ← convert (DBError ∘ database_text)
               (gate_before_credential_change bmc_macs ROTATION_SUPPRESSION_REASON);
  match decision with
  | SitePause.Wait =>
      mret (wait here "waiting for site-explorer to acknowledge the BMC rotation suppression")
  | Proceed =>
      tick ← match endpoint with
             | Some e => rotate_switch_bmc e force
             | None => mret Settled
             end;
      match advance tick retry_count with
      | StepWait =>
          mret (wait here ("switch BMC hardware changed but the per-device secret persist has not yet succeeded; holding rotation (site-explorer suppressed) until the credential store reconciles"))
      | StepRetry n => mret (transition here (RotatingBmc n))
      | step =>
          txn ← begin_txn;
          txn ← (if force && match step with StepSettled => true | _ => false end
                 then on_switches (clear_bmc_credential_rotation_requested o) txn else mret txn);
          txn ← statement (λ _ w, Ok (set_suppressions
                  (resume_after_credential_change bmc_macs ROTATION_SUPPRESSION_REASON (suppressions w)) w)) txn;
          mret (attach_txn txn (transition here Ready))
      end
  end.

(** ** The other states *)

(** [handle_ready] *)
Definition handle_ready (s : Switch) (cache : CachedAggregate) : handler (Outcome * CachedAggregate) :=
  if is_marked_as_deleted s then mret (transition here Deleting, cache)
  else match sw_maintenance_requested s with
  | Some req => mret (transition here (maintenance_for_operation (smr_operation req)), cache)
  | None =>
      match sw_reprovisioning_requested s with
      | Some req =>
          if negb (rack_initiated (srr_initiator req)) then
            oc ← clear_reprovisioning (transition here
                   (Error ("unknown initiator for switch reprovisioning request: " +:+ srr_initiator req)));
            mret (oc, cache)
          else match first_reprovisioning_state req with
               | None => oc ← clear_reprovisioning (do_nothing here); mret (oc, cache)
               | Some st => mret (transition here (ReProvisioning st), cache)
               end
      | None =>
          pending ← needs_nvos_password_reconciliation manager o (sw_bmc_mac_address s);
          if pending : bool then mret (transition here (Configuring RotateOsPassword), cache)
          else
            '(enter, cache) ← should_enter_bmc_rotation s cache;
            mret (if enter : bool then transition here (RotatingBmc 0) else do_nothing here, cache)
      end
  end.

(** [handle_deleting] *)
Definition handle_deleting : handler Outcome :=
  txn ← begin_txn;
  txn ← on_switches (final_delete o) txn;
  mret (attach_txn txn (deleted here)).

(** [handle_error] *)
Definition handle_error (s : Switch) : handler Outcome :=
  if is_marked_as_deleted s then mret (transition here Deleting)
  else match sw_maintenance_requested s with
       | Some req => mret (transition here (maintenance_for_operation (smr_operation req)))
       | None => mret (do_nothing here)
       end.

(** [handle_created], [handle_initializing], [handle_validating] and [handle_bom_validating] *)
Definition handle_created : handler Outcome := mret (transition here (Initializing WaitForOsMachineInterface)).
Definition handle_initializing (s : Switch) (st : InitializingState) : handler Outcome :=
  match st with WaitForOsMachineInterface => handle_wait_for_os_machine_interface s end.
Definition handle_validating (st : ValidatingState) : handler Outcome :=
  match st with ValidationComplete => mret (transition here (BomValidating BomValidationComplete)) end.
Definition handle_bom_validating (st : BomValidatingState) : handler Outcome :=
  match st with BomValidationComplete => mret (transition here Ready) end.

(** [attempt_state_transition] *)
Definition attempt_state_transition (s : Switch) (cs : SwitchControllerState) (cache : CachedAggregate)
    : handler (Outcome * CachedAggregate) :=
  match cs with
  | Ready => handle_ready s cache
  | _ =>
      oc ← match cs with
           | Created => handle_created
           | Initializing initializing_state => handle_initializing s initializing_state
           | Configuring config_state => handle_configuring s config_state
           | FetchInfo => handle_fetch_info s
           | Validating validating_state => handle_validating validating_state
           | BomValidating bom_validating_state => handle_bom_validating bom_validating_state
           | ReProvisioning st => handle_reprovisioning s st
           | Maintenance operation configure_certificate => handle_maintenance s operation configure_certificate
           | RotatingBmc retry_count => handle_rotating_bmc s retry_count
           | Deleting => handle_deleting
           | Error _ => handle_error s
           | Ready => mret (do_nothing here)
           end;
      mret (oc, cache)
  end.

(** ** A run *)

Definition commit_outcome : Clock → Versioned SwitchControllerState → result StateHandlerError Outcome → Z → World → World :=
  commit_run switch_rows set_switch_rows switch_state_sla o.

(** One run of the processor on the switch *)
Definition run : Clock → CachedAggregate → handler CachedAggregate :=
  object_run switch_rows set_switch_rows switch_state_sla o attempt_state_transition.

End Handlers.

(** ** Switches under the state processor

    [switch-controller/src/io.rs]: the interface of the switch controller to the processor,
    over the database that its handlers act on; and that a run of the controller is what
    [process_object] does with the result of the handler. *)

Section Processor.
Context (debug : SwitchControllerState → string).

(** [SwitchStateControllerIO]; the last argument is the time of the database. *)
Definition switch_io : Z → StateControllerIO World string switch_row SwitchControllerState :=
  world_io switch_rows set_switch_rows switch_state_sla switch_state_names switch_intervention debug.

Lemma switch_io_laws db_now : StateControllerIOLaws World string switch_row SwitchControllerState
  (IO := switch_io db_now) (V := world_view switch_rows).
Proof using Type. by apply world_io_laws. Qed.

(** A run of the controller on a switch whose own statements work leaves the database that
    [process_object] leaves when it is given what the handler did and returned, whatever
    failed inside the handler. *)
Lemma switch_run_refines svc here o clk cache w sc row r w' sc' :
  rows (switch_rows w) !! o = Some row → calm (sc 0%nat) →
  (catch (attempt_state_transition svc here o (row_object row) (value (row_state row)) cache) : handler _) w (later sc) =
    (Ok r, (w', sc')) → calm (sc' 0%nat) →
  (run svc here o clk cache w sc).2.1 =
    committed (handle (IO := switch_io (clock (sc' 0%nat))) (handled w' (fst <$> r)) clk o
                 (ProcessObject.mk_world w [] default_metrics)).2.
Proof using Type. by apply (object_run_refines switch_rows set_switch_rows switch_state_sla). Qed.

End Processor.
