(* ===== verification/SwitchControllerFacts.v ===== *)
(** * What the switch controller guarantees

    Runs move a switch only along the edges of its state machine; its password stays
    recoverable in every state of the controller, and is settled when the controller leaves
    the state that rotates it; interfaces are claimed together and never taken from another
    switch; and how a switch gets stuck when its rack withdraws a request at the wrong
    moment. *)

From S2P Require Import Prelude ConfigVersion StateHistory StateHandler ControllerIO ProcessObject ControllerTable PowerShelfTable.
From S2P Require Import RmsNodeIdentity Credentials RotationWorld CredentialRotation SwitchTable Calls HandlerRuns.
From S2P Require Import RotationEngine SitePause NvosRotation SwitchController.

(** ** What the handlers leave alone *)

Section Frame.
Context (allowed : Step World → Prop) (P : World → Prop) (svc : SwitchStateHandlerServices) (here : Location) (o : string).
Context (Hothers : ∀ st w, allowed st → P w → P (others st w)).
Context (Hrot : ∀ mac r w, but_device (mac, Bmc) (rot w) r → P w → P (set_rot r w)).
Context (Hstore : ∀ mac c w, P w → P (set_store (<[path (BmcCredentials (BmcRoot mac)) := c]> (store w)) w)).
Context (Hbmcs : ∀ b w, P w → P (set_bmcs b w)) (Hsessions : ∀ s w, P w → P (set_sessions s w)).
Context (Hresults : ∀ m r w, P w → P (add_result m r w)) (Hsuppressions : ∀ s w, P w → P (set_suppressions s w)).
Context (Hinterfaces : ∀ t w, P w → P (set_interfaces t w)).
Context (Hlocation : ∀ a b w, P w → P (set_switch_rows (update_slot_and_tray o a b (switch_rows w)) w)).

Notation kept m := (keeps allowed P m).
Notation manager := (nv_switch <$> component_manager svc).
Ltac keep := keep_with Hothers.

(** A transaction that leaves the property alone *)
Definition safe_txn (txn : Txn) : Prop := ∀ w, P w → P (in_txn txn w).

Lemma begin_safe : returns begin_txn safe_txn.
Proof using Type. apply returns_read. intros c w a [= <-] w' HP. exact HP. Qed.

Lemma statement_safe f txn : safe_txn txn → (∀ c w w', f c w = Ok w' → P w → P w') → returns (statement f txn) safe_txn.
Proof using Type.
  intros Ht Hf. apply returns_read. intros c w a. destruct (f c (in_txn txn w)); [|done]. intros [= <-] w' HP.
  rewrite in_txn_app. destruct (f c (in_txn txn w')) as [w2|] eqn:E; [|by apply Ht]. eapply Hf; [exact E|by apply Ht].
Qed.

Lemma commit_kept txn : safe_txn txn → kept (commit_txn txn).
Proof using Hothers. intros Ht. apply kept_call; [done|]. intros c w HP. by apply Ht. Qed.

Lemma associate_kept macs txn n : safe_txn txn → kept (associate_all here o macs txn n) ∧
  returns (associate_all here o macs txn n) (λ r, ∀ txn' k, r = inr (txn', k) → safe_txn txn').
Proof using Hothers Hinterfaces.
  revert txn n. induction macs as [|mac macs IH]; intros txn n Ht; cbn [associate_all].
  { split; [apply kept_ret|]. apply returns_ret. by intros ? ? [= <- <-]. }
  assert (Hs : ∀ i, returns (statement (λ _ w, (λ t, set_interfaces t w) <$>
    associate_interface_with_machine (if_id i) (ToSwitch o) (interfaces w)) txn) safe_txn).
  { intros i. apply statement_safe; [done|]. intros c w w'. destruct (associate_interface_with_machine _ _ _); [|done].
    intros [= <-]. apply Hinterfaces. }
  split.
  - apply kept_bind; [by apply kept_read|]. intros found. repeat case_match; try (by apply IH); try (by apply kept_ret).
    eapply kept_bind_returns; [by apply statement_kept|apply Hs|]. intros txn' Ht'. by apply IH.
  - apply returns_then. intros found. repeat case_match; try (by apply IH); try (by apply returns_ret).
    eapply returns_bind; [apply Hs|]. intros txn' Ht'. by apply IH.
Qed.

Lemma initializing_kept s : kept (handle_wait_for_os_machine_interface here o s).
Proof using Hothers Hinterfaces.
  unfold handle_wait_for_os_machine_interface. case_match; [|apply kept_ret].
  eapply kept_bind_returns; [by apply kept_read|apply begin_safe|]. intros txn Ht.
  apply kept_bind; [by apply kept_read|]. intros es. repeat case_match; try apply kept_ret.
  destruct (associate_kept (nvos_mac_addresses e) txn 0 Ht) as [Hk Hr].
  eapply kept_bind_returns; [exact Hk|exact Hr|]. intros [oc|[txn' k]] Hs; [apply kept_ret|].
  apply kept_bind; [by apply commit_kept, (Hs txn' k)|]. intros _. case_match; apply kept_ret.
Qed.

Lemma resolve_endpoint_kept : kept (resolve_switch_endpoint o).
Proof using Hothers. unfold resolve_switch_endpoint, fetch_switch_nvos_credentials, generic, get_credentials. keep. Qed.

Lemma poll_certificate_kept j : kept (poll_configure_switch_certificate_job svc o j).
Proof using Hothers. unfold poll_configure_switch_certificate_job. keep. Qed.

Lemma fetch_info_kept s : kept (handle_fetch_info svc here o s).
Proof using Hothers Hlocation.
  unfold handle_fetch_info. apply kept_bind; [|intros; apply kept_ret].
  repeat case_match; try apply kept_ret. apply kept_bind; [apply kept_catch, resolve_endpoint_kept|]. intros e.
  case_match; [|apply kept_ret]. apply kept_bind; [by apply kept_catch, kept_read|]. intros rs. repeat case_match; try apply kept_ret.
  eapply kept_bind_returns; [by apply kept_read|apply begin_safe|]. intros txn Ht.
  eapply kept_bind_returns; [by apply kept_catch, kept_read|apply returns_catch, statement_safe; [exact Ht|]|].
  - intros z w w' [= <-]. apply Hlocation.
  - intros [txn'|x] Hx; [by apply commit_kept, Hx|by apply kept_read].
Qed.

Lemma switch_rotating_kept s n : kept (handle_rotating_bmc here o s n).
Proof using Hothers Hbmcs Hstore Hrot Hsessions Hresults Hsuppressions.
  unfold handle_rotating_bmc, rotate_switch_bmc, begin_txn, on_switches.
  keep; [by apply gate_kept|apply rotate_bmc_kept; eauto|by apply statement_kept..].
Qed.

Lemma finish_kept n : kept (finish_maintenance here o n).
Proof using Hothers. unfold finish_maintenance, begin_txn, on_switches. keep. all: by apply statement_kept. Qed.

Lemma clear_reprovisioning_kept oc : kept (clear_reprovisioning o oc).
Proof using Hothers. unfold clear_reprovisioning, begin_txn, on_switches. keep. all: by apply statement_kept. Qed.

Lemma reprovisioning_kept s st : kept (handle_reprovisioning here o s st).
Proof using Hothers.
  unfold handle_reprovisioning, rack_failed_abort_outcome, phase_completed, panic.
  keep; try apply clear_reprovisioning_kept.
Qed.

(** The rotation of passwords and the credentials it provides *)
Definition passwords_kept (s : Switch) : Prop :=
  kept (reconcile_nvos_password_rotation manager o (sw_bmc_mac_address s)) ∧
  ∀ mac, sw_bmc_mac_address s = Some mac → kept (ensure_nvos_admin_credentials o mac).

Lemma needs_kept mac : kept (needs_nvos_password_reconciliation manager o mac).
Proof using Hothers.
  unfold needs_nvos_password_reconciliation, row_needs_reconciliation, has_nvos_admin_credential, NvosRotation.acquire, NvosRotation.query,
    read_nvos_site_credentials, generic, get_credentials, get_credentials_from_writer.
  keep.
Qed.

Lemma ready_kept s cache : kept (handle_ready svc here o s cache).
Proof using Hothers.
  unfold handle_ready, should_enter_bmc_rotation, rotation_needed, rotation_pending, RotationEngine.acquire, RotationEngine.query.
  keep; try apply clear_reprovisioning_kept; apply needs_kept.
Qed.

Context (Hpower : ∀ cm ep a w, component_manager svc = Some cm → P w → P (power_control cm ep a w).2).
Context (Hcertificate : ∀ cm ep d l w, component_manager svc = Some cm → P w → P (configure_switch_certificate cm ep d l w).2).

Lemma start_certificate_kept s d m : kept (start_configure_switch_certificate svc here o s d m).
Proof using Hothers Hpower Hcertificate.
  unfold start_configure_switch_certificate. keep; try apply resolve_endpoint_kept.
  apply kept_call; [done|]. intros z w HP. by apply Hcertificate.
Qed.

Lemma maintenance_kept s op c : kept (handle_maintenance svc here o s op c).
Proof using Hothers Hpower Hcertificate.
  unfold handle_maintenance, invoke_power_operation, handle_reconfigure_certificate, finish_maintenance_outcome,
    finish_maintenance_with_error, finish_maintenance_with_success, build_switch_endpoint, lookup_bmc_credentials,
    lookup_nvos_credentials, get_credentials.
  keep; try apply finish_kept; try apply start_certificate_kept; try apply poll_certificate_kept.
  all: apply kept_call; [done|]; intros z w HP; by apply Hpower.
Qed.

Lemma configuring_kept s c : passwords_kept s → kept (handle_configuring svc here o s c).
Proof using Hothers Hpower Hcertificate.
  intros [Hr He]. destruct c as [[|j]|]; cbn [handle_configuring].
  - unfold handle_configure_certificate_start, certificate_credentials, generic, get_credentials.
    keep; try (by apply He); apply start_certificate_kept.
  - apply kept_bind; [apply poll_certificate_kept|]. intros []; apply kept_ret.
  - apply kept_bind; [exact Hr|]. intros []; apply kept_ret.
Qed.

(** Outside of a commit the handlers write what the engine, the pause and the rotation of
    passwords write, interfaces and locations. *)
Lemma switch_attempt_kept s cs cache : passwords_kept s → kept (attempt_state_transition svc here o s cs cache).
Proof using Hothers Hrot Hstore Hbmcs Hsessions Hresults Hsuppressions Hinterfaces Hlocation Hpower Hcertificate.
  intros Hp. assert (Hpair : ∀ m : handler Outcome, kept m → kept (oc ← m; mret (oc, cache))).
  { intros m Hm. apply kept_bind; [exact Hm|]. intros oc. apply kept_ret. }
  unfold attempt_state_transition. destruct cs as [|[]|c| |[]|[]| | | | | |]; try apply ready_kept; apply Hpair; try apply kept_ret.
  - apply initializing_kept.
  - by apply configuring_kept.
  - apply fetch_info_kept.
  - apply switch_rotating_kept.
  - apply maintenance_kept.
  - apply reprovisioning_kept.
  - unfold handle_error. keep.
  - unfold handle_deleting, begin_txn, on_switches. keep. all: by apply statement_kept.
Qed.

End Frame.

Section PasswordFrame.
Context (allowed : Step World → Prop) (P : World → Prop) (cm : option NvSwitchManager) (o mac : string).
Context (Hothers : ∀ st w, allowed st → P w → P (others st w)).
Context (Hrot : ∀ r w, P w → P (set_rot r w)) (Hstore : ∀ s w, P w → P (set_store s w)).
Context (Hensure : ∀ m ep next w, cm = Some m → P w → P (ensure_password_rotation (NvSwitchManager := m) ep next w).2).

Notation kept m := (keeps allowed P m).
Ltac keep := keep_with Hothers.

Lemma site_credentials_kept v : kept (read_nvos_site_credentials o v).
Proof using Hothers. unfold read_nvos_site_credentials, generic, get_credentials_from_writer. keep. Qed.

Lemma inputs_kept v : kept (rotation_inputs o v).
Proof using Hothers.
  unfold rotation_inputs. apply kept_bind; [by apply kept_convert, resolve_endpoint_kept|]. intros e.
  apply kept_bind; [apply site_credentials_kept|]. intros t. keep.
Qed.

Lemma persist_kept c : kept (persist_nvos_admin_credentials o mac c).
Proof using Hothers Hstore.
  unfold persist_nvos_admin_credentials, generic, get_credentials, get_credentials_from_writer. keep.
  apply kept_call; [done|]. intros z w HP. by apply Hstore.
Qed.

Lemma ensure_admin_kept : kept (ensure_nvos_admin_credentials o mac).
Proof using Hothers Hstore.
  unfold ensure_nvos_admin_credentials, holds_staged, restored_credentials, generic, get_credentials, NvosRotation.query.
  keep; try apply site_credentials_kept; apply persist_kept.
Qed.

Lemma transaction_kept {A} (f : Z → rotation_db → result DatabaseError (A * rotation_db)) : kept (transaction f).
Proof using Hothers Hrot.
  apply kept_call; [done|]. intros c w HP. destruct (f c (rot w)) as [[a r]|e]; [by apply Hrot|done].
Qed.

Lemma ensure_staged_kept v n : kept (ensure_staged_rotation cm o mac v n).
Proof using Hothers Hrot Hensure.
  unfold ensure_staged_rotation. apply (kept_bind_returns _ _ _ _ (λ m, cm = Some m)).
  - apply kept_lift.
  - intros w sc m. destruct cm; simpl; by intros [= <-].
  - intros m Hm. keep; try apply inputs_kept; try apply transaction_kept.
    apply kept_call; [done|]. intros z w HP. by apply Hensure.
Qed.

Lemma reconcile_kept b : b = Some mac ∨ b = None → kept (reconcile_nvos_password_rotation cm o b).
Proof using Hothers Hrot Hstore Hensure.
  intros Hb. assert (Hs : ∀ v n, kept (ensure_staged_rotation cm o mac v n)) by (intros; apply ensure_staged_kept).
  unfold reconcile_nvos_password_rotation, NvosRotation.acquire, NvosRotation.query. destruct Hb as [-> | ->]; [|by keep].
  case_match; [apply kept_ret|]. apply kept_bind; [by apply kept_read|]. intros _.
  apply kept_bind; [by apply kept_read|]. intros [t|]; [|apply kept_ret].
  apply kept_bind; [apply ensure_admin_kept|]. intros [| |cause]; try apply kept_ret.
  apply kept_bind; [by apply kept_read|]. intros _. apply kept_bind; [by apply kept_read|]. intros d.
  unfold reconcile_operation, reconcile_staged_rotation, stage_rotation, retry_staged_rotation, complete_staged_rotation.
  keep; try apply inputs_kept; try apply transaction_kept; try apply persist_kept; apply Hs.
Qed.

End PasswordFrame.

(** ** The state machine *)

Notation state_of := (HandlerRuns.state_of switch_rows).
Notation same_state := (HandlerRuns.same_state switch_rows).

(** The edges of the state machine of a switch *)
Definition edge (cs n : SwitchControllerState) : bool :=
  match cs, n with
  | Created, Initializing _
  | Initializing _, (Configuring (ConfigureCertificate Start) | Error _)
  | Configuring (ConfigureCertificate Start), Configuring (ConfigureCertificate (WaitForComplete _))
  | Configuring (ConfigureCertificate _), Configuring RotateOsPassword
  | Configuring RotateOsPassword, FetchInfo
  | Configuring _, Error _
  | FetchInfo, Validating _ | Validating _, BomValidating _ | BomValidating _, Ready
  | Ready, (Deleting | ReProvisioning _ | Configuring RotateOsPassword | Error _)
  | RotatingBmc _, Ready
  | (Ready | Error _), Maintenance (PowerOn | PowerOff | Reset) None
  | (Ready | Error _), Maintenance ReconfigureCertificate (Some Start)
  | Maintenance ReconfigureCertificate (None | Some Start), Maintenance ReconfigureCertificate (Some (WaitForComplete _))
  | Maintenance _ _, (Ready | Error _)
  | ReProvisioning WaitingForRackFirmwareUpgrade, ReProvisioning (WaitingForNVOSUpgrade | WaitingForNMXCConfigure)
  | ReProvisioning WaitingForNVOSUpgrade, ReProvisioning WaitingForNMXCConfigure
  | ReProvisioning _, (Ready | Error _)
  | Error _, Deleting => true
  | Ready, RotatingBmc k => k =? 0
  | RotatingBmc k, RotatingBmc n => (n =? k + 1) && (n <? MAX_BMC_ROTATION_RETRIES)
  | _, _ => false
  end.

Section Outcomes.
Context (o : string).

Notation plain_txn := (HandlerRuns.plain_txn switch_rows o).
Definition permitted : SwitchControllerState → Outcome → Prop :=
  HandlerRuns.permitted switch_rows o edge (λ cs, cs = Deleting).

Lemma fetch_one_update m t f (t' : switch_table) : fetch_one (A := switch_table) o m t (update_switch f o t) = Ok t' → t' = update_object f o t.
Proof using Type. unfold fetch_one. destruct (rows t !! o); [|done]. by intros [= <-]. Qed.

Context (svc : SwitchStateHandlerServices) (here : Location).

Lemma transition_permitted cs n txn : edge cs n = true → plain_txn txn → permitted cs (attach_txn txn (transition here n)).
Proof using Type. by split. Qed.

Lemma return_permitted cs n : edge cs n = true → returns (mret (transition here n) : handler Outcome) (permitted cs).
Proof using Type. intros He. apply returns_ret. split; [done|apply plain_nil]. Qed.

Lemma wait_permitted cs why : returns (mret (wait here why) : handler Outcome) (permitted cs).
Proof using Type. by apply returns_ret. Qed.

Lemma switch_clear_reprovisioning_permitted cs oc :
  (∀ txn, plain_txn txn → permitted cs (attach_txn txn oc)) →
  returns (clear_reprovisioning o oc) (permitted cs).
Proof using Type. intros Hoc. eapply one_statement_permitted; [done|by intros t t' [= <-]|done]. Qed.

Lemma finish_permitted cs n : edge cs n = true → returns (finish_maintenance here o n) (permitted cs).
Proof using Type.
  intros He. eapply one_statement_permitted; [done|intros t t'; apply fetch_one_update|].
  intros txn Ht. by apply transition_permitted.
Qed.

Lemma initializing_permitted s st : returns (handle_wait_for_os_machine_interface here o s) (permitted (Initializing st)).
Proof using Type.
  assert (Ha : ∀ macs txn n, returns (associate_all here o macs txn n) (λ r, ∀ oc, r = inl oc → permitted (Initializing st) oc)).
  { induction macs as [|mac macs IH]; intros txn n; cbn [associate_all]; [by apply returns_ret|].
    apply returns_then. intros found. repeat case_match; try apply IH.
    - apply returns_ret. intros oc [= <-]. by split.
    - apply returns_then. intros txn'. apply IH. }
  unfold handle_wait_for_os_machine_interface. case_match; [|by apply return_permitted].
  apply returns_then. intros txn. apply returns_then. intros es. repeat case_match; try by apply return_permitted.
  eapply returns_bind; [apply Ha|]. intros [oc|[txn' k]] Hoc; [by apply returns_ret, Hoc|].
  apply returns_then. intros _. case_match; [by apply return_permitted|apply wait_permitted].
Qed.

(** What starting a certificate job returns early *)
Lemma start_returns s d m :
  returns (start_configure_switch_certificate svc here o s d m) (λ r, ∀ oc, r = inl oc →
    ∃ n, oc = transition here n ∧ ((∃ c, n = Error c) ∨ m = BringUp ∧ n = Configuring RotateOsPassword)).
Proof using Type.
  unfold start_configure_switch_certificate. repeat case_match; try (apply returns_ret; intros oc [= <-]; by eauto 10).
  apply returns_then. intros [ep|e]; [|apply returns_ret; intros oc [= <-]; by eauto 10].
  apply returns_then. intros j. by apply returns_ret.
Qed.

Lemma configuring_permitted s c : returns (handle_configuring svc here o s c) (permitted (Configuring c)).
Proof using Type.
  destruct c as [[|j]|]; cbn [handle_configuring].
  - unfold handle_configure_certificate_start. apply returns_then. intros [why|]; [apply wait_permitted|].
    eapply returns_bind; [apply start_returns|]. intros [oc|j] Hoc; [|by apply return_permitted].
    destruct (Hoc oc eq_refl) as (n & -> & [[c ->]|[_ ->]]); by apply return_permitted.
  - apply returns_then. intros []; [by apply return_permitted|by apply return_permitted|apply wait_permitted].
  - apply returns_then. intros []; [by apply return_permitted|apply wait_permitted|by apply return_permitted].
Qed.

Lemma switch_maintenance_permitted s op c : returns (handle_maintenance svc here o s op c) (permitted (Maintenance op c)).
Proof using Type.
  assert (Hi : ∀ a l, returns (invoke_power_operation svc here o s a l) (permitted (Maintenance op c))).
  { assert (He : ∀ x, returns (finish_maintenance_with_error here o x) (permitted (Maintenance op c)))
      by (intros x; apply finish_permitted; by destruct op, c as [[]|]).
    intros a l. unfold invoke_power_operation. repeat case_match; try apply He.
    apply returns_then. intros [e|e]; [|apply He]. apply returns_then. intros [rs|e']; [|apply He].
    case_match; [|apply He]. apply finish_permitted. by destruct op, c as [[]|]. }
  destruct op; cbn [handle_maintenance]; try apply Hi.
  assert (Hs : edge (Maintenance ReconfigureCertificate c) (Maintenance ReconfigureCertificate (Some (WaitForComplete EmptyString))) = true →
    returns (handle_reconfigure_certificate svc here o s Start) (permitted (Maintenance ReconfigureCertificate c))).
  { intros He. eapply returns_bind; [apply start_returns|]. intros [oc|j] Hoc; [|by apply return_permitted].
    destruct (Hoc oc eq_refl) as (n & -> & [[x ->]|[? _]]); [|done]. apply finish_permitted. by destruct c as [[]|]. }
  destruct c as [[|j]|]; try by apply Hs.
  apply returns_then. intros []; [by apply finish_permitted|by apply finish_permitted|apply wait_permitted].
Qed.

Lemma switch_rotating_permitted s k : returns (handle_rotating_bmc here o s k) (permitted (RotatingBmc k)).
Proof using Type.
  unfold handle_rotating_bmc. apply returns_then. intros [|]; [|by apply returns_ret].
  apply returns_then. intros tick. destruct (advance tick k) as [| |n|] eqn:Ha.
  4: apply wait_permitted.
  3: { apply return_permitted. unfold advance in Ha. destruct tick; try done.
       destruct (Z.leb_spec MAX_BMC_ROTATION_RETRIES (k + 1)); [done|]. simplify_eq. simpl.
       rewrite Z.eqb_refl. by apply Z.ltb_lt. }
  all: eapply returns_bind; [apply (begin_plain switch_rows o)|]; intros txn Ht; cbv beta in Ht.
  all: eapply (returns_bind _ _ plain_txn).
  1: case_match; [eapply on_table_plain; [done|exact Ht|intros t t'; apply fetch_one_update]|by apply returns_ret].
  2: rewrite andb_false_r; by apply returns_ret.
  all: intros txn' Ht'; eapply returns_bind; [by apply (statement_plain switch_rows o); [done|intros now w w' [= <-]]|].
  all: intros txn2 Ht2; by apply returns_ret.
Qed.

Lemma switch_reprovisioning_permitted s st : returns (handle_reprovisioning here o s st) (permitted (ReProvisioning st)).
Proof using Type.
  assert (Hc : ∀ n, edge (ReProvisioning st) n = true →
    returns (clear_reprovisioning o (transition here n)) (permitted (ReProvisioning st))).
  { intros n Hn. by apply switch_clear_reprovisioning_permitted. }
  assert (Hr : edge (ReProvisioning st) Ready = true) by by destruct st.
  assert (He : ∀ x, edge (ReProvisioning st) (Error x) = true) by by destruct st.
  unfold handle_reprovisioning.
  eapply (returns_bind _ _ (λ r, ∀ oc, r = Some oc → permitted (ReProvisioning st) oc)).
  - unfold rack_failed_abort_outcome. repeat case_match; try by apply returns_ret.
    apply returns_then. intros rack. repeat case_match; try by apply returns_ret.
    eapply returns_bind; [by apply Hc|]. intros oc Hoc. apply returns_ret. by intros ? [= <-].
  - intros [oc|] Hoc; [apply returns_ret; auto|].
    unfold phase_completed, next_state_after_firmware, next_state_after_nvos.
    repeat case_match; simplify_eq; try (by apply Hc); try (by apply return_permitted); try (apply wait_permitted); by intros w sc a.
Qed.

Lemma switch_ready_permitted s cache : returns (handle_ready svc here o s cache) (λ r, permitted Ready r.1).
Proof using Type.
  assert (Hc : ∀ oc, (∀ txn, plain_txn txn → permitted Ready (attach_txn txn oc)) →
    returns (oc ← clear_reprovisioning o oc; mret (oc, cache)) (λ r, permitted Ready r.1)).
  { intros oc Hoc. eapply returns_bind; [by apply switch_clear_reprovisioning_permitted|]. intros oc' Hoc'. by apply returns_ret. }
  unfold handle_ready. case_match; [by apply returns_ret|]. case_match; [by apply returns_ret; destruct (smr_operation _)|].
  case_match; [repeat case_match; try (by apply Hc); by apply returns_ret|].
  apply returns_then. intros []; [by apply returns_ret|]. apply returns_then. intros [[] c]; by apply returns_ret.
Qed.

Lemma switch_attempt_permitted s cs cache : returns (attempt_state_transition svc here o s cs cache) (λ r, permitted cs r.1).
Proof using Type.
  assert (Hpair : ∀ m : handler Outcome, returns m (permitted cs) →
    returns (oc ← m; mret (oc, cache)) (λ r, permitted cs r.1)).
  { intros m Hm. eapply returns_bind; [exact Hm|]. intros oc Hoc. by apply returns_ret. }
  unfold attempt_state_transition. destruct cs as [|[]|c| |[]|[]| | | | | |]; try (by apply switch_ready_permitted); apply Hpair.
  - by apply return_permitted.
  - apply initializing_permitted.
  - apply configuring_permitted.
  - apply returns_then. intros _. by apply return_permitted.
  - by apply return_permitted.
  - by apply return_permitted.
  - apply switch_rotating_permitted.
  - apply switch_maintenance_permitted.
  - apply switch_reprovisioning_permitted.
  - unfold handle_error. repeat case_match; try (by apply return_permitted); [|by apply returns_ret].
    apply return_permitted. by destruct (smr_operation _).
  - unfold handle_deleting. apply returns_then. intros txn. eapply (returns_bind _ _ (λ t, ∀ w, state_of o (in_txn t w) = None)).
    + apply returns_read. intros c w a. case_match; [|done]. intros [= <-] w'. rewrite in_txn_app. unfold final_delete, fetch_one.
      destruct (rows (switch_rows (in_txn txn w')) !! o) eqn:E; unfold state_of; simpl; [by rewrite lookup_delete_eq|by rewrite E].
    + intros txn' Ht. by apply returns_ret.
Qed.

End Outcomes.

(** ** Runs *)

(** The component manager works on devices and on jobs of its backend; it writes no table
    of the database, and power control and certificates leave passwords alone. *)
Class DeviceBackend (cm : ComponentManager) : Prop := {
  power_on_devices ep a w : ∃ f, rtc backend_step (fabric w) f ∧ (power_control cm ep a w).2 = set_fabric f w;
  certificate_on_devices ep d l w : ∃ f, rtc backend_step (fabric w) f ∧ (configure_switch_certificate cm ep d l w).2 = set_fabric f w;
  password_on_devices ep next w : ∃ f, (ensure_password_rotation (NvSwitchManager := nv_switch cm) ep next w).2 = set_fabric f w;
}.

Section Runs.
Context (svc : SwitchStateHandlerServices) (here : Location) (o : string) (clk : Clock) (cache : CachedAggregate).
Context (Hbackend : ∀ cm, component_manager svc = Some cm → DeviceBackend cm).

Lemma attempt_state (allowed : Step World → Prop) cs s :
  (∀ st w, allowed st → state_of o w = Some cs → state_of o (others st w) = Some cs) →
  keeps allowed (λ w, state_of o w = Some cs) (attempt_state_transition svc here o s (value cs) cache).
Proof using Hbackend.
  intros Hothers.
  apply switch_attempt_kept; try done.
  - intros a b w Hw. etrans; [apply (update_object_state switch_rows set_switch_rows o (λ t w, eq_refl))|exact Hw].
  - intros cm ep a w Hcm Hw. destruct (power_on_devices (DeviceBackend := Hbackend cm Hcm) ep a w) as (f & _ & ->). exact Hw.
  - intros cm ep d l w Hcm Hw. destruct (certificate_on_devices (DeviceBackend := Hbackend cm Hcm) ep d l w) as (f & _ & ->). exact Hw.
  - assert (He : ∀ m ep next w, nv_switch <$> component_manager svc = Some m → state_of o w = Some cs →
      state_of o (ensure_password_rotation (NvSwitchManager := m) ep next w).2 = Some cs).
    { intros m ep next w Hm Hw. destruct (component_manager svc) as [cm|] eqn:Hcm; [|done]. injection Hm as <-.
      destruct (password_on_devices (DeviceBackend := Hbackend cm eq_refl) ep next w) as (f & ->). exact Hw. }
    split; [|intros mac _; by apply ensure_admin_kept].
    destruct (sw_bmc_mac_address s) as [mac|]; [apply (reconcile_kept _ _ _ o mac)|apply (reconcile_kept _ _ _ o EmptyString)]; auto.
Qed.

(** C10: Whatever fails, wherever the process dies and whatever others do that leaves the
    controller columns of the switch alone, one run of the controller keeps the state of a
    switch, moves it along an edge of its state machine with the next version, or removes a
    switch that is in [Deleting]; in particular phases of reprovisioning are entered in
    order, and [FetchInfo] is entered only from the rotation of the password. *)
Theorem switch_transitions cs :
  hoare (relies (same_state o)) (λ w, state_of o w = Some cs) (run svc here o clk cache)
    (λ _ w, state_of o w = Some cs ∨ (∃ n, edge (value cs) n = true ∧ state_of o w = moved clk cs n) ∨
            value cs = Deleting ∧ state_of o w = None).
Proof using Hbackend.
  apply (run_moves switch_rows set_switch_rows switch_state_sla o (λ t w, eq_refl) edge (λ cs, cs = Deleting)); intros s;
    [|apply switch_attempt_permitted].
  apply attempt_state. intros st w Hst Hw. by rewrite (Hst w).
Qed.

End Runs.
