(* ===== verification/SwitchPasswords.v ===== *)
(** * Passwords across the states of the switch controller

    The guarantee of a password rotation, carried over to runs of the controller: in every
    state, whatever fails, the account of the switch has the confirmed or the staged
    password, and the controller leaves the state that rotates it only when account and
    store agree.  The BMC of the same switch is rotated by the same controller; the two
    rotations do not touch each other. *)

From S2P Require Import Prelude ConfigVersion StateHistory StateHandler ControllerIO ProcessObject ControllerTable PowerShelfTable.
From S2P Require Import RmsNodeIdentity Credentials RotationWorld CredentialRotation SwitchTable Calls HandlerRuns.
From S2P Require Import RotationEngine SitePause NvosRotation NvosRotationFacts NvosRotationRuns SwitchController SwitchControllerFacts.

(** ** The transactions of outcomes *)

Section Txns.
Context (P : World → Prop) (Hrows : ∀ t w, P w → P (set_switch_rows t w)) (Hsuppressions : ∀ s w, P w → P (set_suppressions s w)).
Context (svc : SwitchStateHandlerServices) (here : Location) (o : string).

Notation safe_txn := (SwitchControllerFacts.safe_txn P).

(** The transaction that goes with an outcome writes nothing else. *)
Definition safe_outcome (oc : Outcome) : Prop := safe_txn (default [] (fst (take_transaction oc))).
Notation safe m := (returns m safe_outcome).

Lemma safe_without (oc : Outcome) : fst (take_transaction oc) = None → safe (mret oc : handler Outcome).
Proof using Type. intros Ht. apply returns_ret. unfold safe_outcome. rewrite Ht. by intros w Hw. Qed.

Lemma on_switches_safe f txn : safe_txn txn → returns (on_switches f txn) safe_txn.
Proof using Hrows.
  intros Ht. apply statement_safe; [done|]. intros c w w'. destruct (f (switch_rows w)) as [t|]; [|done].
  intros [= <-]. apply Hrows.
Qed.

Lemma one_statement_safe f (oc : Outcome) : fst (take_transaction oc) = None →
  safe (txn ← begin_txn; txn ← on_switches f txn; mret (attach_txn txn oc)).
Proof using Hrows.
  intros Ht. eapply returns_bind; [apply (begin_safe P)|]. intros txn Hs.
  eapply returns_bind; [by apply on_switches_safe|]. intros txn' Hs'. apply returns_ret.
  unfold safe_outcome. destruct oc as [? ? []|? ? []|? []|? []]; try done; exact Hs'.
Qed.

Lemma rotating_safe s k : safe (handle_rotating_bmc here o s k).
Proof using Hrows Hsuppressions.
  unfold handle_rotating_bmc. apply returns_then. intros [|]; [|by apply safe_without].
  apply returns_then. intros tick. destruct (advance tick k) as [| |n|]; try by apply safe_without.
  all: eapply returns_bind; [apply (begin_safe P)|]; intros txn Ht; cbv beta in Ht.
  all: eapply (returns_bind _ _ safe_txn); [case_match; [by apply on_switches_safe|by apply returns_ret]|].
  all: intros txn' Ht'; eapply returns_bind; [apply (statement_safe P); [exact Ht'|intros c w w' [= <-]; apply Hsuppressions]|].
  all: intros txn2 Ht2; by apply returns_ret.
Qed.

Lemma initializing_safe s : safe (handle_wait_for_os_machine_interface here o s).
Proof using Type.
  assert (Ha : ∀ macs txn n, returns (associate_all here o macs txn n) (λ r, ∀ oc, r = inl oc → fst (take_transaction oc) = None)).
  { induction macs as [|mac macs IH]; intros txn n; cbn [associate_all]; [by apply returns_ret|].
    apply returns_then. intros found. repeat case_match; try apply IH.
    - apply returns_ret. by intros oc [= <-].
    - apply returns_then. intros txn'. apply IH. }
  unfold handle_wait_for_os_machine_interface. case_match; [|by apply safe_without].
  apply returns_then. intros txn. apply returns_then. intros es. repeat case_match; try by apply safe_without.
  eapply returns_bind; [apply Ha|]. intros [oc|[txn' k]] Hoc; [by apply safe_without, Hoc|].
  apply returns_then. intros _. case_match; by apply safe_without.
Qed.

Lemma configuring_safe s c : safe (handle_configuring svc here o s c).
Proof using Type.
  destruct c as [[|j]|]; cbn [handle_configuring].
  - unfold handle_configure_certificate_start. apply returns_then. intros [why|]; [by apply safe_without|].
    eapply returns_bind; [apply start_returns|]. intros [oc|j] Hoc; [|by apply safe_without].
    destruct (Hoc oc eq_refl) as (n & -> & _). by apply safe_without.
  - apply returns_then. intros []; by apply safe_without.
  - apply returns_then. intros []; by apply safe_without.
Qed.

Lemma maintenance_safe s op c : safe (handle_maintenance svc here o s op c).
Proof using Hrows.
  assert (Hf : ∀ n, safe (finish_maintenance here o n)) by (intros n; by apply one_statement_safe).
  assert (Hi : ∀ a l, safe (invoke_power_operation svc here o s a l)).
  { intros a l. unfold invoke_power_operation. repeat case_match; try apply Hf.
    apply returns_then. intros [e|e]; [|apply Hf]. apply returns_then. intros [rs|e']; [|apply Hf]. case_match; apply Hf. }
  destruct op; cbn [handle_maintenance]; try apply Hi. unfold handle_reconfigure_certificate. case_match.
  - eapply returns_bind; [apply start_returns|]. intros [oc|j] Hoc; [|by apply safe_without].
    destruct (Hoc oc eq_refl) as (n & -> & [[x ->]|[_ ->]]); [apply Hf|by apply safe_without].
  - apply returns_then. intros []; [apply Hf|apply Hf|by apply safe_without].
Qed.

Lemma reprovisioning_safe s st : safe (handle_reprovisioning here o s st).
Proof using Hrows.
  assert (Hc : ∀ n, safe (clear_reprovisioning o (transition here n))) by (intros n; by apply one_statement_safe).
  unfold handle_reprovisioning. eapply (returns_bind _ _ (λ r, ∀ oc, r = Some oc → safe_outcome oc)).
  - unfold rack_failed_abort_outcome. repeat case_match; try by apply returns_ret.
    apply returns_then. intros rack. repeat case_match; try by apply returns_ret.
    eapply returns_bind; [by apply Hc|]. intros oc Hoc. apply returns_ret. by intros ? [= <-].
  - intros [oc|] Hoc; [apply returns_ret; auto|]. unfold phase_completed.
    repeat case_match; try (by apply Hc); try (by apply safe_without); by intros w sc a.
Qed.

Lemma ready_safe s cache : returns (handle_ready svc here o s cache) (λ r, safe_outcome r.1).
Proof using Hrows.
  assert (Hr : ∀ oc c, fst (take_transaction oc) = None → returns (mret (oc, c) : handler (Outcome * CachedAggregate)) (λ r, safe_outcome r.1)).
  { intros oc c Ht. apply returns_ret. unfold safe_outcome. simpl. rewrite Ht. by intros w Hw. }
  assert (Hc : ∀ oc, fst (take_transaction oc) = None → returns (oc ← clear_reprovisioning o oc; mret (oc, cache)) (λ r, safe_outcome r.1)).
  { intros oc Hoc. eapply returns_bind; [by apply one_statement_safe|]. intros oc' Hoc'. by apply returns_ret. }
  unfold handle_ready. repeat case_match; try (by apply Hr); try (by apply Hc).
  apply returns_then. intros []; [by apply Hr|]. apply returns_then. intros [[] c]; by apply Hr.
Qed.

Lemma attempt_safe s cs cache : returns (attempt_state_transition svc here o s cs cache) (λ r, safe_outcome r.1).
Proof using Hrows Hsuppressions.
  assert (Hpair : ∀ m : handler Outcome, safe m → returns (oc ← m; mret (oc, cache)) (λ r, safe_outcome r.1)).
  { intros m Hm. eapply returns_bind; [exact Hm|]. intros oc Hoc. by apply returns_ret. }
  unfold attempt_state_transition. destruct cs as [|[]|c| |[]|[]| | | | | |]; try (by apply ready_safe); apply Hpair; try (by apply safe_without).
  - apply initializing_safe.
  - apply configuring_safe.
  - apply returns_then. intros _. by apply safe_without.
  - apply rotating_safe.
  - apply maintenance_safe.
  - apply reprovisioning_safe.
  - unfold handle_error. repeat case_match; by apply safe_without.
  - by apply one_statement_safe.
Qed.

End Txns.

(** ** Recoverable switches *)

Section Passwords.
Context (mac o u : string) (pw : Z → string) (es : option ExpectedSwitch).
Context (Hmac : no_slash mac) (Hsite : mac ≠ "site"%string) (Hu : u ≠ EmptyString).
Context (Hinj : ∀ i j, -1 ≤ i → -1 ≤ j → pw i = pw j → i = j) (Hpw : ∀ i, -1 ≤ i → pw i ≠ EmptyString).
Context (svc : SwitchStateHandlerServices) (here : Location) (clk : Clock) (cache : CachedAggregate).
Context (cm : ComponentManager) (Hcm : component_manager svc = Some cm).
Context {HB : PasswordBackend (M := nv_switch cm)} {HC : RejectsCleanly (M := nv_switch cm)} {HD : DeviceBackend cm}.
Context (Hen : supports_password_rotation (NvSwitchManager := nv_switch cm) = true).

Notation recoverable := (os_recoverable mac o u pw es).
Definition at_rest (w : World) : Prop := (∃ v, os_settled mac u pw v w) ∨ os_unmanaged mac es w.

(** What recoverability is about *)
Record same_passwords (w w' : World) : Prop := {
  same_row : devices (rot w') !! (mac, Nvos) = devices (rot w) !! (mac, Nvos);
  same_expected : expected_switches (rot w') = expected_switches (rot w);
  same_sitewide : sitewide (rot w') = sitewide (rot w);
  same_secrets k : k = SwitchNvosAdmin mac ∨ (∃ v, k = SwitchNvosSiteAdmin v) → store w' !! path k = store w !! path k;
  same_shadow : shadow w' = shadow w;
  same_fabric : fabric w' = fabric w;
}.

Lemma same_lets w w' : same_passwords w w' → os_lets mac o pw w w'.
Proof using Type.
  intros []. split; try done.
  - by rewrite same_expected0.
  - apply same_secrets0. by left.
  - by rewrite same_shadow0.
  - intros Hs v c Hv Hc. apply Hs; [done|]. rewrite <-same_secrets0; [done|eauto].
  - intros He row Hrow. apply He. by rewrite <-same_fabric0.
  - unfold published. by rewrite same_sitewide0.
  - exists (fabric w). rewrite same_fabric0. by split_and!.
Qed.

Lemma lets_recoverable w w' : recoverable w → os_lets mac o pw w w' → recoverable w'.
Proof using Hinj. intros (d & e & Hw) Hl. exists d, e. by eapply stable_holds. Qed.

Lemma same_recoverable w w' : same_passwords w w' → recoverable w → recoverable w'.
Proof using Hinj. intros Hs Hw. by eapply lets_recoverable, same_lets. Qed.

(** Rest is not disturbed. *)
Lemma lets_settled v w w' : recoverable w → os_lets mac o pw w w' → os_settled mac u pw v w → os_settled mac u pw v w'.
Proof using Hinj.
  intros (d & e & Hw) Hl (r & Hrow & Hcur & Hrot & Hos & Heff). exists r.
  assert (Hw' : holds mac o u pw es d e false w') by (by eapply stable_holds).
  destruct Hw as (l & Hv & _), Hw' as (l' & Hv' & _).
  assert (d = Some r) as -> by (rewrite <-Hrow; symmetry; apply Hv). split_and!; try done; [apply Hv'| |].
  - destruct (v_range _ _ _ _ _ _ _ _ _ Hv') as [_ Hl']. unfold stg, cur, confirmed in Hl'. simpl in Hl'.
    rewrite Hrot, Hcur in Hl'. simpl in Hl'. subst l'. apply (v_fabric _ _ _ _ _ _ _ _ _ Hv').
  - rewrite <-Heff. etrans; [apply Hv'|]. symmetry. apply Hv.
Qed.

Lemma lets_rest w w' : recoverable w → os_lets mac o pw w w' → at_rest w → at_rest w'.
Proof using Hinj.
  intros Hw Hl [[v Hs]|[Heff Hann]]; [left; exists v; by eapply lets_settled|right]. split; [|done].
  unfold effective in *. by rewrite (lets_store _ _ _ _ _ Hl), (lets_shadow _ _ _ _ _ Hl).
Qed.

Lemma admin_not_bmc m : path (BmcCredentials (BmcRoot m)) ≠ path (SwitchNvosAdmin mac).
Proof using Type. done. Qed.

Lemma site_not_bmc m v : path (BmcCredentials (BmcRoot m)) ≠ path (SwitchNvosSiteAdmin v).
Proof using Type. done. Qed.

(** ** What others do *)

Notation bmc_mac_of w := (r ← rows (switch_rows w) !! o; sw_bmc_mac_address (row_object r)).

(** Others let the rotation do its work, and leave the state and the address of the switch
    alone. *)
Record switch_lets (w w' : World) : Prop := {
  lets_passwords : os_lets mac o pw w w';
  lets_state : same_state o w w';
  lets_address : bmc_mac_of w' = bmc_mac_of w;
}.

Notation allowed := (relies switch_lets).

Lemma narrow {E A} P (m : prog World E A) Q : keeps allowed (λ _, True) m → hoare (relies (os_lets mac o pw)) P m Q → hoare allowed P m Q.
Proof using Type. intros Hk. apply hoare_narrow; [|done]. intros st Hst w. apply lets_passwords, Hst. Qed.

Lemma allowed_recoverable st w : allowed st → recoverable w → recoverable (others st w).
Proof using Hinj. intros Hst Hw. eapply lets_recoverable; [done|]. apply lets_passwords, Hst. Qed.

Lemma reconcile_hoare : hoare allowed recoverable (reconcile_nvos_password_rotation (Some (nv_switch cm)) o (Some mac))
  (λ r w, recoverable w ∧ (r = Ok UpToDate → at_rest w)).
Proof using Hmac Hsite Hu Hinj Hpw HB HC Hen.
  apply narrow; [by apply (reconcile_kept _ _ _ o mac); auto|].
  eapply hoare_weaken; [by apply reconcile_triple|done|]. intros [x|x] w; simpl; [|done].
  intros [Hw Hx]. split; [done|]. intros [= ->]. by apply Hx.
Qed.

Lemma passwords_keep s : sw_bmc_mac_address s = Some mac → passwords_kept allowed recoverable svc o s.
Proof using Hmac Hsite Hu Hinj Hpw HB HC Hen Hcm.
  intros Hs. unfold passwords_kept. rewrite Hcm, Hs. split.
  - eapply hoare_weaken; [apply reconcile_hoare|done|]. by intros r w [].
  - intros ? [= <-]. apply narrow; [by apply ensure_admin_kept|].
    apply hoare_exists. intros d. apply hoare_exists. intros e.
    eapply hoare_weaken; [by apply ensure_admin_triple|done|].
    intros [[| |c]|x] w; simpl; [intros (e' & _ & Hw)|intros [_ Hw]|intros Hw|done]; by eapply holds_recoverable.
Qed.

(** ** Runs *)

Lemma attempt_recoverable s cs : sw_bmc_mac_address s = Some mac →
  keeps allowed recoverable (attempt_state_transition svc here o s cs cache).
Proof using Hmac Hsite Hu Hinj Hpw HB HC HD Hen Hcm.
  intros Hs. apply switch_attempt_kept; try (by apply passwords_keep).
  all: try (intros; eapply same_recoverable; [|done]; by split).
  - intros st w Hst Hw. by apply allowed_recoverable.
  - intros m r w Hb Hw. eapply same_recoverable; [|done]. split; try done; simpl; try apply Hb. by intros [= _ ?].
  - intros m c w Hw. eapply same_recoverable; [|done]. split; try done. intros k [->|[v ->]];
      cbn [store set_store]; apply lookup_insert_ne; [apply admin_not_bmc|apply site_not_bmc].
  - intros cm' ep a w Hcm' Hw. rewrite Hcm in Hcm'. injection Hcm' as <-.
    destruct (power_on_devices ep a w) as (f & Hf & ->). eapply lets_recoverable; [done|]. by apply backend_lets, backend_rows.
  - intros cm' ep d l w Hcm' Hw. rewrite Hcm in Hcm'. injection Hcm' as <-.
    destruct (certificate_on_devices ep d l w) as (f & Hf & ->). eapply lets_recoverable; [done|]. by apply backend_lets, backend_rows.
Qed.

Lemma attempt_triple s cs : sw_bmc_mac_address s = Some mac →
  hoare allowed recoverable (attempt_state_transition svc here o s cs cache)
    (λ r w, recoverable w ∧ (cs = Configuring RotateOsPassword →
       ∀ n l t c, r = Ok (Transition n l t, c) → (∃ cause, n = Error cause) ∨ n = FetchInfo ∧ at_rest w)).
Proof using Hmac Hsite Hu Hinj Hpw HB HC HD Hen Hcm.
  intros Hs. destruct (decide (cs = Configuring RotateOsPassword)) as [->|Hne].
  2: { eapply hoare_weaken; [by apply attempt_recoverable|done|]. done. }
  unfold attempt_state_transition, handle_configuring, handle_rotate_os_password. rewrite Hcm, Hs.
  eapply (hoare_seq _ _ _ _ (λ r w, recoverable w ∧ ∀ n l t, r = Ok (Transition n l t) →
    (∃ cause, n = Error cause) ∨ n = FetchInfo ∧ at_rest w)).
  - eapply hoare_seq; [apply reconcile_hoare| |by intros e w [Hw _]].
    intros x. apply hoare_ret. intros w [Hw Hx]. split; [done|]. intros n l t. destruct x; simpl; intros [= <- _ _]; eauto.
  - intros oc. apply hoare_ret. intros w [Hw Hx]. split; [done|]. intros _ n l t c [= ->]. eauto.
  - intros e w [Hw _]. done.
Qed.

(** What a commit leaves alone *)
Lemma commit_same cs r now w :
  (∀ oc, r = Ok oc → safe_outcome (same_passwords w) oc) → same_passwords w (commit_outcome o clk cs r now w).
Proof using Type.
  intros Hr. assert (Hrows : ∀ t w', same_passwords w w' → same_passwords w (set_switch_rows t w')) by (intros t w' []; by split).
  apply (commit_keeps switch_rows set_switch_rows switch_state_sla o (same_passwords w)); [done..|]. intros oc Hoc. by apply (Hr oc Hoc).
Qed.

Lemma attempt_safe_everywhere s cs :
  returns (attempt_state_transition svc here o s cs cache) (λ r, ∀ w, safe_outcome (same_passwords w) r.1).
Proof using Type.
  intros w0 sc r Hr w. eapply attempt_safe; [| |exact Hr]; intros x w' []; by split.
Qed.

(** What is known when the handler has returned *)
Definition decided (cs : Versioned SwitchControllerState) (r : result StateHandlerError (Outcome * CachedAggregate)) : Prop :=
  ∀ oc c, r = Ok (oc, c) → permitted o (value cs) oc ∧ ∀ w, safe_outcome (same_passwords w) oc.

Definition next_states (cs : Versioned SwitchControllerState) (w : World) : Prop :=
  value cs = Configuring RotateOsPassword → ∀ n, value <$> state_of o w = Some n →
    n = Configuring RotateOsPassword ∨ (∃ cause, n = Error cause) ∨ n = FetchInfo ∧ at_rest w.

Lemma handled cs s : sw_bmc_mac_address s = Some mac →
  hoare allowed (λ w, recoverable w ∧ state_of o w = Some cs) (catch (attempt_state_transition svc here o s (value cs) cache) : handler _)
    (λ x w, (recoverable w ∧ state_of o w = Some cs) ∧ ∀ r, x = Ok r → decided cs r ∧
       (value cs = Configuring RotateOsPassword → ∀ n l t c, r = Ok (Transition n l t, c) →
          (∃ cause, n = Error cause) ∨ n = FetchInfo ∧ at_rest w)).
Proof using Hmac Hsite Hu Hinj Hpw HB HC HD Hen Hcm.
  intros Hs. apply hoare_catch. intros w sc Hsc [Hw Hst].
  destruct (attempt_triple s (value cs) Hs w sc Hsc Hw) as [Hsc' [Hw' Hx]].
  destruct (attempt_state svc here o cache ltac:(intros cm'; rewrite Hcm; intros [= <-]; exact HD) allowed cs s
    ltac:(intros st w1 Hst1 Hw1; by rewrite (lets_state _ _ (Hst1 w1))) w sc Hsc Hst) as [_ Hst'].
  split; [done|].
  pose proof (switch_attempt_permitted o svc here s (value cs) cache w sc) as Hp.
  pose proof (attempt_safe_everywhere s (value cs) w sc) as Hsafe.
  destruct (attempt_state_transition svc here o s (value cs) cache w sc) as [[[oc c]|[e|]] [w' sc']]; simpl in *.
  - split; [done|]. intros r [= <-]. split; [|intros Hcs n l t c' [= -> ->]; by eapply Hx].
    intros oc' c' [= <- <-]. split; [by apply (Hp (oc, c))|by apply (Hsafe (oc, c))].
  - split; [done|]. by intros r [= <-].
  - by split.
Qed.

Lemma committed cs r now w : decided cs r → recoverable w → state_of o w = Some cs →
  (value cs = Configuring RotateOsPassword → ∀ n l t c, r = Ok (Transition n l t, c) →
     (∃ cause, n = Error cause) ∨ n = FetchInfo ∧ at_rest w) →
  recoverable (commit_outcome o clk cs (fst <$> r) now w) ∧ next_states cs (commit_outcome o clk cs (fst <$> r) now w).
Proof using Hinj.
  intros Hd Hw Hst Hx.
  assert (Hsame : same_passwords w (commit_outcome o clk cs (fst <$> r) now w)).
  { apply commit_same. destruct r as [[oc c]|]; [|done]. intros ? [= <-]. by apply (Hd oc c). }
  split; [by eapply same_recoverable|]. intros Hcs n Hn.
  assert (Hperm : ∀ oc, fst <$> r = Ok oc → permitted o (value cs) oc).
  { destruct r as [[oc c]|]; [|done]. intros ? [= <-]. by apply (Hd oc c). }
  unfold commit_outcome in Hn. rewrite (commit_state switch_rows set_switch_rows switch_state_sla o (λ t w, eq_refl) edge _ clk cs _ now w Hst Hperm) in Hn.
  destruct r as [[[why l t|n' l t|l t|l t] c]|e]; simpl in Hn; try (left; congruence); try done.
  right. injection Hn as <-. destruct (Hx Hcs n' l t c eq_refl) as [?|[-> Hr]]; [by left|right].
  split; [done|]. eapply lets_rest; [exact Hw|by apply same_lets|done].
Qed.

(** C6: The password of a switch is safe in every state of its controller.  Whatever fails
    and wherever the process dies, while the backend works on accepted requests in any
    order and others rotate other switches, a run of the controller on a switch that can be
    recovered leaves it so, although it may rotate the BMC of the same switch, claim
    interfaces, switch power, configure certificates or delete the switch.  From the state
    that rotates the password the controller goes nowhere but to [Error] and to
    [FetchInfo], and to [FetchInfo] only if the account and the store have the confirmed
    password, or the switch has no credentials at all.  *)
Theorem switch_passwords_safe cs w sc : (∀ n, allowed (sc n)) → recoverable w →
  state_of o w = Some cs → bmc_mac_of w = Some mac →
  let w' := (run svc here o clk cache w sc).2.1 in
  recoverable w' ∧ next_states cs w'.
Proof using Hmac Hsite Hu Hinj Hpw HB HC HD Hen Hcm.
  intros Hsc Hw Hst Hbmc. set (P := λ w, recoverable w ∧ state_of o w = Some cs).
  assert (HP : ∀ w w', P w → switch_lets w w' → P w').
  { intros w1 w2 [H1 H2] Hl. split; [eapply lets_recoverable; [done|apply Hl]|]. by rewrite (lets_state _ _ Hl). }
  assert (Hpost : ∀ w, P w → recoverable w ∧ next_states cs w).
  { intros w1 [H1 H2]. split; [done|]. intros Hcs n. rewrite H2. intros [= <-]. by left. }
  enough (H : hoare allowed (λ w, P w ∧ bmc_mac_of w = Some mac) (run svc here o clk cache)
    (λ _ w, recoverable w ∧ next_states cs w)) by (by apply (H w sc Hsc)).
  unfold run, object_run.
  eapply (hoare_seq _ _ _ _ (λ r w, P w ∧ ∀ row, r = Ok row → row_state row = cs ∧ sw_bmc_mac_address (row_object row) = Some mac)).
  { apply (hoare_rely _ _ (λ w, P w ∧ bmc_mac_of w = Some mac)).
    - intros w1 w2 [H1 H2] Hl. split; [by eapply HP|]. by rewrite (lets_address _ _ Hl).
    - intros c w1 [[H1 H2] H3]. unfold HandlerRuns.state_of in H2. cbn [fst snd].
      destruct (rows (switch_rows w1) !! o) as [row|] eqn:E; [|done]. simpl in H2, H3 |- *.
      assert (P w1) by (split; [done|]; unfold HandlerRuns.state_of; by rewrite E).
      split; [|done]. split; [done|]. intros ? [= <-]. by injection H2.
    - by intros w1 why [H1 _].
    - by intros w1 [H1 _]. }
  2: by intros e w1 [H1 _]; apply Hpost.
  intros row. apply (hoare_assume _ (row_state row = cs ∧ sw_bmc_mac_address (row_object row) = Some mac)); [naive_solver|].
  intros [-> Hrow]. apply (hoare_from _ P); [by intros w1 []|].
  eapply hoare_seq; [by apply handled| |by intros e w1 [H1 _]; apply Hpost].
  intros x. apply (hoare_assume _ (decided cs x)); [intros w1 [_ H1]; by apply H1|]. intros Hd.
  eapply (hoare_seq _ _ _ _ (λ _ w, recoverable w ∧ next_states cs w)); [|intros []; by apply hoare_ret|done].
  set (R := λ w, P w ∧ (value cs = Configuring RotateOsPassword → ∀ n l t c, x = Ok (Transition n l t, c) →
    (∃ cause, n = Error cause) ∨ n = FetchInfo ∧ at_rest w)).
  apply (hoare_rely _ _ R).
  - intros w1 w2 [H1 H2] Hl. split; [by eapply HP|]. intros Hcs n l t c Hx.
    destruct (proj2 (H2 x eq_refl) Hcs n l t c Hx) as [?|[? Hr]]; [by left|right]. split; [done|].
    eapply lets_rest; [apply H1|apply Hl|done].
  - intros c w1 [[H1 H2] H3]. pose proof (committed cs x c w1 Hd H1 H2 H3) as H4. by split.
  - intros w1 why [H1 _]. by apply Hpost.
  - intros w1 [H1 _]. by apply Hpost.
Qed.

End Passwords.
