(* ===== verification/SwitchRuns.v ===== *)
(** * Calm runs of the switch controller

    When nothing fails and the backend responds, a switch in [Ready] whose password is
    behind goes through the states of the rotation and comes back to [Ready] with the
    password it aims at.  [leads] says where runs and the work of the backend end,
    however they alternate, and [leads_sound] that every fair execution arrives there. *)

From S2P Require Import Prelude ConfigVersion StateHistory StateHandler ControllerIO ProcessObject ControllerTable PowerShelfTable.
From S2P Require Import RmsNodeIdentity Credentials RotationWorld CredentialRotation SwitchTable Calls HandlerRuns.
From S2P Require Import RotationEngine SitePause NvosRotation NvosRotationFacts NvosRotationRuns SwitchController SwitchControllerFacts SwitchPasswords.

Lemma runs_kept {S E A} t0 (P : S → Prop) (m : prog S E A) w Φ : runs t0 w m Φ → keeps (calm_from t0) P m → P w →
  runs t0 w m (λ a s, Φ a s ∧ P s).
Proof.
  intros Hr Hk Hw s sc Hsc <-. destruct (Hr w sc Hsc eq_refl) as (Hsc' & a & Ha & HΦ), (Hk w sc Hsc Hw) as [_ HP].
  split; [done|]. by exists a.
Qed.

Section Leads.
Context (svc : SwitchStateHandlerServices) (here : Location) (o : string) (t0 : Z).

(** A calm run of the controller on the switch *)
Definition runs_to (w w' : World) : Prop := ∃ clk cache sc,
  (∀ n, calm_from t0 (sc n)) ∧ w' = (run svc here o clk cache w sc).2.1.

(** However calm runs and steps of the backend alternate, a world with [Q] is reached.
    [leads_run]: whatever the backend does before the next run, that run leads on.
    [leads_wait]: nothing but the backend can bring about [D], from which it goes on; until
    then [I] is kept by the backend and by runs, and the backend can always bring [D]
    about. *)
Inductive leads (Q : World → Prop) : World → Prop :=
| leads_here w : Q w → leads Q w
| leads_run w : (∀ f w', rtc backend_step (fabric w) f → runs_to (set_fabric f w) w' → leads Q w') → leads Q w
| leads_wait (I D : World → Prop) w : I w →
    (∀ w f, I w → backend_step (fabric w) f → I (set_fabric f w)) →
    (∀ w, I w → D w ∨ ∀ w', runs_to w w' → I w') →
    (∀ w, I w → ∃ f, rtc backend_step (fabric w) f ∧ D (set_fabric f w)) →
    (∀ w, I w → D w → leads Q w) → leads Q w.

(** An execution: calm runs and steps of the backend, with runs again and again, and a
    backend that is fair: what it can bring about from everywhere, until it has happened,
    does happen. *)
Record execution (tr : nat → World) : Prop := {
  ex_step n : runs_to (tr n) (tr (S n)) ∨ ∃ f, backend_step (fabric (tr n)) f ∧ tr (S n) = set_fabric f (tr n);
  ex_runs n : ∃ k, runs_to (tr (n + k)%nat) (tr (S (n + k)));
  ex_fair (D : World → Prop) n :
    (∀ k, (∃ i, (i ≤ k)%nat ∧ D (tr (n + i)%nat)) ∨
          ∃ f, rtc backend_step (fabric (tr (n + k)%nat)) f ∧ D (set_fabric f (tr (n + k)%nat))) →
    ∃ k, D (tr (n + k)%nat);
}.

Lemma backend_closed (I : World → Prop) w f : (∀ w f, I w → backend_step (fabric w) f → I (set_fabric f w)) →
  I w → rtc backend_step (fabric w) f → I (set_fabric f w).
Proof using Type.
  intros Hb HI Hf. assert (I (set_fabric (fabric w) w)) as HI' by by destruct w.
  revert HI'. generalize (fabric w) Hf. intros g Hg. clear Hf HI.
  induction Hg as [|g g1 g2 Hs _ IH]; [done|]. intros HI. apply IH. by apply (Hb (set_fabric g w)).
Qed.

(** The next run of an execution, after steps of the backend *)
Lemma next_run tr : execution tr → ∀ k n, runs_to (tr (n + k)%nat) (tr (S (n + k))) →
  ∃ i f, rtc backend_step (fabric (tr n)) f ∧ runs_to (set_fabric f (tr n)) (tr (S (n + i))).
Proof using Type.
  intros Hex. assert (∀ w, set_fabric (fabric w) w = w) as Hid by by intros [].
  intros k. induction k as [|k IH]; intros n Hk.
  - exists 0%nat, (fabric (tr n)). rewrite Hid, Nat.add_0_r in *. done.
  - destruct (ex_step tr Hex n) as [Hr|(f & Hf & E)].
    + exists 0%nat, (fabric (tr n)). rewrite Hid, Nat.add_0_r. done.
    + destruct (IH (S n)) as (i & f' & Hf' & Hr); [by rewrite Nat.add_succ_comm|]. exists (S i), f'.
      rewrite E in Hf', Hr. rewrite Nat.add_succ_comm in Hr. split; [by eapply rtc_l|done].
Qed.

(** Every execution from a world that leads to [Q] arrives there. *)
Lemma leads_sound Q w : leads Q w → ∀ tr n, execution tr → tr n = w → ∃ k, Q (tr (n + k)%nat).
Proof using Type.
  induction 1 as [w HQ|w _ IH|I D w HI Hb Hr Hc _ IH]; intros tr n Hex Hn.
  - exists 0%nat. by rewrite Nat.add_0_r, Hn.
  - destruct (ex_runs tr Hex n) as [k Hk]. destruct (next_run tr Hex k n Hk) as (i & f & Hf & Hr). rewrite Hn in Hf, Hr.
    destruct (IH f _ Hf Hr tr (S (n + i)) Hex eq_refl) as [j Hj]. exists (S (i + j)).
    by replace (n + S (i + j))%nat with (S (n + i) + j)%nat by lia.
  - set (E := λ w, I w ∧ D w).
    assert (∀ k, (∃ i, (i ≤ k)%nat ∧ E (tr (n + i)%nat)) ∨ I (tr (n + k)%nat)) as Hk.
    { intros k. induction k as [|k IHk]; [right; by rewrite Nat.add_0_r, Hn|].
      destruct IHk as [(i & Hi & HE)|HIk]; [left; exists i; split; [lia|done]|].
      destruct (ex_step tr Hex (n + k)) as [Hrun|(f & Hf & Ef)]; rewrite <-Nat.add_succ_r in *.
      - destruct (Hr _ HIk) as [HD|Hkeep]; [left; exists k; split; [lia|done]|right; by apply Hkeep].
      - right. rewrite Ef. by apply Hb. }
    destruct (ex_fair tr Hex E n) as (k & HIk & HDk).
    { intros k. destruct (Hk k) as [?|HIk]; [by left|right]. destruct (Hc _ HIk) as (f & Hf & HD). exists f. split; [done|].
      split; [by apply (backend_closed I)|done]. }
    destruct (IH _ HIk HDk tr (n + k)%nat Hex eq_refl) as [j Hj]. exists (k + j)%nat. by rewrite Nat.add_assoc.
Qed.

(** A calm run commits what the handler returns. *)
Lemma run_commits clk cache w sc row Φ : (∀ n, calm_from t0 (sc n)) → rows (switch_rows w) !! o = Some row →
  runs t0 w (attempt_state_transition svc here o (row_object row) (value (row_state row)) cache) Φ →
  ∃ r s now, Φ r s ∧ (run svc here o clk cache w sc).2.1 = commit_outcome o clk (row_state row) (Ok r.1) now s.
Proof using Type.
  intros Hsc Hrow Hm.
  assert (runs t0 w (run svc here o clk cache) (λ _ w', ∃ r s now, Φ r s ∧ w' = commit_outcome o clk (row_state row) (Ok r.1) now s)) as H.
  { unfold run, object_run. eapply runs_bind; [eapply (runs_read _ _ _ _ row (λ a s, s = w ∧ a = row)); [by intros; rewrite Hrow|done]|].
    intros a s [-> ->]. eapply (runs_bind _ _ _ _ (λ x s, ∃ r, x = Ok r ∧ Φ r s)).
    { apply runs_catch. eapply runs_weaken; [exact Hm|]. by eauto. }
    intros x s (r & -> & Hr).
    eapply (runs_bind _ _ _ _ (λ _ w', ∃ now, w' = commit_outcome o clk (row_state row) (Ok r.1) now s)).
    - apply runs_call. intros now _. eexists _, _. split; [done|]. by exists now.
    - intros _ w' (now & ->). destruct r as [oc c]. apply runs_ret. by eexists (oc, c), s, now. }
  by destruct (H w sc Hsc eq_refl) as (_ & a & _ & Ha).
Qed.

Definition at_state (mac : string) (n : SwitchControllerState) (w : World) : Prop := ∃ row,
  rows (switch_rows w) !! o = Some row ∧ value (row_state row) = n ∧ sw_bmc_mac_address (row_object row) = Some mac.

(** The outcome that moves the switch, or waits *)
Definition to (n : option SwitchControllerState) (oc : Outcome) : Prop :=
  match n with Some n => oc = transition here n | None => ∃ why, oc = wait here why end.

(** A run that moves the switch, or waits *)
Lemma run_step mac w w' row (Φ : option SwitchControllerState → World → Prop) : rows (switch_rows w) !! o = Some row →
  (∀ cache, runs t0 w (attempt_state_transition svc here o (row_object row) (value (row_state row)) cache) (λ r s,
     ∃ n, to n r.1 ∧ Φ n s ∧ ∃ row', rows (switch_rows s) !! o = Some row' ∧ row_state row' = row_state row ∧
       sw_bmc_mac_address (row_object row') = Some mac)) →
  runs_to w w' → ∃ n s, Φ n s ∧ same_passwords mac s w' ∧ at_state mac (default (value (row_state row)) n) w'.
Proof using Type.
  intros Hrow Hm (clk & cache & sc & Hsc & ->).
  destruct (run_commits clk cache w sc row _ Hsc Hrow (Hm cache)) as ([oc c] & s & now & (n & Hoc & HΦ & row' & Hrow' & Hst & Hbmc) & ->).
  simpl in Hoc. exists n, s. split; [done|]. split.
  - apply commit_same. intros ? [= <-]. destruct n as [n|]; [simpl in Hoc; subst oc|destruct Hoc as [why ->]]; by intros w1 Hw1.
  - unfold at_state, commit_outcome. destruct n as [n|]; simpl in Hoc; [|destruct Hoc as [why Hoc]]; subst oc.
    + pose proof (commit_row switch_rows set_switch_rows switch_state_sla o (λ t w, eq_refl) clk (row_state row) n here None row' now s Hrow'
        ltac:(by rewrite Hst)) as Hc. change (transition here n) with (Transition n here (None : option Txn)).
      destruct (rows (switch_rows (commit_run _ _ _ _ _ _ _ _ _)) !! o) as [r|]; [|done].
      injection Hc as Hs Ho. exists r. by rewrite Hs, Ho.
    + unfold commit_run, store_outcome. simpl. destruct (from_result _) as [p|]; simpl;
        [rewrite lookup_alter_eq, Hrow'|]; eexists; (split; [done|]); by rewrite ?Hst.
Qed.

(** The same, after whatever the backend does first *)
Lemma leads_step mac Q w row (Φ : option SwitchControllerState → World → Prop) : rows (switch_rows w) !! o = Some row →
  (∀ f cache, rtc backend_step (fabric w) f →
     runs t0 (set_fabric f w) (attempt_state_transition svc here o (row_object row) (value (row_state row)) cache) (λ r s,
     ∃ n, to n r.1 ∧ Φ n s ∧ ∃ row', rows (switch_rows s) !! o = Some row' ∧ row_state row' = row_state row ∧
       sw_bmc_mac_address (row_object row') = Some mac)) →
  (∀ n s w', Φ n s → same_passwords mac s w' → at_state mac (default (value (row_state row)) n) w' → leads Q w') → leads Q w.
Proof using Type.
  intros Hrow Hm Hnext. apply leads_run. intros f w' Hf Hr.
  destruct (run_step mac (set_fabric f w) w' row Φ Hrow (λ cache, Hm f cache Hf) Hr) as (n & s & HΦ & Hs & Hat). by eapply Hnext.
Qed.

(** Whatever the backend answers, the location of the switch is all that changes. *)
Lemma fetch_info_runs s w : runs t0 w (handle_fetch_info svc here o s) (λ oc w',
  oc = transition here (Validating ValidationComplete) ∧
  (w' = w ∨ ∃ a b, w' = set_switch_rows (update_slot_and_tray o a b (switch_rows w)) w)).
Proof using Type.
  unfold handle_fetch_info.
  eapply (runs_bind _ _ _ _ (λ _ w', w' = w ∨ ∃ a b, w' = set_switch_rows (update_slot_and_tray o a b (switch_rows w)) w));
    [|intros _ w' Hw'; by apply runs_ret].
  destruct (sw_rack_id s); [|by apply runs_ret; left]. destruct (component_manager svc) as [m|]; [|by apply runs_ret; left].
  eapply (runs_bind _ _ _ _ (λ _ w', w' = w)).
  { unfold resolve_switch_endpoint, fetch_switch_nvos_credentials, generic.
    eapply (runs_catch_bind _ _ _ _ (λ _ w', w' = w)); [by apply runs_catch_call| |done]. intros a w' ->.
    eapply (runs_catch_bind _ _ _ _ (λ _ w', w' = w)); [by apply runs_catch_lift| |done]. intros row w' ->.
    eapply (runs_catch_bind _ _ _ _ (λ _ w', w' = w)); [|intros c w' ->; by apply runs_catch_lift|done].
    eapply (runs_catch_bind _ _ _ _ (λ _ w', w' = w)); [by apply runs_catch_convert, runs_catch_call| |done].
    intros c w' ->. by apply runs_catch_lift. }
  intros [ep|e] w' ->; [|by apply runs_ret; left].
  eapply (runs_bind _ _ _ _ (λ _ w', w' = w)); [by apply runs_catch_call|].
  intros [[|r rs]|e] w' ->; try (by apply runs_ret; left).
  eapply (runs_bind _ _ _ _ (λ t w', w' = w ∧ t = [])); [by eapply runs_read|]. intros t w' [-> ->].
  eapply (runs_bind _ _ _ _ (λ x w', w' = w ∧ ∃ t, x = Ok t ∧
    in_txn t w = set_switch_rows (update_slot_and_tray o (st_slot_number r) (st_tray_index r) (switch_rows w)) w)).
  { apply runs_catch_call. intros now _. split; [done|]. by eexists. }
  intros x w' (-> & t & -> & Ht). apply runs_call. intros now _. eexists _, _. split; [done|]. rewrite Ht. by eauto.
Qed.

End Leads.

Lemma leads_executions svc here o t0 (Q : World → Prop) w : leads svc here o t0 Q w →
  leads svc here o t0 Q w ∧ ∀ tr, execution svc here o t0 tr → tr 0%nat = w → ∃ k, Q (tr k).
Proof. intros H. split; [done|]. intros tr Hex H0. by apply (leads_sound svc here o t0 Q w H tr 0%nat). Qed.

(** ** Back to [Ready] *)

Section Back.
Context (mac o u : string) (pw : Z → string) (es : option ExpectedSwitch) (t0 : Z).
Context (Hmac : no_slash mac) (Hsite : mac ≠ "site"%string) (Hu : u ≠ EmptyString).
Context (Hinj : ∀ i j, -1 ≤ i → -1 ≤ j → pw i = pw j → i = j) (Hpw : ∀ i, -1 ≤ i → pw i ≠ EmptyString).
Context (svc : SwitchStateHandlerServices) (here : Location).
Context (cm : ComponentManager) (Hcm : component_manager svc = Some cm).
Context {HB : PasswordBackend (M := nv_switch cm)} {HC : RejectsCleanly (M := nv_switch cm)} {HD : DeviceBackend cm}.
Context {HR : RespondingBackend (M := nv_switch cm) mac} {HK : KeepsJobs (M := nv_switch cm)}.
Context (Hen : supports_password_rotation (NvSwitchManager := nv_switch cm) = true).

Notation recoverable := (os_recoverable mac o u pw es).
Notation settled := (os_settled mac u pw).
Notation attached := (attached mac o u pw es).
Notation leads := (leads svc here o t0).
Notation at_state := (at_state o mac).

Lemma same_settled v w w' : same_passwords mac w w' → settled v w → settled v w'.
Proof using Type.
  intros [H1 _ _ Hk Hsh Hf] (d & Hrow & Hc & Hr & Hos & Heff). exists d. rewrite H1, Hf. split_and!; try done.
  unfold effective in *. rewrite Hsh, Hk; [done|by left].
Qed.

Lemma same_serviceable d t w w' : same_passwords mac w w' → serviceable mac o d t w → serviceable mac o d t w'.
Proof using Type.
  intros [_ _ Hsw Hk Hsh Hf] [Ht Hs He Hx]. split.
  - unfold current_target_version in *. by rewrite Hsw.
  - intros v Hv. rewrite Hk; eauto.
  - by rewrite Hf.
  - by rewrite Hsh.
Qed.

Lemma same_attached t v w w' : same_passwords mac w w' → attached t v w → attached t v w'.
Proof using Hinj.
  intros Hs (d & e & j & Hw & Hr & Hv & H). exists d, e, j.
  split; [eapply stable_holds; [done|exact Hw|by apply same_lets]|]. split; [done|]. split; [by eapply same_serviceable|done].
Qed.

(** The account and the store have the password, and the backend does not change that. *)
Definition arrived (v : Z) (w : World) : Prop := recoverable w ∧ settled v w.

Lemma arrived_backend v w f : arrived v w → rtc backend_step (fabric w) f → arrived v (set_fabric f w).
Proof using Hinj.
  intros [Hw Hs] Hf. assert (os_lets mac o pw w (set_fabric f w)) as Hl by (by apply backend_lets, backend_rows).
  split; [by eapply lets_recoverable|by eapply lets_settled].
Qed.

Lemma same_arrived v w w' : same_passwords mac w w' → arrived v w → arrived v w'.
Proof using Hinj. intros Hs [Hw Hv]. split; [by eapply same_recoverable|by eapply same_settled]. Qed.

(** The states after the rotation move on, whatever the password. *)
Lemma arrived_leads Q v cs n w : arrived v w → at_state cs w →
  (∀ row f cache, rows (switch_rows (set_fabric f w)) !! o = Some row → sw_bmc_mac_address (row_object row) = Some mac →
     runs t0 (set_fabric f w) (attempt_state_transition svc here o (row_object row) cs cache) (λ r s,
       r.1 = transition here n ∧ (s = set_fabric f w ∨
         ∃ a b, s = set_switch_rows (update_slot_and_tray o a b (switch_rows w)) (set_fabric f w)))) →
  (∀ w', arrived v w' → at_state n w' → leads Q w') → leads Q w.
Proof using Hinj.
  intros Ha (row & Hrow & <- & Hb) Hrun Hnext.
  eapply (leads_step _ _ _ _ mac _ w row (λ n' w, n' = Some n ∧ arrived v w)); [done| |].
  - intros f cache Hf. pose proof (arrived_backend v w f Ha Hf) as Ha'.
    eapply runs_weaken; [by apply (Hrun row f cache)|]. intros r s [Hr Hs]. exists (Some n). split; [done|].
    destruct Hs as [->|(a & b & ->)]; [split; [done|]; by exists row|]. split; [split; [done|]; eapply same_arrived; [|exact Ha']; by split|].
    eexists. simpl. rewrite lookup_alter_eq, Hrow. by split_and!.
  - intros ? s w' [-> Hs'] Hsame Hat. apply Hnext; [by eapply same_arrived|done].
Qed.

Lemma fetch_info_leads v w : arrived v w → at_state FetchInfo w → leads (λ w, settled v w ∧ at_state Ready w) w.
Proof using Hinj.
  intros Ha Hst. eapply (arrived_leads _ v FetchInfo (Validating ValidationComplete)); [done..| |].
  { intros row f cache _ _. cbn [attempt_state_transition]. eapply runs_bind; [apply fetch_info_runs|].
    intros oc w' [-> Hw']. by apply runs_ret. }
  clear w Ha Hst. intros w Ha Hst.
  eapply (arrived_leads _ v _ (BomValidating BomValidationComplete)); [done..| |].
  { intros row f cache _ _. by apply runs_ret; auto. }
  clear w Ha Hst. intros w Ha Hst. eapply (arrived_leads _ v _ Ready); [done..| |].
  { intros row f cache _ _. by apply runs_ret; auto. }
  intros w' [_ Hs] Hat. by apply leads_here.
Qed.

(** ** The rotation *)

Lemma reconcile_rows T : keeps (calm_from t0) (λ w, switch_rows w = T)
  (reconcile_nvos_password_rotation (Some (nv_switch cm)) o (Some mac)).
Proof using HD.
  apply (reconcile_kept _ _ _ o mac); try done; [| |by left].
  - intros st w [[_ Ho] _] Hw. by rewrite Ho.
  - intros m ep next w [= <-] Hw. destruct (password_on_devices ep next w) as (f & ->). exact Hw.
Qed.

(** The handler of the rotation, when the outcome of the rotation is known *)
Lemma rotate_runs w row cache Φ : rows (switch_rows w) !! o = Some row → sw_bmc_mac_address (row_object row) = Some mac →
  runs t0 w (reconcile_nvos_password_rotation (Some (nv_switch cm)) o (Some mac)) Φ →
  runs t0 w (attempt_state_transition svc here o (row_object row) (Configuring RotateOsPassword) cache) (λ r s,
    (∃ x, Φ x s ∧ r.1 = match x with
       | UpToDate => transition here FetchInfo
       | Waiting why => wait here why
       | CredentialError cause => transition here (Error cause)
       end) ∧ switch_rows s = switch_rows w).
Proof using HD Hcm.
  intros Hrow Hb Hr. cbn [attempt_state_transition handle_configuring]. unfold handle_rotate_os_password. rewrite Hcm, Hb.
  eapply (runs_bind _ _ _ _ (λ oc s, (∃ x, Φ x s ∧ oc = match x with
       | UpToDate => transition here FetchInfo
       | Waiting why => wait here why
       | CredentialError cause => transition here (Error cause)
       end) ∧ switch_rows s = switch_rows w)); [|intros oc s H; by apply runs_ret].
  eapply runs_bind; [by apply (runs_kept _ (λ s, switch_rows s = switch_rows w)); [exact Hr|apply reconcile_rows|]|].
  intros x s [Hx Hs]. apply runs_ret. by eauto.
Qed.

(** A run of the rotation leaves the switch recoverable. *)
Lemma reconcile_recoverable w Φ : recoverable w →
  runs t0 w (reconcile_nvos_password_rotation (Some (nv_switch cm)) o (Some mac)) Φ →
  runs t0 w (reconcile_nvos_password_rotation (Some (nv_switch cm)) o (Some mac)) (λ x s, Φ x s ∧ recoverable s).
Proof using Hmac Hsite Hu Hinj Hpw HB HC Hen.
  intros Hw Hr. eapply runs_weaken; [eapply runs_safe; [exact Hr|by apply reconcile_triple|done]|]. by intros x s [? [? _]].
Qed.

(** A run of the rotation: the switch has arrived, or a job is attached. *)
Definition after_rotation (t v : Z) (n : option SwitchControllerState) (w : World) : Prop :=
  n = Some FetchInfo ∧ arrived v w ∨ n = None ∧ attached t v w.

Lemma rotation_runs t v w row cache : recoverable w → rows (switch_rows w) !! o = Some row →
  sw_bmc_mac_address (row_object row) = Some mac →
  runs t0 w (reconcile_nvos_password_rotation (Some (nv_switch cm)) o (Some mac))
    (λ x s, x = UpToDate ∧ settled v s ∨ in_flight mac o u pw es t v x s) →
  runs t0 w (attempt_state_transition svc here o (row_object row) (Configuring RotateOsPassword) cache) (λ r s,
    ∃ n, to here n r.1 ∧ after_rotation t v n s ∧ ∃ row', rows (switch_rows s) !! o = Some row' ∧ row_state row' = row_state row ∧
      sw_bmc_mac_address (row_object row') = Some mac).
Proof using Hmac Hsite Hu Hinj Hpw HB HC HD Hen Hcm.
  intros Hw Hrow Hb Hrun.
  eapply runs_weaken; [apply rotate_runs; [done..|]; apply reconcile_recoverable; [done|exact Hrun]|].
  intros r s [(x & [Hx Hrec] & Hr) Hrows].
  assert (∃ row', rows (switch_rows s) !! o = Some row' ∧ row_state row' = row_state row ∧ sw_bmc_mac_address (row_object row') = Some mac)
    as Hrow' by (exists row; by rewrite Hrows).
  destruct Hx as [[-> Hset]|[[why ->] Ha]]; [exists (Some FetchInfo)|exists None]; (split; [simpl; by eauto|split; [|done]]).
  - by left.
  - by right.
Qed.

Lemma attached_recoverable t v w : attached t v w → recoverable w.
Proof using Type. intros (d & e & j & Hw & _). by exists (Some d), e. Qed.

(** While a job is attached, runs poll it, until the backend has completed it. *)
Lemma attached_leads t v w : expected_ok es → attached t v w → at_state (Configuring RotateOsPassword) w →
  leads (λ w, settled v w ∧ at_state Ready w) w.
Proof using Hmac Hsite Hu Hinj Hpw HB HC HD HR HK Hen Hcm.
  intros Hx Ha Hat.
  apply (leads_wait _ _ _ _ _ (λ w, attached t v w ∧ at_state (Configuring RotateOsPassword) w) (job_done mac)); [done|..].
  - intros w1 f [Ha1 Hat1] Hf. split; [|done]. apply attached_backend; [done..|by apply rtc_once].
  - intros w1 [Ha1 (row & Hrow & Hst & Hb)].
    destruct (run_waits mac o u pw es t0 Hmac Hsite Hu Hinj Hpw t v w1 Hen Ha1 Hx) as [Hd|Hrun]; [by left|right].
    intros w' Hr. destruct (run_step svc here o t0 mac w1 w' row (λ n s, n = None ∧ attached t v s) Hrow) as (n & s & [-> Ha2] & Hsame & Hat2); [|done|].
    + intros cache. rewrite Hst. eapply runs_weaken; [by apply rotate_runs; [..|exact Hrun]|].
      intros r s [(x & [[why ->] Ha2] & Hr') Hrows]. exists None. split; [by exists why|]. split; [done|]. exists row. by rewrite Hrows.
    + rewrite Hst in Hat2. split; [by eapply same_attached|done].
  - intros w1 [Ha1 _]. by eapply attached_can_finish.
  - clear w Ha Hat. intros w [Ha (row & Hrow & Hst & Hb)] Hd.
    eapply (leads_step _ _ _ _ mac _ w row (λ n s, n = Some FetchInfo ∧ arrived v s)); [done| |].
    + intros f cache Hf. rewrite Hst.
      assert (attached t v (set_fabric f w)) as Ha' by by apply attached_backend.
      assert (job_done mac (set_fabric f w)) as Hd' by by apply job_done_backend.
      eapply runs_weaken; [apply rotate_runs; [done..|]; apply reconcile_recoverable; [by eapply attached_recoverable|by eapply run_done]|].
      intros r s [(x & [[-> Hs] Hrec] & ->) Hrows]. exists (Some FetchInfo). split; [done|]. split; [done|]. exists row. by rewrite Hrows.
    + intros ? s w' [-> Hs] Hsame Hat. apply fetch_info_leads; [by eapply same_arrived|done].
Qed.

(** What the rotation needs, and the backend leaves alone *)
Record due (d : option DeviceRow) (t : Z) (w : World) : Prop := {
  due_recoverable : recoverable w;
  due_row : devices (rot w) !! (mac, Nvos) = d;
  due_serviceable : serviceable mac o d t w;
  due_named : named es (effective w (SwitchNvosAdmin mac));
}.

Lemma due_backend d t w f : due d t w → rtc backend_step (fabric w) f → due d t (set_fabric f w).
Proof using Hinj.
  intros [] Hf. split; try done; [by eapply lets_recoverable; [| |by apply backend_lets, backend_rows]|].
  by apply serviceable_fabric, backend_rows.
Qed.

Lemma same_due d t w w' : same_passwords mac w w' → due d t w → due d t w'.
Proof using Hinj.
  intros Hs [Hw Hd Hv Hn]. split.
  - by eapply same_recoverable.
  - by rewrite <- Hd, (same_row _ _ _ Hs).
  - by eapply same_serviceable.
  - destruct Hs as [_ _ _ Hk Hsh _]. unfold effective in *. rewrite Hsh, Hk; [done|by left].
Qed.

Lemma rotating_leads d t w : due d t w → expected_ok es → row_open t0 d → at_state (Configuring RotateOsPassword) w →
  leads (λ w', settled (aim d t) w' ∧ at_state Ready w') w.
Proof using Hmac Hsite Hu Hinj Hpw HB HC HD HR HK Hen Hcm.
  intros Hdue Hx Ho (row & Hrow & Hst & Hb).
  eapply (leads_step _ _ _ _ mac _ w row (after_rotation t (aim d t))); [done| |].
  - intros f cache Hf. rewrite Hst. destruct (due_backend d t w f Hdue Hf) as [Hw Hd Hs Hn]. apply rotation_runs; [done..|].
    rewrite <- Hd. apply run_reconcile; by rewrite ?Hd.
  - rewrite Hst. intros n s w' [[-> Ha]|[-> Ha]] Hsame Hat.
    + apply fetch_info_leads; [by eapply same_arrived|done].
    + eapply attached_leads; [done|by eapply same_attached|done].
Qed.

(** ** From [Ready] *)

(** The controller has nothing else to do with the switch. *)
Definition unclaimed (s : Switch) : Prop :=
  is_marked_as_deleted s = false ∧ sw_maintenance_requested s = None ∧ sw_reprovisioning_requested s = None.

(** The password is behind the target, or on its way. *)
Definition behind (d : option DeviceRow) (t : Z) : Prop := is_Some (stg d) ∨ cur d < t.

Lemma needs_runs d e t w : holds mac o u pw es d e false w → serviceable mac o d t w → row_open t0 d → named es e → expected_ok es →
  behind d t →
  runs t0 w (needs_nvos_password_reconciliation (Some (nv_switch cm)) o (Some mac)) (λ b s, b = true ∧ s = w).
Proof using Hpw Hu Hen.
  intros Hw Hs Ho Hn (x & Hx & p & Hp) Hb. unfold needs_nvos_password_reconciliation, enabled. rewrite Hen. cbn [negb].
  eapply (runs_bind _ _ _ _ (λ _ s, s = w)); [by eapply runs_read|]. intros _ s ->.
  eapply (runs_bind _ _ _ _ (λ a s, s = w ∧ a = Some t)); [by eapply runs_read; [intros; by rewrite (sv_target _ _ _ _ _ Hs)|]|].
  intros a s [-> ->].
  eapply (runs_bind _ _ _ _ (λ a s, s = w ∧ a = d)); [by eapply runs_read; [intros; by rewrite (holds_row _ _ _ _ _ _ _ _ _ Hw)|]|].
  intros a s [-> ->]. destruct d as [d|].
  - unfold row_needs_reconciliation. destruct (Ho d eq_refl) as (-> & _). cbn [bool_decide andb].
    destruct (rotating_to_version d) as [v|] eqn:Ev; [by apply runs_ret|]. cbn.
    destruct Hb as [[v Hv]|Hb]; [unfold stg in Hv; simpl in Hv; by rewrite Ev in Hv|].
    unfold cur, confirmed in Hb. simpl in Hb. destruct (current_version d) as [c|]; [|by apply runs_ret].
    simpl in Hb. rewrite (proj2 (Z.ltb_lt _ _) Hb). by apply runs_ret.
  - unfold has_nvos_admin_credential.
    eapply (runs_bind _ _ _ _ (λ b s, s = w ∧ b = match usable_password e with Some _ => true | None => false end)).
    { eapply runs_bind; [apply runs_convert; by eapply run_admin|]. intros a s [-> ->].
      destruct (usable_password e); by apply runs_ret. }
    intros b s [-> ->]. destruct (usable_password e) as [q|] eqn:Eq; [by apply runs_ret|].
    eapply (runs_bind _ _ _ _ (λ _ s, s = w)); [by eapply runs_read|]. intros _ s ->.
    destruct Hw as (l & Hw & _).
    eapply (runs_bind _ _ _ _ (λ a s, s = w ∧ a = Some x)); [eapply runs_read; [intros; by rewrite (v_expected _ _ _ _ _ _ _ _ _ Hw), Hx|done]|].
    intros a s [-> ->]. apply runs_ret. split; [|done]. rewrite Hp. destruct p as [[a b]|]; [done|]. exfalso.
    assert (announced es = None) as Ha by (unfold announced; rewrite Hx; simpl; by rewrite Hp).
    destruct Hn as [[? Hn]|(c & -> & Hc)]; [congruence|].
    rewrite (s_bare _ _ _ _ _ _ (v_stored _ _ _ _ _ _ _ _ _ Hw) c Ha eq_refl eq_refl eq_refl) in Eq.
    by rewrite (usable_account u pw Hu Hpw (-1)) in Eq by lia.
Qed.

(** C7: A new target reaches a switch.  Take a switch in [Ready] that nobody wants to delete,
    maintain or reprovision, whose password is behind the target or on its way.  Suppose
    that its account can be recovered, that the row of its rotation is neither rejected nor
    quarantined, that the secrets of the versions and the endpoint are there, that the
    account has a name, stored or announced, and the expected switch is registered with a
    valid pair of credentials; and that runs do not fail and the backend accepts requests,
    reports the jobs that succeed and does not give up the others.  Then, however runs and
    the work of the backend alternate, the switch comes back to [Ready], and the account and
    the store have the password of the version that was staged, or else of the target: in
    every execution with runs again and again and a fair backend, one that completes a job
    that it can complete at any time. *)
Theorem switch_catches_up t w row : recoverable w → expected_ok es →
  let d := devices (rot w) !! (mac, Nvos) in
  serviceable mac o d t w → row_open t0 d → named es (effective w (SwitchNvosAdmin mac)) → behind d t →
  rows (switch_rows w) !! o = Some row → value (row_state row) = Ready →
  sw_bmc_mac_address (row_object row) = Some mac → unclaimed (row_object row) →
  leads (λ w', settled (aim d t) w' ∧ at_state Ready w') w ∧
  ∀ tr, execution svc here o t0 tr → tr 0%nat = w → ∃ k, settled (aim d t) (tr k) ∧ at_state Ready (tr k).
Proof using Hmac Hsite Hu Hinj Hpw HB HC HD HR HK Hen Hcm.
  intros Hw Hx d Hs Ho Hn Hb Hrow Hst Hmac' (Hdel & Hmt & Hre).
  apply leads_executions.
  assert (due d t w) as Hdue by by split.
  eapply (leads_step _ _ _ _ mac _ w row (λ n s, n = Some (Configuring RotateOsPassword) ∧ due d t s)); [done| |].
  - intros f cache Hf. rewrite Hst. cbn [attempt_state_transition]. unfold handle_ready. rewrite Hdel, Hmt, Hre, Hcm, Hmac'.
    pose proof (due_backend d t w f Hdue Hf) as Hdue'. pose proof Hdue' as [(d' & e & Hw') Hd Hs' Hn'].
    assert (d = d') as -> by (rewrite <- Hd; by eapply holds_row).
    assert (effective (set_fabric f w) (SwitchNvosAdmin mac) = e) as He by (by destruct Hw' as (l & [] & _)). rewrite He in Hn'.
    eapply runs_bind; [by eapply needs_runs|]. intros b s [-> ->]. apply runs_ret.
    exists (Some (Configuring RotateOsPassword)). split_and!; [done..|]. by exists row.
  - intros ? s w' [-> Hs'] Hsame Hat. apply rotating_leads; try done. by eapply same_due.
Qed.

End Back.
