(* ===== verification/SwitchInterfaces.v ===== *)
(** * The interfaces of a switch

    [switch-controller/src/initializing.rs]: the interfaces that an expected switch lists are
    claimed in one transaction.  A switch gets all of them that exist, or none; an interface
    of another switch, or of a machine, is never taken. *)

From S2P Require Import Prelude ConfigVersion StateHistory StateHandler ControllerIO ProcessObject ControllerTable PowerShelfTable.
From S2P Require Import Credentials CredentialRotation SwitchTable Calls RotationWorld HandlerRuns NvosRotation SwitchController.

Section Interfaces.
Context (here : Location) (o : string).

(** The owner of the interface that a MAC address stands for, if there is such an interface *)
Definition owned (m : string) (t : list Interface) : Prop := ∀ i, head (find_by_mac_address m t) = Some i → if_switch_id i = Some o.
Definition present (m : string) (t : list Interface) : Prop := find_by_mac_address m t ≠ [].

(** An interface is left alone, or was free and is of the switch now. *)
Definition claim (macs : list string) (i i' : Interface) : Prop :=
  i' = i ∨ if_association i = None ∧ if_mac i ∈ macs ∧ i' = mk_interface (if_id i) (if_mac i) (Some (ToSwitch o)).
Definition claims (macs : list string) : list Interface → list Interface → Prop := Forall2 (claim macs).

Lemma claims_refl macs t : claims macs t t.
Proof using Type. induction t; constructor; [by left|done]. Qed.

Lemma claim_keys macs i i' : claim macs i i' → if_id i' = if_id i ∧ if_mac i' = if_mac i.
Proof using Type. by intros [->|(_ & _ & ->)]. Qed.

Lemma claims_ids macs t t' : claims macs t t' → if_id <$> t' = if_id <$> t.
Proof using Type. induction 1 as [|i i' t t' H _ IH]; [done|]. by rewrite !fmap_cons, IH, (proj1 (claim_keys _ _ _ H)). Qed.

Lemma claims_found macs m t t' : claims macs t t' → claims macs (find_by_mac_address m t) (find_by_mac_address m t').
Proof using Type.
  induction 1 as [|i i' t t' H _ IH]; [constructor|]. unfold find_by_mac_address in *. rewrite !filter_cons.
  rewrite (proj2 (claim_keys _ _ _ H)). case_decide; [by constructor|done].
Qed.

Lemma claims_mono macs macs' t t' : (∀ m, m ∈ macs → m ∈ macs') → claims macs t t' → claims macs' t t'.
Proof using Type. intros Hm H. eapply Forall2_impl; [exact H|]. intros i i' [->|(? & ? & ->)]; [by left|right; auto]. Qed.

Lemma claims_trans macs t1 t2 t3 : claims macs t1 t2 → claims macs t2 t3 → claims macs t1 t3.
Proof using Type.
  intros H1 H2. revert t3 H2. induction H1 as [|i1 i2 t1 t2 H _ IH]; intros t3 H2; inversion H2 as [|? i3 ? t3' H' H2']; subst; [constructor|].
  constructor; [|by apply IH]. destruct H' as [->|(Hf & Hin & ->)]; [done|]. destruct H as [->|(_ & _ & ->)]; [right; auto|done].
Qed.

Lemma claims_owned macs m t t' : claims macs t t' → owned m t → owned m t'.
Proof using Type.
  intros H Ho i'. pose proof (claims_found macs m t t' H) as Hf. unfold owned in Ho.
  destruct Hf as [|i j l l' Hij _]; [done|]. intros [= <-]. destruct Hij as [->|(_ & _ & ->)]; [by apply Ho|done].
Qed.

Lemma claims_present macs m t t' : claims macs t t' → present m t ↔ present m t'.
Proof using Type. intros H. pose proof (claims_found macs m t t' H) as Hf. unfold present. by destruct Hf. Qed.

(** Without an interface for any of the addresses nothing is claimed. *)
Lemma claims_nothing macs t t' : claims macs t t' → (∀ m, m ∈ macs → ¬ present m t) → t' = t.
Proof using Type.
  intros H Hm. assert (∀ i, i ∈ t → if_mac i ∉ macs) as Hfree.
  { intros i Hi Hin. apply (Hm _ Hin). intros E. apply (not_elem_of_nil i). rewrite <-E. by apply list_elem_of_filter. }
  clear Hm. induction H as [|i i' t t' Hi _ IH]; [done|]. f_equal.
  - destruct Hi as [?|(_ & Hin & _)]; [done|]. by destruct (Hfree i ltac:(left)).
  - apply IH. intros j Hj. apply Hfree. by right.
Qed.

(** The statement, on an interface that has been found by its address *)
Lemma associate_claims m i l t t' : NoDup (if_id <$> t) → find_by_mac_address m t = i :: l → if_switch_id i = None →
  associate_interface_with_machine (if_id i) (ToSwitch o) t = Ok t' → claims [m] t t' ∧ owned m t'.
Proof using Type.
  intros Hnd Hf Hfree. assert (i ∈ t ∧ if_mac i = m) as [Hi Hm].
  { assert (i ∈ find_by_mac_address m t) as Hin by (rewrite Hf; left). apply list_elem_of_filter in Hin. tauto. }
  unfold associate_interface_with_machine. destruct (list_find _ t) as [[n j]|] eqn:Ef; [|done].
  apply list_find_Some in Ef as (Hn & Hid & _). apply list_elem_of_lookup in Hi as (k & Hk).
  assert (n = k) as ->. { eapply NoDup_lookup; [exact Hnd|..]; rewrite list_lookup_fmap, ?Hn, ?Hk; simpl; by rewrite ?Hid. }
  rewrite Hk in Hn. injection Hn as <-.
  assert (if_association i = None ∨ ∃ a, if_association i = Some a ∧ same_reference (ToSwitch o) a = false) as [Ha|(a & Ha & Hs)].
  { unfold if_switch_id in Hfree. destruct (if_association i) as [[]|]; try done; eauto. }
  2: by rewrite Ha, Hs.
  rewrite Ha. intros [= <-].
  assert (claims [m] t (<[k := mk_interface (if_id i) (if_mac i) (Some (ToSwitch o))]> t)) as Hc.
  { apply Forall2_same_length_lookup. split; [by rewrite length_insert|]. intros n x y Hx Hy.
    destruct (decide (n = k)) as [->|Hne].
    - rewrite list_lookup_insert_eq in Hy by (by eapply lookup_lt_Some). simplify_eq. right. split_and!; [done|set_solver|done].
    - rewrite list_lookup_insert_ne in Hy by done. simplify_eq. by left. }
  split; [done|]. intros i'. pose proof (claims_found [m] m t _ Hc) as Hfc. rewrite Hf in Hfc.
  destruct (find_by_mac_address m (<[k := _]> t)) as [|x l'] eqn:Ex; [done|]. apply Forall2_cons in Hfc as [Hx _].
  intros [= <-]. destruct Hx as [->|(_ & _ & ->)]; [exfalso|done].
  assert (i ∈ i :: l') as Hin by left. rewrite <-Ex in Hin.
  apply list_elem_of_filter in Hin as [_ Hin]. apply list_elem_of_lookup in Hin as (k' & Hk').
  assert (k' = k) as ->.
  { eapply (NoDup_lookup (if_id <$> t)); [done|..]; [|by rewrite list_lookup_fmap, Hk].
    rewrite <-(claims_ids _ _ _ Hc), list_lookup_fmap, Hk'. done. }
  rewrite list_lookup_insert_eq in Hk' by (by eapply lookup_lt_Some). injection Hk' as Hk'. by rewrite <-Hk' in Ha.
Qed.

(** All that the addresses stand for is of the switch, and was so or was free; [n] counts. *)
Definition claimed (macs : list string) (n : Z) (t1 t2 : list Interface) : Prop :=
  claims macs t1 t2 ∧ (∀ m, m ∈ macs → owned m t2) ∧ 0 ≤ n ∧ (n = 0 ↔ ∀ m, m ∈ macs → ¬ present m t1).

Lemma claimed_cons m macs n (b : bool) t1 t2 t3 : claims [m] t1 t2 → owned m t2 → (present m t1 ↔ b = true) →
  claimed macs n t2 t3 → claimed (m :: macs) (n + if b then 1 else 0) t1 t3.
Proof using Type.
  intros Hc1 Ho1 Hb (Hc & Ho & Hn & Hz). split_and!.
  - eapply claims_trans; eapply claims_mono; [|exact Hc1| |exact Hc]; set_solver.
  - intros m' [->|Hm]%elem_of_cons; [by eapply claims_owned|by apply Ho].
  - destruct b; lia.
  - assert (∀ m', present m' t1 ↔ present m' t2) as Hp by (intros m'; by apply (claims_present [m])).
    setoid_rewrite Hp in Hb. setoid_rewrite Hp. split.
    + intros H0. assert (n = 0 ∧ b = false) as [H1 ->] by (destruct b; [lia|split; [lia|done]]).
      intros m' [->|Hm]%elem_of_cons; [by rewrite Hb|by apply Hz].
    + intros H. destruct b; [exfalso; apply (H m); [left|by apply Hb]|]. rewrite Z.add_0_r. apply Hz. intros m' Hm. apply H. by right.
Qed.

(** ** The loop *)

Context (t : list Interface).

(** Others leave the interfaces and the expected switch alone. *)
Context (mac : string).
Record interfaces_kept (w w' : World) : Prop := {
  same_interfaces : interfaces w' = interfaces w;
  same_expectation : expected_switches (rot w') !! mac = expected_switches (rot w) !! mac;
}.
Notation allowed := (relies interfaces_kept).

(** What a transaction does to the interfaces *)
Definition makes (txn : Txn) (t' : list Interface) : Prop := ∀ w, interfaces w = t → interfaces (in_txn txn w) = t'.

(** The loop claims all or nothing: it returns an outcome without having written anything,
    or the transaction that claims the interfaces. *)
Lemma associate_all_claims macs txn t1 k : makes txn t1 → NoDup (if_id <$> t1) →
  hoare allowed (λ w, interfaces w = t) (associate_all here o macs txn k)
    (λ r w, interfaces w = t ∧ ∀ a, r = Ok a → match a with
       | inl oc => ∃ cause, oc = transition here (Error cause)
       | inr (txn', k') => ∃ t2, makes txn' t2 ∧ claimed macs (k' - k) t1 t2
       end).
Proof using Type.
  revert txn t1 k. induction macs as [|m macs IH]; intros txn t1 k Ht Hd; cbn [associate_all].
  { apply hoare_ret. intros w Hw. split; [done|]. intros ? [= <-]. exists t1. split; [done|].
    split_and!; [apply claims_refl|set_solver|lia|]. split; [set_solver|lia]. }
  assert (Hread : ∀ w w', interfaces w = t → interfaces_kept w w' → interfaces w' = t) by (intros w w' Hw []; congruence).
  eapply (hoare_seq _ _ _ _ (λ r w, interfaces w = t ∧ ∀ a, r = Ok a → a = find_by_mac_address m t1)); [| |by intros e w [Hw _]].
  { apply (hoare_rely _ _ (λ w, interfaces w = t)); [done| |done..]. intros c w Hw. split; [|done]. split; [done|].
    intros ? [= <-]. by rewrite (Ht w Hw). }
  intros found. apply (hoare_assume _ (found = find_by_mac_address m t1)); [naive_solver|]. intros ->.
  apply (hoare_from _ (λ w, interfaces w = t)); [by intros w []|].
  destruct (find_by_mac_address m t1) as [|i l] eqn:Ef.
  - eapply hoare_weaken; [apply (IH txn t1 k); done|done|]. intros r w [Hw Hr]. split; [done|]. intros a Ha. specialize (Hr a Ha).
    destruct a as [oc|[txn' k']]; [done|]. destruct Hr as (t2 & Hm & Hc). exists t2. split; [done|].
    rewrite <-(Z.add_0_r (k' - k)). eapply (claimed_cons m macs _ false t1 t1 t2); [apply claims_refl| | |exact Hc].
    + intros i. by rewrite Ef.
    + unfold present. rewrite Ef. done.
  - assert (present m t1) as Hp by (unfold present; by rewrite Ef).
    assert (Hgo : ∀ txn' t2, makes txn' t2 → claims [m] t1 t2 → owned m t2 →
      hoare allowed (λ w, interfaces w = t) (associate_all here o macs txn' (k + 1)) (λ r w, interfaces w = t ∧ ∀ a, r = Ok a → match a with
       | inl oc => ∃ cause, oc = transition here (Error cause)
       | inr (txn', k') => ∃ t2, makes txn' t2 ∧ claimed (m :: macs) (k' - k) t1 t2
       end)).
    { intros txn' t2 Ht' Hc' Ho'. eapply hoare_weaken; [apply (IH txn' t2 (k + 1)); [done|by rewrite (claims_ids _ _ _ Hc')]|done|].
      intros r w [Hw Hr]. split; [done|]. intros a Ha. specialize (Hr a Ha).
      destruct a as [oc|[txn2 k']]; [done|]. destruct Hr as (t3 & Hm & Hc). exists t3. split; [done|].
      replace (k' - k) with (k' - (k + 1) + 1) by lia. by apply (claimed_cons m macs _ true t1 t2 t3). }
    destruct (if_switch_id i) as [x|] eqn:Es.
    + destruct (decide (x = o)) as [->|Hne].
      * apply (Hgo txn t1); [done|apply claims_refl|]. intros j. rewrite Ef. by intros [= <-].
      * apply hoare_ret. intros w Hw. split; [done|]. intros ? [= <-]. by eexists.
    + eapply (hoare_seq _ _ _ _ (λ r w, interfaces w = t ∧ ∀ txn', r = Ok txn' → ∃ t2, makes txn' t2 ∧ claims [m] t1 t2 ∧ owned m t2)).
      * apply (hoare_rely _ _ (λ w, interfaces w = t)); [done| |done..]. intros c w Hw. split; [|done]. split; [done|]. intros txn'.
        cbn [fst]. rewrite (Ht w Hw).
        destruct (associate_interface_with_machine (if_id i) (ToSwitch o) t1) as [t2|] eqn:Ea; [|done]. intros [= <-].
        exists t2. destruct (associate_claims m i l t1 t2 Hd Ef Es Ea) as [Hc' Ho']. split_and!; [|done..].
        intros w' Hw'. rewrite in_txn_app, (Ht w' Hw'), Ea. done.
      * intros txn'. apply (hoare_assume _ (∃ t2, makes txn' t2 ∧ claims [m] t1 t2 ∧ owned m t2)); [naive_solver|].
        intros (t2 & ? & ? & ?). apply (hoare_from _ (λ w, interfaces w = t)); [by intros w []|]. by apply (Hgo txn' t2).
      * by intros e w [Hw _].
Qed.

(** C9: The interfaces of a switch are claimed together.  Whatever fails and wherever the
    process dies, as long as nobody else changes interfaces, the handler changes none of
    them, or turns every interface that the expected switch lists and that exists into one
    of the switch; an interface of another switch or of a machine stays what it is.  It
    moves on only if one of them is of the switch, it waits only if none of them exists, and
    it fails with an unchanged table. *)
Theorem interfaces_claimed s es : NoDup (if_id <$> t) → sw_bmc_mac_address s = Some mac →
  let macs := nvos_mac_addresses es in
  hoare allowed (λ w, interfaces w = t ∧ expected_switches (rot w) !! mac = Some es)
    (handle_wait_for_os_machine_interface here o s)
    (λ r w, (interfaces w = t ∨ claims macs t (interfaces w) ∧ ∀ m, m ∈ macs → owned m (interfaces w)) ∧
       ∀ oc, r = Ok oc →
         (∃ cause, oc = transition here (Error cause)) ∧ interfaces w = t ∨
         (∃ why, oc = wait here why) ∧ interfaces w = t ∧ (∀ m, m ∈ macs → ¬ present m t) ∨
         oc = transition here (Configuring (ConfigureCertificate Start)) ∧
           (∀ m, m ∈ macs → owned m (interfaces w)) ∧ ∃ m, m ∈ macs ∧ present m (interfaces w)).
Proof using Type.
  intros Hnd Hs macs. set (P := λ w, interfaces w = t).
  assert (HP : ∀ w w', P w → interfaces_kept w w' → P w') by (intros w w' Hw []; unfold P in *; congruence).
  assert (HE : ∀ w w', P w ∧ expected_switches (rot w) !! mac = Some es → interfaces_kept w w' →
    P w' ∧ expected_switches (rot w') !! mac = Some es) by (intros w w' [Hw ?] []; split; unfold P in *; congruence).
  unfold handle_wait_for_os_machine_interface. rewrite Hs.
  eapply (hoare_seq _ _ _ _ (λ r w, (P w ∧ expected_switches (rot w) !! mac = Some es) ∧ ∀ txn, r = Ok txn → txn = []));
    [|clear Hs|by intros e w [[Hw _] _]; split; [left|]].
  { apply (hoare_rely _ _ (λ w, P w ∧ expected_switches (rot w) !! mac = Some es)); [done| |done..].
    intros c w Hw. split; [|done]. split; [done|]. by intros txn [= <-]. }
  intros txn. apply (hoare_assume _ (txn = [])); [naive_solver|]. intros ->. apply (hoare_from _ (λ w, P w ∧ expected_switches (rot w) !! mac = Some es)); [tauto|].
  eapply (hoare_seq _ _ _ _ (λ r w, P w ∧ ∀ x, r = Ok x → x = Some es)); [| |by intros e w [Hw _]; split; [left|]].
  { apply (hoare_rely _ _ (λ w, P w ∧ expected_switches (rot w) !! mac = Some es)); [done| |by intros w ? []|by intros w []].
    intros c w [Hw He]. split; [|done]. split; [done|]. intros x [= <-]. done. }
  intros x. apply (hoare_assume _ (x = Some es)); [naive_solver|]. intros ->. apply (hoare_from _ P); [by intros w []|].
  destruct (decide _) as [_|Hne].
  { apply hoare_ret. intros w Hw. split; [by left|]. intros oc [= <-]. left. by eauto. }
  eapply hoare_seq; [apply (associate_all_claims macs [] t 0); [by intros w Hw|done]| |by intros e w [Hw _]; split; [left|]].
  intros [oc|[txn k]].
  - apply (hoare_assume _ (∃ cause, oc = transition here (Error cause))); [intros w [_ H]; by apply (H (inl oc))|]. intros Hoc.
    apply hoare_ret. intros w [Hw _]. split; [by left|]. intros ? [= <-]. left. by split.
  - apply (hoare_assume _ (∃ t2, makes txn t2 ∧ claimed macs (k - 0) t t2)); [intros w [_ H]; by apply (H (inr (txn, k)))|].
    intros (t2 & Ht & Hc & Ho & Hk & Hz). rewrite Z.sub_0_r in Hk, Hz. apply (hoare_from _ P); [by intros w []|].
    eapply (hoare_seq _ _ _ _ (λ r w, (interfaces w = t ∨ interfaces w = t2) ∧ (r = Ok () → interfaces w = t2))).
    + apply (hoare_rely _ _ P); [done| |by intros w why Hw; split; [left|]|by intros w Hw; split; [left|]].
      intros c w Hw. cbn [snd]. rewrite (Ht w Hw). split; [split; [by right|done]|]. intros why. split; [by right|done].
    + intros []. apply (hoare_from _ (λ w, interfaces w = t2)); [intros w [_ H]; by apply H|].
      destruct (Z.leb_spec 1 k) as [H1|H0]; apply hoare_ret; intros w ->; (split; [by right|]); intros oc [= <-]; right.
      * right. split; [done|]. split; [done|].
        destruct (decide (Exists (λ m, present m t) macs)) as [Hex|Hno].
        { apply Exists_exists in Hex as (m & Hm & Hp). exists m. split; [done|]. by apply (claims_present macs m t t2). }
        exfalso. assert (k = 0); [|lia]. apply Hz. intros m Hm Hp. apply Hno, Exists_exists. eauto.
      * left. assert (k = 0) as -> by lia. pose proof (proj1 Hz eq_refl) as Hnone. split; [by eauto|].
        split; [by apply (claims_nothing macs)|done].
    + intros e w [[Hw|Hw] _]; (split; [|done]); [by left|right; by rewrite Hw].
Qed.

End Interfaces.
