(* ===== verification/SwitchReprovisioning.v ===== *)
(** * Reprovisioning of a switch by its rack

    [switch-controller/src/reprovisioning.rs]: the phases that a request asks for are passed
    one after the other, each in a state of the controller that waits for a report of the
    rack.  [verdict] is the result of the reports in one step; the runs of the controller
    arrive at it, one for each phase. *)

From S2P Require Import Prelude ConfigVersion StateHistory StateHandler ControllerIO ProcessObject ControllerTable PowerShelfTable.
From S2P Require Import Credentials CredentialRotation SwitchTable Calls RotationWorld HandlerRuns RotationEngine SitePause NvosRotation.
From S2P Require Import SwitchController SwitchControllerFacts SwitchPasswords SwitchRuns.

(** ** Phases and reports *)

(** The activity that a phase waits for *)
Definition activity_of (st : ReProvisioningState) : MaintenanceActivity :=
  match st with
  | WaitingForRackFirmwareUpgrade => FirmwareUpgrade None [] false
  | WaitingForNVOSUpgrade => NvosUpdate EmptyString
  | WaitingForNMXCConfigure => ConfigureNmxCluster
  end.

(** The phases of a request, in order *)
Definition phases (req : SwitchReprovisionRequest) : list ReProvisioningState :=
  filter (λ st, should_run (srr_activities req) (activity_of st) = true)
    [WaitingForRackFirmwareUpgrade; WaitingForNVOSUpgrade; WaitingForNMXCConfigure].

(** What the reports say about a phase: nothing yet, or its end, with the cause if it failed.
    The reports on firmware and NVOS count for the request if they began or ended no earlier
    than it; the status of the fabric manager carries no time. *)
Inductive Report := NotYet | Passed | FailedWith (cause : string).

Definition report (req : SwitchReprovisionRequest) (s : Switch) (st : ReProvisioningState) : Report :=
  match st with
  | WaitingForRackFirmwareUpgrade =>
      match sw_firmware_upgrade_status s with
      | Some f => if is_current_for f (srr_requested_at req) then
                    match upgrade_state f with UpgradeCompleted => Passed | UpgradeFailed c => FailedWith c | _ => NotYet end
                  else NotYet
      | None => NotYet
      end
  | WaitingForNVOSUpgrade =>
      match sw_nvos_update_status s with
      | Some f => if nvos_is_current_for f (srr_requested_at req) then
                    match nvos_state f with NvosCompleted => Passed | NvosFailed c => FailedWith c | _ => NotYet end
                  else NotYet
      | None => NotYet
      end
  | WaitingForNMXCConfigure =>
      match sw_fabric_manager_status s with
      | Some f => if is_control_plane_configured f then Passed
                  else match fm_error_message f with Some c => FailedWith c | None => NotYet end
      | None => NotYet
      end
  end.

(** The phases that are visited: up to the first that failed *)
Fixpoint visited (req : SwitchReprovisionRequest) (s : Switch) (l : list ReProvisioningState) : nat :=
  match l with
  | [] => 0
  | st :: l => match report req s st with Passed => S (visited req s l) | _ => 1 end
  end.

Lemma visited_cons req s st l : visited req s (st :: l) = match report req s st with Passed => S (visited req s l) | _ => 1%nat end.
Proof. done. Qed.

(** The state in which the reports leave the switch, once they are complete *)
Fixpoint verdict (req : SwitchReprovisionRequest) (s : Switch) (l : list ReProvisioningState) : option SwitchControllerState :=
  match l with
  | [] => Some Ready
  | st :: l =>
      match report req s st with
      | NotYet => None
      | Passed => verdict req s l
      | FailedWith cause => Some (Error cause)
      end
  end.

Definition rest_of (req : SwitchReprovisionRequest) (st : ReProvisioningState) : list ReProvisioningState :=
  filter (λ st, should_run (srr_activities req) (activity_of st) = true)
    match st with
    | WaitingForRackFirmwareUpgrade => [WaitingForNVOSUpgrade; WaitingForNMXCConfigure]
    | WaitingForNVOSUpgrade => [WaitingForNMXCConfigure]
    | WaitingForNMXCConfigure => []
    end.

(** The code finds the phases one by one. *)
Lemma first_is_head req : first_reprovisioning_state req = head (phases req).
Proof.
  unfold first_reprovisioning_state, firmware_upgrade_requested, nvos_update_requested, configure_nmx_cluster_requested, phases.
  rewrite !filter_cons, filter_nil. cbn [activity_of]. repeat case_match; repeat case_decide; congruence || done.
Qed.

Lemma firmware_next req : next_state_after_firmware req = head (rest_of req WaitingForRackFirmwareUpgrade).
Proof.
  unfold next_state_after_firmware, nvos_update_requested, configure_nmx_cluster_requested, rest_of.
  rewrite !filter_cons, filter_nil. cbn [activity_of]. repeat case_match; repeat case_decide; congruence || done.
Qed.

Lemma nvos_next req : next_state_after_nvos req = head (rest_of req WaitingForNVOSUpgrade).
Proof.
  unfold next_state_after_nvos, configure_nmx_cluster_requested, rest_of.
  rewrite !filter_cons, filter_nil. cbn [activity_of]. repeat case_match; repeat case_decide; congruence || done.
Qed.

Lemma phases_rest req st l : phases req = st :: l → l = rest_of req st.
Proof.
  unfold phases, rest_of. rewrite !filter_cons, !filter_nil. repeat case_decide; intros [= <- <-]; rewrite ?filter_cons, ?filter_nil;
    repeat case_decide; done.
Qed.

Lemma rest_rest req st st' l : rest_of req st = st' :: l → l = rest_of req st'.
Proof.
  unfold rest_of. destruct st; rewrite ?filter_cons, ?filter_nil; repeat case_decide; intros [= <- <-];
    rewrite ?filter_cons, ?filter_nil; repeat case_decide; done.
Qed.

Section Reprovisioning.
Context (svc : SwitchStateHandlerServices) (here : Location) (o : string) (t0 : Z).

Notation runs_to := (runs_to svc here o t0).

(** [k] runs in which nothing fails, one after the other, end with [Q]. *)
Fixpoint after (k : nat) (Q : World → Prop) (w : World) : Prop :=
  match k with
  | O => Q w
  | S k => ∀ w', runs_to w w' → after k Q w'
  end.

Definition at_row (n : SwitchControllerState) (s : Switch) (w : World) : Prop := ∃ row,
  rows (switch_rows w) !! o = Some row ∧ value (row_state row) = n ∧ row_object row = s.

(** The rack of the switch has not failed. *)
Definition rack_alive (s : Switch) (w : World) : Prop :=
  ∀ rack cause, sw_rack_id s = Some rack → racks w !! rack ≠ Some (RackError cause).

(** The transaction that clears the request, and a run that ends with it *)
Definition clears (txn : Txn) : Prop := ∀ w, in_txn txn w = set_switch_rows (clear_switch_reprovisioning_requested o (switch_rows w)) w.

Lemma clear_runs oc w : runs t0 w (clear_reprovisioning o oc) (λ r w', w' = w ∧ ∃ txn, r = attach_txn txn oc ∧ clears txn).
Proof using Type.
  unfold clear_reprovisioning. eapply (runs_bind _ _ _ _ (λ t w', w' = w ∧ t = [])); [by eapply runs_read|]. intros t w' [-> ->].
  eapply (runs_bind _ _ _ _ (λ t w', w' = w ∧ clears t)); [|intros t w' [-> Ht]; apply runs_ret; by eauto].
  apply runs_call. intros now _. eexists _, _. split; [done|]. split; [done|]. intros w1. done.
Qed.

Lemma moves_after Q k n s cs w : at_row cs s w →
  (∀ cache, runs t0 w (attempt_state_transition svc here o s cs cache) (λ r w', w' = w ∧ r.1 = transition here n)) →
  (∀ w', at_row n s w' → racks w' = racks w → after k Q w') → after (S k) Q w.
Proof using Type.
  intros (row & Hrow & <- & <-) Hm Hnext ? (clk & cache & sc & Hsc & ->).
  destruct (run_commits svc here o t0 clk cache w sc row _ Hsc Hrow (Hm cache)) as ([oc c] & s & now & [-> Hoc] & ->).
  simpl in Hoc |- *. subst oc.
  apply Hnext; [|by apply (commit_keeps switch_rows set_switch_rows switch_state_sla o (λ w', racks w' = racks w)); [..|intros oc [= <-]]].
  pose proof (commit_row switch_rows set_switch_rows switch_state_sla o (λ t w, eq_refl) clk (row_state row) n here None row now w Hrow eq_refl) as Hc.
  unfold at_row, commit_outcome. change (transition here n) with (Transition n here (None : option Txn)).
  destruct (rows (switch_rows (commit_run _ _ _ _ _ _ _ _ _)) !! o) as [r|]; [|done].
  injection Hc as Hs Ho. exists r. by rewrite Hs, Ho.
Qed.

Lemma clears_after n s cs w : at_row cs s w →
  (∀ cache, runs t0 w (attempt_state_transition svc here o s cs cache) (λ r w',
     w' = w ∧ ∃ txn, r.1 = attach_txn txn (transition here n) ∧ clears txn)) →
  after 1 (at_row n (set_reprovisioning None s)) w.
Proof using Type.
  intros (row & Hrow & <- & <-) Hm ? (clk & cache & sc & Hsc & ->).
  destruct (run_commits svc here o t0 clk cache w sc row _ Hsc Hrow (Hm cache)) as ([oc c] & s & now & [-> (txn & Hoc & Ht)] & ->).
  simpl in Hoc |- *. subst oc.
  pose proof (commit_row switch_rows set_switch_rows switch_state_sla o (λ t w, eq_refl) clk (row_state row) n here (Some txn)
    (mk_row (row_state row) (row_outcome row) (set_reprovisioning None (row_object row))) now w) as Hc.
  cbn [default] in Hc. rewrite Ht in Hc. specialize (Hc ltac:(simpl; by rewrite lookup_alter_eq, Hrow) eq_refl).
  unfold at_row, commit_outcome. change (attach_txn txn (transition here n)) with (Transition n here (Some txn)).
  destruct (rows (switch_rows (commit_run _ _ _ _ _ _ _ _ _)) !! o) as [r|]; [|done].
  injection Hc as Hs Ho. exists r. by rewrite Hs, Ho.
Qed.

(** What the handler of a phase returns when the phase is over *)
Definition answers (req : SwitchReprovisionRequest) (s : Switch) (st : ReProvisioningState) (oc : Outcome) : Prop :=
  match report req s st, rest_of req st with
  | NotYet, _ => True
  | Passed, st' :: _ => oc = transition here (ReProvisioning st')
  | Passed, [] => ∃ txn, oc = attach_txn txn (transition here Ready) ∧ clears txn
  | FailedWith cause, _ => ∃ txn, oc = attach_txn txn (transition here (Error cause)) ∧ clears txn
  end.

Lemma completed_runs next w : runs t0 w (phase_completed here o next) (λ oc w', w' = w ∧
  match next with Some st => oc = transition here (ReProvisioning st) | None => ∃ txn, oc = attach_txn txn (transition here Ready) ∧ clears txn end).
Proof using Type. destruct next; [by apply runs_ret|apply clear_runs]. Qed.

Lemma abort_runs s w : rack_alive s w → runs t0 w (rack_failed_abort_outcome here o s) (λ r w', w' = w ∧ r = None).
Proof using Type.
  intros Ha. unfold rack_failed_abort_outcome. destruct (negb _); [by apply runs_ret|].
  destruct (sw_rack_id s) as [rack|] eqn:Er; [|by apply runs_ret].
  eapply (runs_bind _ _ _ _ (λ x w', w' = w ∧ x = racks w !! rack)); [by eapply runs_read|]. intros x w' [-> ->].
  destruct (racks w !! rack) as [[]|] eqn:E; try by apply runs_ret. by destruct (Ha rack _ Er E).
Qed.

Lemma phase_runs req s st w : sw_reprovisioning_requested s = Some req → rack_alive s w → report req s st ≠ NotYet →
  runs t0 w (handle_reprovisioning here o s st) (λ oc w', w' = w ∧ answers req s st oc).
Proof using Type.
  intros Hreq Ha Hyet. unfold handle_reprovisioning. eapply runs_bind; [by apply abort_runs|]. intros r w' [-> ->].
  assert (Hfail : ∀ c, report req s st = FailedWith c →
    runs t0 w (clear_reprovisioning o (transition here (Error c))) (λ oc w', w' = w ∧ answers req s st oc)).
  { intros c Hr. eapply runs_weaken; [apply clear_runs|]. unfold answers. rewrite Hr. done. }
  assert (Hpass : ∀ next, report req s st = Passed → next = head (rest_of req st) →
    runs t0 w (phase_completed here o next) (λ oc w', w' = w ∧ answers req s st oc)).
  { intros next Hr ->. eapply runs_weaken; [apply completed_runs|]. unfold answers. rewrite Hr. by destruct (rest_of req st). }
  rewrite Hreq. destruct st; unfold report in *.
  - destruct (sw_firmware_upgrade_status s) as [f|]; [|done]. destruct (is_current_for f _); [|done].
    cbn [negb]. unfold is_terminal. destruct (upgrade_state f); cbn [negb]; try done; [by apply Hpass; [|apply firmware_next]|by apply Hfail].
  - destruct (sw_nvos_update_status s) as [f|]; [|done]. destruct (nvos_is_current_for f _); [|done].
    cbn [negb]. unfold nvos_is_terminal. destruct (nvos_state f); cbn [negb]; try done; [by apply Hpass; [|apply nvos_next]|by apply Hfail].
  - destruct (sw_fabric_manager_status s) as [f|]; [|done]. unfold display_status.
    destruct (is_control_plane_configured f); [by apply (Hpass None)|]. rewrite decide_False by done.
    destruct (fm_error_message f) as [c|]; [by apply Hfail|done].
Qed.

Lemma phases_after req n l : ∀ s st w, l = rest_of req st → sw_reprovisioning_requested s = Some req → rack_alive s w →
  verdict req s (st :: l) = Some n → at_row (ReProvisioning st) s w →
  after (visited req s (st :: l)) (at_row n (set_reprovisioning None s)) w.
Proof using Type.
  induction l as [|st' l IH]; intros s st w Hl Hreq Ha Hv Hat.
  all: assert (report req s st ≠ NotYet) as Hyet by (cbn [verdict] in Hv; by destruct (report req s st)).
  all: assert (∀ cache, runs t0 w (attempt_state_transition svc here o s (ReProvisioning st) cache)
    (λ r w', w' = w ∧ answers req s st r.1)) as Hrun
    by (intros cache; cbn [attempt_state_transition]; eapply runs_bind; [by apply phase_runs|]; intros oc w' [-> Ho]; by apply runs_ret).
  all: cbn [verdict] in Hv; unfold answers in Hrun; rewrite <-Hl in Hrun; rewrite visited_cons;
    destruct (report req s st) as [| |c] eqn:Er; try done.
  all: try (injection Hv as <-; by eapply clears_after; [exact Hat|exact Hrun]).
  eapply moves_after; [exact Hat|exact Hrun|]. intros w' Hw' Hr. apply (IH s st' w'); try done.
  - by apply (rest_rest req st).
  - unfold rack_alive. by rewrite Hr.
Qed.

(** C8: A request of the rack is carried out phase by phase.  Take a switch in [Ready] that is
    neither deleted nor asked for maintenance, with a request of its rack for at least one
    phase, whose rack has not failed, and reports that decide it: the reports on the
    upgrade of the firmware and of NVOS, which count if they began or ended no earlier than
    the request, and the status of the fabric manager, which carries no time.  Then one run enters the first
    of the phases that the request asks for, all of them if it names none, and one further
    run for each phase, up to the first that failed, ends in the state that the reports
    amount to by [verdict]: in [Ready] if all phases have passed, otherwise in [Error] with
    the cause of the failure; and the request is cleared.  Nothing fails in these runs and
    nothing else happens between them. *)
Theorem reprovisioning_completes req s n w : at_row Ready s w →
  is_marked_as_deleted s = false → sw_maintenance_requested s = None →
  sw_reprovisioning_requested s = Some req → rack_initiated (srr_initiator req) = true →
  phases req ≠ [] → rack_alive s w → verdict req s (phases req) = Some n →
  after (1 + visited req s (phases req)) (at_row n (set_reprovisioning None s)) w.
Proof using Type.
  intros Hat Hd Hm Hreq Hrack Hne Ha Hv. destruct (phases req) as [|st l] eqn:Ep; [done|].
  eapply (moves_after _ _ (ReProvisioning st)); [exact Hat| |].
  - intros cache. cbn [attempt_state_transition]. unfold handle_ready. rewrite Hd, Hm, Hreq, Hrack, first_is_head, Ep. by apply runs_ret.
  - intros w' Hw' Hr. apply phases_after; try done; [by apply phases_rest|]. unfold rack_alive. by rewrite Hr.
Qed.

End Reprovisioning.
