(* ===== verification/SwitchDemo.v ===== *)
(** * A switch under its controller

    The RMS backend as component manager of the switch controller; a concrete site, on which
    the theorems about the controller apply; and a switch that the withdrawal of a request
    strands. *)

From S2P Require Import Prelude ConfigVersion StateHistory StateHandler ControllerIO ProcessObject ControllerTable PowerShelfTable.
From S2P Require Import RmsNodeIdentity Credentials RotationWorld CredentialRotation SwitchTable Calls HandlerRuns RotationEngine SitePause.
From S2P Require Import NvosRotation NvosRotationFacts NvosRotationRuns NvosRotationDemo RmsBackend RmsBackendFacts.
From S2P Require Import SwitchController SwitchControllerFacts SwitchPasswords SwitchRuns SwitchInterfaces SwitchReprovisioning.

(** ** The RMS backend as component manager *)

Section Rms.
Context `{RmsApi World} (rack_profiles : gmap string RackProfile) (enabled : bool) (switch_of : string → string).

(** The result of an operation of the backend, and the world after it; the operations on
    switches do not look at the tracked jobs. *)
Definition on_world {A} (m : rms World A) (w : World) : result ComponentManagerError A * World :=
  let '(r, b) := m (mk_backend ∅ w) in (r, service b).

Definition rms_component_manager : ComponentManager :=
  mk_component_manager (rms_manager rack_profiles enabled)
    (λ ep action, on_world (switch_power_control rack_profiles [ep] action))
    (λ ep domain services, on_world (rms_backend_configure_switch_certificate rack_profiles ep domain services))
    (λ j w, (on_world (rms_get_configure_switch_certificate_job_status j) w).1)
    (λ ep w, (on_world (RmsBackend.get_slot_and_tray rack_profiles [ep]) w).1).

(** Power control and certificates of the service concern devices, not passwords. *)
Class ServiceOnDevices : Prop := {
  service_power devices op w : ∃ f, rtc backend_step (fabric w) f ∧ (batch_set_power_state devices op w).2 = set_fabric f w;
  service_certificate devices l d w : ∃ f, rtc backend_step (fabric w) f ∧
    (RmsBackend.configure_switch_certificate devices l d w).2 = set_fabric f w;
}.

(** A program of the backend that does nothing else *)
Definition on_devices {A} (m : rms World A) : Prop := ∀ b, ∃ f, rtc backend_step (fabric (service b)) f ∧
  service (m b).2 = set_fabric f (service b).

Lemma set_same_fabric w : set_fabric (fabric w) w = w.
Proof using Type. by destruct w. Qed.

Lemma quiet_on_devices {A} (m : rms World A) : (∀ b, service (m b).2 = service b) → on_devices m.
Proof using Type. intros Hm b. exists (fabric (service b)). by rewrite Hm, set_same_fabric. Qed.

Lemma on_devices_bind {A B} (m : rms World A) (f : A → rms World B) :
  on_devices m → (∀ a, on_devices (f a)) → on_devices (m ≫= f).
Proof using Type.
  intros Hm Hf b. destruct (Hm b) as (f1 & H1 & E1). unfold mbind, rms_bind. destruct (m b) as [[a|e] b1]; simpl in E1; [|by eauto].
  destruct (Hf a b1) as (f2 & H2 & E2). exists f2. rewrite E2. rewrite E1 in H2 |- *. split; [by etrans|done].
Qed.

Lemma on_devices_from {E A} (g : E → ComponentManagerError) (r : result E A) : on_devices (from_result g r).
Proof using Type. apply quiet_on_devices. by destruct r. Qed.

Lemma lookup_on_devices {A} (m : rms World A) : lookup_only m → on_devices m.
Proof using Type. intros Hm. apply quiet_on_devices. intros b. by destruct (Hm b) as [[a ->]|[t ->]]. Qed.

Lemma each_on_devices {A B} (g : A → B → rms World B) l acc : (∀ a acc, on_devices (g a acc)) → on_devices (for_each g l acc).
Proof using Type.
  intros Hg. revert acc. induction l as [|a l IH]; intros acc; cbn [for_each]; [by apply quiet_on_devices|].
  apply on_devices_bind; [done|]. intros acc'. apply IH.
Qed.

Lemma rms_device_backend `{!ServiceOnDevices, !ServiceTruthful switch_of} : DeviceBackend rms_component_manager.
Proof using Type.
  assert (Hw : ∀ A (m : rms World A) w, on_devices m → ∃ f, rtc backend_step (fabric w) f ∧ (on_world m w).2 = set_fabric f w).
  { intros A m w Hm. unfold on_world. specialize (Hm (mk_backend ∅ w)). by destruct (m _). }
  assert (Hs : ∀ E A (g : World → result E A * World), (∀ w, ∃ f, rtc backend_step (fabric w) f ∧ (g w).2 = set_fabric f w) → on_devices (send g)).
  { intros E A g Hg b. unfold send. specialize (Hg (service b)). by destruct (g (service b)). }
  split.
  - intros ep a w. apply Hw. unfold switch_power_control. apply on_devices_bind; [by apply lookup_on_devices, lookup_from|]. intros ids.
    apply on_devices_bind; [by apply lookup_on_devices, lookup_hostnames|]. intros hs. apply each_on_devices. intros e acc.
    unfold power_control_one. case_match; [|by apply quiet_on_devices].
    apply on_devices_bind; [apply Hs, service_power|]. intros [a'|]; [destruct (summarize_power_batch _)|]; by apply quiet_on_devices.
  - intros ep d l w. apply Hw. unfold rms_backend_configure_switch_certificate.
    apply on_devices_bind; [by apply lookup_on_devices, resolved_switch_only|]. intros [resolved hs].
    unfold rms_configure_switch_certificate. apply on_devices_bind; [apply Hs, service_certificate|]. intros r.
    apply on_devices_bind; [apply on_devices_from|]. intros response.
    destruct (summarize_configure_switch_certificate_response _ _) as [[ok e] j]. destruct ok; [apply on_devices_from|by apply quiet_on_devices].
  - intros ep next w. simpl nv_switch.
    destruct (ensure_password_rotation (NvSwitchManager := rms_manager rack_profiles enabled) ep next w) as [r w'] eqn:E.
    pose proof (rms_submissions rack_profiles enabled switch_of _ _ _ _ _ E) as Hr. simpl.
    assert (w' = w ∨ ∃ oj f, accepted (request_of ep next) (fabric w) oj f ∧ w' = set_fabric f w) as [->|(oj & f & _ & ->)]
      by (destruct r as [j|[]]; try (by left); [destruct Hr as (f & ? & ?); eauto|done]).
    + exists (fabric w). by rewrite set_same_fabric.
    + by exists f.
Qed.

End Rms.

(** ** A site *)

Definition somewhere : Location := mk_location "handler.rs" 1.
Definition clock7 : Clock := mk_clock 7 7 7 7 7 0.
Definition cold : CachedAggregate := mk_cache None false.

(** A component manager whose operations succeed *)
Definition demo_component_manager : ComponentManager :=
  mk_component_manager demo_manager
    (λ ep _ w, (Ok [mk_component_result (ep_bmc_mac ep) true None], w))
    (λ _ _ _ w, (Ok "cert-1"%string, w))
    (λ _ _, Ok (CertificateCompleted, None))
    (λ ep _, Ok [mk_slot_result (ep_bmc_mac ep) (Some 3) (Some 1) None]).

#[export] Instance demo_devices : DeviceBackend demo_component_manager.
Proof.
  split.
  - intros ep a w. exists (fabric w). by rewrite set_same_fabric.
  - intros ep d l w. exists (fabric w). by rewrite set_same_fabric.
  - intros ep next w. by eexists.
Qed.

Definition switch_services : SwitchStateHandlerServices := mk_services (Some demo_component_manager) [] (mk_gate 60 Bmc) false.

Definition demo_switch : Switch :=
  SwitchTable.mk_switch None (Some demo_mac) None false None None None None None (Some "r1"%string) None None.

(** The switch in a state, where the target of the site is its first *)
Definition switch_in (cs : SwitchControllerState) (s : Switch) : World :=
  set_switch_rows (mk_table {["sw"%string := mk_row (mk_versioned cs (initial 0)) None s]} empty_log) (demo_world 0).

Definition switch_run (w : World) (sc : script World) : result (stop StateHandlerError) CachedAggregate * (World * script World) :=
  run switch_services somewhere "sw" clock7 cold w sc.

Lemma switch_transitions_witness :
  let cs := mk_versioned Ready (initial 0) in
  let w' := (switch_run (switch_in Ready demo_switch) (script_of [])).2.1 in
  state_of "sw" w' = Some cs ∨ (∃ n, edge Ready n = true ∧ state_of "sw" w' = moved clock7 cs n) ∨ Ready = Deleting ∧ state_of "sw" w' = None.
Proof.
  apply (switch_transitions switch_services somewhere "sw" clock7 cold
    ltac:(intros cm [= <-]; exact demo_devices) (mk_versioned Ready (initial 0)) (switch_in Ready demo_switch) (script_of [])).
  - apply script_of_all; [done|constructor].
  - reflexivity.
Defined.

Lemma switch_recoverable cs s : os_recoverable demo_mac "sw" "admin" demo_pw (Some demo_expected) (switch_in cs s).
Proof. eapply same_recoverable; [exact demo_pw_inj| |apply (demo_os_recoverable 0)]. by split. Qed.

Lemma switch_lets_refl w : switch_lets demo_mac "sw" demo_pw w w.
Proof. split; [apply os_lets_refl|done|done]. Qed.

Lemma switch_applies r w : switch_lets demo_mac "sw" demo_pw w (applies r w).
Proof. split; [apply applies_lets|by unfold applies; case_decide..]. Qed.

(** The process dies while it records the job; the backend has changed the password. *)
Definition switch_death : script World := script_of (repeat quiet 18 ++ [mk_step (applies demo_request) Dies 0]).

Lemma switch_passwords_safe_witness :
  let w := switch_in (Configuring RotateOsPassword) demo_switch in
  let w' := (switch_run w switch_death).2.1 in
  switch_os (fabric w') !! demo_mac = Some (UsernamePassword "admin" (demo_pw 0)) ∧
  os_recoverable demo_mac "sw" "admin" demo_pw (Some demo_expected) w'.
Proof.
  split; [vm_compute; reflexivity|].
  refine (proj1 (switch_passwords_safe demo_mac "sw" "admin" demo_pw (Some demo_expected) eq_refl ltac:(discriminate) ltac:(discriminate)
    demo_pw_inj demo_pw_some switch_services somewhere clock7 cold demo_component_manager eq_refl (HB := demo_backend) (HC := demo_clean)
    eq_refl (mk_versioned (Configuring RotateOsPassword) (initial 0)) (switch_in (Configuring RotateOsPassword) demo_switch) switch_death
    _ (switch_recoverable _ _) eq_refl eq_refl)).
  apply script_of_all; [by intros s; apply switch_lets_refl|]. cbn [repeat app].
  repeat (apply Forall_cons_2; [intros s; first [apply switch_lets_refl|apply switch_applies]|]). constructor.
Defined.

Lemma switch_catches_up_witness :
  leads switch_services somewhere "sw" 0 (λ w', os_settled demo_mac "admin" demo_pw 0 w' ∧ at_state "sw" demo_mac Ready w')
    (switch_in Ready demo_switch) ∧
  ∀ tr, execution switch_services somewhere "sw" 0 tr → tr 0%nat = switch_in Ready demo_switch →
    ∃ k, os_settled demo_mac "admin" demo_pw 0 (tr k) ∧ at_state "sw" demo_mac Ready (tr k).
Proof.
  refine (switch_catches_up demo_mac "sw" "admin" demo_pw (Some demo_expected) 0 eq_refl ltac:(discriminate) ltac:(discriminate)
    demo_pw_inj demo_pw_some switch_services somewhere demo_component_manager eq_refl (HB := demo_backend) (HC := demo_clean)
    (HR := demo_responding demo_mac) (HK := demo_keeps) eq_refl 0 (switch_in Ready demo_switch) _ (switch_recoverable _ _) _ _ _ _ _ eq_refl eq_refl eq_refl _).
  - eexists. split; [reflexivity|]. by eexists.
  - eapply same_serviceable; [|exact demo_serviceable]. by split.
  - by intros r Hr.
  - left. by eexists.
  - right. vm_compute. reflexivity.
  - by split_and!.
Defined.

(** ** Interfaces *)

Definition free_interface : Interface := mk_interface "if-1" "0c:0d" None.
Definition other_interface : Interface := mk_interface "if-2" "0c:0e" (Some (ToSwitch "other")).
Definition listing (macs : list string) : ExpectedSwitch := mk_expected (Some "admin"%string) (Some (demo_pw (-1))) macs.

Definition booting (macs : list string) : World :=
  let w := set_interfaces [free_interface; other_interface] (switch_in (Initializing WaitForOsMachineInterface) demo_switch) in
  set_rot (mk_rotation_db (sitewide (rot w)) (devices (rot w)) (switches (rot w)) {[demo_mac := listing macs]}) w.

(** The connection is lost with the commit, after it has taken effect. *)
Definition lost_commit : script World := script_of (repeat quiet 5 ++ [mk_step (λ w, w) (FailsAfter "connection reset") 0]).

Lemma interfaces_claimed_witness :
  let macs := ["0c:0d"; "0c:0f"]%string in
  let w' := (handle_wait_for_os_machine_interface somewhere "sw" demo_switch (booting macs) lost_commit).2.1 in
  interfaces w' = [mk_interface "if-1" "0c:0d" (Some (ToSwitch "sw")); other_interface] ∧
  (interfaces w' = interfaces (booting macs) ∨
   claims "sw" macs (interfaces (booting macs)) (interfaces w') ∧ ∀ m, m ∈ macs → owned "sw" m (interfaces w')).
Proof.
  split; [vm_compute; reflexivity|].
  refine (proj1 (proj2 (interfaces_claimed somewhere "sw" [free_interface; other_interface] demo_mac demo_switch
    (listing ["0c:0d"; "0c:0f"]%string) _ eq_refl (booting ["0c:0d"; "0c:0f"]%string) lost_commit _ _))).
  - simpl. repeat constructor; set_solver.
  - apply script_of_all; [by intros w|]. simpl. by repeat constructor.
  - done.
Defined.

(** The interface of another switch is not taken, and then none is. *)
Lemma taken_interface_kept :
  let w := booting ["0c:0d"; "0c:0e"]%string in
  let w' := (switch_run w (script_of [])).2.1 in
  interfaces w' = interfaces w ∧ value <$> state_of "sw" w' = Some (Error "NVOS MAC 0c:0e already associated with switch other").
Proof. vm_compute. done. Qed.

(** ** Reprovisioning *)

Definition rack_request : SwitchReprovisionRequest := mk_switch_reprovision 5 "rack-r1" [].
Definition reported (f : FabricManagerStatus) : Switch :=
  set_fabric_manager (Some f)
    (set_nvos (Some (mk_nvos_status "t2" "fw" "nvos.bin" NvosCompleted (Some 7) (Some 8)))
       (set_firmware (Some (mk_upgrade_status "t1" UpgradeCompleted (Some 6) (Some 7)))
          (set_reprovisioning (Some rack_request) demo_switch))).
Definition running : FabricManagerStatus := mk_fabric_status FabricOk (Some CONTROL_PLANE_STATE_CONFIGURED) None None.

(** Four runs: into the first phase, and one for each of the three *)
Lemma reprovisioning_completes_witness :
  after switch_services somewhere "sw" 0 4 (at_row "sw" Ready (set_reprovisioning None (reported running))) (switch_in Ready (reported running)).
Proof.
  apply (reprovisioning_completes switch_services somewhere "sw" 0 rack_request (reported running) Ready).
  - eexists. split_and!; reflexivity.
  - reflexivity.
  - reflexivity.
  - reflexivity.
  - reflexivity.
  - vm_compute. discriminate.
  - intros rack cause _. vm_compute. discriminate.
  - vm_compute. reflexivity.
Defined.

(** A fabric manager that does not run, and says why, ends the phase as if it ran; one that
    says nothing, in an empty text, is waited for. *)
Lemma idle_fabric_manager_passes :
  let idle reason := reported (mk_fabric_status FabricNotOk None (Some reason) None) in
  let phase s := value <$> state_of "sw" (switch_run (switch_in (ReProvisioning WaitingForNMXCConfigure) s) (script_of [])).2.1 in
  report rack_request (idle "nmx-controller is down"%string) WaitingForNMXCConfigure = NotYet ∧
  phase (idle "nmx-controller is down"%string) = Some Ready ∧
  phase (idle EmptyString) = Some (ReProvisioning WaitingForNMXCConfigure).
Proof. vm_compute. done. Qed.

(** ** A location that is lost *)

Definition blind_manager : ComponentManager :=
  mk_component_manager demo_manager (power_control demo_component_manager) (configure_switch_certificate demo_component_manager)
    (get_configure_switch_certificate_job_status demo_component_manager)
    (λ ep _, Ok [mk_slot_result (ep_bmc_mac ep) None None (Some "RMS is busy"%string)]).

(** An answer that says that the location could not be read erases the one that is known. *)
Lemma failed_lookup_erases_location :
  let svc := mk_services (Some blind_manager) [] (mk_gate 60 Bmc) false in
  let w := switch_in FetchInfo (set_location (Some 3) (Some 1) demo_switch) in
  let w := set_store (<[path (SwitchNvosAdmin demo_mac) := UsernamePassword "admin" (demo_pw (-1))]> (store w)) w in
  let w' := (run svc somewhere "sw" clock7 cold w (script_of [])).2.1 in
  value <$> state_of "sw" w' = Some (Validating ValidationComplete) ∧
  (λ r, (sw_slot_number (row_object r), sw_tray_index (row_object r))) <$> rows (switch_rows w') !! "sw"%string = Some (None, None).
Proof. vm_compute. done. Qed.

(** ** A request that is withdrawn during a run *)

Definition rack_withdraws (initiator : string) (w : World) : World :=
  set_switch_rows (clear_ready_switch_reprovisioning_requested "sw" initiator (switch_rows w)).2 w.

(** The rack takes its request back after a run has read it; the transition is stored all
    the same, and from then on every run on the switch panics. *)
Lemma switch_strands :
  let w := switch_in Ready (set_reprovisioning (Some rack_request) demo_switch) in
  let w1 := (switch_run w (script_of [mk_step id Works 0; mk_step (rack_withdraws "rack-r1") Works 0])).2.1 in
  value <$> state_of "sw" w1 = Some (ReProvisioning WaitingForRackFirmwareUpgrade) ∧
  (switch_run w1 (script_of [])).1 = Err Crashed ∧ (switch_run w1 (script_of [])).2.1 = w1.
Proof. vm_compute. done. Qed.

(** ** The credentials of the BMC *)

(** The endpoint that certificates and locations are requested with has the credentials of
    the operating system in the place of those of the BMC; the one for power has both. *)
Lemma endpoint_credentials_differ :
  let secret := UsernamePassword "root" "bmc" in
  let admin := UsernamePassword "admin" (demo_pw (-1)) in
  let w := switch_in Ready demo_switch in
  let w := set_store (<[path (BmcCredentials (BmcRoot demo_mac)) := secret]> (<[path (SwitchNvosAdmin demo_mac) := admin]> (store w))) w in
  ep_bmc_credentials <$> (resolve_switch_endpoint "sw" w (script_of [])).1 = Ok admin ∧
  ep_bmc_credentials <$> (build_switch_endpoint "sw" demo_switch w (script_of [])).1 = Ok secret.
Proof. vm_compute. done. Qed.
