(* ===== verification/PowerShelf.v ===== *)
(** * The power shelf controller

    [power-shelf-controller/src/*.rs]: the handlers of the controller states of a power
    shelf, and a run of the state processor on one shelf.  The handlers call the database
    outside of transactions, the rotation engine, the secret store and the component
    manager; others act between the calls, which fail as the script says.  Log texts are
    left out. *)

From S2P Require Import Prelude ConfigVersion StateHistory StateHandler ControllerIO ProcessObject ControllerTable PowerShelfTable.
From S2P Require Import Credentials CredentialRotation Calls RotationWorld HandlerRuns RotationEngine SitePause.

Definition on_shelves : (shelf_table → result string shelf_table) → Txn → handler Txn := on_table power_shelves set_power_shelves.

Notation Outcome := (StateHandlerOutcome Txn PowerShelfControllerState).

(** ** Services *)

(** [PowerShelfEndpoint]; the vendor is always the default. *)
Record PowerShelfEndpoint := mk_endpoint {
  pmc_ip : string;
  pmc_mac : string;
  pmc_credentials : Credentials;
}.

(** [PowerShelfComponentResult] and [PowerShelfPowerStateResult], without the address *)
Record PowerShelfComponentResult := mk_component_result {
  success : bool;
  cr_error : option string;
}.
Record PowerShelfPowerStateResult := mk_power_state_result {
  pr_power_state : option string;
  pr_error : option string;
}.

(** The backend of the component manager: its answers, which can depend on anything *)
Record ComponentManager := mk_component_manager {
  power_control : PowerShelfEndpoint → PowerAction → World → result string (list PowerShelfComponentResult);
  get_power_state : PowerShelfEndpoint → World → result string (list PowerShelfPowerStateResult);
}.

(** [PowerShelfStateHandlerServices] *)
Record PowerShelfStateHandlerServices := mk_services {
  component_manager : option ComponentManager;
  rack_firmware_reprovisioning_enabled : bool;
  bmc_rotation_gate : RotationGate;
  bmc_rotation_enabled : bool;
}.

(** [PowerStatePollOutcome] and [interpret_power_state_poll] *)
Inductive PowerStatePollOutcome :=
| Observed (power_state : string)
| BackendError (error : string)
| NoPowerState
| NoResult.
Definition interpret_power_state_poll (results : list PowerShelfPowerStateResult) : PowerStatePollOutcome :=
  match results with
  | [] => NoResult
  | r :: _ =>
      match pr_error r with
      | Some e => BackendError e
      | None => match pr_power_state r with Some p => Observed p | None => NoPowerState end
      end
  end.

Section Handlers.
Context (svc : PowerShelfStateHandlerServices) (here : Location) (o : string).

(** ** Rotation *)

(** [BmcEndpoint::from_power_shelf] and [into_target_probing_vendor] *)
Definition from_power_shelf (s : PowerShelf) : option BmcRotationTarget :=
  i ← ps_bmc_info s; from_bmc_info i Probe.

(** [should_enter_bmc_rotation] *)
Definition should_enter_bmc_rotation (s : PowerShelf) (cache : CachedAggregate) : handler (bool * CachedAggregate) :=
  if ps_bmc_credential_rotation_requested s then mret (true, cache)
  else if negb (bmc_rotation_enabled svc) then mret (false, cache)
  else match from_power_shelf s with
       | None => mret (false, cache)
       | Some endpoint =>
           convert (λ e, GenericError ("bmc rotation gate query: " +:+ engine_text e))
             (rotation_needed (bmc_rotation_gate svc) (device_mac endpoint) cache)
       end.

(** [rotate_power_shelf_bmc] *)
Definition rotate_power_shelf_bmc (target : BmcRotationTarget) (force : bool) : handler BmcRotationTick :=
  r ← catch (rotate_bmc target force); mret (tick_of r).

(** [handle_rotating_bmc] *)
Definition handle_rotating_bmc (s : PowerShelf) (retry_count : Z) : handler Outcome :=
  let force := ps_bmc_credential_rotation_requested s in
  let endpoint := from_power_shelf s in
  let bmc_macs := match endpoint with Some e => [device_mac e] | None => [] end in
  decision ← convert (DBError ∘ database_text)
               (gate_before_credential_change bmc_macs ROTATION_SUPPRESSION_REASON);
  match decision with
  | SitePause.Wait =>
      mret (wait here "waiting for site-explorer to acknowledge the BMC rotation suppression")
  | Proceed =>
      tick ← match endpoint with
             | Some e => rotate_power_shelf_bmc e force
             | None => mret Settled
             end;
      match advance tick retry_count with
      | StepWait =>
          mret (wait here ("PMC's credential changed but persisting the new credential to the credential store has not yet succeeded; holding rotation (site-explorer suppressed) until the credential store reconciles"))
      | StepRetry n => mret (transition here (RotatingBmc n))
      | step =>
          txn ← begin_txn;
          txn ← (if force && match step with StepSettled => true | _ => false end
                 then on_shelves (clear_bmc_credential_rotation_requested o) txn else mret txn);
          txn ← statement (λ _ w, Ok (set_suppressions
                  (resume_after_credential_change bmc_macs ROTATION_SUPPRESSION_REASON (suppressions w)) w)) txn;
          mret (attach_txn txn (transition here Ready))
      end
  end.

(** ** Maintenance *)

(** [lookup_bmc_credentials] *)
Definition lookup_bmc_credentials (mac : string) : prog World string Credentials :=
  r ← catch (get_credentials (BmcCredentials (BmcRoot mac)));
  match r with
  | Ok (Some c) => mret c
  | Ok None => lift (Err ("no per-device BMC credentials configured for " +:+ mac +:+ "; the device must be (re)ingested"))
  | Err e => lift (Err ("failed to read BMC credentials for " +:+ mac +:+ ": " +:+ e))
  end.

(** [build_power_shelf_endpoint] *)
Definition build_power_shelf_endpoint (s : PowerShelf) : prog World string PowerShelfEndpoint :=
  mac ← lift (ok_or (ps_bmc_mac_address s) ("power shelf " +:+ o +:+ " has no BMC MAC address recorded"));
  ip ← lift (ok_or (ps_bmc_info s ≫= bmc_ip)
         ("no BMC IP found for power shelf " +:+ o +:+ " (bmc_mac " +:+ mac +:+ ")"));
  c ← lookup_bmc_credentials mac;
  mret (mk_endpoint ip mac c).

(** [finish_maintenance_with_error] *)
Definition finish_maintenance_with_error (cause : string) : handler Outcome :=
  txn ← begin_txn;
  txn ← on_shelves (λ t, Ok (clear_power_shelf_maintenance_requested o t)) txn;
  mret (attach_txn txn (transition here (Error cause))).

(** [invoke_power_operation] *)
Definition invoke_power_operation (s : PowerShelf) (action : PowerAction) (operation_label : string) : handler Outcome :=
  let cause text := "PowerShelf " +:+ o +:+ " maintenance (" +:+ operation_label +:+ "): " +:+ text in
  match component_manager svc with
  | None => finish_maintenance_with_error (cause "component manager not configured")
  | Some cm =>
      match ps_rack_id s with
      | None => finish_maintenance_with_error (cause "power shelf has no rack association")
      | Some _ =>
          e ← catch (build_power_shelf_endpoint s);
          match e with
          | Err text => finish_maintenance_with_error (cause text)
          | Ok endpoint =>
              r ← catch (read id (λ _ w, power_control cm endpoint action w));
              match r with
              | Ok results =>
                  let result := default (mk_component_result false (Some "component manager returned no result"%string)) (head results) in
                  if success result then
                    txn ← begin_txn;
                    txn ← on_shelves (λ t, Ok (clear_power_shelf_maintenance_requested o t)) txn;
                    mret (attach_txn txn (transition here Ready))
                  else finish_maintenance_with_error
                         (cause ("power control failed: " +:+ default "power control failed"%string (cr_error result)))
              | Err text => finish_maintenance_with_error (cause ("power control failed: " +:+ text))
              end
          end
      end
  end.

(** [handle_maintenance] with [handle_power_on] and [handle_power_off] *)
Definition handle_maintenance (s : PowerShelf) (operation : PowerShelfMaintenanceOperation) : handler Outcome :=
  match operation with
  | PowerOn => invoke_power_operation s On "PowerOn"
  | PowerOff => invoke_power_operation s ForceOff "PowerOff"
  end.

(** ** Reprovisioning *)

Definition rack_initiated (initiator : string) : bool := String.prefix "rack-" initiator.

(** [is_rack_level_reprovisioning] *)
Definition is_rack_level_reprovisioning (s : PowerShelf) : bool :=
  match ps_reprovisioning_requested s with Some req => rack_initiated (rr_initiator req) | None => false end.

(** [should_run], [firmware_upgrade_requested] and [first_reprovisioning_state] *)
Definition should_run (activities : list MaintenanceActivity) (activity : MaintenanceActivity) : bool :=
  bool_decide (activities = []) || existsb (λ a, same_kind a activity) activities.
Definition firmware_upgrade_requested (activities : list MaintenanceActivity) : bool :=
  should_run activities (FirmwareUpgrade None [] false).
Definition first_reprovisioning_state (req : PowerShelfReprovisionRequest) : option ReProvisioningState :=
  if firmware_upgrade_requested (rr_activities req) then Some WaitingForRackFirmwareUpgrade else None.

Definition clear_reprovisioning (oc : Outcome) : handler Outcome :=
  txn ← begin_txn;
  txn ← on_shelves (λ t, Ok (clear_power_shelf_reprovisioning_requested o t)) txn;
  mret (attach_txn txn oc).

(** [rack_failed_abort_outcome] *)
Definition rack_failed_abort_outcome (s : PowerShelf) : handler (option Outcome) :=
  if negb (is_rack_level_reprovisioning s) then mret None
  else match ps_rack_id s with
       | None => mret None
       | Some rack_id =>
           rack ← read DBError (λ _ w, Ok (racks w !! rack_id));
           match rack with
           | Some (RackError _) => oc ← clear_reprovisioning (transition here Ready); mret (Some oc)
           | _ => mret None
           end
       end.

(** [handle_reprovisioning] *)
Definition handle_reprovisioning (s : PowerShelf) (st : ReProvisioningState) : handler Outcome :=
  aborted ← rack_failed_abort_outcome s;
  match aborted with
  | Some oc => mret oc
  | None =>
      match st with
      | WaitingForRackFirmwareUpgrade =>
          match ps_reprovisioning_requested s with
          | None => panic
          | Some req =>
              match ps_firmware_upgrade_status s with
              | None => mret (wait here "waiting for power shelf firmware upgrade status")
              | Some status =>
                  if negb (is_current_for status (rr_requested_at req)) then
                    mret (wait here "waiting for current rack firmware cycle")
                  else if negb (is_terminal status) then
                    mret (wait here "waiting for power shelf firmware completion")
                  else
                    match upgrade_state status with
                    | UpgradeCompleted => clear_reprovisioning (transition here Ready)
                    | UpgradeFailed cause => clear_reprovisioning (transition here (Error cause))
                    | UpgradeStarted | UpgradeInProgress =>
                        mret (wait here "waiting for power shelf firmware completion")
                    end
              end
          end
      end
  end.

(** ** Ready *)

(** [persist_observed_power_state]; failures leave the shelf as it is. *)
Definition persist_observed_power_state (s : PowerShelf) (observed : string) : handler (option Txn) :=
  let new_status := match ps_status s with
                    | Some existing => mk_shelf_status (shelf_name existing) observed (health_status existing)
                    | None => mk_shelf_status (ps_name s) observed EmptyString
                    end in
  if match ps_status s with Some st => bool_decide (power_state st = power_state new_status) | None => false end
  then mret None
  else
    b ← catch begin_txn;
    match b with
    | Err _ => mret None
    | Ok txn =>
        r ← catch (on_shelves (λ t, Ok (update o (Some new_status) t)) txn);
        mret (match r with Ok txn => Some txn | Err _ => None end)
    end.

(** [poll_power_state] *)
Definition poll_power_state (s : PowerShelf) : handler (option Txn) :=
  match component_manager svc with
  | None => mret None
  | Some cm =>
      match ps_rack_id s with
      | None => mret None
      | Some _ =>
          e ← catch (build_power_shelf_endpoint s);
          match e with
          | Err _ => mret None
          | Ok endpoint =>
              r ← catch (read id (λ _ w, get_power_state cm endpoint w));
              match r with
              | Err _ => mret None
              | Ok results =>
                  match interpret_power_state_poll results with
                  | Observed p => persist_observed_power_state s p
                  | _ => mret None
                  end
              end
          end
      end
  end.

(** [handle_ready] *)
Definition handle_ready (s : PowerShelf) (cache : CachedAggregate) : handler (Outcome * CachedAggregate) :=
  if is_marked_as_deleted s then mret (transition here Deleting, cache)
  else match ps_maintenance_requested s with
  | Some req => mret (transition here (Maintenance (mr_operation req)), cache)
  | None =>
      match ps_reprovisioning_requested s with
      | Some req =>
          if negb (rack_firmware_reprovisioning_enabled svc) then
            oc ← clear_reprovisioning (do_nothing here); mret (oc, cache)
          else if negb (rack_initiated (rr_initiator req)) then
            oc ← clear_reprovisioning (transition here
                   (Error ("unknown initiator for power shelf reprovisioning request: " +:+ rr_initiator req)));
            mret (oc, cache)
          else match first_reprovisioning_state req with
               | None => oc ← clear_reprovisioning (do_nothing here); mret (oc, cache)
               | Some st => mret (transition here (ReProvisioning st), cache)
               end
      | None =>
          '(enter, cache) ← should_enter_bmc_rotation s cache;
          if enter : bool then mret (transition here (RotatingBmc 0), cache)
          else
            txn ← poll_power_state s;
            mret (default (do_nothing here) (with_txn_opt txn (do_nothing here)), cache)
      end
  end.

(** ** The other states *)

(** [handle_deleting] *)
Definition handle_deleting : handler Outcome :=
  txn ← begin_txn;
  txn ← on_shelves (final_delete o) txn;
  mret (attach_txn txn (deleted here)).

(** [handle_error] *)
Definition handle_error (s : PowerShelf) : handler Outcome :=
  if is_marked_as_deleted s then mret (transition here Deleting)
  else match ps_maintenance_requested s with
       | Some req => mret (transition here (Maintenance (mr_operation req)))
       | None => mret (do_nothing here)
       end.

(** [attempt_state_transition] *)
Definition attempt_state_transition (s : PowerShelf) (cs : PowerShelfControllerState) (cache : CachedAggregate)
    : handler (Outcome * CachedAggregate) :=
  match cs with
  | Ready => handle_ready s cache
  | _ =>
      oc ← match cs with
           | Initializing => mret (transition here FetchingData)
           | FetchingData => mret (transition here Configuring)
           | Configuring => mret (transition here Ready)
           | RotatingBmc retry_count => handle_rotating_bmc s retry_count
           | Maintenance operation => handle_maintenance s operation
           | ReProvisioning st => handle_reprovisioning s st
           | Deleting => handle_deleting
           | Error _ => handle_error s
           | Ready => mret (do_nothing here)
           end;
      mret (oc, cache)
  end.

(** ** A run *)

Definition commit_outcome : Clock → Versioned PowerShelfControllerState → result StateHandlerError Outcome → Z → World → World :=
  commit_run power_shelves set_power_shelves shelf_state_sla o.

(** One run of the processor on the shelf *)
Definition run : Clock → CachedAggregate → handler CachedAggregate :=
  object_run power_shelves set_power_shelves shelf_state_sla o attempt_state_transition.

End Handlers.
