(* ===== verification/PowerShelfFacts.v ===== *)
(** * What the power shelf controller guarantees

    Runs move a shelf only along the edges of its state machine; a rotation of the
    credentials of its BMC happens while site explorer is held off, and ends with the
    credentials of the target; deletion completes; and how a shelf gets stuck when its rack
    withdraws a request at the wrong moment. *)

From S2P Require Import Prelude ConfigVersion StateHistory StateHandler ControllerIO ProcessObject ControllerTable PowerShelfTable.
From S2P Require Import Credentials CredentialRotation Calls RotationWorld HandlerRuns RotationEngine RotationEngineFacts SitePause PowerShelf.

(** ** What the handlers leave alone *)

Section Frame.
Context (allowed : Step World → Prop) (P : World → Prop).
Context (Hothers : ∀ st w, allowed st → P w → P (others st w)).
Context (Hrot : ∀ r w, P w → P (set_rot r w)) (Hstore : ∀ s w, P w → P (set_store s w)).
Context (Hbmcs : ∀ b w, P w → P (set_bmcs b w)) (Hsessions : ∀ s w, P w → P (set_sessions s w)).
Context (Hresults : ∀ m r w, P w → P (add_result m r w)) (Hsuppressions : ∀ s w, P w → P (set_suppressions s w)).

Notation kept m := (keeps allowed P m).
Ltac keep := keep_with Hothers.

Lemma rotating_kept here o s n : kept (handle_rotating_bmc here o s n).
Proof using Hothers Hbmcs Hstore Hrot Hsessions Hresults Hsuppressions.
  unfold handle_rotating_bmc, rotate_power_shelf_bmc, begin_txn, on_shelves.
  keep; [by apply gate_kept|by apply rotate_bmc_kept; auto|by apply statement_kept..].
Qed.

(** The handlers write nothing but what the engine and the pause write; the table of
    shelves changes with the commit only. *)
Lemma attempt_kept svc here o s cs cache : kept (attempt_state_transition svc here o s cs cache).
Proof using Hothers Hbmcs Hstore Hrot Hsessions Hresults Hsuppressions.
  unfold attempt_state_transition, handle_ready, should_enter_bmc_rotation, rotation_needed, rotation_pending,
    poll_power_state, persist_observed_power_state, handle_maintenance, invoke_power_operation, finish_maintenance_with_error,
    handle_reprovisioning, rack_failed_abort_outcome, clear_reprovisioning, handle_deleting, handle_error,
    build_power_shelf_endpoint, lookup_bmc_credentials, get_credentials, begin_txn, on_shelves, acquire, query, panic.
  keep; try (by apply statement_kept); try apply rotating_kept.
Qed.

End Frame.

(** ** The state machine *)

Notation state_of := (HandlerRuns.state_of power_shelves).
Notation same_state := (HandlerRuns.same_state power_shelves).

(** The edges of the state machine of a shelf *)
Definition edge (cs n : PowerShelfControllerState) : bool :=
  match cs, n with
  | Initializing, FetchingData | FetchingData, Configuring | Configuring, Ready
  | Ready, (Deleting | Maintenance _ | ReProvisioning _ | Error _)
  | RotatingBmc _, Ready
  | Maintenance _, (Ready | Error _)
  | ReProvisioning _, (Ready | Error _)
  | Error _, (Deleting | Maintenance _) => true
  | Ready, RotatingBmc k => k =? 0
  | RotatingBmc k, RotatingBmc n => (n =? k + 1) && (n <? MAX_BMC_ROTATION_RETRIES)
  | _, _ => false
  end.

Section Outcomes.
Context (o : string).

Notation plain_txn := (HandlerRuns.plain_txn power_shelves o).
Definition permitted : PowerShelfControllerState → Outcome → Prop :=
  HandlerRuns.permitted power_shelves o edge (λ cs, cs = Deleting).

Lemma on_shelves_plain f g o' txn : plain_txn txn → (∀ t t', f t = Ok t' → t' = update_shelf g o' t) →
  returns (on_shelves f txn) plain_txn.
Proof using Type. by apply on_table_plain. Qed.

Lemma clear_rotation_update t t' : clear_bmc_credential_rotation_requested o t = Ok t' →
  t' = update_shelf (set_rotation_requested false) o t.
Proof using Type. unfold clear_bmc_credential_rotation_requested. destruct (found o t); [|done]. by intros [= <-]. Qed.

Context (svc : PowerShelfStateHandlerServices) (here : Location).

Lemma clear_reprovisioning_permitted cs oc :
  (∀ txn, plain_txn txn → permitted cs (attach_txn txn oc)) →
  returns (clear_reprovisioning o oc) (permitted cs).
Proof using Type. intros Hoc. eapply one_statement_permitted; [done|by intros t t' [= <-]|done]. Qed.

Lemma clear_maintenance_permitted cs n : edge cs n = true →
  returns (txn ← begin_txn; txn ← on_shelves (λ t, Ok (clear_power_shelf_maintenance_requested o t)) txn;
           mret (attach_txn txn (transition here n))) (permitted cs).
Proof using Type. intros He. by eapply one_statement_permitted; [done|intros t t' [= <-]|]. Qed.

Lemma maintenance_permitted s op : returns (handle_maintenance svc here o s op) (permitted (Maintenance op)).
Proof using Type.
  assert (He : ∀ c, returns (finish_maintenance_with_error here o c) (permitted (Maintenance op))).
  { intros c. by apply clear_maintenance_permitted. }
  assert (Hi : ∀ a l, returns (invoke_power_operation svc here o s a l) (permitted (Maintenance op))).
  { intros a l. unfold invoke_power_operation. repeat case_match; try done.
    apply returns_then. intros [e|e]; [|done]. apply returns_then. intros [rs|e']; [|done].
    case_match; [by apply clear_maintenance_permitted|done]. }
  by destruct op; simpl.
Qed.

Lemma rotating_permitted s k : returns (handle_rotating_bmc here o s k) (permitted (RotatingBmc k)).
Proof using Type.
  unfold handle_rotating_bmc. apply returns_then. intros [|]; [|by apply returns_ret].
  apply returns_then. intros tick. destruct (advance tick k) as [| |n|] eqn:Ha.
  4: by apply returns_ret.
  3: { apply returns_ret. split; [|apply plain_nil]. unfold advance in Ha. destruct tick; try done.
       destruct (Z.leb_spec MAX_BMC_ROTATION_RETRIES (k + 1)); [done|]. simplify_eq. simpl.
       rewrite Z.eqb_refl. by apply Z.ltb_lt. }
  all: eapply returns_bind; [apply (begin_plain power_shelves o)|]; intros txn Ht; cbv beta in Ht.
  all: eapply (returns_bind _ _ plain_txn).
  1: case_match; [eapply (on_shelves_plain _ (set_rotation_requested false) o); [done|apply clear_rotation_update]|by apply returns_ret].
  2: rewrite andb_false_r; by apply returns_ret.
  all: intros txn' Ht'; eapply returns_bind; [by apply (statement_plain power_shelves o); [done|intros now w w' [= <-]]|].
  all: intros txn2 Ht2; by apply returns_ret.
Qed.

Lemma reprovisioning_permitted s st : returns (handle_reprovisioning here o s st) (permitted (ReProvisioning st)).
Proof using Type.
  assert (Hc : ∀ n, edge (ReProvisioning st) n = true →
    returns (clear_reprovisioning o (transition here n)) (permitted (ReProvisioning st))).
  { intros n Hn. by apply clear_reprovisioning_permitted. }
  unfold handle_reprovisioning.
  eapply (returns_bind _ _ (λ r, ∀ oc, r = Some oc → permitted (ReProvisioning st) oc)).
  - unfold rack_failed_abort_outcome. repeat case_match; try by apply returns_ret.
    apply returns_then. intros rack. repeat case_match; try by apply returns_ret.
    eapply returns_bind; [by apply Hc|]. intros oc Hoc. apply returns_ret. by intros ? [= <-].
  - intros [oc|] Hoc; [apply returns_ret; auto|]. repeat case_match; try (by apply Hc); try (by apply returns_ret).
    by intros w sc a.
Qed.

Lemma persist_plain s p : returns (persist_observed_power_state o s p) (λ r, plain_txn (default [] r)).
Proof using Type.
  unfold persist_observed_power_state. case_match; [by apply returns_ret|].
  eapply returns_bind; [apply returns_catch, (begin_plain power_shelves o)|]. intros [txn|e'] Ht; [|by apply returns_ret].
  eapply returns_bind; [apply returns_catch; eapply (on_shelves_plain _ _ o); [by apply Ht|by intros t t' [= <-]]|].
  intros [txn'|e'] Ht'; apply returns_ret; [by apply Ht'|done].
Qed.

Lemma ready_permitted s cache : returns (handle_ready svc here o s cache) (λ r, permitted Ready r.1).
Proof using Type.
  assert (Hc : ∀ oc, (∀ txn, plain_txn txn → permitted Ready (attach_txn txn oc)) →
    returns (oc ← clear_reprovisioning o oc; mret (oc, cache)) (λ r, permitted Ready r.1)).
  { intros oc Hoc. eapply returns_bind; [by apply clear_reprovisioning_permitted|]. intros oc' Hoc'. by apply returns_ret. }
  unfold handle_ready. repeat case_match; try (by apply returns_ret); try (by apply Hc).
  apply returns_then. intros [enter cache']. case_match; [by apply returns_ret|].
  eapply (returns_bind _ _ (λ r, plain_txn (default [] r))).
  - unfold poll_power_state. repeat case_match; try by apply returns_ret.
    apply returns_then. intros [e|e]; [|by apply returns_ret]. apply returns_then. intros [rs|e']; [|by apply returns_ret].
    case_match; try (by apply returns_ret). apply persist_plain.
  - intros t Ht. apply returns_ret. by destruct t.
Qed.

Lemma attempt_permitted s cs cache : returns (attempt_state_transition svc here o s cs cache) (λ r, permitted cs r.1).
Proof using Type.
  assert (Hpair : ∀ m : handler Outcome, returns m (permitted cs) →
    returns (oc ← m; mret (oc, cache)) (λ r, permitted cs r.1)).
  { intros m Hm. eapply returns_bind; [exact Hm|]. intros oc Hoc. by apply returns_ret. }
  unfold attempt_state_transition. destruct cs; try (by apply ready_permitted); apply Hpair.
  1-3: by apply returns_ret.
  - apply rotating_permitted.
  - apply maintenance_permitted.
  - apply reprovisioning_permitted.
  - unfold handle_error. repeat case_match; by apply returns_ret.
  - unfold handle_deleting. apply returns_then. intros txn. eapply (returns_bind _ _ (λ t, ∀ w, state_of o (in_txn t w) = None)).
    + apply returns_read. intros c w a. case_match; [|done]. intros [= <-] w'. rewrite in_txn_app. unfold final_delete.
      destruct (rows (power_shelves (in_txn txn w')) !! o) eqn:E; unfold state_of; simpl; [by rewrite lookup_delete_eq|by rewrite E].
    + intros txn' Ht. by apply returns_ret.
Qed.

End Outcomes.

Lemma commit_shelf_view {A} (v : World → A) o clk cs r now w : (∀ t w, v (set_power_shelves t w) = v w) →
  v (commit_outcome o clk cs r now w) = v (match r with Ok oc => in_txn (default [] (fst (take_transaction oc))) w | Err _ => w end).
Proof. apply (commit_view power_shelves set_power_shelves shelf_state_sla o v). Qed.

Lemma commit_shelf_row o clk cs n l (t : option Txn) row now w :
  let w' := in_txn (default [] t) w in
  rows (power_shelves w') !! o = Some row → version (row_state row) = version cs →
  (λ r, (row_state r, row_object r)) <$> rows (power_shelves (commit_outcome o clk cs (Ok (Transition n l t : Outcome)) now w)) !! o =
    Some (mk_versioned n (increment (at_increment clk) (version cs)), row_object row).
Proof. by apply commit_row. Qed.

(** ** Runs *)

Section Runs.
Context (svc : PowerShelfStateHandlerServices) (here : Location) (o : string) (clk : Clock) (cache : CachedAggregate).

(** C17: Whatever fails, wherever the process dies and whatever others do that leaves the
    controller columns of the shelf alone, one run of the controller keeps the state of a
    power shelf, moves it along an edge of its state machine with the next version, or
    removes a shelf that is in [Deleting]; in particular a shelf is deleted only from
    [Deleting], which is entered from [Ready] and [Error] only, and a rotation is retried
    at most twice. *)
Theorem shelf_transitions cs :
  hoare (relies (same_state o)) (λ w, state_of o w = Some cs) (run svc here o clk cache)
    (λ _ w, state_of o w = Some cs ∨ (∃ n, edge (value cs) n = true ∧ state_of o w = moved clk cs n) ∨
            value cs = Deleting ∧ state_of o w = None).
Proof using Type.
  apply (run_moves power_shelves set_power_shelves shelf_state_sla o (λ t w, eq_refl) edge (λ cs, cs = Deleting)); intros s; [|apply attempt_permitted].
  apply attempt_kept; try done. intros st w Hst Hw. by rewrite (Hst w).
Qed.

End Runs.

(** ** Rotation under a pause *)

Section Rotation.
Context (svc : PowerShelfStateHandlerServices) (here : Location) (o : string) (clk : Clock) (cache : CachedAggregate).
Context (bmc : BmcRotationTarget) (latest : Z).

Definition suppression (w : World) : option BmcSuppression := suppressions w !! (device_mac bmc, SiteExplorer).

(** The suppression is there, and site explorer has acknowledged it, or it was requested
    more than the pause budget before [latest]. *)
Definition paused (w : World) : Prop := ∃ s, suppression w = Some s ∧ cleared latest s.

Definition target_of (w : World) : option BmcRotationTarget :=
  r ← rows (power_shelves w) !! o; from_power_shelf (row_object r).

(** Others leave the device and the columns of the controller alone; they acknowledge
    suppressions and do not withdraw them. *)
Record lets_rotate (w w' : World) : Prop := {
  lets_device : undisturbed bmc w w';
  lets_state : same_state o w w';
  lets_target : target_of w' = target_of w;
  lets_pause s : suppression w = Some s → ∃ s', suppression w' = Some s' ∧ reason s' = reason s ∧
    requested_at s' = requested_at s ∧ (is_Some (acknowledged_at s) → is_Some (acknowledged_at s'));
}.

(** The steps of a run whose clock does not pass [latest] *)
Definition in_window (st : Step World) : Prop := relies lets_rotate st ∧ clock st ≤ latest.

Notation allowed := in_window.

Lemma hoare_in_window {E A} (P P' : World → Prop) wrap (f : Z → World → result E A * World) Q :
  (∀ w w', P w → lets_rotate w w' → P' w') →
  (∀ c w, P' w → Q (returned (f c w).1) (f c w).2 ∧ ∀ why, Q (Err (Failed (wrap why))) (f c w).2) →
  (∀ w why, P' w → Q (Err (Failed (wrap why))) w) → (∀ w, P' w → Q (Err Crashed) w) →
  hoare allowed P (call wrap f) Q.
Proof using Type.
  intros H1 H2 H3 H4. eapply (hoare_narrow (relies lets_rotate)); [by intros st []|by apply kept_call|by eapply hoare_rely].
Qed.

Lemma paused_stays w w' : paused w → lets_rotate w w' → paused w'.
Proof using Type.
  intros (s & Hs & Hc) Hl. destruct (lets_pause _ _ Hl s Hs) as (s' & Hs' & _ & Hr & Ha).
  exists s'. split; [done|]. destruct Hc as [Hc|Hc]; [left; auto|right; by rewrite Hr].
Qed.

Lemma gate_pauses (P : World → Prop) why :
  (∀ w w', P w → lets_rotate w w' → P w') → (∀ s w, P w → P (set_suppressions s w)) →
  hoare allowed P (gate_before_credential_change [device_mac bmc] why)
    (λ r w, P w ∧ (r = Ok Proceed → paused w)).
Proof using Type.
  intros HP Hset. unfold gate_before_credential_change. rewrite decide_False by done.
  eapply (hoare_seq _ _ _ _ (λ r w, P w ∧ ∀ rows, r = Ok rows →
    rows = find_many [device_mac bmc] SiteExplorer (suppressions w) ∧ is_Some (suppression w))).
  - apply (hoare_in_window _ P); [done| |done..]. intros c w Hw.
    assert (P (set_suppressions (pause c [device_mac bmc] why (suppressions w)) w)) by auto.
    split; [|done]. split; [done|]. intros rows [= <-]. split; [done|]. unfold suppression. cbn [snd suppressions set_suppressions].
    rewrite lookup_pause, decide_True by (simpl; set_solver). done.
  - intros rows w sc Hsc [Hw Hr]. split; [done|]. split; [done|]. intros [= Hp].
    destruct (Hr rows eq_refl) as [-> [s Hs]]. exists s. split; [done|]. destruct (Hsc 0%nat) as [_ Hle].
    rewrite gate_decision_exact in Hp; [apply (cleared_later (clock (sc 0%nat))); [done|]; apply (Hp (device_mac bmc)); [set_solver|done]|].
    intros m Hm. apply list_elem_of_singleton in Hm as ->. by exists s.
  - intros e w [Hw _]. done.
Qed.

(** What the device is made of *)
Definition device_part (w : World) := (rot w, store w, shadow w, bmcs w).

Lemma recoverable_ext w w' : device_part w' = device_part w → recoverable bmc w → recoverable bmc w'.
Proof using Type.
  intros [= Hr Hst Hsh Hb] (t & d & c & s & a & [] & Hg). exists t, d, c, s, a. split; [|done].
  unfold target, row, stored, secret, acct, effective in *.
  split; unfold target, row, stored, secret, acct, effective; rewrite ?Hr, ?Hst, ?Hsh, ?Hb; done.
Qed.

Lemma acct_ext w w' : device_part w' = device_part w → acct bmc w' = acct bmc w.
Proof using Type. intros [= _ _ _ Hb]. unfold acct. by rewrite Hb. Qed.

Lemma rotate_recoverable force : mac_ok bmc → hoare allowed (recoverable bmc) (rotate_bmc bmc force) (λ _, recoverable bmc).
Proof using Type.
  intros Hm. eapply hoare_weaken; [|done|].
  - eapply (hoare_narrow (relies (undisturbed bmc))); [| |by apply rotate_bmc_triple].
    + intros st [Hst _] w. apply lets_device, Hst.
    + by apply rotate_bmc_kept.
  - intros r w [H _]. done.
Qed.

Lemma rotate_paused force : keeps allowed paused (rotate_bmc bmc force).
Proof using Type. apply rotate_bmc_kept; try done. intros st w [Hst _] Hw. by eapply paused_stays. Qed.

(** The handler changes the account of the BMC only under a pause. *)
Lemma rotating_triple s k a : mac_ok bmc → from_power_shelf s = Some bmc →
  hoare allowed (λ w, recoverable bmc w ∧ acct bmc w = a) (handle_rotating_bmc here o s k)
    (λ _ w, recoverable bmc w ∧ (acct bmc w ≠ a → paused w)).
Proof using Type.
  intros Hm Hs. unfold handle_rotating_bmc. rewrite Hs.
  assert (Hrec : ∀ st w, allowed st → recoverable bmc w → recoverable bmc (others st w)).
  { intros st w [Hst _] Hw. eapply recoverable_undisturbed; [done|]. apply lets_device, Hst. }
  eapply (hoare_seq _ _ _ _ (λ r w, (recoverable bmc w ∧ acct bmc w = a) ∧ (r = Ok Proceed → paused w))).
  { eapply hoare_convert; [apply (gate_pauses (λ w, recoverable bmc w ∧ acct bmc w = a))|naive_solver..].
    - intros w w' [Hw Ha] Hl. split; [eapply recoverable_undisturbed; [done|by apply lets_device]|].
      destruct (lets_device _ _ Hl). unfold acct in *. congruence.
    - intros x w [Hw Ha]. split; [by apply (recoverable_ext w)|done]. }
  2: naive_solver.
  intros [|]; [|apply hoare_ret; naive_solver].
  apply (hoare_from _ (λ w, recoverable bmc w ∧ paused w)); [naive_solver|].
  eapply (hoare_weaken _ _ (λ w, recoverable bmc w ∧ paused w) _ _ (λ _ w, recoverable bmc w ∧ paused w)); [|done|tauto].
  unfold rotate_power_shelf_bmc.
  assert (Hboth : ∀ {A} (m : handler A), keeps allowed (recoverable bmc) m → keeps allowed paused m →
    keeps allowed (λ w, recoverable bmc w ∧ paused w) m) by (intros A m H1 H2; by apply hoare_and).
  assert (Hpau : ∀ st w, allowed st → paused w → paused (others st w)) by (intros st w [Hst _] ?; by eapply paused_stays).
  assert (Hst : ∀ f txn, keeps allowed (λ w, recoverable bmc w ∧ paused w) (statement f txn)).
  { intros f txn. apply Hboth; by apply kept_read. }
  apply kept_bind.
  - apply kept_bind; [|intros r; apply kept_ret]. apply kept_catch.
    apply hoare_and; [by apply rotate_recoverable|apply rotate_paused].
  - intros tick. assert (Hend : ∀ b : bool, keeps allowed (λ w, recoverable bmc w ∧ paused w)
      (txn ← begin_txn; txn ← (if b then on_shelves (clear_bmc_credential_rotation_requested o) txn else mret txn);
       txn ← statement (λ _ w, Ok (set_suppressions (resume_after_credential_change [device_mac bmc] ROTATION_SUPPRESSION_REASON (suppressions w)) w)) txn;
       mret (attach_txn txn (transition here Ready)))).
    { intros b. apply kept_bind; [apply Hboth; by apply kept_read|]. intros txn.
      apply kept_bind; [destruct b; [apply Hst|apply kept_ret]|]. intros txn'.
      apply kept_bind; [apply Hst|]. intros ?. apply kept_ret. }
    destruct (advance tick k); [apply Hend|apply Hend|apply kept_ret|apply kept_ret].
Qed.

(** Transactions on the table of shelves *)
Definition shelf_only (txn : Txn) : Prop :=
  ∀ w, device_part (in_txn txn w) = device_part w ∧ suppressions (in_txn txn w) = suppressions w.

Lemma begin_shelf_only : returns begin_txn shelf_only.
Proof using Type. apply returns_read. intros c w a [= <-]. done. Qed.

Lemma on_shelves_shelf_only f txn : shelf_only txn → returns (on_shelves f txn) shelf_only.
Proof using Type.
  intros Ht. apply returns_read. intros c w a. case_match; [|done]. intros [= <-] w'. rewrite in_txn_app.
  destruct (f (power_shelves (in_txn txn w'))); apply Ht.
Qed.

(** The outcome of a rotation: a transaction goes with the return to [Ready] only, and it
    ends the pause. *)
Definition resumes (s : PowerShelf) (oc : Outcome) : Prop :=
  match oc with
  | Transition Ready _ t => ∀ w, device_part (in_txn (default [] t) w) = device_part w ∧
      suppressions (in_txn (default [] t) w) =
        resume_after_credential_change (match from_power_shelf s with Some e => [device_mac e] | None => [] end)
          ROTATION_SUPPRESSION_REASON (suppressions w)
  | Transition (RotatingBmc _) _ t => t = None
  | StateHandler.Wait _ _ t => t = None
  | _ => False
  end.

Lemma rotating_resumes s k : returns (handle_rotating_bmc here o s k) (resumes s).
Proof using Type.
  unfold handle_rotating_bmc. apply returns_then. intros [|]; [|by apply returns_ret].
  apply returns_then. intros tick.
  assert (Hend : ∀ b : bool, returns (txn ← begin_txn;
      txn ← (if b then on_shelves (clear_bmc_credential_rotation_requested o) txn else mret txn);
      txn ← statement (λ _ w, Ok (set_suppressions
        (resume_after_credential_change (match from_power_shelf s with Some e => [device_mac e] | None => [] end)
           ROTATION_SUPPRESSION_REASON (suppressions w)) w)) txn;
      mret (attach_txn txn (transition here Ready))) (resumes s)).
  { intros b. eapply returns_bind; [apply begin_shelf_only|]. intros txn Ht.
    eapply (returns_bind _ _ shelf_only).
    { destruct b; [by apply on_shelves_shelf_only|by apply returns_ret]. }
    intros txn' Ht'. eapply (returns_bind _ _ (λ t, ∃ w0, t = txn' ++ [w0] ∧ ∀ w, w0 w = set_suppressions
      (resume_after_credential_change (match from_power_shelf s with Some e => [device_mac e] | None => [] end)
           ROTATION_SUPPRESSION_REASON (suppressions w)) w)).
    { apply returns_read. intros c w a [= <-]. eexists. split; [done|]. done. }
    intros txn2 (w0 & -> & Hw0). apply returns_ret. intros w. cbn [default attach_txn with_txn with_txn_opt transition take_transaction].
    destruct (Ht' w) as [H1 H2]. simpl. rewrite in_txn_app, Hw0, H2. done. }
  destruct (advance tick k) as [| |n|]; [apply Hend|apply (Hend (_ && false))|by apply returns_ret|by apply returns_ret].
Qed.

Lemma resumed s t : from_power_shelf s = Some bmc →
  ∀ x, resume_after_credential_change (match from_power_shelf s with Some e => [device_mac e] | None => [] end)
         ROTATION_SUPPRESSION_REASON t !! (device_mac bmc, SiteExplorer) = Some x → reason x ≠ ROTATION_SUPPRESSION_REASON.
Proof using Type.
  intros -> x. unfold resume_after_credential_change. rewrite decide_False by done.
  unfold delete_many_with_reason, delete_where. simpl. rewrite map_lookup_filter_Some. intros [_ H] Hr. apply H.
  split; [set_solver|]. done.
Qed.

Lemma rotating_attempt s a cs k : mac_ok bmc → from_power_shelf s = Some bmc →
  hoare allowed (λ w, (recoverable bmc w ∧ acct bmc w = a) ∧ state_of o w = Some cs)
    (catch (attempt_state_transition svc here o s (RotatingBmc k) cache) : handler _)
    (λ r w, ((recoverable bmc w ∧ (acct bmc w ≠ a → paused w)) ∧ state_of o w = Some cs) ∧
      ∀ x, r = Ok x → ∀ oc, fst <$> x = Ok oc → permitted o (RotatingBmc k) oc ∧ resumes s oc).
Proof using Type.
  intros Hm Ht w sc Hsc [Hw HP]. unfold attempt_state_transition.
  set (m := oc ← handle_rotating_bmc here o s k; mret (oc, cache)).
  assert (Hk : keeps allowed (λ w, state_of o w = Some cs) m).
  { apply kept_bind; [|intros; apply kept_ret]. apply rotating_kept; try done.
    intros st w1 [Hst _] H1. by rewrite (lets_state _ _ (Hst w1)). }
  assert (Hq : hoare allowed (λ w, recoverable bmc w ∧ acct bmc w = a) m (λ _ w, recoverable bmc w ∧ (acct bmc w ≠ a → paused w))).
  { eapply hoare_seq; [by apply rotating_triple|intros; by apply hoare_ret|done]. }
  assert (Hret : returns m (λ r, permitted o (RotatingBmc k) r.1 ∧ resumes s r.1)).
  { intros w1 sc1 x. unfold m, mbind, prog_bind.
    destruct (handle_rotating_bmc here o s k w1 sc1) as [[oc|] [w2 sc2]] eqn:E; [|done]. intros [= <-]. simpl.
    split; [apply (rotating_permitted o here s k w1 sc1)|apply (rotating_resumes s k w1 sc1)]; by rewrite E. }
  assert (Hc : hoare allowed (λ w, (recoverable bmc w ∧ acct bmc w = a) ∧ state_of o w = Some cs) (catch m : handler _)
    (λ _ w, (recoverable bmc w ∧ (acct bmc w ≠ a → paused w)) ∧ state_of o w = Some cs)).
  { apply hoare_catch. eapply hoare_weaken; [apply (hoare_and _ _ _ _ _ _ Hq Hk)|done|]. intros [x|[e|]] w1 H; exact H. }
  destruct (Hc w sc Hsc (conj Hw HP)) as [H1 H2].
  split; [done|]. split; [done|]. intros x Hx oc Hoc.
  pose proof (returns_catch (E := StateHandlerError) m _ Hret w sc x Hx) as Hx'. destruct x as [[oc' c']|]; [|done].
  injection Hoc as <-. apply (Hx' _ eq_refl).
Qed.

(** After a run that found the account [a] and the shelf in the state [cs] *)
Definition window (a : option Credentials) (cs : Versioned PowerShelfControllerState) (w : World) : Prop :=
  recoverable bmc w ∧
  ((state_of o w = Some cs ∨ ∃ n, state_of o w = moved clk cs (RotatingBmc n)) ∧ (acct bmc w ≠ a → paused w) ∨
   state_of o w = moved clk cs Ready ∧ ∀ x, suppression w = Some x → reason x ≠ ROTATION_SUPPRESSION_REASON).

Lemma rotation_committed a cs k s r c w :
  value cs = RotatingBmc k → from_power_shelf s = Some bmc →
  (recoverable bmc w ∧ (acct bmc w ≠ a → paused w)) ∧ state_of o w = Some cs →
  (∀ oc, r = Ok oc → permitted o (RotatingBmc k) oc ∧ resumes s oc) →
  window a cs (commit_outcome o clk cs r c w).
Proof using Type.
  intros Hcs Ht [[Hw Hp] Hs] Hr. set (w' := commit_outcome o clk cs r c w). unfold window.
  assert (Hst : state_of o w' = match r with Ok (Transition n _ _) => moved clk cs n | Ok (Deleted _ _) => None | _ => Some cs end).
  { apply (commit_state power_shelves set_power_shelves shelf_state_sla o (λ t w, eq_refl) edge (λ cs, cs = Deleting)); [done|]. intros oc Hoc. rewrite Hcs. by apply Hr. }
  assert (Hview : ∀ A (v : World → A), (∀ t w, v (set_power_shelves t w) = v w) → v w' =
    v (match r with Ok oc => in_txn (default [] (fst (take_transaction oc))) w | Err _ => w end))
    by (intros A v; apply commit_shelf_view).
  assert (Hplain : (∀ oc, r = Ok oc → fst (take_transaction oc) = None) → device_part w' = device_part w ∧ suppression w' = suppression w).
  { intros Hn. pose proof (Hview _ (λ w, (device_part w, suppression w)) (λ t w, eq_refl)) as Hv. simpl in Hv.
    apply pair_equal_spec. destruct r as [oc|]; [by rewrite (Hn oc eq_refl) in Hv|done]. }
  assert (Hkeep : device_part w' = device_part w ∧ suppression w' = suppression w →
    recoverable bmc w' ∧ (acct bmc w' ≠ a → paused w')).
  { intros [Hd Hsu]. split; [by apply (recoverable_ext w)|]. rewrite (acct_ext w w' Hd). intros Ha.
    destruct (Hp Ha) as (x & H1 & H2). exists x. by rewrite Hsu. }
  rewrite Hst. destruct r as [oc|e].
  - destruct (Hr oc eq_refl) as [_ Hre]. destruct oc as [why l t|n l t|l t|l t]; simpl in Hre; try done.
    + destruct (Hkeep (Hplain ltac:(intros ? [= <-]; done))). split; [done|]. left. eauto.
    + destruct n; try done.
      * destruct (Hre w) as [Hd Hsu]. split; [apply (recoverable_ext w); [|done]; etrans; [by apply (Hview _ device_part)|exact Hd]|].
        right. split; [done|]. intros x Hx. eapply (resumed s); [done|]. rewrite <- Hsu, <-Hx. symmetry. by apply (Hview _ suppression).
      * subst t. destruct (Hkeep (Hplain ltac:(intros ? [= <-]; done))). split; [done|]. left. eauto.
  - destruct (Hkeep (Hplain ltac:(done))). split; [done|]. left. eauto.
Qed.

(** C16: One run of the controller on a shelf in [RotatingBmc], whatever fails and wherever
    the process dies, leaves the BMC recoverable; others leave the device and the columns of
    the controller alone and acknowledge suppressions, but do not withdraw them.  The
    account of the BMC changes only while site explorer is held off: when the handler
    returns, with whatever result, and the account has changed, the suppression is there,
    and site explorer acknowledged it or it had been requested more than the pause budget
    before the latest clock of the run.  So it is after the run too, if the shelf is still
    rotating; if the shelf is back in [Ready], the suppression of the rotation has been
    withdrawn with the same commit. *)
Theorem shelf_rotation_window a cs k :
  mac_ok bmc → value cs = RotatingBmc k →
  (∀ s, from_power_shelf s = Some bmc →
     hoare in_window (λ w, recoverable bmc w ∧ acct bmc w = a) (handle_rotating_bmc here o s k)
       (λ _ w, recoverable bmc w ∧ (acct bmc w ≠ a → paused w))) ∧
  hoare in_window (λ w, (recoverable bmc w ∧ acct bmc w = a) ∧ state_of o w = Some cs ∧ target_of w = Some bmc)
    (run svc here o clk cache) (λ _, window a cs).
Proof using Type.
  intros Hm Hcs. split; [intros s Hs; by apply rotating_triple|]. set (P := λ w, state_of o w = Some cs).
  set (I := λ w, (recoverable bmc w ∧ (acct bmc w ≠ a → paused w)) ∧ P w).
  assert (Hbad : ∀ w, I w → window a cs w).
  { intros w [[H1 H2] H3]. split; [done|]. left. eauto. }
  assert (HI : ∀ w w', I w → lets_rotate w w' → I w').
  { intros w w' [[H1 H2] H3] Hl. split; [split|].
    - eapply recoverable_undisturbed; [done|]. by apply lets_device.
    - intros Ha. eapply paused_stays; [|done]. apply H2. destruct (lets_device _ _ Hl). unfold acct in *. congruence.
    - unfold P. by rewrite (lets_state _ _ Hl). }
  unfold run, object_run. eapply (hoare_seq _ _ _ _ (λ r w, ((recoverable bmc w ∧ acct bmc w = a) ∧ P w) ∧
    ∀ row, r = Ok row → row_state row = cs ∧ from_power_shelf (row_object row) = Some bmc)).
  { apply (hoare_in_window _ (λ w, ((recoverable bmc w ∧ acct bmc w = a) ∧ P w) ∧ target_of w = Some bmc)); [|..|naive_solver|naive_solver].
    - intros w w' ((Hw & Ha) & Hs & Ht) Hl. split; [split; [split|]|by rewrite (lets_target _ _ Hl)].
      + eapply recoverable_undisturbed; [done|]. by apply lets_device.
      + destruct (lets_device _ _ Hl). unfold acct in *. congruence.
      + unfold P. by rewrite (lets_state _ _ Hl).
    - intros c w (HP & Ht). split; [|done]. split; [done|]. intros row. unfold target_of in Ht. destruct HP as [_ HP].
      unfold P, state_of in HP. destruct (rows _ !! o) as [r|]; [|done]. simpl. intros [= <-]. split; [by injection HP|done]. }
  2: { intros e w [[[H1 H2] H3] _]. apply Hbad. split; [|done]. split; [done|]. by intros Hne. }
  intros row. cbv beta. apply (hoare_assume _ (row_state row = cs ∧ from_power_shelf (row_object row) = Some bmc)); [naive_solver|].
  intros [Hrow Ht]. apply (hoare_from _ (λ w, (recoverable bmc w ∧ acct bmc w = a) ∧ P w)); [naive_solver|].
  rewrite Hrow, Hcs.
  eapply (hoare_seq _ _ _ _ (λ r w, I w ∧ ∀ x, r = Ok x → ∀ oc, fst <$> x = Ok oc →
    permitted o (RotatingBmc k) oc ∧ resumes (row_object row) oc)).
  { by apply rotating_attempt. }
  2: intros e w [H _]; by apply Hbad.
  intros x. apply (hoare_assume _ (∀ oc, fst <$> x = Ok oc → permitted o (RotatingBmc k) oc ∧ resumes (row_object row) oc)); [naive_solver|].
  intros Hx. eapply (hoare_seq _ _ _ _ (λ _, window a cs)); [|intros []; by apply hoare_ret|done].
  apply (hoare_in_window _ I); [intros w w' [HI0 _] Hl; by eapply HI| | |].
  - intros c w HI0. assert (window a cs (commit_outcome o clk cs (fst <$> x) c w)); [|done].
    by apply (rotation_committed a cs k (row_object row)).
  - intros w why HI0. by apply Hbad.
  - intros w HI0. by apply Hbad.
Qed.

(** ** An undisturbed run *)

Lemma settled_ext w w' : device_part w' = device_part w → settled bmc w → settled bmc w'.
Proof using Type.
  intros [= Hr Hst Hsh Hb] (t & d & c & s & [] & H). exists t, d, c, s. split; [|done].
  unfold target, row, stored, secret, acct, effective in *.
  split; unfold target, row, stored, secret, acct, effective; rewrite ?Hr, ?Hst, ?Hsh, ?Hb; done.
Qed.

Section Calm.
Context (t0 : Z) (row : shelf_row) (k : Z) (T : shelf_table).
Context (HT : rows T !! o = Some row) (Hk : value (row_state row) = RotatingBmc k).
Context (Hbmc : from_power_shelf (row_object row) = Some bmc) (Hm : mac_ok bmc).

Notation force := (ps_bmc_credential_rotation_requested (row_object row)).
Notation calm_run := (hoare (calm_from t0)).

Lemma calm_others (P : World → Prop) st w : calm_from t0 st → P w → P (others st w).
Proof using Type. intros [[_ Ho] _]. by rewrite Ho. Qed.

Lemma gate_calm (P : World → Prop) why :
  (∀ c w, P w → P (set_suppressions (pause c [device_mac bmc] why (suppressions w)) w)) →
  (∀ w, P w → ∃ x, suppression w = Some x ∧ is_Some (acknowledged_at x)) →
  calm_run P (gate_before_credential_change [device_mac bmc] why) (λ r w, r = Ok Proceed ∧ P w).
Proof using Type.
  intros Hset Hack. unfold gate_before_credential_change. rewrite decide_False by done.
  eapply (hoare_seq _ _ _ _ (λ r w, P w ∧ r = Ok (find_many [device_mac bmc] SiteExplorer (suppressions w)))).
  - apply hoare_calm. intros c w _ Hw. split; [by apply Hset|done].
  - intros rws w sc Hsc [Hw Hr]. split; [done|]. split; [|done]. destruct (Hack w Hw) as (x & Hx & Ha). simplify_eq. simpl.
    f_equal. rewrite gate_decision_exact.
    + intros m y Hin Hy. apply list_elem_of_singleton in Hin as ->. unfold suppression in Hx. simplify_eq. by left.
    + intros m Hin. apply list_elem_of_singleton in Hin as ->. eauto.
  - by intros e w [].
Qed.

Lemma statement_calm (P : World → Prop) g txn :
  (∀ w, P w → ∃ w', g (in_txn txn w) = Ok w') →
  calm_run P (statement (λ _, g) txn)
    (λ r w, (∃ txn', r = Ok txn' ∧ ∀ w, in_txn txn' w = match g (in_txn txn w) with Ok w => w | Err _ => in_txn txn w end) ∧ P w).
Proof using Type.
  intros Hok. apply hoare_calm. intros c w _ Hw. simpl. destruct (Hok w Hw) as [w' ->]. split; [|done].
  eexists. split; [done|]. intros w1. by rewrite in_txn_app.
Qed.

(** What the transaction of the return to [Ready] does *)
Definition ends (w w' : World) : Prop :=
  w' = set_suppressions (resume_after_credential_change [device_mac bmc] ROTATION_SUPPRESSION_REASON (suppressions w))
         (set_power_shelves (if force then update_shelf (set_rotation_requested false) o (power_shelves w) else power_shelves w) w).

Lemma return_calm (P : World → Prop) :
  (∀ w, P w → power_shelves w = T) →
  calm_run P (txn ← begin_txn; txn ← (if force && true then on_shelves (clear_bmc_credential_rotation_requested o) txn else mret txn);
      txn ← statement (λ _ w, Ok (set_suppressions (resume_after_credential_change [device_mac bmc] ROTATION_SUPPRESSION_REASON (suppressions w)) w)) txn;
      mret (attach_txn txn (transition here Ready)))
    (λ r w, (∃ txn, r = Ok (attach_txn txn (transition here Ready)) ∧ ∀ w, power_shelves w = T → ends w (in_txn txn w)) ∧ P w).
Proof using HT.
  intros HP. eapply hoare_known; [by apply (hoare_calm t0 P _ _ (λ r w, r = Ok [] ∧ P w))|].
  eapply (hoare_seq _ _ _ _ (λ r w, (∃ txn, r = Ok txn ∧ ∀ w, power_shelves w = T → in_txn txn w =
    set_power_shelves (if force then update_shelf (set_rotation_requested false) o (power_shelves w) else power_shelves w) w) ∧ P w)).
  - rewrite andb_true_r. destruct force.
    + assert (Hg : ∀ w, power_shelves w = T → clear_bmc_credential_rotation_requested o (power_shelves w) =
        Ok (update_shelf (set_rotation_requested false) o (power_shelves w))).
      { intros w ->. unfold clear_bmc_credential_rotation_requested, found. by rewrite HT. }
      eapply hoare_weaken; [eapply (statement_calm P)|done|].
      * intros w Hw. cbn [in_txn foldl]. rewrite Hg by auto. simpl. eauto.
      * intros r w [(txn & -> & Ht) Hw]. split; [|done]. exists txn. split; [done|]. intros w1 H1. rewrite Ht. cbn [in_txn foldl].
        by rewrite Hg.
    + apply hoare_ret. intros w Hw. split; [|done]. exists []. split; [done|]. intros w1 _. by destruct w1.
  - intros txn. apply (hoare_assume _ (∀ w, power_shelves w = T → in_txn txn w =
      set_power_shelves (if force then update_shelf (set_rotation_requested false) o (power_shelves w) else power_shelves w) w));
      [by intros w [(? & [= <-] & H) _]|]. intros Ht. apply (hoare_from _ P); [by intros w [_ Hw]|].
    eapply hoare_seq; [apply (statement_calm P); eauto| |by intros e w [(? & ? & _) _]].
    intros txn'. apply (hoare_assume _ (∀ w, in_txn txn' w = set_suppressions (resume_after_credential_change [device_mac bmc]
      ROTATION_SUPPRESSION_REASON (suppressions (in_txn txn w))) (in_txn txn w))); [by intros w [(? & [= <-] & H) _]|].
    intros Ht'. apply hoare_ret. intros w [_ Hw]. split; [|done]. exists txn'. split; [done|].
    intros w1 H1. unfold ends. by rewrite Ht', Ht.
  - by intros e w [(? & ? & _) _].
Qed.

(** The world a rotation can start from *)
Definition set_out (w : World) : Prop :=
  ((recoverable bmc w ∧ ready bmc t0 force w) ∧ power_shelves w = T) ∧ ∃ x, suppression w = Some x ∧ is_Some (acknowledged_at x).

Lemma set_out_pause c why w : set_out w → set_out (set_suppressions (pause c [device_mac bmc] why (suppressions w)) w).
Proof using Type.
  intros [[[Hw Hr] HT'] (x & Hx & Ha)]. split; [split; [split|done]|].
  - by apply (recoverable_ext w).
  - destruct Hr as (t & d & c' & s & b & v & [[] Hb] & H). exists t, d, c', s, b, v. by split; [split; [split|]|].
  - exists x. split; [|done]. unfold suppression in *. cbn [suppressions set_suppressions]. rewrite lookup_pause, Hx. by case_decide.
Qed.

(** The rotation is over. *)
Definition rotation_over (w : World) : Prop :=
  settled bmc w ∧
  (∃ s, (λ r, (row_state r, row_object r)) <$> rows (power_shelves w) !! o =
     Some (mk_versioned Ready (increment (at_increment clk) (version (row_state row))), s) ∧
     ps_bmc_credential_rotation_requested s = false) ∧
  ∀ x, suppression w = Some x → reason x ≠ ROTATION_SUPPRESSION_REASON.

Lemma ends_committed txn c w :
  settled bmc w → power_shelves w = T → ends w (in_txn txn w) →
  rotation_over (commit_outcome o clk (row_state row) (Ok (attach_txn txn (transition here Ready))) c w).
Proof using HT Hbmc.
  intros Hs Hp He. change (attach_txn txn (transition here Ready)) with (Transition Ready here (Some txn)). split; [|split].
  - apply (settled_ext w); [|done]. rewrite (commit_shelf_view device_part) by done. cbn [default take_transaction fst id].
    rewrite He. done.
  - exists (if force then set_rotation_requested false (row_object row) else row_object row).
    split; [|by destruct force eqn:Hf].
    apply (commit_shelf_row o clk _ _ _ (Some txn) (mk_row (row_state row) (row_outcome row)
      (if force then set_rotation_requested false (row_object row) else row_object row))); [|done].
    simpl. rewrite He, Hp. cbn [power_shelves set_suppressions set_power_shelves]. destruct force; simpl.
    + by rewrite lookup_alter_eq, HT.
    + rewrite HT. clear. by destruct row.
  - intros x Hx. eapply (resumed (row_object row)); [done|]. rewrite Hbmc. rewrite <- Hx. rewrite (commit_shelf_view suppression) by done.
    cbn [default take_transaction fst id]. rewrite He. done.
Qed.

Lemma rotating_calm :
  calm_run set_out (handle_rotating_bmc here o (row_object row) k)
    (λ r w, (∃ txn, r = Ok (attach_txn txn (transition here Ready)) ∧ ∀ w, power_shelves w = T → ends w (in_txn txn w)) ∧
            settled bmc w ∧ power_shelves w = T).
Proof using HT Hbmc Hm.
  unfold handle_rotating_bmc. rewrite Hbmc. eapply hoare_known.
  { apply hoare_convert_known. apply (gate_calm set_out); [intros c w; apply set_out_pause|by intros w []]. }
  cbv iota. eapply (hoare_known _ _ (λ w, settled bmc w ∧ power_shelves w = T) _ _ Settled);
    [|by apply (return_calm (λ w, settled bmc w ∧ power_shelves w = T)); intros w []].
  unfold rotate_power_shelf_bmc. eapply (hoare_try _ _ _ _ (λ r w, (r = Ok Converged ∧ settled bmc w) ∧ power_shelves w = T)).
  - eapply hoare_weaken; [apply hoare_and; [by apply (rotate_bmc_calm bmc t0 force)|apply (rotate_bmc_kept _ (λ w, power_shelves w = T))]| |done];
      try done; [by intros st w Hst ?; apply (calm_others (λ w, power_shelves w = T))|by intros w [? _]].
  - intros x. apply (hoare_assume _ (x = Converged)); [by intros w [[[= ->] _] _]|]. intros ->. apply hoare_ret. by intros w [[_ ?] ?].
  - intros e w sc _ [[? _] _]. done.
  - by intros w [[? _] _].
Qed.

End Calm.

(** C18: A run on a shelf in [RotatingBmc] in which nothing fails and nobody else acts, with
    the pause acknowledged, finishes the rotation, from whichever side of the change an
    earlier run stopped at: the BMC and the store have the password of the target, the
    shelf is in [Ready] with the request of the operator cleared, and the suppression of
    the rotation is gone.  The BMC is recoverable and ready: it answers and accepts the
    password, an operator asked for the rotation or the row is not quarantined, and the
    vendor is known, for instance from the chassis, since the service root of a shelf names
    none. *)
Theorem shelf_rotation_completes t0 w sc row k :
  mac_ok bmc → rows (power_shelves w) !! o = Some row → value (row_state row) = RotatingBmc k →
  from_power_shelf (row_object row) = Some bmc → recoverable bmc w →
  ready bmc t0 (ps_bmc_credential_rotation_requested (row_object row)) w →
  (∃ x, suppression w = Some x ∧ is_Some (acknowledged_at x)) → (∀ n, calm_from t0 (sc n)) →
  rotation_over row (run svc here o clk cache w sc).2.1.
Proof using Type.
  intros Hm HT Hk Hbmc Hw Hr Hack Hsc. set (T := power_shelves w).
  enough (H : hoare (calm_from t0) (λ w1, w1 = w) (run svc here o clk cache) (λ _, rotation_over row)) by (by apply (H w sc Hsc)).
  set (sets := λ txn, ∀ w2, power_shelves w2 = T → ends row w2 (in_txn txn w2)).
  unfold run, object_run. eapply (hoare_known _ _ (λ w1, w1 = w)).
  { apply hoare_calm. intros c w1 _ ->. simpl. rewrite HT. done. }
  rewrite Hk. cbn [attempt_state_transition].
  eapply (hoare_try _ _ _ _ (λ r w1, (∃ txn, r = Ok (attach_txn txn (transition here Ready), cache) ∧ sets txn) ∧
    settled bmc w1 ∧ power_shelves w1 = T)).
  - apply (hoare_from _ (set_out t0 row T)); [by intros w1 ->|].
    eapply hoare_seq; [by apply (rotating_calm t0 row k T)| |by intros e w1 [(? & ? & _) _]].
    intros oc. apply hoare_ret. intros w1 [(txn & [= ->] & Ht) Hs]. eauto.
  - intros [oc c]. apply (hoare_assume _ (∃ txn, oc = attach_txn txn (transition here Ready) ∧ sets txn));
      [by intros w1 [(txn & [= -> _] & ?) _]; eauto|].
    intros (txn & -> & Ht). eapply (hoare_seq _ _ _ _ (λ _, rotation_over row)); [|intros []; by apply hoare_ret|done].
    apply hoare_calm. intros z w1 _ [_ [Hs Hp]]. apply (ends_committed row T); auto.
  - intros e w1 sc1 _ [(? & ? & _) _]. done.
  - by intros w1 [(? & ? & _) _].
Qed.

End Rotation.
