(* ===== verification/PowerShelfRuns.v ===== *)
(** * Runs of the power shelf controller

    What several runs of the controller on one shelf do: the deletion of a shelf, a request
    that is withdrawn while a run is starting on it, and a rotation that is given up; with
    an example of a shelf. *)

From S2P Require Import Prelude ConfigVersion StateHistory StateHandler ControllerIO ProcessObject ControllerTable PowerShelfTable.
From S2P Require Import Credentials CredentialRotation Calls RotationWorld HandlerRuns RotationEngine SitePause RotationEngineFacts RotationRuns.
From S2P Require Import PowerShelf PowerShelfFacts.

(** ** An example *)

Definition shelf_services : PowerShelfStateHandlerServices := mk_services None true (mk_gate 30 Bmc) true.
Definition nowhere : Location := mk_location "handler.rs" 1.
Definition now7 : Clock := mk_clock 7 7 7 7 7 0.
Definition no_cache : CachedAggregate := mk_cache None false.

Definition demo_shelf : PowerShelf :=
  mk_shelf "shelf" None None (Some "aa:bb"%string) true (Some (mk_bmc_info (Some "aa:bb"%string) (Some "10.0.0.1"%string) None))
    (Some "r1"%string) None None None.
Definition shelf_bmc : BmcRotationTarget := mk_target "aa:bb" ("10.0.0.1"%string, None) Probe.

(** The shelf [s] in the state [cs] *)
Definition shelf_in (cs : PowerShelfControllerState) (s : PowerShelf) (w : World) : World :=
  set_power_shelves (mk_table {[ "s1"%string := mk_row (mk_versioned cs (initial 0)) None s ]} empty_log) w.

(** The BMC of a shelf: its service root names no vendor, a chassis does. *)
Definition shelf_device (p : string) : BmcState :=
  mk_bmc (root p) false (λ _, true) true None [None; Some "LITE-ON Technology Corp."%string] true 0.

(** A shelf that rotates, with the pause acknowledged *)
Definition demo_rotating : World :=
  set_suppressions {[ ("aa:bb"%string, SiteExplorer) := mk_suppression ROTATION_SUPPRESSION_REASON 5 (Some 6) ]}
    (shelf_in (RotatingBmc 0) demo_shelf (set_bmcs {[ loc shelf_bmc := shelf_device "p0" ]} demo)).

Definition shelf_run (w : World) (sc : script World) : World := (run shelf_services nowhere "s1" now7 no_cache w sc).2.1.

Lemma shelf_mac : mac_ok shelf_bmc.
Proof. split; [by vm_compute|done]. Qed.

Lemma rotating_recoverable : recoverable shelf_bmc demo_rotating.
Proof.
  exists (mk_sitewide 1 0 EmptyString), (demo_row 0), (root "p0"), (root "p1"), (root "p0"). split.
  - split; vm_compute; reflexivity.
  - split; [by vm_compute| | |by left]; simpl; intros; simplify_eq; lia.
Qed.

Lemma rotating_ready : ready shelf_bmc 0 true demo_rotating.
Proof.
  exists (mk_sitewide 1 0 EmptyString), (demo_row 0), (root "p0"), (root "p1"), (shelf_device "p0"), LiteOnPowerShelf.
  split; [split; [split; vm_compute; reflexivity|by vm_compute]|]. split; [|by left].
  split; try done. right. split; [done|]. right. split; [by left|by vm_compute].
Qed.

Lemma lets_rotate_refl o bmc w : lets_rotate o bmc w w.
Proof. split; [apply undisturbed_refl|done|done|]. intros s Hs. by exists s. Qed.

Lemma at_call_lets o bmc k fates n : in_window o bmc 7 (at_call k fates n).
Proof.
  assert (H : ∀ f, in_window o bmc 7 (mk_step id f 0)) by (intros f; split; [intros w; apply lets_rotate_refl|done]).
  apply (script_of_all (in_window o bmc 7)); [apply H|].
  apply Forall_app. split; [induction k; constructor; [apply H|done]|].
  apply Forall_fmap, Forall_true. intros f. apply H.
Qed.

(** The process dies after the BMC took the password. *)
Lemma shelf_rotation_window_witness :
  let w := shelf_run demo_rotating (at_call 13 [Dies]) in
  window "s1" now7 shelf_bmc 7 (Some (root "p0")) (mk_versioned (RotatingBmc 0) (initial 0)) w ∧ acct shelf_bmc w = Some (root "p1").
Proof.
  intros w. split; [|by vm_compute].
  refine (proj2 (proj2 (shelf_rotation_window shelf_services nowhere "s1" now7 no_cache shelf_bmc 7 (Some (root "p0"))
    (mk_versioned (RotatingBmc 0) (initial 0)) 0 shelf_mac eq_refl) demo_rotating (at_call 13 [Dies]) _ _)).
  - apply at_call_lets.
  - split; [split; [exact rotating_recoverable|by vm_compute]|]. split; by vm_compute.
Defined.

Lemma shelf_rotation_completes_witness :
  rotation_over "s1" now7 shelf_bmc (mk_row (mk_versioned (RotatingBmc 0) (initial 0)) None demo_shelf)
    (shelf_run demo_rotating (λ _, quiet)).
Proof.
  refine (shelf_rotation_completes shelf_services nowhere "s1" now7 no_cache shelf_bmc 0 demo_rotating (λ _, quiet) _ 0
    shelf_mac eq_refl eq_refl eq_refl rotating_recoverable rotating_ready _ _).
  - eexists. split; [by vm_compute|done].
  - intros n. by repeat split.
Defined.

(** Retries are counted across holds: after the write to the store failed once, three runs
    that cannot reach the database end the rotation, with the pause withdrawn and the BMC
    ahead of the store. *)
Lemma gave_up_ahead_of_store :
  let held := shelf_run demo_rotating (at_call 14 [FailsBefore "timeout"]) in
  let w := Nat.iter 3 (λ w, shelf_run w (at_call 2 [FailsBefore "timeout"])) held in
  value <$> state_of "s1" held = Some (RotatingBmc 0) ∧
  value <$> state_of "s1" w = Some Ready ∧ suppression shelf_bmc w = None ∧
  acct shelf_bmc w = Some (root "p1") ∧ stored shelf_bmc w = Some (root "p0").
Proof. by vm_compute. Qed.

(** ** A request that is withdrawn during a run *)

Section Stuck.
Context (svc : PowerShelfStateHandlerServices) (here : Location) (o : string).

(** The shelf waits for the rack, and the request it was to work on is gone. *)
Definition stuck (w : World) : Prop := ∃ row st, rows (power_shelves w) !! o = Some row ∧
  value (row_state row) = ReProvisioning st ∧ ps_reprovisioning_requested (row_object row) = None.

(** Nobody posts a new request or writes the state of the controller. *)
Definition no_request (w w' : World) : Prop := ∀ row, rows (power_shelves w) !! o = Some row → ∃ row',
  rows (power_shelves w') !! o = Some row' ∧ row_state row' = row_state row ∧
  (ps_reprovisioning_requested (row_object row) = None → ps_reprovisioning_requested (row_object row') = None).

Lemma stuck_stays w w' : stuck w → no_request w w' → stuck w'.
Proof using Type.
  intros (row & st & Hrow & Hst & Hn) Hl. destruct (Hl row Hrow) as (row' & Hrow' & Hs & Hr). exists row', st.
  rewrite Hs. auto.
Qed.

Lemma stuck_run clk cache :
  hoare (relies no_request) stuck (run svc here o clk cache) (λ r w, stuck w ∧ ∃ e, r = Err e).
Proof using Type.
  unfold run, object_run. eapply (hoare_seq _ _ _ _ (λ r w, stuck w ∧ ∀ row, r = Ok row →
    ∃ st, value (row_state row) = ReProvisioning st ∧ ps_reprovisioning_requested (row_object row) = None)).
  - apply (hoare_rely _ _ stuck); [by intros w w' ? ?; eapply stuck_stays| |by intros; split..].
    intros c w Hw. split; [|done]. split; [done|]. destruct Hw as (row & st & Hrow & Hst & Hn). intros row'. simpl.
    rewrite Hrow. intros [= <-]. eauto.
  - intros row. apply (hoare_assume _ (∃ st, value (row_state row) = ReProvisioning st ∧
      ps_reprovisioning_requested (row_object row) = None)); [naive_solver|]. intros (st & Hst & Hn).
    apply (hoare_from _ stuck); [by intros w []|]. rewrite Hst. intros w sc Hsc Hw.
    assert (E : ∀ k, (catch (attempt_state_transition svc here o (row_object row) (ReProvisioning st) cache) ≫= k : handler CachedAggregate)
      w sc = (Err Crashed, (w, sc))).
    { intros k. unfold attempt_state_transition, handle_reprovisioning, rack_failed_abort_outcome, is_rack_level_reprovisioning.
      rewrite Hn. destruct st. done. }
    rewrite E. split; [done|]. simpl. eauto.
  - intros e w [Hw _]. eauto.
Qed.

(** Runs of the controller, and what others do between them *)
Inductive again (w : World) : World → Prop :=
| again_run clk cache sc : (∀ n, relies no_request (sc n)) → again w (run svc here o clk cache w sc).2.1
| again_others w' : no_request w w' → again w w'.

Lemma stuck_again w w' : stuck w → rtc again w w' → stuck w'.
Proof using Type.
  intros Hw H. induction H as [|w w1 w2 Hstep _ IH]; [done|]. apply IH. destruct Hstep as [clk cache sc Hsc|w1 Hl].
  - apply (stuck_run clk cache w sc Hsc Hw).
  - by eapply stuck_stays.
Qed.

(** The rack takes its request back. *)
Definition rack_withdraws (initiator : string) (w : World) : World :=
  set_power_shelves (clear_ready_power_shelf_reprovisioning_requested o initiator (power_shelves w)).2 w.

(** C38: A rack may take back the request for reprovisioning of a shelf in [Ready] while a
    run of the controller has read it and not yet stored its transition.  The transition is
    stored all the same, since the row kept its version; from then on every run of the
    controller on the shelf fails (by a panic, once it has read the row) and the shelf
    never leaves [ReProvisioning], until somebody posts a new request. *)
Theorem withdrawn_request_strands clk cache w row req t1 t2 :
  rows (power_shelves w) !! o = Some row → value (row_state row) = Ready →
  is_marked_as_deleted (row_object row) = false → ps_maintenance_requested (row_object row) = None →
  ps_reprovisioning_requested (row_object row) = Some req → rack_initiated (rr_initiator req) = true →
  rack_firmware_reprovisioning_enabled svc = true → firmware_upgrade_requested (rr_activities req) = true →
  let sc := script_of [mk_step id Works t1; mk_step (rack_withdraws (rr_initiator req)) Works t2] in
  let w1 := (run svc here o clk cache w sc).2.1 in
  ∀ w', rtc again w1 w' →
    value <$> state_of o w' = Some (ReProvisioning WaitingForRackFirmwareUpgrade) ∧
    ∀ clk cache sc, (∀ n, relies no_request (sc n)) → ∃ e, (run svc here o clk cache w' sc).1 = Err e.
Proof using Type.
  intros Hrow Hst Hd Hmr Hreq Hrack Hen Hfw sc w1 w' Hw'.
  assert (Hh : handle_ready svc here o (row_object row) cache =
    mret (transition here (ReProvisioning WaitingForRackFirmwareUpgrade), cache)).
  { unfold handle_ready, first_reprovisioning_state. by rewrite Hd, Hmr, Hreq, Hen, Hrack, Hfw. }
  assert (Hrun : w1 = commit_outcome o clk (row_state row) (Ok (transition here (ReProvisioning WaitingForRackFirmwareUpgrade))) t2
    (rack_withdraws (rr_initiator req) w)).
  { unfold w1, run, object_run, mbind, prog_bind. cbn. rewrite Hrow. cbn. rewrite Hst. cbn [attempt_state_transition]. rewrite Hh. done. }
  assert (Hw1 : stuck w1).
  { assert (Hr : rows (power_shelves (rack_withdraws (rr_initiator req) w)) !! o =
      Some (mk_row (row_state row) (row_outcome row) (set_reprovisioning None (row_object row)))).
    { unfold rack_withdraws, clear_ready_power_shelf_reprovisioning_requested. rewrite Hrow, Hst, Hreq, decide_True by done.
      simpl. by rewrite lookup_alter_eq, Hrow. }
    assert (Hc : (λ r, (row_state r, row_object r)) <$> rows (power_shelves w1) !! o =
      Some (mk_versioned (ReProvisioning WaitingForRackFirmwareUpgrade) (increment (at_increment clk) (version (row_state row))),
            set_reprovisioning None (row_object row))).
    { rewrite Hrun. exact (commit_shelf_row o clk (row_state row) _ here None _ t2 _ Hr eq_refl). }
    destruct (rows (power_shelves w1) !! o) as [r|] eqn:E; [|done]. injection Hc as Hs Ho.
    exists r, WaitingForRackFirmwareUpgrade. by rewrite Hs, Ho. }
  assert (Hs : stuck w') by by eapply stuck_again. split.
  - destruct Hs as (row' & st & Hrow' & Hst' & _). unfold state_of. rewrite Hrow'. simpl. rewrite Hst'. by destruct st.
  - intros clk' cache' sc' Hsc'. apply (stuck_run clk' cache' w' sc' Hsc' Hs).
Qed.

End Stuck.

Definition rack_request : PowerShelfReprovisionRequest := mk_reprovision 5 "rack-r1" [].

Lemma withdrawn_request_strands_witness :
  let w := shelf_in Ready (set_reprovisioning (Some rack_request) demo_shelf) demo in
  let sc := script_of [mk_step id Works 0; mk_step (rack_withdraws "s1" "rack-r1") Works 0] in
  let w' := shelf_run (shelf_run w sc) (λ _, quiet) in
  value <$> state_of "s1" w' = Some (ReProvisioning WaitingForRackFirmwareUpgrade) ∧
  ∃ e, (run shelf_services nowhere "s1" now7 no_cache w' (λ _, quiet)).1 = Err e.
Proof.
  intros w sc w'.
  assert (Hq : ∀ n : nat, relies (no_request "s1") ((λ _, quiet) n)) by (intros n x row Hrow; by exists row).
  destruct (withdrawn_request_strands shelf_services nowhere "s1" now7 no_cache w
    (mk_row (mk_versioned Ready (initial 0)) None (set_reprovisioning (Some rack_request) demo_shelf)) rack_request 0 0
    eq_refl eq_refl eq_refl eq_refl eq_refl eq_refl eq_refl eq_refl w') as [H1 H2].
  - apply rtc_once. by apply (again_run shelf_services nowhere "s1" _ now7 no_cache (λ _, quiet)).
  - split; [exact H1|]. exact (H2 now7 no_cache (λ _, quiet) Hq).
Defined.

(** ** Deletion *)

Section Deletion.
Context (svc : PowerShelfStateHandlerServices) (here : Location) (o : string) (t0 : Z).

Definition shelf_with (P : PowerShelfControllerState → PowerShelf → Prop) (w : World) : Prop :=
  ∃ row, rows (power_shelves w) !! o = Some row ∧ P (value (row_state row)) (row_object row).

Lemma load_calm P {A} (f : shelf_row → handler A) Q :
  (∀ row, P (value (row_state row)) (row_object row) →
     hoare (calm_from t0) (λ w, rows (power_shelves w) !! o = Some row) (f row) Q) →
  hoare (calm_from t0) (shelf_with P)
    (row ← read DBError (λ _ w, ok_or (rows (power_shelves w) !! o) (MissingData o "object_state")); f row) Q.
Proof using Type.
  intros Hf. eapply (hoare_seq _ _ _ _ (λ r w, ∃ row, r = Ok row ∧ rows (power_shelves w) !! o = Some row ∧
    P (value (row_state row)) (row_object row))).
  - apply hoare_calm. intros c w _ (row & Hrow & HP). exists row. simpl. by rewrite Hrow.
  - intros row. apply (hoare_assume _ (P (value (row_state row)) (row_object row))); [by intros w (? & [= <-] & _ & ?)|].
    intros HP. eapply hoare_weaken; [by apply Hf| |done]. intros w (? & [= <-] & ? & _). done.
  - by intros e w (? & ? & _).
Qed.

Lemma marked_run clk cache :
  hoare (calm_from t0)
    (shelf_with (λ cs s, is_marked_as_deleted s = true ∧ match cs with Ready | Error _ => True | _ => False end))
    (run svc here o clk cache) (λ _, shelf_with (λ cs _, cs = Deleting)).
Proof using Type.
  apply load_calm. intros row [Hd Hcs].
  eapply (hoare_known _ _ (λ w, rows (power_shelves w) !! o = Some row) _ _ (Ok (transition here Deleting, cache))).
  { apply hoare_catch. destruct (value (row_state row)); try done; unfold attempt_state_transition, handle_ready, handle_error;
      rewrite Hd; by apply hoare_ret. }
  eapply (hoare_seq _ _ _ _ (λ _, shelf_with (λ cs _, cs = Deleting))); [|intros []; by apply hoare_ret|done].
  apply hoare_calm. intros c w _ Hrow. simpl.
  pose proof (commit_shelf_row o clk (row_state row) Deleting here None row c w Hrow eq_refl) as Hc.
  unfold shelf_with, transition. unfold commit_outcome in Hc. destruct (rows (power_shelves (commit_run _ _ _ _ _ _ _ _ _)) !! o) as [r|]; [|done].
  injection Hc as Hs _. exists r. by rewrite Hs.
Qed.

Lemma deleting_run clk cache :
  hoare (calm_from t0) (shelf_with (λ cs _, cs = Deleting)) (run svc here o clk cache)
    (λ _ w, rows (power_shelves w) !! o = None).
Proof using Type.
  apply load_calm. intros row Hd. rewrite Hd. unfold attempt_state_transition, handle_deleting.
  set (gone := λ txn, ∀ w, rows (power_shelves w) !! o = Some row → rows (power_shelves (in_txn txn w)) !! o = None).
  eapply (hoare_seq _ _ _ _ (λ r w, (∃ txn, r = Ok (Ok (attach_txn txn (deleted here), cache)) ∧ gone txn) ∧
    rows (power_shelves w) !! o = Some row)).
  { apply hoare_catch. eapply (hoare_seq _ _ _ _ (λ r w, (∃ txn, r = Ok (attach_txn txn (deleted here)) ∧ gone txn) ∧
      rows (power_shelves w) !! o = Some row)).
    - eapply (hoare_known _ _ (λ w, rows (power_shelves w) !! o = Some row)); [by apply hoare_calm|].
      eapply (hoare_seq _ _ _ _ (λ r w, (∃ txn, r = Ok txn ∧ gone txn) ∧ rows (power_shelves w) !! o = Some row)).
      + apply hoare_calm. intros c w _ Hrow. split; [|done]. cbn. unfold final_delete. rewrite Hrow. eexists. split; [done|].
        intros w1 H1. cbn. rewrite H1. cbn. apply lookup_delete_eq.
      + intros txn. apply hoare_ret. intros w [(? & [= <-] & ?) ?]. eauto.
      + by intros e w [(? & ? & _) _].
    - intros oc. apply hoare_ret. intros w [(? & [= ->] & ?) ?]. eauto.
    - by intros e w [(? & ? & _) _]. }
  2: by intros e w [(? & ? & _) _].
  intros x. apply (hoare_assume _ (∃ txn, x = Ok (attach_txn txn (deleted here), cache) ∧ gone txn));
    [by intros w [(txn & [= ->] & ?) _]; eauto|]. intros (txn & -> & Ht).
  eapply (hoare_seq _ _ _ _ (λ _ w, rows (power_shelves w) !! o = None)); [|intros []; by apply hoare_ret|done].
  apply hoare_calm. intros c w _ [_ Hrow]. specialize (Ht w Hrow). exact Ht.
Qed.

(** A shelf in [Ready] or [Error] that is marked as deleted is gone after two runs in
    which nothing fails, whatever other requests it has. *)
Theorem shelf_deletion_completes w row clk1 clk2 cache1 cache2 sc1 sc2 :
  rows (power_shelves w) !! o = Some row → is_marked_as_deleted (row_object row) = true →
  match value (row_state row) with Ready | Error _ => True | _ => False end →
  (∀ n, calm_from t0 (sc1 n)) → (∀ n, calm_from t0 (sc2 n)) →
  let w1 := (run svc here o clk1 cache1 w sc1).2.1 in
  let w2 := (run svc here o clk2 cache2 w1 sc2).2.1 in
  value <$> state_of o w1 = Some Deleting ∧ state_of o w2 = None.
Proof using Type.
  intros Hrow Hd Hcs Hsc1 Hsc2 w1 w2.
  assert (H1 : shelf_with (λ cs _, cs = Deleting) w1) by (apply (marked_run clk1 cache1 w sc1 Hsc1); by exists row).
  split.
  - destruct H1 as (r & Hr & Hv). unfold state_of. rewrite Hr. simpl. by rewrite Hv.
  - apply fmap_None. apply (deleting_run clk2 cache2 w1 sc2 Hsc2 H1).
Qed.

End Deletion.

Lemma shelf_deletion_completes_witness :
  let w := shelf_in (Error "pmc lost") (set_deleted (Some 9) demo_shelf) demo in
  let w1 := shelf_run w (λ _, quiet) in
  value <$> state_of "s1" w1 = Some Deleting ∧ state_of "s1" (shelf_run w1 (λ _, quiet)) = None.
Proof.
  refine (shelf_deletion_completes shelf_services nowhere "s1" 0 (shelf_in (Error "pmc lost") (set_deleted (Some 9) demo_shelf) demo)
    (mk_row (mk_versioned (Error "pmc lost") (initial 0)) None (set_deleted (Some 9) demo_shelf)) now7 now7 no_cache no_cache
    (λ _, quiet) (λ _, quiet) eq_refl eq_refl I _ _); intros n; by repeat split.
Defined.

(** ** Power shelves under the state processor

    [power-shelf-controller/src/io.rs]: the interface of the power shelf controller to the
    processor, over the database that its handlers act on; and that a run of the controller
    is what [process_object] does with the result of the handler. *)

Section Processor.
Context (debug : PowerShelfControllerState → string).

(** [PowerShelfStateControllerIO]; the last argument is the time of the database. *)
Definition shelf_io : Z → StateControllerIO World string shelf_row PowerShelfControllerState :=
  world_io power_shelves set_power_shelves shelf_state_sla shelf_state_names shelf_intervention debug.

Lemma shelf_io_laws db_now : StateControllerIOLaws World string shelf_row PowerShelfControllerState
  (IO := shelf_io db_now) (V := world_view power_shelves).
Proof using Type. by apply world_io_laws. Qed.

(** A run of the controller on a shelf whose own statements work leaves the database
    that [process_object] leaves when it is given what the handler did and returned,
    whatever failed inside the handler: the transaction of the outcome, the guarded
    transition with its history, and the stored outcome. *)
Theorem shelf_run_refines svc here o clk cache w sc row r w' sc' :
  rows (power_shelves w) !! o = Some row → calm (sc 0%nat) →
  (catch (attempt_state_transition svc here o (row_object row) (value (row_state row)) cache) : handler _) w (later sc) =
    (Ok r, (w', sc')) → calm (sc' 0%nat) →
  (run svc here o clk cache w sc).2.1 =
    committed (handle (IO := shelf_io (clock (sc' 0%nat))) (handled w' (fst <$> r)) clk o
                 (ProcessObject.mk_world w [] default_metrics)).2.
Proof using Type. by apply (object_run_refines power_shelves set_power_shelves shelf_state_sla). Qed.

End Processor.

Lemma shelf_run_refines_witness :
  let w := shelf_in (Error "pmc lost") (set_deleted (Some 9) demo_shelf) demo in
  shelf_run w (λ _, quiet) =
    committed (handle (IO := shelf_io (λ _, EmptyString) 0) (handled w (Ok (transition nowhere Deleting))) now7 "s1"
      (ProcessObject.mk_world w [] default_metrics)).2.
Proof.
  exact (shelf_run_refines (λ _, EmptyString) shelf_services nowhere "s1" now7 no_cache
    (shelf_in (Error "pmc lost") (set_deleted (Some 9) demo_shelf) demo) (λ _, quiet)
    (mk_row (mk_versioned (Error "pmc lost") (initial 0)) None (set_deleted (Some 9) demo_shelf))
    (Ok (transition nowhere Deleting, no_cache)) (shelf_in (Error "pmc lost") (set_deleted (Some 9) demo_shelf) demo)
    (later (λ _, quiet)) eq_refl (conj eq_refl (λ _, eq_refl)) eq_refl (conj eq_refl (λ _, eq_refl))).
Defined.
