(* ===== verification/StageRotation.v ===== *)
(** * Staging a rotation, and its status

    [api-core/src/handlers/credential_rotation.rs]: the request that stores the next version
    of a site-wide credential and publishes it as the target, and the report of progress.
    A transaction is one call.  The generator of passwords draws from [draws]; the text of
    the metadata and the parser of hardware addresses are arguments. *)

From S2P Require Import Prelude ObjectQueue Credentials CredentialRotation Calls RotationWorld.

(** [CarbideError], as far as the handlers return it *)
Inductive CarbideError :=
| NotFoundError (kind id : string)
| InvalidArgumentError (message : string)
| FailedPrecondition (message : string)
| ConcurrentModificationError (what message : string)
| InternalError (message : string)
| DbError (e : DatabaseError).

(** [to_rotation_type] on the numbers of the proto enum *)
Definition to_rotation_type (credential_type : Z) : result CarbideError CredentialRotationType :=
  match credential_type with
  | 0 => Err (InvalidArgumentError "credential_type must be set to a specific rotation family")
  | 1 => Ok Bmc
  | 2 => Ok HostUefi
  | 3 => Ok DpuUefi
  | 4 => Ok Nvos
  | 5 => Ok LockdownIkm
  | n => Err (NotFoundError "rotation_credential_type" (print_i n))
  end.

(** [versioned_rotation_key] *)
Definition versioned_rotation_key (t : CredentialRotationType) (version : Z) : CredentialKey :=
  match t with
  | Bmc => BmcCredentials (SiteWideRootVersioned version)
  | HostUefi => HostUefiSiteVersioned version
  | DpuUefi => DpuUefiSiteVersioned version
  | LockdownIkm => NicLockdownIkm version
  | Nvos => SwitchNvosSiteAdmin version
  end.

(** [to_u32] and [opt_to_u32] *)
Definition version_to_u32 (value : Z) (what : string) : result CarbideError Z :=
  if 0 <=? value then Ok value
  else Err (InternalError (what +:+ " " +:+ print_i value +:+ " is not representable")).
Definition opt_to_u32 (value : option Z) (what : string) : result CarbideError (option Z) :=
  match value with
  | Some v => v ← version_to_u32 v what; Ok (Some v)
  | None => Ok None
  end.

Notation api_call := (prog World CarbideError).

(** A panic of the handler *)
Definition panic {A} : api_call A := λ w sc, (Err Crashed, (w, sc)).

(** ** Credential sources of switches *)

Definition usable (c : option Credentials) : bool :=
  match c with
  | Some c => negb (bool_decide (username c = EmptyString)) && negb (bool_decide (password c = EmptyString))
  | None => false
  end.

(** The loop of [require_nvos_credential_sources] *)
Fixpoint missing_sources (gaps : list (string * option string * bool)) : api_call (list string) :=
  match gaps with
  | [] => mret []
  | (id, None, _) :: gaps =>
      l ← missing_sources gaps; mret ((id +:+ " (BMC MAC unavailable)") :: l)
  | (_, Some mac, true) :: gaps =>
      l ← missing_sources gaps;
      mret ((mac +:+ " (expected-switch NVOS credentials are partial or empty)") :: l)
  | (_, Some mac, false) :: gaps =>
      c ← convert (λ e, InternalError ("failed to check current NVOS credential for " +:+ mac +:+ ": " +:+ e))
            (get_credentials (SwitchNvosAdmin mac));
      l ← missing_sources gaps;
      mret (if usable c then l else mac :: l)
  end.

(** [require_nvos_credential_sources] *)
Definition require_nvos_credential_sources : api_call () :=
  gaps ← read (DbError ∘ QueryError) (λ _ w, Ok (nvos_credential_source_gaps (rot w)));
  missing ← missing_sources gaps;
  match missing with
  | [] => mret ()
  | _ => lift (Err (FailedPrecondition
           ("NVOS rotation requires current credentials for all live switches; missing credential source for "
            +:+ String.concat ", " missing)))
  end.

(** ** The secret *)

(** [stage_versioned_secret] *)
Definition stage_versioned_secret (key : CredentialKey) (new_credentials : Credentials)
    (operator_supplied_password : bool) (next_version : Z) : api_call () :=
  let version := print_i next_version in
  created ← catch (create_credentials key new_credentials);
  staged ← match created with
           | Ok () => mret new_credentials
           | Err create_err =>
               existing ← catch (get_credentials_from_writer key);
               match existing with
               | Ok (Some existing) =>
                   if operator_supplied_password && negb (bool_decide (existing = new_credentials)) then
                     lift (Err (ConcurrentModificationError "credential rotation"
                       ("rotate-to version " +:+ version +:+ " is already staged with a different password")))
                   else mret existing
               | _ => lift (Err (InternalError
                       ("failed to stage the rotate-to secret at version " +:+ version +:+ ": " +:+ create_err)))
               end
           end;
  persisted ← convert (λ e, InternalError ("failed to read back the rotate-to secret at version " +:+ version +:+ ": " +:+ e))
                (get_credentials_from_writer key);
  _ ← lift (if decide (persisted = Some staged) then Ok ()
            else Err (InternalError ("rotate-to secret readback did not match version " +:+ version)));
  eff ← convert (λ e, InternalError ("failed to read the effective rotate-to secret at version " +:+ version +:+ ": " +:+ e))
          (get_credentials key);
  lift (if decide (eff = Some staged) then Ok ()
        else Err (InternalError ("effective rotate-to secret readback did not match version " +:+ version))).

(** ** The request *)

(** [RotateCredentialRequest] *)
Record RotateCredentialRequest := mk_rotate {
  req_credential_type : Z;
  req_password : option string;
  req_reason : option string;
}.

(** [RotateCredentialResult] *)
Record RotateCredentialResult := mk_rotated {
  res_credential_type : Z;
  res_target_version : Z;
  res_started_at : Z;
}.

(** The ids of live switches, and [enqueue_nvos_rotation_switches] *)
Definition live_switch_ids (db : rotation_db) : list string :=
  (filter (λ e, switch_deleted e.2 = false) (map_to_list (switches db))).*1.
Definition enqueue_nvos_rotation_switches (now : Z) (w : World) : World :=
  set_switch_queue (queue_objects now (switch_queue w) (live_switch_ids (rot w))).2 w.

Definition policy_text (e : PasswordPolicyError) : string :=
  match e with
  | TooShort min actual => "password too short: " +:+ print_i (Z.of_nat actual) +:+ " characters, minimum " +:+ print_i (Z.of_nat min)
  | MissingCharacterClasses missing => "password is missing required character classes: " +:+ missing
  end.

(** The next version of a target *)
Definition next_target (t : CredentialRotationType) (current : option Z) : result CarbideError Z :=
  match current with
  | Some c => if c <? i32_max then Ok (c + 1)
              else Err (InternalError ("rotation target version " +:+ print_i c +:+ " cannot be advanced"))
  | None => if decide (t = Nvos) then Ok 0
            else Err (FailedPrecondition ("no site-wide rotation target exists for " +:+ rotation_type_debug t))
  end.

(** The transaction that publishes the target *)
Definition publish_target (t : CredentialRotationType) (current : option Z) (meta : string) (now : Z) (w : World)
    : result CarbideError StagedRotation * World :=
  let published := match current with
                   | Some c => set_next_target_version now t c meta (rot w)
                   | None => Ok (set_initial_target_version now t meta (rot w))
                   end in
  match published with
  | Err e => (Err (DbError e), w)
  | Ok (None, _) => (Err (ConcurrentModificationError "credential rotation"
                            ("the site-wide target for " +:+ rotation_type_debug t +:+ " changed during this rotation")), w)
  | Ok (Some staged, db) =>
      let w := set_rot db w in
      (Ok staged, if decide (t = Nvos) then enqueue_nvos_rotation_switches now w else w)
  end.

Section Request.
Context (component_manager : option bool) (draws : Draws).
Context (request_meta_json : option string → list string → string).

(** The rollout gates of NVOS; the component manager says whether it supports rotation. *)
Definition nvos_preconditions (t : CredentialRotationType) : api_call () :=
  if decide (t = Nvos) then
    match component_manager with
    | None => lift (Err (FailedPrecondition "NVOS rotation requires component manager to be configured"))
    | Some false => lift (Err (FailedPrecondition
        "NVOS rotation requires a component-manager switch backend that supports password rotation"))
    | Some true => require_nvos_credential_sources
    end
  else mret ().

Definition rotate_to_password (supplied : option string) : api_call string :=
  match supplied with
  | Some p => lift (match validate_password_strength p with
                    | Ok () => Ok p
                    | Err e => Err (InvalidArgumentError (policy_text e))
                    end)
  | None => match generate_password draws with Some p => mret p | None => panic end
  end.

(** [rotate_credential] *)
Definition rotate_credential (initiator : list string) (req : RotateCredentialRequest)
    : api_call RotateCredentialResult :=
  t ← lift (to_rotation_type (req_credential_type req));
  _ ← nvos_preconditions t;
  password ← rotate_to_password (req_password req);
  let new_credentials := UsernamePassword EmptyString password in
  current ← read (DbError ∘ QueryError) (λ _ w, Ok (current_target_version t (rot w)));
  next ← lift (next_target t current);
  next_version ← lift (version_to_u32 next "rotation target version");
  _ ← stage_versioned_secret (versioned_rotation_key t next_version) new_credentials
        (bool_decide (is_Some (req_password req))) next_version;
  let meta := request_meta_json (req_reason req) initiator in
  staged ← call (DbError ∘ QueryError) (publish_target t current meta);
  target_version ← lift (version_to_u32 (staged_target staged) "staged target version");
  mret (mk_rotated (req_credential_type req) target_version (staged_at staged)).

End Request.

(** ** Status *)

(** [CredentialRotationStatusResult]; the detail of a device is a [DeviceRotationStatus]. *)
Record CredentialRotationStatusResult := mk_report {
  rep_target_version : Z;
  rep_converged : Z;
  rep_pending : Z;
  rep_quarantined : Z;
  rep_quarantined_device_macs : list string;
  rep_started_at : Z;
  rep_complete : bool;
  rep_device : option DeviceRotationStatus;
}.

(** [device_rotation_status_response] on the row *)
Definition device_report (id : string) (status : option DeviceRotationStatus)
    : result CarbideError CredentialRotationStatusResult :=
  s ← ok_or status (NotFoundError "device_credential_rotation" id);
  let pending := negb (ds_converged s) && negb (ds_quarantined s) in
  current ← opt_to_u32 (ds_current_version s) "current version";
  rotating ← opt_to_u32 (ds_rotating_to_version s) "rotating-to version";
  attempts ← version_to_u32 (ds_rotate_attempts s) "rotate attempts";
  target ← version_to_u32 (ds_target_version s) "target version";
  Ok (mk_report target (Z.b2z (ds_converged s)) (Z.b2z pending) (Z.b2z (ds_quarantined s))
        (if ds_quarantined s then [ds_device_mac s] else []) (ds_started_at s)
        (ds_converged s && negb (ds_quarantined s))
        (Some (mk_device_status (ds_target_version s) (ds_started_at s) (ds_device_mac s) current rotating
                 (ds_converged s) (ds_quarantined s) (ds_quarantined_until s) attempts
                 (ds_last_attempt_at s) (ds_last_error s)))).

(** The site-wide report of [get_credential_rotation_status] *)
Definition site_report (s : RotationStatus) : result CarbideError CredentialRotationStatusResult :=
  target ← version_to_u32 (st_target_version s) "target version";
  Ok (mk_report target (Z.of_nat (converged s)) (Z.of_nat (pending s)) (Z.of_nat (quarantined s))
        (quarantined_device_macs s) (st_started_at s)
        (bool_decide (pending s = 0%nat) && bool_decide (quarantined s = 0%nat)) None).

(** [get_credential_rotation_status] *)
Definition get_credential_rotation_status (parse_mac : string → result string string) (credential_type : Z)
    (device_mac : option string) : api_call CredentialRotationStatusResult :=
  t ← lift (to_rotation_type credential_type);
  match device_mac with
  | Some text =>
      mac ← lift (map_err (λ e, InvalidArgumentError ("device_mac '" +:+ text +:+ "' is not a valid MAC address: " +:+ e))
                    (parse_mac text));
      status ← read (DbError ∘ QueryError) (λ now w, map_err DbError (device_rotation_status now t mac (rot w)));
      lift (device_report text status)
  | None =>
      status ← read (DbError ∘ QueryError) (λ now w, map_err DbError (rotation_status now t (rot w)));
      lift (site_report status)
  end.
