(* ===== verification/StageRotationFacts.v ===== *)
(** * Targets are published after their secrets

    What any number of concurrent requests keep: secrets of versions never change, targets
    only grow, and every published target has its secret.  And the exact outcome of one
    undisturbed request, errors included. *)

From S2P Require Import Prelude ControllerTable ObjectQueue Credentials CredentialRotation Calls RotationWorld StageRotation.

Notation vkey := versioned_rotation_key.

(** Every published target has its secret; version 0 of the families that exist before
    any rotation is provisioned in another way. *)
Definition staged (w : World) : Prop :=
  ∀ t s, sitewide (rot w) !! t = Some s → 0 < target_version s ∨ t = Nvos →
    is_Some (effective w (vkey t (target_version s))).

(** What others, and the handler itself, do *)
Record honest (w w' : World) : Prop := {
  hon_store t v c : store w !! path (vkey t v) = Some c → store w' !! path (vkey t v) = Some c;
  hon_shadow t v : shadow w' !! path (vkey t v) = shadow w !! path (vkey t v);
  hon_target t s : sitewide (rot w) !! t = Some s →
    ∃ s', sitewide (rot w') !! t = Some s' ∧ target_version s ≤ target_version s';
  hon_staged : staged w → staged w';
}.

Lemma honest_refl w : honest w w.
Proof. split; eauto. intros t s Hs. exists s. split; [done|lia]. Qed.

Lemma honest_trans w1 w2 w3 : honest w1 w2 → honest w2 w3 → honest w1 w3.
Proof.
  intros [A1 B1 C1 D1] [A2 B2 C2 D2]. split; eauto.
  - intros t v. by rewrite B2, B1.
  - intros t s Hs. destruct (C1 t s Hs) as (s' & Hs' & Hle). destruct (C2 t s' Hs') as (s2 & Hs2 & Hle2).
    exists s2. split; [done|lia].
Qed.

#[export] Instance honest_preorder : PreOrder honest.
Proof. split; [intros w; apply honest_refl|intros w1 w2 w3; apply honest_trans]. Qed.

Lemma honest_effective t v c w w' : effective w (vkey t v) = Some c → honest w w' → effective w' (vkey t v) = Some c.
Proof.
  unfold effective. intros H [Hs Hsh _ _]. rewrite Hsh. destruct (shadow w !! _); [done|by apply Hs].
Qed.

(** Only the tables of targets and rows, and the store, matter. *)
Lemma honest_same w w' : store w' = store w → shadow w' = shadow w → sitewide (rot w') = sitewide (rot w) → honest w w'.
Proof.
  intros H1 H2 H3. split.
  - intros t v c. by rewrite H1.
  - intros t v. by rewrite H2.
  - intros t s Hs. exists s. rewrite H3. split; [done|lia].
  - intros H t s Hs Hp. rewrite H3 in Hs. unfold effective. rewrite H1, H2. by apply H.
Qed.

Lemma create_honest k c w : store w !! path k = None → honest w (set_store (<[path k := c]> (store w)) w).
Proof.
  intros Hk. assert (Hst : ∀ p x, store w !! p = Some x → <[path k := c]> (store w) !! p = Some x).
  { intros p x Hx. rewrite lookup_insert_ne; [done|]. congruence. }
  split; simpl; eauto.
  - intros t s Hs. exists s. split; [done|lia].
  - intros H t s Hs Hp. destruct (H t s Hs Hp) as [x Hx]. exists x. unfold effective in *. simpl.
    destruct (shadow w !! _); [done|by apply Hst].
Qed.

Section Request.
Context (t : CredentialRotationType) (w0 : World).

Notation allowed := (relies honest).

(** What holds at every point of a request *)
Definition going (w : World) : Prop := honest w0 w ∧ staged w.

Lemma going_honest w w' : going w → honest w w' → going w'.
Proof using Type. intros [H1 H2] H. split; [by etrans|by apply H]. Qed.

(** The secret of a version is there. *)
Definition has (v : Z) (c : Credentials) (w : World) : Prop := going w ∧ effective w (vkey t v) = Some c.

Lemma has_honest v c w w' : has v c w → honest w w' → has v c w'.
Proof using Type. intros [H1 H2] H. split; [by eapply going_honest|by eapply honest_effective]. Qed.

Lemma reading {E A} (P : World → Prop) wrap (f : Z → World → result E A) (V : A → World → Prop) :
  (∀ w w', P w → honest w w' → P w') → (∀ z w x, P w → f z w = Ok x → V x w) →
  hoare allowed P (read wrap f) (λ r w, P w ∧ ∀ x, r = Ok x → V x w).
Proof using Type.
  intros Hst HV. apply (hoare_rely _ _ P); [done| |naive_solver..]. intros z w Hw. simpl.
  destruct (f z w) eqn:Hfz; simpl; naive_solver.
Qed.

Lemma reading_only {E A} (P : World → Prop) wrap (f : Z → World → result E A) :
  (∀ w w', P w → honest w w' → P w') → hoare allowed P (read wrap f) (λ _, P).
Proof using Type. intros Hst. eapply hoare_weaken; [by apply (reading P wrap f (λ _ _, True))|done|naive_solver]. Qed.

Lemma create_going v c : hoare allowed going (create_credentials (vkey t v) c) (λ _, going).
Proof using Type.
  apply (hoare_rely _ _ going); [by eauto using going_honest| |done..]. intros _ w Hw.
  destruct (store w !! path (vkey t v)) eqn:E; simpl; [done|].
  assert (going (set_store (<[path (vkey t v) := c]> (store w)) w)); [|done].
  by eapply going_honest, create_honest.
Qed.

(** If the secret is staged, it is there; it is the password of the operator, if one was
    given. *)
Lemma stage_triple v c supplied :
  hoare allowed going (stage_versioned_secret (vkey t v) c supplied v)
    (λ r w, going w ∧ (r = Ok () → ∃ x, has v x w ∧ (supplied = true → x = c))).
Proof using Type.
  unfold stage_versioned_secret. pose proof going_honest as Hst.
  set (Q := λ (r : result (stop CarbideError) Credentials) w, going w ∧ ∀ x, r = Ok x → supplied = true → x = c).
  eapply (hoare_seq _ _ _ _ (λ _, going)); [|intros created|naive_solver].
  { apply hoare_catch. eapply hoare_weaken; [apply create_going|done|by intros [|[]]]. }
  eapply (hoare_seq _ _ _ _ Q); [|intros x|unfold Q; naive_solver].
  { destruct created as [[]|e]; [apply hoare_ret; unfold Q; naive_solver|].
    eapply (hoare_try _ _ _ _ (λ _, going)); [by apply reading_only| | |unfold Q; naive_solver].
    - intros [existing|]; [|apply hoare_lift; unfold Q; naive_solver].
      destruct supplied; simpl; [|apply hoare_ret; unfold Q; naive_solver].
      case_bool_decide; simpl; [apply hoare_ret|apply hoare_lift]; unfold Q; naive_solver.
    - intros e'. apply hoare_lift. unfold Q. naive_solver. }
  apply (hoare_assume _ (supplied = true → x = c)); [unfold Q; naive_solver|]. intros Hx.
  apply (hoare_from _ going); [unfold Q; naive_solver|].
  eapply (hoare_seq _ _ _ _ (λ _, going)); [|intros o|naive_solver].
  { eapply hoare_convert; [by apply reading_only|done..]. }
  eapply (hoare_seq _ _ _ _ (λ _, going)); [by apply hoare_lift|intros []|naive_solver].
  eapply (hoare_seq _ _ _ _ (λ r w, going w ∧ ∀ o, r = Ok o → effective w (vkey t v) = o)); [|intros eff|naive_solver].
  { eapply hoare_convert; [apply (reading going id _ (λ o w, effective w (vkey t v) = o)); [done|naive_solver]|naive_solver..]. }
  apply hoare_lift. intros w [Hw He]. case_decide as Hd; simpl; [|naive_solver].
  split; [done|]. intros _. exists x. split; [|done]. split; [done|]. rewrite (He _ eq_refl). done.
Qed.

(** The table after a new target *)
Lemma publish_honest now db n meta w :
  db = set_sitewide t (mk_sitewide n now meta) (rot w) →
  (∀ s, sitewide (rot w) !! t = Some s → target_version s ≤ n) → is_Some (effective w (vkey t n)) →
  honest w (set_rot db w).
Proof using Type.
  intros -> Hle Hn. split; simpl; eauto.
  - intros t' s Hs. destruct (decide (t' = t)) as [->|Ht].
    + eexists. rewrite lookup_insert_eq. split; [done|]. by apply Hle.
    + exists s. rewrite lookup_insert_ne by done. split; [done|lia].
  - intros H t' s Hs Hp. unfold effective in *. simpl in *. destruct (decide (t' = t)) as [->|Ht].
    + rewrite lookup_insert_eq in Hs. by simplify_eq/=.
    + rewrite lookup_insert_ne in Hs by done. by apply (H t').
Qed.

Definition published_at (v : Z) (w : World) : Prop :=
  ∃ s, sitewide (rot w) !! t = Some s ∧ v ≤ target_version s.

Lemma publish_step current next now meta w c :
  next_target t current = Ok next → has next c w →
  let '(r, w') := publish_target t current meta now w in
  has next c w' ∧ ∀ st, r = Ok st → staged_target st = next ∧ published_at next w'.
Proof using Type.
  intros Hnext Hw. unfold publish_target.
  assert (Hdone : ∀ db, db = set_sitewide t (mk_sitewide next now meta) (rot w) →
    (∀ s, sitewide (rot w) !! t = Some s → target_version s ≤ next) →
    let w' := if decide (t = Nvos) then enqueue_nvos_rotation_switches now (set_rot db w) else set_rot db w in
    has next c w' ∧ published_at next w').
  { intros db Hdb Hle w'. assert (Hh : honest w (set_rot db w)).
    { eapply publish_honest; [done|done|]. destruct Hw as [_ He]. by rewrite He. }
    assert (Hr : rot w' = db) by (unfold w'; by case_decide). split.
    - eapply has_honest; [by eapply has_honest|]. unfold w'. case_decide; by apply honest_same.
    - exists (mk_sitewide next now meta). rewrite Hr, Hdb. simpl. rewrite lookup_insert_eq. split; [done|lia]. }
  destruct current as [v|]; simpl in Hnext.
  - unfold set_next_target_version. destruct (sitewide (rot w) !! t) as [s|] eqn:Hs; [|done].
    destruct (target_version s =? v) eqn:Hv; [|done]. apply Z.eqb_eq in Hv. subst v.
    unfold plus_one. destruct (target_version s <? i32_max); simplify_eq/=.
    edestruct Hdone; [done|intros s' [= <-]; lia|]. split; [done|]. intros st [= <-]. done.
  - unfold set_initial_target_version. destruct (sitewide (rot w) !! t) as [s|] eqn:Hs; [done|].
    case_decide; [|done]. simplify_eq/=. edestruct Hdone; [done|done|].
    split; [done|]. intros st [= <-]. done.
Qed.

Lemma published_honest v w w' : published_at v w → honest w w' → published_at v w'.
Proof using Type.
  intros (s & Hs & Hv) H. destruct (hon_target _ _ H t s Hs) as (s' & Hs' & Hle). exists s'. split; [done|lia].
Qed.

End Request.

Lemma version_to_u32_nonneg v what : 0 ≤ v → version_to_u32 v what = Ok v.
Proof. intros H. unfold version_to_u32. by rewrite (proj2 (Z.leb_le _ _) H). Qed.

Lemma version_to_u32_ok v v' what : version_to_u32 v what = Ok v' → v' = v ∧ 0 ≤ v.
Proof. unfold version_to_u32. destruct (0 <=? v) eqn:E; intros; simplify_eq. split; [done|lia]. Qed.

Section Handler.
Context (component_manager : option bool) (draws : Draws) (json : option string → list string → string).
Context (w0 : World).

Notation allowed := (relies honest).

Lemma missing_sources_going gaps : hoare allowed (going w0) (missing_sources gaps) (λ _, going w0).
Proof using Type.
  pose proof (going_honest w0) as Hst. induction gaps as [|[[id [mac|]] b] gaps IH]; simpl.
  - by apply hoare_ret.
  - destruct b.
    + eapply hoare_seq; [exact IH|by intros l; apply hoare_ret|done].
    + eapply (hoare_seq _ _ _ _ (λ _, going w0)); [|intros c|done].
      { eapply hoare_convert; [by apply reading_only|done..]. }
      eapply hoare_seq; [exact IH|by intros l; apply hoare_ret|done].
  - eapply hoare_seq; [exact IH|by intros l; apply hoare_ret|done].
Qed.

Lemma preconditions_going t : hoare allowed (going w0) (nvos_preconditions component_manager t) (λ _, going w0).
Proof using Type.
  pose proof (going_honest w0) as Hst. unfold nvos_preconditions. case_decide; [|by apply hoare_ret].
  destruct component_manager as [[]|]; try by apply hoare_lift.
  unfold require_nvos_credential_sources. eapply hoare_seq; [by apply reading_only|intros gaps|done].
  eapply hoare_seq; [apply missing_sources_going|intros l|done].
  destruct l; [by apply hoare_ret|by apply hoare_lift].
Qed.

Lemma password_going supplied :
  hoare allowed (going w0) (rotate_to_password draws supplied)
    (λ r w, going w0 w ∧ ∀ p x, r = Ok x → supplied = Some p → x = p).
Proof using Type.
  unfold rotate_to_password. destruct supplied as [p|].
  - apply hoare_lift. intros w Hw. split; [done|]. intros p' x.
    destruct (validate_password_strength p) as [[]|]; simpl; naive_solver.
  - destruct (generate_password draws); [by apply hoare_ret|]. intros w sc Hsc Hw. split; [done|]. by split.
Qed.

Lemma rotate_credential_going initiator req :
  hoare allowed (going w0) (rotate_credential component_manager draws json initiator req)
    (λ r w, going w0 w ∧ ∀ res, r = Ok res → ∃ t c,
      to_rotation_type (req_credential_type req) = Ok t ∧ has t w0 (res_target_version res) c w ∧
      (∀ p, req_password req = Some p → c = UsernamePassword EmptyString p) ∧
      published_at t (res_target_version res) w).
Proof using Type.
  pose proof (going_honest w0) as Hst. unfold rotate_credential.
  destruct (to_rotation_type (req_credential_type req)) as [t|e] eqn:Ht.
  2: { intros w sc Hsc Hw. split; [done|]. split; [done|]. done. }
  eapply hoare_known; [by apply hoare_lift_known|].
  eapply hoare_seq; [apply preconditions_going|intros []|naive_solver].
  eapply hoare_seq; [apply password_going|intros pw|naive_solver].
  apply (hoare_assume _ (∀ p, req_password req = Some p → pw = p)); [naive_solver|]. intros Hpw.
  apply (hoare_from _ (going w0)); [tauto|].
  eapply hoare_seq; [by apply reading_only|intros current|naive_solver].
  destruct (next_target t current) as [next|e] eqn:Hnext.
  2: { intros w sc Hsc Hw. split; [done|]. split; [done|]. done. }
  eapply hoare_known; [by apply hoare_lift_known|].
  destruct (version_to_u32 next "rotation target version") as [v|e] eqn:Hv.
  2: { intros w sc Hsc Hw. split; [done|]. split; [done|]. done. }
  eapply hoare_known; [by apply hoare_lift_known|]. apply version_to_u32_ok in Hv as [-> Hpos].
  eapply hoare_seq; [apply (stage_triple t w0)|intros []|naive_solver].
  apply (hoare_from _ (λ w, ∃ c, (bool_decide (is_Some (req_password req)) = true → c = UsernamePassword EmptyString pw) ∧
    has t w0 next c w)); [naive_solver|].
  apply hoare_exists. intros c. apply hoare_pre. intros Hc.
  set (Q := λ (r : result (stop CarbideError) StagedRotation) w, has t w0 next c w ∧ ∀ st, r = Ok st →
    staged_target st = next ∧ published_at t next w).
  eapply (hoare_seq _ _ _ _ Q); [|intros st|unfold Q, has; naive_solver].
  - apply (hoare_rely _ _ (has t w0 next c)); [by eauto using has_honest| |unfold Q; naive_solver..].
    intros now w Hw. pose proof (publish_step t w0 current next now (json (req_reason req) initiator) w c Hnext Hw) as Hp.
    destruct (publish_target _ _ _ _ _) as [r w']. destruct Hp as [Hh Hr]. unfold Q. destruct r; naive_solver.
  - apply (hoare_assume _ (staged_target st = next)); [unfold Q; naive_solver|]. intros ->.
    eapply hoare_known; [apply hoare_lift_known; by apply version_to_u32_nonneg|].
    apply hoare_ret. intros w [Hw Hp]. split; [apply Hw|]. intros res [= <-]. simpl. exists t, c.
    split; [done|]. split; [done|]. split; [|naive_solver].
    intros p Hr. rewrite Hc; [by rewrite (Hpw p Hr)|]. rewrite Hr. by apply bool_decide_eq_true_2.
Qed.

End Handler.

(** C15: A request to rotate, among others that do the same, and whatever fails or dies,
    never overwrites the secret of a version, never lowers a target, and publishes a
    target only when its secret can be read; if it reports a target, that version holds
    the password of the operator, if one was given, and is published. *)
Theorem publish_after_secret component_manager draws json initiator req w0 sc :
  staged w0 → (∀ n, relies honest (sc n)) →
  let run := rotate_credential component_manager draws json initiator req w0 sc in
  honest w0 run.2.1 ∧ staged run.2.1 ∧
  ∀ res, run.1 = Ok res → ∃ t c, to_rotation_type (req_credential_type req) = Ok t ∧
    effective run.2.1 (versioned_rotation_key t (res_target_version res)) = Some c ∧
    (∀ p, req_password req = Some p → c = UsernamePassword EmptyString p) ∧
    published_at t (res_target_version res) run.2.1.
Proof.
  intros Hs Hsc. destruct (rotate_credential_going component_manager draws json w0 initiator req w0 sc Hsc) as [_ H].
  { split; [apply honest_refl|done]. }
  destruct H as [[Hh Hst] Hr]. split; [done|]. split; [done|]. intros res E.
  destruct (Hr res E) as (t & c & Ht & [_ He] & Hp & Hpub). eauto 8.
Qed.

(** ** One undisturbed request *)

(** Nobody interferes, every call works, and the time is [now]. *)
Definition at_once (now : Z) : script World := λ _, mk_step id Works now.

Lemma call_at_once {E A} wrap (f : Z → World → result E A * World) now w :
  call wrap f w (at_once now) = (returned (f now w).1, ((f now w).2, at_once now)).
Proof. reflexivity. Qed.

(** The outcome of a request for a family with rows, in one function *)
Definition rotate_outcome (t : CredentialRotationType) (generated meta : string) (req : RotateCredentialRequest)
    (now : Z) (w : World) : result CarbideError RotateCredentialResult * World :=
  let supplied := bool_decide (is_Some (req_password req)) in
  match (match req_password req with
         | Some p => map_err (InvalidArgumentError ∘ policy_text) (validate_password_strength p)
         | None => Ok ()
         end) with
  | Err e => (Err e, w)
  | Ok () =>
      let c := UsernamePassword EmptyString (default generated (req_password req)) in
      match sitewide (rot w) !! t with
      | None => (Err (FailedPrecondition ("no site-wide rotation target exists for " +:+ rotation_type_debug t)), w)
      | Some s =>
          if target_version s <? i32_max then
            let v := target_version s + 1 in
            let k := path (versioned_rotation_key t v) in
            let shadowed staged := match shadow w !! k with Some x => negb (bool_decide (x = staged)) | None => false end in
            let finish staged w :=
              if shadowed staged
              then (Err (InternalError ("effective rotate-to secret readback did not match version " +:+ print_i v)), w)
              else (Ok (mk_rotated (req_credential_type req) v now),
                    set_rot (set_sitewide t (mk_sitewide v now meta) (rot w)) w) in
            match store w !! k with
            | None => finish c (set_store (<[k := c]> (store w)) w)
            | Some x =>
                if supplied && negb (bool_decide (x = c)) then
                  (Err (ConcurrentModificationError "credential rotation"
                    ("rotate-to version " +:+ print_i v +:+ " is already staged with a different password")), w)
                else finish x w
            end
          else (Err (InternalError ("rotation target version " +:+ print_i (target_version s) +:+ " cannot be advanced")), w)
      end
  end.

(** The end of staging when nobody interferes: the effective secret must be the staged one. *)
Definition stage_check (k : CredentialKey) (staged : Credentials) (v : Z) (w : World) : result CarbideError () :=
  if match shadow w !! path k with Some x => negb (bool_decide (x = staged)) | None => false end
  then Err (InternalError ("effective rotate-to secret readback did not match version " +:+ print_i v)) else Ok ().

Lemma effective_check k staged v w : store w !! path k = Some staged →
  (if decide (effective w k = Some staged) then Ok ()
   else Err (InternalError ("effective rotate-to secret readback did not match version " +:+ print_i v))) = stage_check k staged v w.
Proof.
  intros Hs. unfold effective, stage_check. destruct (shadow w !! path k) as [x|].
  - destruct (decide (x = staged)) as [->|Hne]; [by rewrite decide_True, bool_decide_eq_true_2|].
    by rewrite decide_False, bool_decide_eq_false_2 by congruence.
  - by rewrite Hs, decide_True.
Qed.

Lemma stage_at_once k c supplied v now w :
  stage_versioned_secret k c supplied v w (at_once now) =
    match store w !! path k with
    | None => (returned (stage_check k c v w), (set_store (<[path k := c]> (store w)) w, at_once now))
    | Some x =>
        if supplied && negb (bool_decide (x = c)) then
          (Err (Failed (ConcurrentModificationError "credential rotation"
            ("rotate-to version " +:+ print_i v +:+ " is already staged with a different password"))), (w, at_once now))
        else (returned (stage_check k x v w), (w, at_once now))
    end.
Proof.
  unfold stage_versioned_secret, create_credentials, get_credentials_from_writer, get_credentials, read.
  unfold mbind, prog_bind, catch, convert. rewrite call_at_once.
  destruct (store w !! path k) as [x|] eqn:Hx; cbn [fst snd returned].
  - rewrite call_at_once. cbn [fst snd returned]. rewrite Hx.
    destruct (supplied && negb (bool_decide (x = c))); [done|]. cbn [mret prog_ret].
    rewrite call_at_once. cbn [fst snd returned]. rewrite Hx. unfold lift. rewrite decide_True by done. cbn [returned].
    rewrite call_at_once. cbn [fst snd returned]. by rewrite (effective_check k x v w).
  - cbn [mret prog_ret]. rewrite call_at_once. cbn [fst snd returned store set_store].
    rewrite lookup_insert_eq. unfold lift. rewrite decide_True by done. cbn [returned].
    rewrite call_at_once. cbn [fst snd returned].
    rewrite (effective_check k c v (set_store (<[path k := c]> (store w)) w)) by (simpl; by rewrite lookup_insert_eq). done.
Qed.

(** C23: The outcome of an undisturbed request for a family other than NVOS is exactly this:
    a weak password, a missing target, a target that cannot grow and a version that is
    staged with another password are refused, each with its error and without effect;
    otherwise the secret is stored, or the one that is there is adopted.  If a source of
    secrets that is read before the store shadows it with another value, the request fails
    and nothing is published; otherwise the next version is published.  The target of the
    family is not negative, and a password can be generated. *)
Theorem rotate_credential_exact component_manager draws json initiator req t g now w :
  to_rotation_type (req_credential_type req) = Ok t → t ≠ Nvos → generate_password draws = Some g →
  (∀ s, sitewide (rot w) !! t = Some s → 0 ≤ target_version s) →
  rotate_credential component_manager draws json initiator req w (at_once now) =
    let '(r, w') := rotate_outcome t g (json (req_reason req) initiator) req now w in
    (returned r, (w', at_once now)).
Proof.
  intros Ht Hn Hg Hpos. unfold rotate_credential, rotate_outcome, mbind, prog_bind, lift.
  rewrite Ht. cbn [returned]. unfold nvos_preconditions. rewrite decide_False by done. cbn [mret prog_ret].
  assert (Hpw : rotate_to_password draws (req_password req) w (at_once now) =
    match (match req_password req with
           | Some p => map_err (InvalidArgumentError ∘ policy_text) (validate_password_strength p)
           | None => Ok ()
           end) with
    | Ok () => (Ok (default g (req_password req)), (w, at_once now))
    | Err e => (Err (Failed e), (w, at_once now))
    end).
  { unfold rotate_to_password. destruct (req_password req) as [p|]; [|by rewrite Hg].
    unfold lift. by destruct (validate_password_strength p) as [[]|]. }
  rewrite Hpw. destruct (match req_password req with Some _ => _ | None => _ end) as [[]|e]; [|done].
  unfold read. rewrite call_at_once. cbn [fst snd returned]. unfold current_target_version.
  destruct (sitewide (rot w) !! t) as [s|] eqn:Hs; cbn [fmap option_fmap option_map next_target].
  2: { rewrite decide_False by done. done. }
  destruct (target_version s <? i32_max) eqn:Hlt; [|done]. cbn [returned].
  specialize (Hpos s eq_refl). rewrite version_to_u32_nonneg by lia. cbn [returned].
  rewrite stage_at_once. unfold stage_check.
  assert (Hpub : ∀ w', sitewide (rot w') !! t = Some s →
    publish_target t (Some (target_version s)) (json (req_reason req) initiator) now w' =
      (Ok (mk_staged (target_version s + 1) now),
       set_rot (set_sitewide t (mk_sitewide (target_version s + 1) now (json (req_reason req) initiator)) (rot w')) w')).
  { intros w' Hs'. unfold publish_target, set_next_target_version. rewrite Hs', Z.eqb_refl. unfold plus_one.
    rewrite Hlt. cbn. by rewrite decide_False. }
  assert (Hend : ∀ (b : bool) e w', sitewide (rot w') !! t = Some s →
    (let '(r, (w1, sc1)) := (returned (if b then Err e else Ok ()), (w', at_once now)) : result (stop CarbideError) () * (World * script World) in
     match r with
     | Ok _ => (staged ← call (DbError ∘ QueryError) (publish_target t (Some (target_version s)) (json (req_reason req) initiator));
                target_version ← lift (version_to_u32 (staged_target staged) "staged target version");
                mret (mk_rotated (req_credential_type req) target_version (staged_at staged))) w1 sc1
     | Err e => (Err e, (w1, sc1))
     end) =
    let '(r, w1) := if b then (Err e, w') else
      (Ok (mk_rotated (req_credential_type req) (target_version s + 1) now),
       set_rot (set_sitewide t (mk_sitewide (target_version s + 1) now (json (req_reason req) initiator)) (rot w')) w') in
    (returned r, (w1, at_once now))).
  { intros [] e w' Hs'; [done|]. cbn [returned]. unfold mbind, prog_bind, lift.
    rewrite call_at_once, Hpub by done. cbn [fst snd returned staged_target]. rewrite version_to_u32_nonneg by lia. done. }
  destruct (store w !! path _) as [x|]; [destruct (_ && _); [done|]|]; by apply Hend.
Qed.

(** ** Status *)

Lemma count_zero f l : count f l = 0%nat ↔ ∀ d, d ∈ l → f d = false.
Proof.
  unfold count. split.
  - intros H d Hd. destruct (f d) eqn:E; [|done]. exfalso.
    assert (Hf : d ∈ filter (λ d, f d = true) l) by by apply list_elem_of_filter.
    destruct (filter _ l); [by apply not_elem_of_nil in Hf|done].
  - intros H. destruct (filter (λ d, f d = true) l) as [|d l'] eqn:E; [done|]. exfalso.
    assert (Hf : d ∈ filter (λ d, f d = true) l) by (rewrite E; left).
    apply list_elem_of_filter in Hf as [Hf Hd]. rewrite (H d Hd) in Hf. done.
Qed.

(** The report of a family with rows says that a rotation is complete exactly if every
    device has reached the target and none is quarantined; no device that is behind is
    hidden. *)
Theorem complete_exact parse_mac n t now w s :
  to_rotation_type n = Ok t → t ≠ Nvos → sitewide (rot w) !! t = Some s → 0 ≤ target_version s →
  ∃ rep, (get_credential_rotation_status parse_mac n None w (at_once now)).1 = Ok rep ∧
    rep_target_version rep = target_version s ∧
    (rep_complete rep = true ↔ ∀ mac d, devices (rot w) !! (mac, t) = Some d →
       is_converged (target_version s) (Some d) = true ∧ is_quarantined now (Some d) = false).
Proof.
  intros Ht Hn Hs Hpos. unfold get_credential_rotation_status, mbind, prog_bind, lift. rewrite Ht. cbn [returned].
  unfold read. rewrite call_at_once. unfold rotation_status. rewrite decide_False, Hs by done. cbn.
  unfold site_report. cbn [counts st_target_version]. rewrite version_to_u32_nonneg by done. cbn. eexists. split; [done|]. split; [done|]. cbn.
  rewrite andb_true_iff, !bool_decide_eq_true, !count_zero. split.
  - intros [Hp Hq] mac d Hd. assert (He : Some d ∈ ((λ e, Some e.2) <$> rows_of t (rot w))).
    { apply list_elem_of_fmap. exists ((mac, t), d). split; [done|]. unfold rows_of.
      by rewrite list_elem_of_filter, elem_of_map_to_list. }
    specialize (Hp _ He). specialize (Hq _ He). unfold is_pending in Hp. rewrite Hq in Hp.
    destruct (is_converged _ _); naive_solver.
  - intros H. assert (He : ∀ o, o ∈ ((λ e : (string * CredentialRotationType) * DeviceRow, Some e.2) <$> rows_of t (rot w)) →
      is_converged (target_version s) o = true ∧ is_quarantined now o = false).
    { intros o Ho. apply list_elem_of_fmap in Ho as ([[mac t'] d] & -> & Hd). unfold rows_of in Hd.
      rewrite list_elem_of_filter, elem_of_map_to_list in Hd. destruct Hd as [Ht' Hd]. simpl in Ht'. subst t'. eauto. }
    split; intros o Ho; destruct (He o Ho) as [E1 E2]; [unfold is_pending; by rewrite E1|done].
Qed.

(** ** Examples *)

Definition example_draws : Draws := mk_draws (λ i, (1, i `min` 25)%nat) (reverse (seq 0 16)) (λ i, i).
Definition example_world : World :=
  mk_world (mk_rotation_db {[ Bmc := mk_sitewide 0 0 EmptyString ]}
              {[ ("m1"%string, Bmc) := mk_device (Some 0) None None 0 None None None ]} ∅ ∅)
    ∅ ∅ ∅ ∅ ∅ [] ∅ (mk_table ∅ empty_log) ∅ no_fabric (mk_table ∅ empty_log) [].
Definition example_json (reason : option string) (initiator : list string) : string := "{}".

(** A request that dies before it publishes, and its retry *)
Definition half_request : script World := script_of (repeat quiet 4 ++ [mk_step id Dies 0]).

Lemma publish_after_secret_witness :
  let req := mk_rotate 1 (Some "Abcdefgh1234567!"%string) None in
  let run := rotate_credential None example_draws example_json [] req example_world half_request in
  honest example_world run.2.1 ∧ staged run.2.1 ∧
  ∀ res, run.1 = Ok res → ∃ t c, to_rotation_type 1 = Ok t ∧
    effective run.2.1 (versioned_rotation_key t (res_target_version res)) = Some c ∧
    (∀ p, Some "Abcdefgh1234567!"%string = Some p → c = UsernamePassword EmptyString p) ∧
    published_at t (res_target_version res) run.2.1.
Proof.
  intros req. apply (publish_after_secret None example_draws example_json [] req example_world half_request).
  - intros t s Hs. simpl in Hs. apply lookup_singleton_Some in Hs as [<- <-]. simpl. intros [?|?]; [lia|done].
  - apply (script_of_all (relies honest)); [intros w; apply honest_refl|]. simpl. repeat (constructor; [intros w; apply honest_refl|]). constructor.
Defined.

Lemma rotate_credential_exact_witness :
  let req := mk_rotate 1 (Some "Abcdefgh1234567!"%string) None in
  rotate_credential None example_draws example_json [] req example_world (at_once 7) =
    let '(r, w') := rotate_outcome Bmc "abcdefghijkl@2bA" "{}" req 7 example_world in (returned r, (w', at_once 7)).
Proof.
  intros req. apply (rotate_credential_exact None example_draws example_json [] req Bmc "abcdefghijkl@2bA" 7 example_world).
  - done.
  - done.
  - by vm_compute.
  - intros s Hs. simpl in Hs. rewrite lookup_singleton_eq in Hs. by simplify_eq.
Defined.

Lemma complete_exact_witness :
  ∃ rep, (get_credential_rotation_status Ok 1 None example_world (at_once 7)).1 = Ok rep ∧
    rep_target_version rep = 0 ∧
    (rep_complete rep = true ↔ ∀ mac d, devices (rot example_world) !! (mac, Bmc) = Some d →
       is_converged 0 (Some d) = true ∧ is_quarantined 7 (Some d) = false).
Proof. by apply (complete_exact Ok 1 Bmc 7 example_world (mk_sitewide 0 0 EmptyString)). Defined.
